(* ===== verification/_CoqProject ===== *)
-Q . S2P
Prelude.v
Path.v
Ops.v
OptState.v
Invert.v
PrefixSort.v
Structure.v
Simplify.v
Flatten.v
Step.v
Objects.v
Store.v
Utf8.v
Glob.v
Pattern.v
Builders.v
Persist.v
Pest.v
Grammar.v
FlangParse.v
Flang.v
FlangText.v
FlangItems.v
FlangRound.v
PersistFacts.v
PersistReads.v
TreeOps.v
TreePaths.v
TreeWalk.v
Node.v
NodeFacts.v
Refine.v
Concrete.v
PersistRound.v
FileMap.v
NodeFilter.v
NodePut.v
NodeKeys.v
RevWalk.v
HistoryHint.v
CommitCache.v
SearchIndex.v
HistoryGraph.v
GraphMerge.v
Apply.v
Trailers.v
Search.v
Rewriting.v
Commits.v
Push.v
Denote.v
ApplyFacts.v
Relocate.v
OptRoutes.v
Lens.v
OptLaws.v
FlangLaws.v
RevWalkFacts.v
RangeWalkFacts.v
SledCache.v
HistoryTruth.v
HistoryGraphFacts.v
RecordFacts.v
FilteredHistory.v
HistoryLaws.v
CommitFacts.v
CommitRuns.v
ExampleRepo.v
CommitLaws.v
PushFacts.v
PushLaws.v
MemOdb.v
MemOdbFacts.v
MemOdbRuns.v
SearchTrees.v
SearchSpec.v
SearchBuild.v
SearchRun.v
SearchFind.v
SearchLaws.v
