(* ===== verification/Prelude.v ===== *)
(** Verification of josh, a tool that projects git repositories through filters: a filter
    maps every tree of a repository to a filtered tree, and a change of the filtered tree
    back to a change of the repository.

    * The program and its model

    Filters are operators ([Op], src/josh-filter/src/op.rs) that an optimizer rewrites, that
    are persisted as git trees, and that are applied to trees through an object database with
    many memo tables.  Histories are walked by the revision walkers and rewritten commit by
    commit, with a cache of filtered commits; a push is rebuilt on the originals of filtered
    commits.  New objects are buffered in memory and packed by a background thread.  A search
    index over trees is built incrementally, is stored as a tree and answers searches.

    - Prelude: results with errors, the monad of stateful code, loops, shared lemmas.
      Path: [std::path] and [normalize_path].  Utf8: [std::str::from_utf8].
    - Ops: the operators (op.rs).  OptState, Invert, PrefixSort, Structure, Simplify, Flatten,
      Step: the optimizer (src/josh-filter/src/opt), each pass with its memo table.
    - Glob: the pattern compiler and matcher (src/vendor/rust-lang/glob).  Pattern: the
      automaton over path components (pattern.rs).  Builders: the filter handle (filter.rs)
      and the functions of src/josh-core/src/filter/mod.rs that rewrite filters.
    - Objects, Store: git objects, the object database and the state of a transaction
      (josh-memodb/src/odb.rs, josh-core/src/cache).  Persist: filters as trees (persist.rs);
      PersistFacts, PersistReads, PersistRound: its round trip.
    - Pest, Grammar: the notation of grammar.pest with its meaning, and the grammar of filters.
      FlangParse, Flang: the parser and the printers (flang/parse.rs, flang/mod.rs).  FlangText,
      FlangItems: what the grammar makes of paths, strings and operators.  FlangRound, FlangLaws:
      printing a filter and parsing the text.
    - TreeOps, TreePaths, TreeWalk: the operations on trees (filter/tree.rs).  Node, NodeFacts,
      NodeKeys: trees as values with reference operations.  Refine, FileMap, NodeFilter,
      NodePut: the operations implement the reference operations.
    - Apply: applying a filter to a tree and the reverse (filter/mod.rs, filter/text.rs).
      Denote: what a filter means for trees as values.  ApplyFacts: the code computes this
      meaning.  Relocate: filters as partial functions on paths.  Lens: the laws of [apply]
      and [unapply].  OptRoutes, OptLaws: filters as relations between paths, and what
      optimizing keeps of them.
    - RevWalk, RevWalkFacts, RangeWalkFacts: the walkers of josh-gix-ext/src/revwalk.rs.
    - HistoryHint, CommitCache, SledCache, HistoryGraph: hints and sample points, the stack of
      cache backends, the on-disk backend, the records of a transaction and the history graph
      (src/josh-core/src/cache: backend.rs, stack.rs, sled.rs, transaction.rs,
      history_graph.rs).  HistoryTruth: what the records of a history are.  HistoryGraphFacts,
      RecordFacts, HistoryLaws: the code computes them and its clients can rely on it.
    - GraphMerge: merge bases and merges (josh-gix-ext/src/graph.rs, merge.rs).  Trailers:
      commit headers and trailers (josh-core/src/trailers.rs, git.rs).  Rewriting: writing and
      dropping filtered commits (history.rs).  Commits: [apply_to_commit] with its loop over
      missing records (filter/mod.rs, history.rs).  Push: originals and [unapply_filter]
      (history.rs).  FilteredHistory: what a commit is rewritten to, by recursion on its
      history.  CommitFacts, CommitRuns, CommitLaws: the code computes it.  PushFacts,
      PushLaws: a push is undone by filtering.
    - MemOdb, MemOdbFacts, MemOdbRuns: the memory stores, the background thread and the packs
      of josh-memodb, as a system of interleaved steps.
    - SearchIndex, Search: the index of josh-search/src/lib.rs with its memo tables and flush, the
      cache of indexes of a transaction (transaction.rs), and the search with an index or by a
      scan.  SearchTrees, SearchSpec: trigrams, indexes as sets of paths, and what a source tree
      has to be recorded as.  SearchBuild, SearchRun: indexing builds this.  SearchFind: what a
      search makes of it.  SearchLaws: the theorems.
    - Concrete, ExampleRepo: instances of all interfaces, and repositories to evaluate on.

    Definitions have the names of the source.  Rust's [Result] is [res]; a function with
    effects is a function of the monad [M] over the state it changes.  A filter is its
    operator tree, since the source interns operators structurally; tables keyed by the id of
    a filter are keyed by the filter, which [filter_id_injective] justifies.  Git objects are
    known by their address; a tree object is the list of its entries.  A path is the list of its
    components, so that two spellings of a path with redundant separators are one path.  A panic
    of the source, as of [unwrap], is an error result.

    * Code that is not modelled but assumed

    Type classes state what the code relies on: [ObjectHash] (addresses are injective),
    [BisectEntry] and [EntryModes] (gix tree entries), [Readers], [RegexReplace],
    [JsonText] (JSON strings), [FilterText] and [FilterSpec] (what applying and caching use of
    the parser and printer of filters; [flang_spec] is the printer of Flang as a [FilterSpec]),
    [Collaborators] (templates, scripts, hooks, and the call that indexes a tree for the filter
    [:INDEX]), [Signatures] and [Gix] (signatures, merge bases and merges of the gix libraries),
    [HashOrder] (the order in which a hash set is iterated).
    [LawfulBackend] is what the stack of caches asks of a backend; [sled_lawful] shows that
    the on-disk backend has it.  [GlobKeys] names what the entries of the memo table of
    patterns stand for.  [ObjectBytes] is the parser of tree bytes and the size in an object
    header; [LawfulIndexCache] is what indexing asks of a cache, that it answers only what it was
    told, and [trigram_index_lawful] shows it of the cache of a transaction.  Concrete,
    ExampleRepo and the files of the theorems instantiate them.

    * What is proved

    - Optimizer: inversion is involutive and exchanges source and destination; simplification,
      flattening and the loop over the rewriting steps ([iterate]) terminate; the sort of
      branches keeps overlapping ones in order.  Filters that only move files ([movable]: no
      subtraction) are relations between paths ([edges]): where a file may be taken to, without
      saying which branch of a composition takes it first.  All passes keep this relation.  For
      filters without overlapping branches ([relocates]) it is the route of every file, and the
      optimized filter makes the same tree.  Two examples show that optimizing can lose a file
      of overlapping branches and bring back a subtracted one.
    - Persistence: a persisted filter is read back as its optimized form and ids identify
      filters; two operators are not, and long compositions are reordered.
    - Language: the text that is printed for a filter is parsed as what the builders make of its
      operators, which, if they return, is a filter with the same relation between paths; three
      kinds of filters are not parsed back.
    - Trees: subtraction, intersection, overlay, patterns and insertion have the effect on
      files that their names say, from every sound state of the memo tables.
    - Application: [apply] computes the meaning of a filter; for filters that move files it
      moves exactly the files the filter says, unapplying and applying again gives the pushed
      tree, applying and unapplying the old one, and files out of reach are kept.
    - Walkers: the orders are topological and complete; ranges are exact.
    - Commit caches: sequence numbers are longest paths and roots are the parentless ancestors,
      from every sound state of the caches; every backward walk meets a sample point within
      the interval; records survive their transaction and the closing of the database.
    - Commits: for filters of trees that the optimizer records as their own optimum,
      [apply_to_commit] returns, from every sound state of the caches, the commit that the history
      alone determines; it has the filtered tree, its history is made of rewritten commits of the
      original history, and commits are dropped only without loss.  If the optimizer makes
      another filter of it, the tree is still that of the filter as it was written, for filters
      without overlapping branches.  Originals of filtered commits are found if there are any.
    - Pushes: filtering a rebuilt push gives the pushed commit again; an example shows that a
      push that ends in the filtered target is cut short.
    - Search: a search with the index gives exactly the matches of the files of the tree, from
      every sound state: a new indexer, or one left by calls that succeeded, over a cache whose
      indexes are right and stored; and the address of an index does not depend on that state.
      Two examples show that the order of the files can differ from that of a scan, and that an
      indexer that is kept after a failed call can return an index that is not stored.
    - Stores: in every interleaving nothing is lost, drains are durable and are answered.

    * Bounds

    Recursions that do not follow the structure of an argument take a budget: the height of a
    tree, the size of a filter, or the length of a loop; running out is the result [OutOfFuel].
    The outer loop of the optimizer is bounded by nothing in the source and not shown to end:
    [persist_round_trip], [optimized_filter_moves] and [apply_to_commit_optimizes] have it as a
    hypothesis that the optimizer returns; [parse_spec_round_trip] says of the builders, which
    call the optimizer, that they do not fail and what they return.  All other theorems say that there is a result,
    and not [OutOfFuel]; a filter that is recorded as its own optimum does not enter the loop.
    They name the budget ([size], [height]), show that every large enough budget gives one and
    the same result ([ends], for the rewriting steps: by how much there is to rewrite), or show
    that one exists that depends on the filter and the tree only and that every larger one
    gives the same result (Lens), or that one exists that depends on the history and the
    filters only (CommitLaws, PushLaws: the predicate [ample]); indexing takes the depth of the
    tree and four for the levels above it, and the flush as much as it has buffered (SearchLaws).
    Hints keep the widths of their fields, and arithmetic on sequence numbers and on the sizes of
    directories wraps at 64 bits; automaton states are unbounded integers, and the
    automaton falls back to whole paths where the source does.

    * What is not modelled

    The cache in git refs, changes, and the servers and tools around the library.  A pack lands
    or fails as a whole (MemOdb), and the background thread does not panic.

    The theorems about trees are about trees as git writes them (entries in order, without
    repetition, no empty subtrees) all of whose objects can be read ([present]), the commits of
    submodules among them.  Those about commits are about filters that act on the tree alone,
    without the option of a linear history, and those about pushes about commits pushed in a
    line; the other filters and merges in a push are modelled and executable, without
    theorems. *)

From stdpp Require Export base tactics option list sets strings.
From Stdlib Require Export Ascii Lia.
From Stdlib Require Export Sorting.Sorted.

(** * Results *)

(** The outcome of a fallible computation: a value, an [anyhow] error with its
    message, or an exhausted recursion budget of the model. *)
Inductive res (A : Type) : Type :=
| Ok (a : A)
| Err (msg : string)
| OutOfFuel.
Arguments Ok {A} _.
Arguments Err {A} _.
Arguments OutOfFuel {A}.

#[export] Instance res_ret : MRet res := fun A a => Ok a.
#[export] Instance res_bind : MBind res := fun A B k m =>
  match m with Ok a => k a | Err e => Err e | OutOfFuel => OutOfFuel end.
#[export] Instance res_fmap : FMap res := fun A B f m =>
  match m with Ok a => Ok (f a) | Err e => Err e | OutOfFuel => OutOfFuel end.

#[export] Instance res_eq_dec {A} `{EqDecision A} : EqDecision (res A).
Proof. solve_decision. Defined.

(** [Result::ok]: the value of a successful computation. *)
Definition res_ok {A} (r : res A) : option A :=
  match r with Ok a => Some a | _ => None end.

Definition is_ok {A} (r : res A) : bool :=
  match r with Ok _ => true | _ => false end.

(** [collect::<Result<Vec<_>, _>>()] over an iterator of results: the first
    error ends the iteration. *)
Fixpoint collect_res {A} (l : list (res A)) : res (list A) :=
  match l with
  | [] => Ok []
  | r :: l => a ← r; l' ← collect_res l; Ok (a :: l')
  end.

(** * State and errors *)

(** A computation over a state [S] that may fail; the state reached at the
    failure is kept, as a Rust function that returns [Err] keeps the effects
    performed so far. *)
Definition M (S A : Type) : Type := S -> res A * S.

#[export] Instance M_ret S : MRet (M S) := fun A a s => (Ok a, s).
#[export] Instance M_bind S : MBind (M S) := fun A B k m s =>
  match m s with
  | (Ok a, s') => k a s'
  | (Err e, s') => (Err e, s')
  | (OutOfFuel, s') => (OutOfFuel, s')
  end.

Definition lift {S A} (r : res A) : M S A := fun s => (r, s).
Definition fail {S A} (e : string) : M S A := fun s => (Err e, s).
Definition gets {S A} (f : S -> A) : M S A := fun s => (Ok (f s), s).
Definition modify {S} (f : S -> S) : M S unit := fun s => (Ok tt, f s).

(** Effectful loops over a vector. *)
Fixpoint mapM {S A B} (f : A -> M S B) (l : list A) : M S (list B) :=
  match l with
  | [] => mret []
  | a :: l => b ← f a; bs ← mapM f l; mret (b :: bs)
  end.

Fixpoint foldM {S A B} (f : B -> A -> M S B) (acc : B) (l : list A) : M S B :=
  match l with
  | [] => mret acc
  | a :: l => acc' ← f acc a; foldM f acc' l
  end.

(** * Strings *)

#[global] Arguments String.append !_ _ / : simpl nomatch.

Fixpoint string_exists (p : ascii -> bool) (s : string) : bool :=
  match s with
  | EmptyString => false
  | String c s => p c || string_exists p s
  end.

Lemma append_nil_r (s : string) : s +:+ EmptyString = s.
Proof. induction s as [|c s IH]; simpl; by rewrite ?IH. Qed.

Lemma append_assoc (s t u : string) : s +:+ (t +:+ u) = (s +:+ t) +:+ u.
Proof. induction s as [|c s IH]; simpl; by rewrite ?IH. Qed.

(** The order of byte strings. *)

Lemma ascii_compare_refl (a : ascii) : Ascii.compare a a = Eq.
Proof. apply N.compare_refl. Qed.

Lemma string_compare_refl (s : string) : String.compare s s = Eq.
Proof. induction s as [|c s IH]; simpl; [done|]. by rewrite ascii_compare_refl. Qed.

Lemma string_compare_eq (s t : string) : String.compare s t = Eq <-> s = t.
Proof.
  split; [apply String.compare_eq_iff|]. intros ->. apply string_compare_refl.
Qed.

Lemma string_compare_lt_trans (s t u : string) :
  String.compare s t = Lt -> String.compare t u = Lt -> String.compare s u = Lt.
Proof.
  revert t u. induction s as [|a s IH]; intros [|b t] [|c u]; simpl; try done.
  destruct (Ascii.compare a b) eqn:E1; try done;
    destruct (Ascii.compare b c) eqn:E2; try done; intros H1 H2.
  - apply Ascii.compare_eq_iff in E1 as ->. rewrite E2. by eapply IH.
  - apply Ascii.compare_eq_iff in E1 as ->. by rewrite E2.
  - apply Ascii.compare_eq_iff in E2 as ->. by rewrite E1.
  - assert (Ascii.compare a c = Lt) as ->; [|done].
    unfold Ascii.compare in *. apply N.compare_lt_iff in E1, E2.
    apply N.compare_lt_iff. by eapply N.lt_trans.
Qed.

Lemma string_compare_gt (s t : string) : String.compare s t = Gt <-> String.compare t s = Lt.
Proof. rewrite String.compare_antisym. destruct (String.compare t s); simpl; split; done. Qed.

(** * Reasoning about computations *)

(** The result of a computation together with an update of the state made
    whatever the result is. *)
Definition finally {S A} (m : M S A) (f : res A -> S -> S) : M S A :=
  fun s => let '(r, s') := m s in (r, f r s').

(** [m] computes [r] in every state of the invariant [I], and keeps [I]. *)
Definition computes {S A} (I : S -> Prop) (m : M S A) (r : res A) : Prop :=
  forall s, I s -> (m s).1 = r /\ I (m s).2.

Section Computes.
Context {S : Type} (I : S -> Prop).

Lemma computes_ret {A} (a : A) : computes I (mret a) (Ok a).
Proof. by intros s. Qed.

Lemma computes_lift {A} (r : res A) : computes I (lift r) r.
Proof. by intros s. Qed.

Lemma lift_ok_bind {A B} (a : A) (k : A -> M S B) : (lift (Ok a) ≫= k) = k a.
Proof. reflexivity. Qed.

Lemma computes_fail {A} (e : string) : computes I (fail e) (Err (A := A) e).
Proof. by intros s. Qed.

Lemma computes_bind {A B} (m : M S A) (k : A -> M S B) (r : res A) (h : A -> res B) :
  computes I m r -> (forall a, r = Ok a -> computes I (k a) (h a)) ->
  computes I (m ≫= k) (r ≫= h).
Proof.
  intros Hm Hk s Hs. destruct (Hm s Hs) as [Hr Hs'].
  unfold mbind, M_bind. destruct (m s) as [x s']. simpl in Hr, Hs'. subst x.
  destruct r as [a|e|]; simpl; try done. by apply Hk.
Qed.

Lemma computes_bind_ok {A B} (m : M S A) (k : A -> M S B) (a : A) (r : res B) :
  computes I m (Ok a) -> computes I (k a) r -> computes I (m ≫= k) r.
Proof.
  intros Hm Hk. change r with (Ok a ≫= fun _ : A => r).
  eapply computes_bind; [done|]. by intros b [= <-].
Qed.

(** Reading the state and continuing with what was read. *)
Lemma computes_gets {A B} (f : S -> A) (k : A -> M S B) (r : res B) :
  (forall s, I s -> computes (fun s' => I s') (k (f s)) r) ->
  computes I (gets f ≫= k) r.
Proof. intros H s Hs. by apply (H s Hs s Hs). Qed.

Lemma computes_modify {B} (f : S -> S) (k : M S B) (r : res B) :
  (forall s, I s -> I (f s)) -> computes I k r ->
  computes I (modify f ≫= fun _ => k) r.
Proof. intros Hf Hk s Hs. apply Hk. by apply Hf. Qed.

Lemma computes_finally {A} (m : M S A) (f : res A -> S -> S) (r : res A) :
  computes I m r -> (forall s, I s -> I (f r s)) -> computes I (finally m f) r.
Proof.
  intros Hm Hf s Hs. destruct (Hm s Hs) as [Hr Hs']. unfold finally.
  destruct (m s) as [x s']. simpl in *. subst x. split; [done|]. by apply Hf.
Qed.

Lemma computes_mapM {A B} (f : A -> M S B) (g : A -> res B) (l : list A) :
  (forall x, x ∈ l -> computes I (f x) (g x)) ->
  computes I (mapM f l) (collect_res (g <$> l)).
Proof.
  induction l as [|x l IH]; intros H; [apply computes_ret|]. rewrite fmap_cons. simpl.
  apply computes_bind; [apply H; left|]. intros b _.
  apply computes_bind; [apply IH; intros y Hy; apply H; by right|].
  intros bs _. apply computes_ret.
Qed.

Lemma computes_mapM_ok {A B} (f : A -> M S B) (g : A -> B) (l : list A) :
  (forall x, x ∈ l -> computes I (f x) (Ok (g x))) ->
  computes I (mapM f l) (Ok (g <$> l)).
Proof.
  intros H. assert (collect_res ((fun x => Ok (g x)) <$> l) = Ok (g <$> l)) as <-.
  { clear H. induction l as [|x l IH]; [done|]. rewrite fmap_cons. simpl. by rewrite IH. }
  by apply computes_mapM.
Qed.

End Computes.

Lemma collect_res_ok {A} (l : list (res A)) (l' : list A) :
  collect_res l = Ok l' <-> l = Ok <$> l'.
Proof.
  revert l'. induction l as [|r l IH]; intros l'; simpl.
  - destruct l'; split; done.
  - destruct r as [a|e|]; simpl; [|destruct l'; done..].
    destruct (collect_res l) as [bs|e|] eqn:E; simpl.
    + destruct l' as [|b l']; [done|]. rewrite fmap_cons.
      split; [intros [= <- <-]|intros [= <- H]]; [by rewrite (proj1 (IH bs) eq_refl)|].
      apply IH in H. by simplify_eq.
    + split; [done|]. destruct l'; [done|]. intros [= _ H]. by apply IH in H.
    + split; [done|]. destruct l'; [done|]. intros [= _ H]. by apply IH in H.
Qed.

(** * Ordered maps *)

(** A [BTreeMap] with string keys, as the list of its bindings in key order. *)
Section BTreeMap.
Context {V : Type}.

Fixpoint btree_insert (k : string) (v : V) (m : list (string * V)) : list (string * V) :=
  match m with
  | [] => [(k, v)]
  | (k', v') :: m' =>
      match String.compare k k' with
      | Lt => (k, v) :: m
      | Eq => (k, v) :: m'
      | Gt => (k', v') :: btree_insert k v m'
      end
  end.

Fixpoint btree_get (k : string) (m : list (string * V)) : option V :=
  match m with
  | [] => None
  | (k', v) :: m => if decide (k = k') then Some v else btree_get k m
  end.

(** The keys are strictly increasing. *)
Fixpoint btree_sorted (m : list (string * V)) : Prop :=
  match m with
  | [] => True
  | (k, _) :: m =>
      match m with [] => True | (k', _) :: _ => String.compare k k' = Lt end
      /\ btree_sorted m
  end.

Lemma btree_insert_sorted k v m : btree_sorted m -> btree_sorted (btree_insert k v m).
Proof.
  induction m as [|[k' v'] m IH]; simpl; [done|]. intros [H1 H2].
  destruct (String.compare k k') eqn:E; simpl.
  - apply string_compare_eq in E as ->. done.
  - done.
  - apply string_compare_gt in E. split; [|by apply IH].
    destruct m as [|[k2 v2] m]; simpl; [done|].
    destruct (String.compare k k2); done.
Qed.

Lemma btree_get_insert k k' v m :
  btree_get k' (btree_insert k v m) = if decide (k' = k) then Some v else btree_get k' m.
Proof.
  induction m as [|[k2 v2] m IH]; simpl; [done|].
  destruct (String.compare k k2) eqn:E; simpl.
  - apply string_compare_eq in E as ->. by repeat case_decide.
  - done.
  - rewrite IH. repeat case_decide; subst; try done.
    by rewrite string_compare_refl in E.
Qed.

End BTreeMap.

(** * Lists *)

Lemma Forall_forallb {A} (p : A -> bool) (l : list A) :
  forallb p l = true <-> Forall (fun x => p x = true) l.
Proof. rewrite forallb_forall, Forall_forall. by setoid_rewrite list_elem_of_In. Qed.

Lemma list_filter_ext {A} (P Q : A -> Prop) `{!forall x, Decision (P x)}
    `{!forall x, Decision (Q x)} (l : list A) :
  (forall x, x ∈ l -> P x <-> Q x) -> base.filter P l = base.filter Q l.
Proof.
  induction l as [|x l IH]; intros HPQ; [done|].
  pose proof (HPQ x ltac:(left)) as Hx. rewrite !filter_cons.
  rewrite IH by (intros y Hy; apply HPQ; by right).
  repeat case_decide; tauto.
Qed.

Lemma list_filter_none {A} (P : A -> Prop) `{!forall x, Decision (P x)} (l : list A) :
  (forall x, x ∈ l -> ~ P x) -> base.filter P l = [].
Proof.
  intros HP. induction l as [|x l IH]; [done|].
  rewrite filter_cons_False by (apply HP; left). apply IH. intros y Hy. apply HP. by right.
Qed.

Lemma list_filter_all {A} (P : A -> Prop) `{!forall x, Decision (P x)} (l : list A) :
  (forall x, x ∈ l -> P x) -> base.filter P l = l.
Proof.
  induction l as [|x l IH]; intros Hl; [done|]. rewrite filter_cons, decide_True by (apply Hl; left).
  f_equal. apply IH. intros y Hy. apply Hl. by right.
Qed.

(** * Ordered maps with any key *)

(** A list is determined by its elements if it is sorted by a strict order. *)
Lemma strict_sorted_unique {A} (R : A -> A -> Prop) (l l' : list A) :
  (forall a b, R a b -> R b a -> False) ->
  StronglySorted R l -> StronglySorted R l' -> (forall x, x ∈ l <-> x ∈ l') -> l = l'.
Proof.
  intros HR Hl. revert l'. induction Hl as [|a l Hl IH Ha]; intros l' Hl' He.
  - destruct l' as [|b l']; [done|]. specialize (He b). set_solver.
  - destruct Hl' as [|b l' Hl' Hb]; [specialize (He a); set_solver|].
    rewrite Forall_forall in Ha, Hb. assert (a = b) as ->.
    { assert (a ∈ b :: l') as [?|Hab]%elem_of_cons by (apply He; left); [done|].
      assert (b ∈ a :: l) as [?|Hba]%elem_of_cons by (apply He; left); [done|].
      destruct (HR a b); [by apply Ha|by apply Hb]. }
    f_equal. apply IH; [done|]. intros x. specialize (He x). rewrite !elem_of_cons in He.
    assert (forall y, R y y -> False) as Hirr by (intros y Hy; by apply (HR y y)).
    split; intros Hx.
    + destruct (proj1 He (or_intror Hx)) as [->|?]; [|done]. by destruct (Hirr b); apply Ha.
    + destruct (proj2 He (or_intror Hx)) as [->|?]; [|done]. by destruct (Hirr b); apply Hb.
Qed.

Section OrdMap.
Context {K V : Type} (cmp : K -> K -> comparison).

(** [BTreeMap::insert]. *)
Fixpoint ord_insert (k : K) (v : V) (m : list (K * V)) : list (K * V) :=
  match m with
  | [] => [(k, v)]
  | (k', v') :: m' =>
      match cmp k k' with
      | Lt => (k, v) :: m
      | Eq => (k, v) :: m'
      | Gt => (k', v') :: ord_insert k v m'
      end
  end.

Context (cmp_eq : forall a b, cmp a b = Eq -> a = b).
Context (cmp_refl : forall a, cmp a a = Eq).
Context (cmp_gt : forall a b, cmp a b = Gt <-> cmp b a = Lt).
Context (cmp_trans : forall a b c, cmp a b = Lt -> cmp b c = Lt -> cmp a c = Lt).

Definition key_before (a b : K * V) : Prop := cmp a.1 b.1 = Lt.
Definition ord_sorted (m : list (K * V)) : Prop := StronglySorted key_before m.

Lemma elem_of_ord_insert k v m x :
  k ∉ m.*1 -> x ∈ ord_insert k v m <-> x = (k, v) \/ x ∈ m.
Proof.
  induction m as [|[k' v'] m IH]; simpl; intros Hk; [set_solver|].
  rewrite not_elem_of_cons in Hk. destruct Hk as [Hne Hk].
  destruct (cmp k k') eqn:E; [by apply cmp_eq in E|set_solver|].
  rewrite elem_of_cons, IH by done. set_solver.
Qed.

Lemma ord_insert_sorted k v m :
  ord_sorted m -> k ∉ m.*1 -> ord_sorted (ord_insert k v m).
Proof.
  induction 1 as [|[k' v'] m Hm IH Hk']; simpl; intros Hk; [by repeat constructor|].
  rewrite not_elem_of_cons in Hk. destruct Hk as [Hne Hk].
  destruct (cmp k k') eqn:E; [by apply cmp_eq in E| |].
  - constructor; [by constructor|]. constructor; [done|].
    rewrite Forall_forall in *. intros x Hx. eapply cmp_trans; [exact E|]. by apply (Hk' x).
  - constructor; [by apply IH|]. rewrite Forall_forall in *.
    intros x [->|Hx]%elem_of_ord_insert; [by apply cmp_gt|by apply Hk'|done].
Qed.

(** Inserting the bindings of a map in any order gives the map. *)
Lemma ord_insert_all (m l : list (K * V)) :
  ord_sorted m -> NoDup (m.*1) -> Permutation l m ->
  foldl (fun m x => ord_insert x.1 x.2 m) [] l = m.
Proof.
  intros Hm Hn Hp.
  assert (forall acc, ord_sorted acc -> NoDup (acc.*1 ++ l.*1) ->
    let r := foldl (fun m x => ord_insert x.1 x.2 m) acc l in
    ord_sorted r /\ forall x, x ∈ r <-> x ∈ acc \/ x ∈ l) as H.
  { clear Hm Hn Hp. induction l as [|x l IH]; intros acc Hs Hd; cbv zeta; simpl.
    { split; [done|]. set_solver. }
    simpl in Hd. rewrite <- Permutation_middle in Hd. apply NoDup_cons in Hd as [Hx Hd].
    assert (x.1 ∉ acc.*1) as Hxa by set_solver.
    destruct (IH (ord_insert x.1 x.2 acc)) as [Hs' He].
    - by apply ord_insert_sorted.
    - assert (Permutation ((ord_insert x.1 x.2 acc).*1) (x.1 :: acc.*1)) as ->.
      { clear - cmp_eq Hxa. induction acc as [|[k' v'] acc IH]; [done|]. simpl in *.
        destruct (cmp x.1 k') eqn:E; [apply cmp_eq in E; set_solver|done|].
        simpl. rewrite IH by set_solver. constructor. }
      simpl. by apply NoDup_cons.
    - split; [done|]. intros y. rewrite He, elem_of_ord_insert by done.
      rewrite elem_of_cons. destruct x as [k v]. simpl. tauto. }
  destruct (H []) as [Hs He]; [constructor|by rewrite Hp|].
  apply (strict_sorted_unique key_before); [|done|done|].
  - intros a b Hab Hba. apply (cmp_trans _ _ _ Hab) in Hba. unfold key_before in *.
    by rewrite cmp_refl in Hba.
  - intros x. rewrite He, Hp. set_solver.
Qed.

End OrdMap.

Lemma ord_sorted_nodup {K V} (cmp : K -> K -> comparison) (m : list (K * V)) :
  (forall a, cmp a a = Eq) -> ord_sorted cmp m -> NoDup (m.*1).
Proof.
  intros Hr. induction 1 as [|x m Hm IH Hx]; [constructor|]. rewrite fmap_cons.
  apply NoDup_cons. split; [|done]. rewrite Forall_forall in Hx.
  intros ([k v] & E & Hy)%list_elem_of_fmap. specialize (Hx _ Hy). unfold key_before in Hx.
  simpl in *. subst. by rewrite Hr in Hx.
Qed.

Lemma btree_insert_ord {V} k (v : V) m : btree_insert k v m = ord_insert String.compare k v m.
Proof. induction m as [|[k' v'] m IH]; [done|]. simpl. by rewrite IH. Qed.

Lemma texts_insert_all (m l : list (string * string)) :
  ord_sorted String.compare m -> Permutation l m ->
  foldl (fun m x => btree_insert x.1 x.2 m) [] l = m.
Proof.
  intros Hm Hp. transitivity (foldl (fun m x => ord_insert String.compare x.1 x.2 m) [] l);
    [|apply (ord_insert_all String.compare); auto].
  - clear. generalize (@nil (string * string)). induction l as [|x l IH]; intros a; [done|]. simpl.
    by rewrite btree_insert_ord, IH.
  - intros a b. apply string_compare_eq.
  - intros a. apply string_compare_refl.
  - apply string_compare_gt.
  - apply string_compare_lt_trans.
  - apply (ord_sorted_nodup String.compare); [intros a; apply string_compare_refl|done].
Qed.

(** * Budgets *)

(** From some budget on. *)
Definition ample (P : nat -> Prop) : Prop := exists h0, forall h, h0 <= h -> P h.

Lemma ample_ge k : ample (fun h => k <= h).
Proof. by exists k. Qed.

Lemma ample_always (P : nat -> Prop) : (forall h, P h) -> ample P.
Proof. by exists 0. Qed.

Lemma ample_and (P Q R : nat -> Prop) :
  ample P -> ample Q -> (forall h, P h -> Q h -> R h) -> ample R.
Proof.
  intros [h1 H1] [h2 H2] HR. exists (max h1 h2). intros h Hh. apply HR; [apply H1|apply H2]; lia.
Qed.

Lemma ample_impl (P Q : nat -> Prop) :
  ample P -> (forall h, P h -> Q h) -> ample Q.
Proof. intros [h0 H0] HQ. exists h0. auto. Qed.

Lemma ample_all {A} (l : list A) (P : A -> nat -> Prop) :
  (forall a, a ∈ l -> ample (P a)) -> ample (fun h => forall a, a ∈ l -> P a h).
Proof.
  induction l as [|a l IH]; intros Hl.
  { apply ample_always. intros h b Hb. by apply not_elem_of_nil in Hb. }
  eapply ample_and; [apply (Hl a); left|apply IH; intros b Hb; apply Hl; by right|].
  intros h Ha Hall b [->|Hb]%elem_of_cons; [done|by apply Hall].
Qed.

(** A computation with a budget that ends: from every state of [I] it returns one value of [Q],
    whatever the budget is from some budget on, and keeps [I]. *)
Definition ends {S A} (I : S -> Prop) (m : nat -> M S A) (Q : A -> Prop) : Prop :=
  forall s, I s -> exists a s', ample (fun n => m n s = (Ok a, s')) /\ I s' /\ Q a.

Section Ends.
Context {S : Type} (I : S -> Prop).

Lemma ends_ret {A} (a : A) (Q : A -> Prop) : Q a -> ends I (fun _ => mret a) Q.
Proof. intros Ha s Hs. exists a, s. split; [by apply ample_always|done]. Qed.

Lemma ends_computes {A} (m : M S A) (a : A) (Q : A -> Prop) :
  computes I m (Ok a) -> Q a -> ends I (fun _ => m) Q.
Proof.
  intros Hm Ha s Hs. destruct (Hm s Hs) as [E Hs']. exists a, (m s).2. split; [|done].
  apply ample_always. intros _. rewrite <- E. apply surjective_pairing.
Qed.

Lemma ends_bind {A B} (m : nat -> M S A) (k : nat -> A -> M S B) (Q : A -> Prop) (P : B -> Prop) :
  ends I m Q -> (forall a, Q a -> ends I (fun n => k n a) P) -> ends I (fun n => m n ≫= k n) P.
Proof.
  intros Hm Hk s Hs. destruct (Hm s Hs) as (a & s1 & E1 & Hs1 & Ha).
  destruct (Hk a Ha s1 Hs1) as (b & s2 & E2 & Hs2 & Hb). exists b, s2. split; [|done].
  eapply ample_and; [exact E1|exact E2|]. intros n En1 En2. unfold mbind, M_bind. by rewrite En1.
Qed.

Lemma ends_weaken {A} (m : nat -> M S A) (Q P : A -> Prop) :
  ends I m Q -> (forall a, Q a -> P a) -> ends I m P.
Proof. intros Hm HQ s Hs. destruct (Hm s Hs) as (a & s' & E & Hs' & Ha). exists a, s'. auto. Qed.

Lemma ends_mapM {A B} (f : nat -> A -> M S B) (R : A -> B -> Prop) (l : list A) :
  (forall a, a ∈ l -> ends I (fun n => f n a) (R a)) -> ends I (fun n => mapM (f n) l) (Forall2 R l).
Proof.
  induction l as [|a l IH]; intros Hl; [by apply ends_ret|].
  eapply (ends_bind _ _ (R a)); [apply Hl; left|]. intros b Hb.
  eapply (ends_bind _ _ (Forall2 R l)); [apply IH; intros x Hx; apply Hl; by right|].
  intros bs Hbs. apply ends_ret. by constructor.
Qed.

(** What needs one more unit of budget. *)
Lemma ends_later {A} (m : nat -> M S A) (Q : A -> Prop) :
  ends I (fun n => m (Datatypes.S n)) Q -> ends I m Q.
Proof.
  intros Hm s Hs. destruct (Hm s Hs) as (a & s' & [h0 E] & H). exists a, s'. split; [|done].
  exists (Datatypes.S h0). intros [|h] Hh; [lia|]. apply E. lia.
Qed.

End Ends.

(** Computations that do the same from every state. *)
Definition agree {S A} (m m' : M S A) : Prop := forall s, m s = m' s.

Lemma agree_refl {S A} (m : M S A) : agree m m.
Proof. done. Qed.

Lemma agree_trans {S A} (m m' m'' : M S A) : agree m m' -> agree m' m'' -> agree m m''.
Proof. intros H1 H2 s. by rewrite H1. Qed.

Lemma agree_bind {S A B} (m m' : M S A) (k k' : A -> M S B) :
  agree m m' -> (forall a, agree (k a) (k' a)) -> agree (m ≫= k) (m' ≫= k').
Proof.
  intros Hm Hk s. unfold mbind, M_bind. rewrite Hm. destruct (m' s) as [[a|e|] s']; [apply Hk|done|done].
Qed.

Lemma agree_mapM {S A A' B} (f : A -> M S B) (g : A' -> M S B) l l' :
  Forall2 (fun a a' => agree (f a) (g a')) l l' -> agree (mapM f l) (mapM g l').
Proof.
  induction 1 as [|a a' l l' Ha _ IH]; [done|]. simpl. apply agree_bind; [done|]. intros b.
  apply agree_bind; [done|]. intros bs. apply agree_refl.
Qed.

Lemma agree_foldM {S A A' B} (f : B -> A -> M S B) (g : B -> A' -> M S B) acc l l' :
  Forall2 (fun a a' => forall b, agree (f b a) (g b a')) l l' -> agree (foldM f acc l) (foldM g acc l').
Proof.
  intros Hl. revert acc. induction Hl as [|a a' l l' Ha _ IH]; intros acc; [done|]. simpl. apply agree_bind; [done|]. intros b.
  apply IH.
Qed.

Lemma bind_assoc_agree {S A B C} (m : M S A) (k : A -> M S B) (k' : B -> M S C) :
  agree ((m ≫= k) ≫= k') (m ≫= fun a => k a ≫= k').
Proof. intros s. unfold mbind, M_bind. destruct (m s) as [[a|e|] s']; done. Qed.
