(* ===== verification/Path.v ===== *)
(** Paths as [std::path] sees them: [Path::components], the operations of
    [PathBuf] the filter library uses (join, push, pop, parent, file_name, the
    order on paths), the text form, and [normalize_path] of
    josh-filter/src/opt/paths.rs.  Two [PathBuf]s are equal for [Eq], [Hash] and
    [Ord] when their components are, so a path is its list of components. *)

From S2P Require Import Prelude.

(** * Components *)

Inductive component :=
| RootDir
| CurDir
| ParentDir
| Normal (c : string).

#[export] Instance component_eq_dec : EqDecision component.
Proof. solve_decision. Defined.

Abbreviation path := (list component).

(** [Component::as_os_str]. *)
Definition as_os_str (c : component) : string :=
  match c with
  | RootDir => "/"
  | CurDir => "."
  | ParentDir => ".."
  | Normal s => s
  end.

(** The derived order of [Component]: the variants in their order, then the
    bytes of a normal component. *)
Definition component_rank (c : component) : nat :=
  match c with RootDir => 0 | CurDir => 1 | ParentDir => 2 | Normal _ => 3 end.

Definition component_cmp (a b : component) : comparison :=
  match a, b with
  | Normal x, Normal y => String.compare x y
  | _, _ => Nat.compare (component_rank a) (component_rank b)
  end.

Fixpoint path_cmp (a b : path) : comparison :=
  match a, b with
  | [], [] => Eq
  | [], _ :: _ => Lt
  | _ :: _, [] => Gt
  | x :: a, y :: b =>
      match component_cmp x y with Eq => path_cmp a b | c => c end
  end.

(** * Text *)

Definition slash : Ascii.ascii := "/"%char.

(** The parts of a text between its slashes. *)
Fixpoint split_slash (s : string) : list string :=
  match s with
  | EmptyString => [EmptyString]
  | String c s' =>
      if decide (c = slash) then EmptyString :: split_slash s'
      else match split_slash s' with
           | [] => [String c EmptyString]
           | p :: ps => String c p :: ps
           end
  end.

(** A part of a path text that is not its first: empty parts and [.] are
    skipped. *)
Definition component_of_part (s : string) : option component :=
  if decide (s = EmptyString) then None
  else if decide (s = ".") then None
  else if decide (s = "..") then Some ParentDir
  else Some (Normal s).

Definition has_root (s : string) : bool :=
  match s with String c _ => bool_decide (c = slash) | EmptyString => false end.

(** [Path::new(s).components()]. *)
Definition components (s : string) : path :=
  let parts := split_slash s in
  (if has_root s then [RootDir]
   else match parts with "." :: _ => [CurDir] | _ => [] end)
    ++ omap component_of_part parts.

(** The text of a path with the given components. *)
Fixpoint join_slash (l : list string) : string :=
  match l with
  | [] => EmptyString
  | [s] => s
  | s :: l => s +:+ String slash (join_slash l)
  end.

Definition to_string (p : path) : string :=
  match p with
  | RootDir :: p => String slash (join_slash (as_os_str <$> p))
  | _ => join_slash (as_os_str <$> p)
  end.

(** * Operations of [PathBuf] *)

Definition is_absolute (p : path) : bool :=
  match p with RootDir :: _ => true | _ => false end.

(** [Path::join]: an absolute argument replaces, and a [.] that is no longer in
    front is not a component any more. *)
Definition join (p q : path) : path :=
  match q with
  | RootDir :: _ => q
  | CurDir :: q' => match p with [] => q | _ => p ++ q' end
  | _ => p ++ q
  end.

(** [PathBuf::push] of the text of one component. *)
Definition push (p : path) (c : component) : path := join p [c].

(** [Path::parent]: [None] for the empty path and for the root. *)
Definition parent (p : path) : option path :=
  match last p with
  | None | Some RootDir => None
  | Some _ => Some (removelast p)
  end.

(** [PathBuf::pop]. *)
Definition pop (p : path) : path := default p (parent p).

(** [Path::file_name]. *)
Definition file_name (p : path) : option string :=
  match last p with Some (Normal s) => Some s | _ => None end.

(** [normalize_path]: resolves [.] and [..] without looking at a file system. *)
Definition normalize_step (ret : path) (c : component) : path :=
  match c with
  | RootDir => push ret RootDir
  | CurDir => ret
  | ParentDir => pop ret
  | Normal s => push ret (Normal s)
  end.

Definition normalize_path (p : path) : path := foldl normalize_step [] p.

(** * Well-formed paths *)

(** A normal component is not empty, not [.] or [..], and has no slash. *)
Definition normal_part (s : string) : Prop :=
  component_of_part s = Some (Normal s) /\ split_slash s = [s].

Definition inner_component (c : component) : Prop :=
  match c with RootDir | CurDir => False | ParentDir => True | Normal s => normal_part s end.

(** What [Path::components] yields: the root and [.] only in front. *)
Definition wf_path (p : path) : Prop :=
  match p with
  | [] => True
  | RootDir :: p | CurDir :: p => Forall inner_component p
  | _ => Forall inner_component p
  end.

Definition is_normal (c : component) : Prop :=
  match c with Normal _ => True | _ => False end.

(** A path of names only, the form every tree operation works with. *)
Definition plain_path (p : path) : Prop := Forall is_normal p.

(** A normalised path: an optional root followed by names. *)
Definition normalized (p : path) : Prop :=
  match p with
  | RootDir :: p => plain_path p
  | _ => plain_path p
  end.

(** * Lemmas *)

Lemma split_slash_cons (s : string) : exists p ps, split_slash s = p :: ps.
Proof.
  destruct s as [|c s]; simpl; [eauto|].
  case_decide; [eauto|]. destruct (split_slash s); eauto.
Qed.

Lemma split_slash_app (s t : string) :
  split_slash s = [s] ->
  split_slash (s +:+ String slash t) = s :: split_slash t.
Proof.
  induction s as [|c s IH]; simpl; [done|].
  case_decide as Hc; [done|].
  destruct (split_slash_cons s) as (p & ps & E). rewrite E. intros [= -> ->].
  by rewrite IH.
Qed.

Lemma inner_component_split (c : component) :
  inner_component c -> split_slash (as_os_str c) = [as_os_str c].
Proof. by destruct c; simpl; try (intros []; done). Qed.

Lemma inner_component_part (c : component) :
  inner_component c -> component_of_part (as_os_str c) = Some c.
Proof. by destruct c; simpl; try (intros []; done). Qed.

(** The parts of a text written by [join_slash] are the parts written. *)
Lemma split_join_slash (p : path) :
  p ≠ [] -> Forall inner_component p ->
  split_slash (join_slash (as_os_str <$> p)) = as_os_str <$> p.
Proof.
  induction p as [|c p IH]; [done|]. intros _ [Hc Hp]%Forall_cons.
  destruct p as [|d p]; simpl; [by apply inner_component_split|].
  rewrite split_slash_app by (by apply inner_component_split).
  f_equal. by apply IH.
Qed.

Lemma omap_inner (p : path) :
  Forall inner_component p -> omap component_of_part (as_os_str <$> p) = p.
Proof.
  induction 1 as [|c p Hc Hp IH]; [done|]. cbn.
  rewrite (inner_component_part _ Hc). by f_equal.
Qed.

Lemma omap_join_slash (p : path) :
  Forall inner_component p ->
  omap component_of_part (split_slash (join_slash (as_os_str <$> p))) = p.
Proof.
  destruct p as [|c p]; [done|]. intros H.
  by rewrite split_join_slash, omap_inner.
Qed.

Lemma inner_no_root (c : component) (t : string) :
  inner_component c -> has_root (as_os_str c +:+ t) = false.
Proof.
  destruct c as [| | |[|x s]]; simpl; try done; intros [H1 H2]; [done|].
  simpl in *. apply bool_decide_eq_false. intros ->. by rewrite decide_True in H2.
Qed.

Lemma inner_not_dot (c : component) : inner_component c -> as_os_str c ≠ ".".
Proof. intros H E. pose proof (inner_component_part _ H) as P. by rewrite E in P. Qed.

Lemma join_slash_cons (s : string) (l : list string) :
  exists t, join_slash (s :: l) = s +:+ t.
Proof.
  destruct l; simpl; [|eauto]. exists EmptyString. by rewrite append_nil_r.
Qed.

Lemma components_join_slash (p : path) :
  Forall inner_component p -> components (join_slash (as_os_str <$> p)) = p.
Proof.
  intros H. unfold components. rewrite omap_join_slash by done.
  destruct p as [|c p]; [done|]. rewrite split_join_slash by done.
  apply Forall_cons in H as [Hc _].
  assert (has_root (join_slash (as_os_str <$> c :: p)) = false) as ->.
  { rewrite fmap_cons. destruct (join_slash_cons (as_os_str c) (as_os_str <$> p)) as [t ->].
    by apply inner_no_root. }
  pose proof (inner_not_dot _ Hc) as Hd. rewrite fmap_cons.
  destruct (as_os_str c) as [|[[] [] [] [] [] [] [] []] [|x s]]; done.
Qed.

(** Reading the text of a path back gives the path. *)
Lemma components_to_string (p : path) : wf_path p -> components (to_string p) = p.
Proof.
  destruct p as [|[| | |s] p]; [done|..]; intros H;
    [| |by apply (components_join_slash _ H)..].
  - unfold components. simpl. f_equal. by apply omap_join_slash.
  - unfold components. destruct p as [|d p]; [done|]. simpl in *.
    f_equal. apply (omap_join_slash (d :: p)). done.
Qed.

Lemma split_slash_parts (s : string) :
  Forall (fun t => split_slash t = [t]) (split_slash s).
Proof.
  induction s as [|c s IH]; simpl; [by repeat constructor|].
  case_decide as Hc; [by constructor|].
  destruct (split_slash s) as [|p ps]; [constructor; [|done]|].
  - simpl. by rewrite decide_False.
  - apply Forall_cons in IH as [Hp Hps]. constructor; [|done].
    simpl. by rewrite decide_False, Hp.
Qed.

Lemma component_of_part_inner (t : string) (c : component) :
  split_slash t = [t] -> component_of_part t = Some c -> inner_component c.
Proof.
  unfold component_of_part. intros Ht. repeat case_decide; intros [= <-]; [done|].
  split; [|done]. unfold component_of_part. by rewrite !decide_False.
Qed.

(** Every text has well-formed components. *)
Lemma components_wf (s : string) : wf_path (components s).
Proof.
  assert (Forall inner_component (omap component_of_part (split_slash s))) as H.
  { apply Forall_forall. intros c (t & Ht & E)%list_elem_of_omap.
    eapply component_of_part_inner; [|done].
    by eapply Forall_forall in Ht; [|apply split_slash_parts]. }
  unfold components.
  destruct (has_root s); [done|].
  assert (forall p, Forall inner_component p -> wf_path p) as Hw.
  { intros [|[] p] Hp; try done; apply Forall_cons in Hp as [? ?]; done. }
  destruct (split_slash s) as [|[|[[] [] [] [] [] [] [] []] [|x t]] ps]; simpl;
    try (by apply Hw); done.
Qed.

Lemma plain_app (p q : path) : plain_path (p ++ q) <-> plain_path p /\ plain_path q.
Proof. apply Forall_app. Qed.

Lemma plain_normalized (p : path) : plain_path p -> normalized p.
Proof. destruct p as [|[] p]; intros H; try done; by apply Forall_cons in H as [[] ?]. Qed.

Lemma pop_app (p : path) (c : component) : c ≠ RootDir -> pop (p ++ [c]) = p.
Proof.
  intros Hc. unfold pop, parent. rewrite last_snoc, removelast_last.
  by destruct c.
Qed.

Lemma pop_normalized (p : path) : normalized p -> normalized (pop p).
Proof.
  destruct p as [|c p] using rev_ind; [done|]. clear IHp. intros H.
  destruct (decide (c = RootDir)) as [->|Hc].
  - unfold pop, parent. by rewrite last_snoc.
  - rewrite pop_app by done. destruct p as [|d p]; [constructor|].
    destruct d; [by apply plain_app in H as [? _]|..];
      by apply (plain_app (_ :: p) [c]) in H as [? _].
Qed.

Lemma normalize_step_normalized (p : path) (c : component) :
  normalized p -> normalized (normalize_step p c).
Proof.
  destruct c; simpl; [by repeat constructor|done|by apply pop_normalized|].
  intros H. assert (plain_path [Normal c]) as Hc by (by repeat constructor).
  unfold push. simpl. destruct p as [|d p]; [done|].
  destruct d; [by apply plain_app|..]; by apply (plain_app (_ :: p) [Normal c]).
Qed.

Lemma foldl_normalize_normalized (q p : path) :
  normalized p -> normalized (foldl normalize_step p q).
Proof.
  revert p. induction q as [|c q IH]; intros p H; simpl; [done|].
  by apply IH, normalize_step_normalized.
Qed.

Lemma foldl_normalize_plain (p q : path) :
  plain_path q -> foldl normalize_step p q = p ++ q.
Proof.
  intros H. revert p. induction H as [|c q Hc Hq IH]; intros p; simpl.
  - by rewrite app_nil_r.
  - destruct c; try done. rewrite IH. simpl. unfold push. simpl.
    by rewrite <- app_assoc.
Qed.

(** The result of [normalize_path] has no [.] and no [..], and the root only in
    front. *)
Lemma normalize_path_normalized (p : path) : normalized (normalize_path p).
Proof. apply foldl_normalize_normalized. constructor. Qed.

Lemma normalize_path_id (p : path) : normalized p -> normalize_path p = p.
Proof.
  destruct p as [|[] p]; intros H; [done|..];
    try (by apply Forall_cons in H as [[] _]).
  - unfold normalize_path. simpl. by rewrite foldl_normalize_plain.
  - apply (foldl_normalize_plain []). done.
Qed.

Lemma normalize_path_idemp (p : path) :
  normalize_path (normalize_path p) = normalize_path p.
Proof. apply normalize_path_id, normalize_path_normalized. Qed.

(** ** The order on paths *)

Lemma component_cmp_eq (a b : component) : component_cmp a b = Eq <-> a = b.
Proof.
  destruct a, b; simpl; rewrite ?string_compare_eq; split; try done; congruence.
Qed.

Lemma path_cmp_eq (p q : path) : path_cmp p q = Eq <-> p = q.
Proof.
  revert q. induction p as [|x p IH]; intros [|y q]; simpl; try done.
  destruct (component_cmp x y) eqn:E.
  - apply component_cmp_eq in E as ->. rewrite IH. split; congruence.
  - split; [done|]. intros [= <- <-]. by rewrite (proj2 (component_cmp_eq x x)) in E.
  - split; [done|]. intros [= <- <-]. by rewrite (proj2 (component_cmp_eq x x)) in E.
Qed.
