(* ===== verification/Ops.v ===== *)
(** The filter language of josh-filter/src/op.rs: the operators with their
    arguments, their display forms, decidable equality, the number of nodes of a
    filter and the induction principle over its sub-filters.

    A [Filter] of the source is a pointer to an interned node holding an [Op];
    interning keeps one node per structurally distinct operator (persist.rs), so
    equality of filters is equality of operators.  The model uses the operator
    tree itself as the filter: [to_op] and [to_filter] are the identity. *)

From S2P Require Import Prelude Path.

(** The display form of a git object id. *)
Abbreviation oid := string.

Module LinkMode.

Inductive t := Embedded | Snapshot | Pointer.

#[global] Instance eq_dec : EqDecision t.
Proof. solve_decision. Defined.

(** [Display for LinkMode]. *)
Definition to_string (m : t) : string :=
  match m with
  | Embedded => "embedded"
  | Snapshot => "snapshot"
  | Pointer => "pointer"
  end.

(** [LinkMode::parse]. *)
Definition parse (s : string) : res t :=
  if decide (s = "embedded") then Ok Embedded
  else if decide (s = "snapshot") then Ok Snapshot
  else if decide (s = "pointer") then Ok Pointer
  else Err "Unknown link mode".

Lemma link_mode_parse_to_string (m : t) : parse (to_string m) = Ok m.
Proof. by destruct m. Qed.

End LinkMode.

Module LazyRef.

Inductive t := Resolved (id : oid) | Lazy (s : string).

#[global] Instance eq_dec : EqDecision t.
Proof. solve_decision. Defined.

(** The derived order: resolved references first. *)
Definition cmp (a b : t) : comparison :=
  match a, b with
  | Resolved x, Resolved y => String.compare x y
  | Resolved _, Lazy _ => Lt
  | Lazy _, Resolved _ => Gt
  | Lazy x, Lazy y => String.compare x y
  end.

Definition dquote : ascii := ascii_of_nat 34.
Definition squote : ascii := ascii_of_nat 39.

(** [Display for LazyRef]. *)
Definition to_string (r : t) : string :=
  match r with
  | Resolved id => id
  | Lazy s => String dquote (s +:+ String dquote EmptyString)
  end.

Fixpoint replace_char (a b : ascii) (s : string) : string :=
  match s with
  | EmptyString => EmptyString
  | String c s => String (if decide (c = a) then b else c) (replace_char a b s)
  end.

(** [LazyRef::parse], over the JSON reader of serde_json (its string values)
    and the object id reader of git2. *)
Definition parse (json_string : string -> option string)
    (oid_from_str : string -> option oid) (s : string) : res t :=
  let s := replace_char squote dquote s in
  match json_string s with
  | Some s => Ok (Lazy s)
  | None =>
      match oid_from_str s with
      | Some id => Ok (Resolved id)
      | None => Err "invalid ref"
      end
  end.

End LazyRef.

Module InsertContent.

Inductive t := Inline (s : string) | Oid (id : oid).

#[global] Instance eq_dec : EqDecision t.
Proof. solve_decision. Defined.

End InsertContent.

Module RevMatch.

Inductive t := AncestorStrict | AncestorInclusive | Equal | Default.

#[global] Instance eq_dec : EqDecision t.
Proof. solve_decision. Defined.

End RevMatch.

(** A regular expression and a compiled pattern are compared by their source
    text, which is what an operator stores of them here. *)
Abbreviation regex := string.

Module Op.

Inductive t :=
| Meta (m : list (string * string)) (f : t)
| Nop
| Empty
| Fold
| Paths
| Adapt (s : string)
| Link (m : option LinkMode.t)
| Unlink
| Export
| Embed (p : path)
| Squash (ids : option (list (LazyRef.t * t)))
| Author (name email : string)
| Committer (name email : string)
| Rev (filters : list (RevMatch.t * LazyRef.t * t))
| Prune
| RegexReplace (replacements : list (regex * string))
| Hook (h : string)
| Index
| Invert
| Insert (dest_path : path) (content : InsertContent.t)
| File (dest_path source_path : path)
| Prefix (p : path)
| Subdir (p : path)
| Workspace (p : path)
| Stored (p : path)
| Starlark (p : path) (f : t)
| TreeId (p : path) (f : t)
| ObjectDeref (p : path)
| ObjectRef (p : path)
| Pattern (glob : string)
| Message (fmt : string) (re : regex)
| Unapply (r : LazyRef.t) (f : t)
| Compose (filters : list t)
| Chain (filters : list t)
| Subtract (a b : t)
| Exclude (f : t)
| Select (f : t)
| Pin (f : t)
| Downstack (r : LazyRef.t).

End Op.

(** References are ordered totally. *)
Lemma ref_cmp_eq a b : LazyRef.cmp a b = Eq -> a = b.
Proof.
  destruct a, b; simpl; try done; intros E%string_compare_eq; by subst.
Qed.
Lemma ref_cmp_refl a : LazyRef.cmp a a = Eq.
Proof. destruct a; simpl; apply string_compare_refl. Qed.
Lemma ref_cmp_gt a b : LazyRef.cmp a b = Gt <-> LazyRef.cmp b a = Lt.
Proof. destruct a, b; simpl; try done; apply string_compare_gt. Qed.
Lemma ref_cmp_trans a b c :
  LazyRef.cmp a b = Lt -> LazyRef.cmp b c = Lt -> LazyRef.cmp a c = Lt.
Proof. destruct a, b, c; simpl; try done; apply string_compare_lt_trans. Qed.

Abbreviation filter := Op.t.

(** [to_filter] and [to_op] of persist.rs. *)
Definition to_filter (o : Op.t) : filter := o.
Definition to_op (f : filter) : Op.t := f.
Arguments to_filter o /.
Arguments to_op f /.

Definition filter_eq_dec : forall x y : filter, {x = y} + {x ≠ y}.
Proof.
  refine (fix go x y := _).
  assert (EqDecision filter) as H by exact go.
  decide equality; exact (decide (_ = _)).
Defined.
#[export] Instance filter_eq_decision : EqDecision filter := filter_eq_dec.

(** [child_filters] of persist.rs: the filters an operator refers to. *)
Definition children (o : Op.t) : list filter :=
  match o with
  | Op.Meta _ f | Op.Starlark _ f | Op.TreeId _ f | Op.Unapply _ f
  | Op.Exclude f | Op.Select f | Op.Pin f => [f]
  | Op.Squash (Some m) => snd <$> m
  | Op.Rev l => snd <$> l
  | Op.Compose l | Op.Chain l => l
  | Op.Subtract a b => [a; b]
  | _ => []
  end.

(** [peel_filter] of persist.rs and [Filter::peel]: the filter without its
    metadata wrappers. *)
Fixpoint peel_filter (f : filter) : filter :=
  match f with
  | Op.Meta _ f => peel_filter f
  | _ => f
  end.

(** The number of nodes of a filter. *)
Fixpoint size (o : filter) : nat :=
  S (match o with
     | Op.Meta _ f | Op.Starlark _ f | Op.TreeId _ f | Op.Unapply _ f
     | Op.Exclude f | Op.Select f | Op.Pin f => size f
     | Op.Squash (Some m) => sum_list_with (fun x => size x.2) m
     | Op.Rev l => sum_list_with (fun x => size x.2) l
     | Op.Compose l | Op.Chain l => sum_list_with size l
     | Op.Subtract a b => size a + size b
     | _ => 0
     end).

(** * Lemmas *)

Lemma Forall_snd_map {A B} (P : B -> Prop) (l : list (A * B)) :
  Forall (fun x => P x.2) l -> Forall P (snd <$> l).
Proof. intros H. by apply Forall_fmap. Qed.

(** Induction over the filters an operator refers to. *)
Lemma filter_ind (P : filter -> Prop) :
  (forall o, Forall P (children o) -> P o) -> forall o, P o.
Proof.
  intros H. fix go 1. intros o. apply H. destruct o; simpl;
    repeat first [apply Forall_nil_2 | apply Forall_cons_2; [apply go|]].
  - destruct ids as [m|]; [|apply Forall_nil_2].
    apply Forall_snd_map. induction m as [|x m IH]; constructor; [apply go|apply IH].
  - apply Forall_snd_map. induction filters as [|x l IH]; constructor; [apply go|apply IH].
  - induction filters as [|x l IH]; constructor; [apply go|apply IH].
  - induction filters as [|x l IH]; constructor; [apply go|apply IH].
Qed.

Lemma sum_list_with_snd {A} (l : list (A * filter)) :
  sum_list_with (fun x => size x.2) l = sum_list_with size (snd <$> l).
Proof. induction l as [|x l IH]; simpl; by rewrite ?IH. Qed.

Lemma size_children (o : filter) : size o = S (sum_list_with size (children o)).
Proof.
  destruct o; simpl; rewrite ?Nat.add_0_r; try done.
  - destruct ids as [m|]; simpl; by rewrite ?sum_list_with_snd.
  - by rewrite sum_list_with_snd.
Qed.

Lemma size_pos (o : filter) : 0 < size o.
Proof. rewrite size_children. lia. Qed.

Lemma sum_list_with_elem (f : filter) (l : list filter) :
  f ∈ l -> size f <= sum_list_with size l.
Proof. induction 1; simpl; lia. Qed.

Lemma size_child (f o : filter) : f ∈ children o -> size f < size o.
Proof. intros H%sum_list_with_elem. rewrite (size_children o). lia. Qed.
