(* ===== verification/OptState.v ===== *)
(** The memo tables of the optimizer (josh-filter/src/opt/mod.rs): process-wide
    maps from filters to results, read before a computation and extended after
    it.  They are explicit state here, so that a computation over filters runs
    in the monad [opt]. *)

From S2P Require Import Prelude Path Ops.

(** A [HashMap<Filter, V>]: the latest binding of a key is the one in front. *)
Abbreviation table V := (list (filter * V)).

Fixpoint table_get {V} (t : table V) (f : filter) : option V :=
  match t with
  | [] => None
  | (g, v) :: t => if decide (f = g) then Some v else table_get t f
  end.

Record caches := Caches {
  OPTIMIZED : table filter;
  MINIMIZED : table filter;
  INVERTED : table (option filter);
  SIMPLIFIED : table filter;
  FLATTENED : table filter;
  FLATTENED_FULL : table filter;
}.

Definition no_caches : caches := Caches [] [] [] [] [] [].

Definition insert_OPTIMIZED (f g : filter) (c : caches) : caches :=
  Caches ((f, g) :: OPTIMIZED c) (MINIMIZED c) (INVERTED c) (SIMPLIFIED c)
    (FLATTENED c) (FLATTENED_FULL c).
Definition insert_MINIMIZED (f g : filter) (c : caches) : caches :=
  Caches (OPTIMIZED c) ((f, g) :: MINIMIZED c) (INVERTED c) (SIMPLIFIED c)
    (FLATTENED c) (FLATTENED_FULL c).
Definition insert_INVERTED (f : filter) (g : option filter) (c : caches) : caches :=
  Caches (OPTIMIZED c) (MINIMIZED c) ((f, g) :: INVERTED c) (SIMPLIFIED c)
    (FLATTENED c) (FLATTENED_FULL c).
Definition insert_SIMPLIFIED (f g : filter) (c : caches) : caches :=
  Caches (OPTIMIZED c) (MINIMIZED c) (INVERTED c) ((f, g) :: SIMPLIFIED c)
    (FLATTENED c) (FLATTENED_FULL c).
Definition insert_FLATTENED (f g : filter) (c : caches) : caches :=
  Caches (OPTIMIZED c) (MINIMIZED c) (INVERTED c) (SIMPLIFIED c)
    ((f, g) :: FLATTENED c) (FLATTENED_FULL c).
Definition insert_FLATTENED_FULL (f g : filter) (c : caches) : caches :=
  Caches (OPTIMIZED c) (MINIMIZED c) (INVERTED c) (SIMPLIFIED c)
    (FLATTENED c) ((f, g) :: FLATTENED_FULL c).

(** Computations over the memo tables. *)
Abbreviation opt := (M caches).

(** A table holds only pairs of a relation. *)
Definition table_holds {V} (R : filter -> V -> Prop) (t : table V) : Prop :=
  Forall (fun kv => R kv.1 kv.2) t.

Lemma table_holds_get {V} (R : filter -> V -> Prop) (t : table V) f v :
  table_holds R t -> table_get t f = Some v -> R f v.
Proof.
  induction 1 as [|[g w] t Hg _ IH]; simpl; [done|].
  case_decide; [|done]. intros [= <-]. by subst.
Qed.

Lemma table_holds_insert {V} (R : filter -> V -> Prop) (t : table V) f v :
  R f v -> table_holds R t -> table_holds R ((f, v) :: t).
Proof. by constructor. Qed.
