(* ===== verification/Invert.v ===== *)
(** Inverse filters and the paths a filter reads and writes:
    josh-filter/src/opt/invert.rs and josh-filter/src/opt/paths.rs. *)

From S2P Require Import Prelude Path Ops OptState.

(** * Source and destination paths *)

(** [src_path]: the directory a filter takes its content from. *)
Fixpoint src_path (f : filter) : path :=
  match f with
  | Op.Meta _ f => src_path f
  | Op.Subdir p => normalize_path p
  | Op.File _ source_path => normalize_path source_path
  | Op.Chain filters =>
      normalize_path (foldl (fun acc p => join acc p) [] (src_path <$> filters))
  | _ => normalize_path []
  end.

(** [dst_path]: the directory a filter puts its content in. *)
Fixpoint dst_path (f : filter) : path :=
  match f with
  | Op.Meta _ f => dst_path f
  | Op.Prefix p => normalize_path p
  | Op.File dest_path _ => normalize_path dest_path
  | Op.Chain filters =>
      normalize_path (foldl (fun acc p => join acc p) [] (rev (dst_path <$> filters)))
  | _ => normalize_path []
  end.

(** * Inversion *)

(** The inverse of the operators whose inverse needs no sub-filter: the first
    match of [invert]. *)
Definition invert_leaf (o : Op.t) : option Op.t :=
  match o with
  | Op.Nop => Some Op.Nop
  | Op.Message _ _ => Some Op.Nop
  | Op.Squash None => Some Op.Nop
  | Op.Prune => Some Op.Prune
  | Op.Export => Some Op.Export
  | Op.Empty => Some Op.Empty
  | Op.Link _ => Some Op.Unlink
  | Op.Subdir p => Some (Op.Prefix p)
  | Op.File dest_path source_path => Some (Op.File source_path dest_path)
  | Op.Prefix p => Some (Op.Subdir p)
  | Op.Pattern glob => Some (Op.Pattern glob)
  | Op.RegexReplace _ => Some Op.Nop
  | Op.Pin _ => Some Op.Nop
  | Op.Insert _ _ => Some Op.Empty
  | Op.TreeId _ _ => Some Op.Empty
  | Op.ObjectDeref p => Some (Op.ObjectRef p)
  | Op.ObjectRef p => Some (Op.ObjectDeref p)
  | _ => None
  end.

(** [invert], with its memo table and a recursion budget of [n] nested calls. *)
Fixpoint invert (n : nat) (f : filter) : opt filter :=
  match n with
  | 0 => lift OutOfFuel
  | S n =>
      cached ← gets (fun c => table_get (INVERTED c) f);
      match cached with
      | Some (Some g) => mret g
      | Some None => fail "no invert"
      | None =>
          finally
            (match invert_leaf (to_op f) with
             | Some result => mret (to_filter result)
             | None =>
                 match to_op f with
                 | Op.Meta m f => g ← invert n f; mret (to_filter (Op.Meta m g))
                 | Op.Chain filters =>
                     inverted ← mapM (invert n) (rev filters);
                     mret (to_filter (Op.Chain inverted))
                 | Op.Compose filters =>
                     inverted ← mapM (invert n) filters;
                     mret (to_filter (Op.Compose inverted))
                 | Op.Exclude f => g ← invert n f; mret (to_filter (Op.Exclude g))
                 | Op.Select f => g ← invert n f; mret (to_filter (Op.Select g))
                 | _ => fail "no invert"
                 end
             end)
            (fun computed => insert_INVERTED f (res_ok computed))
      end
  end.

(** The function [invert] computes, without its table. *)
Fixpoint inverse (f : filter) : res filter :=
  match invert_leaf f with
  | Some result => Ok result
  | None =>
      match f with
      | Op.Meta m f => g ← inverse f; Ok (Op.Meta m g)
      | Op.Chain filters => l ← collect_res (rev (inverse <$> filters)); Ok (Op.Chain l)
      | Op.Compose filters => l ← collect_res (inverse <$> filters); Ok (Op.Compose l)
      | Op.Exclude f => g ← inverse f; Ok (Op.Exclude g)
      | Op.Select f => g ← inverse f; Ok (Op.Select g)
      | _ => Err "no invert"
      end
  end.

(** The filters that lose nothing: those of the inverse of an inverse. *)
Fixpoint reversible (f : filter) : bool :=
  match f with
  | Op.Nop | Op.Prune | Op.Export | Op.Empty | Op.Subdir _ | Op.File _ _
  | Op.Prefix _ | Op.Pattern _ | Op.ObjectDeref _ | Op.ObjectRef _ => true
  | Op.Meta _ f | Op.Exclude f | Op.Select f => reversible f
  | Op.Chain l | Op.Compose l => forallb reversible l
  | _ => false
  end.

(** * The memo table does not change the result *)

(** An invariant of the memo tables under which [invert] can be reasoned about:
    the table of inverses holds inverses, and may record one more. *)
Class InvertedOk (I : caches -> Prop) := {
  inverted_sound c : I c ->
    table_holds (fun f g => g = res_ok (inverse f)) (INVERTED c);
  inverted_insert c f : I c -> I (insert_INVERTED f (res_ok (inverse f)) c);
}.

(** An inverse exists, or the one error of [invert] is returned. *)
Definition value_or_no_invert {A} (r : res A) : Prop :=
  match r with Ok _ => True | Err e => e = "no invert" | OutOfFuel => False end.

Lemma value_or_no_invert_bind {A B} (r : res A) (k : A -> B) :
  value_or_no_invert r -> value_or_no_invert (a ← r; Ok (k a)).
Proof. by destruct r. Qed.

Lemma value_or_no_invert_collect {A} (l : list (res A)) :
  Forall value_or_no_invert l -> value_or_no_invert (collect_res l).
Proof.
  induction 1 as [|r l Hr _ IH]; [done|]. simpl. destruct r; try done. simpl.
  by destruct (collect_res l).
Qed.

Lemma inverse_value (f : filter) : value_or_no_invert (inverse f).
Proof.
  induction f as [f IH] using filter_ind.
  destruct f; simpl in *; try done;
    try (apply Forall_cons in IH as [IH _]; by apply value_or_no_invert_bind).
  - by destruct ids.
  - by apply value_or_no_invert_bind, value_or_no_invert_collect, Forall_fmap.
  - by apply value_or_no_invert_bind, value_or_no_invert_collect,
      List.Forall_rev, Forall_fmap.
Qed.

Lemma rev_fmap {A B} (f : A -> B) (l : list A) : rev (f <$> l) = f <$> rev l.
Proof. apply (eq_sym (map_rev f l)). Qed.

Section Memo.
Context (I : caches -> Prop) `{!InvertedOk I}.

(** [invert] computes [inverse] from any state of its table that earlier calls
    left behind. *)
Lemma invert_computes (n : nat) (f : filter) :
  size f <= n -> computes I (invert n f) (inverse f).
Proof.
  revert f. induction n as [|n IH]; intros f Hn.
  { pose proof (size_pos f). lia. }
  cbn [invert]. apply computes_gets. intros c Hc.
  destruct (table_get (INVERTED c) f) as [cached|] eqn:E.
  { eapply table_holds_get in E; [|by apply inverted_sound]. simpl in E.
    destruct (inverse f) as [g|e|] eqn:Ef; simpl in E; subst cached.
    - apply computes_ret.
    - pose proof (inverse_value f) as Hv. rewrite Ef in Hv. simpl in Hv. subst e.
      apply computes_fail.
    - pose proof (inverse_value f) as Hv. by rewrite Ef in Hv. }
  apply computes_finally; [|intros s; apply inverted_insert].
  unfold to_op, to_filter.
  assert (forall g, g ∈ children f -> computes I (invert n g) (inverse g)) as Hch.
  { intros g Hg%size_child. apply IH. lia. }
  destruct f; cbn [invert_leaf inverse]; try apply computes_fail; try apply computes_ret.
  all: try (apply computes_bind; [apply Hch; by left|]; intros g _; apply computes_ret).
  - destruct ids; [apply computes_fail|apply computes_ret].
  - apply computes_bind; [by apply computes_mapM|]. intros; apply computes_ret.
  - rewrite rev_fmap. apply computes_bind; [|intros; apply computes_ret].
    apply computes_mapM. intros x Hx. apply Hch. simpl.
    by apply list_elem_of_In, in_rev, list_elem_of_In.
Qed.

End Memo.

(** The tables of a process that has only recorded inverses that are ones. *)
Definition inverted_ok (c : caches) : Prop :=
  table_holds (fun f g => g = res_ok (inverse f)) (INVERTED c).

#[export] Instance inverted_ok_InvertedOk : InvertedOk inverted_ok.
Proof. split; [done|]. intros c f H. by apply table_holds_insert. Qed.

(** * The inverse of an inverse *)

(** Filters related to their inverse, both ways. *)
Definition mutual_inverse (f : filter) : Prop :=
  exists g, inverse f = Ok g /\ inverse g = Ok f /\ reversible g = true.

Lemma mutual_inverse_list (l : list filter) :
  Forall mutual_inverse l -> exists l',
    inverse <$> l = Ok <$> l' /\ inverse <$> l' = Ok <$> l /\ forallb reversible l' = true.
Proof.
  induction 1 as [|f l (g & H1 & H2 & H3) _ (l' & IH1 & IH2 & IH3)].
  - by exists [].
  - exists (g :: l'). rewrite !fmap_cons, H1, H2, IH1, IH2. simpl. by rewrite H3.
Qed.

Lemma forallb_rev {A} (p : A -> bool) (l : list A) : forallb p (rev l) = forallb p l.
Proof.
  apply eq_true_iff_eq. rewrite !forallb_forall. by setoid_rewrite <- in_rev.
Qed.

Lemma reversible_mutual (f : filter) : reversible f = true -> mutual_inverse f.
Proof.
  induction f as [f IH] using filter_ind. intros Hr.
  destruct f; simpl in Hr; try done; try (by eexists); simpl in IH.
  all: try (apply Forall_cons in IH as [IH _]; destruct (IH Hr) as (g & H1 & H2 & H3);
    unfold mutual_inverse; simpl; rewrite H1; simpl; eexists;
    split; [reflexivity|]; simpl; rewrite H2; by split).
  - apply Forall_forallb in Hr. assert (Forall mutual_inverse filters) as Hl.
    { apply Forall_forall. intros f Hf. rewrite Forall_forall in IH, Hr. by apply IH, Hr. }
    apply mutual_inverse_list in Hl as (l' & H1 & H2 & H3).
    exists (Op.Compose l'). simpl.
    by rewrite H1, H2, !(proj2 (collect_res_ok _ _) eq_refl).
  - apply Forall_forallb in Hr. assert (Forall mutual_inverse filters) as Hl.
    { apply Forall_forall. intros f Hf. rewrite Forall_forall in IH, Hr. by apply IH, Hr. }
    apply mutual_inverse_list in Hl as (l' & H1 & H2 & H3).
    exists (Op.Chain (rev l')). simpl.
    rewrite H1, rev_fmap, (proj2 (collect_res_ok _ _) eq_refl). simpl.
    rewrite rev_fmap, rev_involutive, H2.
    rewrite (proj2 (collect_res_ok _ _) eq_refl), forallb_rev. done.
Qed.

(** * Inversion swaps the two paths *)

Definition swaps_paths (f : filter) : Prop :=
  forall g, inverse f = Ok g -> src_path g = dst_path f /\ dst_path g = src_path f.

Lemma swaps_paths_list (l l' : list filter) :
  Forall swaps_paths l -> inverse <$> l = Ok <$> l' ->
  src_path <$> l' = dst_path <$> l /\ dst_path <$> l' = src_path <$> l.
Proof.
  intros H. revert l'. induction H as [|f l Hf _ IH]; intros [|g l']; try done.
  rewrite !fmap_cons. intros [= Hg Hl]. destruct (Hf g Hg) as [-> ->].
  by destruct (IH l' Hl) as [-> ->].
Qed.

Lemma inverse_swaps_paths (f : filter) : swaps_paths f.
Proof.
  induction f as [f IH] using filter_ind. intros g.
  destruct f; simpl; try (intros [= <-]); try done; simpl in IH.
  all: try (apply Forall_cons in IH as [IH _]; destruct (inverse f) as [h| |] eqn:E;
    simpl; try done; intros [= <-]; simpl; first [by apply IH|done]).
  - destruct ids; [done|]. by intros [= <-].
  - destruct (collect_res _); simpl; try done. by intros [= <-].
  - destruct (collect_res _) as [l'| |] eqn:E; simpl; try done. intros [= <-]. simpl.
    apply collect_res_ok in E. rewrite rev_fmap in E.
    apply (f_equal (@rev _)) in E. rewrite rev_fmap, rev_involutive, rev_fmap in E.
    destruct (swaps_paths_list _ _ IH E) as [H1 H2].
    by rewrite <- H1, <- H2, !rev_fmap, rev_involutive.
Qed.

(** A call of [invert] from another pass, with a sufficient budget. *)
Definition invert_filter (f : filter) : opt filter := invert (size f) f.

Lemma invert_filter_computes (I : caches -> Prop) `{!InvertedOk I} (f : filter) :
  computes I (invert_filter f) (inverse f).
Proof. by apply invert_computes. Qed.

(** [invert(f).is_ok()]. *)
Definition invertible (f : filter) : opt bool :=
  fun c => let '(r, c) := invert_filter f c in
  match r with Ok _ => (Ok true, c) | Err _ => (Ok false, c) | OutOfFuel => (OutOfFuel, c) end.

Lemma invertible_computes (I : caches -> Prop) `{!InvertedOk I} (f : filter) :
  computes I (invertible f) (Ok (is_ok (inverse f))).
Proof.
  intros c Hc. unfold invertible. destruct (invert_filter_computes I f c Hc) as [Hr Hc'].
  destruct (invert_filter f c) as [r c']. simpl in *. subst r.
  pose proof (inverse_value f). by destruct (inverse f).
Qed.

(** The inverse of a filter that loses nothing (subdirectories, prefixes,
    renames, patterns, and chains, compositions, selections and exclusions of
    such) exists and is itself inverted back to the filter one started from,
    whatever inverses the memo table already holds. *)
Theorem invert_involutive (c : caches) (n m : nat) (f : filter) :
  inverted_ok c -> reversible f = true -> size f <= n ->
  exists g c', invert n f c = (Ok g, c') /\ reversible g = true /\
    (size g <= m -> (invert m g c').1 = Ok f).
Proof.
  intros Hc Hr Hn. destruct (reversible_mutual f Hr) as (g & H1 & H2 & H3).
  destruct (invert_computes inverted_ok n f Hn c Hc) as [E Hc'].
  destruct (invert n f c) as [r c'] eqn:Er. simpl in *. subst r.
  exists g, c'. split; [by rewrite H1|]. split; [done|]. intros Hm.
  rewrite <- H2. by apply (invert_computes inverted_ok).
Qed.

Lemma invert_involutive_witness :
  let f := Op.Chain [Op.Subdir [Normal "a"]; Op.Exclude (Op.Subdir [Normal "b"]);
                     Op.Prefix [Normal "c"]] in
  exists g c', invert 9 f no_caches = (Ok g, c') /\ reversible g = true /\
    (size g <= 9 -> (invert 9 g c').1 = Ok f).
Proof.
  apply (invert_involutive no_caches 9 9); [constructor|reflexivity|vm_compute; lia].
Defined.

(** Where a filter has an inverse, the inverse reads from where the filter
    writes and writes to where the filter reads. *)
Theorem invert_swaps_src_dst (c : caches) (n : nat) (f g : filter) (c' : caches) :
  inverted_ok c -> size f <= n -> invert n f c = (Ok g, c') ->
  src_path g = dst_path f /\ dst_path g = src_path f.
Proof.
  intros Hc Hn Hi. destruct (invert_computes inverted_ok n f Hn c Hc) as [E _].
  rewrite Hi in E. by apply inverse_swaps_paths.
Qed.

Lemma invert_swaps_src_dst_witness :
  let f := Op.Chain [Op.Subdir [Normal "a"]; Op.File [Normal "x"] [Normal "y"];
                     Op.Prefix [Normal "c"]] in
  exists g c', invert 9 f no_caches = (Ok g, c') /\
    (src_path g = dst_path f /\ dst_path g = src_path f) /\
    src_path g = [Normal "c"; Normal "x"].
Proof.
  eexists; eexists; split; [vm_compute; reflexivity|]. split; [|reflexivity].
  eapply (invert_swaps_src_dst no_caches 9); [constructor|vm_compute; lia|vm_compute; reflexivity].
Defined.
