(* ===== verification/PrefixSort.v ===== *)
(** Ordering the branches of a composition: the path trie and the topological
    sort of josh-filter/src/opt/prefix_sort.rs. *)

From S2P Require Import Prelude Path Ops OptState Invert.

(** * The path trie *)

(** Children are a [HashMap]; an association list with one binding per key. *)
Inductive PathTrie := Trie (children : list (string * PathTrie)) (indices : list nat).

Definition trie_children (t : PathTrie) := let 'Trie ch _ := t in ch.
Definition trie_indices (t : PathTrie) := let 'Trie _ ix := t in ix.
Definition trie_default : PathTrie := Trie [] [].

(** [HashMap::get]. *)
Fixpoint child_get (k : string) (ch : list (string * PathTrie)) : option PathTrie :=
  match ch with
  | [] => None
  | (k', t) :: ch => if decide (k = k') then Some t else child_get k ch
  end.

(** [HashMap::entry(k).or_default()], updated in place by [f]. *)
Fixpoint child_entry (k : string) (f : PathTrie -> PathTrie)
    (ch : list (string * PathTrie)) : list (string * PathTrie) :=
  match ch with
  | [] => [(k, f trie_default)]
  | (k', t) :: ch =>
      if decide (k = k') then (k', f t) :: ch else (k', t) :: child_entry k f ch
  end.

(** [PathTrie::insert], over the texts of the path's components. *)
Fixpoint trie_insert (p : list string) (index : nat) (t : PathTrie) : PathTrie :=
  match p with
  | [] => Trie (trie_children t) (trie_indices t ++ [index])
  | k :: p => Trie (child_entry k (trie_insert p index) (trie_children t)) (trie_indices t)
  end.

(** [PathTrie::collect_descendants]. *)
Fixpoint collect_descendants (t : PathTrie) : list nat :=
  match t with
  | Trie ch _ =>
      flat_map (fun kc => trie_indices kc.2 ++ collect_descendants kc.2) ch
  end.

(** [PathTrie::find_overlapping]. *)
Fixpoint find_overlapping (p : list string) (t : PathTrie) : list nat :=
  trie_indices t ++
  match p with
  | [] => collect_descendants t
  | k :: p =>
      match child_get k (trie_children t) with
      | Some child => find_overlapping p child
      | None => []
      end
  end.

(** * The sort *)

(** The path's components as trie keys. *)
Definition keys (p : path) : list string := as_os_str <$> p.

(** [maybe_push_outgoing]. *)
Definition maybe_push_outgoing (i : nat) (outgoing : list (list nat)) (j : nat) :
    list (list nat) :=
  alter (fun l => if decide (last l = Some i) then l else l ++ [i]) j outgoing.

Record sort_state := SortState {
  outgoing : list (list nat);
  src_trie : PathTrie;
  dst_trie : PathTrie;
}.

(** One turn of the loop over the enumerated filters. *)
Definition add_filter (s : sort_state) (if_ : nat * filter) : sort_state :=
  let '(i, f) := if_ in
  let src := keys (src_path f) in
  let dst := keys (dst_path f) in
  let out := foldl (maybe_push_outgoing i) (outgoing s) (find_overlapping src (src_trie s)) in
  let out := foldl (maybe_push_outgoing i) out (find_overlapping dst (dst_trie s)) in
  SortState out (trie_insert src i (src_trie s)) (trie_insert dst i (dst_trie s)).

Definition build_edges (filters : list filter) : list (list nat) :=
  outgoing (foldl add_filter
    (SortState (replicate (length filters) []) trie_default trie_default)
    (zip (seq 0 (length filters)) filters)).

(** [SortKey]: an index with its source and destination path.  The order of the
    heap compares the paths, the other way round. *)
Definition sort_key : Type := nat * path * path.

Definition sort_key_cmp (a b : sort_key) : comparison :=
  match path_cmp b.1.2 a.1.2 with
  | Eq => path_cmp b.2 a.2
  | c => c
  end.

(** [BinaryHeap::pop]: a greatest key of the heap and the rest. *)
Fixpoint heap_pop (h : list sort_key) : option (sort_key * list sort_key) :=
  match h with
  | [] => None
  | k :: h =>
      match heap_pop h with
      | None => Some (k, [])
      | Some (k', h') =>
          match sort_key_cmp k k' with
          | Lt => Some (k', k :: h')
          | _ => Some (k, k' :: h')
          end
      end
  end.

Section Topo.
Context (edges : list (list nat)) (make_key : nat -> sort_key).

(** The inner loop of a turn: decrement, and push what became free. *)
Definition release (st : list nat * list sort_key) (j : nat) :
    list nat * list sort_key :=
  let '(indegree, heap) := st in
  let indegree := alter Nat.pred j indegree in
  if decide (indegree !! j = Some 0) then (indegree, make_key j :: heap)
  else (indegree, heap).

(** The loop over the heap; the indices in the order their filters are pushed. *)
Fixpoint topo_loop (n : nat) (indegree : list nat) (heap : list sort_key)
    (result : list nat) : list nat :=
  match n with
  | 0 => result
  | S n =>
      match heap_pop heap with
      | None => result
      | Some (k, heap) =>
          let i := k.1.1 in
          let '(indegree, heap) := foldl release (indegree, heap) (edges !!! i) in
          topo_loop n indegree heap (result ++ [i])
      end
  end.

Definition initial_indegree (n : nat) : list nat :=
  foldl (fun ind neighbors => foldl (fun ind j => alter S j ind) ind neighbors)
    (replicate n 0) edges.

Definition initial_heap (indegree : list nat) : list sort_key :=
  make_key <$> base.filter (fun i => indegree !! i = Some 0) (seq 0 (length indegree)).

(** [topo_sort_with_tiebreak]. *)
Definition topo_sort (n : nat) : list nat :=
  let indegree := initial_indegree n in
  topo_loop n indegree (initial_heap indegree) [].

End Topo.

Definition filter_key (filters : list filter) (i : nat) : sort_key :=
  (i, default [] (src_path <$> filters !! i), default [] (dst_path <$> filters !! i)).

(** The order [prefix_sort] puts the filters in. *)
Definition sort_indices (filters : list filter) : list nat :=
  topo_sort (build_edges filters) (filter_key filters) (length filters).

(** [prefix_sort]. *)
Definition prefix_sort (filters : list filter) : list filter :=
  if decide (length filters <= 1) then filters
  else omap (fun i => filters !! i) (sort_indices filters).

(** * The trie stores and finds paths *)

(** The indices stored at a path. *)
Fixpoint trie_at (q : list string) (t : PathTrie) : list nat :=
  match q with
  | [] => trie_indices t
  | k :: q =>
      match child_get k (trie_children t) with
      | Some c => trie_at q c
      | None => []
      end
  end.

Inductive wf_trie : PathTrie -> Prop :=
| wf_Trie ch ix :
    NoDup ch.*1 -> Forall (fun kc => wf_trie kc.2) ch -> wf_trie (Trie ch ix).

(** Two paths overlap when one is a prefix of the other. *)
Definition overlap (p q : list string) : Prop := p `prefix_of` q \/ q `prefix_of` p.

Lemma trie_ind (P : PathTrie -> Prop) :
  (forall ch ix, Forall (fun kc => P kc.2) ch -> P (Trie ch ix)) -> forall t, P t.
Proof.
  intros H. fix go 1. intros [ch ix]. apply H.
  induction ch as [|kc ch IH]; constructor; [apply go|apply IH].
Qed.

Lemma child_get_entry k k' f ch :
  child_get k (child_entry k' f ch) =
    if decide (k = k') then Some (f (default trie_default (child_get k' ch)))
    else child_get k ch.
Proof.
  induction ch as [|[k2 t] ch IH]; simpl; [done|].
  destruct (decide (k' = k2)) as [->|Hk]; simpl.
  - by repeat case_decide.
  - rewrite IH. repeat case_decide; by subst.
Qed.

Lemma child_entry_keys k f ch k' :
  k' ∈ (child_entry k f ch).*1 <-> k' = k \/ k' ∈ ch.*1.
Proof.
  induction ch as [|[k2 t] ch IH]; simpl; [set_solver|].
  case_decide; subst; rewrite ?fmap_cons, !elem_of_cons; simpl; rewrite ?IH; naive_solver.
Qed.

Lemma child_entry_wf k f ch :
  (forall t, wf_trie t -> wf_trie (f t)) -> wf_trie (f trie_default) ->
  NoDup ch.*1 -> Forall (fun kc => wf_trie kc.2) ch ->
  NoDup (child_entry k f ch).*1 /\ Forall (fun kc => wf_trie kc.2) (child_entry k f ch).
Proof.
  intros Hf Hd. induction ch as [|[k2 t] ch IH]; simpl.
  - split; [apply NoDup_singleton|by constructor].
  - intros [Hk Hn]%NoDup_cons [Ht Hch]%Forall_cons. destruct (IH Hn Hch) as [IH1 IH2].
    case_decide; subst; simpl.
    + split; [by apply NoDup_cons|]. constructor; [by apply Hf|done].
    + split; [|by constructor]. apply NoDup_cons. split; [|done].
      by intros [->|?]%child_entry_keys.
Qed.

Lemma trie_insert_wf p i t : wf_trie t -> wf_trie (trie_insert p i t).
Proof.
  revert t. induction p as [|k p IH]; intros t Ht; destruct Ht as [ch ix H1 H2]; simpl;
    [by constructor|].
  destruct (child_entry_wf k (trie_insert p i) ch) as [? ?]; auto; [|by constructor].
  apply IH. by constructor; [apply NoDup_nil_2|].
Qed.

Lemma trie_at_default q : trie_at q trie_default = [].
Proof. by destruct q. Qed.

Lemma trie_at_insert p q i t :
  trie_at q (trie_insert p i t) =
    if decide (q = p) then trie_at q t ++ [i] else trie_at q t.
Proof.
  revert q t. induction p as [|k p IH]; intros q t; simpl.
  - by destruct q.
  - destruct q as [|k' q]; [done|]. simpl. rewrite child_get_entry. destruct (decide (k' = k)) as [->|Hk].
    + rewrite IH. destruct (child_get k (trie_children t)); simpl; rewrite ?trie_at_default;
        repeat case_decide; by simplify_eq.
    + rewrite decide_False; [done|]. congruence.
Qed.

Lemma child_get_elem k t ch : child_get k ch = Some t -> (k, t) ∈ ch.
Proof.
  induction ch as [|[k' t'] ch IH]; simpl; [done|].
  case_decide as Hk; [intros [= ->]; subst; left|]. intros Hg. right. auto.
Qed.

Lemma elem_child_get k t ch : NoDup ch.*1 -> (k, t) ∈ ch -> child_get k ch = Some t.
Proof.
  induction ch as [|[k' t'] ch IH]; simpl; [set_solver|].
  intros [Hk Hn]%NoDup_cons [[= -> ->]|H]%elem_of_cons; [by rewrite decide_True|].
  rewrite decide_False; [by apply IH|]. intros ->. apply Hk.
  apply list_elem_of_fmap. by exists (k', t).
Qed.

Lemma collect_descendants_spec t i :
  wf_trie t -> i ∈ collect_descendants t <-> exists k q, i ∈ trie_at (k :: q) t.
Proof.
  induction t as [ch ix IH] using trie_ind. intros H. inversion H as [? ? H1 H2]; subst.
  simpl. rewrite list_elem_of_In, in_flat_map. rewrite Forall_forall in IH, H2.
  split.
  - intros ([k c] & Hc & Hi). apply list_elem_of_In in Hc. exists k.
    rewrite (elem_child_get k c) by done. simpl in Hi.
    apply list_elem_of_In, elem_of_app in Hi as [Hi|Hi]; [by exists []|].
    apply (IH (k, c)) in Hi as (k' & q & Hi); [by exists (k' :: q)|done|].
    by apply (H2 (k, c)).
  - intros (k & q & Hi). destruct (child_get k ch) as [c|] eqn:E; [|set_solver].
    apply child_get_elem in E. exists (k, c).
    split; [by apply list_elem_of_In|]. simpl. apply list_elem_of_In, elem_of_app. destruct q as [|k' q]; [by left|right].
    apply (IH (k, c)); [done|by apply (H2 (k, c))|]. by exists k', q.
Qed.

Lemma overlap_cons k k' p q : overlap (k :: p) (k' :: q) <-> k = k' /\ overlap p q.
Proof.
  unfold overlap. split.
  - intros [H|H]; pose proof (prefix_cons_inv_1 _ _ _ _ H);
      apply prefix_cons_inv_2 in H; auto.
  - intros [-> [H|H]]; [left|right]; by apply prefix_cons.
Qed.

(** The trie finds exactly the indices of the overlapping paths. *)
Lemma find_overlapping_spec p t i :
  wf_trie t -> i ∈ find_overlapping p t <-> exists q, i ∈ trie_at q t /\ overlap q p.
Proof.
  revert t. induction p as [|k p IH]; intros t Ht; simpl; rewrite elem_of_app.
  - rewrite collect_descendants_spec by done. split.
    + intros [H|(k & q & H)]; [exists []|exists (k :: q)]; split; try done;
        right; apply prefix_nil.
    + intros ([|k q] & H & _); [by left|right; eauto].
  - split.
    + intros [H|H]; [exists []; split; [done|left; apply prefix_nil]|].
      destruct (child_get k (trie_children t)) as [c|] eqn:E; [|set_solver].
      apply IH in H as (q & Hq & Ho).
      * exists (k :: q). simpl. rewrite E. split; [done|]. by apply overlap_cons.
      * destruct Ht as [ch ix H1 H2]. apply child_get_elem in E.
        by apply (proj1 (Forall_forall _ _) H2 (k, c)).
    + intros ([|k' q] & Hi & Ho); [by left|right].
      apply overlap_cons in Ho as [-> Ho]. simpl in Hi.
      destruct (child_get k (trie_children t)) as [c|] eqn:E; [|set_solver].
      apply IH; [|by exists q].
      destruct Ht as [ch ix H1 H2]. apply child_get_elem in E.
      by apply (proj1 (Forall_forall _ _) H2 (k, c)).
Qed.

(** * The edges relate overlapping filters *)

Definition related (f g : filter) : Prop :=
  overlap (keys (src_path f)) (keys (src_path g)) \/
  overlap (keys (dst_path f)) (keys (dst_path g)).

Definition push_once (i : nat) (l : list nat) : list nat :=
  if decide (last l = Some i) then l else l ++ [i].

Lemma push_once_idemp i l : push_once i (push_once i l) = push_once i l.
Proof.
  unfold push_once. destruct (decide (last l = Some i)); [by rewrite decide_True|].
  by rewrite decide_True by apply last_snoc.
Qed.

Lemma foldl_push_length i out js :
  length (foldl (maybe_push_outgoing i) out js) = length out.
Proof.
  revert out. induction js as [|j js IH]; intros out; simpl; [done|].
  rewrite IH. apply length_alter.
Qed.

Lemma foldl_push_lookup i out js j :
  foldl (maybe_push_outgoing i) out js !! j =
    (if decide (j ∈ js) then push_once i else id) <$> out !! j.
Proof.
  revert out. induction js as [|j' js IH]; intros out; simpl.
  - by destruct (out !! j).
  - rewrite IH. unfold maybe_push_outgoing. fold (push_once i).
    destruct (decide (j' = j)) as [->|Hj].
    + rewrite list_lookup_alter_eq, (decide_True (P := j ∈ j :: js)) by left.
      destruct (out !! j); simpl; [|done]. case_decide; simpl; [|done].
      by rewrite push_once_idemp.
    + rewrite list_lookup_alter_ne by done.
      destruct (decide (j ∈ js)); [rewrite decide_True by (by right)|rewrite decide_False]; 
        try done. intros [->|?]%elem_of_cons; done.
Qed.

Definition stores (path_of : filter -> path) (done : list filter) (t : PathTrie) : Prop :=
  wf_trie t /\ forall q i,
    i ∈ trie_at q t <-> exists f, done !! i = Some f /\ q = keys (path_of f).

Definition edges_of (done : list filter) (j : nat) (l : list nat) : Prop :=
  NoDup l /\ forall i, i ∈ l <->
    j < i /\ exists f g, done !! j = Some f /\ done !! i = Some g /\ related f g.

Definition edges_inv (n : nat) (done : list filter) (s : sort_state) : Prop :=
  stores src_path done (src_trie s) /\ stores dst_path done (dst_trie s) /\
  length (outgoing s) = n /\
  forall j l, outgoing s !! j = Some l -> edges_of done j l.

Lemma stores_insert path_of done t f :
  stores path_of done t ->
  stores path_of (done ++ [f]) (trie_insert (keys (path_of f)) (length done) t).
Proof.
  intros [Hw H]. split; [by apply trie_insert_wf|]. intros q i.
  rewrite trie_at_insert. setoid_rewrite lookup_snoc_Some.
  case_decide as Hq; rewrite ?elem_of_app, ?list_elem_of_singleton, H; split.
  - intros [(g & Hg & ->)| ->]; [exists g|exists f]; split; auto.
    left. split; [by eapply lookup_lt_Some|done].
  - intros (g & [[? ?]|[-> ->]] & ->); eauto.
  - intros (g & Hg & ->). exists g. split; [|done].
    left. split; [by eapply lookup_lt_Some|done].
  - intros (g & [[? ?]|[-> ->]] & ->); [eauto|done].
Qed.

Lemma stores_overlapping path_of done t p j :
  stores path_of done t -> j ∈ find_overlapping p t <->
  exists f, done !! j = Some f /\ overlap (keys (path_of f)) p.
Proof.
  intros [Hw H]. rewrite find_overlapping_spec by done. setoid_rewrite H. naive_solver.
Qed.

Lemma edges_of_push done j l f :
  edges_of done j l ->
  (exists g, done !! j = Some g /\ related g f) ->
  edges_of (done ++ [f]) j (push_once (length done) l).
Proof.
  intros [Hn H] (g & Hg & Hr).
  assert (forall i, i ∈ l -> i < length done) as Hlt.
  { intros i (_ & ? & ? & _ & Hi & _)%H. by eapply lookup_lt_Some. }
  unfold push_once. rewrite decide_False.
  2: { intros E%last_Some_elem_of%Hlt. lia. }
  split.
  - apply NoDup_app. split; [done|]. split; [|apply NoDup_singleton].
    intros i Hi%Hlt ->%list_elem_of_singleton. lia.
  - intros i. rewrite elem_of_app, list_elem_of_singleton, H.
    setoid_rewrite lookup_snoc_Some. pose proof (lookup_lt_Some _ _ _ Hg) as Hj.
    split.
    + intros [(? & f1 & f2 & H1 & H2 & ?)| ->]; (split; [done|]).
      * exists f1, f2. pose proof (lookup_lt_Some _ _ _ H2). auto.
      * exists g, f. auto.
    + intros (Hji & f1 & f2 & [[? H1]|[? ?]] & [[? H2]|[? ?]] & ?); subst; try lia; auto.
      left. split; [done|]. eauto.
Qed.

Lemma edges_of_skip done j l f :
  edges_of done j l ->
  ~ (exists g, done !! j = Some g /\ related g f) ->
  edges_of (done ++ [f]) j l.
Proof.
  intros [Hn H] Hno. split; [done|]. intros i. rewrite H.
  setoid_rewrite lookup_snoc_Some. split.
  - intros (? & f1 & f2 & H1 & H2 & ?). split; [done|]. exists f1, f2.
    pose proof (lookup_lt_Some _ _ _ H2). pose proof (lookup_lt_Some _ _ _ H1). auto.
  - intros (Hji & f1 & f2 & [[? H1]|[? ?]] & [[? H2]|[? ?]] & ?); subst; try lia; eauto 10.
    destruct Hno. eauto.
Qed.

Lemma add_filter_inv n done s f :
  edges_inv n done s -> edges_inv n (done ++ [f]) (add_filter s (length done, f)).
Proof.
  intros (Hs & Hd & Hl & H). split; [by apply stores_insert|].
  split; [by apply stores_insert|]. unfold add_filter. simpl.
  split; [by rewrite !foldl_push_length|]. intros j l'.
  rewrite !foldl_push_lookup. destruct (outgoing s !! j) as [l|] eqn:E; [|done].
  simpl. intros [= <-]. apply H in E.
  assert ((exists g, done !! j = Some g /\ related g f) <->
    j ∈ find_overlapping (keys (src_path f)) (src_trie s) \/
    j ∈ find_overlapping (keys (dst_path f)) (dst_trie s)) as Hrel.
  { rewrite (stores_overlapping src_path done), (stores_overlapping dst_path done) by done.
    unfold related. naive_solver. }
  repeat case_decide; simpl; rewrite ?push_once_idemp;
    first [apply edges_of_push; [done|]; tauto | apply edges_of_skip; [done|]; tauto].
Qed.

Lemma foldl_add_filter_inv n done rest s :
  edges_inv n done s ->
  edges_inv n (done ++ rest)
    (foldl add_filter s (zip (seq (length done) (length rest)) rest)).
Proof.
  revert done s. induction rest as [|f rest IH]; intros done s H; simpl.
  { by rewrite app_nil_r. }
  rewrite (cons_middle f done rest), app_assoc.
  replace (S (length done)) with (length (done ++ [f])) by (rewrite length_app; simpl; lia).
  apply IH. by apply add_filter_inv.
Qed.

Lemma stores_default path_of : stores path_of [] trie_default.
Proof.
  split; [by constructor; [apply NoDup_nil_2|]|]. intros q i.
  rewrite trie_at_default. split; [set_solver|]. by intros (? & ? & _).
Qed.

(** An edge goes from a filter to a later one that shares a source or a
    destination path with it, and each such pair has exactly one. *)
Lemma build_edges_spec filters :
  length (build_edges filters) = length filters /\
  forall j l, build_edges filters !! j = Some l -> edges_of filters j l.
Proof.
  destruct (foldl_add_filter_inv (length filters) [] filters
    (SortState (replicate (length filters) []) trie_default trie_default)) as (_ & _ & H).
  - split; [apply stores_default|]. split; [apply stores_default|]. simpl.
    split; [apply length_replicate|]. intros j l [-> _]%lookup_replicate.
    split; [apply NoDup_nil_2|]. intros i. split; [set_solver|].
    by intros (_ & ? & ? & ? & _).
  - apply H.
Qed.

(** * The topological sort *)

Lemma heap_pop_None h : heap_pop h = None -> h = [].
Proof.
  destruct h as [|k h]; [done|]. simpl. destruct (heap_pop h) as [[k' h']|]; [|done].
  by destruct (sort_key_cmp k k').
Qed.

Lemma heap_pop_perm h k h' : heap_pop h = Some (k, h') -> h ≡ₚ k :: h'.
Proof.
  revert k h'. induction h as [|x h IH]; intros k h'; simpl; [done|].
  destruct (heap_pop h) as [[y h2]|] eqn:E.
  - specialize (IH y h2 eq_refl). destruct (sort_key_cmp x y); intros [= <- <-];
      rewrite IH; try done; constructor.
  - apply heap_pop_None in E as ->. by intros [= <- <-].
Qed.

Section TopoSort.
Context (edges : list (list nat)) (make_key : nat -> sort_key) (n : nat).
Context (make_key_index : forall i, (make_key i).1.1 = i).
Context (edges_length : length edges = n).
Context (edges_nodup : forall i l, edges !! i = Some l -> NoDup l).
Context (edges_up : forall i j, j ∈ edges !!! i -> i < j < n).

Let idx (h : list sort_key) : list nat := (fun k => k.1.1) <$> h.

(** The number of edges into [j] from indices that are not sorted yet. *)
Definition pending (result : list nat) (j : nat) : nat :=
  length (base.filter (fun i => j ∈ edges !!! i /\ i ∉ result) (seq 0 n)).

Lemma edges_total_nodup i : NoDup (edges !!! i).
Proof.
  rewrite list_lookup_total_alt. destruct (edges !! i) eqn:E; [by eapply edges_nodup|].
  apply NoDup_nil_2.
Qed.

Lemma filter_remove_length (P : nat -> Prop) `{!forall x, Decision (P x)} l i :
  NoDup l -> i ∈ l -> P i ->
  length (base.filter P l) = S (length (base.filter (fun x => P x /\ x ≠ i) l)).
Proof.
  intros Hn (l' & Hl)%elem_of_Permutation Hp. rewrite Hl.
  rewrite Hl in Hn. apply NoDup_cons in Hn as [Hi _].
  rewrite filter_cons_True, filter_cons_False by naive_solver. simpl. do 2 f_equal.
  apply list_filter_ext. intros x Hx. split; [|naive_solver].
  intros ?. split; [done|]. by intros ->.
Qed.

Lemma pending_snoc_in result i j :
  i < n -> i ∉ result -> j ∈ edges !!! i -> pending result j = S (pending (result ++ [i]) j).
Proof.
  intros Hi Hr Hj. unfold pending.
  rewrite (filter_remove_length _ _ i); [|apply NoDup_seq|apply elem_of_seq; lia|done].
  do 2 f_equal. apply list_filter_iff. intros x. set_solver.
Qed.

Lemma pending_snoc_out result i j :
  j ∉ edges !!! i -> pending (result ++ [i]) j = pending result j.
Proof.
  intros Hj. unfold pending. f_equal. apply list_filter_iff. intros x.
  rewrite not_elem_of_app, list_elem_of_singleton. naive_solver.
Qed.

Lemma pending_zero result j i : pending result j = 0 -> j ∈ edges !!! i -> i ∈ result.
Proof.
  intros H%length_zero_iff_nil Hj. destruct (decide (i ∈ result)) as [|Hi]; [done|].
  assert (i ∈ base.filter (fun i => j ∈ edges !!! i /\ i ∉ result) (seq 0 n)) as He.
  { apply list_elem_of_filter. split; [done|]. apply elem_of_seq.
    apply edges_up in Hj. lia. }
  rewrite H in He. set_solver.
Qed.

Lemma pending_zero_intro result j :
  (forall i, j ∈ edges !!! i -> i ∈ result) -> pending result j = 0.
Proof.
  intros H. apply length_zero_iff_nil. apply list_filter_none. intros i _ [Hj Hi]. by apply Hi, H.
Qed.

Lemma foldl_release ind h nb ind' h' :
  NoDup nb -> foldl (release make_key) (ind, h) nb = (ind', h') ->
  (forall j, ind' !! j = if decide (j ∈ nb) then Nat.pred <$> ind !! j else ind !! j) /\
  idx h' ≡ₚ base.filter (fun j => ind' !! j = Some 0) nb ++ idx h.
Proof.
  revert ind h. induction nb as [|j nb IH]; intros ind h Hn; simpl.
  { intros [= <- <-]. done. }
  apply NoDup_cons in Hn as [Hj Hn]. intros E.
  set (ind2 := alter Nat.pred j ind) in *.
  destruct (IH ind2 (if decide (ind2 !! j = Some 0) then make_key j :: h else h) Hn)
    as [H1 H2]; [by case_decide|].
  assert (ind' !! j = ind2 !! j) as Hij by (by rewrite H1, decide_False).
  split.
  - intros k. rewrite H1. unfold ind2. destruct (decide (k = j)) as [->|Hk].
    + rewrite decide_False, decide_True by (done || left). apply list_lookup_alter_eq.
    + rewrite list_lookup_alter_ne by done. 
      destruct (decide (k ∈ nb)); [rewrite decide_True by (by right)|rewrite decide_False];
        try done. by intros [?|?]%elem_of_cons.
  - rewrite H2, filter_cons, Hij. case_decide; [|done]. simpl.
    rewrite make_key_index. symmetry. apply Permutation_middle.
Qed.

Lemma foldl_alter_S_lookup (ind nb : list nat) j :
  NoDup nb ->
  foldl (fun ind j => alter S j ind) ind nb !! j =
    (if decide (j ∈ nb) then S else id) <$> ind !! j.
Proof.
  revert ind. induction nb as [|k nb IH]; intros ind Hn; simpl.
  { by destruct (ind !! j). }
  apply NoDup_cons in Hn as [Hk Hn]. rewrite IH by done.
  destruct (decide (k = j)) as [->|Hj].
  - rewrite list_lookup_alter_eq, (decide_False (P := j ∈ nb)), decide_True by (done || left).
    by destruct (ind !! j).
  - rewrite list_lookup_alter_ne by done.
    destruct (decide (j ∈ nb)); [rewrite decide_True by (by right)|rewrite decide_False];
      try done. by intros [?|?]%elem_of_cons.
Qed.

Lemma foldl_indegree_lookup (es : list (list nat)) (ind : list nat) j :
  Forall (@NoDup nat) es ->
  foldl (fun ind neighbors => foldl (fun ind j => alter S j ind) ind neighbors) ind es !! j =
    Nat.add (length (base.filter (fun l => j ∈ l) es)) <$> ind !! j.
Proof.
  intros H. revert ind. induction H as [|l es Hl _ IH]; intros ind; simpl.
  { by destruct (ind !! j). }
  rewrite IH, foldl_alter_S_lookup, filter_cons by done.
  destruct (ind !! j); [|done]. case_decide; simpl; f_equal; lia.
Qed.

Lemma filter_seq_lookup (P : list nat -> Prop) `{!forall l, Decision (P l)} (es : list (list nat)) :
  ~ P [] ->
  length (base.filter P es) = length (base.filter (fun i => P (es !!! i)) (seq 0 (length es))).
Proof.
  intros _. induction es as [|l es IH] using rev_ind; [done|].
  rewrite length_app, seq_app, !filter_app, !length_app. simpl. f_equal.
  - rewrite IH. f_equal. apply list_filter_ext. intros i Hi%elem_of_seq.
    rewrite lookup_total_app_l by lia. done.
  - rewrite !filter_cons. rewrite lookup_total_app_r, Nat.sub_diag by lia. simpl.
    by case_decide.
Qed.

Lemma initial_indegree_lookup j :
  j < n -> initial_indegree edges n !! j = Some (pending [] j).
Proof.
  intros Hj. unfold initial_indegree. rewrite foldl_indegree_lookup.
  - rewrite lookup_replicate_2 by done. simpl. f_equal. rewrite Nat.add_0_r.
    rewrite filter_seq_lookup by set_solver. unfold pending. rewrite edges_length.
    f_equal. apply list_filter_iff. set_solver.
  - apply Forall_forall. intros l (i & Hi)%list_elem_of_lookup. by eapply edges_nodup.
Qed.

Lemma initial_indegree_length : length (initial_indegree edges n) = n.
Proof.
  unfold initial_indegree.
  assert (forall (es : list (list nat)) (ind : list nat), length
    (foldl (fun ind nb => foldl (fun ind j => alter S j ind) ind nb) ind es) = length ind)
    as H.
  { induction es as [|l es IH]; intros ind; simpl; [done|]. rewrite IH. clear IH.
    revert ind. induction l as [|j l IH]; intros ind; simpl; [done|].
    by rewrite IH, length_alter. }
  rewrite H. apply length_replicate.
Qed.

(** The state of the loop: the counts, what is free, and what is sorted. *)
Record topo_inv (ind : list nat) (h : list sort_key) (result : list nat) : Prop := {
  ti_nodup : NoDup (result ++ idx h);
  ti_range : forall j, j ∈ result ++ idx h -> j < n;
  ti_count : forall j, j < n -> ind !! j = Some (pending result j);
  ti_free : forall j, j < n -> j ∈ result ++ idx h <-> pending result j = 0;
  ti_order : forall l1 j l2 i, result = l1 ++ j :: l2 -> j ∈ edges !!! i -> i ∈ l1;
}.

Lemma topo_inv_initial :
  topo_inv (initial_indegree edges n)
    (initial_heap make_key (initial_indegree edges n)) [].
Proof.
  assert (idx (initial_heap make_key (initial_indegree edges n)) =
    base.filter (fun i => initial_indegree edges n !! i = Some 0) (seq 0 n)) as E.
  { unfold idx, initial_heap. rewrite <- list_fmap_compose, initial_indegree_length.
    rewrite <- (list_fmap_id (base.filter _ (seq 0 n))) at 2.
    apply list_fmap_ext. intros ? x _. apply make_key_index. }
  split; simpl; rewrite ?E.
  - apply NoDup_filter, NoDup_seq.
  - intros j [_ Hj%elem_of_seq]%list_elem_of_filter. lia.
  - apply initial_indegree_lookup.
  - intros j Hj. rewrite list_elem_of_filter, initial_indegree_lookup, elem_of_seq by done.
    split; [by intros [[= ?] _]|]. intros ->. split; [done|lia].
  - intros l1 j l2 i H. by destruct l1.
Qed.

Lemma topo_inv_step ind h result k h1 ind2 h2 :
  topo_inv ind h result -> heap_pop h = Some (k, h1) ->
  foldl (release make_key) (ind, h1) (edges !!! k.1.1) = (ind2, h2) ->
  topo_inv ind2 h2 (result ++ [k.1.1]).
Proof.
  intros [Hnd Hrg Hct Hfr Hor] Hpop%heap_pop_perm Hrel.
  apply foldl_release in Hrel as [Hind Hh2]; [|apply edges_total_nodup].
  assert (idx h ≡ₚ k.1.1 :: idx h1) as Hh by (unfold idx; by rewrite Hpop).
  set (i := k.1.1) in *.
  assert (result ++ idx h ≡ₚ (result ++ [i]) ++ idx h1) as Hp.
  { rewrite Hh, <- app_assoc. done. }
  assert (i < n /\ i ∉ result) as [Hin Hir].
  { rewrite Hp in Hnd. apply NoDup_app in Hnd as [Hnd _]. apply NoDup_app in Hnd as (_ & Hd & _).
    split; [|intros Hi%Hd; set_solver]. apply Hrg. rewrite Hp. set_solver. }
  assert (forall j, j < n -> ind2 !! j = Some (pending (result ++ [i]) j)) as Hct2.
  { intros j Hj. rewrite Hind, Hct by done. case_decide as Hji; simpl.
    - by rewrite (pending_snoc_in _ i) by done.
    - by rewrite pending_snoc_out. }
  assert (forall j, j ∈ base.filter (fun j => ind2 !! j = Some 0) (edges !!! i) <->
    j ∈ edges !!! i /\ pending (result ++ [i]) j = 0) as Hnew.
  { intros j. rewrite list_elem_of_filter. split; intros [H1 H2]; split; try done.
    - rewrite Hct2 in H1 by (apply edges_up in H2; lia). by injection H1.
    - apply edges_up in H1 as Hj. by rewrite Hct2, H2 by lia. }
  assert (forall j, j ∈ edges !!! i -> j ∉ result ++ idx h) as Hfresh.
  { intros j Hj Hin'. apply Hfr in Hin' as Hz; [|by apply edges_up in Hj; lia].
    by rewrite (pending_snoc_in _ i) in Hz. }
  assert ((result ++ [i]) ++ idx h2 ≡ₚ
    base.filter (fun j => ind2 !! j = Some 0) (edges !!! i) ++ result ++ idx h) as Hp2.
  { rewrite Hh2, Hp. apply Permutation_app_swap_app. }
  split.
  - rewrite Hp2. apply NoDup_app. split; [apply NoDup_filter, edges_total_nodup|].
    split; [|done]. intros j [Hj _]%Hnew. by apply Hfresh.
  - intros j. rewrite Hp2, elem_of_app, Hnew. intros [[Hj _]|?]; [|by apply Hrg].
    by apply edges_up in Hj as [_ ?].
  - done.
  - intros j Hj. rewrite Hp2, elem_of_app, Hnew, Hfr by done.
    destruct (decide (j ∈ edges !!! i)) as [Hji|Hji].
    + rewrite (pending_snoc_in _ i _ Hin Hir Hji). split; [naive_solver lia|tauto].
    + rewrite pending_snoc_out by done. tauto.
  - intros l1 j l2 i' E Hj. destruct l2 as [|x l2 _] using rev_ind.
    + apply app_inj_tail in E as [<- <-]. eapply pending_zero; [|done].
      apply Hfr; [done|]. rewrite Hp. set_solver.
    + rewrite app_comm_cons, app_assoc in E. apply app_inj_tail in E as [-> _].
      by eapply Hor.
Qed.

Lemma topo_loop_inv m ind h result :
  topo_inv ind h result -> n <= m + length result ->
  exists ind', topo_inv ind' [] (topo_loop edges make_key m ind h result).
Proof.
  revert ind h result. induction m as [|m IH]; intros ind h result Hi Hm; simpl.
  - exists ind. assert (h = []) as ->; [|done].
    assert (length (result ++ idx h) <= n) as Hl.
    { rewrite <- (length_seq n 0). apply NoDup_incl_length; [apply NoDup_ListNoDup, Hi|].
      intros j Hj%list_elem_of_In. apply list_elem_of_In, elem_of_seq.
      apply (ti_range _ _ _ Hi) in Hj. lia. }
    rewrite length_app in Hl. unfold idx in Hl. rewrite length_fmap in Hl.
    apply length_zero_iff_nil. unfold sort_key in *. lia.
  - destruct (heap_pop h) as [[k h1]|] eqn:E.
    + destruct (foldl (release make_key) (ind, h1) (edges !!! k.1.1)) as [ind2 h2] eqn:E2.
      apply IH; [by eapply topo_inv_step|]. rewrite length_app. simpl. lia.
    + apply heap_pop_None in E as ->. by exists ind.
Qed.

(** The sort visits every index once, and an index only after all indices with
    an edge to it. *)
Lemma topo_sort_spec :
  topo_sort edges make_key n ≡ₚ seq 0 n /\
  forall l1 j l2 i, topo_sort edges make_key n = l1 ++ j :: l2 ->
    j ∈ edges !!! i -> i ∈ l1.
Proof.
  destruct (topo_loop_inv n _ _ _ topo_inv_initial) as [ind' Hi]; [simpl; lia|].
  fold (topo_sort edges make_key n) in Hi. split; [|apply Hi].
  destruct Hi as [Hnd Hrg _ Hfr _]. simpl in *. rewrite app_nil_r in Hnd, Hrg.
  apply NoDup_Permutation; [done|apply NoDup_seq|]. intros j. rewrite elem_of_seq.
  split; [intros Hj; split; [lia|]; by apply Hrg|]. intros [_ Hj]. simpl in Hj.
  induction j as [j IH] using lt_wf_ind.
  specialize (Hfr j Hj). rewrite app_nil_r in Hfr. apply Hfr.
  apply pending_zero_intro. intros i Hi. apply edges_up in Hi. apply IH; lia.
Qed.

End TopoSort.

(** * Correctness of [prefix_sort] *)

Lemma omap_lookup_seq {A} (l : list A) : omap (fun i => l !! i) (seq 0 (length l)) = l.
Proof.
  induction l as [|x l IH] using rev_ind; [done|].
  rewrite length_app, seq_app. simpl. rewrite omap_app. simpl.
  rewrite (list_lookup_middle l [] x) by done. f_equal.
  rewrite <- IH at 2. apply list_omap_ext, Forall2_same_length_lookup_2; [done|].
  intros i x1 x2 H1 H2. rewrite H1 in H2. injection H2 as ->.
  apply lookup_seq in H1 as [-> Hi]. simpl. by rewrite lookup_app_l.
Qed.

Lemma edges_total_elem filters i j :
  j ∈ build_edges filters !!! i <->
  i < j /\ exists f g, filters !! i = Some f /\ filters !! j = Some g /\ related f g.
Proof.
  destruct (build_edges_spec filters) as [Hl He]. rewrite list_lookup_total_alt.
  destruct (build_edges filters !! i) as [l|] eqn:E; simpl; [apply He; done|].
  split; [set_solver|]. intros (_ & f & g & Hf & _).
  apply lookup_ge_None in E. apply lookup_lt_Some in Hf. lia.
Qed.

Lemma sort_indices_spec filters :
  sort_indices filters ≡ₚ seq 0 (length filters) /\
  forall l1 j l2 i, sort_indices filters = l1 ++ j :: l2 ->
    j ∈ build_edges filters !!! i -> i ∈ l1.
Proof.
  destruct (build_edges_spec filters) as [Hl He]. apply topo_sort_spec; try done.
  - intros i l H. by apply He in H as [? _].
  - intros i j (Hij & f & g & _ & Hg & _)%edges_total_elem.
    split; [done|]. by eapply lookup_lt_Some.
Qed.

Lemma before_seq n i j : i < j < n ->
  exists l1 l2 l3, seq 0 n = l1 ++ i :: l2 ++ j :: l3.
Proof.
  intros H. exists (seq 0 i), (seq (S i) (j - S i)), (seq (S j) (n - S j)).
  replace n with (i + (1 + ((j - S i) + (1 + (n - S j))))) at 1 by lia.
  rewrite !seq_app. simpl. do 2 f_equal. repeat f_equal; lia.
Qed.

Lemma prefix_sort_perm (filters : list filter) : prefix_sort filters ≡ₚ filters.
Proof.
  unfold prefix_sort. case_decide; [done|]. destruct (sort_indices_spec filters) as [Hp _].
  rewrite Hp. by rewrite omap_lookup_seq.
Qed.

(** C31: [prefix_sort] permutes the branches of a composition, and it keeps every
    two branches whose source or destination paths overlap (one path is a prefix
    of the other) in their order, which is what lets a later branch win over an
    earlier one at the same path.  The order is given by positions, as branches
    may repeat. *)
Theorem prefix_sort_keeps_overlaps (filters : list filter) :
  exists order,
    order ≡ₚ seq 0 (length filters) /\
    prefix_sort filters = omap (fun i => filters !! i) order /\
    prefix_sort filters ≡ₚ filters /\
    forall i j f g, i < j -> filters !! i = Some f -> filters !! j = Some g ->
      related f g -> exists l1 l2 l3, order = l1 ++ i :: l2 ++ j :: l3.
Proof.
  unfold prefix_sort. destruct (sort_indices_spec filters) as [Hp Ho].
  case_decide as Hn.
  - exists (seq 0 (length filters)). rewrite omap_lookup_seq. split; [done|].
    split; [done|]. split; [done|]. intros i j f g Hij Hf Hg _. apply before_seq.
    apply lookup_lt_Some in Hg. done.
  - exists (sort_indices filters). split; [done|]. split; [done|]. split; [by rewrite Hp, omap_lookup_seq|].
    intros i j f g Hij Hf Hg Hr.
    assert (j ∈ sort_indices filters) as Hj.
    { rewrite Hp. apply elem_of_seq. apply lookup_lt_Some in Hg. lia. }
    apply list_elem_of_split in Hj as (l1 & l3 & E).
    assert (i ∈ l1) as Hi.
    { eapply Ho; [done|]. apply edges_total_elem. eauto 10. }
    apply list_elem_of_split in Hi as (l0 & l2 & ->).
    exists l0, l2, l3. by rewrite E, <- app_assoc.
Qed.
