(* ===== verification/Structure.v ===== *)
(** Structure of chains and compositions: the helpers of
    josh-filter/src/opt/structure.rs that the rewriting steps use to find common
    beginnings and ends of the branches of a composition. *)

From S2P Require Import Prelude Path Ops OptState Invert.

(** [last_chain]: the last element of a chain, through nested chains, and the
    chain of everything before it, put after [rest]. *)
Fixpoint last_chain (f rest : filter) : filter * filter :=
  match f with
  | Op.Chain filters =>
      (fix go (before l : list filter) : filter * filter :=
         match l with
         | [] => (rest, f)
         | [x] => last_chain x (to_filter (Op.Chain (rest :: before)))
         | x :: l => go (before ++ [x]) l
         end) [] filters
  | _ => (rest, f)
  end.

(** The first loop of [group]: adjacent chains with the same first element. *)
Definition same_head (f g : filter) : bool :=
  match to_op f, to_op g with
  | Op.Chain (x :: _), Op.Chain (y :: _) => bool_decide (x = y)
  | _, _ => false
  end.

(** The second loop of [group]: adjacent filters with the same last element. *)
Definition same_last (f g : filter) : bool :=
  let '(_, a) := last_chain f (to_filter Op.Nop) in
  let '(_, x) := last_chain g (to_filter Op.Nop) in
  bool_decide (a = x).

(** A loop of [group]: [same f g] compares a filter with the first one of the
    last group. *)
Definition group_step (same : filter -> filter -> bool) (res : list (list filter))
    (f : filter) : list (list filter) :=
  match last res with
  | Some (g :: gs) =>
      if same f g then removelast res ++ [(g :: gs) ++ [f]] else res ++ [[f]]
  | _ => res ++ [[f]]
  end.

(** [group]. *)
Definition group (filters : list filter) : list (list filter) :=
  let res := foldl (group_step same_head) [] filters in
  if decide (length res ≠ length filters) then res
  else foldl (group_step same_last) [] filters.

(** [is_generative]. *)
Definition is_generative (f : filter) : bool :=
  match to_op f with Op.Insert _ _ | Op.TreeId _ _ => true | _ => false end.

(** The loop of [common_pre]: the common first element found so far and the
    remainders of the chains. *)
Fixpoint common_pre_loop (filters : list filter) (c : option filter) (rest : list filter) :
    option (option filter * list filter) :=
  match filters with
  | [] => Some (c, rest)
  | f :: filters =>
      match to_op f with
      | Op.Chain (first :: tl) =>
          let rest_chain :=
            match tl with
            | [] => to_filter Op.Nop
            | _ => to_filter (Op.Chain tl)
            end in
          match c with
          | None => common_pre_loop filters (Some first) (rest ++ [rest_chain])
          | Some c0 =>
              if decide (c0 = first) then common_pre_loop filters c (rest ++ [rest_chain])
              else None
          end
      | _ => None
      end
  end.

(** [common_pre]. *)
Definition common_pre (filters : list filter) : option (filter * list filter) :=
  match common_pre_loop filters None [] with
  | Some (Some c, rest) => if is_generative c then None else Some (c, rest)
  | _ => None
  end.

(** [resurrects_from_empty]. *)
Fixpoint resurrects_from_empty (f : filter) : bool :=
  match f with
  | Op.Insert _ _ | Op.TreeId _ _ => true
  | Op.Chain filters | Op.Compose filters => existsb resurrects_from_empty filters
  | Op.Subtract a _ => resurrects_from_empty a
  | _ => false
  end.

(** [distributes_over_compose]. *)
Fixpoint distributes_over_compose (f : filter) : bool :=
  match f with
  | Op.Nop | Op.Empty | Op.Prefix _ | Op.Subdir _ => true
  | Op.Chain filters | Op.Compose filters => forallb distributes_over_compose filters
  | _ => false
  end.

(** The loop of [common_post]. *)
Fixpoint common_post_loop (filters : list filter) (common : option filter)
    (rest : list filter) : option (option filter * list filter) :=
  match filters with
  | [] => Some (common, rest)
  | f :: filters =>
      let '(a, b) := last_chain f (to_filter Op.Nop) in
      let common := match common with None => Some b | Some c => Some c end in
      if decide (common = Some b) then common_post_loop filters common (rest ++ [a])
      else None
  end.

(** [invert(c).is_ok() && invert(c).unwrap() == c]. *)
Definition self_inverse (c : filter) : opt bool :=
  ok ← invertible c;
  if (ok : bool) then g ← invert_filter c; mret (bool_decide (g = c)) else mret false.

(** [common_post]. *)
Definition common_post (filters : list filter) : opt (option (filter * list filter)) :=
  match common_post_loop filters None [] with
  | Some (Some c, rest) =>
      self ← self_inverse c;
      if (self : bool) then mret (Some (c, rest))
      else match to_op c with
           | Op.Prefix _ => mret (Some (c, rest))
           | Op.Message _ _ => mret (Some (c, rest))
           | _ => mret None
           end
  | _ => mret None
  end.

(** What [common_post] computes, without the table of inverses. *)
Definition common_post_of (filters : list filter) : option (filter * list filter) :=
  match common_post_loop filters None [] with
  | Some (Some c, rest) =>
      if bool_decide (inverse c = Ok c) then Some (c, rest)
      else match c with
           | Op.Prefix _ | Op.Message _ _ => Some (c, rest)
           | _ => None
           end
  | _ => None
  end.

(** * Lemmas *)

Lemma last_chain_snoc (l : list filter) (x rest : filter) :
  last_chain (Op.Chain (l ++ [x])) rest = last_chain x (Op.Chain (rest :: l)).
Proof.
  cbn [last_chain to_filter]. generalize (Op.Chain (l ++ [x])) as g. intros g.
  match goal with |- ?go [] _ = _ => cut (forall before, go before (l ++ [x]) =
    last_chain x (Op.Chain (rest :: before ++ l))); [intros H; apply (H [])|] end.
  induction l as [|y l IH]; intros before; simpl; [by rewrite app_nil_r|].
  destruct (l ++ [x]) eqn:E; [by destruct l|]. rewrite IH. by rewrite <- app_assoc.
Qed.

Lemma self_inverse_computes (I : caches -> Prop) `{!InvertedOk I} (c : filter) :
  computes I (self_inverse c) (Ok (bool_decide (inverse c = Ok c))).
Proof.
  eapply computes_bind_ok; [by apply invertible_computes|].
  destruct (inverse c) as [g|e|] eqn:E; simpl; try apply computes_ret.
  eapply computes_bind_ok; [rewrite <- E; by apply invert_filter_computes|].
  replace (bool_decide (Ok g = Ok c)) with (bool_decide (g = c)) by
    (apply bool_decide_ext; naive_solver).
  apply computes_ret.
Qed.

Lemma common_post_computes (I : caches -> Prop) `{!InvertedOk I} (filters : list filter) :
  computes I (common_post filters) (Ok (common_post_of filters)).
Proof.
  unfold common_post, common_post_of.
  destruct (common_post_loop filters None []) as [[[c|] rest]|]; try apply computes_ret.
  eapply computes_bind_ok; [by apply self_inverse_computes|].
  case_bool_decide; [apply computes_ret|]. destruct c; apply computes_ret.
Qed.

(** What the loops of [common_pre], [common_post] and [group] find. *)
Lemma common_pre_loop_spec l c rest c' rest' :
  common_pre_loop l c rest = Some (c', rest') ->
  exists rs, rest' = rest ++ rs /\ (c ≠ None -> c' = c) /\
    Forall2 (fun f r => exists x tl, c' = Some x /\ f = Op.Chain (x :: tl) /\
      r = match tl with [] => Op.Nop | _ => Op.Chain tl end) l rs.
Proof.
  revert c rest. induction l as [|f l IH]; intros c rest; simpl.
  { intros [= -> ->]. exists []. rewrite app_nil_r. by repeat split. }
  destruct f; try done. destruct filters as [|x tl]; [done|].
  destruct c as [c0|]; [case_decide as Hd; [subst c0|done]|]; intros (rs & -> & Hc & Hrs)%IH;
    (eexists (_ :: rs); split; [by rewrite <- app_assoc|]; split; [first [done|by intros _; apply Hc]|]);
    (constructor; [exists x, tl; by rewrite Hc|done]).
Qed.

Lemma common_post_loop_spec l c rest c' rest' :
  common_post_loop l c rest = Some (c', rest') ->
  exists rs, rest' = rest ++ rs /\ (c ≠ None -> c' = c) /\
    Forall2 (fun f r => exists x, c' = Some x /\ last_chain f Op.Nop = (r, x)) l rs.
Proof.
  revert c rest. induction l as [|f l IH]; intros c rest; simpl.
  { intros [= -> ->]. exists []. rewrite app_nil_r. by repeat split. }
  destruct (last_chain f Op.Nop) as [a b] eqn:E. case_decide as Hd; [|done].
  intros (rs & -> & Hc & Hrs)%IH. exists (a :: rs). rewrite <- app_assoc. split; [done|].
  destruct c as [c0|]; simplify_eq/=; specialize (Hc ltac:(done)); subst c'; (split; [done|]);
    (constructor; [by exists b|done]).
Qed.

Lemma group_steps same l res : concat (foldl (group_step same) res l) = concat res ++ l.
Proof.
  revert res. induction l as [|f l IH]; intros res; simpl; [by rewrite app_nil_r|]. rewrite IH.
  assert (concat (group_step same res f) = concat res ++ [f]) as ->; [|by rewrite <- app_assoc].
  unfold group_step. destruct (last res) as [g|] eqn:E.
  - apply last_Some in E as [res' ->]. destruct g as [|g gs]; [by rewrite !concat_app; simpl; rewrite app_nil_r|].
    destruct (same f g).
    + rewrite removelast_app by done. simpl. rewrite app_nil_r, !concat_app. simpl. by rewrite !app_nil_r, <- app_assoc.
    + rewrite (concat_app _ [[f]]). done.
  - rewrite concat_app. done.
Qed.

Lemma concat_group l : concat (group l) = l.
Proof. unfold group. case_decide; apply group_steps. Qed.
