(* ===== verification/Simplify.v ===== *)
(** Simplification of filters (josh-filter/src/opt/simplify.rs): flattening of
    nested chains and compositions, and joining of adjacent prefixes and
    subdirectories, repeated until nothing changes. *)

From S2P Require Import Prelude Path Ops OptState.

(** The loops that splice nested compositions and nested chains. *)
Definition unnest_compose (filters : list filter) : list filter :=
  flat_map (fun f => match to_op f with Op.Compose v => v | _ => [f] end) filters.

Definition unnest_chain (filters : list filter) : list filter :=
  flat_map (fun f => match to_op f with Op.Chain nested => nested | _ => [f] end) filters.

(** The loop that combines adjacent [Prefix] and [Subdir] operations. *)
Fixpoint combine_adjacent (l : list filter) : list filter :=
  match l with
  | [] => []
  | f :: l' =>
      match l' with
      | [] => [f]
      | g :: l'' =>
          match to_op f, to_op g with
          | Op.Prefix x, Op.Prefix y => to_filter (Op.Prefix (join y x)) :: combine_adjacent l''
          | Op.Subdir x, Op.Subdir y => to_filter (Op.Subdir (join x y)) :: combine_adjacent l''
          | _, _ => f :: combine_adjacent l'
          end
      end
  end.

(** A chain of one element is that element. *)
Definition chain_of (l : list filter) : filter :=
  match l with
  | [f] => to_filter (to_op f)
  | _ => to_filter (Op.Chain l)
  end.

(** [simplify], with its memo table and a recursion budget. *)
Fixpoint simplify (n : nat) (f : filter) : opt filter :=
  match n with
  | 0 => lift OutOfFuel
  | S n =>
      cached ← gets (fun c => table_get (SIMPLIFIED c) f);
      match cached with
      | Some g => mret g
      | None =>
          result ←
            match to_op f with
            | Op.Compose filters =>
                out ← mapM (simplify n) (unnest_compose filters);
                mret (to_filter (Op.Compose out))
            | Op.Chain filters =>
                simplified ← mapM (simplify n) (unnest_chain filters);
                mret (chain_of (combine_adjacent simplified))
            | Op.Subtract a b =>
                a ← simplify n a; b ← simplify n b;
                mret (to_filter (Op.Subtract a b))
            | Op.Exclude b => b ← simplify n b; mret (to_filter (Op.Exclude b))
            | Op.Select b => b ← simplify n b; mret (to_filter (Op.Select b))
            | Op.Pin b => b ← simplify n b; mret (to_filter (Op.Pin b))
            | Op.Starlark p sub => sub ← simplify n sub; mret (to_filter (Op.Starlark p sub))
            | Op.TreeId p sub => sub ← simplify n sub; mret (to_filter (Op.TreeId p sub))
            | o => mret (to_filter o)
            end;
          r ← if decide (result = f) then mret result else simplify n result;
          modify (insert_SIMPLIFIED f r) ≫= fun _ => mret r
      end
  end.

(** * The function [simplify] computes *)

(** One pass, with [rec] for the sub-filters. *)
Definition simplify_node (rec : filter -> filter) (f : filter) : filter :=
  match f with
  | Op.Compose filters => Op.Compose (rec <$> unnest_compose filters)
  | Op.Chain filters => chain_of (combine_adjacent (rec <$> unnest_chain filters))
  | Op.Subtract a b => Op.Subtract (rec a) (rec b)
  | Op.Exclude b => Op.Exclude (rec b)
  | Op.Select b => Op.Select (rec b)
  | Op.Pin b => Op.Pin (rec b)
  | Op.Starlark p sub => Op.Starlark p (rec sub)
  | Op.TreeId p sub => Op.TreeId p (rec sub)
  | o => o
  end.

Fixpoint simplified_within (n : nat) (f : filter) : filter :=
  match n with
  | 0 => f
  | S n =>
      let result := simplify_node (simplified_within n) f in
      if decide (result = f) then result else simplified_within n result
  end.

Definition simplified (f : filter) : filter := simplified_within (size f) f.

(** Filters no rule of [simplify] applies to. *)
Definition no_compose (f : filter) : bool :=
  match f with Op.Compose _ => false | _ => true end.
Definition no_chain (f : filter) : bool :=
  match f with Op.Chain _ => false | _ => true end.

Definition joinable (f g : filter) : bool :=
  match f, g with
  | Op.Prefix _, Op.Prefix _ | Op.Subdir _, Op.Subdir _ => true
  | _, _ => false
  end.

Fixpoint no_joinable (l : list filter) : bool :=
  match l with
  | f :: (g :: _) as l' => negb (joinable f g) && no_joinable l'
  | _ => true
  end.

Fixpoint simple (f : filter) : bool :=
  match f with
  | Op.Compose l => forallb no_compose l && forallb simple l
  | Op.Chain l =>
      forallb no_chain l && no_joinable l && negb (length l =? 1) && forallb simple l
  | Op.Subtract a b => simple a && simple b
  | Op.Exclude b | Op.Select b | Op.Pin b | Op.Starlark _ b | Op.TreeId _ b => simple b
  | _ => true
  end.

(** * Termination: every pass that changes a filter makes it smaller *)

Definition shrinks (f g : filter) : Prop := size g <= size f /\ (size g = size f -> g = f).

Abbreviation sizes l := (sum_list_with size l).

Definition shrinks_list (l l' : list filter) : Prop :=
  sizes l' <= sizes l /\ (sizes l' = sizes l -> l' = l).

Lemma shrinks_list_trans l1 l2 l3 :
  shrinks_list l1 l2 -> shrinks_list l2 l3 -> shrinks_list l1 l3.
Proof.
  intros [H1 E1] [H2 E2]. split; [lia|]. intros E.
  rewrite E2 by lia. apply E1. lia.
Qed.

Lemma shrinks_list_map (rec : filter -> filter) (l : list filter) :
  (forall f, f ∈ l -> shrinks f (rec f)) -> shrinks_list l (rec <$> l).
Proof.
  induction l as [|f l IH]; intros H; [done|]. rewrite fmap_cons.
  destruct (H f) as [H1 E1]; [left|].
  destruct IH as [H2 E2]; [intros g Hg; apply H; by right|].
  split; simpl; [lia|]. intros E. rewrite E1, E2 by lia. done.
Qed.

Lemma sizes_app (l1 l2 : list filter) : sizes (l1 ++ l2) = sizes l1 + sizes l2.
Proof. apply sum_list_with_app. Qed.

Lemma shrinks_list_cons (f : filter) (l l' : list filter) (m : list filter) :
  (sizes m < size f \/ m = [f]) -> shrinks_list l l' -> shrinks_list (f :: l) (m ++ l').
Proof.
  intros Hm [H E]. unfold shrinks_list. rewrite sizes_app. simpl.
  destruct Hm as [Hm| ->]; simpl; (split; [lia|]); intros E'; [lia|].
  rewrite E by lia. done.
Qed.

Lemma unnest_compose_shrinks (l : list filter) : shrinks_list l (unnest_compose l).
Proof.
  induction l as [|f l IH]; [done|]. simpl. apply shrinks_list_cons; [|done].
  destruct f; simpl; try (by right). left. lia.
Qed.

Lemma unnest_chain_shrinks (l : list filter) : shrinks_list l (unnest_chain l).
Proof.
  induction l as [|f l IH]; [done|]. simpl. apply shrinks_list_cons; [|done].
  destruct f; simpl; try (by right). left. lia.
Qed.

(** The cases of the combining loop. *)
Lemma combine_adjacent_cons (f g : filter) (l : list filter) :
  (joinable f g = true /\ exists h,
     combine_adjacent (f :: g :: l) = h :: combine_adjacent l /\
     size h = 1 /\ size f = 1 /\ size g = 1) \/
  (joinable f g = false /\ combine_adjacent (f :: g :: l) = f :: combine_adjacent (g :: l)).
Proof.
  destruct (joinable f g) eqn:E; [left|right].
  - split; [done|]. destruct f; try discriminate E; destruct g; try discriminate E;
      eexists; split_and!; reflexivity.
  - split; [done|]. destruct f; try reflexivity; destruct g; try reflexivity;
      discriminate E.
Qed.

Lemma combine_adjacent_shrinks (l : list filter) : shrinks_list l (combine_adjacent l).
Proof.
  induction l as [l IH] using (induction_ltof1 _ length). unfold ltof in IH.
  destruct l as [|f [|g l]]; [done|done|].
  destruct (combine_adjacent_cons f g l) as [(_ & h & -> & Hh & Hf & Hg)|[_ ->]].
  - destruct (IH l) as [H E]; [simpl; lia|]. split; simpl; lia.
  - apply (shrinks_list_cons f (g :: l) _ [f]); [by right|]. apply IH. simpl. lia.
Qed.

Lemma chain_of_shrinks (l l' : list filter) :
  shrinks_list l l' -> shrinks (Op.Chain l) (chain_of l').
Proof.
  intros [H E]. destruct l' as [|f [|g l']]; split; simpl in *; try lia;
    intros E'; by rewrite <- E by lia.
Qed.

(** The sub-filters a pass recurses into. *)
Definition pass_children (f : filter) : list filter :=
  match f with
  | Op.Compose l => unnest_compose l
  | Op.Chain l => unnest_chain l
  | Op.Subtract a b => [a; b]
  | Op.Exclude b | Op.Select b | Op.Pin b | Op.Starlark _ b | Op.TreeId _ b => [b]
  | _ => []
  end.

Lemma pass_children_size (f g : filter) : g ∈ pass_children f -> size g < size f.
Proof.
  intros H%sum_list_with_elem. pose proof (size_pos f).
  destruct f; simpl in *; try lia.
  - destruct (unnest_compose_shrinks filters). lia.
  - destruct (unnest_chain_shrinks filters). lia.
Qed.

Lemma simplify_node_shrinks (rec : filter -> filter) (f : filter) :
  (forall g, g ∈ pass_children f -> shrinks g (rec g)) -> shrinks f (simplify_node rec f).
Proof.
  intros H. apply shrinks_list_map in H. destruct f; simpl in *; try done.
  all: try (destruct H as [H E]; split; simpl in *; [lia|]; intros E'; f_equal;
    specialize (E ltac:(lia)); congruence).
  - destruct (shrinks_list_trans _ _ _ (unnest_compose_shrinks filters) H) as [H1 E1].
    split; simpl; [lia|]. intros E. by rewrite E1 by lia.
  - apply chain_of_shrinks. eapply shrinks_list_trans; [apply unnest_chain_shrinks|].
    eapply shrinks_list_trans; [exact H|]. apply combine_adjacent_shrinks.
Qed.

Lemma simplified_within_shrinks (n : nat) (f : filter) : shrinks f (simplified_within n f).
Proof.
  revert f. induction n as [|n IH]; intros f; simpl; [done|].
  destruct (simplify_node_shrinks (simplified_within n) f) as [H E]; [auto|].
  case_decide as Hd; [by rewrite Hd|].
  destruct (IH (simplify_node (simplified_within n) f)) as [H' E'].
  split; [lia|]. intros Hs. destruct Hd. apply E. lia.
Qed.

Lemma simplify_node_ext (rec rec' : filter -> filter) (f : filter) :
  (forall g, g ∈ pass_children f -> rec g = rec' g) ->
  simplify_node rec f = simplify_node rec' f.
Proof.
  intros H.
  assert (rec <$> pass_children f = rec' <$> pass_children f) as E.
  { apply list_fmap_ext. intros i x Hx. apply H. by eapply list_elem_of_lookup_2. }
  destruct f; simpl in *; try done; try (f_equal; congruence).
Qed.

(** A budget of the size of the filter is enough: a larger one computes the
    same. *)
Lemma simplified_within_enough (n m : nat) (f : filter) :
  size f <= n -> size f <= m -> simplified_within n f = simplified_within m f.
Proof.
  revert m f. induction n as [|n IH]; intros m f Hn Hm; pose proof (size_pos f); [lia|].
  destruct m as [|m]; [lia|]. simpl.
  rewrite (simplify_node_ext (simplified_within n) (simplified_within m)).
  2: { intros g Hg%pass_children_size. apply IH; lia. }
  case_decide as Hd; [done|].
  destruct (simplify_node_shrinks (simplified_within m) f) as [Hs E].
  { intros g _. apply simplified_within_shrinks. }
  assert (size (simplify_node (simplified_within m) f) ≠ size f) by (intros ?; auto).
  apply IH; lia.
Qed.

(** The equation of [simplified]. *)
Lemma simplified_eq (f : filter) :
  simplified f =
    if decide (simplify_node simplified f = f) then f
    else simplified (simplify_node simplified f).
Proof.
  unfold simplified at 1. destruct (size f) as [|n] eqn:En; [pose proof (size_pos f); lia|].
  simpl. rewrite (simplify_node_ext (simplified_within n) simplified).
  2: { intros g Hg%pass_children_size. apply simplified_within_enough; [lia|done]. }
  case_decide as Hd; [done|].
  destruct (simplify_node_shrinks simplified f) as [Hs E].
  { intros g _. apply simplified_within_shrinks. }
  assert (size (simplify_node simplified f) ≠ size f) by (intros ?; auto).
  apply simplified_within_enough; [lia|done].
Qed.

Lemma simplified_shrinks (f : filter) : shrinks f (simplified f).
Proof. apply simplified_within_shrinks. Qed.

Lemma simplify_node_smaller (f : filter) :
  simplify_node simplified f ≠ f -> size (simplify_node simplified f) < size f.
Proof.
  intros Hd. destruct (simplify_node_shrinks simplified f) as [Hs E].
  { intros g _. apply simplified_shrinks. }
  assert (size (simplify_node simplified f) ≠ size f) by (intros ?; auto). lia.
Qed.

(** The result is a fixed point of the pass. *)
Lemma simplified_fixed (f : filter) : simplify_node simplified (simplified f) = simplified f.
Proof.
  induction f as [f IH] using (induction_ltof1 _ size). unfold ltof in IH.
  rewrite (simplified_eq f). case_decide as Hd; [done|].
  by apply IH, simplify_node_smaller.
Qed.

Lemma simplified_idemp (f : filter) : simplified (simplified f) = simplified f.
Proof. rewrite (simplified_eq (simplified f)). by rewrite decide_True by apply simplified_fixed. Qed.

(** * The result has no rule left to apply *)

Lemma unnest_compose_same (l : list filter) :
  sizes (unnest_compose l) = sizes l -> forallb no_compose l = true.
Proof.
  induction l as [|f l IH]; [done|]. simpl. rewrite sizes_app.
  pose proof (proj1 (unnest_compose_shrinks l)) as H. intros E.
  destruct f; simpl in *; try (apply IH; lia). lia.
Qed.

Lemma unnest_chain_same (l : list filter) :
  sizes (unnest_chain l) = sizes l -> forallb no_chain l = true.
Proof.
  induction l as [|f l IH]; [done|]. simpl. rewrite sizes_app.
  pose proof (proj1 (unnest_chain_shrinks l)) as H. intros E.
  destruct f; simpl in *; try (apply IH; lia). lia.
Qed.

Lemma combine_adjacent_same (l : list filter) :
  sizes (combine_adjacent l) = sizes l -> no_joinable l = true.
Proof.
  induction l as [|f l IH]; [done|]. destruct l as [|g l]; [done|].
  destruct (combine_adjacent_cons f g l) as [(_ & h & -> & Hh & Hf & Hg)|[Hj ->]].
  - intros E. pose proof (proj1 (combine_adjacent_shrinks l)). simpl in E. lia.
  - intros E. simpl. rewrite Hj. simpl. apply IH.
    change (size f + sizes (combine_adjacent (g :: l)) = size f + sizes (g :: l)) in E. lia.
Qed.

Lemma chain_of_length (l l' : list filter) :
  chain_of l' = Op.Chain l -> sizes l' <= sizes l -> l' = l /\ length l ≠ 1.
Proof.
  destruct l' as [|f [|g l']]; simpl; intros E H.
  - injection E as <-. done.
  - rewrite E in H. simpl in H. lia.
  - injection E as <-. done.
Qed.

Lemma fixed_list (l : list filter) : simplified <$> l = l -> Forall (fun f => simplified f = f) l.
Proof. induction l as [|f l IH]; intros E; constructor; simplify_eq/=; [done|auto]. Qed.

Lemma fixed_simple (f : filter) : simplify_node simplified f = f -> simple f = true.
Proof.
  induction f as [f IH] using (induction_ltof1 _ size). unfold ltof in IH.
  assert (forall g, size g < size f -> simplified g = g -> simple g = true) as H1.
  { intros g Hs Hg. apply IH; [done|]. rewrite <- Hg at 1 2. apply simplified_fixed. }
  assert (forall l, sizes l < size f -> simplified <$> l = l -> forallb simple l = true) as Hl.
  { intros l Hs Hf%fixed_list. apply forallb_forall. intros g Hg%list_elem_of_In.
    rewrite Forall_forall in Hf. apply H1; [|by apply Hf].
    apply sum_list_with_elem in Hg. lia. }
  intros E. destruct f; simpl in *; try done.
  all: try (injection E as E; apply H1; [lia|done]).
  - injection E as E. pose proof (unnest_compose_shrinks filters) as [Hs E1].
    pose proof (shrinks_list_map simplified (unnest_compose filters)) as [H2 E2];
      [intros; apply simplified_shrinks|].
    rewrite E in H2, E2. rewrite unnest_compose_same by lia. simpl.
    apply Hl; [lia|]. rewrite E1 in E by lia. done.
  - pose proof (unnest_chain_shrinks filters) as [Hs E1].
    pose proof (shrinks_list_map simplified (unnest_chain filters)) as [H2 E2];
      [intros; apply simplified_shrinks|].
    pose proof (combine_adjacent_shrinks (simplified <$> unnest_chain filters)) as [H3 E3].
    apply chain_of_length in E as [E Hn]; [|lia]. rewrite E in H3, E3.
    assert (simplified <$> unnest_chain filters = filters) as Em by (symmetry; apply E3; lia).
    assert (unnest_chain filters = filters) as Eu by (apply E1; rewrite <- Em at 2; lia).
    rewrite Em in E. rewrite Eu in Em.
    rewrite unnest_chain_same, combine_adjacent_same by (by rewrite ?Eu, ?E).
    apply Nat.eqb_neq in Hn. rewrite Hn. simpl. apply Hl; [lia|done].
  - injection E as Ea Eb. by rewrite !H1 by (lia || done).
Qed.

(** The other way round, such a filter is left as it is. *)
Lemma unnest_compose_none l : forallb no_compose l = true -> unnest_compose l = l.
Proof.
  induction l as [|f l IH]; [done|]. simpl. intros [Hf Hl]%andb_true_iff. rewrite IH by done. by destruct f.
Qed.

Lemma unnest_chain_none l : forallb no_chain l = true -> unnest_chain l = l.
Proof.
  induction l as [|f l IH]; [done|]. simpl. intros [Hf Hl]%andb_true_iff. rewrite IH by done. by destruct f.
Qed.

Lemma combine_adjacent_none l : no_joinable l = true -> combine_adjacent l = l.
Proof.
  induction l as [|f l IH]; [done|]. destruct l as [|g l]; [done|]. intros Hl.
  assert (joinable f g = false /\ no_joinable (g :: l) = true) as [Hj Hn].
  { simpl in Hl. apply andb_true_iff in Hl as [?%negb_true_iff ?]. done. }
  destruct (combine_adjacent_cons f g l) as [(Hj' & _)|[_ ->]]; [congruence|]. by rewrite IH.
Qed.

Lemma simple_fixed (f : filter) : simple f = true -> simplified f = f.
Proof.
  induction f as [f IH] using filter_ind. intros Hf. rewrite simplified_eq, decide_True; [done|].
  assert (forall l, Forall (fun f => simple f = true -> simplified f = f) l -> forallb simple l = true ->
    simplified <$> l = l) as Hlist.
  { intros l Hl Hs. rewrite Forall_forallb in Hs. rewrite <- (list_fmap_id l) at 2. apply list_fmap_ext.
    intros i g Hg%list_elem_of_lookup_2. rewrite Forall_forall in Hl, Hs. by apply Hl, Hs. }
  destruct f; cbn [simple children simplify_node] in *; try done;
    try (apply Forall_cons in IH as [IH _]; by rewrite IH).
  - apply andb_true_iff in Hf as [Hn Hs]. rewrite unnest_compose_none by done. by rewrite Hlist.
  - apply andb_true_iff in Hf as [[[Hn Hj]%andb_true_iff Hl]%andb_true_iff Hs].
    rewrite unnest_chain_none by done. rewrite Hlist, combine_adjacent_none by done.
    destruct filters as [|x [|y l]]; done.
  - apply andb_true_iff in Hf as [Ha Hb]. apply Forall_cons in IH as [IHa IH]. apply Forall_cons in IH as [IHb _].
    by rewrite IHa, IHb.
Qed.

Lemma simplified_simple (f : filter) : simple (simplified f) = true.
Proof. apply fixed_simple, simplified_fixed. Qed.

(** * The memo table does not change the result *)

Class SimplifiedOk (I : caches -> Prop) := {
  simplified_sound c : I c -> table_holds (fun f g => g = simplified f) (SIMPLIFIED c);
  simplified_insert c f : I c -> I (insert_SIMPLIFIED f (simplified f) c);
}.

Lemma simplify_computes (I : caches -> Prop) `{!SimplifiedOk I} (n : nat) (f : filter) :
  size f <= n -> computes I (simplify n f) (Ok (simplified f)).
Proof.
  revert f. induction n as [|n IH]; intros f Hn.
  { pose proof (size_pos f). lia. }
  cbn [simplify]. apply computes_gets. intros c Hc.
  destruct (table_get (SIMPLIFIED c) f) as [g|] eqn:E.
  { eapply table_holds_get in E; [|by apply simplified_sound]. simpl in E. subst g.
    apply computes_ret. }
  assert (forall g, g ∈ pass_children f -> computes I (simplify n g) (Ok (simplified g))) as Hch.
  { intros g Hg%pass_children_size. apply IH. lia. }
  eapply (computes_bind_ok _ _ _ (simplify_node simplified f)).
  { destruct f; simpl in *; try apply computes_ret.
    all: try (eapply computes_bind_ok; [apply Hch; by left|]; apply computes_ret).
    all: try (eapply computes_bind_ok; [by apply computes_mapM_ok|]; apply computes_ret).
    eapply computes_bind_ok; [apply Hch; by left|].
    eapply computes_bind_ok; [apply Hch; right; by left|]. apply computes_ret. }
  eapply (computes_bind_ok _ _ _ (simplified f)).
  - rewrite (simplified_eq f). case_decide as Hd; [rewrite Hd; apply computes_ret|].
    apply IH. apply simplify_node_smaller in Hd. lia.
  - apply computes_modify; [intros s; apply simplified_insert|]. apply computes_ret.
Qed.

(** The tables of a process that has only recorded results of [simplify]. *)
Definition simplified_ok (c : caches) : Prop :=
  table_holds (fun f g => g = simplified f) (SIMPLIFIED c).

#[export] Instance simplified_ok_SimplifiedOk : SimplifiedOk simplified_ok.
Proof. split; [done|]. intros c f H. by apply table_holds_insert. Qed.

(** C32: [simplify] terminates within a budget of the number of nodes of the
    filter, whatever earlier calls left in its memo table; the result depends on
    the filter only, has at most as many nodes, contains no nested chain or
    composition, no singleton chain and no two adjacent prefixes or
    subdirectories, and is left unchanged by a further call. *)
Theorem simplify_correct (c : caches) (n m : nat) (f : filter) :
  simplified_ok c -> size f <= n -> size f <= m ->
  exists g c',
    simplify n f c = (Ok g, c') /\ g = simplified f /\
    size g <= size f /\ simple g = true /\
    (simplify m g c').1 = Ok g.
Proof.
  intros Hc Hn Hm. destruct (simplify_computes simplified_ok n f Hn c Hc) as [E Hc'].
  destruct (simplify n f c) as [r c'] eqn:Er. simpl in *. subst r.
  exists (simplified f), c'. split; [done|]. split; [done|].
  pose proof (simplified_shrinks f) as [Hs _]. split; [done|].
  split; [apply fixed_simple, simplified_fixed|].
  rewrite <- (simplified_idemp f) at 2. apply (simplify_computes simplified_ok); [lia|done].
Qed.

Lemma simplify_correct_witness :
  let f := Op.Chain [Op.Chain [Op.Prefix [Normal "a"]]; Op.Prefix [Normal "b"]] in
  exists g c', simplify 10 f no_caches = (Ok g, c') /\ g = simplified f /\
    size g <= size f /\ simple g = true /\ (simplify 10 g c').1 = Ok g.
Proof.
  apply (simplify_correct no_caches 10 10); [constructor|vm_compute; lia|vm_compute; lia].
Defined.
