(* ===== verification/Flatten.v ===== *)
(** Removing nesting from filters (josh-filter/src/opt/flatten.rs): chains that
    contain a composition are distributed over its branches where that is
    valid. *)

From S2P Require Import Prelude Path Ops OptState Invert Structure Simplify.

(** [cache] of [flatten_impl]. *)
Definition flat_table (full : bool) (c : caches) : table filter :=
  if full then FLATTENED_FULL c else FLATTENED c.
Definition insert_flat (full : bool) (f g : filter) : caches -> caches :=
  if full then insert_FLATTENED_FULL f g else insert_FLATTENED f g.

(** [others_invertible]: every element of the chain but the one at [i]. *)
Fixpoint others_invertible (l : list filter) (j i : nat) : opt bool :=
  match l with
  | [] => mret true
  | f :: l =>
      ok ← if decide (j = i) then mret true else invertible f;
      if (ok : bool) then others_invertible l (S j) i else mret false
  end.

(** The loop that looks for a composition to distribute: [Some] of the
    distributed composition, or [None] when the chain stays. *)
Fixpoint distribute (full : bool) (flattened : list filter) (l : list filter) (i : nat) :
    opt (option filter) :=
  match l with
  | [] => mret None
  | f :: l =>
      match to_op f with
      | Op.Compose compose_filters =>
          others ← others_invertible flattened 0 i;
          let suffix_distributes := forallb distributes_over_compose (drop (S i) flattened) in
          if negb others || negb suffix_distributes then mret None
          else if negb full && (1 <? length flattened) && (i =? length flattened - 1)
          then distribute full flattened l (S i)
          else mret (Some (to_filter (Op.Compose
                 ((fun cf => to_filter (Op.Chain (<[i := cf]> flattened))) <$> compose_filters))))
      | _ => distribute full flattened l (S i)
      end
  end.

(** [flatten_impl], with its memo tables and a recursion budget. *)
Fixpoint flatten_impl (full : bool) (n : nat) (f : filter) : opt filter :=
  match n with
  | 0 => lift OutOfFuel
  | S n =>
      cached ← gets (fun c => table_get (flat_table full c) f);
      match cached with
      | Some g => mret g
      | None =>
          let finish result :=
            r ← if decide (result = f) then mret result else flatten_impl full n result;
            modify (insert_flat full f r) ≫= fun _ => mret r in
          match to_op f with
          | Op.Compose filters =>
              out ← mapM (flatten_impl full n) (unnest_compose filters);
              finish (to_filter (Op.Compose out))
          | Op.Chain filters =>
              let flattened := unnest_chain filters in
              d ← distribute full flattened flattened 0;
              match d with
              | Some distributed =>
                  modify (insert_flat full f distributed) ≫= fun _ => mret distributed
              | None =>
                  l ← mapM (flatten_impl full n) flattened;
                  finish (to_filter (Op.Chain l))
              end
          | Op.Subtract a b =>
              a ← flatten_impl full n a; b ← flatten_impl full n b;
              finish (to_filter (Op.Subtract a b))
          | Op.Exclude b => b ← flatten_impl full n b; finish (to_filter (Op.Exclude b))
          | Op.Select b => b ← flatten_impl full n b; finish (to_filter (Op.Select b))
          | Op.Pin b => b ← flatten_impl full n b; finish (to_filter (Op.Pin b))
          | Op.Starlark p sub =>
              sub ← flatten_impl full n sub; finish (to_filter (Op.Starlark p sub))
          | Op.TreeId p sub =>
              sub ← flatten_impl full n sub; finish (to_filter (Op.TreeId p sub))
          | o => finish (to_filter o)
          end
      end
  end.

Definition flatten (n : nat) (f : filter) : opt filter := flatten_impl false n f.
Definition flatten_full (n : nat) (f : filter) : opt filter := flatten_impl true n f.

(** * The function [flatten_impl] computes *)

Fixpoint all_but_invertible (l : list filter) (j i : nat) : bool :=
  match l with
  | [] => true
  | f :: l => ((j =? i) || is_ok (inverse f)) && all_but_invertible l (S j) i
  end.

Fixpoint distributed (full : bool) (flattened : list filter) (l : list filter) (i : nat) :
    option filter :=
  match l with
  | [] => None
  | f :: l =>
      match f with
      | Op.Compose compose_filters =>
          if negb (all_but_invertible flattened 0 i)
             || negb (forallb distributes_over_compose (drop (S i) flattened))
          then None
          else if negb full && (1 <? length flattened) && (i =? length flattened - 1)
          then distributed full flattened l (S i)
          else Some (Op.Compose ((fun cf => Op.Chain (<[i := cf]> flattened)) <$> compose_filters))
      | _ => distributed full flattened l (S i)
      end
  end.

(** One pass: [inl] when a distributed composition is returned as it is. *)
Definition flat_node (full : bool) (rec : filter -> filter) (f : filter) : filter + filter :=
  match f with
  | Op.Compose filters => inr (Op.Compose (rec <$> unnest_compose filters))
  | Op.Chain filters =>
      match distributed full (unnest_chain filters) (unnest_chain filters) 0 with
      | Some d => inl d
      | None => inr (Op.Chain (rec <$> unnest_chain filters))
      end
  | Op.Subtract a b => inr (Op.Subtract (rec a) (rec b))
  | Op.Exclude b => inr (Op.Exclude (rec b))
  | Op.Select b => inr (Op.Select (rec b))
  | Op.Pin b => inr (Op.Pin (rec b))
  | Op.Starlark p sub => inr (Op.Starlark p (rec sub))
  | Op.TreeId p sub => inr (Op.TreeId p (rec sub))
  | o => inr o
  end.

Fixpoint flattened_within (full : bool) (n : nat) (f : filter) : filter :=
  match n with
  | 0 => f
  | S n =>
      match flat_node full (flattened_within full n) f with
      | inl d => d
      | inr result => if decide (result = f) then result else flattened_within full n result
      end
  end.

(** * Termination *)

(** Distribution duplicates the other elements of a chain in every branch, so
    the number of nodes may grow; the number of branches counted with their
    multiplicity does not. *)
Definition product (w : filter -> nat) (l : list filter) : nat :=
  foldr (fun f acc => w f * acc) 1 l.

Fixpoint weight (f : filter) : nat :=
  match f with
  | Op.Compose l => 1 + sum_list_with weight l
  | Op.Chain l => 2 * foldr (fun f acc => weight f * acc) 1 l
  | Op.Subtract a b => 1 + weight a + weight b
  | Op.Exclude b | Op.Select b | Op.Pin b | Op.Starlark _ b | Op.TreeId _ b => 1 + weight b
  | _ => 1
  end.

Abbreviation weights l := (sum_list_with weight l).

Definition flattened (full : bool) (f : filter) : filter := flattened_within full (weight f) f.

Lemma product_pos (l : list filter) : Forall (fun f => 0 < weight f) l -> 0 < product weight l.
Proof. induction 1; simpl; [lia|nia]. Qed.

Lemma weight_pos (f : filter) : 0 < weight f.
Proof.
  induction f as [f IH] using filter_ind. destruct f; simpl in *; try lia.
  apply product_pos in IH. unfold product in IH. lia.
Qed.

Lemma product_weight_pos (l : list filter) : 0 < product weight l.
Proof. apply product_pos, Forall_forall. intros f _. apply weight_pos. Qed.

Lemma product_app (l1 l2 : list filter) :
  product weight (l1 ++ l2) = product weight l1 * product weight l2.
Proof. unfold product. induction l1 as [|f l1 IH]; simpl; [lia|]. rewrite IH. lia. Qed.

Lemma product_insert (l : list filter) (i : nat) (f g : filter) :
  l !! i = Some f ->
  product weight (<[i := g]> l) * weight f = product weight l * weight g.
Proof.
  unfold product. revert i. induction l as [|x l IH]; intros [|i]; simpl; try done.
  - intros [= ->]. lia.
  - intros H. specialize (IH i H). nia.
Qed.

Definition lighter (f g : filter) : Prop :=
  weight g <= weight f /\ (weight g = weight f -> g = f).

Definition lighter_by (w : list filter -> nat) (l l' : list filter) : Prop :=
  w l' <= w l /\ (w l' = w l -> l' = l).

Lemma lighter_by_trans w l1 l2 l3 :
  lighter_by w l1 l2 -> lighter_by w l2 l3 -> lighter_by w l1 l3.
Proof.
  intros [H1 E1] [H2 E2]. split; [lia|]. intros E. rewrite E2 by lia. apply E1. lia.
Qed.

Lemma lighter_sum_map (rec : filter -> filter) (l : list filter) :
  (forall f, f ∈ l -> lighter f (rec f)) ->
  lighter_by (sum_list_with weight) l (rec <$> l).
Proof.
  induction l as [|f l IH]; intros H; [done|]. rewrite fmap_cons.
  destruct (H f) as [H1 E1]; [left|].
  destruct IH as [H2 E2]; [intros g Hg; apply H; by right|].
  split; simpl; [lia|]. intros E. rewrite E1, E2 by lia. done.
Qed.

Lemma lighter_product_map (rec : filter -> filter) (l : list filter) :
  (forall f, f ∈ l -> lighter f (rec f)) ->
  lighter_by (product weight) l (rec <$> l).
Proof.
  induction l as [|f l IH]; intros H; [done|]. rewrite fmap_cons.
  destruct (H f) as [H1 E1]; [left|].
  destruct IH as [H2 E2]; [intros g Hg; apply H; by right|].
  pose proof (weight_pos (rec f)). pose proof (product_weight_pos (rec <$> l)).
  split; simpl; fold (product weight) in *.
  - by apply Nat.mul_le_mono.
  - intros E. change (weight (rec f) * product weight (rec <$> l) =
      weight f * product weight l) in E.
    assert (weight (rec f) = weight f /\ product weight (rec <$> l) = product weight l)
      as [? ?] by nia.
    by rewrite E1, E2.
Qed.

Lemma unnest_compose_lighter (l : list filter) :
  lighter_by (sum_list_with weight) l (unnest_compose l).
Proof.
  induction l as [|f l [IH E]]; [done|]. unfold lighter_by. simpl.
  rewrite sum_list_with_app. destruct f; simpl; (split; [lia|]); intros H;
    try lia; f_equal; apply E; lia.
Qed.

Lemma product_cons (f : filter) (l : list filter) :
  product weight (f :: l) = weight f * product weight l.
Proof. done. Qed.

Lemma weight_chain (l : list filter) : weight (Op.Chain l) = 2 * product weight l.
Proof. done. Qed.

Lemma unnest_chain_cons (f : filter) (l : list filter) :
  (exists m, f = Op.Chain m /\ unnest_chain (f :: l) = m ++ unnest_chain l) \/
  unnest_chain (f :: l) = f :: unnest_chain l.
Proof. destruct f; try (right; reflexivity). left. eauto. Qed.

Lemma unnest_chain_lighter (l : list filter) :
  lighter_by (product weight) l (unnest_chain l).
Proof.
  induction l as [|f l [IH E]]; [done|]. pose proof (product_weight_pos (unnest_chain l)).
  unfold lighter_by. destruct (unnest_chain_cons f l) as [(m & -> & ->)| ->].
  - rewrite product_app, product_cons, weight_chain. pose proof (product_weight_pos m).
    split; [nia|]. intros H'. nia.
  - rewrite !product_cons. pose proof (weight_pos f). split; [nia|]. intros H'.
    rewrite E by nia. done.
Qed.

(** What a distribution is. *)
Lemma distributed_Some full l i d :
  distributed full l (drop i l) i = Some d ->
  exists j cs, l !! j = Some (Op.Compose cs) /\
    all_but_invertible l 0 j = true /\
    forallb distributes_over_compose (drop (S j) l) = true /\
    d = Op.Compose ((fun cf => Op.Chain (<[j := cf]> l)) <$> cs).
Proof.
  remember (drop i l) as l' eqn:E. revert i E.
  induction l' as [|f l' IH]; intros i E; simpl; [done|].
  assert (l !! i = Some f) as Hi.
  { rewrite <- (Nat.add_0_r i), <- lookup_drop, <- E. done. }
  assert (l' = drop (S i) l) as El.
  { replace (S i) with (i + 1) by lia. rewrite <- drop_drop, <- E. done. }
  destruct f; try (by apply IH).
  destruct (all_but_invertible l 0 i) eqn:Ha; [|done].
  destruct (forallb distributes_over_compose (drop (S i) l)) eqn:Hs; [|done]. simpl.
  destruct (negb full && _ && _); [by apply IH|]. intros [= <-]. by exists i, filters.
Qed.

Lemma weights_insert (l : list filter) j (cs : list filter) :
  j < length l ->
  weights ((fun cf => Op.Chain (<[j := cf]> l)) <$> cs) =
    2 * product weight (<[j := Op.Nop]> l) * weights cs.
Proof.
  intros Hj.
  assert (forall c, product weight (<[j := c]> l) = product weight (<[j := Op.Nop]> l) * weight c)
    as Hp.
  { intros x. pose proof (product_insert (<[j := Op.Nop]> l) j Op.Nop x) as H.
    rewrite list_insert_insert_eq, list_lookup_insert_eq in H by done. simpl in H.
    specialize (H eq_refl). lia. }
  induction cs as [|c cs IH]; [simpl; lia|]. rewrite fmap_cons.
  cbn [sum_list_with]. rewrite IH, weight_chain, Hp. lia.
Qed.

Lemma distributed_lighter full l d :
  distributed full l l 0 = Some d -> weight d < 2 * product weight l.
Proof.
  intros H. apply (distributed_Some full l 0) in H as (j & cs & Hj & _ & _ & ->).
  change (weight (Op.Compose ?x)) with (1 + weights x). cbn [weight].
  rewrite weights_insert by (by eapply lookup_lt_Some).
  pose proof (product_insert l j _ Op.Nop Hj) as H. cbn [weight] in H.
  pose proof (product_weight_pos (<[j := Op.Nop]> l)). nia.
Qed.

(** The sub-filters a pass recurses into are lighter than the filter. *)
Lemma elem_product_le (f : filter) (l : list filter) :
  f ∈ l -> weight f <= product weight l.
Proof.
  induction 1 as [f l|f g l _ IH]; rewrite product_cons.
  - pose proof (product_weight_pos l). nia.
  - pose proof (weight_pos g). nia.
Qed.

Lemma elem_weights_le (f : filter) (l : list filter) : f ∈ l -> weight f <= weights l.
Proof. induction 1; simpl; lia. Qed.

Lemma pass_children_weight (f g : filter) : g ∈ pass_children f -> weight g < weight f.
Proof.
  destruct f; cbn [pass_children]; try (by intros ?%not_elem_of_nil);
    try (intros ->%list_elem_of_singleton; simpl; lia).
  - intros H%elem_weights_le. destruct (unnest_compose_lighter filters). simpl. lia.
  - intros H%elem_product_le. destruct (unnest_chain_lighter filters).
    pose proof (product_weight_pos (unnest_chain filters)).
    rewrite weight_chain. lia.
  - intros H%elem_weights_le. simpl in *. lia.
Qed.

Lemma flat_node_lighter full (rec : filter -> filter) (f : filter) :
  (forall g, g ∈ pass_children f -> lighter g (rec g)) ->
  match flat_node full rec f with
  | inl d => weight d < weight f
  | inr r => lighter f r
  end.
Proof.
  intros H. destruct f; cbn [pass_children] in H; simpl; try done.
  all: try (destruct (H f) as [Hw E]; [left|]; split; simpl; [lia|];
    intros E'; f_equal; apply E; lia).
  - apply lighter_sum_map in H.
    destruct (lighter_by_trans _ _ _ _ (unnest_compose_lighter filters) H) as [H1 E1].
    split; simpl; [lia|]. intros E. by rewrite E1 by lia.
  - pose proof (unnest_chain_lighter filters) as Hu.
    destruct (distributed full _ _ 0) as [d|] eqn:Ed.
    + apply distributed_lighter in Ed. destruct Hu as [Hu _].
      change (foldr _ 1 filters) with (product weight filters). lia.
    + apply lighter_product_map in H.
      destruct (lighter_by_trans _ _ _ _ Hu H) as [H1 E1].
      unfold lighter. rewrite !weight_chain. split; [lia|]. intros E. by rewrite E1 by lia.
  - destruct (H f1) as [Hw1 E1]; [left|]. destruct (H f2) as [Hw2 E2]; [right; left|].
    split; simpl; [lia|]. intros E. rewrite E1, E2 by lia. done.
Qed.

Lemma flattened_within_lighter full (n : nat) (f : filter) :
  lighter f (flattened_within full n f).
Proof.
  revert f. induction n as [|n IH]; intros f; simpl; [done|].
  pose proof (flat_node_lighter full (flattened_within full n) f ltac:(auto)) as H.
  destruct (flat_node full _ f) as [d|r]; [split; lia|].
  destruct H as [H E]. case_decide as Hd; [by rewrite Hd|].
  destruct (IH r) as [H' E']. split; [lia|]. intros Hs. destruct Hd. apply E. lia.
Qed.

Lemma flat_node_ext full (rec rec' : filter -> filter) (f : filter) :
  (forall g, g ∈ pass_children f -> rec g = rec' g) ->
  flat_node full rec f = flat_node full rec' f.
Proof.
  intros H.
  assert (rec <$> pass_children f = rec' <$> pass_children f) as E.
  { apply list_fmap_ext. intros i x Hx. apply H. by eapply list_elem_of_lookup_2. }
  destruct f; simpl in *; try done; try (do 2 f_equal; congruence).
  destruct (distributed full _ _ 0); [done|]. by rewrite E.
Qed.

Lemma flat_node_smaller full (rec : filter -> filter) (f r : filter) :
  (forall g, g ∈ pass_children f -> lighter g (rec g)) ->
  flat_node full rec f = inr r -> r ≠ f -> weight r < weight f.
Proof.
  intros H%(flat_node_lighter full) E Hr. rewrite E in H. destruct H as [H E'].
  assert (weight r ≠ weight f) by (intros ?; auto). lia.
Qed.

Lemma flattened_within_enough full (n m : nat) (f : filter) :
  weight f <= n -> weight f <= m -> flattened_within full n f = flattened_within full m f.
Proof.
  revert m f. induction n as [|n IH]; intros m f Hn Hm; pose proof (weight_pos f); [lia|].
  destruct m as [|m]; [lia|]. simpl.
  rewrite (flat_node_ext full (flattened_within full n) (flattened_within full m)).
  2: { intros g Hg%pass_children_weight. apply IH; lia. }
  destruct (flat_node full (flattened_within full m) f) as [d|r] eqn:Er; [done|].
  case_decide as Hd; [done|].
  apply flat_node_smaller in Er; [apply IH; lia| |done].
  intros g _. apply flattened_within_lighter.
Qed.

Lemma flattened_eq full (f : filter) :
  flattened full f =
    match flat_node full (flattened full) f with
    | inl d => d
    | inr r => if decide (r = f) then f else flattened full r
    end.
Proof.
  unfold flattened at 1. destruct (weight f) as [|n] eqn:En; [pose proof (weight_pos f); lia|].
  simpl. rewrite (flat_node_ext full (flattened_within full n) (flattened full)).
  2: { intros g Hg%pass_children_weight. apply flattened_within_enough; [lia|done]. }
  destruct (flat_node full (flattened full) f) as [d|r] eqn:Er; [done|].
  case_decide as Hd; [done|].
  apply flat_node_smaller in Er; [apply flattened_within_enough; [lia|done]| |done].
  intros g _. apply flattened_within_lighter.
Qed.

Lemma flattened_lighter full (f : filter) : lighter f (flattened full f).
Proof. apply flattened_within_lighter. Qed.

(** * The memo tables do not change the result *)

Class FlattenedOk (I : caches -> Prop) := {
  flattened_sound full c : I c ->
    table_holds (fun f g => g = flattened full f) (flat_table full c);
  flattened_insert full c f : I c -> I (insert_flat full f (flattened full f) c);
}.

Section Memo.
Context (I : caches -> Prop) `{!InvertedOk I} `{!FlattenedOk I}.

Lemma others_invertible_computes (l : list filter) (j i : nat) :
  computes I (others_invertible l j i) (Ok (all_but_invertible l j i)).
Proof.
  revert j. induction l as [|f l IH]; intros j; simpl; [apply computes_ret|].
  eapply (computes_bind_ok _ _ _ ((j =? i) || is_ok (inverse f))).
  - destruct (decide (j = i)) as [->|Hj].
    + rewrite Nat.eqb_refl. apply computes_ret.
    + rewrite (proj2 (Nat.eqb_neq j i) Hj). by apply invertible_computes.
  - destruct ((j =? i) || is_ok (inverse f)); [apply IH|apply computes_ret].
Qed.

Lemma distribute_computes full (fl l : list filter) (i : nat) :
  computes I (distribute full fl l i) (Ok (distributed full fl l i)).
Proof.
  revert i. induction l as [|f l IH]; intros i; simpl; [apply computes_ret|].
  destruct f; try apply IH.
  eapply computes_bind_ok; [apply others_invertible_computes|].
  destruct (negb _ || negb _); [apply computes_ret|].
  destruct (negb full && _ && _); [apply IH|apply computes_ret].
Qed.

Lemma flatten_impl_computes full (n : nat) (f : filter) :
  weight f <= n -> computes I (flatten_impl full n f) (Ok (flattened full f)).
Proof.
  revert f. induction n as [|n IH]; intros f Hn.
  { pose proof (weight_pos f). lia. }
  cbn [flatten_impl]. apply computes_gets. intros c Hc.
  destruct (table_get (flat_table full c) f) as [g|] eqn:E.
  { eapply table_holds_get in E; [|by apply flattened_sound]. simpl in E. subst g.
    apply computes_ret. }
  assert (forall g, g ∈ pass_children f ->
    computes I (flatten_impl full n g) (Ok (flattened full g))) as Hch.
  { intros g Hg%pass_children_weight. apply IH. lia. }
  assert (computes I (modify (insert_flat full f (flattened full f)) ≫= fun _ =>
    mret (flattened full f)) (Ok (flattened full f))) as Hins.
  { apply computes_modify; [intros s; apply flattened_insert|]. apply computes_ret. }
  assert (forall r, flat_node full (flattened full) f = inr r ->
    computes I (x ← (if decide (r = f) then mret r else flatten_impl full n r);
      modify (insert_flat full f x) ≫= fun _ => mret x) (Ok (flattened full f))) as Hfin.
  { intros r Hr. eapply (computes_bind_ok _ _ _ (flattened full f)); [|done].
    rewrite (flattened_eq full f), Hr. case_decide as Hd; [rewrite Hd; apply computes_ret|].
    apply IH. apply flat_node_smaller in Hr; [lia| |done].
    intros g _. apply flattened_lighter. }
  destruct f; cbn [to_op to_filter pass_children] in *; try (by apply Hfin).
  all: try (eapply computes_bind_ok; [by apply computes_mapM_ok|]; by apply Hfin).
  all: try (eapply computes_bind_ok; [apply Hch; by left|]; by apply Hfin).
  - eapply computes_bind_ok; [apply distribute_computes|].
    pose proof (flattened_eq full (Op.Chain filters)) as Eq.
    simpl in Hfin, Eq. destruct (distributed full _ _ 0) as [d|] eqn:Ed.
    + by rewrite <- Eq.
    + eapply computes_bind_ok; [by apply computes_mapM_ok|]. by apply Hfin.
  - eapply computes_bind_ok; [apply Hch; by left|].
    eapply computes_bind_ok; [apply Hch; right; by left|]. by apply Hfin.
Qed.

End Memo.

(** The tables of a process that has only recorded inverses and results of
    [flatten] and [flatten_full]. *)
Definition flattened_ok (c : caches) : Prop :=
  inverted_ok c /\
  table_holds (fun f g => g = flattened false f) (FLATTENED c) /\
  table_holds (fun f g => g = flattened true f) (FLATTENED_FULL c).

#[export] Instance flattened_ok_InvertedOk : InvertedOk flattened_ok.
Proof.
  split; [by intros c [? _]|]. intros c f (H1 & H2 & H3).
  split; [|done]. by apply (inverted_insert (I := inverted_ok)).
Qed.

#[export] Instance flattened_ok_FlattenedOk : FlattenedOk flattened_ok.
Proof.
  split.
  - intros [] c (H1 & H2 & H3); done.
  - intros [] c f (H1 & H2 & H3); repeat split; try done; by apply table_holds_insert.
Qed.

(** C34: [flatten] and [flatten_full] terminate, although distributing a chain
    over a composition copies the other elements of the chain into every branch:
    a budget of the number of branches counted with multiplicity is enough.  The
    result depends on the filter only, not on what earlier calls left in the memo
    tables, and never has more branches than the filter. *)
Theorem flatten_terminates (full : bool) (c : caches) (n : nat) (f : filter) :
  flattened_ok c -> weight f <= n ->
  exists c', flatten_impl full n f c = (Ok (flattened full f), c') /\
    flattened_ok c' /\ weight (flattened full f) <= weight f.
Proof.
  intros Hc Hn. destruct (flatten_impl_computes flattened_ok full n f Hn c Hc) as [E Hc'].
  destruct (flatten_impl full n f c) as [r c']. simpl in *. subst r.
  exists c'. split; [done|]. split; [done|]. apply flattened_lighter.
Qed.

Lemma flatten_terminates_witness :
  let f := Op.Chain [Op.Compose [Op.Subdir [Normal "a"]; Op.Subdir [Normal "b"]];
                     Op.Prefix [Normal "c"]] in
  exists c', flatten 6 f no_caches = (Ok (flattened false f), c') /\
    flattened_ok c' /\ weight (flattened false f) <= weight f.
Proof.
  apply (flatten_terminates false no_caches 6);
    [repeat split; constructor|vm_compute; lia].
Defined.
