(* ===== verification/Step.v ===== *)
(** The rewriting steps of the optimizer (josh-filter/src/opt/step.rs) and the
    loop that iterates them (josh-filter/src/opt/mod.rs); every step ends, and so
    does the loop. *)

From S2P Require Import Prelude Path Ops OptState Invert PrefixSort Structure Simplify Flatten.

(** [is_prefix]. *)
Definition is_prefix (o : Op.t) : bool :=
  match o with Op.Prefix _ => true | _ => false end.

(** [prefix_of]: the prefix a filter ends with, or [Nop]. *)
Definition prefix_of (o : Op.t) : filter :=
  let last := to_op (last_chain (to_filter o) (to_filter Op.Nop)).2 in
  to_filter (if is_prefix last then last else Op.Nop).

(** [Vec::dedup]: drop repetitions of the element before. *)
Fixpoint dedup (l : list filter) : list filter :=
  match l with
  | x :: (y :: _) as l' => if decide (x = y) then dedup l' else x :: dedup l'
  | _ => l
  end.

Definition retain (p : filter -> bool) (l : list filter) : list filter := List.filter p l.

(** [x != f]. *)
Definition differs (f x : filter) : bool := negb (bool_decide (x = f)).

(** The position of the first element equal to [f]. *)
Fixpoint position (f : filter) (l : list filter) : option nat :=
  match l with
  | [] => None
  | x :: l => if decide (x = f) then Some 0 else S <$> position f l
  end.

Section Step.
(** The recursive calls. *)
Context (step : filter -> opt filter).

(** The loop of the [Chain] case over adjacent prefixes and subdirectories; [None]
    when the whole chain is empty. *)
Fixpoint cancel_pairs (l : list filter) (result : list filter) : opt (option (list filter)) :=
  match l with
  | [] => mret (Some result)
  | f :: l' =>
      let push := g ← step f; cancel_pairs l' (result ++ [g]) in
      match l' with
      | [] => push
      | g :: l'' =>
          match to_op f, to_op g with
          | Op.Prefix a, Op.Subdir b =>
              if decide (a = b) then cancel_pairs l'' result
              else if decide (length a = length b) then
                if existsb resurrects_from_empty l'' then push else mret None
              else push
          | _, _ => push
          end
      end
  end.

(** The [Chain] case; [inl] where the function returns early, without recording
    the result in its memo table. *)
Definition step_chain (filters : list filter) : opt (filter + filter) :=
  stepped ← mapM step filters;
  let flattened := retain (differs (to_filter Op.Nop)) (unnest_chain stepped) in
  match flattened with
  | [] => mret (inl (to_filter Op.Nop))
  | _ =>
      let empty :=
        match position (to_filter Op.Empty) flattened with
        | Some pos => negb (existsb resurrects_from_empty (drop (S pos) flattened))
        | None => false
        end in
      if empty then mret (inl (to_filter Op.Empty))
      else
        r ← cancel_pairs flattened [];
        mret match r with
             | None => inl (to_filter Op.Empty)
             | Some [] => inr (to_filter Op.Nop)
             | Some [f] => inr (to_filter (to_op f))
             | Some l => inr (to_filter (Op.Chain l))
             end
  end.

(** The [Compose] case, for two or more branches. *)
Definition step_compose (filters : list filter) : opt filter :=
  let filters := retain (differs (to_filter Op.Empty)) (dedup filters) in
  let grouped := group filters in
  match common_pre filters with
  | Some (common, rest) =>
      mret (to_filter (Op.Chain [common; to_filter (Op.Compose rest)]))
  | None =>
      post ← common_post filters;
      match post with
      | Some (common, rest) =>
          mret (to_filter (Op.Chain [to_filter (Op.Compose rest); common]))
      | None =>
          if decide (length grouped ≠ 1 /\ length grouped ≠ length filters) then
            mret (to_filter (Op.Compose ((fun x => to_filter (Op.Compose x)) <$> grouped)))
          else
            l ← mapM step (prefix_sort filters);
            mret (to_filter (Op.Compose l))
      end
  end.

(** The cases of [Subtract] from the one on compositions on. *)
Definition step_subtract_compose (af bf : filter) : opt filter :=
  match to_op af, to_op bf with
  | Op.Compose av, b =>
      if decide (bf ∈ av) then
        f ← step (to_filter (Op.Compose (retain (differs bf) av))); mret (to_filter (to_op f))
      else match b with
      | Op.Compose bv =>
          if decide (af ∈ bv) then f ← step (to_filter Op.Empty); mret (to_filter (to_op f))
          else
            let av' := retain (fun x => negb (bool_decide (x ∈ bv))) av in
            let bv' := retain (fun x => negb (bool_decide (x ∈ av))) bv in
            a ← step (to_filter (Op.Compose av'));
            b ← step (to_filter (Op.Compose bv'));
            mret (to_filter (Op.Subtract a b))
      | _ => a ← step af; b ← step bf; mret (to_filter (Op.Subtract a b))
      end
  | _, Op.Compose bv =>
      if decide (af ∈ bv) then f ← step (to_filter Op.Empty); mret (to_filter (to_op f))
      else a ← step af; b ← step bf; mret (to_filter (Op.Subtract a b))
  | _, _ => a ← step af; b ← step bf; mret (to_filter (Op.Subtract a b))
  end.

(** The cases of [Subtract] that look at the last elements of both sides. *)
Definition step_subtract_ends (af bf : filter) : opt filter :=
  if decide (prefix_of (to_op bf) ≠ to_filter Op.Nop) then
    mret (to_filter (Op.Subtract af (last_chain bf (to_filter Op.Nop)).1))
  else if decide (prefix_of (to_op af) ≠ to_filter Op.Nop) then
    mret (to_filter (Op.Chain
      [to_filter (Op.Subtract (last_chain af (to_filter Op.Nop)).1 bf);
       prefix_of (to_op af)]))
  else if is_prefix (to_op bf) then
    mret (to_filter (Op.Subtract af (to_filter Op.Nop)))
  else
    post ← common_post [af; bf];
    match post with
    | Some (cp, [ra; rb]) =>
        if decide (cp ≠ to_filter Op.Nop) then
          mret (to_filter (Op.Chain [to_filter (Op.Subtract ra rb); cp]))
        else step_subtract_compose af bf
    | _ => step_subtract_compose af bf
    end.

(** The [Subtract] case. *)
Definition step_subtract (af bf : filter) : opt filter :=
  if decide (af = bf) then mret (to_filter Op.Empty)
  else match to_op af, to_op bf with
  | Op.Empty, _ => mret (to_filter Op.Empty)
  | Op.Message _ _, Op.Message _ _ => mret (to_filter Op.Empty)
  | _, Op.Nop => mret (to_filter Op.Empty)
  | a, Op.Empty => mret (to_filter a)
  | Op.Select sa, Op.Exclude sb =>
      if decide (sa = sb) then mret (to_filter (Op.Select sa)) else step_subtract_ends af bf
  | Op.Chain (x :: new_a), Op.Chain (y :: new_b) =>
      if decide (x = y) then
        mret (to_filter (Op.Chain
          [x; to_filter (Op.Subtract (to_filter (Op.Chain new_a)) (to_filter (Op.Chain new_b)))]))
      else step_subtract_ends af bf
  | _, _ => step_subtract_ends af bf
  end.

(** The match of [step] but for chains. *)
Definition step_other (f : filter) : opt filter :=
  match to_op f with
  | Op.Subdir p =>
      if decide (p = []) then mret (to_filter Op.Nop)
      else if decide (1 < length p) then
        mret (to_filter (Op.Chain ((fun x => to_filter (Op.Subdir [x])) <$> p)))
      else mret (to_filter (Op.Subdir p))
  | Op.Prefix p =>
      if decide (p = []) then mret (to_filter Op.Nop)
      else if decide (1 < length p) then
        mret (to_filter (Op.Chain ((fun x => to_filter (Op.Prefix [x])) <$> rev p)))
      else mret (to_filter (Op.Prefix p))
  | Op.Insert dest_path content =>
      if decide (1 < length dest_path) then
        match parent dest_path, file_name dest_path with
        | Some dst_parent, Some dst_name =>
            mret (to_filter (Op.Chain
              [to_filter (Op.Insert [Normal dst_name] content);
               to_filter (Op.Prefix dst_parent)]))
        | _, _ => mret (to_filter (Op.Insert dest_path content))
        end
      else mret f
  | Op.File dest_path source_path =>
      if decide (1 < length source_path \/ 1 < length dest_path) then
        match parent source_path, file_name source_path,
              parent dest_path, file_name dest_path with
        | Some src_parent, Some src_name, Some dst_parent, Some dst_name =>
            mret (to_filter (Op.Chain
              [to_filter (Op.Subdir src_parent);
               to_filter (Op.File [Normal dst_name] [Normal src_name]);
               to_filter (Op.Prefix dst_parent)]))
        | _, _, _, _ => mret (to_filter (Op.File dest_path source_path))
        end
      else mret f
  | Op.Rev filters =>
      l ← mapM (fun '(m, i, f) => g ← step f; mret (m, i, g)) filters;
      mret (to_filter (Op.Rev l))
  | Op.Compose [] => mret (to_filter Op.Empty)
  | Op.Compose [x] => mret (to_filter (to_op x))
  | Op.Compose filters => step_compose filters
  | Op.Exclude b =>
      if decide (b = to_filter Op.Nop) then mret (to_filter Op.Empty)
      else if decide (b = to_filter Op.Empty) then mret (to_filter Op.Nop)
      else b ← step b; mret (to_filter (Op.Exclude b))
  | Op.Pin b =>
      if decide (b = to_filter Op.Empty) then mret (to_filter Op.Nop)
      else b ← step b; mret (to_filter (Op.Pin b))
  | Op.Select b =>
      if decide (b = to_filter Op.Empty) then mret (to_filter Op.Empty)
      else if decide (b = to_filter Op.Nop) then mret (to_filter Op.Nop)
      else b ← step b; mret (to_filter (Op.Select b))
  | Op.Starlark p sub => sub ← step sub; mret (to_filter (Op.Starlark p sub))
  | Op.TreeId p sub => sub ← step sub; mret (to_filter (Op.TreeId p sub))
  | Op.Subtract a b => step_subtract a b
  | o => mret (to_filter o)
  end.

(** The match of [step]. *)
Definition step_op (f : filter) : opt (filter + filter) :=
  match to_op f with
  | Op.Chain filters => step_chain filters
  | _ => g ← step_other f; mret (inr g)
  end.

End Step.

(** [step], with its memo table and a recursion budget. *)
Fixpoint step (n : nat) (f : filter) : opt filter :=
  match n with
  | 0 => lift OutOfFuel
  | S n =>
      cached ← gets (fun c => table_get (OPTIMIZED c) f);
      match cached with
      | Some g => mret g
      | None =>
          result ← step_op (step n) f;
          match result with
          | inl g => mret g
          | inr g => modify (insert_OPTIMIZED f g) ≫= fun _ => mret g
          end
      end
  end.

(** The loop of [iterate]: at most [k] more steps of budget [n]. *)
Fixpoint iterate_loop (k n : nat) (f : filter) : opt filter :=
  match k with
  | 0 => mret f
  | S k =>
      optimized ← step n f;
      if decide (f = optimized) then mret f else iterate_loop k n optimized
  end.

(** [iterate]. *)
Definition iterate (n : nat) (f : filter) : opt filter := iterate_loop 1000 n f.

(** The loop of [optimize_impl]; [k] bounds its turns and [n] its calls. *)
Fixpoint optimize_loop (k n : nat) (f : filter) : opt filter :=
  match k with
  | 0 => lift OutOfFuel
  | S k =>
      pretty ← simplify n f;
      optimized ← iterate n f;
      f ← simplify n optimized;
      if decide (f = pretty) then iterate n f else optimize_loop k n f
  end.

(** [optimize_impl]. *)
Definition optimize_impl (minimize : bool) (k n : nat) (f : filter) : opt filter :=
  cached ← gets (fun c => table_get (if minimize then MINIMIZED c else OPTIMIZED c) f);
  match cached with
  | Some g => mret g
  | None =>
      flat ← if minimize then flatten_full n f else flatten n f;
      result ← optimize_loop k n flat;
      modify (if minimize then insert_MINIMIZED f result else insert_OPTIMIZED f result)
        ≫= fun _ => mret result
  end.

Definition optimize (k n : nat) (f : filter) : opt filter := optimize_impl false k n f.
Definition minimize (k n : nat) (f : filter) : opt filter := optimize_impl true k n f.

(** * Lemmas *)

Lemma elem_of_dedup f l : f ∈ dedup l <-> f ∈ l.
Proof.
  induction l as [|x [|y l] IH]; [done..|]. cbn [dedup]. case_decide as Hd.
  - subst. rewrite IH. set_solver.
  - rewrite !(elem_of_cons _ _ x), IH. done.
Qed.

Lemma elem_of_retain p f l : f ∈ retain p l <-> f ∈ l /\ p f = true.
Proof. unfold retain. rewrite !list_elem_of_In, filter_In. done. Qed.

Lemma differs_true f g : differs f g = true <-> g ≠ f.
Proof. unfold differs. by rewrite negb_true_iff, bool_decide_eq_false. Qed.

(** * Steps end *)

(** The recursive calls of [step] are not on parts of the filter: a chain is stepped element by
    element and its new elements are stepped again.  What bounds them is how much there is to
    rewrite, ... *)
Fixpoint bulk (f : filter) : nat :=
  match f with
  | Op.Nop | Op.Empty => 0
  | Op.Subdir p | Op.Prefix p => 2 * length p
  | Op.Insert p _ => 2 + 2 * length p
  | Op.File d s => 2 + 2 * (length d + length s)
  | Op.Chain l => sum_list_with bulk l
  | Op.Compose [x] => bulk x
  | Op.Compose l => sum_list_with (fun x => max 1 (bulk x)) l
  | Op.Subtract a b => 2 + (bulk a + bulk b)
  | Op.Exclude b | Op.Pin b | Op.Select b | Op.Starlark _ b | Op.TreeId _ b => 2 + bulk b
  | Op.Rev l => 2 + sum_list_with (fun x => bulk x.2) l
  | _ => 2
  end.

(** ... and, where an element is all there is to rewrite of a chain, how deep it is nested. *)
Fixpoint nesting (f : filter) : nat :=
  match f with
  | Op.Compose [x] => S (nesting x)
  | Op.Chain l => S (max_list_with (fun x => if decide (bulk x = sum_list_with bulk l) then nesting x else 0) l)
  | _ => 0
  end.

Definition chain_level (f : filter) : nat := match f with Op.Chain _ => 1 | _ => 0 end.

(** What a step may make of [f]. *)
Definition settles (f g : filter) : Prop :=
  bulk g < bulk f \/ bulk g = bulk f /\ nesting g <= nesting f + chain_level g.

(** What a step of [f] may step in turn. *)
Definition inner (f g : filter) : Prop :=
  bulk g < bulk f \/ bulk g = bulk f /\ nesting g < nesting f.

Definition branches (l : list filter) : nat := sum_list_with (fun x => max 1 (bulk x)) l.

(** ** How much there is to rewrite *)

Lemma bulk_two f : bulk f = 0 \/ 2 <= bulk f.
Proof.
  induction f as [f IH] using filter_ind. destruct f; cbn [bulk children] in *; try lia.
  - destruct filters as [|x [|y l]]; [by left| |simpl; lia]. by apply Forall_cons in IH as [IH _].
  - induction IH as [|x l Hx _ IHl]; simpl; lia.
Qed.

Lemma bulk_compose l : length l ≠ 1 -> bulk (Op.Compose l) = branches l.
Proof. by destruct l as [|x [|y l]]. Qed.

Lemma bulk_compose_le l : bulk (Op.Compose l) <= branches l.
Proof. destruct l as [|x [|y l]]; [done| |done]. unfold branches. simpl. lia. Qed.

Lemma bulk_elem f l : f ∈ l -> bulk f <= sum_list_with bulk l.
Proof. induction 1; simpl; lia. Qed.

Lemma bulk_branch f l : f ∈ l -> 2 <= length l -> bulk f < branches l.
Proof.
  unfold branches. intros (l1 & l2 & ->)%list_elem_of_split. rewrite length_app, sum_list_with_app. simpl.
  intros Hl. assert (forall l : list filter, length l <= sum_list_with (fun x => max 1 (bulk x)) l) as Hk.
  { induction l as [|x l IH]; simpl; lia. }
  pose proof (Hk l1). pose proof (Hk l2). lia.
Qed.

Lemma branches_perm l l' : l ≡ₚ l' -> branches l = branches l'.
Proof. unfold branches. induction 1; simpl; lia. Qed.

Lemma branches_retain p l : branches (retain p l) <= branches l.
Proof. unfold branches. induction l as [|x l IH]; simpl; [done|]. destruct (p x); simpl; lia. Qed.

Lemma branches_dedup l : branches (dedup l) <= branches l.
Proof.
  unfold branches. induction l as [|x [|y l] IH]; [done..|]. cbn [dedup]. case_decide; simpl in *; lia.
Qed.

Lemma bulk_retain p l : bulk (Op.Compose (retain p l)) <= bulk (Op.Compose l).
Proof.
  destruct (decide (length l = 1)) as [E|E].
  - destruct l as [|x [|y l]]; [done| |done]. unfold retain. cbn [List.filter]. destruct (p x); simpl; lia.
  - rewrite (bulk_compose l) by done. etrans; [apply bulk_compose_le|apply branches_retain].
Qed.

(** Dropping a branch leaves less. *)
Lemma length_retain p l : length (retain p l) <= length l /\
  (length (retain p l) < length l -> branches (retain p l) < branches l).
Proof.
  unfold branches. induction l as [|x l IH]; [done|]. unfold retain in *. cbn [List.filter].
  destruct (p x); simpl; [lia|]. pose proof (branches_retain p l) as Hb. unfold branches, retain in Hb. lia.
Qed.

Lemma length_dedup l : length (dedup l) <= length l /\
  (length (dedup l) < length l -> branches (dedup l) < branches l).
Proof.
  unfold branches. induction l as [|x [|y l] IH]; [simpl; lia..|]. cbn [dedup].
  pose proof (branches_dedup (y :: l)) as Hb. unfold branches in Hb. case_decide; simpl in *; lia.
Qed.

Lemma branches_step l l' : Forall2 (fun f g => bulk g <= bulk f) l l' -> branches l' <= branches l.
Proof. unfold branches. induction 1; simpl; lia. Qed.

(** Common ends. *)
Lemma last_chain_bulk f rest : bulk (last_chain f rest).1 + bulk (last_chain f rest).2 = bulk rest + bulk f.
Proof.
  revert rest. induction f as [f IH] using filter_ind. intros rest. destruct f; try done.
  induction filters as [|x l _] using rev_ind; [done|]. rewrite last_chain_snoc.
  cbn [children] in IH. apply Forall_app in IH as [_ IH]. apply Forall_cons in IH as [IH _].
  rewrite IH. simpl. rewrite sum_list_with_app. simpl. lia.
Qed.

(** A common part [c] of all branches is taken out. *)
Lemma bulk_common c l rest :
  Forall2 (fun f r => bulk f = bulk c + bulk r) l rest -> l ≠ [] ->
  bulk c + bulk (Op.Compose rest) <= branches l.
Proof.
  intros Hall Hne. destruct (decide (length rest = 1)) as [E|E].
  { destruct rest as [|r [|]]; [done| |done]. apply Forall2_cons_inv_r in Hall as (f & l' & Hf & H0 & ->).
    unfold branches. simpl. lia. }
  rewrite bulk_compose by done. pose proof (Forall2_length _ _ _ Hall) as Hl.
  assert (2 <= length l) as H2 by (destruct l as [|? [|]]; simpl in *; done || lia). clear Hne E Hl.
  assert (branches rest + (length l - 1) * bulk c <= branches l /\ bulk c = 0 \/
    branches rest + length l * (bulk c - 1) <= branches l /\ 2 <= bulk c) as [[? ?]|[? ?]]; [|lia|nia].
  destruct (bulk_two c) as [Hc|Hc]; [left|right]; (split; [|done]); clear H2;
    induction Hall as [|f r l rest Hf _ IH]; unfold branches in *; simpl; nia.
Qed.

Lemma common_pre_bulk l c rest :
  common_pre l = Some (c, rest) -> l ≠ [] /\ Forall2 (fun f r => bulk f = bulk c + bulk r) l rest.
Proof.
  intros Hpre. split; [by intros ->|]. revert Hpre. unfold common_pre.
  destruct (common_pre_loop l None []) as [[[c0|] rs]|] eqn:E; [|done..].
  destruct (is_generative c0); [done|]. intros [= -> ->].
  apply common_pre_loop_spec in E as (rs & -> & _ & Hrs). cbn [app]. eapply Forall2_impl; [exact Hrs|].
  intros f r (x & tl & [= <-] & -> & ->). by destruct tl.
Qed.

Lemma common_post_bulk l c rest :
  common_post_of l = Some (c, rest) -> l ≠ [] /\ Forall2 (fun f r => bulk f = bulk c + bulk r) l rest.
Proof.
  intros Hpost. split; [by intros ->|]. revert Hpost. unfold common_post_of.
  destruct (common_post_loop l None []) as [[[c0|] rs]|] eqn:E; [|done..]. intros Hr.
  assert (c0 = c /\ rs = rest) as [-> ->] by (destruct (bool_decide _); [naive_solver|destruct c0; naive_solver]).
  apply common_post_loop_spec in E as (rs & -> & _ & Hrs). cbn [app]. eapply Forall2_impl; [exact Hrs|].
  intros f r (x & [= <-] & Ex). pose proof (last_chain_bulk f Op.Nop) as Hb. rewrite Ex in Hb. simpl in Hb. lia.
Qed.

(** Groups. *)
Lemma group_filled l : Forall (fun g => g ≠ []) (group l).
Proof.
  assert (forall same l res, Forall (fun g => g ≠ []) res ->
    Forall (fun g => g ≠ []) (foldl (group_step same) res l)) as Hg.
  { clear. intros same. induction l as [|f l IH]; intros res Hres; [done|]. apply IH. unfold group_step.
    destruct (last res) as [[|g gs]|] eqn:E; try (by apply Forall_app; split; [|constructor]).
    destruct (same f g); [|by apply Forall_app; split; [|constructor]].
    apply last_Some in E as [res' ->]. rewrite removelast_last. apply Forall_app in Hres as [Hres _].
    apply Forall_app. split; [done|]. by constructor. }
  unfold group. case_decide; by apply Hg.
Qed.

Lemma branches_groups gs :
  Forall (fun g => g ≠ []) gs -> branches (Op.Compose <$> gs) <= branches (concat gs).
Proof.
  induction 1 as [|g gs Hg _ IH]; [done|]. cbn [concat]. unfold branches in *.
  rewrite fmap_cons, sum_list_with_app. cbn [sum_list_with].
  assert (max 1 (bulk (Op.Compose g)) <= branches g); [|unfold branches in *; lia].
  pose proof (bulk_compose_le g). destruct g as [|x g]; [done|]. unfold branches in *. simpl in *. lia.
Qed.

(** ** What a step may return *)

Lemma chain_settles f l :
  sum_list_with bulk l <= bulk f -> (forall x, x ∈ l -> bulk x = bulk f -> nesting x <= nesting f) ->
  settles f (Op.Chain l).
Proof.
  intros Hle Hx. unfold settles. cbn [bulk nesting chain_level].
  destruct (decide (sum_list_with bulk l = bulk f)) as [E|]; [right|left; lia]. split; [done|].
  rewrite E in *. clear E Hle. assert (max_list_with (fun x => if decide (bulk x = bulk f) then nesting x else 0) l <= nesting f); [|lia].
  induction l as [|x l IH]; simpl; [lia|]. apply Nat.max_lub; [|apply IH; intros y Hy; apply Hx; by right].
  case_decide; [|lia]. apply Hx; [left|done].
Qed.

Lemma compose_settles l l' :
  2 <= length l -> branches l' <= branches l -> (length l' = 1 -> branches l' < branches l) ->
  settles (Op.Compose l) (Op.Compose l').
Proof.
  intros Hl Hb H1. unfold settles. rewrite (bulk_compose l) by lia. pose proof (bulk_compose_le l').
  destruct (decide (length l' = 1)) as [E|E]; [left; specialize (H1 E); lia|].
  rewrite bulk_compose by done. assert (nesting (Op.Compose l') = 0) as -> by (by destruct l' as [|x [|y l']]). lia.
Qed.

Lemma flat_settles f g : bulk g <= bulk f -> nesting g = 0 -> settles f g.
Proof. unfold settles. lia. Qed.

Section Common.
Context (l fl : list filter) (c : filter) (rest : list filter).
Hypothesis Hl : 2 <= length l.
Hypothesis Hfl : branches fl <= branches l /\ (length fl = 1 -> branches fl < branches l).
Hypothesis Hc : fl ≠ [] /\ Forall2 (fun f r => bulk f = bulk c + bulk r) fl rest.

Lemma common_parts x : x ∈ [c; Op.Compose rest] -> bulk x = bulk (Op.Compose l) -> nesting x <= 0.
Proof using All.
  destruct Hc as [Hne Hall], Hfl as [Hle H1]. pose proof (bulk_common c fl rest Hall Hne) as Hb.
  pose proof (Forall2_length _ _ _ Hall) as Hlen. rewrite (bulk_compose l) by lia.
  rewrite elem_of_cons, list_elem_of_singleton. intros [->| ->] E.
  - destruct (decide (length fl = 1)) as [E1|E1]; [specialize (H1 E1); lia|].
    destruct Hall as [|f r fl rest Hf _]; [done|].
    pose proof (bulk_branch f (f :: fl) ltac:(left)). destruct fl; [done|]. simpl in *. lia.
  - destruct (decide (length rest = 1)) as [E1|E1]; [rewrite <- Hlen in E1; specialize (H1 E1); lia|].
    by destruct rest as [|r [|r' rest']].
Qed.

Lemma common_settles :
  settles (Op.Compose l) (Op.Chain [c; Op.Compose rest]) /\ settles (Op.Compose l) (Op.Chain [Op.Compose rest; c]).
Proof using All.
  pose proof common_parts as Hp. destruct Hc as [Hne Hall], Hfl as [Hle _].
  pose proof (bulk_common c fl rest Hall Hne) as Hb. rewrite <- (bulk_compose l) in Hle by lia.
  assert (nesting (Op.Compose l) = 0) as E by (destruct l as [|? [|]]; simpl in *; lia || done).
  split; (apply chain_settles; [cbn [sum_list_with]; lia|]); intros x Hx; rewrite E; apply Hp; set_solver.
Qed.
End Common.

(** The result of a step, recorded or not. *)
Definition out (r : filter + filter) : filter := match r with inl g | inr g => g end.

(** Tables whose recorded results are such as steps return. *)
Definition settled (s : caches) : Prop := inverted_ok s /\ table_holds settles (OPTIMIZED s).

#[export] Instance settled_inverted : InvertedOk settled.
Proof.
  split.
  - by intros c [Hi _].
  - intros c f [Hi Ho]. split; [by apply table_holds_insert|exact Ho].
Qed.

Lemma no_caches_settled : settled no_caches.
Proof. split; [apply Forall_nil_2|apply Forall_nil_2]. Qed.

(** ** Chains *)

Lemma chain_inner l x : x ∈ l -> inner (Op.Chain l) x.
Proof.
  intros Hx. unfold inner. cbn [bulk nesting]. pose proof (bulk_elem x l Hx).
  destruct (decide (bulk x = sum_list_with bulk l)) as [E|]; [right|left; lia]. split; [done|].
  set (h := fun x => if decide _ then _ else _). assert (h x <= max_list_with h l) as Hm.
  { clearbody h. clear - Hx. induction Hx; simpl; lia. }
  unfold h in Hm at 1. rewrite decide_True in Hm by done. lia.
Qed.

Lemma unnest_elem e l :
  e ∈ unnest_chain l ->
  exists g, g ∈ l /\ (e = g /\ chain_level g = 0 \/ exists m, g = Op.Chain m /\ e ∈ m).
Proof.
  induction l as [|g l IH]; [by intros ?%not_elem_of_nil|]. intros He.
  assert ((e = g /\ chain_level g = 0 \/ exists m, g = Op.Chain m /\ e ∈ m) \/ e ∈ unnest_chain l) as [Hg|Hl].
  { destruct g; cbn in He |- *; (apply elem_of_app in He || apply elem_of_cons in He);
      (destruct He as [He|He]; [left|by right]); first [by left | right; by eexists]. }
  - exists g. split; [left|done].
  - destruct (IH Hl) as (g' & Hg' & H). exists g'. split; [by right|done].
Qed.

Lemma unnest_bulk l : sum_list_with bulk (unnest_chain l) = sum_list_with bulk l.
Proof.
  induction l as [|g l IH]; [done|]. destruct (unnest_chain_cons g l) as [(m & -> & ->)| ->].
  - rewrite sum_list_with_app. simpl. lia.
  - simpl. lia.
Qed.

Lemma settles_le f g : settles f g -> bulk g <= bulk f.
Proof. unfold settles. lia. Qed.

Lemma unnest_inner l l' e : Forall2 settles l l' -> e ∈ unnest_chain l' -> inner (Op.Chain l) e.
Proof.
  intros Hl (g & Hg & He)%unnest_elem. apply list_elem_of_lookup in Hg as [i Hi].
  destruct (Forall2_lookup_r _ _ _ _ _ Hl Hi) as (c & Hc & Hcg).
  pose proof (chain_inner l c (list_elem_of_lookup_2 _ _ _ Hc)) as Hin.
  unfold inner, settles in *. destruct He as [[-> Hlev]|(m & -> & Hm%chain_inner)]; [lia|].
  unfold inner in Hm. cbn [chain_level] in *. lia.
Qed.

Lemma bulk_all l l' : Forall2 settles l l' -> sum_list_with bulk l' <= sum_list_with bulk l.
Proof. induction 1 as [|f g l l' H%settles_le _ IH]; simpl; lia. Qed.

Lemma bulk_chain_retain p l : sum_list_with bulk (retain p l) <= sum_list_with bulk l.
Proof. induction l as [|x l IH]; simpl; [done|]. destruct (p x); simpl; lia. Qed.

Section StepEnds.
Context (rec : nat -> filter -> opt filter).

Lemma cancel_pairs_ends (P : filter -> Prop) l result :
  (forall x, x ∈ l -> ends settled (fun n => rec n x) (fun g => bulk g <= bulk x /\ P g)) -> Forall P result ->
  ends settled (fun n => cancel_pairs (rec n) l result) (fun r =>
    match r with
    | Some l' => sum_list_with bulk l' <= sum_list_with bulk (result ++ l) /\ Forall P l'
    | None => True
    end).
Proof.
  revert result. induction l as [l IH] using (induction_ltof1 _ length). unfold ltof in IH. intros result Hl Hres.
  destruct l as [|f l]; [apply ends_ret; by rewrite app_nil_r|].
  set (Q := fun r : option (list filter) => _).
  assert (ends settled (fun n => g ← rec n f; cancel_pairs (rec n) l (result ++ [g])) Q) as Hpush.
  { eapply ends_bind; [apply Hl; left|]. intros g [Hb Hg].
    eapply ends_weaken; [apply IH; [simpl; lia|intros x Hx; apply Hl; by right|apply Forall_app; split; [done|by constructor]]|].
    unfold Q. intros [l'|]; [|done]. intros [Hs HP]. split; [|done]. rewrite !sum_list_with_app in *. simpl in *. lia. }
  cbn [cancel_pairs to_op]. destruct l as [|g l]; [exact Hpush|].
  destruct f; try exact Hpush. destruct g; try exact Hpush.
  case_decide as Hd; [|case_decide; [case_match; [exact Hpush|by apply ends_ret]|exact Hpush]].
  eapply ends_weaken; [apply IH; [simpl; lia|intros x Hx; apply Hl; set_solver|done]|].
  unfold Q. intros [l'|]; [|done]. intros [Hs HP]. split; [|done]. rewrite !sum_list_with_app in *. simpl in *. lia.
Qed.

Lemma step_chain_ends l :
  (forall x, inner (Op.Chain l) x -> ends settled (fun n => rec n x) (settles x)) ->
  ends settled (fun n => step_chain (rec n) l) (fun r => settles (Op.Chain l) (out r)).
Proof.
  intros Hrec. unfold step_chain.
  eapply ends_bind; [apply (ends_mapM _ _ settles); intros x Hx; by apply Hrec, chain_inner|]. intros l' Hl'. cbn [to_filter].
  assert (forall e, e ∈ retain (differs Op.Nop) (unnest_chain l') -> inner (Op.Chain l) e) as Hin.
  { intros e [He _]%elem_of_retain. by eapply unnest_inner. }
  assert (sum_list_with bulk (retain (differs Op.Nop) (unnest_chain l')) <= bulk (Op.Chain l)) as Hb.
  { etrans; [apply bulk_chain_retain|]. rewrite unnest_bulk. by apply bulk_all. }
  clear Hl'. set (fl := retain (differs Op.Nop) (unnest_chain l')) in *. clearbody fl.
  assert (forall g, bulk g = 0 -> nesting g = 0 -> settles (Op.Chain l) g) as Hflat by (intros; apply flat_settles; lia).
  destruct fl as [|f0 fl0] eqn:Efl; [apply ends_ret; by apply Hflat|]. rewrite <- Efl in *. clear Efl f0 fl0.
  destruct (match position Op.Empty fl with Some pos => _ | None => false end); [apply ends_ret; by apply Hflat|].
  set (P := fun g => bulk g <= bulk (Op.Chain l) /\
    (bulk g = bulk (Op.Chain l) -> nesting g < nesting (Op.Chain l) + chain_level g)).
  eapply (ends_bind _ _ _ _ _ (cancel_pairs_ends P fl [] _ _)).
  Unshelve. 2: { intros x Hx%Hin. eapply ends_weaken; [by apply Hrec|]. unfold P, inner, settles in *. intros g. lia. } 2: constructor.
  intros [r|]; [|intros _; apply ends_ret; by apply Hflat]. cbn [app]. intros [Hr HP]. apply ends_ret.
  destruct r as [|g [|g' r]]; [by apply Hflat| |].
  - apply Forall_cons in HP as [HP _]. unfold P in HP. cbn [out to_op to_filter]. unfold settles. lia.
  - cbn [out to_op to_filter]. apply chain_settles; [lia|]. rewrite Forall_forall in HP. intros x [_ Hx]%HP E. specialize (Hx E).
    assert (chain_level x <= 1) by (by destruct x; simpl; lia). lia.
Qed.

Lemma step_compose_ends l :
  2 <= length l -> (forall x, x ∈ l -> ends settled (fun n => rec n x) (settles x)) ->
  ends settled (fun n => step_compose (rec n) l) (settles (Op.Compose l)).
Proof.
  intros Hl Hrec. unfold step_compose. cbn [to_filter]. set (fl := retain (differs Op.Empty) (dedup l)).
  assert (branches fl <= branches l /\ (length fl = 1 -> branches fl < branches l)) as Hfl.
  { pose proof (branches_retain (differs Op.Empty) (dedup l)) as H1. pose proof (branches_dedup l) as H2.
    pose proof (length_retain (differs Op.Empty) (dedup l)). pose proof (length_dedup l). subst fl. lia. }
  assert (forall x, x ∈ fl -> x ∈ l) as Hsub by (intros x [Hx _]%elem_of_retain; by apply elem_of_dedup).
  clearbody fl. destruct (common_pre fl) as [[c rest]|] eqn:Epre.
  { apply ends_ret. apply (common_settles l fl c rest); [done..|]. by apply common_pre_bulk. }
  eapply (ends_bind _ _ _ (eq (common_post_of fl))); [apply (ends_computes _ _ _ _ (common_post_computes settled fl) eq_refl)|].
  intros post <-. destruct (common_post_of fl) as [[c rest]|] eqn:Epost.
  { apply ends_ret. apply (common_settles l fl c rest); [done..|]. by apply common_post_bulk. }
  case_decide as Hg.
  - apply ends_ret. pose proof (branches_groups _ (group_filled fl)) as Hb. rewrite concat_group in Hb.
    apply compose_settles; [done|etrans; [exact Hb|apply Hfl]|]. rewrite length_fmap. lia.
  - eapply ends_bind; [apply (ends_mapM _ _ settles); intros x Hx; apply Hrec, Hsub; by rewrite <- (prefix_sort_perm fl)|].
    intros l' Hl'. apply ends_ret. assert (branches l' <= branches fl) as Hb.
    { rewrite <- (branches_perm _ _ (prefix_sort_perm fl)). apply branches_step. eapply Forall2_impl; [exact Hl'|]. apply settles_le. }
    apply Forall2_length in Hl'. rewrite prefix_sort_perm in Hl'. apply compose_settles; [done|lia|]. intros E. lia.
Qed.

(** ** Subtractions *)

Section Subtract.
Context (a b : filter).
Hypothesis Hrec : forall g, bulk g < bulk (Op.Subtract a b) -> ends settled (fun n => rec n g) (settles g).

Lemma subtract_both_ends a' b' :
  bulk a' <= bulk a -> bulk b' <= bulk b ->
  ends settled (fun n => a ← rec n a'; b ← rec n b'; mret (to_filter (Op.Subtract a b))) (settles (Op.Subtract a b)).
Proof using Hrec.
  cbn [bulk] in Hrec. intros Ha Hb. eapply ends_bind; [apply Hrec; lia|]. intros ga Hga%settles_le.
  eapply ends_bind; [apply Hrec; lia|]. intros gb Hgb%settles_le.
  apply ends_ret, flat_settles; [|done]. cbn [bulk to_filter]. lia.
Qed.

Lemma subtract_one_ends g :
  bulk g <= bulk a -> ends settled (fun n => f ← rec n g; mret (to_filter (to_op f))) (settles (Op.Subtract a b)).
Proof using Hrec.
  cbn [bulk] in Hrec. intros Hg. eapply ends_bind; [apply Hrec; lia|]. intros g' Hg'%settles_le.
  apply ends_ret. left. cbn [bulk to_filter to_op]. lia.
Qed.

Lemma step_subtract_compose_ends :
  ends settled (fun n => step_subtract_compose (rec n) a b) (settles (Op.Subtract a b)).
Proof using Hrec.
  unfold step_subtract_compose.
  pose proof (subtract_both_ends a b (le_n _) (le_n _)) as Hboth.
  pose proof (subtract_one_ends Op.Empty (Nat.le_0_l _)) as Hempty.
  assert (ends settled (fun n => match to_op b with
    | Op.Compose bv => if decide (a ∈ bv) then f ← rec n (to_filter Op.Empty); mret (to_filter (to_op f))
                       else a ← rec n a; b ← rec n b; mret (to_filter (Op.Subtract a b))
    | _ => a ← rec n a; b ← rec n b; mret (to_filter (Op.Subtract a b)) end) (settles (Op.Subtract a b))) as Hb.
  { destruct b; try exact Hboth. cbn [to_op]. by case_decide. }
  destruct (to_op a) eqn:Ea; try exact Hb. cbn [to_op] in Ea.
  pose proof (fun p => bulk_retain p filters) as Hra. rewrite <- Ea in Hra.
  case_decide; [apply subtract_one_ends, Hra|]. destruct (to_op b) eqn:Eb; try exact Hboth. cbn [to_op] in Eb.
  case_decide; [exact Hempty|]. apply subtract_both_ends; [apply Hra|]. rewrite Eb. apply bulk_retain.
Qed.

Lemma subtract_chain_settles (x : filter) (l : list filter) :
  bulk x + sum_list_with bulk l <= bulk (Op.Subtract a b) -> bulk x < bulk (Op.Subtract a b) ->
  Forall (fun y => nesting y = 0) l ->
  settles (Op.Subtract a b) (Op.Chain (x :: l)) /\ settles (Op.Subtract a b) (Op.Chain (l ++ [x])).
Proof.
  intros Hb Hx Hl. rewrite Forall_forall in Hl.
  split; (apply chain_settles; [rewrite ?sum_list_with_app; simpl in *; lia|]); intros y.
  - intros [->|Hy]%elem_of_cons E; [lia|]. by rewrite Hl.
  - intros [Hy| ->%list_elem_of_singleton]%elem_of_app E; [by rewrite Hl|lia].
Qed.

Lemma step_subtract_ends_ends :
  ends settled (fun n => step_subtract_ends (rec n) a b) (settles (Op.Subtract a b)).
Proof using Hrec.
  unfold step_subtract_ends. pose proof step_subtract_compose_ends as Hc.
  pose proof (last_chain_bulk a Op.Nop) as Ha. pose proof (last_chain_bulk b Op.Nop) as Hb. cbn [to_filter to_op bulk] in *.
  case_decide; [apply ends_ret, flat_settles; [cbn [bulk]; lia|done]|]. case_decide as Hp.
  { apply ends_ret. unfold prefix_of in *. cbn [to_filter to_op] in *.
    destruct (is_prefix (last_chain a Op.Nop).2); [|by destruct Hp].
    apply (subtract_chain_settles (last_chain a Op.Nop).2 [Op.Subtract (last_chain a Op.Nop).1 b]);
      cbn [bulk sum_list_with]; [lia|lia|by constructor]. }
  case_match; [apply ends_ret, flat_settles; [cbn [bulk]; lia|done]|].
  eapply (ends_bind _ _ _ (eq (common_post_of [a; b]))); [apply (ends_computes _ _ _ _ (common_post_computes settled [a; b]) eq_refl)|].
  intros post <-. destruct (common_post_of [a; b]) as [[cp [|ra [|rb [|]]]]|] eqn:Ep; try exact Hc. case_decide; [|exact Hc].
  apply common_post_bulk in Ep as [_ Hall]. apply ends_ret.
  repeat match goal with H : Forall2 _ (_ :: _) (_ :: _) |- _ => apply Forall2_cons in H as [? H] end.
  apply (subtract_chain_settles cp [Op.Subtract ra rb]); cbn [bulk sum_list_with]; [lia|lia|by constructor].
Qed.
End Subtract.

Lemma step_subtract_ends' a b :
  (forall g, bulk g < bulk (Op.Subtract a b) -> ends settled (fun n => rec n g) (settles g)) ->
  ends settled (fun n => step_subtract (rec n) a b) (settles (Op.Subtract a b)).
Proof.
  intros Hrec. unfold step_subtract. pose proof (step_subtract_ends_ends a b Hrec) as He. clear Hrec.
  assert (forall g, bulk g = 0 -> nesting g = 0 -> ends settled (fun _ => mret g) (settles (Op.Subtract a b))) as H0.
  { intros g Eg En. apply ends_ret, flat_settles; [lia|done]. }
  assert (ends settled (fun _ => mret a) (settles (Op.Subtract a b))) as H1.
  { apply ends_ret. left. cbn [bulk]. lia. }
  case_decide; [by apply H0|].
  destruct a; destruct b; cbn [to_op to_filter]; try exact He; try (by apply H0); try exact H1.
  all: repeat case_match; try exact He; try (by apply H0); try exact H1; subst; apply ends_ret;
    try (apply flat_settles; [cbn [bulk]; lia|done]).
  eapply proj1, (subtract_chain_settles _ _ t0 [_]); [simpl; lia|simpl; lia|by constructor].
Qed.

(** ** Steps *)

Lemma sum_bulk_const {A} (h : A -> filter) (l : list A) :
  (forall x, bulk (h x) = 2) -> sum_list_with bulk (h <$> l) = 2 * length l.
Proof. intros Hh. induction l as [|x l IH]; [done|]. rewrite fmap_cons. simpl. rewrite Hh, IH. lia. Qed.

Lemma flat_chain_settles f l :
  sum_list_with bulk l <= bulk f -> Forall (fun x => nesting x = 0) l -> settles f (Op.Chain l).
Proof. rewrite Forall_forall. intros Hl Hx. apply chain_settles; [done|]. intros x E%Hx _. lia. Qed.

Lemma parent_length p dir : parent p = Some dir -> S (length dir) = length p.
Proof.
  unfold parent. destruct p as [|c p _] using rev_ind; [done|]. rewrite last_snoc, removelast_last, length_app. simpl.
  destruct c; intros [= <-]; lia.
Qed.

Lemma step_other_ends f :
  chain_level f = 0 ->
  (forall g, bulk g < bulk f -> ends settled (fun n => rec n g) (settles g)) ->
  ends settled (fun n => step_other (rec n) f) (settles f).
Proof.
  intros Hf Hrec. assert (ends settled (fun _ => mret f) (settles f)) as Hsame by (apply ends_ret; unfold settles; lia).
  assert (forall g, bulk g = 0 -> nesting g = 0 -> ends settled (fun _ => mret g) (settles f)) as H0.
  { intros g Eg En. apply ends_ret, flat_settles; [lia|done]. }
  assert (forall g k, (forall g', bulk (k g') = 2 + bulk g' /\ nesting (k g') = 0) -> bulk f = 2 + bulk g ->
    ends settled (fun n => b ← rec n g; mret (k b)) (settles f)) as H1.
  { intros g k Hk E. eapply ends_bind; [apply Hrec; lia|]. intros g' Hg'%settles_le. destruct (Hk g').
    apply ends_ret, flat_settles; [lia|done]. }
  destruct f; try done; cbn [step_other to_op to_filter];
    try exact Hsame; try (repeat case_decide; subst; by first [apply H0|apply H1]).
  - eapply (ends_bind _ _ _ (Forall2 (fun x y => bulk y.2 <= bulk x.2) filters)).
    + apply ends_mapM. intros [[m i] g] Hx. eapply ends_bind; [apply Hrec|intros g' Hg'%settles_le; by apply ends_ret].
      cbn [bulk]. pose proof (sum_list_with_in _ (fun x : RevMatch.t * LazyRef.t * filter => bulk x.2) _ Hx). simpl in *. lia.
    + intros l' Hl'. apply ends_ret, flat_settles; [|done]. cbn [bulk].
      clear - Hl'. induction Hl'; simpl in *; lia.
  - case_decide; [|exact Hsame]. destruct (parent dest_path) as [dp|] eqn:E; [|exact Hsame].
    destruct (file_name dest_path); [|exact Hsame]. apply parent_length in E. apply ends_ret, flat_chain_settles.
    + simpl. lia.
    + by repeat constructor.
  - case_decide; [|exact Hsame]. destruct (parent source_path) as [sp|] eqn:Es; [|exact Hsame].
    destruct (file_name source_path); [|exact Hsame]. destruct (parent dest_path) as [dp|] eqn:Ed; [|exact Hsame].
    destruct (file_name dest_path); [|exact Hsame]. apply parent_length in Es, Ed. apply ends_ret, flat_chain_settles.
    + simpl. lia.
    + by repeat constructor.
  - case_decide; [by apply H0|]. case_decide; [|exact Hsame]. apply ends_ret, flat_chain_settles.
    + rewrite sum_bulk_const, length_rev by done. done.
    + by apply Forall_fmap, Forall_true.
  - case_decide; [by apply H0|]. case_decide; [|exact Hsame]. apply ends_ret, flat_chain_settles.
    + rewrite sum_bulk_const by done. done.
    + by apply Forall_fmap, Forall_true.
  - destruct filters as [|x [|y l]]; [by apply H0|apply ends_ret; unfold settles; simpl; lia|].
    apply step_compose_ends; [simpl; lia|]. intros z Hz. apply Hrec. by apply bulk_branch; [|simpl; lia].
  - by apply step_subtract_ends'.
Qed.

Lemma step_op_ends f :
  (forall g, inner f g -> ends settled (fun n => rec n g) (settles g)) ->
  ends settled (fun n => step_op (rec n) f) (fun r => settles f (out r)).
Proof.
  intros Hrec. destruct (decide (chain_level f = 0)) as [E|E].
  - assert (ends settled (fun n => g ← step_other (rec n) f; mret (inr g)) (fun r => settles f (out r))) as Ho.
    { eapply ends_bind; [apply step_other_ends; [done|]|intros g Hg; by apply ends_ret].
      intros g Hg. apply Hrec. by left. }
    by destruct f.
  - destruct f; try done. by apply step_chain_ends.
Qed.
End StepEnds.

(** Every step ends. *)
Lemma step_ends f : ends settled (fun n => step n f) (settles f).
Proof.
  remember (bulk f) as b eqn:Eb. revert f Eb. induction b as [b IHb] using lt_wf_ind. intros f Eb.
  remember (nesting f) as d eqn:Ed. revert f Eb Ed. induction d as [d IHd] using lt_wf_ind. intros f -> ->.
  apply ends_later. cbn [step]. intros s Hs. unfold gets, mbind at 1, M_bind at 1.
  destruct (table_get (OPTIMIZED s) f) as [g|] eqn:E.
  { exists g, s. split; [by apply ample_always|]. split; [done|]. eapply table_holds_get; [apply Hs|done]. }
  assert (ends settled (fun n => result ← step_op (step n) f;
    match result with
    | inl g => mret g
    | inr g => modify (insert_OPTIMIZED f g) ≫= fun _ => mret g
    end) (settles f)) as Ho; [|by apply Ho].
  eapply ends_bind.
  - apply step_op_ends. intros g [Hg|[Hg Hn]]; [by eapply IHb|by eapply IHd].
  - intros [g|g] Hg; [by apply ends_ret|]. intros s' [Hi Ht]. exists g, (insert_OPTIMIZED f g s').
    split; [by apply ample_always|]. split; [|done]. split; [exact Hi|]. by apply table_holds_insert.
Qed.

Lemma iterate_loop_ends k f : ends settled (fun n => iterate_loop k n f) (fun g => bulk g <= bulk f).
Proof.
  revert f. induction k as [|k IH]; intros f; [by apply ends_ret|].
  eapply ends_bind; [apply step_ends|]. intros g Hg%settles_le. case_decide; [by apply ends_ret|].
  eapply ends_weaken; [apply IH|]. simpl. lia.
Qed.
