(* ===== verification/Objects.v ===== *)
(** Git objects and their content addresses: blobs, trees, commits and tags, the
    entries of a tree and the canonical order of their names
    (josh-core/src/filter/tree.rs, [git_tree_entry_cmp] to [insert_in_order]).

    A tree object is the list of its entries rather than its bytes: the bytes are
    the concatenation of the entries ([write_tree_now] of josh-gix-ext/src/lib.rs)
    and [gix_object::TreeRef::from_bytes] reads them back in order. *)

From stdpp Require Export gmap.
From S2P Require Import Prelude Path Ops.

(** * Objects *)

(** [gix_object::tree::EntryKind]. *)
Inductive entry_kind := KTree | KBlob | KBlobExecutable | KLink | KCommit.

#[export] Instance entry_kind_eq_dec : EqDecision entry_kind.
Proof. solve_decision. Defined.

(** A mode of a tree entry: its classification and the digits it is spelled
    with. *)
Record entry_mode := EntryMode { mode_kind : entry_kind; mode_text : string }.

#[export] Instance entry_mode_eq_dec : EqDecision entry_mode.
Proof. solve_decision. Defined.

Definition is_tree (m : entry_mode) : bool :=
  match mode_kind m with KTree => true | _ => false end.
Definition is_commit (m : entry_mode) : bool :=
  match mode_kind m with KCommit => true | _ => false end.

Definition tree_mode : entry_mode := EntryMode KTree "40000".
Definition blob_mode : entry_mode := EntryMode KBlob "100644".
Definition commit_mode : entry_mode := EntryMode KCommit "160000".

(** [gix_object::tree::Entry]. *)
Record entry := Entry { mode : entry_mode; filename : string; entry_oid : oid }.

#[export] Instance entry_eq_dec : EqDecision entry.
Proof. solve_decision. Defined.

(** [gix_object::Commit]. *)
Record commit := Commit {
  commit_tree : oid;
  commit_parents : list oid;
  commit_author : string;
  commit_committer : string;
  commit_encoding : option string;
  commit_message : string;
  commit_extra_headers : list (string * string);
}.

#[export] Instance commit_eq_dec : EqDecision commit.
Proof. solve_decision. Defined.

Inductive object :=
| OBlob (data : string)
| OTree (entries : list entry)
| OCommit (c : commit)
| OTag (data : string).

#[export] Instance object_eq_dec : EqDecision object.
Proof. solve_decision. Defined.

(** [gix_object::Kind]. *)
Inductive kind := Blob | Tree | CommitKind | Tag.

Definition object_kind (o : object) : kind :=
  match o with OBlob _ => Blob | OTree _ => Tree | OCommit _ => CommitKind | OTag _ => Tag end.

(** * Content addresses *)

(** [git2::Oid::ZERO_SHA1]. *)
Definition zero_oid : oid := "0000000000000000000000000000000000000000".

(** The hash of git objects.  Distinct objects have distinct addresses, and none
    has the zero address, which the code uses as a marker. *)
Class ObjectHash := {
  compute_hash : object -> oid;
  compute_hash_inj : Inj (=) (=) compute_hash;
  compute_hash_not_zero o : compute_hash o ≠ zero_oid;
}.
#[export] Existing Instance compute_hash_inj.

(** [empty_id]: the address of the tree without entries. *)
Definition empty_id `{ObjectHash} : oid := compute_hash (OTree []).

(** * The order of tree entries *)

(** The byte at position [n], if the name is that long. *)
Fixpoint byte_at (n : nat) (s : string) : option ascii :=
  match s, n with
  | EmptyString, _ => None
  | String c _, 0 => Some c
  | String _ s, S n => byte_at n s
  end.

Fixpoint prefix_bytes (n : nat) (s : string) : string :=
  match n, s with
  | S n, String c s => String c (prefix_bytes n s)
  | _, _ => EmptyString
  end.

(** [git_tree_entry_cmp]. *)
Definition git_tree_entry_cmp (a : string) (a_is_tree : bool) (b : string) (b_is_tree : bool) :
    comparison :=
  let len := Nat.min (String.length a) (String.length b) in
  match String.compare (prefix_bytes len a) (prefix_bytes len b) with
  | Eq =>
      let end_of (t : bool) : ascii := if t then slash else zero in
      let ca := default (end_of a_is_tree) (byte_at len a) in
      let cb := default (end_of b_is_tree) (byte_at len b) in
      Ascii.compare ca cb
  | c => c
  end.

Definition entry_cmp (a b : entry) : comparison :=
  git_tree_entry_cmp (filename a) (is_tree (mode a)) (filename b) (is_tree (mode b)).

(** [entries_canonically_sorted]. *)
Fixpoint entries_canonically_sorted (l : list entry) : bool :=
  match l with
  | a :: (b :: _) as l' =>
      match entry_cmp a b with Lt => entries_canonically_sorted l' | _ => false end
  | _ => true
  end.

(** The first entry with a name. *)
Fixpoint find_entry (name : string) (l : list entry) : option entry :=
  match l with
  | [] => None
  | e :: l => if decide (filename e = name) then Some e else find_entry name l
  end.

(** [gix_object::TreeRef::bisect_entry]: binary search for a name among the
    entries that are trees, or among those that are not.  On canonically sorted
    entries it finds the entry of the name and class if there is one. *)
Class BisectEntry := {
  bisect_entry : list entry -> string -> bool -> option entry;
  bisect_entry_spec l name t :
    entries_canonically_sorted l = true ->
    bisect_entry l name t =
      List.find (fun e => bool_decide (filename e = name) && Bool.eqb (is_tree (mode e)) t) l;
}.

(** [lookup_entry]. *)
Definition lookup_entry `{BisectEntry} (l : list entry) (name : string) (sorted : bool) :
    option entry :=
  if sorted then
    match bisect_entry l name false with
    | Some e => Some e
    | None => bisect_entry l name true
    end
  else find_entry name l.

(** The scan of [insert_in_order] from the end of the vector: the new element goes
    after the last one that does not follow it. *)
Fixpoint insert_from_end {A} (cmp : A -> A -> comparison) (rev_out : list A) (e : A)
    (after : list A) : list A :=
  match rev_out with
  | [] => e :: after
  | x :: rest =>
      match cmp x e with
      | Gt => insert_from_end cmp rest e (x :: after)
      | _ => rev rev_out ++ e :: after
      end
  end.

Definition insert_sorted {A} (cmp : A -> A -> comparison) (out : list A) (e : A) : list A :=
  insert_from_end cmp (rev out) e [].

(** [insert_in_order]. *)
Definition insert_in_order (out : list entry) (e : entry) : list entry :=
  insert_sorted entry_cmp out e.

Lemma insert_from_end_app {A} (cmp : A -> A -> comparison) l e after :
  insert_from_end cmp l e after = insert_from_end cmp l e [] ++ after.
Proof.
  revert after. induction l as [|x l IH]; intros after; simpl; [done|].
  destruct (cmp x e); [by rewrite <- !app_assoc|by rewrite <- !app_assoc|].
  rewrite IH, (IH [x]). by rewrite <- app_assoc.
Qed.

Lemma insert_sorted_snoc {A} (cmp : A -> A -> comparison) l x e :
  insert_sorted cmp (l ++ [x]) e =
    match cmp x e with Gt => insert_sorted cmp l e ++ [x] | _ => l ++ [x; e] end.
Proof.
  unfold insert_sorted. rewrite rev_app_distr. simpl.
  destruct (cmp x e); [|by rewrite rev_involutive, <- app_assoc|by apply insert_from_end_app].
  by rewrite rev_involutive, <- app_assoc.
Qed.

Lemma insert_sorted_perm {A} (cmp : A -> A -> comparison) l e : insert_sorted cmp l e ≡ₚ e :: l.
Proof.
  induction l as [|x l IH] using rev_ind; [done|]. rewrite insert_sorted_snoc.
  assert (l ++ [x; e] ≡ₚ e :: l ++ [x]) as Hp.
  { rewrite (Permutation_app_comm l [x; e]), (Permutation_app_comm l [x]). constructor. }
  destruct (cmp x e); [done|done|]. by rewrite IH.
Qed.

Lemma insert_sorted_fmap {A B} (f : A -> B) (cmp : A -> A -> comparison)
    (cmp' : B -> B -> comparison) l e :
  (forall x y, cmp' (f x) (f y) = cmp x y) ->
  insert_sorted cmp' (f <$> l) (f e) = f <$> insert_sorted cmp l e.
Proof.
  intros Hc. induction l as [|x l IH] using rev_ind; [done|].
  rewrite fmap_app. cbn. rewrite !insert_sorted_snoc, Hc.
  destruct (cmp x e); rewrite fmap_app; [done|done|]. by rewrite IH.
Qed.

(** * The order on valid names *)

(** Names as git writes them: not empty, without NUL and slash. *)
Definition ends_name (c : ascii) : bool :=
  bool_decide (c = zero) || bool_decide (c = slash).

Definition valid_name (s : string) : bool :=
  negb (string_exists ends_name s) && negb (bool_decide (s = EmptyString)).

(** The byte string whose order is the order of the entry. *)
Definition end_byte (t : bool) : ascii := if t then slash else zero.
Definition name_key (s : string) (t : bool) : string := s +:+ String (end_byte t) EmptyString.

Lemma ascii_compare_eq a b : Ascii.compare a b = Eq <-> a = b.
Proof. split; [apply Ascii.compare_eq_iff|]. intros ->. apply ascii_compare_refl. Qed.

Lemma ends_name_end t : ends_name (end_byte t) = true.
Proof. by destruct t. Qed.

Lemma git_tree_entry_cmp_key a ta b tb :
  string_exists ends_name a = false -> string_exists ends_name b = false ->
  git_tree_entry_cmp a ta b tb = String.compare (name_key a ta) (name_key b tb).
Proof.
  revert b. induction a as [|x a IH]; intros [|y b] Ha Hb; unfold name_key; simpl in *.
  - unfold git_tree_entry_cmp, end_byte. simpl. destruct ta, tb; done.
  - apply orb_false_iff in Hb as [Hy Hb]. unfold git_tree_entry_cmp. simpl.
    fold (end_byte ta). destruct (Ascii.compare (end_byte ta) y) eqn:E; try done.
    apply ascii_compare_eq in E. subst y. by rewrite ends_name_end in Hy.
  - apply orb_false_iff in Ha as [Hx Ha]. unfold git_tree_entry_cmp. simpl.
    fold (end_byte tb). destruct (Ascii.compare x (end_byte tb)) eqn:E; try done.
    apply ascii_compare_eq in E. subst x. by rewrite ends_name_end in Hx.
  - apply orb_false_iff in Ha as [Hx Ha]. apply orb_false_iff in Hb as [Hy Hb].
    specialize (IH b Ha Hb). unfold git_tree_entry_cmp in *. simpl.
    destruct (Ascii.compare x y) eqn:E; try done; simpl; rewrite ?E; done.
Qed.

Lemma valid_name_ends s : valid_name s = true -> string_exists ends_name s = false.
Proof. unfold valid_name. destruct (string_exists ends_name s); done. Qed.

Lemma valid_name_no_nul s : valid_name s = true -> string_exists (fun c => bool_decide (c = zero)) s = false.
Proof.
  intros H%valid_name_ends. induction s as [|c s IH]; simpl in *; [done|].
  apply orb_false_iff in H as [Hc Hs]. unfold ends_name in Hc.
  apply orb_false_iff in Hc as [-> _]. simpl. by apply IH.
Qed.

Lemma name_key_inj a ta b tb :
  string_exists ends_name a = false -> string_exists ends_name b = false ->
  name_key a ta = name_key b tb -> a = b /\ ta = tb.
Proof.
  unfold name_key. revert b. induction a as [|x a IH]; intros [|y b]; simpl.
  - intros _ _. destruct ta, tb; done.
  - intros _ [Hy _]%orb_false_iff [= <- _]. by rewrite ends_name_end in Hy.
  - intros [Hx _]%orb_false_iff _ [= -> _]. by rewrite ends_name_end in Hx.
  - intros [_ Ha]%orb_false_iff [_ Hb]%orb_false_iff [= -> E].
    destruct (IH b Ha Hb E) as [-> ->]. done.
Qed.

(** ** Looking up names *)

Lemma find_entry_None name l : find_entry name l = None <-> name ∉ filename <$> l.
Proof.
  induction l as [|e l IH]; simpl; [set_solver|].
  rewrite not_elem_of_cons, <- IH. case_decide; naive_solver.
Qed.

Lemma find_entry_Some name l e : find_entry name l = Some e -> e ∈ l /\ filename e = name.
Proof.
  induction l as [|x l IH]; simpl; [done|].
  case_decide; [intros [= ->]; split; [left|done]|].
  intros [? ?]%IH. split; [by right|done].
Qed.

Lemma find_class name t l :
  NoDup (filename <$> l) ->
  List.find (fun e => bool_decide (filename e = name) && Bool.eqb (is_tree (mode e)) t) l =
    e ← find_entry name l; if decide (is_tree (mode e) = t) then Some e else None.
Proof.
  induction l as [|x l IH]; simpl; [done|]. intros [Hx Hn]%NoDup_cons.
  destruct (decide (filename x = name)) as [<-|Hne]; simpl.
  - rewrite bool_decide_true by done. simpl.
    destruct (decide (is_tree (mode x) = t)) as [<-|Ht].
    + by rewrite eqb_reflx.
    + rewrite (proj2 (eqb_false_iff _ _) Ht). rewrite IH by done.
      by rewrite (proj2 (find_entry_None _ _) Hx).
  - by rewrite bool_decide_false, IH.
Qed.

(** On trees without repeated names a lookup finds the entry of the name, by
    bisection as by a scan. *)
Lemma lookup_entry_find `{BisectEntry} name l :
  NoDup (filename <$> l) ->
  lookup_entry l name (entries_canonically_sorted l) = find_entry name l.
Proof.
  intros Hn. unfold lookup_entry.
  destruct (entries_canonically_sorted l) eqn:E; [|done].
  rewrite !bisect_entry_spec, !find_class by done.
  destruct (find_entry name l) as [e|]; simpl; [|done].
  destruct (is_tree (mode e)) eqn:Ht; by rewrite ?decide_True, ?decide_False by done.
Qed.
