(* ===== verification/Store.v ===== *)
(** The object database of a transaction: the memory store in front of the
    repository (josh-memodb/src/odb.rs), the cache of tree objects
    (josh-core/src/cache/tree_cache.rs), the memo tables of the tree operations
    and [read_tree_bytes] (josh-core/src/cache/transaction.rs). *)

From S2P Require Import Prelude Path Ops Objects.

Section Store.
Context `{ObjectHash}.

(** * The object database *)

(** [Odb]: the buffered objects, the objects the repository can read (its own
    and those of its alternates), and the objects of the runtime alternates. *)
Record odb := Odb {
  mem : gmap oid object;
  disk : gmap oid object;
  alternates : gset oid;
}.

(** [git2::Odb::read]: the empty tree is readable even where it is not stored. *)
Definition disk_read (o : odb) (id : oid) : option object :=
  match disk o !! id with
  | Some x => Some x
  | None => if decide (id = empty_id) then Some (OTree []) else None
  end.

(** Whether a read was answered from memory. *)
Inductive source := Mem | Disk.

(** [Odb::read]. *)
Definition odb_read (o : odb) (id : oid) : res (object * source) :=
  match mem o !! id with
  | Some x => Ok (x, Mem)
  | None =>
      match disk_read o id with
      | Some x => Ok (x, Disk)
      | None => Err "object not found"
      end
  end.

(** [Odb::try_find]: a missing object is no error. *)
Definition try_find (o : odb) (id : oid) : option object :=
  match mem o !! id with
  | Some x => Some x
  | None => disk_read o id
  end.

(** [Odb::try_kind] and [Odb::try_header]. *)
Definition try_kind (o : odb) (id : oid) : option kind := object_kind <$> try_find o id.

(** [Odb::read_header]. *)
Definition read_header (o : odb) (id : oid) : res kind :=
  match try_find o id with
  | Some x => Ok (object_kind x)
  | None => Err "object not found"
  end.

(** [Odb::contains]: what is stored, which the empty tree need not be. *)
Definition odb_contains (o : odb) (id : oid) : bool :=
  bool_decide (is_Some (mem o !! id)) || bool_decide (is_Some (disk o !! id)).

(** [Odb::write_with_id]. *)
Definition write_with_id (o : odb) (id : oid) (x : object) : odb :=
  if decide (is_Some (mem o !! id) \/ id ∈ alternates o) then o
  else Odb (<[id := x]> (mem o)) (disk o) (alternates o).

(** [Odb::write]. *)
Definition odb_write (o : odb) (x : object) : oid * odb :=
  let id := compute_hash x in (id, write_with_id o id x).

(** * The transaction *)

(** [TreeCache]. *)
Record tree_cache := TreeCache {
  tc_map : gmap oid (list entry);
  tc_bytes : Z;
  tc_seen : gset oid;
}.

Definition tree_cache_limit : Z := 64 * 1024 * 1024.

(** The length of the bytes of a tree. *)
Definition entry_len (e : entry) : nat :=
  String.length (mode_text (mode e)) + 1 + String.length (filename e) + 1 + 20.
Definition tree_len (l : list entry) : Z := Z.of_nat (sum_list_with entry_len l).

(** [TreeCache::should_promote]: whether the tree was read before. *)
Definition should_promote (c : tree_cache) (id : oid) : bool * tree_cache :=
  (bool_decide (id ∈ tc_seen c), TreeCache (tc_map c) (tc_bytes c) ({[id]} ∪ tc_seen c)).

(** [TreeCache::insert]. *)
Definition tree_cache_insert (c : tree_cache) (id : oid) (l : list entry) : tree_cache :=
  let over := bool_decide (tree_cache_limit < tc_bytes c)%Z in
  let map := if over then ∅ else tc_map c in
  let bytes := if over then 0%Z else tc_bytes c in
  TreeCache (<[id := l]> map) (bytes + tree_len l) (tc_seen c).

(** The state of a transaction the tree operations use. *)
Record tx := Tx {
  tx_odb : odb;
  tx_tree_cache : tree_cache;
  subtract_map : gmap (oid * oid) oid;
  intersect_map : gmap (oid * oid) oid;
  overlay_map : gmap (oid * oid) oid;
  GLOB_MAP : gmap (oid * oid * Z) oid;
  PATHS_MAP : gmap (oid * string) oid;
  INVERT_MAP : gmap (oid * string) oid;
  POPULATE_MAP : gmap (oid * oid) oid;
}.

Definition with_odb (o : odb) (t : tx) : tx :=
  Tx o (tx_tree_cache t) (subtract_map t) (intersect_map t) (overlay_map t)
    (GLOB_MAP t) (PATHS_MAP t) (INVERT_MAP t) (POPULATE_MAP t).
Definition with_tree_cache (c : tree_cache) (t : tx) : tx :=
  Tx (tx_odb t) c (subtract_map t) (intersect_map t) (overlay_map t)
    (GLOB_MAP t) (PATHS_MAP t) (INVERT_MAP t) (POPULATE_MAP t).
Definition insert_subtract (k : oid * oid) (v : oid) (t : tx) : tx :=
  Tx (tx_odb t) (tx_tree_cache t) (<[k := v]> (subtract_map t)) (intersect_map t)
    (overlay_map t) (GLOB_MAP t) (PATHS_MAP t) (INVERT_MAP t) (POPULATE_MAP t).
Definition insert_intersect (k : oid * oid) (v : oid) (t : tx) : tx :=
  Tx (tx_odb t) (tx_tree_cache t) (subtract_map t) (<[k := v]> (intersect_map t))
    (overlay_map t) (GLOB_MAP t) (PATHS_MAP t) (INVERT_MAP t) (POPULATE_MAP t).
Definition insert_overlay (k : oid * oid) (v : oid) (t : tx) : tx :=
  Tx (tx_odb t) (tx_tree_cache t) (subtract_map t) (intersect_map t)
    (<[k := v]> (overlay_map t)) (GLOB_MAP t) (PATHS_MAP t) (INVERT_MAP t) (POPULATE_MAP t).

(** [entry(k).or_insert(v)]: the first result stays. *)
Definition or_insert {K} `{Countable K} (k : K) (v : oid) (m : gmap K oid) : gmap K oid :=
  match m !! k with Some _ => m | None => <[k := v]> m end.

Definition insert_glob (k : oid * oid * Z) (v : oid) (t : tx) : tx :=
  Tx (tx_odb t) (tx_tree_cache t) (subtract_map t) (intersect_map t) (overlay_map t)
    (or_insert k v (GLOB_MAP t)) (PATHS_MAP t) (INVERT_MAP t) (POPULATE_MAP t).
Definition insert_paths (k : oid * string) (v : oid) (t : tx) : tx :=
  Tx (tx_odb t) (tx_tree_cache t) (subtract_map t) (intersect_map t) (overlay_map t)
    (GLOB_MAP t) (or_insert k v (PATHS_MAP t)) (INVERT_MAP t) (POPULATE_MAP t).
Definition insert_invert (k : oid * string) (v : oid) (t : tx) : tx :=
  Tx (tx_odb t) (tx_tree_cache t) (subtract_map t) (intersect_map t) (overlay_map t)
    (GLOB_MAP t) (PATHS_MAP t) (or_insert k v (INVERT_MAP t)) (POPULATE_MAP t).
Definition insert_populate (k : oid * oid) (v : oid) (t : tx) : tx :=
  Tx (tx_odb t) (tx_tree_cache t) (subtract_map t) (intersect_map t) (overlay_map t)
    (GLOB_MAP t) (PATHS_MAP t) (INVERT_MAP t) (or_insert k v (POPULATE_MAP t)).

(** Computations of a transaction. *)
Abbreviation txm := (M tx).

(** A read of the object database that fails on a missing object. *)
Definition read_object (id : oid) : txm (object * source) :=
  fun t => (odb_read (tx_odb t) id, t).

Definition write_object (x : object) : txm oid :=
  fun t => let '(id, o) := odb_write (tx_odb t) x in (Ok id, with_odb o t).

(** [Transaction::read_tree_bytes]: [None] for an object that is not a tree. *)
Definition read_tree_bytes (id : oid) : txm (option (list entry)) :=
  cached ← gets (fun t => tc_map (tx_tree_cache t) !! id);
  match cached with
  | Some l => mret (Some l)
  | None =>
      r ← read_object id;
      match r with
      | (OTree l, Mem) => mret (Some l)
      | (OTree l, Disk) =>
          promote ← (fun t =>
            let '(p, c) := should_promote (tx_tree_cache t) id in
            (Ok p, with_tree_cache c t));
          if (promote : bool) then
            modify (fun t => with_tree_cache (tree_cache_insert (tx_tree_cache t) id l) t) ≫=
              fun _ => mret (Some l)
          else mret (Some l)
      | _ => mret None
      end
  end.

Definition has_nul (s : string) : bool :=
  string_exists (fun c => bool_decide (c = zero)) s.

(** [write_tree_now] of josh-gix-ext/src/lib.rs. *)
Definition write_tree_now (entries : list entry) : txm oid :=
  if existsb (fun e => has_nul (filename e)) entries then fail "NUL byte in tree entry name"
  else write_object (OTree entries).

(** [blob_bytes]: [None] for a missing object and for one that is no blob. *)
Definition blob_bytes (o : odb) (id : oid) : option string :=
  match odb_read o id with Ok (OBlob data, _) => Some data | _ => None end.

(** * What is stored stays readable *)

(** Objects are stored under their address, and the alternates are part of what
    the repository reads. *)
Definition odb_ok (o : odb) : Prop :=
  (forall id x, mem o !! id = Some x -> id = compute_hash x) /\
  (forall id x, disk o !! id = Some x -> id = compute_hash x) /\
  (forall id, id ∈ alternates o -> is_Some (disk o !! id)).

(** Every object readable in [o] reads the same in [o']. *)
Definition odb_keeps (o o' : odb) : Prop :=
  forall id x, try_find o id = Some x -> try_find o' id = Some x.

Lemma odb_keeps_refl o : odb_keeps o o.
Proof. by intros id x. Qed.

Lemma odb_keeps_trans o1 o2 o3 : odb_keeps o1 o2 -> odb_keeps o2 o3 -> odb_keeps o1 o3.
Proof. intros H1 H2 id x Hx. by apply H2, H1. Qed.

(** The same, and [o'] has no new commits. *)
Record odb_extends (o o' : odb) : Prop := {
  extends_keeps : odb_keeps o o';
  extends_commits id c : try_find o' id = Some (OCommit c) -> try_find o id = Some (OCommit c);
}.

Lemma odb_extends_refl o : odb_extends o o.
Proof. split; [apply odb_keeps_refl|done]. Qed.

Lemma odb_extends_trans o1 o2 o3 : odb_extends o1 o2 -> odb_extends o2 o3 -> odb_extends o1 o3.
Proof. intros [K1 C1] [K2 C2]. split; [by eapply odb_keeps_trans|auto]. Qed.

Lemma try_find_hash o id x : odb_ok o -> try_find o id = Some x -> id = compute_hash x.
Proof.
  intros (H1 & H2 & _). unfold try_find, disk_read.
  destruct (mem o !! id) eqn:E1; [intros [= <-]; by apply H1|].
  destruct (disk o !! id) eqn:E2; [intros [= <-]; by apply H2|].
  case_decide; [|done]. by intros [= <-].
Qed.

Lemma odb_read_find o id :
  match odb_read o id with
  | Ok (x, _) => try_find o id = Some x
  | Err _ => try_find o id = None
  | OutOfFuel => False
  end.
Proof.
  unfold odb_read, try_find. destruct (mem o !! id); [done|]. by destruct (disk_read o id).
Qed.

Lemma find_odb_read o id x : try_find o id = Some x -> exists src, odb_read o id = Ok (x, src).
Proof.
  unfold odb_read, try_find. destruct (mem o !! id); [intros [= ->]; eauto|].
  destruct (disk_read o id); [intros [= ->]; eauto|done].
Qed.

Lemma odb_write_spec o x id o' :
  odb_ok o -> odb_write o x = (id, o') ->
  id = compute_hash x /\ odb_ok o' /\ odb_keeps o o' /\ try_find o' id = Some x.
Proof.
  intros Hok [= <- <-]. split; [done|]. unfold write_with_id.
  case_decide as Hd.
  - split; [done|]. split; [apply odb_keeps_refl|].
    assert (is_Some (try_find o (compute_hash x))) as [y Hy].
    { unfold try_find, disk_read. destruct Hd as [[y ->]|Ha]; [done|].
      destruct (mem o !! compute_hash x); [done|].
      destruct Hok as (_ & _ & Ho). destruct (Ho _ Ha) as [y ->]. done. }
    rewrite Hy. apply try_find_hash in Hy; [|done]. by apply compute_hash_inj in Hy as ->.
  - assert (mem o !! compute_hash x = None) as Hm.
    { apply eq_None_not_Some. naive_solver. }
    destruct Hok as (H1 & H2 & H3). split; [|split].
    + split; [|done]. intros id y. simpl.
      rewrite lookup_insert_Some. naive_solver.
    + intros id y. unfold try_find, disk_read. simpl.
      destruct (decide (id = compute_hash x)) as [->|Hne].
      * rewrite lookup_insert_eq, Hm. destruct (disk o !! compute_hash x) eqn:E.
        { intros [= <-]. apply H2 in E. by apply compute_hash_inj in E as ->. }
        case_decide as He; [|done]. intros [= <-].
        by apply compute_hash_inj in He as ->.
      * by rewrite lookup_insert_ne by done.
    + unfold try_find. simpl. by rewrite lookup_insert_eq.
Qed.

(** A write changes what is read under one address. *)
Lemma odb_write_find o x i :
  odb_ok o ->
  try_find (odb_write o x).2 i = if decide (i = compute_hash x) then Some x else try_find o i.
Proof.
  intros Hok. destruct (odb_write o x) as [id o'] eqn:E. pose proof E as E'.
  apply odb_write_spec in E as (-> & _ & _ & Hf); [|done]. simpl.
  case_decide as Hi; [by subst|]. injection E' as <-. unfold write_with_id. case_decide; [done|].
  unfold try_find, disk_read. simpl. by rewrite lookup_insert_ne by done.
Qed.

Lemma odb_write_extends o x :
  odb_ok o -> object_kind x ≠ CommitKind -> odb_extends o (odb_write o x).2.
Proof.
  intros Hok Hx. split.
  - destruct (odb_write o x) as [id o'] eqn:E. by apply odb_write_spec in E as (_ & _ & ? & _).
  - intros id c. rewrite odb_write_find by done. case_decide; [|done]. intros [= ->]. done.
Qed.

Lemma odb_contains_find o x :
  odb_ok o -> odb_contains o (compute_hash x) = true -> try_find o (compute_hash x) = Some x.
Proof.
  intros Ho Hc. assert (is_Some (try_find o (compute_hash x))) as [y Hy].
  { unfold odb_contains in Hc. unfold try_find, disk_read.
    destruct (mem o !! compute_hash x); [done|]. destruct (disk o !! compute_hash x); done. }
  rewrite Hy. apply try_find_hash in Hy; [|done]. by apply compute_hash_inj in Hy as ->.
Qed.

Lemma odb_find_contains o id x : try_find o id = Some x -> x ≠ OTree [] -> odb_contains o id = true.
Proof.
  unfold odb_contains, try_find, disk_read. destruct (mem o !! id); [done|].
  destruct (disk o !! id); [done|]. case_decide; [|done]. by intros [= <-].
Qed.

End Store.

(** Computations of a transaction, for the clients of the store. *)
Abbreviation txm := (M tx).
