(* ===== verification/Utf8.v ===== *)
(** UTF-8 as [std::str::from_utf8] reads it: the code points of a byte string, or
    nothing when the bytes are not well formed. *)

From S2P Require Import Prelude.
From Stdlib Require Export ZArith.

Open Scope Z_scope.

Definition byte_val (c : ascii) : Z := Z.of_N (N_of_ascii c).

(** A continuation byte and its six bits. *)
Definition continuation (c : ascii) : option Z :=
  let b := byte_val c in
  if (128 <=? b) && (b <=? 191) then Some (b - 128) else None.

Fixpoint utf8_decode (n : nat) (s : string) : option (list Z) :=
  match n with
  | O => None
  | S n =>
    match s with
    | EmptyString => Some []
    | String c s =>
        let b := byte_val c in
        if b <? 128 then cs ← utf8_decode n s; Some (b :: cs)
        else if (194 <=? b) && (b <=? 223) then
          match s with
          | String c1 s =>
              x1 ← continuation c1; cs ← utf8_decode n s;
              Some (((b - 192) * 64 + x1) :: cs)
          | _ => None
          end
        else if (224 <=? b) && (b <=? 239) then
          match s with
          | String c1 (String c2 s) =>
              x1 ← continuation c1; x2 ← continuation c2;
              let cp := (b - 224) * 4096 + x1 * 64 + x2 in
              if (2048 <=? cp) && negb ((55296 <=? cp) && (cp <=? 57343)) then
                cs ← utf8_decode n s; Some (cp :: cs)
              else None
          | _ => None
          end
        else if (240 <=? b) && (b <=? 244) then
          match s with
          | String c1 (String c2 (String c3 s)) =>
              x1 ← continuation c1; x2 ← continuation c2; x3 ← continuation c3;
              let cp := (b - 240) * 262144 + x1 * 4096 + x2 * 64 + x3 in
              if (65536 <=? cp) && (cp <=? 1114111) then
                cs ← utf8_decode n s; Some (cp :: cs)
              else None
          | _ => None
          end
        else None
    end
  end.

(** The characters of a byte string. *)
Definition chars (s : string) : option (list Z) := utf8_decode (S (String.length s)) s.

(** [std::str::from_utf8(s).is_ok()]. *)
Definition valid_utf8 (s : string) : bool :=
  match chars s with Some _ => true | None => false end.
