(* ===== verification/Glob.v ===== *)
(** The glob matcher josh vendors (vendor/rust-lang/glob/src/lib.rs): compiling a
    pattern, the backtracking matcher with its early exit, and the proof that the
    matcher decides a plain definition of what a pattern matches. *)

From S2P Require Import Prelude.

Open Scope Z_scope.

(** * Patterns *)

(** A [char] is its code point. *)
Abbreviation char := Z.

Definition c_slash : char := 47.
Definition c_dot : char := 46.
Definition c_star : char := 42.
Definition c_quest : char := 63.
Definition c_open : char := 91.
Definition c_close : char := 93.
Definition c_bang : char := 33.
Definition c_dash : char := 45.

(** [std::path::is_separator]. *)
Definition is_separator (c : char) : bool := c =? c_slash.

Inductive char_specifier :=
| SingleChar (c : char)
| CharRange (a b : char).

Inductive pattern_token :=
| Char (c : char)
| AnyChar
| AnySequence
| AnyRecursiveSequence
| AnyWithin (cs : list char_specifier)
| AnyExcept (cs : list char_specifier).

#[export] Instance char_specifier_eq_dec : EqDecision char_specifier.
Proof. solve_decision. Defined.
#[export] Instance pattern_token_eq_dec : EqDecision pattern_token.
Proof. solve_decision. Defined.

(** [Pattern]. *)
Record pattern := Pattern {
  original : list char;
  tokens : list pattern_token;
  is_recursive : bool;
  has_metachars : bool;
}.

(** [PatternError]. *)
Record pattern_error := PatternError { pos : nat; msg : string }.

Definition ERROR_WILDCARDS : string := "wildcards are either regular `*` or recursive `**`".
Definition ERROR_RECURSIVE_WILDCARDS : string :=
  "recursive wildcards must form a single path component".
Definition ERROR_INVALID_RANGE : string := "invalid range pattern".

(** [parse_char_specifiers]. *)
Fixpoint parse_char_specifiers (s : list char) : list char_specifier :=
  match s with
  | a :: ((d :: b :: rest) as tail) =>
      if d =? c_dash then CharRange a b :: parse_char_specifiers rest
      else SingleChar a :: parse_char_specifiers tail
  | a :: tail => SingleChar a :: parse_char_specifiers tail
  | [] => []
  end.

(** [position(|x| *x == ']')]. *)
Fixpoint close_position (s : list char) : option nat :=
  match s with
  | [] => None
  | c :: s => if c =? c_close then Some 0%nat else S <$> close_position s
  end.

(** The length of a run of stars. *)
Fixpoint star_run (s : list char) : nat :=
  match s with
  | c :: s => if c =? c_star then S (star_run s) else 0
  | [] => 0
  end.

(** Adding a recursive wildcard, unless the one before is one and is not the first. *)
Definition push_recursive (tokens : list pattern_token) (is_recursive : bool) :
    list pattern_token * bool :=
  if (1 <? length tokens)%nat && bool_decide (last tokens = Some AnyRecursiveSequence)
  then (tokens, is_recursive)
  else (tokens ++ [AnyRecursiveSequence], true).

(** The bracket case: the token and the number of characters it takes. *)
Definition parse_class (rest : list char) : option (pattern_token * nat) :=
  let second := nth 1 rest 0 in
  if (4 <=? length rest)%nat && (second =? c_bang) then
    match close_position (drop 3 rest) with
    | None => None
    | Some j => Some (AnyExcept (parse_char_specifiers (take (j + 1) (drop 2 rest))), (j + 4)%nat)
    end
  else if (3 <=? length rest)%nat && negb (second =? c_bang) then
    match close_position (drop 2 rest) with
    | None => None
    | Some j => Some (AnyWithin (parse_char_specifiers (take (j + 1) (drop 1 rest))), (j + 3)%nat)
    end
  else None.

(** The loop of [Pattern::new] at position [i]; [prev] is the character before it. *)
Fixpoint parse_loop (n : nat) (prev : option char) (i : nat) (rest : list char)
    (tokens : list pattern_token) (is_recursive has_metachars : bool) :
    pattern_error + (list pattern_token * bool * bool) :=
  match n, rest with
  | _, [] => inr (tokens, is_recursive, has_metachars)
  | O, _ => inl (PatternError i "out of fuel")
  | S n, c :: tail =>
      if c =? c_quest then
        parse_loop n (Some c) (S i) tail (tokens ++ [AnyChar]) is_recursive true
      else if c =? c_star then
        let old := i in
        let count := star_run rest in
        let i := (i + count)%nat in
        let rest := drop count rest in
        match (count ?= 2)%nat with
        | Gt => inl (PatternError (old + 2) ERROR_WILDCARDS)
        | Eq =>
            if (i =? 2)%nat || match prev with Some p => is_separator p | None => false end then
              match rest with
              | s :: rest =>
                  if is_separator s then
                    let '(tokens, is_recursive) := push_recursive tokens is_recursive in
                    parse_loop n (Some s) (S i) rest tokens is_recursive true
                  else inl (PatternError i ERROR_RECURSIVE_WILDCARDS)
              | [] =>
                  let '(tokens, is_recursive) := push_recursive tokens is_recursive in
                  parse_loop n (Some c_star) i [] tokens is_recursive true
              end
            else inl (PatternError (old - 1) ERROR_RECURSIVE_WILDCARDS)
        | Lt => parse_loop n (Some c_star) i rest (tokens ++ [AnySequence]) is_recursive true
        end
      else if c =? c_open then
        match parse_class rest with
        | Some (t, len) =>
            parse_loop n (Some c_close) (i + len) (drop len rest) (tokens ++ [t])
              is_recursive true
        | None => inl (PatternError i ERROR_INVALID_RANGE)
        end
      else parse_loop n (Some c) (S i) tail (tokens ++ [Char c]) is_recursive has_metachars
  end.

(** [Pattern::new]; every round takes a character. *)
Definition pattern_new (s : list char) : pattern_error + pattern :=
  match parse_loop (length s) None 0 s [] false false with
  | inl e => inl e
  | inr (tokens, is_recursive, has_metachars) =>
      inr (Pattern s tokens is_recursive has_metachars)
  end.

(** [Pattern::from_tokens]. *)
Definition from_tokens (tokens : list pattern_token) : pattern :=
  Pattern [] tokens (bool_decide (AnyRecursiveSequence ∈ tokens))
    (existsb (fun t => match t with Char _ => false | _ => true end) tokens).

(** [Pattern::escape]. *)
Fixpoint escape (s : list char) : list char :=
  match s with
  | [] => []
  | c :: s =>
      if (c =? c_quest) || (c =? c_star) || (c =? c_open) || (c =? c_close)
      then c_open :: c :: c_close :: escape s
      else c :: escape s
  end.

(** * Matching *)

(** [MatchOptions]. *)
Record match_options := MatchOptions {
  case_sensitive : bool;
  require_literal_separator : bool;
  require_literal_leading_dot : bool;
}.

Definition is_ascii (c : char) : bool := (0 <=? c) && (c <? 128).
Definition to_lower (c : char) : char := if (65 <=? c) && (c <=? 90) then c + 32 else c.
Definition to_upper (c : char) : char := if (97 <=? c) && (c <=? 122) then c - 32 else c.

(** [chars_eq]. *)
Definition chars_eq (a b : char) (case_sensitive : bool) : bool :=
  if negb case_sensitive && is_ascii a && is_ascii b then to_lower a =? to_lower b
  else a =? b.

(** The test for one specifier of [in_char_specifiers]. *)
Definition in_char_specifier (s : char_specifier) (c : char) (options : match_options) : bool :=
  match s with
  | SingleChar sc => chars_eq c sc (case_sensitive options)
  | CharRange a b =>
      (negb (case_sensitive options) && is_ascii c && is_ascii a && is_ascii b &&
       (let a := to_lower a in
        let b := to_lower b in
        negb (a =? to_upper a) && negb (b =? to_upper b) &&
        (a <=? to_lower c) && (to_lower c <=? b))) ||
      ((a <=? c) && (c <=? b))
  end.

(** [in_char_specifiers]. *)
Definition in_char_specifiers (l : list char_specifier) (c : char) (options : match_options) :
    bool :=
  existsb (fun s => in_char_specifier s c options) l.

Inductive match_result := Match | SubPatternDoesntMatch | EntirePatternDoesntMatch.

#[export] Instance match_result_eq_dec : EqDecision match_result.
Proof. solve_decision. Defined.

(** Whether a token that stands for one character accepts it. *)
Definition token_accepts (options : match_options) (follows_separator : bool)
    (t : pattern_token) (c : char) : bool :=
  let barred := (require_literal_separator options && is_separator c) ||
                (follows_separator && require_literal_leading_dot options && (c =? c_dot)) in
  match t with
  | AnyChar => negb barred
  | AnyWithin cs => negb barred && in_char_specifiers cs c options
  | AnyExcept cs => negb barred && negb (in_char_specifiers cs c options)
  | Char c2 => chars_eq c c2 (case_sensitive options)
  | AnySequence | AnyRecursiveSequence => false
  end.

(** The loop over the characters a wildcard takes: [rest] matches the tokens after
    it. When the file is exhausted the matcher goes on with these tokens. *)
Fixpoint wildcard_loop (options : match_options) (recursive : bool)
    (rest : bool -> list char -> match_result) (follows_separator : bool) (file : list char) :
    match_result :=
  match file with
  | [] => rest follows_separator []
  | c :: file =>
      if follows_separator && require_literal_leading_dot options && (c =? c_dot)
      then SubPatternDoesntMatch
      else
        let follows_separator := is_separator c in
        if recursive && negb follows_separator then
          wildcard_loop options recursive rest follows_separator file
        else if negb recursive && require_literal_separator options && follows_separator
        then SubPatternDoesntMatch
        else
          match rest follows_separator file with
          | SubPatternDoesntMatch => wildcard_loop options recursive rest follows_separator file
          | m => m
          end
  end.

(** [Pattern::matches_from] on the tokens from a position on. *)
Fixpoint matches_from (options : match_options) (tokens : list pattern_token)
    (follows_separator : bool) (file : list char) : match_result :=
  match tokens with
  | [] => match file with [] => Match | _ => SubPatternDoesntMatch end
  | ((AnySequence | AnyRecursiveSequence) as t) :: tokens =>
      match matches_from options tokens follows_separator file with
      | SubPatternDoesntMatch =>
          wildcard_loop options (bool_decide (t = AnyRecursiveSequence))
            (matches_from options tokens) follows_separator file
      | m => m
      end
  | t :: tokens =>
      match file with
      | [] => EntirePatternDoesntMatch
      | c :: file =>
          if token_accepts options follows_separator t c
          then matches_from options tokens (is_separator c) file
          else SubPatternDoesntMatch
      end
  end.

(** [Pattern::matches_with]. *)
Definition matches_with (p : pattern) (file : list char) (options : match_options) : bool :=
  bool_decide (matches_from options (tokens p) true file = Match).

(** * What a pattern matches *)

Section Meaning.
Context (o : match_options).

(** A leading dot that no wildcard takes. *)
Definition dot_barred (follows_separator : bool) (c : char) : bool :=
  follows_separator && require_literal_leading_dot o && (c =? c_dot).

(** The characters a wildcard may take, from one position of the file to another;
    a position is the rest of the file and whether it starts a component. *)
Inductive takes (recursive : bool) : bool -> list char -> bool -> list char -> Prop :=
| takes_nil fs file : takes recursive fs file fs file
| takes_cons fs c file fs' file' :
    dot_barred fs c = false ->
    negb recursive && require_literal_separator o && is_separator c = false ->
    takes recursive (is_separator c) file fs' file' ->
    takes recursive fs (c :: file) fs' file'.

(** The tokens match the file. A recursive wildcard starts where a component
    starts, and takes whole components or everything that is left. *)
Inductive matches_tokens : list pattern_token -> bool -> list char -> Prop :=
| match_end fs : matches_tokens [] fs []
| match_one t ts fs c file :
    token_accepts o fs t c = true -> matches_tokens ts (is_separator c) file ->
    matches_tokens (t :: ts) fs (c :: file)
| match_seq ts fs file fs' file' :
    takes false fs file fs' file' -> matches_tokens ts fs' file' ->
    matches_tokens (AnySequence :: ts) fs file
| match_rec ts fs file fs' file' :
    fs = true \/ file = [] -> takes true fs file fs' file' -> fs' = true \/ file' = [] ->
    matches_tokens ts fs' file' ->
    matches_tokens (AnyRecursiveSequence :: ts) fs file.

(** Recursive wildcards stand at the start, after a separator or after another. *)
Fixpoint valid_tokens (at_start : bool) (ts : list pattern_token) : bool :=
  match ts with
  | [] => true
  | AnyRecursiveSequence :: ts => at_start && valid_tokens true ts
  | Char c :: ts => valid_tokens (is_separator c) ts
  | _ :: ts => valid_tokens false ts
  end.

(** A position further on in the file. *)
Inductive later : bool -> list char -> bool -> list char -> Prop :=
| later_refl fs file : later fs file fs file
| later_step fs c file fs' file' :
    later (is_separator c) file fs' file' -> later fs (c :: file) fs' file'.

Lemma later_length fs file fs' file' :
  later fs file fs' file' -> file' = file /\ fs' = fs \/ (length file' < length file)%nat.
Proof.
  induction 1 as [|? ? ? ? ? _ [[-> ->]|IH]]; [by left|right; simpl; lia..].
Qed.

Lemma later_tail fs file fs' c file' :
  later fs file fs' (c :: file') -> later fs file (is_separator c) file'.
Proof.
  remember (c :: file') as f eqn:E. induction 1 as [|? ? ? ? ? _ IH]; subst.
  - repeat constructor.
  - constructor. by apply IH.
Qed.

Lemma later_trans fs1 f1 fs2 f2 fs3 f3 :
  later fs1 f1 fs2 f2 -> later fs2 f2 fs3 f3 -> later fs1 f1 fs3 f3.
Proof. induction 1; [done|]. constructor. auto. Qed.

Lemma takes_later r fs file fs' file' : takes r fs file fs' file' -> later fs file fs' file'.
Proof. induction 1; by constructor. Qed.

Lemma later_same fs file fs' : later fs file fs' file -> fs' = fs.
Proof. intros [[_ ?]|?]%later_length; [done|lia]. Qed.

(** A result of the matcher is exact: a match is one, a mismatch is none, and an
    early exit excludes every later position too. *)
Definition exact (ts : list pattern_token) (m : match_result) (fs : bool) (file : list char) :
    Prop :=
  match m with
  | Match => matches_tokens ts fs file
  | SubPatternDoesntMatch => ~ matches_tokens ts fs file
  | EntirePatternDoesntMatch =>
      forall fs' file', later fs file fs' file' -> ~ matches_tokens ts fs' file'
  end.

(** Where a recursive wildcard may stop. *)
Definition stops (r : bool) (fs : bool) (file : list char) : Prop :=
  r = true -> fs = true \/ file = [].

(** The positions the wildcard loop tries, and those it excludes by an early exit. *)
Definition loop_exact (r : bool) (ts : list pattern_token) (m : match_result) (fs : bool)
    (file : list char) : Prop :=
  match m with
  | Match => exists fs' file', takes r fs file fs' file' /\ stops r fs' file' /\
               matches_tokens ts fs' file'
  | SubPatternDoesntMatch =>
      forall fs' file', takes r fs file fs' file' -> stops r fs' file' ->
        file' ≠ file \/ file = [] -> ~ matches_tokens ts fs' file'
  | EntirePatternDoesntMatch =>
      forall fs1 file1 fs' file', later fs file fs1 file1 -> takes r fs1 file1 fs' file' ->
        stops r fs' file' -> file' ≠ file \/ file = [] -> ~ matches_tokens ts fs' file'
  end.

Lemma takes_cons_inv r fs c file fs' file' :
  takes r fs (c :: file) fs' file' -> file' ≠ c :: file \/ c :: file = [] ->
  dot_barred fs c = false /\
  negb r && require_literal_separator o && is_separator c = false /\
  takes r (is_separator c) file fs' file'.
Proof. intros Ht Hne. inversion Ht; subst; [naive_solver|done]. Qed.

(** One more character before the loop. *)
Lemma loop_exact_cons r ts m fs c file :
  dot_barred fs c = false ->
  negb r && require_literal_separator o && is_separator c = false ->
  (forall fs', matches_tokens ts fs' file -> fs' = is_separator c -> stops r fs' file ->
     m = Match \/ file = []) ->
  loop_exact r ts m (is_separator c) file -> loop_exact r ts m fs (c :: file).
Proof.
  intros Hd Hs Hhere Hl. destruct m; simpl in *.
  - destruct Hl as (fs' & file' & Ht & Hst & Hm). exists fs', file'. split; [|done].
    by constructor.
  - intros fs' file' Ht Hst Hne Hm. apply takes_cons_inv in Ht as (_ & _ & Ht); [|done].
    destruct (decide (file' = file)) as [->|Hf]; [|exact (Hl _ _ Ht Hst (or_introl Hf) Hm)].
    apply takes_later, later_same in Ht as E. subst fs'.
    destruct (Hhere _ Hm eq_refl Hst) as [?| ->]; [done|].
    exact (Hl _ _ (takes_nil _ _ _) Hst (or_intror eq_refl) Hm).
  - intros fs1 file1 fs' file' Hlt Ht Hst Hne Hm.
    assert (later (is_separator c) file fs' file') as Hlt'.
    { assert (later fs (c :: file) fs' file') as H by (by eapply later_trans, takes_later).
      inversion H; subst; [naive_solver|done]. }
    destruct (decide (file' = file)) as [->|Hf].
    + apply later_same in Hlt' as E. subst fs'.
      destruct (Hhere _ Hm eq_refl Hst) as [?| ->]; [done|].
      exact (Hl _ _ _ _ (later_refl _ _) (takes_nil _ _ _) Hst (or_intror eq_refl) Hm).
    + inversion Hlt as [|? ? ? ? ? Hlt1]; subst.
      * apply takes_cons_inv in Ht as (_ & _ & Ht); [|done].
        exact (Hl _ _ _ _ (later_refl _ _) Ht Hst (or_introl Hf) Hm).
      * exact (Hl _ _ _ _ Hlt1 Ht Hst (or_introl Hf) Hm).
Qed.

Lemma wildcard_loop_exact r ts fs file :
  (forall fs file, stops r fs file -> exact ts (matches_from o ts fs file) fs file) ->
  stops r fs file \/ file ≠ [] ->
  loop_exact r ts (wildcard_loop o r (matches_from o ts) fs file) fs file.
Proof.
  intros Hex. revert fs. induction file as [|c file IH]; intros fs Hst.
  { simpl. assert (stops r fs []) as Hs by (intros _; by right).
    specialize (Hex fs [] Hs). destruct (matches_from o ts fs []); simpl in *.
    - exists fs, []. split; [constructor|done].
    - intros fs' file' Ht _ _. inversion Ht; by subst.
    - intros fs1 file1 fs' file' Hl Ht _ _. apply Hex. by eapply later_trans, takes_later. }
  cbn [wildcard_loop]. fold (dot_barred fs c). destruct (dot_barred fs c) eqn:Hd.
  { intros fs' file' Ht _ Hne. apply takes_cons_inv in Ht as (E & _); [congruence|done]. }
  assert (stops r (is_separator c) file \/ file ≠ []) as Hst'.
  { destruct file; [left; by right|by right]. }
  specialize (IH (is_separator c) Hst').
  destruct (r && negb (is_separator c)) eqn:Hr.
  { apply andb_true_iff in Hr as [-> Hs%negb_true_iff].
    apply loop_exact_cons; auto. intros fs' _ -> Hstop. right.
    destruct (Hstop eq_refl); [congruence|done]. }
  destruct (negb r && require_literal_separator o && is_separator c) eqn:Hb.
  { intros fs' file' Ht _ Hne. apply takes_cons_inv in Ht as (_ & E & _); [congruence|done]. }
  assert (stops r (is_separator c) file) as Hs.
  { intros ->. left. by destruct (is_separator c). }
  specialize (Hex _ _ Hs).
  destruct (matches_from o ts (is_separator c) file); simpl in Hex.
  - exists (is_separator c), file. split; [|done]. constructor; [done|done|constructor].
  - apply loop_exact_cons; auto. intros fs' Hm -> _. done.
  - intros fs1 file1 fs' file' Hl Ht _ Hne. apply Hex.
    assert (later fs (c :: file) fs' file') as H by (by eapply later_trans, takes_later).
    inversion H; subst; [naive_solver|done].
Qed.

Lemma chars_eq_separator c c' k : chars_eq c' c k = true -> is_separator c = true ->
  is_separator c' = true.
Proof.
  unfold chars_eq, is_separator, to_lower, c_slash. intros Hc Hs. apply Z.eqb_eq in Hs as ->.
  destruct (negb k && is_ascii c' && is_ascii 47); [|done].
  simpl in Hc. destruct ((65 <=? c') && (c' <=? 90)) eqn:E; [|done]. lia.
Qed.

(** The matcher decides what the tokens match. *)
Lemma matches_from_exact b ts fs file :
  valid_tokens b ts = true -> (b = true -> fs = true \/ file = []) ->
  exact ts (matches_from o ts fs file) fs file.
Proof.
  revert b fs file. induction ts as [|t ts IH]; intros b fs file Hv Hb.
  { destruct file; [constructor|]. simpl. by inversion 1. }
  assert (forall b', valid_tokens b' ts = true ->
    (forall c, token_accepts o fs t c = true -> b' = true -> is_separator c = true) ->
    match t with AnySequence | AnyRecursiveSequence => False | _ => True end ->
    exact (t :: ts) match file with
      | [] => EntirePatternDoesntMatch
      | c :: file => if token_accepts o fs t c then matches_from o ts (is_separator c) file
                     else SubPatternDoesntMatch
      end fs file) as Hone.
  { intros b' Hv' Hc Ht. destruct file as [|c file].
    { intros fs' file' Hl Hm. inversion Hl; subst. inversion Hm; by subst. }
    destruct (token_accepts o fs t c) eqn:Ha.
    2: { simpl. inversion 1; subst; [congruence|done|done]. }
    specialize (IH b' (is_separator c) file Hv' (fun H => or_introl (Hc c Ha H))).
    destruct (matches_from o ts (is_separator c) file); simpl in *.
    - by constructor.
    - inversion 1; subst; done.
    - intros fs' file' Hl Hm. assert (exists c' f', file' = c' :: f' /\
        matches_tokens ts (is_separator c') f') as (c' & f' & -> & Hm').
      { inversion Hm; subst; [eauto|done|done]. }
      eapply IH; [|exact Hm']. inversion Hl; subst; [constructor|]. by eapply later_tail. }
  assert (forall r : bool, t = (if r then AnyRecursiveSequence else AnySequence) ->
    stops r fs file -> valid_tokens r ts = true ->
    exact (t :: ts) match matches_from o ts fs file with
      | SubPatternDoesntMatch => wildcard_loop o r (matches_from o ts) fs file
      | m => m end fs file) as Hseq.
  { intros r Ht Hst Hv'. assert (forall (fs : bool) (file : list char), stops r fs file ->
      exact ts (matches_from o ts fs file) fs file) as IH' by (intros; by apply (IH r)).
    assert (forall (fs' : bool) (file' : list char), matches_tokens (t :: ts) fs' file' ->
      exists fs2 file2, takes r fs' file' fs2 file2 /\ stops r fs2 file2 /\
        matches_tokens ts fs2 file2) as Hinv.
    { intros fs' file' Hm. unfold stops.
      destruct r; subst t; inversion Hm; subst; try done.
      - eexists _, _. split; [done|]. by split.
      - eexists _, _. split; [done|]. by split. }
    assert (forall fs2 file2, takes r fs file fs2 file2 -> stops r fs2 file2 ->
      matches_tokens ts fs2 file2 -> matches_tokens (t :: ts) fs file) as Hintro.
    { intros fs2 file2 Htk Hs Hm. destruct r; subst t.
      - eapply match_rec; [by apply Hst|done|by apply Hs|done].
      - by eapply match_seq. }
    pose proof (IH' _ _ Hst) as Hhere.
    destruct (matches_from o ts fs file) eqn:Em; simpl in Hhere.
    - eapply Hintro; [constructor|done|done].
    - pose proof (wildcard_loop_exact r ts fs file IH' (or_introl Hst)) as Hl.
      destruct (wildcard_loop _ _ _ _ _); simpl in *.
      + destruct Hl as (fs2 & file2 & ? & ? & ?). by eapply Hintro.
      + intros (fs2 & file2 & Htk & Hs & Hm)%Hinv.
        destruct (decide (file2 = file)) as [->|Hne].
        * apply takes_later, later_same in Htk as ->. done.
        * exact (Hl _ _ Htk Hs (or_introl Hne) Hm).
      + intros fs' file' Hlt (fs2 & file2 & Htk & Hs & Hm)%Hinv.
        destruct (decide (file2 = file)) as [->|Hne].
        * assert (later fs file fs2 file) as ->%later_same; [|done].
          by eapply later_trans, takes_later.
        * exact (Hl _ _ _ _ Hlt Htk Hs (or_introl Hne) Hm).
    - intros fs' file' Hlt (fs2 & file2 & Htk & Hs & Hm)%Hinv.
      eapply Hhere; [|exact Hm]. by eapply later_trans, takes_later. }
  destruct t; cbn [matches_from valid_tokens] in *.
  - apply (Hone (is_separator c)); [done| |done]. intros c' Ha Hs. by eapply chars_eq_separator.
  - by apply (Hone false).
  - by apply (Hseq false).
  - apply andb_true_iff in Hv as [-> Hv]. apply (Hseq true); [done| |done]. intros _. auto.
  - by apply (Hone false).
  - by apply (Hone false).
Qed.

End Meaning.

(** * Compiled patterns are valid *)

(** Whether a recursive wildcard may follow the tokens. *)
Definition next_start (b : bool) (t : pattern_token) : bool :=
  match t with
  | AnyRecursiveSequence => true
  | Char c => is_separator c
  | _ => false
  end.

Definition end_start (ts : list pattern_token) : bool := foldl next_start true ts.

Lemma valid_tokens_snoc b ts t :
  valid_tokens b (ts ++ [t]) =
    valid_tokens b ts &&
    match t with AnyRecursiveSequence => foldl next_start b ts | _ => true end.
Proof.
  revert b. induction ts as [|t' ts IH]; intros b; simpl.
  { destruct t; by rewrite ?andb_true_r. }
  destruct t'; simpl; rewrite IH; try done. by rewrite andb_assoc.
Qed.

Lemma end_start_snoc ts t : end_start (ts ++ [t]) = next_start (end_start ts) t.
Proof. unfold end_start. by rewrite foldl_app. Qed.

Lemma star_run_le s : (star_run s <= length s)%nat.
Proof. induction s as [|c s IH]; simpl; [lia|]. destruct (c =? c_star); lia. Qed.

Lemma parse_class_len rest t len : parse_class rest = Some (t, len) -> (0 < len)%nat.
Proof.
  unfold parse_class. intros E.
  destruct ((4 <=? length rest)%nat && _); [|destruct ((3 <=? length rest)%nat && _); [|done]];
    destruct (close_position _); simplify_eq/=; lia.
Qed.

Lemma parse_class_token rest t len :
  parse_class rest = Some (t, len) ->
  match t with AnyWithin _ | AnyExcept _ => True | _ => False end.
Proof.
  unfold parse_class. intros E.
  destruct ((4 <=? length rest)%nat && _); [|destruct ((3 <=? length rest)%nat && _); [|done]];
    destruct (close_position _); by simplify_eq/=.
Qed.

(** The state of the parser. *)
Definition parse_ok (prev : option char) (i : nat) (ts : list pattern_token) : Prop :=
  valid_tokens true ts = true /\ (i = 0%nat -> ts = []) /\
  (forall p, prev = Some p -> is_separator p = true -> end_start ts = true).

Lemma push_recursive_ok prev prev' i i' ts r ts' r' :
  parse_ok prev i ts -> (i + 2 = 2)%nat \/ (exists p, prev = Some p /\ is_separator p = true) ->
  push_recursive ts r = (ts', r') -> i' ≠ 0%nat -> parse_ok prev' i' ts'.
Proof.
  intros (Hv & Hi & Hp) Hat Hr Hi'. assert (end_start ts = true) as He.
  { destruct Hat as [Hat|(p & -> & Hs)]; [|by eapply Hp]. rewrite Hi by lia. done. }
  unfold push_recursive in Hr. case_match eqn:Hc; simplify_eq.
  - split; [done|]. split; [done|]. auto.
  - split; [by rewrite valid_tokens_snoc, Hv|]. split; [done|].
    intros p _ _. by rewrite end_start_snoc.
Qed.

Lemma parse_ok_push prev i c ts t i' :
  parse_ok prev i ts -> i' ≠ 0%nat ->
  (is_separator c = true -> next_start false t = true) ->
  match t with AnyRecursiveSequence => False | _ => True end ->
  parse_ok (Some c) i' (ts ++ [t]).
Proof.
  intros (Hv & Hi & Hp) Hi' Hc Ht. split; [|split; [done|]].
  - rewrite valid_tokens_snoc, Hv. by destruct t.
  - intros p [= <-] Hs%Hc. rewrite end_start_snoc. by destruct t.
Qed.

(** The messages of [Pattern::new]. *)
Definition known_error (e : pattern_error) : Prop :=
  msg e = ERROR_WILDCARDS \/ msg e = ERROR_RECURSIVE_WILDCARDS \/ msg e = ERROR_INVALID_RANGE.

Lemma parse_loop_ok n prev i rest ts r m :
  (length rest <= n)%nat -> parse_ok prev i ts ->
  match parse_loop n prev i rest ts r m with
  | inl e => known_error e
  | inr (ts', _, _) => valid_tokens true ts' = true
  end.
Proof.
  unfold known_error. revert prev i rest ts r m.
  induction n as [|n IH]; intros prev i rest ts r m Hn Hok; destruct rest as [|c tail];
    try (by apply Hok); simpl in Hn; [lia|]. cbn [parse_loop].
  destruct (c =? c_quest) eqn:Eq.
  { apply IH; [lia|]. apply (parse_ok_push prev i); try done. by apply Z.eqb_eq in Eq as ->. }
  destruct (c =? c_star) eqn:Es.
  { cbv zeta. pose proof (star_run_le (c :: tail)) as Hle.
    assert (0 < star_run (c :: tail))%nat as Hpos by (simpl; rewrite Es; lia).
    set (count := star_run (c :: tail)) in *. clearbody count.
    assert (length (drop count (c :: tail)) <= n)%nat as Hd by (rewrite length_drop; simpl; lia).
    destruct (count ?= 2)%nat eqn:Ec.
    - apply Nat.compare_eq in Ec as ->.
      destruct ((i + 2 =? 2)%nat || _) eqn:Ev; [|simpl; auto].
      assert ((i + 2 = 2)%nat \/ exists p, prev = Some p /\ is_separator p = true) as Hat.
      { apply orb_true_iff in Ev as [?%Nat.eqb_eq|Ev]; [auto|]. destruct prev; [eauto|done]. }
      destruct (drop 2 (c :: tail)) as [|s rest]; simpl in Hd;
        destruct (push_recursive ts r) as [ts' r'] eqn:Er.
      + apply IH; [simpl; lia|]. eapply push_recursive_ok; eauto. lia.
      + destruct (is_separator s); [|simpl; auto].
        apply IH; [lia|]. eapply push_recursive_ok; eauto.
    - apply IH; [done|]. apply (parse_ok_push prev i); try done. lia.
    - simpl. auto. }
  destruct (c =? c_open) eqn:Eo.
  { destruct (parse_class (c :: tail)) as [[t len]|] eqn:Ep; [|simpl; auto].
    apply parse_class_len in Ep as Hlen. apply parse_class_token in Ep.
    apply IH; [rewrite length_drop; simpl; lia|].
    apply (parse_ok_push prev i); try done; [lia|by destruct t]. }
  apply IH; [lia|]. by apply (parse_ok_push prev i).
Qed.

Lemma pattern_new_valid s p : pattern_new s = inr p -> valid_tokens true (tokens p) = true.
Proof.
  unfold pattern_new. intros E.
  pose proof (parse_loop_ok (length s) None 0 s [] false false (le_n _)) as H.
  destruct (parse_loop _ _ _ _ _ _ _) as [e|[[ts r] m]]; simplify_eq/=.
  apply H. split; [done|]. split; [done|]. by intros p.
Qed.

(** Compiling a pattern succeeds or fails with one of the three documented
    errors, and a compiled pattern matches a text exactly if its tokens do: the
    backtracking matcher, with its early exit when the text is exhausted, decides
    the meaning of the tokens for every setting of the options. *)
Theorem glob_matches_correct s :
  match pattern_new s with
  | inl e => known_error e
  | inr p => original p = s /\
      forall file o, matches_with p file o = true <-> matches_tokens o (tokens p) true file
  end.
Proof.
  destruct (pattern_new s) as [e|p] eqn:E.
  - unfold pattern_new in E.
    pose proof (parse_loop_ok (length s) None 0 s [] false false (le_n _)) as H.
    destruct (parse_loop _ _ _ _ _ _ _) as [e'|[[ts r] m]]; simplify_eq/=.
    apply H. split; [done|]. split; [done|]. by intros p.
  - split.
    { unfold pattern_new in E. by destruct (parse_loop _ _ _ _ _ _ _) as [|[[]]]; simplify_eq/=. }
    intros file o. unfold matches_with. rewrite bool_decide_eq_true.
    pose proof (matches_from_exact o true (tokens p) true file (pattern_new_valid _ _ E)
      (fun _ => or_introl eq_refl)) as Hx.
    split; intros Hm; [by rewrite Hm in Hx|].
    destruct (matches_from o (tokens p) true file); [done|by destruct Hx|].
    by destruct (Hx true file (later_refl _ _)).
Qed.
