(* ===== verification/Pattern.v ===== *)
(** Patterns compiled for the walk over a tree (josh-filter/src/pattern.rs) and the
    automaton that [remove_pattern] of josh-core/src/filter/tree.rs runs on the names of
    a path: the sets of active components as bit masks, their closure, the successor of
    a directory and the acceptance of a file.  The automaton accepts a path exactly if
    the whole pattern matches its text. *)

From S2P Require Import Prelude Glob.

Open Scope Z_scope.

(** [PATTERN_MATCH_OPTIONS]. *)
Definition PATTERN_MATCH_OPTIONS : match_options := MatchOptions true true true.

Inductive pattern_component :=
| Star2
| GlobC (p : pattern).

(** [CompiledPattern]. *)
Record compiled_pattern := CompiledPattern {
  full : pattern;
  pattern_components : list pattern_component;
  suffix_all_star : list bool;
  fallback : bool;
}.

(** One token of [split_pattern_components]; the state is the parts before the last
    one, and the last one. *)
Definition split_step (parts : list (list pattern_token) * list pattern_token)
    (t : pattern_token) : list (list pattern_token) * list pattern_token :=
  let '(closed, cur) := parts in
  match t with
  | Char c =>
      if c =? c_slash then (closed ++ [cur], []) else (closed, cur ++ [t])
  | AnyRecursiveSequence => (closed ++ [cur ++ [t]], [])
  | _ => (closed, cur ++ [t])
  end.

(** [split_pattern_components]. *)
Definition split_pattern_components (full : pattern) : list (list pattern_token) :=
  let '(closed, cur) := foldl split_step ([], []) (tokens full) in
  if bool_decide (cur = []) && bool_decide (last closed = Some [AnyRecursiveSequence])
  then closed
  else closed ++ [cur].

Definition component_of (part : list pattern_token) : pattern_component :=
  if bool_decide (part = [AnyRecursiveSequence]) then Star2 else GlobC (from_tokens part).

Definition is_star2 (c : pattern_component) : bool :=
  match c with Star2 => true | GlobC _ => false end.

(** The loop that fills [suffix_all_star], from the last component on. *)
Fixpoint suffix_stars (cs : list pattern_component) : list bool :=
  match cs with
  | [] => []
  | c :: cs =>
      let rest := suffix_stars cs in
      (is_star2 c && match rest with [] => true | b :: _ => b end) :: rest
  end.

(** [CompiledPattern::compile]. *)
Definition compile (s : list char) : pattern_error + compiled_pattern :=
  match pattern_new s with
  | inl e => inl e
  | inr full =>
      let components := component_of <$> split_pattern_components full in
      inr (CompiledPattern full components (suffix_stars components)
        (63 <? length components)%nat)
  end.

(** * The states of the walk *)

(** A state is a 64-bit mask. *)
Definition bit (p : nat) : Z := Z.shiftl 1 (Z.of_nat p).

Definition is_star2_at (cs : list pattern_component) (p : nat) : bool :=
  match cs !! p with Some Star2 => true | _ => false end.

(** [CompiledPattern::closure]. *)
Definition closure (cp : compiled_pattern) (state : Z) : Z :=
  let cs := pattern_components cp in
  foldl (fun state p =>
    if negb (Z.land state (bit p) =? 0) && is_star2_at cs p
    then Z.lor state (bit (p + 1)) else state)
    state (seq 0 (length cs - 1)).

(** [CompiledPattern::initial_state]. *)
Definition initial_state : Z := 1.

(** [u64::trailing_zeros] of a mask that is not zero. *)
Definition trailing_zeros (bits : Z) : nat :=
  match List.find (fun p => Z.testbit bits (Z.of_nat p)) (seq 0 64) with
  | Some p => p
  | None => 64
  end.

(** The loops [while bits != 0 { let p = bits.trailing_zeros(); bits &= bits - 1; ... }]:
    the positions they visit. *)
Fixpoint bit_positions (n : nat) (bits : Z) : list nat :=
  match n with
  | O => []
  | S n =>
      if bits =? 0 then []
      else trailing_zeros bits :: bit_positions n (Z.land bits (bits - 1))
  end.

Definition positions (state : Z) : list nat := bit_positions 64 state.

(** [!name.starts_with('.')]. *)
Definition starts_with_dot (name : list char) : bool :=
  match name with c :: _ => c =? c_dot | [] => false end.

(** Whether a position can accept a file of the current directory. *)
Definition accepts_blobs (cp : compiled_pattern) (state : Z) : bool :=
  let k := length (pattern_components cp) in
  foldl (fun acc p => acc ||
    match pattern_components cp !! p with
    | Some (GlobC _) => bool_decide (p = k - 1)%nat
    | Some Star2 => default false (suffix_all_star cp !! p)
    | None => false
    end) false (positions state).

(** The successor state for a directory. *)
Definition next_state (cp : compiled_pattern) (state : Z) (name : list char) : Z :=
  let k := length (pattern_components cp) in
  foldl (fun next p =>
    match pattern_components cp !! p with
    | Some (GlobC g) =>
        if (p + 1 <? k)%nat && matches_with g name PATTERN_MATCH_OPTIONS
        then Z.lor next (bit (p + 1)) else next
    | Some Star2 => if starts_with_dot name then next else Z.lor next (bit p)
    | None => next
    end) 0 (positions state).

(** Whether a file is kept. *)
Definition keep_blob (cp : compiled_pattern) (state : Z) (name : list char) : bool :=
  let k := length (pattern_components cp) in
  accepts_blobs cp state &&
  existsb (fun p =>
    match pattern_components cp !! p with
    | Some (GlobC g) => bool_decide (p = k - 1)%nat && matches_with g name PATTERN_MATCH_OPTIONS
    | Some Star2 => default false (suffix_all_star cp !! p) && negb (starts_with_dot name)
    | None => false
    end) (positions state).

(** The walk along one path from a closed state: whether the file at the path is
    kept. *)
Fixpoint walk_closed (cp : compiled_pattern) (state : Z) (names : list (list char)) : bool :=
  match names with
  | [] => false
  | [name] => keep_blob cp state name
  | name :: names =>
      let next := next_state cp state name in
      if next =? 0 then false else walk_closed cp (closure cp next) names
  end.

Definition walk (cp : compiled_pattern) (state : Z) (names : list (list char)) : bool :=
  walk_closed cp (closure cp state) names.

(** * The components of a pattern *)

(** A token that can stand inside a component. *)
Definition inner_token (t : pattern_token) : Prop :=
  match t with
  | Char c => c ≠ c_slash
  | AnyRecursiveSequence => False
  | _ => True
  end.

Definition comp_tokens (c : pattern_component) : list pattern_token :=
  match c with Star2 => [AnyRecursiveSequence] | GlobC g => tokens g end.

(** The tokens of a sequence of components. *)
Fixpoint to_tokens (cs : list pattern_component) : list pattern_token :=
  match cs with
  | [] => []
  | Star2 :: cs => AnyRecursiveSequence :: to_tokens cs
  | [GlobC g] => tokens g
  | GlobC g :: cs => tokens g ++ Char c_slash :: to_tokens cs
  end.

(** Components without separators; a final empty one does not follow [**]. *)
Fixpoint comps_ok (cs : list pattern_component) : Prop :=
  match cs with
  | [] => True
  | Star2 :: cs =>
      match cs with [GlobC g] => tokens g ≠ [] | _ => True end /\ comps_ok cs
  | GlobC g :: cs => Forall inner_token (tokens g) /\ comps_ok cs
  end.

Lemma comps_ok_tail c cs : comps_ok (c :: cs) -> comps_ok cs.
Proof. destruct c; by intros [_ ?]. Qed.

(** Tokens in the parts seen so far. *)
Definition closed_tokens (closed : list (list pattern_token)) : list pattern_token :=
  closed ≫= fun d => if bool_decide (d = [AnyRecursiveSequence]) then d else d ++ [Char c_slash].

Definition closed_ok (d : list pattern_token) : Prop :=
  d = [AnyRecursiveSequence] \/ Forall inner_token d.

Lemma inner_not_rec d : Forall inner_token d -> d ≠ [AnyRecursiveSequence].
Proof. intros Hd ->. apply Forall_cons in Hd as [[] _]. Qed.

Lemma split_inv ts closed cur :
  valid_tokens true ts = true -> foldl split_step ([], []) ts = (closed, cur) ->
  closed_tokens closed ++ cur = ts /\ Forall closed_ok closed /\ Forall inner_token cur /\
  (end_start ts = true -> cur = []).
Proof.
  revert closed cur. induction ts as [|t ts IH] using rev_ind; intros closed cur Hv E.
  { simplify_eq/=. by repeat constructor. }
  rewrite foldl_app in E. destruct (foldl split_step ([], []) ts) as [cl cu] eqn:E'.
  rewrite valid_tokens_snoc in Hv. apply andb_true_iff in Hv as [Hv Ht].
  destruct (IH cl cu Hv eq_refl) as (Htok & Hcl & Hcu & Hend). clear IH.
  rewrite end_start_snoc. cbn [foldl split_step] in E.
  assert (inner_token t -> (cl, cu ++ [t]) = (closed, cur) ->
    next_start (end_start ts) t = false ->
    closed_tokens closed ++ cur = ts ++ [t] /\ Forall closed_ok closed /\
    Forall inner_token cur /\ (next_start (end_start ts) t = true -> cur = [])) as Hpush.
  { intros Hin [= <- <-] Hnext. rewrite <- Htok, app_assoc. split; [done|].
    split; [done|]. split; [apply Forall_app; by repeat constructor|congruence]. }
  destruct t as [c| | | |l|l]; try (by apply Hpush).
  - destruct (c =? c_slash) eqn:Ec.
    + injection E as <- <-. apply Z.eqb_eq in Ec as ->. unfold closed_tokens.
      rewrite bind_app. simpl. rewrite bool_decide_false by (by apply inner_not_rec).
      rewrite !app_nil_r, app_assoc. fold (closed_tokens cl). rewrite Htok. split; [done|].
      split; [|by repeat constructor]. apply Forall_app. split; [done|]. constructor; [|done].
      by right.
    + apply Hpush; try done. by apply Z.eqb_neq.
  - injection E as <- <-. rewrite (Hend Ht) in Htok |- *. unfold closed_tokens.
    rewrite bind_app. simpl. rewrite !app_nil_r in *.
    fold (closed_tokens cl). rewrite Htok. split; [done|]. split; [|by repeat constructor].
    apply Forall_app. split; [done|]. constructor; [|done]. by left.
Qed.

Lemma component_of_rec : component_of [AnyRecursiveSequence] = Star2.
Proof. done. Qed.

Lemma component_of_inner d : Forall inner_token d -> component_of d = GlobC (from_tokens d).
Proof. intros Hd. unfold component_of. by rewrite bool_decide_false by (by apply inner_not_rec). Qed.

Lemma to_tokens_closed closed d :
  Forall closed_ok closed -> closed_ok d ->
  to_tokens (component_of <$> closed ++ [d]) = closed_tokens closed ++ d.
Proof.
  intros Hc Hd. induction Hc as [|e closed He Hc IH].
  - destruct Hd as [->|Hd]; [done|]. simpl. by rewrite component_of_inner.
  - cbn [app fmap list_fmap]. destruct He as [->|He].
    + rewrite component_of_rec. cbn [to_tokens]. rewrite IH. done.
    + rewrite component_of_inner by done. cbn [to_tokens].
      destruct (component_of <$> closed ++ [d]) eqn:E; [by destruct closed|].
      rewrite IH. unfold closed_tokens. simpl.
      rewrite bool_decide_false by (by apply inner_not_rec). by rewrite <- !app_assoc.
Qed.

Lemma comps_ok_closed closed d :
  Forall closed_ok closed -> closed_ok d ->
  (d = [] -> last closed ≠ Some [AnyRecursiveSequence]) ->
  comps_ok (component_of <$> closed ++ [d]).
Proof.
  intros Hc Hd Hl. induction Hc as [|e closed He Hc IH].
  - destruct Hd as [->|Hd]; [done|]. simpl. by rewrite component_of_inner.
  - cbn [app fmap list_fmap]. assert (comps_ok (component_of <$> closed ++ [d])) as Hok.
    { apply IH. intros E. specialize (Hl E). by destruct closed. }
    destruct He as [->|He]; [|by rewrite component_of_inner].
    rewrite component_of_rec. cbn [comps_ok]. split; [|done].
    destruct closed as [|e closed]; simpl; [|by destruct (component_of e), closed].
    destruct Hd as [->|Hd]; [done|]. rewrite component_of_inner by done. simpl. intros E.
    by destruct (Hl E).
Qed.

(** The components of a compiled pattern are its tokens. *)
Lemma compile_components s cp :
  compile s = inr cp ->
  pattern_new s = inr (full cp) /\
  to_tokens (pattern_components cp) = tokens (full cp) /\ comps_ok (pattern_components cp) /\
  pattern_components cp ≠ [] /\
  suffix_all_star cp = suffix_stars (pattern_components cp) /\
  fallback cp = (63 <? length (pattern_components cp))%nat.
Proof.
  unfold compile. destruct (pattern_new s) as [|p] eqn:Ep; [done|]. intros [= <-]. simpl.
  apply pattern_new_valid in Ep. unfold split_pattern_components.
  destruct (foldl split_step ([], []) (tokens p)) as [closed cur] eqn:E.
  apply split_inv in E as (Htok & Hcl & Hcu & _); [|done]. split; [done|].
  destruct (bool_decide (cur = [])) eqn:Ec; simpl.
  - apply bool_decide_eq_true in Ec as ->. rewrite app_nil_r in Htok.
    destruct (bool_decide (last closed = _)) eqn:El.
    + apply bool_decide_eq_true in El. apply last_Some in El as [cl ->].
      apply Forall_app in Hcl as [Hcl Hd]. apply Forall_cons in Hd as [Hd _].
      split; [|split; [by apply comps_ok_closed|split; [by destruct cl|done]]].
      rewrite to_tokens_closed by done. rewrite <- Htok. unfold closed_tokens.
      rewrite bind_app. done.
    + apply bool_decide_eq_false in El.
      split; [|split; [apply comps_ok_closed; [done|by right|done]|split; [by destruct closed|done]]].
      rewrite to_tokens_closed by (done || by right). by rewrite app_nil_r.
  - apply bool_decide_eq_false in Ec.
    split; [|split; [apply comps_ok_closed; [done|by right|done]|split; [by destruct closed|done]]].
    rewrite to_tokens_closed by (done || by right). done.
Qed.

(** * Components and the names of a path *)

Abbreviation opts := PATTERN_MATCH_OPTIONS.
Abbreviation no_sep n := (Forall (fun c => is_separator c = false) n).

(** The text of a path. *)
Fixpoint path_chars (names : list (list char)) : list char :=
  match names with
  | [] => []
  | [name] => name
  | name :: names => name ++ c_slash :: path_chars names
  end.

Lemma takes_false_no_sep fs n r fs' f' :
  no_sep n -> takes opts false fs (n ++ c_slash :: r) fs' f' ->
  exists n', f' = n' ++ c_slash :: r /\ takes opts false fs n fs' n' /\ no_sep n'.
Proof.
  intros Hn. revert fs. induction Hn as [|c n Hc Hn IH]; intros fs Ht; simpl in Ht.
  - inversion Ht; subst; [|done]. exists []. split; [done|]. split; [constructor|done].
  - inversion Ht as [|? ? ? ? ? Hd Hs Ht']; subst.
    + exists (c :: n). split; [done|]. split; [constructor|by constructor].
    + apply IH in Ht' as (n' & -> & Ht' & Hn'). exists n'. split; [done|].
      split; [by constructor|done].
Qed.

Lemma takes_app r fs n fs' n' x :
  takes opts r fs n fs' n' -> takes opts r fs (n ++ x) fs' (n' ++ x).
Proof. induction 1; simpl; by constructor. Qed.

Lemma takes_no_sep r fs n fs' n' : takes opts r fs n fs' n' -> no_sep n -> no_sep n'.
Proof. induction 1; [done|]. intros [_ ?]%Forall_cons. auto. Qed.

Lemma inner_not_slash t fs : inner_token t -> token_accepts opts fs t c_slash = false.
Proof.
  destruct t as [c| | | |l|l]; intros Hi; try done.
  change ((c_slash =? c) = false). apply Z.eqb_neq. intros E. by apply Hi.
Qed.

(** A component matches within a name. *)
Lemma comp_then_slash g ts fs n r :
  Forall inner_token g -> no_sep n ->
  matches_tokens opts (g ++ Char c_slash :: ts) fs (n ++ c_slash :: r) <->
  matches_tokens opts g fs n /\ matches_tokens opts ts true r.
Proof.
  intros Hg. revert fs n. induction Hg as [|t g Ht Hg IH]; intros fs n Hn; simpl.
  { split.
    - intros Hm. inversion Hm as [|? ? ? c ? Ha Hm' E1 E2 E3| |]; subst.
      destruct Hn as [|c' n Hc Hn]; simplify_eq/=; [split; [constructor|done]|].
      unfold chars_eq in Ha. simpl in Ha. apply Z.eqb_eq in Ha as ->. done.
    - intros [Hm Hr]. inversion Hm; subst. simpl. by constructor. }
  split.
  - intros Hm. inversion Hm as [|? ? ? c f Ha Hm' E1 E2 E3|? ? ? fs' f' Ht' Hm'|]; subst; [| |done].
    + destruct Hn as [|c' n Hc Hn]; simplify_eq/=.
      { by rewrite inner_not_slash in Ha. }
      apply IH in Hm' as [? ?]; [|done]. split; [by constructor|done].
    + apply takes_false_no_sep in Ht' as (n' & -> & Ht' & Hn'); [|done].
      apply IH in Hm' as [? ?]; [|done]. split; [by econstructor|done].
  - intros [Hm Hr]. inversion Hm as [|? ? ? c f Ha Hm' E1 E2 E3|? ? ? fs' f' Ht' Hm'|]; subst; [| |done].
    + apply Forall_cons in Hn as [Hc Hn]. simpl. constructor; [done|]. by apply IH.
    + eapply match_seq; [by apply takes_app|]. apply IH; [|done]. by eapply takes_no_sep.
Qed.

Lemma comp_no_slash g ts fs n :
  Forall inner_token g -> no_sep n -> ~ matches_tokens opts (g ++ Char c_slash :: ts) fs n.
Proof.
  intros Hg. revert fs n. induction Hg as [|t g Ht Hg IH]; intros fs n Hn Hm; simpl in Hm.
  - inversion Hm as [|? ? ? c ? Ha Hm' E1 E2 E3| |]; subst. apply Forall_cons in Hn as [Hc _].
    simpl in Ha. unfold chars_eq in Ha. simpl in Ha. apply Z.eqb_eq in Ha as ->. done.
  - inversion Hm as [|? ? ? c f Ha Hm' E1 E2 E3|? ? ? fs' f' Ht' Hm'|]; subst; [| |done].
    + apply Forall_cons in Hn as [_ Hn]. by eapply IH.
    + eapply IH; [|exact Hm']. by eapply takes_no_sep.
Qed.

Lemma comp_last g fs n r :
  Forall inner_token g -> no_sep n -> ~ matches_tokens opts g fs (n ++ c_slash :: r).
Proof.
  intros Hg. revert fs n. induction Hg as [|t g Ht Hg IH]; intros fs n Hn Hm.
  - inversion Hm as [? E| | |]; subst. by destruct n.
  - inversion Hm as [|? ? ? c f Ha Hm' E1 E2 E3|? ? ? fs' f' Ht' Hm'|]; subst; [| |done].
    + destruct Hn as [|c' n Hc Hn]; simplify_eq/=; [by rewrite inner_not_slash in Ha|].
      by eapply IH.
    + apply takes_false_no_sep in Ht' as (n' & -> & _ & Hn'); [|done]. by eapply IH.
Qed.

(** What [**] takes of a name that is followed by more of the path. *)
Lemma takes_rec_inside n r fs' f' :
  no_sep n -> takes opts true false (n ++ c_slash :: r) fs' f' -> fs' = true \/ f' = [] ->
  takes opts true true r fs' f'.
Proof.
  intros Hn. induction Hn as [|c n Hc Hn IH]; intros Ht Hst; simpl in Ht.
  - inversion Ht as [|? ? ? ? ? _ _ Ht']; subst; [by destruct Hst|done].
  - inversion Ht as [|? ? ? ? ? _ _ Ht']; subst; [by destruct Hst|].
    rewrite Hc in Ht'. by apply IH.
Qed.

Lemma dot_barred_start n c : dot_barred opts true c = false <-> starts_with_dot (c :: n) = false.
Proof. done. Qed.

Lemma rec_more ts n r :
  no_sep n -> n ≠ [] ->
  matches_tokens opts (AnyRecursiveSequence :: ts) true (n ++ c_slash :: r) <->
  matches_tokens opts ts true (n ++ c_slash :: r) \/
  (starts_with_dot n = false /\ matches_tokens opts (AnyRecursiveSequence :: ts) true r).
Proof.
  intros Hn Hne. destruct Hn as [|c n Hc Hn]; [done|]. clear Hne. split.
  - intros Hm. inversion Hm as [| | |? ? ? fs' f' Hs Ht Hst Hm']; subst; [done|].
    simpl in Ht. inversion Ht as [|? ? ? ? ? Hd _ Ht']; subst; [by left|]. right.
    split; [done|]. rewrite Hc in Ht'. apply takes_rec_inside in Ht'; [|done|done].
    econstructor; [by left|done|done|done].
  - intros [Hm|[Hd Hm]].
    + econstructor; [by left|constructor|by left|done].
    + inversion Hm as [| | |? ? ? fs' f' Hs Ht Hst Hm']; subst; [done|].
      econstructor; [by left| |done|done]. simpl. constructor; [done|done|]. rewrite Hc.
      clear - Hn Ht. induction Hn as [|c n Hc Hn IH]; simpl; (constructor; [done|done|]); [done|].
      by rewrite Hc.
Qed.

Lemma takes_rec_rest n fs' f' :
  no_sep n -> takes opts true false n fs' f' -> fs' = true \/ f' = [] -> fs' = false /\ f' = [].
Proof.
  intros Hn. induction Hn as [|c n Hc Hn IH]; intros Ht Hst.
  - by inversion Ht.
  - inversion Ht as [|? ? ? ? ? _ _ Ht']; subst; [by destruct Hst|].
    rewrite Hc in Ht'. by apply IH.
Qed.

Lemma takes_rec_all n r : no_sep n -> takes opts r false n false [].
Proof.
  induction 1 as [|c n Hc Hn IH]; constructor; [done| |by rewrite Hc].
  rewrite Hc. by rewrite andb_false_r.
Qed.

Lemma rec_last ts n :
  no_sep n -> n ≠ [] ->
  matches_tokens opts (AnyRecursiveSequence :: ts) true n <->
  matches_tokens opts ts true n \/ (starts_with_dot n = false /\ matches_tokens opts ts false []).
Proof.
  intros Hn Hne. destruct Hn as [|c n Hc Hn]; [done|]. clear Hne. split.
  - intros Hm. inversion Hm as [| | |? ? ? fs' f' Hs Ht Hst Hm']; subst; [done|].
    inversion Ht as [|? ? ? ? ? Hd _ Ht']; subst; [by left|]. right. rewrite Hc in Ht'.
    apply takes_rec_rest in Ht' as [-> ->]; [|done|done]. done.
  - intros [Hm|[Hd Hm]].
    + econstructor; [by left|constructor|by left|done].
    + econstructor; [by left| |by right|done]. constructor; [done|done|]. rewrite Hc.
      by apply takes_rec_all.
Qed.

(** Wildcards that match the empty rest match any name without a leading dot. *)
Lemma empty_rest ts n :
  no_sep n -> n ≠ [] -> starts_with_dot n = false -> ts ≠ [] ->
  matches_tokens opts ts false [] -> matches_tokens opts ts true n.
Proof.
  intros Hn Hne Hd Hts Hm. destruct Hn as [|c n Hc Hn]; [done|].
  assert (forall r, takes opts r true (c :: n) false []) as Htk.
  { intros r. constructor; [done|by rewrite Hc, andb_false_r|]. rewrite Hc. by apply takes_rec_all. }
  inversion Hm as [| |? ? ? fs' f' Ht Hm'|? ? ? fs' f' Hs Ht Hst Hm']; subst; [done| |].
  - inversion Ht; subst. by eapply match_seq.
  - inversion Ht; subst. eapply match_rec; [by left|done|by right|done].
Qed.

(** What a sequence of components matches, name by name. *)
Fixpoint cmatch (cs : list pattern_component) : list (list char) -> bool :=
  match cs with
  | [] => fun _ => false
  | GlobC g :: cs => fun names =>
      match names with
      | [] => false
      | [n] => match cs with [] => matches_with g n opts | _ => false end
      | n :: rest => matches_with g n opts && cmatch cs rest
      end
  | Star2 :: cs => fix go names :=
      cmatch cs names ||
      match names with
      | [] => false
      | [n] => forallb is_star2 cs && negb (starts_with_dot n)
      | n :: rest => negb (starts_with_dot n) && go rest
      end
  end.

Definition name_ok (n : list char) : Prop := no_sep n /\ n ≠ [].

Lemma inner_valid b ts : Forall inner_token ts -> valid_tokens b ts = true.
Proof.
  intros Hts. revert b. induction Hts as [|t ts Ht _ IH]; intros b; [done|].
  destruct t; simpl; auto.
Qed.

Lemma matches_exact b p file o :
  valid_tokens true (tokens p) = true -> b = true ->
  matches_with p file o = true <-> matches_tokens o (tokens p) b file.
Proof.
  intros Hv ->. unfold matches_with. rewrite bool_decide_eq_true.
  pose proof (matches_from_exact o true (tokens p) true file Hv (fun _ => or_introl eq_refl)) as Hx.
  split; intros Hm; [by rewrite Hm in Hx|].
  destruct (matches_from o (tokens p) true file); [done|by destruct Hx|].
  by destruct (Hx true file (later_refl _ _)).
Qed.

Lemma stars_empty cs : forallb is_star2 cs = true -> matches_tokens opts (to_tokens cs) false [].
Proof.
  induction cs as [|[|g] cs IH]; intros Hs; [constructor| |done]. simpl.
  econstructor; [by right|constructor|by right|]. by apply IH.
Qed.

Lemma to_tokens_nil cs :
  comps_ok (Star2 :: cs) -> to_tokens cs = [] -> cs = [].
Proof.
  intros [Hl Hok] E. destruct cs as [|[|g] [|c cs]]; try done; simpl in *.
  by destruct (tokens g).
Qed.

Lemma cmatch_iff cs names :
  comps_ok cs -> cs ≠ [] -> names ≠ [] -> Forall name_ok names ->
  cmatch cs names = true <-> matches_tokens opts (to_tokens cs) true (path_chars names).
Proof.
  intros Hok. revert names. induction cs as [|[|g] cs IH]; [done|..].
  - intros names _ Hne Hn. pose proof (comps_ok_tail _ _ Hok) as Hok'. specialize (IH Hok').
    induction Hn as [|n names [Hs Hnn] Hn IHn]; [done|]. cbn [to_tokens].
    destruct names as [|n2 names].
    + cbn [cmatch path_chars]. rewrite rec_last by done.
      rewrite orb_true_iff, andb_true_iff, negb_true_iff.
      destruct (decide (cs = [])) as [->|Hcs].
      { simpl. split; [intros [?|[_ ?]]; [done|]; right; split; [done|constructor]|].
        intros [Hm|[? _]]; [inversion Hm; by subst|by right]. }
      rewrite IH; [|done|done|by repeat constructor]. cbn [path_chars]. split.
      * intros [?|[Hst ?]]; [by left|]. right. split; [done|]. by apply stars_empty.
      * intros [?|[Hd Hm]]; [by left|]. left. apply empty_rest; try done.
        intros E. by apply to_tokens_nil in E.
    + specialize (IHn ltac:(done)). cbn [to_tokens] in IHn.
      change (path_chars (n :: n2 :: names)) with (n ++ c_slash :: path_chars (n2 :: names)).
      rewrite rec_more by done. rewrite <- IHn.
      assert (cmatch (Star2 :: cs) (n :: n2 :: names) =
        cmatch cs (n :: n2 :: names) ||
        (negb (starts_with_dot n) && cmatch (Star2 :: cs) (n2 :: names))) as -> by done.
      rewrite orb_true_iff, andb_true_iff, negb_true_iff.
      destruct (decide (cs = [])) as [->|Hcs].
      { simpl. assert (~ matches_tokens opts [] true (n ++ c_slash :: path_chars (n2 :: names)))
          as Hno by (inversion 1; by destruct n). naive_solver. }
      rewrite IH; [done|done|done|constructor; [by split|done]].
  - intros names _ Hne Hn. destruct Hok as [Hg Hok']. specialize (IH Hok').
    assert (forall n, matches_with g n opts = true <-> matches_tokens opts (tokens g) true n) as Hgm.
    { intros n. apply matches_exact; [by apply inner_valid|done]. }
    destruct Hn as [|n names [Hs Hnn] Hn]; [done|]. destruct names as [|n2 names].
    + destruct cs as [|c cs]; [apply Hgm|]. cbn [cmatch]. split; [done|].
      intros Hm. change (to_tokens (GlobC g :: c :: cs))
        with (tokens g ++ Char c_slash :: to_tokens (c :: cs)) in Hm.
      by apply comp_no_slash in Hm.
    + change (path_chars (n :: n2 :: names)) with (n ++ c_slash :: path_chars (n2 :: names)).
      change (cmatch (GlobC g :: cs) (n :: n2 :: names))
        with (matches_with g n opts && cmatch cs (n2 :: names)).
      rewrite andb_true_iff, Hgm. destruct cs as [|c cs].
      { split; [by intros [_ ?]|]. intros Hm. by apply comp_last in Hm. }
      change (to_tokens (GlobC g :: c :: cs))
        with (tokens g ++ Char c_slash :: to_tokens (c :: cs)).
      rewrite comp_then_slash by done. rewrite IH by done. done.
Qed.

(** * Bit masks *)

Abbreviation has_bit s p := (Z.testbit s (Z.of_nat p) = true).

Lemma testbit_bit p q : Z.testbit (bit p) (Z.of_nat q) = bool_decide (q = p).
Proof.
  unfold bit. rewrite Z.shiftl_1_l, Z.pow2_bits_eqb by lia.
  destruct (decide (q = p)) as [->|]; [rewrite bool_decide_true by done; lia|].
  rewrite bool_decide_false by done. lia.
Qed.

Lemma has_bit_lor s p q : has_bit (Z.lor s (bit p)) q <-> has_bit s q \/ q = p.
Proof. by rewrite Z.lor_spec, orb_true_iff, testbit_bit, bool_decide_eq_true. Qed.

Lemma test_land_bit s p : negb (Z.land s (bit p) =? 0) = Z.testbit s (Z.of_nat p).
Proof.
  destruct (Z.testbit s (Z.of_nat p)) eqn:E.
  - apply negb_true_iff, Z.eqb_neq. intros H.
    assert (Z.testbit (Z.land s (bit p)) (Z.of_nat p) = true) as H'.
    { by rewrite Z.land_spec, E, testbit_bit, bool_decide_true. }
    by rewrite H, Z.testbit_0_l in H'.
  - apply negb_false_iff, Z.eqb_eq, Z.bits_inj_0. intros n. rewrite Z.land_spec.
    destruct (decide (n < 0)) as [Hn|Hn]; [by rewrite Z.testbit_neg_r|].
    rewrite <- (Z2Nat.id n) by lia. rewrite testbit_bit. case_bool_decide as Hp; subst.
    + by rewrite E.
    + by rewrite andb_false_r.
Qed.

Lemma no_bits s : 0 <= s -> (forall p, ~ has_bit s p) -> s = 0.
Proof.
  intros Hs Hb. apply Z.bits_inj_0. intros n.
  destruct (decide (n < 0)); [by apply Z.testbit_neg_r|].
  rewrite <- (Z2Nat.id n) by lia. apply not_true_iff_false, Hb.
Qed.

(** [bits & (bits - 1)] clears the lowest bit. *)
Lemma clear_lowest b p q :
  has_bit b p -> (forall i, (i < p)%nat -> ~ has_bit b i) ->
  has_bit (Z.land b (b - 1)) q <-> has_bit b q /\ q ≠ p.
Proof.
  intros Hp Hlow. set (P := Z.of_nat p).
  assert (b mod 2 ^ P = 0) as Hm.
  { apply Z.bits_inj_0. intros n. destruct (decide (n < 0)); [by apply Z.testbit_neg_r|].
    destruct (decide (n < P)); [|by apply Z.mod_pow2_bits_high; lia].
    rewrite Z.mod_pow2_bits_low by done. rewrite <- (Z2Nat.id n) by lia.
    apply not_true_iff_false, Hlow. lia. }
  assert (Z.odd (b / 2 ^ P) = true) as Ho.
  { rewrite <- Z.bit0_odd, Z.div_pow2_bits by lia. by rewrite Z.add_0_l. }
  apply Z.odd_spec in Ho as [d Hd].
  assert (b = 2 ^ P * (2 * d + 1)) as Hb.
  { rewrite (Z.div_mod b (2 ^ P)) by lia. rewrite Hm, Hd. lia. }
  assert (0 < 2 ^ P) as Hpos by (apply Z.pow_pos_nonneg; lia).
  assert (2 ^ (P + 1) = 2 * 2 ^ P) as Hpow by (rewrite Z.pow_add_r by lia; lia).
  rewrite Z.land_spec, andb_true_iff.
  destruct (lt_eq_lt_dec q p) as [[Hq|Hq]|Hq].
  - specialize (Hlow q Hq). naive_solver.
  - subst q. split; [|naive_solver]. intros [_ H]. exfalso.
    assert ((b - 1) / 2 ^ P = 2 * d) as E.
    { symmetry. apply (Z.div_unique _ _ _ (2 ^ P - 1)); lia. }
    rewrite <- (Z.add_0_l (Z.of_nat p)), <- Z.div_pow2_bits in H by lia.
    fold P in H. rewrite E, Z.bit0_odd, Z.odd_mul in H. done.
  - split; [intros [? _]; split; [done|lia]|]. intros [H _]. split; [done|].
    assert (Z.of_nat q = (Z.of_nat q - (P + 1)) + (P + 1)) as Eq by lia.
    rewrite Eq, <- Z.div_pow2_bits in H |- * by lia.
    assert (b / 2 ^ (P + 1) = d) as E1.
    { symmetry. apply (Z.div_unique _ _ _ (2 ^ P)); lia. }
    assert ((b - 1) / 2 ^ (P + 1) = d) as E2.
    { symmetry. apply (Z.div_unique _ _ _ (2 ^ P - 1)); lia. }
    by rewrite E2, <- E1.
Qed.

Lemma trailing_zeros_spec b p :
  has_bit b p -> (p < 64)%nat ->
  has_bit b (trailing_zeros b) /\ (trailing_zeros b < 64)%nat /\
  forall i, (i < trailing_zeros b)%nat -> ~ has_bit b i.
Proof.
  intros Hp Hlt. unfold trailing_zeros.
  assert (forall a n, (exists q, (a <= q < a + n)%nat /\ has_bit b q) ->
    (forall i, (i < a)%nat -> ~ has_bit b i) ->
    exists r, List.find (fun p => Z.testbit b (Z.of_nat p)) (seq a n) = Some r /\
      has_bit b r /\ (r < a + n)%nat /\ forall i, (i < r)%nat -> ~ has_bit b i) as Hf.
  { intros a n. revert a. induction n as [|n IH]; intros a (q & Hq & Hb) Hlow; [lia|]. simpl.
    destruct (Z.testbit b (Z.of_nat a)) eqn:Ea.
    { exists a. split; [done|]. split; [done|]. split; [lia|done]. }
    destruct (IH (S a)) as (r & Er & Hr & Hlt' & Hmin).
    - exists q. split; [|done]. destruct (decide (q = a)) as [->|]; [congruence|lia].
    - intros i Hi. destruct (decide (i = a)) as [->|]; [congruence|]. apply Hlow. lia.
    - exists r. split; [done|]. split; [done|]. split; [lia|done]. }
  destruct (Hf 0%nat 64%nat) as (r & -> & Hr & Hlt' & Hmin); [exists p; split; [lia|done]|lia|].
  done.
Qed.

(** The loops over the bits visit the bits. *)
Lemma elem_of_bit_positions n b p :
  0 <= b -> (forall q, has_bit b q -> (64 - n <= q < 64)%nat) -> (n <= 64)%nat ->
  p ∈ bit_positions n b <-> has_bit b p.
Proof.
  revert b. induction n as [|n IH]; intros b Hb Hr Hn; simpl.
  { split; [by intros ?%not_elem_of_nil|]. intros Hp%Hr. lia. }
  destruct (b =? 0) eqn:E0.
  { apply Z.eqb_eq in E0 as ->. rewrite Z.testbit_0_l. split; [by intros ?%not_elem_of_nil|done]. }
  assert (exists q, has_bit b q) as (q & Hq).
  { apply Z.eqb_neq in E0.
    exists (Z.to_nat (Z.log2 b)). rewrite Z2Nat.id by apply Z.log2_nonneg.
    apply Z.bit_log2. lia. }
  destruct (trailing_zeros_spec b q Hq) as (Ht & Htl & Hmin); [apply Hr in Hq; lia|].
  pose proof (Hr _ Ht) as Hrt. rewrite elem_of_cons, IH.
  - rewrite (clear_lowest b (trailing_zeros b)) by done.
    destruct (decide (p = trailing_zeros b)) as [->|]; naive_solver.
  - by apply Z.land_nonneg; left.
  - intros i Hi. apply (clear_lowest b (trailing_zeros b)) in Hi as [Hi Hne]; [|done|done].
    pose proof (Hr _ Hi). destruct (decide (i < trailing_zeros b)%nat) as [Hlt|]; [|lia].
    by apply Hmin in Hlt.
  - lia.
Qed.

(** The masks of a pattern with [k] components. *)
Definition state_ok (k : nat) (s : Z) : Prop := 0 <= s /\ forall p, has_bit s p -> (p < k)%nat.

Lemma elem_of_positions k s p : (k <= 63)%nat -> state_ok k s -> p ∈ positions s <-> has_bit s p.
Proof.
  intros Hk [Hs Hb]. apply elem_of_bit_positions; [done| |lia]. intros q Hq%Hb. lia.
Qed.

Lemma state_ok_lor k s p : state_ok k s -> (p < k)%nat -> state_ok k (Z.lor s (bit p)).
Proof.
  intros [Hs Hb] Hp. split.
  - apply Z.lor_nonneg. split; [done|]. unfold bit. apply Z.shiftl_nonneg. lia.
  - intros q [Hq| ->]%has_bit_lor; auto.
Qed.

(** * The automaton *)

Section Automaton.
Context (cp : compiled_pattern).
Abbreviation cs := (pattern_components cp).
Abbreviation k := (length cs).
Context (few : (k <= 63)%nat).
Context (stars : suffix_all_star cp = suffix_stars cs).

(** A mask accepts the names if one of its positions does. *)
Definition accepts (s : Z) (names : list (list char)) : Prop :=
  exists p, has_bit s p /\ cmatch (drop p cs) names = true.

Lemma cmatch_drop p names :
  cmatch (drop p cs) names = true -> exists c, cs !! p = Some c /\ drop p cs = c :: drop (S p) cs.
Proof.
  intros Hm. destruct (cs !! p) as [c|] eqn:E.
  - exists c. split; [done|]. by apply drop_S.
  - apply lookup_ge_None in E. by rewrite drop_ge in Hm.
Qed.

Lemma cmatch_star c names : cmatch (drop (S c) cs) names = true -> is_star2_at cs c = true ->
  cmatch (drop c cs) names = true.
Proof.
  unfold is_star2_at. intros Hm Hs. destruct (cs !! c) as [[|]|] eqn:E; try done.
  rewrite (drop_S _ _ _ E). destruct names; cbn [cmatch]; by rewrite Hm.
Qed.

(** Invariant of the loop of [closure] before position [j]. *)
Definition closed_to (s : Z) (j : nat) (c : Z) : Prop :=
  state_ok k c /\ (forall p, has_bit s p -> has_bit c p) /\
  (forall names, accepts c names -> accepts s names) /\
  forall p, (p < j)%nat -> has_bit c p -> is_star2_at cs p = true -> has_bit c (p + 1).

Lemma closure_loop s j :
  state_ok k s -> (j <= k - 1)%nat ->
  closed_to s j (foldl (fun state p =>
    if negb (Z.land state (bit p) =? 0) && is_star2_at cs p
    then Z.lor state (bit (p + 1)) else state) s (seq 0 j)).
Proof.
  intros Hs. induction j as [|j IH]; intros Hj.
  { split; [done|]. split; [done|]. split; [done|]. lia. }
  rewrite seq_S, foldl_app. simpl. set (c := foldl _ s (seq 0 j)) in *.
  destruct IH as (Hok & Hsub & Hacc & Hcl); [lia|]. clearbody c.
  rewrite test_land_bit. destruct (Z.testbit c (Z.of_nat j) && is_star2_at cs j) eqn:E.
  - apply andb_true_iff in E as [Hb Hst]. split; [apply state_ok_lor; [done|lia]|].
    split; [intros p Hp; apply has_bit_lor; auto|]. split.
    + intros names (p & [Hp| ->]%has_bit_lor & Hm); apply Hacc; [by exists p|].
      exists j. split; [done|]. apply cmatch_star; [|done].
      by replace (S j) with (j + 1)%nat by lia.
    + intros p Hp [Hb'| ->]%has_bit_lor Hs'; [|lia]. apply has_bit_lor.
      destruct (decide (p = j)) as [->|]; [by right|]. left. apply Hcl; [lia|done|done].
  - split; [done|]. split; [done|]. split; [done|].
    intros p Hp Hb Hs'. destruct (decide (p = j)) as [->|]; [|apply Hcl; [lia|done|done]].
    by rewrite Hb, Hs' in E.
Qed.

(** The closure adds what [**] can skip, and nothing else. *)
Lemma closure_spec s : state_ok k s -> closed_to s (k - 1) (closure cp s).
Proof. intros Hs. by apply closure_loop. Qed.

Lemma accepts_closure s names : state_ok k s -> accepts (closure cp s) names <-> accepts s names.
Proof.
  intros Hs. destruct (closure_spec s Hs) as (_ & Hsub & Hacc & _). split; [apply Hacc|].
  intros (p & Hp & Hm). exists p. auto.
Qed.

(** A closed mask: [**] is never active without its successor. *)
Definition closed_state (c : Z) : Prop :=
  state_ok k c /\
  forall p, (p + 1 < k)%nat -> has_bit c p -> is_star2_at cs p = true -> has_bit c (p + 1).

Lemma closure_closed s : state_ok k s -> closed_state (closure cp s).
Proof.
  intros Hs. destruct (closure_spec s Hs) as (Hok & _ & _ & Hcl). split; [done|].
  intros p Hp. apply Hcl. lia.
Qed.

Lemma foldl_lor (f : nat -> option nat) l acc q :
  has_bit (foldl (fun s p => match f p with Some r => Z.lor s (bit r) | None => s end) acc l) q <->
  has_bit acc q \/ exists p, p ∈ l /\ f p = Some q.
Proof.
  revert acc. induction l as [|p l IH]; intros acc; simpl.
  { split; [by left|]. intros [?|(p & ?%not_elem_of_nil & _)]; done. }
  rewrite IH. setoid_rewrite elem_of_cons. destruct (f p) as [r|] eqn:Ef.
  - rewrite has_bit_lor. naive_solver.
  - naive_solver.
Qed.

(** The successor of a position. *)
Definition successor (name : list char) (p : nat) : option nat :=
  match cs !! p with
  | Some (GlobC g) =>
      if (p + 1 <? k)%nat && matches_with g name opts then Some (p + 1)%nat else None
  | Some Star2 => if starts_with_dot name then None else Some p
  | None => None
  end.

Lemma next_state_foldl s name :
  next_state cp s name =
    foldl (fun s p => match successor name p with Some r => Z.lor s (bit r) | None => s end)
      0 (positions s).
Proof.
  unfold next_state. generalize 0 as acc. induction (positions s) as [|p l IH]; intros acc; [done|].
  simpl. rewrite IH. f_equal. unfold successor. destruct (cs !! p) as [[|g]|]; [| |done].
  - by destruct (starts_with_dot name).
  - by destruct ((p + 1 <? k)%nat && matches_with g name opts).
Qed.

Lemma has_bit_next s name q :
  state_ok k s ->
  has_bit (next_state cp s name) q <-> exists p, has_bit s p /\ successor name p = Some q.
Proof.
  intros Hs. rewrite next_state_foldl, foldl_lor, Z.testbit_0_l.
  setoid_rewrite (elem_of_positions k); [|done|done]. naive_solver.
Qed.

Lemma next_state_ok s name : state_ok k s -> state_ok k (next_state cp s name).
Proof.
  intros Hs. split.
  - rewrite next_state_foldl. assert (0 <= 0) as H0 by lia. revert H0. generalize 0 at 2 4 as acc.
    induction (positions s) as [|p l IH]; intros acc Hacc; simpl; [done|]. apply IH.
    destruct (successor name p); [|done]. apply Z.lor_nonneg. split; [done|].
    unfold bit. apply Z.shiftl_nonneg. lia.
  - intros q (p & Hp & Hq)%has_bit_next; [|done]. unfold successor in Hq.
    apply Hs in Hp. destruct (cs !! p) as [[|g]|]; [|destruct ((p + 1 <? k)%nat) eqn:E|done].
    + destruct (starts_with_dot name); by simplify_eq.
    + apply Nat.ltb_lt in E. simpl in Hq. case_match; simplify_eq. lia.
    + done.
Qed.

(** A position that accepts the names has a successor that accepts the rest. *)
Lemma accepts_next c name rest :
  closed_state c -> rest ≠ [] ->
  accepts c (name :: rest) <-> accepts (next_state cp c name) rest.
Proof.
  intros [Hok Hcl] Hne. destruct rest as [|n2 rest]; [done|]. split.
  - intros (p & Hp & Hm). remember (k - p)%nat as d eqn:Ed. revert p Ed Hp Hm.
    induction d as [|d IH]; intros p Ed Hp Hm; pose proof (proj2 Hok p Hp) as Hlt; [lia|].
    destruct (cmatch_drop _ _ Hm) as (x & Hx & E). rewrite E in Hm. destruct x as [|g].
    + cbn [cmatch] in Hm. apply orb_true_iff in Hm as [Hm|[Hd%negb_true_iff Hm]%andb_true_iff].
      * destruct (cmatch_drop _ _ Hm) as (x' & Hx' & _). apply lookup_lt_Some in Hx'.
        apply (IH (S p)); [lia| |done]. replace (S p) with (p + 1)%nat by lia.
        apply Hcl; [lia|done|]. unfold is_star2_at. by rewrite Hx.
      * exists p. rewrite has_bit_next by done. split; [|by rewrite E].
        exists p. unfold successor. by rewrite Hx, Hd.
    + cbn [cmatch] in Hm. apply andb_true_iff in Hm as [Hg Hm].
      destruct (cmatch_drop _ _ Hm) as (x' & Hx' & _). apply lookup_lt_Some in Hx'.
      exists (p + 1)%nat. rewrite has_bit_next by done.
      split; [|by replace (p + 1)%nat with (S p) by lia].
      exists p. split; [done|]. unfold successor. rewrite Hx, Hg.
      destruct (p + 1 <? k)%nat eqn:El; [done|]. apply Nat.ltb_ge in El. lia.
  - intros (q & (p & Hp & Hs)%has_bit_next & Hm); [|done]. exists p. split; [done|].
    unfold successor in Hs. destruct (cs !! p) as [[|g]|] eqn:Hx; [| |done].
    + destruct (starts_with_dot name) eqn:Hd; simplify_eq. rewrite (drop_S _ _ _ Hx) in Hm |- *.
      cbn [cmatch]. rewrite Hd. apply orb_true_iff. right. exact Hm.
    + destruct ((p + 1 <? k)%nat && matches_with g name opts) eqn:E; simplify_eq.
      apply andb_true_iff in E as [_ Hg]. rewrite (drop_S _ _ _ Hx). cbn [cmatch].
      rewrite Hg. by replace (S p) with (p + 1)%nat by lia.
Qed.

Lemma suffix_stars_spec l p :
  (p < length l)%nat -> suffix_stars l !! p = Some (forallb is_star2 (drop p l)).
Proof.
  revert p. induction l as [|c l IH]; intros p Hp; simpl in Hp; [lia|].
  destruct p as [|p]; simpl; [|apply IH; lia]. f_equal. f_equal.
  destruct l as [|d l]; [done|]. specialize (IH 0%nat ltac:(simpl; lia)).
  rewrite drop_0 in IH. simpl in IH |- *. by injection IH as ->.
Qed.

(** The position accepts a file of this name. *)
Definition accepts_file (name : list char) (p : nat) : bool :=
  match cs !! p with
  | Some (GlobC g) => bool_decide (p = k - 1)%nat && matches_with g name opts
  | Some Star2 => default false (suffix_all_star cp !! p) && negb (starts_with_dot name)
  | None => false
  end.

Lemma foldl_orb (f : nat -> bool) l acc :
  foldl (fun acc p => acc || f p) acc l = acc || existsb f l.
Proof.
  revert acc. induction l as [|p l IH]; intros acc; simpl; [by rewrite orb_false_r|].
  by rewrite IH, orb_assoc.
Qed.

Lemma keep_blob_spec s name :
  state_ok k s -> keep_blob cp s name = true <-> exists p, has_bit s p /\ accepts_file name p = true.
Proof.
  intros Hs. unfold keep_blob, accepts_blobs. rewrite foldl_orb.
  rewrite andb_true_iff, !orb_false_l, !existsb_exists.
  assert (forall p, In p (positions s) <-> has_bit s p) as Hin.
  { intros p. rewrite <- list_elem_of_In. by apply (elem_of_positions k). }
  setoid_rewrite Hin. split; [by intros [_ ?]|]. intros (p & Hp & Ha). split; [|by exists p].
  exists p. split; [done|]. unfold accepts_file in Ha.
  destruct (cs !! p) as [[|g]|]; [..|done]; by apply andb_true_iff in Ha as [? _].
Qed.

Lemma accepts_file_spec c name :
  closed_state c ->
  accepts c [name] <-> exists p, has_bit c p /\ accepts_file name p = true.
Proof.
  intros [Hok Hcl]. unfold accepts_file. split.
  - intros (p & Hp & Hm). remember (k - p)%nat as d eqn:Ed. revert p Ed Hp Hm.
    induction d as [|d IH]; intros p Ed Hp Hm; pose proof (proj2 Hok p Hp) as Hlt; [lia|].
    destruct (cmatch_drop _ _ Hm) as (x & Hx & E). rewrite E in Hm. destruct x as [|g].
    + cbn [cmatch] in Hm. apply orb_true_iff in Hm as [Hm|[Hst Hd]%andb_true_iff].
      * destruct (cmatch_drop _ _ Hm) as (x' & Hx' & _). apply lookup_lt_Some in Hx'.
        apply (IH (S p)); [lia| |done]. replace (S p) with (p + 1)%nat by lia.
        apply Hcl; [lia|done|]. unfold is_star2_at. by rewrite Hx.
      * exists p. split; [done|]. rewrite Hx, stars, suffix_stars_spec, E by done. simpl.
        by rewrite Hst, Hd.
    + exists p. split; [done|]. rewrite Hx. cbn [cmatch] in Hm.
      destruct (drop (S p) cs) eqn:Ed'; [|done]. apply (f_equal length) in Ed'.
      rewrite length_drop in Ed'. simpl in Ed'. rewrite bool_decide_true by lia. done.
  - intros (p & Hp & Ha). exists p. split; [done|]. pose proof (proj2 Hok p Hp) as Hlt.
    destruct (cs !! p) as [[|g]|] eqn:Hx; [| |done]; rewrite (drop_S _ _ _ Hx).
    + rewrite stars, suffix_stars_spec, (drop_S _ _ _ Hx) in Ha by done. cbn [cmatch].
      simpl in Ha. rewrite Ha. by rewrite orb_true_r.
    + apply andb_true_iff in Ha as [He%bool_decide_eq_true Hg]. cbn [cmatch].
      rewrite drop_ge by lia. done.
Qed.

(** The walk accepts what its state accepts. *)
Lemma walk_accepts s names :
  state_ok k s -> names ≠ [] -> walk cp s names = true <-> accepts s names.
Proof.
  revert s. induction names as [|n names IH]; intros s Hs Hne; [done|].
  unfold walk in *. cbn [walk_closed].
  pose proof (closure_closed s Hs) as Hcl. rewrite <- (accepts_closure s) by done.
  destruct names as [|n2 names].
  - rewrite keep_blob_spec by apply Hcl. by rewrite accepts_file_spec.
  - rewrite accepts_next by done. pose proof (next_state_ok _ n (proj1 Hcl)) as Hn.
    destruct (next_state cp (closure cp s) n =? 0) eqn:E; [|by apply IH].
    apply Z.eqb_eq in E. rewrite E. split; [done|]. intros (p & Hp & _).
    by rewrite Z.testbit_0_l in Hp.
Qed.

End Automaton.

Lemma initial_state_ok k : (0 < k)%nat -> state_ok k initial_state.
Proof.
  intros Hk. split; [unfold initial_state; lia|]. intros p Hp.
  change initial_state with (bit 0) in Hp. rewrite testbit_bit in Hp.
  apply bool_decide_eq_true in Hp as ->. done.
Qed.

Lemma walk_matches s cp names :
  compile s = inr cp -> fallback cp = false -> names ≠ [] -> Forall name_ok names ->
  walk cp initial_state names = matches_with (full cp) (path_chars names) opts.
Proof.
  intros Hc Hf Hne Hn. apply compile_components in Hc as (Hp & Htok & Hok & Hcs & Hst & Hfb).
  rewrite Hf in Hfb. symmetry in Hfb. apply Nat.ltb_ge in Hfb. apply eq_true_iff_eq.
  assert (0 < length (pattern_components cp))%nat as Hk by (by destruct (pattern_components cp); [|simpl; lia]).
  rewrite walk_accepts by (done || by apply initial_state_ok).
  apply pattern_new_valid in Hp. rewrite (matches_exact true) by done.
  rewrite <- Htok, <- cmatch_iff by done. unfold accepts. split.
  - intros (p & Hb & Hm). change initial_state with (bit 0) in Hb. rewrite testbit_bit in Hb.
    apply bool_decide_eq_true in Hb as ->. by rewrite drop_0 in Hm.
  - intros Hm. exists 0%nat. split; [done|]. by rewrite drop_0.
Qed.

(** C38: The component-wise walk decides the pattern: for every pattern that compiles
    and has at most 63 components, running the automaton on the names of a path accepts
    the path exactly if the whole pattern matches the text of the path. *)
Theorem walk_correct s cp names :
  compile s = inr cp -> fallback cp = false -> names ≠ [] -> Forall name_ok names ->
  walk cp initial_state names = true <->
  matches_tokens opts (tokens (full cp)) true (path_chars names).
Proof.
  intros E Hf Hne Hn. rewrite (walk_matches s) by done. apply matches_exact; [|done].
  apply compile_components in E as (Hp & _). by apply pattern_new_valid in Hp.
Qed.

(** The pattern [src/**/*.rs]. *)
Definition example_pattern : compiled_pattern :=
  match compile [115; 114; 99; 47; 42; 42; 47; 42; 46; 114; 115] with
  | inr cp => cp
  | inl _ => CompiledPattern (from_tokens []) [] [] false
  end.

Definition example_file : list (list char) := [[115; 114; 99]; [97]; [98]; [120; 46; 114; 115]].

Lemma walk_correct_witness :
  walk example_pattern initial_state example_file = true /\
  matches_tokens opts (tokens (full example_pattern)) true (path_chars example_file) /\
  walk example_pattern initial_state [[115; 114; 99]; [46; 98]; [120; 46; 114; 115]] = false.
Proof.
  split; [vm_compute; reflexivity|]. split; [|vm_compute; reflexivity].
  apply (walk_correct [115; 114; 99; 47; 42; 42; 47; 42; 46; 114; 115]).
  - vm_compute. reflexivity.
  - vm_compute. reflexivity.
  - discriminate.
  - repeat (constructor; try discriminate).
  - vm_compute. reflexivity.
Defined.
