(* ===== verification/Builders.v ===== *)
(** The filter handle (josh-filter/src/filter.rs): its builders, which chain an operator
    and optimize, its metadata, and the functions of josh-core/src/filter/mod.rs that
    rewrite filters: references by name, chains with inherited metadata, pins. *)

From stdpp Require Export sorting fin_maps gmap.
From S2P Require Import Prelude Path OptState Invert Simplify Flatten Step Utf8 Glob Pattern Ops.

Open Scope nat_scope.

(** * Builders *)

(** [MESSAGE_MATCH_ALL_REGEX]. *)
Definition MESSAGE_MATCH_ALL_REGEX : regex := "(?s)^.*$".

(** [Op::pattern]: an operator exists only for a pattern that compiles. *)
Definition op_pattern (glob : string) : res Op.t :=
  match chars glob with
  | None => Err "invalid utf-8 sequence"
  | Some s => match compile s with inl e => Err (Glob.msg e) | inr _ => Ok (Op.Pattern glob) end
  end.

Module Filter.

(** [Filter::new]. *)
Definition new : filter := to_filter Op.Nop.

Section Builders.
(** The budget of the optimizer. *)
Context (h : nat).

Definition chain (self second : filter) : opt filter := optimize h h (to_filter (Op.Chain [self; second])).
Definition exclude (self other : filter) : opt filter := chain self (to_filter (Op.Exclude other)).
Definition select (self other : filter) : opt filter := chain self (to_filter (Op.Select other)).
Definition pin (self other : filter) : opt filter := chain self (to_filter (Op.Pin other)).
Definition rev (self : filter) (arms : list (RevMatch.t * oid * filter)) : opt filter :=
  chain self (to_filter (Op.Rev ((fun '(m, tip, f) => (m, LazyRef.Resolved tip, f)) <$> arms))).
Definition nop (self : filter) : filter := self.
Definition is_nop (self : filter) : bool := bool_decide (self = to_filter Op.Nop).
Definition empty (self : filter) : filter := to_filter Op.Empty.
Definition rename (self : filter) (dst src : path) : opt filter := chain self (to_filter (Op.File dst src)).
Definition file (self : filter) (p : path) : opt filter := rename self p p.
Definition subdir (self : filter) (p : path) : opt filter := chain self (to_filter (Op.Subdir p)).
Definition prefix (self : filter) (p : path) : opt filter := chain self (to_filter (Op.Prefix p)).
Definition stored (self : filter) (p : path) : opt filter := chain self (to_filter (Op.Stored p)).
Definition insert (self : filter) (p : path) (content : string) : opt filter :=
  chain self (to_filter (Op.Insert p (InsertContent.Inline content))).
Definition insert_oid (self : filter) (p : path) (id : oid) : opt filter :=
  chain self (to_filter (Op.Insert p (InsertContent.Oid id))).
Definition pattern (self : filter) (p : string) : opt filter :=
  o ← lift (op_pattern p); chain self (to_filter o).
Definition workspace (self : filter) (p : path) : opt filter := chain self (to_filter (Op.Workspace p)).
Definition author (self : filter) (name email : string) : opt filter :=
  chain self (to_filter (Op.Author name email)).
Definition committer (self : filter) (name email : string) : opt filter :=
  chain self (to_filter (Op.Committer name email)).
Definition prune_trivial_merge (self : filter) : opt filter := chain self (to_filter Op.Prune).
Definition squash (self : filter) (ids : option (list (oid * filter))) : opt filter :=
  chain self
    (match ids with
     | Some ids =>
         to_filter (Op.Squash (Some
           (foldl (fun m x => ord_insert LazyRef.cmp (LazyRef.Resolved x.1) x.2 m) [] ids)))
     | None => to_filter (Op.Squash None)
     end).
Definition downstack (self : filter) (base : oid) : opt filter :=
  chain self (to_filter (Op.Downstack (LazyRef.Resolved base))).
Definition message (self : filter) (m : string) : opt filter :=
  chain self (to_filter (Op.Message m MESSAGE_MATCH_ALL_REGEX)).
Definition message_regex (self : filter) (m : string) (re : regex) : opt filter :=
  chain self (to_filter (Op.Message m re)).
Definition hook (self : filter) (name : string) : opt filter := chain self (to_filter (Op.Hook name)).

(** [compose]. *)
Definition compose (filters : list filter) : opt filter := optimize h h (to_filter (Op.Compose filters)).

(** [check_experimental_features_enabled]. *)
Definition check_experimental (enabled : bool) (feature : string) : opt unit :=
  if enabled then mret tt
  else fail (feature +:+ " requires JOSH_EXPERIMENTAL_FEATURES=1").

Context (experimental : bool).

Definition starlark (self : filter) (p : path) (sub : filter) : opt filter :=
  check_experimental experimental "Starlark filter" ≫= fun _ =>
  chain self (to_filter (Op.Starlark p sub)).
Definition treeid (self : filter) (p : path) (sub : filter) : opt filter :=
  check_experimental experimental "TreeId filter" ≫= fun _ =>
  chain self (to_filter (Op.TreeId p sub)).
Definition export (self : filter) : opt filter :=
  check_experimental experimental "export filter" ≫= fun _ => chain self (to_filter Op.Export).

End Builders.

(** * Metadata *)

Definition with_meta (key value : string) (self : filter) : filter :=
  match to_op self with
  | Op.Meta existing inner => to_filter (Op.Meta (btree_insert key value existing) inner)
  | _ => to_filter (Op.Meta [(key, value)] self)
  end.

Definition get_meta (self : filter) (key : string) : option string :=
  match to_op self with Op.Meta meta _ => btree_get key meta | _ => None end.

Definition into_meta (self : filter) : list (string * string) :=
  match to_op self with Op.Meta meta _ => meta | _ => [] end.

Definition without_meta_keys (keys : list string) (self : filter) : filter :=
  match to_op self with
  | Op.Meta meta inner =>
      match base.filter (fun kv : string * string => kv.1 ∉ keys) meta with
      | [] => inner
      | meta => to_filter (Op.Meta meta inner)
      end
  | _ => self
  end.

Definition linear (self : filter) : filter := with_meta "history" "linear" self.
Definition unsign (self : filter) : filter := with_meta "gpgsig" "remove" self.

End Filter.

(** * References by name *)

Definition string_le (a b : string) : Prop := String.leb a b = true.
#[export] Instance string_le_dec a b : Decision (string_le a b).
Proof. unfold string_le. apply _. Defined.

(** [Vec::dedup]. *)
Fixpoint dedup_adjacent (l : list string) : list string :=
  match l with
  | a :: (b :: _) as l' => if decide (a = b) then dedup_adjacent l' else a :: dedup_adjacent l'
  | l => l
  end.

(** [sort] and [dedup]. *)
Definition sort_dedup (l : list string) : list string := dedup_adjacent (merge_sort string_le l).

Definition lazy_name (r : LazyRef.t) : option string :=
  match r with LazyRef.Lazy s => Some s | LazyRef.Resolved _ => None end.

(** [lazy_refs]. *)
Fixpoint lazy_refs (f : filter) : list string :=
  match f with
  | Op.Meta _ f => lazy_refs f
  | Op.Compose filters | Op.Chain filters => sort_dedup (flat_map lazy_refs filters)
  | Op.Exclude f | Op.Select f | Op.Pin f => sort_dedup (lazy_refs f)
  | Op.Subtract a b => sort_dedup (lazy_refs a ++ lazy_refs b)
  | Op.Rev filters =>
      sort_dedup (sort_dedup
        (sort_dedup (flat_map (fun x => lazy_refs x.2) filters) ++ omap (fun x => lazy_name x.1.2) filters))
  | Op.Squash (Some revs) => sort_dedup (omap (fun x => lazy_name x.1) revs)
  | Op.Downstack r => sort_dedup (option_list (lazy_name r))
  | _ => []
  end.

Definition resolve_ref (refs : gmap string oid) (r : LazyRef.t) : LazyRef.t :=
  match r with
  | LazyRef.Lazy s => match refs !! s with Some id => LazyRef.Resolved id | None => r end
  | LazyRef.Resolved _ => r
  end.

(** [resolve_refs]. *)
Fixpoint resolve_refs (refs : gmap string oid) (f : filter) : filter :=
  match f with
  | Op.Compose filters => Op.Compose (resolve_refs refs <$> filters)
  | Op.Exclude f => Op.Exclude (resolve_refs refs f)
  | Op.Select f => Op.Select (resolve_refs refs f)
  | Op.Pin f => Op.Pin (resolve_refs refs f)
  | Op.Chain filters => Op.Chain (resolve_refs refs <$> filters)
  | Op.Subtract a b => Op.Subtract (resolve_refs refs a) (resolve_refs refs b)
  | Op.Rev filters =>
      Op.Rev ((fun x => (x.1.1, resolve_ref refs x.1.2, resolve_refs refs x.2)) <$> filters)
  | Op.Squash (Some filters) =>
      Op.Squash (Some (foldl (fun m x => ord_insert LazyRef.cmp (resolve_ref refs x.1) x.2 m) [] filters))
  | Op.Downstack r => Op.Downstack (resolve_ref refs r)
  | _ => f
  end.

(** * Chains and pins *)

(** [propagate_meta]. *)
Definition propagate_meta (f : filter) (meta : list (string * string)) : filter :=
  foldl (fun f kv => Filter.with_meta kv.1 kv.2 f) f meta.

(** [meta.entry(k).or_insert(v)] for all of the outer metadata. *)
Definition inherit (meta outer : list (string * string)) : list (string * string) :=
  foldl (fun m kv => match btree_get kv.1 m with Some _ => m | None => btree_insert kv.1 kv.2 m end)
    meta outer.

(** [expand] of [flatten_chain]: the metadata is that of the outermost wrapper. *)
Fixpoint expand (f : filter) (outer : list (string * string)) : list filter :=
  let meta := inherit (Filter.into_meta f) outer in
  (fix peeled (g : filter) : list filter :=
     match g with
     | Op.Meta _ g => peeled g
     | Op.Chain steps => flat_map (fun s => expand s meta) steps
     | g => [propagate_meta g meta]
     end) f.

(** [flatten_chain]. *)
Definition flatten_chain (f : filter) : list filter := expand f [].

(** [legalize_pin]. *)
Fixpoint legalize_pin (c : filter -> filter) (f : filter) : filter :=
  match f with
  | Op.Compose l => Op.Compose (legalize_pin c <$> l)
  | Op.Chain l => Op.Chain (legalize_pin c <$> l)
  | Op.Subtract a b => Op.Subtract (legalize_pin c a) (legalize_pin c b)
  | Op.Exclude f => Op.Exclude (legalize_pin c f)
  | Op.Select f => Op.Select (legalize_pin c f)
  | Op.Meta meta f => Op.Meta meta (legalize_pin c f)
  | Op.Pin f => c f
  | _ => f
  end.

(** [needs_legalization]. *)
Fixpoint needs_legalization (f : filter) : bool :=
  match f with
  | Op.Stored _ | Op.Starlark _ _ => true
  | Op.Compose l | Op.Chain l => existsb needs_legalization l
  | Op.Subtract a b => needs_legalization a || needs_legalization b
  | Op.Exclude f | Op.Select f | Op.Pin f | Op.TreeId _ f | Op.Meta _ f => needs_legalization f
  | _ => false
  end.

(** * Resolving references *)

Lemma elem_of_dedup_adjacent s l : s ∈ dedup_adjacent l <-> s ∈ l.
Proof.
  induction l as [|a [|b l] IH]; [done..|]. cbn [dedup_adjacent]. case_decide as E.
  - subst. rewrite IH. rewrite (elem_of_cons (b :: l)). split; [by right|]. intros [->|?]; [left|done].
  - rewrite elem_of_cons, IH, (elem_of_cons (b :: l)). done.
Qed.

Lemma elem_of_sort_dedup s l : s ∈ sort_dedup l <-> s ∈ l.
Proof. unfold sort_dedup. by rewrite elem_of_dedup_adjacent, merge_sort_Permutation. Qed.

Lemma elem_of_flat_map {A} s (f : A -> list string) l :
  s ∈ flat_map f l <-> exists x, x ∈ l /\ s ∈ f x.
Proof.
  rewrite !list_elem_of_In, in_flat_map. by setoid_rewrite list_elem_of_In.
Qed.

(** A reference is still named after resolving exactly if nothing is known of it. *)
Lemma lazy_name_resolve refs r s :
  lazy_name (resolve_ref refs r) = Some s <-> lazy_name r = Some s /\ refs !! s = None.
Proof. destruct r as [id|t]; simpl; [naive_solver|]. destruct (refs !! t) eqn:E; simpl; naive_solver. Qed.

(** Filters without metadata where names are looked for. *)
Fixpoint bare (f : filter) : bool :=
  match f with
  | Op.Meta _ _ => false
  | Op.Compose l | Op.Chain l => forallb bare l
  | Op.Exclude f | Op.Select f | Op.Pin f => bare f
  | Op.Subtract a b => bare a && bare b
  | Op.Rev l => forallb (fun x => bare x.2) l
  | _ => true
  end.

Lemma ord_insert_keys {V} (r : LazyRef.t) (v : V) m k :
  k ∈ (ord_insert LazyRef.cmp r v m).*1 <-> k = r \/ k ∈ m.*1.
Proof.
  induction m as [|[k' v'] m IH]; simpl; [set_solver|].
  destruct (LazyRef.cmp r k') eqn:E; rewrite ?fmap_cons; simpl; [|set_solver|set_solver].
  apply ref_cmp_eq in E. set_solver.
Qed.

Lemma resolved_keys {V} refs (l : list (LazyRef.t * V)) m k :
  k ∈ (foldl (fun m x => ord_insert LazyRef.cmp (resolve_ref refs x.1) x.2 m) m l).*1 <->
  k ∈ m.*1 \/ exists x, x ∈ l /\ k = resolve_ref refs x.1.
Proof.
  revert m. induction l as [|x l IH]; intros m; simpl; [set_solver|].
  rewrite IH, ord_insert_keys. setoid_rewrite elem_of_cons. naive_solver.
Qed.

Lemma elem_of_omap_fst {A V} (f : A -> option string) (l : list (A * V)) s :
  s ∈ omap (fun x => f x.1) l <-> exists k, k ∈ l.*1 /\ f k = Some s.
Proof.
  rewrite list_elem_of_omap. setoid_rewrite list_elem_of_fmap. split.
  - intros (x & Hx & E). exists x.1. eauto.
  - intros (k & (x & -> & Hx) & E). eauto.
Qed.

Lemma flat_map_fmap {A B C} (f : B -> list C) (g : A -> B) l :
  flat_map f (g <$> l) = flat_map (fun x => f (g x)) l.
Proof. induction l as [|x l IH]; [done|]. rewrite fmap_cons. simpl. by rewrite IH. Qed.

Lemma Forall_impl2 {A} (P Q R : A -> Prop) l :
  Forall P l -> Forall Q l -> (forall x, P x -> Q x -> R x) -> Forall R l.
Proof. rewrite !Forall_forall. naive_solver. Qed.

(** What is still named in the elements of a list. *)
Lemma resolve_list {A} refs (g : A -> filter) (l : list A) s :
  Forall (fun x => forall s, s ∈ lazy_refs (resolve_refs refs (g x)) <-> s ∈ lazy_refs (g x) /\ refs !! s = None) l ->
  s ∈ flat_map (fun x => lazy_refs (resolve_refs refs (g x))) l <->
  s ∈ flat_map (fun x => lazy_refs (g x)) l /\ refs !! s = None.
Proof. rewrite !elem_of_flat_map, Forall_forall. naive_solver. Qed.

(** resolving the references of a filter without metadata leaves exactly those names
    that are not known: what [lazy_refs] asks for, [resolve_refs] replaces. *)
Theorem resolve_refs_resolves refs f :
  bare f = true ->
  forall s, s ∈ lazy_refs (resolve_refs refs f) <-> s ∈ lazy_refs f /\ refs !! s = None.
Proof.
  induction f as [f IH] using filter_ind. intros Hb s.
  destruct f; try (cbn -[sort_dedup]; set_solver); cbn [children] in IH.
  - destruct ids as [m|]; [|set_solver]. cbn [lazy_refs resolve_refs].
    rewrite !elem_of_sort_dedup, !elem_of_omap_fst. setoid_rewrite resolved_keys.
    split.
    + intros (k & [?%elem_of_nil|(x & Hx & ->)] & E); [done|]. apply lazy_name_resolve in E as [E Hn].
      split; [|done]. exists x.1. split; [|done]. by apply list_elem_of_fmap_2.
    + intros [(k & (x & -> & Hx)%list_elem_of_fmap & E) Hn]. exists (resolve_ref refs x.1).
      rewrite lazy_name_resolve. eauto 10.
  - cbn [lazy_refs resolve_refs] in *. rewrite !elem_of_sort_dedup, !elem_of_app, !elem_of_sort_dedup.
    rewrite flat_map_fmap. simpl in Hb. rewrite Forall_forallb in Hb. rewrite Forall_fmap in IH.
    rewrite (resolve_list refs snd) by (eapply Forall_impl2; [exact IH|exact Hb|]; by auto).
    rewrite !list_elem_of_omap. setoid_rewrite list_elem_of_fmap. split.
    + intros [?|(x & (y & -> & Hy) & [E Hn]%lazy_name_resolve)]; [tauto|]. simpl in E. split; [right|done].
      eauto.
    + intros [[?|(x & Hx & E)] Hn]; [tauto|]. right. eexists. split; [by exists x|].
      by apply lazy_name_resolve.
  - cbn [lazy_refs resolve_refs] in *. simpl in Hb. rewrite Forall_forallb in Hb.
    rewrite !elem_of_sort_dedup, flat_map_fmap. apply (resolve_list refs id).
    eapply Forall_impl2; [exact IH|exact Hb|]. auto.
  - cbn [lazy_refs resolve_refs] in *. simpl in Hb. rewrite Forall_forallb in Hb.
    rewrite !elem_of_sort_dedup, flat_map_fmap. apply (resolve_list refs id).
    eapply Forall_impl2; [exact IH|exact Hb|]. auto.
  - simpl in Hb. apply andb_true_iff in Hb as [Ha Hb]. apply Forall_cons in IH as [IHa IHb].
    apply Forall_cons in IHb as [IHb _]. cbn [lazy_refs resolve_refs].
    rewrite !elem_of_sort_dedup, !elem_of_app, (IHa Ha), (IHb Hb). tauto.
  - apply Forall_cons in IH as [IH _]. cbn [lazy_refs resolve_refs]. rewrite !elem_of_sort_dedup. by apply IH.
  - apply Forall_cons in IH as [IH _]. cbn [lazy_refs resolve_refs]. rewrite !elem_of_sort_dedup. by apply IH.
  - apply Forall_cons in IH as [IH _]. cbn [lazy_refs resolve_refs]. rewrite !elem_of_sort_dedup. by apply IH.
  - cbn [lazy_refs resolve_refs]. rewrite !elem_of_sort_dedup. pose proof (lazy_name_resolve refs r s) as Hl.
    destruct (lazy_name (resolve_ref refs r)), (lazy_name r); simpl; set_solver.
Qed.

(** * Chains with inherited metadata *)

(** The steps of a chain with the metadata each one sees: that of its own wrapper, and what
    it does not set from the wrappers around it. *)
Fixpoint chain_steps (f : filter) (outer : string -> option string) :
    list (filter * (string -> option string)) :=
  let meta k := match Filter.get_meta f k with Some v => Some v | None => outer k end in
  (fix peeled (g : filter) :=
     match g with
     | Op.Meta _ g => peeled g
     | Op.Chain steps => flat_map (fun s => chain_steps s meta) steps
     | g => [(g, meta)]
     end) f.

Lemma btree_get_inherit k meta outer :
  btree_get k (inherit meta outer) =
    match btree_get k meta with Some v => Some v | None => btree_get k outer end.
Proof.
  unfold inherit. revert meta. induction outer as [|[k' v] outer IH]; intros meta; simpl.
  { by destruct (btree_get k meta). }
  rewrite IH. destruct (btree_get k' meta) as [w|] eqn:E; [|rewrite btree_get_insert].
  - destruct (btree_get k meta) eqn:E'; [done|]. case_decide; [congruence|done].
  - repeat case_decide; subst; [by rewrite E|done].
Qed.

Lemma get_with_meta key value f k :
  Filter.get_meta (Filter.with_meta key value f) k =
    if decide (k = key) then Some value else Filter.get_meta f k.
Proof.
  unfold Filter.with_meta, Filter.get_meta. destruct f; simpl; try done. apply btree_get_insert.
Qed.

Lemma peel_with_meta key value f : peel_filter (Filter.with_meta key value f) = peel_filter f.
Proof. by destruct f. Qed.

Lemma btree_sorted_lt k v (m : list (string * string)) x :
  btree_sorted ((k, v) :: m) -> x ∈ m -> String.compare k x.1 = Lt.
Proof.
  revert k v. induction m as [|[k' v'] m IH]; intros k v Hs Hx; [by apply elem_of_nil in Hx|].
  destruct Hs as [Hlt Hs]. apply elem_of_cons in Hx as [->|Hx]; [done|].
  eapply string_compare_lt_trans; [exact Hlt|]. by eapply IH.
Qed.

Lemma btree_get_out k (m : list (string * string)) : (forall x, x ∈ m -> k ≠ x.1) -> btree_get k m = None.
Proof.
  induction m as [|[k' v] m IH]; intros Hk; [done|]. simpl. rewrite decide_False.
  - apply IH. intros x Hx. apply Hk. by right.
  - apply (Hk (k', v)). left.
Qed.

Lemma get_propagate f meta k :
  btree_sorted meta ->
  Filter.get_meta (propagate_meta f meta) k =
    match btree_get k meta with Some v => Some v | None => Filter.get_meta f k end.
Proof.
  revert f. induction meta as [|[k' v] meta IH]; intros f Hs; [done|].
  unfold propagate_meta in *. simpl. rewrite IH by apply Hs. rewrite get_with_meta.
  destruct (decide (k = k')) as [->|]; [|done].
  rewrite btree_get_out; [done|]. intros x Hx ->.
  pose proof (btree_sorted_lt _ _ _ _ Hs Hx) as Hlt. by rewrite string_compare_refl in Hlt.
Qed.

Lemma peel_propagate f meta : peel_filter (propagate_meta f meta) = peel_filter f.
Proof.
  unfold propagate_meta. revert f. induction meta as [|kv meta IH]; intros f; simpl; [done|].
  by rewrite IH, peel_with_meta.
Qed.

Lemma inherit_sorted meta outer : btree_sorted meta -> btree_sorted (inherit meta outer).
Proof.
  unfold inherit. revert meta. induction outer as [|kv outer IH]; intros meta Hm; simpl; [done|].
  apply IH. destruct (btree_get kv.1 meta); [done|]. by apply btree_insert_sorted.
Qed.

(** The metadata of the filter and its parts is ordered, as that of a [BTreeMap] is. *)
Fixpoint meta_ordered (f : filter) : Prop :=
  match f with
  | Op.Meta m f => btree_sorted m /\ meta_ordered f
  | Op.Chain l => foldr (fun f acc => meta_ordered f /\ acc) True l
  | _ => True
  end.

Definition step_of (g : filter) (x : filter * (string -> option string)) : Prop :=
  peel_filter g = x.1 /\ forall k, Filter.get_meta g k = x.2 k.

Lemma expand_eq f outer :
  let meta := inherit (Filter.into_meta f) outer in
  expand f outer =
    match peel_filter f with
    | Op.Chain steps => flat_map (fun s => expand s meta) steps
    | g => [propagate_meta g meta]
    end.
Proof.
  intros meta. transitivity ((fix peeled (g : filter) : list filter :=
     match g with
     | Op.Meta _ g => peeled g
     | Op.Chain steps => flat_map (fun s => expand s meta) steps
     | g => [propagate_meta g meta]
     end) f); [by destruct f|].
  generalize meta. clear. intros meta. induction f; try done.
Qed.

Lemma chain_steps_eq f outer :
  let meta k := match Filter.get_meta f k with Some v => Some v | None => outer k end in
  chain_steps f outer =
    match peel_filter f with
    | Op.Chain steps => flat_map (fun s => chain_steps s meta) steps
    | g => [(g, meta)]
    end.
Proof.
  intros meta. transitivity ((fix peeled (g : filter) :=
     match g with
     | Op.Meta _ g => peeled g
     | Op.Chain steps => flat_map (fun s => chain_steps s meta) steps
     | g => [(g, meta)]
     end) f); [by destruct f|].
  generalize meta. clear. intros meta. induction f; try done.
Qed.

Lemma peel_ordered f : meta_ordered f -> meta_ordered (peel_filter f).
Proof. induction f; simpl; try done. intros [_ ?]. auto. Qed.
Lemma peel_size f : size (peel_filter f) <= size f.
Proof. induction f; simpl; lia. Qed.
Lemma peel_no_meta f : match peel_filter f with Op.Meta _ _ => False | _ => True end.
Proof. by induction f. Qed.
Lemma into_meta_get f k : btree_get k (Filter.into_meta f) = Filter.get_meta f k.
Proof. by destruct f. Qed.

Lemma meta_ordered_chain l s : meta_ordered (Op.Chain l) -> s ∈ l -> meta_ordered s.
Proof.
  induction l as [|x l IH]; intros Hl Hs; [by apply elem_of_nil in Hs|]. destruct Hl as [Hx Hl].
  apply elem_of_cons in Hs as [->|Hs]; auto.
Qed.

Lemma expand_steps n f outer outer' :
  size f <= n -> meta_ordered f -> btree_sorted outer -> (forall k, btree_get k outer = outer' k) ->
  Forall2 step_of (expand f outer) (chain_steps f outer').
Proof.
  revert f outer outer'. induction n as [|n IH]; intros f outer outer' Hn Hf Ho Hk.
  { pose proof (size_pos f). lia. }
  rewrite expand_eq, chain_steps_eq. cbv zeta.
  set (meta := inherit (Filter.into_meta f) outer).
  set (meta' k := match Filter.get_meta f k with Some v => Some v | None => outer' k end).
  assert (Hs : btree_sorted meta).
  { apply inherit_sorted. destruct f; try done. apply Hf. }
  assert (Hm : forall k, btree_get k meta = meta' k).
  { intros k. unfold meta. rewrite btree_get_inherit, into_meta_get, Hk. done. }
  clearbody meta meta'. pose proof (peel_ordered _ Hf) as Hp. pose proof (peel_size f) as Hz.
  pose proof (peel_no_meta f) as Hnm.
  assert (Hone : forall g, match g with Op.Meta _ _ | Op.Chain _ => False | _ => True end ->
    Forall2 step_of [propagate_meta g meta] [(g, meta')]).
  { intros g Hg. constructor; [|constructor]. split; simpl.
    - rewrite peel_propagate. by destruct g.
    - intros k. rewrite get_propagate, Hm by done. destruct (meta' k); [done|]. by destruct g. }
  destruct (peel_filter f) as [| | | | | | | | | | | | | | | | | | | | | | | | | | | | | | | | |l| | | | |];
    try done; try (by apply Hone).
  assert (Hall : forall s, s ∈ l -> Forall2 step_of (expand s meta) (chain_steps s meta')).
  { intros s Hin. apply IH; [|by eapply meta_ordered_chain|done|done].
    pose proof (size_child s (Op.Chain l) Hin). lia. }
  clear -Hall. induction l as [|s l IH]; [constructor|]. simpl. apply Forall2_app.
  - apply Hall. left.
  - apply IH. intros s' Hs'. apply Hall. by right.
Qed.

(** flattening a chain yields its steps in order, through nested chains and wrappers;
    each one has the metadata of its own wrapper and inherits what it does not set itself
    from the wrappers of the chains around it, the innermost first. *)
Theorem flatten_chain_correct f :
  meta_ordered f -> Forall2 step_of (flatten_chain f) (chain_steps f (fun _ => None)).
Proof. intros Hf. by apply (expand_steps (size f)). Qed.

(** Two levels of chains, each with metadata. *)
Definition nested_chain : filter :=
  Op.Meta [("a", "outer"); ("b", "outer")]
    (Op.Chain [Op.Meta [("b", "inner")] (Op.Chain [Op.Nop; Op.Prune]); Op.Empty]).

Lemma flatten_chain_correct_witness :
  flatten_chain nested_chain =
    [Op.Meta [("a", "outer"); ("b", "inner")] Op.Nop; Op.Meta [("a", "outer"); ("b", "inner")] Op.Prune;
     Op.Meta [("a", "outer"); ("b", "outer")] Op.Empty] /\
  Forall2 step_of (flatten_chain nested_chain) (chain_steps nested_chain (fun _ => None)).
Proof. split; [reflexivity|]. apply flatten_chain_correct. repeat split. Defined.

(** Two references, one of them known. *)
Definition two_refs : filter :=
  Op.Chain [Op.Downstack (LazyRef.Lazy "main");
            Op.Rev [(RevMatch.Equal, LazyRef.Lazy "topic", Op.Nop)]].

Lemma resolve_refs_resolves_witness : "topic" ∈ lazy_refs (resolve_refs {["main" := "1234"]} two_refs).
Proof.
  apply (resolve_refs_resolves {["main" := "1234"]} two_refs eq_refl "topic").
  split; [|reflexivity]. apply (bool_decide_unpack ("topic" ∈ lazy_refs two_refs)). vm_compute. exact I.
Defined.
