(* ===== verification/Persist.v ===== *)
(** Filters as trees (josh-filter/src/persist.rs): the objects that encode a filter,
    the content address of a filter, and the reader that decodes a tree.

    The builder stages objects ([StagingOdb] of josh-gix-ext/src/lib.rs) and writes
    them at the end. *)

From stdpp Require Export pretty.
From S2P Require Import Prelude Path Objects Store Utf8 Pattern OptState Step Ops.

Open Scope nat_scope.

(** The readers of third-party code: JSON strings, object ids, regular expressions. *)
Class Readers := {
  json_string : string -> option string;
  oid_from_str : string -> option oid;
  regex_new : string -> bool;
}.

(** [i.to_string()]. *)
Definition index_name (i : nat) : string := pretty i.

Definition blob_entry (name : string) (id : oid) : entry := Entry blob_mode name id.
Definition tree_entry (name : string) (id : oid) : entry := Entry tree_mode name id.

(** A stable sort of entries by the bytes of their names. *)
Fixpoint insert_by_name (e : entry) (l : list entry) : list entry :=
  match l with
  | [] => [e]
  | x :: l' =>
      match String.compare (filename e) (filename x) with
      | Gt => x :: insert_by_name e l'
      | _ => e :: l
      end
  end.

Definition sort_by_name (l : list entry) : list entry := foldr insert_by_name [] l.

Section Build.
Context `{ObjectHash}.

(** [InMemoryBuilder]: the staged objects and the persist-time ids. *)
Record builder := Builder {
  pending : gmap oid object;
  persist_ids : list (filter * oid);
}.

(** [InMemoryBuilder::new] with [StagingOdb::new]. *)
Definition new_builder : builder :=
  Builder {[compute_hash (OBlob EmptyString) := OBlob EmptyString]} [].

Abbreviation bm := (M builder).

(** [StagingOdb::write_raw]. *)
Definition write_raw (x : object) : bm oid := fun b =>
  (Ok (compute_hash x), Builder (<[compute_hash x := x]> (pending b)) (persist_ids b)).

(** [StagingOdb::write_blob]. *)
Definition stage_blob (data : string) : bm oid :=
  match data with
  | EmptyString => mret (compute_hash (OBlob EmptyString))
  | _ => write_raw (OBlob data)
  end.

(** [InMemoryBuilder::write_tree]. *)
Definition stage_tree (l : list entry) : bm oid :=
  if existsb (fun e => has_nul (filename e)) l then fail "failed to write tree"
  else write_raw (OTree (sort_by_name l)).

(** [build_str_params]. *)
Definition build_str_params (params : list string) : bm oid :=
  blobs ← mapM stage_blob params;
  stage_tree (imap (fun i id => blob_entry (index_name i) id) blobs).

Section Ids.
Context (id_of : filter -> res oid).

(** [InMemoryBuilder::node_oid]; [id_of] is [Filter::id]. *)
Definition find_persist_id (f : filter) (l : list (filter * oid)) : option oid :=
  snd <$> List.find (fun x => bool_decide (x.1 = f)) l.

Definition persist_oid (f : filter) : bm oid :=
  cached ← gets (fun b => find_persist_id f (persist_ids b));
  match cached with
  | Some id => mret id
  | None => lift (id_of f)
  end.

(** [build_filter_params]. *)
Definition build_filter_params (params : list filter) : bm oid :=
  ids ← mapM persist_oid params;
  stage_tree (imap (fun i id => tree_entry (index_name i) id) ids).

(** [build_starlark_params]. *)
Definition build_starlark_params (p : path) (subfilter : filter) : bm oid :=
  path_tree ← build_str_params [to_string p];
  filter_tree ← build_filter_params [subfilter];
  stage_tree [tree_entry "0" path_tree; tree_entry "1" filter_tree].

(** A key and a filter: the inner trees of [build_rev_params],
    [build_lazyref_filter_params] and [build_squash_params]. *)
Definition build_keyed (key : string) (f : filter) : bm oid :=
  key_blob ← stage_blob key;
  filter_tree ← persist_oid f;
  stage_tree [blob_entry "o" key_blob; tree_entry "f" filter_tree].

Definition rev_key (m : RevMatch.t) (r : LazyRef.t) : string :=
  match m with
  | RevMatch.AncestorStrict => "<" +:+ LazyRef.to_string r
  | RevMatch.AncestorInclusive => "<=" +:+ LazyRef.to_string r
  | RevMatch.Equal => "==" +:+ LazyRef.to_string r
  | RevMatch.Default => "_"
  end.

(** [build_rev_params]. *)
Definition build_rev_params (params : list (RevMatch.t * LazyRef.t * filter)) : bm oid :=
  inner ← mapM (fun x => build_keyed (rev_key x.1.1 x.1.2) x.2) params;
  stage_tree (imap (fun i id => tree_entry (index_name i) id) inner).

(** [build_lazyref_filter_params]. *)
Definition build_lazyref_filter_params (r : LazyRef.t) (f : filter) : bm oid :=
  inner ← build_keyed (LazyRef.to_string r) f;
  stage_tree [tree_entry "0" inner].

(** [build_squash_params]. *)
Definition build_squash_params (params : list (LazyRef.t * filter)) : bm oid :=
  inner ← mapM (fun x => build_keyed (LazyRef.to_string x.1) x.2) params;
  stage_tree (imap (fun i id => tree_entry (index_name i) id) inner).

(** [build_regex_replace_params]. *)
Definition build_regex_replace_params (replacements : list (regex * string)) : bm oid :=
  inner ← mapM (fun x =>
    p ← stage_blob x.1;
    r ← stage_blob x.2;
    stage_tree [blob_entry "p" p; blob_entry "r" r]) replacements;
  stage_tree (imap (fun i id => tree_entry (index_name i) id) inner).

(** The [Op::Insert] arm of [build_op]; [src] gives the kind of an object, and is
    absent when an id is computed. *)
Definition build_insert (src : option (oid -> option kind)) (p : path)
    (content : InsertContent.t) : bm oid :=
  match content with
  | InsertContent.Inline s => build_str_params [to_string p; "inline"; s]
  | InsertContent.Oid id =>
      match src with
      | None => build_str_params [to_string p; "oid"; id]
      | Some kind_of =>
          match kind_of id with
          | Some Blob =>
              path_blob ← stage_blob (to_string p);
              stage_tree [blob_entry "0" path_blob; blob_entry "o" id]
          | Some Tree =>
              path_blob ← stage_blob (to_string p);
              stage_tree [blob_entry "0" path_blob; tree_entry "o" id]
          | _ => fail ("insert: " +:+ id +:+ " is neither a blob nor a tree")
          end
      end
  end.

(** The [Op::Meta] arm of [build_op]. *)
Definition build_meta (meta : list (string * string)) (f : filter) : bm oid :=
  values ← mapM (fun x => id ← stage_blob x.2; mret (blob_entry x.1 id)) meta;
  filter_tree ← persist_oid f;
  stage_tree (values ++ [tree_entry "0" filter_tree]).

Definition str_op (name : string) (params : list string) : bm entry :=
  id ← build_str_params params; mret (tree_entry name id).

Definition filters_op (name : string) (params : list filter) : bm entry :=
  id ← build_filter_params params; mret (tree_entry name id).

Definition tree_op (name : string) (m : bm oid) : bm entry :=
  id ← m; mret (tree_entry name id).

Definition blob_op (name content : string) : bm entry :=
  id ← stage_blob content; mret (blob_entry name id).

(** The entry of an operator in its tree. *)
Definition op_entry (src : option (oid -> option kind)) (op : Op.t) : bm entry :=
  match op with
  | Op.Message fmt re => str_op "message" [fmt; re]
  | Op.Author name email => str_op "author" [name; email]
  | Op.Committer name email => str_op "committer" [name; email]
  | Op.Compose filters => filters_op "compose" filters
  | Op.Subtract a b => filters_op "subtract" [a; b]
  | Op.Chain filters => filters_op "chain" filters
  | Op.Exclude b => filters_op "exclude" [b]
  | Op.Select b => filters_op "select" [b]
  | Op.Pin b => filters_op "pin" [b]
  | Op.Subdir p => str_op "subdir" [to_string p]
  | Op.Prefix p => str_op "prefix" [to_string p]
  | Op.Insert p content => tree_op "insert" (build_insert src p content)
  | Op.File dest_path source_path =>
      str_op "file" [to_string dest_path; to_string source_path]
  | Op.Embed p => str_op "embed" [to_string p]
  | Op.Pattern glob => str_op "pattern" [glob]
  | Op.Workspace p => str_op "workspace" [to_string p]
  | Op.Stored p => str_op "stored" [to_string p]
  | Op.Starlark p subfilter => tree_op "starlark" (build_starlark_params p subfilter)
  | Op.TreeId p subfilter => tree_op "treeid" (build_starlark_params p subfilter)
  | Op.ObjectDeref p => str_op "treederef" [to_string p]
  | Op.ObjectRef p => str_op "treeref" [to_string p]
  | Op.Nop => blob_op "nop" EmptyString
  | Op.Empty => blob_op "empty" EmptyString
  | Op.Export => blob_op "export" EmptyString
  | Op.Paths => blob_op "paths" EmptyString
  | Op.Link mode =>
      str_op "link" [match mode with Some m => LinkMode.to_string m | None => EmptyString end]
  | Op.Adapt mode => str_op "adapt" [mode]
  | Op.Unlink => blob_op "unlink" EmptyString
  | Op.Invert => blob_op "invert" EmptyString
  | Op.Index => blob_op "index" EmptyString
  | Op.Fold => blob_op "fold" EmptyString
  | Op.Squash None => blob_op "squash" EmptyString
  | Op.Prune => blob_op "prune" "trivial-merge"
  | Op.Rev filters => tree_op "rev" (build_rev_params filters)
  | Op.Unapply lr f => tree_op "unapply" (build_lazyref_filter_params lr f)
  | Op.Squash (Some ids) => tree_op "squash" (build_squash_params ids)
  | Op.RegexReplace replacements =>
      tree_op "regex_replace" (build_regex_replace_params replacements)
  | Op.Hook hook => str_op "hook" [hook]
  | Op.Downstack lazy_ref => str_op "downstack" [LazyRef.to_string lazy_ref]
  | Op.Meta meta f => tree_op "meta" (build_meta meta f)
  end.

(** [build_op]. *)
Definition build_op (src : option (oid -> option kind)) (op : Op.t) : bm oid :=
  e ← op_entry src op; stage_tree [e].

End Ids.

(** [Filter::id] by [build_node_oid]; [n] bounds the depth. *)
Fixpoint filter_id (n : nat) (f : filter) : res oid :=
  match n with
  | 0 => OutOfFuel
  | S n => (build_op (filter_id n) None (to_op f) new_builder).1
  end.

(** [build_persist]; [n] bounds the depth. *)
Fixpoint build_persist (n : nat) (out : odb) (f : filter) : bm oid :=
  match n with
  | 0 => lift OutOfFuel
  | S n =>
      let id_of := filter_id (S n) in
      cached ← gets (fun b => find_persist_id f (persist_ids b));
      match cached with
      | Some id => mret id
      | None =>
          let op := to_op f in
          let dirty := match op with Op.Insert _ (InsertContent.Oid _) => true | _ => false end in
          dirty ← foldM (fun (dirty : bool) child =>
            child_oid ← build_persist n out child;
            child_id ← lift (id_of child);
            mret (dirty || negb (bool_decide (child_oid = child_id)))) dirty (children op);
          id ← (if (dirty : bool) then build_op id_of (Some (try_kind out)) op
                else
                  fid ← lift (id_of f);
                  (if odb_contains out fid then mret tt
                   else build_op id_of (Some (try_kind out)) op ≫= fun _ => mret tt) ≫= fun _ =>
                  mret fid);
          modify (fun b => Builder (pending b) ((f, id) :: persist_ids b)) ≫= fun _ => mret id
      end
  end.

(** [StagingOdb::flush]. *)
Definition flush (b : builder) (out : odb) : odb :=
  map_fold (fun id x o => if odb_contains o id then o else write_with_id o id x) out (pending b).

(** The part of [as_tree] after the optimizer. *)
Definition persist_tree (n : nat) (out : odb) (f : filter) : res oid * odb :=
  match build_persist n out f new_builder with
  | (Ok id, b) => (Ok id, flush b out)
  | (r, _) => (r, out)
  end.

(** [as_tree]; the bounds are those of [optimize] and the depth of its result. *)
Definition as_tree (k m n : nat) (f : filter) : M (caches * odb) oid := fun '(c, out) =>
  match optimize k m f c with
  | (Ok g, c') => let (r, out') := persist_tree n out g in (r, (c', out'))
  | (Err e, c') => (Err e, (c', out))
  | (OutOfFuel, c') => (OutOfFuel, (c', out))
  end.

End Build.

Abbreviation bm := (M builder).

(** * Reading *)

Section Read.
Context `{Readers}.
Context (find : oid -> option object).

(** [PersistedTree::read]. *)
Definition read_persisted (id : oid) : res (list entry) :=
  match find id with
  | None => Err ("object " +:+ id +:+ " not found")
  | Some (OTree l) => Ok l
  | Some _ => Err ("object " +:+ id +:+ " is not a tree")
  end.

(** [Blob::read]. *)
Definition read_blob (id : oid) : res string :=
  match find id with
  | None => Err ("object " +:+ id +:+ " not found")
  | Some (OBlob d) => Ok d
  | Some _ => Err ("object " +:+ id +:+ " is not a blob")
  end.

(** [std::str::from_utf8]. *)
Definition from_utf8 (s : string) : res string :=
  if valid_utf8 s then Ok s else Err "invalid utf-8 sequence".

(** [tree.get_name(name).context(...)]. *)
Definition need_name (l : list entry) (name what : string) : res entry :=
  match find_entry name l with Some e => Ok e | None => Err (what +:+ ": missing " +:+ name) end.

Definition need_index (l : list entry) (i : nat) (what : string) : res entry :=
  match l !! i with Some e => Ok e | None => Err (what +:+ ": missing entry") end.

Definition named_blob (l : list entry) (name what : string) : res string :=
  e ← need_name l name what; read_blob (entry_oid e).

(** An operator with one text, or with two. *)
Definition read_text (id : oid) (what : string) : res string :=
  inner ← read_persisted id;
  b ← named_blob inner "0" what;
  from_utf8 b.

Definition read_texts (id : oid) (what : string) : res (string * string) :=
  inner ← read_persisted id;
  b0 ← named_blob inner "0" what;
  b1 ← named_blob inner "1" what;
  s0 ← from_utf8 b0;
  s1 ← from_utf8 b1;
  Ok (s0, s1).

Definition parse_ref (s : string) : res LazyRef.t := LazyRef.parse json_string oid_from_str s.

(** The arms of [from_tree2] for operators whose content is a blob. *)
Definition read_unit (id : oid) (op : Op.t) : res Op.t :=
  _ ← read_blob id; Ok op.

Definition read_prune (id : oid) : res Op.t :=
  b ← read_blob id;
  content ← from_utf8 b;
  if decide (content = "trivial-merge") then Ok Op.Prune else Err "Invalid prune content".

(** The arms for operators with texts. *)
Definition read_path_op (id : oid) (what : string) (op : path -> Op.t) : res Op.t :=
  s ← read_text id what; Ok (op (components s)).

Definition read_link (id : oid) : res Op.t :=
  s ← read_text id "link";
  match s with
  | EmptyString => Ok (Op.Link None)
  | _ => m ← LinkMode.parse s; Ok (Op.Link (Some m))
  end.

Definition read_message (id : oid) : res Op.t :=
  '(fmt, re) ← read_texts id "message";
  if regex_new re then Ok (Op.Message fmt re) else Err "invalid regex".

Definition read_pattern (id : oid) : res Op.t :=
  s ← read_text id "pattern";
  match chars s with
  | Some cs =>
      match compile cs with
      | inr _ => Ok (Op.Pattern s)
      | inl e => Err (Glob.msg e)
      end
  | None => Err "invalid utf-8 sequence"
  end.

Definition read_insert (id : oid) : res Op.t :=
  inner ← read_persisted id;
  path_blob ← named_blob inner "0" "insert";
  path ← from_utf8 path_blob;
  match find_entry "o" inner with
  | Some e => Ok (Op.Insert (components path) (InsertContent.Oid (entry_oid e)))
  | None =>
      kind_blob ← named_blob inner "1" "insert";
      value_blob ← named_blob inner "2" "insert";
      kind ← from_utf8 kind_blob;
      value ← from_utf8 value_blob;
      if decide (kind = "inline") then
        Ok (Op.Insert (components path) (InsertContent.Inline value))
      else Err "insert: unknown content kind"
  end.

Definition read_regex_replace (id : oid) : res Op.t :=
  tree ← read_persisted id;
  replacements ← collect_res ((fun e =>
    inner ← read_persisted (entry_oid e);
    regex_blob ← named_blob inner "p" "regex_replace";
    replacement_blob ← named_blob inner "r" "regex_replace";
    re ← from_utf8 regex_blob;
    replacement ← from_utf8 replacement_blob;
    if regex_new re then Ok (re, replacement) else Err "invalid regex") <$> tree);
  Ok (Op.RegexReplace replacements).

(** The arms for operators with filters; [rec] is [from_tree2]. *)
Section Rec.
Context (rec : oid -> res Op.t).

(** [PersistedTree::read] of a filter tree, then its filter. *)
Definition read_filter (id : oid) : res filter :=
  _ ← read_persisted id; rec id.

Definition read_one_filter (id : oid) (what : string) (op : filter -> Op.t) : res Op.t :=
  tree ← read_persisted id;
  if decide (length tree = 1) then
    e ← need_name tree "0" what;
    f ← read_filter (entry_oid e);
    Ok (op f)
  else Err (what +:+ ": expected 1 entry").

Definition read_subtract (id : oid) : res Op.t :=
  tree ← read_persisted id;
  if decide (length tree = 2) then
    ea ← need_name tree "0" "subtract";
    _ ← read_persisted (entry_oid ea);
    eb ← need_name tree "1" "subtract";
    _ ← read_persisted (entry_oid eb);
    a ← rec (entry_oid ea);
    b ← rec (entry_oid eb);
    Ok (Op.Subtract a b)
  else Err "subtract: expected 2 entries".

Definition read_compose (id : oid) : res Op.t :=
  tree ← read_persisted id;
  filters ← collect_res ((fun i =>
    e ← need_index tree i "compose"; read_filter (entry_oid e)) <$> seq 0 (length tree));
  Ok (Op.Compose filters).

Definition read_chain (id : oid) : res Op.t :=
  tree ← read_persisted id;
  if decide (tree = []) then Err "chain: expected at least 1 entry"
  else
    filters ← collect_res ((fun i =>
      e ← need_name tree (index_name i) "chain"; read_filter (entry_oid e))
      <$> seq 0 (length tree));
    Ok (Op.Chain filters).

(** The [starlark] and [treeid] arms. *)
Definition read_path_filter (id : oid) (what : string) (op : path -> filter -> Op.t) : res Op.t :=
  inner ← read_persisted id;
  path_tree ← need_name inner "0" what;
  paths ← read_persisted (entry_oid path_tree);
  path_blob ← named_blob paths "0" what;
  path ← from_utf8 path_blob;
  filter_tree ← need_name inner "1" what;
  f ← read_filter (entry_oid filter_tree);
  Ok (op (components path) f).

(** A key and a filter. *)
Definition read_keyed {A} (id : oid) (what : string) (parse : string -> res A) : res (A * filter) :=
  inner ← read_persisted id;
  key_blob ← named_blob inner "o" what;
  e ← need_name inner "f" what;
  _ ← read_persisted (entry_oid e);
  key ← from_utf8 key_blob;
  k ← parse key;
  f ← rec (entry_oid e);
  Ok (k, f).

(** [str::strip_prefix]. *)
Fixpoint strip_prefix (p s : string) : option string :=
  match p, s with
  | EmptyString, _ => Some s
  | String a p, String b s => if decide (a = b) then strip_prefix p s else None
  | _, _ => None
  end.

Definition parse_rev_key (key : string) : res (RevMatch.t * LazyRef.t) :=
  if decide (key = "_") then Ok (RevMatch.Default, LazyRef.Resolved zero_oid)
  else match strip_prefix "<=" key with
  | Some s => r ← parse_ref s; Ok (RevMatch.AncestorInclusive, r)
  | None =>
      match strip_prefix "<" key with
      | Some s => r ← parse_ref s; Ok (RevMatch.AncestorStrict, r)
      | None =>
          match strip_prefix "==" key with
          | Some s => r ← parse_ref s; Ok (RevMatch.Equal, r)
          | None => Err "rev: invalid key format"
          end
      end
  end.

Definition read_rev (id : oid) : res Op.t :=
  tree ← read_persisted id;
  filters ← collect_res ((fun i =>
    e ← need_name tree (index_name i) "rev";
    read_keyed (entry_oid e) "rev" parse_rev_key) <$> seq 0 (length tree));
  Ok (Op.Rev filters).

(** A key and a filter, the filter read before the key is parsed. *)
Definition read_ref_filter (id : oid) (what : string) : res (LazyRef.t * filter) :=
  inner ← read_persisted id;
  key_blob ← named_blob inner "o" what;
  e ← need_name inner "f" what;
  _ ← read_persisted (entry_oid e);
  key ← from_utf8 key_blob;
  f ← rec (entry_oid e);
  r ← parse_ref key;
  Ok (r, f).

Definition read_unapply (id : oid) : res Op.t :=
  tree ← read_persisted id;
  e ← need_index tree 0 "concat";
  '(r, f) ← read_ref_filter (entry_oid e) "concat";
  Ok (Op.Unapply r f).

(** [BTreeMap::insert] for references. *)
Definition ref_insert (k : LazyRef.t) (v : filter) (m : list (LazyRef.t * filter)) :
    list (LazyRef.t * filter) := ord_insert LazyRef.cmp k v m.

Definition read_squash (e : entry) : res Op.t :=
  if negb (is_tree (mode e)) then read_unit (entry_oid e) (Op.Squash None)
  else
    tree ← read_persisted (entry_oid e);
    filters ← collect_res ((fun e => read_ref_filter (entry_oid e) "squash") <$> tree);
    Ok (Op.Squash (Some (foldl (fun m x => ref_insert x.1 x.2 m) [] filters))).

Definition read_meta (id : oid) : res Op.t :=
  tree ← read_persisted id;
  e ← need_name tree "0" "meta";
  _ ← read_persisted (entry_oid e);
  meta ← foldr (fun e (k : list (string * string) -> res (list (string * string))) m =>
    name ← from_utf8 (filename e);
    if decide (name = "0") then k m
    else
      value_blob ← read_blob (entry_oid e);
      value ← from_utf8 value_blob;
      k (btree_insert name value m)) Ok tree [];
  f ← rec (entry_oid e);
  Ok (Op.Meta meta f).

(** The match of [from_tree2] on the name of the entry. *)
Definition read_entry (e : entry) : res Op.t :=
  let id := entry_oid e in
  name ← from_utf8 (filename e);
  if String.eqb name "nop" then read_unit id Op.Nop
  else if String.eqb name "empty" then read_unit id Op.Empty
  else if String.eqb name "paths" then read_unit id Op.Paths
  else if String.eqb name "export" then read_unit id Op.Export
  else if String.eqb name "link" then read_link id
  else if String.eqb name "adapt" then s ← read_text id "adapt"; Ok (Op.Adapt s)
  else if String.eqb name "unlink" then read_unit id Op.Unlink
  else if String.eqb name "invert" then read_unit id Op.Invert
  else if String.eqb name "index" then read_unit id Op.Index
  else if String.eqb name "fold" then read_unit id Op.Fold
  else if String.eqb name "prune" then read_prune id
  else if String.eqb name "hook" then s ← read_text id "hook"; Ok (Op.Hook s)
  else if String.eqb name "author" then '(n, m) ← read_texts id "author"; Ok (Op.Author n m)
  else if String.eqb name "committer" then
    '(n, m) ← read_texts id "committer"; Ok (Op.Committer n m)
  else if String.eqb name "message" then read_message id
  else if String.eqb name "subdir" then read_path_op id "subdir" Op.Subdir
  else if String.eqb name "prefix" then read_path_op id "prefix" Op.Prefix
  else if String.eqb name "insert" then read_insert id
  else if String.eqb name "file" then
    '(d, s) ← read_texts id "file"; Ok (Op.File (components d) (components s))
  else if String.eqb name "embed" then read_path_op id "embed" Op.Embed
  else if String.eqb name "pattern" then read_pattern id
  else if String.eqb name "workspace" then read_path_op id "workspace" Op.Workspace
  else if String.eqb name "stored" then read_path_op id "stored" Op.Stored
  else if String.eqb name "starlark" then read_path_filter id "starlark" Op.Starlark
  else if String.eqb name "treederef" then read_path_op id "treederef" Op.ObjectDeref
  else if String.eqb name "treeref" then read_path_op id "treeref" Op.ObjectRef
  else if String.eqb name "treeid" then read_path_filter id "treeid" Op.TreeId
  else if String.eqb name "compose" then read_compose id
  else if String.eqb name "subtract" then read_subtract id
  else if String.eqb name "chain" then read_chain id
  else if String.eqb name "exclude" then read_one_filter id "exclude" Op.Exclude
  else if String.eqb name "select" then read_one_filter id "select" Op.Select
  else if String.eqb name "pin" then read_one_filter id "pin" Op.Pin
  else if String.eqb name "rev" then read_rev id
  else if String.eqb name "unapply" then read_unapply id
  else if String.eqb name "squash" then read_squash e
  else if String.eqb name "regex_replace" then read_regex_replace id
  else if String.eqb name "downstack" then
    s ← read_text id "downstack"; r ← parse_ref s; Ok (Op.Downstack r)
  else if String.eqb name "meta" then read_meta id
  else Err "Unknown tree structure".

End Rec.

(** [from_tree2]; [n] bounds the depth. *)
Fixpoint from_tree (n : nat) (id : oid) : res Op.t :=
  match n with
  | 0 => OutOfFuel
  | S n =>
      tree ← read_persisted id;
      match tree with
      | [] => Err "Empty tree"
      | e :: _ => read_entry (from_tree n) e
      end
  end.

End Read.
