(* ===== verification/Pest.v ===== *)
(** The grammar language of josh-filter/src/flang/grammar.pest: parsing expressions with ordered
    choice, implicit spaces and rules that make pairs.  [peg] says what an expression matches, as
    the manual of the language does; [run] computes it within a budget, and the two agree. *)

From S2P Require Import Prelude.

Open Scope nat_scope.

(** * Expressions *)

(** [a ~ b] is [Seq], [a | b] is [Choice], [a?] is [Opt], [a*] is [Rep], [!a] is [Not]. [Again] is
    what follows the first round of a repetition. *)
Inductive expr (R : Type) :=
| Str (t : string)
| Chr (p : ascii -> bool)
| Eoi
| Call (r : R)
| Seq (a b : expr R)
| Choice (a b : expr R)
| Opt (a : expr R)
| Rep (a : expr R)
| Again (a : expr R)
| Not (a : expr R).
Arguments Str {R} _.
Arguments Chr {R} _.
Arguments Eoi {R}.
Arguments Call {R} _.
Arguments Seq {R} _ _.
Arguments Choice {R} _ _.
Arguments Opt {R} _.
Arguments Rep {R} _.
Arguments Again {R} _.
Arguments Not {R} _.

(** [a+]. *)
Definition Rep1 {R} (a : expr R) : expr R := Seq a (Rep a).

Declare Scope pest_scope.
Delimit Scope pest_scope with pest.
Bind Scope pest_scope with expr.
Infix "~>" := Seq (at level 60, right associativity) : pest_scope.
Infix "<|>" := Choice (at level 63, right associativity) : pest_scope.

(** [{ }], [_{ }], [@{ }] and [${ }]. *)
Inductive kind := Plain | Silent | Atomically | Compoundly.

(** Whether spaces are skipped, and whether rules make pairs. *)
Inductive mode := Spaced | Compound | Atomic.

Inductive pair (R : Type) := Pair (rule : R) (text : string) (inner : list (pair R)).
Arguments Pair {R} _ _ _.

Inductive outcome (R : Type) := NoMatch | Match (text rest : string) (pairs : list (pair R)).
Arguments NoMatch {R}.
Arguments Match {R} _ _ _.

(** [Pair::as_rule], [as_str] and [into_inner]. *)
Definition as_rule {R} (p : pair R) : R := let 'Pair r _ _ := p in r.
Definition as_str {R} (p : pair R) : string := let 'Pair _ t _ := p in t.
Definition into_inner {R} (p : pair R) : list (pair R) := let 'Pair _ _ l := p in l.

(** * Meaning *)

(** The rest of a text after a beginning. *)
Fixpoint strip_text (t s : string) : option string :=
  match t, s with
  | EmptyString, _ => Some s
  | String a t, String b s => if decide (a = b) then strip_text t s else None
  | String _ _, EmptyString => None
  end.

Definition space : ascii := " "%char.

(** The spaces at the beginning of a text, and what follows. *)
Fixpoint spaces (s : string) : string * string :=
  match s with
  | String c s' =>
      if decide (c = space) then let '(t, r) := spaces s' in (String c t, r) else (EmptyString, s)
  | EmptyString => (EmptyString, EmptyString)
  end.

Definition skip (m : mode) (s : string) : string * string :=
  match m with Spaced => spaces s | _ => (EmptyString, s) end.

Section Grammar.
Context {R : Type} (grammar : R -> kind * expr R).

(** The mode inside of a rule. *)
Definition mode_in (k : kind) (m : mode) : mode :=
  match k with Atomically => Atomic | Compoundly => Compound | _ => m end.

(** The pair of a rule: none for a silent rule, and none inside of an atomic one. *)
Definition close (m : mode) (r : R) (k : kind) (o : outcome R) : outcome R :=
  match o with
  | NoMatch => NoMatch
  | Match t rest l =>
      match k, m with
      | Silent, _ | Plain, Atomic | Atomically, Atomic => Match t rest l
      | _, _ => Match t rest [Pair r t l]
      end
  end.

Inductive peg : mode -> expr R -> string -> outcome R -> Prop :=
| peg_str m t s : peg m (Str t) s (match strip_text t s with Some r => Match t r [] | None => NoMatch end)
| peg_chr m p s :
    peg m (Chr p) s
      (match s with
       | String c s => if p c then Match (String c EmptyString) s [] else NoMatch
       | EmptyString => NoMatch
       end)
| peg_eoi m s : peg m Eoi s (match s with EmptyString => Match EmptyString EmptyString [] | _ => NoMatch end)
| peg_call m r s o :
    peg (mode_in (grammar r).1 m) (grammar r).2 s o -> peg m (Call r) s (close m r (grammar r).1 o)
| peg_seq_first m a b s : peg m a s NoMatch -> peg m (Seq a b) s NoMatch
| peg_seq_second m a b s t r l : peg m a s (Match t r l) -> peg m b (skip m r).2 NoMatch -> peg m (Seq a b) s NoMatch
| peg_seq m a b s t r l t' r' l' :
    peg m a s (Match t r l) -> peg m b (skip m r).2 (Match t' r' l') ->
    peg m (Seq a b) s (Match (t +:+ (skip m r).1 +:+ t') r' (l ++ l'))
| peg_choice_first m a b s t r l : peg m a s (Match t r l) -> peg m (Choice a b) s (Match t r l)
| peg_choice m a b s o : peg m a s NoMatch -> peg m b s o -> peg m (Choice a b) s o
| peg_opt_none m a s : peg m a s NoMatch -> peg m (Opt a) s (Match EmptyString s [])
| peg_opt m a s t r l : peg m a s (Match t r l) -> peg m (Opt a) s (Match t r l)
| peg_rep_none m a s : peg m a s NoMatch -> peg m (Rep a) s (Match EmptyString s [])
| peg_rep m a s t r l t' r' l' :
    peg m a s (Match t r l) -> peg m (Again a) r (Match t' r' l') -> peg m (Rep a) s (Match (t +:+ t') r' (l ++ l'))
| peg_again_none m a s : peg m a (skip m s).2 NoMatch -> peg m (Again a) s (Match EmptyString s [])
| peg_again m a s t r l t' r' l' :
    peg m a (skip m s).2 (Match t r l) -> peg m (Again a) r (Match t' r' l') ->
    peg m (Again a) s (Match ((skip m s).1 +:+ t +:+ t') r' (l ++ l'))
| peg_not m a s t r l : peg m a s (Match t r l) -> peg m (Not a) s NoMatch
| peg_not_none m a s : peg m a s NoMatch -> peg m (Not a) s (Match EmptyString s []).

(** * Evaluation *)

Fixpoint run (n : nat) (m : mode) (e : expr R) (s : string) : option (outcome R) :=
  match n with
  | 0 => None
  | S n =>
      match e with
      | Str t => Some (match strip_text t s with Some r => Match t r [] | None => NoMatch end)
      | Chr p =>
          Some (match s with
                | String c s => if p c then Match (String c EmptyString) s [] else NoMatch
                | EmptyString => NoMatch
                end)
      | Eoi => Some (match s with EmptyString => Match EmptyString EmptyString [] | _ => NoMatch end)
      | Call r => let '(k, body) := grammar r in close m r k <$> run n (mode_in k m) body s
      | Seq a b =>
          o ← run n m a s;
          match o with
          | NoMatch => Some NoMatch
          | Match t r l =>
              o ← run n m b (skip m r).2;
              Some (match o with
                    | NoMatch => NoMatch
                    | Match t' r' l' => Match (t +:+ (skip m r).1 +:+ t') r' (l ++ l')
                    end)
          end
      | Choice a b =>
          o ← run n m a s; match o with NoMatch => run n m b s | Match t r l => Some (Match t r l) end
      | Opt a =>
          o ← run n m a s;
          Some (match o with NoMatch => Match EmptyString s [] | Match t r l => Match t r l end)
      | Rep a =>
          o ← run n m a s;
          match o with
          | NoMatch => Some (Match EmptyString s [])
          | Match t r l =>
              o ← run n m (Again a) r;
              Some (match o with NoMatch => NoMatch | Match t' r' l' => Match (t +:+ t') r' (l ++ l') end)
          end
      | Again a =>
          o ← run n m a (skip m s).2;
          match o with
          | NoMatch => Some (Match EmptyString s [])
          | Match t r l =>
              o ← run n m (Again a) r;
              Some (match o with
                    | NoMatch => NoMatch
                    | Match t' r' l' => Match ((skip m s).1 +:+ t +:+ t') r' (l ++ l')
                    end)
          end
      | Not a =>
          o ← run n m a s;
          Some (match o with NoMatch => Match EmptyString s [] | Match _ _ _ => NoMatch end)
      end
  end.

(** [Grammar::parse]: the pairs of a rule at the beginning of a text; [Err] if it does not match. *)
Definition parse_rule (n : nat) (r : R) (s : string) : res (list (pair R)) :=
  match run n Spaced (Call r) s with
  | None => OutOfFuel
  | Some NoMatch => Err "parsing error"
  | Some (Match _ _ l) => Ok l
  end.

(** * The evaluation computes the meaning *)

(** Repetitions never fail after their first round. *)
Lemma again_matches n m a s : run n m (Again a) s ≠ Some NoMatch.
Proof.
  revert s. induction n as [|n IH]; intros s; simpl; [done|]. destruct (run n m a (skip m s).2) as [[|t r l]|]; try done. simpl.
  destruct (run n m (Again a) r) as [[|t' r' l']|] eqn:E; try done. by apply IH in E.
Qed.

Lemma run_sound n m e s o : run n m e s = Some o -> peg m e s o.
Proof.
  revert m e s o. induction n as [|n IH]; intros m e s o; [done|].
  destruct e; simpl; try (by intros [= <-]; constructor).
  - destruct (grammar r) as [k body] eqn:E. intros (o' & Hr & ->)%fmap_Some.
    pose proof (peg_call m r s o') as Hc. rewrite E in Hc. by apply Hc, IH.
  - destruct (run n m e1 s) as [[|t r l]|] eqn:E1; simpl; try done; apply IH in E1.
    { intros [= <-]. by constructor. }
    destruct (run n m e2 (skip m r).2) as [[|t' r' l']|] eqn:E2; simpl; try done; apply IH in E2; intros [= <-].
    + by eapply peg_seq_second.
    + by eapply peg_seq.
  - destruct (run n m e1 s) as [[|t r l]|] eqn:E1; simpl; try done; apply IH in E1.
    + intros Ho%IH. by apply peg_choice.
    + intros [= <-]. by constructor.
  - destruct (run n m e s) as [[|t r l]|] eqn:E1; simpl; try done; apply IH in E1; intros [= <-]; by constructor.
  - destruct (run n m e s) as [[|t r l]|] eqn:E1; simpl; try done; apply IH in E1.
    { intros [= <-]. by constructor. }
    destruct (run n m (Again e) r) as [[|t' r' l']|] eqn:E2; simpl; try done; [by apply again_matches in E2|].
    apply IH in E2. intros [= <-]. by eapply peg_rep.
  - destruct (run n m e (skip m s).2) as [[|t r l]|] eqn:E1; simpl; try done; apply IH in E1.
    { intros [= <-]. by constructor. }
    destruct (run n m (Again e) r) as [[|t' r' l']|] eqn:E2; simpl; try done; [by apply again_matches in E2|].
    apply IH in E2. intros [= <-]. by eapply peg_again.
  - destruct (run n m e s) as [[|t r l]|] eqn:E1; simpl; try done; apply IH in E1; intros [= <-]; by econstructor.
Qed.

(** More budget gives the same result. *)
Lemma run_mono n n' m e s o : n <= n' -> run n m e s = Some o -> run n' m e s = Some o.
Proof.
  revert n' m e s o. induction n as [|n IH]; intros n' m e s o Hn; [done|]. destruct n' as [|n']; [lia|].
  assert (forall m e s o, run n m e s = Some o -> run n' m e s = Some o) as Hr by (intros; apply IH; [lia|done]).
  destruct e; simpl; try done.
  - destruct (grammar r) as [k body]. intros (o' & E & ->)%fmap_Some. by rewrite (Hr _ _ _ _ E).
  - intros (o1 & E1 & H1)%bind_Some. rewrite (Hr _ _ _ _ E1). simpl. destruct o1; [done|].
    apply bind_Some in H1 as (o2 & E2 & H2). by rewrite (Hr _ _ _ _ E2).
  - intros (o1 & E1 & H1)%bind_Some. rewrite (Hr _ _ _ _ E1). simpl. destruct o1; auto.
  - intros (o1 & E1 & H1)%bind_Some. by rewrite (Hr _ _ _ _ E1).
  - intros (o1 & E1 & H1)%bind_Some. rewrite (Hr _ _ _ _ E1). simpl. destruct o1; [done|].
    apply bind_Some in H1 as (o2 & E2 & H2). by rewrite (Hr _ _ _ _ E2).
  - intros (o1 & E1 & H1)%bind_Some. rewrite (Hr _ _ _ _ E1). simpl. destruct o1; [done|].
    apply bind_Some in H1 as (o2 & E2 & H2). by rewrite (Hr _ _ _ _ E2).
  - intros (o1 & E1 & H1)%bind_Some. by rewrite (Hr _ _ _ _ E1).
Qed.

Lemma run_complete m e s o : peg m e s o -> exists n, run n m e s = Some o.
Proof.
  induction 1 as [| | |m r s o _ [n IH]|m a b s _ [n IH]|m a b s t r l _ [n1 IH1] _ [n2 IH2]
    |m a b s t r l t' r' l' _ [n1 IH1] _ [n2 IH2]|m a b s t r l _ [n IH]|m a b s o _ [n1 IH1] _ [n2 IH2]
    |m a s _ [n IH]|m a s t r l _ [n IH]|m a s _ [n IH]|m a s t r l t' r' l' _ [n1 IH1] _ [n2 IH2]
    |m a s _ [n IH]|m a s t r l t' r' l' _ [n1 IH1] _ [n2 IH2]|m a s t r l _ [n IH]|m a s _ [n IH]];
    try (by exists 1);
    try (exists (S n); simpl; rewrite IH; done);
    try (exists (S (n1 + n2)); simpl; rewrite (run_mono n1 (n1 + n2) _ _ _ _ ltac:(lia) IH1); simpl;
      rewrite (run_mono n2 (n1 + n2) _ _ _ _ ltac:(lia) IH2); done).
  exists (S n). simpl. destruct (grammar r) as [k body]. simpl in *. by rewrite IH.
Qed.

Lemma peg_evaluated m e s o : peg m e s o -> exists n0, forall n, n0 <= n -> run n m e s = Some o.
Proof. intros [n0 Hn]%run_complete. exists n0. intros n Hle. by eapply run_mono. Qed.

Lemma peg_deterministic m e s o o' : peg m e s o -> peg m e s o' -> o = o'.
Proof.
  intros [n Hn]%peg_evaluated [n' Hn']%peg_evaluated.
  specialize (Hn (n + n') ltac:(lia)). specialize (Hn' (n + n') ltac:(lia)). congruence.
Qed.

(** The text and the rest of a match are the input. *)
Lemma strip_text_app t s r : strip_text t s = Some r <-> s = t +:+ r.
Proof.
  revert s. induction t as [|a t IH]; intros s; simpl; [naive_solver|]. destruct s as [|b s]; [done|].
  case_decide as Hd; [subst; rewrite IH; naive_solver|]. split; [done|]. by intros [= -> _].
Qed.

Lemma skip_text m s : s = (skip m s).1 +:+ (skip m s).2.
Proof.
  destruct m; try done. simpl. induction s as [|c s IH]; simpl; [done|]. case_decide; [|done].
  destruct (spaces s) as [t r]. simpl in *. by rewrite IH.
Qed.

Lemma peg_text m e s o :
  peg m e s o -> match o with NoMatch => True | Match t r _ => s = t +:+ r end.
Proof.
  induction 1 as [m t s|m p s|m s|m r s o _ IH| | |m a b s t r l t' r' l' _ IH1 _ IH2| |m a b s o _ _ _ IH
    | | | |m a s t r l t' r' l' _ IH1 _ IH2| |m a s t r l t' r' l' _ IH1 _ IH2| |]; try done.
  - destruct (strip_text t s) eqn:E; [|done]. by apply strip_text_app.
  - destruct s as [|c s]; [done|]. by destruct (p c).
  - by destruct s.
  - destruct o as [|t r' l]; [done|]. simpl. by destruct (grammar r).1, m.
  - rewrite IH1 at 1. rewrite (skip_text m r) at 1. rewrite IH2 at 1. by rewrite !append_assoc.
  - rewrite IH1 at 1. rewrite IH2 at 1. by rewrite append_assoc.
  - rewrite (skip_text m s) at 1. rewrite IH1 at 1. rewrite IH2 at 1. by rewrite !append_assoc.
Qed.
End Grammar.
