(* ===== verification/Grammar.v ===== *)
(** The grammar of filters (josh-filter/src/flang/grammar.pest). *)

From S2P Require Import Prelude Pest.

Module Rule.

(** [Rule]: the rules of the grammar, and the end of the input. *)
Inductive t :=
| WHITESPACE | CMD_START | CMT_START | CMD_END | CMD_SEP | ALNUM | GROUP_START | GROUP_END | PATH
| filter_path | argument | rev | sstring | dstring | string | inner | char | object_oid
| filter_insert | filter_spec | filter_group | filter_subdir | filter_stored | filter_starlark
| filter_treeid | filter_treeref | filter_treederef | filter_nop | filter_presub | filter
| filter_noarg | filter_message | filter_rev | rev_entry | rev_default | rev_match
| filter_unapply | filter_replace | filter_squash | filter_scope | filter_meta | cmd
| file_entry | compose | workspace_comments | workspace_file | filter_chain | dst_path | path
| EOI.

#[global] Instance eq_dec : EqDecision t.
Proof. solve_decision. Defined.

End Rule.

Abbreviation syntax := (expr Rule.t).
Abbreviation node_pair := (pair Rule.t).

(** * Characters *)

Definition char_in (l : list nat) (c : ascii) : bool := existsb (Nat.eqb (nat_of_ascii c)) l.
Definition char_between (a b : nat) (c : ascii) : bool := (a <=? nat_of_ascii c) && (nat_of_ascii c <=? b).

Definition ASCII_ALPHANUMERIC : syntax :=
  Chr (fun c => char_between 48 57 c || char_between 65 90 c || char_between 97 122 c).
Definition ASCII_HEX_DIGIT : syntax :=
  Chr (fun c => char_between 48 57 c || char_between 65 70 c || char_between 97 102 c).
(** A byte of a text: every use of [ANY] repeats it up to an ASCII character. *)
Definition ANY : syntax := Chr (fun _ => true).

Definition of_char (n : nat) : string := String (ascii_of_nat n) EmptyString.
Definition NEWLINE : syntax :=
  (Str (of_char 10) <|> Str (of_char 13 +:+ of_char 10) <|> Str (of_char 13))%pest.
Definition DQUOTE : syntax := Str (of_char 34).
Definition SQUOTE : syntax := Str (of_char 39).
Definition BACKSLASH : syntax := Str (of_char 92).

(** * The rules *)

Section Rules.
Import Rule.
Local Open Scope pest_scope.
Local Coercion call (r : t) : syntax := Call r.

(** A list of entries in parentheses, one per line or separated by commas. *)
Definition entries (e : syntax) : syntax := Rep NEWLINE ~> Opt e ~> Rep (Rep1 CMD_SEP ~> e) ~> Rep NEWLINE.

(** The alternatives of [filter_spec]. *)
Definition filter_item : syntax :=
  filter_group <|> filter_message <|> filter_rev <|> filter_unapply <|> filter_replace <|> filter_squash
  <|> filter_insert <|> filter_presub <|> filter_subdir <|> filter_stored <|> filter_starlark
  <|> filter_treeid <|> filter_treeref <|> filter_treederef <|> filter_nop <|> filter_scope
  <|> filter_meta <|> filter <|> filter_noarg.

Definition grammar (r : t) : kind * syntax :=
  match r with
  | WHITESPACE => (Silent, Str " ")
  | CMD_START => (Silent, Str ":")
  | CMT_START => (Silent, Str "#")
  | CMD_END => (Silent, Str "=" <|> Str "/")
  | CMD_SEP => (Silent, Str "," <|> NEWLINE)
  | ALNUM =>
      (Silent, ASCII_ALPHANUMERIC <|> Str "_" <|> Str "-" <|> Str "+" <|> Str "." <|> Str "*" <|> Str "~")
  | GROUP_START => (Silent, Str "[")
  | GROUP_END => (Silent, Str "]")
  | PATH => (Silent, Rep1 (ALNUM <|> Str "/"))
  | filter_path => (Plain, Call PATH)
  | argument => (Plain, string <|> PATH)
  | rev => (Plain, string <|> Rep1 ALNUM)
  | sstring => (Silent, SQUOTE ~> inner ~> SQUOTE)
  | dstring => (Silent, DQUOTE ~> inner ~> DQUOTE)
  | string => (Compoundly, sstring <|> dstring)
  | inner => (Atomically, Rep char)
  | char =>
      (Plain,
       (Not (DQUOTE <|> SQUOTE <|> BACKSLASH) ~> ANY)
       <|> (BACKSLASH ~> (DQUOTE <|> SQUOTE <|> BACKSLASH <|> Str "/" <|> Str "b" <|> Str "f" <|> Str "n"
                          <|> Str "r" <|> Str "t" <|> Str "u")))
  | object_oid => (Atomically, Rep1 ASCII_HEX_DIGIT)
  | filter_insert => (Plain, CMD_START ~> Str "$" ~> argument ~> Str "=" ~> (string <|> object_oid))
  | filter_spec => (Plain, Rep1 filter_item)
  | filter_group => (Plain, CMD_START ~> Opt cmd ~> GROUP_START ~> compose ~> GROUP_END)
  | filter_subdir => (Plain, CMD_START ~> Str "/" ~> argument)
  | filter_stored => (Plain, CMD_START ~> Str "+" ~> argument)
  | filter_starlark => (Plain, CMD_START ~> Str "!" ~> argument ~> GROUP_START ~> compose ~> GROUP_END)
  | filter_treeid => (Plain, CMD_START ~> Str "#" ~> argument ~> GROUP_START ~> compose ~> GROUP_END)
  | filter_treeref => (Plain, CMD_START ~> Str "&" ~> argument)
  | filter_treederef => (Plain, CMD_START ~> Str "#" ~> argument)
  | filter_nop => (Plain, CMD_START ~> Str "/")
  | filter_presub => (Plain, CMD_START ~> Str ":" ~> argument ~> Opt (Str "=" ~> argument))
  | filter => (Plain, CMD_START ~> cmd ~> Str "=" ~> Opt (argument ~> Rep (Str ";" ~> argument)))
  | filter_noarg => (Plain, CMD_START ~> cmd)
  | filter_message => (Plain, CMD_START ~> string ~> Opt (Str ";" ~> string))
  | filter_rev => (Plain, CMD_START ~> Str "rev" ~> Str "(" ~> entries rev_entry ~> Str ")")
  | rev_entry => (Plain, rev_default <|> (rev_match ~> rev ~> filter_spec))
  | rev_default => (Plain, Str "_" ~> filter_spec)
  | rev_match => (Plain, Str "<=" <|> Str "<" <|> Str "==")
  | filter_unapply => (Plain, CMD_START ~> Str "unapply" ~> Str "(" ~> entries (rev ~> filter_spec) ~> Str ")")
  | filter_replace => (Plain, CMD_START ~> Str "replace" ~> Str "(" ~> entries (string ~> Str ":" ~> string) ~> Str ")")
  | filter_squash => (Plain, CMD_START ~> Str "squash" ~> Str "(" ~> entries (rev ~> filter_spec) ~> Str ")")
  | filter_scope =>
      (Plain, CMD_START ~> Str "<" ~> Rep NEWLINE ~> filter_spec ~> Rep NEWLINE ~> Str ">"
              ~> GROUP_START ~> compose ~> GROUP_END)
  | filter_meta =>
      (Plain, CMD_START ~> Str "~" ~> Str "(" ~> entries (filter_path ~> Str "=" ~> string) ~> Str ")"
              ~> GROUP_START ~> compose ~> GROUP_END)
  | cmd => (Plain, Rep1 ALNUM)
  | file_entry => (Plain, dst_path ~> Str "=" ~> filter_spec)
  | compose => (Plain, entries (filter_spec <|> file_entry))
  | workspace_comments =>
      (Plain, Rep NEWLINE ~> Rep1 ((CMT_START ~> Rep (Not NEWLINE ~> ANY)) ~> Rep NEWLINE))
  | workspace_file => (Plain, Opt workspace_comments ~> compose ~> EOI)
  | filter_chain => (Silent, filter_spec ~> EOI)
  | dst_path => (Atomically, path ~> Rep (Str "/" ~> path))
  | path => (Atomically, Rep1 ALNUM)
  | EOI => (Plain, Eoi)
  end.

End Rules.

Definition parse_grammar (n : nat) (r : Rule.t) (s : string) : res (list node_pair) := parse_rule grammar n r s.
