(* ===== verification/FlangParse.v ===== *)
(** Reading filters from text (josh-filter/src/flang/parse.rs): the pairs of the grammar are turned
    into filters with the builders of Builders, which optimize as they go. *)

From S2P Require Import Path OptState Invert Step Builders Objects Utf8 Persist Pest Grammar Prelude Ops.

Open Scope nat_scope.

(** * Quoting *)

(** [serde_json] on text: strings are written in double quotes, with quotes, backslashes and
    control characters escaped, and the reader takes back what was written; what it takes for a
    string starts with white space or a double quote. *)
Definition escaped (c : ascii) : bool := char_in [34; 39; 92; 47; 98; 102; 110; 114; 116; 117] c.
Fixpoint json_body (s : string) : bool :=
  match s with
  | EmptyString => true
  | String c s' =>
      if char_in [92] c then match s' with String d s'' => escaped d && json_body s'' | EmptyString => false end
      else negb (char_in [34; 39] c) && json_body s'
  end.

Fixpoint has_char (c : ascii) (s : string) : bool :=
  match s with EmptyString => false | String d s => bool_decide (c = d) || has_char c s end.

Class JsonText `{Readers} := {
  json_quote : string -> string;
  json_quote_text s :
    valid_utf8 s = true -> has_char LazyRef.squote s = false -> exists body,
      json_quote s = String LazyRef.dquote (body +:+ String LazyRef.dquote EmptyString) /\
      json_body body = true /\ has_char LazyRef.squote body = false;
  json_quote_read s : valid_utf8 s = true -> json_string (json_quote s) = Some s;
  json_string_start c s x :
    json_string (String c s) = Some x -> char_in [32; 9; 10; 13; 34] c = true;
  json_string_empty : json_string EmptyString = None;
}.

(** [quote]. *)
Definition quote `{JsonText} (s : string) : string := json_quote s.

(** [unquote]. *)
Definition unquote `{Readers} (s : string) : string :=
  let s := LazyRef.replace_char LazyRef.squote LazyRef.dquote s in default s (json_string s).

(** [char::is_whitespace], for the characters below 128; a text with other characters is not a
    path of the grammar anyway. *)
Definition is_whitespace (c : ascii) : bool := char_in [9; 10; 11; 12; 13; 32] c.
Fixpoint any_char (p : ascii -> bool) (s : string) : bool :=
  match s with EmptyString => false | String c s => p c || any_char p s end.

(** [quote_if]. *)
Definition quote_if `{JsonText} (h : nat) (s : string) : res string :=
  match parse_grammar h Rule.filter_path s with
  | Ok (p :: _) =>
      Ok (if negb (any_char is_whitespace s) && bool_decide (as_str p = s) then s else quote s)
  | OutOfFuel => OutOfFuel
  | _ => Ok (quote s)
  end.

(** [Itertools::tuples] for two. *)
Fixpoint tuples {A} (l : list A) : list (A * A) :=
  match l with a :: b :: l => (a, b) :: tuples l | _ => [] end.

(** [slice::chunks] of two, the complete ones. *)
Definition chunks2 {A} (l : list A) : list (A * A) := tuples l.

Fixpoint ends_with_slash (s : string) : bool :=
  match s with
  | EmptyString => false
  | String c EmptyString => bool_decide (c = slash)
  | String _ s => ends_with_slash s
  end.

(** [trim_end_matches('/')]. *)
Fixpoint trim_end_slashes (s : string) : string :=
  match s with
  | EmptyString => EmptyString
  | String c s' =>
      match trim_end_slashes s' with
      | EmptyString => if decide (c = slash) then EmptyString else String c EmptyString
      | t => String c t
      end
  end.

Definition star : ascii := "*"%char.

Section Parse.
Context `{Readers}.
(** The budget, and whether experimental filters are enabled. *)
Context (h : nat) (experimental : bool).

Definition check_experimental_features_enabled (feature : string) : opt unit :=
  Filter.check_experimental experimental feature.

Definition lazy_ref (s : string) : opt LazyRef.t := lift (LazyRef.parse json_string oid_from_str s).

(** [make_filter]. *)
Definition make_filter (args : list string) : opt filter :=
  let f := Filter.new in
  match args with
  | ["nop"] => mret f
  | ["empty"] => mret (Filter.empty f)
  | ["prefix"; arg] => Filter.prefix h f (components arg)
  | ["author"; name; email] => Filter.author h f name email
  | ["committer"; name; email] => Filter.committer h f name email
  | ["workspace"; arg] => Filter.workspace h f (components arg)
  | ["prefix"] => fail "Filter :prefix requires an argument."
  | ["workspace"] => fail "Filter :workspace requires an argument."
  | ["SQUASH"] => Filter.squash h f None
  | "SQUASH" :: _ => fail "SQUASH with ids can't be parsed"
  | ["linear"] => mret (Filter.linear f)
  | ["prune"; "trivial-merge"] => Filter.prune_trivial_merge h f
  | ["prune"] => fail "Filter :prune requires an argument."
  | ["prune"; _] => fail "Filter :prune only supports trivial-merge as argument value."
  | ["unsign"] => mret (Filter.unsign f)
  | ["unlink"] =>
      check_experimental_features_enabled "unlink filter" ≫= fun _ => mret (to_filter Op.Unlink)
  | ["adapt"; adapter] =>
      check_experimental_features_enabled "adapt filter" ≫= fun _ => mret (to_filter (Op.Adapt adapter))
  | ["link"] =>
      check_experimental_features_enabled "link filter" ≫= fun _ => mret (to_filter (Op.Link None))
  | ["link"; mode] =>
      check_experimental_features_enabled "link filter" ≫= fun _ =>
      m ← lift (LinkMode.parse mode); mret (to_filter (Op.Link (Some m)))
  | ["embed"; path] =>
      check_experimental_features_enabled "embed filter" ≫= fun _ => mret (to_filter (Op.Embed (components path)))
  | ["export"] =>
      check_experimental_features_enabled "export filter" ≫= fun _ => mret (to_filter Op.Export)
  | ["PATHS"] => mret (to_filter Op.Paths)
  | ["INDEX"] =>
      check_experimental_features_enabled ":INDEX filter" ≫= fun _ => mret (to_filter Op.Index)
  | ["INVERT"] => mret (to_filter Op.Invert)
  | ["FOLD"] => mret (to_filter Op.Fold)
  | ["hook"; arg] => Filter.hook h f arg
  | ["_"; sha] =>
      check_experimental_features_enabled "downstack filter" ≫= fun _ =>
      r ← lazy_ref sha; mret (to_filter (Op.Downstack r))
  | ["_"] => fail "Filter :_ requires a base SHA argument."
  | _ => fail ("Invalid filter: " +:+ default EmptyString (head args))
  end.

(** [parse_treederef]. *)
Definition parse_treederef (arg : string) : opt filter :=
  let f := Filter.new in
  match arg with
  | String c rest =>
      if decide (c = slash) then
        let path := components rest in
        g ← Filter.chain h f (to_filter (Op.ObjectDeref path)); Filter.subdir h g path
      else Filter.chain h f (to_filter (Op.ObjectDeref (components arg)))
  | EmptyString => Filter.chain h f (to_filter (Op.ObjectDeref (components arg)))
  end.

(** [next().unwrap()]: the rules make the pairs. *)
Definition next (l : list node_pair) : opt node_pair :=
  match l with p :: _ => mret p | [] => fail "called unwrap on a None value" end.
Definition next2 (l : list node_pair) : opt (node_pair * node_pair) :=
  match l with p :: q :: _ => mret (p, q) | _ => fail "called unwrap on a None value" end.

Definition text_of (p : node_pair) : string := unquote (as_str p).
Definition path_of (p : node_pair) : path := components (text_of p).

(** [regex::Regex::new]. *)
Definition new_regex (s : string) : opt regex := if regex_new s then mret s else fail "invalid regex".

Section Items.
(** The recursive calls. *)
Context (parse : string -> opt filter).

(** [parse_file_entry]: the filter of an entry. *)
Definition parse_file_entry (p : node_pair) : opt (option filter) :=
  match as_rule p with
  | Rule.file_entry =>
      path ← next (into_inner p);
      let text := match drop 1 (into_inner p) with x :: _ => as_str x | [] => ":/" +:+ as_str path end in
      f ← parse text;
      f ← Filter.chain h f (to_filter (Op.Prefix (components (as_str path))));
      mret (Some f)
  | Rule.filter_spec => f ← parse (as_str p); mret (Some f)
  | Rule.EOI => mret None
  | _ => fail "invalid workspace file"
  end.

(** [parse_group]. *)
Definition parse_group (text : string) : opt (list filter) :=
  match parse_grammar h Rule.compose text with
  | Ok (r :: _) => l ← mapM parse_file_entry (into_inner r); mret (omap id l)
  | Ok [] => fail "called unwrap on a None value"
  | Err _ => fail "Invalid workspace"
  | OutOfFuel => lift OutOfFuel
  end.

(** [parse_workspace]. *)
Fixpoint workspace_pairs (l : list node_pair) : opt (list filter) :=
  match l with
  | [] => fail "invalid workspace file"
  | p :: l =>
      match as_rule p with
      | Rule.compose => parse_group (as_str p)
      | Rule.workspace_comments => workspace_pairs l
      | _ => fail "invalid workspace file"
      end
  end.
Definition parse_workspace (text : string) : opt (list filter) :=
  match parse_grammar h Rule.workspace_file text with
  | Ok (r :: _) => workspace_pairs (into_inner r)
  | Ok [] => fail "called unwrap on a None value"
  | Err _ => fail "Invalid workspace"
  | OutOfFuel => lift OutOfFuel
  end.

(** The [filter_presub] case of [parse_item]. *)
Definition parse_presub (arg : string) (second : option string) : opt filter :=
  let f := Filter.new in
  if ends_with_slash arg then
    let p := components (trim_end_slashes arg) in g ← Filter.subdir h f p; Filter.prefix h g p
  else if has_char star arg then
    match second with
    | Some _ => fail "Pattern filters cannot use destination=source syntax"
    | None => Filter.pattern h f arg
    end
  else
    match second with
    | Some source =>
        if has_char star source then fail "Pattern filters not supported in source path"
        else Filter.rename h f (components arg) (components source)
    | None => Filter.rename h f (components arg) (components arg)
    end.

(** The [filter_group] case of [parse_item]. *)
Definition parse_command (cmd : string) (g : list filter) : opt filter :=
  let all := to_filter (Op.Compose g) in
  if decide (cmd = "pin") then mret (to_filter (Op.Pin all))
  else if decide (cmd = "exclude") then mret (to_filter (Op.Exclude all))
  else if decide (cmd = "select") then mret (to_filter (Op.Select all))
  else if decide (cmd = "linear") then mret (Filter.linear all)
  else if decide (cmd = "invert") then invert_filter all
  else if decide (cmd = "subtract") then
    match g with
    | [a; b] => mret (to_filter (Op.Subtract a b))
    | _ => fail "parse_item: no match"
    end
  else fail "parse_item: no match".

(** An entry of the [filter_rev] case of [parse_item]. *)
Definition parse_rev_entry (p : node_pair) : opt (RevMatch.t * LazyRef.t * filter) :=
  match as_rule p with
  | Rule.rev_entry =>
      match into_inner p with
      | [] => fail "rev_entry: empty"
      | first :: rest =>
          match as_rule first with
          | Rule.rev_default =>
              match into_inner first with
              | x :: _ => f ← parse (as_str x); mret (RevMatch.Default, LazyRef.Resolved zero_oid, f)
              | [] => fail "rev_default: missing filter"
              end
          | Rule.rev_match =>
              m ← (if decide (as_str first = "<") then mret RevMatch.AncestorStrict
                   else if decide (as_str first = "<=") then mret RevMatch.AncestorInclusive
                   else if decide (as_str first = "==") then mret RevMatch.Equal
                   else fail "invalid rev match operator");
              match rest with
              | id :: x :: _ => r ← lazy_ref (as_str id); f ← parse (as_str x); mret (m, r, f)
              | [_] => fail "rev_entry: missing filter"
              | [] => fail "rev_entry: missing rev"
              end
          | _ => fail "rev_entry: unexpected rule"
          end
      end
  | _ => fail "filter_rev: unexpected rule"
  end.

(** The [filter_meta] case of [parse_item]: the pairs before the composition, and it. *)
Fixpoint meta_items (l : list node_pair) : list node_pair * option node_pair :=
  match l with
  | [] => ([], None)
  | p :: l =>
      match as_rule p with
      | Rule.filter_path | Rule.string => let '(items, c) := meta_items l in (p :: items, c)
      | Rule.compose => ([], Some p)
      | _ => meta_items l
      end
  end.
Definition parse_meta (l : list node_pair) : opt filter :=
  let '(items, compose) := meta_items l in
  let meta := foldl (fun m x => btree_insert (as_str x.1) (text_of x.2) m) [] (chunks2 items) in
  match compose with
  | None => fail "filter_meta: missing filter"
  | Some c =>
      filters ← parse_group (as_str c);
      mret (to_filter (Op.Meta meta (match filters with [f] => f | _ => to_filter (Op.Compose filters) end)))
  end.

(** [parse_item]. *)
Definition parse_item (p : node_pair) : opt filter :=
  let f := Filter.new in
  let inner := into_inner p in
  match as_rule p with
  | Rule.filter => make_filter (text_of <$> inner)
  | Rule.filter_nop => mret f
  | Rule.filter_subdir => x ← next inner; Filter.subdir h f (path_of x)
  | Rule.filter_stored => x ← next inner; Filter.stored h f (path_of x)
  | Rule.filter_starlark =>
      check_experimental_features_enabled "Starlark filter" ≫= fun _ =>
      '(x, c) ← next2 inner; g ← parse_group (as_str c);
      Filter.starlark h experimental f (path_of x) (to_filter (Op.Compose g))
  | Rule.filter_treeid =>
      check_experimental_features_enabled "TreeId filter" ≫= fun _ =>
      '(x, c) ← next2 inner; g ← parse_group (as_str c);
      Filter.treeid h experimental f (path_of x) (to_filter (Op.Compose g))
  | Rule.filter_treeref =>
      check_experimental_features_enabled "ObjectRef filter" ≫= fun _ =>
      x ← next inner; Filter.chain h f (to_filter (Op.ObjectRef (path_of x)))
  | Rule.filter_treederef =>
      check_experimental_features_enabled "ObjectDeref filter" ≫= fun _ =>
      x ← next inner; parse_treederef (text_of x)
  | Rule.filter_insert =>
      '(x, c) ← next2 inner;
      content ←
        match as_rule c with
        | Rule.string => mret (InsertContent.Inline (text_of c))
        | _ =>
            match oid_from_str (as_str c) with
            | Some id => mret (InsertContent.Oid id)
            | None => fail "invalid object id"
            end
        end;
      mret (to_filter (Op.Insert (path_of x) content))
  | Rule.filter_presub => x ← next inner; parse_presub (text_of x) (text_of <$> (inner !! 1))
  | Rule.filter_noarg => x ← next inner; make_filter [as_str x]
  | Rule.filter_message =>
      x ← next inner;
      re ← match inner !! 1 with Some r => new_regex (text_of r) | None => mret MESSAGE_MATCH_ALL_REGEX end;
      Filter.message_regex h f (text_of x) re
  | Rule.filter_group =>
      match text_of <$> inner with
      | [args] => g ← parse_group args; mret (to_filter (Op.Compose g))
      | [cmd; args] => g ← parse_group args; parse_command cmd g
      | _ => fail "parse_item: no match"
      end
  | Rule.filter_rev => l ← mapM parse_rev_entry inner; mret (to_filter (Op.Rev l))
  | Rule.filter_unapply =>
      check_experimental_features_enabled "unapply filter" ≫= fun _ =>
      match as_str <$> inner with
      | [a; b] => r ← lazy_ref a; g ← parse b; mret (to_filter (Op.Unapply r g))
      | _ => fail "wrong argument count for :unapply"
      end
  | Rule.filter_replace =>
      l ← mapM (fun x => r ← new_regex x.1; mret (r, x.2)) (tuples (text_of <$> inner));
      mret (to_filter (Op.RegexReplace l))
  | Rule.filter_squash =>
      l ← mapM (fun x => r ← lazy_ref (as_str x.1); g ← parse (as_str x.2); mret (r, g)) (tuples inner);
      mret (to_filter (Op.Squash (Some (foldl (fun m x => ord_insert LazyRef.cmp x.1 x.2 m) [] l))))
  | Rule.filter_meta => parse_meta inner
  | Rule.filter_scope =>
      match inner with
      | [] => fail "filter_scope: missing filter_spec"
      | [_] => fail "filter_scope: missing compose"
      | a :: b :: _ =>
          x ← parse (as_str a); g ← parse_group (as_str b);
          r ← Filter.chain h f x; r ← Filter.chain h r (to_filter (Op.Compose g));
          y ← invert_filter x; Filter.chain h r y
      end
  | _ => fail "parse_item: no match"
  end.

(** The body of [parse]. *)
Definition parse_body (text : string) : opt filter :=
  if decide (text = EmptyString) then mret (to_filter Op.Empty)
  else
    match parse_grammar h Rule.filter_chain text with
    | Ok (r :: _) =>
        foldM (fun chain p => v ← parse_item p; Filter.chain h chain v) Filter.new (into_inner r)
    | Ok [] => fail "called unwrap on a None value"
    | Err _ => l ← parse_workspace text; Step.optimize h h (to_filter (Op.Compose l))
    | OutOfFuel => lift OutOfFuel
    end.
End Items.

(** [parse], with a budget of nested calls. *)
Fixpoint parse_within (n : nat) (text : string) : opt filter :=
  match n with
  | 0 => lift OutOfFuel
  | S n => parse_body (parse_within n) text
  end.
Definition parse (text : string) : opt filter := parse_within h text.

(** [get_comments]. *)
Definition get_comments (text : string) : res string :=
  match parse_grammar h Rule.workspace_file text with
  | Ok (r :: _) =>
      match into_inner r with
      | p :: _ =>
          match as_rule p with
          | Rule.workspace_comments => Ok (as_str p)
          | Rule.compose => Ok EmptyString
          | _ => Err "Invalid workspace"
          end
      | [] => Err "Invalid workspace"
      end
  | OutOfFuel => OutOfFuel
  | _ => Err "Invalid workspace"
  end.
End Parse.
