(* ===== verification/Flang.v ===== *)
(** Writing filters as text (josh-filter/src/flang/mod.rs): the compact form that is parsed again,
    and the form for files with one entry per line. *)

From S2P Require Import Path OptState Simplify Step Builders Objects Persist Pest Grammar FlangParse Prelude Ops.

Open Scope nat_scope.

(** [join] of strings. *)
Fixpoint join_with (sep : string) (l : list string) : string :=
  match l with
  | [] => EmptyString
  | [s] => s
  | s :: l => s +:+ sep +:+ join_with sep l
  end.

Definition newline : string := of_char 10.
Fixpoint repeat_space (n : nat) : string :=
  match n with 0 => EmptyString | S n => " " +:+ repeat_space n end.

(** A [Vec<String>] after [sort]. *)
Definition sorted (l : list string) : list string := merge_sort string_le l.

Section Print.
Context `{JsonText}.
(** The budget of the simplifier and of the grammar. *)
Context (h : nat).

Definition quoted (s : string) : opt string := lift (quote_if h s).
Definition quoted_path (p : path) : opt string := quoted (to_string p).

Definition rev_match_text (m : RevMatch.t) (r : LazyRef.t) : string :=
  match m with
  | RevMatch.AncestorStrict => "<" +:+ LazyRef.to_string r
  | RevMatch.AncestorInclusive => "<=" +:+ LazyRef.to_string r
  | RevMatch.Equal => "==" +:+ LazyRef.to_string r
  | RevMatch.Default => "_"
  end.

(** A directory that keeps its place. *)
Definition in_directory (l : list filter) : option path :=
  match l with
  | [a; b] =>
      match to_op a, to_op b with
      | Op.Subdir p, Op.Prefix q => if decide (p = q) then Some p else None
      | _, _ => None
      end
  | _ => None
  end.

(** [spec2] for the operators without filters in them. *)
Definition spec_leaf (o : Op.t) : opt string :=
  match o with
  | Op.Workspace p => s ← quoted_path p; mret (":workspace=" +:+ s)
  | Op.Stored p => s ← quoted_path p; mret (":+" +:+ s)
  | Op.ObjectDeref p => s ← quoted_path p; mret (":#" +:+ s)
  | Op.ObjectRef p => s ← quoted_path p; mret (":&" +:+ s)
  | Op.RegexReplace l =>
      mret (":replace(" +:+ join_with "," ((fun x => quote x.1 +:+ ":" +:+ quote x.2) <$> l) +:+ ")")
  | Op.Nop => mret ":/"
  | Op.Empty => mret ":empty"
  | Op.Paths => mret ":PATHS"
  | Op.Invert => mret ":INVERT"
  | Op.Index => mret ":INDEX"
  | Op.Fold => mret ":FOLD"
  | Op.Squash None => mret ":SQUASH"
  | Op.Adapt adapter => mret (":adapt=" +:+ adapter)
  | Op.Link None => mret ":link"
  | Op.Link (Some m) => mret (":link=" +:+ LinkMode.to_string m)
  | Op.Export => mret ":export"
  | Op.Unlink => mret ":unlink"
  | Op.Subdir p => s ← quoted_path p; mret (":/" +:+ s)
  | Op.Insert p content =>
      s ← quoted_path p;
      mret (":$" +:+ s +:+ "=" +:+
        match content with InsertContent.Inline c => quote c | InsertContent.Oid id => id end)
  | Op.File d s =>
      x ← quoted_path d;
      if decide (s = d) then mret ("::" +:+ x)
      else y ← quoted_path s; mret ("::" +:+ x +:+ "=" +:+ y)
  | Op.Prune => mret ":prune=trivial-merge"
  | Op.Prefix p => s ← quoted_path p; mret (":prefix=" +:+ s)
  | Op.Pattern glob => s ← quoted glob; mret ("::" +:+ s)
  | Op.Embed p => s ← quoted_path p; mret (":embed=" +:+ s)
  | Op.Author name email => mret (":author=" +:+ quote name +:+ ";" +:+ quote email)
  | Op.Committer name email => mret (":committer=" +:+ quote name +:+ ";" +:+ quote email)
  | Op.Message m r =>
      mret (if decide (r = MESSAGE_MATCH_ALL_REGEX) then ":" +:+ quote m else ":" +:+ quote m +:+ ";" +:+ quote r)
  | Op.Hook hook => mret (":hook=" +:+ quote hook)
  | Op.Downstack r => mret (":_=" +:+ LazyRef.to_string r)
  | _ => mret EmptyString
  end.

(** [spec2]; [n] bounds the nesting. *)
Fixpoint spec2 (n : nat) (o : Op.t) : opt string :=
  match n with
  | 0 => lift OutOfFuel
  | S n =>
      let spec f := g ← simplify h f; spec2 n (to_op g) in
      match o with
      | Op.Compose l => ss ← mapM spec l; mret (":[" +:+ join_with "," ss +:+ "]")
      | Op.Subtract a b => x ← spec a; y ← spec b; mret (":subtract[" +:+ x +:+ "," +:+ y +:+ "]")
      | Op.Exclude b => x ← spec b; mret (":exclude[" +:+ x +:+ "]")
      | Op.Select b => x ← spec b; mret (":select[" +:+ x +:+ "]")
      | Op.Pin b => x ← spec b; mret (":pin[" +:+ x +:+ "]")
      | Op.Rev l =>
          ss ← mapM (fun '(m, r, f) => x ← spec f; mret (rev_match_text m r +:+ x)) l;
          mret (":rev(" +:+ join_with "," ss +:+ ")")
      | Op.Starlark p sub => s ← quoted_path p; x ← spec sub; mret (":!" +:+ s +:+ "[" +:+ x +:+ "]")
      | Op.TreeId p sub => s ← quoted_path p; x ← spec sub; mret (":#" +:+ s +:+ "[" +:+ x +:+ "]")
      | Op.Chain [] => mret ":/"
      | Op.Chain l =>
          match in_directory l with
          | Some p => s ← quoted_path p; mret ("::" +:+ s +:+ "/")
          | None => ss ← mapM (fun f => spec2 n (to_op f)) l; mret (join_with EmptyString ss)
          end
      | Op.Squash (Some ids) =>
          ss ← mapM (fun x => s ← spec x.2; mret (LazyRef.to_string x.1 +:+ s)) ids;
          mret (":squash(" +:+ join_with "," (sorted ss) +:+ ")")
      | Op.Unapply r f => x ← spec f; mret (":unapply(" +:+ LazyRef.to_string r +:+ x +:+ ")")
      | Op.Meta meta f =>
          let parts := (fun kv => kv.1 +:+ "=" +:+ quote kv.2) <$> meta in
          x ← spec f; mret (":~(" +:+ join_with "," (sorted parts) +:+ ")[" +:+ x +:+ "]")
      | o => spec_leaf o
      end
  end.

(** [spec]. The two reserved ids it names first are keys of the commit cache (CommitCache), not
    operators. *)
Definition spec (f : filter) : opt string := g ← simplify h f; spec2 h (to_op g).

(** A group of entries on lines of their own: the closure [ff] of [pretty2]. *)
Definition group_lines (pretty2 : Op.t -> nat -> bool -> opt string) (l : list filter) (name : string) (ind : nat) :
    opt string :=
  let ind2 := Nat.max ind 4 in
  let i := newline +:+ repeat_space ind2 in
  ss ← mapM (fun x => pretty2 (to_op x) (ind + 4) true) l;
  mret (":" +:+ name +:+ "[" +:+ i +:+ join_with i ss +:+ newline +:+ repeat_space (ind2 - 4) +:+ "]").

(** [pretty2]. *)
Fixpoint pretty2 (n : nat) (o : Op.t) (indent : nat) (compose : bool) : opt string :=
  match n with
  | 0 => lift OutOfFuel
  | S n =>
      let ff := group_lines (pretty2 n) in
      let wrapped name f :=
        match to_op f with
        | Op.Compose l => ff l name indent
        | b => x ← pretty2 n b indent false; mret (":" +:+ name +:+ "[" +:+ x +:+ "]")
        end in
      match o with
      | Op.Compose l => ff l EmptyString indent
      | Op.Subtract a b => ff [a; b] "subtract" (indent + 4)
      | Op.Exclude f => wrapped "exclude" f
      | Op.Select f => wrapped "select" f
      | Op.Pin f => wrapped "pin" f
      | Op.Chain [] => mret ":/"
      | Op.Chain [f] => pretty2 n (to_op f) indent compose
      | Op.Chain l =>
          match in_directory l with
          | Some p => s ← quoted_path p; mret ("::" +:+ s +:+ "/")
          | None =>
              let all := ss ← mapM (fun f => pretty2 n (to_op f) indent false) l; mret (join_with EmptyString ss) in
              if compose then
                match last l with
                | Some (Op.Prefix p) =>
                    s ← quoted_path p;
                    x ← pretty2 n (Op.Chain (removelast l)) indent false;
                    mret (s +:+ " = " +:+ x)
                | _ => all
                end
              else all
          end
      | Op.RegexReplace l =>
          let v := (fun x => repeat_space indent +:+ quote x.1 +:+ ":" +:+ quote x.2) <$> l in
          mret (":replace(" +:+ newline +:+ join_with newline v +:+ newline +:+ ")")
      | Op.Squash (Some ids) =>
          v ← mapM (fun x => s ← spec x.2; mret (repeat_space indent +:+ LazyRef.to_string x.1 +:+ s)) ids;
          mret (":squash(" +:+ newline +:+ join_with newline (sorted v) +:+ newline +:+ ")")
      | Op.Meta meta f =>
          let ind2 := Nat.max indent 4 in
          let parts := (fun kv => repeat_space ind2 +:+ kv.1 +:+ "=" +:+ quote kv.2) <$> meta in
          let name := "~(" +:+ newline +:+ join_with newline (sorted parts) +:+ newline +:+ ")" in
          match to_op f with
          | Op.Compose l => ff l name indent
          | _ => ff [f] name indent
          end
      | o => spec2 h o
      end
  end.

(** [pretty]. *)
Definition pretty (f : filter) (indent : nat) : opt string :=
  f ← minimize h h f; f ← simplify h f;
  match to_op f with
  | Op.Compose l =>
      if decide (indent = 0) then
        ss ← mapM (fun x => pretty2 h (to_op x) (indent + 4) true) l;
        mret (join_with (newline +:+ repeat_space indent) ss)
      else pretty2 h (to_op f) indent true
  | o => pretty2 h o indent true
  end.

Fixpoint ends_with_newline (s : string) : bool :=
  match s with
  | EmptyString => false
  | String c EmptyString => bool_decide (nat_of_ascii c = 10)
  | String _ s => ends_with_newline s
  end.

(** [as_file]. *)
Definition as_file (f : filter) (indent : nat) : opt string :=
  content ← pretty f indent;
  mret (if ends_with_newline content then content else content +:+ newline).

End Print.
