(* ===== verification/FlangText.v ===== *)
(** The pieces of the texts of filters and what the grammar makes of them: paths, quoted strings,
    arguments and groups. *)

From S2P Require Import Prelude Path OptState Builders Objects Utf8 Persist Pest Grammar FlangParse Flang Ops.

Open Scope nat_scope.

Abbreviation peg := (Pest.peg grammar).
Abbreviation run := (Pest.run grammar).

(** * Sequences without spaces *)

Definition no_space (s : string) : bool :=
  match s with String c _ => negb (bool_decide (c = space)) | EmptyString => true end.

Lemma skip_none m s : no_space s = true -> skip m s = (EmptyString, s).
Proof.
  destruct m; try done. destruct s as [|c s]; [done|]. simpl. rewrite negb_true_iff, bool_decide_eq_false.
  intros Hc. by rewrite decide_False.
Qed.

Lemma peg_then m a b s t r l t' r' l' :
  peg m a s (Match t r l) -> no_space r = true -> peg m b r (Match t' r' l') ->
  peg m (Seq a b) s (Match (t +:+ t') r' (l ++ l')).
Proof.
  intros Ha Hr Hb. pose proof (peg_seq grammar m a b s t r l t' r' l' Ha) as Hs. rewrite skip_none in Hs by done.
  by apply Hs.
Qed.

Lemma peg_then_fails m a b s t r l :
  peg m a s (Match t r l) -> no_space r = true -> peg m b r NoMatch -> peg m (Seq a b) s NoMatch.
Proof. intros Ha Hr Hb. eapply peg_seq_second; [done|]. by rewrite skip_none. Qed.

Lemma peg_again_then m a s t r l t' r' l' :
  no_space s = true -> peg m a s (Match t r l) -> peg m (Again a) r (Match t' r' l') ->
  peg m (Again a) s (Match (t +:+ t') r' (l ++ l')).
Proof.
  intros Hs Ha Hr. pose proof (peg_again grammar m a s t r l t' r' l') as Hg. rewrite skip_none in Hg by done.
  by apply Hg.
Qed.

Lemma peg_again_stop m a s : no_space s = true -> peg m a s NoMatch -> peg m (Again a) s (Match EmptyString s []).
Proof. intros Hs Ha. apply peg_again_none. by rewrite skip_none. Qed.

Lemma peg_literal m t r : peg m (Str t) (t +:+ r) (Match t r []).
Proof.
  pose proof (peg_str grammar m t (t +:+ r)) as Hs. by rewrite (proj2 (strip_text_app t (t +:+ r) r) eq_refl) in Hs.
Qed.

(** * Paths *)

Definition alnum_char (c : ascii) : bool :=
  char_between 48 57 c || char_between 65 90 c || char_between 97 122 c || char_in [95; 45; 43; 46; 42; 126] c.
Definition path_char (c : ascii) : bool := alnum_char c || char_in [47] c.

Fixpoint all_char (p : ascii -> bool) (s : string) : bool :=
  match s with EmptyString => true | String c s => p c && all_char p s end.

Definition path_text (s : string) : bool := negb (bool_decide (s = EmptyString)) && all_char path_char s.

Definition path_item : syntax := Choice (Call Rule.ALNUM) (Str "/").

Lemma path_item_char c s :
  peg Spaced path_item (String c s) (if path_char c then Match (String c EmptyString) s [] else NoMatch).
Proof.
  destruct c as [b0 b1 b2 b3 b4 b5 b6 b7].
  apply (run_sound grammar 12). destruct b0, b1, b2, b3, b4, b5, b6, b7; reflexivity.
Qed.

Lemma path_item_end : peg Spaced path_item EmptyString NoMatch.
Proof. by apply (run_sound grammar 12). Qed.

(** What may follow a path. *)
Definition path_stops (s : string) : bool :=
  match s with String c _ => negb (path_char c) && negb (bool_decide (c = space)) | EmptyString => true end.

Lemma path_stops_no_space s : path_stops s = true -> no_space s = true.
Proof. destruct s; [done|]. simpl. by rewrite andb_true_iff; intros []. Qed.

Lemma path_char_no_space c s : path_char c = true -> no_space (String c s) = true.
Proof. intros Hc. simpl. rewrite negb_true_iff, bool_decide_eq_false. by intros ->. Qed.

Lemma path_stops_item s : path_stops s = true -> peg Spaced path_item s NoMatch.
Proof.
  destruct s as [|c s]; [intros _; apply path_item_end|]. simpl. intros [Hc _]%andb_true_iff.
  pose proof (path_item_char c s) as Hp. by rewrite (proj1 (negb_true_iff _) Hc) in Hp.
Qed.

Lemma path_again s r :
  all_char path_char s = true -> path_stops r = true -> peg Spaced (Again path_item) (s +:+ r) (Match s r []).
Proof.
  intros Hs Hr. induction s as [|c s IH]; simpl in *.
  { apply peg_again_stop; [by apply path_stops_no_space|by apply path_stops_item]. }
  apply andb_true_iff in Hs as [Hc Hs]. pose proof (path_item_char c (s +:+ r)) as Hp. rewrite Hc in Hp.
  apply (peg_again_then Spaced path_item (String c (s +:+ r)) (String c EmptyString) (s +:+ r) [] s r []);
    [by apply path_char_no_space|done|auto].
Qed.

Lemma path_matches s r :
  path_text s = true -> path_stops r = true -> peg Spaced (Call Rule.PATH) (s +:+ r) (Match s r []).
Proof.
  unfold path_text. rewrite andb_true_iff, negb_true_iff, bool_decide_eq_false. intros [Hne Hs] Hr.
  destruct s as [|c s]; [done|]. simpl in *. apply andb_true_iff in Hs as [Hc Hs].
  apply (peg_call grammar Spaced Rule.PATH _ (Match (String c s) r [])). simpl.
  pose proof (path_item_char c (s +:+ r)) as Hp. rewrite Hc in Hp.
  assert (no_space (s +:+ r) = true) as Hn.
  { destruct s as [|d s]; [by apply path_stops_no_space|]. simpl in Hs. apply andb_true_iff in Hs as [Hd _].
    by apply path_char_no_space. }
  eapply (peg_then Spaced path_item (Rep path_item) _ (String c EmptyString) _ [] s r []); [exact Hp|exact Hn|].
  destruct s as [|d s]; [apply peg_rep_none; by apply path_stops_item|]. simpl in *. apply andb_true_iff in Hs as [Hd Hs].
  pose proof (path_item_char d (s +:+ r)) as Hq. rewrite Hd in Hq.
  apply (peg_rep grammar Spaced path_item _ (String d EmptyString) (s +:+ r) [] s r []); [done|]. by apply path_again.
Qed.

(** On any text the grammar takes a beginning of path characters and spaces for a path. *)
Definition path_or_space (c : ascii) : bool := path_char c || bool_decide (c = space).

Lemma all_char_app p s t : all_char p (s +:+ t) = all_char p s && all_char p t.
Proof. induction s as [|c s IH]; simpl; [done|]. by rewrite IH, andb_assoc. Qed.

Lemma skip_spaces m s : all_char path_or_space (skip m s).1 = true /\ String.length (skip m s).2 <= String.length s.
Proof.
  destruct m; try done. simpl. induction s as [|c s IH]; simpl; [done|]. case_decide as Hc; [|simpl; lia].
  destruct (spaces s) as [t r]. simpl in *. destruct IH as [H1 H2]. split; [|lia].
  rewrite H1, andb_true_r. unfold path_or_space. rewrite bool_decide_true by done. apply orb_true_r.
Qed.

Lemma path_again_any s :
  exists t r, peg Spaced (Again path_item) s (Match t r []) /\ all_char path_or_space t = true.
Proof.
  remember (String.length s) as n eqn:En. revert s En. induction n as [n IH] using lt_wf_ind. intros s ->.
  destruct (skip_spaces Spaced s) as [Hsp Hlen]. destruct (skip Spaced s).2 as [|c s'] eqn:E.
  - exists EmptyString, s. split; [|done]. apply peg_again_none. rewrite E. apply path_item_end.
  - destruct (path_char c) eqn:Hc.
    + destruct (IH (String.length s')) with (s := s') as (t & r & Hp & Ht); [simpl in Hlen; lia|done|].
      exists ((skip Spaced s).1 +:+ String c EmptyString +:+ t), r. split.
      * apply (peg_again grammar Spaced path_item s (String c EmptyString) s' [] t r []); [|done].
        rewrite E. pose proof (path_item_char c s') as Hi. by rewrite Hc in Hi.
      * rewrite all_char_app, Hsp. simpl. unfold path_or_space at 1. by rewrite Hc.
    + exists EmptyString, s. split; [|done]. apply peg_again_none. rewrite E.
      pose proof (path_item_char c s') as Hi. by rewrite Hc in Hi.
Qed.

Lemma filter_path_any s :
  peg Spaced (Call Rule.filter_path) s NoMatch \/
  exists t r, peg Spaced (Call Rule.filter_path) s (Match t r [Pair Rule.filter_path t []]) /\
    all_char path_or_space t = true /\ t ≠ EmptyString.
Proof.
  destruct s as [|c s]; [left; by apply (run_sound grammar 20)|].
  pose proof (path_item_char c s) as Hc. destruct (path_char c) eqn:Ec.
  2: { left. apply (peg_call grammar Spaced Rule.filter_path _ NoMatch), (peg_call grammar Spaced Rule.PATH _ NoMatch).
       by apply peg_seq_first. }
  right. destruct (skip_spaces Spaced s) as [Hsp _].
  assert (exists t r, peg Spaced (Rep path_item) (skip Spaced s).2 (Match t r []) /\ all_char path_or_space t = true)
    as (t & r & Hr & Ht).
  { destruct (skip Spaced s).2 as [|d s']; [by exists EmptyString, EmptyString; split; [apply peg_rep_none, path_item_end|]|].
    pose proof (path_item_char d s') as Hd. destruct (path_char d) eqn:Ed.
    - destruct (path_again_any s') as (t & r & Hp & Ht). exists (String d EmptyString +:+ t), r. split.
      + by apply (peg_rep grammar Spaced path_item _ (String d EmptyString) s' [] t r []).
      + simpl. unfold path_or_space at 1. by rewrite Ed.
    - exists EmptyString, (String d s'). split; [by apply peg_rep_none|done]. }
  exists (String c EmptyString +:+ (skip Spaced s).1 +:+ t), r. split; [|split; [|done]].
  - apply (peg_call grammar Spaced Rule.filter_path _ (Match _ r [])), (peg_call grammar Spaced Rule.PATH _ (Match _ r [])).
    by apply (peg_seq grammar Spaced path_item (Rep path_item) _ _ _ [] t r []).
  - cbn [String.append all_char]. rewrite all_char_app, Hsp, Ht. unfold path_or_space. by rewrite Ec.
Qed.

(** * Quoting *)

Section Quoting.
Context `{JsonText}.

(** The text of an argument. *)
Definition arg_text (s : string) : string := if path_text s then s else quote s.

(** Strings that can be written: valid text without single quotes. *)
Definition nice (s : string) : bool := valid_utf8 s && negb (has_char LazyRef.squote s).

Lemma parse_grammar_match r s t rest l :
  peg Spaced (Call r) s (Match t rest l) -> exists h0, forall h, h0 <= h -> parse_grammar h r s = Ok l.
Proof.
  intros [n0 Hn]%peg_evaluated. exists n0. intros h Hh. unfold parse_grammar, parse_rule. by rewrite Hn.
Qed.

Lemma parse_grammar_fails r s :
  peg Spaced (Call r) s NoMatch -> exists h0, forall h, h0 <= h -> parse_grammar h r s = Err "parsing error".
Proof.
  intros [n0 Hn]%peg_evaluated. exists n0. intros h Hh. unfold parse_grammar, parse_rule. by rewrite Hn.
Qed.

Lemma path_or_space_text s :
  all_char path_or_space s = true -> any_char is_whitespace s = false -> all_char path_char s = true.
Proof.
  induction s as [|c s IH]; simpl; [done|]. unfold path_or_space at 1.
  intros [Hc Hs]%andb_true_iff [Hw Hws]%orb_false_iff. rewrite IH by done. rewrite andb_true_r.
  apply orb_true_iff in Hc as [Hc|Hc%bool_decide_eq_true]; [done|]. by subst.
Qed.

Lemma path_text_plain s : all_char path_char s = true -> any_char is_whitespace s = false.
Proof.
  induction s as [|c s IH]; simpl; [done|]. intros [Hc Hs]%andb_true_iff. rewrite IH, orb_false_r by done.
  destruct c as [[] [] [] [] [] [] [] []]; done.
Qed.

Lemma quote_if_text s : exists h0, forall h, h0 <= h -> quote_if h s = Ok (arg_text s).
Proof.
  destruct (filter_path_any s) as [Hf|(t & r & Hm & Ht & Hne)].
  - destruct (parse_grammar_fails _ _ Hf) as [h0 Hh]. exists h0. intros h Hle. unfold quote_if. rewrite Hh by done.
    unfold arg_text. destruct (path_text s) eqn:E; [|done]. exfalso.
    assert (peg Spaced (Call Rule.PATH) s (Match s EmptyString [])) as Hp.
    { rewrite <- (append_nil_r s) at 1. by apply path_matches. }
    apply (peg_call grammar Spaced Rule.filter_path) in Hp.
    by pose proof (peg_deterministic grammar _ _ _ _ _ Hf Hp).
  - destruct (parse_grammar_match _ _ _ _ _ Hm) as [h0 Hh]. exists h0. intros h Hle. unfold quote_if. rewrite Hh by done.
    cbn [as_str]. f_equal. unfold arg_text. destruct (path_text s) eqn:E.
    + assert (peg Spaced (Call Rule.PATH) s (Match s EmptyString [])) as Hp.
      { rewrite <- (append_nil_r s) at 1. by apply path_matches. }
      apply (peg_call grammar Spaced Rule.filter_path) in Hp.
      pose proof (peg_deterministic grammar _ _ _ _ _ Hm Hp) as [= -> _]. rewrite bool_decide_true by done.
      unfold path_text in E. apply andb_true_iff in E as [_ E]. by rewrite path_text_plain.
    + destruct (any_char is_whitespace s) eqn:Ew; [done|]. simpl. case_bool_decide as Hts; [|done]. subst t.
      unfold path_text in E. rewrite path_or_space_text in E by done.
      rewrite bool_decide_false in E by done. done.
Qed.

(** ** Quoted strings *)

Definition quotation (body : string) : string :=
  String LazyRef.dquote (body +:+ String LazyRef.dquote EmptyString).

Definition plain_char (c : ascii) : bool := negb (char_in [34; 39; 92] c).

Lemma char_plain c s : plain_char c = true -> peg Atomic (Call Rule.char) (String c s) (Match (String c EmptyString) s []).
Proof.
  intros Hc. apply (run_sound grammar 20). destruct c as [[] [] [] [] [] [] [] []]; done.
Qed.

Lemma char_escaped c s :
  escaped c = true ->
  peg Atomic (Call Rule.char) (String (ascii_of_nat 92) (String c s))
    (Match (String (ascii_of_nat 92) (String c EmptyString)) s []).
Proof.
  intros Hc. apply (run_sound grammar 30). destruct c as [[] [] [] [] [] [] [] []]; done.
Qed.

Lemma char_quote s : peg Atomic (Call Rule.char) (String LazyRef.dquote s) NoMatch.
Proof. by apply (run_sound grammar 20). Qed.

Lemma backslash_char c : char_in [92] c = true -> c = ascii_of_nat 92.
Proof. destruct c as [[] [] [] [] [] [] [] []]; done. Qed.

(** One character of the body of a quotation. *)
Lemma body_step c body :
  json_body (String c body) = true -> exists t rest,
    String c body = t +:+ rest /\ json_body rest = true /\ String.length rest <= String.length body /\
    forall r, peg Atomic (Call Rule.char) (String c body +:+ r) (Match t (rest +:+ r) []).
Proof.
  cbn [json_body]. destruct (char_in [92] c) eqn:Ec.
  - apply backslash_char in Ec as ->. destruct body as [|d body]; [done|]. intros [Hd Hb]%andb_true_iff.
    exists (String (ascii_of_nat 92) (String d EmptyString)), body. split; [done|]. split; [done|].
    split; [simpl; lia|]. intros r. by apply char_escaped.
  - intros [Hc Hb]%andb_true_iff. exists (String c EmptyString), body. split; [done|]. split; [done|]. split; [done|].
    intros r. apply char_plain. unfold plain_char. destruct c as [[] [] [] [] [] [] [] []]; done.
Qed.

Lemma body_again body r :
  json_body body = true ->
  peg Atomic (Again (Call Rule.char)) (body +:+ String LazyRef.dquote r) (Match body (String LazyRef.dquote r) []).
Proof.
  remember (String.length body) as n eqn:En. revert body En. induction n as [n IH] using lt_wf_ind.
  intros [|c body] -> Hb; [apply peg_again_none, char_quote|].
  destruct (body_step c body Hb) as (t & rest & E & Hrest & Hlen & Hstep). rewrite E at 2.
  apply (peg_again grammar Atomic _ _ t (rest +:+ String LazyRef.dquote r) [] rest _ []); [apply Hstep|].
  apply (IH (String.length rest)); [simpl; lia|done|done].
Qed.

Lemma inner_matches body r :
  json_body body = true ->
  peg Compound (Call Rule.inner) (body +:+ String LazyRef.dquote r)
    (Match body (String LazyRef.dquote r) [Pair Rule.inner body []]).
Proof.
  intros Hb. apply (peg_call grammar Compound Rule.inner _ (Match body (String LazyRef.dquote r) [])). simpl.
  destruct body as [|c body]; [apply peg_rep_none, char_quote|].
  destruct (body_step c body Hb) as (t & rest & E & Hrest & Hlen & Hstep). rewrite E at 2.
  apply (peg_rep grammar Atomic _ _ t (rest +:+ String LazyRef.dquote r) [] rest _ []); [apply Hstep|by apply body_again].
Qed.

Lemma string_matches m body r :
  json_body body = true ->
  peg m (Call Rule.string) (quotation body +:+ r)
    (Match (quotation body) r [Pair Rule.string (quotation body) [Pair Rule.inner body []]]).
Proof.
  intros Hb. apply (peg_call grammar m Rule.string _ (Match (quotation body) r [Pair Rule.inner body []])). simpl.
  apply peg_choice; [by apply (run_sound grammar 20)|].
  apply (peg_call grammar Compound Rule.dstring _ (Match (quotation body) r [Pair Rule.inner body []])). simpl.
  unfold quotation. rewrite <- append_assoc. cbn [String.append].
  apply (peg_seq grammar Compound DQUOTE _ _ (of_char 34) (body +:+ String LazyRef.dquote r) []
    (body +:+ String LazyRef.dquote EmptyString) r [Pair Rule.inner body []]); [by apply (run_sound grammar 9)|].
  apply (peg_seq grammar Compound _ DQUOTE _ body (String LazyRef.dquote r) [Pair Rule.inner body []] (of_char 34) r []);
    [by apply inner_matches|by apply (run_sound grammar 9)].
Qed.

(** ** Arguments *)

Lemma nice_quote s : nice s = true -> exists body,
  quote s = quotation body /\ json_body body = true /\ has_char LazyRef.squote (quote s) = false.
Proof.
  unfold nice. rewrite andb_true_iff, negb_true_iff. intros [Hu Hq]. destruct (json_quote_text s Hu Hq) as (body & E & Hb & Hn).
  exists body. split; [done|]. split; [done|]. unfold quote. rewrite E. simpl.
  clear E Hb. induction body as [|c body IH]; simpl in *; [done|].
  apply orb_false_iff in Hn as [Hc Hn]. by rewrite Hc, IH.
Qed.

Lemma string_fails m c s : path_char c = true -> peg m (Call Rule.string) (String c s) NoMatch.
Proof. intros Hc. apply (run_sound grammar 20). destruct c as [[] [] [] [] [] [] [] []]; done. Qed.

Lemma argument_path s r :
  path_text s = true -> path_stops r = true ->
  peg Spaced (Call Rule.argument) (s +:+ r) (Match s r [Pair Rule.argument s []]).
Proof.
  intros Ep Hr. apply (peg_call grammar Spaced Rule.argument _ (Match s r [])). simpl.
  apply peg_choice; [|by apply path_matches]. unfold path_text in Ep.
  destruct s as [|c s]; [done|]. simpl in Ep. apply andb_true_iff in Ep as [Hc _]. by apply string_fails.
Qed.

Lemma argument_matches s :
  nice s = true -> exists inner, forall r, path_stops r = true ->
    peg Spaced (Call Rule.argument) (arg_text s +:+ r) (Match (arg_text s) r [Pair Rule.argument (arg_text s) inner]).
Proof.
  intros Hs. unfold arg_text. destruct (path_text s) eqn:Ep; [exists []; intros r; by apply argument_path|].
  destruct (nice_quote s Hs) as (body & E & Hb & _). rewrite E. eexists. intros r Hr.
  apply (peg_call grammar Spaced Rule.argument _ (Match (quotation body) r _)). simpl.
  apply peg_choice_first. by apply string_matches.
Qed.

Lemma replace_char_none a b s : has_char a s = false -> LazyRef.replace_char a b s = s.
Proof.
  induction s as [|c s IH]; simpl; [done|]. intros [Hc Hs]%orb_false_iff. rewrite IH by done.
  rewrite decide_False; [done|]. intros ->. by rewrite bool_decide_true in Hc.
Qed.

Lemma path_text_no_quote s : all_char path_char s = true -> has_char LazyRef.squote s = false.
Proof.
  induction s as [|c s IH]; simpl; [done|]. intros [Hc Hs]%andb_true_iff. rewrite IH, orb_false_r by done.
  apply bool_decide_eq_false. by intros <-.
Qed.

Lemma unquote_plain c s :
  has_char LazyRef.squote (String c s) = false -> char_in [32; 9; 10; 13; 34] c = false ->
  unquote (String c s) = String c s.
Proof.
  intros Hs Hc. unfold unquote. rewrite replace_char_none by done.
  destruct (json_string (String c s)) as [x|] eqn:E; [|done]. apply json_string_start in E. congruence.
Qed.

Lemma unquote_quote s : nice s = true -> unquote (quote s) = s.
Proof.
  intros Hs. destruct (nice_quote s Hs) as (_ & _ & _ & Hq). unfold unquote. rewrite replace_char_none by done.
  unfold nice in Hs. apply andb_true_iff in Hs as [Hu _]. unfold quote. by rewrite json_quote_read.
Qed.

Lemma unquote_path s : path_text s = true -> unquote s = s.
Proof.
  intros [Hne Hp]%andb_true_iff. destruct s as [|c s]; [done|].
  apply unquote_plain; [by apply path_text_no_quote|]. simpl in Hp. apply andb_true_iff in Hp as [Hc _].
  clear Hne. destruct c as [[] [] [] [] [] [] [] []]; done.
Qed.

Lemma unquote_arg s : nice s = true -> unquote (arg_text s) = s.
Proof.
  intros Hs. unfold arg_text. destruct (path_text s) eqn:Ep; [by apply unquote_path|by apply unquote_quote].
Qed.
End Quoting.
