(* ===== verification/FlangItems.v ===== *)
(** What the grammar makes of the text of one operator: the rule that matches it and its pairs.
    The alternatives before the right one fail on the first characters of the text. *)

From S2P Require Import Prelude Path OptState Builders Objects Utf8 Persist Pest Grammar FlangParse Flang FlangText Ops.

Open Scope nat_scope.

(** * What follows *)

(** What follows the text of an operator, and the text of a filter. *)
Definition item_stops (r : string) : bool :=
  match r with EmptyString => true | String c _ => char_in [58; 44; 93; 41] c end.
Definition spec_stops (r : string) : bool :=
  match r with EmptyString => true | String c _ => char_in [44; 93; 41] c end.

Lemma spec_item_stops r : spec_stops r = true -> item_stops r = true.
Proof. destruct r as [|c r]; [done|]. destruct c as [[] [] [] [] [] [] [] []]; done. Qed.

Lemma item_path_stops r : item_stops r = true -> path_stops r = true.
Proof. destruct r as [|c r]; [done|]. destruct c as [[] [] [] [] [] [] [] []]; done. Qed.

Lemma item_stops_cases r :
  item_stops r = true ->
  r = EmptyString \/ exists r', r = String ":" r' \/ r = String "," r' \/ r = String "]" r' \/ r = String ")" r'.
Proof.
  destruct r as [|c r]; [by left|]. intros Hc. right. exists r.
  destruct c as [[] [] [] [] [] [] [] []]; try done; tauto.
Qed.

Ltac stops_cases Hr :=
  apply item_stops_cases in Hr as [->|[? [->|[->|[->| ->]]]]].

(** Derivations by evaluation, for texts whose first characters are known. *)
Ltac by_run := apply (run_sound grammar 80); reflexivity.
(** The next alternative. *)
Ltac pass := apply peg_choice; [by_run|].

Lemma spec_stops_item r : spec_stops r = true -> peg Spaced filter_item r NoMatch.
Proof.
  intros Hr. destruct r as [|c r]; [by_run|]. destruct c as [[] [] [] [] [] [] [] []]; try done; by_run.
Qed.

(** A text that the grammar takes for one operator. *)
Definition item_pair (t : string) (p : node_pair) : Prop :=
  (exists t', t = String ":" t') /\
  forall r, item_stops r = true -> peg Spaced filter_item (t +:+ r) (Match t r [p]).

(** * Operators without arguments *)

Definition noargs : list string :=
  ["empty"; "PATHS"; "INVERT"; "INDEX"; "FOLD"; "SQUASH"; "link"; "export"; "unlink"].

Lemma noarg_item name :
  name ∈ noargs -> item_pair (":" +:+ name) (Pair Rule.filter_noarg (":" +:+ name) [Pair Rule.cmd name []]).
Proof.
  intros Hn. split; [by eexists|]. intros r Hr. stops_cases Hr; revert name Hn; apply Forall_forall;
    repeat (apply Forall_cons; split; [by_run|]); constructor.
Qed.

Lemma nop_item : item_pair ":/" (Pair Rule.filter_nop ":/" []).
Proof. split; [by eexists|]. intros r Hr. stops_cases Hr; by_run. Qed.

(** * Operators with arguments *)

(** [:name=] and arguments. *)
Lemma filter_rule name x t r l :
  peg Spaced (Call Rule.cmd) (name +:+ "=" +:+ x) (Match name ("=" +:+ x) [Pair Rule.cmd name []]) ->
  no_space (name +:+ "=") = true -> no_space x = true ->
  peg Spaced (Opt (Seq (Call Rule.argument) (Rep (Seq (Str ";") (Call Rule.argument))))) x (Match t r l) ->
  peg Spaced (Call Rule.filter) (":" +:+ name +:+ "=" +:+ x)
    (Match (":" +:+ name +:+ "=" +:+ t) r
      [Pair Rule.filter (":" +:+ name +:+ "=" +:+ t) (Pair Rule.cmd name [] :: l)]).
Proof.
  intros Hc Hn Hx Ha. apply (peg_call grammar Spaced Rule.filter _ (Match _ r (Pair Rule.cmd name [] :: l))). simpl.
  apply (peg_then Spaced (Call Rule.CMD_START) _ _ ":" (name +:+ "=" +:+ x) [] (name +:+ "=" +:+ t) r
    (Pair Rule.cmd name [] :: l)); [by_run|by destruct name|].
  apply (peg_then Spaced (Call Rule.cmd) _ _ name ("=" +:+ x) [Pair Rule.cmd name []] ("=" +:+ t) r l); [done|done|].
  apply (peg_then Spaced (Str "=") _ _ "=" x [] t r l); [by_run|done|done].
Qed.

Section Items.
Context `{JsonText}.

(** A text that the grammar takes for an argument, and the string it stands for. *)
Definition arg_pair (t s : string) (p : node_pair) : Prop :=
  (exists c t', t = String c t' /\ c ≠ space) /\ as_str p = t /\ text_of p = s /\
  forall r, path_stops r = true -> peg Spaced (Call Rule.argument) (t +:+ r) (Match t r [p]).

Lemma arg_no_space t s p r : arg_pair t s p -> no_space (t +:+ r) = true.
Proof. intros [(c & t' & -> & Hc) _]. simpl. by rewrite bool_decide_false. Qed.

Lemma path_text_start s : path_text s = true -> exists c s', s = String c s' /\ c ≠ space.
Proof.
  unfold path_text. destruct s as [|c s]; [done|]. simpl. intros [Hc _]%andb_true_iff. exists c, s. split; [done|].
  by intros ->.
Qed.

Lemma path_text_pair s : path_text s = true -> exists p, arg_pair s s p.
Proof.
  intros Hs. exists (Pair Rule.argument s []). split; [by apply path_text_start|]. split; [done|].
  split; [by apply unquote_path|]. intros r. by apply argument_path.
Qed.

Lemma arg_text_pair s : nice s = true -> exists p, arg_pair (arg_text s) s p.
Proof.
  intros Hs. destruct (argument_matches s Hs) as [inner Hm]. exists (Pair Rule.argument (arg_text s) inner).
  split; [|split; [done|split; [by apply unquote_arg|done]]]. unfold arg_text.
  destruct (path_text s) eqn:E; [by apply path_text_start|]. destruct (nice_quote s Hs) as (body & -> & _). by do 2 eexists.
Qed.

Lemma quote_pair s : nice s = true -> exists p, arg_pair (quote s) s p.
Proof.
  intros Hs. destruct (nice_quote s Hs) as (body & E & Hb & _).
  exists (Pair Rule.argument (quote s) [Pair Rule.string (quotation body) [Pair Rule.inner body []]]).
  split; [rewrite E; by do 2 eexists|]. split; [done|]. split; [by apply unquote_quote|]. intros r Hr. rewrite E.
  apply (peg_call grammar Spaced Rule.argument _ (Match (quotation body) r _)). apply peg_choice_first. by apply string_matches.
Qed.

Lemma one_argument t s p r :
  arg_pair t s p -> item_stops r = true ->
  peg Spaced (Opt (Seq (Call Rule.argument) (Rep (Seq (Str ";") (Call Rule.argument))))) (t +:+ r) (Match t r [p]).
Proof.
  intros (_ & _ & _ & Hp) Hr. pose proof (item_path_stops r Hr) as Hs. apply peg_opt.
  rewrite <- (append_nil_r t) at 2.
  apply (peg_then Spaced _ _ _ t r [p] EmptyString r []); [by apply Hp|by apply path_stops_no_space|].
  apply peg_rep_none. stops_cases Hr; by_run.
Qed.

Lemma two_arguments t1 s1 p1 t2 s2 p2 r :
  arg_pair t1 s1 p1 -> arg_pair t2 s2 p2 -> item_stops r = true ->
  peg Spaced (Opt (Seq (Call Rule.argument) (Rep (Seq (Str ";") (Call Rule.argument))))) ((t1 +:+ ";" +:+ t2) +:+ r)
    (Match (t1 +:+ ";" +:+ t2) r [p1; p2]).
Proof.
  intros Ha1 Ha2 Hr. pose proof (item_path_stops r Hr) as Hs. apply peg_opt. rewrite <- !append_assoc.
  pose proof (arg_no_space _ _ _ r Ha2) as Hn. destruct Ha1 as (_ & _ & _ & H1), Ha2 as (_ & _ & _ & H2).
  apply (peg_then Spaced _ _ _ t1 (";" +:+ t2 +:+ r) [p1] (";" +:+ t2) r [p2]); [by apply H1|done|].
  rewrite <- (append_nil_r (";" +:+ t2)).
  apply (peg_rep grammar Spaced _ _ (";" +:+ t2) r [p2] EmptyString r []).
  - apply (peg_then Spaced (Str ";") _ _ ";" (t2 +:+ r) [] t2 r [p2]); [by_run|done|by apply H2].
  - apply peg_again_stop; [by apply path_stops_no_space|]. stops_cases Hr; by_run.
Qed.

(** The commands with arguments. *)
Definition commands : list string :=
  ["workspace"; "prefix"; "prune"; "embed"; "hook"; "link"; "author"; "committer"; "adapt"; "_"].

Lemma command_alternatives name x o :
  name ∈ commands -> peg Spaced (Call Rule.filter) (":" +:+ name +:+ "=" +:+ x) o ->
  o ≠ NoMatch -> peg Spaced filter_item (":" +:+ name +:+ "=" +:+ x) o.
Proof.
  intros Hn Hf Ho. destruct o as [|t r l]; [done|]. revert name Hn Hf. refine (proj1 (Forall_forall _ _) _).
  repeat (apply Forall_cons; split; [intros Hf; do 17 pass; by apply peg_choice_first|]). constructor.
Qed.

Lemma command_name name x :
  name ∈ commands ->
  peg Spaced (Call Rule.cmd) (name +:+ "=" +:+ x) (Match name ("=" +:+ x) [Pair Rule.cmd name []]) /\
  no_space (name +:+ "=") = true /\ unquote name = name.
Proof.
  revert name. refine (proj1 (Forall_forall _ _) _).
  repeat (apply Forall_cons; split; [split; [by_run|split; [done|by apply unquote_plain]]|]). constructor.
Qed.

Lemma command_item name t args ps :
  name ∈ commands -> (forall r, no_space (t +:+ r) = true) ->
  (forall r, item_stops r = true ->
    peg Spaced (Opt (Seq (Call Rule.argument) (Rep (Seq (Str ";") (Call Rule.argument))))) (t +:+ r) (Match t r ps)) ->
  text_of <$> ps = args -> exists p,
  item_pair (":" +:+ name +:+ "=" +:+ t) p /\
  as_rule p = Rule.filter /\ text_of <$> into_inner p = name :: args.
Proof.
  intros Hn Ht Ha Hargs. eexists (Pair Rule.filter _ (Pair Rule.cmd name [] :: ps)). split; [split; [by eexists|]|].
  - intros r Hr. destruct (command_name name (t +:+ r) Hn) as (Hc & Hs & _).
    rewrite <- !append_assoc. apply command_alternatives; [done| |done]. apply filter_rule; auto.
  - split; [done|]. cbn [into_inner]. rewrite fmap_cons, Hargs. f_equal. by apply (command_name name EmptyString).
Qed.

(** ** Sigils *)

Lemma sigil_rule rule sigil t s p r :
  grammar rule = (Plain, Seq (Call Rule.CMD_START) (Seq (Str sigil) (Call Rule.argument))) ->
  (exists c x, sigil = String c x /\ c ≠ space) -> arg_pair t s p -> path_stops r = true ->
  peg Spaced (Call rule) (":" +:+ sigil +:+ t +:+ r)
    (Match (":" +:+ sigil +:+ t) r [Pair rule (":" +:+ sigil +:+ t) [p]]).
Proof.
  intros Hg (c & x & -> & Hc) Ha Hr. pose proof (peg_call grammar Spaced rule) as Hcall. rewrite Hg in Hcall.
  apply (Hcall _ (Match _ r [p])). simpl.
  apply (peg_then Spaced (Call Rule.CMD_START) _ _ ":" (String c x +:+ t +:+ r) [] (String c x +:+ t) r [p]);
    [by_run|simpl; by rewrite bool_decide_false|].
  apply (peg_then Spaced (Str (String c x)) _ _ (String c x) (t +:+ r) [] t r [p]);
    [apply peg_literal|by eapply arg_no_space|by apply Ha].
Qed.

Lemma subdir_item t s p : arg_pair t s p -> item_pair (":/" +:+ t) (Pair Rule.filter_subdir (":/" +:+ t) [p]).
Proof.
  intros Ha. split; [by eexists|]. intros r Hr%item_path_stops. do 8 pass. apply peg_choice_first.
  apply (sigil_rule Rule.filter_subdir "/" t s p r); [done|by do 2 eexists|done|done].
Qed.

(** The letters of a path are taken for the name of a command, which no group follows. *)
Lemma letter_char c s :
  path_char c = true ->
  peg Spaced (Call Rule.ALNUM) (String c s) (if alnum_char c then Match (String c EmptyString) s [] else NoMatch).
Proof. intros Hc. apply (run_sound grammar 14). destruct c as [[] [] [] [] [] [] [] []]; done. Qed.

Definition no_group (r : string) : Prop :=
  no_space r = true /\ peg Spaced (Call Rule.GROUP_START) r NoMatch.

Lemma no_letter_group c s : path_char c = true -> no_group (String c s).
Proof.
  intros Hc. split; [by apply path_char_no_space|]. apply (run_sound grammar 9).
  destruct c as [[] [] [] [] [] [] [] []]; done.
Qed.

Lemma item_no_group r : item_stops r = true -> no_group r /\ peg Spaced (Call Rule.ALNUM) r NoMatch.
Proof. intros Hr. stops_cases Hr; (split; [split; [done|by_run]|by_run]). Qed.

Lemma letters_again s r :
  all_char path_char s = true -> item_stops r = true -> exists t' r',
    peg Spaced (Again (Call Rule.ALNUM)) (s +:+ r) (Match t' r' []) /\ no_group r'.
Proof.
  intros Hs Hr. destruct (item_no_group r Hr) as [Hg Ha]. induction s as [|c s IH]; simpl in *.
  { exists EmptyString, r. split; [|done]. apply peg_again_stop; [apply Hg|done]. }
  apply andb_true_iff in Hs as [Hc Hs]. pose proof (letter_char c (s +:+ r) Hc) as Hl. destruct (alnum_char c).
  - destruct (IH Hs) as (t' & r' & Hp & Hg'). exists (String c EmptyString +:+ t'), r'. split; [|done].
    apply (peg_again_then Spaced _ _ (String c EmptyString) (s +:+ r) [] t' r' []); [by apply path_char_no_space|done|done].
  - exists EmptyString, (String c (s +:+ r)). split; [|by apply no_letter_group].
    apply peg_again_stop; [by apply path_char_no_space|done].
Qed.

Lemma letters_rep s r :
  all_char path_char s = true -> item_stops r = true -> exists t' r',
    peg Spaced (Rep (Call Rule.ALNUM)) (s +:+ r) (Match t' r' []) /\ no_group r'.
Proof.
  intros Hs Hr. destruct s as [|c s]; simpl in *.
  { destruct (item_no_group r Hr) as [Hg Ha]. exists EmptyString, r. split; [|done]. by apply peg_rep_none. }
  apply andb_true_iff in Hs as [Hc Hs]. pose proof (letter_char c (s +:+ r) Hc) as Hl. destruct (alnum_char c).
  - destruct (letters_again s r Hs Hr) as (t' & r' & Hp & Hg'). exists (String c EmptyString +:+ t'), r'. split; [|done].
    by apply (peg_rep grammar Spaced _ _ (String c EmptyString) (s +:+ r) [] t' r' []).
  - exists EmptyString, (String c (s +:+ r)). split; [|by apply no_letter_group]. by apply peg_rep_none.
Qed.

Lemma stored_no_group s r :
  nice s = true -> item_stops r = true -> peg Spaced (Call Rule.filter_group) (":+" +:+ arg_text s +:+ r) NoMatch.
Proof.
  intros Hs Hr. unfold arg_text. destruct (path_text s) eqn:E.
  2: { destruct (nice_quote s Hs) as (body & -> & _). by_run. }
  destruct (path_text_start s E) as (c & s' & Es & _). unfold path_text in E. apply andb_true_iff in E as [_ E].
  destruct (letters_rep s r E Hr) as (t' & r' & Hp & Hsp & Hg).
  apply (peg_call grammar Spaced Rule.filter_group _ NoMatch). simpl.
  apply (peg_then_fails Spaced (Call Rule.CMD_START) _ _ ":" ("+" +:+ s +:+ r) []); [by_run|done|].
  apply (peg_then_fails Spaced _ _ _ ("+" +:+ t') r' [Pair Rule.cmd ("+" +:+ t') []]); [|done|by apply peg_seq_first].
  apply peg_opt, (peg_call grammar Spaced Rule.cmd _ (Match _ r' [])). simpl.
  apply (peg_then Spaced _ _ _ "+" (s +:+ r) [] t' r' []); [by_run| |done].
  subst s. simpl in E. apply andb_true_iff in E as [Hc _]. by apply path_char_no_space.
Qed.

Lemma stored_item s p :
  nice s = true -> arg_pair (arg_text s) s p ->
  item_pair (":+" +:+ arg_text s) (Pair Rule.filter_stored (":+" +:+ arg_text s) [p]).
Proof.
  intros Hs Ha. split; [by eexists|]. intros r Hr. apply peg_choice; [by apply stored_no_group|].
  do 8 pass. apply peg_choice_first. apply item_path_stops in Hr.
  apply (sigil_rule Rule.filter_stored "+" (arg_text s) s p r); [done|by do 2 eexists|done|done].
Qed.

(** [::], with one path or two. *)
Lemma presub_item t s p : arg_pair t s p -> item_pair ("::" +:+ t) (Pair Rule.filter_presub ("::" +:+ t) [p]).
Proof.
  intros Ha. split; [by eexists|]. intros r Hr. do 7 pass. apply peg_choice_first.
  pose proof (item_path_stops r Hr) as Hs.
  apply (peg_call grammar Spaced Rule.filter_presub _ (Match _ r [p])). simpl.
  apply (peg_then Spaced (Call Rule.CMD_START) _ _ ":" (":" +:+ t +:+ r) [] (":" +:+ t) r [p]); [by_run|done|].
  apply (peg_then Spaced (Str ":") _ _ ":" (t +:+ r) [] t r [p]); [by_run|by eapply arg_no_space|].
  rewrite <- (append_nil_r t) at 2.
  apply (peg_then Spaced _ _ _ t r [p] EmptyString r []); [by apply Ha|by apply path_stops_no_space|].
  apply peg_opt_none. stops_cases Hr; by_run.
Qed.

Lemma presub2_item t1 s1 p1 t2 s2 p2 :
  arg_pair t1 s1 p1 -> arg_pair t2 s2 p2 ->
  item_pair ("::" +:+ t1 +:+ "=" +:+ t2) (Pair Rule.filter_presub ("::" +:+ t1 +:+ "=" +:+ t2) [p1; p2]).
Proof.
  intros Ha Hb. split; [by eexists|]. intros r Hr. rewrite <- !append_assoc. do 7 pass. apply peg_choice_first.
  pose proof (item_path_stops r Hr) as Hs.
  apply (peg_call grammar Spaced Rule.filter_presub _ (Match _ r [p1; p2])). simpl.
  apply (peg_then Spaced (Call Rule.CMD_START) _ _ ":" (":" +:+ t1 +:+ "=" +:+ t2 +:+ r) [] (":" +:+ t1 +:+ "=" +:+ t2) r [p1; p2]);
    [by_run|done|].
  apply (peg_then Spaced (Str ":") _ _ ":" (t1 +:+ "=" +:+ t2 +:+ r) [] (t1 +:+ "=" +:+ t2) r [p1; p2]);
    [by_run|by eapply arg_no_space|].
  apply (peg_then Spaced _ _ _ t1 ("=" +:+ t2 +:+ r) [p1] ("=" +:+ t2) r [p2]); [by apply Ha|done|].
  apply peg_opt, (peg_then Spaced (Str "=") _ _ "=" (t2 +:+ r) [] t2 r [p2]); [by_run|by eapply arg_no_space|by apply Hb].
Qed.
End Items.

(** * Lists of entries *)

Lemma rep_of_again m a s t r l :
  no_space s = true -> peg m (Again a) s (Match t r l) -> peg m (Rep a) s (Match t r l).
Proof.
  intros Hs Ha. inversion Ha as [| | | | | | | | | | | | |? ? ? Hn|? ? ? t1 r1 l1 t2 r2 l2 H1 H2| |]; subst;
    rewrite skip_none in * by done; [by apply peg_rep_none|by apply (peg_rep grammar m a s t1 r1 l1 t2 r l2)].
Qed.

(** How an entry may start, and what may follow the last one. *)
Definition entry_char (c : ascii) : bool := negb (char_in [10; 13; 32; 44] c).
Definition starts (t : string) : Prop := exists c t', t = String c t' /\ entry_char c = true.
Definition closes (r : string) : bool :=
  match r with EmptyString => true | String c _ => char_in [93; 41] c end.

Lemma starts_char t r :
  starts t -> no_space (t +:+ r) = true /\ peg Spaced NEWLINE (t +:+ r) NoMatch /\ peg Spaced (Call Rule.CMD_SEP) (t +:+ r) NoMatch.
Proof.
  intros (c & t' & -> & Hc). split; [|split].
  - simpl. rewrite bool_decide_false; [done|]. by intros ->.
  - apply (run_sound grammar 20). destruct c as [[] [] [] [] [] [] [] []]; done.
  - apply (run_sound grammar 20). destruct c as [[] [] [] [] [] [] [] []]; done.
Qed.

Lemma closes_char r :
  closes r = true -> no_space r = true /\ peg Spaced NEWLINE r NoMatch /\ peg Spaced (Call Rule.CMD_SEP) r NoMatch.
Proof.
  intros Hr. destruct r as [|c r]; [split; [done|split; by_run]|].
  destruct c as [[] [] [] [] [] [] [] []]; try done; (split; [done|split; by_run]).
Qed.

Lemma spec_of_closes r : closes r = true -> spec_stops r = true.
Proof. destruct r as [|c r]; [done|]. destruct c as [[] [] [] [] [] [] [] []]; done. Qed.

Section Entries.
Context (e : syntax).

(** An entry with its pairs, before a comma or at the end. *)
Definition listed_entry (x : string * list node_pair) : Prop :=
  starts x.1 /\ forall r, spec_stops r = true -> peg Spaced e (x.1 +:+ r) (Match x.1 r x.2).

Fixpoint more_text (xs : list string) : string :=
  match xs with [] => EmptyString | x :: xs => "," +:+ x +:+ more_text xs end.

Lemma join_more x xs : join_with "," (x :: xs) = x +:+ more_text xs.
Proof.
  revert x. induction xs as [|y xs IH]; intros x; [by rewrite append_nil_r|].
  change (join_with "," (x :: y :: xs)) with (x +:+ "," +:+ join_with "," (y :: xs)). by rewrite IH.
Qed.

Lemma more_stops (xs : list string) r : closes r = true -> spec_stops (more_text xs +:+ r) = true.
Proof. intros Hr. destruct xs; [by apply spec_of_closes|done]. Qed.

Lemma more_again (xs : list (string * list node_pair)) r :
  Forall listed_entry xs -> closes r = true ->
  peg Spaced (Again (Seq (Rep1 (Call Rule.CMD_SEP)) e)) (more_text xs.*1 +:+ r)
    (Match (more_text xs.*1) r (concat xs.*2)).
Proof.
  intros Hxs Hr. induction Hxs as [|x xs Hx Hxs IH].
  { destruct (closes_char r Hr) as (H1 & _ & H2). apply peg_again_stop; [done|]. by apply peg_seq_first, peg_seq_first. }
  rewrite !fmap_cons. cbn [more_text concat]. rewrite <- !append_assoc. destruct Hx as [Hst He].
  destruct (starts_char x.1 (more_text xs.*1 +:+ r) Hst) as (H1 & _ & H2).
  rewrite (append_assoc "," x.1 (more_text xs.*1)).
  apply (peg_again_then Spaced _ _ ("," +:+ x.1) (more_text xs.*1 +:+ r) x.2 (more_text xs.*1) r (concat xs.*2)); [done| |done].
  apply (peg_then Spaced _ _ _ "," (x.1 +:+ more_text xs.*1 +:+ r) [] x.1 (more_text xs.*1 +:+ r) x.2);
    [|done|by apply He, more_stops].
  apply (peg_then Spaced _ _ _ "," (x.1 +:+ more_text xs.*1 +:+ r) [] EmptyString _ []); [by_run|done|by apply peg_rep_none].
Qed.

Lemma entries_match (xs : list (string * list node_pair)) r :
  Forall listed_entry xs -> closes r = true -> peg Spaced e r NoMatch ->
  peg Spaced (entries e) (join_with "," xs.*1 +:+ r) (Match (join_with "," xs.*1) r (concat xs.*2)).
Proof.
  intros Hxs Hr He. destruct (closes_char r Hr) as (Hsp & Hnl & Hsep). unfold entries.
  assert (forall xs, Forall listed_entry xs -> peg Spaced (Seq (Rep (Seq (Rep1 (Call Rule.CMD_SEP)) e)) (Rep NEWLINE))
    (more_text xs.*1 +:+ r) (Match (more_text xs.*1) r (concat xs.*2))) as Hmore.
  { clear xs Hxs. intros xs Hxs. rewrite <- (append_nil_r (more_text xs.*1)) at 2. rewrite <- (app_nil_r (concat xs.*2)).
    apply (peg_then Spaced _ _ _ (more_text xs.*1) r (concat xs.*2) EmptyString r []); [|done|by apply peg_rep_none].
    apply rep_of_again; [by destruct xs|by apply more_again]. }
  destruct Hxs as [|x xs Hx Hxs].
  - apply (peg_then Spaced _ _ _ EmptyString r [] EmptyString r []); [by apply peg_rep_none|done|].
    apply (peg_then Spaced _ _ _ EmptyString r [] EmptyString r []); [by apply peg_opt_none|done|]. by apply (Hmore []).
  - rewrite !fmap_cons. rewrite join_more, <- append_assoc. destruct Hx as [Hst Hx].
    destruct (starts_char x.1 (more_text xs.*1 +:+ r) Hst) as (H1 & H2 & _).
    apply (peg_then Spaced _ _ _ EmptyString (x.1 +:+ more_text xs.*1 +:+ r) [] (x.1 +:+ more_text xs.*1) r (x.2 ++ concat xs.*2));
      [by apply peg_rep_none|done|].
    apply (peg_then Spaced _ _ _ x.1 (more_text xs.*1 +:+ r) x.2 (more_text xs.*1) r (concat xs.*2));
      [by apply peg_opt, Hx, more_stops|by destruct xs|by apply Hmore].
Qed.
End Entries.

(** * Filters and groups *)

(** A text that the grammar takes for a filter, with the pairs of its operators. *)
Definition spec_pair (t : string) (ps : list node_pair) : Prop :=
  starts t /\ forall r, spec_stops r = true ->
    peg Spaced (Call Rule.filter_spec) (t +:+ r) (Match t r [Pair Rule.filter_spec t ps]).

Lemma items_stop (l : list (string * node_pair)) r :
  Forall (fun x => item_pair x.1 x.2) l -> spec_stops r = true ->
  item_stops (join_with EmptyString l.*1 +:+ r) = true.
Proof.
  intros Hl Hr. destruct Hl as [|x l [(t & E) _] Hl]; [by apply spec_item_stops|]. rewrite fmap_cons, E. by destruct (l.*1).
Qed.

Lemma item_stops_no_space r : item_stops r = true -> no_space r = true.
Proof. intros Hr. by apply path_stops_no_space, item_path_stops. Qed.

Lemma join_empty_cons x l : join_with EmptyString (x :: l) = x +:+ join_with EmptyString l.
Proof. destruct l; [by rewrite append_nil_r|done]. Qed.

Lemma items_again (l : list (string * node_pair)) r :
  Forall (fun x => item_pair x.1 x.2) l -> spec_stops r = true ->
  peg Spaced (Again filter_item) (join_with EmptyString l.*1 +:+ r) (Match (join_with EmptyString l.*1) r l.*2).
Proof.
  intros Hl Hr. induction Hl as [|x l Hx Hl IH].
  { apply peg_again_stop; [by apply item_stops_no_space, spec_item_stops|by apply spec_stops_item]. }
  rewrite !fmap_cons, join_empty_cons, <- append_assoc. destruct Hx as [(t & Et) Hx].
  apply (peg_again_then Spaced _ _ x.1 (join_with EmptyString l.*1 +:+ r) [x.2] (join_with EmptyString l.*1) r l.*2);
    [by rewrite Et|by apply Hx, items_stop|done].
Qed.

Lemma items_spec (l : list (string * node_pair)) :
  l ≠ [] -> Forall (fun x => item_pair x.1 x.2) l -> spec_pair (join_with EmptyString l.*1) l.*2.
Proof.
  intros Hne Hl. destruct Hl as [|x l Hx Hl]; [done|]. rewrite !fmap_cons, join_empty_cons. destruct Hx as [(t & Et) Hx].
  split; [rewrite Et; by do 2 eexists|]. intros r Hr.
  apply (peg_call grammar Spaced Rule.filter_spec _ (Match _ r (x.2 :: l.*2))). simpl. rewrite <- append_assoc.
  pose proof (item_stops_no_space _ (items_stop l r Hl Hr)) as Hn.
  apply (peg_then Spaced _ _ _ x.1 (join_with EmptyString l.*1 +:+ r) [x.2] (join_with EmptyString l.*1) r l.*2);
    [by apply Hx, items_stop|done|]. apply rep_of_again; [done|by apply items_again].
Qed.

(** The text of a group. *)
Definition group_entry : syntax := Choice (Call Rule.filter_spec) (Call Rule.file_entry).

Lemma group_closed r : closes r = true -> peg Spaced group_entry r NoMatch.
Proof. intros Hr. destruct r as [|c r]; [by_run|]. destruct c as [[] [] [] [] [] [] [] []]; try done; by_run. Qed.

Lemma compose_pair (xs : list (string * list node_pair)) r :
  Forall (fun x => spec_pair x.1 x.2) xs -> closes r = true ->
  peg Spaced (Call Rule.compose) (join_with "," xs.*1 +:+ r)
    (Match (join_with "," xs.*1) r
      [Pair Rule.compose (join_with "," xs.*1) ((fun x => Pair Rule.filter_spec x.1 x.2) <$> xs)]).
Proof.
  intros Hxs Hr. apply (peg_call grammar Spaced Rule.compose _ (Match _ r _)). simpl.
  pose proof (entries_match group_entry ((fun x => (x.1, [Pair Rule.filter_spec x.1 x.2])) <$> xs) r) as He.
  rewrite <- !list_fmap_compose in He. simpl in He.
  assert (concat ((snd ∘ (fun x : string * list node_pair => (x.1, [Pair Rule.filter_spec x.1 x.2]))) <$> xs) =
    (fun x => Pair Rule.filter_spec x.1 x.2) <$> xs) as Ec 
    by (clear; induction xs as [|x xs IH]; [done|]; rewrite !fmap_cons; simpl; by rewrite IH).
  rewrite Ec in He. apply He; [|done|by apply group_closed].
  apply Forall_fmap. eapply Forall_impl; [exact Hxs|]. intros x [Hst Hx]. split; [done|]. intros r' Hr'.
  by apply peg_choice_first, Hx.
Qed.

Definition group_commands : list string := [EmptyString; "pin"; "exclude"; "select"; "subtract"].
Definition command_pairs (name : string) : list node_pair :=
  if decide (name = EmptyString) then [] else [Pair Rule.cmd name []].

Lemma group_command name x :
  name ∈ group_commands ->
  peg Spaced (Opt (Call Rule.cmd)) (name +:+ "[" +:+ x) (Match name ("[" +:+ x) (command_pairs name)) /\
  no_space (name +:+ "[" +:+ x) = true.
Proof.
  revert name. refine (proj1 (Forall_forall _ _) _).
  repeat (apply Forall_cons; split; [split; [by_run|done]|]). constructor.
Qed.

Lemma group_item name (xs : list (string * list node_pair)) :
  name ∈ group_commands -> Forall (fun x => spec_pair x.1 x.2) xs ->
  let body := join_with "," xs.*1 in let t := ":" +:+ name +:+ "[" +:+ body +:+ "]" in
  item_pair t
    (Pair Rule.filter_group t
      (command_pairs name ++ [Pair Rule.compose body ((fun x => Pair Rule.filter_spec x.1 x.2) <$> xs)])).
Proof.
  intros Hname Hxs body t. subst t. split; [by eexists|]. intros r Hr. apply peg_choice_first. rewrite <- !append_assoc.
  set (p := Pair Rule.compose body _). destruct (group_command name (body +:+ "]" +:+ r) Hname) as [Hc Hs].
  apply (peg_call grammar Spaced Rule.filter_group _ (Match _ r (command_pairs name ++ [p]))). simpl.
  apply (peg_then Spaced (Call Rule.CMD_START) _ _ ":" (name +:+ "[" +:+ body +:+ "]" +:+ r) [] (name +:+ "[" +:+ body +:+ "]") r
    (command_pairs name ++ [p])); [by_run|done|].
  apply (peg_then Spaced _ _ _ name ("[" +:+ body +:+ "]" +:+ r) (command_pairs name) ("[" +:+ body +:+ "]") r [p]); [done|done|].
  assert (no_space (body +:+ "]" +:+ r) = true) as Hn.
  { subst body. destruct Hxs as [|x xs [Hst _] _]; [done|]. rewrite fmap_cons, join_more, <- append_assoc.
    by apply starts_char. }
  apply (peg_then Spaced _ _ _ "[" (body +:+ "]" +:+ r) [] (body +:+ "]") r [p]); [by_run|done|].
  apply (peg_then Spaced _ _ _ body ("]" +:+ r) [p] "]" r []); [by apply compose_pair|done|by_run].
Qed.

(** * Operators with strings *)

Section Strings.
Context `{JsonText}.

Definition string_pair (t s : string) (p : node_pair) : Prop :=
  (exists t', t = String LazyRef.dquote t') /\ as_rule p = Rule.string /\ text_of p = s /\
  forall r, peg Spaced (Call Rule.string) (t +:+ r) (Match t r [p]).

Lemma quote_string s : nice s = true -> exists p, string_pair (quote s) s p.
Proof.
  intros Hs. destruct (nice_quote s Hs) as (body & E & Hb & _).
  exists (Pair Rule.string (quote s) [Pair Rule.inner body []]).
  split; [rewrite E; by eexists|]. split; [done|]. split; [by apply unquote_quote|]. intros r. rewrite E.
  by apply string_matches.
Qed.

Lemma string_no_space t s p r : string_pair t s p -> no_space (t +:+ r) = true.
Proof. by intros [(t' & ->) _]. Qed.

Lemma message_item t s p : string_pair t s p -> item_pair (":" +:+ t) (Pair Rule.filter_message (":" +:+ t) [p]).
Proof.
  intros Hp. split; [by eexists|]. intros r Hr. pose proof (string_no_space _ _ _ r Hp) as Hn.
  destruct Hp as [(t' & E) (_ & _ & Hp)]. apply peg_choice; [rewrite E; by_run|]. apply peg_choice_first.
  apply (peg_call grammar Spaced Rule.filter_message _ (Match _ r [p])). simpl.
  apply (peg_then Spaced (Call Rule.CMD_START) _ _ ":" (t +:+ r) [] t r [p]); [by_run|done|].
  rewrite <- (append_nil_r t) at 2.
  apply (peg_then Spaced _ _ _ t r [p] EmptyString r []); [done|by apply item_stops_no_space|].
  apply peg_opt_none. stops_cases Hr; by_run.
Qed.

Lemma message2_item t1 s1 p1 t2 s2 p2 :
  string_pair t1 s1 p1 -> string_pair t2 s2 p2 ->
  item_pair (":" +:+ t1 +:+ ";" +:+ t2) (Pair Rule.filter_message (":" +:+ t1 +:+ ";" +:+ t2) [p1; p2]).
Proof.
  intros H1 H2. split; [by eexists|]. intros r Hr. rewrite <- !append_assoc.
  pose proof (string_no_space _ _ _ (";" +:+ t2 +:+ r) H1) as Hn1. pose proof (string_no_space _ _ _ r H2) as Hn2.
  destruct H1 as [(t' & E) (_ & _ & H1)], H2 as [_ (_ & _ & H2)]. apply peg_choice; [rewrite E; by_run|]. apply peg_choice_first.
  apply (peg_call grammar Spaced Rule.filter_message _ (Match _ r [p1; p2])). simpl.
  apply (peg_then Spaced (Call Rule.CMD_START) _ _ ":" (t1 +:+ ";" +:+ t2 +:+ r) [] (t1 +:+ ";" +:+ t2) r [p1; p2]); [by_run|done|].
  apply (peg_then Spaced _ _ _ t1 (";" +:+ t2 +:+ r) [p1] (";" +:+ t2) r [p2]); [done|done|].
  apply peg_opt, (peg_then Spaced (Str ";") _ _ ";" (t2 +:+ r) [] t2 r [p2]); [by_run|done|done].
Qed.
End Strings.

(** * Object references *)

Section References.
Context `{JsonText}.

Lemma treeref_item t s p : arg_pair t s p -> item_pair (":&" +:+ t) (Pair Rule.filter_treeref (":&" +:+ t) [p]).
Proof.
  intros Ha. split; [by eexists|]. intros r Hr%item_path_stops. do 12 pass. apply peg_choice_first.
  apply (sigil_rule Rule.filter_treeref "&" t s p r); [done|by do 2 eexists|done|done].
Qed.

Lemma no_treeid t s p r :
  arg_pair t s p -> item_stops r = true -> peg Spaced (Call Rule.filter_treeid) (":#" +:+ t +:+ r) NoMatch.
Proof.
  intros Ha Hr. pose proof (item_path_stops r Hr) as Hs. destruct (item_no_group r Hr) as [[_ Hg] _].
  apply (peg_call grammar Spaced Rule.filter_treeid _ NoMatch). simpl.
  apply (peg_then_fails Spaced (Call Rule.CMD_START) _ _ ":" ("#" +:+ t +:+ r) []); [by_run|done|].
  apply (peg_then_fails Spaced (Str "#") _ _ "#" (t +:+ r) []); [by_run|by eapply arg_no_space|].
  apply (peg_then_fails Spaced _ _ _ t r [p]); [by apply Ha|by apply path_stops_no_space|by apply peg_seq_first].
Qed.

Lemma treederef_item t s p : arg_pair t s p -> item_pair (":#" +:+ t) (Pair Rule.filter_treederef (":#" +:+ t) [p]).
Proof.
  intros Ha. split; [by eexists|]. intros r Hr. do 11 pass. apply peg_choice; [by eapply no_treeid|]. pass.
  apply peg_choice_first. apply item_path_stops in Hr.
  apply (sigil_rule Rule.filter_treederef "#" t s p r); [done|by do 2 eexists|done|done].
Qed.

(** ** Inserted objects *)

Definition hex_char (c : ascii) : bool := char_between 48 57 c || char_between 65 70 c || char_between 97 102 c.

Lemma hex_digit m c s : peg m ASCII_HEX_DIGIT (String c s) (if hex_char c then Match (String c EmptyString) s [] else NoMatch).
Proof. apply (peg_chr grammar m _ (String c s)). Qed.

Lemma hex_stops m r : item_stops r = true -> peg m ASCII_HEX_DIGIT r NoMatch.
Proof. intros Hr. destruct m; stops_cases Hr; by_run. Qed.

Lemma hex_again id r :
  all_char hex_char id = true -> item_stops r = true -> peg Atomic (Again ASCII_HEX_DIGIT) (id +:+ r) (Match id r []).
Proof.
  intros Hid Hr. induction id as [|c id IH]; simpl in *; [by apply peg_again_none, hex_stops|].
  apply andb_true_iff in Hid as [Hc Hid]. pose proof (hex_digit Atomic c (id +:+ r)) as Hh. rewrite Hc in Hh.
  apply (peg_again grammar Atomic _ _ (String c EmptyString) (id +:+ r) [] id r []); [done|auto].
Qed.

Lemma oid_matches id r :
  id ≠ EmptyString -> all_char hex_char id = true -> item_stops r = true ->
  peg Spaced (Choice (Call Rule.string) (Call Rule.object_oid)) (id +:+ r) (Match id r [Pair Rule.object_oid id []]).
Proof.
  intros Hne Hid Hr. destruct id as [|c id]; [done|]. simpl in Hid. apply andb_true_iff in Hid as [Hc Hid].
  apply peg_choice; [apply string_fails; unfold path_char, alnum_char, hex_char in *; by destruct c as [[] [] [] [] [] [] [] []]|].
  apply (peg_call grammar Spaced Rule.object_oid _ (Match (String c id) r [])). simpl.
  pose proof (hex_digit Atomic c (id +:+ r)) as Hh. rewrite Hc in Hh.
  apply (peg_seq grammar Atomic _ _ _ (String c EmptyString) (id +:+ r) [] id r []); [done|].
  destruct id as [|d id]; [by apply peg_rep_none, hex_stops|]. simpl in *. apply andb_true_iff in Hid as [Hd Hid].
  pose proof (hex_digit Atomic d (id +:+ r)) as Hd'. rewrite Hd in Hd'.
  apply (peg_rep grammar Atomic _ _ (String d EmptyString) (id +:+ r) [] id r []); [done|by apply hex_again].
Qed.

Lemma insert_item t s p t2 p2 :
  arg_pair t s p -> (forall r, no_space (t2 +:+ r) = true) ->
  (forall r, item_stops r = true ->
    peg Spaced (Choice (Call Rule.string) (Call Rule.object_oid)) (t2 +:+ r) (Match t2 r [p2])) ->
  item_pair (":$" +:+ t +:+ "=" +:+ t2) (Pair Rule.filter_insert (":$" +:+ t +:+ "=" +:+ t2) [p; p2]).
Proof.
  intros Ha Hn2 H2. split; [by eexists|]. intros r Hr. rewrite <- !append_assoc. do 6 pass. apply peg_choice_first.
  apply (peg_call grammar Spaced Rule.filter_insert _ (Match _ r [p; p2])). simpl.
  apply (peg_then Spaced (Call Rule.CMD_START) _ _ ":" ("$" +:+ t +:+ "=" +:+ t2 +:+ r) [] ("$" +:+ t +:+ "=" +:+ t2) r [p; p2]);
    [by_run|done|].
  apply (peg_then Spaced (Str "$") _ _ "$" (t +:+ "=" +:+ t2 +:+ r) [] (t +:+ "=" +:+ t2) r [p; p2]);
    [by_run|by eapply arg_no_space|].
  apply (peg_then Spaced _ _ _ t ("=" +:+ t2 +:+ r) [p] ("=" +:+ t2) r [p2]); [by apply Ha|done|].
  apply (peg_then Spaced (Str "=") _ _ "=" (t2 +:+ r) [] t2 r [p2]); [by_run|by apply Hn2|by apply H2].
Qed.

(** ** Names of commits *)

(** A text that the grammar takes for the name of a commit before a filter. *)
Definition rev_pair (t : string) (p : node_pair) : Prop :=
  (exists c t', t = String c t' /\ entry_char c = true) /\ as_str p = t /\
  forall r, peg Spaced (Call Rule.rev) (t +:+ String ":" r) (Match t (String ":" r) [p]).

Lemma alnum_item c s : peg Spaced (Call Rule.ALNUM) (String c s) (if alnum_char c then Match (String c EmptyString) s [] else NoMatch).
Proof. apply (run_sound grammar 14). destruct c as [[] [] [] [] [] [] [] []]; done. Qed.

Lemma alnum_no_space c s : alnum_char c = true -> no_space (String c s) = true.
Proof. intros Hc. apply path_char_no_space. unfold path_char. by rewrite Hc. Qed.

Lemma alnum_again s r :
  all_char alnum_char s = true ->
  peg Spaced (Again (Call Rule.ALNUM)) (s +:+ String ":" r) (Match s (String ":" r) []).
Proof.
  intros Hs. induction s as [|c s IH]; simpl in *; [apply peg_again_stop; [done|by_run]|].
  apply andb_true_iff in Hs as [Hc Hs]. pose proof (alnum_item c (s +:+ String ":" r)) as Hi. rewrite Hc in Hi.
  apply (peg_again_then Spaced _ _ (String c EmptyString) (s +:+ String ":" r) [] s _ []); [by apply alnum_no_space|done|auto].
Qed.

Lemma resolved_pair id :
  id ≠ EmptyString -> all_char alnum_char id = true -> rev_pair id (Pair Rule.rev id []).
Proof.
  intros Hne Hid. destruct id as [|c id]; [done|]. simpl in Hid. apply andb_true_iff in Hid as [Hc Hid].
  split; [|split; [done|]].
  - exists c, id. split; [done|]. by destruct c as [[] [] [] [] [] [] [] []].
  - intros r. apply (peg_call grammar Spaced Rule.rev _ (Match (String c id) (String ":" r) [])). simpl.
    apply peg_choice; [apply string_fails; unfold path_char; by rewrite Hc|].
    pose proof (alnum_item c (id +:+ String ":" r)) as Hi. rewrite Hc in Hi.
    assert (no_space (id +:+ String ":" r) = true) as Hn.
    { destruct id as [|d id]; [done|]. simpl in Hid. apply andb_true_iff in Hid as [Hd _]. by apply alnum_no_space. }
    apply (peg_then Spaced _ _ _ (String c EmptyString) (id +:+ String ":" r) [] id _ []); [done|done|].
    apply rep_of_again; [done|by apply alnum_again].
Qed.

Lemma lazy_pair body : json_body body = true -> exists p, rev_pair (quotation body) p.
Proof.
  intros Hb. eexists (Pair Rule.rev (quotation body) _). split; [by do 2 eexists|]. split; [done|]. intros r.
  apply (peg_call grammar Spaced Rule.rev _ (Match (quotation body) (String ":" r) _)). apply peg_choice_first.
  by apply string_matches.
Qed.
End References.

(** * Operators with lists of entries *)

Section Lists.
Context `{JsonText}.

Lemma list_rule rule name e (xs : list (string * list node_pair)) r :
  grammar rule = (Plain, Seq (Call Rule.CMD_START) (Seq (Str name) (Seq (Str "(") (Seq (entries e) (Str ")"))))) ->
  no_space (name +:+ "(") = true -> Forall (listed_entry e) xs -> (forall r, peg Spaced e (")" +:+ r) NoMatch) ->
  let t := ":" +:+ name +:+ "(" +:+ join_with "," xs.*1 +:+ ")" in
  peg Spaced (Call rule) (":" +:+ name +:+ "(" +:+ join_with "," xs.*1 +:+ ")" +:+ r) (Match t r [Pair rule t (concat xs.*2)]).
Proof.
  intros Hg Hn Hxs He t. subst t. pose proof (peg_call grammar Spaced rule) as Hcall. rewrite Hg in Hcall.
  apply (Hcall _ (Match _ r (concat xs.*2))). simpl. set (body := join_with "," xs.*1).
  apply (peg_then Spaced (Call Rule.CMD_START) _ _ ":" (name +:+ "(" +:+ body +:+ ")" +:+ r) [] (name +:+ "(" +:+ body +:+ ")") r
    (concat xs.*2)); [by_run|by destruct name|].
  apply (peg_then Spaced (Str name) _ _ name ("(" +:+ body +:+ ")" +:+ r) [] ("(" +:+ body +:+ ")") r (concat xs.*2));
    [apply peg_literal|done|].
  assert (no_space (body +:+ ")" +:+ r) = true) as Hb.
  { subst body. destruct Hxs as [|x xs [Hst _] _]; [done|]. rewrite fmap_cons, join_more, <- append_assoc. by apply starts_char. }
  apply (peg_then Spaced (Str "(") _ _ "(" (body +:+ ")" +:+ r) [] (body +:+ ")") r (concat xs.*2)); [by_run|done|].
  rewrite <- (app_nil_r (concat xs.*2)).
  apply (peg_then Spaced _ _ _ body (")" +:+ r) (concat xs.*2) ")" r []); [by apply entries_match|done|by_run].
Qed.

Lemma string_entry t1 s1 p1 t2 s2 p2 :
  string_pair t1 s1 p1 -> string_pair t2 s2 p2 ->
  listed_entry (Seq (Call Rule.string) (Seq (Str ":") (Call Rule.string))) (t1 +:+ ":" +:+ t2, [p1; p2]).
Proof.
  intros H1 H2. split; [destruct H1 as [(t' & ->) _]; by do 2 eexists|]. intros r Hr. cbn [fst snd]. rewrite <- !append_assoc.
  pose proof (string_no_space _ _ _ r H2) as Hn. destruct H1 as (_ & _ & _ & H1), H2 as (_ & _ & _ & H2).
  apply (peg_then Spaced _ _ _ t1 (":" +:+ t2 +:+ r) [p1] (":" +:+ t2) r [p2]); [done|done|].
  apply (peg_then Spaced (Str ":") _ _ ":" (t2 +:+ r) [] t2 r [p2]); [by_run|done|done].
Qed.

Lemma replace_item (xs : list (string * list node_pair)) :
  Forall (listed_entry (Seq (Call Rule.string) (Seq (Str ":") (Call Rule.string)))) xs ->
  let t := ":replace(" +:+ join_with "," xs.*1 +:+ ")" in item_pair t (Pair Rule.filter_replace t (concat xs.*2)).
Proof.
  intros Hxs t. subst t. split; [by eexists|]. intros r Hr. rewrite <- !append_assoc. do 4 pass. apply peg_choice_first.
  eapply (list_rule Rule.filter_replace "replace" _ xs r); [reflexivity|done|exact Hxs|]. intros r'. by_run.
Qed.

(** ** Filters by commit *)

Lemma spec_no_space t ps r : spec_pair t ps -> no_space (t +:+ r) = true.
Proof. intros [Hst _]. by apply starts_char. Qed.

Lemma rev_spec t p t2 ps r :
  rev_pair t p -> spec_pair (String ":" t2) ps -> spec_stops r = true ->
  peg Spaced (Seq (Call Rule.rev) (Call Rule.filter_spec)) (t +:+ String ":" t2 +:+ r)
    (Match (t +:+ String ":" t2) r [p; Pair Rule.filter_spec (String ":" t2) ps]).
Proof.
  intros (_ & _ & Hp) [_ Hs] Hr.
  apply (peg_then Spaced _ _ _ t (String ":" t2 +:+ r) [p] (String ":" t2) r [Pair Rule.filter_spec (String ":" t2) ps]);
    [apply (Hp (t2 +:+ r))|done|by apply Hs].
Qed.

Lemma unapply_item t p t2 ps :
  rev_pair t p -> spec_pair (String ":" t2) ps ->
  let t' := ":unapply(" +:+ t +:+ String ":" t2 +:+ ")" in
  item_pair t' (Pair Rule.filter_unapply t' [p; Pair Rule.filter_spec (String ":" t2) ps]).
Proof.
  intros Hp Hs t'. subst t'. split; [by eexists|]. intros r Hr. rewrite <- !append_assoc. do 3 pass. apply peg_choice_first.
  pose proof (list_rule Rule.filter_unapply "unapply" _
    [(t +:+ String ":" t2, [p; Pair Rule.filter_spec (String ":" t2) ps])] r eq_refl eq_refl) as Hl.
  cbn [fmap list_fmap fst snd join_with concat app] in Hl. rewrite <- !append_assoc in Hl. apply Hl.
  - constructor; [|constructor]. split; [destruct Hp as [(c & t' & -> & Hc) _]; by do 2 eexists|].
    intros r' Hr'. cbn [fst snd]. rewrite <- append_assoc. by apply rev_spec.
  - intros r'. by_run.
Qed.

Definition rev_sign (m : RevMatch.t) : string :=
  match m with RevMatch.AncestorStrict => "<" | RevMatch.AncestorInclusive => "<=" | RevMatch.Equal => "==" | RevMatch.Default => "_" end.

Lemma default_entry t ps :
  spec_pair t ps ->
  listed_entry (Call Rule.rev_entry) ("_" +:+ t,
    [Pair Rule.rev_entry ("_" +:+ t) [Pair Rule.rev_default ("_" +:+ t) [Pair Rule.filter_spec t ps]]]).
Proof.
  intros Hs. split; [by do 2 eexists|]. intros r Hr. cbn [fst snd].
  apply (peg_call grammar Spaced Rule.rev_entry _ (Match _ r _)). apply peg_choice_first.
  apply (peg_call grammar Spaced Rule.rev_default _ (Match _ r _)). simpl.
  apply (peg_then Spaced (Str "_") _ _ "_" (t +:+ r) [] t r [Pair Rule.filter_spec t ps]); [by_run|by eapply spec_no_space|by apply Hs].
Qed.

Lemma sign_matches m t r :
  m ≠ RevMatch.Default -> (exists c t', t = String c t' /\ negb (char_in [61; 32] c) = true) ->
  peg Spaced (Call Rule.rev_match) (rev_sign m +:+ t +:+ r) (Match (rev_sign m) (t +:+ r) [Pair Rule.rev_match (rev_sign m) []]).
Proof.
  intros Hm (c & t' & -> & Hc). destruct m; try done; apply (run_sound grammar 20);
    destruct c as [[] [] [] [] [] [] [] []]; done.
Qed.

Lemma rev_item_entry m t p t2 ps :
  m ≠ RevMatch.Default -> (exists c t', t = String c t' /\ negb (char_in [61; 32] c) = true) ->
  rev_pair t p -> spec_pair (String ":" t2) ps ->
  let x := rev_sign m +:+ t +:+ String ":" t2 in
  listed_entry (Call Rule.rev_entry)
    (x, [Pair Rule.rev_entry x [Pair Rule.rev_match (rev_sign m) []; p; Pair Rule.filter_spec (String ":" t2) ps]]).
Proof.
  intros Hm Ht Hp Hs x. subst x. split; [destruct m; try done; by do 2 eexists|]. intros r Hr. cbn [fst snd]. rewrite <- !append_assoc.
  apply (peg_call grammar Spaced Rule.rev_entry _ (Match _ r _)). apply peg_choice; [destruct m; try done; by_run|].
  apply (peg_then Spaced _ _ _ (rev_sign m) (t +:+ String ":" t2 +:+ r) [Pair Rule.rev_match (rev_sign m) []]
    (t +:+ String ":" t2) r [p; Pair Rule.filter_spec (String ":" t2) ps]).
  - by apply (sign_matches m t (String ":" t2 +:+ r)).
  - destruct Hp as [(c & t' & -> & Hc) _]. simpl. rewrite bool_decide_false; [done|]. by intros ->.
  - by apply rev_spec.
Qed.

Lemma rev_item (xs : list (string * list node_pair)) :
  Forall (listed_entry (Call Rule.rev_entry)) xs ->
  let t := ":rev(" +:+ join_with "," xs.*1 +:+ ")" in item_pair t (Pair Rule.filter_rev t (concat xs.*2)).
Proof.
  intros Hxs t. subst t. split; [by eexists|]. intros r Hr. rewrite <- !append_assoc. do 2 pass. apply peg_choice_first.
  eapply (list_rule Rule.filter_rev "rev" _ xs r); [reflexivity|done|exact Hxs|]. intros r'. by_run.
Qed.
End Lists.

(** * Operators with an argument and a group *)

Section Nested.
Context `{JsonText}.

(** The group at the end. *)
Definition bracketed : syntax := Seq (Call Rule.GROUP_START) (Seq (Call Rule.compose) (Call Rule.GROUP_END)).
Definition compose_of (t : string) (ps : list node_pair) : node_pair := Pair Rule.compose t [Pair Rule.filter_spec t ps].

Lemma bracketed_matches t ps r :
  spec_pair t ps -> peg Spaced bracketed ("[" +:+ t +:+ "]" +:+ r) (Match ("[" +:+ t +:+ "]") r [compose_of t ps]).
Proof.
  intros Hs. apply (peg_then Spaced _ _ _ "[" (t +:+ "]" +:+ r) [] (t +:+ "]") r [compose_of t ps]);
    [by_run|by eapply spec_no_space|].
  apply (peg_then Spaced _ _ _ t ("]" +:+ r) [compose_of t ps] "]" r []); [|done|by_run].
  apply (compose_pair [(t, ps)] ("]" +:+ r)); [by constructor|done].
Qed.

Lemma nested_rule rule sigil t s p t2 ps r :
  grammar rule = (Plain, Seq (Call Rule.CMD_START) (Seq (Str sigil) (Seq (Call Rule.argument) bracketed))) ->
  (exists c x, sigil = String c x /\ c ≠ space) -> arg_pair t s p -> spec_pair t2 ps ->
  let t' := ":" +:+ sigil +:+ t +:+ "[" +:+ t2 +:+ "]" in
  peg Spaced (Call rule) (":" +:+ sigil +:+ t +:+ "[" +:+ t2 +:+ "]" +:+ r) (Match t' r [Pair rule t' [p; compose_of t2 ps]]).
Proof.
  intros Hg (c & x & -> & Hc) Ha Hs t'. subst t'. pose proof (peg_call grammar Spaced rule) as Hcall. rewrite Hg in Hcall.
  apply (Hcall _ (Match _ r [p; compose_of t2 ps])). simpl.
  apply (peg_then Spaced (Call Rule.CMD_START) _ _ ":" (String c x +:+ t +:+ "[" +:+ t2 +:+ "]" +:+ r) []
    (String c x +:+ t +:+ "[" +:+ t2 +:+ "]") r [p; compose_of t2 ps]); [by_run|simpl; by rewrite bool_decide_false|].
  apply (peg_then Spaced (Str (String c x)) _ _ (String c x) (t +:+ "[" +:+ t2 +:+ "]" +:+ r) [] (t +:+ "[" +:+ t2 +:+ "]") r
    [p; compose_of t2 ps]); [apply peg_literal|by eapply arg_no_space|].
  apply (peg_then Spaced _ _ _ t ("[" +:+ t2 +:+ "]" +:+ r) [p] ("[" +:+ t2 +:+ "]") r [compose_of t2 ps]);
    [by apply Ha|done|by apply bracketed_matches].
Qed.

Lemma starlark_item t s p t2 ps :
  arg_pair t s p -> spec_pair t2 ps ->
  let t' := ":!" +:+ t +:+ "[" +:+ t2 +:+ "]" in item_pair t' (Pair Rule.filter_starlark t' [p; compose_of t2 ps]).
Proof.
  intros Ha Hs t'. subst t'. split; [by eexists|]. intros r Hr. rewrite <- !append_assoc. do 10 pass. apply peg_choice_first.
  by apply (nested_rule Rule.filter_starlark "!" t s p t2 ps r); [|do 2 eexists| |].
Qed.

Lemma treeid_item t s p t2 ps :
  arg_pair t s p -> spec_pair t2 ps ->
  let t' := ":#" +:+ t +:+ "[" +:+ t2 +:+ "]" in item_pair t' (Pair Rule.filter_treeid t' [p; compose_of t2 ps]).
Proof.
  intros Ha Hs t'. subst t'. split; [by eexists|]. intros r Hr. rewrite <- !append_assoc. do 11 pass. apply peg_choice_first.
  by apply (nested_rule Rule.filter_treeid "#" t s p t2 ps r); [|do 2 eexists| |].
Qed.

(** ** Metadata *)

Definition meta_entry : syntax := Seq (Call Rule.filter_path) (Seq (Str "=") (Call Rule.string)).

Lemma key_entry k v p :
  path_text k = true -> string_pair (quote v) v p ->
  listed_entry meta_entry (k +:+ "=" +:+ quote v, [Pair Rule.filter_path k []; p]).
Proof.
  intros Hk Hp. split.
  - unfold path_text in Hk. destruct k as [|c k]; [done|]. simpl in Hk. apply andb_true_iff in Hk as [Hc _].
    exists c, (k +:+ "=" +:+ quote v). split; [done|]. by destruct c as [[] [] [] [] [] [] [] []].
  - intros r Hr. cbn [fst snd]. rewrite <- !append_assoc.
    apply (peg_then Spaced _ _ _ k ("=" +:+ quote v +:+ r) [Pair Rule.filter_path k []] ("=" +:+ quote v) r [p]); [|done|].
    + apply (peg_call grammar Spaced Rule.filter_path _ (Match k ("=" +:+ quote v +:+ r) [])). by apply path_matches.
    + apply (peg_then Spaced (Str "=") _ _ "=" (quote v +:+ r) [] (quote v) r [p]);
        [by_run|by eapply string_no_space|by apply Hp].
Qed.

Lemma meta_item (xs : list (string * list node_pair)) t2 ps :
  Forall (listed_entry meta_entry) xs -> spec_pair t2 ps ->
  let t := ":~(" +:+ join_with "," xs.*1 +:+ ")[" +:+ t2 +:+ "]" in
  item_pair t (Pair Rule.filter_meta t (concat xs.*2 ++ [compose_of t2 ps])).
Proof.
  intros Hxs Hs t. subst t. split; [by eexists|]. intros r Hr. rewrite <- !append_assoc. do 16 pass. apply peg_choice_first.
  set (body := join_with "," xs.*1). set (l := concat xs.*2 ++ [compose_of t2 ps]).
  apply (peg_call grammar Spaced Rule.filter_meta _ (Match _ r l)). simpl.
  apply (peg_then Spaced (Call Rule.CMD_START) _ _ ":" ("~(" +:+ body +:+ ")[" +:+ t2 +:+ "]" +:+ r) []
    ("~(" +:+ body +:+ ")[" +:+ t2 +:+ "]") r l); [by_run|done|].
  apply (peg_then Spaced (Str "~") _ _ "~" ("(" +:+ body +:+ ")[" +:+ t2 +:+ "]" +:+ r) []
    ("(" +:+ body +:+ ")[" +:+ t2 +:+ "]") r l); [by_run|done|].
  assert (no_space (body +:+ ")[" +:+ t2 +:+ "]" +:+ r) = true) as Hb.
  { subst body. destruct Hxs as [|x xs [Hst _] _]; [done|]. rewrite fmap_cons, join_more, <- append_assoc. by apply starts_char. }
  apply (peg_then Spaced (Str "(") _ _ "(" (body +:+ ")[" +:+ t2 +:+ "]" +:+ r) [] (body +:+ ")[" +:+ t2 +:+ "]") r l); [by_run|done|].
  apply (peg_then Spaced _ _ _ body (")[" +:+ t2 +:+ "]" +:+ r) (concat xs.*2) (")[" +:+ t2 +:+ "]") r [compose_of t2 ps]);
    [apply entries_match; [done|done|by_run]|done|].
  apply (peg_then Spaced (Str ")") _ _ ")" ("[" +:+ t2 +:+ "]" +:+ r) [] ("[" +:+ t2 +:+ "]") r [compose_of t2 ps]);
    [by_run|done|by apply bracketed_matches].
Qed.
End Nested.
