(* ===== verification/FlangRound.v ===== *)
(** What printing a filter and parsing the text does: the text of a filter, the filter that the
    parser builds from it, operator by operator, and that the printer and the parser agree. *)

From S2P Require Import Prelude Path OptState Invert Simplify Step Builders Objects Utf8 Glob Pattern Persist.
From S2P Require Import Pest Grammar FlangParse Flang FlangText FlangItems Prelude Ops.

Open Scope nat_scope.

Section Round.
Context `{JsonText}.
Context (experimental : bool).

(** * Filters that can be printed *)

(** Paths that are read back from their text. *)
Definition path_printable (p : path) : bool :=
  nice (to_string p) && bool_decide (components (to_string p) = p).
Definition path_arg (p : path) : string := arg_text (to_string p).

(** Names of commits that are read back from their text: ids, and names in quotes. *)
Definition ref_printable (r : LazyRef.t) : bool :=
  match r with
  | LazyRef.Resolved id =>
      negb (bool_decide (id = EmptyString)) && all_char alnum_char id && bool_decide (oid_from_str id = Some id)
  | LazyRef.Lazy s =>
      json_body s && negb (has_char LazyRef.squote s) && bool_decide (json_string (quotation s) = Some s)
  end.

Definition content_printable (c : InsertContent.t) : bool :=
  match c with
  | InsertContent.Inline s => nice s
  | InsertContent.Oid id =>
      negb (bool_decide (id = EmptyString)) && all_char hex_char id && bool_decide (oid_from_str id = Some id)
  end.

Definition starts_with_slash (s : string) : bool :=
  match s with String c _ => bool_decide (c = slash) | EmptyString => false end.

(** The operators without filters in them. Files must not look like patterns or directories, and
    patterns must look like patterns. *)
Definition leaf_printable (o : Op.t) : bool :=
  match o with
  | Op.Nop | Op.Empty | Op.Paths | Op.Invert | Op.Fold | Op.Squash None | Op.Prune => true
  | Op.Index | Op.Link _ | Op.Export | Op.Unlink => experimental
  | Op.Embed p => experimental && path_printable p
  | Op.Subdir p | Op.Prefix p | Op.Workspace p | Op.Stored p => path_printable p
  | Op.File d s =>
      path_printable d && negb (ends_with_slash (to_string d)) && negb (has_char star (to_string d)) &&
      path_printable s && negb (has_char star (to_string s))
  | Op.Pattern glob =>
      nice glob && has_char star glob && negb (ends_with_slash glob) && bool_decide (op_pattern glob = Ok (Op.Pattern glob))
  | Op.Author name email | Op.Committer name email => nice name && nice email
  | Op.Message m r => nice m && (bool_decide (r = MESSAGE_MATCH_ALL_REGEX) || nice r && regex_new r)
  | Op.Hook hook => nice hook
  | Op.ObjectRef p => experimental && path_printable p
  | Op.ObjectDeref p => experimental && path_printable p && negb (starts_with_slash (to_string p))
  | Op.Insert p content => path_printable p && content_printable content
  | Op.RegexReplace l => forallb (fun x => nice x.1 && nice x.2 && regex_new x.1) l
  | Op.Adapt adapter => experimental && path_text adapter
  | Op.Downstack (LazyRef.Resolved id) => experimental && ref_printable (LazyRef.Resolved id)
  | _ => false
  end.

(** A directory that keeps its place is printed with a slash after its path, which must not need
    quotes. *)
Definition directory_printable (p : path) : bool :=
  path_text (to_string p) && negb (ends_with_slash (to_string p)) && bool_decide (components (to_string p) = p).

(** Metadata is a map: its keys are in order. *)
Definition keys_sorted (meta : list (string * string)) : Prop := ord_sorted String.compare meta.
#[local] Instance keys_sorted_dec meta : Decision (keys_sorted meta).
Proof.
  refine (StronglySorted_dec (key_before String.compare) meta). intros a b. unfold key_before. apply _.
Defined.

Fixpoint printable (f : filter) : bool :=
  match f with
  | Op.Compose l => forallb printable l
  | Op.Chain l => match in_directory l with Some p => directory_printable p | None => forallb printable l end
  | Op.Subtract a b => printable a && printable b
  | Op.Exclude b | Op.Select b | Op.Pin b => printable b
  | Op.Starlark p sub | Op.TreeId p sub => experimental && path_printable p && printable sub
  | Op.Unapply r b => experimental && ref_printable r && simple b && printable b
  | Op.Rev l =>
      forallb (fun x => (bool_decide (x.1.1 = RevMatch.Default) || ref_printable x.1.2) && simple x.2 && printable x.2) l
  | Op.Meta meta b =>
      forallb (fun kv => path_text kv.1 && nice kv.2) meta && bool_decide (keys_sorted meta) && simple b && printable b
  | o => leaf_printable o
  end.

(** * The text of a filter *)

Definition leaf_text (o : Op.t) : string :=
  match o with
  | Op.Nop => ":/"
  | Op.Empty => ":empty"
  | Op.Paths => ":PATHS"
  | Op.Invert => ":INVERT"
  | Op.Index => ":INDEX"
  | Op.Fold => ":FOLD"
  | Op.Squash None => ":SQUASH"
  | Op.Link None => ":link"
  | Op.Link (Some m) => ":link=" +:+ LinkMode.to_string m
  | Op.Export => ":export"
  | Op.Unlink => ":unlink"
  | Op.Prune => ":prune=trivial-merge"
  | Op.Subdir p => ":/" +:+ path_arg p
  | Op.Prefix p => ":prefix=" +:+ path_arg p
  | Op.Workspace p => ":workspace=" +:+ path_arg p
  | Op.Stored p => ":+" +:+ path_arg p
  | Op.Embed p => ":embed=" +:+ path_arg p
  | Op.File d s => if decide (s = d) then "::" +:+ path_arg d else "::" +:+ path_arg d +:+ "=" +:+ path_arg s
  | Op.Pattern glob => "::" +:+ arg_text glob
  | Op.Author name email => ":author=" +:+ quote name +:+ ";" +:+ quote email
  | Op.Committer name email => ":committer=" +:+ quote name +:+ ";" +:+ quote email
  | Op.Message m r =>
      if decide (r = MESSAGE_MATCH_ALL_REGEX) then ":" +:+ quote m else ":" +:+ quote m +:+ ";" +:+ quote r
  | Op.Hook hook => ":hook=" +:+ quote hook
  | Op.ObjectRef p => ":&" +:+ path_arg p
  | Op.ObjectDeref p => ":#" +:+ path_arg p
  | Op.Insert p content =>
      ":$" +:+ path_arg p +:+ "=" +:+
        match content with InsertContent.Inline c => quote c | InsertContent.Oid id => id end
  | Op.RegexReplace l => ":replace(" +:+ join_with "," ((fun x => quote x.1 +:+ ":" +:+ quote x.2) <$> l) +:+ ")"
  | Op.Adapt adapter => ":adapt=" +:+ adapter
  | Op.Downstack r => ":_=" +:+ LazyRef.to_string r
  | _ => EmptyString
  end.

Definition group_text (name : string) (l : list string) : string := ":" +:+ name +:+ "[" +:+ join_with "," l +:+ "]".

Definition meta_text (kv : string * string) : string := kv.1 +:+ "=" +:+ quote kv.2.

Fixpoint text (f : filter) : string :=
  match f with
  | Op.Compose l => group_text EmptyString (text <$> l)
  | Op.Subtract a b => group_text "subtract" [text a; text b]
  | Op.Exclude b => group_text "exclude" [text b]
  | Op.Select b => group_text "select" [text b]
  | Op.Pin b => group_text "pin" [text b]
  | Op.Starlark p sub => ":!" +:+ path_arg p +:+ "[" +:+ text sub +:+ "]"
  | Op.TreeId p sub => ":#" +:+ path_arg p +:+ "[" +:+ text sub +:+ "]"
  | Op.Unapply r b => ":unapply(" +:+ LazyRef.to_string r +:+ text b +:+ ")"
  | Op.Rev l => ":rev(" +:+ join_with "," ((fun x => rev_match_text x.1.1 x.1.2 +:+ text x.2) <$> l) +:+ ")"
  | Op.Meta meta b => ":~(" +:+ join_with "," (sorted (meta_text <$> meta)) +:+ ")[" +:+ text b +:+ "]"
  | Op.Chain [] => ":/"
  | Op.Chain l =>
      match in_directory l with
      | Some p => "::" +:+ path_arg p +:+ "/"
      | None => join_with EmptyString (text <$> l)
      end
  | o => leaf_text o
  end.

(** * The filter that is parsed *)

Section Rebuild.
(** The budget of the builders. *)
Context (h : nat).

(** The operators are chained to the empty filter, or taken as they are. *)
Definition leaf_item (o : Op.t) : opt filter :=
  match o with
  | Op.Nop | Op.Empty | Op.Paths | Op.Invert | Op.Fold | Op.Index | Op.Link _ | Op.Export | Op.Unlink | Op.Embed _
  | Op.Insert _ _ | Op.RegexReplace _ | Op.Adapt _ | Op.Downstack _ => mret o
  | o => Filter.chain h Filter.new o
  end.

(** One after the other. *)
Definition chained (l : list (opt filter)) : opt filter :=
  foldM (fun c m => v ← m; Filter.chain h c v) Filter.new l.

Definition built (make : filter -> filter) (m : opt filter) : opt filter := g ← m; mret (make (Op.Compose [g])).

(** The default of a choice by commit has no commit. *)
Definition rev_arm (m : RevMatch.t) (r : LazyRef.t) : RevMatch.t * LazyRef.t :=
  (m, if decide (m = RevMatch.Default) then LazyRef.Resolved zero_oid else r).

Fixpoint items (f : filter) : list (opt filter) :=
  match f with
  | Op.Compose l => [gs ← mapM id ((fun f => chained (items f)) <$> l); mret (Op.Compose gs)]
  | Op.Subtract a b => [x ← chained (items a); y ← chained (items b); mret (Op.Subtract x y)]
  | Op.Exclude b => [built Op.Exclude (chained (items b))]
  | Op.Select b => [built Op.Select (chained (items b))]
  | Op.Pin b => [built Op.Pin (chained (items b))]
  | Op.Starlark p sub => [g ← chained (items sub); Filter.chain h Filter.new (Op.Starlark p (Op.Compose [g]))]
  | Op.TreeId p sub => [g ← chained (items sub); Filter.chain h Filter.new (Op.TreeId p (Op.Compose [g]))]
  | Op.Unapply r b => [g ← chained (items b); mret (Op.Unapply r g)]
  | Op.Rev l =>
      [arms ← mapM id ((fun x => g ← chained (items x.2); mret (rev_arm x.1.1 x.1.2, g)) <$> l); mret (Op.Rev arms)]
  | Op.Meta meta b => [g ← chained (items b); mret (Op.Meta meta g)]
  | Op.Chain [] => [mret Op.Nop]
  | Op.Chain l =>
      match in_directory l with
      | Some p => [g ← Filter.subdir h Filter.new p; Filter.prefix h g p]
      | None => concat (items <$> l)
      end
  | o => [leaf_item o]
  end.

Definition rebuild (f : filter) : opt filter := chained (items f).
End Rebuild.

(** * Printing *)

Section Printing.
Context (I : caches -> Prop) `{!SimplifiedOk I}.

Lemma quoted_computes s : ample (fun h => computes I (quoted h s) (Ok (arg_text s))).
Proof. destruct (quote_if_text s) as [h0 Hh]. exists h0. intros h Hle c Hc. unfold quoted, lift. by rewrite Hh. Qed.

Lemma spec_leaf_text o : leaf_printable o = true -> ample (fun h => computes I (spec_leaf h o) (Ok (leaf_text o))).
Proof.
  intros Ho.
  assert (forall p (t : string -> string), ample (fun h => computes I (s ← quoted_path h p; mret (t s)) (Ok (t (path_arg p))))) as Hp.
  { intros p t. eapply ample_impl; [apply (quoted_computes (to_string p))|]. intros h Hq.
    eapply computes_bind_ok; [exact Hq|]. apply computes_ret. }
  destruct o; try done; cbn [spec_leaf leaf_text];
    try (apply ample_always; intros ?; apply computes_ret); try (apply (Hp _ (fun s => _ +:+ s))).
  - destruct m; apply ample_always; intros h; apply computes_ret.
  - destruct ids; [done|]. apply ample_always. intros h. apply computes_ret.
  - apply (Hp dest_path (fun s => ":$" +:+ s +:+ "=" +:+ _)).
  - eapply ample_and; [apply (quoted_computes (to_string dest_path))|apply (quoted_computes (to_string source_path))|].
    intros h Hd Hs. eapply computes_bind_ok; [exact Hd|]. case_decide; [apply computes_ret|].
    eapply computes_bind_ok; [exact Hs|]. apply computes_ret.
  - eapply ample_impl; [apply (quoted_computes glob)|]. intros h Hq. eapply computes_bind_ok; [exact Hq|]. apply computes_ret.
Qed.

(** Filters that are printed as their text, by [spec2] and by [spec]. *)
Definition prints (f : filter) (h : nat) : Prop :=
  simple f = true /\ size f <= h /\ forall n, size f <= n -> computes I (spec2 h n f) (Ok (text f)).

Lemma prints_spec f h n :
  prints f h -> size f <= n -> computes I (g ← simplify h f; spec2 h n (to_op g)) (Ok (text f)).
Proof.
  intros (Hs & Hh & Hf) Hn. eapply computes_bind_ok; [by apply simplify_computes|]. rewrite simple_fixed by done. by apply Hf.
Qed.

Lemma prints_case f :
  simple f = true -> ample (fun h => forall n, size f <= S n -> computes I (spec2 h (S n) f) (Ok (text f))) -> ample (prints f).
Proof.
  intros Hs Hf. eapply ample_and; [apply (ample_ge (size f))|exact Hf|]. intros h Hh Hn. split; [done|]. split; [done|].
  intros [|n] Hsize; [pose proof (size_pos f); lia|auto].
Qed.

(** A filter in the text of another one. *)
Lemma prints_around f b (wrap : nat -> string -> opt string) :
  simple f = true -> size b < size f -> ample (prints b) ->
  (forall h n, spec2 h (S n) f = x ← (g ← simplify h b; spec2 h n (to_op g)); wrap h x) ->
  ample (fun h => computes I (wrap h (text b)) (Ok (text f))) -> ample (prints f).
Proof.
  intros Hs Hsize Hb E Hw. apply prints_case; [done|]. eapply ample_and; [exact Hb|exact Hw|]. intros h Hb' Hw' n Hn.
  rewrite E. eapply computes_bind_ok; [|exact Hw']. apply prints_spec; [done|lia].
Qed.

(** Filters after a path. *)
Lemma prints_nested f b p (start : string) :
  simple f = true -> size b < size f -> ample (prints b) ->
  (forall h n, spec2 h (S n) f = s ← quoted_path h p; x ← (g ← simplify h b; spec2 h n (to_op g)); mret (start +:+ s +:+ "[" +:+ x +:+ "]")) ->
  text f = start +:+ path_arg p +:+ "[" +:+ text b +:+ "]" -> ample (prints f).
Proof.
  intros Hs Hsize Hb E Et. apply prints_case; [done|]. eapply ample_and; [exact Hb|apply (quoted_computes (to_string p))|].
  intros h Hb' Hq n Hn. rewrite E, Et. eapply computes_bind_ok; [exact Hq|]. eapply computes_bind_ok; [|apply computes_ret].
  apply prints_spec; [done|lia].
Qed.

Lemma prints_arms (l : list (RevMatch.t * LazyRef.t * filter)) :
  ample (fun h => forall b, b ∈ snd <$> l -> prints b h) -> ample (prints (Op.Rev l)).
Proof.
  intros Hl. apply prints_case; [done|]. eapply ample_impl; [exact Hl|]. intros h Hh n Hn. cbn [spec2].
  eapply computes_bind_ok; [|apply computes_ret].
  apply (computes_mapM_ok _ _ (fun x => rev_match_text x.1.1 x.1.2 +:+ text x.2)). intros [[m r] b] Hb.
  assert (b ∈ snd <$> l) as Hb' by (apply list_elem_of_fmap; by exists (m, r, b)).
  eapply computes_bind_ok; [|apply computes_ret]. apply prints_spec; [by apply Hh|].
  clear -Hb Hn. simpl in Hn. induction Hb as [x l|x y l Hb IH]; simpl in *; [lia|]. apply IH. lia.
Qed.

Lemma prints_chain l :
  simple (Op.Chain l) = true -> ample (fun h => forall b, b ∈ l -> in_directory l = None -> prints b h) -> ample (prints (Op.Chain l)).
Proof.
  intros Hs Hl. apply prints_case; [done|]. destruct l as [|x l]; [apply ample_always; intros h n _; apply computes_ret|].
  cbn [text spec2]. destruct (in_directory (x :: l)) as [p|] eqn:Ed.
  - eapply ample_impl; [apply (quoted_computes (to_string p))|]. intros h Hh n Hn.
    eapply computes_bind_ok; [exact Hh|]. apply computes_ret.
  - eapply ample_impl; [exact Hl|]. intros h Hh n Hn.
    eapply computes_bind_ok; [|apply computes_ret]. apply (computes_mapM_ok _ (spec2 h n) text). intros f Hf.
    apply (Hh f Hf); [done|]. apply sum_list_with_elem in Hf. cbn [size] in Hn. lia.
Qed.

Lemma prints_compose l :
  simple (Op.Compose l) = true -> ample (fun h => forall b, b ∈ l -> prints b h) -> ample (prints (Op.Compose l)).
Proof.
  intros Hs Hl. apply prints_case; [done|]. eapply ample_impl; [exact Hl|]. intros h Hh n Hn. cbn [spec2].
  eapply computes_bind_ok; [|apply computes_ret]. apply computes_mapM_ok. intros f Hf. apply prints_spec; [by apply Hh|].
  apply sum_list_with_elem in Hf. simpl in Hn. lia.
Qed.

(** The printer prints the text of a filter. *)
Lemma spec2_text f : printable f = true -> simple f = true -> ample (prints f).
Proof.
  induction f as [f IH] using filter_ind. intros Hp Hs.
  assert (forall l, Forall (fun f => printable f = true -> simple f = true -> ample (prints f)) l ->
    forallb printable l = true -> forallb simple l = true -> ample (fun h => forall b, b ∈ l -> prints b h)) as Hlist.
  { intros l Hl Hpl Hsl. rewrite Forall_forallb in Hpl, Hsl. rewrite Forall_forall in Hl, Hpl, Hsl. apply ample_all. auto. }
  assert (forall b, Forall (fun f => printable f = true -> simple f = true -> ample (prints f)) [b] ->
    printable b = true -> simple b = true -> ample (prints b)) as Hone
    by (intros b [Hb _]%Forall_cons; auto).
  destruct f; cbn [printable children] in *;
    try (by apply prints_case; [|eapply ample_impl; [by apply spec_leaf_text|]; intros h' Hh n Hn; exact Hh]);
    rewrite ?andb_true_iff in Hp; repeat match goal with H : _ /\ _ |- _ => destruct H end.
  - apply (prints_around _ f (fun _ x => mret (":~(" +:+ join_with "," (sorted (meta_text <$> m)) +:+ ")[" +:+ x +:+ "]")));
      [done|simpl; lia|auto|done|apply ample_always; intros h; apply computes_ret].
  - destruct ids; [done|]. apply prints_case; [done|]. apply ample_always. intros h n _. apply computes_ret.
  - rewrite Forall_forallb in Hp.
    apply prints_arms, Hlist; [done|..]; rewrite Forall_forallb, Forall_fmap; (eapply Forall_impl; [exact Hp|]);
      intros x Hx; rewrite !andb_true_iff in Hx; simpl; tauto.
  - apply (prints_nested _ f p ":!"); [done|simpl; lia|auto|done|done].
  - apply (prints_nested _ f p ":#"); [done|simpl; lia|auto|done|done].
  - apply (prints_around _ f (fun _ x => mret (":unapply(" +:+ LazyRef.to_string r +:+ x +:+ ")")));
      [done|simpl; lia|auto|done|apply ample_always; intros h; apply computes_ret].
  - cbn [simple] in Hs. apply prints_compose; [done|]. apply andb_true_iff in Hs as [_ Hs]. by apply Hlist.
  - apply prints_chain; [done|]. cbn [simple] in Hs. apply andb_true_iff in Hs as [_ Hs].
    destruct (in_directory filters) as [p|]; [apply ample_always; by intros|].
    eapply ample_impl; [by apply Hlist|]. auto.
  - cbn [simple] in Hs. apply andb_true_iff in Hs as [Hsa Hsb]. apply prints_case; [by simpl; rewrite Hsa|].
    eapply ample_impl; [apply (Hlist [f1; f2]); simpl; by rewrite ?H1, ?H2, ?Hsa, ?Hsb|]. intros h Hh n Hn. simpl in Hn.
    assert (text (Op.Subtract f1 f2) = ":subtract[" +:+ text f1 +:+ "," +:+ text f2 +:+ "]") as ->
      by (cbn; by rewrite <- !append_assoc).
    cbn [spec2]. eapply computes_bind_ok; [apply prints_spec; [apply Hh; by left|lia]|].
    eapply computes_bind_ok; [apply prints_spec; [apply Hh; right; by left|lia]|]. apply computes_ret.
  - apply (prints_around _ f (fun _ x => mret (":exclude[" +:+ x +:+ "]")));
      [done|simpl; lia|auto|done|apply ample_always; intros h; apply computes_ret].
  - apply (prints_around _ f (fun _ x => mret (":select[" +:+ x +:+ "]")));
      [done|simpl; lia|auto|done|apply ample_always; intros h; apply computes_ret].
  - apply (prints_around _ f (fun _ x => mret (":pin[" +:+ x +:+ "]")));
      [done|simpl; lia|auto|done|apply ample_always; intros h; apply computes_ret].
Qed.

(** What [spec] prints is the text of the simplified filter. *)
Lemma spec_text f :
  printable (simplified f) = true -> ample (fun h => computes I (spec h f) (Ok (text (simplified f)))).
Proof.
  intros Hp. eapply ample_and; [apply (ample_ge (size f))|by apply (spec2_text (simplified f)), simplified_simple|].
  intros h Hh H2. eapply computes_bind_ok; [by apply simplify_computes|]. apply H2.
  pose proof (simplified_shrinks f) as [Hs _]. cbv beta in Hh. lia.
Qed.
End Printing.

(** * Reading one operator *)

(** The pair of an operator and what the parser makes of it. *)
Definition item_reads (t : string) (m : nat -> opt filter) : Prop :=
  exists p, item_pair t p /\ forall h rec, agree (parse_item h experimental rec p) (m h).

Lemma parse_filter_pair h rec p args :
  as_rule p = Rule.filter -> text_of <$> into_inner p = args ->
  parse_item h experimental rec p = make_filter h experimental args.
Proof. intros Hr <-. unfold parse_item. by rewrite Hr. Qed.

Lemma noarg_reads name o :
  name ∈ noargs -> (forall h, agree (make_filter h experimental [name]) (leaf_item h o)) ->
  item_reads (":" +:+ name) (fun h => leaf_item h o).
Proof. intros Hn Hm. eexists. split; [by apply noarg_item|]. intros h rec. apply Hm. Qed.

Lemma command_reads name t s p o :
  name ∈ commands -> arg_pair t s p ->
  (forall h, agree (make_filter h experimental [name; s]) (leaf_item h o)) ->
  item_reads (":" +:+ name +:+ "=" +:+ t) (fun h => leaf_item h o).
Proof.
  intros Hn Ha Hm.
  destruct (command_item name t [s] [p] Hn) as (q & Hq & Hr & Hi).
  - intros r. by eapply arg_no_space.
  - intros r Hr. by eapply one_argument.
  - destruct Ha as (_ & _ & <- & _). done.
  - exists q. split; [done|]. intros h rec. by rewrite (parse_filter_pair h rec q _ Hr Hi).
Qed.

Lemma command2_reads name s1 s2 o :
  name ∈ commands -> nice s1 = true -> nice s2 = true ->
  (forall h, agree (make_filter h experimental [name; s1; s2]) (leaf_item h o)) ->
  item_reads (":" +:+ name +:+ "=" +:+ quote s1 +:+ ";" +:+ quote s2) (fun h => leaf_item h o).
Proof.
  intros Hn H1 H2 Hm. destruct (quote_pair s1 H1) as [p1 Hp1], (quote_pair s2 H2) as [p2 Hp2].
  destruct (command_item name (quote s1 +:+ ";" +:+ quote s2) [s1; s2] [p1; p2] Hn) as (q & Hq & Hr & Hi).
  - intros r. rewrite <- append_assoc. by eapply arg_no_space.
  - intros r Hr. by eapply two_arguments.
  - destruct Hp1 as (_ & _ & <- & _), Hp2 as (_ & _ & <- & _). done.
  - exists q. split; [done|]. intros h rec. by rewrite (parse_filter_pair h rec q _ Hr Hi).
Qed.

Lemma path_printable_arg p :
  path_printable p = true -> nice (to_string p) = true /\ components (to_string p) = p /\
  exists q, arg_pair (path_arg p) (to_string p) q.
Proof.
  unfold path_printable. rewrite andb_true_iff, bool_decide_eq_true. intros [Hn Hc]. split; [done|]. split; [done|].
  by apply arg_text_pair.
Qed.

Lemma checked_agree {A} (what : string) (m : opt A) :
  experimental = true -> agree (check_experimental_features_enabled experimental what ≫= fun _ => m) m.
Proof. intros -> s. done. Qed.

Lemma file_reads d s :
  leaf_printable (Op.File d s) = true -> item_reads (leaf_text (Op.File d s)) (fun h => leaf_item h (Op.File d s)).
Proof.
  cbn [leaf_printable leaf_text]. rewrite !andb_true_iff, !negb_true_iff. intros [[[[Hd Hsl] Hst] Hs] Hst2].
  destruct (path_printable_arg d Hd) as (_ & Ed & p & Hp), (path_printable_arg s Hs) as (_ & Es & q & Hq).
  assert (text_of p = to_string d /\ text_of q = to_string s) as [Etp Etq] by (split; [apply Hp|apply Hq]).
  case_decide as E; [subst s|]; eexists.
  - split; [by apply (presub_item _ _ _ Hp)|]. intros h rec. unfold parse_item. cbn [as_rule into_inner next]. intros c.
    change (parse_presub h (text_of p) None c = leaf_item h (Op.File d d) c). rewrite Etp. unfold parse_presub.
    by rewrite Hsl, Hst, Ed.
  - split; [by apply (presub2_item _ _ _ _ _ _ Hp Hq)|]. intros h rec. intros c.
    change (parse_presub h (text_of p) (Some (text_of q)) c = leaf_item h (Op.File d s) c). rewrite Etp, Etq. unfold parse_presub.
    by rewrite Hsl, Hst, Hst2, Ed, Es.
Qed.

Lemma pattern_reads glob :
  leaf_printable (Op.Pattern glob) = true ->
  item_reads (leaf_text (Op.Pattern glob)) (fun h => leaf_item h (Op.Pattern glob)).
Proof.
  cbn [leaf_printable leaf_text]. rewrite !andb_true_iff, negb_true_iff, bool_decide_eq_true. intros [[[Hn Hst] Hsl] Ho].
  destruct (arg_text_pair glob Hn) as [p Hp]. eexists. split; [by apply (presub_item _ _ _ Hp)|]. intros h rec c.
  change (parse_presub h (text_of p) None c = leaf_item h (Op.Pattern glob) c). destruct Hp as (_ & _ & -> & _).
  unfold parse_presub. rewrite Hsl, Hst. unfold Filter.pattern. by rewrite Ho.
Qed.

Lemma message_reads m r :
  leaf_printable (Op.Message m r) = true ->
  item_reads (leaf_text (Op.Message m r)) (fun h => leaf_item h (Op.Message m r)).
Proof.
  cbn [leaf_printable leaf_text]. intros [Hm Hr]%andb_true_iff. destruct (quote_string m Hm) as [p Hp].
  assert (text_of p = m) as Ep by apply Hp. case_decide as E.
  - subst r. eexists. split; [by apply (message_item _ _ _ Hp)|]. intros h rec c.
    change (Filter.message_regex h Filter.new (text_of p) MESSAGE_MATCH_ALL_REGEX c = leaf_item h (Op.Message m MESSAGE_MATCH_ALL_REGEX) c). by rewrite Ep.
  - rewrite bool_decide_false in Hr by done. apply andb_true_iff in Hr as [Hn Hr].
    destruct (quote_string r Hn) as [q Hq]. assert (text_of q = r) as Eq by apply Hq.
    eexists. split; [by apply (message2_item _ _ _ _ _ _ Hp Hq)|]. intros h rec c.
    change ((re ← new_regex (text_of q); Filter.message_regex h Filter.new (text_of p) re) c = leaf_item h (Op.Message m r) c).
    unfold new_regex. by rewrite Ep, Eq, Hr.
Qed.

Ltac listed := apply (bool_decide_unpack _); vm_compute; exact Logic.I.

Lemma link_reads m : experimental = true -> item_reads (leaf_text (Op.Link m)) (fun h => leaf_item h (Op.Link m)).
Proof.
  intros He. destruct m as [m|]; cbn [leaf_text].
  - destruct (arg_text_pair (LinkMode.to_string m)) as [p Hp]; [by destruct m|].
    assert (arg_text (LinkMode.to_string m) = LinkMode.to_string m) as Et by (by destruct m). rewrite Et in Hp.
    eapply (command_reads "link" _ _ p); [listed|exact Hp|]. intros h. eapply agree_trans; [by apply checked_agree|].
    by destruct m.
  - apply (noarg_reads "link"); [listed|]. intros h. by apply checked_agree.
Qed.

(** ** Objects and commits *)

Lemma has_char_app c s t : has_char c (s +:+ t) = has_char c s || has_char c t.
Proof. induction s as [|d s IH]; simpl; [done|]. by rewrite IH, orb_assoc. Qed.

Lemma alnum_path s : all_char alnum_char s = true -> all_char path_char s = true.
Proof.
  induction s as [|c s IH]; [done|]. simpl. intros [Hc Hs]%andb_true_iff. apply andb_true_iff. split; [|auto].
  unfold path_char. by rewrite Hc.
Qed.

Lemma lazy_ref_reads r : ref_printable r = true -> agree (lazy_ref (LazyRef.to_string r)) (mret r).
Proof.
  intros Hr s. unfold lazy_ref, lift, LazyRef.parse. destruct r as [id|x]; cbn [ref_printable LazyRef.to_string] in *.
  - apply andb_true_iff in Hr as [[Hne Ha]%andb_true_iff Hid%bool_decide_eq_true].
    rewrite replace_char_none by (by apply path_text_no_quote, alnum_path). destruct id as [|c id]; [done|].
    destruct (json_string (String c id)) eqn:E; [|by rewrite Hid]. apply json_string_start in E.
    simpl in Ha. apply andb_true_iff in Ha as [Hc _]. by destruct c as [[] [] [] [] [] [] [] []].
  - apply andb_true_iff in Hr as [[_ Hq%negb_true_iff]%andb_true_iff Hj%bool_decide_eq_true].
    rewrite replace_char_none; [unfold quotation in Hj; by rewrite Hj|]. simpl. rewrite has_char_app, Hq. done.
Qed.

Lemma ref_pair r :
  ref_printable r = true -> exists p, rev_pair (LazyRef.to_string r) p /\ has_char LazyRef.squote (LazyRef.to_string r) = false /\
    exists c t, LazyRef.to_string r = String c t /\ negb (char_in [61; 32] c) = true.
Proof.
  intros Hr. destruct r as [id|x]; cbn [ref_printable LazyRef.to_string] in *.
  - apply andb_true_iff in Hr as [[Hne%negb_true_iff%bool_decide_eq_false Ha]%andb_true_iff _].
    eexists. split; [by apply resolved_pair|]. split.
    + by apply path_text_no_quote, alnum_path.
    + destruct id as [|c id]; [done|]. exists c, id. split; [done|]. simpl in Ha. apply andb_true_iff in Ha as [Hc _].
      by destruct c as [[] [] [] [] [] [] [] []].
  - apply andb_true_iff in Hr as [[Hb Hq%negb_true_iff]%andb_true_iff _]. destruct (lazy_pair x Hb) as [p Hp]. exists p.
    split; [done|]. split; [simpl; by rewrite has_char_app, Hq|]. by do 2 eexists.
Qed.

Lemma objectref_reads p :
  leaf_printable (Op.ObjectRef p) = true -> item_reads (leaf_text (Op.ObjectRef p)) (fun h => leaf_item h (Op.ObjectRef p)).
Proof.
  cbn [leaf_printable leaf_text]. intros [He Hp]%andb_true_iff. destruct (path_printable_arg p Hp) as (_ & Ec & q & Hq).
  eexists. split; [by apply (treeref_item _ _ _ Hq)|]. intros h rec. eapply agree_trans; [by apply checked_agree|]. intros c.
  change (Filter.chain h Filter.new (Op.ObjectRef (components (text_of q))) c = leaf_item h (Op.ObjectRef p) c).
  destruct Hq as (_ & _ & -> & _). by rewrite Ec.
Qed.

Lemma deref_reads p :
  leaf_printable (Op.ObjectDeref p) = true -> item_reads (leaf_text (Op.ObjectDeref p)) (fun h => leaf_item h (Op.ObjectDeref p)).
Proof.
  cbn [leaf_printable leaf_text]. intros [[He Hp]%andb_true_iff Hs%negb_true_iff]%andb_true_iff.
  destruct (path_printable_arg p Hp) as (_ & Ec & q & Hq).
  eexists. split; [by apply (treederef_item _ _ _ Hq)|]. intros h rec. eapply agree_trans; [by apply checked_agree|]. intros c.
  change (parse_treederef h (text_of q) c = leaf_item h (Op.ObjectDeref p) c). destruct Hq as (_ & _ & -> & _).
  unfold parse_treederef. destruct (to_string p) as [|x t]; [by rewrite Ec|]. simpl in Hs.
  apply bool_decide_eq_false in Hs. by rewrite decide_False, Ec.
Qed.

Lemma insert_reads p content :
  leaf_printable (Op.Insert p content) = true ->
  item_reads (leaf_text (Op.Insert p content)) (fun h => leaf_item h (Op.Insert p content)).
Proof.
  cbn [leaf_printable leaf_text]. intros [Hp Hc]%andb_true_iff. destruct (path_printable_arg p Hp) as (_ & Ec & q & Hq).
  assert (path_of q = p) as Eq by (unfold path_of; by destruct Hq as (_ & _ & -> & _)).
  destruct content as [c|id]; cbn [content_printable] in Hc.
  - destruct (quote_string c Hc) as [x Hx]. eexists. split; [apply (insert_item _ _ q _ x Hq)|].
    + intros r. by eapply string_no_space.
    + intros r Hr. by apply peg_choice_first, Hx.
    + intros h rec s. unfold parse_item. cbn [as_rule into_inner next2]. destruct Hx as (_ & Hr & Hxt & _).
      unfold mbind, M_bind. cbn [mret M_ret]. rewrite Hr, Eq, Hxt. done.
  - apply andb_true_iff in Hc as [[Hne%negb_true_iff%bool_decide_eq_false Hh]%andb_true_iff Hid%bool_decide_eq_true].
    eexists. split; [apply (insert_item _ _ q _ (Pair Rule.object_oid id []) Hq)|].
    + intros r. destruct id as [|c id]; [done|]. simpl in *. apply andb_true_iff in Hh as [Hc _]. by destruct c as [[] [] [] [] [] [] [] []].
    + intros r Hr. by apply oid_matches.
    + intros h rec s. unfold parse_item. cbn [as_rule into_inner next2 as_str]. unfold mbind, M_bind. cbn [mret M_ret].
      rewrite Eq. cbn [as_rule as_str]. rewrite Hid. done.
Qed.

Lemma replace_reads l :
  leaf_printable (Op.RegexReplace l) = true ->
  item_reads (leaf_text (Op.RegexReplace l)) (fun h => leaf_item h (Op.RegexReplace l)).
Proof.
  cbn [leaf_printable leaf_text]. intros Hl.
  assert (exists xs : list (string * list node_pair), xs.*1 = (fun x => quote x.1 +:+ ":" +:+ quote x.2) <$> l /\
    Forall (listed_entry (Seq (Call Rule.string) (Seq (Str ":") (Call Rule.string)))) xs /\
    tuples (text_of <$> concat xs.*2) = l) as (xs & Ex & Hxs & El).
  { clear -Hl. induction l as [|[a b] l IH]; [by exists []|]. cbn [forallb fst snd] in Hl.
    rewrite !andb_true_iff in Hl. destruct Hl as [[[Ha Hb] _] Hl]. destruct (IH Hl) as (xs & Ex & Hxs & El).
    destruct (quote_string a Ha) as [p Hp], (quote_string b Hb) as [q Hq].
    exists ((quote a +:+ ":" +:+ quote b, [p; q]) :: xs). rewrite !fmap_cons, Ex. split; [done|].
    split; [constructor; [by eapply string_entry|done]|]. destruct Hp as (_ & _ & Ep & _), Hq as (_ & _ & Eq & _).
    cbn [concat fst snd app]. rewrite !fmap_cons. cbn [tuples]. by rewrite Ep, Eq, El. }
  rewrite <- Ex. eexists. split; [by apply replace_item|]. intros h rec s. unfold parse_item. cbn [as_rule into_inner].
  rewrite El. clear -Hl. unfold leaf_item.
  assert (agree (mapM (fun x : string * string => r ← new_regex x.1; mret (r, x.2)) l) (mret (M := M caches) l)) as Hm.
  { induction l as [|[a b] l IH]; [done|]. cbn [forallb fst snd] in Hl. apply andb_true_iff in Hl as [[_ Hr]%andb_true_iff Hl].
    assert (new_regex a = mret (M := M caches) a) as En by (unfold new_regex; by rewrite Hr).
    intros c. specialize (IH Hl). cbn [mapM fst snd]. rewrite En. unfold mbind, M_bind in *.
    cbn [mret M_ret] in *. by rewrite IH. }
  unfold mbind, M_bind. by rewrite Hm.
Qed.

Lemma leaf_reads o : leaf_printable o = true -> item_reads (leaf_text o) (fun h => leaf_item h o).
Proof.
  intros Ho.
  assert (forall name p, name ∈ commands -> path_printable p = true ->
    (forall h s, components s = p -> agree (make_filter h experimental [name; s]) (leaf_item h o)) ->
    item_reads (":" +:+ name +:+ "=" +:+ path_arg p) (fun h => leaf_item h o)) as Hpath.
  { intros name p Hn Hp Hm. destruct (path_printable_arg p Hp) as (_ & Ec & q & Hq).
    eapply (command_reads name _ _ q); [done|exact Hq|auto]. }
  destruct o; try done; cbn [leaf_printable] in Ho.
  - eexists. split; [apply nop_item|]. by intros h rec.
  - by apply (noarg_reads "empty"); [listed|].
  - by apply (noarg_reads "FOLD"); [listed|].
  - by apply (noarg_reads "PATHS"); [listed|].
  - apply andb_true_iff in Ho as [He Ht]. destruct (path_text_pair s Ht) as [p Hp].
    eapply (command_reads "adapt" _ _ p); [listed|exact Hp|]. intros h. by apply checked_agree.
  - by apply link_reads.
  - apply (noarg_reads "unlink"); [listed|]. intros h. by apply checked_agree.
  - apply (noarg_reads "export"); [listed|]. intros h. by apply checked_agree.
  - apply andb_true_iff in Ho as [He Hp]. apply (Hpath "embed"); [listed|done|]. intros h s <-. by apply checked_agree.
  - destruct ids; [done|]. by apply (noarg_reads "SQUASH"); [listed|].
  - apply andb_true_iff in Ho as [H1 H2]. by apply (command2_reads "author"); [listed|..].
  - apply andb_true_iff in Ho as [H1 H2]. by apply (command2_reads "committer"); [listed|..].
  - destruct (arg_text_pair "trivial-merge") as [p Hp]; [done|]. by eapply (command_reads "prune" "trivial-merge" _ p); [listed|exact Hp|].
  - by apply replace_reads.
  - destruct (quote_pair h Ho) as [p Hp]. by eapply (command_reads "hook" _ _ p); [listed|exact Hp|].
  - apply (noarg_reads "INDEX"); [listed|]. intros h. by apply checked_agree.
  - by apply (noarg_reads "INVERT"); [listed|].
  - by apply insert_reads.
  - by apply file_reads.
  - apply (Hpath "prefix"); [listed|done|]. by intros h s <-.
  - destruct (path_printable_arg p Ho) as (_ & Ec & q & Hq). eexists. split; [by apply (subdir_item _ _ _ Hq)|]. intros h rec c.
    change (Filter.subdir h Filter.new (components (text_of q)) c = leaf_item h (Op.Subdir p) c). destruct Hq as (_ & _ & -> & _). by rewrite Ec.
  - apply (Hpath "workspace"); [listed|done|]. by intros h s <-.
  - destruct (path_printable_arg p Ho) as (Hn & Ec & q & Hq). eexists. split; [by apply (stored_item _ _ Hn Hq)|]. intros h rec c.
    change (Filter.stored h Filter.new (components (text_of q)) c = leaf_item h (Op.Stored p) c). destruct Hq as (_ & _ & -> & _). by rewrite Ec.
  - by apply deref_reads.
  - by apply objectref_reads.
  - by apply pattern_reads.
  - by apply message_reads.
  - destruct r as [id|]; [|done]. apply andb_true_iff in Ho as [He Hr].
    assert (path_text id = true) as Hid.
    { cbn [ref_printable] in Hr. apply andb_true_iff in Hr as [[Hne Ha]%andb_true_iff _]. unfold path_text.
      by rewrite Hne, alnum_path. }
    destruct (path_text_pair id Hid) as [p Hp]. eapply (command_reads "_" _ _ p); [listed|exact Hp|].
    intros h. eapply agree_trans; [by apply checked_agree|].
    eapply agree_trans; [apply agree_bind; [by apply (lazy_ref_reads (LazyRef.Resolved id))|intros a; apply agree_refl]|]. done.
Qed.

(** * Texts without single quotes *)

Abbreviation clean s := (has_char LazyRef.squote s = false).

Lemma clean_app s t : clean s -> clean t -> clean (s +:+ t).
Proof. intros Hs Ht. by rewrite has_char_app, Hs, Ht. Qed.

Lemma clean_quote s : nice s = true -> clean (quote s).
Proof. intros Hs. by destruct (nice_quote s Hs) as (_ & _ & _ & Hq). Qed.

Lemma clean_arg s : nice s = true -> clean (arg_text s).
Proof.
  intros Hs. unfold arg_text. destruct (path_text s) eqn:E; [|by apply clean_quote].
  unfold path_text in E. apply andb_true_iff in E as [_ E]. by apply path_text_no_quote.
Qed.

Lemma clean_path p : path_printable p = true -> clean (path_arg p).
Proof. intros [Hn _]%andb_true_iff. by apply clean_arg. Qed.

Ltac cleaning := repeat first [done|by apply clean_path|by apply clean_arg|by apply clean_quote|apply clean_app].

Lemma clean_join sep l : clean sep -> Forall (fun s => clean s) l -> clean (join_with sep l).
Proof.
  intros Hsep. induction 1 as [|s l Hs Hl IH]; [done|]. destruct l as [|t l]; [done|].
  change (clean (s +:+ sep +:+ join_with sep (t :: l))). by repeat apply clean_app.
Qed.

Lemma clean_path_text s : path_text s = true -> clean s.
Proof. intros [_ Hs]%andb_true_iff. by apply path_text_no_quote. Qed.

Lemma hex_path s : all_char hex_char s = true -> all_char path_char s = true.
Proof.
  induction s as [|c s IH]; [done|]. simpl. intros [Hc Hs]%andb_true_iff. apply andb_true_iff. split; [|auto].
  by destruct c as [[] [] [] [] [] [] [] []].
Qed.

Lemma clean_leaf o : leaf_printable o = true -> clean (leaf_text o).
Proof.
  intros Ho. destruct o; try done; cbn [leaf_printable leaf_text] in *; rewrite ?andb_true_iff in Ho;
    repeat match goal with H : _ /\ _ |- _ => destruct H end; try (by cleaning).
  - apply clean_app; [done|]. by apply clean_path_text.
  - by destruct m as [[]|].
  - by destruct ids.
  - repeat (apply clean_app; [done|]). apply clean_app; [|done]. apply clean_join; [done|]. apply Forall_fmap.
    rewrite Forall_forallb in Ho. eapply Forall_impl; [exact Ho|]. intros x Hx. rewrite !andb_true_iff in Hx.
    destruct Hx as [[Ha Hb] _]. simpl. cleaning.
  - apply clean_app; [done|]. apply clean_app; [by apply clean_path|]. apply clean_app; [done|].
    destruct content as [c|id]; cbn [content_printable] in *; [by apply clean_quote|].
    match goal with H : _ && _ && _ = true |- _ => apply andb_true_iff in H as [[_ Hh]%andb_true_iff _] end.
    apply path_text_no_quote, hex_path, Hh.
  - case_decide; cleaning.
  - case_decide as E; [by cleaning|]. rewrite bool_decide_false in * by done. simpl in *.
    match goal with H : nice re && _ = true |- _ => apply andb_true_iff in H as [? _] end. cleaning.
  - destruct r as [id|]; [|done]. apply andb_true_iff in Ho as [_ Hr]. apply clean_app; [done|].
    by destruct (ref_pair _ Hr) as (_ & _ & Hc & _).
Qed.

Lemma clean_rev_match m r :
  bool_decide (m = RevMatch.Default) || ref_printable r = true -> clean (rev_match_text m r).
Proof.
  intros Hr. destruct m; try done; destruct (ref_pair r Hr) as (_ & _ & Hc & _); by apply clean_app.
Qed.

Lemma clean_group name (l : list string) : clean name -> Forall (fun s => clean s) l -> clean (group_text name l).
Proof.
  intros Hn Hl. unfold group_text. repeat (apply clean_app; [done|]). apply clean_app; [by apply clean_join|done].
Qed.

Lemma clean_text f : printable f = true -> clean (text f).
Proof.
  induction f as [f IH] using filter_ind. intros Hf.
  assert (forall l, Forall (fun f => printable f = true -> clean (text f)) l -> forallb printable l = true ->
    Forall (fun s => clean s) (text <$> l)) as Hlist.
  { intros l Hl Hp. apply Forall_fmap. rewrite Forall_forallb in Hp. rewrite Forall_forall in *. unfold compose. auto. }
  assert (forall b, Forall (fun f => printable f = true -> clean (text f)) [b] -> printable b = true -> clean (text b)) as Hone
    by (intros b [Hb _]%Forall_cons; auto).
  destruct f; cbn [printable children] in *; try (by apply clean_leaf); rewrite ?andb_true_iff in Hf;
    repeat match goal with H : _ /\ _ |- _ => destruct H end; cbn [text];
    try (by apply clean_group; [|constructor; [apply Hone|]]).
  - repeat (apply clean_app; [first [done|apply clean_join; [done|]|by apply Hone]|]); [|done].
    unfold sorted. rewrite merge_sort_Permutation. apply Forall_fmap. rewrite Forall_forallb in *.
    match goal with H : Forall (fun x => path_text x.1 && nice x.2 = true) m |- _ => eapply Forall_impl; [exact H|] end.
    intros [k v] [Hk Hv]%andb_true_iff. unfold meta_text. simpl. apply clean_app; [by apply clean_path_text|]. cleaning.
  - apply clean_app; [done|]. apply clean_app; [|done]. apply clean_join; [done|]. apply Forall_fmap.
    rewrite Forall_forallb in Hf. rewrite Forall_fmap in IH. rewrite Forall_forall in *. intros x Hx. specialize (Hf x Hx).
    rewrite !andb_true_iff in Hf. destruct Hf as [[Hr _] Hp]. simpl. apply clean_app; [by apply clean_rev_match|]. by apply (IH x).
  - apply clean_app; [done|]. apply clean_app; [by apply clean_path|]. apply clean_app; [done|].
    apply clean_app; [by apply Hone|done].
  - apply clean_app; [done|]. apply clean_app; [by apply clean_path|]. apply clean_app; [done|].
    apply clean_app; [by apply Hone|done].
  - apply clean_app; [done|]. apply clean_app; [|apply clean_app; [by apply Hone|done]].
    match goal with H : ref_printable r = true |- _ => by destruct (ref_pair _ H) as (_ & _ & Hc & _) end.
  - apply clean_group; [done|by apply Hlist].
  - destruct filters as [|x l]; [done|]. destruct (in_directory (x :: l)) as [p|]; [|by apply clean_join, Hlist].
    unfold directory_printable in Hf. apply andb_true_iff in Hf as [[Hp _]%andb_true_iff _].
    apply clean_app; [done|]. apply clean_app; [|done]. unfold path_arg, arg_text. rewrite Hp. by apply clean_path_text.
  - apply clean_group; [done|]. apply (Hlist [f1; f2]); [done|]. simpl. repeat match goal with H : _ = true |- _ => rewrite H end. done.
Qed.

(** * Reading directories and groups *)

Lemma ends_with_slash_app s : ends_with_slash (s +:+ "/") = true.
Proof. induction s as [|c s IH]; [done|]. simpl in *. destruct (s +:+ "/") eqn:E; [by destruct s|done]. Qed.

Lemma trim_end_slashes_app s : ends_with_slash s = false -> trim_end_slashes (s +:+ "/") = s.
Proof.
  induction s as [|c s IH]; [done|]. intros Hs. cbn [String.append trim_end_slashes].
  destruct s as [|d s]; [simpl in *; apply bool_decide_eq_false in Hs; by rewrite decide_False|].
  by rewrite IH.
Qed.

Lemma directory_reads p :
  directory_printable p = true ->
  item_reads ("::" +:+ path_arg p +:+ "/") (fun h => g ← Filter.subdir h Filter.new p; Filter.prefix h g p).
Proof.
  unfold directory_printable. rewrite !andb_true_iff, negb_true_iff, bool_decide_eq_true. intros [[Hp Hs] Hc].
  assert (path_text (to_string p +:+ "/") = true) as Ht.
  { unfold path_text in *. rewrite all_char_app. apply andb_true_iff in Hp as [_ ->]. by destruct (to_string p). }
  unfold path_arg, arg_text. rewrite Hp. destruct (path_text_pair _ Ht) as [q Hq].
  eexists. split; [by apply (presub_item _ _ _ Hq)|]. intros h rec c.
  change (parse_presub h (text_of q) None c = (g ← Filter.subdir h Filter.new p; Filter.prefix h g p) c).
  destruct Hq as (_ & _ & -> & _). unfold parse_presub. by rewrite ends_with_slash_app, trim_end_slashes_app, Hc.
Qed.

(** The operators of a filter in its text, and what the parser makes of them. *)
Definition reads (f : filter) : Prop :=
  exists l : list (string * node_pair),
    l ≠ [] /\ Forall (fun x => item_pair x.1 x.2) l /\ join_with EmptyString l.*1 = text f /\
    ample (fun h => forall n, size f <= S n ->
      Forall2 (fun x m => agree (parse_item h experimental (parse_within h experimental n) x.2) m) l (items h f)).

Lemma reads_spec f : reads f -> exists ps, spec_pair (text f) ps /\
  ample (fun h => forall n, size f <= S n ->
    Forall2 (fun p m => agree (parse_item h experimental (parse_within h experimental n) p) m) ps (items h f)).
Proof.
  intros (l & Hne & Hl & Ht & Hr). exists l.*2. rewrite <- Ht. split; [by apply items_spec|].
  eapply ample_impl; [exact Hr|]. intros h Hh n Hn. apply Forall2_fmap_l. eapply Forall2_impl; [by apply Hh|]. done.
Qed.

(** A filter is parsed as what it is rebuilt to. *)
Lemma reads_parses f :
  reads f -> ample (fun h => forall n, size f <= n -> agree (parse_within h experimental n (text f)) (rebuild h f)).
Proof.
  intros (ps & [Hst Hp] & Hr)%reads_spec.
  assert (peg Spaced (Call Rule.filter_chain) (text f)
    (Match (text f +:+ EmptyString) EmptyString ([Pair Rule.filter_spec (text f) ps] ++ [Pair Rule.EOI EmptyString []]))) as Hc.
  { apply (peg_call grammar Spaced Rule.filter_chain _ (Match _ _ _)).
    apply (peg_then Spaced _ _ _ (text f) EmptyString); [|done|by_run]. rewrite <- (append_nil_r (text f)) at 1. by apply Hp. }
  eapply ample_and; [exact (parse_grammar_match _ _ _ _ _ Hc)|exact Hr|]. intros h Hg Hh [|n] Hn.
  { pose proof (size_pos f). lia. }
  cbn [parse_within]. unfold parse_body. destruct Hst as (c & t & Et & _). rewrite decide_False by (by rewrite Et).
  rewrite Hg. cbn [into_inner app]. apply agree_foldM. eapply Forall2_impl; [exact (Hh n Hn)|]. intros p m Hm b.
  by apply agree_bind; [|intros a].
Qed.

Lemma entries_agree h rec ps ms :
  Forall2 (fun p m => as_rule p = Rule.filter_spec /\ agree (rec (as_str p)) m) ps ms ->
  agree (l ← mapM (parse_file_entry h rec) ps; mret (omap id l)) (mapM id ms).
Proof.
  induction 1 as [|[rule t inner] m ps ms [Hr Hm] _ IH]; [done|]. intros s. specialize (Hm s).
  cbn [as_rule as_str] in *. subst rule. cbn [mapM parse_file_entry as_rule as_str].
  unfold mbind, M_bind in *. change (id m) with m. rewrite Hm. destruct (m s) as [[a|e|] s']; [|done|done]. specialize (IH s'). cbn [mret M_ret] in *.
  destruct (mapM (parse_file_entry h rec) ps s') as [[l|e|] s'']; simpl in *; by rewrite <- IH.
Qed.

Lemma unquote_body l :
  Forall (fun s => clean s /\ exists t, s = String ":" t) l -> unquote (join_with "," l) = join_with "," l.
Proof.
  intros Hl. destruct Hl as [|s l [Hs (t & ->)] Hl]; [unfold unquote; simpl; by rewrite json_string_empty|].
  assert (clean (join_with "," (String ":" t :: l))) as Hc.
  { apply clean_join; [done|]. constructor; [done|]. eapply Forall_impl; [exact Hl|]. by intros ? []. }
  rewrite join_more in *. by apply unquote_plain.
Qed.

Lemma reads_start f : reads f -> exists t, text f = String ":" t.
Proof.
  intros (l & Hne & Hl & <- & _). destruct Hl as [|x l [(t & Et) _] _]; [done|].
  rewrite fmap_cons, join_empty_cons, Et. by eexists.
Qed.

(** What becomes of the filters of a group. *)
Definition finish_group (name : string) (gs : list filter) : opt filter :=
  if decide (name = EmptyString) then mret (Op.Compose gs) else parse_command name gs.

Lemma unquote_command name : name ∈ group_commands -> name ≠ EmptyString -> unquote name = name.
Proof.
  revert name. refine (proj1 (Forall_forall _ _) _).
  repeat (apply Forall_cons; split; [intros Hne; first [done|by apply unquote_plain]|]). constructor.
Qed.

(** The texts of filters with the pairs of their operators. *)
Lemma reads_specs bs : Forall reads bs -> exists xs : list (string * list node_pair),
  xs.*1 = text <$> bs /\ Forall (fun x => spec_pair x.1 x.2) xs.
Proof.
  induction 1 as [|b bs Hb _ IH]; [by exists []|]. destruct IH as (xs & Ex & Hxs).
  destruct (reads_spec b Hb) as (ps & Hp & _). exists ((text b, ps) :: xs). rewrite !fmap_cons, Ex. split; [done|by constructor].
Qed.

Lemma group_parses bs :
  Forall reads bs -> ample (fun h => forall n, (forall b, b ∈ bs -> size b <= n) ->
    agree (parse_group h (parse_within h experimental n) (join_with "," (text <$> bs))) (mapM id (rebuild h <$> bs))).
Proof.
  intros Hbs. destruct (reads_specs bs Hbs) as (xs & Ex & Hxs).
  pose proof (compose_pair xs EmptyString Hxs eq_refl) as Hc. rewrite append_nil_r, Ex in Hc.
  eapply ample_and; [exact (parse_grammar_match _ _ _ _ _ Hc)|apply (ample_all bs (fun b h => forall n, size b <= n ->
    agree (parse_within h experimental n (text b)) (rebuild h b)))|].
  { rewrite Forall_forall in Hbs. intros b Hb. by apply reads_parses, Hbs. }
  intros h Hgr Hall n Hn. unfold parse_group. rewrite Hgr. apply entries_agree. cbn [into_inner]. rewrite Forall2_fmap.
  clear -Ex Hall Hn. revert bs Ex Hall Hn. induction xs as [|x xs IH]; intros [|b bs] Ex Hall Hn; try done.
  rewrite !fmap_cons in Ex. injection Ex as E1 E2. constructor.
  - split; [done|]. cbn [as_str]. rewrite E1. apply Hall; [by left|]. apply Hn. by left.
  - apply IH; [done|..]; intros b' Hb'; [apply Hall|apply Hn]; by right.
Qed.

Lemma group_reads name bs :
  name ∈ group_commands -> Forall reads bs -> Forall (fun b => printable b = true) bs -> exists p,
  item_pair (group_text name (text <$> bs)) p /\
  ample (fun h => forall n, (forall b, b ∈ bs -> size b <= n) ->
    agree (parse_item h experimental (parse_within h experimental n) p) (gs ← mapM id (rebuild h <$> bs); finish_group name gs)).
Proof.
  intros Hname Hbs Hpr. destruct (reads_specs bs Hbs) as (xs & Ex & Hxs).
  pose proof (group_item name xs Hname Hxs) as Hg. cbv zeta in Hg. rewrite Ex in Hg. eexists. split; [exact Hg|]. clear Hg.
  assert (unquote (join_with "," (text <$> bs)) = join_with "," (text <$> bs)) as Eu.
  { apply unquote_body, Forall_fmap. rewrite Forall_forall in *. intros b Hb. split; [by apply clean_text, Hpr|by apply reads_start, Hbs]. }
  eapply ample_impl; [by apply group_parses|]. intros h Hh n Hn. specialize (Hh n Hn).
  unfold parse_item, finish_group, command_pairs. cbn [as_rule into_inner]. destruct (decide (name = EmptyString)) as [En|En].
  - cbn [app fmap list_fmap]. unfold text_of. cbn [as_str]. rewrite Eu. by apply agree_bind.
  - cbn [app fmap list_fmap]. unfold text_of. cbn [as_str]. rewrite Eu.
    rewrite (unquote_command name Hname En). by apply agree_bind.
Qed.

(** A group of one filter. *)
Lemma one_parses b :
  reads b -> ample (fun h => forall n, size b <= n ->
    agree (parse_group h (parse_within h experimental n) (text b)) (g ← rebuild h b; mret [g])).
Proof.
  intros Hb. eapply ample_impl; [apply (group_parses [b]); by constructor|]. intros h Hh n Hn.
  eapply agree_trans; [apply Hh; by intros ? ->%list_elem_of_singleton|]. intros s. cbn [fmap list_fmap mapM].
  unfold mbind, M_bind, id. by destruct (rebuild h b s) as [[]].
Qed.

(** * Reading filters *)

Lemma reads_item f (m : nat -> opt filter) :
  (forall h, items h f = [m h]) -> item_reads (text f) m -> reads f.
Proof.
  intros Hi (p & Hp & Hm). exists [(text f, p)]. split; [done|]. split; [by constructor|]. split; [done|].
  apply ample_always. intros h n _. rewrite Hi. constructor; [apply Hm|constructor].
Qed.

Lemma reads_group f name bs (m : nat -> opt filter) :
  text f = group_text name (text <$> bs) -> (forall h, items h f = [m h]) -> name ∈ group_commands ->
  Forall reads bs -> Forall (fun b => printable b = true) bs -> (forall b, b ∈ bs -> size b < size f) ->
  (forall h, agree (gs ← mapM id (rebuild h <$> bs); finish_group name gs) (m h)) -> reads f.
Proof.
  intros Et Hi Hn Hbs Hpr Hsz Hm. destruct (group_reads name bs Hn Hbs Hpr) as (p & Hp & Ha).
  exists [(text f, p)]. rewrite Et. split; [done|]. split; [by constructor|]. split; [done|].
  eapply ample_impl; [exact Ha|]. intros h Hh n Hsize. rewrite Hi. constructor; [|constructor].
  eapply agree_trans; [apply Hh|apply Hm]. intros b Hb. specialize (Hsz b Hb). lia.
Qed.

Lemma one_agree {A B} (m : opt A) (k : list A -> opt B) (k' : A -> opt B) :
  (forall a, k [a] = k' a) -> agree (gs ← mapM id [m]; k gs) (g ← m; k' g).
Proof.
  intros Hk s. cbn [mapM]. unfold mbind, M_bind, id. destruct (m s) as [[a|e|] s']; [|done|done]. simpl. by rewrite Hk.
Qed.

Lemma chain_reads x l : Forall reads (x :: l) -> in_directory (x :: l) = None -> reads (Op.Chain (x :: l)).
Proof.
  intros Hl Hd.
  assert (exists xs : list (string * node_pair), xs ≠ [] /\ Forall (fun x => item_pair x.1 x.2) xs /\
    join_with EmptyString xs.*1 = join_with EmptyString (text <$> x :: l) /\
    ample (fun h => forall n, size (Op.Chain (x :: l)) <= S n ->
      Forall2 (fun x m => agree (parse_item h experimental (parse_within h experimental n) x.2) m) xs
        (concat (items h <$> x :: l)))) as (xs & Hne & Hxs & Ht & Ha).
  { clear Hd. revert x Hl. induction l as [|y l IH]; intros x Hl.
    - apply Forall_cons in Hl as [(xs & Hne & Hxs & Ht & Ha) _]. exists xs. repeat (split; [done|]).
      eapply ample_impl; [exact Ha|]. intros h Hh n Hn. cbn [fmap list_fmap concat]. rewrite app_nil_r. apply Hh.
      simpl in Hn. lia.
    - apply Forall_cons in Hl as [(xs & Hne & Hxs & Ht & Ha) Hl]. destruct (IH y Hl) as (ys & Hne' & Hys & Ht' & Ha').
      exists (xs ++ ys). split; [by destruct xs|]. split; [by apply Forall_app|]. split.
      + rewrite (fmap_cons text), join_empty_cons, fmap_app, <- Ht', <- Ht. clear. induction xs as [|x xs IH]; [done|].
        rewrite fmap_cons. cbn [app]. rewrite !join_empty_cons, IH. by rewrite append_assoc.
      + eapply ample_and; [exact Ha|exact Ha'|]. intros h H1 H2 n Hn. rewrite fmap_cons. cbn [concat].
        simpl in Hn, H2. apply Forall2_app; [apply H1; lia|apply H2; simpl; lia]. }
  exists xs. split; [done|]. split; [done|]. cbn [text items]. rewrite Hd. split; [done|].
  eapply ample_impl; [exact Ha|]. intros h Hh n Hn. by apply Hh.
Qed.

Lemma agree_step {A B C} (m : opt A) (m' : opt B) (k : A -> opt C) (k' : B -> opt C) (f : B -> A) :
  agree m (b ← m'; mret (f b)) -> (forall b, agree (k (f b)) (k' b)) -> agree (m ≫= k) (m' ≫= k').
Proof.
  intros Hm Hk s. unfold mbind, M_bind in *. rewrite Hm. destruct (m' s) as [[b|e|] s']; [apply Hk|done|done].
Qed.

(** The pair of an operator with a filter in it. *)
Lemma reads_around f b (m : nat -> opt filter) p :
  (forall h, items h f = [m h]) -> size b < size f -> item_pair (text f) p ->
  ample (fun h => forall n, size b <= n -> agree (parse_item h experimental (parse_within h experimental n) p) (m h)) -> reads f.
Proof.
  intros Hi Hs Hp Ha. exists [(text f, p)]. split; [done|]. split; [by constructor|]. split; [done|].
  eapply ample_impl; [exact Ha|]. intros h Hh n Hn. rewrite Hi. constructor; [|constructor]. apply Hh. lia.
Qed.

Lemma starlark_reads p b :
  experimental = true -> path_printable p = true -> reads b -> reads (Op.Starlark p b).
Proof.
  intros He Hp Hb. destruct (path_printable_arg p Hp) as (_ & Ec & q & Hq). destruct (reads_spec b Hb) as (ps & Hs & _).
  eapply (reads_around _ b); [intros h; reflexivity|simpl; lia|by apply (starlark_item _ _ _ _ _ Hq Hs)|].
  eapply ample_impl; [by apply one_parses|]. intros h Hh n Hn. eapply agree_trans; [by apply checked_agree|].
  apply (agree_step _ _ _ _ (fun g => [g])); [by apply Hh|]. intros g. unfold Filter.starlark, Filter.check_experimental.
  rewrite He. unfold path_of. destruct Hq as (_ & _ & -> & _). by rewrite Ec.
Qed.

Lemma treeid_reads p b :
  experimental = true -> path_printable p = true -> reads b -> reads (Op.TreeId p b).
Proof.
  intros He Hp Hb. destruct (path_printable_arg p Hp) as (_ & Ec & q & Hq). destruct (reads_spec b Hb) as (ps & Hs & _).
  eapply (reads_around _ b); [intros h; reflexivity|simpl; lia|by apply (treeid_item _ _ _ _ _ Hq Hs)|].
  eapply ample_impl; [by apply one_parses|]. intros h Hh n Hn. eapply agree_trans; [by apply checked_agree|].
  apply (agree_step _ _ _ _ (fun g => [g])); [by apply Hh|]. intros g. unfold Filter.treeid, Filter.check_experimental.
  rewrite He. unfold path_of. destruct Hq as (_ & _ & -> & _). by rewrite Ec.
Qed.

Lemma unapply_reads r b :
  experimental = true -> ref_printable r = true -> reads b -> reads (Op.Unapply r b).
Proof.
  intros He Hr Hb. destruct (ref_pair r Hr) as (q & Hq & _). destruct (reads_spec b Hb) as (ps & Hs & _).
  destruct (reads_start b Hb) as [t Et]. rewrite Et in Hs.
  pose proof (unapply_item _ _ _ _ Hq Hs) as Hi. cbv zeta in Hi. rewrite <- Et in Hi.
  eapply (reads_around _ b); [intros h; reflexivity|simpl; lia|exact Hi|].
  eapply ample_impl; [by apply reads_parses|]. intros h Hh n Hn. eapply agree_trans; [by apply checked_agree|].
  cbn [into_inner]. rewrite !fmap_cons. cbn [as_str]. destruct Hq as (_ & -> & _).
  eapply agree_trans; [apply agree_bind; [by apply lazy_ref_reads|intros a; apply agree_refl]|].
  apply (agree_bind (parse_within h experimental n (text b)) _ (fun g => mret (Op.Unapply r g))); [by apply Hh|done].
Qed.

(** ** Choices by commit *)

Lemma arm_entry m r b :
  bool_decide (m = RevMatch.Default) || ref_printable r = true -> reads b -> exists p,
  listed_entry (Call Rule.rev_entry) (rev_match_text m r +:+ text b, [p]) /\
  forall h n, agree (parse_within h experimental n (text b)) (rebuild h b) ->
    agree (parse_rev_entry (parse_within h experimental n) p) (g ← rebuild h b; mret (rev_arm m r, g)).
Proof.
  intros Hr Hb. destruct (reads_spec b Hb) as (ps & Hs & _). destruct (decide (m = RevMatch.Default)) as [->|Hm].
  - eexists. split; [by apply default_entry|]. intros h n Hn. by apply agree_bind.
  - rewrite bool_decide_false in Hr by done. destruct (ref_pair r Hr) as (q & Hq & _ & Hc).
    destruct (reads_start b Hb) as [t Et]. pose proof Hs as Hs'. rewrite Et in Hs'.
    pose proof (rev_item_entry m _ q t ps Hm Hc Hq Hs') as He. cbv zeta in He. rewrite <- Et in He. eexists. split.
    + assert (rev_match_text m r +:+ text b = rev_sign m +:+ LazyRef.to_string r +:+ text b) as ->; [|exact He].
      destruct m; try done; cbn [rev_match_text rev_sign]; by rewrite <- append_assoc.
    + intros h n Hn. unfold parse_rev_entry. cbn [as_rule into_inner as_str].
      assert (as_str q = LazyRef.to_string r) as -> by apply Hq. unfold rev_arm. rewrite (decide_False (P := m = RevMatch.Default)) by done.
      assert (agree (r' ← lazy_ref (LazyRef.to_string r); g ← parse_within h experimental n (text b); mret (m, r', g))
        (g ← rebuild h b; mret (m, r, g))) as Hg.
      { eapply agree_trans; [apply agree_bind; [by apply lazy_ref_reads|intros a; apply agree_refl]|].
        apply (agree_bind (parse_within h experimental n (text b)) _ (fun g => mret (m, r, g))); [done|done]. }
      destruct m; done.
Qed.

Lemma rev_reads l :
  Forall (fun x => bool_decide (x.1.1 = RevMatch.Default) || ref_printable x.1.2 = true) l ->
  Forall reads (snd <$> l) -> reads (Op.Rev l).
Proof.
  intros Hr Hb. rewrite Forall_fmap in Hb.
  assert (exists ps : list node_pair, Forall2 (fun x p => listed_entry (Call Rule.rev_entry) (rev_match_text x.1.1 x.1.2 +:+ text x.2, [p]) /\
    forall h n, agree (parse_within h experimental n (text x.2)) (rebuild h x.2) ->
      agree (parse_rev_entry (parse_within h experimental n) p) (g ← rebuild h x.2; mret (rev_arm x.1.1 x.1.2, g))) l ps) as [ps Hps].
  { clear -Hr Hb H0. induction l as [|[[m r] b] l IH]; [by exists []|]. apply Forall_cons in Hr as [Hr1 Hr]. apply Forall_cons in Hb as [Hb1 Hb].
    destruct (IH Hr Hb) as [ps Hps]. destruct (arm_entry m r b Hr1 Hb1) as (p & H1 & H2). exists (p :: ps). by constructor. }
  set (xs := (fun x : (RevMatch.t * LazyRef.t * filter) * node_pair =>
    (rev_match_text x.1.1.1 x.1.1.2 +:+ text x.1.2, [x.2])) <$> zip l ps).
  assert (xs.*1 = (fun x => rev_match_text x.1.1 x.1.2 +:+ text x.2) <$> l /\ concat xs.*2 = ps /\ Forall (listed_entry (Call Rule.rev_entry)) xs)
    as (E1 & E2 & Hxs).
  { clear -Hps. subst xs. induction Hps as [|x p l ps [He _] _ (E1 & E2 & IH)]; [done|]. cbn [zip zip_with]. rewrite !fmap_cons.
    cbn [concat fst snd app]. rewrite E1, E2. split; [done|]. split; [done|]. by constructor. }
  pose proof (rev_item xs Hxs) as Hi. cbv zeta in Hi. rewrite E1, E2 in Hi.
  exists [(text (Op.Rev l), Pair Rule.filter_rev (text (Op.Rev l)) ps)]. split; [done|]. split; [by constructor|]. split; [done|].
  eapply (ample_impl (fun h => forall x, x ∈ l -> forall n, size x.2 <= n -> agree (parse_within h experimental n (text x.2)) (rebuild h x.2))).
  { apply ample_all. rewrite Forall_forall in Hb. intros x Hx. by apply reads_parses, Hb. }
  intros h Hh n Hn. constructor; [|constructor]. unfold parse_item. cbn [as_rule into_inner snd].
  apply (agree_bind (mapM (parse_rev_entry (parse_within h experimental n)) ps)); [|done]. apply agree_mapM, Forall2_flip, Forall2_fmap_l.
  assert (forall x, x ∈ l -> size x.2 <= n) as Hsz.
  { intros x Hx. cbn [size] in Hn. clear -Hx Hn. induction Hx as [x l|x y l Hx IH]; simpl in *; [lia|]. apply IH. lia. }
  clear -Hps Hh Hsz. induction Hps as [|x p l ps [_ Hp] _ IH]; [constructor|]. constructor.
  - apply Hp, Hh; [by left|]. apply Hsz. by left.
  - apply IH; intros y Hy; [apply Hh|apply Hsz]; by right.
Qed.

(** ** Metadata *)

Lemma meta_items_all (l : list node_pair) c :
  Forall (fun p => as_rule p = Rule.filter_path \/ as_rule p = Rule.string) l -> as_rule c = Rule.compose ->
  meta_items (l ++ [c]) = (l, Some c).
Proof.
  intros Hl Hc. induction Hl as [|p l Hp Hl IH]; [simpl; by rewrite Hc|]. cbn [app meta_items]. rewrite IH.
  by destruct Hp as [-> | ->].
Qed.

Lemma meta_pairs (meta : list (string * string)) :
  Forall (fun kv => path_text kv.1 && nice kv.2 = true) meta -> exists xs : list (string * list node_pair),
  xs.*1 = meta_text <$> meta /\ Forall (listed_entry meta_entry) xs /\
  Forall (fun p => as_rule p = Rule.filter_path \/ as_rule p = Rule.string) (concat xs.*2) /\
  (fun x => (as_str x.1, text_of x.2)) <$> chunks2 (concat xs.*2) = meta.
Proof.
  induction 1 as [|[k v] meta [Hk Hv]%andb_true_iff _ (xs & Ex & Hxs & Hr & Ec)]; [by exists []|].
  destruct (quote_string v Hv) as [p Hp]. exists ((meta_text (k, v), [Pair Rule.filter_path k []; p]) :: xs).
  rewrite !fmap_cons, Ex. split; [done|]. split; [constructor; [by apply key_entry|done]|].
  destruct Hp as (_ & Hrule & Hvp & _). cbn [concat app snd]. split; [constructor; [by left|constructor; [by right|done]]|].
  unfold chunks2 in *. cbn [tuples]. rewrite fmap_cons, Ec. cbn [fst snd as_str]. by rewrite Hvp.
Qed.

Lemma meta_reads meta b :
  Forall (fun kv => path_text kv.1 && nice kv.2 = true) meta -> keys_sorted meta -> reads b -> reads (Op.Meta meta b).
Proof.
  intros Hm Hk Hb. destruct (reads_spec b Hb) as (ps & Hs & _).
  assert (exists meta', sorted (meta_text <$> meta) = meta_text <$> meta' /\ Permutation meta' meta) as (meta' & Es & Hp).
  { destruct (Permutation_map_inv meta_text meta (l1 := sorted (meta_text <$> meta))) as (meta' & E & Hp);
      [apply merge_sort_Permutation|]. by exists meta'. }
  destruct (meta_pairs meta') as (xs & Ex & Hxs & Hr & Ec); [by rewrite Hp|].
  pose proof (meta_item xs (text b) ps Hxs Hs) as Hi. cbv zeta in Hi. rewrite Ex, <- Es in Hi.
  eapply (reads_around _ b); [intros h; reflexivity|simpl; lia|exact Hi|].
  eapply ample_impl; [by apply one_parses|]. intros h Hh n Hn. unfold parse_item. cbn [as_rule into_inner]. unfold parse_meta.
  rewrite meta_items_all by done. cbn [as_str].
  assert (foldl (fun m x => btree_insert (as_str x.1) (text_of x.2) m) [] (chunks2 (concat xs.*2)) = meta) as ->.
  { rewrite <- (texts_insert_all meta meta' Hk Hp), <- Ec. clear. generalize (@nil (string * string)).
    induction (chunks2 (concat xs.*2)) as [|x l IH]; intros a; [done|]. rewrite fmap_cons. apply IH. }
  by apply (agree_step _ _ _ _ (fun g => [g])); [apply Hh|].
Qed.

Lemma printable_reads f : printable f = true -> reads f.
Proof.
  induction f as [f IH] using filter_ind. intros Hf.
  assert (forall l, Forall (fun f => printable f = true -> reads f) l -> forallb printable l = true -> Forall reads l) as Hlist.
  { intros l Hl Hp. rewrite Forall_forallb in Hp. rewrite Forall_forall in *. auto. }
  assert (forall b, Forall (fun f => printable f = true -> reads f) [b] -> printable b = true -> reads b) as Hchild
    by (intros b [Hb _]%Forall_cons; auto).
  assert (forall name b make, text f = group_text name [text b] -> (forall h, items h f = [built make (rebuild h b)]) ->
    reads b -> printable b = true -> name ∈ group_commands -> size b < size f ->
    (forall g, finish_group name [g] = mret (make (Op.Compose [g]))) -> reads f) as Hone.
  { intros name b make Et Hi Hb Hp Hn Hs Hm. apply (reads_group f name [b] _ Et Hi Hn); [by constructor|by constructor| |].
    - by intros ? ->%list_elem_of_singleton.
    - intros h. by apply one_agree. }
  destruct f; cbn [printable children] in *; try (by eapply reads_item; [|apply leaf_reads]); rewrite ?andb_true_iff in Hf;
    repeat match goal with H : _ /\ _ |- _ => destruct H end.
  - apply meta_reads; [by apply Forall_forallb|by eapply bool_decide_eq_true|by apply Hchild].
  - rewrite Forall_forallb in Hf.
    apply rev_reads; [|apply Hlist; [done|]; rewrite Forall_forallb, Forall_fmap]; (eapply Forall_impl; [exact Hf|]);
      intros x Hx; rewrite !andb_true_iff in Hx; simpl; tauto.
  - by apply starlark_reads; [..|apply Hchild].
  - by apply treeid_reads; [..|apply Hchild].
  - by apply unapply_reads; [..|apply Hchild].
  - apply (reads_group _ EmptyString filters (fun h => gs ← mapM id (rebuild h <$> filters); mret (Op.Compose gs)));
      [done|done|listed|by apply Hlist|by apply Forall_forallb| |done].
    intros b Hb. apply sum_list_with_elem in Hb. simpl. lia.
  - destruct filters as [|x l]; [apply (reads_item _ (fun _ => mret Op.Nop)); [done|]; eexists; split; [apply nop_item|done]|].
    destruct (in_directory (x :: l)) as [p|] eqn:Ed; [|by apply chain_reads; [apply Hlist|]].
    apply (reads_item _ (fun h => g ← Filter.subdir h Filter.new p; Filter.prefix h g p));
      cbn [items text]; rewrite Ed; [done|by apply directory_reads].
  - apply (reads_group _ "subtract" [f1; f2] (fun h => x ← rebuild h f1; y ← rebuild h f2; mret (Op.Subtract x y)));
      [done|done|listed|apply Hlist; [done|simpl; by repeat match goal with H : _ = true |- _ => rewrite H end]|by repeat constructor| |].
    + intros b [->|[->|[]%elem_of_nil]%elem_of_cons]%elem_of_cons; simpl; lia.
    + intros h s. cbn [fmap list_fmap mapM]. unfold mbind, M_bind, id.
      destruct (rebuild h f1 s) as [[a|e|] s']; [|done|done]. by destruct (rebuild h f2 s') as [[b|e|] s''].
  - by apply (Hone "exclude" f Op.Exclude); [..|apply Hchild| |listed|simpl; lia|].
  - by apply (Hone "select" f Op.Select); [..|apply Hchild| |listed|simpl; lia|].
  - by apply (Hone "pin" f Op.Pin); [..|apply Hchild| |listed|simpl; lia|].
Qed.

(** * Printing and parsing *)

Lemma printed_parses f :
  printable f = true -> ample (fun h => agree (parse h experimental (text f)) (rebuild h f)).
Proof.
  intros Hf. eapply ample_and; [apply (ample_ge (size f))|by apply reads_parses, printable_reads|].
  intros h Hh Hp. by apply Hp.
Qed.
End Round.
