(* ===== verification/PersistFacts.v ===== *)
(** Reading back what was persisted: the reader recovers every filter from the
    objects the builder stages for it, up to the limits of the format. *)

From S2P Require Import Prelude Path Objects Store Utf8 Pattern Persist Ops.

Open Scope nat_scope.

(** * Sorted entries *)

Lemma insert_by_name_perm e l : Permutation (insert_by_name e l) (e :: l).
Proof.
  induction l as [|x l IH]; simpl; [done|]. destruct (String.compare _ _); [done|done|].
  rewrite IH. constructor.
Qed.

Lemma sort_by_name_perm l : Permutation (sort_by_name l) l.
Proof.
  induction l as [|e l IH]; [done|]. simpl. by rewrite insert_by_name_perm, IH.
Qed.

Lemma find_entry_elem l e :
  NoDup (filename <$> l) -> e ∈ l -> find_entry (filename e) l = Some e.
Proof.
  induction l as [|x l IH]; simpl; intros Hn He; [by apply not_elem_of_nil in He|].
  apply NoDup_cons in Hn as [Hx Hn]. apply elem_of_cons in He as [->|He]; [by rewrite decide_True|].
  rewrite decide_False; [by apply IH|]. intros E. apply Hx. rewrite E.
  apply list_elem_of_fmap. by exists e.
Qed.

(** Sorting does not change what is found by name. *)
Lemma find_entry_sort l e :
  NoDup (filename <$> l) -> e ∈ l -> find_entry (filename e) (sort_by_name l) = Some e.
Proof.
  intros Hn He. apply find_entry_elem; by rewrite sort_by_name_perm.
Qed.

Definition indexed (m : entry_mode) (ids : list oid) : list entry :=
  imap (fun i id => Entry m (index_name i) id) ids.

Lemma indexed_names m ids : filename <$> indexed m ids = index_name <$> seq 0 (length ids).
Proof.
  unfold indexed. assert (forall k, filename <$> imap (fun i id => Entry m (index_name (k + i)) id) ids
    = index_name <$> seq k (length ids)) as Hk; [|apply (Hk 0)].
  induction ids as [|id ids IH]; intros k; [done|]. cbn [imap fmap list_fmap length seq].
  rewrite Nat.add_0_r. f_equal. rewrite <- IH. unfold compose.
  f_equal. apply imap_ext. intros i x _. simpl. by rewrite Nat.add_succ_r.
Qed.

Lemma indexed_nodup m ids : NoDup (filename <$> indexed m ids).
Proof.
  rewrite indexed_names. apply (NoDup_fmap_2 _). apply NoDup_seq.
Qed.

Lemma indexed_lookup m ids i id :
  ids !! i = Some id -> Entry m (index_name i) id ∈ indexed m ids.
Proof.
  intros Hi. apply list_elem_of_lookup_2 with i. unfold indexed.
  by rewrite list_lookup_imap, Hi.
Qed.

Lemma indexed_oids m ids : entry_oid <$> indexed m ids = ids.
Proof.
  unfold indexed. rewrite fmap_imap. transitivity (imap (fun _ id => id) ids); [done|].
  clear. induction ids as [|id ids IH]; [done|]. simpl. f_equal. exact IH.
Qed.

(** Up to ten names the order of the bytes is the order of the numbers. *)
Lemma digit_order : forall i j, i < 10 -> j < 10 ->
  String.compare (index_name i) (index_name j) = (i ?= j).
Proof.
  intros i j Hi Hj. do 10 (destruct i as [|i]; [do 10 (destruct j as [|j]; [done|]); lia|]). lia.
Qed.

Lemma sort_indexed m ids :
  length ids <= 10 -> sort_by_name (indexed m ids) = indexed m ids.
Proof.
  intros Hl. unfold indexed. assert (forall k, k + length ids <= 10 ->
    sort_by_name (imap (fun i id => Entry m (index_name (k + i)) id) ids) =
    imap (fun i id => Entry m (index_name (k + i)) id) ids) as Hk; [|by apply (Hk 0)].
  clear Hl. induction ids as [|id ids IH]; intros k Hk; [done|]. simpl in Hk.
  cbn [imap sort_by_name foldr]. fold (sort_by_name (imap ((fun i id => Entry m (index_name (k + i)) id) ∘ S) ids)).
  assert (imap ((fun i id => Entry m (index_name (k + i)) id) ∘ S) ids =
    imap (fun i id => Entry m (index_name (S k + i)) id) ids) as ->.
  { apply imap_ext. intros i x _. simpl. by rewrite Nat.add_succ_r. }
  rewrite IH by lia. destruct ids as [|id2 ids]; [done|]. simpl.
  rewrite !Nat.add_0_r, digit_order by (simpl in Hk; lia).
  rewrite (proj2 (Nat.compare_lt_iff k (S k))) by lia. done.
Qed.

(** * The builder *)

Abbreviation store := (gmap oid object).

Section Triples.
Context `{ObjectHash}.

(** Objects are staged under their address, and the empty blob always is. *)
Definition builder_ok (b : builder) : Prop :=
  (forall id x, pending b !! id = Some x -> id = compute_hash x) /\
  pending b !! compute_hash (OBlob EmptyString) = Some (OBlob EmptyString).

Lemma new_builder_ok : builder_ok new_builder.
Proof.
  split; simpl; [|by rewrite lookup_singleton_eq].
  by intros id x [<- <-]%lookup_singleton_Some.
Qed.

(** From a builder with the persist-time ids [P] whose objects satisfy [Pre], the
    computation succeeds, only adds objects, and establishes [Q]. *)
Definition triple {A} (P : list (filter * oid)) (Pre : store -> Prop) (m : bm A)
    (Q : A -> store -> Prop) : Prop :=
  forall b, builder_ok b -> persist_ids b = P -> Pre (pending b) ->
  exists a b', m b = (Ok a, b') /\ builder_ok b' /\ persist_ids b' = P /\
    pending b ⊆ pending b' /\ Q a (pending b').

(** Facts about staged objects stay true. *)
Definition grows (F : store -> Prop) : Prop := forall st st', st ⊆ st' -> F st -> F st'.

Lemma triple_ret {A} P (a : A) (Q : A -> store -> Prop) : triple P (Q a) (mret a) Q.
Proof. intros b Hb HP HQ. by exists a, b. Qed.

Lemma triple_bind {A B} P Pre (m : bm A) (k : A -> bm B) Q R :
  triple P Pre m Q -> (forall a, triple P (Q a) (k a) R) -> triple P Pre (m ≫= k) R.
Proof.
  intros Hm Hk b Hb HP Hpre. destruct (Hm b Hb HP Hpre) as (a & b1 & E & Hb1 & HP1 & Hs & HQ).
  destruct (Hk a b1 Hb1 HP1 HQ) as (c & b2 & E2 & Hb2 & HP2 & Hs2 & HR).
  exists c, b2. unfold mbind, M_bind. rewrite E. do 3 (split; [done|]).
  split; [by transitivity (pending b1)|done].
Qed.

Lemma triple_frame {A} P Pre (m : bm A) Q F :
  grows F -> triple P Pre m Q ->
  triple P (fun st => Pre st /\ F st) m (fun a st => Q a st /\ F st).
Proof.
  intros HF Hm b Hb HP [Hpre Hf]. destruct (Hm b Hb HP Hpre) as (a & b1 & E & Hb1 & HP1 & Hs & HQ).
  exists a, b1. do 4 (split; [done|]). split; [done|]. by eapply HF.
Qed.

Lemma triple_conseq {A} P (Pre Pre' : store -> Prop) (m : bm A) (Q Q' : A -> store -> Prop) :
  triple P Pre m Q -> (forall st, Pre' st -> Pre st) -> (forall a st, Q a st -> Q' a st) ->
  triple P Pre' m Q'.
Proof.
  intros Hm Hpre HQ b Hb HP Hp. destruct (Hm b Hb HP (Hpre _ Hp)) as (a & b1 & E & ? & ? & ? & ?).
  exists a, b1. do 4 (split; [done|]). by apply HQ.
Qed.

Lemma triple_mapM {A B} P (f : A -> bm B) (Q : A -> B -> store -> Prop) (l : list A) :
  (forall x a, grows (Q x a)) ->
  (forall x, x ∈ l -> triple P (fun _ => True) (f x) (Q x)) ->
  triple P (fun _ => True) (mapM f l) (fun bs st => Forall2 (fun x a => Q x a st) l bs).
Proof.
  intros Hg. induction l as [|x l IH]; intros Hf.
  - intros b Hb HP _. exists [], b. by repeat (split; [done|]).
  - cbn [mapM]. eapply triple_bind; [apply Hf; left|]. intros a.
    eapply triple_bind.
    { eapply (triple_conseq _ (fun st => True /\ Q x a st)); [|done|intros ? ? Hq; exact Hq].
      apply triple_frame; [apply Hg|]. apply IH. intros y Hy. apply Hf. by right. }
    intros bs. eapply triple_conseq; [apply triple_ret| |by intros ? ? Hq; exact Hq].
    simpl. intros st [? ?]. by constructor.
Qed.

Definition has_blob (id : oid) (d : string) (st : store) : Prop := st !! id = Some (OBlob d).
Definition has_tree (id : oid) (l : list entry) (st : store) : Prop := st !! id = Some (OTree l).

Lemma has_blob_grows id d : grows (has_blob id d).
Proof. intros st st' Hs Hb. by eapply lookup_weaken. Qed.
Lemma has_tree_grows id l : grows (has_tree id l).
Proof. intros st st' Hs Hb. by eapply lookup_weaken. Qed.

Lemma write_raw_triple P x : triple P (fun _ => True) (write_raw x)
  (fun id st => id = compute_hash x /\ st !! id = Some x).
Proof.
  intros b [Hh He] HP _. eexists _, _. split; [done|]. split; [split|].
  - simpl. intros id y [[<- <-]|[_ Hy]]%lookup_insert_Some; [done|by apply Hh].
  - simpl. destruct (decide (compute_hash (OBlob EmptyString) = compute_hash x)) as [E|Hne].
    + apply compute_hash_inj in E as <-. by rewrite lookup_insert_eq.
    + by rewrite lookup_insert_ne.
  - split; [done|]. split; [|split; [done|]; simpl; by rewrite lookup_insert_eq].
    simpl. apply map_subseteq_spec. intros id y Hy.
    destruct (decide (id = compute_hash x)) as [->|Hne]; [|by rewrite lookup_insert_ne].
    rewrite lookup_insert_eq. apply Hh in Hy. by apply compute_hash_inj in Hy as ->.
Qed.

Lemma stage_blob_triple P d : triple P (fun _ => True) (stage_blob d) (fun id => has_blob id d).
Proof.
  destruct d as [|c d].
  - intros b Hb HP _. eexists _, b. split; [done|]. split; [done|]. split; [done|].
    split; [done|]. apply Hb.
  - eapply triple_conseq; [apply write_raw_triple|done|]. intros id st [_ ?]. done.
Qed.

Lemma stage_tree_triple P l :
  Forall (fun e => has_nul (filename e) = false) l ->
  triple P (fun _ => True) (stage_tree l) (fun id => has_tree id (sort_by_name l)).
Proof.
  intros Hl. unfold stage_tree. replace (existsb _ l) with false.
  - eapply triple_conseq; [apply write_raw_triple|done|]. intros id st [_ ?]. done.
  - symmetry. apply not_true_iff_false. intros (e & He & Hn)%existsb_exists.
    rewrite Forall_forall in Hl. rewrite Hl in Hn; [done|]. by apply list_elem_of_In.
Qed.

(** Staging a tree keeps what is known. *)
Lemma stage_tree_frame P l F :
  Forall (fun e => has_nul (filename e) = false) l -> grows F ->
  triple P F (stage_tree l) (fun id st => has_tree id (sort_by_name l) st /\ F st).
Proof.
  intros Hl HF. eapply triple_conseq; [by apply triple_frame, stage_tree_triple|by auto|auto].
Qed.

(** * Texts *)

(** A tree with the texts [params] under their numbers. *)
Definition has_texts (id : oid) (params : list string) (st : store) : Prop :=
  exists l, has_tree id l st /\
    Permutation (filename <$> l) (index_name <$> seq 0 (length params)) /\
    forall i s, params !! i = Some s ->
      exists e, find_entry (index_name i) l = Some e /\ has_blob (entry_oid e) s st.

(** A tree with the ids under their numbers. *)
Definition has_ids (id : oid) (ids : list oid) (st : store) : Prop :=
  exists l, has_tree id l st /\ length l = length ids /\
    (forall i x, ids !! i = Some x ->
       exists e, find_entry (index_name i) l = Some e /\ entry_oid e = x) /\
    Permutation (entry_oid <$> l) ids /\
    (length ids <= 10 -> entry_oid <$> l = ids).

Lemma digits_no_nul i : has_nul (index_name i) = false.
Proof.
  unfold index_name, pretty, pretty_nat, pretty, pretty_N.
  case_decide; [done|]. generalize (N.of_nat i) as n. intros n.
  assert (forall x s, has_nul s = false -> has_nul (pretty_N_go x s) = false) as Hgo; [|by apply Hgo].
  clear. intros x. induction (N.lt_wf_0 x) as [x _ IH]. intros s Hs.
  destruct (decide (0 < x)%N) as [Hx|Hx].
  - rewrite pretty_N_go_step by done. apply IH; [apply N.div_lt; lia|].
    unfold has_nul in *. simpl. rewrite Hs, orb_false_r. apply bool_decide_eq_false.
    assert (x mod 10 < 10)%N as Hm by (apply N.mod_lt; lia). revert Hm.
    generalize (x mod 10)%N as d. intros d Hd.
    destruct d as [|p]; [done|]. repeat (destruct p as [p|p|]; try done; try lia).
  - assert (x = 0)%N as -> by lia. by rewrite pretty_N_go_0.
Qed.

Lemma indexed_no_nul m ids : Forall (fun e => has_nul (filename e) = false) (indexed m ids).
Proof.
  apply Forall_forall. intros e He. assert (filename e ∈ filename <$> indexed m ids) as Hn.
  { apply list_elem_of_fmap. by exists e. }
  rewrite indexed_names in Hn. apply list_elem_of_fmap in Hn as (i & -> & _). apply digits_no_nul.
Qed.

Lemma Forall2_blobs_grows l ids : grows (fun st => Forall2 (fun d id => has_blob id d st) l ids).
Proof.
  intros st st' Hs Hf. eapply Forall2_impl; [exact Hf|]. intros d id Hb.
  by eapply has_blob_grows.
Qed.

Lemma build_str_params_triple P params :
  triple P (fun _ => True) (build_str_params params) (fun id => has_texts id params).
Proof.
  eapply triple_bind.
  { apply (triple_mapM P stage_blob (fun d id => has_blob id d)); [intros; apply has_blob_grows|].
    intros; apply stage_blob_triple. }
  intros ids. eapply triple_conseq.
  { apply (stage_tree_frame P (indexed blob_mode ids)); [apply indexed_no_nul|].
    apply Forall2_blobs_grows. }
  { intros st Hf. exact Hf. }
  intros id st [Ht Hf]. exists (sort_by_name (indexed blob_mode ids)). split; [done|].
  apply Forall2_length in Hf as Hlen. split.
  { by rewrite sort_by_name_perm, indexed_names, Hlen. }
  intros i s Hi. eapply Forall2_lookup_l in Hf as (x & Hx & Hb); [|exact Hi].
  exists (Entry blob_mode (index_name i) x). split; [|done].
  apply (find_entry_sort _ (Entry blob_mode (index_name i) x)); [apply indexed_nodup|].
  by apply indexed_lookup.
Qed.

Lemma stage_ids_triple P ids F :
  grows F ->
  triple P F (stage_tree (indexed tree_mode ids)) (fun id st => has_ids id ids st /\ F st).
Proof.
  intros HF. eapply triple_conseq.
  { apply (stage_tree_frame P (indexed tree_mode ids) F); [apply indexed_no_nul|done]. }
  { done. }
  intros id st [Ht Hf]. split; [|done]. exists (sort_by_name (indexed tree_mode ids)).
  split; [done|]. split; [rewrite sort_by_name_perm; unfold indexed; by rewrite length_imap|].
  split.
  - intros i x Hi. exists (Entry tree_mode (index_name i) x). split; [|done].
    apply (find_entry_sort _ (Entry tree_mode (index_name i) x)); [apply indexed_nodup|].
    by apply indexed_lookup.
  - split; [by rewrite sort_by_name_perm, indexed_oids|]. intros Hl. rewrite sort_indexed by done. apply indexed_oids.
Qed.

End Triples.
