(* ===== verification/PersistReads.v ===== *)
(** What the reader of josh-filter/src/persist.rs makes of the objects the builder
    stages for one operator, given that its sub-filters can be read. *)

From S2P Require Import Prelude Path Objects Store Utf8 Pattern Persist PersistFacts Ops.

Open Scope nat_scope.

(** * Which operators the format can carry *)

Section Carried.
Context `{Readers}.

Definition text_ok (s : string) : Prop := valid_utf8 s = true.
Definition path_ok (p : path) : Prop := wf_path p /\ text_ok (to_string p).

(** A reference is printed so that it is read back: the third-party readers tell an
    object id from a quoted name, and the printed form has no quote of the other
    kind. *)
Definition ref_ok (r : LazyRef.t) : Prop :=
  text_ok (LazyRef.to_string r) /\
  LazyRef.replace_char LazyRef.squote LazyRef.dquote (LazyRef.to_string r)
    = LazyRef.to_string r /\
  match r with
  | LazyRef.Resolved id =>
      json_string id = None /\ oid_from_str id = Some id /\ strip_prefix "=" id = None
  | LazyRef.Lazy s => json_string (LazyRef.to_string r) = Some s
  end.

Definition rev_ok (m : RevMatch.t) (r : LazyRef.t) : Prop :=
  match m with
  | RevMatch.Default => r = LazyRef.Resolved zero_oid
  | _ => ref_ok r /\ text_ok (rev_key m r)
  end.

Definition meta_key_ok (x : string * string) : Prop :=
  text_ok x.1 /\ text_ok x.2 /\ x.1 ≠ "0" /\ has_nul x.1 = false.

Definition replacement_ok (x : regex * string) : Prop :=
  text_ok x.1 /\ text_ok x.2 /\ regex_new x.1 = true.

Definition glob_ok (s : string) : Prop :=
  exists cs ms, chars s = Some cs /\ compile cs = inr ms.

(** The operators that are read back from their trees; [kind_of] gives the kind of
    an inserted object. *)
Definition op_ok (kind_of : oid -> option kind) (op : Op.t) : Prop :=
  match op with
  | Op.Starlark _ _ | Op.TreeId _ _ => False
  | Op.Embed p | Op.Prefix p | Op.Subdir p | Op.Workspace p | Op.Stored p
  | Op.ObjectDeref p | Op.ObjectRef p => path_ok p
  | Op.File d s => path_ok d /\ path_ok s
  | Op.Adapt s | Op.Hook s => text_ok s
  | Op.Author a b | Op.Committer a b => text_ok a /\ text_ok b
  | Op.Message fmt re => text_ok fmt /\ text_ok re /\ regex_new re = true
  | Op.Pattern s => text_ok s /\ glob_ok s
  | Op.Insert p (InsertContent.Inline s) => path_ok p /\ text_ok s
  | Op.Insert p (InsertContent.Oid id) =>
      path_ok p /\ (kind_of id = Some Blob \/ kind_of id = Some Tree)
  | Op.Downstack r | Op.Unapply r _ => ref_ok r
  | Op.Rev l => Forall (fun x => rev_ok x.1.1 x.1.2) l
  | Op.Squash (Some m) => Forall (fun x => ref_ok x.1) m /\ ord_sorted LazyRef.cmp m
  | Op.RegexReplace l => Forall replacement_ok l /\ length l <= 10
  | Op.Compose l => length l <= 10
  | Op.Chain l => l ≠ []
  | Op.Meta m _ => Forall meta_key_ok m /\ ord_sorted String.compare m
  | _ => True
  end.

Lemma parse_ref_ok r : ref_ok r -> parse_ref (LazyRef.to_string r) = Ok r.
Proof.
  intros (_ & Hq & Hr). unfold parse_ref, LazyRef.parse. rewrite Hq.
  destruct r as [id|s]; [|by rewrite Hr]. destruct Hr as (Hj & Ho & _). simpl. by rewrite Hj, Ho.
Qed.

Lemma ref_not_equals r : ref_ok r -> strip_prefix "=" (LazyRef.to_string r) = None.
Proof. intros (_ & _ & Hr). destruct r; [apply Hr|done]. Qed.

Lemma strip_prefix_cons c p s : strip_prefix (String c p) (String c s) = strip_prefix p s.
Proof. simpl. by rewrite decide_True. Qed.

Lemma parse_rev_key_ok m r : rev_ok m r -> parse_rev_key (rev_key m r) = Ok (m, r).
Proof.
  destruct m; simpl.
  - intros [Hr _]. unfold parse_rev_key. rewrite decide_False by done.
    change ("<" +:+ LazyRef.to_string r) with (String "<" (LazyRef.to_string r)).
    rewrite !strip_prefix_cons, ref_not_equals by done. cbn [strip_prefix].
    by rewrite parse_ref_ok.
  - intros [Hr _]. unfold parse_rev_key. rewrite decide_False by done. simpl.
    by rewrite parse_ref_ok.
  - intros [Hr _]. unfold parse_rev_key. rewrite decide_False by done. simpl.
    by rewrite parse_ref_ok.
  - by intros ->.
Qed.

End Carried.

(** * Lists of results *)

Lemma collect_named {A} (l : list entry) (what : string) (g : oid -> res A) (ids : list oid)
    (vs : list A) :
  length l = length ids ->
  (forall i x, ids !! i = Some x ->
     exists e, find_entry (index_name i) l = Some e /\ entry_oid e = x) ->
  Forall2 (fun x v => g x = Ok v) ids vs ->
  collect_res ((fun i => e ← need_name l (index_name i) what; g (entry_oid e))
    <$> seq 0 (length l)) = Ok vs.
Proof.
  intros Hlen Hn Hv. apply collect_res_ok. apply list_eq. intros i.
  rewrite !list_lookup_fmap. apply Forall2_length in Hv as Hlen2.
  destruct (decide (i < length ids)) as [Hi|Hi].
  - rewrite lookup_seq_lt by lia. destruct (lookup_lt_is_Some_2 ids i Hi) as [x Hx].
    destruct (Forall2_lookup_l _ _ _ _ _ Hv Hx) as (v & Hvi & Hg).
    destruct (Hn i x Hx) as (e & He & Ho). rewrite Hvi. simpl.
    unfold need_name. rewrite He. simpl. by rewrite Ho, Hg.
  - rewrite lookup_seq_ge by lia. by rewrite lookup_ge_None_2 by lia.
Qed.

Lemma collect_oids {A} (l : list entry) (g : oid -> res A) (ids : list oid) (vs : list A) :
  entry_oid <$> l = ids -> Forall2 (fun x v => g x = Ok v) ids vs ->
  collect_res ((fun e => g (entry_oid e)) <$> l) = Ok vs.
Proof.
  intros <- Hv. apply collect_res_ok. revert vs Hv. induction l as [|e l IH]; intros vs Hv.
  - apply Forall2_nil_inv_l in Hv as ->. done.
  - apply Forall2_cons_inv_l in Hv as (v & vs' & Hg & Hv & ->). rewrite !fmap_cons, Hg.
    f_equal. by apply IH.
Qed.

Lemma collect_permuted {A} (l : list entry) (g : oid -> res A) (ids : list oid) (vs : list A) :
  Permutation (entry_oid <$> l) ids -> Forall2 (fun x v => g x = Ok v) ids vs ->
  exists vs', Permutation vs' vs /\ collect_res ((fun e => g (entry_oid e)) <$> l) = Ok vs'.
Proof.
  intros Hp Hv. destruct (Permutation_Forall2 (symmetry Hp) Hv) as (vs' & Hp' & Hv').
  exists vs'. split; [done|]. by eapply collect_oids.
Qed.

Lemma collect_index {A} (l : list entry) (what : string) (g : oid -> res A) :
  collect_res ((fun i => e ← need_index l i what; g (entry_oid e)) <$> seq 0 (length l)) =
  collect_res ((fun e => g (entry_oid e)) <$> l).
Proof.
  f_equal. apply list_eq. intros i. rewrite !list_lookup_fmap.
  destruct (l !! i) as [e|] eqn:E.
  - rewrite lookup_seq_lt by (by eapply lookup_lt_Some). simpl. unfold need_index. by rewrite E.
  - apply lookup_ge_None_1 in E. by rewrite lookup_seq_ge by lia.
Qed.

(** * Reading texts *)

(** What is staged is found. *)
Definition found_in (find : oid -> option object) (st : store) : Prop :=
  forall id x, st !! id = Some x -> find id = Some x.

Section Texts.
Context `{Readers} (find : oid -> option object) (st : store).
Hypothesis Hfind : found_in find st.

Lemma read_persisted_staged id l : has_tree id l st -> read_persisted find id = Ok l.
Proof. intros Ht. unfold read_persisted. by rewrite (Hfind _ _ Ht). Qed.

Lemma read_blob_staged id d : has_blob id d st -> read_blob find id = Ok d.
Proof. intros Hb. unfold read_blob. by rewrite (Hfind _ _ Hb). Qed.

Lemma from_utf8_ok s : text_ok s -> from_utf8 s = Ok s.
Proof. unfold text_ok, from_utf8. by intros ->. Qed.

Lemma named_text id params i name s what l :
  index_name i = name -> has_texts id params st -> params !! i = Some s -> has_tree id l st ->
  named_blob find l name what = Ok s.
Proof.
  intros <- (l' & Ht' & _ & Hi) Hs Ht. unfold has_tree in *. simplify_eq.
  destruct (Hi i s Hs) as (e & He & Hb). unfold named_blob, need_name. rewrite He. simpl.
  by apply read_blob_staged.
Qed.

Lemma has_texts_tree id params : has_texts id params st -> exists l, has_tree id l st.
Proof. intros (l & Ht & _). by exists l. Qed.

Lemma read_text_staged id s what :
  has_texts id [s] st -> text_ok s -> read_text find id what = Ok s.
Proof.
  intros Hs Hok. destruct (has_texts_tree _ _ Hs) as [l Ht]. unfold read_text.
  rewrite (read_persisted_staged _ _ Ht). simpl.
  rewrite (named_text id [s] 0 "0" s what l) by done. simpl. by apply from_utf8_ok.
Qed.

Lemma read_texts_staged id s0 s1 what :
  has_texts id [s0; s1] st -> text_ok s0 -> text_ok s1 -> read_texts find id what = Ok (s0, s1).
Proof.
  intros Hs Hok0 Hok1. destruct (has_texts_tree _ _ Hs) as [l Ht]. unfold read_texts.
  rewrite (read_persisted_staged _ _ Ht). simpl.
  rewrite (named_text id [s0; s1] 0 "0" s0 what l) by done. simpl.
  rewrite (named_text id [s0; s1] 1 "1" s1 what l) by done.
  simpl. rewrite from_utf8_ok by done. simpl. by rewrite from_utf8_ok.
Qed.

Lemma read_path_op_staged id p what op :
  has_texts id [to_string p] st -> path_ok p -> read_path_op find id what op = Ok (op p).
Proof.
  intros Hs [Hw Ht]. unfold read_path_op. rewrite (read_text_staged _ (to_string p)) by done. simpl.
  by rewrite components_to_string.
Qed.

Lemma read_link_staged id m :
  has_texts id [match m with Some m => LinkMode.to_string m | None => EmptyString end] st ->
  read_link find id = Ok (Op.Link m).
Proof.
  intros Hs. unfold read_link. rewrite (read_text_staged _ _ _ Hs).
  - by destruct m as [[]|].
  - by destruct m as [[]|].
Qed.

Lemma read_pattern_staged id s :
  has_texts id [s] st -> text_ok s -> glob_ok s -> read_pattern find id = Ok (Op.Pattern s).
Proof.
  intros Hs Ht (cs & ms & Hc & Hm). unfold read_pattern. rewrite (read_text_staged _ _ _ Hs Ht).
  simpl. by rewrite Hc, Hm.
Qed.

Lemma read_insert_inline id p s :
  has_texts id [to_string p; "inline"; s] st -> path_ok p -> text_ok s ->
  read_insert find id = Ok (Op.Insert p (InsertContent.Inline s)).
Proof.
  intros Hs [Hw Hp] Ht. assert (forall l, has_tree id l st -> find_entry "o" l = None) as Ho.
  { destruct Hs as (l & Hl & Hn & _). intros l' Hl'. unfold has_tree in *. simplify_eq.
    destruct (find_entry "o" l) as [e|] eqn:E; [|done]. apply find_entry_Some in E as [He Ho].
    assert ("o" ∈ filename <$> l) as Hin by (apply list_elem_of_fmap; by exists e).
    rewrite Hn, list_elem_of_In in Hin. vm_compute in Hin. naive_solver. }
  destruct (has_texts_tree _ _ Hs) as [l Hl]. unfold read_insert.
  rewrite (read_persisted_staged _ _ Hl). simpl.
  rewrite (named_text id _ 0 "0" (to_string p) "insert" l eq_refl Hs) by done. simpl.
  rewrite from_utf8_ok by done. simpl. rewrite Ho by done.
  rewrite (named_text id _ 1 "1" "inline" "insert" l eq_refl Hs) by done. simpl.
  rewrite (named_text id _ 2 "2" s "insert" l eq_refl Hs) by done. simpl.
  rewrite from_utf8_ok by done. simpl. rewrite components_to_string by done. done.
Qed.

Lemma read_insert_oid id p k x m :
  has_tree id [blob_entry "0" k; Entry m "o" x] st -> has_blob k (to_string p) st -> path_ok p ->
  read_insert find id = Ok (Op.Insert p (InsertContent.Oid x)).
Proof.
  intros Ht Hk [Hw Hp]. unfold read_insert. rewrite (read_persisted_staged _ _ Ht). simpl.
  unfold named_blob, need_name. simpl. rewrite (read_blob_staged _ _ Hk). simpl.
  rewrite from_utf8_ok by done. simpl. by rewrite components_to_string.
Qed.

End Texts.

(** * Staging and reading sub-filters *)

Section Children.
Context `{ObjectHash} `{Readers}.
Context (P : list (filter * oid)) (id_of : filter -> res oid) (cid : filter -> oid).

(** [cid f] is the id the builder uses for the sub-filter [f]. *)
Definition answers (f : filter) : Prop :=
  forall b, persist_ids b = P -> persist_oid id_of f b = (Ok (cid f), b).

Lemma persist_oid_triple f :
  answers f -> triple P (fun _ => True) (persist_oid id_of f) (fun id _ => id = cid f).
Proof. intros Hf b Hb HP _. exists (cid f), b. by rewrite Hf. Qed.

(** The trees of a list, with what holds of each. *)
Lemma stage_each {A} (m : A -> bm oid) (Q : A -> oid -> store -> Prop) (l : list A) :
  (forall x a, grows (Q x a)) ->
  (forall x, x ∈ l -> triple P (fun _ => True) (m x) (Q x)) ->
  triple P (fun _ => True)
    (ids ← mapM m l; stage_tree (imap (fun i id => tree_entry (index_name i) id) ids))
    (fun id st => exists ids, has_ids id ids st /\ Forall2 (fun x a => Q x a st) l ids).
Proof.
  intros Hg Hm. eapply triple_bind; [by apply triple_mapM|]. intros ids.
  eapply triple_conseq; [apply (stage_ids_triple P ids (fun st => Forall2 (fun x a => Q x a st) l ids))| |].
  - intros st st' Hs Hf. eapply Forall2_impl; [exact Hf|]. intros x a. by apply Hg.
  - done.
  - intros id st [? ?]. by exists ids.
Qed.

Lemma has_ids_grows id ids : grows (has_ids id ids).
Proof.
  intros st st' Hs (l & Ht & Hr). exists l. split; [by eapply has_tree_grows|done].
Qed.

Lemma has_texts_grows id params : grows (has_texts id params).
Proof.
  intros st st' Hs (l & Ht & Hl & Hi). exists l. split; [by eapply has_tree_grows|].
  split; [done|]. intros i s Hs'. destruct (Hi i s Hs') as (e & ? & ?). exists e.
  split; [done|by eapply has_blob_grows].
Qed.

Lemma build_filter_params_triple params :
  Forall answers params ->
  triple P (fun _ => True) (build_filter_params id_of params)
    (fun id => has_ids id (cid <$> params)).
Proof.
  intros Ha. eapply triple_conseq.
  - apply (stage_each (persist_oid id_of) (fun f a _ => a = cid f)); [by intros x a st st'|].
    intros x Hx. apply persist_oid_triple. rewrite Forall_forall in Ha. by apply Ha.
  - done.
  - intros id st (ids & Hi & Hf). replace (cid <$> params) with ids; [done|].
    symmetry. clear - Hf. induction Hf as [|x a l ids -> _ IH]; [done|].
    by rewrite fmap_cons, IH.
Qed.

(** A tree with a key and a filter. *)
Definition has_key (id : oid) (key : string) (f : filter) (st : store) : Prop :=
  exists k, has_tree id [tree_entry "f" (cid f); blob_entry "o" k] st /\ has_blob k key st.

Lemma has_key_grows id key f : grows (has_key id key f).
Proof.
  intros st st' Hs (k & Ht & Hk). exists k.
  split; [by eapply has_tree_grows|by eapply has_blob_grows].
Qed.

Lemma build_keyed_triple key f :
  answers f -> triple P (fun _ => True) (build_keyed id_of key f) (fun id => has_key id key f).
Proof.
  intros Hf. eapply triple_bind; [apply stage_blob_triple|]. intros k.
  eapply triple_bind.
  { eapply (triple_conseq _ (fun st => True /\ has_blob k key st));
      [|done|intros ? ? Hq; exact Hq].
    apply triple_frame; [apply has_blob_grows|]. by apply persist_oid_triple. }
  intros id. intros b Hb HP [-> Hk]. revert b Hb HP Hk.
  change (triple P (has_blob k key)
    (stage_tree [blob_entry "o" k; tree_entry "f" (cid f)]) (fun id => has_key id key f)).
  eapply triple_conseq; [apply stage_tree_frame; [by repeat constructor|apply has_blob_grows]| |].
  - intros st Hs. exact Hs.
  - intros i st [Ht Hs]. by exists k.
Qed.

(** * Reading sub-filters *)

Context (find : oid -> option object) (rec : oid -> res Op.t) (st : store).
Hypothesis Hfind : found_in find st.

(** A sub-filter that can be read. *)
Definition ready (f : filter) : Prop :=
  rec (cid f) = Ok f /\ exists l, find (cid f) = Some (OTree l).

Lemma read_persisted_ready f : ready f -> exists l, read_persisted find (cid f) = Ok l.
Proof. intros [_ [l Hl]]. exists l. unfold read_persisted. by rewrite Hl. Qed.

Lemma read_filter_ready f : ready f -> read_filter find rec (cid f) = Ok f.
Proof.
  intros Hf. destruct (read_persisted_ready f Hf) as [l Hl]. unfold read_filter.
  rewrite Hl. apply Hf.
Qed.

Lemma filters_ready fs :
  Forall ready fs -> Forall2 (fun x v => read_filter find rec x = Ok v) (cid <$> fs) fs.
Proof.
  induction 1 as [|f fs Hf _ IH]; constructor; [by apply read_filter_ready|done].
Qed.

Lemma read_compose_staged id fs :
  has_ids id (cid <$> fs) st -> length fs <= 10 -> Forall ready fs ->
  read_compose find rec id = Ok (Op.Compose fs).
Proof.
  intros (l & Ht & _ & _ & _ & Ho) Hl Hr. unfold read_compose.
  rewrite (read_persisted_staged _ _ Hfind _ _ Ht). simpl.
  rewrite (collect_index l "compose" (read_filter find rec)).
  rewrite (collect_oids l _ (cid <$> fs) fs); [done| |by apply filters_ready].
  apply Ho. by rewrite length_fmap.
Qed.

Lemma read_chain_staged id fs :
  has_ids id (cid <$> fs) st -> fs ≠ [] -> Forall ready fs ->
  read_chain find rec id = Ok (Op.Chain fs).
Proof.
  intros (l & Ht & Hlen & Hn & _) Hne Hr. unfold read_chain.
  rewrite (read_persisted_staged _ _ Hfind _ _ Ht). simpl. rewrite decide_False.
  - rewrite (collect_named l "chain" (read_filter find rec) (cid <$> fs) fs); try done.
    by apply filters_ready.
  - intros ->. rewrite length_fmap in Hlen. by destruct fs.
Qed.

Lemma read_one_filter_staged id f what op :
  has_ids id (cid <$> [f]) st -> ready f -> read_one_filter find rec id what op = Ok (op f).
Proof.
  intros (l & Ht & Hlen & Hn & _) Hr. unfold read_one_filter.
  rewrite (read_persisted_staged _ _ Hfind _ _ Ht). simpl. rewrite decide_True by done.
  destruct (Hn 0 (cid f) eq_refl) as (e & He & Ho). unfold need_name.
  change (index_name 0) with "0" in He. rewrite He. simpl. by rewrite Ho, read_filter_ready.
Qed.

Lemma read_subtract_staged id f g :
  has_ids id (cid <$> [f; g]) st -> ready f -> ready g ->
  read_subtract find rec id = Ok (Op.Subtract f g).
Proof.
  intros (l & Ht & Hlen & Hn & _) Hf Hg. unfold read_subtract.
  rewrite (read_persisted_staged _ _ Hfind _ _ Ht). simpl. rewrite decide_True by done.
  destruct (Hn 0 (cid f) eq_refl) as (e & He & Ho).
  destruct (Hn 1 (cid g) eq_refl) as (e' & He' & Ho').
  change (index_name 0) with "0" in He. change (index_name 1) with "1" in He'.
  unfold need_name. rewrite He. simpl. rewrite Ho.
  destruct (read_persisted_ready f Hf) as [lf ->]. simpl. rewrite He'. simpl. rewrite Ho'.
  destruct (read_persisted_ready g Hg) as [lg ->]. simpl.
  rewrite (proj1 Hf). simpl. by rewrite (proj1 Hg).
Qed.

(** * Reading keyed filters *)

Lemma read_keyed_staged {A} id key f what (parse : string -> res A) k :
  has_key id key f st -> text_ok key -> parse key = Ok k -> ready f ->
  read_keyed find rec id what parse = Ok (k, f).
Proof.
  intros (b & Ht & Hb) Hk Hp Hf. unfold read_keyed.
  rewrite (read_persisted_staged _ _ Hfind _ _ Ht). simpl. unfold named_blob, need_name. simpl.
  rewrite (read_blob_staged _ _ Hfind _ _ Hb). simpl.
  destruct (read_persisted_ready f Hf) as [l ->]. simpl. rewrite from_utf8_ok by done. simpl.
  rewrite Hp. simpl. by rewrite (proj1 Hf).
Qed.

Lemma read_ref_filter_staged id r f what :
  has_key id (LazyRef.to_string r) f st -> ref_ok r -> ready f ->
  read_ref_filter find rec id what = Ok (r, f).
Proof.
  intros (b & Ht & Hb) Hr Hf. unfold read_ref_filter.
  rewrite (read_persisted_staged _ _ Hfind _ _ Ht). simpl. unfold named_blob, need_name. simpl.
  rewrite (read_blob_staged _ _ Hfind _ _ Hb). simpl.
  destruct (read_persisted_ready f Hf) as [l ->]. simpl. rewrite from_utf8_ok by apply Hr. simpl.
  rewrite (proj1 Hf). simpl. by rewrite parse_ref_ok.
Qed.

End Children.

(** * Operators with keyed filters, replacements and metadata *)


Lemma refs_insert_all (m l : list (LazyRef.t * filter)) :
  ord_sorted LazyRef.cmp m -> Permutation l m ->
  foldl (fun m x => ref_insert x.1 x.2 m) [] l = m.
Proof.
  intros Hm Hp. apply (ord_insert_all LazyRef.cmp); auto using ref_cmp_eq, ref_cmp_refl.
  - apply ref_cmp_gt.
  - apply ref_cmp_trans.
  - apply (ord_sorted_nodup LazyRef.cmp); [apply ref_cmp_refl|done].
Qed.

Section Carried_ops.
Context `{ObjectHash} `{Readers}.
Context (P : list (filter * oid)) (id_of : filter -> res oid) (cid : filter -> oid).

(** The entry of an operator reads as the operator once its sub-filters can be
    read. *)
Definition carried (op : Op.t) (e : entry) (st : store) : Prop :=
  forall find rec, found_in find st -> Forall (ready cid find rec) (children op) ->
    read_entry find rec e = Ok op.

Lemma found_in_sub find st st' : st ⊆ st' -> found_in find st' -> found_in find st.
Proof. intros Hs Hf id x Hx. apply Hf. by eapply lookup_weaken. Qed.

Lemma carried_grows op e : grows (carried op e).
Proof. intros st st' Hs Hc find rec Hf. apply Hc. by eapply found_in_sub. Qed.

(** An operator whose entry is a tree. *)
Lemma tree_op_triple name m op (Q : oid -> store -> Prop) :
  triple P (fun _ => True) m Q ->
  (forall id st, Q id st -> carried op (tree_entry name id) st) ->
  triple P (fun _ => True) (tree_op name m) (carried op).
Proof.
  intros Hm Hc. eapply triple_bind; [exact Hm|]. intros id.
  eapply triple_conseq; [apply triple_ret|exact (Hc id)|done].
Qed.

Lemma str_op_triple name params op :
  (forall id st, has_texts id params st -> carried op (tree_entry name id) st) ->
  triple P (fun _ => True) (str_op name params) (carried op).
Proof. intros Hc. eapply (tree_op_triple name); [apply build_str_params_triple|done]. Qed.

Lemma filters_op_triple name params op :
  Forall (answers P id_of cid) params ->
  (forall id st, has_ids id (cid <$> params) st -> carried op (tree_entry name id) st) ->
  triple P (fun _ => True) (filters_op id_of name params) (carried op).
Proof.
  intros Ha Hc. eapply (tree_op_triple name); [by apply build_filter_params_triple|done].
Qed.

Lemma blob_op_triple name content op :
  (forall id st, has_blob id content st -> carried op (blob_entry name id) st) ->
  triple P (fun _ => True) (blob_op name content) (carried op).
Proof.
  intros Hc. eapply triple_bind; [apply stage_blob_triple|]. intros id.
  eapply triple_conseq; [apply triple_ret|exact (Hc id)|done].
Qed.

(** ** Keyed filters *)

Definition has_keys {A} (key : A -> string) (id : oid) (l : list (A * filter)) (st : store) : Prop :=
  exists ids, has_ids id ids st /\
    Forall2 (fun x a => has_key cid a (key x.1) x.2 st) l ids.

Lemma build_keys_triple {A} (key : A -> string) (l : list (A * filter)) :
  Forall (answers P id_of cid) (snd <$> l) ->
  triple P (fun _ => True)
    (inner ← mapM (fun x => build_keyed id_of (key x.1) x.2) l;
     stage_tree (imap (fun i id => tree_entry (index_name i) id) inner))
    (fun id => has_keys key id l).
Proof.
  intros Ha. apply (stage_each P _ (fun x a => has_key cid a (key x.1) x.2)).
  - intros x a. apply has_key_grows.
  - intros x Hx. apply build_keyed_triple. rewrite Forall_fmap, Forall_forall in Ha. by apply Ha.
Qed.

Lemma has_keys_read {A} (key : A -> string) (id : oid) (l : list (A * filter)) (st : store)
    (g : oid -> res (A * filter)) :
  has_keys key id l st ->
  (forall x a, x ∈ l -> has_key cid a (key x.1) x.2 st -> g a = Ok x) ->
  exists ids, has_ids id ids st /\ Forall2 (fun a v => g a = Ok v) ids l.
Proof.
  intros (ids & Hi & Hk) Hg. exists ids. split; [done|]. clear Hi.
  induction Hk as [|x a l ids Hx Hk IH]; constructor; [apply Hg; [left|done]|].
  apply IH. intros y b Hy. apply Hg. by right.
Qed.

Lemma rev_carried l id st :
  Forall (fun x => rev_ok x.1.1 x.1.2) l ->
  has_keys (fun k => rev_key k.1 k.2) id l st -> carried (Op.Rev l) (tree_entry "rev" id) st.
Proof.
  intros Hl Hk find rec Hf Hr. cbn [children] in Hr. rewrite Forall_fmap in Hr.
  rewrite Forall_forall in Hl, Hr.
  destruct (has_keys_read _ _ _ _
    (fun a => read_keyed find rec a "rev" parse_rev_key) Hk) as (ids & (t & Ht & Hlen & Hn & _) & Hv).
  { intros [[m r] f] a Hx Ha. specialize (Hl _ Hx). simpl in *.
    eapply (read_keyed_staged cid find rec st Hf); [exact Ha| |by apply parse_rev_key_ok|by apply (Hr _ Hx)].
    destruct m; [apply Hl..|done]. }
  change (read_rev find rec id = Ok (Op.Rev l)). unfold read_rev.
  rewrite (read_persisted_staged _ _ Hf _ _ Ht). simpl.
  by rewrite (collect_named t "rev" (fun a => read_keyed find rec a "rev" parse_rev_key) ids l).
Qed.

Lemma squash_carried l id st :
  Forall (fun x => ref_ok x.1) l -> ord_sorted LazyRef.cmp l ->
  has_keys LazyRef.to_string id l st ->
  carried (Op.Squash (Some l)) (tree_entry "squash" id) st.
Proof.
  intros Hl Ho Hk find rec Hf Hr. cbn [children] in Hr. rewrite Forall_fmap in Hr.
  rewrite Forall_forall in Hl, Hr.
  destruct (has_keys_read _ _ _ _
    (fun a => read_ref_filter find rec a "squash") Hk) as (ids & (t & Ht & _ & _ & Hp & _) & Hv).
  { intros [r f] a Hx Ha. eapply (read_ref_filter_staged cid find rec st Hf);
      [exact Ha|by apply (Hl _ Hx)|by apply (Hr _ Hx)]. }
  change (read_squash find rec (tree_entry "squash" id) = Ok (Op.Squash (Some l))).
  unfold read_squash. simpl. rewrite (read_persisted_staged _ _ Hf _ _ Ht). simpl.
  destruct (collect_permuted t (fun a => read_ref_filter find rec a "squash") ids l Hp Hv)
    as (vs & Hvs & ->). simpl. by rewrite (refs_insert_all l vs).
Qed.

Definition has_keyed_in (id : oid) (r : LazyRef.t) (f : filter) (st : store) : Prop :=
  exists a, has_tree id [tree_entry "0" a] st /\ has_key cid a (LazyRef.to_string r) f st.

Lemma unapply_triple r f :
  answers P id_of cid f ->
  triple P (fun _ => True) (build_lazyref_filter_params id_of r f)
    (fun id => has_keyed_in id r f).
Proof.
  intros Ha. eapply triple_bind; [by apply build_keyed_triple|]. intros a.
  eapply triple_conseq; [apply stage_tree_frame; [by repeat constructor|apply has_key_grows]| |].
  - intros st Hs. exact Hs.
  - intros id st [Ht Hk]. by exists a.
Qed.

Lemma unapply_carried r f id st :
  ref_ok r -> has_keyed_in id r f st -> carried (Op.Unapply r f) (tree_entry "unapply" id) st.
Proof.
  intros Hr (a & Ht & Hk) find rec Hf Hc. cbn [children] in Hc.
  apply Forall_cons in Hc as [Hc _].
  change (read_unapply find rec id = Ok (Op.Unapply r f)). unfold read_unapply.
  rewrite (read_persisted_staged _ _ Hf _ _ Ht). simpl.
  by rewrite (read_ref_filter_staged cid find rec st Hf a r f).
Qed.

(** ** Replacements *)

Definition has_replacement (x : regex * string) (id : oid) (st : store) : Prop :=
  exists p r, has_tree id [blob_entry "p" p; blob_entry "r" r] st /\
    has_blob p x.1 st /\ has_blob r x.2 st.

Lemma has_replacement_grows x id : grows (has_replacement x id).
Proof.
  intros st st' Hs (p & r & Ht & Hp & Hr). exists p, r. split; [by eapply has_tree_grows|].
  by split; eapply has_blob_grows.
Qed.

Definition has_replacements (l : list (regex * string)) (id : oid) (st : store) : Prop :=
  exists ids, has_ids id ids st /\ Forall2 (fun x a => has_replacement x a st) l ids.

Lemma replacements_triple l :
  triple P (fun _ => True) (build_regex_replace_params l) (has_replacements l).
Proof.
  apply (stage_each P _ has_replacement); [apply has_replacement_grows|].
  intros x _. eapply triple_bind; [apply stage_blob_triple|]. intros p.
  eapply triple_bind.
  { eapply (triple_conseq _ (fun st => True /\ has_blob p x.1 st));
      [|done|intros ? ? Hq; exact Hq].
    apply triple_frame; [apply has_blob_grows|]. apply stage_blob_triple. }
  intros r. eapply triple_conseq; [apply (stage_tree_frame P [blob_entry "p" p; blob_entry "r" r]
    (fun st => has_blob r x.2 st /\ has_blob p x.1 st)); [by repeat constructor|] | |].
  - intros st st' Hs [? ?]. by split; eapply has_blob_grows.
  - intros st Hs. exact Hs.
  - intros id st (Ht & Hr & Hp). by exists p, r.
Qed.

Lemma replacements_carried l id st :
  Forall replacement_ok l -> length l <= 10 -> has_replacements l id st ->
  carried (Op.RegexReplace l) (tree_entry "regex_replace" id) st.
Proof.
  intros Hl Hlen (ids & (t & Ht & _ & _ & _ & Ho) & Hk) find rec Hf _.
  apply Forall2_length in Hk as Hk'.
  change (read_regex_replace find id = Ok (Op.RegexReplace l)). unfold read_regex_replace.
  rewrite (read_persisted_staged _ _ Hf _ _ Ht). simpl.
  rewrite (collect_oids t (fun i => inner ← read_persisted find i;
    regex_blob ← named_blob find inner "p" "regex_replace";
    replacement_blob ← named_blob find inner "r" "regex_replace";
    re ← from_utf8 regex_blob; replacement ← from_utf8 replacement_blob;
    if regex_new re then Ok (re, replacement) else Err "invalid regex") ids l); [done|apply Ho; lia|].
  clear - Hl Hk Hf. induction Hk as [|[re s] a l ids (p & r & Ht & Hp & Hr) _ IH]; constructor.
  - apply Forall_cons in Hl as [(Hre & Hs & Hn) _]. simpl in *.
    rewrite (read_persisted_staged _ _ Hf _ _ Ht). simpl. unfold named_blob, need_name. simpl.
    rewrite (read_blob_staged _ _ Hf _ _ Hp). simpl. rewrite (read_blob_staged _ _ Hf _ _ Hr). simpl.
    rewrite (from_utf8_ok re) by done. simpl. rewrite (from_utf8_ok s) by done. simpl.
    by rewrite Hn.
  - apply IH. by apply Forall_cons in Hl as [_ ?].
Qed.

(** ** Metadata *)

Definition has_value (st : store) (x : string * string) (e : entry) : Prop :=
  filename e = x.1 /\ has_blob (entry_oid e) x.2 st.

Definition has_meta (m : list (string * string)) (f : filter) (id : oid) (st : store) : Prop :=
  exists vs, has_tree id (sort_by_name (vs ++ [tree_entry "0" (cid f)])) st /\
    Forall2 (has_value st) m vs.

Lemma has_values_grows m vs : grows (fun st => Forall2 (has_value st) m vs).
Proof.
  intros st st' Hs Hv. eapply Forall2_impl; [exact Hv|]. intros x e [Hn Hb].
  split; [done|by eapply has_blob_grows].
Qed.

Lemma meta_names st m vs : Forall2 (has_value st) m vs -> filename <$> vs = m.*1.
Proof. induction 1 as [|x e m vs [Hn _] _ IH]; [done|]. by rewrite !fmap_cons, Hn, IH. Qed.

Lemma meta_triple m f :
  Forall meta_key_ok m -> answers P id_of cid f ->
  triple P (fun _ => True) (build_meta id_of m f) (has_meta m f).
Proof.
  intros Hm Ha. eapply triple_bind.
  { apply (triple_mapM P _ (fun x e st => has_value st x e)).
    - intros x e st st' Hs [Hn Hb]. split; [done|by eapply has_blob_grows].
    - intros x _. eapply triple_bind; [apply stage_blob_triple|]. intros id.
      eapply triple_conseq; [apply (triple_ret P _ (fun e st => has_value st x e))|intros st Hs; by split|done]. }
  intros vs b Hb HP Hv. pose proof (meta_names _ _ _ Hv) as Hnames.
  destruct (stage_tree_frame P (vs ++ [tree_entry "0" (cid f)])
    (fun st => Forall2 (has_value st) m vs)) with (b := b) as (id & b' & E & Hb' & HP' & Hs & Ht & Hv').
  - apply Forall_app. split; [|by repeat constructor].
    rewrite Forall_forall. intros e He. assert (filename e ∈ filename <$> vs) as Hn.
    { apply list_elem_of_fmap. by exists e. }
    rewrite Hnames in Hn. apply list_elem_of_fmap in Hn as (x & -> & Hx).
    rewrite Forall_forall in Hm. by apply (Hm _ Hx).
  - apply has_values_grows.
  - done.
  - done.
  - done.
  - exists id, b'. unfold mbind, M_bind. rewrite Ha by done. do 4 (split; [done|]). by exists vs.
Qed.

(** The entries of a metadata tree: bindings, and the filter under ["0"]. *)
Definition binds (st : store) (e : entry) (o : option (string * string)) : Prop :=
  match o with
  | None => filename e = "0"
  | Some x => meta_key_ok x /\ has_value st x e
  end.

Lemma read_bindings find st t os acc :
  found_in find st -> Forall2 (binds st) t os ->
  foldr (fun e (k : list (string * string) -> res (list (string * string))) m =>
    name ← from_utf8 (filename e);
    if decide (name = "0") then k m
    else
      value_blob ← read_blob find (entry_oid e);
      value ← from_utf8 value_blob;
      k (btree_insert name value m)) Ok t acc =
  Ok (foldl (fun m x => btree_insert x.1 x.2 m) acc (omap id os)).
Proof.
  intros Hf Hb. revert acc. induction Hb as [|e o t os He _ IH]; intros acc; [done|].
  cbn [foldr]. destruct o as [[k v]|]; simpl in He.
  - destruct He as [(Hk & Hv & Hne & _) [Hn Hbl]]. simpl in *. rewrite Hn.
    rewrite from_utf8_ok by done. simpl. rewrite decide_False by done.
    rewrite (read_blob_staged _ _ Hf _ _ Hbl). simpl. rewrite from_utf8_ok by done. simpl. apply IH.
  - rewrite He. simpl. apply IH.
Qed.

Lemma omap_Some_id (m : list (string * string)) : omap id (Some <$> m) = m.
Proof. induction m as [|x m IH]; [done|]. simpl. f_equal. exact IH. Qed.

Lemma meta_carried m f id st :
  Forall meta_key_ok m -> ord_sorted String.compare m -> has_meta m f id st ->
  carried (Op.Meta m f) (tree_entry "meta" id) st.
Proof.
  intros Hm Ho (vs & Ht & Hv) find rec Hf Hc. cbn [children] in Hc. apply Forall_cons in Hc as [Hc _].
  assert (Forall2 (binds st) (vs ++ [tree_entry "0" (cid f)]) ((Some <$> m) ++ [None])) as Hb.
  { apply Forall2_app; [|by repeat constructor]. clear - Hv Hm.
    induction Hv as [|x e m vs Hx _ IH]; constructor; [|apply IH; by apply Forall_cons in Hm as [_ ?]].
    split; [by apply Forall_cons in Hm as [? _]|done]. }
  destruct (Permutation_Forall2 (symmetry (sort_by_name_perm _)) Hb) as (os & Hp & Hb').
  change (read_meta find rec id = Ok (Op.Meta m f)). unfold read_meta.
  rewrite (read_persisted_staged _ _ Hf _ _ Ht). simpl. unfold need_name.
  assert (find_entry "0" (sort_by_name (vs ++ [tree_entry "0" (cid f)])) = Some (tree_entry "0" (cid f)))
    as ->.
  { apply (find_entry_sort _ (tree_entry "0" (cid f))); [|set_solver].
    rewrite fmap_app, (meta_names _ _ _ Hv). apply NoDup_app. split; [|split; [|apply NoDup_singleton]].
    - apply (ord_sorted_nodup String.compare); [apply string_compare_refl|done].
    - intros k (x & -> & Hx)%list_elem_of_fmap. rewrite Forall_forall in Hm.
      simpl. rewrite list_elem_of_singleton. apply (Hm _ Hx). }
  simpl. destruct (read_persisted_ready _ _ _ _ Hc) as [l ->]. simpl.
  rewrite (read_bindings _ _ _ _ _ Hf Hb'). simpl. rewrite (proj1 Hc). simpl.
  rewrite (texts_insert_all m); [done|done|]. rewrite <- Hp, omap_app, omap_Some_id. simpl.
  by rewrite app_nil_r.
Qed.

(** ** Inserted content *)

Lemma insert_oid_triple kind_of p x :
  kind_of x = Some Blob \/ kind_of x = Some Tree ->
  triple P (fun _ => True) (build_insert (Some kind_of) p (InsertContent.Oid x))
    (fun id st => exists k m, has_tree id [blob_entry "0" k; Entry m "o" x] st /\
       has_blob k (to_string p) st).
Proof.
  intros [Hk|Hk]; cbn [build_insert]; rewrite Hk;
    (eapply triple_bind; [apply stage_blob_triple|]; intros k;
     eapply triple_conseq; [apply stage_tree_frame; [by repeat constructor|apply has_blob_grows]| |];
     [intros st Hs; exact Hs|intros id st [Ht Hb]; eexists k, _; split; [exact Ht|done]]).
Qed.

(** ** Every operator *)

Lemma unit_triple name op :
  (forall find rec id, read_entry find rec (blob_entry name id) = read_unit find id op) ->
  triple P (fun _ => True) (blob_op name EmptyString) (carried op).
Proof.
  intros He. apply blob_op_triple. intros id st Hb find rec Hf _. rewrite He. unfold read_unit.
  by rewrite (read_blob_staged _ _ Hf _ _ Hb).
Qed.

Lemma path_triple name op p :
  (forall find rec id, read_entry find rec (tree_entry name id) = read_path_op find id name op) ->
  path_ok p -> triple P (fun _ => True) (str_op name [to_string p]) (carried (op p)).
Proof.
  intros He Hp. apply str_op_triple. intros id st Ht find rec Hf _. rewrite He.
  by apply (read_path_op_staged _ _ Hf).
Qed.

Lemma one_filter_triple name op f :
  (forall find rec id, read_entry find rec (tree_entry name id) = read_one_filter find rec id name op) ->
  children (op f) = [f] -> answers P id_of cid f ->
  triple P (fun _ => True) (filters_op id_of name [f]) (carried (op f)).
Proof.
  intros He Hc Ha. apply filters_op_triple; [by constructor|].
  intros id st Hi find rec Hf Hr. rewrite Hc in Hr. apply Forall_cons in Hr as [Hr _]. rewrite He.
  by apply (read_one_filter_staged cid find rec st Hf).
Qed.

Lemma text_triple name op s :
  (forall find rec id, read_entry find rec (tree_entry name id) =
     (t ← read_text find id name; Ok (op t))) ->
  text_ok s -> triple P (fun _ => True) (str_op name [s]) (carried (op s)).
Proof.
  intros He Hs. apply str_op_triple. intros id st Ht find rec Hf _. rewrite He.
  by rewrite (read_text_staged _ _ Hf _ _ _ Ht Hs).
Qed.

Lemma texts_triple name (op : string -> string -> res Op.t) s t o :
  (forall find rec id, read_entry find rec (tree_entry name id) =
     ('(s, t) ← read_texts find id name; op s t)) ->
  text_ok s -> text_ok t -> op s t = Ok o ->
  triple P (fun _ => True) (str_op name [s; t]) (carried o).
Proof.
  intros He Hs Ht Ho. apply str_op_triple. intros id st Hi find rec Hf _. rewrite He.
  by rewrite (read_texts_staged _ _ Hf _ _ _ _ Hi Hs Ht).
Qed.

Lemma insert_triple kind_of p c :
  op_ok kind_of (Op.Insert p c) ->
  triple P (fun _ => True) (tree_op "insert" (build_insert (Some kind_of) p c))
    (carried (Op.Insert p c)).
Proof.
  destruct c as [s|x]; intros [Hp Hx].
  - eapply tree_op_triple; [apply build_str_params_triple|].
    intros id st Ht find rec Hf _. by apply (read_insert_inline find st Hf).
  - eapply tree_op_triple; [by apply insert_oid_triple|].
    intros id st (k & m & Ht & Hk) find rec Hf _. by apply (read_insert_oid find st Hf id p k x m).
Qed.

(** The entry the builder stages for an operator is read as that operator. *)
Lemma op_entry_carried kind_of op :
  op_ok kind_of op -> Forall (answers P id_of cid) (children op) ->
  triple P (fun _ => True) (op_entry id_of (Some kind_of) op) (carried op).
Proof.
  intros Hok Ha. destruct op; cbn [op_ok] in Hok; cbn [op_entry];
    try done;
    try (apply unit_triple; intros; reflexivity);
    try (apply path_triple; [intros; reflexivity|exact Hok]);
    try (apply text_triple; [intros; reflexivity|exact Hok]);
    try (apply one_filter_triple; [intros; reflexivity|done|by apply Forall_cons in Ha as [? _]]);
    try by apply insert_triple.
  - apply Forall_cons in Ha as [Ha _]. destruct Hok as [Hm Ho].
    eapply tree_op_triple; [by apply meta_triple|]. intros id st. by apply meta_carried.
  - apply str_op_triple. intros id st Ht find rec Hf _. by apply (read_link_staged find st Hf).
  - destruct ids as [l|]; [|apply unit_triple; intros; reflexivity]. destruct Hok as [Hl Ho].
    eapply tree_op_triple; [by apply (build_keys_triple LazyRef.to_string)|].
    intros id st. by apply squash_carried.
  - destruct Hok. by apply (texts_triple "author" (fun n m => Ok (Op.Author n m))).
  - destruct Hok. by apply (texts_triple "committer" (fun n m => Ok (Op.Committer n m))).
  - eapply tree_op_triple; [by apply (build_keys_triple (fun k => rev_key k.1 k.2))|].
    intros id st. by apply rev_carried.
  - apply blob_op_triple. intros id st Hb find rec Hf _.
    change (read_prune find id = Ok Op.Prune). unfold read_prune.
    by rewrite (read_blob_staged _ _ Hf _ _ Hb).
  - destruct Hok. eapply tree_op_triple; [apply replacements_triple|].
    intros id st. by apply replacements_carried.
  - destruct Hok as [[Hd Hdt] [Hs Hst]].
    apply (texts_triple "file" (fun d s => Ok (Op.File (components d) (components s)))); try done.
    by rewrite !components_to_string.
  - destruct Hok. apply str_op_triple. intros id st Ht find rec Hf _.
    by apply (read_pattern_staged find st Hf).
  - destruct Hok as (Hf & Hr & Hn). apply (texts_triple "message" (fun fmt re =>
      if regex_new re then Ok (Op.Message fmt re) else Err "invalid regex")); try done. by rewrite Hn.
  - apply Forall_cons in Ha as [Ha _]. eapply tree_op_triple; [by apply unapply_triple|].
    intros id st. by apply unapply_carried.
  - apply filters_op_triple; [done|]. intros id st Hi find rec Hf Hr.
    by apply (read_compose_staged cid find rec st Hf).
  - apply filters_op_triple; [done|]. intros id st Hi find rec Hf Hr.
    by apply (read_chain_staged cid find rec st Hf).
  - apply filters_op_triple; [done|]. intros id st Hi find rec Hf Hr.
    apply Forall_cons in Hr as [Hr1 [Hr2 _]%Forall_cons].
    by apply (read_subtract_staged cid find rec st Hf).
  - apply str_op_triple. intros id st Ht find rec Hf _.
    transitivity (s ← read_text find id "downstack"; r ← parse_ref s; Ok (Op.Downstack r)); [done|].
    rewrite (read_text_staged _ _ Hf _ _ _ Ht) by apply Hok. simpl. by rewrite parse_ref_ok.
Qed.

(** The tree of an operator. *)
Definition encoded (op : Op.t) (id : oid) (st : store) : Prop :=
  exists e, has_tree id [e] st /\ carried op e st.

Lemma encoded_grows op id : grows (encoded op id).
Proof.
  intros st st' Hs (e & Ht & Hc). exists e.
  split; [by eapply has_tree_grows|by eapply carried_grows].
Qed.

End Carried_ops.
