(* ===== verification/TreeOps.v ===== *)
(** The tree operations of josh-core/src/filter/tree.rs over the object database
    of a transaction, with their memo tables. Every recursion follows the tree
    objects downwards; [n] bounds its depth. *)

From S2P Require Import Prelude Path Ops Objects Store Utf8.

Open Scope nat_scope.

(** * Rebuilding a tree *)

Module TreeRebuild.

Record t := Rebuild { out : list entry; changed : bool }.

Definition new : t := Rebuild [] false.
Definition mark_changed (r : t) : t := Rebuild (out r) true.
Definition keep (r : t) (e : entry) : t := Rebuild (out r ++ [e]) (changed r).

Section Finish.
Context `{ObjectHash}.

Definition finish (r : t) (input : oid) : M tx oid :=
  if changed r then write_tree_now (out r) else mret input.

End Finish.

End TreeRebuild.

Section TreeOps.
Context `{ObjectHash} `{BisectEntry}.

(** A tree the operation requires. *)
Definition require_tree (what : string) (id : oid) : txm (list entry) :=
  bytes ← read_tree_bytes id;
  match bytes with
  | Some l => mret l
  | None => fail (what +:+ " is not a tree")
  end.

(** * Subtraction *)

(** The loop over the entries of the second tree: what happens to the names of
    the first.  [None] removes an entry, [Some] replaces its object. *)
Definition subtract_mods (rec : oid -> oid -> txm oid) (tree1 tree2 : list entry) :
    txm (gmap string (option oid)) :=
  let sorted1 := entries_canonically_sorted tree1 in
  foldM (fun mods e =>
    match lookup_entry tree1 (filename e) sorted1 with
    | Some e1 =>
        sub ← rec (entry_oid e1) (entry_oid e);
        if decide (sub = empty_id \/ sub = zero_oid)
        then mret (<[filename e := None]> mods)
        else mret (<[filename e := Some sub]> mods)
    | None => mret mods
    end) ∅ tree2.

Definition subtract_apply (mods : gmap string (option oid)) (tree1 : list entry) : list entry :=
  let out := base.filter (fun e => mods !! filename e ≠ Some None) tree1 in
  (fun e => match mods !! filename e with
            | Some (Some sub) => Entry (mode e) (filename e) sub
            | _ => e
            end) <$> out.

(** [subtract]. *)
Fixpoint subtract (n : nat) (input1 input2 : oid) : txm oid :=
  match n with
  | 0 => lift OutOfFuel
  | S n =>
      if decide (input1 = input2) then mret empty_id
      else if decide (input1 = empty_id) then mret empty_id
      else
        cached ← gets (fun t => subtract_map t !! (input1, input2));
        match cached with
        | Some r => mret r
        | None =>
            bytes1 ← read_tree_bytes input1;
            bytes2 ← read_tree_bytes input2;
            match bytes1, bytes2 with
            | Some tree1, Some tree2 =>
                if decide (input2 = empty_id) then mret input1
                else
                  mods ← subtract_mods (subtract n) tree1 tree2;
                  result ← write_tree_now (subtract_apply mods tree1);
                  modify (insert_subtract (input1, input2) result) ≫= fun _ => mret result
            | _, _ =>
                modify (insert_subtract (input1, input2) empty_id) ≫= fun _ => mret empty_id
            end
        end
  end.

(** * Intersection *)

Definition intersect_entries (rec : oid -> oid -> txm oid) (tree1 tree2 : list entry) :
    txm (list entry) :=
  let sorted1 := entries_canonically_sorted tree1 in
  foldM (fun out e =>
    match lookup_entry tree1 (filename e) sorted1 with
    | Some e1 =>
        child ← rec (entry_oid e1) (entry_oid e);
        if decide (child ≠ empty_id /\ child ≠ zero_oid)
        then mret (insert_in_order out (Entry (mode e1) (filename e) child))
        else mret out
    | None => mret out
    end) [] tree2.

(** [intersect]. *)
Fixpoint intersect (n : nat) (input1 input2 : oid) : txm oid :=
  match n with
  | 0 => lift OutOfFuel
  | S n =>
      if decide (input1 = input2) then mret input1
      else if decide (input1 = empty_id \/ input2 = empty_id) then mret empty_id
      else
        cached ← gets (fun t => intersect_map t !! (input1, input2));
        match cached with
        | Some r => mret r
        | None =>
            bytes1 ← read_tree_bytes input1;
            bytes2 ← read_tree_bytes input2;
            result ←
              match bytes1, bytes2 with
              | Some tree1, Some tree2 =>
                  out ← intersect_entries (intersect n) tree1 tree2;
                  write_tree_now out
              | _, _ => mret input1
              end;
            modify (insert_intersect (input1, input2) result) ≫= fun _ => mret result
        end
  end.

(** * Overlay *)

Definition overlay_mods (rec : oid -> oid -> txm oid) (tree1 tree2 : list entry) :
    txm (gmap string oid * list entry) :=
  let sorted1 := entries_canonically_sorted tree1 in
  foldM (fun '(mods, new_entries) e =>
    match lookup_entry tree1 (filename e) sorted1 with
    | Some e1 =>
        id ← rec (entry_oid e1) (entry_oid e);
        mret (<[filename e := id]> mods, new_entries)
    | None => mret (mods, new_entries ++ [e])
    end) (∅, []) tree2.

Definition overlay_apply (mods : gmap string oid) (new_entries tree1 : list entry) : list entry :=
  let out := (fun e => match mods !! filename e with
                       | Some id => Entry (mode e) (filename e) id
                       | None => e
                       end) <$> tree1 in
  foldl insert_in_order out new_entries.

(** [overlay]. *)
Fixpoint overlay (n : nat) (input1 input2 : oid) : txm oid :=
  match n with
  | 0 => lift OutOfFuel
  | S n =>
      cached ← gets (fun t => overlay_map t !! (input1, input2));
      match cached with
      | Some r => mret r
      | None =>
          if decide (input1 = input2) then mret input1
          else if decide (input1 = empty_id) then mret input2
          else if decide (input2 = empty_id) then mret input1
          else
            bytes1 ← read_tree_bytes input1;
            bytes2 ← read_tree_bytes input2;
            match bytes1, bytes2 with
            | Some tree1, Some tree2 =>
                mn ← overlay_mods (overlay n) tree1 tree2;
                let '(mods, new_entries) := (mn : gmap string oid * list entry) in
                rid ← write_tree_now (overlay_apply mods new_entries tree1);
                modify (insert_overlay (input1, input2) rid) ≫= fun _ => mret rid
            | _, _ => mret input1
            end
      end
  end.

End TreeOps.
