(* ===== verification/TreePaths.v ===== *)
(** Access to a tree by path (josh-core/src/filter/tree.rs): looking up the entry
    at a path, replacing what is at a path, the text of blobs, and the paths in
    which two trees differ. *)

From S2P Require Import Prelude Path Ops Objects Store Utf8 TreeOps.

Open Scope nat_scope.

(** [gix_object::tree::EntryMode::try_from(u32)], on the modes the code inserts. *)
Class EntryModes := {
  mode_try_from : Z -> option entry_mode;
  mode_try_from_tree : mode_try_from 16384 = Some tree_mode;
  mode_try_from_blob : mode_try_from 33188 = Some blob_mode;
  mode_try_from_commit : mode_try_from 57344 = Some commit_mode;
}.

(** The literals [0o0040000], [0o0100644] and [0o0160000]. *)
Definition tree_bits : Z := 16384.
Definition blob_bits : Z := 33188.
Definition commit_bits : Z := 57344.

(** [path_components]. *)
Fixpoint path_components_loop (acc : list string) (p : path) : option (list string) :=
  match p with
  | [] => Some acc
  | Normal name :: p => path_components_loop (acc ++ [name]) p
  | CurDir :: p => path_components_loop acc p
  | _ :: _ => None
  end.

Definition path_components (p : path) : option (list string) :=
  match path_components_loop [] p with
  | Some [] => None
  | r => r
  end.

Section TreePaths.
Context `{ObjectHash} `{BisectEntry} `{EntryModes}.

(** * Lookup *)

(** [read_tree]. *)
Definition read_tree (id : oid) : txm (list entry) :=
  bytes ← read_tree_bytes id;
  match bytes with
  | Some l => mret l
  | None => fail (id +:+ " is not a tree")
  end.

(** The loop of [get_path_entry_at]; [TreeReader::entry] finds the first entry with a
    name. *)
Fixpoint descend_entry (e : entry) (names : list string) : txm (option entry) :=
  match names with
  | [] => mret (Some e)
  | name :: names =>
      if negb (is_tree (mode e)) then mret None
      else
        bytes ← read_tree_bytes (entry_oid e);
        match bytes with
        | None => mret None
        | Some l =>
            match find_entry name l with
            | Some e => descend_entry e names
            | None => mret None
            end
        end
  end.

(** [get_path_entry_at]. *)
Definition get_path_entry_at (root : list entry) (p : path) : txm (option entry) :=
  match path_components p with
  | None | Some [] => mret None
  | Some (name :: names) =>
      match find_entry name root with
      | Some e => descend_entry e names
      | None => mret None
      end
  end.

(** [get_path_entry]. *)
Definition get_path_entry (root : oid) (p : path) : txm (option entry) :=
  bytes ← read_tree_bytes root;
  match bytes with
  | Some l => get_path_entry_at l p
  | None => mret None
  end.

(** * Replacement *)

(** [tree_bytes]: [None] for a missing object and for one that is no tree. *)
Definition tree_bytes (id : oid) : txm (option (list entry)) :=
  gets (fun t => match try_find (tx_odb t) id with Some (OTree l) => Some l | _ => None end).

(** [Iterator::position] of a name. *)
Fixpoint position (name : string) (l : list entry) : option nat :=
  match l with
  | [] => None
  | e :: l => if decide (filename e = name) then Some 0 else S <$> position name l
  end.

(** [Vec::insert]; the position is within the vector. *)
Definition insert_at {A} (pos : nat) (x : A) (l : list A) : list A :=
  take pos l ++ x :: drop pos l.

(** [replace_child_inner]. *)
Definition replace_child (name : string) (id : oid) (m : Z) (tree_oid : oid) : txm oid :=
  bytes ← tree_bytes tree_oid;
  let out := default [] (bytes : option (list entry)) in
  let first := position name out in
  let out := base.filter (fun e => filename e ≠ name) out in
  if decide (id = zero_oid \/ id = empty_id) then write_tree_now out
  else
    match mode_try_from m with
    | None => fail "replace_child: invalid mode"
    | Some m =>
        let e := Entry m name id in
        write_tree_now
          match first with
          | Some pos => insert_at pos e out
          | None => insert_in_order out e
          end
    end.

(** One step of the descent of [insert_oid] to the subtree at the parent path. *)
Definition descend_step (st : oid) (c : component) : txm oid :=
  bytes ← tree_bytes st;
  mret match bytes : option (list entry) with
       | Some tree =>
           match lookup_entry tree (as_os_str c) (entries_canonically_sorted tree) with
           | Some e => entry_oid e
           | None => empty_id
           end
       | None => empty_id
       end.

(** [insert_oid]; [n] bounds the number of components. *)
Fixpoint insert_oid (n : nat) (full_tree : oid) (p : path) (id : oid) (m : Z) : txm oid :=
  match n with
  | 0 => lift OutOfFuel
  | S n =>
      match p with
      | [] => fail "file_name"
      | [c] => replace_child (as_os_str c) id m full_tree
      | _ =>
          match file_name p, parent p with
          | None, _ => fail "file_name"
          | _, None => fail "path.parent"
          | Some name, Some up =>
              st ← foldM descend_step full_tree up;
              subtree ← replace_child name id m st;
              insert_oid n full_tree up subtree tree_bits
          end
      end
  end.

(** * Blobs *)

(** [blob_text]. *)
Definition blob_text (o : odb) (id : oid) : string :=
  match blob_bytes o id with
  | Some bytes => if has_nul bytes then EmptyString
                  else if valid_utf8 bytes then bytes else EmptyString
  | None => EmptyString
  end.

(** [get_blob]: every failure reads as the empty text. *)
Definition get_blob (root : oid) (p : path) : tx -> string * tx := fun t =>
  match get_path_entry root p t with
  | (Ok (Some e), t) => (blob_text (tx_odb t) (entry_oid e), t)
  | (_, t) => (EmptyString, t)
  end.

(** [get_blob_at]. *)
Definition get_blob_at (root : list entry) (p : path) : tx -> string * tx := fun t =>
  match get_path_entry_at root p t with
  | (Ok (Some e), t) => (blob_text (tx_odb t) (entry_oid e), t)
  | (_, t) => (EmptyString, t)
  end.

(** * Differences *)

(** [format!("{}{}{}", root, if root.is_empty() { "" } else { "/" }, name)]. *)
Definition child_path (root name : string) : string :=
  match root with EmptyString => name | _ => root +:+ String slash name end.

(** [read_tree_into] and the parse. *)
Definition tree_of (o : odb) (id : oid) : option (list entry) :=
  match try_find o id with Some (OTree l) => Some l | _ => None end.

(** The walk over the entries of one tree, the results appended. *)
Fixpoint append_diffs (f : entry -> res (list (string * Z))) (l : list entry) :
    res (list (string * Z)) :=
  match l with
  | [] => Ok []
  | e :: l =>
      if valid_utf8 (filename e) then
        match f e, append_diffs f l with
        | Ok a, Ok b => Ok (a ++ b)
        | Ok _, r => r
        | r, _ => r
        end
      else Err "no name"
  end.

(** [diff_paths]; [n] bounds the depth.  The changes are 0 for a modified file, 1 for
    an added and -1 for a removed one. *)
Fixpoint diff_paths (n : nat) (o : odb) (input1 input2 : oid) (root : string) :
    res (list (string * Z)) :=
  match n with
  | 0 => OutOfFuel
  | S n =>
      if decide (input1 = input2) then Ok []
      else
        match try_kind o input1, try_kind o input2 with
        | Some Blob, Some Blob => Ok [(root, 0%Z)]
        | Some Blob, _ => Ok [(root, (-1)%Z)]
        | _, Some Blob => Ok [(root, 1%Z)]
        | _, _ =>
            match tree_of o input1, tree_of o input2 with
            | Some tree1, Some tree2 =>
                let sorted1 := entries_canonically_sorted tree1 in
                let sorted2 := entries_canonically_sorted tree2 in
                let r := append_diffs (fun e =>
                  match lookup_entry tree1 (filename e) sorted1 with
                  | Some e1 =>
                      diff_paths n o (entry_oid e1) (entry_oid e) (child_path root (filename e))
                  | None =>
                      diff_paths n o zero_oid (entry_oid e) (child_path root (filename e))
                  end) tree2 in
                match r with
                | Ok added =>
                    let r := append_diffs (fun e =>
                      match lookup_entry tree2 (filename e) sorted2 with
                      | None =>
                          diff_paths n o (entry_oid e) zero_oid (child_path root (filename e))
                      | Some _ => Ok []
                      end) tree1 in
                    match r with Ok removed => Ok (added ++ removed) | r => r end
                | r => r
                end
            | None, Some tree2 =>
                append_diffs (fun e =>
                  diff_paths n o zero_oid (entry_oid e) (child_path root (filename e))) tree2
            | Some tree1, None =>
                append_diffs (fun e =>
                  diff_paths n o (entry_oid e) zero_oid (child_path root (filename e))) tree1
            | None, None => Ok []
            end
        end
  end.

End TreePaths.
