(* ===== verification/TreeWalk.v ===== *)
(** The walks over a whole tree of josh-core/src/filter/tree.rs: keeping the files of
    a predicate or a pattern, replacing contents by paths or by a regular expression,
    and the inversion of a tree of paths. *)

From S2P Require Import Prelude Path Ops Objects Store Utf8 Glob Pattern TreeOps TreePaths.

Open Scope nat_scope.

(** [regex::Regex::replacen] with no limit. *)
Class RegexReplace := { regex_replacen : regex -> string -> string -> string }.

(** [pathline]: the first line without its leading hashes. *)
Fixpoint first_line (s : string) : string :=
  match s with
  | EmptyString => EmptyString
  | String c s => if decide (c = "010"%char) then EmptyString else String c (first_line s)
  end.

Fixpoint trim_hashes (s : string) : string :=
  match s with
  | String c s' => if decide (c = "#"%char) then trim_hashes s' else s
  | EmptyString => EmptyString
  end.

Definition pathline (b : string) : res string :=
  match trim_hashes (first_line b) with
  | EmptyString => Err "pathline"
  | line => Ok line
  end.

Section TreeWalk.
Context `{ObjectHash} `{BisectEntry} `{EntryModes} `{RegexReplace}.

(** [std::str::from_utf8(entry.filename)]. *)
Definition utf8_name (e : entry) (err : string) : txm (list char) :=
  match chars (filename e) with Some name => mret name | None => fail err end.

(** The handling of a rebuilt directory, shared by the two removals. *)
Definition rebuild_dir (r : TreeRebuild.t) (e : entry) (s : oid) : TreeRebuild.t :=
  let r := if decide (s ≠ entry_oid e \/ s = empty_id) then TreeRebuild.mark_changed r else r in
  if decide (s ≠ empty_id) then TreeRebuild.keep r (Entry (mode e) (filename e) s) else r.

(** [remove_pred_inner]; [path] is the text of the path of the tree, [n] bounds the
    depth. *)
Fixpoint remove_pred (n : nat) (path : string) (input : oid) (pred : string -> bool -> bool)
    (key : oid) : txm oid :=
  match n with
  | 0 => lift OutOfFuel
  | S n =>
      let root_key := compute_hash (OBlob ("glob-fallback:" +:+ key +:+ ":" +:+ path)) in
      cached ← gets (fun t => GLOB_MAP t !! (input, root_key, 0%Z));
      match cached with
      | Some r => mret r
      | None =>
          tree ← require_tree "remove_pred" input;
          rebuild ← foldM (fun r e =>
            utf8_name e "INVALID_FILENAME" ≫= fun _ =>
            let path := child_path path (filename e) in
            if is_tree (mode e) then
              s ← remove_pred n path (entry_oid e) pred key;
              mret (rebuild_dir r e s)
            else if is_commit (mode e) then mret (TreeRebuild.mark_changed r)
            else if pred path true then mret (TreeRebuild.keep r e)
            else mret (TreeRebuild.mark_changed r)) TreeRebuild.new tree;
          result ← TreeRebuild.finish rebuild input;
          modify (insert_glob (input, root_key, 0%Z) result) ≫= fun _ => mret result
      end
  end.

(** [remove_pattern_inner]; [n] bounds the depth. *)
Fixpoint remove_pattern (n : nat) (input : oid) (cp : compiled_pattern) (key : oid) (state : Z) :
    txm oid :=
  match n with
  | 0 => lift OutOfFuel
  | S n =>
      let state := closure cp state in
      cached ← gets (fun t => GLOB_MAP t !! (input, key, state));
      match cached with
      | Some r => mret r
      | None =>
          tree ← require_tree "remove_pattern" input;
          rebuild ← foldM (fun r e =>
            name ← utf8_name e "INVALID_FILENAME";
            if is_tree (mode e) then
              let next := next_state cp state name in
              s ← (if (next =? 0)%Z then mret empty_id
                   else remove_pattern n (entry_oid e) cp key next);
              mret (rebuild_dir r e s)
            else if is_commit (mode e) then mret (TreeRebuild.mark_changed r)
            else if keep_blob cp state name then mret (TreeRebuild.keep r e)
            else mret (TreeRebuild.mark_changed r)) TreeRebuild.new tree;
          result ← TreeRebuild.finish rebuild input;
          modify (insert_glob (input, key, state) result) ≫= fun _ => mret result
      end
  end.

(** [normalize_path(&Path::new(root).join(name))] as text. *)
Definition joined_path (root name : string) : string :=
  to_string (normalize_path (Path.join (components root) (components name))).

(** The content of a file in the tree of paths. *)
Definition path_contents (o : odb) (root name : string) (id : oid) : string :=
  let path_string := joined_path root name in
  if decide (name = "workspace.josh") then
    "#" +:+ path_string +:+ String "010" (blob_text o id)
  else path_string.

(** [pathstree_inner]; [n] bounds the depth. *)
Fixpoint pathstree (n : nat) (root : string) (input : oid) : txm oid :=
  match n with
  | 0 => lift OutOfFuel
  | S n =>
      cached ← gets (fun t => PATHS_MAP t !! (input, root));
      match cached with
      | Some r => mret r
      | None =>
          tree ← require_tree "pathstree" input;
          out ← foldM (fun out e =>
            utf8_name e "no name" ≫= fun _ =>
            if is_tree (mode e) then
              s ← pathstree n (child_path root (filename e)) (entry_oid e);
              mret (if decide (s = empty_id) then out
                    else out ++ [Entry tree_mode (filename e) s])
            else if is_commit (mode e) then mret out
            else
              contents ← gets (fun t =>
                path_contents (tx_odb t) root (filename e) (entry_oid e));
              id ← write_object (OBlob contents);
              mret (out ++ [Entry blob_mode (filename e) id])) [] tree;
          result ← write_tree_now out;
          modify (insert_paths (input, root) result) ≫= fun _ => mret result
      end
  end.

(** [regex_replace_inner]; [n] bounds the depth. *)
Fixpoint regex_replace (n : nat) (input : oid) (re : regex) (replacement : string) : txm oid :=
  match n with
  | 0 => lift OutOfFuel
  | S n =>
      tree ← require_tree "regex_replace" input;
      out ← foldM (fun out e =>
        utf8_name e "no name" ≫= fun _ =>
        if is_tree (mode e) then
          s ← regex_replace n (entry_oid e) re replacement;
          mret (if decide (s = empty_id) then out
                else out ++ [Entry (mode e) (filename e) s])
        else if is_commit (mode e) then mret out
        else
          contents ← gets (fun t => blob_text (tx_odb t) (entry_oid e));
          id ← write_object (OBlob (regex_replacen re contents replacement));
          mret (out ++ [Entry (mode e) (filename e) id])) [] tree;
      write_tree_now out
  end.

(** [insert_oid] with enough steps for the path. *)
Definition insert_path (full : oid) (p : path) (id : oid) (m : Z) : txm oid :=
  insert_oid (S (length p)) full p id m.

(** [Result::unwrap]. *)
Definition unwrap {A} (m : txm A) : txm A := fun t =>
  match m t with
  | (Err e, t) => (Err ("called `Result::unwrap()` on an `Err` value: " +:+ e), t)
  | r => r
  end.

(** [invert_paths]; [n] bounds the depth of the tree and [d] that of the inverted one. *)
Fixpoint invert_paths (n d : nat) (root : string) (tree : oid) : txm oid :=
  match n with
  | 0 => lift OutOfFuel
  | S n =>
      cached ← gets (fun t => INVERT_MAP t !! (tree, root));
      match cached with
      | Some r => mret r
      | None =>
          parsed ← require_tree "invert_paths" tree;
          let sorted := entries_canonically_sorted parsed in
          result ← foldM (fun result e =>
            utf8_name e "no name" ≫= fun _ =>
            if is_tree (mode e) then
              s ← invert_paths n d (child_path root (filename e)) (entry_oid e);
              overlay d result s
            else if is_commit (mode e) then mret result
            else
              let mpath := joined_path root (filename e) in
              b ← gets (fun t =>
                match lookup_entry parsed (filename e) sorted with
                | Some e => blob_text (tx_odb t) (entry_oid e)
                | None => EmptyString
                end);
              opath ← lift (pathline b);
              blob ← write_object (OBlob mpath);
              unwrap (insert_path result (components opath) blob blob_bits)) empty_id parsed;
          modify (insert_invert (tree, root) result) ≫= fun _ => mret result
      end
  end.

(** [populate]; [n] bounds the depth of the content and [d] that of the result. *)
Fixpoint populate (n d : nat) (paths content : oid) : txm oid :=
  match n with
  | 0 => lift OutOfFuel
  | S n =>
      cached ← gets (fun t => POPULATE_MAP t !! (paths, content));
      match cached with
      | Some r => mret r
      | None =>
          kinds ← gets (fun t =>
            (res_ok (read_header (tx_odb t) paths), res_ok (read_header (tx_odb t) content)));
          result_tree ←
            match kinds with
            | (Some Blob, Some Blob) =>
                bytes ← gets (fun t => blob_bytes (tx_odb t) paths);
                match bytes with
                | None => fail "populate: blob read"
                | Some bytes =>
                    if valid_utf8 bytes then
                      ipath ← lift (pathline bytes);
                      insert_path empty_id (components ipath) content blob_bits
                    else fail "invalid utf-8 sequence"
                end
            | (Some Tree, Some Tree) =>
                paths_tree ← require_tree "populate" paths;
                content_tree ← require_tree "populate" content;
                let sorted := entries_canonically_sorted paths_tree in
                foldM (fun result e =>
                  utf8_name e "no name" ≫= fun _ =>
                  match lookup_entry paths_tree (filename e) sorted with
                  | Some p =>
                      r ← populate n d (entry_oid p) (entry_oid e);
                      overlay d result r
                  | None => mret result
                  end) empty_id content_tree
            | _ => mret empty_id
            end;
          modify (insert_populate (paths, content) result_tree) ≫= fun _ => mret result_tree
      end
  end.

End TreeWalk.
