(* ===== verification/Node.v ===== *)
(** Trees as values: what a tree object and everything below it denotes,
    independent of the object database.  The structural operations defined here
    are the reference definitions of the operations of TreeOps, and the laws they
    satisfy on the paths of a tree are what a user of josh relies on. *)

From S2P Require Import Prelude Path Ops Objects Store.

(** A leaf is any object that is not a tree, known by its address. *)
Inductive node :=
| Leaf (id : oid)
| Node (children : list (entry_mode * string * node)).

Abbreviation child := (entry_mode * string * node)%type.

Definition child_mode (c : child) : entry_mode := c.1.1.
Definition child_name (c : child) : string := c.1.2.
Definition child_node (c : child) : node := c.2.

Definition node_eq_dec : forall x y : node, {x = y} + {x ≠ y}.
Proof.
  refine (fix go x y := _).
  assert (EqDecision node) as H by exact go.
  decide equality; exact (decide (_ = _)).
Defined.
#[export] Instance node_eq_decision : EqDecision node := node_eq_dec.

Lemma node_ind' (P : node -> Prop) :
  (forall id, P (Leaf id)) ->
  (forall cs, Forall (fun c => P (child_node c)) cs -> P (Node cs)) ->
  forall n, P n.
Proof.
  intros Hl Hn. fix go 1. intros [id|cs]; [apply Hl|]. apply Hn.
  induction cs as [|c cs IH]; constructor; [apply go|apply IH].
Qed.

(** The empty tree. *)
Abbreviation nempty := (Node []).

(** The first child with a name. *)
Fixpoint nfind (name : string) (cs : list child) : option child :=
  match cs with
  | [] => None
  | c :: cs => if decide (child_name c = name) then Some c else nfind name cs
  end.

(** The height of a tree, which bounds the recursion of every operation. *)
Fixpoint height (n : node) : nat :=
  match n with
  | Leaf _ => 1
  | Node cs => S (list_max ((fun c => height c.2) <$> cs))
  end.

(** * Reference definitions *)

(** What is in the first tree and not at a path of the second. *)
Fixpoint nsubtract (a b : node) : node :=
  if decide (a = b) then nempty
  else match a, b with
  | Node ca, Node cb =>
      Node (omap (fun c =>
        match nfind c.1.2 cb with
        | None => Some c
        | Some d =>
            let s := nsubtract c.2 (child_node d) in
            if decide (s = nempty) then None else Some (c.1, s)
        end) ca)
  | _, _ => nempty
  end.

(** What is in the first tree at a path of the second. *)
Fixpoint nintersect (a b : node) : node :=
  if decide (a = b) then a
  else if decide (b = nempty) then nempty
  else match a, b with
  | Node ca, Node cb =>
      Node (omap (fun c =>
        match nfind c.1.2 cb with
        | None => None
        | Some d =>
            let s := nintersect c.2 (child_node d) in
            if decide (s = nempty) then None else Some (c.1, s)
        end) ca)
  | _, _ => a
  end.

(** The position of a new child. *)
Definition child_cmp (a b : child) : comparison :=
  git_tree_entry_cmp (child_name a) (is_tree (child_mode a))
    (child_name b) (is_tree (child_mode b)).

Definition ninsert (c : child) (cs : list child) : list child := insert_sorted child_cmp cs c.

(** Both trees, the first one where they overlap. *)
Fixpoint noverlay (a b : node) : node :=
  if decide (a = b) then a
  else if decide (a = nempty) then b
  else if decide (b = nempty) then a
  else match a, b with
  | Node ca, Node cb =>
      Node (foldl (fun out d =>
              match nfind (child_name d) ca with
              | Some _ => out
              | None => ninsert d out
              end)
            ((fun c =>
                match nfind c.1.2 cb with
                | None => c
                | Some d => (c.1, noverlay c.2 (child_node d))
                end) <$> ca) cb)
  | _, _ => a
  end.

(** The files at the paths of a predicate, without submodules. *)
Fixpoint nfilter (keep : list string -> bool) (n : node) : node :=
  match n with
  | Leaf _ => n
  | Node cs =>
      Node (omap (fun c =>
        if is_tree c.1.1 then
          let s := nfilter (fun p => keep (c.1.2 :: p)) c.2 in
          if decide (s = nempty) then None else Some (c.1, s)
        else if is_commit c.1.1 then None
        else if keep [c.1.2] then Some c else None) cs)
  end.

(** * Paths *)

(** What is at a path. *)
Fixpoint nlookup (n : node) (p : list string) : option node :=
  match p with
  | [] => Some n
  | s :: p =>
      match n with
      | Leaf _ => None
      | Node cs => c ← nfind s cs; nlookup (child_node c) p
      end
  end.

(** The file at a path, with the mode of its entry; [m] is the mode of the root
    itself. *)
Fixpoint file_at (m : entry_mode) (n : node) (p : list string) : option (entry_mode * oid) :=
  match p, n with
  | [], Leaf id => Some (m, id)
  | s :: p, Node cs => c ← nfind s cs; file_at (child_mode c) (child_node c) p
  | _, _ => None
  end.

(** The files of a tree. *)
Definition leaf_at (n : node) (p : list string) : option (entry_mode * oid) :=
  file_at tree_mode n p.

(** One path is a prefix of the other: the two cannot both be files. *)
Definition comparable (p q : list string) : Prop := p `prefix_of` q \/ q `prefix_of` p.

(** The tree has a file at a path that is a prefix of the path or the other way
    round. *)
Definition occupies (n : node) (p : list string) : Prop :=
  exists q x, leaf_at n q = Some x /\ comparable p q.

(** * Well-formed trees *)

Fixpoint children_sorted (cs : list child) : bool :=
  match cs with
  | a :: (b :: _) as cs' =>
      match child_cmp a b with Lt => children_sorted cs' | _ => false end
  | _ => true
  end.

Definition is_node (n : node) : bool := match n with Node _ => true | Leaf _ => false end.

Definition is_nempty (n : node) : bool := match n with Node [] => true | _ => false end.

(** Valid names in canonical order without repetition, modes that agree with
    the objects, and no empty tree below the root. *)
Fixpoint wf_node (n : node) : Prop :=
  match n with
  | Leaf _ => True
  | Node cs =>
      Forall (fun c => valid_name c.1.2 = true) cs /\
      NoDup ((fun c : child => c.1.2) <$> cs) /\
      children_sorted cs = true /\
      Forall (fun c => is_tree c.1.1 = is_node c.2 /\ is_nempty c.2 = false) cs /\
      foldr (fun c acc => wf_node c.2 /\ acc) True cs
  end.

(** * Trees in the object database *)

Section Presence.
Context `{ObjectHash}.

(** The address of a tree. *)
Fixpoint node_oid (n : node) : oid :=
  match n with
  | Leaf id => id
  | Node cs => compute_hash (OTree ((fun c => Entry c.1.1 c.1.2 (node_oid c.2)) <$> cs))
  end.

Definition child_entry_of (c : child) : entry :=
  Entry (child_mode c) (child_name c) (node_oid (child_node c)).

(** The objects of a tree are in the database. *)
Inductive present (o : odb) : node -> Prop :=
| present_leaf id x :
    try_find o id = Some x -> object_kind x ≠ Tree -> present o (Leaf id)
| present_node cs :
    try_find o (node_oid (Node cs)) = Some (OTree (child_entry_of <$> cs)) ->
    Forall (fun c => present o (child_node c)) cs ->
    present o (Node cs).

End Presence.
