(* ===== verification/NodeFacts.v ===== *)
(** Facts about trees as values: lookups, canonical order, preservation of
    well-formedness by the reference operations, and addresses. *)

From Stdlib Require Export Sorting.Sorted.
From S2P Require Import Prelude Path Ops Objects Store Node.

(** * Lookup of children *)

Abbreviation names cs := ((fun c : child => c.1.2) <$> cs).

Lemma nfind_Some s cs c : nfind s cs = Some c -> c ∈ cs /\ child_name c = s.
Proof.
  induction cs as [|x cs IH]; simpl; [done|].
  case_decide; [intros [= ->]; split; [left|done]|].
  intros [? ?]%IH. split; [by right|done].
Qed.

Lemma nfind_None s cs : nfind s cs = None <-> s ∉ names cs.
Proof.
  induction cs as [|x cs IH]; simpl; [set_solver|].
  rewrite not_elem_of_cons, <- IH. unfold child_name. case_decide; naive_solver.
Qed.

Lemma nfind_elem cs c : NoDup (names cs) -> c ∈ cs -> nfind (child_name c) cs = Some c.
Proof.
  induction cs as [|x cs IH]; simpl; [set_solver|]. intros [Hx Hn]%NoDup_cons Hc.
  apply elem_of_cons in Hc as [->|Hc]; [by rewrite decide_True|].
  rewrite decide_False; [by apply IH|]. intros E. apply Hx.
  apply list_elem_of_fmap. exists c. split; [|done]. done.
Qed.

Lemma nfind_Some_iff cs c s :
  NoDup (names cs) -> nfind s cs = Some c <-> c ∈ cs /\ child_name c = s.
Proof.
  intros Hn. split; [apply nfind_Some|]. intros [Hc <-]. by apply nfind_elem.
Qed.

(** * Well-formed trees *)

Lemma wf_node_Node cs :
  wf_node (Node cs) <->
  Forall (fun c => valid_name (child_name c) = true) cs /\
  NoDup (names cs) /\
  children_sorted cs = true /\
  Forall (fun c => is_tree (child_mode c) = is_node (child_node c) /\
                   is_nempty (child_node c) = false) cs /\
  Forall (fun c => wf_node (child_node c)) cs.
Proof.
  simpl. assert (foldr (fun c acc => wf_node c.2 /\ acc) True cs <->
    Forall (fun c => wf_node (child_node c)) cs) as ->; [|done].
  induction cs as [|c cs IH]; simpl; [done|]. rewrite Forall_cons, IH. done.
Qed.

Lemma wf_nodup cs : wf_node (Node cs) -> NoDup (names cs).
Proof. by intros (_ & ? & _)%wf_node_Node. Qed.

Lemma wf_child cs c : wf_node (Node cs) -> c ∈ cs -> wf_node (child_node c).
Proof. intros (_ & _ & _ & _ & H)%wf_node_Node Hc. by eapply Forall_forall in H. Qed.

Lemma wf_child_not_empty cs c : wf_node (Node cs) -> c ∈ cs -> child_node c ≠ nempty.
Proof.
  intros (_ & _ & _ & H & _)%wf_node_Node Hc E. eapply Forall_forall in H as [_ H]; [|done].
  by rewrite E in H.
Qed.

Lemma wf_child_kind cs c :
  wf_node (Node cs) -> c ∈ cs -> is_tree (child_mode c) = is_node (child_node c).
Proof.
  intros (_ & _ & _ & H & _)%wf_node_Node Hc. by eapply Forall_forall in H as [? _].
Qed.

Lemma wf_child_name cs c : wf_node (Node cs) -> c ∈ cs -> valid_name (child_name c) = true.
Proof. intros (H & _)%wf_node_Node Hc. by eapply Forall_forall in H. Qed.

(** * Canonical order *)

Definition child_key (c : child) : string := name_key (child_name c) (is_tree (child_mode c)).
Definition key_lt (a b : child) : Prop := String.compare (child_key a) (child_key b) = Lt.

Abbreviation all_valid cs := (Forall (fun c : child => valid_name (child_name c) = true) cs).

Lemma child_cmp_key a b :
  valid_name (child_name a) = true -> valid_name (child_name b) = true ->
  child_cmp a b = String.compare (child_key a) (child_key b).
Proof.
  intros Ha%valid_name_ends Hb%valid_name_ends. by apply git_tree_entry_cmp_key.
Qed.

#[export] Instance key_lt_trans : Transitive key_lt.
Proof. intros a b c. apply string_compare_lt_trans. Qed.

Lemma key_lt_irrefl a b : child_key a = child_key b -> ~ key_lt a b.
Proof. unfold key_lt. intros ->. by rewrite string_compare_refl. Qed.

Lemma children_sorted_iff cs :
  all_valid cs -> children_sorted cs = true <-> StronglySorted key_lt cs.
Proof.
  intros Hv. induction Hv as [|a cs Ha Hv IH]; [split; [constructor|done]|].
  destruct Hv as [|b cs Hb Hv]; [split; [by repeat constructor|done]|].
  cbn [children_sorted]. rewrite child_cmp_key by done. split.
  - destruct (String.compare (child_key a) (child_key b)) eqn:E; try done.
    intros Hs%IH. constructor; [done|]. inversion Hs as [|? ? Hs' Hf]; subst.
    constructor; [done|]. eapply Forall_impl; [done|]. intros c Hc. by trans b.
  - intros Hs. inversion Hs as [|? ? Hs' Hf]; subst. apply Forall_cons in Hf as [Hab _].
    rewrite Hab. by apply IH.
Qed.

(** Strictly sorted lists with the same elements are equal. *)
Lemma sorted_unique (l l' : list child) :
  StronglySorted key_lt l -> StronglySorted key_lt l' ->
  (forall c, c ∈ l <-> c ∈ l') -> l = l'.
Proof.
  revert l'. induction l as [|a l IH]; intros [|b l'] Hs Hs' He; [done|..].
  - specialize (He b). set_solver.
  - specialize (He a). set_solver.
  - inversion Hs as [|? ? Hs1 Hf1]; inversion Hs' as [|? ? Hs2 Hf2]; subst.
    rewrite Forall_forall in Hf1, Hf2.
    assert (a = b) as <-.
    { assert (a ∈ b :: l') as Ha by (apply He; left).
      assert (b ∈ a :: l) as Hb by (apply He; left).
      apply elem_of_cons in Ha as [->|Ha]; [done|].
      apply elem_of_cons in Hb as [->|Hb]; [done|].
      exfalso. apply (key_lt_irrefl a a eq_refl). trans b; [by apply Hf1|by apply Hf2]. }
    f_equal. apply IH; [done|done|]. intros c. specialize (He c).
    assert (c = a -> (c ∉ l) /\ (c ∉ l')) as Hne.
    { intros ->. split; intros Hin; apply (key_lt_irrefl a a eq_refl); auto. }
    rewrite !elem_of_cons in He. naive_solver.
Qed.

(** ** Inserting a child *)

Lemma ninsert_perm c (cs : list child) : Permutation (ninsert c cs) (c :: cs).
Proof. apply insert_sorted_perm. Qed.

Lemma elem_of_ninsert c d cs : d ∈ ninsert c cs <-> d = c \/ d ∈ cs.
Proof. rewrite ninsert_perm. apply elem_of_cons. Qed.

Lemma sorted_snoc (l : list child) x :
  StronglySorted key_lt (l ++ [x]) <->
  StronglySorted key_lt l /\ Forall (fun c => key_lt c x) l.
Proof.
  induction l as [|a l IH]; simpl.
  - split; [intros _; split; constructor|by repeat constructor].
  - split.
    + inversion 1 as [|? ? Hs Hf]; subst. apply IH in Hs as [Hs Hl].
      apply Forall_app in Hf as [Hf Hx]. apply Forall_cons in Hx as [Hx _].
      split; by constructor.
    + intros [Hs Hf]. inversion Hs as [|? ? Hs' Hf']; subst.
      apply Forall_cons in Hf as [Ha Hf]. constructor; [by apply IH|].
      apply Forall_app. split; [done|]. by repeat constructor.
Qed.

Lemma ninsert_sorted c cs :
  valid_name (child_name c) = true -> all_valid cs ->
  child_name c ∉ names cs ->
  StronglySorted key_lt cs -> StronglySorted key_lt (ninsert c cs).
Proof.
  intros Hc. unfold ninsert. induction cs as [|x cs IH] using rev_ind; intros Hv Hn Hs;
    [by repeat constructor|].
  apply Forall_app in Hv as [Hv Hx]. apply Forall_cons in Hx as [Hx _].
  apply sorted_snoc in Hs as [Hs Hf]. rewrite insert_sorted_snoc, child_cmp_key by done.
  assert (x.1.2 ≠ child_name c /\ child_name c ∉ names cs) as [Hne Hn'].
  { rewrite fmap_app in Hn. set_solver. }
  specialize (IH Hv Hn' Hs).
  destruct (String.compare (child_key x) (child_key c)) eqn:E.
  - apply string_compare_eq in E. apply name_key_inj in E as [E _];
      [done|by apply valid_name_ends..].
  - change (cs ++ [x; c]) with (cs ++ [x] ++ [c]). rewrite app_assoc.
    apply sorted_snoc. split; [by apply sorted_snoc|].
    apply Forall_app. split; [|by repeat constructor].
    eapply Forall_impl; [done|]. intros d Hd. by trans x.
  - apply string_compare_gt in E. apply sorted_snoc. split; [done|].
    apply Forall_forall. intros d [->|Hd]%elem_of_ninsert; [done|].
    by eapply Forall_forall in Hf.
Qed.

(** * The reference operations preserve well-formedness *)

Definition child_ok (c : child) : Prop :=
  valid_name (child_name c) = true /\ is_tree (child_mode c) = is_node (child_node c) /\
  is_nempty (child_node c) = false /\ wf_node (child_node c).

Lemma wf_node_alt cs :
  wf_node (Node cs) <->
  Forall child_ok cs /\ NoDup (names cs) /\ StronglySorted key_lt cs.
Proof.
  rewrite wf_node_Node. unfold child_ok. rewrite !Forall_and. split.
  - intros (H1 & H2 & H3 & [H4 H5] & H6). apply children_sorted_iff in H3; [|done]. tauto.
  - intros ((H1 & H2 & H3 & H4) & H5 & H6). apply children_sorted_iff in H6; [|done]. tauto.
Qed.

Lemma wf_nempty : wf_node nempty.
Proof. apply wf_node_alt. repeat split; constructor. Qed.
#[local] Hint Resolve wf_nempty : core.

Lemma child_ok_not_empty n : is_nempty n = false <-> n ≠ nempty.
Proof. destruct n as [|[|]]; simpl; split; done. Qed.

Section Omap.
Context (f : child -> option child) (f_key : forall c c', f c = Some c' -> c'.1 = c.1).

Lemma elem_of_omap_key (cs : list child) c' : c' ∈ omap f cs <-> exists c, c ∈ cs /\ f c = Some c'.
Proof. apply list_elem_of_omap. Qed.

Lemma omap_names (cs : list child) s : s ∈ names (omap f cs) -> s ∈ names cs.
Proof.
  rewrite !list_elem_of_fmap. intros (c' & -> & (c & Hc & E)%elem_of_omap_key).
  exists c. rewrite (f_key _ _ E). done.
Qed.

Lemma omap_nodup (cs : list child) : NoDup (names cs) -> NoDup (names (omap f cs)).
Proof.
  induction cs as [|c cs IH]; [done|]. intros [Hc Hn]%NoDup_cons. simpl.
  destruct (f c) as [c'|] eqn:E; [|auto]. rewrite fmap_cons. apply NoDup_cons.
  split; [|auto]. rewrite (f_key _ _ E). intros H%omap_names. done.
Qed.

Lemma child_key_fst (c c' : child) : c'.1 = c.1 -> child_key c' = child_key c.
Proof. unfold child_key, child_name, child_mode. by intros ->. Qed.

Lemma omap_sorted (cs : list child) : StronglySorted key_lt cs -> StronglySorted key_lt (omap f cs).
Proof.
  induction 1 as [|c cs Hs IH Hf]; [constructor|]. simpl.
  destruct (f c) as [c'|] eqn:E; [|done]. constructor; [done|].
  apply Forall_forall. intros d' (d & Hd & Ed)%elem_of_omap_key.
  rewrite Forall_forall in Hf. unfold key_lt.
  rewrite (child_key_fst c c' (f_key _ _ E)), (child_key_fst d d' (f_key _ _ Ed)).
  by apply Hf.
Qed.

Lemma omap_wf (cs : list child) :
  wf_node (Node cs) -> (forall c c', c ∈ cs -> f c = Some c' -> child_ok c') ->
  wf_node (Node (omap f cs)).
Proof.
  rewrite !wf_node_alt. intros (_ & Hn & Hs) Hok. split; [|split].
  - apply Forall_forall. intros c' (c & Hc & E)%elem_of_omap_key. by eapply Hok.
  - by apply omap_nodup.
  - by apply omap_sorted.
Qed.

End Omap.

(** The child of the result of a subtraction or an intersection. *)
Definition meet_child (op : node -> node -> node) (keep : bool) (cb : list child) (c : child) :
    option child :=
  match nfind c.1.2 cb with
  | None => if keep then Some c else None
  | Some d =>
      let s := op c.2 (child_node d) in
      if decide (s = nempty) then None else Some (c.1, s)
  end.

Lemma meet_child_key op keep cb c c' : meet_child op keep cb c = Some c' -> c'.1 = c.1.
Proof.
  unfold meet_child. destruct (nfind c.1.2 cb); [case_decide|destruct keep]; try done;
    by intros [= <-].
Qed.

Lemma nsubtract_Node ca cb :
  nsubtract (Node ca) (Node cb) =
    if decide (Node ca = Node cb) then nempty else Node (omap (meet_child nsubtract true cb) ca).
Proof. done. Qed.

Lemma nintersect_Node ca cb :
  nintersect (Node ca) (Node cb) =
    if decide (Node ca = Node cb) then Node ca
    else if decide (Node cb = nempty) then nempty
    else Node (omap (meet_child nintersect false cb) ca).
Proof. done. Qed.

(** The child of the first tree in an overlay. *)
Definition over_child (cb : list child) (c : child) : child :=
  match nfind c.1.2 cb with None => c | Some d => (c.1, noverlay c.2 (child_node d)) end.

Definition add_new (ca : list child) (out : list child) (d : child) : list child :=
  match nfind (child_name d) ca with Some _ => out | None => ninsert d out end.

Lemma noverlay_Node ca cb :
  noverlay (Node ca) (Node cb) =
    if decide (Node ca = Node cb) then Node ca
    else if decide (Node ca = nempty) then Node cb
    else if decide (Node cb = nempty) then Node ca
    else Node (foldl (add_new ca) (over_child cb <$> ca) cb).
Proof. done. Qed.

Lemma nsubtract_is_node a b : is_node (nsubtract a b) = true.
Proof. destruct a, b; simpl; by repeat case_decide. Qed.

Lemma nsubtract_leaf id b : nsubtract (Leaf id) b = nempty.
Proof. destruct b; simpl; by repeat case_decide. Qed.

Lemma meet_child_ok op keep ca cb c c' :
  (forall b, wf_node b -> wf_node (op c.2 b)) ->
  (forall a b, op a b ≠ nempty -> is_node (op a b) = is_node a) ->
  wf_node (Node ca) -> wf_node (Node cb) -> c ∈ ca ->
  meet_child op keep cb c = Some c' -> child_ok c'.
Proof.
  intros Hwf Hk Ha Hb Hc. apply wf_node_alt in Ha as (Ha & _).
  assert (child_ok c) as Hok by (by eapply Forall_forall in Ha).
  unfold meet_child. destruct (nfind c.1.2 cb) as [d|] eqn:E.
  - case_decide as Hd; [done|]. intros [= <-].
    destruct Hok as (H1 & H2 & H3 & H4). repeat split; try done.
    + unfold child_mode, child_node in *. simpl in *. rewrite H2. symmetry. by apply Hk.
    + by apply child_ok_not_empty.
    + apply Hwf. apply nfind_Some in E as [E _]. by eapply wf_child.
  - destruct keep; [|done]. by intros [= <-].
Qed.

Lemma nsubtract_kind a b : nsubtract a b ≠ nempty -> is_node (nsubtract a b) = is_node a.
Proof. rewrite nsubtract_is_node. destruct a; [by rewrite nsubtract_leaf|done]. Qed.

Lemma nintersect_kind a b : nintersect a b ≠ nempty -> is_node (nintersect a b) = is_node a.
Proof. destruct a, b; simpl; by repeat case_decide. Qed.

Lemma nsubtract_wf a b : wf_node a -> wf_node b -> wf_node (nsubtract a b).
Proof.
  revert b. induction a as [id|ca IH] using node_ind'; intros b Ha Hb.
  { by rewrite nsubtract_leaf. }
  destruct b as [id|cb]; [apply wf_nempty|].
  rewrite nsubtract_Node. case_decide; [apply wf_nempty|].
  apply omap_wf; [apply meet_child_key|done|]. intros c c' Hc.
  apply (meet_child_ok nsubtract true ca cb); auto using nsubtract_kind.
  intros x Hx. rewrite Forall_forall in IH. apply IH; [done| |done].
  by apply (wf_child ca).
Qed.

Lemma nintersect_wf a b : wf_node a -> wf_node b -> wf_node (nintersect a b).
Proof.
  revert b. induction a as [id|ca IH] using node_ind'; intros b Ha Hb.
  { simpl. repeat case_decide; auto. }
  destruct b as [id|cb]; [done|].
  rewrite nintersect_Node. repeat case_decide; auto.
  apply omap_wf; [apply meet_child_key|done|]. intros c c' Hc.
  apply (meet_child_ok nintersect false ca cb); auto using nintersect_kind.
  intros x Hx. rewrite Forall_forall in IH. apply IH; [done| |done].
  by apply (wf_child ca).
Qed.

Lemma noverlay_kind a b : a ≠ nempty -> is_node (noverlay a b) = is_node a.
Proof. destruct a, b; simpl; by repeat case_decide. Qed.

Lemma over_child_key cb c : (over_child cb c).1 = c.1.
Proof. unfold over_child. by destruct (nfind c.1.2 cb). Qed.

Lemma over_names cb (ca : list child) : names (over_child cb <$> ca) = names ca.
Proof.
  rewrite <- list_fmap_compose. apply list_fmap_ext. intros i c _. simpl.
  by rewrite over_child_key.
Qed.

Lemma over_sorted cb (ca : list child) :
  StronglySorted key_lt ca -> StronglySorted key_lt (over_child cb <$> ca).
Proof.
  induction 1 as [|c ca Hs IH Hf]; [constructor|]. rewrite fmap_cons. constructor; [done|].
  apply Forall_fmap. eapply Forall_impl; [done|]. intros d Hd. unfold key_lt in *. simpl.
  by rewrite !(child_key_fst _ _ (over_child_key cb _)).
Qed.

(** What the loop over new entries adds. *)
Lemma elem_of_add_new ca cb out d :
  d ∈ foldl (add_new ca) out cb <->
  d ∈ out \/ (d ∈ cb /\ nfind (child_name d) ca = None).
Proof.
  revert out. induction cb as [|x cb IH]; intros out; simpl; [set_solver|].
  rewrite IH. unfold add_new. destruct (nfind (child_name x) ca) eqn:E.
  - rewrite elem_of_cons. naive_solver.
  - rewrite elem_of_ninsert, elem_of_cons. naive_solver.
Qed.

Lemma names_add_new ca cb out :
  (forall s, s ∈ names out -> s ∈ names ca \/ s ∉ names cb) ->
  NoDup (names out) -> NoDup (names cb) -> NoDup (names (foldl (add_new ca) out cb)).
Proof.
  revert out. induction cb as [|x cb IH]; intros out Hd Hn Hb; simpl; [done|].
  apply NoDup_cons in Hb as [Hx Hb]. apply IH; [|..|done].
  - intros s. unfold add_new. destruct (nfind (child_name x) ca) eqn:E.
    + intros [?|Hs]%Hd; [by left|right]. set_solver.
    + rewrite ninsert_perm, fmap_cons, elem_of_cons.
      intros [->|[?|Hs]%Hd]; [by right|by left|right; set_solver].
  - unfold add_new. destruct (nfind (child_name x) ca) eqn:E; [done|].
    rewrite ninsert_perm, fmap_cons. apply NoDup_cons. split; [|done].
    apply nfind_None in E. intros [?|Hs]%Hd; [done|]. set_solver.
Qed.

Lemma sorted_add_new ca cb out :
  (forall s, s ∈ names out -> s ∈ names ca \/ s ∉ names cb) ->
  all_valid out -> all_valid cb -> NoDup (names cb) ->
  StronglySorted key_lt out -> StronglySorted key_lt (foldl (add_new ca) out cb).
Proof.
  revert out. induction cb as [|x cb IH]; intros out Hd Hv Hvb Hb Hs; simpl; [done|].
  apply NoDup_cons in Hb as [Hx Hb]. apply Forall_cons in Hvb as [Hvx Hvb].
  unfold add_new at 2. destruct (nfind (child_name x) ca) eqn:E.
  - apply IH; try done. intros s [?|Hs']%Hd; [by left|right]. set_solver.
  - apply IH; try done.
    + intros s. rewrite ninsert_perm, fmap_cons, elem_of_cons.
      intros [->|[?|Hs']%Hd]; [by right|by left|right; set_solver].
    + rewrite ninsert_perm. by constructor.
    + apply ninsert_sorted; try done. apply nfind_None in E.
      intros [?|Hs']%Hd; [done|]. set_solver.
Qed.

Lemma noverlay_nonempty a b : a ≠ nempty -> noverlay a b ≠ nempty.
Proof.
  intros Ha. destruct b as [id'|cb]; [destruct a; simpl; by repeat case_decide|].
  destruct a as [id|[|c ca]]; [simpl; by repeat case_decide|done|].
  rewrite noverlay_Node. repeat case_decide; try done.
  assert (over_child cb c ∈ foldl (add_new (c :: ca)) (over_child cb <$> c :: ca) cb) as Hin.
  { apply elem_of_add_new. left. rewrite fmap_cons. left. }
  destruct (foldl _ _ _); [by apply not_elem_of_nil in Hin|done].
Qed.

Lemma noverlay_wf a b : wf_node a -> wf_node b -> wf_node (noverlay a b).
Proof.
  revert b. induction a as [id|ca IH] using node_ind'; intros b Ha Hb.
  { simpl. repeat case_decide; auto. }
  destruct b as [id|cb]; [simpl; by repeat case_decide|].
  rewrite noverlay_Node. do 3 (case_decide as Hd; [by auto|clear Hd]).
  apply wf_node_alt in Ha as Ha'. destruct Ha' as (Hoka & Hna & Hsa).
  apply wf_node_alt in Hb as Hb'. destruct Hb' as (Hokb & Hnb & Hsb).
  assert (Forall child_ok (over_child cb <$> ca)) as Hok.
  { apply Forall_fmap, Forall_forall. intros c Hc. unfold compose, over_child.
    rewrite Forall_forall in Hoka, IH. destruct (nfind c.1.2 cb) as [d|] eqn:E; [|by apply Hoka].
    destruct (Hoka c Hc) as (H1 & H2 & H3 & H4). apply child_ok_not_empty in H3 as H3'.
    apply nfind_Some in E as [E _]. repeat split; try done.
    - unfold child_mode, child_node in *. simpl in *. rewrite H2. symmetry. by apply noverlay_kind.
    - by apply child_ok_not_empty, noverlay_nonempty.
    - apply IH; [done|done|]. by apply (wf_child cb). }
  assert (forall s, s ∈ names (over_child cb <$> ca) -> s ∈ names ca \/ s ∉ names cb) as Hd.
  { rewrite over_names. auto. }
  apply wf_node_alt. split; [|split].
  - apply Forall_forall. intros d [Hd'|[Hd' _]]%elem_of_add_new.
    + by eapply Forall_forall in Hok.
    + by eapply Forall_forall in Hokb.
  - apply names_add_new; [done|by rewrite over_names|done].
  - apply sorted_add_new; try done; [| |by apply over_sorted].
    + eapply Forall_impl; [done|]. by intros c (? & _).
    + eapply Forall_impl; [done|]. by intros c (? & _).
Qed.

(** * Heights *)

Lemma height_child cs c : c ∈ cs -> height (child_node c) < height (Node cs).
Proof.
  intros Hc. simpl. apply le_n_S.
  assert (Forall (fun k => k <= list_max ((fun c : child => height c.2) <$> cs))
    ((fun c : child => height c.2) <$> cs)) as Hm by (by apply list_max_le).
  rewrite Forall_fmap, Forall_forall in Hm. by apply Hm.
Qed.

Lemma height_pos n : 0 < height n.
Proof. destruct n; simpl; lia. Qed.

Lemma nsubtract_same a : nsubtract a a = nempty.
Proof. destruct a; simpl; by rewrite decide_True. Qed.

Lemma nsubtract_empty_l b : nsubtract nempty b = nempty.
Proof. destruct b; simpl; by repeat case_decide. Qed.

Lemma nsubtract_empty_r ca : nsubtract (Node ca) nempty = Node ca.
Proof.
  rewrite nsubtract_Node. case_decide as Hd; [done|]. f_equal. clear Hd.
  induction ca as [|c ca IH]; [done|].
  change (c :: omap (meet_child nsubtract true []) ca = c :: ca). by rewrite IH.
Qed.

Lemma nsubtract_mixed a b : is_node a && is_node b = false -> nsubtract a b = nempty.
Proof. destruct a, b; simpl; intros Hk; by repeat case_decide. Qed.

(** * The intersection in the order of the second tree *)

Definition meet_pick (ca : list child) (d : child) : option child :=
  c ← nfind (child_name d) ca;
  let s := nintersect (child_node c) (child_node d) in
  if decide (s = nempty) then None else Some (child_mode c, child_name d, s).

Definition insert_picked (ca : list child) (out : list child) (d : child) : list child :=
  match meet_pick ca d with Some c => ninsert c out | None => out end.

Lemma meet_pick_name ca d c : meet_pick ca d = Some c -> child_name c = child_name d.
Proof.
  unfold meet_pick. destruct (nfind (child_name d) ca); simpl; [|done].
  case_decide; [done|]. by intros [= <-].
Qed.

Lemma elem_of_picked ca cb out c :
  c ∈ foldl (insert_picked ca) out cb <->
  c ∈ out \/ exists d, d ∈ cb /\ meet_pick ca d = Some c.
Proof.
  revert out. induction cb as [|d cb IH]; intros out; simpl; [set_solver|].
  rewrite IH. unfold insert_picked at 1. destruct (meet_pick ca d) eqn:E.
  - rewrite elem_of_ninsert. setoid_rewrite elem_of_cons. naive_solver.
  - setoid_rewrite elem_of_cons. naive_solver.
Qed.

Lemma sorted_picked ca cb out :
  (forall s, s ∈ names out -> s ∉ names cb) ->
  all_valid out -> all_valid cb -> NoDup (names cb) ->
  StronglySorted key_lt out -> StronglySorted key_lt (foldl (insert_picked ca) out cb).
Proof.
  revert out. induction cb as [|d cb IH]; intros out Hd Hv Hvb Hb Hs; simpl; [done|].
  apply NoDup_cons in Hb as [Hx Hb]. apply Forall_cons in Hvb as [Hvx Hvb].
  unfold insert_picked at 2. destruct (meet_pick ca d) as [c|] eqn:E.
  - apply meet_pick_name in E.
    assert (child_name c ∉ names out) as Hc.
    { rewrite E. intros Hin%Hd. set_solver. }
    apply IH; try done.
    + intros s. rewrite ninsert_perm, fmap_cons, elem_of_cons. fold (child_name c).
      intros [->|Hs']; [by rewrite E|]. specialize (Hd s Hs'). set_solver.
    + rewrite ninsert_perm. constructor; [by rewrite E|done].
    + apply ninsert_sorted; try done. by rewrite E.
  - apply IH; try done. intros s Hs'. specialize (Hd s Hs'). set_solver.
Qed.

(** Picking the names of the second tree one by one gives the children of the
    first in canonical order. *)
Lemma picked_omap ca cb :
  wf_node (Node ca) -> wf_node (Node cb) ->
  foldl (insert_picked ca) [] cb = omap (meet_child nintersect false cb) ca.
Proof.
  intros Ha Hb. apply wf_node_alt in Ha as (_ & Hna & Hsa).
  apply wf_node_alt in Hb as (Hokb & Hnb & _). apply sorted_unique.
  - apply sorted_picked; [by intros s ?%not_elem_of_nil|constructor| |done|constructor].
    eapply Forall_impl; [done|]. by intros c (? & _).
  - apply omap_sorted; [apply meet_child_key|done].
  - intros c'. rewrite elem_of_picked, list_elem_of_omap. split.
    + intros [?%not_elem_of_nil|(d & Hd & E)]; [done|]. unfold meet_pick in E.
      destruct (nfind (child_name d) ca) as [c|] eqn:Ec; simpl in E; [|done].
      apply nfind_Some in Ec as [Hc En]. exists c. split; [done|]. unfold meet_child.
      change c.1.2 with (child_name c). rewrite En, (nfind_elem cb d) by done.
      change c.2 with (child_node c). case_decide; [done|]. injection E as <-.
      destruct c as [[m s] nc]. unfold child_name in En. simpl in En. by subst.
    + intros (c & Hc & E). right. unfold meet_child in E.
      change c.1.2 with (child_name c) in E. change c.2 with (child_node c) in E.
      destruct (nfind (child_name c) cb) as [d|] eqn:Ed; [|done].
      apply nfind_Some in Ed as [Hd En]. exists d. split; [done|]. unfold meet_pick.
      rewrite En, (nfind_elem ca c) by done. simpl. case_decide; [done|].
      injection E as <-. by destruct c as [[m s] nc].
Qed.

Lemma nintersect_same a : nintersect a a = a.
Proof. destruct a; simpl; by rewrite decide_True. Qed.

Lemma nintersect_empty_l b : nintersect nempty b = nempty.
Proof. destruct b; simpl; by repeat case_decide. Qed.

Lemma nintersect_empty_r a : nintersect a nempty = nempty.
Proof. destruct a; simpl; by repeat case_decide. Qed.

Lemma nintersect_mixed a b :
  is_node a && is_node b = false -> b ≠ nempty -> nintersect a b = a.
Proof. destruct a, b; simpl; intros Hk Hb; by repeat case_decide. Qed.

(** * Overlay *)

Definition new_children (ca cb : list child) : list child :=
  base.filter (fun d => nfind (child_name d) ca = None) cb.

Lemma add_new_filter ca cb out :
  foldl (add_new ca) out cb = foldl (fun out d => ninsert d out) out (new_children ca cb).
Proof.
  revert out. induction cb as [|d cb IH]; intros out; [done|]. unfold new_children.
  rewrite filter_cons. cbn [foldl]. unfold add_new at 2.
  destruct (nfind (child_name d) ca) eqn:E; [by rewrite decide_False|].
  rewrite decide_True by done. apply IH.
Qed.

Lemma noverlay_same a : noverlay a a = a.
Proof. destruct a; simpl; by rewrite decide_True. Qed.

Lemma noverlay_empty_l b : noverlay nempty b = b.
Proof. destruct b as [|cb]; simpl; repeat case_decide; by subst. Qed.

Lemma noverlay_empty_r a : noverlay a nempty = a.
Proof. destruct a; simpl; by repeat case_decide. Qed.

Lemma noverlay_mixed a b :
  is_node a && is_node b = false -> a ≠ nempty -> noverlay a b = a.
Proof. destruct a, b; simpl; intros Hk Ha; by repeat case_decide. Qed.
