(* ===== verification/Refine.v ===== *)
(** The operations on the object database implement the reference operations on
    trees: subtraction, intersection and overlay compute the address of the
    reference result, leave it in the database, terminate within the height of
    their first argument, and never return a stale memo entry. *)

From S2P Require Import Prelude Path Ops Objects Store TreeOps Node NodeFacts.

(** What the entries of [GLOB_MAP] under a key and a state stand for: the key
    identifies a pattern, or a predicate and the path of the tree. *)
Class GlobKeys := { glob_meaning : oid -> Z -> node -> node }.

Section Refine.
Context `{ObjectHash} `{BisectEntry} `{GlobKeys}.

(** * Addresses and presence *)

Abbreviation entries cs := (child_entry_of <$> cs).

Lemma node_oid_Node cs : node_oid (Node cs) = compute_hash (OTree (entries cs)).
Proof. done. Qed.

Lemma present_find_node o cs :
  present o (Node cs) -> try_find o (node_oid (Node cs)) = Some (OTree (entries cs)).
Proof. by inversion 1. Qed.

Lemma present_children o cs c : present o (Node cs) -> c ∈ cs -> present o (child_node c).
Proof. inversion 1 as [|? ? Hf]; subst. intros Hc. by eapply Forall_forall in Hf. Qed.

(** A tree is determined by its address. *)
Lemma node_oid_inj o a b :
  present o a -> present o b -> node_oid a = node_oid b -> a = b.
Proof.
  revert b. induction a as [id|ca IH] using node_ind'; intros b Ha Hb E.
  - destruct b as [id'|cb]; [by simpl in E; subst|].
    apply present_find_node in Hb. inversion Ha as [? x Hx Hk|]; subst.
    rewrite <- E in Hb. simpl in Hb. rewrite Hb in Hx. by injection Hx as <-.
  - destruct b as [id'|cb].
    { apply present_find_node in Ha as Hf. inversion Hb as [? x Hx Hk|]; subst.
      rewrite E in Hf. simpl in Hf. rewrite Hf in Hx. by injection Hx as <-. }
    rewrite !node_oid_Node in E. apply compute_hash_inj in E. injection E as E. f_equal.
    assert (forall c, c ∈ ca -> present o (child_node c)) as Hca
      by (intros c; by apply present_children).
    assert (forall c, c ∈ cb -> present o (child_node c)) as Hcb
      by (intros c; by apply present_children).
    clear Ha Hb. revert cb E Hcb. induction IH as [|c ca Hc _ IHl]; intros [|d cb] E Hcb;
      try done.
    rewrite !fmap_cons in E. unfold child_entry_of at 1 3 in E. injection E as E1 E2 E3 E4.
    destruct c as [[m s] nc], d as [[m' s'] nd]. unfold child_mode, child_name, child_node in *.
    simpl in *. subst m' s'. rewrite (Hc nd); [..|exact E3].
    + f_equal. apply IHl; [intros x Hx; apply Hca; by right|done|].
      intros x Hx. apply Hcb. by right.
    + apply (Hca (m, s, nc)). left.
    + apply (Hcb (m, s, nd)). left.
Qed.

Lemma present_keeps o o' n : odb_keeps o o' -> present o n -> present o' n.
Proof.
  intros He. induction n as [id|cs IH] using node_ind'; intros Hp.
  - inversion Hp as [? x Hx Hk|]; subst. econstructor; [by apply He|done].
  - inversion Hp as [|? Hf Hc]; subst. constructor; [by apply He|].
    rewrite Forall_forall in *. intros c Hin. by apply IH, Hc.
Qed.

Lemma present_extends o o' n : odb_extends o o' -> present o n -> present o' n.
Proof. intros [He _]. by apply present_keeps. Qed.

Lemma present_nempty o : odb_ok o -> present o nempty.
Proof.
  intros Hok. constructor; [|constructor]. simpl.
  destruct (try_find o (compute_hash (OTree []))) as [x|] eqn:E.
  - apply try_find_hash in E; [|done]. by apply compute_hash_inj in E as <-.
  - unfold try_find, disk_read in E. destruct (mem o !! _); [done|].
    destruct (disk o !! _); [done|]. by rewrite decide_True in E.
Qed.

Lemma present_leaf_hash o id : odb_ok o -> present o (Leaf id) ->
  exists x, id = compute_hash x /\ object_kind x ≠ Tree.
Proof.
  intros Hok Hp. inversion Hp as [? x Hx Hk|]; subst. exists x. split; [|done].
  by eapply try_find_hash.
Qed.

Lemma node_oid_not_zero o n : odb_ok o -> present o n -> node_oid n ≠ zero_oid.
Proof.
  intros Hok Hp. destruct n as [id|cs].
  - apply present_leaf_hash in Hp as (x & -> & _); [|done]. apply compute_hash_not_zero.
  - apply compute_hash_not_zero.
Qed.

Lemma node_oid_empty o n :
  odb_ok o -> present o n -> node_oid n = empty_id <-> n = nempty.
Proof.
  intros Hok Hp. split; [|by intros ->]. intros E.
  eapply node_oid_inj; [done|by apply present_nempty|done].
Qed.

(** ** Entries of a tree *)

Lemma entries_names (cs : list child) : filename <$> entries cs = names cs.
Proof. by rewrite <- list_fmap_compose. Qed.

Lemma find_entry_entries s (cs : list child) :
  find_entry s (entries cs) = child_entry_of <$> nfind s cs.
Proof.
  induction cs as [|c cs IH]; [done|]. rewrite fmap_cons. simpl. rewrite IH.
  unfold child_name. by case_decide.
Qed.

Lemma lookup_entries s (cs : list child) :
  NoDup (names cs) ->
  lookup_entry (entries cs) s (entries_canonically_sorted (entries cs)) =
    child_entry_of <$> nfind s cs.
Proof.
  intros Hn. rewrite lookup_entry_find by (by rewrite entries_names).
  apply find_entry_entries.
Qed.

(** * Transactions *)

Definition good (o : odb) (n : node) : Prop := wf_node n /\ present o n.

(** A memo table holds results of the reference operation that are stored. *)
Definition memo_ok (op : node -> node -> node) (o : odb) (m : gmap (oid * oid) oid) : Prop :=
  forall x y z, m !! (x, y) = Some z -> exists a b,
    x = node_oid a /\ y = node_oid b /\ z = node_oid (op a b) /\
    good o a /\ good o b /\ present o (op a b).

Definition glob_ok (o : odb) (m : gmap (oid * oid * Z) oid) : Prop :=
  forall x k s z, m !! (x, k, s) = Some z -> exists a,
    x = node_oid a /\ z = node_oid (glob_meaning k s a) /\
    good o a /\ present o (glob_meaning k s a).

Definition tree_cache_ok (c : tree_cache) : Prop :=
  forall id l, tc_map c !! id = Some l -> id = compute_hash (OTree l).

Record tx_ok (t : tx) : Prop := {
  tx_odb_ok : odb_ok (tx_odb t);
  tx_tree_cache_ok : tree_cache_ok (tx_tree_cache t);
  tx_subtract_ok : memo_ok nsubtract (tx_odb t) (subtract_map t);
  tx_intersect_ok : memo_ok nintersect (tx_odb t) (intersect_map t);
  tx_overlay_ok : memo_ok noverlay (tx_odb t) (overlay_map t);
  tx_glob_ok : glob_ok (tx_odb t) (GLOB_MAP t);
}.

Lemma good_keeps o o' n : odb_keeps o o' -> good o n -> good o' n.
Proof. intros He [Hw Hp]. split; [done|]. by eapply present_keeps. Qed.

Lemma good_extends o o' n : odb_extends o o' -> good o n -> good o' n.
Proof. intros [He _]. by apply good_keeps. Qed.

Lemma memo_ok_keeps op o o' m : odb_keeps o o' -> memo_ok op o m -> memo_ok op o' m.
Proof.
  intros He Hm x y z Hz. destruct (Hm x y z Hz) as (a & b & ? & ? & ? & Ha & Hb & Hr).
  exists a, b. eauto 10 using good_keeps, present_keeps.
Qed.

Lemma glob_ok_keeps o o' m : odb_keeps o o' -> glob_ok o m -> glob_ok o' m.
Proof.
  intros He Hm x k s z Hz. destruct (Hm x k s z Hz) as (a & ? & ? & Ha & Hr).
  exists a. eauto 10 using good_keeps, present_keeps.
Qed.

Lemma memo_ok_lookup op o m a b z :
  memo_ok op o m -> good o a -> good o b -> m !! (node_oid a, node_oid b) = Some z ->
  z = node_oid (op a b) /\ present o (op a b).
Proof.
  intros Hm [_ Ha] [_ Hb] Hz.
  destruct (Hm _ _ _ Hz) as (a' & b' & Ea & Eb & -> & [_ Ha'] & [_ Hb'] & Hr).
  apply (node_oid_inj o) in Ea, Eb; [|done..]. by subst a' b'.
Qed.

Lemma memo_ok_insert op o m a b :
  memo_ok op o m -> good o a -> good o b -> present o (op a b) ->
  memo_ok op o (<[(node_oid a, node_oid b) := node_oid (op a b)]> m).
Proof.
  intros Hm Ha Hb Hr x y z [[[= <- <-] <-]|[_ Hz]]%lookup_insert_Some; [|by apply Hm].
  exists a, b. by repeat (split; [done|]).
Qed.

(** * Computations that return a value *)

(** From every sound state that has the objects of [o], [m] returns [a], keeps the
    state sound, keeps what is stored, and establishes [Q] of the database.  The states
    are transactions, or hold one. *)
Section Runs.
Context {St : Type} (ok : St -> Prop) (db : St -> odb).
Context (ok_db : forall s, ok s -> odb_ok (db s)).

Definition runs {A} (o : odb) (m : M St A) (a : A) (Q : odb -> Prop) : Prop :=
  forall t, ok t -> odb_extends o (db t) ->
  exists t', m t = (Ok a, t') /\ ok t' /\ odb_extends (db t) (db t') /\ Q (db t').

Lemma runs_ret {A} o (a : A) (Q : odb -> Prop) :
  (forall o', odb_ok o' -> odb_extends o o' -> Q o') -> runs o (mret a) a Q.
Proof.
  intros HQ t Ht He. exists t. split; [done|]. split; [done|].
  split; [apply odb_extends_refl|]. apply HQ; [by apply ok_db|done].
Qed.

Lemma runs_bind {A B} o (m : M St A) (k : A -> M St B) a b Q R :
  runs o m a Q ->
  (forall o', odb_ok o' -> odb_extends o o' -> Q o' -> runs o' (k a) b R) ->
  runs o (m ≫= k) b R.
Proof.
  intros Hm Hk t Ht He. destruct (Hm t Ht He) as (t1 & E & Ht1 & He1 & HQ).
  destruct (Hk (db t1)) with (t := t1) as (t2 & E2 & Ht2 & He2 & HR);
    [by apply ok_db|by eapply odb_extends_trans|done|done|apply odb_extends_refl|].
  exists t2. unfold mbind, M_bind. rewrite E. split; [done|]. split; [done|].
  split; [by eapply odb_extends_trans|done].
Qed.

Lemma runs_weaken {A} o o' (m : M St A) a (Q : odb -> Prop) :
  runs o m a Q -> odb_extends o o' -> runs o' m a Q.
Proof. intros Hm He t Ht Ht'. apply Hm; [done|]. by eapply odb_extends_trans. Qed.

(** A computation starts in a sound state. *)
Lemma runs_start {A} o (m : M St A) a Q :
  (forall o', odb_ok o' -> odb_extends o o' -> runs o' m a Q) -> runs o m a Q.
Proof.
  intros Hm t Ht He. apply (Hm (db t)); [by apply ok_db|done|done|apply odb_extends_refl].
Qed.

(** Reading a memo table: continue with what is found. *)
Lemma runs_gets {A B} o (f : St -> A) (k : A -> M St B) b Q :
  (forall t, ok t -> odb_extends o (db t) -> runs (db t) (k (f t)) b Q) ->
  runs o (gets f ≫= k) b Q.
Proof.
  intros Hk t Ht He. apply (Hk t Ht He t Ht). apply odb_extends_refl.
Qed.

Lemma runs_modify {B} o (f : St -> St) (k : M St B) b Q :
  (forall t, ok t -> odb_extends o (db t) -> ok (f t) /\ db (f t) = db t) ->
  runs o k b Q -> runs o (modify f ≫= fun _ => k) b Q.
Proof.
  intros Hf Hk t Ht He. destruct (Hf t Ht He) as [Hft Ho].
  destruct (Hk (f t)) as (t' & E & Ht' & He' & HQ); [done|by rewrite Ho|].
  exists t'. unfold mbind, M_bind, modify. split; [done|]. split; [done|].
  split; [by rewrite <- Ho|done].
Qed.
End Runs.

Definition yields {A} (o : odb) (m : txm A) (a : A) (Q : odb -> Prop) : Prop :=
  runs tx_ok tx_odb o m a Q.

Lemma yields_ret {A} o (a : A) (Q : odb -> Prop) :
  (forall o', odb_ok o' -> odb_extends o o' -> Q o') -> yields o (mret a) a Q.
Proof. apply runs_ret, tx_odb_ok. Qed.

Lemma yields_bind {A B} o (m : txm A) (k : A -> txm B) a b Q R :
  yields o m a Q ->
  (forall o', odb_ok o' -> odb_extends o o' -> Q o' -> yields o' (k a) b R) ->
  yields o (m ≫= k) b R.
Proof. apply runs_bind, tx_odb_ok. Qed.

Lemma yields_weaken {A} o o' (m : txm A) a (Q : odb -> Prop) :
  yields o m a Q -> odb_extends o o' -> yields o' m a Q.
Proof. apply runs_weaken. Qed.

Lemma yields_start {A} o (m : txm A) a Q :
  (forall o', odb_ok o' -> odb_extends o o' -> yields o' m a Q) -> yields o m a Q.
Proof. apply runs_start, tx_odb_ok. Qed.

Lemma yields_gets {A B} o (f : tx -> A) (k : A -> txm B) b Q :
  (forall t, tx_ok t -> odb_extends o (tx_odb t) -> yields (tx_odb t) (k (f t)) b Q) ->
  yields o (gets f ≫= k) b Q.
Proof. apply runs_gets. Qed.

Lemma yields_modify {B} o (f : tx -> tx) (k : txm B) b Q :
  (forall t, tx_ok t -> odb_extends o (tx_odb t) ->
     tx_ok (f t) /\ tx_odb (f t) = tx_odb t) ->
  yields o k b Q -> yields o (modify f ≫= fun _ => k) b Q.
Proof. apply runs_modify. Qed.

Definition stable (Q : odb -> Prop) : Prop := forall o o', odb_extends o o' -> Q o -> Q o'.

Lemma yields_foldM {A X B} o (h : X -> A) (f : B -> A -> txm B) (g : B -> X -> B)
    (Q : X -> odb -> Prop) (l : list X) acc :
  (forall x, stable (Q x)) ->
  (forall x acc o', x ∈ l -> odb_ok o' -> odb_extends o o' ->
     yields o' (f acc (h x)) (g acc x) (Q x)) ->
  yields o (foldM f acc (h <$> l)) (foldl g acc l) (fun o' => forall x, x ∈ l -> Q x o').
Proof.
  intros Hst. revert o acc. induction l as [|x l IH]; intros o acc Hf.
  - apply yields_ret. intros ? _ _ ? ?%not_elem_of_nil. done.
  - rewrite fmap_cons. simpl. intros t Ht He.
    destruct (Hf x acc (tx_odb t)) with (t := t) as (t1 & E1 & Ht1 & He1 & HQ1);
      [left|by apply Ht|done|done|apply odb_extends_refl|].
    destruct (IH (tx_odb t1) (g acc x)) with (t := t1) as (t2 & E2 & Ht2 & He2 & HQ2);
      [|done|apply odb_extends_refl|].
    { intros y acc' o' Hy Hok He'. apply Hf; [by right|done|].
      eapply odb_extends_trans; [|done]. by eapply odb_extends_trans. }
    exists t2. unfold mbind, M_bind. rewrite E1. split; [done|]. split; [done|].
    split; [by eapply odb_extends_trans|].
    intros y [->|Hy]%elem_of_cons; [|by apply HQ2]. by eapply Hst.
Qed.

(** * Reading and writing trees *)

Definition node_entries (n : node) : option (list entry) :=
  match n with Leaf _ => None | Node cs => Some (entries cs) end.

Lemma tx_ok_with_tree_cache c t : tx_ok t -> tree_cache_ok c -> tx_ok (with_tree_cache c t).
Proof. by intros [] Hc. Qed.

Lemma tree_cache_insert_ok c id l :
  tree_cache_ok c -> id = compute_hash (OTree l) -> tree_cache_ok (tree_cache_insert c id l).
Proof.
  intros Hc -> id' l'. unfold tree_cache_insert. simpl.
  rewrite lookup_insert_Some. intros [[<- <-]|[_ Hl]]; [done|].
  destruct (bool_decide _); [by rewrite lookup_empty in Hl|by apply Hc].
Qed.

(** [read_tree_bytes] returns the entries of a tree and nothing for a leaf,
    from the cache, the memory store or the repository. *)
Lemma read_tree_bytes_yields o n :
  present o n -> yields o (read_tree_bytes (node_oid n)) (node_entries n) (fun _ => True).
Proof.
  intros Hp. apply yields_gets. intros t Ht He.
  assert (exists x, try_find (tx_odb t) (node_oid n) = Some x /\
    node_entries n = match x with OTree l => Some l | _ => None end) as (x & Hx & En).
  { eapply present_extends in Hp; [|done]. inversion Hp as [id x Hx Hk|cs Hf _]; subst.
    - exists x. split; [done|]. by destruct x.
    - eexists. split; [done|]. done. }
  destruct (tc_map (tx_tree_cache t) !! node_oid n) as [l|] eqn:El.
  - apply (tx_tree_cache_ok t Ht) in El.
    apply try_find_hash in Hx; [|by apply Ht]. rewrite Hx in El.
    apply compute_hash_inj in El as ->. rewrite En. by apply yields_ret.
  - rewrite En. clear En El Hp He. intros t1 Ht1 He1.
    destruct (find_odb_read _ _ _ (extends_keeps _ _ He1 _ _ Hx)) as (src & Hr).
    unfold mbind, M_bind, read_object. rewrite Hr.
    assert (node_oid n = compute_hash x) as Hh.
    { pose proof (odb_read_find (tx_odb t1) (node_oid n)) as Hf. rewrite Hr in Hf.
      by eapply try_find_hash; [apply Ht1|]. }
    assert (forall r : option (list entry), exists t', (Ok r, t1) = (Ok r, t') /\
      tx_ok t' /\ odb_extends (tx_odb t1) (tx_odb t') /\ True) as Hret.
    { intros r. exists t1. eauto using odb_extends_refl. }
    destruct x as [d|l|c|d]; try apply Hret. destruct src; [apply Hret|].
    assert (forall c, tree_cache_ok c -> exists t', (Ok (Some l), with_tree_cache c t1) =
      (Ok (Some l), t') /\ tx_ok t' /\ odb_extends (tx_odb t1) (tx_odb t') /\ True) as Hfin.
    { intros c Hc. exists (with_tree_cache c t1). split; [done|].
      split; [by apply tx_ok_with_tree_cache|]. split; [apply odb_extends_refl|done]. }
    unfold should_promote. case_bool_decide as Hs; simpl; unfold modify; simpl.
    + apply (Hfin (tree_cache_insert _ _ _)). apply tree_cache_insert_ok; [apply Ht1|done].
    + apply Hfin. apply Ht1.
Qed.

Lemma entries_no_nul (cs : list child) :
  all_valid cs -> existsb (fun e => has_nul (filename e)) (entries cs) = false.
Proof.
  induction 1 as [|c cs Hc _ IH]; [done|]. rewrite fmap_cons. simpl. rewrite IH.
  unfold has_nul. by rewrite valid_name_no_nul.
Qed.

Lemma tx_ok_with_odb o t :
  tx_ok t -> odb_ok o -> odb_keeps (tx_odb t) o -> tx_ok (with_odb o t).
Proof.
  intros [H1' H2' H3 H4 H5 H6] Ho He.
  split; simpl; try done; by (eapply memo_ok_keeps || eapply glob_ok_keeps).
Qed.

(** [write_tree_now] stores a tree whose children are stored. *)
Lemma write_tree_now_yields o (cs : list child) :
  all_valid cs -> (forall c, c ∈ cs -> present o (child_node c)) ->
  yields o (write_tree_now (entries cs)) (node_oid (Node cs))
    (fun o' => present o' (Node cs)).
Proof.
  intros Hv Hc t Ht He. unfold write_tree_now. rewrite entries_no_nul by done.
  unfold write_object.
  pose proof (odb_write_extends (tx_odb t) (OTree (entries cs)) (tx_odb_ok t Ht) ltac:(done)) as He'.
  destruct (odb_write (tx_odb t) (OTree (entries cs))) as [id o'] eqn:E.
  apply odb_write_spec in E as (-> & Hok & _ & Hf); [|by apply Ht]. simpl in He'.
  eexists. split; [done|]. split; [by apply tx_ok_with_odb; [..|apply He']|]. split; [done|].
  simpl. constructor; [done|]. apply Forall_forall. intros c Hin.
  eapply present_extends; [done|]. eapply present_extends; [done|]. by apply Hc.
Qed.

(** Recording a result in a memo table and returning it. *)
Lemma finish_memo o (ins : tx -> tx) n :
  (forall t, tx_ok t -> odb_extends o (tx_odb t) -> tx_ok (ins t) /\ tx_odb (ins t) = tx_odb t) ->
  present o n ->
  yields o (modify ins ≫= fun _ => mret (node_oid n)) (node_oid n) (fun o' => present o' n).
Proof.
  intros Hi Hp. apply yields_modify; [done|]. apply yields_ret.
  intros o' _ He. by eapply present_extends.
Qed.

(** * Subtraction *)

Lemma stable_present n : stable (fun o => present o n).
Proof. intros o o' He Hp. by eapply present_extends. Qed.

Lemma stable_true : stable (fun _ => True).
Proof. by intros ? ?. Qed.

(** The entry of the modification map for a name. *)
Definition sub_mod (c d : node) : option oid :=
  if decide (nsubtract c d = nempty) then None else Some (node_oid (nsubtract c d)).

Definition sub_mods (ca : list child) (mods : gmap string (option oid)) (d : child) :
    gmap string (option oid) :=
  match nfind (child_name d) ca with
  | Some c => <[child_name d := sub_mod (child_node c) (child_node d)]> mods
  | None => mods
  end.

Lemma sub_mods_lookup ca cb s mods :
  NoDup (names cb) ->
  foldl (sub_mods ca) mods cb !! s =
    match nfind s cb, nfind s ca with
    | Some d, Some c => Some (sub_mod (child_node c) (child_node d))
    | _, _ => mods !! s
    end.
Proof.
  revert mods. induction cb as [|d cb IH]; intros mods Hn; simpl; [done|].
  apply NoDup_cons in Hn as [Hd Hn]. rewrite IH by done.
  unfold sub_mods. clear IH. destruct (decide (child_name d = s)) as [<-|Hne].
  - rewrite (proj2 (nfind_None (child_name d) cb) Hd).
    destruct (nfind (child_name d) ca); [|done]. by rewrite lookup_insert_eq.
  - destruct (nfind s cb), (nfind s ca); try done;
      (destruct (nfind (child_name d) ca); [by rewrite lookup_insert_ne|done]).
Qed.

Lemma subtract_apply_spec mods (ca cb : list child) :
  (forall c, c ∈ ca -> mods !! child_name c =
     d ← nfind (child_name c) cb; Some (sub_mod (child_node c) (child_node d))) ->
  subtract_apply mods (entries ca) = entries (omap (meet_child nsubtract true cb) ca).
Proof.
  intros Hm. unfold subtract_apply. induction ca as [|c ca IH]; [done|].
  rewrite fmap_cons, filter_cons. simpl.
  pose proof (Hm c ltac:(left)) as Hc. specialize (IH (fun x Hx => Hm x (list_elem_of_further _ _ _ Hx))).
  unfold meet_child at 1. fold (child_name c) (child_node c).
  destruct (nfind (child_name c) cb) as [d|]; simpl in Hc; unfold sub_mod in Hc.
  - destruct (decide (nsubtract (child_node c) (child_node d) = nempty)).
    + rewrite decide_False; [done|]. rewrite Hc. intros Hf. by apply Hf.
    + rewrite decide_True by (by rewrite Hc). rewrite !fmap_cons, IH. simpl. by rewrite Hc.
  - rewrite decide_True by (by rewrite Hc). rewrite !fmap_cons, IH. simpl. by rewrite Hc.
Qed.

Lemma good_child o cs c : good o (Node cs) -> c ∈ cs -> good o (child_node c).
Proof. intros [Hw Hp] Hc. split; [by eapply wf_child|by eapply present_children]. Qed.

Lemma good_nfind o cs s c : good o (Node cs) -> nfind s cs = Some c -> good o (child_node c).
Proof. intros Hg [Hc _]%nfind_Some. by eapply good_child. Qed.

(** The recursive calls of an operation behave as the reference operation on the
    children of [ca]. *)
Definition rec_ok (op : node -> node -> node) (rec : oid -> oid -> txm oid) (o : odb)
    (ca : list child) : Prop :=
  forall o' c b, odb_ok o' -> odb_extends o o' -> c ∈ ca -> good o' b ->
    yields o' (rec (node_oid (child_node c)) (node_oid b)) (node_oid (op (child_node c) b))
      (fun o'' => present o'' (op (child_node c) b)).

Lemma subtract_mods_yields rec o (ca cb : list child) :
  rec_ok nsubtract rec o ca -> good o (Node ca) -> good o (Node cb) ->
  yields o (subtract_mods rec (entries ca) (entries cb)) (foldl (sub_mods ca) ∅ cb)
    (fun o' => forall d, d ∈ cb -> forall c, nfind (child_name d) ca = Some c ->
       present o' (nsubtract (child_node c) (child_node d))).
Proof.
  intros Hrec Ha Hb. unfold subtract_mods. apply yields_foldM.
  { intros d o1 o2 He Hq c Hc. eapply present_extends; [done|]. by apply Hq. }
  intros d mods o' Hd Hok He. simpl. rewrite lookup_entries by (by apply wf_nodup, Ha).
  unfold sub_mods. destruct (nfind (child_name d) ca) as [c|] eqn:E; simpl.
  2: { apply yields_ret. done. }
  eapply yields_bind.
  { apply Hrec; [done|done|by apply nfind_Some in E as [? _]|].
    eapply good_extends; [done|]. by eapply good_child. }
  intros o2 Hok2 He2 Hp. unfold sub_mod.
  assert (node_oid (nsubtract (child_node c) (child_node d)) = empty_id \/
    node_oid (nsubtract (child_node c) (child_node d)) = zero_oid <->
    nsubtract (child_node c) (child_node d) = nempty) as Hiff.
  { rewrite (node_oid_empty o2) by done. split; [|by left].
    intros [?|Hz]; [done|]. by apply (node_oid_not_zero o2) in Hz. }
  destruct (decide (nsubtract (child_node c) (child_node d) = nempty)) as [Hn|Hn].
  - rewrite decide_True by tauto. apply yields_ret. intros o3 _ He3 c' [= <-].
    by eapply present_extends.
  - rewrite decide_False by tauto. apply yields_ret. intros o3 _ He3 c' [= <-].
    by eapply present_extends.
Qed.

Lemma meet_present op keep o (ca cb : list child) c' :
  (forall c, c ∈ ca -> present o (child_node c)) ->
  (forall d, d ∈ cb -> forall c, nfind (child_name d) ca = Some c ->
     present o (op (child_node c) (child_node d))) ->
  NoDup (names ca) ->
  c' ∈ omap (meet_child op keep cb) ca -> present o (child_node c').
Proof.
  intros Hca Hop Hn (c & Hc & E)%list_elem_of_omap. unfold meet_child in E.
  destruct (nfind c.1.2 cb) as [d|] eqn:Ed.
  - case_decide; [done|]. injection E as <-. apply nfind_Some in Ed as [Hd En].
    apply (Hop d Hd c). rewrite En. by apply (nfind_elem ca c).
  - destruct keep; [|done]. injection E as <-. by apply Hca.
Qed.

Lemma insert_subtract_ok t a b :
  tx_ok t -> good (tx_odb t) a -> good (tx_odb t) b -> present (tx_odb t) (nsubtract a b) ->
  tx_ok (insert_subtract (node_oid a, node_oid b) (node_oid (nsubtract a b)) t).
Proof. intros [] Ha Hb Hr. split; simpl; try done. by apply memo_ok_insert. Qed.

(** The end of [subtract]: record the result and return it. *)
Lemma finish_subtract o a b :
  good o a -> good o b -> present o (nsubtract a b) ->
  yields o (modify (insert_subtract (node_oid a, node_oid b) (node_oid (nsubtract a b))) ≫=
      fun _ => mret (node_oid (nsubtract a b)))
    (node_oid (nsubtract a b)) (fun o' => present o' (nsubtract a b)).
Proof.
  intros Ha Hb Hr. apply finish_memo; [|done]. intros t Ht He. split; [|done].
  apply insert_subtract_ok; [done|by eapply good_extends..|by eapply present_extends].
Qed.

Lemma subtract_yields n o a b :
  height a <= n -> good o a -> good o b ->
  yields o (subtract n (node_oid a) (node_oid b)) (node_oid (nsubtract a b))
    (fun o' => present o' (nsubtract a b)).
Proof.
  revert o a b. induction n as [|n IH]; intros o a b Hn Ha Hb.
  { pose proof (height_pos a). lia. }
  apply yields_start. intros o0 Hok0 He0.
  eapply good_extends in Ha; [|exact He0]. eapply good_extends in Hb; [|exact He0]. clear He0 o.
  cbn [subtract]. destruct (decide (node_oid a = node_oid b)) as [E|Hne].
  { apply (node_oid_inj o0) in E as <-; [|apply Ha|apply Hb]. rewrite nsubtract_same.
    apply yields_ret. intros o' Hok _. by apply present_nempty. }
  destruct (decide (node_oid a = empty_id)) as [E|Hna].
  { apply (node_oid_empty o0) in E as ->; [|done|apply Ha]. rewrite nsubtract_empty_l.
    apply yields_ret. intros o' Hok _. by apply present_nempty. }
  apply yields_gets. intros t Ht He.
  eapply good_extends in Ha; [|exact He]. eapply good_extends in Hb; [|exact He].
  clear He. set (o1 := tx_odb t) in *.
  destruct (subtract_map t !! (node_oid a, node_oid b)) as [z|] eqn:Ez.
  { eapply memo_ok_lookup in Ez as [-> Hp]; [|apply Ht|done|done].
    apply yields_ret. intros o' _ He. by eapply present_extends. }
  clear Ez. assert (odb_ok o1) as Hok1 by apply Ht. clearbody o1. clear t Ht.
  eapply yields_bind; [by apply read_tree_bytes_yields, Ha|]. intros o2 Hok2 He2 _.
  eapply good_extends in Ha; [|exact He2]. eapply good_extends in Hb; [|exact He2].
  eapply yields_bind; [by apply read_tree_bytes_yields, Hb|]. intros o3 Hok3 He3 _.
  eapply good_extends in Ha; [|exact He3]. eapply good_extends in Hb; [|exact He3].
  destruct (is_node a && is_node b) eqn:Hk.
  2: { pose proof (finish_subtract o3 a b Ha Hb) as Hf. rewrite nsubtract_mixed in Hf by done.
    rewrite nsubtract_mixed by done.
    specialize (Hf ltac:(by apply present_nempty)).
    by destruct a, b. }
  destruct a as [|ca], b as [|cb]; try done. cbn [node_entries].
  destruct (decide (node_oid (Node cb) = empty_id)) as [E|Hnb].
  { apply (node_oid_empty o3) in E; [|done|apply Hb]. injection E as ->.
    rewrite nsubtract_empty_r. apply yields_ret. intros o' _ He. eapply present_extends, Ha. done. }
  eapply yields_bind.
  { apply (subtract_mods_yields (subtract n)); [|done|done]. intros o' c d Hok He Hc Hd.
    apply IH; [|eapply good_extends; [done|exact (good_child _ _ _ Ha Hc)]|done].
    apply height_child in Hc. lia. }
  intros o4 Hok4 He4 Hmods.
  eapply good_extends in Ha; [|exact He4]. eapply good_extends in Hb; [|exact He4].
  assert (nsubtract (Node ca) (Node cb) = Node (omap (meet_child nsubtract true cb) ca)) as Hs.
  { rewrite nsubtract_Node. by rewrite decide_False by congruence. }
  assert (wf_node (Node (omap (meet_child nsubtract true cb) ca))) as Hw.
  { rewrite <- Hs. apply nsubtract_wf; [apply Ha|apply Hb]. }
  rewrite (subtract_apply_spec _ ca cb).
  2: { intros c Hc. rewrite sub_mods_lookup by (by apply wf_nodup, Hb).
    rewrite (nfind_elem ca c) by (try done; apply wf_nodup, Ha).
    by destruct (nfind (child_name c) cb). }
  eapply yields_bind.
  { apply write_tree_now_yields; [by apply wf_node_Node in Hw as [? _]|].
    intros c' Hc'. eapply meet_present; [..|exact Hc']; [|done|by apply wf_nodup, Ha].
    intros c Hc. eapply present_children; [apply Ha|done]. }
  intros o5 Hok5 He5 Hp. rewrite <- Hs in *.
  apply finish_subtract; [by eapply good_extends|by eapply good_extends|done].
Qed.

(** * Intersection *)

Lemma entries_ninsert c (cs : list child) :
  insert_in_order (entries cs) (child_entry_of c) = entries (ninsert c cs).
Proof. by apply insert_sorted_fmap. Qed.

(** The loop of [intersect_entries] on entries. *)
Definition insert_picked_entry (ca : list child) (out : list entry) (d : child) : list entry :=
  match meet_pick ca d with
  | Some c => insert_in_order out (child_entry_of c)
  | None => out
  end.

Lemma entries_picked (ca cb out : list child) :
  foldl (insert_picked_entry ca) (entries out) cb = entries (foldl (insert_picked ca) out cb).
Proof.
  revert out. induction cb as [|d cb IH]; intros out; simpl; [done|].
  unfold insert_picked_entry at 2, insert_picked at 2.
  destruct (meet_pick ca d); [|apply IH]. rewrite entries_ninsert. apply IH.
Qed.

Lemma intersect_entries_yields rec o (ca cb : list child) :
  rec_ok nintersect rec o ca -> good o (Node ca) -> good o (Node cb) ->
  yields o (intersect_entries rec (entries ca) (entries cb))
    (foldl (insert_picked_entry ca) [] cb)
    (fun o' => forall d, d ∈ cb -> forall c, nfind (child_name d) ca = Some c ->
       present o' (nintersect (child_node c) (child_node d))).
Proof.
  intros Hrec Ha Hb. unfold intersect_entries. apply yields_foldM.
  { intros d o1 o2 He Hq c Hc. eapply present_extends; [done|]. by apply Hq. }
  intros d out o' Hd Hok He. simpl. rewrite lookup_entries by (by apply wf_nodup, Ha).
  unfold insert_picked_entry, meet_pick.
  destruct (nfind (child_name d) ca) as [c|] eqn:E; simpl.
  2: { apply yields_ret. done. }
  eapply yields_bind.
  { apply Hrec; [done|done|by apply nfind_Some in E as [? _]|].
    eapply good_extends; [done|]. by eapply good_child. }
  intros o2 Hok2 He2 Hp.
  assert (node_oid (nintersect (child_node c) (child_node d)) ≠ zero_oid) as Hz
    by (by eapply node_oid_not_zero).
  pose proof (node_oid_empty o2 _ Hok2 Hp) as Hem.
  destruct (decide (nintersect (child_node c) (child_node d) = nempty)) as [Hn|Hn].
  - rewrite decide_False by tauto. apply yields_ret. intros o3 _ He3 c' [= <-].
    by eapply present_extends.
  - rewrite decide_True by tauto. apply yields_ret. intros o3 _ He3 c' [= <-].
    by eapply present_extends.
Qed.

Lemma insert_intersect_ok t a b :
  tx_ok t -> good (tx_odb t) a -> good (tx_odb t) b -> present (tx_odb t) (nintersect a b) ->
  tx_ok (insert_intersect (node_oid a, node_oid b) (node_oid (nintersect a b)) t).
Proof. intros [] Ha Hb Hr. split; simpl; try done. by apply memo_ok_insert. Qed.

Lemma intersect_yields n o a b :
  height a <= n -> good o a -> good o b ->
  yields o (intersect n (node_oid a) (node_oid b)) (node_oid (nintersect a b))
    (fun o' => present o' (nintersect a b)).
Proof.
  revert o a b. induction n as [|n IH]; intros o a b Hn Ha Hb.
  { pose proof (height_pos a). lia. }
  apply yields_start. intros o0 Hok0 He0.
  eapply good_extends in Ha; [|exact He0]. eapply good_extends in Hb; [|exact He0]. clear He0 o.
  cbn [intersect]. destruct (decide (node_oid a = node_oid b)) as [E|Hne].
  { apply (node_oid_inj o0) in E as <-; [|apply Ha|apply Hb]. rewrite nintersect_same.
    apply yields_ret. intros o' Hok He. eapply present_extends; [done|apply Ha]. }
  pose proof (node_oid_empty o0 a Hok0 (proj2 Ha)) as Hea.
  pose proof (node_oid_empty o0 b Hok0 (proj2 Hb)) as Heb.
  destruct (decide (node_oid a = empty_id \/ node_oid b = empty_id)) as [E|Hnab].
  { assert (nintersect a b = nempty) as ->.
    { destruct E as [->%Hea | ->%Heb]; [apply nintersect_empty_l|apply nintersect_empty_r]. }
    apply yields_ret. intros o' Hok _. by apply present_nempty. }
  apply yields_gets. intros t Ht He.
  eapply good_extends in Ha; [|exact He]. eapply good_extends in Hb; [|exact He].
  clear He. set (o1 := tx_odb t) in *.
  destruct (intersect_map t !! (node_oid a, node_oid b)) as [z|] eqn:Ez.
  { eapply memo_ok_lookup in Ez as [-> Hp]; [|apply Ht|done|done].
    apply yields_ret. intros o' _ He. by eapply present_extends. }
  clear Ez. assert (odb_ok o1) as Hok1 by apply Ht. clearbody o1. clear t Ht.
  eapply yields_bind; [by apply read_tree_bytes_yields, Ha|]. intros o2 Hok2 He2 _.
  eapply good_extends in Ha; [|exact He2]. eapply good_extends in Hb; [|exact He2].
  eapply yields_bind; [by apply read_tree_bytes_yields, Hb|]. intros o3 Hok3 He3 _.
  eapply good_extends in Ha; [|exact He3]. eapply good_extends in Hb; [|exact He3].
  eapply (yields_bind _ _ _ (node_oid (nintersect a b)) _
    (fun o' => present o' (nintersect a b))).
  2: { intros o4 Hok4 He4 Hp. apply finish_memo; [|done]. intros t Ht He. split; [|done].
    eapply good_extends in Ha; [|exact He4]. eapply good_extends in Hb; [|exact He4].
    apply insert_intersect_ok; [done|by eapply good_extends..|by eapply present_extends]. }
  destruct (is_node a && is_node b) eqn:Hk.
  2: { rewrite nintersect_mixed by tauto.
    assert (yields o3 (mret (node_oid a)) (node_oid a) (fun o' => present o' a)) as Hy.
    { apply yields_ret. intros o' _ He. eapply present_extends; [done|apply Ha]. }
    by destruct a, b. }
  destruct a as [|ca], b as [|cb]; try done. cbn [node_entries].
  assert (nintersect (Node ca) (Node cb) = Node (omap (meet_child nintersect false cb) ca)) as Hs.
  { rewrite nintersect_Node. by rewrite !decide_False by (tauto || congruence). }
  assert (wf_node (Node (omap (meet_child nintersect false cb) ca))) as Hw.
  { rewrite <- Hs. apply nintersect_wf; [apply Ha|apply Hb]. }
  eapply yields_bind.
  { apply (intersect_entries_yields (intersect n)); [|done|done]. intros o' c d Hok He Hc Hd.
    apply IH; [|eapply good_extends; [done|exact (good_child _ _ _ Ha Hc)]|done].
    apply height_child in Hc. lia. }
  intros o4 Hok4 He4 Hpr. eapply good_extends in Ha; [|exact He4].
  eapply good_extends in Hb; [|exact He4].
  change (@nil entry) with (entries (@nil child)). rewrite entries_picked.
  rewrite picked_omap by (apply Ha || apply Hb). rewrite Hs.
  apply write_tree_now_yields; [by apply wf_node_Node in Hw as [? _]|].
  intros c' Hc'. eapply meet_present; [..|exact Hc']; [|done|by apply wf_nodup, Ha].
  intros c Hc. eapply present_children; [apply Ha|done].
Qed.

(** * Overlay *)

Definition over_acc (ca : list child) (acc : gmap string oid * list entry) (d : child) :
    gmap string oid * list entry :=
  match nfind (child_name d) ca with
  | Some c =>
      (<[child_name d := node_oid (noverlay (child_node c) (child_node d))]> acc.1, acc.2)
  | None => (acc.1, acc.2 ++ [child_entry_of d])
  end.

Lemma over_acc_new (ca cb : list child) acc :
  (foldl (over_acc ca) acc cb).2 = acc.2 ++ entries (new_children ca cb).
Proof.
  revert acc. induction cb as [|d cb IH]; intros acc; simpl; [by rewrite app_nil_r|].
  rewrite IH. unfold new_children. rewrite filter_cons. unfold over_acc.
  destruct (nfind (child_name d) ca); [by rewrite decide_False|].
  rewrite decide_True by done. simpl. by rewrite <- app_assoc.
Qed.

Lemma over_acc_mods (ca cb : list child) acc s :
  NoDup (names cb) ->
  (foldl (over_acc ca) acc cb).1 !! s =
    match nfind s cb, nfind s ca with
    | Some d, Some c => Some (node_oid (noverlay (child_node c) (child_node d)))
    | _, _ => acc.1 !! s
    end.
Proof.
  revert acc. induction cb as [|d cb IH]; intros acc Hn; simpl; [done|].
  apply NoDup_cons in Hn as [Hd Hn]. rewrite IH by done.
  unfold over_acc. clear IH. destruct (decide (child_name d = s)) as [<-|Hne].
  - rewrite (proj2 (nfind_None (child_name d) cb) Hd).
    destruct (nfind (child_name d) ca); [|done]. simpl. by rewrite lookup_insert_eq.
  - destruct (nfind s cb), (nfind s ca); try done;
      (destruct (nfind (child_name d) ca); simpl; [by rewrite lookup_insert_ne|done]).
Qed.

Lemma entries_foldl_ninsert (l out : list child) :
  foldl insert_in_order (entries out) (entries l) =
    entries (foldl (fun out d => ninsert d out) out l).
Proof.
  revert out. induction l as [|d l IH]; intros out; [done|]. rewrite fmap_cons.
  cbn [foldl]. rewrite entries_ninsert. apply IH.
Qed.

Lemma overlay_apply_spec mods (ca cb : list child) :
  (forall c, c ∈ ca -> mods !! child_name c =
     d ← nfind (child_name c) cb; Some (node_oid (noverlay (child_node c) (child_node d)))) ->
  overlay_apply mods (entries (new_children ca cb)) (entries ca) =
    entries (foldl (add_new ca) (over_child cb <$> ca) cb).
Proof.
  intros Hm. unfold overlay_apply. rewrite add_new_filter, <- entries_foldl_ninsert. f_equal.
  rewrite <- !list_fmap_compose. apply list_fmap_ext. intros i c Hc%list_elem_of_lookup_2.
  simpl. rewrite (Hm c Hc). unfold over_child. change c.1.2 with (child_name c).
  by destruct (nfind (child_name c) cb).
Qed.

Lemma overlay_mods_yields rec o (ca cb : list child) :
  rec_ok noverlay rec o ca -> good o (Node ca) -> good o (Node cb) ->
  yields o (overlay_mods rec (entries ca) (entries cb)) (foldl (over_acc ca) (∅, []) cb)
    (fun o' => forall d, d ∈ cb -> forall c, nfind (child_name d) ca = Some c ->
       present o' (noverlay (child_node c) (child_node d))).
Proof.
  intros Hrec Ha Hb. unfold overlay_mods. apply yields_foldM.
  { intros d o1 o2 He Hq c Hc. eapply present_extends; [done|]. by apply Hq. }
  intros d [mods new] o' Hd Hok He. simpl. rewrite lookup_entries by (by apply wf_nodup, Ha).
  unfold over_acc. destruct (nfind (child_name d) ca) as [c|] eqn:E; simpl.
  2: { apply yields_ret. done. }
  eapply yields_bind.
  { apply Hrec; [done|done|by apply nfind_Some in E as [? _]|].
    eapply good_extends; [done|]. by eapply good_child. }
  intros o2 Hok2 He2 Hp. apply yields_ret. intros o3 _ He3 c' [= <-]. by eapply present_extends.
Qed.

Lemma over_present o (ca cb : list child) c' :
  (forall c, c ∈ ca -> present o (child_node c)) ->
  (forall c, c ∈ cb -> present o (child_node c)) ->
  (forall d, d ∈ cb -> forall c, nfind (child_name d) ca = Some c ->
     present o (noverlay (child_node c) (child_node d))) ->
  NoDup (names ca) ->
  c' ∈ foldl (add_new ca) (over_child cb <$> ca) cb -> present o (child_node c').
Proof.
  intros Hca Hcb Hop Hn [Hc|[Hc _]]%elem_of_add_new; [|by apply Hcb].
  apply list_elem_of_fmap in Hc as (c & -> & Hc). unfold over_child.
  change c.1.2 with (child_name c).
  destruct (nfind (child_name c) cb) as [d|] eqn:Ed; [|by apply Hca].
  apply nfind_Some in Ed as [Hd En]. apply (Hop d Hd c). rewrite En. by apply nfind_elem.
Qed.

Lemma insert_overlay_ok t a b :
  tx_ok t -> good (tx_odb t) a -> good (tx_odb t) b -> present (tx_odb t) (noverlay a b) ->
  tx_ok (insert_overlay (node_oid a, node_oid b) (node_oid (noverlay a b)) t).
Proof. intros [] Ha Hb Hr. split; simpl; try done. by apply memo_ok_insert. Qed.

Lemma overlay_yields n o a b :
  height a <= n -> good o a -> good o b ->
  yields o (overlay n (node_oid a) (node_oid b)) (node_oid (noverlay a b))
    (fun o' => present o' (noverlay a b)).
Proof.
  revert o a b. induction n as [|n IH]; intros o a b Hn Ha Hb.
  { pose proof (height_pos a). lia. }
  cbn [overlay]. apply yields_gets. intros t Ht He.
  eapply good_extends in Ha; [|exact He]. eapply good_extends in Hb; [|exact He].
  clear He. set (o1 := tx_odb t) in *.
  destruct (overlay_map t !! (node_oid a, node_oid b)) as [z|] eqn:Ez.
  { eapply memo_ok_lookup in Ez as [-> Hp]; [|apply Ht|done|done].
    apply yields_ret. intros o' _ He. by eapply present_extends. }
  clear Ez. assert (odb_ok o1) as Hok1 by apply Ht. clearbody o1. clear t Ht.
  assert (forall n, good o1 n -> yields o1 (mret (node_oid n)) (node_oid n)
    (fun o' => present o' n)) as Hret.
  { intros x Hx. apply yields_ret. intros o' _ He. eapply present_extends; [done|apply Hx]. }
  destruct (decide (node_oid a = node_oid b)) as [E|Hne].
  { apply (node_oid_inj o1) in E as <-; [|apply Ha|apply Hb]. rewrite noverlay_same. auto. }
  destruct (decide (node_oid a = empty_id)) as [E|Hna].
  { apply (node_oid_empty o1) in E as ->; [|done|apply Ha]. rewrite noverlay_empty_l. auto. }
  destruct (decide (node_oid b = empty_id)) as [E|Hnb].
  { apply (node_oid_empty o1) in E as ->; [|done|apply Hb]. rewrite noverlay_empty_r. auto. }
  rewrite (node_oid_empty o1) in Hna, Hnb by (done || apply Ha || apply Hb). clear Hret.
  eapply yields_bind; [by apply read_tree_bytes_yields, Ha|]. intros o2 Hok2 He2 _.
  eapply good_extends in Ha; [|exact He2]. eapply good_extends in Hb; [|exact He2].
  eapply yields_bind; [by apply read_tree_bytes_yields, Hb|]. intros o3 Hok3 He3 _.
  eapply good_extends in Ha; [|exact He3]. eapply good_extends in Hb; [|exact He3].
  destruct (is_node a && is_node b) eqn:Hk.
  2: { rewrite noverlay_mixed by done.
    assert (yields o3 (mret (node_oid a)) (node_oid a) (fun o' => present o' a)) as Hy.
    { apply yields_ret. intros o' _ He. eapply present_extends; [done|apply Ha]. }
    by destruct a, b. }
  destruct a as [|ca], b as [|cb]; try done. cbn [node_entries].
  eapply yields_bind.
  { apply (overlay_mods_yields (overlay n)); [|done|done]. intros o' c d Hok He Hc Hd.
    apply IH; [|eapply good_extends; [done|exact (good_child _ _ _ Ha Hc)]|done].
    apply height_child in Hc. lia. }
  intros o4 Hok4 He4 Hpr. eapply good_extends in Ha; [|exact He4].
  eapply good_extends in Hb; [|exact He4].
  assert (noverlay (Node ca) (Node cb) =
    Node (foldl (add_new ca) (over_child cb <$> ca) cb)) as Hs.
  { rewrite noverlay_Node. by rewrite !decide_False by congruence. }
  assert (wf_node (Node (foldl (add_new ca) (over_child cb <$> ca) cb))) as Hw.
  { rewrite <- Hs. apply noverlay_wf; [apply Ha|apply Hb]. }
  pose proof (over_acc_new ca cb (∅, [])) as Hnew.
  pose proof (fun s => over_acc_mods ca cb (∅, []) s (wf_nodup _ (proj1 Hb))) as Hmods.
  destruct (foldl (over_acc ca) (∅, []) cb) as [mods new]. simpl in Hnew, Hmods. subst new.
  rewrite overlay_apply_spec.
  2: { intros c Hc. rewrite Hmods, (nfind_elem ca c) by (try done; apply wf_nodup, Ha).
    destruct (nfind (child_name c) cb); [done|]. apply lookup_empty. }
  eapply yields_bind.
  { apply write_tree_now_yields; [by apply wf_node_Node in Hw as [? _]|].
    intros c' Hc'. eapply over_present; [..|exact Hc']; [| |done|by apply wf_nodup, Ha].
    - intros c Hc. eapply present_children; [apply Ha|done].
    - intros c Hc. eapply present_children; [apply Hb|done]. }
  intros o5 Hok5 He5 Hp. rewrite <- Hs in *. apply finish_memo; [|done].
  intros t Ht He. split; [|done].
  eapply good_extends in Ha; [|exact He5]. eapply good_extends in Hb; [|exact He5].
  apply insert_overlay_ok; [done|by eapply good_extends..|by eapply present_extends].
Qed.

End Refine.

(** The entries of a tree, for the clients of the refinement. *)
Abbreviation entries cs := (child_entry_of <$> cs).
