(* ===== verification/Concrete.v ===== *)
(** Instances of the interfaces to third-party code, and repositories with given
    objects: the assumptions of the development can hold, and its definitions
    can be evaluated. *)

From S2P Require Import Prelude Path Ops Objects Store Utf8 Pattern TreeOps.
From S2P Require Import TreePaths Node NodeFacts Refine.

(** * An address for every object *)

(** A number in binary, the lowest digit first, with an end mark. *)
Fixpoint pos_string (p : positive) (r : string) : string :=
  match p with
  | xH => String "h" r
  | xO p => String "o" (pos_string p r)
  | xI p => String "i" (pos_string p r)
  end.

Fixpoint read_pos (s : string) : option (positive * string) :=
  match s with
  | String "h" r => Some (xH, r)
  | String "o" s => '(p, r) ← read_pos s; Some (xO p, r)
  | String "i" s => '(p, r) ← read_pos s; Some (xI p, r)
  | _ => None
  end.

Lemma read_pos_string p r : read_pos (pos_string p r) = Some (p, r).
Proof. induction p as [p IH|p IH|]; simpl; [by rewrite IH..|done]. Qed.

Fixpoint split_bytes (n : nat) (s : string) : string * string :=
  match n, s with
  | S n, String c s => let '(a, b) := split_bytes n s in (String c a, b)
  | _, _ => (EmptyString, s)
  end.

Lemma split_bytes_app s r : split_bytes (String.length s) (s +:+ r) = (s, r).
Proof. induction s as [|c s IH]; simpl; [by destruct r|]. by rewrite IH. Qed.

(** Sequences of strings as one string: every field after its length. *)
Definition field (s r : string) : string :=
  pos_string (Pos.of_succ_nat (String.length s)) (s +:+ r).

Definition read_field (s : string) : option (string * string) :=
  '(p, r) ← read_pos s; Some (split_bytes (pred (Pos.to_nat p)) r).

Lemma read_field_field s r : read_field (field s r) = Some (s, r).
Proof.
  unfold read_field, field. rewrite read_pos_string. simpl.
  rewrite SuccNat2Pos.id_succ. simpl. by rewrite split_bytes_app.
Qed.

Fixpoint fields (l : list string) : string :=
  match l with
  | [] => EmptyString
  | s :: l => field s (fields l)
  end.

Lemma field_not_empty s r : field s r ≠ EmptyString.
Proof. unfold field. by destruct (Pos.of_succ_nat _). Qed.

#[export] Instance fields_inj : Inj (=) (=) fields.
Proof.
  intros l. induction l as [|s l IH]; intros [|s' l'] E; simpl in E; [done|..].
  - symmetry in E. by apply field_not_empty in E.
  - by apply field_not_empty in E.
  - apply (f_equal read_field) in E. rewrite !read_field_field in E.
    injection E as -> E. by rewrite (IH l' E).
Qed.

Definition entry_code (e : entry) : string :=
  fields [match mode_kind (mode e) with KTree => "t" | KBlob => "b" | KBlobExecutable => "x"
                                      | KLink => "l" | KCommit => "c" end;
          mode_text (mode e); filename e; entry_oid e].

#[export] Instance entry_code_inj : Inj (=) (=) entry_code.
Proof.
  intros [[k x] s id] [[k' x'] s' id'] E%fields_inj. simpl in E. injection E as Ek -> -> ->.
  by destruct k, k'.
Qed.

Definition pair_code (p : string * string) : string := fields [p.1; p.2].

#[export] Instance pair_code_inj : Inj (=) (=) pair_code.
Proof. intros [] [] E%fields_inj. by injection E as -> ->. Qed.

Definition object_code (o : object) : string :=
  fields match o with
  | OBlob d => ["b"; d]
  | OTree l => "t" :: (entry_code <$> l)
  | OCommit (Commit t p a k e m x) =>
      ["c"; t; fields p; a; k; fields (option_list e); m; fields (pair_code <$> x)]
  | OTag d => ["g"; d]
  end.

#[export] Instance object_code_inj : Inj (=) (=) object_code.
Proof.
  intros o o' E%fields_inj. destruct o as [d|l|[t p a k e m x]|d], o' as [d'|l'|[t' p' a' k' e' m' x']|d'];
    try done; try (by injection E as ->).
  - injection E as E%(inj (fmap entry_code)). by subst.
  - injection E as -> Ep%fields_inj -> -> Ee%fields_inj -> Ex%fields_inj%(inj (fmap pair_code)).
    subst. f_equal. f_equal. by destruct e, e'; simplify_eq/=.
Qed.

Lemma object_code_not_zero o : object_code o ≠ zero_oid.
Proof. by destruct o as [| |[]|]. Qed.

#[export] Instance code_hash : ObjectHash := {|
  compute_hash := object_code;
  compute_hash_inj := _;
  compute_hash_not_zero := object_code_not_zero;
|}.

(** ** Addresses of twenty bytes for some objects *)

Definition starts_with_digit (s : string) : bool :=
  match s with
  | String c _ => bool_decide (48 <= nat_of_ascii c <= 57) || bool_decide (97 <= nat_of_ascii c <= 102)
  | EmptyString => false
  end.

Lemma code_no_digit o : starts_with_digit (object_code o) = false.
Proof.
  assert (forall s r, starts_with_digit (field s r) = false) as Hf.
  { intros s r. unfold field. by destruct (Pos.of_succ_nat _). }
  destruct o as [| |[]|]; apply Hf.
Qed.

Section Named.
Context (names : list (object * oid)).

Definition name_of (o : object) : option oid := snd <$> List.find (fun p => bool_decide (p.1 = o)) names.

(** The name of an object, or its code. *)
Definition named (o : object) : oid := default (object_code o) (name_of o).

Definition naming_ok : bool :=
  bool_decide (NoDup names.*2) &&
  forallb (fun p => starts_with_digit p.2 && bool_decide (p.2 ≠ zero_oid)) names.

Hypothesis Hok : naming_ok = true.

Lemma name_of_in o id : name_of o = Some id -> (o, id) ∈ names.
Proof.
  unfold name_of. destruct (List.find _ names) as [[o' id']|] eqn:E; [|done]. intros [= <-].
  apply find_some in E as [Hin Eo]. apply bool_decide_eq_true in Eo. simpl in Eo. subst o'.
  by apply list_elem_of_In.
Qed.

Lemma naming_fits o id : name_of o = Some id -> starts_with_digit id = true /\ id ≠ zero_oid.
Proof.
  intros Hn%name_of_in. apply andb_true_iff in Hok as [_ Hall]. rewrite forallb_forall in Hall.
  specialize (Hall (o, id) (proj1 (list_elem_of_In _ _) Hn)).
  apply andb_true_iff in Hall as [? Hz%bool_decide_eq_true]. done.
Qed.

Lemma named_inj : Inj (=) (=) named.
Proof.
  intros o o'. unfold named. destruct (name_of o) as [i|] eqn:E, (name_of o') as [j|] eqn:E'; simpl; intros Eq.
  - subst j. apply name_of_in in E, E'. apply andb_true_iff in Hok as [Hnd%bool_decide_eq_true _].
    apply list_elem_of_lookup in E as [a Ea], E' as [b Eb].
    assert (a = b) as ->; [|congruence]. apply (NoDup_lookup names.*2 a b i); [done|..];
      rewrite list_lookup_fmap; [by rewrite Ea|by rewrite Eb].
  - apply naming_fits in E as [E _]. rewrite Eq in E. by rewrite code_no_digit in E.
  - apply naming_fits in E' as [E' _]. rewrite <- Eq in E'. by rewrite code_no_digit in E'.
  - by apply object_code_inj.
Qed.

Lemma named_not_zero o : named o ≠ zero_oid.
Proof.
  unfold named. destruct (name_of o) as [i|] eqn:E; simpl; [|apply object_code_not_zero].
  apply (naming_fits _ _ E).
Qed.

Definition named_hash : ObjectHash := {|
  compute_hash := named;
  compute_hash_inj := named_inj;
  compute_hash_not_zero := named_not_zero;
|}.

End Named.

#[export] Instance find_bisect : BisectEntry := {|
  bisect_entry l name t :=
    List.find (fun e => bool_decide (filename e = name) && Bool.eqb (is_tree (mode e)) t) l;
  bisect_entry_spec l name t _ := eq_refl;
|}.

#[export] Instance literal_modes : EntryModes := {|
  mode_try_from m :=
    match m with
    | 16384 => Some tree_mode
    | 33188 => Some blob_mode
    | 33261 => Some (EntryMode KBlobExecutable "100755")
    | 40960 => Some (EntryMode KLink "120000")
    | 57344 => Some commit_mode
    | _ => None
    end%Z;
  mode_try_from_tree := eq_refl;
  mode_try_from_blob := eq_refl;
  mode_try_from_commit := eq_refl;
|}.

(** Keys that all stand for the example pattern. *)
#[export] Instance example_glob_keys : GlobKeys := {|
  glob_meaning _ s a :=
    nfilter (fun p => walk_closed example_pattern s ((fun x => default [] (chars x)) <$> p)) a;
|}.

(** * Repositories *)

Section Repository.
Context `{ObjectHash} `{GlobKeys}.

(** A repository that stores the given objects. *)
Definition store_of (l : list object) : odb :=
  Odb ∅ (list_to_map ((fun x => (compute_hash x, x)) <$> l)) ∅.

(** A transaction with empty caches. *)
Definition fresh_tx (o : odb) : tx := Tx o (TreeCache ∅ 0 ∅) ∅ ∅ ∅ ∅ ∅ ∅ ∅.

Lemma store_of_ok l : odb_ok (store_of l).
Proof.
  split; [done|]. split; [|set_solver].
  intros id x Hx%elem_of_list_to_map_2. apply list_elem_of_fmap in Hx as (y & [= -> ->] & _).
  done.
Qed.

Lemma fresh_tx_ok o : odb_ok o -> tx_ok (fresh_tx o).
Proof. intros Ho. split; simpl; [done|..]; by intros ? **. Qed.

(** The objects of a tree, the leaves given with their contents. *)
Fixpoint tree_objects (n : node) : list object :=
  match n with
  | Leaf _ => []
  | Node cs => OTree (child_entry_of <$> cs) :: cs ≫= fun c => tree_objects c.2
  end.

End Repository.

(** * Two example trees *)

Definition example_blob (data : string) : node := Leaf (compute_hash (OBlob data)).
Definition file (name data : string) : child := (blob_mode, name, example_blob data).
Definition dir (name : string) (cs : list child) : child := (tree_mode, name, Node cs).

(** Both trees have a directory [a] and a file [x]; each has a file of its own. *)
Definition example_left : node :=
  Node [dir "a" [file "p" "1"; file "q" "2"]; file "l" "3"; file "x" "4"].
Definition example_right : node :=
  Node [dir "a" [file "q" "5"; file "r" "6"]; file "r" "7"; file "x" "8"].

Definition example_tx : tx :=
  fresh_tx (store_of ((OBlob <$> ["1"; "2"; "3"; "4"; "5"; "6"; "7"; "8"]) ++
    tree_objects example_left ++ tree_objects example_right)).

Lemma example_tx_ok : tx_ok example_tx.
Proof. apply fresh_tx_ok, store_of_ok. Qed.

(** Finds the objects of a concrete tree. *)
Ltac present_tree :=
  repeat first
    [ apply Forall_nil; exact I
    | apply Forall_cons; split
    | apply present_node; [vm_compute; reflexivity|]
    | eapply present_leaf; [vm_compute; reflexivity|done] ].

Lemma example_left_good : good (tx_odb example_tx) example_left.
Proof.
  split; [|present_tree]. simpl. repeat (split || constructor || done || set_solver).
Qed.

Lemma example_right_good : good (tx_odb example_tx) example_right.
Proof.
  split; [|present_tree]. simpl. repeat (split || constructor || done || set_solver).
Qed.
