(* ===== verification/PersistRound.v ===== *)
(** The round trip of persisted filters: a filter that is persisted is read back as
    itself, and filters with the same id are the same filter. *)

From S2P Require Import Prelude Path Objects Store Utf8 Pattern OptState Step.
From S2P Require Import Persist PersistFacts PersistReads Concrete Ops.

Open Scope nat_scope.

(** * Properties of all sub-filters *)

Inductive everywhere (Q : Op.t -> Prop) : filter -> Prop :=
| everywhere_intro op : Q op -> Forall (everywhere Q) (children op) -> everywhere Q op.

Lemma everywhere_inv Q op : everywhere Q op -> Q op /\ Forall (everywhere Q) (children op).
Proof. by inversion 1. Qed.

(** * Reading in another store *)

Section Transport.
Context `{Readers} (find find' : oid -> option object) (D : oid -> Prop).

(** On the ids in [D] the second store has what the first has, and entries stay in
    [D]. *)
Hypothesis Hsame : forall id x, D id -> find id = Some x ->
  find' id = Some x /\ match x with OTree l => Forall (fun e => D (entry_oid e)) l | _ => True end.

(** Whatever the first computation yields, the second yields. *)
Definition keeps {A} (r r' : res A) : Prop := forall a, r = Ok a -> r' = Ok a.

Lemma keeps_refl {A} (r : res A) : keeps r r.
Proof. by intros a. Qed.

Lemma keeps_bind {A B} (Q : A -> Prop) (r r' : res A) (k k' : A -> res B) :
  (forall a, r = Ok a -> r' = Ok a /\ Q a) -> (forall a, Q a -> keeps (k a) (k' a)) ->
  keeps (r ≫= k) (r' ≫= k').
Proof.
  intros Hr Hk b. destruct r as [a|e|]; simpl; try done.
  destruct (Hr a eq_refl) as [-> HQ]. simpl. by apply Hk.
Qed.

Lemma keeps_bind_any {A B} (r r' : res A) (k k' : A -> res B) :
  keeps r r' -> (forall a, keeps (k a) (k' a)) -> keeps (r ≫= k) (r' ≫= k').
Proof.
  intros Hr Hk. apply (keeps_bind (fun _ => True)); [|by auto]. intros a Ha. by split; [apply Hr|].
Qed.

Definition inside (l : list entry) : Prop := Forall (fun e => D (entry_oid e)) l.

Lemma keeps_read_persisted {B} id (k k' : list entry -> res B) :
  D id -> (forall l, inside l -> keeps (k l) (k' l)) ->
  keeps (read_persisted find id ≫= k) (read_persisted find' id ≫= k').
Proof.
  intros Hd Hk. apply (keeps_bind inside); [|done]. intros l. unfold read_persisted.
  destruct (find id) as [x|] eqn:E; [|done]. destruct (Hsame id x Hd E) as [-> HD].
  destruct x; try done. by intros [= ->].
Qed.

Lemma keeps_read_blob id : D id -> keeps (read_blob find id) (read_blob find' id).
Proof.
  intros Hd d. unfold read_blob. destruct (find id) as [x|] eqn:E; [|done].
  by destruct (Hsame id x Hd E) as [-> _].
Qed.

Lemma keeps_need_name {B} l name what (k k' : entry -> res B) :
  inside l -> (forall e, D (entry_oid e) -> keeps (k e) (k' e)) ->
  keeps (need_name l name what ≫= k) (need_name l name what ≫= k').
Proof.
  intros Hl Hk. apply (keeps_bind (fun e => D (entry_oid e))); [|done]. intros e He.
  split; [done|]. unfold need_name in He. destruct (find_entry name l) as [e'|] eqn:E; [|done].
  simplify_eq. apply find_entry_Some in E as [Hin _]. unfold inside in Hl.
  rewrite Forall_forall in Hl. by apply Hl.
Qed.

Lemma keeps_need_index {B} l i what (k k' : entry -> res B) :
  inside l -> (forall e, D (entry_oid e) -> keeps (k e) (k' e)) ->
  keeps (need_index l i what ≫= k) (need_index l i what ≫= k').
Proof.
  intros Hl Hk. apply (keeps_bind (fun e => D (entry_oid e))); [|done]. intros e He.
  split; [done|]. unfold need_index in He. destruct (l !! i) as [e'|] eqn:E; [|done].
  simplify_eq. unfold inside in Hl. rewrite Forall_lookup in Hl. by eapply Hl.
Qed.

Lemma keeps_named_blob l name what :
  inside l -> keeps (named_blob find l name what) (named_blob find' l name what).
Proof. intros Hl. apply keeps_need_name; [done|]. intros e. apply keeps_read_blob. Qed.

Lemma keeps_collect {A B} (f f' : A -> res B) (l : list A) :
  (forall x, x ∈ l -> keeps (f x) (f' x)) ->
  keeps (collect_res (f <$> l)) (collect_res (f' <$> l)).
Proof.
  induction l as [|x l IH]; intros Hf; [apply keeps_refl|]. rewrite !fmap_cons. cbn [collect_res].
  apply keeps_bind_any; [apply Hf; left|]. intros a. apply keeps_bind_any; [|intros; apply keeps_refl].
  apply IH. intros y Hy. apply Hf. by right.
Qed.

Lemma inside_elem l e : inside l -> e ∈ l -> D (entry_oid e).
Proof. unfold inside. rewrite Forall_forall. auto. Qed.

Context (rec rec' : oid -> res Op.t).
Hypothesis Hrec : forall id, D id -> keeps (rec id) (rec' id).

Ltac keep := repeat first
  [ match goal with Hl : inside ?l, He : ?e ∈ ?l |- _ =>
      pose proof (inside_elem l e Hl He); clear He
    end
  | apply keeps_refl
  | apply keeps_read_persisted; [assumption|intros ? ?]
  | apply keeps_need_name; [assumption|intros ? ?]
  | apply keeps_need_index; [assumption|intros ? ?]
  | apply keeps_named_blob; assumption
  | apply keeps_read_blob; assumption
  | apply keeps_collect; intros ? ?
  | apply Hrec; assumption
  | apply keeps_bind_any; [|intros ?]
  | match goal with
    | |- keeps (match ?x with _ => _ end) _ => destruct x
    | |- keeps _ _ => assumption
    end ].

Lemma keeps_read_filter id :
  D id -> keeps (read_filter find rec id) (read_filter find' rec' id).
Proof. intros Hd. unfold read_filter. keep. Qed.

Lemma keeps_read_text id what : D id -> keeps (read_text find id what) (read_text find' id what).
Proof. intros Hd. unfold read_text. keep. Qed.

Lemma keeps_read_texts id what : D id -> keeps (read_texts find id what) (read_texts find' id what).
Proof. intros Hd. unfold read_texts. keep. Qed.

Lemma keeps_read_path_filter id what op :
  D id -> keeps (read_path_filter find rec id what op) (read_path_filter find' rec' id what op).
Proof. intros Hd. unfold read_path_filter, read_filter. keep. Qed.

Lemma keeps_read_meta id : D id -> keeps (read_meta find rec id) (read_meta find' rec' id).
Proof.
  intros Hd. unfold read_meta. apply keeps_read_persisted; [done|]. intros l Hl. keep.
  generalize (@nil (string * string)). induction Hl as [|x l Hx Hl IH]; intros m; cbn [foldr]; keep;
    apply IH.
Qed.

Lemma keeps_read_entry e :
  D (entry_oid e) -> keeps (read_entry find rec e) (read_entry find' rec' e).
Proof.
  intros Hd. unfold read_entry. cbv zeta. apply keeps_bind_any; [apply keeps_refl|]. intros name.
  unfold read_unit, read_prune, read_path_op, read_link, read_message, read_pattern, read_insert,
    read_regex_replace, read_one_filter, read_subtract, read_compose, read_chain, read_rev,
    read_unapply, read_squash, read_keyed, read_ref_filter.
  repeat match goal with |- keeps (if ?b then _ else _) _ => destruct b end;
    try (by apply keeps_read_meta); try (by apply keeps_read_path_filter);
    repeat first [apply keeps_bind_any; [by apply keeps_read_text|intros ?]
                 |apply keeps_bind_any; [by apply keeps_read_texts|intros [? ?]]]; keep;
    by apply keeps_read_filter.
Qed.

End Transport.

(** What is read in one store is read in the other. *)
Lemma from_tree_transport `{Readers} (find find' : oid -> option object) (D : oid -> Prop) n id op :
  (forall id x, D id -> find id = Some x -> find' id = Some x /\
     match x with OTree l => Forall (fun e => D (entry_oid e)) l | _ => True end) ->
  D id -> from_tree find n id = Ok op -> from_tree find' n id = Ok op.
Proof.
  intros Hs. revert id op. induction n as [|n IH]; intros id op Hd; [done|]. cbn [from_tree].
  apply (keeps_read_persisted find find' D Hs); [done|]. intros [|e l] Hl; [by intros ?|].
  apply Forall_cons in Hl as [He _].
  apply (keeps_read_entry find find' D Hs); [|done]. intros i Hi o. by apply IH.
Qed.

Lemma from_tree_extends `{Readers} (find find' : oid -> option object) n id op :
  (forall id x, find id = Some x -> find' id = Some x) ->
  from_tree find n id = Ok op -> from_tree find' n id = Ok op.
Proof.
  intros Hs. apply (from_tree_transport find find' (fun _ => True)); [|done].
  intros i x _ Hx. split; [by apply Hs|]. destruct x; try done. by apply Forall_true.
Qed.

(** * The id of a filter depends on the ids of its sub-filters only *)

Section Same.
Context `{ObjectHash} (P1 P2 : list (filter * oid)).

(** Two computations with the same result, whatever is staged. *)
Definition same {A} (m1 m2 : bm A) : Prop :=
  forall b1 b2, persist_ids b1 = P1 -> persist_ids b2 = P2 ->
    (m1 b1).1 = (m2 b2).1 /\ persist_ids (m1 b1).2 = P1 /\ persist_ids (m2 b2).2 = P2.

Lemma same_ret {A} (a : A) : same (mret a) (mret a).
Proof. by intros b1 b2 H1 H2. Qed.

Lemma same_fail {A} e : same (A := A) (fail e) (fail e).
Proof. by intros b1 b2 H1 H2. Qed.

Lemma same_bind {A B} (m1 m2 : bm A) (k1 k2 : A -> bm B) :
  same m1 m2 -> (forall a, same (k1 a) (k2 a)) -> same (m1 ≫= k1) (m2 ≫= k2).
Proof.
  intros Hm Hk b1 b2 H1 H2. destruct (Hm b1 b2 H1 H2) as (E & E1 & E2).
  unfold mbind, M_bind. destruct (m1 b1) as [r1 c1], (m2 b2) as [r2 c2]. simpl in *. subst r2.
  destruct r1; [by apply Hk|done..].
Qed.

Lemma same_mapM {A B} (f1 f2 : A -> bm B) (l : list A) :
  (forall x, x ∈ l -> same (f1 x) (f2 x)) -> same (mapM f1 l) (mapM f2 l).
Proof.
  induction l as [|x l IH]; intros Hf; [apply same_ret|]. cbn [mapM].
  apply same_bind; [apply Hf; left|]. intros a. apply same_bind; [|intros; apply same_ret].
  apply IH. intros y Hy. apply Hf. by right.
Qed.

Lemma same_write_raw x : same (write_raw x) (write_raw x).
Proof. by intros b1 b2 H1 H2. Qed.

Lemma same_stage_blob d : same (stage_blob d) (stage_blob d).
Proof. destruct d; [apply same_ret|apply same_write_raw]. Qed.

Lemma same_stage_tree l : same (stage_tree l) (stage_tree l).
Proof. unfold stage_tree. destruct (existsb _ l); [apply same_fail|apply same_write_raw]. Qed.

Context (id1 id2 : filter -> res oid) (cid : filter -> oid).

Lemma same_persist_oid f :
  answers P1 id1 cid f -> answers P2 id2 cid f -> same (persist_oid id1 f) (persist_oid id2 f).
Proof. intros Ha1 Ha2 b1 b2 H1 H2. by rewrite Ha1, Ha2. Qed.

(** The operator whose tree depends on the repository. *)
Definition inserts_oid (op : Op.t) : bool :=
  match op with Op.Insert _ (InsertContent.Oid _) => true | _ => false end.

Ltac same_step := repeat first
  [ match goal with Hc : forall c, _ -> same _ _ |- same (persist_oid _ _) _ =>
      apply Hc; first [set_solver|apply list_elem_of_fmap; eexists; split; [reflexivity|eassumption]]
    end
  | apply same_ret | apply same_fail | apply same_stage_blob | apply same_stage_tree
  | apply same_bind; [|intros ?]
  | apply same_mapM; intros ? ? ].

Lemma op_entry_same src1 src2 op :
  src1 = src2 \/ inserts_oid op = false ->
  (forall c, c ∈ children op -> answers P1 id1 cid c /\ answers P2 id2 cid c) ->
  same (op_entry id1 src1 op) (op_entry id2 src2 op).
Proof.
  intros Hsrc Ha.
  assert (forall c, c ∈ children op -> same (persist_oid id1 c) (persist_oid id2 c)) as Hc.
  { intros c [? ?]%Ha. by apply same_persist_oid. }
  clear Ha. destruct op as [| | | | | | | | | |[m|]| | | | | | | | |p [s|x]| | | | | | | | | | | | | | | | | | |];
    cbn [op_entry children] in *;
    unfold str_op, filters_op, tree_op, blob_op, build_starlark_params, build_str_params,
      build_filter_params, build_rev_params, build_squash_params, build_lazyref_filter_params,
      build_regex_replace_params, build_keyed, build_meta; cbn [build_insert]; same_step.
  destruct Hsrc as [->|]; [|done]. unfold build_str_params.
  destruct src2 as [kind_of|]; [destruct (kind_of x) as [[]|]|]; same_step.
Qed.

Lemma build_op_same src1 src2 op :
  src1 = src2 \/ inserts_oid op = false ->
  (forall c, c ∈ children op -> answers P1 id1 cid c /\ answers P2 id2 cid c) ->
  same (build_op id1 src1 op) (build_op id2 src2 op).
Proof.
  intros Hs Ha. apply same_bind; [by apply op_entry_same|]. intros e. apply same_stage_tree.
Qed.

End Same.

(** * The tree of an operator *)

Section Ids.
Context `{ObjectHash} `{Readers}.

Lemma tree_op_name name m b e b' :
  tree_op name m b = (Ok e, b') -> filename e = name.
Proof. unfold tree_op, mbind, M_bind. destruct (m b) as [[id|?|] c]; by intros [= <- _]. Qed.

Lemma blob_op_name name d b e b' : blob_op name d b = (Ok e, b') -> filename e = name.
Proof. unfold blob_op, mbind, M_bind. destruct (stage_blob d b) as [[id|?|] c]; by intros [= <- _]. Qed.

Lemma op_entry_name id_of src op b e b' :
  op_entry id_of src op b = (Ok e, b') -> has_nul (filename e) = false.
Proof.
  destruct op; cbn [op_entry]; try destruct ids;
    first [by intros ->%blob_op_name | by intros ->%tree_op_name].
Qed.

Lemma build_op_encoded P id_of cid kind_of op :
  op_ok kind_of op -> Forall (answers P id_of cid) (children op) ->
  triple P (fun _ => True) (build_op id_of (Some kind_of) op) (encoded cid op).
Proof.
  intros Hok Ha b Hb HP _.
  destruct (op_entry_carried P id_of cid kind_of op Hok Ha b Hb HP I)
    as (e & b1 & E & Hb1 & HP1 & Hs1 & Hc).
  apply op_entry_name in E as Hn.
  destruct (stage_tree_frame P [e] (carried cid op e) ltac:(by repeat constructor)
    (carried_grows cid op e) b1 Hb1 HP1 Hc) as (id & b2 & E2 & Hb2 & HP2 & Hs2 & Ht & Hc2).
  exists id, b2. unfold build_op, mbind, M_bind. rewrite E. do 3 (split; [done|]).
  split; [by transitivity (pending b1)|]. by exists e.
Qed.

(** An id is computed for every operator that can be carried. *)
Lemma build_op_total P id_of cid kind_of op :
  op_ok kind_of op -> Forall (answers P id_of cid) (children op) ->
  triple P (fun _ => True) (build_op id_of None op) (fun _ _ => True).
Proof.
  intros Hok Ha. destruct (inserts_oid op) eqn:Hi.
  - destruct op as [| | | | | | | | | | | | | | | | | | |p [s|x]| | | | | | | | | | | | | | | | | | |]; try done.
    intros b Hb HP _.
    destruct (build_str_params_triple P [to_string p; "oid"; x] b Hb HP I)
      as (id & b1 & E & Hb1 & HP1 & Hs1 & _).
    destruct (stage_tree_triple P [tree_entry "insert" id] ltac:(by repeat constructor) b1 Hb1 HP1 I)
      as (id2 & b2 & E2 & Hb2 & HP2 & Hs2 & _).
    exists id2, b2. unfold build_op, mbind, M_bind. cbn [op_entry]. unfold tree_op, mbind, M_bind.
    cbn [build_insert]. rewrite E. cbn [mret M_ret]. do 3 (split; [done|]).
    split; [by transitivity (pending b1)|done].
  - replace (build_op id_of None op) with (build_op id_of (Some kind_of) op).
    + eapply triple_conseq; [by apply (build_op_encoded P id_of cid kind_of op)|done|done].
    + by destruct op as [| | | | | | | | | | | | | | | | | | |p [s|x]| | | | | | | | | | | | | | | | | | |].
Qed.

(** The id of a filter, which no fuel from its size on changes. *)
Definition ident (f : filter) : oid :=
  match filter_id (size f) f with Ok id => id | _ => EmptyString end.

Definition persistable (kind_of : oid -> option kind) : filter -> Prop :=
  everywhere (op_ok kind_of).

Lemma answers_ident n f : filter_id n f = Ok (ident f) -> answers [] (filter_id n) ident f.
Proof.
  intros Hf b Hb. unfold persist_oid, gets, mbind, M_bind. rewrite Hb. simpl.
  unfold lift. by rewrite Hf.
Qed.

Lemma filter_id_ident kind_of f n :
  persistable kind_of f -> size f <= n -> filter_id n f = Ok (ident f).
Proof.
  revert n. induction f as [f IH] using filter_ind. intros n [Hok Hc]%everywhere_inv Hn.
  rewrite Forall_forall in IH, Hc.
  assert (forall m c, size f <= S m -> c ∈ children f -> answers [] (filter_id m) ident c) as Ha.
  { intros m c Hm Hin. apply answers_ident, IH; [done|by apply Hc|].
    apply size_child in Hin. lia. }
  assert (forall m, size f <= S m -> filter_id (S m) f = Ok (ident f)) as Hm.
  { intros m Hm. destruct (size f) as [|k] eqn:Es; [by pose proof (size_pos f); lia|].
    unfold ident. rewrite Es. cbn [filter_id to_op].
    destruct (build_op_same [] [] (filter_id m) (filter_id k) ident None None f (or_introl eq_refl))
      with (b1 := new_builder) (b2 := new_builder) as [E _]; [|done|done|].
    { intros c Hin. split; apply Ha; (done || lia). }
    rewrite <- E. destruct (build_op_total [] (filter_id m) ident kind_of f Hok) with (b := new_builder)
      as (id & b' & Eb & _); [|apply new_builder_ok|done|done|by rewrite Eb].
    apply Forall_forall. intros c Hin. apply Ha; (done || lia). }
  destruct n as [|n]; [by pose proof (size_pos f); lia|]. by apply Hm.
Qed.

End Ids.

(** * Persisting *)

(** What can be reached from an id through the entries of trees. *)
Inductive reaches (find : oid -> option object) (id : oid) : oid -> Prop :=
| reaches_refl : reaches find id id
| reaches_entry i l e :
    reaches find id i -> find i = Some (OTree l) -> e ∈ l -> reaches find id (entry_oid e).

(** A repository that has a filter's tree has all of it. *)
Definition filters_whole `{ObjectHash} (out : odb) : Prop :=
  forall n f id, filter_id n f = Ok id -> odb_contains out id = true ->
  forall i, reaches (try_find out) id i -> is_Some (try_find out i).

Section Round.
Context `{ObjectHash} `{Readers} (out : odb).
Hypothesis Hout : odb_ok out.
Hypothesis Hwhole : filters_whole out.

Definition oid_free : filter -> Prop := everywhere (fun op => inserts_oid op = false).

(** [f] is read from the id, wherever the staged objects and the repository are. *)
Definition readable (f : filter) (id : oid) (st : store) : Prop :=
  forall find, found_in find st -> (forall i x, try_find out i = Some x -> find i = Some x) ->
  forall n, size f <= n ->
  from_tree find n id = Ok f /\ exists l, find id = Some (OTree l).

Lemma readable_grows f id : grows (readable f id).
Proof. intros st st' Hs Hr find Hf. apply Hr. by eapply found_in_sub. Qed.

Lemma encoded_readable cid op id st :
  encoded cid op id st -> (forall c, c ∈ children op -> readable c (cid c) st) ->
  readable op id st.
Proof.
  intros (e & Ht & Hc) Hch find Hf Ho n Hn. split; [|exists [e]; by apply Hf].
  destruct n as [|n]; [pose proof (size_pos op); lia|]. cbn [from_tree].
  rewrite (read_persisted_staged find st Hf id [e] Ht). simpl. apply Hc; [done|].
  apply Forall_forall. intros c Hin. apply Hch; try done. apply size_child in Hin. lia.
Qed.

(** What is cached can be read, and has the filter's id if nothing depends on the
    repository. *)
Definition good (b : builder) : Prop :=
  builder_ok b /\
  forall g i, find_persist_id g (persist_ids b) = Some i ->
    readable g i (pending b) /\ (oid_free g -> i = ident g).

Definition advance (b b' : builder) : Prop :=
  pending b ⊆ pending b' /\
  forall g i, find_persist_id g (persist_ids b) = Some i ->
    find_persist_id g (persist_ids b') = Some i.

Lemma advance_trans b1 b2 b3 : advance b1 b2 -> advance b2 b3 -> advance b1 b3.
Proof. intros [H1 H2] [H3 H4]. split; [by transitivity (pending b2)|auto]. Qed.

Definition persists (n : nat) (f : filter) : Prop :=
  forall b, good b -> exists id b', build_persist n out f b = (Ok id, b') /\ good b' /\
    advance b b' /\ find_persist_id f (persist_ids b') = Some id.

(** The loop over the sub-filters. *)
Lemma persist_children n cs d b :
  (forall c, c ∈ cs -> persists n c) -> (forall c, c ∈ cs -> filter_id (S n) c = Ok (ident c)) ->
  good b ->
  exists d' b',
    foldM (fun (dirty : bool) child =>
      child_oid ← build_persist n out child;
      child_id ← lift (filter_id (S n) child);
      mret (dirty || negb (bool_decide (child_oid = child_id)))) d cs b = (Ok d', b') /\
    good b' /\ advance b b' /\
    (forall c, c ∈ cs -> is_Some (find_persist_id c (persist_ids b'))) /\
    (d' = false -> d = false /\
       forall c, c ∈ cs -> find_persist_id c (persist_ids b') = Some (ident c)) /\
    (d = false -> Forall oid_free cs -> d' = false).
Proof.
  revert d b. induction cs as [|c cs IH]; intros d b Hp Hid Hb.
  { exists d, b. split; [done|]. split; [done|]. split; [by split|]. split; [set_solver|].
    split; [|done]. intros ->. split; [done|]. set_solver. }
  destruct (Hp c ltac:(left) b Hb) as (id & b1 & E1 & Hb1 & Hadv1 & Hf1).
  destruct (IH (d || negb (bool_decide (id = ident c))) b1) as (d' & b' & E & Hb' & Hadv & Hall & Hd & Hfree);
    [intros; apply Hp; by right|intros; apply Hid; by right|done|].
  exists d', b'. split.
  { match type of E with foldM ?g _ _ _ = _ => set (step := g) in * end.
    assert (step d c b = (Ok (d || negb (bool_decide (id = ident c))), b1)) as Es.
    { unfold step, mbind, M_bind. rewrite E1. unfold lift. by rewrite (Hid c) by left. }
    cbn [foldM]. unfold mbind, M_bind. by rewrite Es. }
  split; [done|]. split; [by eapply advance_trans|]. apply (proj2 Hadv) in Hf1 as Hf'. split; [|split].
  - intros x [->|Hx]%elem_of_cons; [by exists id|by apply Hall].
  - intros Hd'. destruct (Hd Hd') as [[-> Hi]%orb_false_elim Hrest]. split; [done|].
    apply negb_false_iff, bool_decide_eq_true in Hi. subst id.
    intros x [->|Hx]%elem_of_cons; [done|by apply Hrest].
  - intros -> [Hc Hcs]%Forall_cons. apply Hfree; [|done]. destruct Hb1 as [_ Hg1].
    destruct (Hg1 c id Hf1) as [_ ->]; [|done]. by rewrite bool_decide_eq_true_2.
Qed.

Lemma find_persist_id_cons g f id P :
  find_persist_id g ((f, id) :: P) = if decide (f = g) then Some id else find_persist_id g P.
Proof.
  unfold find_persist_id. cbn [List.find fst]. case_bool_decide as E; [by rewrite decide_True|].
  by rewrite decide_False.
Qed.

Lemma answers_cached P n cid f :
  find_persist_id f P = Some (cid f) -> answers P (filter_id n) cid f.
Proof.
  intros Hf b Hb. unfold persist_oid, gets, mbind, M_bind. rewrite Hb. simpl. by rewrite Hf.
Qed.

(** Staging the operator of a filter whose sub-filters are cached. *)
Lemma stage_node n f b cid :
  good b -> op_ok (try_kind out) f ->
  (forall c, c ∈ children f -> find_persist_id c (persist_ids b) = Some (cid c)) ->
  exists id b', build_op (filter_id n) (Some (try_kind out)) f b = (Ok id, b') /\
    builder_ok b' /\ persist_ids b' = persist_ids b /\ pending b ⊆ pending b' /\
    readable f id (pending b').
Proof.
  intros [Hb Hg] Hok Hc.
  destruct (build_op_encoded (persist_ids b) (filter_id n) cid (try_kind out) f Hok) with (b := b)
    as (id & b' & E & Hb' & HP & Hs & He); [|done|done|done|].
  { apply Forall_forall. intros c Hin. apply answers_cached. by apply Hc. }
  exists id, b'. do 4 (split; [done|]). eapply encoded_readable; [exact He|].
  intros c Hin. eapply readable_grows; [exact Hs|]. by apply Hg, Hc.
Qed.

(** With the sub-filters under their ids the operator has its id. *)
Lemma stage_node_id n f b id b' :
  persistable (try_kind out) f -> size f <= S n -> inserts_oid f = false ->
  (forall c, c ∈ children f -> find_persist_id c (persist_ids b) = Some (ident c)) ->
  build_op (filter_id (S n)) (Some (try_kind out)) f b = (Ok id, b') -> id = ident f.
Proof.
  intros Hp Hn Hi Hc E. apply everywhere_inv in Hp as Hp'. destruct Hp' as [Hok Hch].
  rewrite Forall_forall in Hch.
  destruct (build_op_same (persist_ids b) [] (filter_id (S n)) (filter_id n) ident
    (Some (try_kind out)) None f (or_intror Hi)) with (b1 := b) (b2 := new_builder) as [Es _].
  - intros c Hin. split; [by apply answers_cached, Hc|].
    eapply answers_ident, filter_id_ident; [by apply Hch|]. apply size_child in Hin. lia.
  - done.
  - done.
  - pose proof (filter_id_ident _ f (S n) Hp Hn) as Hf. cbn [filter_id to_op] in Hf.
    rewrite <- Es, E in Hf. by simplify_eq/=.
Qed.

(** The staged objects and the repository in one store. *)
Definition staged_over (st : store) (i : oid) : option object :=
  match st !! i with Some x => Some x | None => try_find out i end.

Lemma staged_over_found st : found_in (staged_over st) st.
Proof. intros i x Hx. unfold staged_over. by rewrite Hx. Qed.

Lemma staged_over_extends b i x :
  builder_ok b -> try_find out i = Some x -> staged_over (pending b) i = Some x.
Proof.
  intros [Hh _] Hx. unfold staged_over. destruct (pending b !! i) as [y|] eqn:E; [|done].
  apply Hh in E. apply try_find_hash in Hx; [|done]. rewrite E in Hx.
  by apply compute_hash_inj in Hx as ->.
Qed.

(** A tree the repository has is what would be staged. *)
Lemma stored_readable n f b b' :
  persistable (try_kind out) f -> size f <= n -> odb_contains out (ident f) = true ->
  builder_ok b' -> readable f (ident f) (pending b') -> readable f (ident f) (pending b).
Proof.
  intros Hp Hn Ho Hb' Hr find Hf He m Hm.
  pose proof (Hwhole n f (ident f) (filter_id_ident _ f n Hp Hn) Ho) as Hw.
  destruct (Hr (staged_over (pending b')) (staged_over_found _)) with (n := m)
    as [Hread [l Hl]]; [by intros; apply staged_over_extends|done|].
  assert (forall i x, reaches (try_find out) (ident f) i -> staged_over (pending b') i = Some x ->
    try_find out i = Some x) as Hsame.
  { intros i x Hi Hx. destruct (Hw i Hi) as [y Hy].
    pose proof (staged_over_extends _ _ _ Hb' Hy). congruence. }
  split.
  - eapply from_tree_extends; [exact He|]. eapply (from_tree_transport _ _ (reaches (try_find out) (ident f)));
      [|constructor|exact Hread].
    intros i x Hi Hx. apply Hsame in Hx; [|done]. split; [done|]. destruct x; try done.
    apply Forall_forall. intros e Hin. by econstructor.
  - exists l. apply He, Hsame; [constructor|done].
Qed.

Lemma remember f id b b1 b2 :
  good b1 -> find_persist_id f (persist_ids b) = None -> advance b b1 ->
  builder_ok b2 -> persist_ids b2 = persist_ids b1 -> pending b1 ⊆ pending b2 ->
  readable f id (pending b2) -> (oid_free f -> id = ident f) ->
  let b3 := Builder (pending b2) ((f, id) :: persist_ids b2) in
  good b3 /\ advance b b3 /\ find_persist_id f (persist_ids b3) = Some id.
Proof.
  intros [_ Hg] Hn [Ha1 Ha2] Hb2 HP Hs Hr Hi b3. split; [split; [done|]|split; [split|]].
  - intros g i. unfold b3. cbn [persist_ids pending]. rewrite find_persist_id_cons, HP. case_decide as E.
    + by intros [= <-]; subst g.
    + intros [Hgr ?]%Hg. split; [|done]. by eapply readable_grows.
  - by transitivity (pending b1).
  - intros g i Hgi. unfold b3. cbn [persist_ids]. rewrite find_persist_id_cons, decide_False, HP;
      [by apply Ha2|]. intros ->. congruence.
  - unfold b3. cbn [persist_ids]. by rewrite find_persist_id_cons, decide_True.
Qed.

(** The end of [build_persist], after the sub-filters. *)
Lemma persist_node n f b b1 (d : bool) :
  persistable (try_kind out) f -> size f <= S n -> good b1 -> advance b b1 ->
  find_persist_id f (persist_ids b) = None ->
  (forall c, c ∈ children f -> is_Some (find_persist_id c (persist_ids b1))) ->
  (d = false -> inserts_oid f = false /\
     forall c, c ∈ children f -> find_persist_id c (persist_ids b1) = Some (ident c)) ->
  (oid_free f -> d = false) ->
  exists id b2,
    (if d then build_op (filter_id (S n)) (Some (try_kind out)) f
     else
       fid ← lift (filter_id (S n) f);
       (if odb_contains out fid then mret tt
        else build_op (filter_id (S n)) (Some (try_kind out)) f ≫= fun _ => mret tt) ≫= fun _ =>
       mret fid) b1 = (Ok id, b2) /\
    builder_ok b2 /\ persist_ids b2 = persist_ids b1 /\ pending b1 ⊆ pending b2 /\
    readable f id (pending b2) /\ (oid_free f -> id = ident f).
Proof.
  intros Hp Hn Hg Ha Hnone Hall Hd Hfree. apply everywhere_inv in Hp as Hp'. destruct Hp' as [Hok _].
  destruct (stage_node (S n) f b1 (fun c => default EmptyString (find_persist_id c (persist_ids b1))))
    as (id & b2 & E & Hb2 & HP & Hs & Hr); [done|done| |].
  { intros c [i Hi]%Hall. by rewrite Hi. }
  destruct d.
  - exists id, b2. do 5 (split; [done|]). intros Hof. by apply Hfree in Hof.
  - destruct (Hd eq_refl) as [Hi Hc].
    assert (id = ident f) as -> by (by eapply stage_node_id).
    unfold lift, mbind, M_bind. rewrite (filter_id_ident _ f (S n) Hp Hn).
    destruct (odb_contains out (ident f)) eqn:Ho.
    + exists (ident f), b1. split; [done|]. split; [apply Hg|]. split; [done|]. split; [done|].
      split; [|done]. by eapply (stored_readable (S n) f b1 b2).
    + exists (ident f), b2. by rewrite E.
Qed.

Lemma build_persist_ok n f :
  size f <= n -> persistable (try_kind out) f -> persists n f.
Proof.
  revert f. induction n as [|n IH]; intros f Hn Hp; [pose proof (size_pos f); lia|].
  apply everywhere_inv in Hp as Hp'. destruct Hp' as [_ Hch]. rewrite Forall_forall in Hch.
  intros b Hb. cbn [build_persist to_op]. unfold gets. cbv zeta. unfold mbind at 1, M_bind at 1.
  destruct (find_persist_id f (persist_ids b)) as [id|] eqn:Hf.
  { exists id, b. split; [done|]. split; [done|]. split; [by split|done]. }
  destruct (persist_children n (children f) (inserts_oid f) b) as
    (d & b1 & E & Hb1 & Hadv & Hall & Hd & Hfree); [| |done|].
  - intros c Hin. apply IH; [apply size_child in Hin; lia|by apply Hch].
  - intros c Hin. eapply filter_id_ident; [by apply Hch|]. apply size_child in Hin. lia.
  - destruct (persist_node n f b b1 d) as (id & b2 & E2 & Hb2 & HP & Hs & Hr & Hi); try done.
    { intros [Hof Hofc]%everywhere_inv. by apply Hfree. }
    destruct (remember f id b b1 b2) as (H1 & H2 & H3); try done.
    exists id, (Builder (pending b2) ((f, id) :: persist_ids b2)). split; [|done].
    unfold mbind at 1, M_bind at 1. unfold inserts_oid in E. rewrite E.
    unfold mbind at 1, M_bind at 1. rewrite E2. done.
Qed.

End Round.

(** * Writing the staged objects *)

Lemma flush_ok `{ObjectHash} (b : builder) (out : odb) :
  odb_ok out -> builder_ok b ->
  odb_ok (flush b out) /\ odb_keeps out (flush b out) /\
  forall id x, pending b !! id = Some x -> try_find (flush b out) id = Some x.
Proof.
  intros Hout [Hh _]. unfold flush. revert Hh.
  apply (map_fold_weak_ind (fun o m => (forall id x, m !! id = Some x -> id = compute_hash x) ->
    odb_ok o /\ odb_keeps out o /\ forall id x, m !! id = Some x -> try_find o id = Some x)).
  - intros _. split; [done|]. split; [apply odb_keeps_refl|]. intros id x. by rewrite lookup_empty.
  - intros id x m o Hm IH Hh. destruct IH as (Ho & He & Hf).
    { intros i y Hi. apply Hh. rewrite lookup_insert_ne; [done|]. intros ->. congruence. }
    assert (id = compute_hash x) as -> by (apply Hh; by rewrite lookup_insert_eq).
    assert (exists o', (if odb_contains o (compute_hash x) then o
      else write_with_id o (compute_hash x) x) = o' /\ odb_ok o' /\ odb_keeps o o' /\
      try_find o' (compute_hash x) = Some x) as (o' & -> & Ho' & He' & Hx).
    { destruct (odb_contains o (compute_hash x)) eqn:E.
      - exists o. split; [done|]. split; [done|]. split; [apply odb_keeps_refl|].
        by apply odb_contains_find.
      - destruct (odb_write o x) as [i o'] eqn:Ew. exists o'.
        destruct (odb_write_spec o x i o' Ho Ew) as (-> & ? & ? & ?). unfold odb_write in Ew. by simplify_eq. }
    split; [done|]. split; [by eapply odb_keeps_trans|].
    intros i y [[<- <-]|[_ Hy]]%lookup_insert_Some; [done|]. by apply He', Hf.
Qed.

(** * The round trip *)

Lemma new_builder_good `{ObjectHash} `{Readers} (out : odb) : good out new_builder.
Proof. split; [apply new_builder_ok|done]. Qed.

(** Persisting succeeds, and the id it returns is read as the filter. *)
Lemma persist_tree_ok `{ObjectHash} `{Readers} (out : odb) (f : filter) (n : nat) :
  odb_ok out -> filters_whole out -> persistable (try_kind out) f -> size f <= n ->
  exists id out', persist_tree n out f = (Ok id, out') /\ odb_ok out' /\ odb_keeps out out' /\
    (oid_free f -> id = ident f) /\
    forall m, size f <= m -> from_tree (try_find out') m id = Ok f.
Proof.
  intros Hout Hw Hp Hn.
  destruct (build_persist_ok out Hout Hw n f Hn Hp new_builder (new_builder_good out))
    as (id & b & E & [Hb Hg] & _ & Hf).
  destruct (flush_ok b out Hout Hb) as (Ho & He & Hfound).
  exists id, (flush b out). unfold persist_tree. rewrite E. split; [done|]. split; [done|].
  split; [done|]. destruct (Hg f id Hf) as [Hr Hi]. split; [done|]. intros m Hm.
  by apply (Hr (try_find (flush b out))).
Qed.

(** C1: A persisted filter is read back as itself.  [as_tree] optimizes a filter and persists the
    result; for every result made of operators the format can carry, in a repository whose
    objects are stored under their addresses and which has no partial filter trees,
    [as_tree] returns an id and only adds objects, and [from_tree] decodes that id to the
    optimized filter.  The size of the filter is enough fuel for the writer and the reader. *)
Theorem persist_round_trip `{ObjectHash} `{Readers} (out : odb) (c c' : caches) (k m : nat)
    (f g : filter) :
  optimize k m f c = (Ok g, c') ->
  odb_ok out -> filters_whole out -> persistable (try_kind out) g ->
  exists id out', as_tree k m (size g) f (c, out) = (Ok id, (c', out')) /\
    odb_keeps out out' /\ from_tree (try_find out') (size g) id = Ok g.
Proof.
  intros Hopt Ho Hw Hp.
  destruct (persist_tree_ok out g (size g)) as (id & out' & E & _ & He & _ & Hr); try done.
  exists id, out'. unfold as_tree. rewrite Hopt, E. auto.
Qed.

Definition empty_odb : odb := Odb ∅ ∅ ∅.

Lemma empty_odb_ok `{ObjectHash} : odb_ok empty_odb.
Proof. split; [|split]; intros id; try intros x; by rewrite ?lookup_empty. Qed.

Lemma empty_odb_whole `{ObjectHash} : filters_whole empty_odb.
Proof. by intros n f id _. Qed.

(** Two filters staged in one builder are both read from what is staged. *)
Lemma staged_together `{ObjectHash} `{Readers} (f g : filter) :
  persistable (try_kind empty_odb) f -> persistable (try_kind empty_odb) g ->
  oid_free f -> oid_free g ->
  exists st, found_in (staged_over empty_odb st) st /\
    readable empty_odb f (ident f) st /\ readable empty_odb g (ident g) st /\
    forall i x, try_find empty_odb i = Some x -> staged_over empty_odb st i = Some x.
Proof.
  intros Hf Hg Hof Hog.
  destruct (build_persist_ok empty_odb empty_odb_ok empty_odb_whole (size f) f (le_n _) Hf new_builder
    (new_builder_good _)) as (i & b & _ & Hb & _ & Ei).
  destruct (build_persist_ok empty_odb empty_odb_ok empty_odb_whole (size g) g (le_n _) Hg b Hb)
    as (j & b' & _ & [Hok Hb'] & [_ Hadv] & Ej).
  exists (pending b'). split; [apply staged_over_found|]. apply Hadv in Ei.
  destruct (Hb' f i Ei) as [Hr1 H1], (Hb' g j Ej) as [Hr2 H2].
  rewrite H1 in Hr1 by done. rewrite H2 in Hr2 by done. split; [done|]. split; [done|].
  intros k x. apply staged_over_extends; [apply empty_odb_ok|done].
Qed.

(** The id of a filter identifies it: two filters with the same id are the same filter.  For
    filters the format can carry, none of which inserts an object by its id. *)
Theorem filter_id_injective `{ObjectHash} `{Readers} (f g : filter) (n m : nat) (id : oid) :
  persistable (try_kind empty_odb) f -> persistable (try_kind empty_odb) g ->
  oid_free f -> oid_free g -> size f <= n -> size g <= m ->
  filter_id n f = Ok id -> filter_id m g = Ok id -> f = g.
Proof.
  intros Hf Hg Hof Hog Hn Hm Ef Eg.
  rewrite (filter_id_ident _ f n Hf Hn) in Ef. rewrite (filter_id_ident _ g m Hg Hm) in Eg.
  destruct (staged_together f g Hf Hg Hof Hog) as (st & Hst & Hrf & Hrg & He).
  destruct (Hrf _ Hst He (size f + size g)) as [E1 _]; [lia|].
  destruct (Hrg _ Hst He (size f + size g)) as [E2 _]; [lia|]. congruence.
Qed.

(** * What the format loses *)

Lemma from_tree_one `{Readers} find st n id e :
  found_in find st -> has_tree id [e] st ->
  from_tree find (S n) id = read_entry find (from_tree find n) e.
Proof. intros Hf Ht. cbn [from_tree]. by rewrite (read_persisted_staged find st Hf _ _ Ht). Qed.

Lemma tree_op_staged `{ObjectHash} P name m (Q : oid -> store -> Prop) :
  triple P (fun _ => True) m Q -> (forall a, grows (Q a)) -> has_nul name = false ->
  triple P (fun _ => True) (e ← tree_op name m; stage_tree [e])
    (fun id st => exists a, has_tree id [tree_entry name a] st /\ Q a st).
Proof.
  intros Hm Hg Hn b Hb HP _. destruct (Hm b Hb HP I) as (a & b1 & E & Hb1 & HP1 & Hs & HQ).
  destruct (stage_tree_frame P [tree_entry name a] (Q a) ltac:(by repeat constructor) (Hg a)
    b1 Hb1 HP1 HQ) as (id & b2 & E2 & Hb2 & HP2 & Hs2 & Ht & HQ2).
  exists id, b2. unfold mbind, M_bind, tree_op, mbind, M_bind. rewrite E. cbn [mret M_ret].
  do 3 (split; [done|]). split; [by transitivity (pending b1)|]. by exists a.
Qed.

Definition has_path_filter (p : path) (id : oid) (st : store) : Prop :=
  exists a b e, has_tree id [tree_entry "0" a; tree_entry "1" b] st /\
    has_texts a [to_string p] st /\ has_tree b [e] st /\ filename e = "0".

Lemma has_path_filter_grows p id : grows (has_path_filter p id).
Proof.
  intros st st' Hs (a & b & e & Ht & Hp & Hb & He). exists a, b, e.
  split; [by eapply has_tree_grows|]. split; [by eapply has_texts_grows|].
  split; [by eapply has_tree_grows|done].
Qed.

Lemma path_filter_triple `{ObjectHash} `{Readers} P id_of cid p f :
  answers P id_of cid f ->
  triple P (fun _ => True) (build_starlark_params id_of p f) (has_path_filter p).
Proof.
  intros Ha. eapply triple_bind; [apply build_str_params_triple|]. intros a.
  eapply triple_bind.
  { eapply (triple_conseq _ (fun st => True /\ has_texts a [to_string p] st));
      [|done|intros ? ? Hq; exact Hq].
    apply triple_frame; [apply has_texts_grows|].
    apply (build_filter_params_triple P id_of cid [f]). by constructor. }
  intros b. eapply triple_conseq.
  - apply (stage_tree_frame P [tree_entry "0" a; tree_entry "1" b]
      (fun st => has_ids b [cid f] st /\ has_texts a [to_string p] st)); [by repeat constructor|].
    intros st st' Hs [? ?]. split; [by eapply has_ids_grows|by eapply has_texts_grows].
  - intros st Hs. exact Hs.
  - intros id st (Ht & (l & Hl & Hlen & Hn & _) & Hp).
    destruct (Hn 0 (cid f) eq_refl) as (e & He & _). apply find_entry_Some in He as [He Hname].
    destruct l as [|e' [|]]; try done. apply list_elem_of_singleton in He as ->. by exists a, b, e'.
Qed.

Lemma read_path_filter_unknown `{Readers} find st n id p what op :
  found_in find st -> has_path_filter p id st -> path_ok p ->
  read_path_filter find (from_tree find (S n)) id what op = Err "Unknown tree structure".
Proof.
  intros Hf (a & b & e & Ht & Hp & Hb & He) [_ Htext]. unfold read_path_filter.
  rewrite (read_persisted_staged find st Hf _ _ Ht). simpl. unfold need_name. simpl.
  destruct (has_texts_tree st _ _ Hp) as [l Hl].
  rewrite (read_persisted_staged find st Hf _ _ Hl). simpl.
  rewrite (named_text find st Hf a [to_string p] 0 "0" (to_string p) what l) by done. simpl.
  rewrite from_utf8_ok by done. simpl. unfold read_filter.
  rewrite (read_persisted_staged find st Hf _ _ Hb). simpl. unfold read_entry. by rewrite He.
Qed.

(** C39: A [starlark] or [treeid] filter can be persisted but not read back.  The builder puts the
    sub-filter one tree deeper than the reader looks for it, and the reader fails with
    "Unknown tree structure" on every such tree, in every store that has it. *)
Theorem starlark_unreadable `{ObjectHash} `{Readers} (P : list (filter * oid))
    (id_of : filter -> res oid) (cid : filter -> oid) (kind_of : oid -> option kind)
    (p : path) (f : filter) (treeid : bool) :
  path_ok p -> answers P id_of cid f ->
  triple P (fun _ => True)
    (build_op id_of (Some kind_of) (if treeid then Op.TreeId p f else Op.Starlark p f))
    (fun id st => forall find n, found_in find st ->
       from_tree find (S (S n)) id = Err "Unknown tree structure").
Proof.
  intros Hp Ha. destruct treeid.
  - eapply triple_conseq; [apply (tree_op_staged P "treeid" _ (has_path_filter p));
      [by eapply path_filter_triple|intros a; apply has_path_filter_grows|done]|done|].
    intros id st (a & Ht & Hq) find n Hf. rewrite (from_tree_one find st _ id _ Hf Ht).
    generalize (read_path_filter_unknown find st n a p "treeid" Op.TreeId Hf Hq Hp).
    generalize (from_tree find (S n)). intros rec Hr. exact Hr.
  - eapply triple_conseq; [apply (tree_op_staged P "starlark" _ (has_path_filter p));
      [by eapply path_filter_triple|intros a; apply has_path_filter_grows|done]|done|].
    intros id st (a & Ht & Hq) find n Hf. rewrite (from_tree_one find st _ id _ Hf Ht).
    generalize (read_path_filter_unknown find st n a p "starlark" Op.Starlark Hf Hq Hp).
    generalize (from_tree find (S n)). intros rec Hr. exact Hr.
Qed.

Lemma persist_mapM `{ObjectHash} P id_of cid l b :
  Forall (answers P id_of cid) l -> persist_ids b = P ->
  mapM (persist_oid id_of) l b = (Ok (cid <$> l), b).
Proof.
  intros Ha Hb. induction Ha as [|f l Hf _ IH]; [done|].
  change (mapM (persist_oid id_of) (f :: l)) with
    (y ← persist_oid id_of f; k ← mapM (persist_oid id_of) l; mret (M := bm) (y :: k)).
  generalize dependent (mapM (persist_oid id_of) l). intros m Hm.
  unfold mbind, M_bind. rewrite (Hf b Hb). by rewrite Hm.
Qed.

(** The exact tree of a list of filters. *)
Lemma build_filter_params_tree `{ObjectHash} P id_of cid l :
  Forall (answers P id_of cid) l ->
  triple P (fun _ => True) (build_filter_params id_of l)
    (fun id => has_tree id (sort_by_name (indexed tree_mode (cid <$> l)))).
Proof.
  intros Ha b Hb HP _.
  destruct (stage_tree_triple P (indexed tree_mode (cid <$> l)) (indexed_no_nul _ _) b Hb HP I)
    as (id & b' & E & Hr).
  exists id, b'. split; [|done]. unfold build_filter_params.
  pose proof (persist_mapM P id_of cid l b Ha HP) as Hm.
  generalize dependent (mapM (persist_oid id_of) l). intros m Hm.
  unfold mbind, M_bind. rewrite Hm. exact E.
Qed.

Lemma read_compose_position `{Readers} find st rec id l vs :
  found_in find st -> has_tree id l st ->
  collect_res ((fun e => read_filter find rec (entry_oid e)) <$> l) = Ok vs ->
  read_compose find rec id = Ok (Op.Compose vs).
Proof.
  intros Hf Ht Hv. unfold read_compose. rewrite (read_persisted_staged find st Hf _ _ Ht). simpl.
  by rewrite (collect_index _ "compose" (read_filter find rec)), Hv.
Qed.

(** C40: A [compose] of eleven filters is read back in another order: the entries are
    sorted by the bytes of their numbers, and the reader takes them by position, so the
    filter of number 10 comes third. *)
Theorem compose_eleven_reordered `{ObjectHash} `{Readers} (P : list (filter * oid))
    (id_of : filter -> res oid) (cid : filter -> oid) (kind_of : oid -> option kind)
    (f0 f1 f2 f3 f4 f5 f6 f7 f8 f9 f10 : filter) :
  Forall (answers P id_of cid) [f0; f1; f2; f3; f4; f5; f6; f7; f8; f9; f10] ->
  triple P (fun _ => True)
    (build_op id_of (Some kind_of) (Op.Compose [f0; f1; f2; f3; f4; f5; f6; f7; f8; f9; f10]))
    (fun id st => forall find n, found_in find st ->
       Forall (ready cid find (from_tree find n)) [f0; f1; f2; f3; f4; f5; f6; f7; f8; f9; f10] ->
       from_tree find (S n) id =
         Ok (Op.Compose [f0; f1; f10; f2; f3; f4; f5; f6; f7; f8; f9])).
Proof.
  intros Ha. set (fs := [f0; f1; f2; f3; f4; f5; f6; f7; f8; f9; f10]) in *.
  eapply triple_conseq; [apply (tree_op_staged P "compose" _
    (fun id => has_tree id (sort_by_name (indexed tree_mode (cid <$> fs)))));
    [by apply build_filter_params_tree|intros a; apply has_tree_grows|done]|done|].
  intros id st (a & Ht & Hq) find n Hf Hr. rewrite (from_tree_one find st _ id _ Hf Ht).
  assert (Forall (ready cid find (from_tree find n)) [f0; f1; f10; f2; f3; f4; f5; f6; f7; f8; f9]) as Hr'.
  { apply Forall_forall. rewrite Forall_forall in Hr. intros x Hx. apply Hr. set_solver. }
  revert Hr'. generalize (from_tree find n). intros rec Hr'.
  change (read_compose find rec a =
    Ok (Op.Compose [f0; f1; f10; f2; f3; f4; f5; f6; f7; f8; f9])).
  apply (read_compose_position find st rec a _ _ Hf Hq).
  eapply (collect_oids _ (read_filter find rec)); [|exact (filters_ready cid find rec _ Hr')].
  reflexivity.
Qed.

(** * Examples *)

(** Readers for quoted names without escapes, ids of forty digits, and any regular
    expression. *)
Fixpoint unquoted (s : string) : option string :=
  match s with
  | EmptyString => None
  | String c r =>
      if decide (c = LazyRef.dquote) then (if decide (r = EmptyString) then Some EmptyString else None)
      else String c <$> unquoted r
  end.

#[export] Instance plain_readers : Readers := {|
  json_string s :=
    match s with
    | String c r => if decide (c = LazyRef.dquote) then unquoted r else None
    | EmptyString => None
    end;
  oid_from_str s := if decide (String.length s = 40) then Some s else None;
  regex_new _ := true;
|}.

Definition example_filter : filter :=
  Op.Chain [Op.Subdir [Normal "src"; Normal "lib"];
            Op.Compose [Op.Pattern "*.rs"; Op.Unapply (LazyRef.Lazy "main") Op.Nop];
            Op.Meta [("key", "value")] (Op.Prefix [Normal "dst"])].

Lemma example_filter_persistable : persistable (try_kind empty_odb) example_filter.
Proof.
  repeat constructor; try done.
  - by eexists _, _.
Qed.

(** What the optimizer makes of it. *)
Definition example_optimized : filter :=
  Op.Chain [Op.Subdir [Normal "src"]; Op.Subdir [Normal "lib"];
            Op.Compose [Op.Pattern "*.rs"; Op.Unapply (LazyRef.Lazy "main") Op.Nop];
            Op.Meta [("key", "value")] (Op.Prefix [Normal "dst"])].

Lemma example_optimized_persistable : persistable (try_kind empty_odb) example_optimized.
Proof.
  repeat constructor; try done.
  - by eexists _, _.
Qed.

Lemma persist_round_trip_witness :
  exists id out', as_tree 20 100 (size example_optimized) example_filter (no_caches, empty_odb) =
      (Ok id, ((optimize 20 100 example_filter no_caches).2, out')) /\
    odb_keeps empty_odb out' /\
    from_tree (try_find out') (size example_optimized) id = Ok example_optimized.
Proof.
  apply (persist_round_trip empty_odb no_caches _ 20 100 example_filter example_optimized).
  - vm_compute. reflexivity.
  - apply empty_odb_ok.
  - apply empty_odb_whole.
  - apply example_optimized_persistable.
Defined.

Lemma filter_id_injective_witness :
  Op.Subdir (components "src//lib/.") = Op.Subdir [Normal "src"; Normal "lib"].
Proof.
  apply (filter_id_injective _ _ 1 2 (ident (Op.Subdir [Normal "src"; Normal "lib"]))).
  - repeat constructor.
  - repeat constructor.
  - repeat constructor.
  - repeat constructor.
  - reflexivity.
  - simpl. lia.
  - vm_compute. reflexivity.
  - vm_compute. reflexivity.
Defined.

(** A directory by its name. *)
Definition subdir_named (s : string) : filter := Op.Subdir [Normal s].

Lemma answers_prefix s :
  component_of_part s = Some (Normal s) -> split_slash s = [s] -> valid_utf8 s = true ->
  answers [] (filter_id 1) ident (subdir_named s).
Proof.
  intros H1 H2 H3. eapply answers_ident, (filter_id_ident (fun _ => None)); [|done].
  constructor; [|constructor]. split; [|done]. repeat constructor; done.
Qed.

Lemma starlark_unreadable_witness :
  triple [] (fun _ => True)
    (build_op (filter_id 1) (Some (fun _ => None)) (Op.Starlark [Normal "a.star"] (subdir_named "x")))
    (fun id st => forall find n, found_in find st ->
       from_tree find (S (S n)) id = Err "Unknown tree structure").
Proof.
  apply (starlark_unreadable [] (filter_id 1) ident (fun _ => None) [Normal "a.star"]
    (subdir_named "x") false).
  - split; [repeat constructor|reflexivity].
  - apply answers_prefix; reflexivity.
Defined.

Lemma compose_eleven_reordered_witness :
  triple [] (fun _ => True)
    (build_op (filter_id 1) (Some (fun _ => None)) (Op.Compose (subdir_named <$>
       ["a"; "b"; "c"; "d"; "e"; "f"; "g"; "h"; "i"; "j"; "k"])))
    (fun id st => forall find n, found_in find st ->
       Forall (ready ident find (from_tree find n)) (subdir_named <$>
         ["a"; "b"; "c"; "d"; "e"; "f"; "g"; "h"; "i"; "j"; "k"]) ->
       from_tree find (S n) id = Ok (Op.Compose (subdir_named <$>
         ["a"; "b"; "k"; "c"; "d"; "e"; "f"; "g"; "h"; "i"; "j"]))).
Proof.
  apply (compose_eleven_reordered [] (filter_id 1) ident (fun _ => None)).
  repeat constructor; apply answers_prefix; reflexivity.
Defined.
