(* ===== verification/FileMap.v ===== *)
(** What the tree operations do to the files of a tree: the laws of subtraction,
    intersection and overlay on paths, and the operations of TreeOps as the
    composition of these laws with the refinement theorems of Refine. *)

From S2P Require Import Prelude Path Ops Objects Store TreeOps Node NodeFacts Refine Concrete.

(** * Occupied paths *)

(** [occupies] as a function. *)
Fixpoint occupied (n : node) (p : list string) : bool :=
  match n, p with
  | Leaf _, _ => true
  | Node cs, [] => negb (is_nempty n)
  | Node cs, s :: p =>
      match nfind s cs with Some c => occupied (child_node c) p | None => false end
  end.

Lemma leaf_at_mode m n p : is_Some (file_at m n p) <-> is_Some (leaf_at n p).
Proof. unfold leaf_at. by destruct p, n. Qed.

(** A tree without empty subtrees has a file. *)
Lemma wf_has_file n : wf_node n -> n ≠ nempty -> exists q, is_Some (leaf_at n q).
Proof.
  induction n as [id|cs IH] using node_ind'; intros Hw Hne; [by exists []|].
  destruct cs as [|c cs]; [done|]. assert (c ∈ c :: cs) as Hc by left.
  rewrite Forall_forall in IH. destruct (IH c Hc) as [q Hq];
    [by eapply wf_child|by eapply wf_child_not_empty|].
  exists (child_name c :: q). unfold leaf_at. simpl. rewrite decide_True by done. simpl.
  by apply leaf_at_mode.
Qed.

Lemma comparable_cons s p s' q : comparable (s :: p) (s' :: q) <-> s = s' /\ comparable p q.
Proof.
  unfold comparable. split.
  - intros [Hp|Hp]; apply prefix_cons_inv_1 in Hp as E; apply prefix_cons_inv_2 in Hp; auto.
  - intros [-> [Hp|Hp]]; [left|right]; by apply prefix_cons.
Qed.

Lemma occupies_leaf id p : occupies (Leaf id) p.
Proof. exists [], (tree_mode, id). split; [done|]. right. apply prefix_nil. Qed.

Lemma occupies_cons cs s p :
  occupies (Node cs) (s :: p) <-> exists c, nfind s cs = Some c /\ occupies (child_node c) p.
Proof.
  split.
  - intros ([|s' q] & x & Hx & Hc); [done|]. apply comparable_cons in Hc as [-> Hc].
    unfold leaf_at in Hx. simpl in Hx. destruct (nfind s' cs) as [c|]; [|done].
    exists c. split; [done|]. destruct (proj1 (leaf_at_mode (child_mode c) (child_node c) q)) as [y Hy];
      [by eexists|]. by exists q, y.
  - intros (c & Hc & q & x & Hx & Hp).
    destruct (proj2 (leaf_at_mode (child_mode c) (child_node c) q)) as [y Hy]; [by eexists|].
    exists (s :: q), y. unfold leaf_at. simpl. rewrite Hc. split; [done|].
    by apply comparable_cons.
Qed.

Lemma occupies_iff n p : wf_node n -> occupies n p <-> occupied n p = true.
Proof.
  revert n. induction p as [|s p IH]; intros [id|cs] Hw; simpl.
  - split; [done|]. intros _. apply occupies_leaf.
  - destruct cs as [|c cs].
    { split; [|done]. intros ([|s q] & x & Hx & _); done. }
    split; [done|]. intros _. destruct (wf_has_file _ Hw) as (q & x & Hx); [done|].
    exists q, x. split; [done|]. left. apply prefix_nil.
  - split; [done|]. intros _. apply occupies_leaf.
  - rewrite occupies_cons. destruct (nfind s cs) as [c|] eqn:E; [|naive_solver].
    rewrite <- IH; [naive_solver|]. apply nfind_Some in E as [Hc _]. by eapply wf_child.
Qed.

(** A file occupies its own path. *)
Lemma file_occupied m n p : is_Some (file_at m n p) -> occupied n p = true.
Proof.
  revert m n. induction p as [|s p IH]; intros m [id|cs]; simpl; try (by intros [? ?]).
  destruct (nfind s cs) as [c|]; simpl; [apply IH|by intros [? ?]].
Qed.

Lemma wf_nfind cs s c : wf_node (Node cs) -> nfind s cs = Some c ->
  wf_node (child_node c) /\ child_node c ≠ nempty.
Proof.
  intros Hw [Hc _]%nfind_Some. split; [by eapply wf_child|by eapply wf_child_not_empty].
Qed.

Lemma occupied_nil n : n ≠ nempty -> occupied n [] = true.
Proof. by destruct n as [|[|c cs]]. Qed.

Lemma file_at_nempty m p : file_at m nempty p = None.
Proof. by destruct p. Qed.

Lemma occupied_nempty p : occupied nempty p = false.
Proof. by destruct p. Qed.

Lemma nfind_omap f (cs : list child) s :
  (forall c c', f c = Some c' -> c'.1 = c.1) -> NoDup (names cs) ->
  nfind s (omap f cs) = nfind s cs ≫= f.
Proof.
  intros Hf Hn. apply option_eq. intros c'.
  rewrite nfind_Some_iff, list_elem_of_omap, bind_Some by (by apply omap_nodup).
  setoid_rewrite nfind_Some_iff; [|done]. split.
  - intros [(c & Hc & E) <-]. exists c. unfold child_name. by rewrite (Hf c c' E).
  - intros (c & [Hc <-] & E). unfold child_name. rewrite (Hf c c' E). eauto.
Qed.

(** * The laws *)

Lemma file_unoccupied m n p : occupied n p = false -> file_at m n p = None.
Proof.
  intros Ho. apply eq_None_not_Some. intros Hs%file_occupied. congruence.
Qed.

Lemma nsubtract_files m a b p :
  wf_node a -> wf_node b -> is_node a = true \/ b ≠ nempty ->
  file_at m (nsubtract a b) p = if occupied b p then None else file_at m a p.
Proof.
  revert m a b. induction p as [|s p IH]; intros m a b Ha Hb Hk.
  { pose proof (nsubtract_is_node a b) as Hn. destruct (nsubtract a b); [done|].
    destruct a; [|by destruct (occupied b _)]. destruct Hk as [?|Hk]; [done|].
    by rewrite occupied_nil. }
  destruct a as [id|ca]; [rewrite nsubtract_leaf; by destruct (occupied b _)|].
  destruct b as [id|cb]; [done|]. rewrite nsubtract_Node. case_decide as Hd.
  { injection Hd as <-. rewrite file_at_nempty. destruct (occupied (Node ca) (s :: p)) eqn:E;
      [done|]. by rewrite file_unoccupied. }
  cbn [file_at occupied]. rewrite nfind_omap by (apply meet_child_key || by apply wf_nodup).
  destruct (nfind s ca) as [c|] eqn:Ec; simpl; [|by repeat case_match].
  unfold meet_child. assert (c.1.2 = s) as -> by (by apply nfind_Some in Ec as [_ ?]).
  destruct (nfind s cb) as [d|] eqn:Ed; [|done].
  destruct (wf_nfind _ _ _ Ha Ec) as [Hwc _], (wf_nfind _ _ _ Hb Ed) as [Hwd Hnd].
  rewrite <- IH by auto. unfold child_node at 2. case_decide as Hn; [|done].
  unfold child_node in *. rewrite Hn. by rewrite file_at_nempty.
Qed.

Lemma nintersect_files m a b p :
  wf_node a -> wf_node b ->
  file_at m (nintersect a b) p = if occupied b p then file_at m a p else None.
Proof.
  revert m a b. induction p as [|s p IH]; intros m a b Ha Hb.
  all: destruct (decide (a = b)) as [<-|Hne];
    [rewrite nintersect_same; destruct (occupied a _) eqn:E; [done|by rewrite file_unoccupied]|].
  all: destruct (decide (b = nempty)) as [->|Hbe];
    [rewrite nintersect_empty_r, file_at_nempty, occupied_nempty; done|].
  { rewrite occupied_nil by done.
    destruct a as [id|ca], b as [id'|cb]; simpl; by repeat case_decide. }
  destruct a as [id|ca]; [rewrite nintersect_mixed by done; by destruct (occupied b _)|].
  destruct b as [id|cb]; [by rewrite nintersect_mixed by done|].
  rewrite nintersect_Node, !decide_False by done.
  cbn [file_at occupied]. rewrite nfind_omap by (apply meet_child_key || by apply wf_nodup).
  destruct (nfind s ca) as [c|] eqn:Ec; simpl; [|by repeat case_match].
  unfold meet_child. assert (c.1.2 = s) as -> by (by apply nfind_Some in Ec as [_ ?]).
  destruct (nfind s cb) as [d|] eqn:Ed; [|done].
  destruct (wf_nfind _ _ _ Ha Ec) as [Hwc _], (wf_nfind _ _ _ Hb Ed) as [Hwd Hnd].
  rewrite <- IH by auto. unfold child_node at 2. case_decide as Hn; [|done].
  unfold child_node in *. rewrite Hn. by rewrite file_at_nempty.
Qed.

Lemma over_child_name cb c : child_name (over_child cb c) = child_name c.
Proof. unfold child_name. by rewrite over_child_key. Qed.

Lemma nfind_overlay ca cb s :
  wf_node (Node ca) -> wf_node (Node cb) ->
  nfind s (foldl (add_new ca) (over_child cb <$> ca) cb) =
    match nfind s ca with Some c => Some (over_child cb c) | None => nfind s cb end.
Proof.
  intros Ha%wf_nodup Hb%wf_nodup. apply option_eq. intros c.
  rewrite nfind_Some_iff.
  2: { apply names_add_new; rewrite ?over_names; auto. }
  rewrite elem_of_add_new, list_elem_of_fmap. split.
  - intros [[(c' & -> & Hc')|[Hc E]] <-].
    + rewrite over_child_name. by rewrite nfind_elem.
    + rewrite E. by apply nfind_elem.
  - destruct (nfind s ca) as [c'|] eqn:E.
    + intros [= <-]. apply nfind_Some in E as [Hc' <-].
      rewrite over_child_name. eauto.
    + intros [Hc <-]%nfind_Some. auto.
Qed.

Lemma noverlay_files m m' a b p :
  wf_node a -> wf_node b -> a ≠ nempty \/ m = m' ->
  file_at m (noverlay a b) p = if occupied a p then file_at m a p else file_at m' b p.
Proof.
  revert m m' a b. induction p as [|s p IH]; intros m m' a b Ha Hb Hm.
  all: destruct (decide (a = nempty)) as [->|Hae];
    [destruct Hm as [?| <-]; [done|by rewrite noverlay_empty_l, occupied_nempty]|].
  { rewrite occupied_nil by done.
    destruct a as [id|ca], b as [id'|cb]; simpl; by repeat case_decide. }
  destruct (decide (b = nempty)) as [->|Hbe];
    [rewrite noverlay_empty_r, file_at_nempty; destruct (occupied a _) eqn:E;
      [done|by apply file_unoccupied]|].
  destruct (decide (a = b)) as [<-|Hne];
    [rewrite noverlay_same; destruct (occupied a _) eqn:E; [done|by rewrite !file_unoccupied]|].
  destruct a as [id|ca]; [by rewrite noverlay_mixed by done|].
  destruct b as [id|cb].
  { rewrite noverlay_mixed by done. destruct (occupied (Node ca) _) eqn:E; [done|].
    by apply file_unoccupied. }
  rewrite noverlay_Node, !decide_False by congruence.
  cbn [file_at occupied]. rewrite nfind_overlay by done.
  destruct (nfind s ca) as [c|] eqn:Ec; [|done]. simpl.
  unfold over_child. assert (c.1.2 = s) as -> by (by apply nfind_Some in Ec as [_ ?]).
  destruct (wf_nfind _ _ _ Ha Ec) as [Hwc Hnc].
  destruct (nfind s cb) as [d|] eqn:Ed; simpl.
  - destruct (wf_nfind _ _ _ Hb Ed) as [Hwd Hnd].
    change (child_node (c.1, noverlay c.2 (child_node d)))
      with (noverlay (child_node c) (child_node d)).
    change (child_mode (c.1, noverlay c.2 (child_node d))) with (child_mode c).
    apply IH; auto.
  - destruct (occupied (child_node c) p) eqn:E; [done|by apply file_unoccupied].
Qed.

(** * Intersection by subtraction *)

Lemma subtract_nothing c d :
  wf_node d -> d ≠ nempty -> (is_node c = true -> nintersect c d = nsubtract c (nsubtract c d)) ->
  nsubtract c d = nempty -> nintersect c d = c.
Proof.
  intros Hd Hne IH E. destruct c as [id|cs].
  - simpl. by repeat case_decide.
  - by rewrite IH, E, nsubtract_empty_r.
Qed.

Lemma meet_self (ca : list child) :
  NoDup (names ca) -> omap (meet_child nsubtract true ca) ca = [].
Proof.
  intros Hn. apply elem_of_nil_inv. intros c' (c & Hc & E)%list_elem_of_omap.
  unfold meet_child in E. change c.1.2 with (child_name c) in E.
  rewrite nfind_elem in E by done. by rewrite nsubtract_same in E.
Qed.

Lemma nintersect_subtract a b :
  wf_node a -> wf_node b -> is_node a = true ->
  nintersect a b = nsubtract a (nsubtract a b).
Proof.
  revert b. induction a as [|ca IH] using node_ind'; intros b Ha Hb Hk; [done|].
  destruct (decide (Node ca = b)) as [<-|Hne].
  { by rewrite nintersect_same, nsubtract_same, nsubtract_empty_r. }
  destruct (decide (b = nempty)) as [->|Hbe].
  { by rewrite nintersect_empty_r, nsubtract_empty_r, nsubtract_same. }
  destruct b as [id|cb].
  { by rewrite nintersect_mixed, (nsubtract_mixed _ (Leaf id)), nsubtract_empty_r. }
  rewrite nintersect_Node, !decide_False by done. rewrite (nsubtract_Node ca cb), decide_False by done.
  assert (omap (meet_child nintersect false cb) ca =
    omap (meet_child nsubtract true (omap (meet_child nsubtract true cb) ca)) ca) as E.
  { apply list_omap_ext. apply Forall_Forall2_diag, Forall_forall. intros c Hc.
    rewrite Forall_forall in IH. specialize (IH c Hc). unfold meet_child at 1 2.
    change c.1.2 with (child_name c).
    rewrite nfind_omap by (apply meet_child_key || by apply wf_nodup).
    rewrite (nfind_elem ca c) by (done || by apply wf_nodup). simpl. unfold meet_child.
    change c.1.2 with (child_name c).
    destruct (nfind (child_name c) cb) as [d|] eqn:Ed.
    2: { by rewrite nsubtract_same, decide_True. }
    destruct (wf_nfind _ _ _ Hb Ed) as [Hwd Hnd].
    specialize (IH (child_node d) (wf_child _ _ Ha Hc) Hwd).
    change (child_node c) with c.2 in IH.
    pose proof (subtract_nothing c.2 (child_node d) Hwd Hnd IH) as Hs.
    destruct (decide (nsubtract c.2 (child_node d) = nempty)) as [Hn|Hn].
    - rewrite Hs by done. rewrite decide_False by exact (wf_child_not_empty _ _ Ha Hc).
      by destruct c.
    - simpl. assert (is_node c.2 = true) as Hkc.
      { destruct c.2; [by rewrite nsubtract_leaf in Hn|done]. }
      by rewrite (IH Hkc). }
  rewrite E, nsubtract_Node. case_decide as Hd; [|done]. injection Hd as Hd.
  rewrite <- Hd. f_equal. by apply meet_self, wf_nodup.
Qed.

(** * The operations of TreeOps *)

Section Correct.
Context `{ObjectHash} `{BisectEntry} `{GlobKeys}.

(** Running an operation in a sound state. *)
Lemma yields_run t (m : txm oid) r :
  yields (tx_odb t) m (node_oid r) (fun o' => present o' r) -> tx_ok t -> wf_node r ->
  exists t', m t = (Ok (node_oid r), t') /\ tx_ok t' /\
    odb_extends (tx_odb t) (tx_odb t') /\ good (tx_odb t') r.
Proof.
  intros Hy Ht Hw. destruct (Hy t Ht (odb_extends_refl _)) as (t' & E & Ht' & He & Hp).
  exists t'. by repeat (split; [done|]).
Qed.

Lemma not_occupies n p : wf_node n -> ~ occupies n p <-> occupied n p = false.
Proof. intros Hw. rewrite occupies_iff by done. by rewrite not_true_iff_false. Qed.

(** C16: [subtract] of two stored trees returns the address of a stored,
    canonically ordered tree whose files, with their modes, are exactly those of the
    first tree whose path neither contains nor is contained in the path of a file
    of the second; it terminates within the height of the first tree, from every
    state of the caches that earlier operations can leave, and keeps everything
    that is stored. *)
Theorem subtract_correct n t a b :
  tx_ok t -> good (tx_odb t) a -> good (tx_odb t) b ->
  is_node a = true -> height a <= n ->
  exists r t', subtract n (node_oid a) (node_oid b) t = (Ok (node_oid r), t') /\
    tx_ok t' /\ odb_extends (tx_odb t) (tx_odb t') /\ good (tx_odb t') r /\
    forall p x, leaf_at r p = Some x <-> leaf_at a p = Some x /\ ~ occupies b p.
Proof.
  intros Ht Ha Hb Hk Hn. exists (nsubtract a b).
  destruct (yields_run t _ _ (subtract_yields n _ a b Hn Ha Hb) Ht) as (t' & E & ? & ? & ?).
  { apply nsubtract_wf; [apply Ha|apply Hb]. }
  exists t'. do 4 (split; [done|]). intros p x. unfold leaf_at.
  rewrite nsubtract_files, not_occupies by (apply Ha || apply Hb || auto).
  destruct (occupied b p); naive_solver.
Qed.

(** C33: [intersect] of two stored trees returns the address of a stored,
    canonically ordered tree whose files, with their modes, are exactly those of the
    first tree whose path contains or is contained in the path of a file of the
    second; it terminates within the height of the first tree, from every state of
    the caches that earlier operations can leave. *)
Theorem intersect_correct n t a b :
  tx_ok t -> good (tx_odb t) a -> good (tx_odb t) b -> height a <= n ->
  exists r t', intersect n (node_oid a) (node_oid b) t = (Ok (node_oid r), t') /\
    tx_ok t' /\ odb_extends (tx_odb t) (tx_odb t') /\ good (tx_odb t') r /\
    forall p x, leaf_at r p = Some x <-> leaf_at a p = Some x /\ occupies b p.
Proof.
  intros Ht Ha Hb Hn. exists (nintersect a b).
  destruct (yields_run t _ _ (intersect_yields n _ a b Hn Ha Hb) Ht) as (t' & E & ? & ? & ?).
  { apply nintersect_wf; [apply Ha|apply Hb]. }
  exists t'. do 4 (split; [done|]). intros p x. unfold leaf_at.
  rewrite nintersect_files, occupies_iff by (apply Ha || apply Hb).
  destruct (occupied b p); naive_solver.
Qed.

(** C17: [overlay] of two stored trees returns the address of a stored, canonically
    ordered tree whose files, with their modes, are those of the first tree together
    with those of the second whose path does not collide with a file of the first;
    it terminates within the height of the first tree, from every state of the
    caches that earlier operations can leave. *)
Theorem overlay_correct n t a b :
  tx_ok t -> good (tx_odb t) a -> good (tx_odb t) b -> height a <= n ->
  exists r t', overlay n (node_oid a) (node_oid b) t = (Ok (node_oid r), t') /\
    tx_ok t' /\ odb_extends (tx_odb t) (tx_odb t') /\ good (tx_odb t') r /\
    forall p x, leaf_at r p = Some x <->
      leaf_at a p = Some x \/ (leaf_at b p = Some x /\ ~ occupies a p).
Proof.
  intros Ht Ha Hb Hn. exists (noverlay a b).
  destruct (yields_run t _ _ (overlay_yields n _ a b Hn Ha Hb) Ht) as (t' & E & ? & ? & ?).
  { apply noverlay_wf; [apply Ha|apply Hb]. }
  exists t'. do 4 (split; [done|]). intros p x. unfold leaf_at.
  rewrite (noverlay_files _ tree_mode), not_occupies by (apply Ha || apply Hb || auto).
  destruct (occupied a p) eqn:E'; [naive_solver|].
  rewrite (file_unoccupied _ a p) by done. naive_solver.
Qed.

(** [intersect] computes, address for address, what subtracting twice does: the
    two routes agree on every pair of stored trees that have no empty subtrees. *)
Theorem intersect_is_double_subtract n t a b :
  tx_ok t -> good (tx_odb t) a -> good (tx_odb t) b ->
  is_node a = true -> height a <= n ->
  exists s r t1 t2 t3,
    subtract n (node_oid a) (node_oid b) t = (Ok s, t1) /\
    subtract n (node_oid a) s t1 = (Ok r, t2) /\
    intersect n (node_oid a) (node_oid b) t2 = (Ok r, t3).
Proof.
  intros Ht Ha Hb Hk Hn.
  destruct (yields_run t _ _ (subtract_yields n _ a b Hn Ha Hb) Ht) as (t1 & E1 & Ht1 & He1 & Hr1).
  { apply nsubtract_wf; [apply Ha|apply Hb]. }
  eapply good_extends in Ha; [|exact He1]. eapply good_extends in Hb; [|exact He1].
  destruct (yields_run t1 _ _ (subtract_yields n _ a _ Hn Ha Hr1) Ht1) as (t2 & E2 & Ht2 & He2 & _).
  { apply nsubtract_wf; [apply Ha|apply Hr1]. }
  eapply good_extends in Ha; [|exact He2]. eapply good_extends in Hb; [|exact He2].
  destruct (yields_run t2 _ _ (intersect_yields n _ a b Hn Ha Hb) Ht2) as (t3 & E3 & _).
  { apply nintersect_wf; [apply Ha|apply Hb]. }
  rewrite (nintersect_subtract a b) in E3 by (done || apply Ha || apply Hb).
  by eexists _, _, t1, t2, t3.
Qed.

End Correct.

(** The theorems apply to the example trees of Concrete, and the operations
    evaluate to the expected trees. *)

Lemma subtract_correct_witness :
  (exists r t', subtract 3 (node_oid example_left) (node_oid example_right) example_tx =
      (Ok (node_oid r), t') /\
    leaf_at r ["a"; "p"] = Some (blob_mode, compute_hash (OBlob "1")) /\
    leaf_at r ["a"; "q"] = None) /\
  (subtract 3 (node_oid example_left) (node_oid example_right) example_tx).1 =
    Ok (node_oid (Node [dir "a" [file "p" "1"]; file "l" "3"])).
Proof.
  split; [|vm_compute; reflexivity].
  destruct (subtract_correct 3 example_tx example_left example_right
    example_tx_ok example_left_good example_right_good eq_refl) as (r & t' & E & _ & _ & _ & Hr);
    [vm_compute; lia|].
  exists r, t'. split; [exact E|]. split.
  - apply Hr. split; [reflexivity|]. apply not_occupies; [apply example_right_good|reflexivity].
  - apply eq_None_not_Some. intros [x [_ []]%Hr].
    apply occupies_iff; [apply example_right_good|reflexivity].
Defined.

Lemma intersect_correct_witness :
  (exists r t', intersect 3 (node_oid example_left) (node_oid example_right) example_tx =
      (Ok (node_oid r), t') /\ leaf_at r ["l"] = None) /\
  (intersect 3 (node_oid example_left) (node_oid example_right) example_tx).1 =
    Ok (node_oid (Node [dir "a" [file "q" "2"]; file "x" "4"])).
Proof.
  split; [|vm_compute; reflexivity].
  destruct (intersect_correct 3 example_tx example_left example_right
    example_tx_ok example_left_good example_right_good) as (r & t' & E & _ & _ & _ & Hr);
    [vm_compute; lia|].
  exists r, t'. split; [exact E|]. apply eq_None_not_Some. intros [x [_ Ho]%Hr].
  apply occupies_iff in Ho; [discriminate Ho|apply example_right_good].
Defined.

Lemma overlay_correct_witness :
  (exists r t', overlay 3 (node_oid example_left) (node_oid example_right) example_tx =
      (Ok (node_oid r), t') /\ leaf_at r ["x"] = Some (blob_mode, compute_hash (OBlob "4"))) /\
  (overlay 3 (node_oid example_left) (node_oid example_right) example_tx).1 =
    Ok (node_oid (Node [dir "a" [file "p" "1"; file "q" "2"; file "r" "6"];
      file "l" "3"; file "r" "7"; file "x" "4"])).
Proof.
  split; [|vm_compute; reflexivity].
  destruct (overlay_correct 3 example_tx example_left example_right
    example_tx_ok example_left_good example_right_good) as (r & t' & E & _ & _ & _ & Hr);
    [vm_compute; lia|].
  exists r, t'. split; [exact E|]. apply Hr. left. reflexivity.
Defined.

Lemma intersect_is_double_subtract_witness :
  exists s r t1 t2 t3,
    subtract 3 (node_oid example_left) (node_oid example_right) example_tx = (Ok s, t1) /\
    subtract 3 (node_oid example_left) s t1 = (Ok r, t2) /\
    intersect 3 (node_oid example_left) (node_oid example_right) t2 = (Ok r, t3).
Proof.
  apply (intersect_is_double_subtract 3 example_tx example_left example_right
    example_tx_ok example_left_good example_right_good); [reflexivity|vm_compute; lia].
Defined.
