(* ===== verification/NodeFilter.v ===== *)
(** Keeping the files of a predicate: [remove_pattern] and [remove_pred] compute the
    reference filter on trees, and the files that are kept by a pattern are those whose
    path the pattern matches. *)

From S2P Require Import Prelude Path Ops Objects Store Utf8 Glob Pattern.
From S2P Require Import TreeOps TreePaths TreeWalk Node NodeFacts Refine Concrete FileMap.

Open Scope nat_scope.

(** * Names as characters *)

Definition name_chars (s : string) : list char := default [] (chars s).

Lemma byte_val_range c : (0 <= byte_val c < 256)%Z.
Proof. unfold byte_val. pose proof (N_ascii_bounded c). lia. Qed.

Lemma continuation_range c x : continuation c = Some x -> (0 <= x < 64)%Z.
Proof.
  unfold continuation. destruct ((128 <=? byte_val c)%Z && (byte_val c <=? 191)%Z) eqn:E; [|done].
  intros [= <-]. lia.
Qed.

Lemma byte_slash c : byte_val c = 47%Z -> c = slash.
Proof.
  unfold byte_val. intros E. rewrite <- (ascii_N_embedding c).
  replace (N_of_ascii c) with 47%N by lia. done.
Qed.

Lemma decode_no_slash n s l :
  utf8_decode n s = Some l -> string_exists ends_name s = false ->
  Forall (fun c => is_separator c = false) l.
Proof.
  revert s l. induction n as [|n IH]; intros s l E Hs; [done|].
  destruct s as [|c s]; simpl in E; [by injection E as <-|].
  simpl in Hs. apply orb_false_iff in Hs as [Hc Hs].
  pose proof (byte_val_range c) as Hb. unfold is_separator, c_slash.
  destruct (byte_val c <? 128)%Z eqn:E1.
  { apply bind_Some in E as (l' & El & [= <-]). constructor; [|by eapply IH].
    apply Z.eqb_neq. intros E47%byte_slash. subst c. done. }
  repeat (match goal with
    | H : context [if ?b then _ else _] |- _ => destruct b eqn:?; try done
    | H : context [match ?s with EmptyString => _ | String _ _ => _ end] |- _ =>
        destruct s; try done; simpl in Hs
    | H : (_ ≫= _) = Some _ |- _ => apply bind_Some in H as (? & ? & H)
    | H : Some _ = Some _ |- _ => injection H as <-
    | H : continuation _ = Some _ |- _ => apply continuation_range in H
    | H : _ || _ = false |- _ => apply orb_false_iff in H as [? ?]
    end);
    (constructor; [lia|by eapply IH]).
Qed.

Lemma name_chars_ok s : valid_name s = true -> valid_utf8 s = true -> name_ok (name_chars s).
Proof.
  unfold valid_utf8, name_chars. intros Hv Hu. destruct (chars s) as [l|] eqn:E; [|done].
  simpl. split.
  - eapply decode_no_slash; [exact E|]. by apply valid_name_ends.
  - unfold valid_name in Hv. apply andb_true_iff in Hv as [_ Hne].
    destruct s as [|c s]; [done|]. intros ->. unfold chars in E. simpl in E.
    repeat (match goal with
      | H : context [if ?b then _ else _] |- _ => destruct b eqn:?; try done
      | H : context [match ?s with EmptyString => _ | String _ _ => _ end] |- _ =>
          destruct s; try done
      | H : (_ ≫= _) = Some _ |- _ => apply bind_Some in H as (? & ? & H)
      end); done.
Qed.

(** All names of the tree are UTF-8. *)
Fixpoint utf8_node (n : node) : Prop :=
  match n with
  | Leaf _ => True
  | Node cs => foldr (fun c acc => (valid_utf8 c.1.2 = true /\ utf8_node c.2) /\ acc) True cs
  end.

Lemma utf8_Node cs :
  utf8_node (Node cs) <->
  Forall (fun c => valid_utf8 (child_name c) = true /\ utf8_node (child_node c)) cs.
Proof.
  simpl. induction cs as [|c cs IH]; simpl; [split; [constructor|done]|].
  by rewrite Forall_cons, IH.
Qed.

(** * The reference filter *)

Definition filter_child (keep : list string -> bool) (c : child) : option child :=
  if is_tree c.1.1 then
    let s := nfilter (fun p => keep (c.1.2 :: p)) c.2 in
    if decide (s = nempty) then None else Some (c.1, s)
  else if is_commit c.1.1 then None
  else if keep [c.1.2] then Some c else None.

Lemma nfilter_Node keep cs : nfilter keep (Node cs) = Node (omap (filter_child keep) cs).
Proof. done. Qed.

Lemma filter_child_key keep c c' : filter_child keep c = Some c' -> c'.1 = c.1.
Proof. unfold filter_child. intros E. repeat case_match; by simplify_eq/=. Qed.

Lemma nfilter_is_node keep n : is_node (nfilter keep n) = is_node n.
Proof. by destruct n. Qed.

Lemma nfilter_wf keep n : wf_node n -> wf_node (nfilter keep n).
Proof.
  revert keep. induction n as [|cs IH] using node_ind'; intros keep Hw; [done|].
  rewrite nfilter_Node. apply omap_wf; [apply filter_child_key|done|].
  intros c c' Hc E. apply wf_node_alt in Hw as Hok. destruct Hok as [Hok _].
  rewrite Forall_forall in Hok, IH. destruct (Hok c Hc) as (Hv & Hk & He & Hwc).
  unfold filter_child in E. destruct (is_tree c.1.1) eqn:Et.
  - case_decide as Hn; [done|]. injection E as <-. split; [done|]. split; [|split].
    + change (is_tree c.1.1 = is_node (nfilter (fun p => keep (c.1.2 :: p)) c.2)).
      rewrite nfilter_is_node. exact Hk.
    + by apply child_ok_not_empty.
    + by apply (IH c Hc).
  - destruct (is_commit c.1.1); [done|]. destruct (keep [c.1.2]); [|done]. injection E as <-.
    by apply Hok.
Qed.

Lemma nfilter_ext keep keep' n :
  (forall p, p ≠ [] -> keep p = keep' p) -> nfilter keep n = nfilter keep' n.
Proof.
  revert keep keep'. induction n as [|cs IH] using node_ind'; intros keep keep' He; [done|].
  rewrite !nfilter_Node. f_equal. apply list_omap_ext, Forall_Forall2_diag.
  eapply Forall_impl; [exact IH|]. intros c Hc. unfold filter_child.
  rewrite (He [c.1.2]) by done. unfold child_node in Hc.
  rewrite (Hc _ (fun p => keep' (c.1.2 :: p))); [done|]. intros p _. by apply He.
Qed.

(** Files at the paths of the predicate, submodules excepted. *)
Lemma nfilter_files m keep n p :
  wf_node n -> is_node n = true ->
  file_at m (nfilter keep n) p =
    (x ← file_at m n p; if negb (is_commit x.1) && keep p then Some x else None).
Proof.
  revert m keep n. induction p as [|s p IH]; intros m keep n Hw Hn.
  { by destruct n. }
  destruct n as [|cs]; [done|]. rewrite nfilter_Node. cbn [file_at].
  rewrite nfind_omap by (apply filter_child_key || by apply wf_nodup).
  destruct (nfind s cs) as [c|] eqn:Ec; [|done]. simpl.
  apply nfind_Some in Ec as [Hc Hs]. pose proof (wf_child_kind _ _ Hw Hc) as Hk.
  pose proof (wf_child _ _ Hw Hc) as Hwc.
  unfold filter_child. change c.1.1 with (child_mode c). change c.1.2 with (child_name c).
  rewrite Hs. unfold child_node in *. destruct (is_tree (child_mode c)) eqn:Et.
  - rewrite <- (IH (child_mode c) (fun p => keep (s :: p)) c.2) by done.
    case_decide as He; [|reflexivity]. by rewrite He, file_at_nempty.
  - destruct c as [[mc nc] [id|]]; [|done]. simpl in *. destruct p as [|s2 p]; simpl.
    + change (child_mode (mc, nc, Leaf id)) with mc.
      destruct (is_commit mc); [done|]. by destruct (keep [s]).
    + change (child_mode (mc, nc, Leaf id)) with mc.
      destruct (is_commit mc); [done|]. by destruct (keep [s]).
Qed.

Lemma nfilter_false n : wf_node n -> is_node n = true -> nfilter (fun _ => false) n = nempty.
Proof.
  induction n as [|cs IH] using node_ind'; intros Hw Hn; [done|]. rewrite nfilter_Node. f_equal.
  apply elem_of_nil_inv. intros c' (c & Hc & E)%list_elem_of_omap.
  pose proof (wf_child_kind _ _ Hw Hc) as Hk. pose proof (wf_child _ _ Hw Hc) as Hwc.
  rewrite Forall_forall in IH. unfold filter_child in E. change c.1.1 with (child_mode c) in E.
  destruct (is_tree (child_mode c)); [|by destruct (is_commit (child_mode c))].
  change c.2 with (child_node c) in E. by rewrite (IH c Hc Hwc) in E.
Qed.

(** * Rebuilding a tree *)

Section Walk.
Context `{ObjectHash} `{BisectEntry} `{EntryModes} `{RegexReplace} `{GlobKeys}.

(** What a round of the loop does to the rebuilt tree. *)
Definition rebuild_child (keep : list string -> bool) (r : TreeRebuild.t) (c : child) :
    TreeRebuild.t :=
  if is_tree c.1.1 then
    rebuild_dir r (child_entry_of c) (node_oid (nfilter (fun p => keep (c.1.2 :: p)) c.2))
  else if is_commit c.1.1 then TreeRebuild.mark_changed r
  else if keep [c.1.2] then TreeRebuild.keep r (child_entry_of c)
  else TreeRebuild.mark_changed r.

(** The results for the directories of a tree are stored. *)
Definition sub_present (keep : list string -> bool) (c : child) (o : odb) : Prop :=
  is_tree c.1.1 = true -> present o (nfilter (fun p => keep (c.1.2 :: p)) c.2).

Lemma rebuild_spec o keep (cs : list child) :
  odb_ok o -> (forall c, c ∈ cs -> present o (child_node c)) ->
  (forall c, c ∈ cs -> sub_present keep c o) ->
  let r := foldl (rebuild_child keep) TreeRebuild.new cs in
  TreeRebuild.out r = entries (omap (filter_child keep) cs) /\
  (TreeRebuild.changed r = false -> omap (filter_child keep) cs = cs).
Proof.
  intros Hok. induction cs as [|c cs IH] using rev_ind; intros Hc Hp; [done|]. cbv zeta.
  destruct IH as [Ho Hch]; [intros; apply Hc; set_solver|intros; apply Hp; set_solver|].
  specialize (Hc c ltac:(set_solver)). specialize (Hp c ltac:(set_solver)).
  rewrite foldl_app. cbn [foldl]. set (r := foldl _ _ cs) in *. clearbody r.
  assert (omap (filter_child keep) (cs ++ [c]) = omap (filter_child keep) cs ++
    match filter_child keep c with Some c' => [c'] | None => [] end) as ->.
  { rewrite omap_app. simpl. by destruct (filter_child keep c). }
  set (F := omap (filter_child keep) cs) in *. clearbody F.
  rewrite fmap_app, <- Ho. unfold sub_present in Hp.
  unfold rebuild_child, filter_child, rebuild_dir. destruct (is_tree c.1.1).
  - specialize (Hp eq_refl). set (x := nfilter _ c.2) in *.
    pose proof (node_oid_empty o x Hok Hp) as He.
    destruct (decide (x = nempty)) as [Hx|Hx].
    + rewrite (decide_False (P := node_oid x ≠ empty_id)) by (rewrite He; tauto).
      rewrite decide_True by (right; by apply He). simpl. by rewrite app_nil_r.
    + rewrite (decide_True (P := node_oid x ≠ empty_id)) by (rewrite He; tauto).
      split; [by case_decide|]. case_decide as Hd; simpl; [done|]. intros Hf.
      rewrite (Hch Hf). f_equal. f_equal. apply Decidable.not_or in Hd as [Hd _].
      destruct (decide (node_oid x = node_oid c.2)) as [E|]; [|by destruct Hd].
      apply (node_oid_inj o) in E as ->; [by destruct c|done|done].
  - destruct (is_commit c.1.1); [by simpl; rewrite app_nil_r|].
    destruct (keep [c.1.2]); simpl; [|by rewrite app_nil_r].
    split; [done|]. intros Hf. by rewrite (Hch Hf).
Qed.

Lemma all_valid_wf cs : wf_node (Node cs) -> all_valid cs.
Proof. by intros [? _]%wf_node_Node. Qed.

(** The loop and the writing of its result. *)
Lemma rebuild_yields o keep (cs : list child) (body : TreeRebuild.t -> entry -> txm TreeRebuild.t) :
  good o (Node cs) ->
  (forall c r o', c ∈ cs -> odb_ok o' -> odb_extends o o' ->
     yields o' (body r (child_entry_of c)) (rebuild_child keep r c) (sub_present keep c)) ->
  yields o (rebuild ← foldM body TreeRebuild.new (entries cs);
            TreeRebuild.finish rebuild (node_oid (Node cs)))
    (node_oid (nfilter keep (Node cs))) (fun o' => present o' (nfilter keep (Node cs))).
Proof.
  intros Hg Hb. eapply yields_bind.
  { apply (yields_foldM o child_entry_of body (rebuild_child keep) (sub_present keep)).
    - intros c o1 o2 He Hp Ht. eapply present_extends; [done|]. by apply Hp.
    - intros c r o' Hc Hok He. by apply Hb. }
  intros o1 Hok He Hsub. eapply good_extends in Hg; [|exact He].
  assert (forall c, c ∈ cs -> present o1 (child_node c)) as Hpc.
  { intros c Hc. eapply present_children; [apply Hg|done]. }
  destruct (rebuild_spec o1 keep cs Hok Hpc Hsub) as [Ho Hch].
  set (r := foldl _ _ cs) in *. clearbody r. unfold TreeRebuild.finish.
  destruct (TreeRebuild.changed r).
  - rewrite Ho, nfilter_Node. apply write_tree_now_yields.
    + apply all_valid_wf. rewrite <- nfilter_Node. apply nfilter_wf, Hg.
    + intros c' (c & Hc & E)%list_elem_of_omap. unfold filter_child in E.
      destruct (is_tree c.1.1) eqn:Et.
      * case_decide; [done|]. injection E as <-. by apply (Hsub c Hc).
      * destruct (is_commit c.1.1); [done|]. destruct (keep [c.1.2]); [|done].
        injection E as <-. by apply Hpc.
  - rewrite nfilter_Node, (Hch eq_refl). apply yields_ret.
    intros o' _ He'. eapply present_extends; [done|apply Hg].
Qed.

Lemma insert_glob_ok t a key s :
  tx_ok t -> good (tx_odb t) a -> present (tx_odb t) (glob_meaning key s a) ->
  tx_ok (insert_glob (node_oid a, key, s) (node_oid (glob_meaning key s a)) t).
Proof.
  intros [? ? ? ? ? Hg] Ha Hp. split; simpl; try done. unfold or_insert.
  destruct (GLOB_MAP t !! _); [done|].
  intros x k' s' z [[[= <- <- <-] <-]|[_ Hz]]%lookup_insert_Some; [|by apply Hg].
  by exists a.
Qed.

(** The memo around a walk: a hit is the result, a result is recorded. *)
Lemma glob_memo_yields o a key s x (m : txm oid) :
  good o a -> x = glob_meaning key s a ->
  (forall o', odb_ok o' -> odb_extends o o' ->
     yields o' m (node_oid x) (fun o' => present o' x)) ->
  yields o (cached ← gets (fun t => GLOB_MAP t !! (node_oid a, key, s));
            match cached with
            | Some r => mret r
            | None => result ← m;
                      modify (insert_glob (node_oid a, key, s) result) ≫= fun _ => mret result
            end) (node_oid x) (fun o' => present o' x).
Proof.
  intros Ha -> Hm. apply yields_gets. intros t Ht He.
  eapply good_extends in Ha; [|exact He].
  destruct (GLOB_MAP t !! (node_oid a, key, s)) as [z|] eqn:Ez.
  - destruct (tx_glob_ok t Ht _ _ _ _ Ez) as (a' & Ea & -> & Ha' & Hp).
    apply (node_oid_inj (tx_odb t)) in Ea as <-; [|apply Ha|apply Ha'].
    apply yields_ret. intros o' _ He'. by eapply present_extends.
  - eapply yields_bind; [apply Hm; [apply Ht|done]|]. intros o1 Hok He1 Hp.
    apply finish_memo; [|done]. intros t1 Ht1 He2. split; [|done].
    apply insert_glob_ok; [done| |by eapply present_extends].
    eapply good_extends; [|exact Ha]. by eapply odb_extends_trans.
Qed.

Lemma yields_equiv {A} o (m m' : txm A) a Q :
  (forall t, m t = m' t) -> yields o m a Q -> yields o m' a Q.
Proof. intros E Hm t Ht He. rewrite <- E. by apply Hm. Qed.

Lemma bind_assoc {A B C} (m : txm A) (k : A -> txm B) (h : B -> txm C) t :
  ((m ≫= k) ≫= h) t = (m ≫= fun a => k a ≫= h) t.
Proof. unfold mbind, M_bind. by destruct (m t) as [[] ?]. Qed.

Lemma require_tree_yields o what cs :
  present o (Node cs) ->
  yields o (require_tree what (node_oid (Node cs))) (entries cs) (fun _ => True).
Proof.
  intros Hp. eapply yields_bind; [by apply read_tree_bytes_yields|]. intros o1 Hok He _.
  by apply yields_ret.
Qed.

(** A walk: the memo, the read, the loop and the write. *)
Lemma walk_yields o what keep cs key s (body : TreeRebuild.t -> entry -> txm TreeRebuild.t) :
  good o (Node cs) -> nfilter keep (Node cs) = glob_meaning key s (Node cs) ->
  (forall c r o', c ∈ cs -> odb_ok o' -> odb_extends o o' ->
     yields o' (body r (child_entry_of c)) (rebuild_child keep r c) (sub_present keep c)) ->
  yields o (cached ← gets (fun t => GLOB_MAP t !! (node_oid (Node cs), key, s));
            match cached with
            | Some r => mret r
            | None =>
                tree ← require_tree what (node_oid (Node cs));
                rebuild ← foldM body TreeRebuild.new tree;
                result ← TreeRebuild.finish rebuild (node_oid (Node cs));
                modify (insert_glob (node_oid (Node cs), key, s) result) ≫= fun _ => mret result
            end) (node_oid (nfilter keep (Node cs)))
    (fun o' => present o' (nfilter keep (Node cs))).
Proof.
  intros Hg Hk Hb. eapply yields_equiv.
  2: { apply (glob_memo_yields o (Node cs) key s _ (tree ← require_tree what (node_oid (Node cs));
         rebuild ← foldM body TreeRebuild.new tree;
         TreeRebuild.finish rebuild (node_oid (Node cs))) Hg Hk).
    intros o' Hok He. eapply yields_bind; [apply require_tree_yields; eapply present_extends; [done|apply Hg]|].
    intros o1 Hok1 He1 _. apply rebuild_yields.
    - eapply good_extends; [done|]. by eapply good_extends.
    - intros c r o2 Hc Hok2 He2. apply Hb; [done|done|].
      eapply odb_extends_trans; [done|]. by eapply odb_extends_trans. }
  intros t. unfold mbind, M_bind, gets. cbv beta iota. destruct (GLOB_MAP t !! _); [done|].
  destruct (require_tree _ _ t) as [[l| |] t1]; [|done|done].
  by destruct (foldM _ _ l t1) as [[] ?].
Qed.

Lemma utf8_name_yields o c err :
  valid_utf8 (child_name c) = true ->
  yields o (utf8_name (child_entry_of c) err) (name_chars (child_name c)) (fun _ => True).
Proof.
  unfold valid_utf8, utf8_name, name_chars. change (filename (child_entry_of c)) with (child_name c).
  destruct (chars (child_name c)); [|done]. intros _. by apply yields_ret.
Qed.

(** The loop body of both walks, given the walk on a directory. *)
Lemma walk_body_yields o keep c r (m : list char -> txm oid) keep_file err :
  valid_utf8 (child_name c) = true ->
  keep_file (name_chars (child_name c)) = keep [child_name c] ->
  (is_tree (child_mode c) = true -> forall o', odb_ok o' -> odb_extends o o' ->
     yields o' (m (name_chars (child_name c)))
       (node_oid (nfilter (fun p => keep (child_name c :: p)) (child_node c)))
       (fun o' => present o' (nfilter (fun p => keep (child_name c :: p)) (child_node c)))) ->
  yields o
    (name ← utf8_name (child_entry_of c) err;
     if is_tree (mode (child_entry_of c)) then
       s ← m name; mret (rebuild_dir r (child_entry_of c) s)
     else if is_commit (mode (child_entry_of c)) then mret (TreeRebuild.mark_changed r)
     else if keep_file name then mret (TreeRebuild.keep r (child_entry_of c))
     else mret (TreeRebuild.mark_changed r))
    (rebuild_child keep r c) (sub_present keep c).
Proof.
  intros Hu Hf Hm. eapply yields_bind; [by apply utf8_name_yields|]. intros o1 Hok He _.
  unfold rebuild_child, sub_present. change (mode (child_entry_of c)) with (child_mode c).
  change c.1.1 with (child_mode c). change c.1.2 with (child_name c). rewrite Hf.
  destruct (is_tree (child_mode c)).
  - eapply yields_bind; [by apply Hm|]. intros o2 _ _ Hp. apply yields_ret.
    intros o3 _ He3 _. by eapply present_extends.
  - destruct (is_commit (child_mode c)); [by apply yields_ret|].
    destruct (keep [child_name c]); by apply yields_ret.
Qed.

(** What a pattern key stands for. *)
Definition pattern_key (key : oid) (cp : compiled_pattern) : Prop :=
  forall s a, glob_meaning key s a =
    nfilter (fun p => walk_closed cp s (name_chars <$> p)) a.

Lemma remove_pattern_yields n o a cp key s :
  pattern_key key cp -> good o a -> is_node a = true -> utf8_node a -> height a <= n ->
  yields o (remove_pattern n (node_oid a) cp key s)
    (node_oid (nfilter (fun p => walk cp s (name_chars <$> p)) a))
    (fun o' => present o' (nfilter (fun p => walk cp s (name_chars <$> p)) a)).
Proof.
  intros Hkey. revert o a s. induction n as [|n IH]; intros o a s Hg Hk Hu Hn.
  { pose proof (height_pos a). lia. }
  destruct a as [|cs]; [done|]. unfold walk. cbn [remove_pattern].
  set (c0 := closure cp s). apply walk_yields; [done|by rewrite Hkey|].
  intros c r o' Hc Hok He. apply utf8_Node in Hu. rewrite Forall_forall in Hu.
  destruct (Hu c Hc) as [Huc Hun]. cbv beta zeta. clearbody c0.
  pose proof (walk_body_yields o' (fun p => walk_closed cp c0 (name_chars <$> p)) c r (fun name =>
    if (next_state cp c0 name =? 0)%Z then mret empty_id
    else remove_pattern n (entry_oid (child_entry_of c)) cp key (next_state cp c0 name))
    (keep_blob cp c0) "INVALID_FILENAME" Huc eq_refl) as Hbody.
  apply Hbody. clear Hbody.
  intros Ht o2 Hok2 He2.
  assert (good o2 (child_node c)) as Hgc.
  { eapply good_extends; [done|]. eapply good_extends; [done|]. by eapply good_child. }
  assert (is_node (child_node c) = true) as Hkc.
  { rewrite <- (wf_child_kind _ _ (proj1 Hg) Hc). done. }
  set (nm := name_chars (child_name c)).
  destruct (next_state cp c0 nm =? 0)%Z eqn:E0.
  - assert (nfilter (fun p => walk_closed cp c0 (name_chars <$> child_name c :: p)) (child_node c)
      = nempty) as ->.
    { rewrite <- (nfilter_false (child_node c)) by (done || apply Hgc).
      apply nfilter_ext. intros [|s1 p] Hp; [done|]. simpl. fold nm. by rewrite E0. }
    apply yields_ret. intros o3 Hok3 _. by apply present_nempty.
  - rewrite (nfilter_ext _ (fun p => walk cp (next_state cp c0 nm) (name_chars <$> p))).
    2: { intros [|s1 p] Hp; [done|]. simpl. fold nm. by rewrite E0. }
    apply IH; [done|done|done|]. apply height_child in Hc. lia.
Qed.

(** The key [remove_pred] uses at a path, and what it stands for. *)
Definition pred_root_key (key : oid) (path : string) : oid :=
  compute_hash (OBlob ("glob-fallback:" +:+ key +:+ ":" +:+ path)).

Definition path_text (path : string) (p : list string) : string := foldl child_path path p.

Definition pred_key (key : oid) (pred : string -> bool -> bool) : Prop :=
  forall path a, glob_meaning (pred_root_key key path) 0 a =
    nfilter (fun p => pred (path_text path p) true) a.

Lemma remove_pred_yields n o a pred key path :
  pred_key key pred -> good o a -> is_node a = true -> utf8_node a -> height a <= n ->
  yields o (remove_pred n path (node_oid a) pred key)
    (node_oid (nfilter (fun p => pred (path_text path p) true) a))
    (fun o' => present o' (nfilter (fun p => pred (path_text path p) true) a)).
Proof.
  intros Hkey. revert o a path. induction n as [|n IH]; intros o a path Hg Hk Hu Hn.
  { pose proof (height_pos a). lia. }
  destruct a as [|cs]; [done|]. cbn [remove_pred].
  fold (pred_root_key key path). apply walk_yields; [done|by rewrite Hkey|].
  intros c r o' Hc Hok He. apply utf8_Node in Hu. rewrite Forall_forall in Hu.
  destruct (Hu c Hc) as [Huc Hun]. cbv beta zeta.
  pose proof (walk_body_yields o' (fun p => pred (path_text path p) true) c r (fun _ =>
    remove_pred n (child_path path (filename (child_entry_of c)))
      (entry_oid (child_entry_of c)) pred key)
    (fun _ => pred (child_path path (filename (child_entry_of c))) true)
    "INVALID_FILENAME" Huc eq_refl) as Hbody.
  apply Hbody. clear Hbody. intros Ht o2 Hok2 He2. apply IH; [|by rewrite <- (wf_child_kind _ _ (proj1 Hg) Hc)|done|].
  - eapply good_extends; [done|]. eapply good_extends; [done|]. by eapply good_child.
  - apply height_child in Hc. lia.
Qed.

(** The names of a file of the tree. *)
Lemma file_names m n p x :
  wf_node n -> utf8_node n -> file_at m n p = Some x -> Forall name_ok (name_chars <$> p).
Proof.
  revert m n. induction p as [|s p IH]; intros m n Hw Hu Hf; [constructor|].
  destruct n as [|cs]; [done|]. simpl in Hf. apply bind_Some in Hf as (c & Hc & Hf).
  apply nfind_Some in Hc as [Hc <-]. apply utf8_Node in Hu. rewrite Forall_forall in Hu.
  destruct (Hu c Hc) as [Huc Hun]. rewrite fmap_cons. constructor.
  - apply name_chars_ok; [|done]. by eapply wf_child_name.
  - eapply IH; [by eapply wf_child|done|done].
Qed.

(** C22: [remove_pattern] on a stored tree, from the initial state of a compiled pattern,
    returns the address of a stored, canonically ordered tree whose files, with their
    modes, are exactly the files of the input, submodules excepted, whose path the
    pattern matches.  It prunes, shares the results of equal subtrees in equal states
    through the memo table, and terminates within the height of the tree. *)
Theorem remove_pattern_correct n t a s cp key :
  compile s = inr cp -> fallback cp = false -> pattern_key key cp ->
  tx_ok t -> good (tx_odb t) a -> is_node a = true -> utf8_node a -> height a <= n ->
  exists r t',
    remove_pattern n (node_oid a) cp key initial_state t = (Ok (node_oid r), t') /\
    tx_ok t' /\ odb_extends (tx_odb t) (tx_odb t') /\ good (tx_odb t') r /\
    forall p x, leaf_at r p = Some x <->
      leaf_at a p = Some x /\ is_commit x.1 = false /\
      matches_tokens PATTERN_MATCH_OPTIONS (tokens (full cp)) true (path_chars (name_chars <$> p)).
Proof.
  intros Hc Hf Hkey Ht Ha Hk Hu Hn.
  exists (nfilter (fun p => walk cp initial_state (name_chars <$> p)) a).
  destruct (yields_run t _ _ (remove_pattern_yields n _ a cp key initial_state Hkey Ha Hk Hu Hn) Ht)
    as (t' & E & ? & ? & ?); [apply nfilter_wf, Ha|].
  exists t'. do 4 (split; [done|]). intros p x. unfold leaf_at.
  rewrite nfilter_files by (done || apply Ha). rewrite bind_Some.
  assert (forall y, file_at tree_mode a p = Some y ->
    walk cp initial_state (name_chars <$> p) = true <->
    matches_tokens PATTERN_MATCH_OPTIONS (tokens (full cp)) true (path_chars (name_chars <$> p)))
    as Hm.
  { intros y Hy. rewrite (walk_matches s) by
      (done || (by destruct p; [destruct a|]) || (eapply file_names; [apply Ha|done|done])).
    apply matches_exact; [|done]. apply compile_components in Hc as (Hp & _).
    by apply pattern_new_valid in Hp. }
  split.
  - intros (y & Hy & E'). destruct (negb (is_commit y.1)) eqn:Ec; [|done]. simpl in E'.
    destruct (walk cp initial_state (name_chars <$> p)) eqn:Ew; [|done]. injection E' as <-.
    apply negb_true_iff in Ec. split; [done|]. split; [done|]. by eapply Hm.
  - intros (Hy & Ec & Hmt). exists x. split; [done|]. apply (Hm _ Hy) in Hmt.
    by rewrite Ec, Hmt.
Qed.

(** [remove_pred], the walk for patterns of more than 63 components, returns the
    address of a stored, canonically ordered tree whose files, with their modes, are
    exactly the files of the input, submodules excepted, whose full path the predicate
    accepts, although results are shared through the memo table under keys that fold
    in the path. *)
Theorem remove_pred_correct n t a pred key :
  pred_key key pred ->
  tx_ok t -> good (tx_odb t) a -> is_node a = true -> utf8_node a -> height a <= n ->
  exists r t',
    remove_pred n EmptyString (node_oid a) pred key t = (Ok (node_oid r), t') /\
    tx_ok t' /\ odb_extends (tx_odb t) (tx_odb t') /\ good (tx_odb t') r /\
    forall p x, leaf_at r p = Some x <->
      leaf_at a p = Some x /\ is_commit x.1 = false /\
      pred (path_text EmptyString p) true = true.
Proof.
  intros Hkey Ht Ha Hk Hu Hn.
  exists (nfilter (fun p => pred (path_text EmptyString p) true) a).
  destruct (yields_run t _ _ (remove_pred_yields n _ a pred key EmptyString Hkey Ha Hk Hu Hn) Ht)
    as (t' & E & ? & ? & ?); [apply nfilter_wf, Ha|].
  exists t'. do 4 (split; [done|]). intros p x. unfold leaf_at.
  rewrite nfilter_files by (done || apply Ha). rewrite bind_Some. split.
  - intros (y & Hy & E'). destruct (negb (is_commit y.1)) eqn:Ec; [|done]. simpl in E'.
    destruct (pred _ true) eqn:Ew; [|done]. injection E' as <-.
    by apply negb_true_iff in Ec.
  - intros (Hy & Ec & Hp). exists x. split; [done|]. by rewrite Ec, Hp.
Qed.

End Walk.

(** * The theorems apply *)

#[local] Instance no_regex : RegexReplace := {| regex_replacen _ s _ := s |}.

(** The tree with the files [src/.x/c.rs], [src/a/b.rs] and [src/a/b.txt]. *)
Definition rust_tree : node :=
  Node [dir "src" [dir ".x" [file "c.rs" "3"]; dir "a" [file "b.rs" "1"; file "b.txt" "2"]]].

Definition rust_tx : tx :=
  fresh_tx (store_of ((OBlob <$> ["1"; "2"; "3"]) ++ tree_objects rust_tree)).

Lemma rust_tx_ok `{GlobKeys} : tx_ok rust_tx.
Proof. apply fresh_tx_ok, store_of_ok. Qed.

Lemma rust_tree_good : good (tx_odb rust_tx) rust_tree.
Proof.
  split; [|present_tree]. simpl. repeat (split || constructor || done || set_solver).
Qed.

Lemma remove_pattern_correct_witness :
  (exists r t', remove_pattern 4 (node_oid rust_tree) example_pattern "key" initial_state rust_tx =
      (Ok (node_oid r), t') /\
    leaf_at r ["src"; "a"; "b.rs"] = Some (blob_mode, compute_hash (OBlob "1"))) /\
  (remove_pattern 4 (node_oid rust_tree) example_pattern "key" initial_state rust_tx).1 =
    Ok (node_oid (Node [dir "src" [dir "a" [file "b.rs" "1"]]])).
Proof.
  split; [|vm_compute; reflexivity].
  destruct (remove_pattern_correct 4 rust_tx rust_tree
    [115; 114; 99; 47; 42; 42; 47; 42; 46; 114; 115]%Z example_pattern "key")
    as (r & t' & E & _ & _ & _ & Hr).
  - vm_compute. reflexivity.
  - vm_compute. reflexivity.
  - intros s a. reflexivity.
  - apply rust_tx_ok.
  - apply rust_tree_good.
  - reflexivity.
  - vm_compute. tauto.
  - vm_compute. lia.
  - exists r, t'. split; [exact E|]. apply Hr. split; [reflexivity|]. split; [reflexivity|].
    apply (matches_exact true); vm_compute; reflexivity.
Defined.

(** A predicate on full paths: [src/a/b.txt] only. *)
Definition txt_only (p : string) (_ : bool) : bool := bool_decide (p = "src/a/b.txt").

(** Keys that stand for this predicate at the path they fold in. *)
Definition key_path (root_key : oid) : string :=
  match read_field root_key with
  | Some (_, s) =>
      match read_field s with
      | Some (d, _) => (split_bytes (String.length "glob-fallback:key:") d).2
      | None => EmptyString
      end
  | None => EmptyString
  end.

Definition txt_keys : GlobKeys :=
  {| glob_meaning k _ a := nfilter (fun p => txt_only (path_text (key_path k) p) true) a |}.

Lemma txt_pred_key : @pred_key code_hash txt_keys "key" txt_only.
Proof.
  intros path a. unfold glob_meaning, txt_keys, key_path, pred_root_key.
  unfold compute_hash, code_hash, object_code. cbn [fields]. by rewrite !read_field_field.
Qed.

Lemma remove_pred_correct_witness :
  (exists r t', remove_pred 4 EmptyString (node_oid rust_tree) txt_only "key" rust_tx =
      (Ok (node_oid r), t') /\
    leaf_at r ["src"; "a"; "b.txt"] = Some (blob_mode, compute_hash (OBlob "2"))) /\
  (remove_pred 4 EmptyString (node_oid rust_tree) txt_only "key" rust_tx).1 =
    Ok (node_oid (Node [dir "src" [dir "a" [file "b.txt" "2"]]])).
Proof.
  split; [|vm_compute; reflexivity].
  destruct (remove_pred_correct (H3 := txt_keys) 4 rust_tx rust_tree txt_only "key")
    as (r & t' & E & _ & _ & _ & Hr).
  - apply txt_pred_key.
  - apply rust_tx_ok.
  - apply rust_tree_good.
  - reflexivity.
  - vm_compute. tauto.
  - vm_compute. lia.
  - exists r, t'. split; [exact E|]. apply Hr. split; [reflexivity|]. split; reflexivity.
Defined.
