(* ===== verification/NodePut.v ===== *)
(** Replacing what is at a path of a tree: the reference definition of
    [insert_oid], its effect on the files of the tree, and the refinement of the
    code to it. *)

From S2P Require Import Prelude Path Ops Objects Store TreeOps TreePaths Node.
From S2P Require Import NodeFacts Refine Concrete FileMap.

(** * Reference definitions *)

Definition kids (n : node) : list child := match n with Leaf _ => [] | Node cs => cs end.

Fixpoint nposition (name : string) (cs : list child) : option nat :=
  match cs with
  | [] => None
  | c :: cs => if decide (child_name c = name) then Some 0 else S <$> nposition name cs
  end.

(** The children with the child of a name replaced, or removed if its
    replacement is empty. *)
Definition nreplace (cs : list child) (m : entry_mode) (s : string) (x : node) : list child :=
  let out := base.filter (fun c => child_name c ≠ s) cs in
  if decide (x = nempty) then out
  else match nposition s cs with
       | Some pos => insert_at pos (m, s, x) out
       | None => ninsert (m, s, x) out
       end.

(** What is at a name, the empty tree if there is nothing. *)
Definition nsub (n : node) (s : string) : node :=
  match nfind s (kids n) with Some c => child_node c | None => nempty end.

Definition nget (n : node) (p : list string) : node := foldl nsub n p.

(** Replacing what is at a path, from the top down. *)
Fixpoint nput (n : node) (p : list string) (m : entry_mode) (x : node) : node :=
  match p with
  | [] => x
  | s :: p =>
      Node (nreplace (kids n) (match p with [] => m | _ => tree_mode end) s
        (nput (nsub n s) p m x))
  end.

(** The entry at a path. *)
Fixpoint nentry (n : node) (p : list string) : option child :=
  match p with
  | [] => None
  | s :: p =>
      c ← nfind s (kids n);
      match p with
      | [] => Some c
      | _ => if is_tree (child_mode c) then nentry (child_node c) p else None
      end
  end.

(** [q] without its prefix [p]. *)
Fixpoint strip (p q : list string) : option (list string) :=
  match p, q with
  | [], _ => Some q
  | s :: p, s' :: q => if decide (s = s') then strip p q else None
  | _, [] => None
  end.

(** Every replacement along the path keeps the kind of an entry that is there. *)
Fixpoint fits (n : node) (p : list string) (m : entry_mode) : bool :=
  match p with
  | [] => true
  | s :: p =>
      match nfind s (kids n) with
      | None => true
      | Some c =>
          Bool.eqb (is_tree (child_mode c)) (is_tree (match p with [] => m | _ => tree_mode end)) &&
          fits (child_node c) p m
      end
  end.

(** * Replacing a child *)

Lemma insert_sorted_split {A} (cmp : A -> A -> comparison) l e :
  exists l1 l2, l = l1 ++ l2 /\ insert_sorted cmp l e = l1 ++ e :: l2.
Proof.
  induction l as [|x l IH] using rev_ind; [by exists [], []|].
  rewrite insert_sorted_snoc. assert (exists l1 l2, l ++ [x] = l1 ++ l2 /\
    l ++ [x; e] = l1 ++ e :: l2) as Hlast.
  { exists (l ++ [x]), []. by rewrite app_nil_r, <- app_assoc. }
  destruct (cmp x e); [done|done|]. destruct IH as (l1 & l2 & -> & ->).
  exists l1, (l2 ++ [x]). by rewrite <- !app_assoc.
Qed.

Lemma nfind_app s (l1 l2 : list child) :
  nfind s (l1 ++ l2) = match nfind s l1 with Some c => Some c | None => nfind s l2 end.
Proof. induction l1 as [|c l1 IH]; [done|]. simpl. by case_decide. Qed.

Lemma nfind_filter s s' (cs : list child) :
  nfind s' (base.filter (fun c => child_name c ≠ s) cs) =
    if decide (s' = s) then None else nfind s' cs.
Proof.
  induction cs as [|c cs IH]; [simpl; by case_decide|]. rewrite filter_cons.
  destruct (decide (child_name c ≠ s)); cbn [nfind]; rewrite IH; repeat case_decide; naive_solver.
Qed.

Lemma nfind_insert_at s' pos (c : child) (l : list child) :
  nfind (child_name c) l = None ->
  nfind s' (insert_at pos c l) = if decide (child_name c = s') then Some c else nfind s' l.
Proof.
  intros Hc. unfold insert_at. rewrite nfind_app. simpl.
  pose proof (fun s => nfind_app s (take pos l) (drop pos l)) as Hl. rewrite take_drop in Hl.
  rewrite (Hl s'). rewrite Hl in Hc.
  destruct (nfind (child_name c) (take pos l)) eqn:E; [done|]. case_decide as Hs; [|done].
  subst s'. by rewrite E.
Qed.

Lemma ninsert_at c (cs : list child) : exists pos, ninsert c cs = insert_at pos c cs.
Proof.
  destruct (insert_sorted_split child_cmp cs c) as (l1 & l2 & -> & E).
  exists (length l1). unfold ninsert, insert_at. by rewrite E, take_app_length, drop_app_length.
Qed.

(** The new child is an insertion at some position among the others. *)
Lemma nreplace_at cs m s x :
  x ≠ nempty -> exists pos, nreplace cs m s x =
    insert_at pos (m, s, x) (base.filter (fun c => child_name c ≠ s) cs).
Proof.
  intros Hx. unfold nreplace. rewrite decide_False by done.
  destruct (nposition s cs); [by eexists|apply ninsert_at].
Qed.

Lemma nfind_nreplace cs m s x s' :
  nfind s' (nreplace cs m s x) =
    if decide (s = s') then (if decide (x = nempty) then None else Some (m, s, x))
    else nfind s' cs.
Proof.
  destruct (decide (x = nempty)) as [->|Hx].
  - unfold nreplace. rewrite decide_True, nfind_filter by done. repeat case_decide; naive_solver.
  - destruct (nreplace_at cs m s x Hx) as [pos ->].
    rewrite nfind_insert_at by (rewrite nfind_filter; by rewrite decide_True).
    rewrite nfind_filter. unfold child_name. simpl. repeat case_decide; naive_solver.
Qed.

(** * The files of the result *)

Lemma file_at_kids m n s q :
  file_at m n (s :: q) = c ← nfind s (kids n); file_at (child_mode c) (child_node c) q.
Proof. by destruct n. Qed.

Lemma file_at_nput m0 n p m x q :
  p ≠ [] ->
  file_at m0 (nput n p m x) q =
    match strip p q with
    | Some r => file_at m x r
    | None => if decide (q `prefix_of` p) then None else file_at m0 n q
    end.
Proof.
  revert m0 n q. induction p as [|s p IH]; intros m0 n q Hp; [done|]. clear Hp.
  destruct q as [|s' q]; cbn [nput].
  { cbn [strip file_at]. rewrite decide_True; [done|apply prefix_nil]. }
  rewrite file_at_kids. cbn [kids strip]. rewrite nfind_nreplace. case_decide as Hs; subst.
  2: { rewrite decide_False; [by rewrite file_at_kids|]. by intros ?%prefix_cons_inv_1. }
  set (sub := nput (nsub n s') p m x).
  transitivity (file_at (match p with [] => m | _ => tree_mode end) sub q).
  { case_decide as Hsub; simpl; [by rewrite Hsub, file_at_nempty|done]. }
  subst sub. destruct p as [|s p]; [done|]. rewrite IH by done.
  destruct (strip (s :: p) q) as [r|] eqn:Er; [done|].
  destruct (decide (q `prefix_of` s :: p)) as [Hq|Hq].
  { rewrite decide_True; [done|]. by apply prefix_cons. }
  rewrite decide_False by (by intros Hq'%prefix_cons_inv_2).
  destruct q as [|s2 q]; [destruct Hq; apply prefix_nil|]. rewrite (file_at_kids m0 n).
  unfold nsub. destruct (nfind s' (kids n)) as [c|]; [done|by rewrite file_at_nempty].
Qed.

(** The entry at the path is the new one. *)
Lemma nput_nonempty n p m x : x ≠ nempty -> nput n p m x ≠ nempty.
Proof.
  destruct p as [|s p]; [done|]. revert n s. induction p as [|s' p IH]; intros n s Hx E.
  - injection E as E. pose proof (nfind_nreplace (kids n) m s x s) as Hf.
    by rewrite E, decide_True, decide_False in Hf.
  - cbn [nput] in E. injection E as E.
    pose proof (nfind_nreplace (kids n) tree_mode s (nput (nsub n s) (s' :: p) m x) s) as Hf.
    cbn [nput] in Hf. rewrite E, decide_True, decide_False in Hf; [done| |done].
    by apply (IH (nsub n s) s').
Qed.

Lemma nentry_nput n p s m x :
  nentry (nput n (p ++ [s]) m x) (p ++ [s]) =
    if decide (x = nempty) then None else Some (m, s, x).
Proof.
  revert n. induction p as [|s' p IH]; intros n.
  - simpl. rewrite nfind_nreplace, decide_True by done. by case_decide.
  - cbn [app nput nentry kids]. rewrite nfind_nreplace, decide_True by done.
    destruct (p ++ [s]) as [|s2 p2] eqn:Ep; [by destruct p|].
    destruct (decide (x = nempty)) as [->|Hx].
    + case_decide; [done|]. simpl. apply IH.
    + rewrite decide_False by (by apply nput_nonempty). simpl. apply IH.
Qed.

(** * The code computes the reference result *)

Section Put.
Context `{ObjectHash} `{BisectEntry} `{EntryModes} `{GlobKeys}.

Lemma tree_bytes_yields o n :
  present o n -> yields o (tree_bytes (node_oid n)) (node_entries n) (fun _ => True).
Proof.
  intros Hp t Ht He. exists t. unfold tree_bytes, gets.
  split; [|split; [done|split; [apply odb_extends_refl|done]]].
  eapply present_extends in Hp; [|done]. destruct Hp as [id x Hx Hk|cs Hx _].
  - cbn [node_oid]. rewrite Hx. by destruct x.
  - by rewrite Hx.
Qed.

Lemma default_entries n : default [] (node_entries n) = entries (kids n).
Proof. by destruct n. Qed.

Lemma position_entries s (cs : list child) : position s (entries cs) = nposition s cs.
Proof.
  induction cs as [|c cs IH]; [done|]. rewrite fmap_cons. simpl. rewrite IH.
  unfold child_name. by case_decide.
Qed.

Lemma filter_entries s (cs : list child) :
  base.filter (fun e => filename e ≠ s) (entries cs) =
    entries (base.filter (fun c => child_name c ≠ s) cs).
Proof.
  induction cs as [|c cs IH]; [done|]. rewrite fmap_cons, !filter_cons, IH.
  change (filename (child_entry_of c)) with (child_name c).
  by destruct (decide (child_name c ≠ s)).
Qed.

Lemma insert_at_fmap {A B} (f : A -> B) pos x l : insert_at pos (f x) (f <$> l) = f <$> insert_at pos x l.
Proof. unfold insert_at. by rewrite fmap_app, fmap_cons, fmap_take, fmap_drop. Qed.

(** The id that stands for a tree: the zero address also removes. *)
Definition stands_for (id : oid) (x : node) : Prop :=
  id = node_oid x \/ (id = zero_oid /\ x = nempty).

Lemma stands_for_empty o id x :
  odb_ok o -> present o x -> stands_for id x -> id = zero_oid \/ id = empty_id <-> x = nempty.
Proof.
  intros Hok Hp [->|[-> ->]]; [|naive_solver].
  pose proof (node_oid_not_zero _ _ Hok Hp). rewrite <- (node_oid_empty o x) by done. naive_solver.
Qed.

Lemma elem_of_nreplace c cs m s x :
  c ∈ nreplace cs m s x -> (c = (m, s, x) /\ x ≠ nempty) \/ (c ∈ cs /\ child_name c ≠ s).
Proof.
  destruct (decide (x = nempty)) as [->|Hx].
  - unfold nreplace. rewrite decide_True by done. intros [? ?]%list_elem_of_filter. auto.
  - destruct (nreplace_at cs m s x Hx) as [pos ->]. unfold insert_at.
    set (l := base.filter _ cs). rewrite elem_of_app, elem_of_cons. intros Hc.
    assert (c = (m, s, x) \/ c ∈ l) as [->|[? ?]%list_elem_of_filter]; [|auto|auto].
    rewrite <- (take_drop pos l), elem_of_app. tauto.
Qed.

Lemma replace_child_yields o n s id mz m x :
  present o n -> present o x -> all_valid (kids n) -> valid_name s = true ->
  stands_for id x -> x = nempty \/ mode_try_from mz = Some m ->
  yields o (replace_child s id mz (node_oid n)) (node_oid (Node (nreplace (kids n) m s x)))
    (fun o' => present o' (Node (nreplace (kids n) m s x))).
Proof.
  intros Hn Hx Hv Hs Hid Hm. eapply yields_bind; [by apply tree_bytes_yields|].
  intros o1 Hok He _. cbv zeta. rewrite default_entries, position_entries, filter_entries.
  eapply present_extends in Hn; [|exact He]. eapply present_extends in Hx; [|exact He].
  pose proof (stands_for_empty _ _ _ Hok Hx Hid) as Hiff.
  assert (yields o1 (write_tree_now (entries (nreplace (kids n) m s x)))
    (node_oid (Node (nreplace (kids n) m s x)))
    (fun o' => present o' (Node (nreplace (kids n) m s x)))) as Hw.
  { apply write_tree_now_yields.
    - apply Forall_forall. intros c [[-> _]|[Hc _]]%elem_of_nreplace; [done|].
      by rewrite Forall_forall in Hv; apply Hv.
    - intros c [[-> _]|[Hc _]]%elem_of_nreplace; [done|].
      destruct n as [|cs]; [by apply not_elem_of_nil in Hc|]. by eapply present_children. }
  unfold nreplace in Hw |- *. destruct (decide (x = nempty)) as [Hxe|Hxe].
  - rewrite decide_True by tauto. done.
  - rewrite decide_False by tauto. destruct Hm as [?| ->]; [done|].
    assert (id = node_oid x) as -> by (destruct Hid as [?|[_ ?]]; done).
    destruct (nposition s (kids n)) as [pos|].
    + rewrite <- (insert_at_fmap child_entry_of pos (m, s, x)) in Hw. exact Hw.
    + rewrite <- entries_ninsert in Hw. exact Hw.
Qed.

(** Names that are valid and not repeated, in the whole tree. *)
Fixpoint uniq (n : node) : Prop :=
  match n with
  | Leaf _ => True
  | Node cs =>
      Forall (fun c => valid_name c.1.2 = true) cs /\
      NoDup ((fun c : child => c.1.2) <$> cs) /\
      foldr (fun c acc => uniq c.2 /\ acc) True cs
  end.

Lemma uniq_Node cs :
  uniq (Node cs) <->
  all_valid cs /\ NoDup (names cs) /\ Forall (fun c => uniq (child_node c)) cs.
Proof.
  simpl. enough (foldr (fun c acc => uniq c.2 /\ acc) True cs <->
    Forall (fun c => uniq (child_node c)) cs) as -> by done.
  induction cs as [|c cs IH]; simpl; [split; [constructor|done]|].
  by rewrite Forall_cons, IH.
Qed.

Lemma wf_uniq n : wf_node n -> uniq n.
Proof.
  induction n as [|cs IH] using node_ind'; [done|].
  intros (Hv & Hn & _ & _ & Hc)%wf_node_Node. apply uniq_Node. split; [done|]. split; [done|].
  rewrite Forall_forall in *. intros c Hin. apply IH; [done|]. by apply Hc.
Qed.

Lemma uniq_nsub n s : uniq n -> uniq (nsub n s).
Proof.
  destruct n as [id|cs]; [repeat constructor|]. intros (_ & _ & Hc)%uniq_Node.
  unfold nsub. simpl.
  destruct (nfind s cs) as [c|] eqn:E; [|repeat constructor].
  rewrite Forall_forall in Hc. apply nfind_Some in E as [? _]. by apply Hc.
Qed.

Lemma uniq_kids n : uniq n -> all_valid (kids n) /\ NoDup (names (kids n)).
Proof. destruct n; [repeat constructor|]. by intros (? & ? & _)%uniq_Node. Qed.

Lemma uniq_nget n p : uniq n -> uniq (nget n p).
Proof. revert n. induction p as [|s p IH]; intros n Hn; [done|]. by apply IH, uniq_nsub. Qed.

Lemma present_nsub o n s : odb_ok o -> present o n -> present o (nsub n s).
Proof.
  intros Hok Hn. unfold nsub. destruct (nfind s (kids n)) as [c|] eqn:E; [|by apply present_nempty].
  apply nfind_Some in E as [Hc _]. destruct n; [by apply not_elem_of_nil in Hc|].
  by eapply present_children.
Qed.

Lemma nput_snoc n p s m x :
  nput n (p ++ [s]) m x = nput n p tree_mode (Node (nreplace (kids (nget n p)) m s x)).
Proof.
  revert n. induction p as [|s' p IH]; intros n; [done|]. cbn [app nput]. rewrite IH.
  by destruct p.
Qed.

Lemma descend_yields o n p :
  present o n -> uniq n ->
  yields o (foldM descend_step (node_oid n) (Normal <$> p)) (node_oid (nget n p))
    (fun o' => present o' (nget n p)).
Proof.
  revert o n. induction p as [|s p IH]; intros o n Hn Hu.
  { apply yields_ret. intros o' _ He. by eapply present_extends. }
  rewrite fmap_cons. cbn [foldM]. eapply yields_bind with (Q := fun o' => present o' (nsub n s)).
  2: { intros o' _ _ Hp. apply IH; [done|]. by apply uniq_nsub. }
  eapply yields_bind; [by apply tree_bytes_yields|]. intros o1 Hok He _.
  eapply present_extends in Hn; [|exact He]. apply (present_nsub _ _ s Hok) in Hn as Hp.
  assert (match node_entries n with
    | Some tree => match lookup_entry tree s (entries_canonically_sorted tree) with
                   | Some e => entry_oid e | None => empty_id end
    | None => empty_id end = node_oid (nsub n s)) as Hr.
  { unfold nsub. destruct n as [id|cs]; [done|]. simpl.
    rewrite lookup_entries by (by apply (uniq_kids (Node cs))). by destruct (nfind s cs). }
  simpl. rewrite Hr. apply yields_ret. intros o' _ He'. by eapply present_extends.
Qed.

Lemma insert_yields n o f p id mz m x :
  p ≠ [] -> length p <= n -> Forall (fun s => valid_name s = true) p ->
  present o f -> uniq f -> present o x -> stands_for id x ->
  x = nempty \/ mode_try_from mz = Some m ->
  yields o (insert_oid n (node_oid f) (Normal <$> p) id mz) (node_oid (nput f p m x))
    (fun o' => present o' (nput f p m x)).
Proof.
  revert o p id mz m x. induction n as [|n IH]; intros o p id mz m x Hp Hn Hv Hf Hu Hx Hid Hm.
  { destruct p; simpl in *; [done|lia]. }
  destruct p as [|s p _] using rev_ind; [done|]. clear Hp.
  apply Forall_app in Hv as [Hvp Hvs]. apply Forall_cons in Hvs as [Hvs _].
  rewrite length_app in Hn. simpl in Hn.
  destruct p as [|s' p].
  { simpl. apply replace_child_yields; auto. by apply uniq_kids. }
  rewrite fmap_app, nput_snoc. set (up := s' :: p) in *.
  assert (insert_oid (S n) (node_oid f) ((Normal <$> up) ++ [Normal s]) id mz =
    (st ← foldM descend_step (node_oid f) (Normal <$> up);
     subtree ← replace_child s id mz st;
     insert_oid n (node_oid f) (Normal <$> up) subtree tree_bits)) as E.
  { unfold up. rewrite fmap_cons. cbn [insert_oid app].
    change (Normal s' :: (Normal <$> p) ++ [Normal s]) with ((Normal <$> up) ++ [Normal s]).
    destruct ((Normal <$> p) ++ [Normal s]) eqn:E; [by destruct p|].
    unfold file_name, parent. by rewrite last_snoc, removelast_last. }
  change (Normal <$> [s]) with [Normal s]. rewrite E. clear E.
  eapply yields_bind; [by apply descend_yields|].
  intros o1 Hok1 He1 Hp1. eapply present_extends in Hx; [|exact He1].
  eapply yields_bind.
  { apply (replace_child_yields o1 (nget f up) s id mz m x); auto. by apply uniq_kids, uniq_nget. }
  intros o2 Hok2 He2 Hp2. apply IH; auto.
  - simpl in *. lia.
  - eapply present_extends; [|exact Hf]. by eapply odb_extends_trans.
  - by left.
  - right. apply mode_try_from_tree.
Qed.

(** ** Lookup *)

Lemma path_components_normal p : p ≠ [] -> path_components (Normal <$> p) = Some p.
Proof.
  intros Hp. unfold path_components.
  assert (forall acc, path_components_loop acc (Normal <$> p) = Some (acc ++ p)) as ->.
  { clear Hp. induction p as [|s p IH]; intros acc; simpl; [by rewrite app_nil_r|].
    by rewrite IH, <- app_assoc. }
  by destruct p.
Qed.

Definition nentry_below (c : child) (p : list string) : option child :=
  match p with
  | [] => Some c
  | _ => if is_tree (child_mode c) then nentry (child_node c) p else None
  end.

Lemma descend_entry_yields o c p :
  present o (child_node c) ->
  yields o (descend_entry (child_entry_of c) p) (child_entry_of <$> nentry_below c p)
    (fun _ => True).
Proof.
  revert o c. induction p as [|s p IH]; intros o c Hc; [by apply yields_ret|].
  cbn [descend_entry nentry_below]. unfold child_entry_of at 1. cbn [mode].
  destruct (is_tree (child_mode c)); simpl; [|by apply yields_ret].
  eapply yields_bind; [by apply read_tree_bytes_yields|]. intros o1 Hok He _.
  eapply present_extends in Hc; [|exact He].
  destruct (child_node c) as [id|cs] eqn:Ec; [by apply yields_ret|]. cbn [node_entries kids].
  rewrite find_entry_entries. destruct (nfind s cs) as [d|] eqn:Ed; [|by apply yields_ret].
  apply IH. apply nfind_Some in Ed as [Hd _]. by eapply present_children.
Qed.

Lemma get_path_entry_yields o n p :
  p ≠ [] -> present o n ->
  yields o (get_path_entry (node_oid n) (Normal <$> p)) (child_entry_of <$> nentry n p)
    (fun _ => True).
Proof.
  intros Hp Hn. eapply yields_bind; [by apply read_tree_bytes_yields|]. intros o1 Hok He _.
  eapply present_extends in Hn; [|exact He].
  destruct p as [|s p]; [done|]. destruct n as [id|cs]; [by apply yields_ret|].
  cbn [node_entries nentry kids]. unfold get_path_entry_at.
  rewrite path_components_normal, find_entry_entries by done.
  destruct (nfind s cs) as [c|] eqn:Ec; [|by apply yields_ret].
  apply (descend_entry_yields o1 c p). apply nfind_Some in Ec as [Hc _].
  by eapply present_children.
Qed.

End Put.

(** * Well-formed results *)

Definition subst_child (m : entry_mode) (s : string) (x : node) (c : child) : child :=
  if decide (child_name c = s) then (m, s, x) else c.

Lemma nposition_None s cs : nposition s cs = None <-> s ∉ names cs.
Proof.
  induction cs as [|c cs IH]; [set_solver|]. rewrite fmap_cons, not_elem_of_cons, <- IH. simpl.
  change c.1.2 with (child_name c). case_decide as Hc; [naive_solver|].
  destruct (nposition s cs); naive_solver.
Qed.

Lemma filter_absent s (cs : list child) :
  s ∉ names cs -> base.filter (fun c => child_name c ≠ s) cs = cs.
Proof.
  intros Hs. apply list_filter_all. intros c Hc E. apply Hs, list_elem_of_fmap.
  by exists c.
Qed.

Lemma subst_absent m s x (cs : list child) : s ∉ names cs -> subst_child m s x <$> cs = cs.
Proof.
  intros Hs. induction cs as [|c cs IH]; [done|].
  rewrite fmap_cons, not_elem_of_cons in Hs. destruct Hs as [Hc Hs].
  rewrite fmap_cons, IH by done. unfold subst_child. by rewrite decide_False by naive_solver.
Qed.

Lemma nreplace_map cs m s x :
  NoDup (names cs) -> s ∈ names cs -> x ≠ nempty ->
  nreplace cs m s x = subst_child m s x <$> cs.
Proof.
  intros Hn Hs Hx. unfold nreplace. rewrite decide_False by done.
  destruct (nposition s cs) as [k|] eqn:Ek; [|by apply nposition_None in Ek]. clear Hs.
  revert k Ek. induction cs as [|c cs IH]; intros k Ek; [done|].
  rewrite fmap_cons in Hn. apply NoDup_cons in Hn as [Hc Hn].
  rewrite fmap_cons, filter_cons. cbn [nposition] in Ek. unfold subst_child at 1.
  destruct (decide (child_name c = s)) as [<-|Hne].
  - injection Ek as <-. rewrite decide_False by tauto. unfold insert_at. simpl.
    by rewrite drop_0, filter_absent, subst_absent.
  - rewrite decide_True by done. destruct (nposition s cs) as [j|] eqn:Ej; [|done].
    injection Ek as <-. by rewrite <- (IH Hn j).
Qed.

Lemma filter_wf s cs : wf_node (Node cs) -> wf_node (Node (base.filter (fun c => child_name c ≠ s) cs)).
Proof.
  intros Hw.
  assert (base.filter (fun c => child_name c ≠ s) cs =
    omap (fun c => if decide (child_name c = s) then None else Some c) cs) as ->.
  { clear. induction cs as [|c cs IH]; [done|]. rewrite filter_cons, IH. simpl.
    by destruct (decide (child_name c = s)), (decide (child_name c ≠ s)). }
  apply omap_wf; [|done|].
  - intros c c'. by case_decide; intros [= <-].
  - intros c c' Hc. case_decide; [done|]. intros [= <-].
    apply wf_node_alt in Hw as [Hok _]. by rewrite Forall_forall in Hok; apply Hok.
Qed.

Lemma subst_child_key m s x c :
  (child_name c = s -> is_tree (child_mode c) = is_tree m) ->
  child_key (subst_child m s x c) = child_key c.
Proof.
  intros Hk. unfold subst_child. case_decide as Hc; [|done]. unfold child_key.
  rewrite (Hk Hc), Hc. done.
Qed.

Lemma nreplace_wf cs m s x :
  wf_node (Node cs) -> valid_name s = true -> wf_node x ->
  (x ≠ nempty -> is_tree m = is_node x) ->
  (forall c, nfind s cs = Some c -> is_tree (child_mode c) = is_tree m) ->
  wf_node (Node (nreplace cs m s x)).
Proof.
  intros Hw Hs Hx Hm Hk. destruct (decide (x = nempty)) as [->|Hne].
  { unfold nreplace. rewrite decide_True by done. by apply filter_wf. }
  specialize (Hm Hne). pose proof (wf_nodup _ Hw) as Hn.
  apply wf_node_alt in Hw as Hw'. destruct Hw' as (Hok & _ & Hss).
  assert (child_ok (m, s, x)) as Hnew by (repeat split; try done; by apply child_ok_not_empty).
  destruct (decide (s ∈ names cs)) as [Hin|Hout].
  - rewrite nreplace_map by done. apply wf_node_alt. split; [|split].
    + rewrite Forall_forall in *. intros c (d & -> & Hd)%list_elem_of_fmap.
      unfold subst_child. case_decide; auto.
    + assert (names (subst_child m s x <$> cs) = names cs) as ->; [|done].
      rewrite <- list_fmap_compose. apply list_fmap_ext. intros i c _. simpl.
      unfold subst_child, child_name. by case_decide.
    + assert (forall c, c ∈ cs -> child_key (subst_child m s x c) = child_key c) as Hkey.
      { intros c Hc. apply subst_child_key. intros <-. apply Hk. by apply nfind_elem. }
      clear - Hss Hkey. induction Hss as [|c cs Hss IH Hf]; [constructor|]. rewrite fmap_cons.
      constructor; [apply IH; intros; apply Hkey; by right|].
      rewrite Forall_forall in *. intros d' (d & -> & Hd)%list_elem_of_fmap. unfold key_lt.
      rewrite !Hkey by (left || by right). by apply Hf.
  - unfold nreplace. rewrite decide_False by done.
    rewrite (proj2 (nposition_None s cs) Hout), filter_absent by done.
    assert (all_valid cs) as Hv by (eapply Forall_impl; [exact Hok|]; intros ? []; done).
    apply wf_node_alt. split; [|split].
    + apply Forall_forall. intros c [->|Hc]%elem_of_ninsert; [done|].
      by rewrite Forall_forall in Hok; apply Hok.
    + rewrite ninsert_perm, fmap_cons. by apply NoDup_cons.
    + by apply ninsert_sorted.
Qed.

Lemma nput_wf n p m x :
  wf_node n -> wf_node x -> (x ≠ nempty -> is_tree m = is_node x) ->
  Forall (fun s => valid_name s = true) p -> fits n p m = true ->
  wf_node (nput n p m x).
Proof.
  intros Hn Hx Hm Hp. revert n Hn. induction Hp as [|s p Hs Hp IH]; intros n Hn Hf; [done|].
  cbn [nput]. assert (wf_node (Node (kids n))) as Hk by (by destruct n; [apply wf_nempty|]).
  cbn [fits] in Hf. assert (wf_node (nput (nsub n s) p m x)) as Hsub.
  { apply IH; unfold nsub; destruct (nfind s (kids n)) as [c|] eqn:E.
    - apply nfind_Some in E as [Hc _]. by eapply wf_child.
    - apply wf_nempty.
    - by apply andb_true_iff in Hf as [_ ?].
    - clear. by destruct p. }
  apply nreplace_wf; try done.
  - intros Hne. destruct p; [by apply Hm|done].
  - intros c Hc. rewrite Hc in Hf. apply andb_true_iff in Hf as [Hf _]. by apply eqb_prop.
Qed.

(** * Properties *)

Section Properties.
Context `{ObjectHash} `{BisectEntry} `{EntryModes} `{GlobKeys}.

(** C29: [insert_oid] puts an object at a path of a stored tree, in a number of steps
    bounded by the length of the path: below the path the result has the files of
    the object, the paths above it are no files (a file on the way is
    overwritten), and every other path has the file and mode it had.  With the zero
    or the empty-tree address it removes what is at the path.  If no entry on the
    way changes between file and directory, the result is again in canonical order
    and without empty directories. *)
Theorem insert_oid_correct n t f p id mz m x :
  tx_ok t -> present (tx_odb t) f -> uniq f -> present (tx_odb t) x -> stands_for id x ->
  x = nempty \/ mode_try_from mz = Some m ->
  Forall (fun s => valid_name s = true) p -> p ≠ [] -> length p <= n ->
  exists r t',
    insert_oid n (node_oid f) (Normal <$> p) id mz t = (Ok (node_oid r), t') /\
    tx_ok t' /\ odb_extends (tx_odb t) (tx_odb t') /\ present (tx_odb t') r /\
    (forall q, leaf_at r (p ++ q) = file_at m x q) /\
    (forall q, q `prefix_of` p -> q ≠ p -> leaf_at r q = None) /\
    (forall q, ~ comparable p q -> leaf_at r q = leaf_at f q) /\
    (wf_node f -> wf_node x -> (x ≠ nempty -> is_tree m = is_node x) ->
     fits f p m = true -> wf_node r).
Proof.
  intros Ht Hf Hu Hx Hid Hm Hv Hp Hn. exists (nput f p m x).
  destruct (insert_yields n _ f p id mz m x Hp Hn Hv Hf Hu Hx Hid Hm t Ht (odb_extends_refl _))
    as (t' & E & Ht' & He & Hr).
  exists t'. do 4 (split; [done|]). split; [|split; [|split]].
  - intros q. unfold leaf_at. rewrite file_at_nput by done.
    enough (strip p (p ++ q) = Some q) as -> by done. clear.
    induction p as [|s p IH]; [done|]. simpl. by rewrite decide_True.
  - intros q Hq Hne. unfold leaf_at. rewrite file_at_nput by done.
    rewrite decide_True by done. enough (strip p q = None) as -> by done.
    destruct Hq as [r ->]. clear - Hne. induction q as [|s q IH]; [|simpl].
    + destruct r; done.
    + rewrite decide_True by done. apply IH. intros E. apply Hne. simpl. by f_equal.
  - intros q Hq. unfold leaf_at. rewrite file_at_nput by done.
    rewrite decide_False by (intros ?; apply Hq; by right).
    enough (strip p q = None) as -> by done.
    destruct (strip p q) as [r|] eqn:E'; [|done]. destruct Hq. left. exists r. clear - E'.
    revert q E'. induction p as [|s p IH]; intros q E'; [by injection E' as ->|].
    destruct q as [|s' q]; [done|]. simpl in *. case_decide; [|done]. subst. by rewrite (IH q).
  - intros ? ? ? ?. by apply nput_wf.
Qed.

(** what [insert_oid] puts at a path is what [get_path_entry] finds there, with its
    name, mode and address, and after a removal there is nothing to find. *)
Theorem insert_then_get n t f p s id mz m x :
  tx_ok t -> present (tx_odb t) f -> uniq f -> present (tx_odb t) x -> stands_for id x ->
  x = nempty \/ mode_try_from mz = Some m ->
  Forall (fun s => valid_name s = true) (p ++ [s]) -> length p < n ->
  exists r t' t'',
    insert_oid n (node_oid f) (Normal <$> p ++ [s]) id mz t = (Ok r, t') /\
    get_path_entry r (Normal <$> p ++ [s]) t' =
      (Ok (if decide (x = nempty) then None else Some (Entry m s (node_oid x))), t'').
Proof.
  intros Ht Hf Hu Hx Hid Hm Hv Hn.
  assert (p ++ [s] ≠ []) as Hp by (by destruct p).
  assert (length (p ++ [s]) <= n) as Hl by (rewrite length_app; simpl; lia).
  destruct (insert_yields n _ f (p ++ [s]) id mz m x Hp Hl Hv Hf Hu Hx Hid Hm t Ht
    (odb_extends_refl _)) as (t' & E & Ht' & _ & Hr).
  destruct (get_path_entry_yields _ _ (p ++ [s]) Hp Hr t' Ht' (odb_extends_refl _))
    as (t'' & E' & _).
  eexists _, t', t''. split; [exact E|]. rewrite E', nentry_nput. by case_decide.
Qed.

End Properties.

Lemma insert_oid_correct_witness :
  (exists r t', insert_oid 2 (node_oid example_left) (components "a/n")
      (compute_hash (OBlob "7")) blob_bits example_tx = (Ok (node_oid r), t') /\
    leaf_at r ["a"; "n"] = Some (blob_mode, compute_hash (OBlob "7")) /\ wf_node r) /\
  (insert_oid 2 (node_oid example_left) (components "a/n")
     (compute_hash (OBlob "7")) blob_bits example_tx).1 =
    Ok (node_oid (Node [dir "a" [file "n" "7"; file "p" "1"; file "q" "2"]; file "l" "3";
      file "x" "4"])).
Proof.
  split; [|vm_compute; reflexivity].
  destruct (insert_oid_correct 2 example_tx example_left ["a"; "n"] (compute_hash (OBlob "7"))
    blob_bits blob_mode (example_blob "7") example_tx_ok (proj2 example_left_good)
    (wf_uniq _ (proj1 example_left_good))) as (r & t' & E & _ & _ & _ & Hr & _ & _ & Hw).
  - eapply present_leaf; [vm_compute; reflexivity|done].
  - by left.
  - by right.
  - by repeat constructor.
  - done.
  - done.
  - exists r, t'. split; [exact E|]. split; [apply (Hr [])|].
    apply Hw; [apply example_left_good|done|done|reflexivity].
Defined.

Lemma insert_then_get_witness :
  exists r t' t'',
    insert_oid 3 (node_oid example_left) (components "x/y") (compute_hash (OBlob "7"))
      blob_bits example_tx = (Ok r, t') /\
    get_path_entry r (components "x/y") t' =
      (Ok (Some (Entry blob_mode "y" (compute_hash (OBlob "7")))), t'').
Proof.
  apply (insert_then_get 3 example_tx example_left ["x"] "y" (compute_hash (OBlob "7"))
    blob_bits blob_mode (example_blob "7") example_tx_ok (proj2 example_left_good)
    (wf_uniq _ (proj1 example_left_good))).
  - eapply present_leaf; [vm_compute; reflexivity|done].
  - by left.
  - by right.
  - by repeat constructor.
  - simpl. lia.
Defined.

(** A file replaced by a directory keeps its position among the entries:
    putting [a/n] into a tree with the files [a] and [a.b] gives a tree object whose
    entries are not in canonical order. *)
Example insert_oid_not_canonical :
  let t := Node [file "a" "1"; file "a.b" "2"] in
  let r := Node [dir "a" [file "n" "7"]; file "a.b" "2"] in
  wf_node t /\
  (insert_oid 2 (node_oid t) (components "a/n") (compute_hash (OBlob "7")) blob_bits
     (fresh_tx (store_of (tree_objects t)))).1 = Ok (node_oid r) /\
  entries_canonically_sorted (entries (kids r)) = false.
Proof.
  split; [|split]; [|vm_compute; reflexivity..].
  simpl. repeat (split || constructor || done || set_solver).
Qed.
