(* ===== verification/NodeKeys.v ===== *)
(** Properties of the modes and names of all entries of a tree, kept by the reference
    operations, and trees determined by their files. *)

From S2P Require Import Prelude Path Ops Objects Store Utf8 Glob Pattern.
From S2P Require Import TreeOps TreePaths TreeWalk Node NodeFacts Refine FileMap NodeFilter NodePut.

(** * A property of every entry *)

Section Every.
Context (Q : entry_mode * string -> Prop).

Fixpoint every (n : node) : Prop :=
  match n with
  | Leaf _ => True
  | Node cs => foldr (fun c acc => (Q c.1 /\ every c.2) /\ acc) True cs
  end.

Lemma every_Node cs : every (Node cs) <-> Forall (fun c => Q c.1 /\ every (child_node c)) cs.
Proof.
  simpl. induction cs as [|c cs IH]; [split; [constructor|done]|].
  simpl. rewrite IH, Forall_cons. done.
Qed.

Lemma every_child cs c : every (Node cs) -> c ∈ cs -> Q c.1 /\ every (child_node c).
Proof. rewrite every_Node, Forall_forall. auto. Qed.

Lemma every_nempty : every nempty.
Proof. done. Qed.

Lemma every_omap f (cs : list child) :
  (forall c c', f c = Some c' -> c'.1 = c.1) ->
  every (Node cs) ->
  (forall c c', c ∈ cs -> f c = Some c' -> every c.2 -> every c'.2) ->
  every (Node (omap f cs)).
Proof.
  intros Hk He Hf. apply every_Node, Forall_forall.
  intros c' (c & Hc & E)%list_elem_of_omap. destruct (every_child cs c He Hc) as [HQ Hr].
  rewrite (Hk c c' E). split; [done|]. by eapply Hf.
Qed.

Lemma every_meet (op : node -> node -> node) keep (ca cb : list child) :
  Forall (fun c => forall b, every (child_node c) -> every (op (child_node c) b)) ca ->
  every (Node ca) -> every (Node (omap (meet_child op keep cb) ca)).
Proof.
  intros IH He. apply every_omap; [apply meet_child_key|done|].
  intros c c' Hc. unfold meet_child. destruct (nfind c.1.2 cb) as [d|].
  - case_decide; [done|]. intros [= <-] Hr. rewrite Forall_forall in IH. by apply IH.
  - destruct keep; [|done]. by intros [= <-].
Qed.

Lemma every_nsubtract a b : every a -> every (nsubtract a b).
Proof.
  revert b. induction a as [id|ca IH] using node_ind'; intros b He; [by rewrite nsubtract_leaf|].
  destruct b as [id|cb]; [done|]. rewrite nsubtract_Node. case_decide; [done|].
  apply every_meet; [|done]. eapply Forall_impl; [done|]. auto.
Qed.

Lemma every_nintersect a b : every a -> every (nintersect a b).
Proof.
  revert b. induction a as [id|ca IH] using node_ind'; intros b He.
  { simpl. by repeat case_decide. }
  destruct b as [id|cb]; [done|]. rewrite nintersect_Node. do 2 (case_decide; [done|]).
  apply every_meet; [|done]. eapply Forall_impl; [done|]. auto.
Qed.

Lemma every_noverlay a b : every a -> every b -> every (noverlay a b).
Proof.
  revert b. induction a as [id|ca IH] using node_ind'; intros b Ha Hb.
  { simpl. by repeat case_decide. }
  destruct b as [id|cb]; [simpl; by repeat case_decide|].
  rewrite noverlay_Node. do 3 (case_decide; [done|]). apply every_Node, Forall_forall.
  intros d [Hd|[Hd _]]%elem_of_add_new; [|by apply (every_child cb)].
  apply list_elem_of_fmap in Hd as (c & -> & Hc). rewrite over_child_key.
  destruct (every_child ca c Ha Hc) as [HQ Hr]. split; [done|].
  unfold over_child. destruct (nfind c.1.2 cb) as [e|] eqn:E; [|done].
  rewrite Forall_forall in IH. apply IH; [done|done|].
  apply nfind_Some in E as [E _]. by apply (every_child cb).
Qed.

Lemma every_nfilter keep a : every a -> every (nfilter keep a).
Proof.
  revert keep. induction a as [id|ca IH] using node_ind'; intros keep He; [done|].
  rewrite nfilter_Node. apply every_omap; [apply filter_child_key|done|].
  intros c c' Hc. unfold filter_child. rewrite Forall_forall in IH. case_match.
  - case_decide; [done|]. intros [= <-] Hr. by apply IH.
  - repeat case_match; try done. by intros [= <-].
Qed.

Lemma every_nsub n s : every n -> every (nsub n s).
Proof.
  destruct n as [|cs]; [done|]. intros He. unfold nsub. simpl.
  destruct (nfind s cs) as [c|] eqn:E; [|done]. apply nfind_Some in E as [E _].
  by apply (every_child cs).
Qed.

Lemma every_nput n p m x :
  every n -> every x -> (forall s, s ∈ p -> Q (tree_mode, s) /\ Q (m, s)) -> every (nput n p m x).
Proof.
  revert n. induction p as [|s p IH]; intros n Hn Hx Hp; [done|].
  cbn [nput]. apply every_Node, Forall_forall. intros c [[-> _]|[Hc _]]%elem_of_nreplace.
  - split; [destruct p; apply Hp; left|]. apply IH; [by apply every_nsub|done|].
    intros s' Hs'. apply Hp. by right.
  - destruct n as [|cs]; [by apply not_elem_of_nil in Hc|]. by apply (every_child cs).
Qed.

Lemma every_nentry n p c : every n -> nentry n p = Some c -> Q c.1 /\ every (child_node c).
Proof.
  revert n. induction p as [|s p IH]; intros n He; [done|]. simpl.
  destruct n as [|cs]; [done|]. simpl. destruct (nfind s cs) as [d|] eqn:E; [|done].
  apply nfind_Some in E as [E _]. destruct (every_child cs d He E) as [HQ Hr]. simpl.
  destruct p as [|s' p]; [by intros [= <-]|]. case_match; [|done]. by apply IH.
Qed.
End Every.

Lemma every_impl (Q R : entry_mode * string -> Prop) n :
  (forall k, Q k -> R k) -> every Q n -> every R n.
Proof.
  intros Hi. induction n as [|cs IH] using node_ind'; [done|]. rewrite !every_Node.
  rewrite !Forall_forall in *. intros He c Hc. destruct (He c Hc). auto.
Qed.

Lemma every_and (Q R : entry_mode * string -> Prop) n :
  every (fun k => Q k /\ R k) n <-> every Q n /\ every R n.
Proof.
  induction n as [|cs IH] using node_ind'; [done|].
  rewrite !every_Node, <- Forall_and, !Forall_forall in *.
  split; intros He c Hc; specialize (He c Hc); specialize (IH c Hc); tauto.
Qed.

(** Names in UTF-8. *)
Lemma utf8_every n : utf8_node n <-> every (fun k => valid_utf8 k.2 = true) n.
Proof.
  induction n as [|cs IH] using node_ind'; [done|].
  rewrite utf8_Node, every_Node, !Forall_forall in *.
  split; intros He c Hc; specialize (He c Hc); specialize (IH c Hc); unfold child_name in *; tauto.
Qed.

(** * Trees determined by their files *)

(** The entries of subtrees have the mode git writes for them. *)
Definition plain (n : node) : Prop := every (fun k => is_tree k.1 = true -> k.1 = tree_mode) n.

(** Two trees with the same files. *)
Definition same_files (a b : node) : Prop := forall p, leaf_at a p = leaf_at b p.

#[export] Instance same_files_equiv : Equivalence same_files.
Proof.
  split; [done| |]; intros a b; [by intros Hs p|]. intros c H1 H2 p. by rewrite H1.
Qed.

Lemma leaf_at_cons cs s p :
  leaf_at (Node cs) (s :: p) = c ← nfind s cs; file_at (child_mode c) (child_node c) p.
Proof. done. Qed.

(** The mode of the root matters only for a file. *)
Lemma file_at_root m n p : is_node n = true -> file_at m n p = leaf_at n p.
Proof. by destruct n, p. Qed.

Lemma same_files_child ca cb c :
  wf_node (Node ca) -> wf_node (Node cb) -> same_files (Node ca) (Node cb) -> c ∈ ca ->
  exists d, d ∈ cb /\ child_name d = child_name c /\
    forall p, file_at (child_mode c) (child_node c) p = file_at (child_mode d) (child_node d) p.
Proof.
  intros Ha Hb Hs Hc. pose proof (wf_child ca c Ha Hc) as Hw.
  pose proof (wf_child_not_empty ca c Ha Hc) as Hne.
  pose proof (nfind_elem ca c (wf_nodup _ Ha) Hc) as Hf.
  destruct (wf_has_file _ Hw Hne) as (q & Hq). rewrite <- (leaf_at_mode (child_mode c)) in Hq.
  pose proof (Hs (child_name c :: q)) as E. rewrite !leaf_at_cons, Hf in E. simpl in E.
  destruct (nfind (child_name c) cb) as [d|] eqn:Ed;
    [|simpl in E; rewrite E in Hq; by destruct Hq].
  apply nfind_Some in Ed as Hd. exists d. split; [apply Hd|]. split; [apply Hd|].
  intros p. specialize (Hs (child_name c :: p)). by rewrite !leaf_at_cons, Hf, Ed in Hs.
Qed.

Lemma same_files_eq a b :
  wf_node a -> wf_node b -> plain a -> plain b -> is_node a = true -> is_node b = true ->
  same_files a b -> a = b.
Proof.
  revert b. induction a as [id|ca IH] using node_ind'; intros [|cb] Ha Hb Pa Pb Na Nb Hs; try done.
  clear Na Nb.
  f_equal. assert (forall c d, c ∈ ca -> d ∈ cb -> child_name c = child_name d ->
    (forall p, file_at (child_mode c) (child_node c) p = file_at (child_mode d) (child_node d) p) ->
    c = d) as Heq.
  { intros c d Hc Hd En Hf. rewrite Forall_forall in IH.
    destruct (every_child _ ca c Pa Hc) as [Mc Pc], (every_child _ cb d Pb Hd) as [Md Pd].
    pose proof (wf_child_kind ca c Ha Hc) as Kc. pose proof (wf_child_kind cb d Hb Hd) as Kd.
    pose proof (wf_child ca c Ha Hc) as Wc. pose proof (wf_child cb d Hb Hd) as Wd.
    specialize (IH c Hc (child_node d) Wc Wd Pc Pd).
    destruct c as [[mc sc] nc], d as [[md sd] nd]. unfold child_mode, child_name, child_node in *.
    simpl in *. subst sd. specialize (Hf []) as E0.
    destruct nc as [ic|lc], nd as [jd|ld]; try done; simpl in *; [by injection E0 as -> ->|].
    rewrite (Mc Kc), (Md Kd) in *. f_equal. by apply IH. }
  apply wf_node_alt in Ha as Sa. apply wf_node_alt in Hb as Sb.
  apply sorted_unique; [apply Sa|apply Sb|]. intros c. split; intros Hc.
  - destruct (same_files_child ca cb c) as (d & Hd & En & Hf); try done. by rewrite (Heq c d).
  - destruct (same_files_child cb ca c) as (d & Hd & En & Hf); try done.
    rewrite <- (Heq d c); done.
Qed.

(** * The files of a tree as a list *)

Fixpoint leaves (m : entry_mode) (n : node) : list (list string * (entry_mode * oid)) :=
  match n with
  | Leaf id => [([], (m, id))]
  | Node cs => cs ≫= fun c => (fun x => (c.1.2 :: x.1, x.2)) <$> leaves c.1.1 c.2
  end.

Lemma file_at_leaves m n p x : file_at m n p = Some x -> (p, x) ∈ leaves m n.
Proof.
  revert m p. induction n as [id|cs IH] using node_ind'; intros m p.
  - destruct p; simpl; [intros [= <-]; left|done].
  - destruct p as [|s p]; [done|]. simpl. rewrite bind_Some. intros (c & Hc & Hf).
    apply nfind_Some in Hc as [Hc <-]. apply list_elem_of_bind. exists c. split; [|done].
    rewrite Forall_forall in IH. apply list_elem_of_fmap. exists (p, x). split; [done|]. by apply IH.
Qed.
