(* ===== verification/RevWalk.v ===== *)
(** The revision walkers of josh-gix-ext/src/revwalk.rs over the commits of an object
    source: the pruned topological walk ([RevWalk]) and the walk of [base..tip]
    ([RangeWalk]).

    Commits are interned: a node holds a commit's id and the indices of its parents, and a
    map finds the index of an id.  The two walkers differ in the marks of their nodes. *)

From S2P Require Import Prelude Path Ops Objects.

Open Scope nat_scope.

(** * Commits *)

(** [read_parent_oids]. *)
Definition read_parent_oids (find : oid -> option object) (id : oid) : res (list oid) :=
  match find id with
  | None => Err ("object " +:+ id +:+ " not found")
  | Some (OCommit c) => Ok (commit_parents c)
  | Some _ => Err ("object " +:+ id +:+ " is not a commit")
  end.

(** [ensure_commit]. *)
Definition ensure_commit (find : oid -> option object) (id : oid) : res unit :=
  match find id with
  | None => Err ("object " +:+ id +:+ " not found")
  | Some (OCommit _) => Ok tt
  | Some _ => Err ("object " +:+ id +:+ " is not a commit")
  end.

(** * Interned commits *)

Section Table.
Context {F : Type} (blank : F).

Record node := Node {
  node_oid : oid;
  node_parents : list nat;
  parsed : bool;
  marks : F;
}.

Record table := Table { nodes : list node; by_oid : gmap oid nat }.

Definition new_table : table := Table [] ∅.

(** [intern]. *)
Definition intern (id : oid) (t : table) : nat * table :=
  match by_oid t !! id with
  | Some i => (i, t)
  | None =>
      let i := length (nodes t) in
      (i, Table (nodes t ++ [Node id [] false blank]) (<[id := i]> (by_oid t)))
  end.

Fixpoint intern_all (ids : list oid) (t : table) : list nat * table :=
  match ids with
  | [] => ([], t)
  | id :: ids =>
      let '(i, t) := intern id t in
      let '(idx, t) := intern_all ids t in
      (i :: idx, t)
  end.

(** Indexing a vector panics outside of it. *)
Definition node_at (t : table) (i : nat) : res node :=
  match nodes t !! i with Some nd => Ok nd | None => Err "index out of bounds" end.

Definition set_marks (f : F -> F) (i : nat) (t : table) : table :=
  Table (alter (fun nd => Node (node_oid nd) (node_parents nd) (parsed nd) (f (marks nd))) i (nodes t))
    (by_oid t).

(** [parse]. *)
Definition parse (find : oid -> option object) (i : nat) (t : table) : res table :=
  nd ← node_at t i;
  if parsed nd then Ok t
  else
    ps ← read_parent_oids find (node_oid nd);
    let '(idx, t) := intern_all ps t in
    Ok (Table (alter (fun nd => Node (node_oid nd) idx true (marks nd)) i (nodes t)) (by_oid t)).

End Table.

Arguments Node {F} _ _ _ _.
Arguments Table {F} _ _.
Arguments node : clear implicits.
Arguments table : clear implicits.

(** * The pruned walk *)

Module RevWalk.

(** The mark of a node: whether it was visited. *)
Inductive frame := Explore (i : nat) | Emit (i : nat).

Record t := Walk {
  walk_table : table bool;
  tips : list nat;
  first_parent : bool;
}.

Definition new : t := Walk new_table [] false.

Section Walk.
Context (find : oid -> option object).

(** [push]. *)
Definition push (tip : oid) (w : t) : res t :=
  _ ← ensure_commit find tip;
  let '(i, tb) := intern false tip (walk_table w) in
  Ok (Walk tb (tips w ++ [i]) (first_parent w)).

Definition simplify_first_parent (w : t) : t := Walk (walk_table w) (tips w) true.

Section Dfs.
Context {W : Type} (prune : oid -> W -> bool * W) (visit : option (oid -> W -> res bool * W)).
Context (first : bool).

(** A visit: whether it ends the walk. *)
Definition run_visit (id : oid) (w : W) : res bool * W :=
  match visit with Some v => v id w | None => (Ok false, w) end.

(** The loop of [dfs]; the top of the stack is in front, and [n] bounds the turns. *)
Fixpoint dfs (n : nat) (stack : list frame) (post : list nat) (tb : table bool) (w : W) :
    res (list nat * table bool) * W :=
  match n with
  | 0 => (OutOfFuel, w)
  | S n =>
      match stack with
      | [] => (Ok (post, tb), w)
      | Emit c :: stack => dfs n stack (post ++ [c]) tb w
      | Explore c :: stack =>
          match node_at tb c with
          | Ok nd =>
              if marks nd then dfs n stack post tb w
              else
                let tb := set_marks (fun _ => true) c tb in
                let '(pruned, w) := prune (node_oid nd) w in
                if (pruned : bool) then dfs n stack post tb w
                else
                  match run_visit (node_oid nd) w with
                  | (Ok true, w) => (Ok (post, tb), w)
                  | (Ok false, w) =>
                      match (tb ← parse false find c tb; nd ← node_at tb c; Ok (nd, tb)) with
                      | Ok (nd, tb) =>
                          let ps := if first then take 1 (node_parents nd) else node_parents nd in
                          dfs n ((Explore <$> ps) ++ Emit c :: stack) post tb w
                      | Err e => (Err e, w)
                      | OutOfFuel => (OutOfFuel, w)
                      end
                  | (Err e, w) => (Err e, w)
                  | (OutOfFuel, w) => (OutOfFuel, w)
                  end
          | Err e => (Err e, w)
          | OutOfFuel => (OutOfFuel, w)
          end
      end
  end.

End Dfs.

(** [into_topo_vec]. *)
Definition into_topo_vec {W} (n : nat) (prune : oid -> W -> bool * W) (w : t) (u : W) :
    res (list oid) * W :=
  match dfs prune None (first_parent w) n (Explore <$> tips w) [] (walk_table w) u with
  | (Ok (post, tb), u) =>
      (collect_res ((fun i => nd ← node_at tb i; Ok (node_oid nd)) <$> reverse post), u)
  | (Err e, u) => (Err e, u)
  | (OutOfFuel, u) => (OutOfFuel, u)
  end.

(** [discover]. *)
Definition discover {W} (n : nat) (visit : oid -> W -> res bool * W) (w : t) (u : W) :
    res unit * W :=
  match dfs (fun _ u => (false, u)) (Some visit) (first_parent w) n (Explore <$> tips w) []
          (walk_table w) u with
  | (Ok _, u) => (Ok tt, u)
  | (Err e, u) => (Err e, u)
  | (OutOfFuel, u) => (OutOfFuel, u)
  end.

End Walk.

End RevWalk.

(** * The walk of a range *)

Module RangeWalk.

Definition FAST_FORWARD_PROBE_LIMIT : nat := 1000.

(** The marks of a [RangeNode]. *)
Record flags := Flags { hidden : bool; enqueued : bool; queued_visible : bool }.

Definition blank : flags := Flags false false false.

Definition set_hidden (f : flags) : flags := Flags true (enqueued f) (queued_visible f).
Definition set_enqueued (f : flags) : flags := Flags (hidden f) true (queued_visible f).
Definition set_queued (b : bool) (f : flags) : flags := Flags (hidden f) (enqueued f) b.

(** A [BinaryHeap] of ranks, insertion numbers (reversed) and nodes: the greatest rank
    first, then the earliest insertion. *)
Abbreviation heap := (list (Z * nat * nat)).

Definition above (a b : Z * nat * nat) : bool :=
  bool_decide (b.1.1 < a.1.1)%Z || (bool_decide (a.1.1 = b.1.1) && bool_decide (a.1.2 < b.1.2)).

(** [BinaryHeap::pop]. *)
Fixpoint pop_max (h : heap) : option (Z * nat * nat * heap) :=
  match h with
  | [] => None
  | x :: h =>
      match pop_max h with
      | None => Some (x, [])
      | Some (y, h') => if above y x then Some (y, x :: h') else Some (x, y :: h')
      end
  end.

Section Walk.
Context {W : Type} (find : oid -> option object) (sequence_number : oid -> M W Z).

(** [fast_forward_walk]; the loop has [n] probes left. *)
Fixpoint fast_forward_loop (n : nat) (c base : nat) (out : list oid) (tb : table flags) :
    res (option (list oid) * table flags) :=
  match n with
  | 0 => Ok (None, tb)
  | S n =>
      if decide (c = base) then Ok (Some out, tb)
      else
        tb ← parse blank find c tb;
        nd ← node_at tb c;
        match node_parents nd with
        | [next] => fast_forward_loop n next base (out ++ [node_oid nd]) tb
        | _ => Ok (None, tb)
        end
  end.

Definition fast_forward_walk (tip base : nat) (tb : table flags) :
    res (option (list oid) * table flags) :=
  fast_forward_loop FAST_FORWARD_PROBE_LIMIT tip base [] tb.

(** The state of the ranked walk. *)
Record state := State {
  tab : table flags;
  frontier : heap;
  seq : nat;
  visible_pending : nat;
  out : list oid;
}.

(** [heap.push((seq_of(oid)?, Reverse(seq), p)); seq += 1]. *)
Definition push (p : nat) (s : state) : M W state :=
  nd ← lift (node_at (tab s) p);
  r ← sequence_number (node_oid nd);
  mret (State (tab s) ((r, seq s, p) :: frontier s) (S (seq s)) (visible_pending s) (out s)).

Definition with_tab (f : table flags -> table flags) (s : state) : state :=
  State (f (tab s)) (frontier s) (seq s) (visible_pending s) (out s).
Definition with_pending (f : nat -> nat) (s : state) : state :=
  State (tab s) (frontier s) (seq s) (f (visible_pending s)) (out s).

(** [enqueued = true], and [queued_visible = true] if the node is not hidden. *)
Definition enqueue_visible (c : nat) (s : state) : M W state :=
  let s := with_tab (set_marks set_enqueued c) s in
  nd ← lift (node_at (tab s) c);
  push c (if hidden (marks nd) then s
          else with_pending S (with_tab (set_marks (set_queued true) c) s)).

(** The body of the loop over the parents of a hidden commit. *)
Definition spread_hidden (s : state) (p : nat) : M W state :=
  nd ← lift (node_at (tab s) p);
  let s :=
    if hidden (marks nd) then s
    else
      let s := with_tab (set_marks set_hidden p) s in
      if queued_visible (marks nd)
      then with_pending Nat.pred (with_tab (set_marks (set_queued false) p) s) else s in
  if enqueued (marks nd) then mret s else push p (with_tab (set_marks set_enqueued p) s).

(** The body of the loop over the parents of a visible commit. *)
Definition spread_visible (s : state) (p : nat) : M W state :=
  nd ← lift (node_at (tab s) p);
  if enqueued (marks nd) then mret s else enqueue_visible p s.

(** One turn of the loop of [ranked_walk], for a popped commit. *)
Definition turn (c : nat) (s : state) : M W state :=
  nd ← lift (node_at (tab s) c);
  if hidden (marks nd) then
    tb ← lift (parse blank find c (tab s));
    nd ← lift (node_at tb c);
    foldM spread_hidden (with_tab (fun _ => tb) s) (node_parents nd)
  else
    let s := with_pending Nat.pred (with_tab (set_marks (set_queued false) c) s) in
    let s := State (tab s) (frontier s) (seq s) (visible_pending s) (out s ++ [node_oid nd]) in
    tb ← lift (parse blank find c (tab s));
    nd ← lift (node_at tb c);
    foldM spread_visible (with_tab (fun _ => tb) s) (node_parents nd).

(** The loop of [ranked_walk]; [n] bounds its turns. *)
Fixpoint ranked_loop (n : nat) (s : state) : M W (list oid) :=
  match n with
  | 0 => lift OutOfFuel
  | S n =>
      if decide (visible_pending s = 0) then mret (out s)
      else
        match pop_max (frontier s) with
        | None => mret (out s)
        | Some (_, _, c, h) =>
            s ← turn c (State (tab s) h (seq s) (visible_pending s) (out s));
            ranked_loop n s
        end
  end.

(** [ranked_walk]. *)
Definition ranked_walk (n : nat) (tip base : nat) (tb : table flags) : M W (list oid) :=
  s ← enqueue_visible tip (State tb [] 0 0 []);
  s ← enqueue_visible base s;
  ranked_loop n s.

(** [into_topo_vec]. *)
Definition into_topo_vec (n : nat) (tip base : oid) : M W (list oid) :=
  _ ← lift (ensure_commit find tip);
  _ ← lift (ensure_commit find base);
  if decide (tip = base) then mret []
  else
    let '(tip, tb) := intern blank tip new_table in
    let '(base, tb) := intern blank base tb in
    let tb := set_marks set_hidden base tb in
    '(chain, tb) ← lift (fast_forward_walk tip base tb);
    match chain with
    | Some chain => mret chain
    | None => ranked_walk n tip base tb
    end.

End Walk.

End RangeWalk.
