(* ===== verification/HistoryHint.v ===== *)
(** The facts about a commit that travel with every record of the commit caches:
    [HistoryGraphHint] and its sample points (josh-core/src/cache/backend.rs), the encoding of
    a hint and of a set of commits in object ids and blobs
    (josh-core/src/cache/history_graph.rs). *)

From S2P Require Import Prelude Path Ops Objects.

Open Scope Z_scope.

(** * Bytes of object ids *)

(** A [u8] as the character of a byte string, and back. *)
Definition byte_of (z : Z) : ascii := ascii_of_N (Z.to_N (z mod 256)).
Definition of_byte (a : ascii) : Z := Z.of_N (N_of_ascii a).

Definition hex_digit (z : Z) : ascii := byte_of (if decide (z < 10) then 48 + z else 87 + z).
Definition hex_value (a : ascii) : Z :=
  let z := of_byte a in if decide (z < 58) then z - 48 else z - 87.
Definition is_hex (a : ascii) : bool :=
  let z := of_byte a in
  bool_decide (48 <= z < 58) || bool_decide (97 <= z < 103).

(** [Oid::as_bytes]. *)
Fixpoint as_bytes (id : oid) : string :=
  match id with
  | String a (String b id) => String (byte_of (16 * hex_value a + hex_value b)) (as_bytes id)
  | _ => EmptyString
  end.

(** The display form of bytes. *)
Fixpoint hex (s : string) : oid :=
  match s with
  | EmptyString => EmptyString
  | String a s => String (hex_digit (of_byte a / 16)) (String (hex_digit (of_byte a mod 16)) (hex s))
  end.

(** [Oid::from_bytes]. *)
Definition from_bytes (s : string) : res oid :=
  if decide (String.length s = 20%nat) then Ok (hex s) else Err "raw byte oid must be 20 bytes".

Fixpoint string_forall (p : ascii -> bool) (s : string) : bool :=
  match s with EmptyString => true | String a s => p a && string_forall p s end.

(** The display form of an id: twenty bytes in hexadecimal. *)
Definition is_oid (id : oid) : bool :=
  bool_decide (String.length id = 40%nat) && string_forall is_hex id.

(** * Hints *)

(** [HistoryGraphHint]: a [u64], two [u8] and a [bool]. *)
Record HistoryGraphHint := Hint {
  sequence_number : Z;
  parent_count : Z;
  jump_delta : Z;
  jump_is_second : bool;
}.

#[export] Instance hint_eq_dec : EqDecision HistoryGraphHint.
Proof. solve_decision. Defined.

Definition SAMPLE_INTERVAL : Z := 100.

(** [crosses_sample_boundary]; the subtraction saturates. *)
Definition crosses_sample_boundary (seq delta : Z) : bool :=
  bool_decide (Z.max 0 (seq - delta) / SAMPLE_INTERVAL < seq / SAMPLE_INTERVAL).

(** [is_sample_point]. *)
Definition is_sample_point (h : HistoryGraphHint) : bool :=
  if decide (sequence_number h mod SAMPLE_INTERVAL = 0) then true
  else if decide (parent_count h = 1) then false
  else if decide (parent_count h = 2) then
    crosses_sample_boundary (sequence_number h) (jump_delta h)
  else true.

(** [u64::to_be_bytes] and [u64::from_be_bytes]. *)
Fixpoint be_bytes (n : nat) (z : Z) : string :=
  match n with
  | O => EmptyString
  | S n => String (byte_of (Z.shiftr z (8 * Z.of_nat n))) (be_bytes n z)
  end.
Fixpoint from_be_bytes (acc : Z) (s : string) : Z :=
  match s with
  | EmptyString => acc
  | String a s => from_be_bytes (acc * 256 + of_byte a) s
  end.

Fixpoint zero_bytes (n : nat) : string :=
  match n with O => EmptyString | S n => String zero (zero_bytes n) end.

(** [oid_from_hint]. *)
Definition oid_from_hint (h : HistoryGraphHint) : oid :=
  let jump := Z.lor (Z.shiftl (Z.b2z (jump_is_second h)) 7) (jump_delta h) in
  hex (zero_bytes 10 +:+
    String (byte_of jump) (String (byte_of (parent_count h)) (be_bytes 8 (sequence_number h)))).

(** The bytes of a string from a position on. *)
Fixpoint skip (n : nat) (s : string) : string :=
  match n, s with S n, String _ s => skip n s | _, _ => s end.

(** [hint_from_oid]. *)
Definition hint_from_oid (id : oid) : HistoryGraphHint :=
  let b := as_bytes id in
  let at_ i := of_byte (default zero (byte_at i b)) in
  Hint (from_be_bytes 0 (skip 12 b)) (at_ 11%nat) (Z.land (at_ 10%nat) 127)
    (negb (bool_decide (Z.land (at_ 10%nat) 128 = 0))).

(** The values the fields of a hint can have. *)
Definition hint_ok (h : HistoryGraphHint) : Prop :=
  0 <= sequence_number h < 2 ^ 64 /\ 0 <= parent_count h < 256 /\ 0 <= jump_delta h < 128.

(** * Sets of commits as blobs *)

(** The content that [write_roots_blob] writes. *)
Definition roots_bytes (roots : list oid) : string :=
  foldr (fun r s => as_bytes r +:+ s) EmptyString roots.

(** [chunks_exact(20)], for bytes whose number is a multiple of 20; [n] chunks. *)
Fixpoint chunks (n : nat) (s : string) : list string :=
  match n with
  | O => []
  | S n => prefix_bytes 20 s :: chunks n (skip 20 s)
  end.

(** What [read_roots_blob] makes of the content of a blob. *)
Definition parse_roots (content : string) : res (list oid) :=
  if decide (Nat.modulo (String.length content) 20 = 0%nat)
  then collect_res (from_bytes <$> chunks (Nat.div (String.length content) 20) content)
  else Err "malformed reachable_roots blob: length not a multiple of 20".

(** * Facts *)

Lemma of_byte_range a : 0 <= of_byte a < 256.
Proof. unfold of_byte. pose proof (N_ascii_bounded a). lia. Qed.

Lemma of_byte_of z : 0 <= z < 256 -> of_byte (byte_of z) = z.
Proof.
  intros Hz. unfold of_byte, byte_of. rewrite Z.mod_small by lia.
  rewrite N_ascii_embedding by lia. apply Z2N.id. lia.
Qed.

Lemma byte_of_of a : byte_of (of_byte a) = a.
Proof.
  unfold of_byte, byte_of. pose proof (N_ascii_bounded a).
  rewrite Z.mod_small, N2Z.id by lia. apply ascii_N_embedding.
Qed.

Lemma hex_value_digit z : 0 <= z < 16 -> hex_value (hex_digit z) = z.
Proof.
  intros Hz. unfold hex_value, hex_digit. destruct (decide (z < 10)); cbv zeta;
    rewrite of_byte_of by lia; case_decide; lia.
Qed.

Lemma is_hex_digit z : 0 <= z < 16 -> is_hex (hex_digit z) = true.
Proof.
  intros Hz. unfold is_hex, hex_digit. apply orb_true_iff. rewrite !bool_decide_eq_true.
  destruct (decide (z < 10)); rewrite of_byte_of by lia; lia.
Qed.

Lemma hex_digit_value a : is_hex a = true -> 0 <= hex_value a < 16 /\ hex_digit (hex_value a) = a.
Proof.
  unfold is_hex, hex_value, hex_digit. rewrite orb_true_iff, !bool_decide_eq_true. intros Ha.
  assert (forall z, z = of_byte a -> byte_of z = a) as E by (intros z ->; apply byte_of_of).
  destruct (decide (of_byte a < 58)); (split; [lia|]); case_decide; try lia; apply E; lia.
Qed.

Lemma as_bytes_hex s : as_bytes (hex s) = s.
Proof.
  induction s as [|a s IH]; [done|]. cbn [hex as_bytes]. rewrite IH. f_equal.
  pose proof (of_byte_range a).
  pose proof (Z.mod_pos_bound (of_byte a) 16 ltac:(lia)).
  assert (0 <= of_byte a / 16 < 16).
  { split; [apply Z.div_pos; lia|apply Z.div_lt_upper_bound; lia]. }
  rewrite !hex_value_digit by done. rewrite <- Z_div_mod_eq_full. apply byte_of_of.
Qed.

Lemma hex_length s : String.length (hex s) = (2 * String.length s)%nat.
Proof. induction s as [|a s IH]; [done|]. simpl in *. rewrite IH. lia. Qed.

Lemma hex_is_oid s : String.length s = 20%nat -> is_oid (hex s) = true.
Proof.
  intros Hs. unfold is_oid. rewrite hex_length, Hs. rewrite bool_decide_true by done. simpl. clear Hs.
  induction s as [|a s IH]; [done|]. cbn [hex string_forall]. rewrite IH.
  pose proof (of_byte_range a).
  pose proof (Z.mod_pos_bound (of_byte a) 16 ltac:(lia)).
  assert (0 <= of_byte a / 16 < 16).
  { split; [apply Z.div_pos; lia|apply Z.div_lt_upper_bound; lia]. }
  by rewrite !is_hex_digit.
Qed.

Lemma hex_as_bytes n s :
  String.length s = (2 * n)%nat -> string_forall is_hex s = true ->
  hex (as_bytes s) = s /\ String.length (as_bytes s) = n.
Proof.
  revert s. induction n as [|n IH]; intros s Hl Hs; [by destruct s|].
  destruct s as [|a [|b s]]; simpl in Hl; [lia..|]. cbn [string_forall] in Hs.
  apply andb_true_iff in Hs as [Ha [Hb Hs]%andb_true_iff].
  destruct (IH s ltac:(lia) Hs) as [E1 E2]. cbn [as_bytes hex String.length]. rewrite E1, E2.
  split; [|done].
  destruct (hex_digit_value a Ha) as [Ra Ea], (hex_digit_value b Hb) as [Rb Eb].
  rewrite of_byte_of by lia. rewrite Z.mul_comm, Z.div_add_l, Z.div_small, Z.add_0_r by lia.
  rewrite Z.add_comm, Z.mod_add, Z.mod_small by lia. by rewrite Ea, Eb.
Qed.

Lemma is_oid_bytes id :
  is_oid id = true -> hex (as_bytes id) = id /\ String.length (as_bytes id) = 20%nat.
Proof.
  intros [Hl%bool_decide_eq_true Hs]%andb_true_iff. by apply (hex_as_bytes 20).
Qed.

Lemma from_as_bytes id : is_oid id = true -> from_bytes (as_bytes id) = Ok id.
Proof.
  intros [E Hl]%is_oid_bytes. unfold from_bytes. rewrite decide_True by done. by rewrite E.
Qed.

(** Big-endian numbers. *)

Lemma be_bytes_length n z : String.length (be_bytes n z) = n.
Proof. induction n as [|n IH]; [done|]. simpl. by rewrite IH. Qed.

Lemma from_be_bytes_be n z acc :
  from_be_bytes acc (be_bytes n z) = acc * 2 ^ (8 * Z.of_nat n) + z mod 2 ^ (8 * Z.of_nat n).
Proof.
  revert acc. induction n as [|n IH]; intros acc.
  { simpl. rewrite Z.mod_1_r. lia. }
  cbn [be_bytes from_be_bytes]. rewrite IH. unfold byte_of.
  replace (of_byte (ascii_of_N (Z.to_N (Z.shiftr z (8 * Z.of_nat n) mod 256))))
    with (Z.shiftr z (8 * Z.of_nat n) mod 256).
  2:{ pose proof (Z.mod_pos_bound (Z.shiftr z (8 * Z.of_nat n)) 256 ltac:(lia)).
      unfold of_byte. rewrite N_ascii_embedding; lia. }
  rewrite Z.shiftr_div_pow2 by lia.
  replace (8 * Z.of_nat (S n)) with (8 * Z.of_nat n + 8) by lia.
  rewrite Z.pow_add_r by lia. change (2 ^ 8) with 256.
  rewrite (Z.rem_mul_r z) by lia. ring.
Qed.

Lemma jump_round (b : bool) d :
  0 <= d < 128 ->
  let j := Z.lor (Z.shiftl (Z.b2z b) 7) d in
  0 <= j < 256 /\ Z.land j 127 = d /\ negb (bool_decide (Z.land j 128 = 0)) = b.
Proof.
  intros Hd. cbv zeta.
  assert (forallb (fun b => forallb (fun d =>
    let j := Z.lor (Z.shiftl (Z.b2z b) 7) d in
    bool_decide (0 <= j < 256) && bool_decide (Z.land j 127 = d) &&
    Bool.eqb (negb (bool_decide (Z.land j 128 = 0))) b) (seqZ 0 128)) [false; true] = true) as H
    by (vm_compute; reflexivity).
  rewrite forallb_forall in H. specialize (H b ltac:(destruct b; simpl; tauto)).
  rewrite forallb_forall in H. specialize (H d ltac:(apply list_elem_of_In, elem_of_seqZ; lia)).
  cbv zeta in H. rewrite !andb_true_iff, !bool_decide_eq_true, eqb_true_iff in H. tauto.
Qed.

Lemma oid_from_hint_is_oid h : is_oid (oid_from_hint h) = true.
Proof. apply hex_is_oid. cbn [String.length zero_bytes String.append]. by rewrite be_bytes_length. Qed.

Lemma hint_round h : hint_ok h -> hint_from_oid (oid_from_hint h) = h.
Proof.
  intros (Hs & Hp & Hd). unfold hint_from_oid, oid_from_hint. rewrite as_bytes_hex.
  cbn [zero_bytes String.append byte_at skip default].
  destruct (jump_round (jump_is_second h) (jump_delta h) Hd) as (Hj & E1 & E2).
  unfold id. rewrite !of_byte_of by done. rewrite E1, E2, from_be_bytes_be.
  rewrite Z.mod_small by (change (8 * Z.of_nat 8) with 64; lia). by destruct h.
Qed.

(** Sets of commits. *)

Lemma prefix_bytes_app s t : prefix_bytes (String.length s) (s +:+ t) = s.
Proof. induction s as [|a s IH]; simpl; [done|]. by rewrite IH. Qed.

Lemma skip_app s t : skip (String.length s) (s +:+ t) = t.
Proof. induction s as [|a s IH]; simpl; [by destruct t|done]. Qed.

Lemma string_length_app s t : String.length (s +:+ t) = (String.length s + String.length t)%nat.
Proof. induction s as [|a s IH]; simpl; [done|]. by rewrite IH. Qed.

Lemma roots_bytes_length l :
  Forall (fun r => is_oid r = true) l -> String.length (roots_bytes l) = (length l * 20)%nat.
Proof.
  induction 1 as [|r l Hr _ IH]; [done|]. cbn [roots_bytes foldr length].
  rewrite string_length_app. fold (roots_bytes l). rewrite IH.
  destruct (is_oid_bytes r Hr) as [_ ->]. lia.
Qed.

Lemma chunks_cons n a s : String.length a = 20%nat -> chunks (S n) (a +:+ s) = a :: chunks n s.
Proof. intros E. cbn [chunks]. rewrite <- E. by rewrite prefix_bytes_app, skip_app. Qed.

Lemma roots_round l : Forall (fun r => is_oid r = true) l -> parse_roots (roots_bytes l) = Ok l.
Proof.
  intros Hl. unfold parse_roots. rewrite roots_bytes_length by done.
  rewrite Nat.Div0.mod_mul, Nat.div_mul by lia. rewrite decide_True by done.
  apply collect_res_ok. induction Hl as [|r l Hr _ IH]; [done|].
  destruct (is_oid_bytes r Hr) as [_ E]. cbn [length roots_bytes foldr]. fold (roots_bytes l).
  rewrite chunks_cons, !fmap_cons, from_as_bytes by done. by rewrite IH.
Qed.
