(* ===== verification/CommitCache.v ===== *)
(** The caches of filtered commits: the interface of a cache backend
    (josh-core/src/cache/backend.rs), the stack of backends
    (josh-core/src/cache/stack.rs), the map of a transaction in front of them
    (josh-core/src/cache/transaction.rs), and what a lawful backend promises. *)

From S2P Require Import Prelude Path Objects Store HistoryHint Ops.

Open Scope nat_scope.

(** * Keys *)

(** The filters that records are kept under: real ones, and the two sentinels
    [filter::sequence_number()] and [filter::reachable_roots()], nodes of their own that equal
    no other filter. *)
Inductive cache_filter :=
| Real (f : filter)
| SequenceNumber
| ReachableRoots.

#[export] Instance cache_filter_eq_dec : EqDecision cache_filter.
Proof. solve_decision. Defined.

Definition is_slot (f : cache_filter) : bool := match f with Real _ => false | _ => true end.

(** [Filter::is_nop]. *)
Definition cache_filter_is_nop (f : cache_filter) : bool :=
  match f with Real f => bool_decide (f = to_filter Op.Nop) | _ => false end.

(** * Backends *)

(** The trait [CacheBackend]. *)
Class CacheBackend (B : Type) := {
  backend_read : cache_filter -> oid -> HistoryGraphHint -> bool -> M B (option oid);
  backend_write : cache_filter -> oid -> oid -> HistoryGraphHint -> bool -> M B unit;
}.

(** What a backend promises while it works: reads answer what a view of its state says and
    do not change it; a write changes the view at most at the key written, for filters the
    backend does not tell apart, where it then shows the value written.  The sentinels are
    told apart from all filters. *)
Class LawfulBackend (B : Type) `{CacheBackend B} := {
  backend_ok : B -> Prop;
  backend_view : B -> cache_filter -> oid -> HistoryGraphHint -> bool -> option oid;
  alias : cache_filter -> cache_filter -> Prop;
  alias_slot f g : alias f g -> is_slot f || is_slot g = true -> f = g;
  backend_read_law b f c h k :
    backend_ok b -> is_oid c = true ->
    exists b', backend_read f c h k b = (Ok (backend_view b f c h k), b') /\ backend_ok b' /\
      forall f' c' h' k', is_oid c' = true ->
        backend_view b' f' c' h' k' = backend_view b f' c' h' k';
  backend_write_law b f c v h k :
    backend_ok b -> is_oid c = true -> is_oid v = true ->
    exists b', backend_write f c v h k b = (Ok tt, b') /\ backend_ok b' /\
      forall f' c' h' k', is_oid c' = true ->
        backend_view b' f' c' h' k' = backend_view b f' c' h' k' \/
        alias f' f /\ c' = c /\ backend_view b' f' c' h' k' = Some v;
}.

(** A stack of two kinds of backends ([Box<dyn CacheBackend>]). *)
#[export] Instance sum_backend {A B} `{CacheBackend A} `{CacheBackend B} : CacheBackend (A + B) := {|
  backend_read f c h k x :=
    match x with
    | inl a => let '(r, a) := backend_read f c h k a in (r, inl a)
    | inr b => let '(r, b) := backend_read f c h k b in (r, inr b)
    end;
  backend_write f c v h k x :=
    match x with
    | inl a => let '(r, a) := backend_write f c v h k a in (r, inl a)
    | inr b => let '(r, b) := backend_write f c v h k b in (r, inr b)
    end;
|}.

(** * The stack *)

Module CacheStack.
Section Stack.
Context {B : Type} `{CacheBackend B}.

(** [write_all]: the first error ends it. *)
Fixpoint write_all (f : cache_filter) (from to : oid) (h : HistoryGraphHint) (k : bool)
    (l : list B) : res unit * list B :=
  match l with
  | [] => (Ok tt, [])
  | b :: l =>
      match backend_write f from to h k b with
      | (Ok _, b) => let '(r, l) := write_all f from to h k l in (r, b :: l)
      | (Err e, b) => (Err e, b :: l)
      | (OutOfFuel, b) => (OutOfFuel, b :: l)
      end
  end.

(** The [find_map] of [read_propagate]: the first backend with a value, or with an error. *)
Fixpoint find_value (index : nat) (f : cache_filter) (from : oid) (h : HistoryGraphHint) (k : bool)
    (l : list B) : res (option (nat * oid)) * list B :=
  match l with
  | [] => (Ok None, [])
  | b :: l =>
      match backend_read f from h k b with
      | (Ok None, b) => let '(r, l) := find_value (S index) f from h k l in (r, b :: l)
      | (Ok (Some v), b) => (Ok (Some (index, v)), b :: l)
      | (Err e, b) => (Err e, b :: l)
      | (OutOfFuel, b) => (OutOfFuel, b :: l)
      end
  end.

(** The backends before [index] learn the value. *)
Definition propagate (index : nat) (f : cache_filter) (from to : oid) (h : HistoryGraphHint) (k : bool) :
    M (list B) unit := fun l =>
  let '(r, l') := write_all f from to h k (take index l) in (r, l' ++ drop index l).

(** [read_propagate]. *)
Definition read_propagate (f : cache_filter) (from : oid) (h : HistoryGraphHint) (k : bool) :
    M (list B) (option oid) :=
  values ← (find_value 0 f from h k : M (list B) _);
  match values with
  | None => mret None
  | Some (index, v) => _ ← propagate index f from v h k; mret (Some v)
  end.

End Stack.
End CacheStack.

(** * The transaction *)

(** The part of a transaction that the caches of commits use: the object database, the map of
    the transaction itself (the latest record in front), the stack, and the misses. *)
Record txn (B : Type) := Txn {
  t_odb : odb;
  commit_map : list (cache_filter * oid * oid);
  cache : list B;
  missing : list (nat * cache_filter * oid);
  misses : nat;
  nesting_level : nat;
}.
Arguments Txn {B} _ _ _ _ _ _.
Arguments t_odb {B} _.
Arguments commit_map {B} _.
Arguments cache {B} _.
Arguments missing {B} _.
Arguments misses {B} _.
Arguments nesting_level {B} _.

Section Transaction.
Context {B : Type} `{CacheBackend B}.

Abbreviation cm := (M (txn B)).

Definition on_odb {A} (m : odb -> res A * odb) : cm A := fun t =>
  let '(r, o) := m (t_odb t) in
  (r, Txn o (commit_map t) (cache t) (missing t) (misses t) (nesting_level t)).
Definition on_cache {A} (m : M (list B) A) : cm A := fun t =>
  let '(r, l) := m (cache t) in
  (r, Txn (t_odb t) (commit_map t) l (missing t) (misses t) (nesting_level t)).

Definition map_commit (f : cache_filter) (from to : oid) (t : txn B) : txn B :=
  Txn (t_odb t) ((f, from, to) :: commit_map t) (cache t) (missing t) (misses t) (nesting_level t).

Definition add_miss (f : cache_filter) (from : oid) (t : txn B) : txn B :=
  Txn (t_odb t) (commit_map t) (cache t) (missing t ++ [(nesting_level t, f, from)])
    (S (misses t)) (nesting_level t).

Fixpoint map_get (l : list (cache_filter * oid * oid)) (f : cache_filter) (from : oid) : option oid :=
  match l with
  | [] => None
  | (g, from', to) :: l => if decide (f = g /\ from = from') then Some to else map_get l f from
  end.

(** The hint of records under the sentinels, in [insert] and [get2]. *)
Definition slot_hint : HistoryGraphHint := Hint 0 1 1 false.

(** [get2], once the hint is known: the map of the transaction, then the stack; an object of
    the stack counts only if it is still stored. *)
Definition lookup_record (hint : HistoryGraphHint) (f : cache_filter) (from : oid) : cm (option oid) :=
  mapped ← gets (fun t => map_get (commit_map t) f from);
  match mapped with
  | Some v => mret (Some v)
  | None =>
      r ← on_cache (CacheStack.read_propagate f from hint false);
      match r with
      | None => mret None
      | Some v =>
          if decide (v = zero_oid) then mret (Some v)
          else if decide (f = SequenceNumber) then mret (Some v)
          else
            stored ← gets (fun t => odb_contains (t_odb t) v);
            mret (if (stored : bool) then Some v else None)
      end
  end.

(** [insert], once the hint is known. *)
Definition insert_record (hint : HistoryGraphHint) (f : cache_filter) (from to : oid) (store : bool) :
    cm unit :=
  _ ← modify (map_commit f from to);
  if store || is_sample_point hint
  then on_cache (CacheStack.write_all f from to hint false)
  else mret tt.

(** The rest of [get]: an absent record is noted. *)
Definition or_miss (f : cache_filter) (from : oid) (m : cm (option oid)) : cm (option oid) :=
  r ← m;
  match r with
  | Some v => mret (Some v)
  | None => _ ← modify (add_miss f from); mret None
  end.

(** [get], [known] and [insert] of the records under a sentinel. *)
Definition slot_get (f : cache_filter) (from : oid) : cm (option oid) :=
  or_miss f from (lookup_record slot_hint f from).
Definition slot_known (f : cache_filter) (from : oid) : cm bool :=
  r ← lookup_record slot_hint f from; mret (bool_decide (is_Some r)).
Definition slot_insert (f : cache_filter) (from to : oid) (store : bool) : cm unit :=
  insert_record slot_hint f from to store.

End Transaction.

(** * Facts about stacks *)

Section StackFacts.
Context {B : Type} `{LawfulBackend B}.

(** What the stack answers: the view of the first backend that has one. *)
Fixpoint stack_view (l : list B) (f : cache_filter) (c : oid) (h : HistoryGraphHint) (k : bool) :
    option oid :=
  match l with
  | [] => None
  | b :: l =>
      match backend_view b f c h k with Some v => Some v | None => stack_view l f c h k end
  end.

Lemma stack_view_elem (l : list B) f c h k v :
  stack_view l f c h k = Some v -> exists b, (b ∈ l) /\ backend_view b f c h k = Some v.
Proof.
  induction l as [|b l IH]; [done|]. cbn [stack_view]. destruct (backend_view b f c h k) as [w|] eqn:E.
  - intros [= ->]. exists b. split; [left|done].
  - intros (b' & Hb & Ev)%IH. exists b'. split; [by right|done].
Qed.

(** A backend that may have learned the record of [f] and [c]. *)
Definition learned (f : cache_filter) (c v : oid) (b b' : B) : Prop :=
  backend_ok b' /\ forall f' c' h k, is_oid c' = true ->
    backend_view b' f' c' h k = backend_view b f' c' h k \/
    alias f' f /\ c' = c /\ backend_view b' f' c' h k = Some v.

(** A backend that learned nothing. *)
Definition unchanged (b b' : B) : Prop :=
  backend_ok b' /\ forall f c h k, is_oid c = true -> backend_view b' f c h k = backend_view b f c h k.

(** Every backend of a stack works. *)
Definition stack_ok (l : list B) : Prop := Forall backend_ok l.

Lemma unchanged_learned f c v l l' : Forall2 unchanged l l' -> Forall2 (learned f c v) l l'.
Proof.
  induction 1 as [|b b' l l' [Hok Hv]]; constructor; [|done]. split; [done|]. intros. left. by apply Hv.
Qed.

Lemma unchanged_refl l : stack_ok l -> Forall2 unchanged l l.
Proof. induction 1; by constructor. Qed.

Lemma unchanged_view l l' f c h k :
  Forall2 unchanged l l' -> is_oid c = true -> stack_view l' f c h k = stack_view l f c h k.
Proof. intros Hl Hc. induction Hl as [|b b' l l' [_ Hv] _ IH]; [done|]. simpl. by rewrite Hv, IH. Qed.

#[local] Instance learned_trans f c v : Transitive (learned f c v).
Proof.
  intros b1 b2 b3 [_ Hv1] [Hok Hv2]. split; [done|]. intros f' c' h k Hc'.
  destruct (Hv2 f' c' h k Hc') as [->|?]; [|by right]. by apply Hv1.
Qed.

Lemma write_all_learned f c v h k l :
  stack_ok l -> is_oid c = true -> is_oid v = true ->
  exists l', CacheStack.write_all f c v h k l = (Ok tt, l') /\ Forall2 (learned f c v) l l'.
Proof.
  intros Hl Hc Hv. induction Hl as [|b l Hb _ (l' & E & Hl')]; [by exists []|].
  destruct (backend_write_law b f c v h k Hb Hc Hv) as (b' & Eb & Hb' & Hview).
  exists (b' :: l'). simpl. rewrite Eb, E. split; [done|]. by constructor.
Qed.

Lemma find_value_view i f c h k l :
  stack_ok l -> is_oid c = true ->
  exists l' r, CacheStack.find_value i f c h k l = (Ok r, l') /\
    Forall2 unchanged l l' /\ snd <$> r = stack_view l f c h k.
Proof.
  intros Hl Hc. revert i. induction Hl as [|b l Hb Hl IH]; intros i; [by exists [], None|].
  destruct (backend_read_law b f c h k Hb Hc) as (b' & Eb & Hb' & Hview). simpl. rewrite Eb.
  destruct (backend_view b f c h k) as [v|].
  - exists (b' :: l), (Some (i, v)). split; [done|]. split; [|done].
    constructor; [done|]. by apply unchanged_refl.
  - destruct (IH (S i)) as (l' & r & E & Hl' & Hr). rewrite E. exists (b' :: l'), r.
    split; [done|]. split; [|done]. by constructor.
Qed.

Lemma learned_all_ok f c v l l' : Forall2 (learned f c v) l l' -> stack_ok l'.
Proof. induction 1 as [|b b' l l' [Hb _]]; constructor; done. Qed.

(** Reading returns what the stack answers; at most the record read spreads. *)
Lemma read_propagate_view f c h k l :
  stack_ok l -> is_oid c = true ->
  (forall v, stack_view l f c h k = Some v -> is_oid v = true) ->
  exists l', CacheStack.read_propagate f c h k l = (Ok (stack_view l f c h k), l') /\
    match stack_view l f c h k with
    | Some v => Forall2 (learned f c v) l l'
    | None => Forall2 unchanged l l'
    end.
Proof.
  intros Hl Hc Hids. destruct (find_value_view 0 f c h k l Hl Hc) as (l1 & r & E & Hl1 & Hr).
  unfold CacheStack.read_propagate, CacheStack.propagate, mbind, M_bind. rewrite E. rewrite <- Hr in *.
  destruct r as [[i v]|]; simpl in *; [|by exists l1].
  apply (unchanged_learned f c v) in Hl1. assert (stack_ok l1) as Hok by (by eapply learned_all_ok).
  destruct (write_all_learned f c v h k (take i l1)) as (l2 & E2 & Hl2).
  { by apply Forall_take. } { done. } { by apply Hids. }
  rewrite E2. exists (l2 ++ drop i l1). split; [done|].
  rewrite <- (take_drop i l). rewrite <- (take_drop i l1) in Hl1.
  assert (Forall2 (learned f c v) (take i l) (take i l1) /\
          Forall2 (learned f c v) (drop i l) (drop i l1)) as [Ht Hd].
  { rewrite take_drop in Hl1. split; [by apply Forall2_take|by apply Forall2_drop]. }
  apply Forall2_app; [|done]. by transitivity (take i l1).
Qed.

End StackFacts.
