(* ===== verification/SearchIndex.v ===== *)
(** The search index (josh-search/src/lib.rs, [fold_byte] to [trigram_index]): the trigrams of a
    file, the trees of the index, the memo tables that make indexing incremental, and the flush of
    what was built to the object database; and the cache of indexes of a transaction
    (josh-core/src/cache/transaction.rs, [TrigramIndexCache]).

    Buffers of tree objects are the objects themselves, as in Objects; budgets [n], [h] and [k] bound
    the recursions. *)

From S2P Require Import Utf8 Path Objects Store HistoryHint CommitCache Prelude Ops.

Open Scope nat_scope.

(** * Trigrams *)

(** [u8::is_ascii_alphanumeric]. *)
Definition is_ascii_alphanumeric (c : ascii) : bool :=
  let b := byte_val c in
  ((48 <=? b) && (b <=? 57) || (65 <=? b) && (b <=? 90) || (97 <=? b) && (b <=? 122))%Z.

(** [fold_byte]. *)
Definition fold_byte (c : ascii) : ascii :=
  let b := byte_val c in
  if ((65 <=? b) && (b <=? 90))%Z then ascii_of_N (Z.to_N (b + 32))
  else if (b <? 128)%Z && negb (is_ascii_alphanumeric c || bool_decide (c = "_"%char)) then " "%char
  else c.

Fixpoint map_bytes (f : ascii -> ascii) (s : string) : string :=
  match s with EmptyString => EmptyString | String c s => String (f c) (map_bytes f s) end.

(** [\[u8; 3\]]. *)
Abbreviation trigram := (ascii * ascii * ascii)%type.

(** The bytes of a trigram, by which an ordered set compares them. *)
Definition trigram_bytes (t : trigram) : string :=
  String t.1.1 (String t.1.2 (String t.2 EmptyString)).

Definition trigram_cmp (a b : trigram) : comparison :=
  String.compare (trigram_bytes a) (trigram_bytes b).

(** [windows(3)]. *)
Fixpoint windows (s : string) : list trigram :=
  match s with
  | EmptyString => []
  | String a s =>
      match s with String b (String c _) => (a, b, c) :: windows s | _ => [] end
  end.

(** [distinct_trigrams]: a [BTreeSet], as the list of its elements in order. *)
Definition distinct_trigrams (content : string) : list trigram :=
  (foldl (fun m t => ord_insert trigram_cmp t tt m) []
    (List.filter (fun w => valid_utf8 (trigram_bytes w)) (windows (map_bytes fold_byte content)))).*1.

Definition hex_digit (n : N) : ascii :=
  ascii_of_N (if (n <? 10)%N then 48 + n else 87 + n).

(** [hex_name]: two digits. *)
Definition hex_name (c : ascii) : string :=
  let n := N_of_ascii c in
  String (hex_digit (n / 16)) (String (hex_digit (n mod 16)) EmptyString).

(** [entry(k).or_default()] of a [BTreeMap], and the change of what is there. *)
Fixpoint ord_update {K V} (cmp : K -> K -> comparison) (d : V) (f : V -> V) (k : K)
    (m : list (K * V)) : list (K * V) :=
  match m with
  | [] => [(k, f d)]
  | (k', v) :: m' =>
      match cmp k k' with
      | Lt => (k, f d) :: m
      | Eq => (k', f v) :: m'
      | Gt => (k', v) :: ord_update cmp d f k m'
      end
  end.

(** The map [spine] of [content_spine], from the first byte over the second to the third bytes. *)
Definition spine_map (l : list trigram) : list (ascii * list (ascii * list ascii)) :=
  foldl (fun m (t : trigram) =>
    ord_update Ascii.compare [] (ord_update Ascii.compare [] (fun l => l ++ [t.2]) t.1.2) t.1.1 m) [] l.

(** * Objects *)

(** Libraries: [gix_object::TreeRef::from_bytes] on the bytes of any object, and the size of an
    object in bytes that its header has. *)
Class ObjectBytes := {
  from_bytes : object -> res (list entry);
  from_bytes_tree l : from_bytes (OTree l) = Ok l;
  header_size : object -> Z;
}.

(** [entries.sort()]: the canonical order of git, in which [gix_object::tree::Entry] compares. *)
Definition sort_entries (l : list entry) : list entry := foldl insert_in_order [] l.

(** [sort()] of addresses. *)
Definition sort_oids (l : list oid) : list oid := foldl (insert_sorted String.compare) [] l.

(** [Vec::dedup]: of neighbours that are equal one stays. *)
Fixpoint dedup {A} `{EqDecision A} (l : list A) : list A :=
  match l with
  | a :: (b :: _) as l' => if decide (a = b) then dedup l' else a :: dedup l'
  | _ => l
  end.

(** Addition of [u64], which wraps in a release build. *)
Definition add_u64 (a b : Z) : Z := ((a + b) mod 2 ^ 64)%Z.

Definition COARSE_MAX_FILES : Z := 16.
Definition COARSE_MAX_BYTES : Z := 64 * 1024.

(** The trait [IndexCache] over a state [C].  A lookup may look at the object database and may
    change the cache, which [&self] does not rule out. *)
Class IndexCache (C : Type) := {
  get_index : odb -> oid -> C -> option oid * C;
  set_index : oid -> oid -> C -> C;
}.

(** * State *)

(** [Indexer]. *)
Record Indexer := MkIndexer {
  pending : gmap oid object;
  trees : gmap oid (list entry);
  tree_memo : gmap oid oid;
  blob_memo : gmap (oid * string) oid;
  blob_spine_memo : gmap oid oid;
  coarse_memo : gmap oid oid;
  stats_memo : gmap oid (Z * Z);
  wrap_memo : gmap (oid * string) oid;
  overlay_memo : gmap (list oid) oid;
}.

(** [Indexer::default]. *)
Definition Indexer_default : Indexer := MkIndexer ∅ ∅ ∅ ∅ ∅ ∅ ∅ ∅ ∅.

Definition set_pending (f : gmap oid object -> gmap oid object) (i : Indexer) : Indexer :=
  MkIndexer (f (pending i)) (trees i) (tree_memo i) (blob_memo i) (blob_spine_memo i)
    (coarse_memo i) (stats_memo i) (wrap_memo i) (overlay_memo i).
Definition set_trees (f : gmap oid (list entry) -> gmap oid (list entry)) (i : Indexer) : Indexer :=
  MkIndexer (pending i) (f (trees i)) (tree_memo i) (blob_memo i) (blob_spine_memo i)
    (coarse_memo i) (stats_memo i) (wrap_memo i) (overlay_memo i).
Definition insert_tree_memo (k : oid) (v : oid) (i : Indexer) : Indexer :=
  MkIndexer (pending i) (trees i) (<[k := v]> (tree_memo i)) (blob_memo i) (blob_spine_memo i)
    (coarse_memo i) (stats_memo i) (wrap_memo i) (overlay_memo i).
Definition insert_blob_memo (k : oid * string) (v : oid) (i : Indexer) : Indexer :=
  MkIndexer (pending i) (trees i) (tree_memo i) (<[k := v]> (blob_memo i)) (blob_spine_memo i)
    (coarse_memo i) (stats_memo i) (wrap_memo i) (overlay_memo i).
Definition insert_blob_spine_memo (k : oid) (v : oid) (i : Indexer) : Indexer :=
  MkIndexer (pending i) (trees i) (tree_memo i) (blob_memo i) (<[k := v]> (blob_spine_memo i))
    (coarse_memo i) (stats_memo i) (wrap_memo i) (overlay_memo i).
Definition insert_coarse_memo (k : oid) (v : oid) (i : Indexer) : Indexer :=
  MkIndexer (pending i) (trees i) (tree_memo i) (blob_memo i) (blob_spine_memo i)
    (<[k := v]> (coarse_memo i)) (stats_memo i) (wrap_memo i) (overlay_memo i).
Definition insert_stats_memo (k : oid) (v : Z * Z) (i : Indexer) : Indexer :=
  MkIndexer (pending i) (trees i) (tree_memo i) (blob_memo i) (blob_spine_memo i)
    (coarse_memo i) (<[k := v]> (stats_memo i)) (wrap_memo i) (overlay_memo i).
Definition insert_wrap_memo (k : oid * string) (v : oid) (i : Indexer) : Indexer :=
  MkIndexer (pending i) (trees i) (tree_memo i) (blob_memo i) (blob_spine_memo i)
    (coarse_memo i) (stats_memo i) (<[k := v]> (wrap_memo i)) (overlay_memo i).
Definition insert_overlay_memo (k : list oid) (v : oid) (i : Indexer) : Indexer :=
  MkIndexer (pending i) (trees i) (tree_memo i) (blob_memo i) (blob_spine_memo i)
    (coarse_memo i) (stats_memo i) (wrap_memo i) (<[k := v]> (overlay_memo i)).

(** [Run]: the object database and the cache that a call borrows, the indexer, and the indexes
    built in the call. *)
Record Run (C : Type) := MkRun {
  src : odb;
  index_cache : C;
  ix : Indexer;
  roots : list (oid * oid);
}.
Arguments MkRun {C} _ _ _ _.
Arguments src {C} _.
Arguments index_cache {C} _.
Arguments ix {C} _.
Arguments roots {C} _.

(** * Indexing *)

Section Index.
Context `{ObjectHash} `{ObjectBytes} {C : Type} `{IndexCache C}.

(** [empty_blob]; [empty_tree] is [empty_id]. *)
Definition empty_blob : oid := compute_hash (OBlob EmptyString).

(** The text of a blob for the search. *)
Definition searched_text (data : string) : string :=
  if has_nul data then EmptyString
  else if valid_utf8 data then data else EmptyString.

(** [read_blob_text]. *)
Definition read_blob_text (o : odb) (id : oid) : string :=
  match try_find o id with Some (OBlob data) => searched_text data | _ => EmptyString end.

(** [tree_entry]. *)
Definition tree_entry (name : string) (id : oid) : entry := Entry tree_mode name id.

Abbreviation im := (M (Run C)).

Definition on_ix (f : Indexer -> Indexer) : im unit :=
  modify (fun s => MkRun (src s) (index_cache s) (f (ix s)) (roots s)).

(** [Run::write_tree]; [write_to] refuses names with a NUL byte. *)
Definition write_tree (entries : list entry) : im oid :=
  match entries with
  | [] => mret empty_id
  | _ =>
      if existsb (fun e => has_nul (filename e)) entries then fail "failed to write tree"
      else
        let tree := sort_entries entries in
        let hash := compute_hash (OTree tree) in
        known ← gets (fun s => bool_decide (is_Some (trees (ix s) !! hash)));
        if (known : bool) then mret hash
        else
          _ ← on_ix (fun i => set_trees (insert hash tree) (set_pending (insert hash (OTree tree)) i));
          mret hash
  end.

(** [Run::read_tree]. *)
Definition read_tree (id : oid) : im (list entry) :=
  known ← gets (fun s => trees (ix s) !! id);
  match known with
  | Some tree => mret tree
  | None =>
      buffered ← gets (fun s => pending (ix s) !! id);
      tree ←
        match buffered with
        | Some data => lift (from_bytes data)
        | None =>
            found ← gets (fun s => try_find (src s) id);
            match found with
            | Some data => lift (from_bytes data)
            | None => fail ("object " +:+ id +:+ " not found")
            end
        end;
      _ ← on_ix (set_trees (insert id tree));
      mret tree
  end.

(** [Run::content_spine]. *)
Definition content_spine (content : string) (leaf_mode : entry_mode) (leaf_oid : oid) : im oid :=
  match spine_map (distinct_trigrams content) with
  | [] => mret empty_id
  | spine =>
      l1 ← mapM (fun '(b1, l2s) =>
        l2 ← mapM (fun '(b2, b3s) =>
          id ← write_tree ((fun b3 => Entry leaf_mode (hex_name b3) leaf_oid) <$> b3s);
          mret (tree_entry (hex_name b2) id)) l2s;
        id ← write_tree l2;
        mret (tree_entry (hex_name b1) id)) spine;
      write_tree l1
  end.

(** [Run::index_blob]. *)
Definition index_blob (id : oid) (name content : string) : im oid :=
  known ← gets (fun s => blob_memo (ix s) !! (id, name));
  match known with
  | Some index => mret index
  | None =>
      mirror ← write_tree [Entry blob_mode name empty_blob];
      index ← content_spine content tree_mode mirror;
      _ ← on_ix (insert_blob_memo (id, name) index);
      mret index
  end.

(** [Run::blob_spine]. *)
Definition blob_spine (id : oid) (content : string) : im oid :=
  known ← gets (fun s => blob_spine_memo (ix s) !! id);
  match known with
  | Some index => mret index
  | None =>
      index ← content_spine content blob_mode empty_blob;
      _ ← on_ix (insert_blob_spine_memo id index);
      mret index
  end.

(** [Run::subtree_stats]. *)
Fixpoint subtree_stats (n : nat) (tree_oid : oid) : im (Z * Z) :=
  match n with
  | 0 => lift OutOfFuel
  | S n =>
      known ← gets (fun s => stats_memo (ix s) !! tree_oid);
      match known with
      | Some stats => mret stats
      | None =>
          tree ← read_tree tree_oid;
          stats ← foldM (fun '(files, bytes) e =>
            if is_tree (mode e) then
              '(f, b) ← subtree_stats n (entry_oid e);
              mret (add_u64 files f, add_u64 bytes b)
            else if is_commit (mode e) then mret (files, bytes)
            else
              found ← gets (fun s => try_find (src s) (entry_oid e));
              match found with
              | Some x => mret (add_u64 files 1, add_u64 bytes (header_size x))
              | None => fail ("object " +:+ entry_oid e +:+ " not found")
              end) (0, 0)%Z tree;
          _ ← on_ix (insert_stats_memo tree_oid stats);
          mret stats
      end
  end.

(** The limits of [Run::is_small]. *)
Definition within_limits (stats : Z * Z) : bool :=
  ((stats.1 <=? COARSE_MAX_FILES) && (stats.2 <=? COARSE_MAX_BYTES))%Z.

(** [Run::is_small]. *)
Definition is_small (n : nat) (tree_oid : oid) : im bool :=
  stats ← subtree_stats n tree_oid; mret (within_limits stats).

(** [Run::wrap]. *)
Definition wrap (name : string) (index : oid) : im oid :=
  if decide (index = empty_id) then mret index
  else
    known ← gets (fun s => wrap_memo (ix s) !! (index, name));
    match known with
    | Some id => mret id
    | None =>
        l1 ← read_tree index;
        e1 ← mapM (fun c1 =>
          l2 ← read_tree (entry_oid c1);
          e2 ← mapM (fun c2 =>
            l3 ← read_tree (entry_oid c2);
            e3 ← mapM (fun leaf =>
              id ← write_tree [Entry (mode leaf) name (entry_oid leaf)];
              mret (tree_entry (filename leaf) id)) l3;
            id ← write_tree e3;
            mret (tree_entry (filename c2) id)) l2;
          id ← write_tree e2;
          mret (tree_entry (filename c1) id)) l1;
        id ← write_tree e1;
        _ ← on_ix (insert_wrap_memo (index, name) id);
        mret id
    end.

(** The groups of [overlay_many]: a [BTreeMap] from the name of an entry to its mode and the
    addresses under it. *)
Abbreviation groups := (list (string * (entry_mode * list oid))).

Definition add_to_group (g : groups) (e : entry) : im groups :=
  match btree_get (filename e) g with
  | None => mret (btree_insert (filename e) (mode e, [entry_oid e]) g)
  | Some (m, oids) =>
      if is_tree m && is_tree (mode e)
         || bool_decide (m = mode e) && bool_decide (head oids = Some (entry_oid e))
      then mret (btree_insert (filename e) (m, oids ++ [entry_oid e]) g)
      else fail ("overlay conflict on non-tree entry " +:+ filename e)
  end.

(** The order of the inputs, repetitions and empty inputs contribute nothing. *)
Definition overlay_key (inputs : list oid) : list oid :=
  dedup (sort_oids (List.filter (fun id => negb (bool_decide (id = empty_id))) inputs)).

(** [Run::overlay_many]. *)
Fixpoint overlay_many (n : nat) (inputs : list oid) : im oid :=
  match n with
  | 0 => lift OutOfFuel
  | S n =>
      match overlay_key inputs with
      | [] => mret empty_id
      | [id] => mret id
      | inputs =>
          known ← gets (fun s => overlay_memo (ix s) !! inputs);
          match known with
          | Some id => mret id
          | None =>
              trees ← mapM read_tree inputs;
              g ← foldM (foldM add_to_group) [] trees;
              entries ← mapM (fun '(name, (m, oids)) =>
                id ← overlay_many n oids;
                mret (Entry m name id)) g;
              id ← write_tree entries;
              _ ← on_ix (insert_overlay_memo inputs id);
              mret id
          end
      end
  end.

(** [Run::coarse_index]. *)
Fixpoint coarse_index (h n : nat) (tree_oid : oid) : im oid :=
  match n with
  | 0 => lift OutOfFuel
  | S n =>
      known ← gets (fun s => coarse_memo (ix s) !! tree_oid);
      match known with
      | Some id => mret id
      | None =>
          tree ← read_tree tree_oid;
          spines ← foldM (fun spines e =>
            if is_tree (mode e) then
              id ← coarse_index h n (entry_oid e);
              mret (spines ++ [id])
            else if is_commit (mode e) then mret spines
            else
              content ← gets (fun s => read_blob_text (src s) (entry_oid e));
              id ← blob_spine (entry_oid e) content;
              mret (spines ++ [id])) [] tree;
          index ← overlay_many h spines;
          _ ← on_ix (insert_coarse_memo tree_oid index);
          mret index
      end
  end.

(** [self.cache.get_index]. *)
Definition cached_index (tree_oid : oid) : im (option oid) := fun s =>
  let '(r, c) := get_index (src s) tree_oid (index_cache s) in
  (Ok r, MkRun (src s) c (ix s) (roots s)).

Definition push_root (p : oid * oid) : im unit :=
  modify (fun s => MkRun (src s) (index_cache s) (ix s) (roots s ++ [p])).

(** [Run::index_tree_oid]. *)
Fixpoint index_tree_oid (h n : nat) (tree_oid : oid) : im oid :=
  match n with
  | 0 => lift OutOfFuel
  | S n =>
      tree ← read_tree tree_oid;
      known ← gets (fun s => tree_memo (ix s) !! tree_oid);
      match known with
      | Some id => mret id
      | None =>
          cached ← cached_index tree_oid;
          match cached with
          | Some id => _ ← on_ix (insert_tree_memo tree_oid id); mret id
          | None =>
              wrapped ← foldM (fun wrapped e =>
                if valid_utf8 (filename e) then
                  if is_tree (mode e) then
                    small ← is_small h (entry_oid e);
                    child ← (if (small : bool) then coarse_index h h (entry_oid e)
                             else index_tree_oid h n (entry_oid e));
                    id ← wrap (filename e) child;
                    mret (wrapped ++ [id])
                  else if is_commit (mode e) then mret wrapped
                  else
                    content ← gets (fun s => read_blob_text (src s) (entry_oid e));
                    id ← index_blob (entry_oid e) (filename e) content;
                    mret (wrapped ++ [id])
                else fail "invalid utf-8") [] tree;
              index ← overlay_many h wrapped;
              _ ← on_ix (insert_tree_memo tree_oid index);
              _ ← push_root (tree_oid, index);
              mret index
          end
      end
  end.

(** [write_buf] where the object does not exist. *)
Definition write_missing (id : oid) (x : object) : im unit :=
  modify (fun s =>
    if odb_contains (src s) id then s
    else MkRun (odb_write (src s) x).2 (index_cache s) (ix s) (roots s)).

(** The loop of [Run::flush]; the top of the stack is in front. *)
Fixpoint flush_loop (n : nat) (stack : list oid) (visited : gset oid) (written : list oid) :
    im (list oid) :=
  match n with
  | 0 => lift OutOfFuel
  | S n =>
      match stack with
      | [] => mret written
      | id :: stack =>
          if decide (id ∈ visited) then flush_loop n stack visited written
          else
            let visited := {[id]} ∪ visited in
            buffered ← gets (fun s => pending (ix s) !! id);
            match buffered with
            | None => flush_loop n stack visited written
            | Some data =>
                stack ←
                  match object_kind data with
                  | Tree => l ← lift (from_bytes data); mret (rev (entry_oid <$> l) ++ stack)
                  | _ => mret stack
                  end;
                _ ← write_missing id data;
                flush_loop n stack visited (written ++ [id])
            end
      end
  end.

(** [Run::flush]. *)
Definition flush (n : nat) : im unit :=
  built ← gets roots;
  match built with
  | [] => mret tt
  | _ =>
      _ ← write_missing empty_blob (OBlob EmptyString);
      _ ← write_missing empty_id (OTree []);
      written ← flush_loop n (rev (snd <$> built)) ∅ [];
      _ ← on_ix (set_pending (fun p => foldl (fun p id => delete id p) p written));
      modify (fun s => MkRun (src s)
        (foldl (fun c p => set_index p.1 p.2 c) (index_cache s) built) (ix s) (roots s))
  end.

(** [trigram_index]: a run of its own over the state that the caller keeps; [h] bounds the depth of
    the trees and [k] the objects of the flush. *)
Definition trigram_index (h k : nat) (tree : oid) : im oid :=
  _ ← modify (fun s => MkRun (src s) (index_cache s) (ix s) []);
  index ← index_tree_oid h h tree;
  _ ← flush k;
  mret index.

End Index.

(** * The cache of a transaction *)

(** [filter::index()]. *)
Definition index_filter : cache_filter := Real (to_filter Op.Index).

(** [TrigramIndexCache], with the parts of the transaction that it uses. *)
Record TrigramIndexCache (B : Type) := MkIndexCache {
  index_map : gmap oid oid;
  index_stack : list B;
  hint : HistoryGraphHint;
}.
Arguments MkIndexCache {B} _ _ _.
Arguments index_map {B} _.
Arguments index_stack {B} _.
Arguments hint {B} _.

Section Cache.
Context {B : Type} `{CacheBackend B}.

(** [get_trigram_index]: what the transaction wrote itself, then the stack, where an index that is
    no longer stored does not count; an error is a miss. *)
Definition get_trigram_index (o : odb) (tree : oid) (c : TrigramIndexCache B) :
    option oid * TrigramIndexCache B :=
  match index_map c !! tree with
  | Some id => (Some id, c)
  | None =>
      let '(r, l) := CacheStack.read_propagate index_filter tree (hint c) true (index_stack c) in
      (match r with
       | Ok (Some id) => if odb_contains o id then Some id else None
       | _ => None
       end, MkIndexCache (index_map c) l (hint c))
  end.

(** [insert_trigram_index]: the first index of a tree stays in the map; an error of the stack is
    logged. *)
Definition insert_trigram_index (tree result : oid) (c : TrigramIndexCache B) : TrigramIndexCache B :=
  let m := match index_map c !! tree with Some _ => index_map c | None => <[tree := result]> (index_map c) end in
  MkIndexCache m (CacheStack.write_all index_filter tree result (hint c) true (index_stack c)).2 (hint c).

#[export] Instance trigram_index_cache : IndexCache (TrigramIndexCache B) :=
  {| get_index := get_trigram_index; set_index := insert_trigram_index |}.

End Cache.
