(* ===== verification/HistoryGraph.v ===== *)
(** The position of a commit in its history: its sequence number and the root commits it
    reaches, computed bottom-up in one walk and kept under two sentinels of the commit cache
    (josh-core/src/cache/history_graph.rs), and the operations of the commit cache that
    attach this position to every record (josh-core/src/cache/transaction.rs). *)

From S2P Require Import Prelude Path Objects Store RevWalk HistoryHint CommitCache Ops.

Open Scope Z_scope.

(** [u64] arithmetic wraps in release builds. *)
Definition wrap64 (z : Z) : Z := z mod 2 ^ 64.

(** [HistoryGraphInfo]. *)
Record HistoryGraphInfo := Info { info_sequence_number : Z; reachable_roots : list oid }.

(** [BTreeSet::insert] on object ids, as the list of the elements in order. *)
Fixpoint set_insert (x : oid) (l : list oid) : list oid :=
  match l with
  | [] => [x]
  | y :: l' =>
      match String.compare x y with
      | Lt => x :: l
      | Eq => l
      | Gt => y :: set_insert x l'
      end
  end.

Definition set_extend (l xs : list oid) : list oid := foldl (fun l x => set_insert x l) l xs.

(** The hint that [derive_from_parents] makes of the sequence numbers of the parents. *)
Definition derived_hint (seqs : list Z) : HistoryGraphHint :=
  match seqs with
  | [] => Hint 0 0 0 false
  | s0 :: rest =>
      let parent_count := Z.min (Z.of_nat (length seqs)) 255 in
      let seq := wrap64 (foldr Z.max s0 rest + 1) in
      let d0 := wrap64 (seq - s0) in
      let '(delta, second) :=
        match rest with
        | s1 :: _ =>
            if decide (d0 < wrap64 (seq - s1)) then (Z.min (wrap64 (seq - s1)) 127, true)
            else (Z.min d0 127, false)
        | [] => (Z.min d0 127, false)
        end in
      Hint seq parent_count delta second
  end.

Section HistoryGraph.
Context `{ObjectHash} {B : Type} `{CacheBackend B}.

Abbreviation cm := (M (txn B)).

(** [write_roots_blob]. *)
Definition write_roots_blob (roots : list oid) : cm oid :=
  on_odb (fun o => let '(id, o) := odb_write o (OBlob (roots_bytes roots)) in (Ok id, o)).

(** [read_roots_blob]. *)
Definition read_roots_blob (id : oid) : cm (list oid) :=
  o ← gets t_odb;
  match odb_read o id with
  | Ok (OBlob content, _) => lift (parse_roots content)
  | Ok _ => fail "reachable_roots object is not a blob"
  | Err e => fail e
  | OutOfFuel => lift OutOfFuel
  end.

(** [read_parent_ids] of josh-core/src/git.rs. *)
Definition read_parent_ids (id : oid) : cm (list oid) :=
  o ← gets t_odb;
  match odb_read o id with
  | Ok (OCommit c, _) => mret (commit_parents c)
  | Ok _ => fail "object is not a commit"
  | Err e => fail e
  | OutOfFuel => lift OutOfFuel
  end.

(** [derive_from_parents]. *)
Definition derive_from_parents (self : oid) (parents_hint : list (Z * oid)) :
    cm (HistoryGraphHint * oid) :=
  match parents_hint with
  | [] => blob ← write_roots_blob [self]; mret (derived_hint [], blob)
  | (_, first_blob) :: _ =>
      blob ←
        (if forallb (fun p => bool_decide (p.2 = first_blob)) parents_hint then mret first_blob
         else
           set ← foldM (fun set p => roots ← read_roots_blob p.2; mret (set_extend set roots))
                   [] parents_hint;
           write_roots_blob set);
      mret (derived_hint (fst <$> parents_hint), blob)
  end.

(** [try_read_cached_hint]. *)
Definition try_read_cached_hint (input : oid) : cm (option (HistoryGraphHint * oid)) :=
  seq ← slot_get SequenceNumber input;
  match seq with
  | None => mret None
  | Some seq =>
      roots_blob ← slot_get ReachableRoots input;
      match roots_blob with
      | None => mret None
      | Some roots_blob => mret (Some (hint_from_oid seq, roots_blob))
      end
  end.

(** [store_hint]. *)
Definition store_hint (input : oid) (hint : HistoryGraphHint * oid) : cm unit :=
  _ ← slot_insert SequenceNumber input (oid_from_hint hint.1) true;
  slot_insert ReachableRoots input hint.2 true.

(** The hints of the parents if all are cached: collecting stops at the first that is not. *)
Fixpoint cached_parents (ps : list oid) : cm (option (list (Z * oid))) :=
  match ps with
  | [] => mret (Some [])
  | p :: ps =>
      h ← try_read_cached_hint p;
      match h with
      | None => mret None
      | Some (hint, blob) =>
          hs ← cached_parents ps;
          match hs with
          | None => mret None
          | Some hs => mret (Some ((sequence_number hint, blob) :: hs))
          end
      end
  end.

(** [unwrap_or(false)]. *)
Definition unwrap_or_false (m : cm bool) (t : txn B) : bool * txn B :=
  match m t with (Ok b, t) => (b, t) | (_, t) => (false, t) end.

(** The callback that prunes commits with both records. *)
Definition both_known (id : oid) (t : txn B) : bool * txn B :=
  let '(b, t) := unwrap_or_false (slot_known SequenceNumber id) t in
  if b then unwrap_or_false (slot_known ReachableRoots id) t else (false, t).

(** The walk from [input] down to the commits with both records; [n] bounds its turns. *)
Definition unknown_commits (n : nat) (input : oid) : cm (list oid) := fun t =>
  let find := try_find (t_odb t) in
  match RevWalk.push find input RevWalk.new with
  | Ok w => RevWalk.into_topo_vec find n both_known w t
  | Err e => (Err e, t)
  | OutOfFuel => (OutOfFuel, t)
  end.

(** The record of a parent, which the walk needs. *)
Definition parent_hint (p : oid) : cm (Z * oid) :=
  h ← try_read_cached_hint p;
  match h with
  | Some (hint, blob) => mret (sequence_number hint, blob)
  | None => fail "parent hint missing during walk"
  end.

(** The body of the loop over the commits of the walk. *)
Definition derive_and_store (id : oid) : cm unit :=
  ps ← read_parent_ids id;
  parents_hint ← Prelude.mapM parent_hint ps;
  hint ← derive_from_parents id parents_hint;
  store_hint id hint.

(** [ensure_hint_cached]. *)
Definition ensure_hint_cached (n : nat) (input : oid) : cm (HistoryGraphHint * oid) :=
  cached ← try_read_cached_hint input;
  match cached with
  | Some hint => mret hint
  | None =>
      stored ← gets (fun t => odb_contains (t_odb t) input);
      if negb stored then fail "ensure_hint_cached: input does not exist"
      else
        parent_ids ← read_parent_ids input;
        parents_hint ← cached_parents parent_ids;
        match parents_hint with
        | Some parents_hint =>
            hint ← derive_from_parents input parents_hint;
            _ ← store_hint input hint;
            mret hint
        | None =>
            sorted ← unknown_commits n input;
            _ ← Prelude.mapM derive_and_store (reverse sorted);
            cached ← try_read_cached_hint input;
            match cached with
            | Some hint => mret hint
            | None => fail "missing graph info after walk"
            end
        end
  end.

(** [compute_sequence_number]. *)
Definition compute_sequence_number (n : nat) (input : oid) : cm Z :=
  h ← ensure_hint_cached n input; mret (sequence_number h.1).

(** [compute_history_hint]. *)
Definition compute_history_hint (n : nat) (input : oid) : cm HistoryGraphHint :=
  h ← ensure_hint_cached n input; mret h.1.

(** [collect_history_graph_info]. *)
Definition collect_history_graph_info (n : nat) (input : oid) : cm HistoryGraphInfo :=
  h ← ensure_hint_cached n input;
  roots ← read_roots_blob h.2;
  mret (Info (sequence_number h.1) roots).

(** The loop of [parents_share_root] over the blobs after the first. *)
Fixpoint intersect_roots (common : list oid) (blobs : list oid) : cm bool :=
  match blobs with
  | [] => mret (negb (bool_decide (common = [])))
  | blob :: blobs =>
      if decide (common = []) then mret false
      else
        roots ← read_roots_blob blob;
        intersect_roots (base.filter (fun r => r ∈ set_extend [] roots) common) blobs
  end.

(** [parents_share_root]. *)
Definition parents_share_root (n : nat) (parent_ids : list oid) : cm bool :=
  if bool_decide (parent_ids = []) || existsb (fun x => bool_decide (x = zero_oid)) parent_ids
  then mret false
  else
    parent_blobs ← Prelude.mapM (fun p => h ← ensure_hint_cached n p; mret h.2) parent_ids;
    match parent_blobs with
    | [] => fail "index out of bounds"
    | first_blob :: rest =>
        if forallb (fun b => bool_decide (b = first_blob)) parent_blobs then mret true
        else
          roots ← read_roots_blob first_blob;
          intersect_roots (set_extend [] roots) rest
    end.

(** * Records of filtered commits *)

(** The hint of a record in [insert] and [get2]. *)
Definition record_hint (n : nat) (f : cache_filter) (from : oid) : cm HistoryGraphHint :=
  if is_slot f then mret slot_hint else compute_history_hint n from.

(** [get2]. *)
Definition get2 (n : nat) (f : cache_filter) (from : oid) : cm (option oid) :=
  if cache_filter_is_nop f then mret (Some from)
  else hint ← record_hint n f from; lookup_record hint f from.

(** [get]. *)
Definition get (n : nat) (f : cache_filter) (from : oid) : cm (option oid) :=
  or_miss f from (get2 n f from).

(** [known]. *)
Definition known (n : nat) (f : cache_filter) (from : oid) : cm bool :=
  r ← get2 n f from; mret (bool_decide (is_Some r)).

(** [insert]. *)
Definition insert (n : nat) (f : cache_filter) (from to : oid) (store : bool) : cm unit :=
  hint ← record_hint n f from; insert_record hint f from to store.

End HistoryGraph.
