(* ===== verification/GraphMerge.v ===== *)
(** Questions about the commit graph and three-way merges: josh-gix-ext/src/graph.rs and
    josh-gix-ext/src/merge.rs, over the merge-base and merge algorithms of the gix libraries. *)

From S2P Require Import Prelude Path Ops Objects Store RevWalk.

Open Scope nat_scope.

(** * The libraries *)

(** [Favor]. *)
Inductive Favor := Ours | Theirs.

(** [gix_merge::tree::Outcome], as far as the code looks at it: the blobs the merge has written,
    the paths of the conflicts it leaves, and the trees of the result, the root last. *)
Record outcome := Outcome {
  merged_blobs : list string;
  unresolved : list string;
  merged_trees : list (list entry);
  merged_root : list entry;
}.

(** [gix_revision::merge_base] (the best common ancestors, none without shared history),
    [gix_revision::merge_base::octopus], [gix_merge::tree] and [gix_merge::commit]. *)
Class Gix := {
  gix_merge_base : (oid -> option object) -> oid -> list oid -> res (list oid);
  gix_octopus : (oid -> option object) -> oid -> list oid -> res (option oid);
  gix_merge_tree : (oid -> option object) -> oid -> oid -> oid -> res outcome;
  gix_merge_commit : (oid -> option object) -> oid -> oid -> option Favor -> res outcome;
}.

(** * Reachability *)

Section Graph.
Context `{Gix} (find : oid -> option object).

(** [is_descendant_of]. *)
Definition is_descendant_of (commit ancestor : oid) : res bool :=
  if decide (commit = ancestor) then Ok false
  else
    _ ← ensure_commit find commit;
    _ ← ensure_commit find ancestor;
    bases ← gix_merge_base find commit [ancestor];
    Ok (bool_decide (ancestor ∈ bases)).

(** [merge_base]. *)
Definition merge_base (a b : oid) : res oid :=
  _ ← ensure_commit find a;
  _ ← ensure_commit find b;
  bases ← gix_merge_base find a [b];
  match bases with
  | base :: _ => Ok base
  | [] => Err (a +:+ " and " +:+ b +:+ " share no history")
  end.

(** [merge_base_octopus]. *)
Definition merge_base_octopus (commits : list oid) : res (option oid) :=
  match commits with
  | [] => Err "merge_base_octopus: no commits"
  | first :: rest =>
      _ ← collect_res (ensure_commit find <$> commits);
      gix_octopus find first rest
  end.

End Graph.

(** * Merges *)

Section Merge.
Context `{ObjectHash} `{Gix}.

(** The blobs that a merge writes on its way. *)
Fixpoint write_blobs (l : list string) : txm unit :=
  match l with
  | [] => mret tt
  | s :: l => _ ← write_object (OBlob s); write_blobs l
  end.
Fixpoint write_trees (l : list (list entry)) : txm unit :=
  match l with
  | [] => mret tt
  | t :: l => _ ← write_object (OTree t); write_trees l
  end.

(** [write_result]. *)
Definition write_result (o : outcome) (ours theirs : oid) : txm oid :=
  _ ← write_blobs (merged_blobs o);
  match unresolved o with
  | [] => _ ← write_trees (merged_trees o); write_object (OTree (merged_root o))
  | paths =>
      fail ("merge of " +:+ ours +:+ " and " +:+ theirs +:+ " conflicts in " +:+ String.concat ", " paths)
  end.

(** [merge_trees]. *)
Definition merge_trees (base ours theirs : oid) : txm oid :=
  o ← gets tx_odb;
  r ← lift (gix_merge_tree (try_find o) base ours theirs);
  write_result r ours theirs.

(** [merge_commits]. *)
Definition merge_commits (ours theirs : oid) (favor : option Favor) : txm oid :=
  o ← gets tx_odb;
  r ← lift (gix_merge_commit (try_find o) ours theirs favor);
  write_result r ours theirs.

End Merge.
