(* ===== verification/Apply.v ===== *)
(** Applying a filter to a tree and the reverse (josh-core/src/filter/mod.rs, with the
    composition of trees of josh-core/src/filter/tree.rs and the templates of
    josh-core/src/filter/text.rs): [apply_impl] with all its operators, the filters that a
    tree holds itself (workspaces, stored and scripted filters), and [unapply]. *)

From S2P Require Import Prelude Path Objects Store CommitCache HistoryGraph OptState Invert Flatten.
From S2P Require Import Step Builders Utf8 Glob Pattern Persist TreeOps TreePaths TreeWalk Ops.

Open Scope nat_scope.

(** * Rewrites *)

Inductive SigRewrite := NameEmail (name email : string) | Raw (s : string).

Module Rewrite.

Record t := Rewrite {
  tree_id : oid;
  commit : oid;
  author : option SigRewrite;
  committer : option SigRewrite;
  message : option string;
}.

Definition from_tree (tree : oid) : t := Rewrite tree zero_oid None None None.
Definition from_tree_with_metadata (tree : oid) (author committer : option SigRewrite)
    (message : option string) : t := Rewrite tree zero_oid author committer message.
Definition from_commit_data (id : oid) (c : Objects.commit) : t := Rewrite (commit_tree c) id None None None.
Definition with_author (a : string * string) (x : t) : t :=
  Rewrite (tree_id x) (commit x) (Some (NameEmail a.1 a.2)) (committer x) (message x).
Definition with_committer (c : string * string) (x : t) : t :=
  Rewrite (tree_id x) (commit x) (author x) (Some (NameEmail c.1 c.2)) (message x).
Definition with_message (m : string) (x : t) : t :=
  Rewrite (tree_id x) (commit x) (author x) (committer x) (Some m).
Definition with_tree (tree : oid) (x : t) : t :=
  Rewrite tree (commit x) (author x) (committer x) (message x).

End Rewrite.

(** * What the code calls *)

(** The language of filters (josh-filter/src/flang). *)
Class FilterText := {
  parse : string -> res filter;
  as_file : filter -> string;
  pretty : filter -> nat -> string;
  get_comments : string -> res string;
}.

(** Libraries and services: the numeric value of a mode, regular expressions with named
    groups, format strings, scripts, the search index, submodule files, hooks, and whether
    experimental filters are enabled. *)
Class Collaborators `{ObjectHash} `{EntryModes} := {
  mode_value : entry_mode -> Z;
  mode_value_tree : mode_value tree_mode = tree_bits;
  replace_all {S} : regex -> string -> (list (string * string) -> string -> M S string) -> M S string;
  strfmt_map {S} : string -> (string -> M S (option string)) -> M S string;
  starlark_evaluate : string -> oid -> odb -> res filter;
  trigram_index : oid -> oid -> txm oid;
  parse_gitmodules : string -> res (list (path * string));
  lookup_filter_hook : string -> oid -> res filter;
  experimental_features_enabled : bool;
}.

(** * State *)

(** [DownstackDep]: what a change touches. *)
Inductive DownstackDep := DepPath (p : string) | DepSeries (s : string).

#[export] Instance downstack_dep_eq_dec : EqDecision DownstackDep.
Proof. solve_decision. Defined.
#[export] Instance downstack_dep_countable : Countable DownstackDep.
Proof.
  refine (inj_countable'
    (fun d => match d with DepPath p => inl p | DepSeries s => inr s end)
    (fun x : string + string => match x with inl p => DepPath p | inr s => DepSeries s end) _).
  by intros [].
Defined.

(** The part of a transaction that concerns commits: the records of filtered commits with the
    stack of caches and the misses, the commit written last with its tree, and the memo tables
    of stacked changes. *)
Record records (B : Type) := Records {
  r_commit_map : list (cache_filter * oid * oid);
  r_cache : list B;
  r_missing : list (nat * cache_filter * oid);
  r_misses : nat;
  r_nesting_level : nat;
  r_last_written_commit : option (oid * oid);
  r_merge_trees_map : gmap (oid * oid * oid) oid;
  r_downstack_deps_map : gmap oid (gset DownstackDep);
}.
Arguments Records {B} _ _ _ _ _ _ _ _.
Arguments r_commit_map {B} _.
Arguments r_cache {B} _.
Arguments r_missing {B} _.
Arguments r_misses {B} _.
Arguments r_nesting_level {B} _.
Arguments r_last_written_commit {B} _.
Arguments r_merge_trees_map {B} _.
Arguments r_downstack_deps_map {B} _.

(** The process-wide tables of the optimizer, the transaction, its memo tables of applied
    filters, the workspaces and ancestors found so far, and the records of commits. The tables
    that the code keys by [Filter::id] are keyed by the filter, which its id identifies. *)
Record world (B : Type) := World {
  w_caches : caches;
  w_tx : tx;
  apply_map : list (filter * oid * oid);
  unapply_map : list (filter * oid * oid);
  legalize_map : list (filter * oid * filter);
  WORKSPACES : gmap oid filter;
  ANCESTORS : gmap oid (gset oid);
  w_records : records B;
}.
Arguments World {B} _ _ _ _ _ _ _ _.
Arguments w_caches {B} _.
Arguments w_tx {B} _.
Arguments apply_map {B} _.
Arguments unapply_map {B} _.
Arguments legalize_map {B} _.
Arguments WORKSPACES {B} _.
Arguments ANCESTORS {B} _.
Arguments w_records {B} _.

Section State.
Context {B : Type}.
Abbreviation world := (world B).
Abbreviation wm := (M world).

Definition set_caches (c : caches) (w : world) : world :=
  World c (w_tx w) (apply_map w) (unapply_map w) (legalize_map w) (WORKSPACES w) (ANCESTORS w)
    (w_records w).
Definition set_tx (t : tx) (w : world) : world :=
  World (w_caches w) t (apply_map w) (unapply_map w) (legalize_map w) (WORKSPACES w) (ANCESTORS w)
    (w_records w).
Definition insert_apply (f : filter) (from to : oid) (w : world) : world :=
  World (w_caches w) (w_tx w) ((f, from, to) :: apply_map w) (unapply_map w) (legalize_map w)
    (WORKSPACES w) (ANCESTORS w) (w_records w).
Definition insert_unapply (f : filter) (from to : oid) (w : world) : world :=
  World (w_caches w) (w_tx w) (apply_map w) ((f, from, to) :: unapply_map w) (legalize_map w)
    (WORKSPACES w) (ANCESTORS w) (w_records w).
Definition insert_legalize (f : filter) (tree : oid) (g : filter) (w : world) : world :=
  World (w_caches w) (w_tx w) (apply_map w) (unapply_map w) ((f, tree, g) :: legalize_map w)
    (WORKSPACES w) (ANCESTORS w) (w_records w).
Definition insert_WORKSPACES (id : oid) (f : filter) (w : world) : world :=
  World (w_caches w) (w_tx w) (apply_map w) (unapply_map w) (legalize_map w)
    (<[id := f]> (WORKSPACES w)) (ANCESTORS w) (w_records w).
Definition insert_ANCESTORS (id : oid) (l : gset oid) (w : world) : world :=
  World (w_caches w) (w_tx w) (apply_map w) (unapply_map w) (legalize_map w)
    (WORKSPACES w) (<[id := l]> (ANCESTORS w)) (w_records w).
Definition set_records (r : records B) (w : world) : world :=
  World (w_caches w) (w_tx w) (apply_map w) (unapply_map w) (legalize_map w) (WORKSPACES w) (ANCESTORS w) r.

Fixpoint keyed_get {V} (l : list (filter * oid * V)) (f : filter) (id : oid) : option V :=
  match l with
  | [] => None
  | (g, id', v) :: l => if decide (f = g /\ id = id') then Some v else keyed_get l f id
  end.

Definition get_apply (f : filter) (from : oid) (w : world) : option oid := keyed_get (apply_map w) f from.
Definition get_unapply (f : filter) (from : oid) (w : world) : option oid := keyed_get (unapply_map w) f from.
Definition get_legalize (f : filter) (tree : oid) (w : world) : option filter :=
  keyed_get (legalize_map w) f tree.

(** Computations on a part of the state. *)
Definition on_caches {A} (m : opt A) : wm A := fun w =>
  let '(r, c) := m (w_caches w) in (r, set_caches c w).
Definition on_tx {A} (m : txm A) : wm A := fun w =>
  let '(r, t) := m (w_tx w) in (r, set_tx t w).

(** The caches of commits work on the same object database. *)
Definition txn_of (w : world) : txn B :=
  let r := w_records w in
  Txn (tx_odb (w_tx w)) (r_commit_map r) (r_cache r) (r_missing r) (r_misses r) (r_nesting_level r).
Definition set_txn (t : txn B) (w : world) : world :=
  let r := w_records w in
  set_records
    (Records (commit_map t) (cache t) (missing t) (misses t) (nesting_level t)
       (r_last_written_commit r) (r_merge_trees_map r) (r_downstack_deps_map r))
    (set_tx (with_odb (t_odb t) (w_tx w)) w).
Definition on_txn {A} (m : M (txn B) A) : wm A := fun w =>
  let '(r, t) := m (txn_of w) in (r, set_txn t w).

End State.

(** [Result::ok]: an error is [None]. *)
Definition attempt {S A} (m : M S A) : M S (option A) := fun s =>
  match m s with
  | (Ok a, s) => (Ok (Some a), s)
  | (Err _, s) => (Ok None, s)
  | (OutOfFuel, s) => (OutOfFuel, s)
  end.

(** [Result::unwrap_or_else]. *)
Definition or_else {S A} (m : M S A) (d : A) : M S A :=
  r ← attempt m; mret (default d r).

(** * Templates *)

Section Template.
Context `{Collaborators}.

Fixpoint capture_get (key : string) (caps : list (string * string)) : option string :=
  match caps with
  | [] => None
  | (k, v) :: caps => if decide (key = k) then Some v else capture_get key caps
  end.

(** [transform_with_template]: the first error of a format string is kept aside while the
    match it belongs to is copied. *)
Definition transform_with_template {S} (re : regex) (template input : string)
    (globals : string -> M S (option string)) : M S string := fun s =>
  let callback caps whole : M (option string * S) string := fun '(err, s) =>
    match strfmt_map template (fun key =>
            match capture_get key caps with
            | Some v => mret (Some v)
            | None => globals key
            end) s with
    | (Ok r, s) => (Ok r, (err, s))
    | (Err e, s) => (Ok whole, (match err with None => Some e | err => err end, s))
    | (OutOfFuel, s) => (OutOfFuel, (err, s))
    end in
  match replace_all re input callback (None, s) with
  | (Ok r, (None, s)) => (Ok r, s)
  | (Ok _, (Some e, s)) => (Err e, s)
  | (Err e, (_, s)) => (Err e, s)
  | (OutOfFuel, (_, s)) => (OutOfFuel, s)
  end.

End Template.

Section Apply.
Context `{ObjectHash} `{BisectEntry} `{EntryModes} `{RegexReplace} `{Readers} `{FilterText}.
Context `{!Collaborators} {B : Type} `{CacheBackend B}.
Abbreviation world := (world B).
Abbreviation wm := (M world).
(** The budget of the optimizer and of the recursions over trees. *)
Context (h : nat).

(** * Reading *)

Definition check_experimental (feature : string) : wm unit :=
  on_caches (Filter.check_experimental experimental_features_enabled feature).

(** [CommitData::read]. *)
Definition read_commit (id : oid) : txm commit := fun t =>
  (match try_find (tx_odb t) id with
   | Some (OCommit c) => Ok c
   | Some _ => Err ("object " +:+ id +:+ " is not a commit")
   | None => Err ("object " +:+ id +:+ " not found")
   end, t).

(** [git::read_tree_id]. *)
Definition read_tree_id (id : oid) : txm oid :=
  x ← read_object id;
  match x.1 with
  | OCommit c => mret (commit_tree c)
  | _ => fail ("object " +:+ id +:+ " is not a commit")
  end.

(** [git::read_parent_ids]. *)
Definition read_parent_ids (id : oid) : txm (list oid) :=
  x ← read_object id;
  match x.1 with
  | OCommit c => mret (commit_parents c)
  | _ => fail ("object " +:+ id +:+ " is not a commit")
  end.

(** [std::str::from_utf8]. *)
Definition utf8 (s : string) : res string :=
  if valid_utf8 s then Ok s else Err "invalid utf-8 sequence".

(** [CommitData::message]: without the newlines in front. *)
Fixpoint trim_newlines (s : string) : string :=
  match s with
  | String c s' => if decide (c = "010"%char) then trim_newlines s' else s
  | EmptyString => s
  end.

(** [walk_tree_preorder]: the entries with the path of their directory, before their own
    entries; [n] bounds the depth. *)
Fixpoint walk_tree_preorder (n : nat) (o : odb) (tree : oid) (path : string) : res (list (string * entry)) :=
  match n with
  | 0 => OutOfFuel
  | S n =>
      match try_find o tree with
      | None => Err ("object " +:+ tree +:+ " not found")
      | Some (OTree entries) =>
          l ← collect_res ((fun e =>
            if is_tree (mode e) then
              if valid_utf8 (filename e) then
                l ← walk_tree_preorder n o (entry_oid e) (child_path path (filename e));
                Ok ((path, e) :: l)
              else Err "non-utf8 directory name in tree walk"
            else Ok [(path, e)]) <$> entries);
          Ok (concat l)
      | Some _ => Err ("object " +:+ tree +:+ " is not a tree")
      end
  end.

(** [Path::with_added_extension]. *)
Definition with_added_extension (p : path) (ext : string) : path :=
  match file_name p, parent p with
  | Some name, Some up => up ++ [Normal (name +:+ "." +:+ ext)]
  | _, _ => p
  end.

Definition name (s : string) : path := [Normal s].

(** [get_blob_at] of the transaction. *)
Definition blob_at (root : list entry) (p : path) : txm string := fun t =>
  let '(s, t) := get_blob_at root p t in (Ok s, t).
Definition blob_in (root : oid) (p : path) : txm string := fun t =>
  let '(s, t) := get_blob root p t in (Ok s, t).

(** A lookup whose errors count as nothing found. *)
Definition find_path (root : oid) (p : path) : txm (option entry) :=
  r ← attempt (get_path_entry root p); mret (mjoin r).
Definition find_path_at (root : list entry) (p : path) : txm (option entry) :=
  r ← attempt (get_path_entry_at root p); mret (mjoin r).

(** [str::trim]: the characters with the Unicode property of white space. *)
Definition of_bytes (l : list nat) : string := foldr (fun n s => String (ascii_of_nat n) s) EmptyString l.
Definition whitespace : list string :=
  of_bytes <$>
    ([[9]; [10]; [11]; [12]; [13]; [32]; [194; 133]; [194; 160]; [225; 154; 128]]
     ++ ((fun n => [226; 128; n]) <$> seq 128 11)
     ++ [[226; 128; 168]; [226; 128; 169]; [226; 128; 175]; [226; 129; 159]; [227; 128; 128]]).
Fixpoint string_rev_app (s acc : string) : string :=
  match s with String c s => string_rev_app s (String c acc) | EmptyString => acc end.
Definition string_rev (s : string) : string := string_rev_app s EmptyString.
Fixpoint trim_with (n : nat) (spaces : list string) (s : string) : string :=
  match n with
  | 0 => s
  | S n =>
      match omap (fun p => strip_prefix p s) spaces with
      | s' :: _ => trim_with n spaces s'
      | [] => s
      end
  end.
Definition trim (s : string) : string :=
  let s := trim_with (String.length s) whitespace s in
  string_rev (trim_with (String.length s) (string_rev <$> whitespace) (string_rev s)).

(** The compiled form of a pattern; an operator exists only for one that compiles. *)
Definition compiled (glob : string) : res compiled_pattern :=
  match chars glob with
  | None => Err "pattern"
  | Some s => match compile s with inl _ => Err "pattern" | inr cp => Ok cp end
  end.

(** [tree::insert_oid] with enough steps for the path. *)
Definition put (full : oid) (p : path) (id : oid) (m : Z) : wm oid := on_tx (insert_path full p id m).
Definition write_blob (data : string) : wm oid := on_tx (write_object (OBlob data)).

Definition invert (f : filter) : wm filter := on_caches (Invert.invert h f).
Definition chain (f g : filter) : wm filter := on_caches (Filter.chain h f g).
Definition compose (l : list filter) : wm filter := on_caches (Filter.compose h l).
Definition file (p : path) : wm filter := on_caches (Filter.file h Filter.new p).

(** * Filters that apply filters *)

Section Using.
Context (apply : filter -> Rewrite.t -> wm Rewrite.t).

Definition apply_tree (f : filter) (tree : oid) : wm oid :=
  x ← apply f (Rewrite.from_tree tree); mret (Rewrite.tree_id x).

(** One turn of the loop of [tree::compose]. *)
Definition compose_step (acc : oid * oid) (x : filter * oid) : wm (oid * oid) :=
  let '(result, taken) := acc in
  let '(f, applied) := x in
  f ← invert f;
  f ← invert f;
  cached ← gets (get_apply f taken);
  taken_applied ← match cached with
                  | Some id => mret id
                  | None => apply_tree f taken
                  end;
  modify (insert_apply f taken taken_applied) ≫= fun _ =>
  subtracted ← on_tx (subtract h applied taken_applied);
  cached ← gets (get_unapply f applied);
  unapplied ← match cached with
              | Some id => mret id
              | None => g ← invert f; apply_tree g applied
              end;
  modify (insert_unapply f applied unapplied) ≫= fun _ =>
  taken ← on_tx (overlay h taken unapplied);
  result ← on_tx (overlay h subtracted result);
  mret (result, taken).

(** [tree::compose]. *)
Definition tree_compose (trees : list (filter * oid)) : wm oid :=
  r ← foldM compose_step (empty_id, empty_id) trees; mret r.1.

(** [read_josh_link]. *)
Definition read_josh_link (reader : list entry) (root : path) (filename : string) : wm (option filter) :=
  e ← on_tx (find_path_at reader (Path.join root (name filename)));
  match e with
  | None => mret None
  | Some e =>
      blob ← gets (fun w => blob_bytes (tx_odb (w_tx w)) (entry_oid e));
      mret
        (b ← blob;
         b ← res_ok (utf8 b);
         f ← res_ok (parse (trim b));
         match Filter.get_meta f "remote", Filter.get_meta f "commit" with
         | Some _, Some _ => Some f
         | _, _ => None
         end)
  end.

(** The entries of a tree and below it. *)
Definition entries_below (tree : oid) : wm (list (string * entry)) := fun w =>
  (walk_tree_preorder h (tx_odb (w_tx w)) tree EmptyString, w).

(** [get_link_roots]. *)
Definition get_link_roots (tree : oid) : wm (list path) :=
  link_tree ← apply_tree (to_filter (Op.Pattern "**/.link.josh")) tree;
  l ← entries_below link_tree;
  mret (omap (fun x => if decide (filename x.2 = ".link.josh") then Some (components x.1) else None) l).

(** [links_from_roots]. *)
Definition links_from_roots (reader : list entry) (roots : list path) : wm (list (path * filter)) :=
  foldM (fun v root =>
    f ← read_josh_link reader root ".link.josh";
    mret (match f with Some f => v ++ [(root, f)] | None => v end)) [] roots.

(** The link file of an entry, for [find_link_files] of link.rs. *)
Definition link_file (o : odb) (x : string * entry) : option (path * filter) :=
  if decide (filename x.2 = ".link.josh") then
    match blob_bytes o (entry_oid x.2) with
    | Some content =>
        match utf8 content with
        | Ok content =>
            match parse (trim content) with
            | Ok f => Some (components x.1, f)
            | _ => None
            end
        | _ => None
        end
    | None => None
    end
  else None.

(** [find_link_files]. *)
Definition find_link_files (tree : oid) : wm (list (path * filter)) :=
  l ← entries_below tree; gets (fun w => omap (link_file (tx_odb (w_tx w))) l).

(** [extract_submodule_commits]: by path, with the url of the submodule. *)
Definition extract_submodule_commits (tree : oid) : wm (list (path * (oid * string))) :=
  reader ← on_tx (read_tree tree);
  gitmodules ← on_tx (blob_at reader (name ".gitmodules"));
  if decide (gitmodules = EmptyString) then mret []
  else
    match parse_gitmodules gitmodules with
    | Ok entries =>
        foldM (fun m x =>
          e ← on_tx (find_path_at reader x.1);
          mret (match e with
                | Some e => if is_commit (mode e) then ord_insert path_cmp x.1 (entry_oid e, x.2) m else m
                | None => m
                end)) [] entries
    | _ => mret []
    end.

(** * Filters held by a tree *)

Section Held.
Context (legalize : filter -> oid -> list entry -> wm filter).

(** [get_filter]. *)
Definition get_filter (tree : oid) (reader : list entry) (p : path) : wm filter :=
  e ← on_tx (find_path_at reader (normalize_path p));
  match e with
  | None => mret (to_filter Op.Empty)
  | Some e =>
      let ws_id := entry_oid e in
      ws_blob ← gets (fun w => blob_text (tx_odb (w_tx w)) ws_id);
      cached ← gets (fun w => WORKSPACES w !! ws_id);
      match cached with
      | Some f => mret f
      | None =>
          f ← or_else (lift (parse ws_blob)) (to_filter Op.Empty);
          f ← or_else (legalize f tree reader) (to_filter Op.Empty);
          inverted ← attempt (invert f);
          let f := match inverted with Some _ => f | None => to_filter Op.Empty end in
          modify (insert_WORKSPACES ws_id f) ≫= fun _ => mret f
      end
  end.

(** [get_workspace]. *)
Definition get_workspace (tree : oid) (reader : list entry) (p : path) : wm filter :=
  wsj_file ← file (name "workspace.josh");
  let base := to_filter (Op.Subdir p) in
  wsj_file ← chain base wsj_file;
  inner ← get_filter tree reader (Path.join p (name "workspace.josh"));
  inner ← compose [inner; base];
  compose [wsj_file; inner].

(** [get_stored]. *)
Definition get_stored (tree : oid) (reader : list entry) (p : path) : wm filter :=
  let stored_path := with_added_extension p "josh" in
  sj_file ← file stored_path;
  inner ← get_filter tree reader stored_path;
  compose [sj_file; inner].

(** [get_starlark]. *)
Definition get_starlark (tree : oid) (reader : list entry) (p : path) (subfilter : filter) : wm filter :=
  let star_path := with_added_extension p "star" in
  script ← on_tx (blob_at reader star_path);
  filtered ← attempt (apply_tree subfilter tree);
  match filtered with
  | None => mret (to_filter Op.Empty)
  | Some filtered_tree =>
      o ← gets (fun w => tx_odb (w_tx w));
      match starlark_evaluate script filtered_tree o with
      | Ok f =>
          star_file ← file star_path;
          compose [star_file; subfilter; f]
      | _ => mret (to_filter Op.Empty)
      end
  end.

(** The chain arm of [legalize_stored]: a step past the first runs on the tree the steps
    before it produce, which is computed only if a later step needs it. *)
Fixpoint legalize_chain (tree : oid) (reader : list entry) (filters : list filter)
    (result : list filter) (current_tree : oid) : wm (list filter) :=
  match filters with
  | [] => mret result
  | f :: filters =>
      legalized ←
        if decide (current_tree = tree) then legalize f tree reader
        else
          (current_parsed ← on_tx (read_tree current_tree);
           legalize f current_tree current_parsed);
      current_tree ←
        if existsb needs_legalization filters then apply_tree legalized current_tree
        else mret current_tree;
      legalize_chain tree reader filters (result ++ [legalized]) current_tree
  end.
End Held.

(** [legalize_stored]; [n] bounds the nesting. *)
Fixpoint legalize_stored (n : nat) (f : filter) (tree : oid) (reader : list entry) : wm filter :=
  match n with
  | 0 => lift OutOfFuel
  | S n =>
      let rec f := legalize_stored n f tree reader in
      if negb (needs_legalization f) then mret f
      else
        cached ← gets (get_legalize f tree);
        match cached with
        | Some g => mret g
        | None =>
            modify (insert_legalize f tree (Filter.empty Filter.new)) ≫= fun _ =>
            r ← match to_op f with
                | Op.Compose l => l ← mapM rec l; mret (to_filter (Op.Compose l))
                | Op.Chain l =>
                    l ← legalize_chain (legalize_stored n) tree reader l [] tree;
                    mret (to_filter (Op.Chain l))
                | Op.Subtract a b => a ← rec a; b ← rec b; mret (to_filter (Op.Subtract a b))
                | Op.Exclude f => f ← rec f; mret (to_filter (Op.Exclude f))
                | Op.Select f => f ← rec f; mret (to_filter (Op.Select f))
                | Op.Meta meta f => f ← rec f; mret (to_filter (Op.Meta meta f))
                | Op.Pin f => f ← rec f; mret (to_filter (Op.Pin f))
                | Op.Stored p => get_stored (legalize_stored n) tree reader p
                | Op.Starlark p sub => sub ← rec sub; get_starlark tree reader p sub
                | Op.TreeId p f => f ← rec f; mret (to_filter (Op.TreeId p f))
                | _ => mret f
                end;
            modify (insert_legalize f tree r) ≫= fun _ => mret r
        end
  end.

(** [resolve_workspace_redirect]. *)
Definition resolve_workspace_redirect (reader : list entry) (p : path) : wm (option (filter * path)) :=
  text ← on_tx (blob_at reader (Path.join p (name "workspace.josh")));
  let f := match parse text with Ok f => f | _ => to_filter Op.Empty end in
  match peel_filter f with
  | Op.Workspace q =>
      excluded ← file p;
      inner ← chain (to_filter (Op.Exclude excluded)) (peel_filter f);
      mret (Some (propagate_meta inner (Filter.into_meta f), q))
  | _ => mret None
  end.

(** * Ancestors *)

(** The loop of [is_ancestor_of]; [n] bounds the commits. *)
Fixpoint ancestors_loop (n : nat) (todo : list oid) (ancestors : gset oid) : txm (gset oid) :=
  match n with
  | 0 => lift OutOfFuel
  | S n =>
      match last todo with
      | None => mret ancestors
      | Some c =>
          parents ← read_parent_ids c;
          let '(todo, ancestors) :=
            foldl (fun acc p =>
              if decide (p ∈ acc.2) then acc else (acc.1 ++ [p], {[p]} ∪ acc.2))
              (removelast todo, ancestors) parents in
          ancestors_loop n todo ancestors
      end
  end.

(** [is_ancestor_of]. *)
Definition is_ancestor_of (n : nat) (commit tip : oid) : wm bool :=
  tip_number ← attempt (on_txn (compute_sequence_number n tip));
  above ← match tip_number with
          | Some t => c ← on_txn (compute_sequence_number n commit); mret (bool_decide (t < c)%Z)
          | None => mret false
          end;
  if (above : bool) then mret false
  else
    cached ← gets (fun w => ANCESTORS w !! tip);
    match cached with
    | Some l => mret (bool_decide (commit ∈ l))
    | None =>
        l ← on_tx (ancestors_loop n [tip] {[tip]});
        modify (insert_ANCESTORS tip l) ≫= fun _ => mret (bool_decide (commit ∈ l))
    end.

(** [get_rev_filter]: the first entry that matches. *)
Fixpoint get_rev_filter (n : nat) (commit_id : oid) (filters : list (RevMatch.t * LazyRef.t * filter)) :
    wm filter :=
  match filters with
  | [] => mret (to_filter Op.Nop)
  | (match_op, LazyRef.Lazy _, _) :: _ => fail "unresolved lazy ref"
  | (match_op, LazyRef.Resolved filter_tip, startfilter) :: filters =>
      known ← gets (fun w => odb_contains (tx_odb (w_tx w)) filter_tip);
      if bool_decide (match_op ≠ RevMatch.Default) && negb known then
        fail ("`:rev(...)` with nonexistent OID: " +:+ filter_tip)
      else
        matches ←
          match match_op with
          | RevMatch.AncestorStrict =>
              b ← is_ancestor_of n commit_id filter_tip;
              mret (b && bool_decide (commit_id ≠ filter_tip))
          | RevMatch.AncestorInclusive => is_ancestor_of n commit_id filter_tip
          | RevMatch.Equal => mret (bool_decide (commit_id = filter_tip))
          | RevMatch.Default => mret true
          end;
        if (matches : bool) then mret startfilter else get_rev_filter n commit_id filters
  end.

(** [resolve_commit_filter]. *)
Definition resolve_commit_filter (o : Op.t) (commit : oid) : wm filter :=
  match o with
  | Op.Rev revs => get_rev_filter h commit revs
  | Op.Hook hook => lift (lookup_filter_hook hook commit)
  | _ => fail "not a per-commit (rev/hook) filter"
  end.

(** [is_commit_resolved_filter]. *)
Definition is_commit_resolved_filter (o : Op.t) : bool :=
  match o with Op.Rev _ | Op.Hook _ => true | _ => false end.

(** * The reverse *)

(** [reverse_strip_overlay]. *)
Definition reverse_strip_overlay (f original_filter : filter) (tree parent_tree : oid) : wm oid :=
  filtered ← apply original_filter (Rewrite.from_tree parent_tree);
  g ← invert original_filter;
  matching ← apply g filtered;
  stripped ← on_tx (subtract h parent_tree (Rewrite.tree_id matching));
  g ← invert f;
  x ← apply_tree g tree;
  on_tx (overlay h x stripped).

(** [pre_process_tree]. *)
Definition pre_process_tree (tree : oid) : wm oid :=
  ws_file ← on_tx (blob_in tree (name "workspace.josh"));
  parsed ← lift (parse ws_file);
  inverted ← attempt (invert parsed);
  match inverted with
  | None => fail "Invalid workspace: not reversible"
  | Some _ =>
      let comments := match get_comments ws_file with Ok c => c | _ => EmptyString end in
      let blob := comments +:+ pretty parsed 0 +:+ String "010"%char EmptyString in
      id ← write_blob blob;
      put tree (name "workspace.josh") id blob_bits
  end.

(** [unapply_per_rev_filter]; [n] bounds the nesting of stored filters. *)
Definition unapply_per_rev_filter (n : nat) (o : Op.t) (tree parent_tree : oid)
    (commits : option (oid * oid)) : wm (option oid) :=
  if is_commit_resolved_filter o then
    match commits with
    | None => fail "cannot reverse a per-commit filter (`:rev`/`:hook`) without commit context"
    | Some (commit, parent) =>
        f ← resolve_commit_filter o commit;
        original_filter ← resolve_commit_filter o parent;
        r ← reverse_strip_overlay f original_filter tree parent_tree; mret (Some r)
    end
  else
    match o with
    | Op.Workspace p =>
        tree ← pre_process_tree tree;
        tree_reader ← on_tx (read_tree tree);
        parent_reader ← on_tx (read_tree parent_tree);
        workspace ← get_filter (legalize_stored n) tree tree_reader (name "workspace.josh");
        original_workspace ←
          get_filter (legalize_stored n) parent_tree parent_reader (Path.join p (name "workspace.josh"));
        let root := to_filter (Op.Subdir p) in
        let wsj_file := to_filter (Op.File (name "workspace.josh") (name "workspace.josh")) in
        wsj_file ← chain root wsj_file;
        inner ← compose [workspace; root];
        f ← compose [wsj_file; inner];
        inner ← compose [original_workspace; root];
        original_filter ← compose [wsj_file; inner];
        r ← reverse_strip_overlay f original_filter tree parent_tree; mret (Some r)
    | Op.Stored p =>
        let stored_path := with_added_extension p "josh" in
        tree_reader ← on_tx (read_tree tree);
        parent_reader ← on_tx (read_tree parent_tree);
        stored ← get_filter (legalize_stored n) tree tree_reader stored_path;
        original_stored ← get_filter (legalize_stored n) parent_tree parent_reader stored_path;
        sj_file ← file stored_path;
        f ← compose [sj_file; stored];
        original_filter ← compose [sj_file; original_stored];
        r ← reverse_strip_overlay f original_filter tree parent_tree; mret (Some r)
    | Op.Starlark p subfilter =>
        tree_reader ← on_tx (read_tree tree);
        parent_reader ← on_tx (read_tree parent_tree);
        f ← get_starlark tree tree_reader p subfilter;
        original_filter ← get_starlark parent_tree parent_reader p subfilter;
        r ← reverse_strip_overlay f original_filter tree parent_tree; mret (Some r)
    | _ => mret None
    end.

(** [unapply]; [n] bounds the number of steps of a chain. *)
Fixpoint unapply (n : nat) (f : filter) (tree parent_tree : oid) (commits : option (oid * oid)) : wm oid :=
  match n with
  | 0 => lift OutOfFuel
  | S n =>
      inverted ← attempt (invert f);
      match inverted with
      | Some inverted =>
          g ← invert inverted;
          filtered ← apply g (Rewrite.from_tree parent_tree);
          matching ← apply inverted filtered;
          stripped ← on_tx (subtract h parent_tree (Rewrite.tree_id matching));
          x ← apply_tree inverted tree;
          on_tx (overlay h x stripped)
      | None =>
          ws ← unapply_per_rev_filter h (peel_filter f) tree parent_tree commits;
          match ws with
          | Some ws => mret ws
          | None =>
              match peel_filter f with
              | Op.Chain [] => mret tree
              | Op.Chain [first] => unapply n first tree parent_tree commits
              | Op.Chain (first :: rest) =>
                  let rest_chain := to_filter (Op.Chain rest) in
                  let first_op := peel_filter first in
                  filtered_parent_tree ←
                    (if is_commit_resolved_filter first_op then
                       match commits with
                       | None => fail "cannot reverse a per-commit filter (`:rev`/`:hook`) without commit context"
                       | Some (_, parent) =>
                           parent_filter ← resolve_commit_filter first_op parent;
                           apply_tree parent_filter parent_tree
                       end
                     else
                       first_inverted ← attempt (invert first);
                       first_normalized ←
                         match first_inverted with Some g => invert g | None => mret first end;
                       apply_tree first_normalized parent_tree);
                  inner ← unapply n rest_chain tree filtered_parent_tree commits;
                  unapply n first inner parent_tree commits
              | _ => fail "filter cannot be unapplied"
              end
          end
      end
  end.
End Using.

(** * Application *)

(** The tree of a rewrite, read at most once. *)
Abbreviation cell := (option (option (list entry))).

Definition read_once (tree : oid) : M (cell * tx) (option (list entry)) := fun '(c, t) =>
  match c with
  | Some r => (Ok r, (c, t))
  | None =>
      match attempt (read_tree tree) t with
      | (Ok r, t) => (Ok r, (Some r, t))
      | (Err e, t) => (Err e, (c, t))
      | (OutOfFuel, t) => (OutOfFuel, (c, t))
      end
  end.

Definition with_cell {A} (m : txm A) : M (cell * tx) A := fun '(c, t) =>
  let '(r, t) := m t in (r, (c, t)).

(** The values a message template may ask for. *)
Definition template_key (tree commit : oid) (key : string) : M (cell * tx) (option string) :=
  if decide (key = "#") then mret (Some tree)
  else if decide (key = "@") then mret (Some commit)
  else
    match key with
    | String c rest =>
        if decide (c = "/"%char) then
          reader ← read_once tree;
          match reader with
          | Some p => s ← with_cell (blob_at p (components rest)); mret (Some s)
          | None => mret (Some EmptyString)
          end
        else if decide (c = "#"%char) then
          reader ← read_once tree;
          match reader with
          | Some p =>
              e ← with_cell (find_path_at p (components rest));
              mret (Some (match e with Some e => entry_oid e | None => zero_oid end))
          | None => mret (Some zero_oid)
          end
        else mret None
    | EmptyString => mret None
    end.

(** The [Message] arm. *)
Definition apply_message (m : string) (re : regex) (x : Rewrite.t) : wm Rewrite.t :=
  if bool_decide (Rewrite.commit x = zero_oid) && bool_decide (Rewrite.message x = None) then mret x
  else
    message ←
      match Rewrite.message x with
      | Some m => lift (utf8 m)
      | None => base ← on_tx (read_commit (Rewrite.commit x)); lift (utf8 (commit_message base))
      end;
    r ← on_tx (fun t =>
      let '(r, (_, t)) :=
        transform_with_template re m message (template_key (Rewrite.tree_id x) (Rewrite.commit x)) (None, t) in
      (r, t));
    mret (Rewrite.with_message r x).

(** The [Pattern] arm. *)
Definition apply_pattern (f : filter) (glob : string) (input : oid) : wm oid :=
  key ← lift (filter_id (S (size (peel_filter f))) (peel_filter f));
  cp ← lift (compiled glob);
  if fallback cp then
    on_tx (remove_pred h EmptyString input
      (fun p isblob => isblob && matches_with (full cp) (default [] (chars p)) PATTERN_MATCH_OPTIONS) key)
  else on_tx (remove_pattern h input cp key initial_state).

(** The [Insert] arm. *)
Definition apply_insert (dest_path : path) (content : InsertContent.t) (x : Rewrite.t) : wm Rewrite.t :=
  '(id, m, is_tree) ←
    match content with
    | InsertContent.Inline s => id ← write_blob s; mret (id, blob_bits, false)
    | InsertContent.Oid id =>
        k ← gets (fun w => try_kind (tx_odb (w_tx w)) id);
        match k with
        | Some Blob => mret (id, blob_bits, false)
        | Some Tree => mret (id, tree_bits, true)
        | _ => fail ("insert: " +:+ id +:+ " is neither a blob nor a tree")
        end
    end;
  if decide (dest_path = [CurDir]) then
    if (is_tree : bool) then mret (Rewrite.with_tree id x)
    else fail "insert: `:$.=<oid>` requires a tree; a blob cannot be placed at the tree root"
  else
    t ← put empty_id dest_path id m; mret (Rewrite.with_tree t x).

(** The [ObjectDeref] arm. *)
Definition apply_deref (p : path) (x : Rewrite.t) : wm Rewrite.t :=
  e ← on_tx (find_path (Rewrite.tree_id x) p);
  match e with
  | None => mret x
  | Some e =>
      blob ← gets (fun w => blob_bytes (tx_odb (w_tx w)) (entry_oid e));
      oid_str ← match blob with
                | Some blob => s ← lift (utf8 blob); mret (trim (first_line s))
                | None => mret EmptyString
                end;
      match oid_from_str oid_str with
      | Some id =>
          k ← gets (fun w => try_kind (tx_odb (w_tx w)) id);
          match k with
          | Some Tree => t ← put empty_id p id tree_bits; mret (Rewrite.with_tree t x)
          | Some Blob => t ← put empty_id p id blob_bits; mret (Rewrite.with_tree t x)
          | _ => fail (":#: object not found in repo: " +:+ id)
          end
      | None =>
          empty_blob ← write_blob EmptyString;
          t ← put empty_id p empty_blob blob_bits;
          mret (Rewrite.with_tree t x)
      end
  end.

(** A string in quotes. *)
Definition quoted (s : string) : string :=
  String LazyRef.dquote (s +:+ String LazyRef.dquote EmptyString).

(** The [Adapt] arm. *)
Definition apply_adapt (adapter : string) (x : Rewrite.t) : wm Rewrite.t :=
  if decide (adapter = "submodules") then
    commits ← extract_submodule_commits (Rewrite.tree_id x);
    result_tree ← foldM (fun result_tree '(submodule_path, (commit_oid, url)) =>
      prefix_filter ← on_caches (Filter.prefix h Filter.new submodule_path);
      let link_filter :=
        Filter.with_meta "mode" (LinkMode.to_string LinkMode.Pointer)
          (Filter.with_meta "commit" commit_oid
            (Filter.with_meta "target" "HEAD" (Filter.with_meta "remote" url prefix_filter))) in
      id ← write_blob (as_file link_filter);
      put result_tree (Path.join submodule_path (name ".link.josh")) id blob_bits)
      (Rewrite.tree_id x) commits;
    result_tree ← put result_tree (name ".gitmodules") zero_oid blob_bits;
    mret (Rewrite.with_tree result_tree x)
  else fail ("unknown adapter " +:+ quoted adapter).

(** The [Unlink] arm. *)
Definition apply_unlink (x : Rewrite.t) : wm Rewrite.t :=
  check_experimental "unlink filter" ≫= fun _ =>
  links ← find_link_files (Rewrite.tree_id x);
  result_tree ← foldM (fun result_tree '(link_path, link_file) =>
    result_tree ← put result_tree link_path zero_oid blob_bits;
    id ← write_blob (as_file link_file);
    put result_tree (Path.join link_path (name ".link.josh")) id blob_bits)
    (Rewrite.tree_id x) links;
  mret (Rewrite.with_tree result_tree x).

(** [Result::unwrap] of the [Link] arm. *)
Definition unwrapped {A} (m : wm A) : wm A := fun w =>
  match m w with
  | (Err e, w) => (Err ("called `Result::unwrap()` on an `Err` value: " +:+ e), w)
  | r => r
  end.

(** The [Link] arm. *)
Definition apply_link (apply : filter -> Rewrite.t -> wm Rewrite.t) (m : option LinkMode.t)
    (x : Rewrite.t) : wm Rewrite.t :=
  let tree := Rewrite.tree_id x in
  tree_reader ← on_tx (read_tree tree);
  roots ← get_link_roots apply tree;
  v ← links_from_roots tree_reader roots;
  result_tree ← foldM (fun result_tree '(root, link_file) =>
    commit_oid ←
      match Filter.get_meta link_file "commit" ≫= oid_from_str with
      | Some id => mret id
      | None => fail "Link file missing commit metadata"
      end;
    submodule_tree ← on_tx (read_tree_id commit_oid);
    submodule_tree ← unwrapped (apply_tree apply (peel_filter link_file) submodule_tree);
    result_tree ← on_tx (overlay h result_tree submodule_tree);
    let effective_mode :=
      match m with
      | Some m => m
      | None =>
          match Filter.get_meta link_file "mode" with
          | Some s => match LinkMode.parse s with Ok m => m | _ => LinkMode.Pointer end
          | None => LinkMode.Pointer
          end
      end in
    id ← write_blob (as_file (Filter.with_meta "mode" (LinkMode.to_string effective_mode) link_file));
    put result_tree (Path.join root (name ".link.josh")) id blob_bits) tree v;
  mret (Rewrite.with_tree result_tree x).

(** The [Unapply] arm. *)
Definition apply_unapply (apply : filter -> Rewrite.t -> wm Rewrite.t) (target : LazyRef.t) (uf : filter)
    (x : Rewrite.t) : wm Rewrite.t :=
  check_experimental "unapply filter" ≫= fun _ =>
  match target with
  | LazyRef.Resolved target =>
      target ← on_tx (read_commit target);
      msg ← lift (utf8 (trim_newlines (commit_message target)));
      match oid_from_str msg with
      | None => fail "unable to parse OID"
      | Some target =>
          target_tree ← on_tx (read_tree_id target);
          t ← unapply apply h uf (Rewrite.tree_id x) target_tree None;
          mret (Rewrite.from_tree t)
      end
  | LazyRef.Lazy _ => fail "unresolved lazy ref"
  end.

(** The entry [:FILE] copies: its object and mode, or nothing. *)
Definition file_entry (x : Rewrite.t) (source_path : path) : wm (oid * Z) :=
  e ← on_tx (find_path (Rewrite.tree_id x) source_path);
  mret (match e with Some e => (entry_oid e, mode_value (mode e)) | None => (zero_oid, blob_bits) end).

(** [apply_impl]; [n] bounds the depth of the recursion. *)
Fixpoint apply_impl (n : nat) (f : filter) (x : Rewrite.t) : wm Rewrite.t :=
  match n with
  | 0 => lift OutOfFuel
  | S n =>
      let tree := Rewrite.tree_id x in
      let with_result (m : wm oid) : wm Rewrite.t := t ← m; mret (Rewrite.with_tree t x) in
      let apply := apply_impl n in
      let tree_of f x : wm oid := x ← apply f x; mret (Rewrite.tree_id x) in
      match peel_filter f with
      | Op.Nop | Op.Fold | Op.Squash None | Op.Prune | Op.Pin _ => mret x
      | Op.Empty => mret (Rewrite.with_tree empty_id x)
      | Op.Author author email => mret (Rewrite.with_author (author, email) x)
      | Op.Committer author email => mret (Rewrite.with_committer (author, email) x)
      | Op.Squash (Some _) => fail "not applicable to tree: squash"
      | Op.Message m r => apply_message m r x
      | Op.Adapt adapter => apply_adapt adapter x
      | Op.Export => with_result (put tree (name ".link.josh") zero_oid blob_bits)
      | Op.Unlink => apply_unlink x
      | Op.Link m => apply_link apply m x
      | Op.Rev _ => fail "not applicable to tree: rev"
      | Op.RegexReplace replacements =>
          with_result (foldM (fun t '(regex, replacement) => on_tx (regex_replace h t regex replacement))
            tree replacements)
      | Op.Pattern glob =>
          t ← apply_pattern f glob tree;
          mret (if decide (t = tree) then x else Rewrite.with_tree t x)
      | Op.Insert dest_path content => apply_insert dest_path content x
      | Op.File dest_path source_path =>
          e ← file_entry x source_path;
          with_result (put empty_id dest_path e.1 e.2)
      | Op.Subdir p =>
          e ← on_tx (find_path tree p);
          mret (Rewrite.with_tree
            (match e with
             | Some e => if is_tree (mode e) then entry_oid e else empty_id
             | None => empty_id
             end) x)
      | Op.Prefix p => with_result (put empty_id p tree tree_bits)
      | Op.Subtract a b =>
          af ← tree_of a x;
          bf ← apply b x;
          inverted ← invert b;
          bu ← apply inverted bf;
          ba ← tree_of a bu;
          with_result (on_tx (subtract h af ba))
      | Op.Exclude b => bf ← tree_of b x; with_result (on_tx (subtract h tree bf))
      | Op.Select b => bf ← tree_of b x; with_result (on_tx (intersect h tree bf))
      | Op.Paths => with_result (on_tx (pathstree h EmptyString tree))
      | Op.Index => with_result (on_tx (trigram_index (Rewrite.commit x) tree))
      | Op.Invert => with_result (on_tx (invert_paths h h EmptyString tree))
      | Op.Workspace p =>
          reader ← on_tx (read_tree tree);
          g ← get_workspace (legalize_stored apply h) tree reader p;
          apply g x
      | Op.Stored p =>
          reader ← on_tx (read_tree tree);
          g ← get_stored (legalize_stored apply h) tree reader p;
          apply g x
      | Op.Starlark p subfilter =>
          reader ← on_tx (read_tree tree);
          g ← get_starlark apply tree reader p subfilter;
          apply g x
      | Op.TreeId p subfilter =>
          id ← tree_of subfilter x;
          apply (to_filter (Op.Insert p (InsertContent.Inline id))) x
      | Op.ObjectRef p =>
          e ← on_tx (find_path tree p);
          match e with
          | Some e => id ← write_blob (entry_oid e); with_result (put empty_id p id blob_bits)
          | None => mret x
          end
      | Op.ObjectDeref p => apply_deref p x
      | Op.Compose filters =>
          filtered ← mapM (fun g => tree_of g x) filters;
          with_result (tree_compose apply (zip filters filtered))
      | Op.Chain filters => foldM (fun x g => apply g x) x filters
      | Op.Hook _ => fail "not applicable to tree: hook"
      | Op.Embed _ => fail "not applicable to tree: embed"
      | Op.Unapply target uf => apply_unapply apply target uf x
      | Op.Downstack _ => fail "not applicable to tree: downstack"
      | Op.Meta _ _ => fail "unreachable"
      end
  end.

(** [tree::original_path]. *)
Definition original_path (n : nat) (f : filter) (tree : oid) (p : path) : wm string :=
  g ← chain (to_filter Op.Paths) f;
  paths_tree ← apply_tree (apply_impl n) g tree;
  b ← on_tx (blob_in paths_tree p);
  lift (pathline b).

(** [tree::repopulated_tree]. *)
Definition repopulated_tree (n : nat) (f : filter) (full_tree partial_tree : oid) : wm oid :=
  g ← chain (to_filter Op.Paths) f;
  paths_tree ← apply_tree (apply_impl n) g full_tree;
  ipaths ← on_tx (invert_paths h h EmptyString paths_tree);
  on_tx (populate h h ipaths partial_tree).

(** [compute_warnings2]. *)
Definition compute_warnings2 (n : nat) (f : filter) (tree : oid) : wm (list string) :=
  x ← attempt (apply_tree (apply_impl n) f tree);
  mret (match x with
        | Some id => if decide (id = empty_id) then ["No match for " +:+ quoted (pretty f 2)] else []
        | None => []
        end).

(** The filter [compute_warnings] checks: the one the tree holds, for a workspace or a
    stored filter, or the warning about it. *)
Definition warned_workspace (f : filter) (tree : oid) : wm (string + filter) :=
  match to_op f with
  | Op.Workspace p =>
      text ← on_tx (blob_in tree (Path.join p (name "workspace.josh")));
      mret (match parse text with
            | Ok f => inr f
            | _ => inl ("couldn't parse workspace" +:+ String "010"%char EmptyString)
            end)
  | _ => mret (inr f)
  end.
Definition warned_stored (f : filter) (tree : oid) : wm (string + filter) :=
  match to_op f with
  | Op.Stored p =>
      text ← on_tx (blob_in tree (with_added_extension p "josh"));
      mret (match parse text with
            | Ok f => inr f
            | _ => inl ("couldn't parse stored" +:+ String "010"%char EmptyString)
            end)
  | _ => mret (inr f)
  end.

(** [compute_warnings]. *)
Definition compute_warnings (n : nat) (f : filter) (tree : oid) : wm (list string) :=
  f ← warned_workspace f tree;
  match f with
  | inl e => mret [e]
  | inr f =>
      f ← warned_stored f tree;
      match f with
      | inl e => mret [e]
      | inr f =>
          f ← on_caches (flatten h f);
          match to_op f with
          | Op.Compose filters => l ← mapM (fun f => compute_warnings2 n f tree) filters; mret (concat l)
          | _ => compute_warnings2 n f tree
          end
      end
  end.
End Apply.
