(* ===== verification/Trailers.v ===== *)
(** The change metadata in the trailers of a commit message (josh-core/src/trailers.rs). *)

From S2P Require Import Prelude Path Ops Objects Store Utf8 Persist Apply.

Open Scope nat_scope.

(** * Lines *)

(** [str::split] at a character. *)
Fixpoint split_on (c : ascii) (s : string) : list string :=
  match s with
  | EmptyString => [EmptyString]
  | String a s =>
      if decide (a = c) then EmptyString :: split_on c s
      else match split_on c s with
           | [] => [String a EmptyString]
           | l :: rest => String a l :: rest
           end
  end.

Definition newline : ascii := "010".
Definition carriage_return : ascii := "013".

(** A line without the carriage return in front of its end. *)
Fixpoint strip_return (s : string) : string :=
  match s with
  | EmptyString => EmptyString
  | String a EmptyString => if decide (a = carriage_return) then EmptyString else s
  | String a s => String a (strip_return s)
  end.

(** The pieces that a newline ends lose a carriage return; the last piece is a line only if it
    is not empty, and stays as it is. *)
Fixpoint ended_lines (l : list string) : list string :=
  match l with
  | [] => []
  | [rest] => if decide (rest = EmptyString) then [] else [rest]
  | x :: l => strip_return x :: ended_lines l
  end.

(** [str::lines]. *)
Definition lines (s : string) : list string := ended_lines (split_on newline s).

(** * Trailers *)

Definition in_range (a : ascii) (lo hi : nat) : bool :=
  bool_decide (lo <= nat_of_ascii a <= hi).

(** A character of the key of a trailer: [is_ascii_alphanumeric] or a hyphen. *)
Definition key_char (a : ascii) : bool :=
  in_range a 48 57 || in_range a 65 90 || in_range a 97 122 || bool_decide (a = "-"%char).

Fixpoint skip_key (s : string) : string :=
  match s with
  | String a s' => if key_char a then skip_key s' else s
  | EmptyString => s
  end.

(** [is_trailer_line]. *)
Definition is_trailer_line (line : string) : bool :=
  bool_decide (String.length (skip_key line) < String.length line) &&
  bool_decide (is_Some (strip_prefix ": " (skip_key line))).

Definition footer_line (line : string) : bool :=
  bool_decide (line = EmptyString) || is_trailer_line line.

(** The longest end of the list on which [p] holds. *)
Fixpoint trailing {A} (p : A -> bool) (l : list A) : list A :=
  match l with
  | [] => []
  | _ :: l' => if forallb p l then l else trailing p l'
  end.

(** The loop over the lines of the footer. *)
Definition read_trailer (acc : option string * list string) (line : string) :
    option string * list string :=
  let '(id, series) := acc in
  let id := match strip_prefix "Change: " line with Some v => Some v | None => id end in
  let id := match strip_prefix "Change-Id: " line with Some v => Some v | None => id end in
  match strip_prefix "Change-Series: " line with
  | Some v => (id, series ++ [v])
  | None => (id, series)
  end.

(** [parse_change_meta]. *)
Definition parse_change_meta (message : string) : option string * list string :=
  foldl read_trailer (None, []) (trailing footer_line (lines message)).

(** [message()] of a commit as text; what is not UTF-8 reads as empty. *)
Definition message_text (c : commit) : string :=
  let m := trim_newlines (commit_message c) in
  if valid_utf8 m then m else EmptyString.

Fixpoint find_header (key : string) (l : list (string * string)) : option string :=
  match l with
  | [] => None
  | (k, v) :: l => if decide (k = key) then Some v else find_header key l
  end.

(** [commit_change_meta]. *)
Definition commit_change_meta (c : commit) : option string * list string :=
  let '(id, series) := parse_change_meta (message_text c) in
  let header :=
    match find_header "change-id" (commit_extra_headers c) with
    | Some v => if valid_utf8 v then Some (trim v) else None
    | None => None
    end in
  match header with
  | Some v => if decide (v = EmptyString) then (id, series) else (Some v, series)
  | None => (id, series)
  end.
