(* ===== verification/Search.v ===== *)
(** Searching with the index (josh-search/src/lib.rs, [search_candidates] to [path_entry]), and the
    search of a tree as josh-graphql/src/graphql.rs and josh-cli/src/bin/josh-filter.rs run it,
    with the index or by a scan of all files. *)

From S2P Require Import Utf8 Path Objects Store TreePaths Apply Trailers SearchIndex Prelude Ops.

Open Scope nat_scope.

(** [str::starts_with] and [str::contains]. *)
Fixpoint starts_with (p s : string) : bool :=
  match p, s with
  | EmptyString, _ => true
  | String a p, String b s => bool_decide (a = b) && starts_with p s
  | String _ _, EmptyString => false
  end.

Fixpoint str_contains (p s : string) : bool :=
  starts_with p s || match s with EmptyString => false | String _ s => str_contains p s end.

(** [join_path]. *)
Definition join_path (prefix name : string) : string :=
  match prefix with EmptyString => name | _ => prefix +:+ String slash name end.

(** A loop over entries that appends to the output. *)
Fixpoint walk_entries {A} (f : A -> list string -> res (list string)) (l : list A)
    (out : list string) : res (list string) :=
  match l with
  | [] => Ok out
  | e :: l => out ← f e out; walk_entries f l out
  end.

(** [min_by_key(|t| t.len())]: the first of the shortest. *)
Fixpoint min_by_len {A} (m : list A) (l : list (list A)) : list A :=
  match l with
  | [] => m
  | t :: l => min_by_len (if length t <? length m then t else m) l
  end.

(** The order of pairs of a length and an address. *)
Definition sized_cmp (a b : nat * oid) : comparison :=
  match Nat.compare a.1 b.1 with Eq => String.compare a.2 b.2 | c => c end.

Definition MAX_INTERSECT : nat := 16.

Section Search.
Context `{ObjectHash}.

(** [path_entry]. *)
Fixpoint path_entry (o : odb) (current : oid) (p : path) : res (option oid) :=
  match p with
  | [] => Ok (Some current)
  | c :: p =>
      match try_find o current with
      | Some (OTree entries) =>
          match find_entry (as_os_str c) entries with
          | None => Ok None
          | Some e =>
              match p with
              | [] => Ok (Some (entry_oid e))
              | _ => if is_tree (mode e) then path_entry o (entry_oid e) p else Ok None
              end
          end
      | _ => Ok None
      end
  end.

(** [get_blob_path]. *)
Definition get_blob_path (o : odb) (tree : oid) (p : path) : string :=
  match path_entry o tree p with
  | Ok (Some id) => read_blob_text o id
  | _ => EmptyString
  end.

(** The lines with the string, with their numbers. *)
Fixpoint matching_lines (searchstring : string) (linenr : nat) (l : list string) : list (nat * string) :=
  match l with
  | [] => []
  | x :: l =>
      (if str_contains searchstring x then [(linenr + 1, x)] else []) ++
      matching_lines searchstring (S linenr) l
  end.

(** [search_matches]. *)
Fixpoint search_matches (o : odb) (tree : oid) (searchstring : string) (candidates : list string) :
    list (string * list (nat * string)) :=
  match candidates with
  | [] => []
  | c :: candidates =>
      match matching_lines searchstring 0 (lines (get_blob_path o tree (components c))) with
      | [] => search_matches o tree searchstring candidates
      | bresults => (c, bresults) :: search_matches o tree searchstring candidates
      end
  end.

(** [collect_paths]. *)
Fixpoint collect_paths (n : nat) (o : odb) (id : oid) (prefix : string) (out : list string) :
    res (list string) :=
  match n with
  | 0 => OutOfFuel
  | S n =>
      match try_find o id with
      | Some (OTree entries) =>
          walk_entries (fun e out =>
            if valid_utf8 (filename e) then
              let path := join_path prefix (filename e) in
              if is_tree (mode e) then collect_paths n o (entry_oid e) path out
              else if is_commit (mode e) then Ok out
              else Ok (out ++ [path])
            else Err "invalid utf-8") entries out
      | _ => Ok out
      end
  end.

(** [read_tree_entries]. *)
Definition read_tree_entries (o : odb) (id : oid) : res (list entry) :=
  match try_find o id with
  | None => Err ("object " +:+ id +:+ " not found")
  | Some (OTree entries) => Ok entries
  | Some _ => Err ("object " +:+ id +:+ " is not a tree")
  end.

(** [emit_leaf]. *)
Definition emit_leaf (h : nat) (o : odb) (source_entries : list entry) (name path : string)
    (out : list string) : res (list string) :=
  match find_entry name source_entries with
  | Some e =>
      if is_tree (mode e) then collect_paths h o (entry_oid e) path out
      else if is_commit (mode e) then Ok out
      else Ok (out ++ [path])
  | None => Ok out
  end.

(** [collect_mirror_paths]. *)
Fixpoint collect_mirror_paths (h n : nat) (o : odb) (id source : oid) (prefix : string)
    (out : list string) : res (list string) :=
  match n with
  | 0 => OutOfFuel
  | S n =>
      source_entries ← read_tree_entries o source;
      entries ← read_tree_entries o id;
      walk_entries (fun e out =>
        if valid_utf8 (filename e) then
          let path := join_path prefix (filename e) in
          if is_tree (mode e) then
            match find_entry (filename e) source_entries with
            | Some s => collect_mirror_paths h n o (entry_oid e) (entry_oid s) path out
            | None => Ok out
            end
          else if is_commit (mode e) then Ok out
          else emit_leaf h o source_entries (filename e) path out
        else Err "invalid utf-8") entries out
  end.

(** The entries of the name and class of [e] in all trees, or nothing when one lacks it. *)
Fixpoint child_roots (e : entry) (trees : list (list entry)) : option (list oid) :=
  match trees with
  | [] => Some []
  | t :: trees =>
      match find_entry (filename e) t with
      | Some other =>
          if Bool.eqb (is_tree (mode other)) (is_tree (mode e)) then
            option_map (cons (entry_oid other)) (child_roots e trees)
          else None
      | None => None
      end
  end.

(** [intersect_walk]; indexing an empty slice panics. *)
Fixpoint intersect_walk (h n : nat) (o : odb) (roots : list oid) (source : oid) (prefix : string)
    (out : list string) : res (list string) :=
  match n with
  | 0 => OutOfFuel
  | S n =>
      match roots with
      | [] => Err "index out of bounds"
      | root :: _ =>
          if forallb (fun id => bool_decide (id = root)) roots then
            collect_mirror_paths h h o root source prefix out
          else
            trees ← collect_res (read_tree_entries o <$> roots);
            match trees with
            | [] => Err "roots is never empty"
            | t :: trees' =>
                source_entries ← read_tree_entries o source;
                walk_entries (fun e out =>
                  if valid_utf8 (filename e) then
                    match child_roots e trees with
                    | None => Ok out
                    | Some children =>
                        let path := join_path prefix (filename e) in
                        if is_tree (mode e) then
                          match find_entry (filename e) source_entries with
                          | Some s => intersect_walk h n o children (entry_oid s) path out
                          | None => Ok out
                          end
                        else if is_commit (mode e) then Ok out
                        else emit_leaf h o source_entries (filename e) path out
                    end
                  else Err "invalid utf-8") (min_by_len t trees') out
            end
      end
  end.

(** The path of a trigram in the index. *)
Definition trigram_path (t : trigram) : string :=
  hex_name t.1.1 +:+ String slash (hex_name t.1.2 +:+ String slash (hex_name t.2)).

(** The trees under the trigrams, or nothing when one is absent. *)
Fixpoint trigram_roots (o : odb) (index_tree : oid) (l : list trigram) : res (option (list oid)) :=
  match l with
  | [] => Ok (Some [])
  | t :: l =>
      found ← path_entry o index_tree (components (trigram_path t));
      match found with
      | None => Ok None
      | Some id => rest ← trigram_roots o index_tree l; Ok (option_map (cons id) rest)
      end
  end.

(** The cap on the number of trees that are intersected: those with the fewest entries. *)
Definition cap_roots (o : odb) (roots : list oid) : res (list oid) :=
  if MAX_INTERSECT <? length roots then
    sized ← collect_res ((fun id => l ← read_tree_entries o id; Ok (length l, id)) <$> roots);
    Ok (snd <$> take MAX_INTERSECT (foldl (insert_sorted sized_cmp) [] sized))
  else Ok roots.

(** [search_candidates]. *)
Definition search_candidates (h : nat) (o : odb) (index_tree source_tree : oid) (searchstring : string) :
    res (list string) :=
  match distinct_trigrams searchstring with
  | [] => collect_paths h o source_tree EmptyString []
  | trigrams =>
      found ← trigram_roots o index_tree trigrams;
      match found with
      | None => Ok []
      | Some roots =>
          roots ← cap_roots o (dedup (sort_oids roots));
          intersect_walk h h o roots source_tree EmptyString []
      end
  end.

(** The scan of all files that the callers use where the index is not enabled. *)
Definition scan_files (h : nat) (o : odb) (tree : oid) : res (list string) :=
  l ← (walk_tree_preorder h o tree EmptyString : res (list (string * entry)));
  Ok (omap (M := list) (fun '(parent, e) =>
    if negb (is_tree (mode e)) && negb (is_commit (mode e)) && valid_utf8 (filename e)
    then Some (join_path parent (filename e)) else None) l).

End Search.
