(* ===== verification/Rewriting.v ===== *)
(** Writing filtered commits (josh-core/src/history.rs): rewriting a commit onto a new tree and
    new parents, the choice of its parents, and the commits that are dropped from the filtered
    history. *)

From S2P Require Import Prelude Path Objects Store RevWalk HistoryHint CommitCache HistoryGraph OptState.
From S2P Require Import Builders Utf8 Persist TreeOps GraphMerge Apply Trailers Ops.

Open Scope nat_scope.

(** * Signatures *)

(** [gix_actor]: the time of a signature field, and a signature field from its parts. *)
Class Signatures := {
  signature_time : string -> res string;
  signature_write : string -> string -> string -> res string;
}.

(** [GpgsigMode]. *)
Inductive GpgsigMode := Preserve | Remove | NormLf.

(** [replace(b"\r\n", b"\n")]. *)
Fixpoint norm_lf (s : string) : string :=
  match s with
  | EmptyString => EmptyString
  | String a s' =>
      match s' with
      | String b _ =>
          if decide (a = carriage_return /\ b = newline) then norm_lf s' else String a (norm_lf s')
      | EmptyString => s
      end
  end.

Definition gpgsig_headers (mode : GpgsigMode) (l : list (string * string)) : list (string * string) :=
  match mode with
  | Remove => base.filter (fun kv : string * string => kv.1 ≠ "gpgsig") l
  | NormLf => (fun kv => if decide (kv.1 = "gpgsig") then (kv.1, norm_lf kv.2) else kv) <$> l
  | Preserve => l
  end.

(** The mode that the options of a filter ask for. *)
Definition gpgsig_mode (options : list (string * string)) : GpgsigMode :=
  match btree_get "gpgsig" options with
  | Some "remove" => Remove
  | Some "norm-lf" => NormLf
  | _ => Preserve
  end.

(** [history_flag]. *)
Definition history_flag (value : option string) (flag : string) : bool :=
  match value with
  | None => false
  | Some v => existsb (fun f => bool_decide (trim f = flag)) (split_on "," v)
  end.

(** [Iterator::all] with effects. *)
Fixpoint allM {S A} (p : A -> M S bool) (l : list A) : M S bool :=
  match l with
  | [] => mret true
  | a :: l => b ← p a; if (b : bool) then allM p l else mret false
  end.

Section Rewriting.
Context `{ObjectHash} `{Signatures} {B : Type} `{CacheBackend B}.
Abbreviation world := (world B).
Abbreviation wm := (M world).
(** The budget of walks and of recursions over trees. *)
Context (h : nat).

(** * Records of filtered commits *)

Definition get (f : cache_filter) (from : oid) : wm (option oid) := on_txn (HistoryGraph.get h f from).
Definition known (f : cache_filter) (from : oid) : wm bool := on_txn (HistoryGraph.known h f from).
Definition insert (f : cache_filter) (from to : oid) (store : bool) : wm unit :=
  on_txn (HistoryGraph.insert h f from to store).

(** The records of all commits; the first that is missing ends the search. *)
Fixpoint get_all (f : cache_filter) (ids : list oid) : wm (option (list oid)) :=
  match ids with
  | [] => mret (Some [])
  | id :: ids =>
      r ← get f id;
      match r with
      | None => mret None
      | Some v =>
          rs ← get_all f ids;
          mret (match rs with Some rs => Some (v :: rs) | None => None end)
      end
  end.

(** The operator of a filter; the sentinels are nodes of [Nop]. *)
Definition op_of (f : cache_filter) : Op.t :=
  match f with Real f => peel_filter f | _ => Op.Nop end.
Definition meta_of (f : cache_filter) : list (string * string) :=
  match f with Real f => Filter.into_meta f | _ => [] end.

Definition last_written_commit (w : world) : option (oid * oid) := r_last_written_commit (w_records w).
Definition set_last_written_commit (id tree : oid) (w : world) : world :=
  let r := w_records w in
  set_records
    (Records (r_commit_map r) (r_cache r) (r_missing r) (r_misses r) (r_nesting_level r)
       (Some (id, tree)) (r_merge_trees_map r) (r_downstack_deps_map r)) w.

(** [filtered_parent_tree_id]. *)
Definition filtered_parent_tree_id (id : oid) : wm oid :=
  last ← gets last_written_commit;
  match last with
  | Some (last, tree) => if decide (last = id) then mret tree else on_tx (read_tree_id id)
  | None => on_tx (read_tree_id id)
  end.

(** * Empty trees *)

(** [is_empty_subtree]; [n] bounds the depth. *)
Fixpoint is_empty_subtree (n : nat) (id : oid) : txm bool :=
  match n with
  | 0 => lift OutOfFuel
  | S n =>
      if decide (id = empty_id) then mret true
      else
        r ← attempt (read_tree_bytes id);
        match r with
        | Some (Some entries) =>
            allM (fun e => if is_tree (mode e) then is_empty_subtree n (entry_oid e) else mret false) entries
        | _ => mret false
        end
  end.

(** [is_empty_root]. *)
Definition is_empty_root (id : oid) : txm bool :=
  if decide (id = empty_id) then mret true
  else
    r ← read_tree_bytes id;
    match r with
    | None => fail (id +:+ " is not a tree")
    | Some entries =>
        allM (fun e => if is_tree (mode e) then is_empty_subtree h (entry_oid e) else mret false) entries
    end.

(** * Rewriting a commit *)

Definition rewrite_signature (field : string) (sig : option SigRewrite) : res string :=
  match sig with
  | None => Ok field
  | Some (NameEmail name email) => time ← signature_time field; signature_write name email time
  | Some (Raw raw) => Ok raw
  end.

(** [rewrite_commit]: everything of the base but its tree and parents, and what the rewrite sets. *)
Definition rewrite_commit (base : commit) (parents : list oid) (x : Rewrite.t) (gpgsig : GpgsigMode) :
    txm oid :=
  author ← lift (rewrite_signature (commit_author base) (Rewrite.author x));
  committer ← lift (rewrite_signature (commit_committer base) (Rewrite.committer x));
  write_object (OCommit (Commit (Rewrite.tree_id x) parents author committer (commit_encoding base)
    (default (commit_message base) (Rewrite.message x))
    (gpgsig_headers gpgsig (commit_extra_headers base)))).

(** Whether all parents have the tree; the first that has not ends the search. *)
Definition all_have_tree (tree : oid) (parents : list oid) : txm bool :=
  allM (fun p => t ← read_tree_id p; mret (bool_decide (t = tree))) parents.

(** [select_parent_commits]. *)
Definition select_parent_commits (c : commit) (filtered_tree_id : oid) (filtered_parents : list (oid * oid)) :
    txm (list oid) :=
  let affects_filtered := existsb (fun p => bool_decide (filtered_tree_id ≠ p.2)) filtered_parents in
  all_diffs_empty ← all_have_tree (commit_tree c) (commit_parents c);
  mret (if affects_filtered || all_diffs_empty then filtered_parents.*1 else []).

(** [drop_commit]. *)
Definition drop_commit (original_commit : oid) (filtered_parent_ids : list oid) (f : cache_filter) : wm oid :=
  let r := default zero_oid (head filtered_parent_ids) in
  _ ← insert f original_commit r false;
  mret r.

(** The parents without those whose tree is empty, in an initial merge: one whose parents have
    no common ancestor. *)
Definition prune_initial_merge (filtered_parents : list (oid * oid)) : wm (list (oid * oid)) :=
  if existsb (fun p => bool_decide (p.2 = empty_id)) filtered_parents then
    is_initial_merge ←
      (if bool_decide (1 < length filtered_parents) then
         shared ← on_txn (parents_share_root h filtered_parents.*1); mret (negb shared)
       else mret false);
    mret
      (if (is_initial_merge : bool) && existsb (fun p => bool_decide (p.2 ≠ empty_id)) filtered_parents
       then base.filter (fun p : oid * oid => p.2 ≠ empty_id) filtered_parents
       else filtered_parents)
  else mret filtered_parents.

(** Whether the original commit is a merge with the tree of its first parent. *)
Definition was_trivial_merge (c : commit) : txm bool :=
  match commit_parents c with
  | [] => mret false
  | p :: _ => t ← read_tree_id p; mret (bool_decide (t = commit_tree c))
  end.

(** The parent that a trivial merge is dropped for. *)
Definition trivial_merge (c : commit) (tree : oid) (keep : bool) (filtered_parents : list (oid * oid)) :
    txm (option oid) :=
  match filtered_parents with
  | p :: _ :: _ =>
      if keep then mret None
      else
        was ← was_trivial_merge c;
        mret (if bool_decide (p.2 = tree) && negb was then Some p.1 else None)
  | _ => mret None
  end.

(** The commit is written, and noted as the last one. *)
Definition write_filtered (c : commit) (selected : list oid) (x : Rewrite.t) (options : list (string * string)) :
    wm (oid * bool) :=
  new_oid ← on_tx (rewrite_commit c selected x (gpgsig_mode options));
  _ ← modify (set_last_written_commit new_oid (Rewrite.tree_id x));
  mret (new_oid, true).

(** The second half of [create_filtered_commit2]: the commit is dropped for one of the filtered
    parents, or written. *)
Definition settle_commit (c : commit) (x : Rewrite.t) (options : list (string * string))
    (filtered_parents : list (oid * oid)) : wm (oid * bool) :=
  trivial ←
    on_tx (trivial_merge c (Rewrite.tree_id x)
      (history_flag (btree_get "history" options) "keep-trivial-merges") filtered_parents);
  match trivial with
  | Some parent => mret (parent, false)
  | None =>
      selected ← on_tx (select_parent_commits c (Rewrite.tree_id x) filtered_parents);
      kept ←
        (if decide (selected = []) then
           if decide (commit_parents c = []) then on_tx (is_empty_root (commit_tree c)) else mret false
         else mret true);
      let dropped :=
        if (kept : bool) then None
        else match filtered_parents with
             | p :: _ => Some p.1
             | [] => if decide (Rewrite.tree_id x = empty_id) then Some zero_oid else None
             end in
      match dropped with
      | Some id => mret (id, false)
      | None => write_filtered c selected x options
      end
  end.

(** [create_filtered_commit2]. *)
Definition create_filtered_commit2 (c : commit) (filtered_parent_ids : list oid) (x : Rewrite.t)
    (options : list (string * string)) : wm (oid * bool) :=
  filtered_parents ←
    Prelude.mapM (fun id => t ← filtered_parent_tree_id id; mret (id, t))
      (base.filter (fun id => id ≠ zero_oid) filtered_parent_ids);
  filtered_parents ← prune_initial_merge filtered_parents;
  settle_commit c x options
    (if history_flag (btree_get "history" options) "linear" then take 1 filtered_parents else filtered_parents).

(** [create_filtered_commit_with_meta]. *)
Definition create_filtered_commit_with_meta (id : oid) (c : commit) (filtered_parent_ids : list oid)
    (x : Rewrite.t) (f : cache_filter) (meta : list (string * string)) : wm oid :=
  '(r, is_new) ← create_filtered_commit2 c filtered_parent_ids x meta;
  let store := (is_new : bool) || bool_decide (length (commit_parents c) ≠ 1) in
  _ ← insert f id r store;
  mret r.

(** [create_filtered_commit]. *)
Definition create_filtered_commit (id : oid) (c : commit) (filtered_parent_ids : list oid) (x : Rewrite.t)
    (f : cache_filter) : wm oid :=
  create_filtered_commit_with_meta id c filtered_parent_ids x f (meta_of f).

End Rewriting.
