(* ===== verification/Commits.v ===== *)
(** Applying a filter to commits (josh-core/src/filter/mod.rs and josh-core/src/history.rs):
    [apply_to_commit2] with all its operators, the filters that differ from commit to commit,
    stacks of changes, the walk over the history of a commit, and the loop that walks until no
    record is missing. *)

From S2P Require Import Prelude Path Objects Store RevWalk HistoryHint CommitCache HistoryGraph OptState.
From S2P Require Import Invert Step Builders Utf8 Glob Pattern Persist TreeOps TreePaths TreeWalk GraphMerge Apply.
From S2P Require Import Trailers Rewriting Ops.

Open Scope nat_scope.

Section Commits.
Context `{ObjectHash} `{BisectEntry} `{EntryModes} `{RegexReplace} `{Readers} `{FilterText}.
Context `{!Collaborators} `{Signatures} `{Gix} {B : Type} `{CacheBackend B}.
Abbreviation world := (world B).
Abbreviation wm := (M world).
(** The budget of the optimizer, of walks and of recursions over trees. *)
Context (h : nat).

Abbreviation get := (get h).
Abbreviation get_all := (get_all h).
Abbreviation insert := (insert h).
Abbreviation known := (known h).
Abbreviation drop_commit := (drop_commit h).
Abbreviation create_filtered_commit := (create_filtered_commit h).

(** [apply]. *)
Definition apply (f : filter) (x : Rewrite.t) : wm Rewrite.t := apply_impl h h f x.
Definition apply_filter (f : cache_filter) (x : Rewrite.t) : wm Rewrite.t :=
  match f with Real f => apply f x | _ => mret x end.

Definition optimize (f : filter) : wm filter := on_caches (Step.optimize h h f).
Definition minimize (f : filter) : wm filter := on_caches (Step.minimize h h f).

(** [CommitData::read], and the check that its tree is there. *)
Definition read_checked (id : oid) : wm commit :=
  c ← on_tx (read_commit id);
  o ← gets (fun w => tx_odb (w_tx w));
  _ ← lift (read_header o (commit_tree c));
  mret c.

(** * Stacks of changes *)

Definition get_merge_trees (k : oid * oid * oid) (w : world) : option oid :=
  r_merge_trees_map (w_records w) !! k.
Definition insert_merge_trees (k : oid * oid * oid) (id : oid) (w : world) : world :=
  let r := w_records w in
  set_records
    (Records (r_commit_map r) (r_cache r) (r_missing r) (r_misses r) (r_nesting_level r)
       (r_last_written_commit r) (<[k := id]> (r_merge_trees_map r)) (r_downstack_deps_map r)) w.
Definition get_downstack_deps (id : oid) (w : world) : option (gset DownstackDep) :=
  r_downstack_deps_map (w_records w) !! id.
Definition insert_downstack_deps (id : oid) (deps : gset DownstackDep) (w : world) : world :=
  let r := w_records w in
  set_records
    (Records (r_commit_map r) (r_cache r) (r_missing r) (r_misses r) (r_nesting_level r)
       (r_last_written_commit r) (r_merge_trees_map r) (<[id := deps]> (r_downstack_deps_map r))) w.

(** [cached_merge_trees]. *)
Definition cached_merge_trees (a b c : oid) : wm oid :=
  if decide (a = b) then mret c
  else if decide (a = c) then mret b
  else
    hit ← gets (get_merge_trees (a, b, c));
    match hit with
    | Some id => mret id
    | None =>
        id ← on_tx (merge_trees a b c);
        _ ← modify (insert_merge_trees (a, b, c) id);
        mret id
    end.

(** [downstack_commit_deps]. *)
Definition downstack_commit_deps (id : oid) (c : commit) : wm (gset DownstackDep) :=
  hit ← gets (get_downstack_deps id);
  match hit with
  | Some deps => mret deps
  | None =>
      parent_tree_id ←
        match commit_parents c with
        | p :: _ => on_tx (read_tree_id p)
        | [] => mret zero_oid
        end;
      o ← gets (fun w => tx_odb (w_tx w));
      paths ← lift (diff_paths h o parent_tree_id (commit_tree c) EmptyString);
      let series := (parse_change_meta (message_text c)).2 in
      let deps : gset DownstackDep :=
        list_to_set ((fun x => DepPath x.1) <$> paths) ∪ list_to_set (DepSeries <$> series) in
      _ ← modify (insert_downstack_deps id deps);
      mret deps
  end.

(** The intermediate commits that the change needs, from the newest: those that touch what the
    change or a needed commit after them touches. *)
Fixpoint needed_commits (rev_commits : list (oid * commit)) (affected : gset DownstackDep) :
    wm (list (oid * commit)) :=
  match rev_commits with
  | [] => mret []
  | (id, c) :: rest =>
      deps ← downstack_commit_deps id c;
      if decide (deps ## affected) then needed_commits rest affected
      else
        l ← needed_commits rest (affected ∪ deps);
        mret (l ++ [(id, c)])
  end.

(** One needed commit is rebuilt on the base. *)
Definition rebase_onto (base : oid * oid) (x : oid * commit) : wm (oid * oid) :=
  match commit_parents x.2 with
  | [] => fail ("downstack: intermediate " +:+ x.1 +:+ " has no parent")
  | inter_parent :: _ =>
      parent_tree ← on_tx (read_tree_id inter_parent);
      new_tree ← cached_merge_trees parent_tree base.2 (commit_tree x.2);
      new_oid ← on_tx (rewrite_commit x.2 [base.1] (Rewrite.from_tree new_tree) Preserve);
      mret (new_oid, new_tree)
  end.

(** The first-parent chain from a change down to the base, the change first; the walk notes
    whether it meets the base. *)
Definition first_parents_to (base change : oid) : wm (list oid * bool) :=
  o ← gets (fun w => tx_odb (w_tx w));
  lift
    (w ← RevWalk.push (try_find o) change (RevWalk.simplify_first_parent RevWalk.new);
     match RevWalk.into_topo_vec (try_find o) h
             (fun id seen => (bool_decide (id = base), seen || bool_decide (id = base))) w false with
     | (Ok l, seen) => Ok (l, seen)
     | (Err e, _) => Err e
     | (OutOfFuel, _) => OutOfFuel
     end).

(** [downstack]. *)
Definition downstack (change_oid base_oid : oid) : wm oid :=
  o ← gets (fun w => tx_odb (w_tx w));
  descends ← lift (is_descendant_of (try_find o) change_oid base_oid);
  if negb descends then
    fail ("change " +:+ change_oid +:+ " is not a descendant of base " +:+ base_oid)
  else
    '(oids, seen_base) ← first_parents_to base_oid change_oid;
    if negb seen_base then
      fail ("base " +:+ base_oid +:+ " is not on the first-parent chain of " +:+ change_oid)
    else
      commits ← Prelude.mapM (fun id => c ← on_tx (read_commit id); mret (id, c)) (reverse oids);
      match reverse commits with
      | [] => mret change_oid
      | (change_id, change_commit) :: rev_intermediates =>
          affected ← downstack_commit_deps change_id change_commit;
          needed ← needed_commits rev_intermediates affected;
          base_tree ← on_tx (read_tree_id base_oid);
          '(current_base_id, current_base_tree) ← foldM rebase_onto (base_oid, base_tree) needed;
          match commit_parents change_commit with
          | [] => fail ("downstack: change " +:+ change_id +:+ " has no parent")
          | change_parent :: more_parents =>
              parent_tree ← on_tx (read_tree_id change_parent);
              new_tree ← cached_merge_trees parent_tree current_base_tree (commit_tree change_commit);
              on_tx (rewrite_commit change_commit (current_base_id :: more_parents)
                (Rewrite.from_tree new_tree) Preserve)
          end
      end.

(** * Filters that differ from commit to commit *)

Section Recursion.
Context (apply_to_commit2 : cache_filter -> oid -> wm (option oid)).

(** The results for all elements; the first that is missing ends the search. *)
Fixpoint collect_some {A} (m : A -> wm (option oid)) (l : list A) : wm (option (list oid)) :=
  match l with
  | [] => mret (Some [])
  | a :: l =>
      r ← m a;
      match r with
      | None => mret None
      | Some v =>
          rs ← collect_some m l;
          mret (match rs with Some rs => Some (v :: rs) | None => None end)
      end
  end.

(** [compute_splice_parents]. *)
Definition compute_splice_parents (commit_filter : filter) (parent_filters : list (oid * filter))
    (meta : list (string * string)) : wm (option (list oid)) :=
  splice_parents ← collect_some (fun x : oid * filter =>
    f ← minimize (to_filter (Op.Subtract (peel_filter commit_filter) (peel_filter x.2)));
    apply_to_commit2 (Real (propagate_meta f meta)) x.1) parent_filters;
  mret (match splice_parents with
        | Some l => Some (base.filter (fun id => id ≠ zero_oid) l)
        | None => None
        end).

(** The surviving parent with the largest sequence number; the first one of several. *)
Fixpoint largest_parent (ids : list oid) (target : option (Z * oid)) : wm (option (Z * oid)) :=
  match ids with
  | [] => mret target
  | id :: ids =>
      seq ← on_txn (compute_sequence_number h id);
      largest_parent ids
        (match target with
         | Some (top, _) => if decide (top < seq)%Z then Some (seq, id) else target
         | None => Some (seq, id)
         end)
  end.

(** The other parents must be ancestors of the one that is kept. *)
Fixpoint all_descend (commit_id target : oid) (ids : list oid) : wm unit :=
  match ids with
  | [] => mret tt
  | id :: ids =>
      o ← gets (fun w => tx_odb (w_tx w));
      b ← lift (is_descendant_of (try_find o) target id);
      if (b : bool) then all_descend commit_id target ids
      else fail ("cannot squash " +:+ commit_id +:+ ": its filtered parents do not descend from one another")
  end.

(** The squash of a commit by a filter of its own. *)
Definition squash_away (f : cache_filter) (id : oid) (filtered_parent_ids : list oid) : wm oid :=
  let surviving := base.filter (fun x => x ≠ zero_oid) filtered_parent_ids in
  target ← largest_parent surviving None;
  match target with
  | Some (_, target_id) =>
      _ ← all_descend id target_id (base.filter (fun x => x ≠ target_id) surviving);
      drop_commit id [target_id] f
  | None => drop_commit id [] f
  end.

(** The pinned part of the commit's tree, and what the filtered parent has there. *)
Definition pin_details (id : oid) (c : commit) (uses_pin : bool) (legalized_a legalized_b : filter)
    (normal_parents : list oid) : wm (option (oid * oid)) :=
  match normal_parents with
  | parent :: _ =>
      if uses_pin then
        f ← optimize (to_filter (Op.Subtract legalized_a legalized_b));
        pin_subtract ← apply f (Rewrite.from_commit_data id c);
        parent_tree_id ← filtered_parent_tree_id parent;
        pin_overlay ← on_tx (intersect h parent_tree_id (Rewrite.tree_id pin_subtract));
        mret (Some (Rewrite.tree_id pin_subtract, pin_overlay))
      else mret None
  | [] => mret None
  end.

Definition with_pins (details : option (oid * oid)) (x : Rewrite.t) : wm Rewrite.t :=
  match details with
  | Some (pin_subtract, pin_overlay) =>
      with_exclude ← on_tx (subtract h (Rewrite.tree_id x) pin_subtract);
      with_overlay ← on_tx (overlay h pin_overlay with_exclude);
      mret (Rewrite.with_tree with_overlay x)
  | None => mret x
  end.

(** [per_rev_filter]. *)
Definition per_rev_filter (f : cache_filter) (id : oid) (c : commit) (commit_filter : filter)
    (parent_filters : list (oid * filter)) : wm (option oid) :=
  let meta := meta_of f in
  let commit_filter := propagate_meta commit_filter meta in
  let legalized_a := legalize_pin (fun f => to_filter (Op.Select f)) (peel_filter commit_filter) in
  let legalized_b := legalize_pin (fun f => to_filter (Op.Exclude f)) (peel_filter commit_filter) in
  let uses_pin := bool_decide (legalized_a ≠ legalized_b) in
  let no_splice := history_flag (btree_get "history" meta) "no-splice" in
  if uses_pin && negb no_splice then
    fail "combining :pin with history splicing is not supported; set the no-splice history flag"
  else
    splice_parents ←
      (if no_splice then mret (Some []) else compute_splice_parents commit_filter parent_filters meta);
    match splice_parents with
    | None => mret None
    | Some splice_parents =>
        normal_parents ← get_all f (commit_parents c);
        match normal_parents with
        | None => mret None
        | Some normal_parents =>
            details ← pin_details id c uses_pin legalized_a legalized_b normal_parents;
            let filtered_parent_ids := normal_parents ++ splice_parents in
            match peel_filter commit_filter with
            | Op.Squash None => r ← squash_away f id filtered_parent_ids; mret (Some r)
            | _ =>
                tree_data ← apply commit_filter (Rewrite.from_commit_data id c);
                tree_data ← with_pins details tree_data;
                r ← create_filtered_commit_with_meta h id c filtered_parent_ids tree_data f
                      (Filter.into_meta commit_filter);
                mret (Some r)
            end
        end
    end.

(** A filter that a tree holds, for the trees of the parents. *)
Definition parent_tree_filters (of_tree : oid -> list entry -> wm filter) (parents : list oid) :
    wm (list (oid * filter)) :=
  Prelude.mapM (fun parent =>
    tree_id ← on_tx (read_tree_id parent);
    reader ← on_tx (read_tree tree_id);
    g ← of_tree tree_id reader;
    mret (parent, g)) parents.

(** The arms of [Stored] and [Starlark], and that of [Workspace] without a redirect. *)
Definition apply_held (f : cache_filter) (id : oid) (c : commit) (of_tree : oid -> list entry -> wm filter)
    (reader : list entry) : wm (option oid) :=
  commit_filter ← of_tree (commit_tree c) reader;
  parent_filters ← parent_tree_filters of_tree (commit_parents c);
  per_rev_filter f id c commit_filter parent_filters.

(** The arm of [Workspace]. *)
Definition apply_workspace (f : cache_filter) (id : oid) (c : commit) (ws_path : path) : wm (option oid) :=
  reader ← on_tx (read_tree (commit_tree c));
  redirect ← resolve_workspace_redirect h reader ws_path;
  match redirect with
  | Some (g, _) =>
      r ← apply_to_commit2 (Real g) id;
      match r with
      | Some r => _ ← insert f id r true; mret (Some r)
      | None => mret None
      end
  | None =>
      apply_held f id c (fun tree reader => get_workspace h (legalize_stored h apply h) tree reader ws_path)
        reader
  end.

(** The arms of [Rev] and [Hook]. *)
Definition apply_per_commit (f : cache_filter) (id : oid) (c : commit) (of_commit : oid -> wm filter) :
    wm (option oid) :=
  commit_filter ← of_commit id;
  parent_filters ← Prelude.mapM (fun p => g ← of_commit p; mret (p, g)) (commit_parents c);
  per_rev_filter f id c commit_filter parent_filters.

(** * Squashes, merges and links *)

(** The map of a squash, by resolved commit. *)
Fixpoint squash_get (ids : list (LazyRef.t * filter)) (id : oid) : option filter :=
  match ids with
  | [] => None
  | (r, f) :: ids => if decide (r = LazyRef.Resolved id) then Some f else squash_get ids id
  end.

(** The arm of [Squash(Some(_))]: [inl] where the function returns. *)
Definition apply_squash (f : cache_filter) (id : oid) (c : commit) (ids : list (LazyRef.t * filter)) :
    wm (option oid + Rewrite.t) :=
  match squash_get ids id with
  | Some sq =>
      g ← on_caches (Filter.squash h Filter.new None);
      g ← on_caches (Filter.chain h g sq);
      r ← apply_to_commit2 (Real g) id;
      match r with
      | None => mret (inl None)
      | Some r =>
          rc ← on_tx (read_commit r);
          mret (inr (Rewrite.from_tree_with_metadata (commit_tree rc) (Some (Raw (commit_author rc)))
            (Some (Raw (commit_committer rc))) (Some (commit_message rc))))
      end
  | None =>
      match commit_parents c with
      | parent :: _ =>
          fparent ← get f parent;
          match fparent with
          | Some fparent => r ← drop_commit id [fparent] f; mret (inl (Some r))
          | None => mret (inl None)
          end
      | [] => r ← drop_commit id [] f; mret (inl (Some r))
      end
  end.

(** The arm of [Prune]. *)
Definition apply_prune (f : cache_filter) (id : oid) (c : commit) : wm (option oid + Rewrite.t) :=
  match commit_parents c with
  | p :: _ :: _ =>
      parent ← get f p;
      match parent with
      | None => mret (inl None)
      | Some parent =>
          parent_tree ← filtered_parent_tree_id parent;
          if decide (parent_tree = commit_tree c) then r ← drop_commit id [parent] f; mret (inl (Some r))
          else mret (inr (Rewrite.from_commit_data id c))
      end
  | _ => mret (inr (Rewrite.from_commit_data id c))
  end.

(** The arm of [Fold]. *)
Definition apply_fold (f : cache_filter) (id : oid) (c : commit) : wm (option oid + Rewrite.t) :=
  filtered_parent_ids ← get_all f (commit_parents c);
  match filtered_parent_ids with
  | None => mret (inl None)
  | Some ids =>
      trees ← Prelude.mapM filtered_parent_tree_id ids;
      filtered_tree ← foldM (fun t u => on_tx (overlay h t u)) (commit_tree c) trees;
      mret (inr (Rewrite.with_tree filtered_tree (Rewrite.from_commit_data id c)))
  end.

(** The tail of most arms: the commit is written once the parents are known. *)
Definition finish (f : cache_filter) (id : oid) (c : commit) (x : Rewrite.t) : wm (option oid) :=
  filtered_parent_ids ← get_all f (commit_parents c);
  match filtered_parent_ids with
  | None => mret None
  | Some ids => r ← create_filtered_commit id c ids x f; mret (Some r)
  end.

(** [rotate_right(1)] until the element is in front; it occurs, so the length bounds the turns. *)
Fixpoint rotate_to (n : nat) (x : oid) (l : list oid) : list oid :=
  match n with
  | 0 => l
  | S n =>
      match l with
      | a :: _ =>
          if decide (a = x) then l
          else rotate_to n x (match last l with Some z => z :: removelast l | None => l end)
      | [] => l
      end
  end.

(** The commit that a link file names. *)
Definition link_commit (link : filter) : option oid := Filter.get_meta link "commit" ≫= oid_from_str.

(** The arm of [Export]. *)
Definition apply_export (f : cache_filter) (id : oid) (c : commit) : wm (option oid) :=
  _ ← check_experimental "export filter";
  filtered_parent_ids ← get_all f (commit_parents c);
  match filtered_parent_ids with
  | None => mret None
  | Some ids =>
      reader ← on_tx (read_tree (commit_tree c));
      link ← read_josh_link reader [] ".link.josh";
      let ids :=
        match link ≫= link_commit with
        | Some commit_oid => if decide (commit_oid ∈ ids) then rotate_to (length ids) commit_oid ids else ids
        | None => ids
        end in
      x ← apply_filter f (Rewrite.from_commit_data id c);
      r ← create_filtered_commit id c ids x f;
      mret (Some r)
  end.

(** The arm of [Unlink]. *)
Definition apply_unlink_commit (f : cache_filter) (id : oid) (c : commit) : wm (option oid) :=
  _ ← check_experimental "unlink filter";
  filtered_parent_ids ← get_all f (commit_parents c);
  match filtered_parent_ids with
  | None => mret None
  | Some ids =>
      links ← find_link_files h (commit_tree c);
      link_parents ← collect_some (fun x : path * filter =>
        match link_commit x.2 with
        | Some commit_oid => get (Real (to_filter (Op.Prefix x.1))) commit_oid
        | None => mret None
        end) links;
      match link_parents with
      | None => mret None
      | Some link_parents =>
          x ← apply_filter f (Rewrite.from_commit_data id c);
          r ← create_filtered_commit id c (base.filter (fun p => p ∉ link_parents) ids) x f;
          mret (Some r)
      end
  end.

(** Whether the entry at a root of links is the same in the parent's tree; lookups that fail
    count as different. *)
Definition changed_root (reader parent_reader : list entry) (root : path) : wm bool :=
  a ← on_tx (find_path_at reader root);
  b ← on_tx (find_path_at parent_reader root);
  mret (match a, b with
        | Some a, Some b => negb (bool_decide (entry_oid a = entry_oid b))
        | _, _ => true
        end).

Fixpoint retainM {A} (p : A -> wm bool) (l : list A) : wm (list A) :=
  match l with
  | [] => mret []
  | a :: l => b ← p a; l' ← retainM p l; mret (if (b : bool) then a :: l' else l')
  end.

(** The mode of a link: that of the filter, or its own. *)
Definition is_embedded (m : option LinkMode.t) (link : filter) : bool :=
  bool_decide
    (default
       (match Filter.get_meta link "mode" with
        | Some s => match LinkMode.parse s with Ok m => m | _ => LinkMode.Pointer end
        | None => LinkMode.Pointer
        end) m = LinkMode.Embedded).

(** The history of an embedded link. *)
Definition embedded_parent (id : oid) (root : path) : wm (option oid) :=
  g ← on_caches (Filter.message h Filter.new "{@}");
  g ← on_caches (Filter.file h g (Path.join root (name ".link.josh")));
  embeding ← apply_to_commit2 (Real g) id;
  match embeding with
  | None => mret None
  | Some embeding => apply_to_commit2 (Real (to_filter (Op.Embed root))) embeding
  end.

(** The links of a commit at roots that its first parent does not have. *)
Definition new_links (c : commit) : wm (list (path * filter)) :=
  reader ← on_tx (read_tree (commit_tree c));
  roots ← get_link_roots h apply (commit_tree c);
  roots ←
    match commit_parents c with
    | parent :: _ =>
        parent_tree ← on_tx (read_tree_id parent);
        parent_reader ← on_tx (read_tree parent_tree);
        retainM (changed_root reader parent_reader) roots
    | [] => mret roots
    end;
  links_from_roots reader roots.

(** The arm of [Link]. *)
Definition apply_link_commit (f : cache_filter) (id : oid) (c : commit) (m : option LinkMode.t) :
    wm (option oid + Rewrite.t) :=
  _ ← check_experimental "link filter";
  all_links ← new_links c;
  let embedded_links := base.filter (fun x : path * filter => is_embedded m x.2 = true) all_links in
  if decide (embedded_links = []) then
    x ← apply_filter f (Rewrite.from_commit_data id c); mret (inr x)
  else
    normal_parents ← get_all f (commit_parents c);
    match normal_parents with
    | None => mret (inl None)
    | Some normal_parents =>
        extra_parents ← collect_some (embedded_parent id) embedded_links.*1;
        match extra_parents with
        | None => mret (inl None)
        | Some extra_parents =>
            x ← apply_filter f (Rewrite.from_commit_data id c);
            r ← create_filtered_commit id c (normal_parents ++ extra_parents) x f;
            mret (inl (Some r))
        end
    end.

(** Whether the commit is the one that the link file in the unapplied parent names. *)
Definition linked_parent (uf : filter) (target : commit) : wm (option (oid * oid)) :=
  match commit_parents target with
  | [] => mret None
  | parent_id :: _ =>
      parent ← on_tx (read_commit parent_id);
      ptree ← apply uf (Rewrite.from_commit_data parent_id parent);
      reader ← on_tx (read_tree (Rewrite.tree_id ptree));
      link ← read_josh_link reader [] ".link.josh";
      mret (match link ≫= link_commit with Some commit_oid => Some (parent_id, commit_oid) | None => None end)
  end.

(** The arm of [Unapply]. *)
Definition apply_unapply_commit (f : cache_filter) (id : oid) (c : commit) (target : LazyRef.t)
    (uf : filter) : wm (option oid + Rewrite.t) :=
  _ ← check_experimental "unapply filter";
  match target with
  | LazyRef.Lazy _ => fail "unresolved lazy ref"
  | LazyRef.Resolved target =>
      target ← on_tx (read_commit target);
      link ← linked_parent uf target;
      let unapplied : wm (option oid + Rewrite.t) :=
        x ← apply_filter f (Rewrite.from_commit_data id c); mret (inr x) in
      match link with
      | Some (parent_id, commit_oid) =>
          if decide (id = commit_oid) then
            r ← get (Real (to_filter (Op.Unapply (LazyRef.Resolved parent_id) uf))) commit_oid;
            match r with
            | None => mret (inl None)
            | Some r => _ ← insert f id r true; mret (inl (Some r))
            end
          else unapplied
      | None => unapplied
      end
  end.

(** The arm of [Embed]. *)
Definition apply_embed (f : cache_filter) (id : oid) (c : commit) (p : path) : wm (option oid) :=
  _ ← check_experimental "embed filter";
  reader ← on_tx (read_tree (commit_tree c));
  link ← read_josh_link reader p ".link.josh";
  match link with
  | None => mret (Some zero_oid)
  | Some link =>
      subdir ← invert h (peel_filter link);
      match link_commit link with
      | None => mret (Some zero_oid)
      | Some commit_oid =>
          r ← get (Real (to_filter (Op.Unapply (LazyRef.Resolved id) subdir))) commit_oid;
          match r with
          | None => mret None
          | Some r => _ ← insert f id r true; mret (Some r)
          end
      end
  end.

(** * Application to a commit *)

(** The loop over the steps of a chain. *)
Fixpoint apply_chain (filters : list filter) (current : oid) : wm (option oid) :=
  match filters with
  | [] => mret (Some current)
  | f :: filters =>
      if decide (current = zero_oid) then mret (Some current)
      else
        r ← apply_to_commit2 (Real f) current;
        match r with
        | None => mret None
        | Some r => apply_chain filters r
        end
  end.

(** The arms that end in a rewrite of the commit. *)
Definition then_finish (f : cache_filter) (id : oid) (c : commit) (m : wm (option oid + Rewrite.t)) :
    wm (option oid) :=
  r ← m;
  match r with
  | inl r => mret r
  | inr x => finish f id c x
  end.

(** The second match: what is done for a commit without a record. *)
Definition apply_uncached (f : cache_filter) (id : oid) : wm (option oid) :=
  c ← read_checked id;
  match op_of f with
  | Op.Squash (Some ids) => then_finish f id c (apply_squash f id c ids)
  | Op.Prune => then_finish f id c (apply_prune f id c)
  | Op.Export => apply_export f id c
  | Op.Unlink => apply_unlink_commit f id c
  | Op.Link m => then_finish f id c (apply_link_commit f id c m)
  | Op.Workspace p => apply_workspace f id c p
  | Op.Stored p =>
      reader ← on_tx (read_tree (commit_tree c));
      apply_held f id c (fun tree reader => get_stored h (legalize_stored h apply h) tree reader p) reader
  | Op.Starlark p sub =>
      _ ← check_experimental "Starlark filter";
      reader ← on_tx (read_tree (commit_tree c));
      apply_held f id c (fun tree reader => get_starlark h apply tree reader p sub) reader
  | Op.Rev filters => apply_per_commit f id c (fun id => get_rev_filter h id filters)
  | Op.Fold => then_finish f id c (apply_fold f id c)
  | Op.Hook hook => apply_per_commit f id c (fun id => lift (lookup_filter_hook hook id))
  | Op.Unapply target uf => then_finish f id c (apply_unapply_commit f id c target uf)
  | Op.Embed p => apply_embed f id c p
  | _ => x ← apply_filter f (Rewrite.from_commit_data id c); finish f id c x
  end.

End Recursion.

(** [Squash(None)]: the commit alone. *)
Definition squash_all (id : oid) : wm oid :=
  c ← read_checked id;
  on_tx (rewrite_commit c [] (Rewrite.from_commit_data id c) Remove).

(** [apply_to_commit2]; [n] bounds the nesting of filters. *)
Fixpoint apply_to_commit2 (n : nat) (f : cache_filter) (id : oid) : wm (option oid) :=
  match n with
  | 0 => lift OutOfFuel
  | S n =>
      if decide (f = Real Filter.new) then mret (Some id)
      else
        match op_of f with
        | Op.Empty => mret (Some zero_oid)
        | Op.Chain _ =>
            match f with
            | Real f => apply_chain (apply_to_commit2 n) (flatten_chain f) id
            | _ => mret None
            end
        | Op.Squash None => r ← squash_all id; mret (Some r)
        | Op.Downstack (LazyRef.Resolved base) =>
            cached ← get f id;
            match cached with
            | Some r => mret (Some r)
            | None =>
                new_oid ← downstack id base;
                _ ← insert f id new_oid false;
                mret (Some new_oid)
            end
        | Op.Downstack (LazyRef.Lazy _) => fail "`:_=...` with unresolved base ref"
        | _ =>
            cached ← get f id;
            match cached with
            | Some r => mret (Some r)
            | None => apply_uncached (apply_to_commit2 n) f id
            end
        end
  end.

(** * Histories *)

(** [unwrap_or(false)]. *)
Definition known_or_false (f : cache_filter) (id : oid) (w : world) : bool * world :=
  match known f id w with (Ok b, w) => (b, w) | (_, w) => (false, w) end.

(** The loop of [walk2] over the commits of a walk, parents first. *)
Fixpoint apply_until_missing (f : cache_filter) (ids : list oid) : wm unit :=
  match ids with
  | [] => mret tt
  | id :: ids =>
      r ← apply_to_commit2 h f id;
      match r with
      | Some _ => apply_until_missing f ids
      | None => mret tt
      end
  end.

(** The walk of [walk2] down to commits with a record. *)
Definition unknown_history (f : cache_filter) (input : oid) : wm (list oid) := fun w =>
  let find := try_find (tx_odb (w_tx w)) in
  let start :=
    if history_flag (btree_get "history" (meta_of f)) "linear"
    then RevWalk.simplify_first_parent RevWalk.new else RevWalk.new in
  match RevWalk.push find input start with
  | Ok walk => RevWalk.into_topo_vec find h (known_or_false f) walk w
  | Err e => (Err e, w)
  | OutOfFuel => (OutOfFuel, w)
  end.

(** [walk2].  The position it logs is one that [known] has just cached. *)
Definition walk2 (f : cache_filter) (input : oid) : wm unit :=
  done ← known f input;
  if (done : bool) then mret tt
  else
    sorted ← unknown_history f input;
    apply_until_missing f (reverse sorted).

(** The id of a filter; the sentinels have ids of their own. *)
Definition cache_filter_id (f : cache_filter) : res oid :=
  match f with
  | Real f => filter_id (S (size f)) f
  | SequenceNumber => Ok zero_oid
  | ReachableRoots => Ok "0000000000000000000000000000000000000001"
  end.

(** A missing record with the id of its filter, which orders filters. *)
Abbreviation miss := (nat * oid * cache_filter * oid)%type.
Definition miss_level (m : miss) : nat := m.1.1.1.
Definition miss_filter_id (m : miss) : oid := m.1.1.2.
Definition miss_filter (m : miss) : cache_filter := m.1.2.
Definition miss_input (m : miss) : oid := m.2.

Definition lex (a b : comparison) : comparison := match a with Eq => b | _ => a end.
Definition by_filter (a b : miss) : comparison :=
  lex (String.compare (miss_filter_id a) (miss_filter_id b))
    (lex (String.compare (miss_input a) (miss_input b)) (Nat.compare (miss_level a) (miss_level b))).
Definition by_level (a b : miss) : comparison :=
  lex (Nat.compare (miss_level a) (miss_level b))
    (lex (String.compare (miss_filter_id a) (miss_filter_id b))
       (String.compare (miss_input a) (miss_input b))).

(** A stable sort. *)
Definition sort_misses (cmp : miss -> miss -> comparison) (l : list miss) : list miss :=
  foldl (insert_sorted cmp) [] l.

(** [dedup_by_key]: the first of adjacent records with the same filter and commit. *)
Fixpoint dedup_misses (l : list miss) : list miss :=
  match l with
  | [] => []
  | a :: l =>
      match dedup_misses l with
      | b :: l' =>
          if decide (miss_filter_id a = miss_filter_id b /\ miss_input a = miss_input b) then a :: l'
          else a :: b :: l'
      | [] => [a]
      end
  end.

Fixpoint retain_unknown (l : list (nat * cache_filter * oid)) : wm (list miss) :=
  match l with
  | [] => mret []
  | (level, f, id) :: l =>
      b ← known f id;
      key ← lift (cache_filter_id f);
      rest ← retain_unknown l;
      mret (if (b : bool) then rest else (level, key, f, id) :: rest)
  end.

Definition set_missing (l : list (nat * cache_filter * oid)) (w : world) : world :=
  let r := w_records w in
  set_records
    (Records (r_commit_map r) (r_cache r) l (r_misses r) (r_nesting_level r)
       (r_last_written_commit r) (r_merge_trees_map r) (r_downstack_deps_map r)) w.

(** [get_missing]. *)
Definition get_missing : wm (list (nat * cache_filter * oid)) :=
  missing ← gets (fun w => r_missing (w_records w));
  retained ← retain_unknown missing;
  let retained := sort_misses by_level (dedup_misses (sort_misses by_filter retained)) in
  let l := (fun m => (miss_level m, miss_filter m, miss_input m)) <$> retained in
  _ ← modify (set_missing l);
  mret l.

Definition set_nesting (level : nat) (w : world) : world :=
  let r := w_records w in
  set_records
    (Records (r_commit_map r) (r_cache r) (r_missing r) (r_misses r) level
       (r_last_written_commit r) (r_merge_trees_map r) (r_downstack_deps_map r)) w.

(** The loop over the missing records, the last one first: those of the highest level. *)
Fixpoint walk_missing (max_level : nat) (l : list (nat * cache_filter * oid)) : wm unit :=
  match l with
  | [] => mret tt
  | (level, f, input) :: l =>
      if decide (level ≠ max_level) then mret tt
      else
        _ ← modify (set_nesting (S level));
        _ ← walk2 f input;
        walk_missing max_level l
  end.

(** The loop of [apply_to_commit]; [n] bounds its turns. *)
Fixpoint apply_loop (n : nat) (f : filter) (id : oid) : wm oid :=
  match n with
  | 0 => lift OutOfFuel
  | S n =>
      filtered ← apply_to_commit2 h (Real f) id;
      match filtered with
      | Some r => mret r
      | None =>
          missing ← get_missing;
          let max_level := match last missing with Some (l, _, _) => l | None => 0 end in
          _ ← walk_missing max_level (reverse missing);
          apply_loop n f id
      end
  end.

(** [apply_to_commit]. *)
Definition apply_to_commit (f : filter) (id : oid) : wm oid :=
  f ← optimize f; apply_loop h f id.

End Commits.
