(* ===== verification/Push.v ===== *)
(** Reversing a filter on histories (josh-core/src/history.rs): the original of a filtered commit,
    and [unapply_filter], which rebuilds pushed commits on top of the originals. *)

From S2P Require Import Prelude Path Objects Store RevWalk HistoryHint CommitCache HistoryGraph OptState.
From S2P Require Import Builders Utf8 Glob Pattern Persist TreeOps TreePaths TreeWalk GraphMerge Apply.
From S2P Require Import Trailers Rewriting Commits Ops.

Open Scope nat_scope.

(** The order in which a [HashSet] of commits is iterated. *)
Class HashOrder := {
  hash_order : gset oid -> list oid;
  hash_order_perm s : hash_order s ≡ₚ elements s;
}.

(** [OrphansMode]. *)
Inductive OrphansMode := KeepOrphans | RemoveOrphans | FailOrphans.

(** The number of different trees: [sort], [dedup] and [len]. *)
Definition unique_trees (l : list oid) : nat := base.size (list_to_set l : gset oid).

Section Push.
Context `{ObjectHash} `{BisectEntry} `{EntryModes} `{RegexReplace} `{Readers} `{FilterText}.
Context `{!Collaborators} `{Signatures} `{Gix} `{HashOrder} {B : Type} `{CacheBackend B}.
Abbreviation world := (world B).
Abbreviation wm := (M world).
Context (h : nat).

Abbreviation apply_to_commit := (apply_to_commit h).
Abbreviation apply := (apply h).

(** Computations with the map from filtered commits to their originals. *)
Abbreviation originals := (gmap oid oid).
Abbreviation pm := (M (world * originals)).

Definition in_world {A} (m : wm A) : pm A := fun '(w, o) => let '(r, w) := m w in (r, (w, o)).
Definition original_of (filtered : oid) : pm (option oid) := gets (fun s => s.2 !! filtered).
Definition set_original (filtered original : oid) : pm unit :=
  modify (fun s => (s.1, <[filtered := original]> s.2)).

(** All commits reachable from one, children first. *)
Definition whole_history (linear : bool) (tip : oid) : wm (list oid) :=
  o ← gets (fun w => tx_odb (w_tx w));
  let start := if linear then RevWalk.simplify_first_parent RevWalk.new else RevWalk.new in
  lift
    (w ← RevWalk.push (try_find o) tip start;
     (RevWalk.into_topo_vec (try_find o) h (fun _ u => (false, u)) w tt).1).

(** * Originals *)

(** The walk of [find_unapply_base]: commits seen but not yet processed, those that a child
    has been processed of, and the original once it is found. *)
Record search := Search { pending : gset oid; unlocked : gset oid; found : option oid }.

(** The loop of the walk: pending commits that are unlocked are processed; [n] bounds them.
    [true] ends the walk. *)
Fixpoint process_pending (n : nat) (f : filter) (filtered : oid) (s : search) : wm (bool * search) :=
  match n with
  | 0 => lift OutOfFuel
  | S n =>
      match List.find (fun id => bool_decide (id ∈ unlocked s)) (hash_order (pending s)) with
      | None => mret (false, s)
      | Some id =>
          let s := Search (pending s ∖ {[id]}) (unlocked s) (found s) in
          original_filtered ← apply_to_commit f id;
          if decide (filtered = original_filtered) then
            mret (true, Search (pending s) (unlocked s) (Some id))
          else
            parents ← on_tx (read_parent_ids id);
            process_pending n f filtered (Search (pending s) (list_to_set parents ∪ unlocked s) (found s))
      end
  end.

(** The visit of a commit. *)
Definition visit_original (f : filter) (filtered id : oid) (x : world * search) :
    res bool * (world * search) :=
  let '(w, s) := x in
  let s := Search ({[id]} ∪ pending s) (unlocked s) (found s) in
  if decide (id ∈ unlocked s) then
    match process_pending h f filtered s w with
    | (Ok (b, s), w) => (Ok b, (w, s))
    | (Err e, w) => (Err e, (w, s))
    | (OutOfFuel, w) => (OutOfFuel, (w, s))
    end
  else (Ok false, (w, s)).

Definition discover_original (f : filter) (contained_in filtered : oid) : wm (option oid) := fun w =>
  let find := try_find (tx_odb (w_tx w)) in
  match RevWalk.push find contained_in RevWalk.new with
  | Ok walk =>
      match RevWalk.discover find h (visit_original f filtered) walk (w, Search ∅ {[contained_in]} None) with
      | (Ok _, (w, s)) => (Ok (found s), w)
      | (Err e, (w, _)) => (Err e, w)
      | (OutOfFuel, (w, _)) => (OutOfFuel, w)
      end
  | Err e => (Err e, w)
  | OutOfFuel => (OutOfFuel, w)
  end.

(** [find_unapply_base]. *)
Definition find_unapply_base (f : filter) (contained_in filtered : oid) : pm oid :=
  original ← original_of filtered;
  match original with
  | Some original => mret original
  | None =>
      if decide (contained_in = zero_oid) then mret zero_oid
      else
        id ← in_world (apply_to_commit f contained_in);
        _ ← (if decide (id = zero_oid) then mret tt else set_original id contained_in);
        result ← in_world (discover_original f contained_in filtered);
        match result with
        | Some original => _ ← set_original filtered original; mret original
        | None => mret zero_oid
        end
  end.

(** The loop of [find_original]. *)
Fixpoint first_original (f : filter) (filtered : oid) (ids : list oid) : wm oid :=
  match ids with
  | [] => mret zero_oid
  | original :: ids =>
      r ← apply_to_commit f original;
      if decide (filtered = r) then
        parent_ids ← on_tx (read_parent_ids original);
        match parent_ids with
        | [p] =>
            fp ← apply_to_commit f p;
            if decide (fp = filtered) then first_original f filtered ids else mret original
        | _ => mret original
        end
      else first_original f filtered ids
  end.

(** [find_original]. *)
Definition find_original (f : filter) (contained_in filtered : oid) (linear : bool) : wm oid :=
  if decide (contained_in = zero_oid) then mret zero_oid
  else if Filter.is_nop f then mret filtered
  else ids ← whole_history linear contained_in; first_original f filtered ids.

(** The loop of [find_oldest_similar_commit]. *)
Fixpoint last_similar (f : filter) (filtered prev_rev : oid) (ids : list oid) : wm oid :=
  match ids with
  | [] => mret prev_rev
  | rev :: ids =>
      r ← apply_to_commit f rev;
      if decide (filtered = r) then last_similar f filtered rev ids else mret prev_rev
  end.

(** [find_oldest_similar_commit]. *)
Definition find_oldest_similar_commit (f : filter) (unfiltered : oid) : wm oid :=
  o ← gets (fun w => tx_odb (w_tx w));
  _ ← lift (RevWalk.push (try_find o) unfiltered RevWalk.new);
  filtered ← apply_to_commit f unfiltered;
  ids ← whole_history false unfiltered;
  last_similar f filtered unfiltered ids.

(** The loop of [find_new_branch_base]: commits whose base cannot be computed are passed over. *)
Fixpoint first_with_base (f : filter) (contained_in : oid) (ids : list oid) : pm oid :=
  match ids with
  | [] => mret zero_oid
  | rev :: ids =>
      r ← attempt (find_unapply_base f contained_in rev);
      match r with
      | Some base =>
          if decide (base = zero_oid) then first_with_base f contained_in ids
          else
            oldest ← attempt (in_world (find_oldest_similar_commit f base));
            _ ← set_original rev (default base oldest);
            mret rev
      | None => first_with_base f contained_in ids
      end
  end.

(** [find_new_branch_base]. *)
Definition find_new_branch_base (f : filter) (contained_in filtered : oid) : pm oid :=
  ids ← in_world (whole_history false filtered);
  first_with_base f contained_in ids.

(** * Pushes *)

(** [filter::unapply] for a pushed commit on top of an original one. *)
Definition unapply_commit (f : filter) (tree parent_tree : oid) (commits : oid * oid) : wm oid :=
  unapply h apply h f tree parent_tree (Some commits).

(** Whether the parents of a pushed commit are unrelated histories. *)
Definition has_new_orphan (parents : list oid) : wm bool :=
  match parents with
  | _ :: _ :: _ =>
      o ← gets (fun w => tx_odb (w_tx w));
      base ← lift (merge_base_octopus (try_find o) parents);
      mret (bool_decide (base = None))
  | _ => mret false
  end.

(** The parents of a pushed commit that are looked at, by the mode for orphans. *)
Definition parents_to_unapply (mode : OrphansMode) (id : oid) (parents : list oid) : wm (list oid) :=
  orphan ← has_new_orphan parents;
  if (orphan : bool) then
    match mode with
    | KeepOrphans => mret parents
    | RemoveOrphans => mret (removelast parents)
    | FailOrphans => fail ("Rejecting new orphan branch at " +:+ id)
    end
  else mret parents.

(** The originals of the parents, without those that have none. *)
Fixpoint original_parents (f : filter) (target : oid) (parents : list oid) : pm (list (oid * commit)) :=
  match parents with
  | [] => mret []
  | p :: parents =>
      base ← find_unapply_base f target p;
      if decide (base = zero_oid) then original_parents f target parents
      else
        c ← in_world (on_tx (read_commit base));
        l ← original_parents f target parents;
        mret ((base, c) :: l)
  end.

(** The new tree of a merge whose parents differ outside of the filter: that of the first parent
    that is the target or descends from it, among as many parents as there are different trees. *)
Fixpoint descendant_tree (n : nat) (target : oid) (parents : list (oid * commit)) (trees : list oid) :
    wm (option oid) :=
  match n, parents, trees with
  | S n, (p, _) :: parents, t :: trees =>
      o ← gets (fun w => tx_odb (w_tx w));
      b ← (if decide (p = target) then mret true else lift (is_descendant_of (try_find o) p target));
      if (b : bool) then mret (Some t) else descendant_tree n target parents trees
  | 0, _, _ => mret None
  | _, _, _ => fail "index out of bounds"
  end.

(** The merge of the parents with a preference for one side, and the push on top of it. *)
Definition unapply_on_merge (f : filter) (tree id p q : oid) (favor : Favor) : wm oid :=
  base_tree ← on_tx (merge_commits p q (Some favor));
  unapply_commit f tree base_tree (id, p).

(** The new tree of a merge. *)
Definition merged_tree (f : filter) (target id tree : oid) (n : nat) (parents : list (oid * commit))
    (trees : list oid) : wm oid :=
  picked ← descendant_tree n target parents trees;
  let tid := default zero_oid picked in
  tid ←
    match parents with
    | (p, _) :: (q, _) :: _ =>
        if decide (tid = zero_oid /\ n = 2) then
          tid_ours ← unapply_on_merge f tree id p q Ours;
          tid_theirs ← unapply_on_merge f tree id p q Theirs;
          mret (if decide (tid_ours = tid_theirs) then tid_ours else tid)
        else mret tid
    | _ => mret tid
    end;
  if decide (tid = zero_oid) then fail ("rejecting merge " +:+ id) else mret tid.

(** The tree of the commit that is rebuilt. *)
Definition unapplied_tree (f : filter) (target id tree : oid) (parents : list (oid * commit)) : wm oid :=
  new_trees ←
    Prelude.mapM (fun p : oid * commit => unapply_commit f tree (commit_tree p.2) (id, p.1)) parents;
  match unique_trees new_trees, new_trees with
  | 0, _ => unapply_commit f tree empty_id (id, id)
  | 1, t :: _ => mret t
  | n, _ => merged_tree f target id tree n parents new_trees
  end.

(** Whether the tree of a commit differs from that of its first parent, if that can be read. *)
Definition changes_tree (c : commit) : wm bool :=
  match commit_parents c with
  | [] => mret true
  | p :: _ =>
      t ← attempt (on_tx (read_tree_id p));
      mret (negb (bool_decide (Some (commit_tree c) = t)))
  end.

(** The body of the loop of [unapply_filter]: the original of a pushed commit. *)
Definition unapply_one (f : filter) (target : oid) (mode : OrphansMode) (reparent : option oid) (id : oid) (c : commit) :
    pm oid :=
  filtered_parent_ids ← in_world (parents_to_unapply mode id (commit_parents c));
  parents ← original_parents f target filtered_parent_ids;
  parents ← in_world
    (match parents, reparent with
     | [], Some r => c ← on_tx (read_commit r); mret [(r, c)]
     | _, _ => mret parents
     end);
  new_tree ← in_world (unapplied_tree f target id (commit_tree c) parents);
  ret ← in_world (on_tx (rewrite_commit c parents.*1 (Rewrite.from_tree new_tree) Preserve));
  match parents with
  | [(p, pc)] =>
      if decide (new_tree = commit_tree pc) then
        changed ← in_world (changes_tree c);
        mret (if (changed : bool) then p else ret)
      else mret ret
  | _ => mret ret
  end.

(** The loop of [unapply_filter] over the pushed commits, parents first. *)
Fixpoint unapply_all (f : filter) (target : oid) (mode : OrphansMode) (reparent : option oid)
    (revs : list oid) (ret : oid) : pm oid :=
  match revs with
  | [] => mret ret
  | rev :: revs =>
      c ← in_world (on_tx (read_commit rev));
      known ← original_of rev;
      match known with
      | Some _ => unapply_all f target mode reparent revs ret
      | None =>
          r ← unapply_one f target mode reparent rev c;
          _ ← set_original rev r;
          unapply_all f target mode reparent revs r
      end
  end.

(** The pushed commits: those of the range, or all if the old commit is not there. *)
Definition pushed_commits (new_filtered old_filtered : oid) : wm (list oid) :=
  o ← gets (fun w => tx_odb (w_tx w));
  match read_header o old_filtered with
  | Ok CommitKind =>
      on_txn (RangeWalk.into_topo_vec (try_find o) (compute_sequence_number h) h new_filtered old_filtered)
  | _ => whole_history false new_filtered
  end.

(** The old commit: for a new branch, the newest pushed commit that has an original. *)
Definition branch_base (f : filter) (target old_filtered new_filtered : oid) : pm oid :=
  if decide (old_filtered = zero_oid) then
    r ← attempt (find_new_branch_base f target new_filtered); mret (default old_filtered r)
  else mret old_filtered.

(** [unapply_filter]. *)
Definition unapply_filter (f : filter) (original_target old_filtered new_filtered : oid)
    (mode : OrphansMode) (reparent : option oid) : wm oid := fun w =>
  let '(r, (w, _)) :=
    (old_filtered ← branch_base f original_target old_filtered new_filtered;
     if decide (new_filtered = old_filtered) then
       original ← original_of new_filtered;
       match original with
       | Some original => mret original
       | None => in_world (find_original f original_target new_filtered false)
       end
     else
       revs ← in_world (pushed_commits new_filtered old_filtered);
       unapply_all f original_target mode reparent (reverse revs) original_target) (w, ∅) in
  (r, w).

End Push.
