(* ===== verification/Denote.v ===== *)
(** What a filter means for trees as values: the reference definition of the application of
    a filter and of its reverse, independent of the object database, the memo tables and
    budgets of the code. *)

From S2P Require Import Prelude Path OptState Invert Objects Store Utf8 Glob Pattern.
From S2P Require Import TreeOps TreePaths TreeWalk Node NodeFacts Refine FileMap NodeFilter.
From S2P Require Import NodePut NodeKeys Apply Ops.

(** * Operations on values *)

(** The names of a path without special components. *)
Definition path_names (p : path) : list string :=
  omap (fun c => match c with Normal s => Some s | _ => None end) p.

Definition good_name (s : string) : bool := valid_name s && valid_utf8 s.

Definition good_path (p : path) : bool :=
  bool_decide (p ≠ [] /\ p = Normal <$> path_names p) && forallb good_name (path_names p).

(** The subtree at a path. *)
Definition nsubdir (p : list string) (t : node) : node :=
  match nentry t p with
  | Some c => if is_tree (child_mode c) then child_node c else nempty
  | None => nempty
  end.

(** The tree below a path. *)
Definition nprefix (p : list string) (t : node) : node := nput nempty p tree_mode t.

(** A file or a subtree, moved. *)
Definition nfile (dest source : list string) (t : node) : node :=
  match nentry t source with
  | Some c => nput nempty dest (child_mode c) (child_node c)
  | None => nempty
  end.

(** The files a pattern selects. *)
Definition fallback_pred (cp : compiled_pattern) (p : string) (isblob : bool) : bool :=
  isblob && matches_with (full cp) (default [] (chars p)) PATTERN_MATCH_OPTIONS.
Definition pattern_keep (glob : string) (p : list string) : bool :=
  match compiled glob with
  | Ok cp =>
      if fallback cp then fallback_pred cp (path_text EmptyString p) true
      else walk cp initial_state (name_chars <$> p)
  | _ => false
  end.

(** * The meaning of a filter *)

(** A filter as a pair of the function it computes and its reverse. *)
Abbreviation meaning := ((node -> node) * (node -> node))%type.

Definition turned (s : meaning) : meaning := (s.2, s.1).

(** A chain. *)
Definition through (l : list meaning) (t : node) : node := foldl (fun t s => s.1 t) t l.

(** One branch of a composition: the result so far and what earlier branches have taken. *)
Definition ncompose_step (t : node) (acc : node * node) (s : meaning) : node * node :=
  let applied := s.1 t in
  (noverlay (nsubtract applied (s.1 acc.2)) acc.1, noverlay acc.2 (s.2 applied)).

Definition ncompose (l : list meaning) (t : node) : node :=
  (foldl (ncompose_step t) (nempty, nempty) l).1.

Fixpoint sem (f : filter) : meaning :=
  match f with
  | Op.Meta _ f => sem f
  | Op.Empty => (fun _ => nempty, fun _ => nempty)
  | Op.Subdir p => (nsubdir (path_names p), nprefix (path_names p))
  | Op.Prefix p => (nprefix (path_names p), nsubdir (path_names p))
  | Op.File d s => (nfile (path_names d) (path_names s), nfile (path_names s) (path_names d))
  | Op.Pattern glob => (nfilter (pattern_keep glob), nfilter (pattern_keep glob))
  | Op.Exclude f => (fun t => nsubtract t ((sem f).1 t), fun t => nsubtract t ((sem f).2 t))
  | Op.Select f => (fun t => nintersect t ((sem f).1 t), fun t => nintersect t ((sem f).2 t))
  | Op.Subtract a b =>
      (fun t => nsubtract ((sem a).1 t) ((sem a).1 ((sem b).2 ((sem b).1 t))), fun t => t)
  | Op.Chain l =>
      (through (sem <$> l), through (turned <$> rev (sem <$> l)))
  | Op.Compose l => (ncompose (sem <$> l), ncompose (turned <$> (sem <$> l)))
  | _ => (fun t => t, fun t => t)
  end.

Definition fwd (f : filter) : node -> node := (sem f).1.
Definition bwd (f : filter) : node -> node := (sem f).2.

(** * The filters it is defined for *)

Section Fragment.
Context (known : string -> bool).

(** Filters of trees whose paths are plain names and whose patterns are known; the branches
    of a composition and what is subtracted have an inverse. *)
Fixpoint tree_filter (f : filter) : bool :=
  match f with
  | Op.Nop | Op.Empty | Op.Fold | Op.Prune | Op.Pin _ | Op.Squash None => true
  | Op.Meta _ f | Op.Exclude f | Op.Select f => tree_filter f
  | Op.Subdir p | Op.Prefix p => good_path p
  | Op.File d s => good_path d && good_path s
  | Op.Pattern glob => known glob
  | Op.Subtract a b => tree_filter a && tree_filter b && is_ok (inverse b)
  | Op.Chain l => forallb tree_filter l
  | Op.Compose l => forallb (fun f => tree_filter f && is_ok (inverse f)) l
  | _ => false
  end.

(** ** Inverses *)

Definition meaning_eq (s s' : meaning) : Prop := forall t, s.1 t = s'.1 t /\ s.2 t = s'.2 t.

Lemma through_eq (l l' : list meaning) t : Forall2 meaning_eq l l' -> through l t = through l' t.
Proof.
  intros Hl. revert t. induction Hl as [|s s' l l' Hs _ IH]; intros t; [done|]. simpl.
  destruct (Hs t) as [-> _]. apply IH.
Qed.

Lemma ncompose_eq (l l' : list meaning) t :
  Forall2 meaning_eq l l' -> ncompose l t = ncompose l' t.
Proof.
  intros Hl. unfold ncompose. f_equal. generalize (nempty, nempty).
  induction Hl as [|s s' l l' Hs _ IH]; intros acc; [done|]. simpl.
  rewrite IH. f_equal. unfold ncompose_step. destruct (Hs t) as [-> _].
  destruct (Hs acc.2) as [-> _]. by destruct (Hs (s'.1 t)) as [_ ->].
Qed.

Lemma meaning_eq_turned l l' :
  Forall2 meaning_eq l l' -> Forall2 meaning_eq (turned <$> l) (turned <$> l').
Proof.
  intros Hl. apply Forall2_fmap. eapply Forall2_impl; [done|]. intros s s' Hs t.
  destruct (Hs t). by split.
Qed.

(** What is needed of an inverse. *)
Record inverse_of (f g : filter) : Prop := {
  inverse_filter : tree_filter g = true;
  inverse_invertible : exists f', inverse g = Ok f';
  inverse_size : size g <= size f;
  inverse_meaning : meaning_eq (sem g) (turned (sem f));
}.

Lemma inverse_of_list (l l' : list filter) :
  Forall (fun f => forall g, tree_filter f = true -> inverse f = Ok g -> inverse_of f g) l ->
  forallb tree_filter l = true -> inverse <$> l = Ok <$> l' -> Forall2 inverse_of l l'.
Proof.
  intros Hl. revert l'. induction Hl as [|f l Hf _ IH]; intros [|g l']; try done.
  rewrite !fmap_cons. simpl. intros [Hk Hks]%andb_true_iff [= Hg Hgs]. constructor; auto.
Qed.

Lemma inverse_of_facts l l' :
  Forall2 inverse_of l l' ->
  forallb (fun g => tree_filter g && is_ok (inverse g)) l' = true /\
  sum_list_with size l' <= sum_list_with size l /\
  (exists l'', inverse <$> l' = Ok <$> l'') /\
  Forall2 meaning_eq (sem <$> l') (turned <$> (sem <$> l)).
Proof.
  induction 1 as [|f g l l' [Hk [f' Hf'] Hs Hm] _ (IH1 & IH2 & (l'' & IH3) & IH4)];
    [split; [done|]; split; [done|]; split; [by exists []|constructor]|].
  cbn [forallb sum_list_with]. rewrite Hk, IH1. split; [by rewrite Hf'|]. split; [lia|]. split.
  - exists (f' :: l''). by rewrite !fmap_cons, Hf', IH3.
  - by constructor.
Qed.

Lemma forallb_fst {A} (p q : A -> bool) l :
  forallb (fun x => p x && q x) l = true -> forallb p l = true.
Proof.
  rewrite !Forall_forallb. intros Hl. eapply Forall_impl; [done|].
  intros x Hx. by apply andb_true_iff in Hx as [? _].
Qed.

Lemma size_rev (l : list filter) : sum_list_with size (rev l) = sum_list_with size l.
Proof.
  induction l as [|f l IH]; [done|]. simpl. rewrite sum_list_with_app, IH. simpl. lia.
Qed.

Lemma Forall2_rev_list {A B} (R : A -> B -> Prop) l l' : Forall2 R l l' -> Forall2 R (rev l) (rev l').
Proof.
  induction 1 as [|x y l l' Hx _ IH]; [constructor|]. simpl.
  apply Forall2_app; [done|by repeat constructor].
Qed.

Lemma turned_twice (l : list meaning) :
  Forall2 meaning_eq (turned <$> (turned <$> l)) l.
Proof. induction l as [|s l IH]; constructor; [by split|done]. Qed.

Lemma inverse_chain (l l' : list filter) :
  Forall2 inverse_of l l' -> inverse_of (Op.Chain l) (Op.Chain (rev l')).
Proof.
  intros Hl. destruct (inverse_of_facts l l' Hl) as (H1 & H2 & (l'' & H3) & H4). split.
  - simpl. rewrite forallb_rev. exact (forallb_fst _ _ _ H1).
  - exists (Op.Chain l''). simpl.
    by rewrite rev_fmap, rev_involutive, H3, (proj2 (collect_res_ok _ _) eq_refl).
  - simpl. rewrite size_rev. lia.
  - intros t. simpl. rewrite <- rev_fmap, rev_involutive. split.
    + rewrite <- rev_fmap. by apply through_eq, Forall2_rev_list.
    + etrans; [apply through_eq, meaning_eq_turned, H4|]. apply through_eq, turned_twice.
Qed.

Lemma inverse_compose (l l' : list filter) :
  Forall2 inverse_of l l' -> inverse_of (Op.Compose l) (Op.Compose l').
Proof.
  intros Hl. destruct (inverse_of_facts l l' Hl) as (H1 & H2 & (l'' & H3) & H4). split.
  - done.
  - exists (Op.Compose l''). simpl. by rewrite H3, (proj2 (collect_res_ok _ _) eq_refl).
  - simpl. lia.
  - intros t. simpl. split; [by apply ncompose_eq|].
    etrans; [apply ncompose_eq, meaning_eq_turned, H4|]. apply ncompose_eq, turned_twice.
Qed.

(** The inverse of a filter exchanges its two functions. *)
Lemma inverse_sem (f g : filter) :
  tree_filter f = true -> inverse f = Ok g -> inverse_of f g.
Proof.
  revert g. induction f as [f IH] using filter_ind. intros g Hk Hg.
  destruct f; simpl in Hk, Hg, IH; try done; 
    try (injection Hg as <-; split; simpl;
         [first [done|by rewrite andb_comm]|by eexists|lia|intros t; by split]).
  all: try (apply Forall_cons in IH as [IH _]; destruct (inverse f) as [g'| |] eqn:E; simpl in Hg; try done;
    injection Hg as <-; destruct (IH g' Hk eq_refl) as [H1 [f' H2] H3 H4]; split; simpl;
    [done|by rewrite H2; eexists|lia|intros t; simpl; destruct (H4 t) as [E1 E2]; by rewrite ?E1, ?E2]).
  - destruct ids; [done|]. injection Hg as <-.
    split; simpl; [done|by eexists|lia|intros t; by split].
  - destruct (collect_res _) as [l'| |] eqn:E; simpl in Hg; try done. injection Hg as <-.
    apply collect_res_ok in E. apply inverse_compose, inverse_of_list; [done| |done].
    exact (forallb_fst _ _ _ Hk).
  - destruct (collect_res _) as [l'| |] eqn:E; simpl in Hg; try done. injection Hg as <-.
    apply collect_res_ok in E. rewrite rev_fmap in E.
    apply (f_equal (@rev _)) in E. rewrite <- !rev_fmap, rev_involutive in E.
    rewrite <- (rev_involutive l'). apply inverse_chain, inverse_of_list; [done|done|].
    by rewrite E, rev_fmap.
Qed.

(** ** The trees it is defined for *)

Lemma good_path_names p :
  good_path p = true ->
  path_names p ≠ [] /\ p = Normal <$> path_names p /\
  Forall (fun s => valid_name s = true) (path_names p) /\
  Forall (fun s => valid_utf8 s = true) (path_names p).
Proof.
  unfold good_path. intros [[Hne Hp]%bool_decide_eq_true Hg]%andb_true_iff.
  apply Forall_forallb in Hg. split; [by intros E; rewrite E in Hp|]. split; [done|].
  apply Forall_and. eapply Forall_impl; [done|]. intros s Hs. by apply andb_true_iff in Hs.
Qed.

Lemma nentry_wf t p c :
  wf_node t -> nentry t p = Some c ->
  wf_node (child_node c) /\ is_tree (child_mode c) = is_node (child_node c) /\
  child_node c ≠ nempty.
Proof.
  revert t. induction p as [|s p IH]; intros t Hw; [done|]. simpl.
  destruct t as [|cs]; [done|]. simpl. destruct (nfind s cs) as [d|] eqn:E; [|done].
  apply nfind_Some in E as [Hd _]. pose proof (wf_child cs d Hw Hd) as Hwd. simpl.
  destruct p as [|s' p]; [|case_match; [by apply IH|done]]. intros [= <-].
  split; [done|]. split; [by eapply wf_child_kind|by eapply wf_child_not_empty].
Qed.

Lemma nput_is_node n p m x : p ≠ [] -> is_node (nput n p m x) = true.
Proof. by destruct p. Qed.

(** Well-formed trees. *)
Definition tree_value (t : node) : Prop := wf_node t /\ is_node t = true.

Lemma tree_value_nempty : tree_value nempty.
Proof. split; [apply wf_nempty|done]. Qed.

Lemma tree_value_nput p m x :
  p ≠ [] -> Forall (fun s => valid_name s = true) p -> wf_node x -> is_tree m = is_node x ->
  tree_value (nput nempty p m x).
Proof.
  intros Hp Hv Hx Hm. split; [|by apply nput_is_node].
  apply nput_wf; [apply wf_nempty|done|done|done|by destruct p].
Qed.

Lemma tree_value_nsubdir p t : tree_value t -> tree_value (nsubdir p t).
Proof.
  intros [Hw Hn]. unfold nsubdir. destruct (nentry t p) as [c|] eqn:E; [|apply tree_value_nempty].
  destruct (nentry_wf _ _ _ Hw E) as (? & Hk & ?). case_match; [|apply tree_value_nempty].
  by split.
Qed.

Lemma tree_value_nprefix p t : good_path p = true -> tree_value t -> tree_value (nprefix (path_names p) t).
Proof.
  intros (? & _ & ? & _)%good_path_names [Hw Hn]. by apply tree_value_nput.
Qed.

Lemma tree_value_nfile d s t :
  good_path d = true -> tree_value t -> tree_value (nfile (path_names d) s t).
Proof.
  intros (? & _ & ? & _)%good_path_names [Hw Hn]. unfold nfile.
  destruct (nentry t s) as [c|] eqn:E; [|apply tree_value_nempty].
  destruct (nentry_wf _ _ _ Hw E) as (? & Hk & ?). by apply tree_value_nput.
Qed.

Lemma tree_value_nsubtract a b : tree_value a -> tree_value b -> tree_value (nsubtract a b).
Proof. intros [Ha _] [Hb _]. split; [by apply nsubtract_wf|apply nsubtract_is_node]. Qed.

Lemma tree_value_nintersect a b : tree_value a -> tree_value b -> tree_value (nintersect a b).
Proof.
  intros [Ha Na] [Hb Nb]. split; [by apply nintersect_wf|].
  destruct a, b; try done. rewrite nintersect_Node. by repeat case_decide.
Qed.

Lemma tree_value_noverlay a b : tree_value a -> tree_value b -> tree_value (noverlay a b).
Proof.
  intros [Ha Na] [Hb Nb]. split; [by apply noverlay_wf|].
  destruct a, b; try done. rewrite noverlay_Node. by repeat case_decide.
Qed.

Lemma tree_value_nfilter keep a : tree_value a -> tree_value (nfilter keep a).
Proof. intros [Ha Na]. split; [by apply nfilter_wf|by rewrite nfilter_is_node]. Qed.
End Fragment.

Create HintDb tree_value.
#[export] Hint Resolve tree_value_nempty tree_value_nsubdir tree_value_nprefix tree_value_nfile
  tree_value_nsubtract tree_value_nintersect tree_value_noverlay tree_value_nfilter : tree_value.

(** Properties of entries that the operations keep: they hold of the entries on the way to
    a new path, and of an entry under another name. *)
Class EntryLaw (Q : entry_mode * string -> Prop) := {
  law_tree s : good_name s = true -> Q (tree_mode, s);
  law_name m s s' : Q (m, s) -> good_name s' = true -> Q (m, s');
}.

#[export] Instance utf8_law : EntryLaw (fun k => valid_utf8 k.2 = true).
Proof.
  split; [intros s|intros m s s' _]; intros Hs; by apply andb_true_iff in Hs as [_ ?].
Qed.

#[export] Instance plain_law : EntryLaw (fun k => is_tree k.1 = true -> k.1 = tree_mode).
Proof. by split. Qed.

(** What both functions of a meaning keep. *)
Definition keeps (P : node -> Prop) (s : meaning) : Prop := forall t, P t -> P (s.1 t) /\ P (s.2 t).

Section Keeps.
Context (P : node -> Prop).
Context (P_empty : P nempty) (P_subdir : forall p t, P t -> P (nsubdir p t)).
Context (P_prefix : forall p t, good_path p = true -> P t -> P (nprefix (path_names p) t)).
Context (P_file : forall d s t, good_path d = true -> P t -> P (nfile (path_names d) s t)).
Context (P_subtract : forall a b, P a -> P b -> P (nsubtract a b)).
Context (P_intersect : forall a b, P a -> P b -> P (nintersect a b)).
Context (P_overlay : forall a b, P a -> P b -> P (noverlay a b)).
Context (P_filter : forall keep a, P a -> P (nfilter keep a)).

Lemma keeps_turned (l : list meaning) : Forall (keeps P) l -> Forall (keeps P) (turned <$> l).
Proof.
  intros Hl. apply Forall_fmap. eapply Forall_impl; [done|]. intros s Hs t Ht.
  destruct (Hs t Ht). by split.
Qed.

Lemma keeps_through (l : list meaning) t : Forall (keeps P) l -> P t -> P (through l t).
Proof.
  intros Hl. revert t. induction Hl as [|s l Hs _ IH]; intros t Ht; [done|]. apply IH. by apply Hs.
Qed.

Lemma keeps_compose_loop (l : list meaning) t acc :
  Forall (keeps P) l -> P t -> P acc.1 -> P acc.2 ->
  P (foldl (ncompose_step t) acc l).1 /\ P (foldl (ncompose_step t) acc l).2.
Proof.
  intros Hl Ht. revert acc. induction Hl as [|s l Hs _ IH]; intros acc H1 H2; [done|]. simpl.
  destruct (Hs t Ht) as [Hst _]. destruct (Hs acc.2 H2) as [Hsa _].
  destruct (Hs _ Hst) as [_ Hb]. apply IH; unfold ncompose_step; simpl; auto.
Qed.

Lemma keeps_ncompose (l : list meaning) t : Forall (keeps P) l -> P t -> P (ncompose l t).
Proof. intros Hl Ht. by apply keeps_compose_loop. Qed.

Lemma sem_keeps known f : tree_filter known f = true -> keeps P (sem f).
Proof.
  induction f as [f IH] using filter_ind. intros Hk t Ht.
  destruct f; simpl in Hk, IH; try done; try (by split).
  - apply Forall_cons in IH as [IH _]. by apply IH.
  - apply andb_true_iff in Hk as [? ?]. split; simpl; auto.
  - split; simpl; auto.
  - split; simpl; auto.
  - split; simpl; auto.
  - assert (Forall (keeps P) (sem <$> filters)) as Hl.
    { apply Forall_fmap, Forall_forall. rewrite Forall_forallb, Forall_forall in Hk.
      rewrite Forall_forall in IH. intros f Hf. apply IH; [done|].
      by destruct (proj1 (andb_true_iff _ _) (Hk f Hf)). }
    split; simpl; apply keeps_ncompose; auto using keeps_turned.
  - assert (Forall (keeps P) (sem <$> filters)) as Hl.
    { apply Forall_fmap, Forall_forall. rewrite Forall_forallb, Forall_forall in Hk.
      rewrite Forall_forall in IH. intros f Hf. apply IH; auto. }
    split; simpl; apply keeps_through; auto. apply keeps_turned. by apply List.Forall_rev.
  - rewrite !andb_true_iff in Hk. destruct Hk as [[Ha Hb] _].
    apply Forall_cons in IH as [IHa [IHb _]%Forall_cons]. specialize (IHa Ha). specialize (IHb Hb).
    split; [|done]. simpl. destruct (IHb t Ht) as [H1 _]. destruct (IHb _ H1) as [_ H2].
    apply P_subtract; by apply IHa.
  - apply Forall_cons in IH as [IH _]. destruct (IH Hk t Ht). split; simpl; auto.
  - apply Forall_cons in IH as [IH _]. destruct (IH Hk t Ht). split; simpl; auto.
Qed.
End Keeps.

Lemma sem_tree_value known f t :
  tree_filter known f = true -> tree_value t -> tree_value (fwd f t) /\ tree_value (bwd f t).
Proof. intros Hk. apply (sem_keeps tree_value) with (known := known); auto with tree_value. Qed.

Lemma sem_every Q `{!EntryLaw Q} known f t :
  tree_filter known f = true -> every Q t -> every Q (fwd f t) /\ every Q (bwd f t).
Proof.
  assert (forall p m x, good_path p = true -> every Q x ->
    (forall s, good_name s = true -> Q (m, s)) -> every Q (nput nempty (path_names p) m x)) as Hput.
  { intros p m x Hp Hx Hm. apply every_nput; [done|done|]. intros s Hs.
    apply andb_true_iff in Hp as [_ Hp]. rewrite Forall_forallb, Forall_forall in Hp.
    split; [by apply law_tree, Hp|by apply Hm, Hp]. }
  intros Hk. apply (sem_keeps (every Q)) with (known := known);
    auto using every_nempty, every_nsubtract, every_nintersect, every_noverlay, every_nfilter.
  - intros p u Hu. unfold nsubdir. destruct (nentry u p) as [c|] eqn:E; [|done].
    case_match; [|done]. by eapply every_nentry.
  - intros p u Hp Hu. apply Hput; [done|done|]. intros s. apply law_tree.
  - intros d s u Hd Hu. unfold nfile. destruct (nentry u s) as [c|] eqn:E; [|done].
    destruct (every_nentry _ _ _ _ Hu E) as [HQ Hc]. apply Hput; [done|done|].
    intros s' Hs'. destruct c as [[m s0] x]. by apply (law_name m s0).
Qed.
