(* ===== verification/ApplyFacts.v ===== *)
(** Applying a filter computes its meaning: from every sound state of the object database,
    the memo tables of the transaction and the tables of the optimizer, [apply_impl] and
    [unapply] return the addresses of the trees that Denote assigns, within a budget that
    depends on the filter and the tree only. *)

From S2P Require Import Prelude Path OptState Invert Builders Objects Store Utf8 Glob Pattern Persist.
From S2P Require Import TreeOps TreePaths TreeWalk Node NodeFacts Refine FileMap NodeFilter.
From S2P Require Import NodePut NodeKeys CommitCache Apply Denote Ops.

(** What applying a filter to trees does not touch: the records of commits, and the table of
    optimized filters. *)
Definition kept (B : Type) : Type := records B * table filter.
Definition kept_of {B} (w : world B) : kept B := (w_records w, OPTIMIZED (w_caches w)).

Section ApplyFacts.
Context `{ObjectHash} `{BisectEntry} `{EntryModes} `{RegexReplace} `{Readers} `{FilterText}.
Context `{!Collaborators} `{GlobKeys} {B : Type} `{CacheBackend B}.
Context (known : string -> bool).

Abbreviation world := (world B).
Abbreviation wm := (M world).

Abbreviation tree_filter := (tree_filter known).

(** The memo table of patterns means, under the id of a known pattern, that pattern. *)
Definition pattern_known (glob : string) : Prop :=
  exists cp key, compiled glob = Ok cp /\
    filter_id (S (size (Op.Pattern glob))) (Op.Pattern glob) = Ok key /\
    (if fallback cp then pred_key key (fallback_pred cp) else pattern_key key cp).

Context (known_ok : forall glob, known glob = true -> pattern_known glob).

(** * Sound states *)

(** An entry with a name in UTF-8 and a mode spelled the way the code writes it. *)
Definition entry_written (k : entry_mode * string) : Prop :=
  valid_utf8 k.2 = true /\ mode_try_from (mode_value k.1) = Some k.1.

#[export] Instance written_law : EntryLaw entry_written.
Proof.
  split.
  - intros s Hs. split; [by apply andb_true_iff in Hs as [_ ?]|]. simpl.
    rewrite mode_value_tree. apply mode_try_from_tree.
  - intros m s s' [_ Hm] Hs. split; [by apply andb_true_iff in Hs as [_ ?]|done].
Qed.

(** Trees with such entries, as git stores them. *)
Definition value (t : node) : Prop := tree_value t /\ every entry_written t.

Lemma value_utf8 t : value t -> utf8_node t.
Proof. intros [_ He]. apply utf8_every. eapply every_impl; [|done]. by intros k []. Qed.

Lemma value_sem f t : tree_filter f = true -> value t -> value (fwd f t) /\ value (bwd f t).
Proof.
  intros Hk [Ht Hu]. destruct (sem_tree_value known f t Hk Ht).
  by destruct (sem_every entry_written known f t Hk Hu).
Qed.

Lemma value_fwd f t : tree_filter f = true -> value t -> value (fwd f t).
Proof. intros Hk Ht. by apply value_sem. Qed.

Lemma value_bwd f t : tree_filter f = true -> value t -> value (bwd f t).
Proof. intros Hk Ht. by apply value_sem. Qed.

Lemma value_nempty : value nempty.
Proof. split; [apply tree_value_nempty|done]. Qed.

Lemma value_nsubtract a b : value a -> value b -> value (nsubtract a b).
Proof. intros [Ha Ua] [Hb Ub]. split; [by apply tree_value_nsubtract|by apply every_nsubtract]. Qed.

Lemma value_noverlay a b : value a -> value b -> value (noverlay a b).
Proof. intros [Ha Ua] [Hb Ub]. split; [by apply tree_value_noverlay|by apply every_noverlay]. Qed.

Lemma value_good o t : value t -> present o t -> good o t.
Proof. intros [[Hw _] _] Hp. by split. Qed.

(** An entry of a memo table of applied filters is right and stored. *)
Definition entry_ok (s : filter -> node -> node) (o : odb) (e : filter * oid * oid) : Prop :=
  tree_filter e.1.1 = true ->
  exists t, value t /\ e.1.2 = node_oid t /\ e.2 = node_oid (s e.1.1 t) /\
    present o t /\ present o (s e.1.1 t).

(** A sound state, with [recs] not to be touched. *)
Record w_ok (recs : kept B) (w : world) : Prop := {
  w_caches_ok : inverted_ok (w_caches w);
  w_tx_ok : tx_ok (w_tx w);
  w_apply_ok : Forall (entry_ok fwd (tx_odb (w_tx w))) (apply_map w);
  w_unapply_ok : Forall (entry_ok bwd (tx_odb (w_tx w))) (unapply_map w);
  w_kept : kept_of w = recs;
}.

Definition w_odb (w : world) : odb := tx_odb (w_tx w).

Lemma entry_ok_keeps s o o' e : odb_keeps o o' -> entry_ok s o e -> entry_ok s o' e.
Proof.
  intros He Hok Hk. destruct (Hok Hk) as (t & ? & ? & ? & ? & ?).
  exists t. eauto 10 using present_keeps.
Qed.

Lemma entries_ok_keeps s o o' l :
  odb_keeps o o' -> Forall (entry_ok s o) l -> Forall (entry_ok s o') l.
Proof. intros He Hl. eapply Forall_impl; [done|]. intros e. by apply entry_ok_keeps. Qed.

Lemma keyed_get_elem {V} (l : list (filter * oid * V)) f id v :
  keyed_get l f id = Some v -> (f, id, v) ∈ l.
Proof.
  induction l as [|[[g id'] v'] l IH]; [done|]. simpl. case_decide as Hd.
  - destruct Hd as [<- <-]. intros [= ->]. left.
  - intros Hg. right. by apply IH.
Qed.

Lemma keyed_get_ok s o l f t id :
  Forall (entry_ok s o) l -> tree_filter f = true -> present o t ->
  keyed_get l f (node_oid t) = Some id -> id = node_oid (s f t) /\ present o (s f t).
Proof.
  intros Hl Hk Hp Hg%keyed_get_elem. rewrite Forall_forall in Hl.
  destruct (Hl _ Hg Hk) as (t' & _ & E & Ei & Hp' & Hr). simpl in *.
  apply (node_oid_inj o) in E; [|done..]. by subst t'.
Qed.

Lemma w_ok_odb recs w : w_ok recs w -> odb_ok (w_odb w).
Proof. intros Hw. apply tx_odb_ok, Hw. Qed.

Definition wyields {A} (o : odb) (m : wm A) (a : A) (Q : odb -> Prop) : Prop :=
  forall recs, runs (w_ok recs) w_odb o m a Q.

Lemma wyields_ret {A} o (a : A) (Q : odb -> Prop) :
  (forall o', odb_ok o' -> odb_extends o o' -> Q o') -> wyields o (mret a) a Q.
Proof. intros HQ recs. apply runs_ret, HQ. apply w_ok_odb. Qed.

Lemma wyields_bind {A C} o (m : wm A) (k : A -> wm C) a b Q R :
  wyields o m a Q ->
  (forall o', odb_ok o' -> odb_extends o o' -> Q o' -> wyields o' (k a) b R) ->
  wyields o (m ≫= k) b R.
Proof.
  intros Hm Hk recs. eapply runs_bind; [apply w_ok_odb|apply Hm|]. intros o' Hok He HQ. by apply Hk.
Qed.

Lemma wyields_weaken {A} o o' (m : wm A) a (Q : odb -> Prop) :
  wyields o m a Q -> odb_extends o o' -> wyields o' m a Q.
Proof. intros Hm He recs. by eapply runs_weaken. Qed.

Lemma wyields_gets {A C} o (f : world -> A) (k : A -> wm C) b Q :
  (forall recs w, w_ok recs w -> odb_extends o (w_odb w) -> wyields (w_odb w) (k (f w)) b Q) ->
  wyields o (gets f ≫= k) b Q.
Proof. intros Hk recs. apply runs_gets. intros w Hw He. by eapply Hk. Qed.

Lemma wyields_modify {C} o (f : world -> world) (k : wm C) b Q :
  (forall recs w, w_ok recs w -> odb_extends o (w_odb w) -> w_ok recs (f w) /\ w_odb (f w) = w_odb w) ->
  wyields o k b Q -> wyields o (modify f ≫= fun _ => k) b Q.
Proof. intros Hf Hk recs. apply runs_modify; [apply Hf|apply Hk]. Qed.

(** A computation of a transaction, and of the optimizer. *)
Lemma on_tx_yields {A} o (m : txm A) a Q : yields o m a Q -> wyields o (on_tx m) a Q.
Proof.
  intros Hm recs w [Hc Ht Ha Hu Hr] He. destruct (Hm (w_tx w) Ht He) as (t' & E & Ht' & He' & HQ).
  exists (set_tx t' w). unfold on_tx. rewrite E. split; [done|]. split; [|done].
  split; [done|done|by eapply entries_ok_keeps; [apply He'|]|by eapply entries_ok_keeps; [apply He'|]|done].
Qed.

Lemma on_caches_yields {A} o (m : opt A) a :
  (forall opt, computes (fun c => inverted_ok c /\ OPTIMIZED c = opt) m (Ok a)) ->
  wyields o (on_caches m) a (fun _ => True).
Proof.
  intros Hm recs w [Hc Ht Ha Hu Hr] He. destruct (Hm _ (w_caches w) (conj Hc eq_refl)) as [E [Hc' Ho]].
  unfold on_caches. destruct (m (w_caches w)) as [r c]. simpl in *. subst r.
  exists (set_caches c w). split; [done|]. split; [|split; [apply odb_extends_refl|done]].
  split; [done..|]. rewrite <- Hr. unfold kept_of. simpl. by rewrite Ho.
Qed.

#[local] Instance optimized_kept opt : InvertedOk (fun c => inverted_ok c /\ OPTIMIZED c = opt).
Proof. split; [by intros c []|]. intros c f [Hc Ho]. split; [by apply inverted_insert|done]. Qed.

Lemma invert_yields o h f g :
  size f <= h -> inverse f = Ok g -> wyields o (Apply.invert h f) g (fun _ => True).
Proof.
  intros Hh Hg. apply on_caches_yields. intros opt. rewrite <- Hg. by apply invert_computes; [apply _|].
Qed.

Lemma attempt_runs {St A} (ok : St -> Prop) (db : St -> odb) o (m : M St A) a Q :
  runs ok db o m a Q -> runs ok db o (attempt m) (Some a) Q.
Proof.
  intros Hm t Ht He. destruct (Hm t Ht He) as (t' & E & Hrest).
  exists t'. unfold attempt. by rewrite E.
Qed.

Lemma find_path_yields o t p :
  good_path p = true -> present o t ->
  wyields o (on_tx (find_path (node_oid t) p)) (child_entry_of <$> nentry t (path_names p))
    (fun _ => True).
Proof.
  intros (Hne & Hp & _)%good_path_names Ht. rewrite Hp at 1. apply on_tx_yields.
  eapply yields_bind; [by apply attempt_runs, get_path_entry_yields|].
  intros o' _ _ _. by apply yields_ret.
Qed.

Lemma nput_nempty p m : nput nempty p m nempty = nempty.
Proof.
  induction p as [|s p IH]; [done|]. cbn [nput]. unfold nsub. simpl. rewrite IH. 
  unfold nreplace. by rewrite decide_True.
Qed.

Lemma nentry_present o t p c : present o t -> nentry t p = Some c -> present o (child_node c).
Proof.
  revert t. induction p as [|s p IH]; intros t Ht; [done|]. simpl.
  destruct t as [|cs]; [done|]. simpl. destruct (nfind s cs) as [d|] eqn:E; [|done].
  apply nfind_Some in E as [Hd _]. pose proof (present_children o cs d Ht Hd) as Hpd. simpl.
  destruct p as [|s' p]; [by intros [= <-]|]. case_match; [by apply IH|done].
Qed.

(** Inserting at a path of the empty tree. *)
Lemma put_yields o p id mz m x :
  good_path p = true -> present o x -> stands_for id x ->
  x = nempty \/ mode_try_from mz = Some m ->
  wyields o (put empty_id p id mz) (node_oid (nput nempty (path_names p) m x))
    (fun o' => present o' (nput nempty (path_names p) m x)).
Proof.
  intros (Hne & Hp & Hv & _)%good_path_names Hx Hs Hm. unfold put, insert_path.
  apply on_tx_yields, yields_start. intros o' Hok He. rewrite Hp at 1 2.
  change empty_id with (node_oid nempty). apply insert_yields; try done.
  - rewrite length_fmap. lia.
  - by apply present_nempty.
  - apply wf_uniq, wf_nempty.
  - by eapply present_extends.
Qed.

(** * Application *)

(** With the budget [h], applying [f] to the tree [t] returns its meaning. *)
Definition applies (f : filter) (t : node) (h : nat) : Prop :=
  forall n o x, size f <= n -> Rewrite.tree_id x = node_oid t -> present o t ->
  wyields o (apply_impl h n f x) (Rewrite.with_tree (node_oid (fwd f t)) x)
    (fun o' => present o' (fwd f t)).

Lemma with_tree_id x : Rewrite.with_tree (Rewrite.tree_id x) x = x.
Proof. by destruct x. Qed.

(** A step whose tree is computed. *)
Lemma with_result_yields o (m : wm oid) x r :
  wyields o m (node_oid r) (fun o' => present o' r) ->
  wyields o (t ← m; mret (Rewrite.with_tree t x)) (Rewrite.with_tree (node_oid r) x)
    (fun o' => present o' r).
Proof.
  intros Hm. eapply wyields_bind; [exact Hm|]. intros o' _ _ Hr. apply wyields_ret.
  intros o'' _ He. by eapply present_extends.
Qed.

(** The tree an application returns. *)
Lemma tree_of_yields h n f t o x :
  applies f t h -> size f <= n -> Rewrite.tree_id x = node_oid t -> present o t ->
  wyields o (x ← apply_impl h n f x; mret (Rewrite.tree_id x)) (node_oid (fwd f t))
    (fun o' => present o' (fwd f t)).
Proof.
  intros Ha Hn Hx Ht. eapply wyields_bind; [by apply Ha|]. intros o' _ _ Hr. apply wyields_ret.
  intros o'' _ He. by eapply present_extends.
Qed.

Lemma apply_nop o x t (Q : odb -> Prop) :
  Rewrite.tree_id x = node_oid t -> (forall o', odb_extends o o' -> Q o') ->
  wyields o (mret x) (Rewrite.with_tree (node_oid t) x) Q.
Proof. intros <- HQ. rewrite with_tree_id. apply wyields_ret. auto. Qed.

Lemma applies_subdir p t h : good_path p = true -> applies (Op.Subdir p) t h.
Proof.
  intros Hp [|n] o x Hn Hx Ht; [simpl in Hn; lia|]. cbn [apply_impl peel_filter]. rewrite Hx.
  eapply wyields_bind; [by apply find_path_yields|]. intros o' Hok He _.
  unfold fwd. simpl. unfold nsubdir.
  assert (present o' t) as Ht' by (by eapply present_extends).
  destruct (nentry t (path_names p)) as [c|] eqn:E; simpl; unfold child_entry_of.
  - cbn [mode entry_oid]. case_match; apply wyields_ret; intros o'' Hok' He'; [|by apply present_nempty].
    eapply present_extends; [exact He'|]. by eapply nentry_present.
  - apply wyields_ret. intros. by apply present_nempty.
Qed.

Lemma applies_prefix p t h : good_path p = true -> applies (Op.Prefix p) t h.
Proof.
  intros Hp [|n] o x Hn Hx Ht; [simpl in Hn; lia|]. cbn [apply_impl peel_filter]. rewrite Hx.
  apply with_result_yields. apply put_yields; [done|done|by left|].
  right. apply mode_try_from_tree.
Qed.

Lemma applies_file d s t h : good_path d && good_path s = true -> value t -> applies (Op.File d s) t h.
Proof.
  intros [Hd Hs]%andb_true_iff [_ Hw] [|n] o x Hn Hx Ht; [simpl in Hn; lia|].
  cbn [apply_impl peel_filter]. unfold file_entry. rewrite Hx.
  eapply wyields_bind.
  { eapply wyields_bind; [by apply find_path_yields|]. intros o' _ _ _. by apply wyields_ret. }
  intros o' Hok He _. apply with_result_yields.
  assert (present o' t) as Ht' by (by eapply present_extends).
  unfold fwd. simpl. unfold nfile.
  destruct (nentry t (path_names s)) as [c|] eqn:E; simpl.
  - apply put_yields; [done|by eapply nentry_present|by left|right].
    by destruct (every_nentry _ _ _ _ Hw E) as [[_ ?] _].
  - assert (stands_for zero_oid nempty) as Hz by (by right).
    pose proof (put_yields o' d zero_oid blob_bits blob_mode nempty Hd (present_nempty o' Hok) Hz
      (or_introl eq_refl)) as Hput. rewrite nput_nempty in Hput. exact Hput.
Qed.

Lemma applies_pattern glob t :
  known glob = true -> value t -> ample (applies (Op.Pattern glob) t).
Proof.
  intros Hk Hv. pose proof (value_utf8 t Hv) as Hu. destruct Hv as [[Hw Hn] _].
  apply (ample_impl _ _ (ample_ge (height t))). intros h Hh.
  intros [|n] o x Hs Hx Ht; [simpl in Hs; lia|]. cbn [apply_impl peel_filter]. rewrite Hx.
  destruct (known_ok glob Hk) as (cp & key & Hcp & Hid & Hkey).
  assert (forall r, wyields o (apply_pattern h (Op.Pattern glob) glob (node_oid t)) (node_oid r)
    (fun o' => present o' r) -> r = fwd (Op.Pattern glob) t ->
    wyields o (t0 ← apply_pattern h (Op.Pattern glob) glob (node_oid t);
      mret (if decide (t0 = node_oid t) then x else Rewrite.with_tree t0 x))
      (Rewrite.with_tree (node_oid r) x) (fun o' => present o' r)) as Hfin.
  { intros r Hr _. eapply wyields_bind; [exact Hr|]. intros o' _ _ Hp.
    case_decide as Hd; [|apply wyields_ret; intros; by eapply present_extends].
    rewrite Hd. apply apply_nop; [done|]. intros; by eapply present_extends. }
  apply Hfin; [|done]. unfold apply_pattern. cbn [peel_filter].
  assert (forall A (r : res A) a (k : A -> wm oid) b Q, r = Ok a -> wyields o (k a) b Q ->
    wyields o (lift r ≫= k) b Q) as Hlift by (by intros A ? a k b Q -> Hr).
  eapply Hlift; [exact Hid|]. eapply Hlift; [exact Hcp|]. unfold fwd. simpl.
  assert (good o t) as Hg by (by split).
  assert (forall p, pattern_keep glob p = if fallback cp then fallback_pred cp (path_text EmptyString p) true
    else walk cp initial_state (name_chars <$> p)) as Hkeep
    by (intros p; unfold pattern_keep; by rewrite Hcp).
  destruct (fallback cp) eqn:Ef; apply on_tx_yields.
  - rewrite (nfilter_ext _ (fun p => fallback_pred cp (path_text EmptyString p) true)) by auto.
    by apply remove_pred_yields.
  - rewrite (nfilter_ext _ (fun p => walk cp initial_state (name_chars <$> p))) by auto.
    by apply remove_pattern_yields.
Qed.

(** ** Filters made of filters *)

(** Every filter of at most [k] nodes is applied according to its meaning. *)
Definition applied_to (k : nat) : Prop :=
  forall f t, size f <= k -> tree_filter f = true -> value t -> ample (applies f t).

Lemma applies_chain k l t :
  applied_to k -> (forall f, f ∈ l -> size f <= k /\ tree_filter f = true) -> value t ->
  ample (fun h => forall n o x, (forall f, f ∈ l -> size f <= n) ->
    Rewrite.tree_id x = node_oid t -> present o t ->
    wyields o (foldM (fun x g => apply_impl h n g x) x l)
      (Rewrite.with_tree (node_oid (through (sem <$> l) t)) x)
      (fun o' => present o' (through (sem <$> l) t))).
Proof.
  intros Hk. revert t. induction l as [|f l IH]; intros t Hl Ht.
  { apply ample_always. intros h n o x _ Hx Hp. apply apply_nop; [done|].
    intros; by eapply present_extends. }
  destruct (Hl f) as [Hs Hf]; [left|].
  eapply ample_and; [by apply (Hk f t)|apply (IH (fwd f t))|].
  { intros g Hg. apply Hl. by right. }
  { by apply value_fwd. }
  intros h A1 A2 n o x Hn Hx Hp. simpl. eapply wyields_bind.
  { apply A1; [apply Hn; left|done|done]. }
  intros o' _ _ Hp'. apply (A2 n o' (Rewrite.with_tree (node_oid (fwd f t)) x)); [|done|done]. intros g Hg. apply Hn. by right.
Qed.

Lemma applies_branches k l t :
  applied_to k -> (forall f, f ∈ l -> size f <= k /\ tree_filter f = true) -> value t ->
  ample (fun h => forall n o x, (forall f, f ∈ l -> size f <= n) ->
    Rewrite.tree_id x = node_oid t -> present o t ->
    wyields o (mapM (fun g => x ← apply_impl h n g x; mret (Rewrite.tree_id x)) l)
      ((fun f => node_oid (fwd f t)) <$> l)
      (fun o' => Forall (fun f => present o' (fwd f t)) l)).
Proof.
  intros Hk Hl Ht. induction l as [|f l IH].
  { apply ample_always. intros h n o x _ _ _. apply wyields_ret. by constructor. }
  destruct (Hl f) as [Hs Hf]; [left|].
  eapply ample_and; [by apply (Hk f t)|apply IH|].
  { intros g Hg. apply Hl. by right. }
  intros h A1 A2 n o x Hn Hx Hp. rewrite fmap_cons. cbn [mapM]. eapply wyields_bind.
  { apply tree_of_yields; [done|apply Hn; left|done|done]. }
  intros o1 _ He1 Hp1. eapply wyields_bind.
  { apply A2; [|done|by eapply present_extends]. intros g Hg. apply Hn. by right. }
  intros o2 _ He2 Hp2. apply wyields_ret. intros o3 _ He3. constructor.
  - eapply present_extends; [|exact Hp1]. by eapply odb_extends_trans.
  - eapply Forall_impl; [exact Hp2|]. intros g Hg. by eapply present_extends.
Qed.

Lemma insert_apply_ok recs w f t :
  w_ok recs w -> value t -> present (w_odb w) t -> present (w_odb w) (fwd f t) ->
  w_ok recs (insert_apply f (node_oid t) (node_oid (fwd f t)) w).
Proof.
  intros [Hc Ht Ha Hu] Hv Hp Hr. split; try done. constructor; [|done]. intros _. by exists t.
Qed.

Lemma insert_unapply_ok recs w f t :
  w_ok recs w -> value t -> present (w_odb w) t -> present (w_odb w) (bwd f t) ->
  w_ok recs (insert_unapply f (node_oid t) (node_oid (bwd f t)) w).
Proof.
  intros [Hc Ht Ha Hu] Hv Hp Hr. split; try done. constructor; [|done]. intros _. by exists t.
Qed.

(** Filters with their inverse, and the inverse of that. *)
Lemma twice_inverted f g f' :
  tree_filter f = true -> inverse f = Ok g -> inverse g = Ok f' ->
  inverse_of known f g /\ inverse_of known g f' /\ (forall t, fwd f' t = fwd f t) /\
  (forall t, bwd f' t = bwd f t) /\ (forall t, fwd g t = bwd f t).
Proof.
  intros Hf Hg Hf'. pose proof (inverse_sem known f g Hf Hg) as I1.
  pose proof (inverse_sem known g f' (inverse_filter _ _ _ I1) Hf') as I2.
  pose proof (inverse_meaning _ _ _ I1) as M1. pose proof (inverse_meaning _ _ _ I2) as M2.
  split; [done|]. split; [done|]. unfold fwd, bwd.
  split; [|split]; intros t; specialize (M1 t) as [E1 E2]; specialize (M2 t) as [E3 E4];
    simpl in *; congruence.
Qed.

(** Applying through the memo tables of the transaction. *)
Lemma memo_apply_yields h n f t o :
  applies f t h -> size f <= n -> tree_filter f = true -> value t -> present o t ->
  forall C (k : oid -> wm C) b Q,
  (forall o', odb_extends o o' -> present o' (fwd f t) -> wyields o' (k (node_oid (fwd f t))) b Q) ->
  wyields o
    (cached ← gets (get_apply f (node_oid t));
     taken_applied ← match cached with
                     | Some id => mret id
                     | None => apply_tree (apply_impl h n) f (node_oid t)
                     end;
     modify (insert_apply f (node_oid t) taken_applied) ≫= fun _ => k taken_applied) b Q.
Proof.
  intros Ha Hn Hk Hv Hp C k b Q Hrest. apply wyields_gets. intros recs w Hw He.
  assert (present (w_odb w) t) as Hp' by (by eapply present_extends).
  eapply wyields_bind with (a := node_oid (fwd f t)) (Q := fun o' => present o' (fwd f t)).
  { destruct (get_apply f (node_oid t) w) as [id|] eqn:E.
    - eapply keyed_get_ok in E as [-> Hr]; [|apply Hw|done|done].
      apply wyields_ret. intros. by eapply present_extends.
    - by apply tree_of_yields. }
  intros o1 _ He1 Hr. apply wyields_modify.
  - intros recs' w' Hw' He'. split; [|done].
    apply insert_apply_ok; [done|done|..]; (eapply present_extends; [exact He'|]); [|done].
    by eapply present_extends.
  - apply Hrest; [|done]. by eapply odb_extends_trans.
Qed.

Lemma memo_unapply_yields h n f g t o :
  applies g t h -> size g <= n -> size f <= h -> inverse f = Ok g -> (forall t, fwd g t = bwd f t) ->
  tree_filter f = true -> value t -> present o t ->
  forall C (k : oid -> wm C) b Q,
  (forall o', odb_extends o o' -> present o' (bwd f t) -> wyields o' (k (node_oid (bwd f t))) b Q) ->
  wyields o
    (cached ← gets (get_unapply f (node_oid t));
     unapplied ← match cached with
                 | Some id => mret id
                 | None => g ← Apply.invert h f; apply_tree (apply_impl h n) g (node_oid t)
                 end;
     modify (insert_unapply f (node_oid t) unapplied) ≫= fun _ => k unapplied) b Q.
Proof.
  intros Ha Hn Hh Hg Hm Hk Hv Hp C k b Q Hrest. apply wyields_gets. intros recs w Hw He.
  assert (present (w_odb w) t) as Hp' by (by eapply present_extends).
  eapply wyields_bind with (a := node_oid (bwd f t)) (Q := fun o' => present o' (bwd f t)).
  { destruct (get_unapply f (node_oid t) w) as [id|] eqn:E.
    - eapply keyed_get_ok in E as [-> Hr]; [|apply Hw|done|done].
      apply wyields_ret. intros. by eapply present_extends.
    - eapply wyields_bind; [by apply invert_yields|]. intros o1 _ He1 _. rewrite <- Hm.
      apply tree_of_yields; [done|done|done|by eapply present_extends]. }
  intros o1 _ He1 Hr. apply wyields_modify.
  - intros recs' w' Hw' He'. split; [|done].
    apply insert_unapply_ok; [done|done|..]; (eapply present_extends; [exact He'|]); [|done].
    by eapply present_extends.
  - apply Hrest; [|done]. by eapply odb_extends_trans.
Qed.

(** One branch of a composition. *)
Lemma compose_step_yields k f t acc :
  applied_to k -> size f <= k -> tree_filter f = true -> is_ok (inverse f) = true ->
  value t -> value acc.1 -> value acc.2 ->
  let acc' := ncompose_step t acc (sem f) in
  ample (fun h => forall n o, size f <= n ->
    present o (fwd f t) -> present o acc.1 -> present o acc.2 ->
    wyields o (compose_step h (apply_impl h n) (node_oid acc.1, node_oid acc.2) (f, node_oid (fwd f t)))
      (node_oid acc'.1, node_oid acc'.2) (fun o' => present o' acc'.1 /\ present o' acc'.2)).
Proof.
  intros Hk Hs Hf Hi Vt Vr Vk. destruct acc as [r tk]. simpl in *.
  destruct (inverse f) as [g| |] eqn:Hg; try done.
  destruct (inverse_invertible _ _ _ (inverse_sem known f g Hf Hg)) as [f' Hf'].
  destruct (twice_inverted f g f' Hf Hg Hf') as ([Kg _ Sg _] & [Kf' [g' Hg'] Sf' _] & Ef & Eb & Eg).
  destruct (twice_inverted g f' g' Kg Hf' Hg') as (_ & [Kg' _ Sg' _] & _ & _ & _).
  destruct (inverse_sem known f' g' Kf' Hg') as [_ _ _ Mg'].
  assert (forall u, fwd g' u = bwd f' u) as Eg' by (intros u; apply Mg').
  set (a := fwd f t). assert (value a) as Va by (by apply value_fwd).
  assert (value (fwd f tk)) as Vft by (by apply value_fwd).
  assert (value (bwd f a)) as Vba by (by apply value_bwd).
  set (sub := nsubtract a (fwd f tk)). assert (value sub) as Vs by (by apply value_nsubtract).
  eapply ample_and; [apply (Hk f' tk); [lia|done|done]|apply (ample_and (applies g' a)
    (fun h => size f + height a + height tk + height sub <= h)); [apply Hk; [lia|done|done]|
    apply ample_ge|intros h X Y; exact (conj X Y)]|].
  intros h A1 [A2 Hh] n o Hn Pa Pr Pt. unfold compose_step.
  eapply wyields_bind; [apply invert_yields; [lia|exact Hg]|]. intros o1 _ He1 _.
  eapply wyields_bind; [apply invert_yields; [lia|exact Hf']|]. intros o2 _ He2 _.
  assert (odb_extends o o2) as E2 by (by eapply odb_extends_trans).
  apply memo_apply_yields; [done|lia|done|done|by eapply present_extends|].
  intros o3 He3 P3. rewrite Ef in *. assert (odb_extends o o3) as E3 by (by eapply odb_extends_trans).
  eapply wyields_bind.
  { apply on_tx_yields, subtract_yields; [lia|..]; apply value_good; try done.
    by eapply present_extends. }
  intros o4 _ He4 P4. assert (odb_extends o o4) as E4 by (by eapply odb_extends_trans).
  apply (memo_unapply_yields h n f' g'); [done|lia|lia|done|done|done|done|by eapply present_extends|].
  intros o5 He5 P5. rewrite Eb in *. assert (odb_extends o o5) as E5 by (by eapply odb_extends_trans).
  eapply wyields_bind.
  { apply on_tx_yields, overlay_yields; [lia|..]; apply value_good; try done.
    by eapply present_extends. }
  intros o6 _ He6 P6. eapply wyields_bind.
  { apply on_tx_yields, overlay_yields; [|apply value_good; [exact Vs|]|apply value_good; [exact Vr|]].
    - fold sub. lia.
    - eapply present_extends; [|exact P4]. by eapply odb_extends_trans.
    - eapply present_extends; [|exact Pr]. by eapply odb_extends_trans. }
  intros o7 _ He7 P7. apply wyields_ret. intros o8 _ He8. split; [by eapply present_extends|].
  eapply present_extends; [|exact P6]. by eapply odb_extends_trans.
Qed.

Lemma compose_loop_yields k l t acc :
  applied_to k ->
  (forall f, f ∈ l -> size f <= k /\ tree_filter f = true /\ is_ok (inverse f) = true) ->
  value t -> value acc.1 -> value acc.2 ->
  let acc' := foldl (ncompose_step t) acc (sem <$> l) in
  ample (fun h => forall n o, (forall f, f ∈ l -> size f <= n) ->
    Forall (fun f => present o (fwd f t)) l -> present o acc.1 -> present o acc.2 ->
    wyields o (foldM (compose_step h (apply_impl h n)) (node_oid acc.1, node_oid acc.2)
        (zip l ((fun f => node_oid (fwd f t)) <$> l)))
      (node_oid acc'.1, node_oid acc'.2) (fun o' => present o' acc'.1)).
Proof.
  intros Hk Hl Vt. revert acc. induction l as [|f l IH]; intros acc V1 V2.
  { apply ample_always. intros h n o _ _ P1 _. apply wyields_ret.
    intros; by eapply present_extends. }
  destruct (Hl f) as (Hs & Hf & Hi); [left|].
  assert (value (ncompose_step t acc (sem f)).1 /\ value (ncompose_step t acc (sem f)).2) as [W1 W2].
  { unfold ncompose_step. simpl. pose proof (value_fwd f t Hf Vt). pose proof (value_fwd f _ Hf V2).
    split; apply value_noverlay; auto using value_nsubtract. by apply value_bwd. }
  eapply ample_and; [by apply (compose_step_yields k f t acc)| |].
  { apply (IH (fun f Hf => Hl f (list_elem_of_further _ _ _ Hf)) (ncompose_step t acc (sem f)) W1 W2). }
  intros h A1 A2 n o Hn Pl P1 P2. apply Forall_cons in Pl as [Pf Pl].
  rewrite !fmap_cons. cbn [zip zip_with foldM]. eapply wyields_bind.
  { apply A1; [apply Hn; left|done..]. }
  intros o' _ He [P1' P2']. apply A2; [|..|done|done].
  - intros g Hg. apply Hn. by right.
  - eapply Forall_impl; [exact Pl|]. intros g Hg. by eapply present_extends.
Qed.

Lemma elem_forallb {A} (p : A -> bool) l x : forallb p l = true -> x ∈ l -> p x = true.
Proof. rewrite Forall_forallb, Forall_forall. auto. Qed.

Lemma applies_compose k l t :
  applied_to k -> size (Op.Compose l) <= S k -> tree_filter (Op.Compose l) = true -> value t ->
  ample (applies (Op.Compose l) t).
Proof.
  intros Hk Hs Hf Vt.
  assert (forall f, f ∈ l -> size f <= k /\ tree_filter f = true /\ is_ok (inverse f) = true) as Hl.
  { intros f Hin. simpl in Hf. pose proof (elem_forallb _ _ _ Hf Hin) as E.
    apply andb_true_iff in E as [E1 E2]. pose proof (size_child f (Op.Compose l) Hin).
    repeat split; [lia|done|done]. }
  eapply ample_and; [apply (applies_branches k l t Hk); [|done]|
    apply (compose_loop_yields k l t (nempty, nempty) Hk Hl Vt value_nempty value_nempty)|].
  { intros f Hin. by destruct (Hl f Hin) as (? & ? & _). }
  intros h A1 A2 [|n] o x Hn Hx Pt; [simpl in Hn; lia|]. cbn [apply_impl peel_filter].
  assert (forall f, f ∈ l -> size f <= n) as Hn'.
  { intros f Hin. pose proof (size_child f (Op.Compose l) Hin). lia. }
  eapply wyields_bind; [by apply A1|]. intros o1 Hok1 He1 P1.
  apply with_result_yields. unfold tree_compose. eapply wyields_bind.
  { change empty_id with (node_oid nempty). apply A2; [done|done|by apply present_nempty..]. }
  intros o2 _ He2 P2. apply wyields_ret. intros. by eapply present_extends.
Qed.

Lemma applies_chain_filter k l t :
  applied_to k -> size (Op.Chain l) <= S k -> tree_filter (Op.Chain l) = true -> value t ->
  ample (applies (Op.Chain l) t).
Proof.
  intros Hk Hs Hf Vt. eapply ample_impl; [apply (applies_chain k l t Hk); [|done]|].
  { intros f Hin. pose proof (size_child f (Op.Chain l) Hin). split; [lia|].
    by apply (elem_forallb _ _ _ Hf). }
  intros h A [|n] o x Hn Hx Pt; [simpl in Hn; lia|]. apply A; [|done|done].
  intros f Hin. pose proof (size_child f (Op.Chain l) Hin). lia.
Qed.

(** [Exclude] and [Select]: an operation on the tree and what a filter makes of it. *)
Lemma applies_part k f t (op : node -> node -> node) (run : nat -> oid -> oid -> txm oid) o' :
  (forall n o a b, height a <= n -> good o a -> good o b ->
     yields o (run n (node_oid a) (node_oid b)) (node_oid (op a b)) (fun o' => present o' (op a b))) ->
  fwd o' t = op t (fwd f t) ->
  (forall h n x, apply_impl h (S n) o' x =
     (bf ← (x ← apply_impl h n f x; mret (Rewrite.tree_id x));
      r ← on_tx (run h (Rewrite.tree_id x) bf); mret (Rewrite.with_tree r x))) ->
  size o' = S (size f) ->
  applied_to k -> size f <= k -> tree_filter f = true -> value t -> ample (applies o' t).
Proof.
  intros Hrun Ho Ha So Hk Hs Hf Vt.
  eapply ample_and; [by apply (Hk f t)|apply (ample_ge (height t))|].
  intros h A Hh [|n] o x Hn Hx Pt; [lia|]. rewrite Ha, Ho.
  eapply wyields_bind; [apply tree_of_yields; [exact A|lia|done|done]|].
  intros o1 _ He1 P1. rewrite Hx. apply with_result_yields, on_tx_yields, Hrun; [done|..].
  - apply value_good; [done|by eapply present_extends].
  - apply value_good; [by apply value_fwd|done].
Qed.

Lemma applies_subtract k a b t :
  applied_to k -> size a <= k -> size b <= k -> tree_filter (Op.Subtract a b) = true -> value t ->
  ample (applies (Op.Subtract a b) t).
Proof.
  intros Hk Sa Sb Hf Vt. simpl in Hf. rewrite !andb_true_iff in Hf. destruct Hf as [[Ka Kb] Hi].
  destruct (inverse b) as [g| |] eqn:Hg; try done.
  destruct (inverse_sem known b g Kb Hg) as [Kg _ Sg Mg].
  assert (forall u, fwd g u = bwd b u) as Eg by (intros u; apply Mg).
  assert (value (fwd b t)) as Vb by (by apply value_fwd).
  assert (value (bwd b (fwd b t))) as Vbb by (by apply value_bwd).
  eapply ample_and; [apply (ample_and _ _ _ (Hk a t Sa Ka Vt) (Hk b t Sb Kb Vt)
      (fun h X Y => conj X Y))|
    apply (ample_and (applies g (fwd b t)) (fun h => applies a (bwd b (fwd b t)) h /\
      size b + height (fwd a t) <= h)); [apply Hk; [lia|done|done]|
      apply (ample_and _ _ _ (Hk a _ Sa Ka Vbb) (ample_ge _) (fun h X Y => conj X Y))|
      intros h X Y; exact (conj X Y)]|].
  intros h [Aa Ab] (Ag & Aa' & Hh) [|n] o x Hn Hx Pt; [simpl in Hn; lia|]. simpl in Hn.
  cbn [apply_impl peel_filter].
  eapply wyields_bind; [apply tree_of_yields; [exact Aa|lia|done|done]|]. intros o1 _ He1 P1.
  eapply wyields_bind; [apply Ab; [lia|done|by eapply present_extends]|]. intros o2 _ He2 P2.
  eapply wyields_bind; [apply invert_yields; [lia|exact Hg]|]. intros o3 _ He3 _.
  eapply wyields_bind; [apply Ag; [lia|done|by eapply present_extends]|]. intros o4 _ He4 P4.
  rewrite Eg in P4 |- *.
  eapply wyields_bind; [apply tree_of_yields; [exact Aa'|lia|done|done]|]. intros o5 _ He5 P5.
  apply with_result_yields, on_tx_yields, subtract_yields; [lia|..]; apply value_good; try done.
  - by apply value_fwd.
  - eapply present_extends; [|exact P1]. eauto using odb_extends_trans.
  - by apply value_fwd.
Qed.

(** A filter is applied according to its meaning. *)
Lemma apply_means k : applied_to k.
Proof.
  induction k as [|k IH]; intros f t Hs Hf Vt; [pose proof (size_pos f); lia|].
  assert (forall f' u, fwd f' u = u ->
    (forall h n x, apply_impl h (S n) f' x = mret x) -> ample (applies f' u)) as Hnop.
  { intros f' u E Ha. apply ample_always. intros h [|n] o x Hn Hx Pt.
    - pose proof (size_pos f'). lia.
    - rewrite Ha, E. apply apply_nop; [done|]. intros; by eapply present_extends. }
  destruct f; simpl in Hf; try done; try (by apply Hnop).
  - eapply ample_impl; [apply (IH f t); [simpl in Hs; lia|done|done]|].
    intros h A [|n] o x Hn Hx Pt; [simpl in Hn; lia|]. apply (A (S n)); [simpl in Hn; lia|done|done].
  - apply ample_always. intros h [|n] o x Hn Hx Pt; [simpl in Hn; lia|].
    apply wyields_ret. intros; by apply present_nempty.
  - destruct ids; [done|]. by apply Hnop.
  - apply ample_always. intros h. by apply applies_file.
  - apply ample_always. intros h. by apply applies_prefix.
  - apply ample_always. intros h. by apply applies_subdir.
  - by apply applies_pattern.
  - by apply (applies_compose k).
  - by apply (applies_chain_filter k).
  - simpl in Hs. apply (applies_subtract k); [done|lia|lia|done|done].
  - simpl in Hs. eapply (applies_part k f t nsubtract subtract); try done; [apply subtract_yields|lia].
  - simpl in Hs. eapply (applies_part k f t nintersect intersect); try done; [apply intersect_yields|lia].
Qed.

(** * The reverse *)

(** What a change of the filtered tree to [t] makes of the tree [p]. *)
Definition nunapply (f : filter) (t p : node) : node :=
  noverlay (bwd f t) (nsubtract p (bwd f (fwd f p))).

Lemma unapply_means f t p :
  tree_filter f = true -> is_ok (inverse f) = true -> value t -> value p ->
  ample (fun h => forall n m o commits, size f <= n -> present o t -> present o p ->
    wyields o (unapply h (apply_impl h n) (S m) f (node_oid t) (node_oid p) commits)
      (node_oid (nunapply f t p)) (fun o' => present o' (nunapply f t p))).
Proof.
  intros Kf Hi Vt Vp. destruct (inverse f) as [g| |] eqn:Hg; try done.
  destruct (inverse_invertible _ _ _ (inverse_sem known f g Kf Hg)) as [f' Hf'].
  destruct (twice_inverted f g f' Kf Hg Hf') as ([Kg _ Sg _] & [Kf' _ Sf' _] & Ef & Eb & Eg).
  assert (value (fwd f p)) as Vf by (by apply value_fwd).
  assert (value (bwd f (fwd f p))) as Vbf by (by apply value_bwd).
  assert (value (bwd f t)) as Vb by (by apply value_bwd).
  eapply ample_and; [apply (ample_and _ _ _ (apply_means _ f' p (le_n _) Kf' Vp)
      (apply_means _ g (fwd f p) (le_n _) Kg Vf) (fun h X Y => conj X Y))|
    apply (ample_and _ _ _ (apply_means _ g t (le_n _) Kg Vt)
      (ample_ge (size f + height p + height (bwd f t))) (fun h X Y => conj X Y))|].
  intros h [A1 A2] [A3 Hh] n m o commits Hn Pt Pp. cbn [unapply].
  eapply wyields_bind; [intros recs; apply attempt_runs, invert_yields; [lia|exact Hg]|]. intros o1 _ E1 _.
  eapply wyields_bind; [apply invert_yields; [lia|exact Hf']|]. intros o2 _ E2 _.
  assert (odb_extends o o2) as F2 by (by eapply odb_extends_trans).
  eapply wyields_bind; [apply A1; [lia|done|by eapply present_extends]|]. intros o3 _ E3 P3.
  rewrite Ef in P3 |- *.
  eapply wyields_bind; [apply A2; [lia|done|done]|]. intros o4 _ E4 P4. rewrite Eg in P4 |- *.
  assert (odb_extends o o4) as F4 by (eauto using odb_extends_trans).
  eapply wyields_bind.
  { apply on_tx_yields, subtract_yields; [lia|..]; apply value_good; try done.
    by eapply present_extends. }
  intros o5 _ E5 P5. assert (odb_extends o o5) as F5 by (eauto using odb_extends_trans).
  eapply wyields_bind.
  { apply tree_of_yields; [exact A3|lia|done|by eapply present_extends]. }
  intros o6 _ E6 P6. rewrite Eg in P6 |- *.
  apply on_tx_yields, overlay_yields; [lia|..]; apply value_good; try done.
  - by apply value_nsubtract.
  - by eapply present_extends.
Qed.
End ApplyFacts.
