(* ===== verification/Relocate.v ===== *)
(** Filters that move files: most filters assign every path of a tree at most one path of
    the filtered tree, and back.  For these the meaning of Denote is what these two partial
    functions do to the files of a tree. *)

From S2P Require Import Prelude Path OptState Invert Objects Store Utf8 Glob Pattern.
From S2P Require Import TreeOps TreePaths TreeWalk Node NodeFacts Refine FileMap NodeFilter.
From S2P Require Import NodePut NodeKeys Apply Denote Ops.

Abbreviation names_path := (list string).

(** * Routes *)

(** Where the file at a path goes, and where the file at a path comes from; the argument
    tells a submodule from other files, which patterns leave out.  All paths that move are
    below [start], and move to paths below [stop]. *)
Record route := Route {
  go : bool -> names_path -> option names_path;
  come : bool -> names_path -> option names_path;
  start : names_path;
  stop : names_path;
}.

Definition back (r : route) : route := Route (come r) (go r) (stop r) (start r).

Definition stay : route := Route (fun _ => Some) (fun _ => Some) [] [].
Definition lost : route := Route (fun _ _ => None) (fun _ _ => None) [] [].

Definition into_dir (a : names_path) (p : names_path) : option names_path :=
  match p with [] => None | _ => Some (a ++ p) end.
Definition out_of_dir (a : names_path) (p : names_path) : option names_path :=
  match strip a p with Some (s :: q) => Some (s :: q) | _ => None end.
Definition rename_path (d s p : names_path) : option names_path := (fun q => d ++ q) <$> strip s p.

Definition subdir_route (a : names_path) : route :=
  Route (fun _ => out_of_dir a) (fun _ => into_dir a) a [].
Definition file_route (d s : names_path) : route :=
  Route (fun _ => rename_path d s) (fun _ => rename_path s d) s d.

(** The paths of a predicate stay. *)
Definition some_stay (keep : bool -> names_path -> bool) : route :=
  let pick c p := if keep c p then Some p else None in Route pick pick [] [].

Definition seq_route (r r' : route) : route :=
  Route (fun c p => go r c p ≫= go r' c) (fun c q => come r' c q ≫= come r c) (start r) (stop r').
Fixpoint chain_route (l : list route) : route :=
  match l with
  | [] => stay
  | [r] => r
  | r :: l => seq_route r (chain_route l)
  end.

(** The first branch that moves a path. *)
Definition first_some (l : list (option names_path)) : option names_path :=
  foldr (fun x y => match x with Some _ => x | None => y end) None l.
Definition union_route (l : list route) : route :=
  Route (fun c p => first_some ((fun r => go r c p) <$> l))
    (fun c p => first_some ((fun r => come r c p) <$> l)) [] [].

Definition moves (r : route) (c : bool) (p : names_path) : bool := bool_decide (is_Some (go r c p)).

Fixpoint route_of (f : filter) : route :=
  match f with
  | Op.Meta _ f => route_of f
  | Op.Empty => lost
  | Op.Subdir p => subdir_route (path_names p)
  | Op.Prefix p => back (subdir_route (path_names p))
  | Op.File d s => file_route (path_names d) (path_names s)
  | Op.Pattern glob => some_stay (fun c p => negb c && pattern_keep glob p)
  | Op.Exclude f => some_stay (fun c p => negb (moves (route_of f) c p))
  | Op.Select f => some_stay (moves (route_of f))
  | Op.Chain l => chain_route (route_of <$> l)
  | Op.Compose l => union_route (route_of <$> l)
  | _ => stay
  end.

(** * The filters that are routes *)

(** Filters that leave every file they keep where it is. *)
Fixpoint in_place (f : filter) : bool :=
  match f with
  | Op.Nop | Op.Empty | Op.Prune | Op.Pin _ | Op.Squash None | Op.Pattern _
  | Op.Exclude _ | Op.Select _ => true
  | Op.Meta _ f => in_place f
  | Op.File d s => bool_decide (d = s)
  | Op.Chain l =>
      forallb in_place l ||
      match l with [Op.Subdir a; Op.Prefix b] => bool_decide (a = b) | _ => false end
  | Op.Compose l => forallb in_place l
  | _ => false
  end.

Definition comparableb (p q : names_path) : bool :=
  bool_decide (p `prefix_of` q) || bool_decide (q `prefix_of` p).

(** No path of the list is a prefix of another. *)
Fixpoint apart (l : list names_path) : bool :=
  match l with
  | [] => true
  | p :: l => forallb (fun q => negb (comparableb p q)) l && apart l
  end.

Section Fragment.
Context (known : string -> bool).

Fixpoint relocates (f : filter) : bool :=
  match f with
  | Op.Nop | Op.Empty | Op.Prune | Op.Pin _ | Op.Squash None => true
  | Op.Meta _ f => relocates f
  | Op.Subdir p | Op.Prefix p => good_path p
  | Op.File d s => good_path d && good_path s
  | Op.Pattern glob => known glob
  | Op.Exclude f | Op.Select f => relocates f && in_place f
  | Op.Chain l => forallb relocates l
  | Op.Compose l =>
      forallb relocates l && apart (start <$> (route_of <$> l)) && apart (stop <$> (route_of <$> l))
  | _ => false
  end.

(** They are filters of trees, and have an inverse. *)
Lemma collect_inverses l :
  Forall (fun f => tree_filter known f = true /\ is_ok (inverse f) = true) l ->
  is_ok (collect_res (inverse <$> l)) = true.
Proof.
  induction 1 as [|f l [_ Hf] _ IH]; [done|]. rewrite fmap_cons. simpl.
  destruct (inverse f); try done. simpl. by destruct (collect_res _).
Qed.

Lemma relocates_tree_filter f :
  relocates f = true -> tree_filter known f = true /\ is_ok (inverse f) = true.
Proof.
  induction f as [f IH] using filter_ind. intros Hr.
  assert (forall l, Forall (fun f => relocates f = true -> tree_filter known f = true /\
    is_ok (inverse f) = true) l -> forallb relocates l = true ->
    Forall (fun f => tree_filter known f = true /\ is_ok (inverse f) = true) l) as Hlist.
  { intros l Hl Hf. rewrite Forall_forallb in Hf. rewrite Forall_forall in *. auto. }
  destruct f; simpl in Hr, IH; try done.
  all: try (apply Forall_cons in IH as [IH _]; try apply andb_true_iff in Hr as [Hr _];
    destruct (IH Hr) as [H1 H2]; simpl; split; [done|by destruct (inverse f)]).
  - by destruct ids.
  - apply andb_true_iff in Hr as [[Hr _]%andb_true_iff _]. apply (Hlist _ IH) in Hr. simpl. split.
    + apply Forall_forallb. eapply Forall_impl; [done|]. by intros f [-> ->].
    + apply collect_inverses in Hr. by destruct (collect_res _).
  - apply (Hlist _ IH) in Hr. simpl. split.
    + apply Forall_forallb. eapply Forall_impl; [done|]. by intros f [-> _].
    + rewrite rev_fmap. apply List.Forall_rev, collect_inverses in Hr. by destruct (collect_res _).
Qed.
End Fragment.

(** * Routes are partial injections *)

Record good_route (r : route) : Prop := {
  route_back c p q : go r c p = Some q <-> come r c q = Some p;
  route_region c p q : go r c p = Some q -> start r `prefix_of` p /\ stop r `prefix_of` q;
}.

Lemma good_back r : good_route r -> good_route (back r).
Proof.
  intros [Hb Hr]. split; simpl; intros c p q; [by rewrite Hb|].
  rewrite <- Hb. intros Hg%Hr. tauto.
Qed.

Lemma good_stay : good_route stay.
Proof. split; simpl; intros c p q; [naive_solver|]. intros _. split; apply prefix_nil. Qed.

Lemma good_lost : good_route lost.
Proof. by split. Qed.

Lemma strip_app p q r : strip p q = Some r <-> q = p ++ r.
Proof.
  revert q. induction p as [|s p IH]; intros q; simpl; [naive_solver|].
  destruct q as [|s' q]; [done|]. case_decide as Hd; [subst; rewrite IH; naive_solver|].
  split; [done|]. by intros [= -> ->].
Qed.

Lemma out_of_dir_Some a p q : out_of_dir a p = Some q <-> q ≠ [] /\ p = a ++ q.
Proof.
  unfold out_of_dir. destruct (strip a p) as [[|s r]|] eqn:E.
  - apply strip_app in E as ->. split; [done|]. intros [Hq E%app_inv_head]. by subst.
  - apply strip_app in E as ->. split; [by intros [= <-]|]. intros [Hq E%app_inv_head]. by subst.
  - split; [done|]. intros [_ Hp%strip_app]. congruence.
Qed.

Lemma into_dir_Some a p q : into_dir a p = Some q <-> p ≠ [] /\ q = a ++ p.
Proof. destruct p; simpl; naive_solver. Qed.

Lemma good_subdir a : good_route (subdir_route a).
Proof.
  split; simpl; intros _ p q; rewrite out_of_dir_Some; [by rewrite into_dir_Some|].
  intros [_ ->]. split; [by apply prefix_app_r|apply prefix_nil].
Qed.

Lemma rename_path_Some d s p q :
  rename_path d s p = Some q <-> exists r, p = s ++ r /\ q = d ++ r.
Proof.
  unfold rename_path. rewrite fmap_Some. setoid_rewrite strip_app. naive_solver.
Qed.

Lemma good_file d s : good_route (file_route d s).
Proof.
  split; simpl; intros _ p q; rewrite !rename_path_Some; [naive_solver|].
  intros (r & -> & ->). split; by apply prefix_app_r.
Qed.

Lemma some_stay_Some keep c p q : go (some_stay keep) c p = Some q <-> p = q /\ keep c p = true.
Proof. simpl. destruct (keep c p) eqn:E; naive_solver. Qed.

Lemma good_some_stay keep : good_route (some_stay keep).
Proof.
  split; intros c p q; [|intros _; split; apply prefix_nil].
  change (come (some_stay keep) c q) with (go (some_stay keep) c q).
  rewrite !some_stay_Some. naive_solver.
Qed.

Lemma good_seq r r' : good_route r -> good_route r' -> good_route (seq_route r r').
Proof.
  intros [Hb Hr] [Hb' Hr']. split; simpl; intros c p q; rewrite ?bind_Some.
  - split; intros (x & H1 & H2); exists x; [by rewrite <- Hb, <- Hb'|by rewrite Hb, Hb'].
  - intros (x & H1%Hr & H2%Hr'). tauto.
Qed.

Lemma good_chain l : Forall good_route l -> good_route (chain_route l).
Proof.
  induction 1 as [|r l Hr Hl IH]; [apply good_stay|]. destruct l as [|r' l]; [done|].
  by apply good_seq.
Qed.

(** A chain of routes follows them one after the other. *)
Lemma chain_go r l c p : go (chain_route (r :: l)) c p = go r c p ≫= go (chain_route l) c.
Proof. destruct l; [|done]. simpl. by destruct (go r c p). Qed.

Lemma chain_come r l c p : come (chain_route (r :: l)) c p = come (chain_route l) c p ≫= come r c.
Proof. by destruct l. Qed.

Lemma comparableb_iff p q : comparableb p q = true <-> comparable p q.
Proof. unfold comparableb, comparable. by rewrite orb_true_iff, !bool_decide_eq_true. Qed.

(** Two prefixes of comparable paths are comparable. *)
Lemma comparable_prefixes a b p q :
  a `prefix_of` p -> b `prefix_of` q -> comparable p q -> comparable a b.
Proof.
  intros Ha Hb [Hc|Hc].
  - apply prefix_weak_total with q; [by trans p|done].
  - apply prefix_weak_total with p; [done|by trans q].
Qed.

Lemma comparable_refl p : comparable p p.
Proof. by left. Qed.

Lemma apart_cons p l :
  apart (p :: l) = true <-> (forall q, q ∈ l -> ~ comparable p q) /\ apart l = true.
Proof.
  simpl. rewrite andb_true_iff, Forall_forallb, Forall_forall. 
  setoid_rewrite negb_true_iff. setoid_rewrite <- not_true_iff_false.
  by setoid_rewrite comparableb_iff.
Qed.

Lemma apart_app l p l' q : apart (l ++ p :: l') = true -> q ∈ l -> ~ comparable q p.
Proof.
  induction l as [|x l IH]; [by intros _ ?%not_elem_of_nil|].
  cbn [app]. rewrite apart_cons. intros [Hx Ha] [->|Hin]%elem_of_cons; [apply Hx; set_solver|auto].
Qed.

Lemma first_some_Some (l : list (option names_path)) q : first_some l = Some q -> Some q ∈ l.
Proof.
  induction l as [|[x|] l IH]; simpl; [done|intros [= ->]; left|intros Hq; right; auto].
Qed.

(** At most one branch moves a path. *)
Lemma union_go l c p q :
  Forall good_route l -> apart (start <$> l) = true ->
  go (union_route l) c p = Some q <-> exists r, r ∈ l /\ go r c p = Some q.
Proof.
  intros Hl Ha. split.
  - intros (r & E & Hr)%first_some_Some%list_elem_of_fmap. eauto.
  - induction Hl as [|r l Hr Hl IH]; [by intros (? & ?%not_elem_of_nil & _)|].
    rewrite fmap_cons, apart_cons in Ha. destruct Ha as [Hd Ha].
    intros (r' & [->|Hin]%elem_of_cons & Hg); simpl; [by rewrite Hg|].
    destruct (go r c p) as [q'|] eqn:E; [|by apply IH; eauto]. exfalso.
    apply (Hd (start r')); [apply list_elem_of_fmap; eauto|].
    rewrite Forall_forall in Hl. destruct (route_region _ (Hl r' Hin) _ _ _ Hg) as [H1 _].
    destruct (route_region _ Hr _ _ _ E) as [H2 _].
    by apply (comparable_prefixes _ _ p p), comparable_refl.
Qed.

Lemma union_come l c q : come (union_route l) c q = go (union_route (back <$> l)) c q.
Proof. simpl. by rewrite <- list_fmap_compose. Qed.

Lemma good_backs l : Forall good_route l -> Forall good_route (back <$> l).
Proof. intros Hl. apply Forall_fmap. eapply Forall_impl; [done|]. intros r. apply good_back. Qed.

Lemma start_backs (l : list route) : start <$> (back <$> l) = stop <$> l.
Proof. by rewrite <- list_fmap_compose. Qed.

Lemma stop_backs (l : list route) : stop <$> (back <$> l) = start <$> l.
Proof. by rewrite <- list_fmap_compose. Qed.

Lemma good_union l :
  Forall good_route l -> apart (start <$> l) = true -> apart (stop <$> l) = true ->
  good_route (union_route l).
Proof.
  intros Hl Hs Ht. split; [|intros; split; apply prefix_nil]. intros c p q.
  rewrite union_come, !union_go; try done; [|by apply good_backs|by rewrite start_backs].
  setoid_rewrite list_elem_of_fmap. rewrite Forall_forall in Hl. split.
  - intros (r & Hr & Hg). exists (back r). split; [eauto|]. by apply (route_back r (Hl r Hr)).
  - intros (r' & (r & -> & Hr) & Hg). exists r. split; [done|]. by apply (route_back r (Hl r Hr)).
Qed.

(** * Functions on trees that move files *)

(** The files of the result are the files of the tree, moved. *)
Definition carries (g : node -> node) (m : bool -> names_path -> option names_path) : Prop :=
  forall t, tree_value t -> tree_value (g t) /\
    forall q e, leaf_at (g t) q = Some e <->
      exists p, leaf_at t p = Some e /\ m (is_commit e.1) p = Some q.

Lemma leaf_at_root t : tree_value t -> leaf_at t [] = None.
Proof. intros [_ Hn]. by destruct t. Qed.

Lemma carries_ext g m g' m' :
  (forall t, g t = g' t) -> (forall c p, m c p = m' c p) -> carries g m -> carries g' m'.
Proof.
  intros Hg Hm Hc t Ht. destruct (Hc t Ht) as [Hv Hl]. rewrite <- Hg. split; [done|].
  intros q e. rewrite Hl. by setoid_rewrite Hm.
Qed.

Lemma carries_stay : carries (fun t => t) (go stay).
Proof. intros t Ht. split; [done|]. simpl. intros q e. naive_solver. Qed.

Lemma carries_lost : carries (fun _ => nempty) (go lost).
Proof.
  intros t Ht. split; [apply tree_value_nempty|]. intros q e. unfold leaf_at.
  rewrite file_at_nempty. naive_solver.
Qed.

(** The files below an entry. *)
Lemma file_at_nentry m t a q :
  wf_node t -> a ≠ [] ->
  file_at m t (a ++ q) = c ← nentry t a; file_at (child_mode c) (child_node c) q.
Proof.
  revert m t. induction a as [|s a IH]; intros m t Hw Ha; [done|].
  cbn [app nentry]. rewrite file_at_kids. destruct t as [id|cs]; [done|]. simpl.
  destruct (nfind s cs) as [c|] eqn:E; [|done]. simpl. apply nfind_Some in E as [Hc _].
  destruct a as [|s' a]; [done|]. rewrite IH; [|by eapply wf_child|done].
  rewrite (wf_child_kind cs c Hw Hc).
  destruct (child_node c) as [id|l] eqn:Ec; [|done]. by rewrite <- Ec; simpl; rewrite Ec.
Qed.

Lemma carries_subdir a : a ≠ [] -> carries (nsubdir a) (fun _ => out_of_dir a).
Proof.
  intros Ha t Ht. split; [by apply tree_value_nsubdir|]. intros q e. destruct Ht as [Hw Hn].
  setoid_rewrite out_of_dir_Some. transitivity (q ≠ [] /\ leaf_at t (a ++ q) = Some e); [|naive_solver].
  unfold leaf_at at 2. rewrite file_at_nentry by done. unfold nsubdir.
  destruct (nentry t a) as [c|] eqn:E; simpl.
  - destruct (nentry_wf _ _ _ Hw E) as (_ & Hk & _). rewrite Hk.
    destruct (child_node c) as [id|cs]; simpl.
    + unfold leaf_at. rewrite file_at_nempty. destruct q; naive_solver.
    + destruct q; [naive_solver|]. rewrite file_at_root by done. naive_solver.
  - unfold leaf_at. rewrite file_at_nempty. naive_solver.
Qed.

Lemma leaf_at_nput_empty a m x q e :
  a ≠ [] -> leaf_at (nput nempty a m x) q = Some e <-> exists r, q = a ++ r /\ file_at m x r = Some e.
Proof.
  intros Ha. unfold leaf_at. rewrite file_at_nput by done. setoid_rewrite <- strip_app.
  destruct (strip a q) as [r|]; [naive_solver|].
  rewrite file_at_nempty. case_decide; naive_solver.
Qed.

Lemma carries_prefix p :
  good_path p = true -> carries (nprefix (path_names p)) (fun _ => into_dir (path_names p)).
Proof.
  intros Hp t Ht. split; [by apply tree_value_nprefix|]. intros q e.
  destruct (good_path_names p Hp) as (Hne & _). unfold nprefix. rewrite leaf_at_nput_empty by done.
  setoid_rewrite into_dir_Some. split.
  - intros (r & -> & Hr). exists r. split; [done|]. split; [|done]. intros ->.
    by rewrite leaf_at_root in Hr.
  - intros (r & Hr & _ & ->). eauto.
Qed.

Lemma carries_file d s :
  good_path d = true -> good_path s = true ->
  carries (nfile (path_names d) (path_names s)) (fun _ => rename_path (path_names d) (path_names s)).
Proof.
  intros Hd Hs t Ht. split; [by apply tree_value_nfile|]. intros q e.
  destruct (good_path_names d Hd) as (Hnd & _), (good_path_names s Hs) as (Hns & _).
  destruct Ht as [Hw Hn]. setoid_rewrite rename_path_Some.
  transitivity (exists r, q = path_names d ++ r /\ leaf_at t (path_names s ++ r) = Some e); [|naive_solver].
  unfold leaf_at at 2. setoid_rewrite file_at_nentry; [|done|done]. unfold nfile.
  destruct (nentry t (path_names s)) as [c|] eqn:E; simpl;
    [|unfold leaf_at; rewrite file_at_nempty; naive_solver].
  by rewrite leaf_at_nput_empty.
Qed.

Lemma carries_filter keep :
  carries (nfilter keep) (go (some_stay (fun c p => negb c && keep p))).
Proof.
  intros t Ht. split; [by apply tree_value_nfilter|]. intros q e. destruct Ht as [Hw Hn].
  setoid_rewrite some_stay_Some. unfold leaf_at at 1. rewrite nfilter_files by done.
  change (file_at tree_mode t q) with (leaf_at t q). rewrite bind_Some. split.
  - intros (x & Hx & E). destruct (negb _ && _) eqn:Ek; [|done]. injection E as ->. eauto.
  - intros (p & Hp & -> & E). exists e. by rewrite E.
Qed.

Lemma carries_seq g m g' m' :
  carries g m -> carries g' m' ->
  carries (fun t => g' (g t)) (fun c p => m c p ≫= m' c).
Proof.
  intros Hc Hc' t Ht. destruct (Hc t Ht) as [Hv Hl]. destruct (Hc' _ Hv) as [Hv' Hl'].
  split; [done|]. intros q e. rewrite Hl'. setoid_rewrite Hl. setoid_rewrite bind_Some. naive_solver.
Qed.

(** Two files of a tree have incomparable paths. *)
Lemma leaves_apart t p q x y :
  leaf_at t p = Some x -> leaf_at t q = Some y -> comparable p q -> p = q.
Proof.
  assert (forall m m' t p r x y, file_at m t p = Some x -> file_at m' t (p ++ r) = Some y -> r = []) as Hp.
  { clear. intros m m' t p. revert m m' t. induction p as [|s p IH]; intros m m' t r x y; simpl.
    - destruct t; [|done]. by destruct r.
    - destruct t as [|cs]; [done|]. destruct (nfind s cs); [|done]. simpl. apply IH. }
  intros Hx Hy [[r ->]|[r ->]].
  - by rewrite (Hp _ _ _ _ _ _ _ Hx Hy), app_nil_r.
  - by rewrite (Hp _ _ _ _ _ _ _ Hy Hx), app_nil_r.
Qed.

Lemma occupied_leaf n p :
  wf_node n -> occupied n p = true <-> exists q x, leaf_at n q = Some x /\ comparable p q.
Proof. intros Hw. by rewrite <- occupies_iff. Qed.

(** A path of a tree is occupied in a part of the tree only by itself. *)
Lemma occupied_part a b p x :
  wf_node b -> (forall q y, leaf_at b q = Some y -> leaf_at a q = Some y) -> leaf_at a p = Some x ->
  occupied b p = true <-> leaf_at b p = Some x.
Proof.
  intros Hw Hsub Hx. rewrite occupied_leaf by done. split.
  - intros (q & y & Hy & Hc). pose proof (Hsub q y Hy) as Hy'.
    pose proof (leaves_apart _ _ _ _ _ Hx Hy' Hc) as <-. by rewrite Hy, <- Hy', Hx.
  - intros Hb. exists p, x. split; [done|apply comparable_refl].
Qed.

Section Part.
Context (g : node -> node) (m : bool -> names_path -> option names_path).
Context (Hc : carries g m) (Hid : forall c p q, m c p = Some q -> q = p).

Lemma part_of t q e :
  tree_value t -> leaf_at (g t) q = Some e <-> leaf_at t q = Some e /\ is_Some (m (is_commit e.1) q).
Proof.
  intros Ht. destruct (Hc t Ht) as [_ Hl]. rewrite Hl. split.
  - intros (p & Hp & Hm). pose proof (Hid _ _ _ Hm) as ->. eauto.
  - intros [Hq [p Hm]]. pose proof (Hid _ _ _ Hm) as ->. eauto.
Qed.

Lemma part_occupied t q e :
  tree_value t -> leaf_at t q = Some e ->
  occupied (g t) q = bool_decide (is_Some (m (is_commit e.1) q)).
Proof.
  intros Ht Hq. destruct (Hc t Ht) as [[Hw _] _]. apply eq_true_iff_eq.
  rewrite (occupied_part t (g t) q e), part_of, bool_decide_eq_true; [naive_solver|done|done| |done].
  intros p y Hp%part_of; [by destruct Hp|done].
Qed.

Lemma carries_exclude :
  carries (fun t => nsubtract t (g t)) (go (some_stay (fun c p => negb (bool_decide (is_Some (m c p)))))).
Proof.
  intros t Ht. destruct (Hc t Ht) as [Hv _]. split; [by apply tree_value_nsubtract|]. intros q e.
  setoid_rewrite some_stay_Some. unfold leaf_at at 1.
  rewrite nsubtract_files; [|apply Ht|apply Hv|left; apply Ht].
  change (file_at tree_mode t q) with (leaf_at t q). split.
  - destruct (occupied (g t) q) eqn:E; [done|]. intros Hq. exists q. split; [done|]. split; [done|].
    by rewrite <- (part_occupied t q e), E.
  - intros (p & Hp & -> & E). by rewrite (part_occupied t q e), <- (negb_involutive (bool_decide _)), E.
Qed.

Lemma carries_select :
  carries (fun t => nintersect t (g t)) (go (some_stay (fun c p => bool_decide (is_Some (m c p))))).
Proof.
  intros t Ht. destruct (Hc t Ht) as [Hv _]. split; [by apply tree_value_nintersect|]. intros q e.
  setoid_rewrite some_stay_Some. unfold leaf_at at 1.
  rewrite nintersect_files; [|apply Ht|apply Hv].
  change (file_at tree_mode t q) with (leaf_at t q). split.
  - destruct (occupied (g t) q) eqn:E; [|done]. intros Hq. exists q. split; [done|]. split; [done|].
    by rewrite <- (part_occupied t q e), E.
  - intros (p & Hp & -> & E). by rewrite (part_occupied t q e), E.
Qed.
End Part.

(** * Filters as routes *)

(** A meaning follows a route, forwards and backwards. *)
Record follows (s : meaning) (r : route) : Prop := {
  follows_go : carries s.1 (go r);
  follows_come : carries s.2 (come r);
  follows_route : good_route r;
}.

Lemma follows_turned s r : follows s r -> follows (turned s) (back r).
Proof. intros [Hg Hc Hr]. split; [done|done|by apply good_back]. Qed.

Lemma follows_turned_list l rs :
  Forall2 follows l rs -> Forall2 follows (turned <$> l) (back <$> rs).
Proof. intros Hl. apply Forall2_fmap. eapply Forall2_impl; [done|]. apply follows_turned. Qed.

Lemma follows_good l rs : Forall2 follows l rs -> Forall good_route rs.
Proof. induction 1 as [|s r l rs Hr _ IH]; constructor; [by apply Hr|done]. Qed.

Lemma follows_chain l rs :
  Forall2 follows l rs -> follows (through l, through (turned <$> rev l)) (chain_route rs).
Proof.
  intros Hl. split; [..|by eapply good_chain, follows_good]; simpl.
  - induction Hl as [|s r l rs Hr _ IH]; [apply carries_stay|].
    eapply carries_ext; [..|apply (carries_seq _ _ _ _ (follows_go _ _ Hr) IH)]; [done|].
    intros c p. by rewrite chain_go.
  - induction Hl as [|s r l rs Hr _ IH]; [apply carries_stay|].
    eapply carries_ext; [..|apply (carries_seq _ _ _ _ IH (follows_come _ _ Hr))].
    + intros t. simpl. rewrite fmap_app. unfold through. by rewrite foldl_app.
    + intros c p. by rewrite chain_come.
Qed.

(** What holds after some branches of a composition: the result has the files they move, and
    the files taken come from below their starting points. *)
Record composed (t : node) (rs : list route) (acc : node * node) : Prop := {
  composed_values : tree_value acc.1 /\ tree_value acc.2;
  composed_result q e : leaf_at acc.1 q = Some e <->
    exists r p, r ∈ rs /\ leaf_at t p = Some e /\ go r (is_commit e.1) p = Some q;
  composed_taken p e : leaf_at acc.2 p = Some e -> exists r, r ∈ rs /\ start r `prefix_of` p;
}.

Lemma leaf_at_noverlay a b p :
  tree_value a -> tree_value b ->
  leaf_at (noverlay a b) p = if occupied a p then leaf_at a p else leaf_at b p.
Proof. intros [Ha _] [Hb _]. unfold leaf_at. apply noverlay_files; [done|done|by right]. Qed.

Lemma leaf_at_nsubtract a b p :
  tree_value a -> tree_value b ->
  leaf_at (nsubtract a b) p = if occupied b p then None else leaf_at a p.
Proof. intros [Ha Na] [Hb _]. unfold leaf_at. apply nsubtract_files; [done|done|by left]. Qed.

Lemma unoccupied_no_leaf b p :
  tree_value b -> (forall q, leaf_at b q = None) -> occupied b p = false.
Proof.
  intros [Hw _] Hn. apply not_true_iff_false. rewrite occupied_leaf by done.
  intros (q & x & Hx & _). by rewrite Hn in Hx.
Qed.

Lemma composed_step t done_ s r acc :
  tree_value t -> follows s r -> Forall good_route done_ -> composed t done_ acc ->
  (forall r', r' ∈ done_ -> ~ comparable (start r') (start r) /\ ~ comparable (stop r') (stop r)) ->
  composed t (done_ ++ [r]) (ncompose_step t acc s).
Proof.
  intros Ht [Hg Hc Hr] Hd [[V1 V2] Hres Htk] Hap. rewrite Forall_forall in Hd.
  destruct (Hg t Ht) as [Va La]. destruct (Hg _ V2) as [Vf Lf]. destruct (Hc _ Va) as [Vb Lb].
  assert (forall q, occupied (s.1 acc.2) q = false) as Hno.
  { intros q. apply unoccupied_no_leaf; [done|]. intros q'. apply eq_None_not_Some. intros [e He].
    apply Lf in He as (p & Hp & Hm). destruct (Htk p e Hp) as (r' & Hin & Hpre).
    destruct (Hap r' Hin) as [Hcmp _]. apply Hcmp.
    destruct (route_region r Hr _ _ _ Hm) as [Hs _].
    by apply (comparable_prefixes _ _ p p), comparable_refl. }
  set (sub := nsubtract (s.1 t) (s.1 acc.2)).
  assert (tree_value sub) as Vs by (by apply tree_value_nsubtract).
  assert (forall q, leaf_at sub q = leaf_at (s.1 t) q) as Ls.
  { intros q. unfold sub. by rewrite leaf_at_nsubtract, Hno. }
  split; unfold ncompose_step; simpl.
  - split; by apply tree_value_noverlay.
  - intros q e. rewrite leaf_at_noverlay by done. fold sub. split.
    + case_match; [rewrite Ls, La|rewrite Hres]; set_solver.
    + intros (r' & p & [Hin| ->%list_elem_of_singleton]%elem_of_app & Hp & Hm).
      * destruct (occupied sub q) eqn:E; [|apply Hres; eauto]. exfalso.
        apply occupied_leaf in E as (q' & x & Hx & Hcmp); [|apply Vs].
        rewrite Ls in Hx. apply La in Hx as (p' & _ & Hm').
        destruct (Hap r' Hin) as [_ Hst]. apply Hst.
        destruct (route_region r Hr _ _ _ Hm') as [_ H1].
        destruct (route_region r' (Hd r' Hin) _ _ _ Hm) as [_ H2].
        by apply (comparable_prefixes _ _ q q').
      * assert (leaf_at sub q = Some e) as E by (rewrite Ls; apply La; eauto).
        rewrite E. by rewrite (file_occupied tree_mode sub q (mk_is_Some _ _ E)).
  - intros p e. rewrite leaf_at_noverlay by done. case_match.
    + intros (r' & Hin & Hpre)%Htk. exists r'. set_solver.
    + intros (q & _ & Hm)%Lb. exists r. split; [set_solver|].
      apply (route_back r Hr) in Hm. by destruct (route_region r Hr _ _ _ Hm).
Qed.

Lemma composed_loop t done_ l rs acc :
  tree_value t -> Forall2 follows l rs -> Forall good_route done_ -> composed t done_ acc ->
  apart (start <$> (done_ ++ rs)) = true -> apart (stop <$> (done_ ++ rs)) = true ->
  composed t (done_ ++ rs) (foldl (ncompose_step t) acc l).
Proof.
  intros Ht Hl. revert done_ acc. induction Hl as [|s r l rs Hs _ IH]; intros done_ acc Hd Hacc Ha Hb.
  { by rewrite app_nil_r. }
  simpl. rewrite (cons_middle r done_ rs), app_assoc in *. apply IH; [|..|done|done].
  - apply Forall_app. split; [done|]. constructor; [apply Hs|constructor].
  - apply composed_step; [done|done|done|done|]. intros r' Hin.
    rewrite <- app_assoc, !fmap_app in Ha, Hb.
    split; [apply (apart_app (start <$> done_) _ (start <$> rs))|
            apply (apart_app (stop <$> done_) _ (stop <$> rs))]; try done; by apply list_elem_of_fmap_2.
Qed.

Lemma carries_compose l rs :
  Forall2 follows l rs -> apart (start <$> rs) = true -> apart (stop <$> rs) = true ->
  carries (ncompose l) (go (union_route rs)).
Proof.
  intros Hl Ha Hb t Ht.
  destruct (composed_loop t [] l rs (nempty, nempty) Ht Hl) as [[V _] Hres _]; [constructor| |done|done|].
  { split; simpl.
    - split; apply tree_value_nempty.
    - intros q e. unfold leaf_at. rewrite file_at_nempty. split; [done|].
      intros (r & ? & Hr & _). by apply not_elem_of_nil in Hr.
    - intros p e. unfold leaf_at. by rewrite file_at_nempty. }
  split; [done|]. intros q e. unfold ncompose. rewrite Hres. cbn [app].
  setoid_rewrite union_go; [|by eapply follows_good|done]. naive_solver.
Qed.

Lemma follows_compose l rs :
  Forall2 follows l rs -> apart (start <$> rs) = true -> apart (stop <$> rs) = true ->
  follows (ncompose l, ncompose (turned <$> l)) (union_route rs).
Proof.
  intros Hl Ha Hb. split; simpl.
  - by apply carries_compose.
  - eapply carries_ext; [done| |apply (carries_compose (turned <$> l) (back <$> rs))].
    + intros c p. by rewrite <- union_come.
    + by apply follows_turned_list.
    + by rewrite start_backs.
    + by rewrite stop_backs.
  - apply good_union; [by eapply follows_good|done|done].
Qed.

(** ** Filters that leave files in place *)

Definition identical (r : route) : Prop := forall c p q, go r c p = Some q -> q = p.

Lemma identical_come r : good_route r -> identical r -> forall c p q, come r c p = Some q -> q = p.
Proof. intros Hr Hi c p q Hc. apply (route_back r Hr) in Hc. by apply Hi in Hc. Qed.

Lemma identical_same r c p : good_route r -> identical r -> go r c p = come r c p.
Proof.
  intros Hr Hi. apply option_eq. intros q. rewrite <- (route_back r Hr). split; intros Hg.
  - pose proof (Hi _ _ _ Hg). by subst.
  - pose proof (Hi _ _ _ Hg). by subst.
Qed.

Lemma in_place_identical known f :
  relocates known f = true -> in_place f = true -> identical (route_of f).
Proof.
  induction f as [f IH] using filter_ind. intros Hr Hp.
  assert (forall keep, identical (some_stay keep)) as Hst
    by (intros keep c p q Hq; by apply some_stay_Some in Hq as [-> _]).
  destruct f; simpl in Hr, Hp, IH |- *; try done; try (intros c p q [= <-]; done).
  - apply Forall_cons in IH as [IH _]. auto.
  - apply bool_decide_eq_true in Hp as <-. intros c p q. simpl.
    rewrite rename_path_Some. by intros (r & -> & ->).
  - apply andb_true_iff in Hr as [[Hr _]%andb_true_iff _]. intros c p q.
    intros (r & E & (f & -> & Hf)%list_elem_of_fmap)%first_some_Some%list_elem_of_fmap.
    rewrite Forall_forallb, Forall_forall in Hr, Hp. rewrite Forall_forall in IH.
    by eapply IH; [..|symmetry; exact E]; auto.
  - apply orb_true_iff in Hp as [Hp|Hp].
    + rewrite Forall_forallb in Hr, Hp. clear - IH Hr Hp.
      induction IH as [|f l Hf _ IHl]; [intros c p q [= <-]; done|].
      apply Forall_cons in Hr as [Hrf Hr], Hp as [Hpf Hp]. intros c p q.
      rewrite fmap_cons, chain_go, bind_Some. intros (x & Hx & Hq).
      by rewrite (IHl Hr Hp _ _ _ Hq), (Hf Hrf Hpf _ _ _ Hx).
    + repeat case_match; try done. apply bool_decide_eq_true in Hp as <-.
      intros c q r. simpl. rewrite bind_Some. intros (x & Hx & Hy).
      apply out_of_dir_Some in Hx as [_ ->]. by apply into_dir_Some in Hy as [_ ->].
Qed.

(** ** All filters that move files *)

Lemma relocates_follows known f : relocates known f = true -> follows (sem f) (route_of f).
Proof.
  induction f as [f IH] using filter_ind. intros Hr.
  assert (follows (fun t => t, fun t => t) stay) as Hstay.
  { split; [apply carries_stay|apply carries_stay|apply good_stay]. }
  assert (forall l, Forall (fun f => relocates known f = true -> follows (sem f) (route_of f)) l ->
    forallb (relocates known) l = true -> Forall2 follows (sem <$> l) (route_of <$> l)) as Hlist.
  { clear. intros l Hl Hf. apply Forall2_fmap, Forall_Forall2_diag.
    rewrite Forall_forallb in Hf. rewrite Forall_forall in *. auto. }
  destruct f; cbn [relocates children] in Hr, IH; try done.
  - apply Forall_cons in IH as [IH _]. auto.
  - split; [apply carries_lost|apply carries_lost|apply good_lost].
  - apply andb_true_iff in Hr as [Hd Hs]. split; [by apply carries_file|by apply carries_file|apply good_file].
  - destruct (good_path_names _ Hr) as (Hne & _).
    split; [by apply carries_prefix|by apply carries_subdir|apply good_back, good_subdir].
  - destruct (good_path_names _ Hr) as (Hne & _).
    split; [by apply carries_subdir|by apply carries_prefix|apply good_subdir].
  - split; [apply carries_filter|apply carries_filter|apply good_some_stay].
  - apply andb_true_iff in Hr as [[Hr Ha]%andb_true_iff Hb]. by apply follows_compose; [apply Hlist|..].
  - by apply follows_chain, Hlist.
  - apply andb_true_iff in Hr as [Hr Hp]. apply Forall_cons in IH as [IH _].
    destruct (IH Hr) as [Hg Hc Hgr]. pose proof (in_place_identical known f Hr Hp) as Hi.
    split; [by apply carries_exclude| |apply good_some_stay].
    eapply carries_ext; [done| |by apply carries_exclude, identical_come].
    intros c p. simpl. unfold moves. by rewrite (identical_same _ _ _ Hgr Hi).
  - apply andb_true_iff in Hr as [Hr Hp]. apply Forall_cons in IH as [IH _].
    destruct (IH Hr) as [Hg Hc Hgr]. pose proof (in_place_identical known f Hr Hp) as Hi.
    split; [by apply carries_select| |apply good_some_stay].
    eapply carries_ext; [done| |by apply carries_select, identical_come].
    intros c p. simpl. unfold moves. by rewrite (identical_same _ _ _ Hgr Hi).
Qed.
