(* ===== verification/OptRoutes.v ===== *)
(** What the optimizer keeps: the relation between the paths of a tree and the paths of the
    filtered tree that a filter can move them to.  Every pass of the optimizer, with its memo tables,
    returns a filter with the same relation.  The relation does not say which branch of a composition
    takes a file first, and there are no subtractions here: the optimizer keeps neither. *)

From S2P Require Import Prelude Path OptState Invert PrefixSort Structure Simplify Flatten Step.
From S2P Require Import Utf8 Glob Pattern NodeFilter Denote Relocate Ops.

Open Scope nat_scope.

(** * Relations between paths *)

(** Whether the file (a submodule or not) at a path may go to a path. *)
Abbreviation edge := (bool -> names_path -> names_path -> Prop).

Definition same (R S : edge) : Prop := forall c p q, R c p q <-> S c p q.
#[export] Instance same_equivalence : Equivalence same.
Proof.
  split; [done| |].
  - intros R S H c p q. by rewrite (H c p q).
  - intros R S T H1 H2 c p q. by rewrite (H1 c p q), (H2 c p q).
Qed.
Infix "≃" := same (at level 70).

Definition here : edge := fun _ p q => p = q /\ p ≠ [].
Definition nowhere : edge := fun _ _ _ => False.
Definition after (R S : edge) : edge := fun c p q => exists u, R c p u /\ S c u q.
Definition either (R S : edge) : edge := fun c p q => R c p q \/ S c p q.
(** The paths that stay because of what a relation does with them. *)
Definition leaving (R : edge) : edge := fun c p q => here c p q /\ exists r, R c p r.
Definition left_out (R : edge) : edge := fun c p q => here c p q /\ ~ exists r, R c p r.

#[export] Instance after_proper : Proper (same ==> same ==> same) after.
Proof. intros R R' HR S S' HS c p q. unfold after. split; intros (u & H1%HR & H2%HS); eauto. Qed.
#[export] Instance either_proper : Proper (same ==> same ==> same) either.
Proof. intros R R' HR S S' HS c p q. unfold either. by rewrite (HR c p q), (HS c p q). Qed.
#[export] Instance leaving_proper : Proper (same ==> same) leaving.
Proof. intros R R' HR c p q. unfold leaving. split; intros [Hh [r H1%HR]]; eauto. Qed.
#[export] Instance left_out_proper : Proper (same ==> same) left_out.
Proof. intros R R' HR c p q. unfold left_out. split; intros [Hh Hn]; (split; [done|]); intros [r H1%HR]; eauto. Qed.

Lemma after_assoc R S T : after R (after S T) ≃ after (after R S) T.
Proof. intros c p q. unfold after. naive_solver. Qed.
Lemma after_nowhere_l R : after nowhere R ≃ nowhere.
Proof. intros c p q. unfold after, nowhere. naive_solver. Qed.
Lemma after_nowhere_r R : after R nowhere ≃ nowhere.
Proof. intros c p q. unfold after, nowhere. naive_solver. Qed.
Lemma after_either_l R S T : after (either R S) T ≃ either (after R T) (after S T).
Proof. intros c p q. unfold after, either. naive_solver. Qed.
Lemma after_either_r R S T : after R (either S T) ≃ either (after R S) (after R T).
Proof. intros c p q. unfold after, either. naive_solver. Qed.
Lemma either_nowhere R : either R nowhere ≃ R.
Proof. intros c p q. unfold either, nowhere. naive_solver. Qed.
Lemma either_nowhere_l R : either nowhere R ≃ R.
Proof. intros c p q. unfold either, nowhere. naive_solver. Qed.
Lemma either_assoc R S T : either R (either S T) ≃ either (either R S) T.
Proof. intros c p q. unfold either. naive_solver. Qed.
Lemma either_same R : either R R ≃ R.
Proof. intros c p q. unfold either. naive_solver. Qed.
Lemma either_swap R S T : either R (either S T) ≃ either S (either R T).
Proof. intros c p q. unfold either. naive_solver. Qed.

(** Relations between paths that are not the root. *)
Definition below_root (R : edge) : Prop := forall c p q, R c p q -> p ≠ [] /\ q ≠ [].

Lemma after_here_l R : below_root R -> after here R ≃ R.
Proof.
  intros HR c p q. split; [by intros (u & [-> _] & Hu)|].
  intros Hp. exists p. split; [|done]. split; [done|]. by apply HR in Hp as [? ?].
Qed.
Lemma after_here_r R : below_root R -> after R here ≃ R.
Proof.
  intros HR c p q. split; [by intros (u & Hu & [-> _])|].
  intros Hp. exists q. split; [done|]. split; [done|]. by apply HR in Hp as [? ?].
Qed.

Lemma below_here : below_root here.
Proof. by intros c p q [-> ?]. Qed.
Lemma below_after R S : below_root R -> below_root S -> below_root (after R S).
Proof. intros HR HS c p q (u & [Hp _]%HR & [_ Hq]%HS). by split. Qed.

Definition one_after_other (l : list edge) : edge := foldr after here l.
Definition any_of (l : list edge) : edge := foldr either nowhere l.

(** * The relation of a filter *)

Fixpoint edges (f : filter) : edge :=
  match f with
  | Op.Meta _ f => edges f
  | Op.Empty => nowhere
  | Op.Subdir a => fun _ p q => q ≠ [] /\ p = path_names a ++ q
  | Op.Prefix a => fun _ p q => p ≠ [] /\ q = path_names a ++ p
  | Op.File d s => fun _ p q => exists r, p = path_names s ++ r /\ q = path_names d ++ r
  | Op.Pattern glob => fun c p q => here c p q /\ c = false /\ pattern_keep glob p = true
  | Op.Exclude f => left_out (edges f)
  | Op.Select f => leaving (edges f)
  | Op.Chain l => one_after_other (edges <$> l)
  | Op.Compose l => any_of (edges <$> l)
  | _ => here
  end.

(** Paths of names only. *)
Definition plain_path (p : path) : bool := bool_decide (p = Normal <$> path_names p).

(** The filters of this file: those that only move files. *)
Fixpoint movable (f : filter) : bool :=
  match f with
  | Op.Nop | Op.Empty | Op.Prune | Op.Pin _ | Op.Squash None | Op.Pattern _ => true
  | Op.Meta _ f | Op.Exclude f | Op.Select f => movable f
  | Op.Subdir p | Op.Prefix p => plain_path p
  | Op.File d s => plain_path d && plain_path s && bool_decide (d ≠ [] /\ s ≠ [])
  | Op.Chain l | Op.Compose l => forallb movable l
  | _ => false
  end.

Lemma plain_nonempty p : plain_path p = true -> p ≠ [] -> path_names p ≠ [].
Proof. intros E%bool_decide_eq_true Hp Hn. apply Hp. by rewrite E, Hn. Qed.

Lemma below_chain (l : list edge) : Forall below_root l -> below_root (one_after_other l).
Proof. induction 1; simpl; [apply below_here|by apply below_after]. Qed.

Lemma below_any (l : list edge) : Forall below_root l -> below_root (any_of l).
Proof. induction 1 as [|R l HR _ IH]; simpl; [done|]. intros c p q [?%HR|?%IH]; done. Qed.

Lemma movable_below f : movable f = true -> below_root (edges f).
Proof.
  induction f as [f IH] using filter_ind. intros Hf.
  assert (forall l, Forall (fun f => movable f = true -> below_root (edges f)) l -> forallb movable l = true ->
    Forall below_root (edges <$> l)) as Hlist.
  { intros l Hl Hm. rewrite Forall_forallb in Hm. apply Forall_fmap. rewrite Forall_forall in *. unfold compose. auto. }
  destruct f; cbn [movable children] in Hf, IH; try done; simpl; try apply below_here;
    try (by apply Forall_cons in IH as [IH _]; auto).
  - rewrite !andb_true_iff, bool_decide_eq_true in Hf. destruct Hf as [[Hd Hs] [Nd Ns]].
    apply plain_nonempty in Hd, Hs; [|done..]. intros c p q (r & -> & ->).
    by split; intros [? _]%app_nil.
  - intros c p' q [Hp ->]. split; [done|]. by intros [_ ?]%app_nil.
  - intros c p' q [Hp ->]. split; [|done]. by intros [_ ?]%app_nil.
  - by intros c p q [[-> ?] _].
  - by apply below_any, Hlist.
  - by apply below_chain, Hlist.
  - by intros c p q [[-> ?] _].
  - by intros c p q [[-> ?] _].
Qed.

(** A filter that may stand for another one. *)
Definition keeps (f g : filter) : Prop := movable g = true /\ edges f ≃ edges g.

Lemma keeps_same f : movable f = true -> keeps f f.
Proof. by split. Qed.
Lemma keeps_trans f g h : keeps f g -> keeps g h -> keeps f h.
Proof. intros [_ E1] [? E2]. split; [done|]. by rewrite E1. Qed.

(** ** Chains *)

Lemma chain_below l : forallb movable l = true -> below_root (edges (Op.Chain l)).
Proof. intros Hl. by apply movable_below. Qed.

Lemma chain_app l l' :
  forallb movable l' = true -> edges (Op.Chain (l ++ l')) ≃ after (edges (Op.Chain l)) (edges (Op.Chain l')).
Proof.
  intros Hl. induction l as [|f l IH]; simpl in *; [by rewrite after_here_l by (by apply chain_below)|].
  by rewrite <- after_assoc, IH.
Qed.

Lemma chain_one f : movable f = true -> edges (Op.Chain [f]) ≃ edges f.
Proof. intros Hf. simpl. by rewrite after_here_r by (by apply movable_below). Qed.

Lemma chain_congr l l' : Forall2 keeps l l' -> keeps (Op.Chain l) (Op.Chain l').
Proof.
  induction 1 as [|f g l l' [Hg E] _ [IH1 IH2]]; [done|]. split; simpl in *; [by rewrite Hg|]. by rewrite E, IH2.
Qed.

Lemma unnest_chain_keeps l : forallb movable l = true -> keeps (Op.Chain l) (Op.Chain (unnest_chain l)).
Proof.
  induction l as [|f l IH]; [done|]. cbn [forallb]. intros [Hf Hl]%andb_true_iff. destruct (IH Hl) as [H1 H2]. cbn [movable] in H1.
  unfold unnest_chain in *. cbn [flat_map]. split.
  - cbn [movable]. rewrite forallb_app, H1, andb_true_r. destruct f; simpl in *; try done; by rewrite Hf.
  - etrans; [|symmetry; apply chain_app; exact H1]. rewrite <- H2.
    change (edges (Op.Chain (f :: l))) with (after (edges f) (edges (Op.Chain l))). apply after_proper; [|done]. destruct f; symmetry; try apply chain_one; done.
Qed.

(** ** Compositions *)

Lemma any_of_edges l c p q : edges (Op.Compose l) c p q <-> exists f, f ∈ l /\ edges f c p q.
Proof.
  simpl. induction l as [|f l IH]; simpl; [split; [done|]; by intros (? & ?%not_elem_of_nil & _)|].
  unfold either. rewrite IH. setoid_rewrite elem_of_cons. naive_solver.
Qed.

(** Compositions that have the same branches up to order, repetition and the relation of each. *)
Lemma compose_branches l l' :
  forallb movable l' = true ->
  (forall f, f ∈ l -> (forall c p q, ~ edges f c p q) \/ exists g, g ∈ l' /\ edges f ≃ edges g) ->
  (forall g, g ∈ l' -> (forall c p q, ~ edges g c p q) \/ exists f, f ∈ l /\ edges f ≃ edges g) ->
  keeps (Op.Compose l) (Op.Compose l').
Proof.
  intros Hm H1 H2. split; [done|]. intros c p q. rewrite !any_of_edges. split.
  - intros (f & Hf & Hp). destruct (H1 f Hf) as [Hn|(g & Hg & E)]; [by apply Hn in Hp|]. exists g.
    split; [done|]. by apply E.
  - intros (g & Hg & Hp). destruct (H2 g Hg) as [Hn|(f & Hf & E)]; [by apply Hn in Hp|]. exists f.
    split; [done|]. by apply E.
Qed.

Lemma compose_congr l l' : Forall2 keeps l l' -> keeps (Op.Compose l) (Op.Compose l').
Proof.
  induction 1 as [|f g l l' [Hg E] _ [IH1 IH2]]; [done|]. split; simpl in *; [by rewrite Hg|]. by rewrite E, IH2.
Qed.

Lemma compose_app l l' : edges (Op.Compose (l ++ l')) ≃ either (edges (Op.Compose l)) (edges (Op.Compose l')).
Proof.
  induction l as [|f l IH]; simpl in *; [by rewrite either_nowhere_l|]. by rewrite <- either_assoc, IH.
Qed.

Lemma compose_one f : edges (Op.Compose [f]) ≃ edges f.
Proof. simpl. apply either_nowhere. Qed.

Lemma unnest_compose_keeps l : forallb movable l = true -> keeps (Op.Compose l) (Op.Compose (unnest_compose l)).
Proof.
  induction l as [|f l IH]; [done|]. cbn [forallb]. intros [Hf Hl]%andb_true_iff. destruct (IH Hl) as [H1 H2]. cbn [movable] in H1.
  unfold unnest_compose in *. cbn [flat_map]. split.
  - cbn [movable]. rewrite forallb_app, H1, andb_true_r. destruct f; simpl in *; try done; by rewrite Hf.
  - etrans; [|symmetry; apply compose_app]. rewrite <- H2.
    change (edges (Op.Compose (f :: l))) with (either (edges f) (edges (Op.Compose l))). apply either_proper; [|done]. destruct f; symmetry; try apply compose_one; done.
Qed.

Lemma compose_perm l l' : forallb movable l = true -> l ≡ₚ l' -> keeps (Op.Compose l) (Op.Compose l').
Proof.
  intros Hl Hp. apply compose_branches.
  - rewrite Forall_forallb in *. by rewrite <- Hp.
  - intros f Hf. right. exists f. by rewrite <- Hp.
  - intros f Hf. right. exists f. by rewrite Hp.
Qed.

(** ** Paths *)

Lemma path_names_app p q : path_names (p ++ q) = path_names p ++ path_names q.
Proof. apply omap_app. Qed.

Lemma path_names_normal l : path_names (Normal <$> l) = l.
Proof. induction l as [|s l IH]; [done|]. cbn. f_equal. exact IH. Qed.

Lemma plain_path_app p q : plain_path p = true -> plain_path q = true -> plain_path (p ++ q) = true.
Proof.
  unfold plain_path. rewrite !bool_decide_eq_true. intros Hp Hq. rewrite path_names_app, fmap_app. by rewrite <- Hp, <- Hq.
Qed.

Lemma plain_join p q : plain_path q = true -> join p q = p ++ q.
Proof.
  unfold plain_path. rewrite bool_decide_eq_true. intros ->. generalize (path_names q) as l.
  by intros [|s l].
Qed.

Lemma two_prefixes x y :
  edges (Op.Prefix (y ++ x)) ≃ after (edges (Op.Prefix x)) (edges (Op.Prefix y)).
Proof.
  intros c p q. simpl. unfold after. rewrite path_names_app, <- app_assoc. split.
  - intros [Hp ->]. exists (path_names x ++ p). split; [done|]. split; [|done]. by intros [_ ?]%app_nil.
  - by intros (u & [Hp ->] & [_ ->]).
Qed.

Lemma two_subdirs x y :
  edges (Op.Subdir (x ++ y)) ≃ after (edges (Op.Subdir x)) (edges (Op.Subdir y)).
Proof.
  intros c p q. simpl. unfold after. rewrite path_names_app, <- app_assoc. split.
  - intros [Hq ->]. exists (path_names y ++ q). split; [|done]. split; [|done]. by intros [_ ?]%app_nil.
  - by intros (u & [Hu ->] & [? ->]).
Qed.

Lemma combine_adjacent_keeps l : forallb movable l = true -> keeps (Op.Chain l) (Op.Chain (combine_adjacent l)).
Proof.
  induction l as [l IH] using (induction_ltof1 _ length). unfold ltof in IH. intros Hl.
  assert (forall f l', l = f :: l' -> keeps (Op.Chain l) (Op.Chain (f :: combine_adjacent l'))) as Hskip.
  { intros f l' ->. cbn [forallb] in Hl. apply andb_true_iff in Hl as [Hf Hl].
    destruct (IH l' (le_n _) Hl) as [H1 H2]. split; [simpl in *; by rewrite Hf|]. simpl in *. by rewrite H2. }
  destruct l as [|f [|g l]]; [done|by apply keeps_same|].
  assert (forall h, movable h = true -> edges h ≃ after (edges f) (edges g) ->
    keeps (Op.Chain (f :: g :: l)) (Op.Chain (h :: combine_adjacent l))) as Hjoin.
  { intros h Hh E. cbn [forallb] in Hl. rewrite !andb_true_iff in Hl.
    destruct (IH l) as [H1 H2]; [simpl; lia|tauto|]. split; [simpl in *; by rewrite Hh|]. simpl in *.
    by rewrite after_assoc, E, H2. }
  cbn [forallb] in Hl. rewrite !andb_true_iff in Hl. destruct Hl as (Hf & Hg & _).
  destruct f; try (by apply Hskip); destruct g; try (by apply Hskip); simpl in Hf, Hg;
    cbn [combine_adjacent to_op to_filter]; apply Hjoin; rewrite plain_join by done.
  - simpl. by apply plain_path_app.
  - apply two_prefixes.
  - simpl. by apply plain_path_app.
  - apply two_subdirs.
Qed.

Lemma chain_of_keeps l : forallb movable l = true -> keeps (Op.Chain l) (chain_of l).
Proof.
  intros Hl. destruct l as [|f [|g l]]; try (by apply keeps_same).
  cbn [forallb] in Hl. rewrite andb_true_r in Hl. split; [done|]. by apply chain_one.
Qed.

(** * The tables *)

Definition table_ok (t : table filter) : Prop := table_holds (fun f g => movable f = true -> keeps f g) t.

Record tables_ok (s : caches) : Prop := {
  ok_OPTIMIZED : table_ok (OPTIMIZED s);
  ok_MINIMIZED : table_ok (MINIMIZED s);
  ok_SIMPLIFIED : table_ok (SIMPLIFIED s);
  ok_FLATTENED : table_ok (FLATTENED s);
  ok_FLATTENED_FULL : table_ok (FLATTENED_FULL s);
  ok_INVERTED : table_holds (fun f g => g = res_ok (inverse f)) (INVERTED s);
}.

#[export] Instance tables_ok_inverted : InvertedOk tables_ok.
Proof. split; [by intros c []|]. intros c f []. split; try done. by apply table_holds_insert. Qed.

Lemma no_caches_ok : tables_ok no_caches.
Proof. split; constructor. Qed.

(** A result is right, or the budget has run out; it is never an error. *)
Definition ok_or_out {A} (r : res A) (Q : A -> Prop) : Prop :=
  match r with Ok a => Q a | Err _ => False | OutOfFuel => True end.

(** A computation that keeps the tables right, does not fail and returns what it should. *)
Definition safe {A} (m : opt A) (Q : A -> Prop) : Prop :=
  forall s, tables_ok s -> tables_ok (m s).2 /\ ok_or_out (m s).1 Q.

Lemma safe_ret {A} (a : A) (Q : A -> Prop) : Q a -> safe (mret a) Q.
Proof. by intros Ha s Hs. Qed.

Lemma safe_out {A} (Q : A -> Prop) : safe (lift OutOfFuel) Q.
Proof. by intros s Hs. Qed.

Lemma safe_computes {A} (m : opt A) (a : A) (Q : A -> Prop) : computes tables_ok m (Ok a) -> Q a -> safe m Q.
Proof. intros Hm Ha s Hs. destruct (Hm s Hs) as [E Hs']. by rewrite E. Qed.

Lemma safe_bind {A B} (m : opt A) (k : A -> opt B) (Q : A -> Prop) (P : B -> Prop) :
  safe m Q -> (forall a, Q a -> safe (k a) P) -> safe (m ≫= k) P.
Proof.
  intros Hm Hk s Hs. destruct (Hm s Hs) as [Hs' Ha]. unfold mbind, M_bind. destruct (m s) as [[a|e|] s'] eqn:E; simpl in *;
    [|done|by split]. by apply Hk.
Qed.

Lemma safe_weaken {A} (m : opt A) (Q P : A -> Prop) : safe m Q -> (forall a, Q a -> P a) -> safe m P.
Proof. intros Hm HQ s Hs. destruct (Hm s Hs) as [? Ha]. split; [done|]. destruct ((m s).1); simpl in *; auto. Qed.

Lemma safe_mapM {A B} (f : A -> opt B) (R : A -> B -> Prop) l :
  (forall x, x ∈ l -> safe (f x) (R x)) -> safe (mapM f l) (fun l' => Forall2 R l l').
Proof.
  induction l as [|x l IH]; intros Hf; simpl; [apply safe_ret; constructor|].
  apply (safe_bind _ _ (R x)); [apply Hf; left|]. intros b Hb.
  apply (safe_bind _ _ (fun l' => Forall2 R l l')); [apply IH; intros y Hy; apply Hf; by right|].
  intros bs Hbs. apply safe_ret. by constructor.
Qed.

(** A table is asked first, and told afterwards. *)
Lemma safe_asked {A} (look : caches -> table filter) (f : filter) (k : option filter -> opt A) (P : A -> Prop) :
  (forall s, tables_ok s -> table_ok (look s)) ->
  (forall g, (movable f = true -> keeps f g) -> safe (k (Some g)) P) -> safe (k None) P ->
  safe (cached ← gets (fun c => table_get (look c) f); k cached) P.
Proof.
  intros Hl Hsome Hnone s Hs. unfold mbind, M_bind, gets. simpl.
  destruct (table_get (look s) f) as [g|] eqn:E; [|by apply Hnone].
  apply Hsome; [|done]. by apply (table_holds_get _ _ _ _ (Hl s Hs) E).
Qed.

Lemma safe_told {A} (h : caches -> caches) (m : opt A) (P : A -> Prop) :
  (forall s, tables_ok s -> tables_ok (h s)) -> safe m P -> safe (modify h ≫= fun _ => m) P.
Proof. intros Hh Hm s Hs. unfold mbind, M_bind, modify. simpl. by apply Hm, Hh. Qed.

Lemma told_OPTIMIZED f g s : (movable f = true -> keeps f g) -> tables_ok s -> tables_ok (insert_OPTIMIZED f g s).
Proof. intros Hg []. split; try done. by apply table_holds_insert. Qed.
Lemma told_MINIMIZED f g s : (movable f = true -> keeps f g) -> tables_ok s -> tables_ok (insert_MINIMIZED f g s).
Proof. intros Hg []. split; try done. by apply table_holds_insert. Qed.
Lemma told_SIMPLIFIED f g s : (movable f = true -> keeps f g) -> tables_ok s -> tables_ok (insert_SIMPLIFIED f g s).
Proof. intros Hg []. split; try done. by apply table_holds_insert. Qed.
Lemma told_flat full f g s : (movable f = true -> keeps f g) -> tables_ok s -> tables_ok (insert_flat full f g s).
Proof. intros Hg []. destruct full; split; try done; by apply table_holds_insert. Qed.

Lemma safe_any {A} (m : opt A) (Q : A -> Prop) : safe m Q -> safe m (fun _ => True).
Proof. intros Hm. by eapply safe_weaken. Qed.

(** * The passes *)

(** The outcome of a pass over the branches or elements of a filter. *)
Lemma keeps_all l l' :
  forallb movable l = true -> Forall2 (fun f g => movable f = true -> keeps f g) l l' -> Forall2 keeps l l'.
Proof.
  intros Hl HR. induction HR as [|f g l l' Hf _ IH]; [constructor|]. cbn [forallb] in Hl.
  apply andb_true_iff in Hl as [Hf' Hl]. constructor; auto.
Qed.

Lemma keeps_movable l l' : Forall2 keeps l l' -> forallb movable l' = true.
Proof. induction 1 as [|f g l l' [Hg _] _ IH]; [done|]. simpl. by rewrite Hg. Qed.

Abbreviation pass f := (fun g => movable f = true -> keeps f g).

Lemma pass_exclude f : forall g, (movable f = true -> keeps f g) -> movable (Op.Exclude f) = true -> keeps (Op.Exclude f) (Op.Exclude g).
Proof. intros g Hg Hf. destruct (Hg Hf) as [? E]. split; [done|]. simpl. by rewrite E. Qed.
Lemma pass_select f : forall g, (movable f = true -> keeps f g) -> movable (Op.Select f) = true -> keeps (Op.Select f) (Op.Select g).
Proof. intros g Hg Hf. destruct (Hg Hf) as [? E]. split; [done|]. simpl. by rewrite E. Qed.

Lemma simplify_safe n f : safe (simplify n f) (pass f).
Proof.
  revert f. induction n as [|n IH]; intros f; simpl; [by apply safe_out|].
  apply (safe_asked SIMPLIFIED); [by intros s []|intros g Hg; by apply safe_ret|].
  apply (safe_bind _ _ (pass f)).
  { destruct f; simpl; try (apply safe_ret; intros; by apply keeps_same).
    - apply (safe_bind _ _ (fun _ => True)); [eapply safe_any; apply IH|intros ? _]. by apply safe_ret.
    - apply (safe_bind _ _ (fun _ => True)); [eapply safe_any; apply IH|intros ? _]. by apply safe_ret.
    - eapply safe_bind; [apply (safe_mapM _ (fun f g => pass f g)); intros; apply IH|]. intros l' Hl'. apply safe_ret.
      intros Hm. pose proof (unnest_compose_keeps _ Hm) as Hu. eapply keeps_trans; [exact Hu|].
      apply compose_congr, keeps_all; [apply Hu|done].
    - eapply safe_bind; [apply (safe_mapM _ (fun f g => pass f g)); intros; apply IH|]. intros l' Hl'. apply safe_ret.
      intros Hm. pose proof (unnest_chain_keeps _ Hm) as Hu. eapply keeps_trans; [exact Hu|].
      pose proof (keeps_all _ _ (proj1 Hu) Hl') as Hk. eapply keeps_trans; [by apply chain_congr|].
      pose proof (combine_adjacent_keeps l' (keeps_movable _ _ Hk)) as Hc.
      eapply keeps_trans; [exact Hc|]. apply chain_of_keeps, Hc.
    - do 2 (apply (safe_bind _ _ (fun _ => True)); [eapply safe_any; apply IH|intros ? _]). by apply safe_ret.
    - eapply safe_bind; [apply IH|]. intros g Hg. apply safe_ret. by apply pass_exclude.
    - eapply safe_bind; [apply IH|]. intros g Hg. apply safe_ret. by apply pass_select.
    - eapply safe_bind; [apply IH|]. intros g Hg. apply safe_ret. by split. }
  intros g Hg. apply (safe_bind _ _ (pass f)).
  { case_decide; [by apply safe_ret|]. eapply safe_weaken; [apply IH|]. intros r Hr Hm.
    destruct (Hg Hm) as [Hg' E]. eapply keeps_trans; [by split|auto]. }
  intros r Hr. apply safe_told; [intros s; by apply told_SIMPLIFIED|by apply safe_ret].
Qed.

Lemma chain_middle l1 f l2 c p q :
  forallb movable (f :: l2) = true ->
  edges (Op.Chain (l1 ++ f :: l2)) c p q <->
  exists u v, edges (Op.Chain l1) c p u /\ edges f c u v /\ edges (Op.Chain l2) c v q.
Proof.
  intros Hl. rewrite (chain_app l1 (f :: l2) Hl c p q). unfold after at 1.
  change (edges (Op.Chain (f :: l2))) with (after (edges f) (edges (Op.Chain l2))). unfold after. naive_solver.
Qed.

Lemma movable_middle l1 f l2 :
  forallb movable (l1 ++ f :: l2) = true <->
  forallb movable l1 = true /\ movable f = true /\ forallb movable l2 = true.
Proof. rewrite forallb_app. simpl. rewrite !andb_true_iff. tauto. Qed.

(** A chain is distributed over a composition in it. *)
Lemma distributed_keeps l1 cs l2 :
  forallb movable (l1 ++ Op.Compose cs :: l2) = true ->
  keeps (Op.Chain (l1 ++ Op.Compose cs :: l2)) (Op.Compose ((fun cf => Op.Chain (l1 ++ cf :: l2)) <$> cs)).
Proof.
  intros (H1 & Hcs & H2)%movable_middle. cbn [movable] in Hcs.
  assert (forall f, f ∈ cs -> forallb movable (f :: l2) = true) as Hf.
  { intros f Hf. rewrite Forall_forallb, Forall_forall in Hcs. simpl. by rewrite (Hcs f Hf). }
  split.
  - simpl. rewrite Forall_forallb, Forall_forall. intros g (f & -> & Hin)%list_elem_of_fmap. simpl.
    apply movable_middle. specialize (Hf f Hin). simpl in Hf. apply andb_true_iff in Hf as [? ?]. done.
  - intros c p q. rewrite chain_middle, any_of_edges by (simpl in *; by rewrite Hcs). split.
    + intros (u & v & Hu & (f & Hin & Hv)%any_of_edges & Hq). exists (Op.Chain (l1 ++ f :: l2)).
      split; [by apply list_elem_of_fmap; exists f|]. apply chain_middle; [by apply Hf|]. by exists u, v.
    + intros (g & (f & -> & Hin)%list_elem_of_fmap & Hg). apply chain_middle in Hg as (u & v & Hu & Hv & Hq); [|by apply Hf].
      exists u, v. split; [done|]. split; [|done]. apply any_of_edges. by exists f.
Qed.

Lemma distribute_safe full l1 l2 :
  safe (distribute full (l1 ++ l2) l2 (length l1))
    (fun d => forall g, d = Some g -> forallb movable (l1 ++ l2) = true -> keeps (Op.Chain (l1 ++ l2)) g).
Proof.
  revert l1. induction l2 as [|f l2 IH]; intros l1; simpl; [by apply safe_ret|].
  assert (forall d, safe (distribute full (l1 ++ f :: l2) l2 (S (length l1))) d <->
    safe (distribute full ((l1 ++ [f]) ++ l2) l2 (length (l1 ++ [f]))) d) as Hshift.
  { intros d. by rewrite <- app_assoc, length_app, Nat.add_1_r. }
  specialize (IH (l1 ++ [f])). rewrite <- Hshift, <- app_assoc in IH.
  destruct f; try exact IH. eapply (safe_bind _ _ (fun _ => True)); [eapply safe_computes; [apply (others_invertible_computes tables_ok)|done]|].
  intros others _.
  case_match; [by apply safe_ret|]. case_match; [exact IH|]. apply safe_ret. intros g [= <-] Hm.
  pose proof (distributed_keeps l1 filters l2 Hm) as Hd.
  erewrite (list_fmap_ext _ (fun cf => Op.Chain (l1 ++ cf :: l2))); [exact Hd|]. intros _ cf _. simpl.
  by rewrite insert_app_r_alt, Nat.sub_diag by done.
Qed.

Lemma flatten_safe full n f : safe (flatten_impl full n f) (pass f).
Proof.
  revert f. induction n as [|n IH]; intros f; simpl; [by apply safe_out|].
  apply (safe_asked (flat_table full)); [by intros s []; destruct full|intros g Hg; by apply safe_ret|].
  assert (forall result, pass f result ->
    safe (r ← (if decide (result = f) then mret result else flatten_impl full n result);
          modify (insert_flat full f r) ≫= fun _ => mret r) (pass f)) as Hfinish.
  { intros result Hresult. apply (safe_bind _ _ (pass f)).
    - case_decide; [by apply safe_ret|]. eapply safe_weaken; [apply IH|]. intros r Hr Hm.
      destruct (Hresult Hm) as [Hg' E]. eapply keeps_trans; [by split|auto].
    - intros r Hr. apply safe_told; [intros s; by apply told_flat|by apply safe_ret]. }
  destruct f; cbn [to_op to_filter]; try (apply Hfinish; intros; by apply keeps_same).
  - apply (safe_bind _ _ (fun _ => True)); [eapply safe_any; apply IH|intros ? _]. by apply Hfinish.
  - apply (safe_bind _ _ (fun _ => True)); [eapply safe_any; apply IH|intros ? _]. by apply Hfinish.
  - eapply safe_bind; [apply (safe_mapM _ (fun f g => pass f g)); intros; apply IH|]. intros l' Hl'. apply Hfinish.
    intros Hm. pose proof (unnest_compose_keeps _ Hm) as Hu. eapply keeps_trans; [exact Hu|].
    apply compose_congr, keeps_all; [apply Hu|done].
  - eapply safe_bind; [apply (distribute_safe full [])|]. intros [d|] Hd.
    + assert (pass (Op.Chain filters) d) as Hpass.
      { intros Hm. pose proof (unnest_chain_keeps _ Hm) as Hu. eapply keeps_trans; [exact Hu|]. apply Hd; [done|apply Hu]. }
      apply safe_told; [intros s; by apply told_flat|by apply safe_ret].
    + eapply safe_bind; [apply (safe_mapM _ (fun f g => pass f g)); intros; apply IH|]. intros l' Hl'. apply Hfinish.
      intros Hm. pose proof (unnest_chain_keeps _ Hm) as Hu. eapply keeps_trans; [exact Hu|].
      apply chain_congr, keeps_all; [apply Hu|done].
  - do 2 (apply (safe_bind _ _ (fun _ => True)); [eapply safe_any; apply IH|intros ? _]). by apply Hfinish.
  - eapply safe_bind; [apply IH|]. intros g Hg. apply Hfinish. by apply pass_exclude.
  - eapply safe_bind; [apply IH|]. intros g Hg. apply Hfinish. by apply pass_select.
  - eapply safe_bind; [apply IH|]. intros g Hg. apply Hfinish. by split.
Qed.

(** ** Branches of a composition *)

Lemma movable_all l : forallb movable l = true <-> forall f, f ∈ l -> movable f = true.
Proof. by rewrite Forall_forallb, Forall_forall. Qed.

Lemma branches_keeps l :
  forallb movable l = true -> keeps (Op.Compose l) (Op.Compose (retain (differs Op.Empty) (dedup l))).
Proof.
  rewrite movable_all. intros Hl. apply compose_branches.
  - rewrite movable_all. intros f. rewrite elem_of_retain, elem_of_dedup. intros [Hf _]. auto.
  - intros f Hf. destruct (decide (f = Op.Empty)) as [->|Hn]; [left; by intros ? ? ? []|right]. exists f.
    by rewrite elem_of_retain, elem_of_dedup, differs_true.
  - intros f. rewrite elem_of_retain, elem_of_dedup. intros [Hf _]. right. by exists f.
Qed.

(** A common first element. *)
Lemma common_pre_keeps l c rest :
  common_pre l = Some (c, rest) -> forallb movable l = true ->
  keeps (Op.Compose l) (Op.Chain [c; Op.Compose rest]).
Proof.
  intros Hpre Hl. assert (l ≠ []) as Hne by (by intros ->). revert Hpre. unfold common_pre. destruct (common_pre_loop l None []) as [[[c0|] rs]|] eqn:E; [|done..].
  destruct (is_generative c0); [done|]. intros [= -> ->].
  apply common_pre_loop_spec in E as (rs & -> & _ & Hrs). cbn [app].
  assert (Forall2 (fun f r => movable r = true /\ movable c = true /\ edges f ≃ after (edges c) (edges r)) l rs) as Hall.
  { rewrite movable_all in Hl. apply Forall2_same_length_lookup_2; [by eapply Forall2_length|].
    intros i f r Hf Hr. destruct (Forall2_lookup_lr _ _ _ _ _ _ Hrs Hf Hr) as (x & tl & [= <-] & -> & ->).
    specialize (Hl _ (list_elem_of_lookup_2 _ _ _ Hf)). simpl in Hl. apply andb_true_iff in Hl as [Hc Htl].
    split; [by destruct tl|]. split; [done|]. by destruct tl. }
  clear Hrs Hl. assert (movable c = true) as Hc by (by destruct Hall as [|? ? ? ? (_ & Hc & _)]).
  split.
  - simpl. rewrite Hc. rewrite andb_true_r. clear Hne. induction Hall as [|f r l rs (Hr & _) _ IH]; [done|].
    simpl. by rewrite Hr.
  - change (edges (Op.Chain [c; Op.Compose rs])) with (after (edges c) (edges (Op.Chain [Op.Compose rs]))).
    assert (forallb movable rs = true) as Hrs.
    { clear Hne. induction Hall as [|f r l rs (Hr & _) _ IH]; [done|]. simpl. by rewrite Hr. }
    rewrite chain_one by done. clear Hne Hrs. induction Hall as [|f r l rs (_ & _ & E) _ IH]; simpl in *.
    + by rewrite after_nowhere_r.
    + by rewrite E, IH, after_either_r.
Qed.

(** A common last element. *)
Lemma last_chain_keeps f rest :
  movable f = true -> movable rest = true ->
  let '(a, b) := last_chain f rest in
  movable a = true /\ movable b = true /\ after (edges a) (edges b) ≃ after (edges rest) (edges f).
Proof.
  revert rest. induction f as [f IH] using filter_ind. intros rest Hf Hr. destruct f; try done.
  induction filters as [|x l _] using rev_ind; [done|]. rewrite last_chain_snoc.
  cbn [children] in IH. apply Forall_app in IH as [_ IH]. apply Forall_cons in IH as [IH _].
  cbn [movable] in Hf. rewrite forallb_app in Hf. apply andb_true_iff in Hf as [Hl Hx]. simpl in Hx.
  rewrite andb_true_r in Hx. specialize (IH (Op.Chain (rest :: l)) Hx).
  destruct (last_chain x (Op.Chain (rest :: l))) as [a b]. destruct IH as (Ha & Hb & E); [simpl; by rewrite Hr|].
  split; [done|]. split; [done|]. rewrite E.
  change (edges (Op.Chain (rest :: l))) with (after (edges rest) (edges (Op.Chain l))).
  rewrite <- after_assoc. apply after_proper; [done|]. rewrite chain_app by (simpl; by rewrite Hx).
  by rewrite chain_one.
Qed.

Lemma any_after_l R l rs :
  Forall2 (fun f r => edges f ≃ after (edges r) R) l rs -> edges (Op.Compose l) ≃ after (edges (Op.Compose rs)) R.
Proof.
  induction 1 as [|f r l rs E _ IH]; simpl in *; [by rewrite after_nowhere_l|]. by rewrite E, IH, after_either_l.
Qed.

Lemma common_post_keeps l c rest :
  common_post_loop l None [] = Some (Some c, rest) -> forallb movable l = true ->
  keeps (Op.Compose l) (Op.Chain [Op.Compose rest; c]).
Proof.
  intros Hloop Hl. assert (l ≠ []) as Hne by (by intros ->).
  apply common_post_loop_spec in Hloop as (rs & -> & _ & Hrs). cbn [app]. rewrite movable_all in Hl.
  assert (Forall2 (fun f r => movable r = true /\ movable c = true /\ edges f ≃ after (edges r) (edges c)) l rs) as Hall.
  { apply Forall2_same_length_lookup_2; [by eapply Forall2_length|]. intros i f r Hf Hr.
    destruct (Forall2_lookup_lr _ _ _ _ _ _ Hrs Hf Hr) as (x & [= <-] & E).
    specialize (Hl f (list_elem_of_lookup_2 _ _ _ Hf)). pose proof (last_chain_keeps f Op.Nop Hl eq_refl) as Hk.
    rewrite E in Hk. destruct Hk as (Ha & Hb & E'). split; [done|]. split; [done|]. rewrite E'. symmetry.
    by apply after_here_l, movable_below. }
  assert (movable c = true) as Hc by (by destruct Hall as [|? ? ? ? (_ & Hc & _)]).
  assert (forallb movable rs = true) as Hm.
  { clear - Hall. induction Hall as [|f r l rs (Hr & _) _ IH]; [done|]. simpl. by rewrite Hr. }
  split; [simpl; by rewrite Hm, Hc|].
  change (edges (Op.Chain [Op.Compose rs; c])) with (after (edges (Op.Compose rs)) (edges (Op.Chain [c]))).
  rewrite chain_one by done. apply any_after_l. eapply Forall2_impl; [exact Hall|]. naive_solver.
Qed.

Lemma common_post_safe l :
  safe (common_post l) (fun r => forall c rest, r = Some (c, rest) -> forallb movable l = true ->
    keeps (Op.Compose l) (Op.Chain [Op.Compose rest; c])).
Proof.
  unfold common_post. destruct (common_post_loop l None []) as [[[c|] rest]|] eqn:E; try (by apply safe_ret).
  apply (safe_bind _ _ (fun _ => True)).
  - eapply safe_computes; [apply (self_inverse_computes tables_ok)|done].
  - pose proof (common_post_keeps l c rest E) as Hk.
    intros [] _; [apply safe_ret; by intros ? ? [= <- <-]|].
    destruct c; apply safe_ret; by intros ? ? [= <- <-].
Qed.

(** Groups of branches. *)
Lemma concat_keeps gs : forallb movable (concat gs) = true -> keeps (Op.Compose (concat gs)) (Op.Compose (Op.Compose <$> gs)).
Proof.
  induction gs as [|g gs IH]; [done|]. simpl. rewrite forallb_app, andb_true_iff. intros [Hg Hgs].
  destruct (IH Hgs) as [H1 H2]. split; [simpl in *; by rewrite Hg|].
  etrans; [apply compose_app|]. by rewrite H2.
Qed.

(** ** Steps *)

Lemma prefix_subdir a : after (edges (Op.Prefix a)) (edges (Op.Subdir a)) ≃ here.
Proof.
  intros c p q. unfold after. simpl. split.
  - intros (u & [Hp ->] & [_ E%app_inv_head]). by split.
  - intros [-> Hp]. by exists (path_names a ++ q).
Qed.

Lemma prefix_other a b :
  plain_path a = true -> plain_path b = true -> a ≠ b -> length a = length b ->
  after (edges (Op.Prefix a)) (edges (Op.Subdir b)) ≃ nowhere.
Proof.
  unfold plain_path. rewrite !bool_decide_eq_true. intros Ha Hb Hn Hlen c p q. split; [|done].
  intros (u & [_ ->] & [_ E]). apply Hn. rewrite Ha, Hb in Hlen |- *. rewrite !length_fmap in Hlen.
  by apply app_inj_1 in E as [-> _].
Qed.

Lemma chain_split l l' c p q :
  forallb movable l' = true ->
  edges (Op.Chain (l ++ l')) c p q <-> exists u, edges (Op.Chain l) c p u /\ edges (Op.Chain l') c u q.
Proof. intros Hl. apply (chain_app l l' Hl c p q). Qed.

Lemma chain_replace l a b l' :
  keeps (Op.Chain a) (Op.Chain b) -> forallb movable a = true -> forallb movable l = true -> forallb movable l' = true ->
  keeps (Op.Chain (l ++ a ++ l')) (Op.Chain (l ++ b ++ l')).
Proof.
  intros [Hb E] Ha Hl Hl'. cbn [movable] in Hb. split; [simpl; by rewrite !forallb_app, Hb, Hl, Hl'|].
  rewrite !chain_app by (rewrite ?forallb_app, ?Ha, ?Hb, ?Hl'; done). by rewrite E.
Qed.

Section Steps.
Context (rec : filter -> opt filter).
Hypothesis Hrec : forall f, safe (rec f) (pass f).

Lemma cancel_pairs_safe l result :
  safe (cancel_pairs rec l result) (fun r => forallb movable l = true -> forallb movable result = true ->
    match r with
    | Some l' => keeps (Op.Chain (result ++ l)) (Op.Chain l')
    | None => edges (Op.Chain (result ++ l)) ≃ nowhere
    end).
Proof.
  revert result. induction l as [l IH] using (induction_ltof1 _ length). unfold ltof in IH. intros result.
  destruct l as [|f l].
  { apply safe_ret. intros _ Hr. rewrite app_nil_r. by apply keeps_same. }
  set (Q := fun r : option (list filter) => _).
  assert (safe (g ← rec f; cancel_pairs rec l (result ++ [g])) Q) as Hpush.
  { eapply safe_bind; [apply Hrec|]. intros g Hg. eapply safe_weaken; [apply IH; simpl; lia|]. unfold Q.
    intros r Hr Hl Hres. cbn [forallb] in Hl. apply andb_true_iff in Hl as [Hf Hl]. destruct (Hg Hf) as [Hm E].
    assert (keeps (Op.Chain (result ++ [f] ++ l)) (Op.Chain (result ++ [g] ++ l))) as [_ E'].
    { apply chain_replace; try done; [|simpl; by rewrite Hf]. apply chain_congr. constructor; [by split|constructor]. }
    rewrite <- app_assoc in Hr. specialize (Hr Hl).
    destruct r as [l'|]; [|rewrite E'; apply Hr; by rewrite forallb_app, Hres; simpl; rewrite Hm].
    destruct Hr as [H1 H2]; [by rewrite forallb_app, Hres; simpl; rewrite Hm|]. split; [done|]. by rewrite E'. }
  cbn [cancel_pairs to_op]. destruct l as [|g l]; [exact Hpush|].
  destruct f; try exact Hpush. destruct g; try exact Hpush.
  case_decide as Hd; [subst|case_decide as Hlen; [case_match; [exact Hpush|]|exact Hpush]].
  - eapply safe_weaken; [apply IH; simpl; lia|]. unfold Q. intros r Hr Hl Hres. cbn [forallb movable] in Hl.
    apply andb_true_iff in Hl as [Hp [_ Hl]%andb_true_iff].
    assert (edges (Op.Chain (result ++ Op.Prefix p0 :: Op.Subdir p0 :: l)) ≃ edges (Op.Chain (result ++ l))) as E.
    { rewrite !chain_app by (simpl; rewrite ?Hp; done). apply after_proper; [done|]. simpl.
      rewrite after_assoc. etrans; [apply after_proper; [apply prefix_subdir|done]|]. by apply after_here_l, chain_below. }
    specialize (Hr Hl Hres). destruct r; [|by rewrite E]. destruct Hr. split; [done|]. by rewrite E.
  - apply safe_ret. unfold Q. intros Hl Hres. cbn [forallb movable] in Hl.
    apply andb_true_iff in Hl as [Hp [Hq Hl]%andb_true_iff].
    rewrite chain_app by (simpl; by rewrite Hp, Hq).
    change (edges (Op.Chain (Op.Prefix p :: Op.Subdir p0 :: l)))
      with (after (edges (Op.Prefix p)) (after (edges (Op.Subdir p0)) (edges (Op.Chain l)))).
    by rewrite (after_assoc (edges (Op.Prefix p))), prefix_other, after_nowhere_l, after_nowhere_r.
Qed.

Lemma retain_nop_keeps l :
  forallb movable l = true -> keeps (Op.Chain l) (Op.Chain (retain (differs Op.Nop) l)).
Proof.
  induction l as [|f l IH]; [done|]. cbn [forallb]. intros [Hf Hl]%andb_true_iff. destruct (IH Hl) as [H1 H2].
  unfold retain in *. cbn [List.filter]. destruct (differs Op.Nop f) eqn:E.
  - split; [simpl in *; by rewrite Hf|]. simpl in *. by rewrite H2.
  - apply not_true_iff_false in E. rewrite differs_true in E. apply dec_stable in E as ->. split; [done|].
    rewrite <- H2. apply after_here_l. by apply chain_below.
Qed.

Lemma chain_empty l : forallb movable l = true -> Op.Empty ∈ l -> edges (Op.Chain l) ≃ nowhere.
Proof.
  intros Hl (l1 & l2 & ->)%list_elem_of_split. rewrite forallb_app in Hl. apply andb_true_iff in Hl as [_ Hl].
  rewrite chain_app by done. simpl. by rewrite after_nowhere_l, after_nowhere_r.
Qed.

Lemma position_elem f l n : position f l = Some n -> f ∈ l.
Proof.
  revert n. induction l as [|x l IH]; intros n; simpl; [done|]. case_decide; [subst; left|].
  intros (m & Hm & _)%fmap_Some. right. by eapply IH.
Qed.

Lemma step_chain_safe l : safe (step_chain rec l) (fun r => pass (Op.Chain l) (out r)).
Proof.
  unfold step_chain. eapply safe_bind; [apply (safe_mapM _ (fun f g => pass f g)); intros; apply Hrec|].
  intros l' Hl'. cbn [to_filter].
  assert (forallb movable l = true -> keeps (Op.Chain l) (Op.Chain (retain (differs Op.Nop) (unnest_chain l')))) as Hk.
  { intros Hm. pose proof (keeps_all _ _ Hm Hl') as Hk. eapply keeps_trans; [by apply chain_congr|].
    pose proof (unnest_chain_keeps l' (keeps_movable _ _ Hk)) as Hu. eapply keeps_trans; [exact Hu|].
    apply retain_nop_keeps, Hu. }
  clear Hl'. set (fl := retain (differs Op.Nop) (unnest_chain l')) in *. clearbody fl.
  destruct fl as [|f0 fl0] eqn:Efl; [by apply safe_ret|]. rewrite <- Efl in *. clear Efl f0 fl0.
  assert (forallb movable l = true -> edges (Op.Chain fl) ≃ nowhere -> keeps (Op.Chain l) Op.Empty) as Hempty.
  { intros Hm E. destruct (Hk Hm) as [_ E']. split; [done|]. by rewrite E'. }
  destruct (match position Op.Empty fl with Some pos => _ | None => false end) eqn:Epos.
  - apply safe_ret. intros Hm. destruct (position Op.Empty fl) as [pos|] eqn:E; [|done].
    apply position_elem in E. apply Hempty; [done|]. by apply chain_empty; [apply Hk|].
  - eapply safe_bind; [apply cancel_pairs_safe|]. intros r Hr. apply safe_ret. intros Hm. cbn [movable] in Hm.
    destruct (Hk Hm) as [Hfl _]. specialize (Hr Hfl eq_refl). cbn [app] in Hr.
    destruct r as [r|]; [|by apply Hempty]. pose proof (keeps_trans _ _ _ (Hk Hm) Hr) as Hkr.
    destruct r as [|g [|g' r]]; [done| |done]. eapply keeps_trans; [exact Hkr|].
    destruct Hkr as [Hg _]. cbn [movable forallb] in Hg. rewrite andb_true_r in Hg. split; [done|]. by apply chain_one.
Qed.

Lemma step_compose_safe l : safe (step_compose rec l) (pass (Op.Compose l)).
Proof.
  unfold step_compose. cbn [to_filter]. set (fl := retain (differs Op.Empty) (dedup l)).
  assert (forallb movable l = true -> keeps (Op.Compose l) (Op.Compose fl)) as Hk by apply branches_keeps.
  clearbody fl. destruct (common_pre fl) as [[c rest]|] eqn:Epre.
  { apply safe_ret. intros Hm. eapply keeps_trans; [by apply Hk|]. apply common_pre_keeps; [done|by apply Hk]. }
  eapply safe_bind; [apply common_post_safe|]. intros [[c rest]|] Hpost.
  { apply safe_ret. intros Hm. eapply keeps_trans; [by apply Hk|]. apply Hpost; [done|by apply Hk]. }
  case_decide.
  - apply safe_ret. intros Hm. eapply keeps_trans; [by apply Hk|]. destruct (Hk Hm) as [Hfl _]. cbn [movable] in Hfl.
    rewrite <- (concat_group fl) at 1. apply concat_keeps. by rewrite concat_group.
  - eapply safe_bind; [apply (safe_mapM _ (fun f g => pass f g)); intros; apply Hrec|]. intros l' Hl'. apply safe_ret.
    intros Hm. destruct (Hk Hm) as [Hfl _]. cbn [movable] in Hfl. eapply keeps_trans; [by apply Hk|].
    pose proof (compose_perm fl (prefix_sort fl) Hfl (symmetry (prefix_sort_perm fl))) as Hp.
    eapply keeps_trans; [exact Hp|]. apply compose_congr, keeps_all; [apply Hp|done].
Qed.

End Steps.

(** Long paths are taken one name at a time. *)
Lemma plain_cons c p : plain_path (c :: p) = true <-> (exists s, c = Normal s) /\ plain_path p = true.
Proof.
  unfold plain_path. rewrite !bool_decide_eq_true. split.
  - intros E. assert (c ∈ Normal <$> path_names (c :: p)) as Hc by (rewrite <- E; left).
    apply list_elem_of_fmap in Hc as (s & -> & _). cbn in E. injection E as E. split; [by eexists|exact E].
  - intros [[s ->] E]. cbn. by f_equal.
Qed.

Lemma plain_one s : plain_path [Normal s] = true.
Proof. apply plain_cons. split; [by exists s|done]. Qed.

Lemma subdirs_keeps p : plain_path p = true -> keeps (Op.Subdir p) (Op.Chain ((fun x => Op.Subdir [x]) <$> p)).
Proof.
  induction p as [|x p IH].
  - intros _. split; [done|]. intros c p q. simpl. unfold here. naive_solver.
  - intros [[s ->] Hp]%plain_cons. destruct (IH Hp) as [H1 H2]. split; [by rewrite fmap_cons; simpl in *; rewrite plain_one|].
    etrans; [apply (two_subdirs [Normal s] p)|]. rewrite fmap_cons. simpl in *. by rewrite H2.
Qed.

Lemma prefixes_keeps p : plain_path p = true -> keeps (Op.Prefix p) (Op.Chain ((fun x => Op.Prefix [x]) <$> rev p)).
Proof.
  induction p as [|x p IH].
  - intros _. split; [done|]. intros c p q. simpl. unfold here. naive_solver.
  - intros [[s ->] Hp]%plain_cons. destruct (IH Hp) as [H1 H2]. cbn [rev]. rewrite fmap_app.
    assert (forallb movable [Op.Prefix [Normal s]] = true) as Hs by (simpl; by rewrite plain_one).
    split; [cbn [movable] in *; by rewrite forallb_app, H1|].
    etrans; [apply (two_prefixes p [Normal s])|]. rewrite chain_app by done.
    apply after_proper; [done|]. symmetry. apply chain_one, plain_one.
Qed.

Lemma parent_name p dir name : parent p = Some dir -> file_name p = Some name -> p = dir ++ [Normal name].
Proof.
  unfold parent, file_name. destruct p as [|c p _] using rev_ind; [done|]. rewrite last_snoc, removelast_last.
  destruct c; naive_solver.
Qed.

Lemma plain_snoc p c : plain_path (p ++ [c]) = true -> plain_path p = true.
Proof.
  induction p as [|x p IH]; [done|]. cbn [app]. rewrite !plain_cons. naive_solver.
Qed.

Lemma file_keeps dp dn sp sn :
  plain_path (dp ++ [Normal dn]) = true -> plain_path (sp ++ [Normal sn]) = true ->
  keeps (Op.File (dp ++ [Normal dn]) (sp ++ [Normal sn]))
    (Op.Chain [Op.Subdir sp; Op.File [Normal dn] [Normal sn]; Op.Prefix dp]).
Proof.
  intros Hd%plain_snoc Hs%plain_snoc. split; [simpl; by rewrite Hd, Hs, !plain_one|]. intros c p q. simpl. unfold after.
  rewrite !path_names_app. setoid_rewrite <- app_assoc. split.
  - intros (r & -> & ->). exists ([sn] ++ r). split; [done|]. exists ([dn] ++ r). split; [by exists r|].
    exists (path_names dp ++ [dn] ++ r). split; [done|]. split; [done|]. by intros [_ ?]%app_nil.
  - intros (u & [_ ->] & v & (r & -> & ->) & w & [_ ->] & [<- _]). by exists r.
Qed.

Lemma step_file_keeps d s g :
  (if decide (1 < length s \/ 1 < length d) then
     match parent s, file_name s, parent d, file_name d with
     | Some sp, Some sn, Some dp, Some dn =>
         Op.Chain [Op.Subdir sp; Op.File [Normal dn] [Normal sn]; Op.Prefix dp]
     | _, _, _, _ => Op.File d s
     end
   else Op.File d s) = g ->
  movable (Op.File d s) = true -> keeps (Op.File d s) g.
Proof.
  intros <- Hm. case_decide; [|by apply keeps_same].
  destruct (parent s) as [sp|] eqn:E1; [|by apply keeps_same].
  destruct (file_name s) as [sn|] eqn:E2; [|by apply keeps_same].
  destruct (parent d) as [dp|] eqn:E3; [|by apply keeps_same].
  destruct (file_name d) as [dn|] eqn:E4; [|by apply keeps_same].
  pose proof (parent_name _ _ _ E1 E2) as ->. pose proof (parent_name _ _ _ E3 E4) as ->.
  cbn [movable] in Hm. rewrite !andb_true_iff in Hm. destruct Hm as [[Hd Hs] _]. by apply file_keeps.
Qed.

Section Steps.
Context (rec : filter -> opt filter).
Hypothesis Hrec : forall f, safe (rec f) (pass f).

Lemma rec_any f : safe (rec f) (fun _ => True).
Proof. eapply safe_any, Hrec. Qed.

Ltac any_step :=
  repeat first
    [ apply safe_ret; done | apply rec_any
    | apply (safe_bind _ _ (fun _ => True)); [|intros ? _]
    | case_decide ].

Lemma step_subtract_compose_safe a b : safe (step_subtract_compose rec a b) (fun _ => True).
Proof.
  unfold step_subtract_compose. set (x := to_op a). set (y := to_op b). clearbody x y.
  set (other := rec a ≫= _). assert (safe other (fun _ => True)) as Ho by (unfold other; any_step). clearbody other.
  assert (safe (match y with
    | Op.Compose bv => if decide (a ∈ bv) then f ← rec (to_filter Op.Empty); mret (to_filter (to_op f)) else other
    | _ => other end) (fun _ => True)) as Hy by (destruct y; try exact Ho; any_step; exact Ho).
  destruct x; try exact Hy. case_decide; [any_step|]. destruct y; try exact Ho. any_step.
Qed.

Lemma step_subtract_ends_safe a b : safe (step_subtract_ends rec a b) (fun _ => True).
Proof.
  unfold step_subtract_ends. pose proof (step_subtract_compose_safe a b) as Hc.
  case_decide; [any_step|]. case_decide; [any_step|]. case_match; [any_step|].
  apply (safe_bind _ _ (fun _ => True)); [eapply safe_any, common_post_safe|].
  intros [[cp [|ra [|rb [|]]]]|] _; try exact Hc. case_decide; [any_step|exact Hc].
Qed.

Lemma step_subtract_safe a b : safe (step_subtract rec a b) (fun _ => True).
Proof.
  unfold step_subtract. pose proof (step_subtract_ends_safe a b) as He. case_decide; [any_step|].
  set (x := to_op a). set (y := to_op b). clearbody x y.
  set (ends := step_subtract_ends rec a b) in *. clearbody ends.
  destruct x; destruct y; try exact He; try (by apply safe_ret); repeat case_match; try exact He; by apply safe_ret.
Qed.

Lemma step_other_safe f : no_chain f = true -> safe (step_other rec f) (pass f).
Proof.
  intros Hc. destruct f; try done; cbn [step_other to_op to_filter];
    try (apply safe_ret; intros; by apply keeps_same); try (case_decide; repeat case_match; by apply safe_ret).
  - eapply (safe_bind _ _ (fun _ => True)); [|intros ? _; by apply safe_ret].
    eapply safe_any, (safe_mapM _ (fun _ _ => True)). intros [[m i] f] _. any_step.
  - destruct (decide _) as [Hl|Hl] eqn:E.
    + pose proof (step_file_keeps dest_path source_path _ eq_refl) as Hk. rewrite E in Hk.
      repeat case_match; apply safe_ret; exact Hk.
    + apply safe_ret. intros. by apply keeps_same.
  - case_decide as H0; [|case_decide as H1]; apply safe_ret; intros Hm; [subst|by apply prefixes_keeps|by apply keeps_same].
    apply (prefixes_keeps []). done.
  - case_decide as H0; [|case_decide as H1]; apply safe_ret; intros Hm; [subst|by apply subdirs_keeps|by apply keeps_same].
    apply (subdirs_keeps []). done.
  - any_step.
  - any_step.
  - destruct filters as [|x [|y l]]; [by apply safe_ret| |by apply step_compose_safe].
    apply safe_ret. cbn [movable forallb]. rewrite andb_true_r. intros Hm. split; [done|]. apply compose_one.
  - eapply safe_weaken; [apply step_subtract_safe|done].
  - case_decide as H0; [|case_decide as H1]; [subst; apply safe_ret; intros _|subst; apply safe_ret; intros _|].
    + split; [done|]. intros c p q. split; [|done]. intros [[-> Hp] Hn]. apply Hn. by exists q.
    + split; [done|]. intros c p q. split; [by intros [? _]|]. intros Hh. split; [done|]. by intros [r []].
    + eapply safe_bind; [apply Hrec|]. intros g Hg. apply safe_ret. by apply pass_exclude.
  - case_decide as H0; [|case_decide as H1]; [subst; apply safe_ret; intros _|subst; apply safe_ret; intros _|].
    + split; [done|]. intros c p q. split; [|done]. by intros [_ [r []]].
    + split; [done|]. intros c p q. split; [by intros [? _]|]. intros Hh. split; [done|]. exists q. done.
    + eapply safe_bind; [apply Hrec|]. intros g Hg. apply safe_ret. by apply pass_select.
  - case_decide; [by apply safe_ret|]. eapply safe_bind; [apply rec_any|]. intros g _. by apply safe_ret.
Qed.

Lemma step_op_safe f : safe (step_op rec f) (fun r => pass f (out r)).
Proof.
  unfold step_op. destruct (no_chain f) eqn:E.
  - pose proof (step_other_safe f E) as Hs. 
    destruct f; try done; (eapply safe_bind; [exact Hs|]; intros g Hg; by apply safe_ret).
  - destruct f; try done. by apply step_chain_safe.
Qed.
End Steps.

(** ** The optimizer *)

Lemma step_safe n f : safe (step n f) (pass f).
Proof.
  revert f. induction n as [|n IH]; intros f; simpl; [by apply safe_out|].
  apply (safe_asked OPTIMIZED); [by intros s []|intros g Hg; by apply safe_ret|].
  eapply safe_bind; [by apply step_op_safe|]. intros [g|g] Hg; [by apply safe_ret|].
  apply safe_told; [intros s; by apply told_OPTIMIZED|by apply safe_ret].
Qed.

Lemma pass_trans f g : pass f g -> forall h, pass g h -> pass f h.
Proof. intros Hg h Hh Hm. eapply keeps_trans; [by apply Hg|]. apply Hh. by apply Hg. Qed.

Lemma iterate_safe k n f : safe (iterate_loop k n f) (pass f).
Proof.
  revert f. induction k as [|k IH]; intros f; simpl; [apply safe_ret; by apply keeps_same|].
  eapply safe_bind; [apply step_safe|]. intros g Hg. case_decide; [apply safe_ret; by apply keeps_same|].
  eapply safe_weaken; [apply IH|]. by apply pass_trans.
Qed.

Lemma optimize_loop_safe k n f : safe (optimize_loop k n f) (pass f).
Proof.
  revert f. induction k as [|k IH]; intros f; simpl; [by apply safe_out|].
  apply (safe_bind _ _ (fun _ => True)); [eapply safe_any, simplify_safe|]. intros pretty _.
  eapply safe_bind; [apply iterate_safe|]. intros g Hg. eapply safe_bind; [apply simplify_safe|]. intros h Hh.
  pose proof (pass_trans _ _ Hg _ Hh) as Hk.
  case_decide; (eapply safe_weaken; [first [apply iterate_safe|apply IH]|]); by apply pass_trans.
Qed.

Lemma optimize_safe minimize k n f : safe (optimize_impl minimize k n f) (pass f).
Proof.
  unfold optimize_impl. apply (safe_asked (fun c => if minimize then MINIMIZED c else OPTIMIZED c));
    [by intros s []; destruct minimize|intros g Hg; by apply safe_ret|].
  apply (safe_bind _ _ (pass f)); [destruct minimize; apply flatten_safe|]. intros g Hg.
  eapply safe_bind; [apply optimize_loop_safe|]. intros h Hh. pose proof (pass_trans _ _ Hg _ Hh) as Hk.
  apply safe_told; [|by apply safe_ret]. intros s Hs. destruct minimize; [by apply told_MINIMIZED|by apply told_OPTIMIZED].
Qed.
