(* ===== verification/Lens.v ===== *)
(** Pushing through a filter: for filters that move files, applying and unapplying are the
    two halves of a lens on the trees of a repository, as computed by [apply] and [unapply]
    of josh-core/src/filter/mod.rs through the object database and all memo tables. *)

From S2P Require Import Prelude Path OptState Invert Builders Objects Store Utf8 Glob Pattern Persist.
From S2P Require Import TreeOps TreePaths TreeWalk Node NodeFacts Refine FileMap NodeFilter.
From S2P Require Import NodePut NodeKeys CommitCache Apply Denote ApplyFacts Relocate Concrete Ops.

(** * The laws on trees *)

Section Laws.
Context (f : filter) (Hf : follows (sem f) (route_of f)).

Abbreviation r := (route_of f).

Definition round_trip (c : bool) (p : names_path) : option names_path := go r c p ≫= come r c.
Definition round_back (c : bool) (q : names_path) : option names_path := come r c q ≫= go r c.

Lemma round_trip_id c p q : round_trip c p = Some q -> q = p.
Proof.
  unfold round_trip. rewrite bind_Some. intros (x & Hx & Hq).
  apply (route_back r (follows_route _ _ Hf)) in Hx. congruence.
Qed.

Lemma round_back_id c p q : round_back c p = Some q -> q = p.
Proof.
  unfold round_back. rewrite bind_Some. intros (x & Hx & Hq).
  apply (route_back r (follows_route _ _ Hf)) in Hx. congruence.
Qed.

Lemma round_trip_defined c p : is_Some (round_trip c p) <-> is_Some (go r c p).
Proof.
  unfold round_trip. split.
  - intros [q (x & Hx & _)%bind_Some]. by exists x.
  - intros [q Hq]. rewrite Hq. simpl. apply (route_back r (follows_route _ _ Hf)) in Hq. by exists p.
Qed.

Lemma round_back_defined c p : is_Some (round_back c p) <-> is_Some (come r c p).
Proof.
  unfold round_back. split.
  - intros [q (x & Hx & _)%bind_Some]. by exists x.
  - intros [q Hq]. rewrite Hq. simpl. apply (route_back r (follows_route _ _ Hf)) in Hq. by exists p.
Qed.

Lemma carries_round_trip : carries (fun t => bwd f (fwd f t)) round_trip.
Proof. apply carries_seq; apply Hf. Qed.

Lemma carries_round_back : carries (fun t => fwd f (bwd f t)) round_back.
Proof. apply carries_seq; apply Hf. Qed.

(** Out of the filtered tree and back come the files the filter moves. *)
Lemma leaf_round_trip t x e :
  tree_value t ->
  leaf_at (bwd f (fwd f t)) x = Some e <-> leaf_at t x = Some e /\ is_Some (go r (is_commit e.1) x).
Proof.
  intros Ht. rewrite <- round_trip_defined.
  exact (part_of _ _ carries_round_trip round_trip_id t x e Ht).
Qed.

Lemma leaf_round_back t q e :
  tree_value t ->
  leaf_at (fwd f (bwd f t)) q = Some e <-> leaf_at t q = Some e /\ is_Some (come r (is_commit e.1) q).
Proof.
  intros Ht. rewrite <- round_back_defined.
  exact (part_of _ _ carries_round_back round_back_id t q e Ht).
Qed.

Section Trees.
Context (t p : node) (Ht : tree_value t) (Hp : tree_value p).

Lemma fwd_value u : tree_value u -> tree_value (fwd f u).
Proof. intros Hu. by apply (follows_go _ _ Hf u). Qed.

Lemma bwd_value u : tree_value u -> tree_value (bwd f u).
Proof. intros Hu. by apply (follows_come _ _ Hf u). Qed.

(** The files of an unapplied tree. *)
Lemma leaf_unapply x :
  leaf_at (nunapply f t p) x =
    if occupied (bwd f t) x then leaf_at (bwd f t) x
    else if occupied (bwd f (fwd f p)) x then None else leaf_at p x.
Proof.
  unfold nunapply. rewrite leaf_at_noverlay, leaf_at_nsubtract;
    auto using bwd_value, fwd_value, tree_value_nsubtract.
Qed.

(** A file of the tree is replaced exactly if the filter moves it. *)
Lemma occupied_round_trip x e :
  leaf_at p x = Some e ->
  occupied (bwd f (fwd f p)) x = bool_decide (is_Some (go r (is_commit e.1) x)).
Proof.
  intros Hx. rewrite (part_occupied _ _ carries_round_trip round_trip_id p x e Hp Hx).
  apply bool_decide_ext, round_trip_defined.
Qed.

Lemma applied_again : same_files (fwd f (nunapply f t p)) (fwd f (bwd f t)).
Proof.
  assert (tree_value (nunapply f t p)) as Hu.
  { apply tree_value_noverlay; auto using bwd_value, fwd_value, tree_value_nsubtract. }
  intros q. apply option_eq. intros e. destruct (follows_go _ _ Hf _ Hu) as [_ L1].
  destruct (follows_go _ _ Hf _ (bwd_value t Ht)) as [_ L2].
  unfold fwd at 1 2. rewrite L1, L2. split; intros (x & Hx & Hm); exists x; (split; [|done]).
  - rewrite leaf_unapply in Hx. destruct (occupied (bwd f t) x); [done|].
    destruct (occupied (bwd f (fwd f p)) x) eqn:E; [done|].
    rewrite (occupied_round_trip x e Hx), bool_decide_eq_false in E. by destruct E.
  - rewrite leaf_unapply.
    by rewrite (file_occupied tree_mode (bwd f t) x (mk_is_Some _ _ Hx)).
Qed.

Lemma unapplied_again : same_files (nunapply f (fwd f p) p) p.
Proof.
  intros x. unfold nunapply. pose proof (fwd_value p Hp) as Hv. pose proof (bwd_value _ Hv) as Hb.
  rewrite leaf_at_noverlay, leaf_at_nsubtract by auto using tree_value_nsubtract.
  destruct (occupied (bwd f (fwd f p)) x) eqn:E; [|done].
  apply option_eq. intros e. rewrite leaf_round_trip by done. split; [by intros []|].
  intros Hx. split; [done|]. by rewrite (occupied_round_trip x e Hx), bool_decide_eq_true in E.
Qed.
(** The files of an unapplied tree, without reference to other trees. *)
Lemma unapply_files y e :
  leaf_at (nunapply f t p) y = Some e <->
    (exists q, leaf_at t q = Some e /\ go r (is_commit e.1) y = Some q) \/
    (leaf_at p y = Some e /\ go r (is_commit e.1) y = None /\
     forall q e' y', leaf_at t q = Some e' -> come r (is_commit e'.1) q = Some y' ->
       ~ comparable y y').
Proof.
  destruct (follows_come _ _ Hf t Ht) as [Hv Lb]. change ((sem f).2 t) with (bwd f t) in *.
  assert (forall y e, leaf_at (bwd f t) y = Some e <->
    exists q, leaf_at t q = Some e /\ go r (is_commit e.1) y = Some q) as Lb'.
  { intros y' e'. rewrite Lb. by setoid_rewrite <- (route_back r (follows_route _ _ Hf)). }
  assert (occupied (bwd f t) y = false <-> forall q e' y', leaf_at t q = Some e' ->
    come r (is_commit e'.1) q = Some y' -> ~ comparable y y') as Ho.
  { rewrite <- not_true_iff_false, occupied_leaf by apply Hv. split.
    - intros Hn q e' y' Hq Hc Hcmp. apply Hn. exists y', e'. split; [|done]. apply Lb. eauto.
    - intros Hn (y' & e' & Hy' & Hcmp). apply Lb in Hy' as (q & Hq & Hc). by eapply Hn. }
  rewrite <- Lb', <- Ho, leaf_unapply. destruct (occupied (bwd f t) y) eqn:E; [naive_solver|].
  assert (leaf_at (bwd f t) y = None) as -> by (by apply file_unoccupied).
  destruct (leaf_at p y) as [e'|] eqn:Ep; [|by case_match; naive_solver].
  rewrite (occupied_round_trip y e' Ep). case_bool_decide as Hd.
  - split; [done|]. intros [?|([= <-] & Hn & _)]; [done|]. by rewrite Hn in Hd; destruct Hd.
  - rewrite <- eq_None_not_Some in Hd. naive_solver.
Qed.
End Trees.
End Laws.

(** * The laws of the code *)

Section Properties.
Context `{ObjectHash} `{BisectEntry} `{EntryModes} `{RegexReplace} `{Readers} `{FilterText}.
Context `{!Collaborators} `{GlobKeys} {B : Type} `{CacheBackend B}.
Context (known : string -> bool) (recs : kept B).
Implicit Types (f : filter) (t p : node) (w : world B) (x : Rewrite.t).

(** The records of commits are the same before and after. *)
Abbreviation w_ok := (w_ok known recs).

Definition patterns_known : Prop := forall glob, known glob = true -> pattern_known glob.

(** A tree of the repository. *)
Definition stored (w : world B) (t : node) : Prop := value t /\ present (w_odb w) t.

(** Every file of the tree can be one of a filtered tree. *)
Definition reachable f t : bool :=
  forallb (fun l => bool_decide (is_Some (come (route_of f) (is_commit l.2.1) l.1)))
    (leaves tree_mode t).

Lemma reachable_leaf f t q e :
  reachable f t = true -> leaf_at t q = Some e -> is_Some (come (route_of f) (is_commit e.1) q).
Proof.
  intros Hr Hq%file_at_leaves. apply (elem_forallb _ _ _ Hr) in Hq. by apply bool_decide_eq_true in Hq.
Qed.

Lemma plain_sem f t : tree_filter known f = true -> plain t -> plain (fwd f t) /\ plain (bwd f t).
Proof. apply (sem_every _ known). Qed.

Lemma plain_unapply f t p :
  tree_filter known f = true -> plain t -> plain p -> plain (nunapply f t p).
Proof.
  intros Hf Ht Hp. apply every_noverlay; [by apply plain_sem|by apply every_nsubtract].
Qed.

Lemma value_unapply f t p : tree_filter known f = true -> value t -> value p -> value (nunapply f t p).
Proof.
  intros Hf Vt Vp. apply value_noverlay; [by apply (value_bwd known)|].
  apply value_nsubtract; [done|]. by apply (value_bwd known), (value_fwd known).
Qed.

(** ** The laws on trees *)

(** The files of a pushed tree, back through the filter. *)
Lemma put_get_files f t p q e :
  relocates known f = true -> value t -> value p ->
  leaf_at (fwd f (nunapply f t p)) q = Some e <->
  leaf_at t q = Some e /\ is_Some (come (route_of f) (is_commit e.1) q).
Proof.
  intros Hr Vt Vp. pose proof (relocates_follows known f Hr) as Hfo.
  rewrite (applied_again f Hfo t p) by (apply Vt || apply Vp). apply (leaf_round_back f Hfo), Vt.
Qed.

Lemma put_get f t p :
  relocates known f = true -> value t -> value p -> plain t -> plain p -> reachable f t = true ->
  fwd f (nunapply f t p) = t.
Proof.
  intros Hr Vt Vp Pl Plp Hre. destruct (relocates_tree_filter known f Hr) as [Hf _].
  pose proof (value_fwd known f _ Hf (value_unapply f t p Hf Vt Vp)) as Vv.
  apply same_files_eq; [apply Vv|apply Vt| |done|apply Vv|apply Vt|].
  - by apply plain_sem; [|apply plain_unapply].
  - intros q. apply option_eq. intros e. rewrite put_get_files by done.
    split; [by intros []|]. intros Hq. split; [done|]. by apply (reachable_leaf f t).
Qed.

Lemma get_put_files f p : relocates known f = true -> value p -> same_files (nunapply f (fwd f p) p) p.
Proof. intros Hr Vp. apply (unapplied_again f (relocates_follows known f Hr)), Vp. Qed.

Lemma get_put f p : relocates known f = true -> value p -> plain p -> nunapply f (fwd f p) p = p.
Proof.
  intros Hr Vp Hpl. destruct (relocates_tree_filter known f Hr) as [Hf _].
  pose proof (value_unapply f _ p Hf (value_fwd known f p Hf Vp) Vp) as Vu.
  apply same_files_eq; [apply Vu|apply Vp| |done|apply Vu|apply Vp|by apply get_put_files].
  apply plain_unapply; [done| |done]. by apply plain_sem.
Qed.

(** ** The code *)

(** C10: Applying a filter of trees ([tree_filter]: subdirectories, prefixes, renames, known
    patterns, and chains, exclusions, selections, subtractions and compositions of them) returns
    the tree that the meaning of the filter assigns; in a composition each branch leaves out what
    the branches before it have taken.  It terminates with a budget that depends on the filter
    and the tree only, from every sound state of the object database, the memo tables of the
    transaction and of the optimizer that has the tree; it stores the result, changes no other
    part of the rewrite and leaves a sound state. *)
Theorem apply_denotes f t :
  patterns_known -> tree_filter known f = true -> value t ->
  exists h0, forall kept w x h n, h0 <= h -> size f <= n ->
    ApplyFacts.w_ok known kept w -> present (w_odb w) t -> Rewrite.tree_id x = node_oid t -> exists w',
    apply_impl h n f x w = (Ok (Rewrite.with_tree (node_oid (fwd f t)) x), w') /\
    ApplyFacts.w_ok known kept w' /\ odb_extends (w_odb w) (w_odb w') /\ stored w' (fwd f t).
Proof.
  intros Hk Hf Vt. destruct (apply_means known Hk _ f t (le_n _) Hf Vt) as [h0 Hh].
  exists h0. intros kept w x h n Hh0 Hn Hw Pt Hx.
  destruct (Hh h Hh0 n _ x Hn Hx Pt kept w Hw (odb_extends_refl _)) as (w' & E & Hw' & He & Hp).
  exists w'. split; [done|]. split; [done|]. split; [done|]. split; [|done].
  by apply (value_fwd known).
Qed.

(** C4: The files of the tree that [apply] returns for a filter that moves files are the
    files of the tree, each at the path the filter moves it to, and no others. *)
Theorem apply_relocates f t x w :
  patterns_known -> relocates known f = true -> w_ok w -> stored w t ->
  Rewrite.tree_id x = node_oid t ->
  exists h0, forall h n, h0 <= h -> size f <= n -> exists r w',
    apply_impl h n f x w = (Ok (Rewrite.with_tree (node_oid r) x), w') /\
    w_ok w' /\ stored w' r /\
    forall q e, leaf_at r q = Some e <->
      exists y, leaf_at t y = Some e /\ go (route_of f) (is_commit e.1) y = Some q.
Proof.
  intros Hk Hr Hw [Vt Pt] Hx. destruct (relocates_tree_filter known f Hr) as [Hf _].
  destruct (apply_means known Hk _ f t (le_n _) Hf Vt) as [h0 Hh].
  exists h0. intros h n Hh0 Hn.
  destruct (Hh h Hh0 n _ x Hn Hx Pt recs w Hw (odb_extends_refl _)) as (w' & E & Hw' & _ & Hp).
  exists (fwd f t), w'. split; [done|]. split; [done|]. split; [by split; [apply (value_fwd known)|]|].
  apply (follows_go _ _ (relocates_follows known f Hr)), Vt.
Qed.

(** C3: The tree that [unapply] returns has the files of the pushed tree, each where the
    filter takes it from, and those files of the old tree that the filter leaves out and
    that no pushed file is in the way of. *)
Theorem unapply_merges f t p w commits :
  patterns_known -> relocates known f = true -> w_ok w -> stored w t -> stored w p ->
  exists h0, forall h n m, h0 <= h -> size f <= n -> exists u w',
    unapply h (apply_impl h n) (S m) f (node_oid t) (node_oid p) commits w = (Ok (node_oid u), w') /\
    w_ok w' /\ stored w' u /\
    forall y e, leaf_at u y = Some e <->
      (exists q, leaf_at t q = Some e /\ go (route_of f) (is_commit e.1) y = Some q) \/
      (leaf_at p y = Some e /\ go (route_of f) (is_commit e.1) y = None /\
       forall q e' y', leaf_at t q = Some e' -> come (route_of f) (is_commit e'.1) q = Some y' ->
         ~ comparable y y').
Proof.
  intros Hk Hr Hw [Vt Pt] [Vp Pp]. destruct (relocates_tree_filter known f Hr) as [Hf Hi].
  pose proof (relocates_follows known f Hr) as Hfo.
  destruct (unapply_means known Hk f t p Hf Hi Vt Vp) as [h0 Hh].
  exists h0. intros h n m Hh0 Hn.
  destruct (Hh h Hh0 n m _ commits Hn Pt Pp recs w Hw (odb_extends_refl _)) as (w' & E & Hw' & _ & Hp).
  exists (nunapply f t p), w'. split; [done|]. split; [done|]. split; [split; [|done]|].
  - by apply value_unapply.
  - intros y e. apply (unapply_files f Hfo); [apply Vt|apply Vp].
Qed.

(** C2: Applying a filter to an unapplied tree gives the pushed tree back, whatever the old
    tree was: the files of the result are the pushed files that a filtered tree can have,
    and if all can, it is the same tree object. *)
Theorem apply_after_unapply f t p w commits :
  patterns_known -> relocates known f = true -> w_ok w -> stored w t -> stored w p ->
  exists h0, forall h n m, h0 <= h -> size f <= n -> exists u v w1 w2,
    unapply h (apply_impl h n) (S m) f (node_oid t) (node_oid p) commits w = (Ok u, w1) /\
    apply_impl h n f (Rewrite.from_tree u) w1 = (Ok (Rewrite.from_tree (node_oid v)), w2) /\
    w_ok w2 /\ stored w2 v /\
    (forall q e, leaf_at v q = Some e <->
       leaf_at t q = Some e /\ is_Some (come (route_of f) (is_commit e.1) q)) /\
    (plain t -> plain p -> reachable f t = true -> v = t).
Proof.
  intros Hk Hr Hw [Vt Pt] [Vp Pp]. destruct (relocates_tree_filter known f Hr) as [Hf Hi].
  pose proof (relocates_follows known f Hr) as Hfo.
  pose proof (value_unapply f t p Hf Vt Vp) as Vu.
  destruct (unapply_means known Hk f t p Hf Hi Vt Vp) as [h1 Hh1].
  destruct (apply_means known Hk _ f _ (le_n _) Hf Vu) as [h2 Hh2].
  exists (max h1 h2). intros h n m Hh0 Hn.
  destruct (Hh1 h ltac:(lia) n m _ commits Hn Pt Pp recs w Hw (odb_extends_refl _)) as (w1 & E1 & Hw1 & _ & P1).
  destruct (Hh2 h ltac:(lia) n _ (Rewrite.from_tree (node_oid (nunapply f t p))) Hn eq_refl P1 recs w1 Hw1
    (odb_extends_refl _)) as (w2 & E2 & Hw2 & _ & P2).
  eexists _, (fwd f (nunapply f t p)), w1, w2. split; [done|]. split; [done|]. split; [done|].
  pose proof (value_fwd known f _ Hf Vu) as Vv. split; [by split|].
  split; [intros q e; by apply put_get_files|]. intros Pl Plp Hre. by apply put_get.
Qed.

(** C9: Unapplying what applying has returned changes nothing, for filters that move files without
    overlapping branches ([relocates]): the result has the files of the old tree, and it is the
    same object if the subtrees of the old tree have the usual mode ([plain]). *)
Theorem unapply_after_apply f p w commits :
  patterns_known -> relocates known f = true -> w_ok w -> stored w p ->
  exists h0, forall h n m, h0 <= h -> size f <= n -> exists x u w1 w2,
    apply_impl h n f (Rewrite.from_tree (node_oid p)) w = (Ok x, w1) /\
    unapply h (apply_impl h n) (S m) f (Rewrite.tree_id x) (node_oid p) commits w1 =
      (Ok (node_oid u), w2) /\
    w_ok w2 /\ stored w2 u /\ same_files u p /\ (plain p -> u = p).
Proof.
  intros Hk Hr Hw [Vp Pp]. destruct (relocates_tree_filter known f Hr) as [Hf Hi].
  pose proof (relocates_follows known f Hr) as Hfo. pose proof (value_fwd known f p Hf Vp) as Vf.
  pose proof (value_unapply f _ p Hf Vf Vp) as Vu.
  destruct (apply_means known Hk _ f p (le_n _) Hf Vp) as [h1 Hh1].
  destruct (unapply_means known Hk f _ p Hf Hi Vf Vp) as [h2 Hh2].
  exists (max h1 h2). intros h n m Hh0 Hn.
  destruct (Hh1 h ltac:(lia) n _ (Rewrite.from_tree (node_oid p)) Hn eq_refl Pp recs w Hw (odb_extends_refl _))
    as (w1 & E1 & Hw1 & He1 & P1).
  destruct (Hh2 h ltac:(lia) n m _ commits Hn P1 (present_extends _ _ _ He1 Pp) recs w1 Hw1
    (odb_extends_refl _)) as (w2 & E2 & Hw2 & _ & P2).
  eexists _, (nunapply f (fwd f p) p), w1, w2. split; [exact E1|]. split; [exact E2|].
  split; [done|]. split; [by split|].
  split; [by apply get_put_files|]. by apply get_put.
Qed.
End Properties.

(** * The theorems apply *)

#[local] Instance example_regex : RegexReplace := {| regex_replacen _ s _ := s |}.
#[local] Instance example_readers : Readers :=
  {| json_string _ := None; oid_from_str _ := None; regex_new _ := true |}.
#[local] Instance example_text : FilterText := {|
  parse _ := Err "syntax";
  as_file _ := EmptyString;
  Apply.pretty _ _ := EmptyString;
  get_comments _ := Err "syntax";
|}.
#[local] Instance example_collaborators `{ObjectHash} : Collaborators := {|
  mode_value m :=
    match mode_kind m with
    | KTree => 16384
    | KBlob => 33188
    | KBlobExecutable => 33261
    | KLink => 40960
    | KCommit => 57344
    end%Z;
  mode_value_tree := eq_refl;
  replace_all _ _ s _ := mret s;
  strfmt_map _ s _ := mret s;
  starlark_evaluate _ _ _ := Err "script";
  trigram_index _ _ := fail "index";
  parse_gitmodules _ := Err "syntax";
  lookup_filter_hook _ _ := Err "hook";
  experimental_features_enabled := false;
|}.

Definition rust_files (glob : string) : bool := bool_decide (glob = "src/**/*.rs").

Lemma rust_files_known : patterns_known rust_files.
Proof.
  intros glob ->%bool_decide_eq_true. unfold pattern_known.
  eexists example_pattern, _. split; [vm_compute; reflexivity|]. split; [vm_compute; reflexivity|].
  vm_compute fallback. intros s a. reflexivity.
Qed.

(** A directory and a file under new names, without one file. *)
Definition workspace_filter : filter :=
  Op.Chain [Op.Exclude (Op.File [Normal "l"] [Normal "l"]);
            Op.Compose [Op.Chain [Op.Subdir [Normal "a"]; Op.Prefix [Normal "lib"; Normal "core"]];
                        Op.File [Normal "readme"] [Normal "x"]]].

(** What is pushed to the filtered repository: one file of the directory is gone, one is
    new. *)
Definition pushed_tree : node :=
  Node [dir "lib" [dir "core" [file "n" "5"; file "p" "1"]]; file "readme" "7"].

(** A transaction without caches of commits. *)
#[local] Instance no_backend : CacheBackend Empty_set := {|
  backend_read _ _ _ _ (b : Empty_set) := match b with end;
  backend_write _ _ _ _ _ (b : Empty_set) := match b with end;
|}.
Definition no_records : records Empty_set := Records [] [] [] 0 0 None ∅ ∅.

Definition example_world : world Empty_set :=
  World no_caches
    (fresh_tx (store_of ((OBlob <$> ["1"; "2"; "3"; "4"; "5"; "6"; "7"; "8"]) ++
      tree_objects example_left ++ tree_objects pushed_tree ++ tree_objects rust_tree)))
    [] [] [] ∅ ∅ no_records.

Lemma example_world_ok : w_ok rust_files (kept_of example_world) example_world.
Proof. split; [constructor|apply fresh_tx_ok, store_of_ok|constructor|constructor|done]. Qed.

(** Well-formedness of a concrete tree. *)
Ltac stored_tree :=
  split; [|present_tree];
  split; [split; [|reflexivity]; simpl; repeat (split || constructor || done || set_solver)|];
  repeat (split; [split; reflexivity|]); vm_compute; tauto.

Lemma example_left_stored : stored example_world example_left.
Proof. stored_tree. Qed.

Lemma pushed_tree_stored : stored example_world pushed_tree.
Proof. stored_tree. Qed.

Lemma rust_tree_stored : stored example_world rust_tree.
Proof. stored_tree. Qed.

Lemma apply_denotes_witness :
  let f := Op.Subtract (Op.Pattern "src/**/*.rs") (Op.Prefix [Normal "y"]) in
  (exists h w', apply_impl h 3 f (Rewrite.from_tree (node_oid rust_tree)) example_world =
    (Ok (Rewrite.from_tree (node_oid (fwd f rust_tree))), w')) /\
  (apply_impl 9 3 (Op.Pattern "src/**/*.rs") (Rewrite.from_tree (node_oid rust_tree)) example_world).1 =
    Ok (Rewrite.from_tree (node_oid (Node [dir "src" [dir "a" [file "b.rs" "1"]]]))).
Proof.
  split; [|vm_compute; reflexivity].
  destruct (apply_denotes rust_files (Op.Subtract (Op.Pattern "src/**/*.rs") (Op.Prefix [Normal "y"])) rust_tree rust_files_known)
    as [h0 Hh]; [reflexivity|exact (proj1 rust_tree_stored)|].
  destruct (Hh (kept_of example_world) example_world (Rewrite.from_tree (node_oid rust_tree)) h0 3) as (w' & E & _);
    [lia|vm_compute; lia|exact example_world_ok|exact (proj2 rust_tree_stored)|reflexivity|].
  exists h0, w'. exact E.
Defined.

Lemma apply_relocates_witness :
  (exists h r w', apply_impl h 20 workspace_filter (Rewrite.from_tree (node_oid example_left))
      example_world = (Ok (Rewrite.from_tree (node_oid r)), w') /\
    leaf_at r ["lib"; "core"; "q"] = Some (blob_mode, compute_hash (OBlob "2"))) /\
  (apply_impl 20 20 workspace_filter (Rewrite.from_tree (node_oid example_left)) example_world).1 =
    Ok (Rewrite.from_tree (node_oid (Node [dir "lib" [dir "core" [file "p" "1"; file "q" "2"]];
      file "readme" "4"]))).
Proof.
  split; [|vm_compute; reflexivity].
  destruct (apply_relocates rust_files (kept_of example_world) workspace_filter example_left
    (Rewrite.from_tree (node_oid example_left)) example_world rust_files_known)
    as [h0 Hh]; [vm_compute; reflexivity|exact example_world_ok|exact example_left_stored|reflexivity|].
  destruct (Hh h0 20) as (r & w' & E & _ & _ & Hr); [lia|vm_compute; lia|].
  exists h0, r, w'. split; [exact E|]. apply Hr.
  exists ["a"; "q"]. split; vm_compute; reflexivity.
Defined.

(** The file that is not part of the filtered tree stays, the renamed file is changed, and
    in the directory one file goes and one comes. *)
Lemma unapply_merges_witness :
  (exists h u w', unapply h (apply_impl h 20) 1 workspace_filter (node_oid pushed_tree)
      (node_oid example_left) None example_world = (Ok (node_oid u), w') /\
    leaf_at u ["x"] = Some (blob_mode, compute_hash (OBlob "7"))) /\
  (unapply 20 (apply_impl 20 20) 1 workspace_filter (node_oid pushed_tree) (node_oid example_left)
      None example_world).1 =
    Ok (node_oid (Node [dir "a" [file "n" "5"; file "p" "1"]; file "l" "3"; file "x" "7"])).
Proof.
  split; [|vm_compute; reflexivity].
  destruct (unapply_merges rust_files (kept_of example_world) workspace_filter pushed_tree example_left example_world None
    rust_files_known) as [h0 Hh];
    [vm_compute; reflexivity|exact example_world_ok|exact pushed_tree_stored|exact example_left_stored|].
  destruct (Hh h0 20 0) as (u & w' & E & _ & _ & Hu); [lia|vm_compute; lia|].
  exists h0, u, w'. split; [exact E|]. apply Hu. left. exists ["readme"]. split; vm_compute; reflexivity.
Defined.

Lemma plain_example_left : plain example_left.
Proof. vm_compute. repeat (split; [done|]). tauto. Qed.

Lemma apply_after_unapply_witness :
  exists h u w1 w2,
    unapply h (apply_impl h 20) 1 workspace_filter (node_oid pushed_tree) (node_oid example_left)
      None example_world = (Ok u, w1) /\
    apply_impl h 20 workspace_filter (Rewrite.from_tree u) w1 =
      (Ok (Rewrite.from_tree (node_oid pushed_tree)), w2).
Proof.
  destruct (apply_after_unapply rust_files (kept_of example_world) workspace_filter pushed_tree example_left example_world None
    rust_files_known) as [h0 Hh];
    [vm_compute; reflexivity|exact example_world_ok|exact pushed_tree_stored|exact example_left_stored|].
  destruct (Hh h0 20 0) as (u & v & w1 & w2 & E1 & E2 & _ & _ & _ & Hv); [lia|vm_compute; lia|].
  exists h0, u, w1, w2. split; [exact E1|]. rewrite Hv in E2; [exact E2|..].
  - vm_compute. repeat (split; [done|]). tauto.
  - exact plain_example_left.
  - vm_compute. reflexivity.
Defined.

Lemma unapply_after_apply_witness :
  exists h x w1 w2,
    apply_impl h 20 workspace_filter (Rewrite.from_tree (node_oid example_left)) example_world = (Ok x, w1) /\
    unapply h (apply_impl h 20) 1 workspace_filter (Rewrite.tree_id x) (node_oid example_left) None w1 =
      (Ok (node_oid example_left), w2).
Proof.
  destruct (unapply_after_apply rust_files (kept_of example_world) workspace_filter example_left example_world None
    rust_files_known) as [h0 Hh];
    [vm_compute; reflexivity|exact example_world_ok|exact example_left_stored|].
  destruct (Hh h0 20 0) as (x & u & w1 & w2 & E1 & E2 & _ & _ & _ & Hu); [lia|vm_compute; lia|].
  exists h0, x, w1, w2. split; [exact E1|]. rewrite Hu in E2; [exact E2|]. exact plain_example_left.
Defined.
