(* ===== verification/OptLaws.v ===== *)
(** What optimizing a filter promises: the rewriting ends, and the optimized filter moves every
    file to where the filter does.  Two examples show where files are lost or come back: compositions whose branches
    overlap and end in the same filter, and subtractions from such a composition. *)

From S2P Require Import Prelude Path OptState Invert Step Builders Objects Store Utf8 Glob Pattern Persist.
From S2P Require Import TreeOps TreePaths TreeWalk Node NodeFacts Refine FileMap NodeFilter.
From S2P Require Import NodePut NodeKeys CommitCache Apply Denote ApplyFacts Relocate OptRoutes Lens Concrete Ops.

Open Scope nat_scope.

(** * Routes and relations *)

Lemma good_plain p : good_path p = true -> plain_path p = true /\ p ≠ [].
Proof.
  unfold good_path, plain_path. rewrite andb_true_iff, !bool_decide_eq_true. tauto.
Qed.

Lemma relocates_movable known f : relocates known f = true -> movable f = true.
Proof.
  induction f as [f IH] using filter_ind. intros Hr.
  assert (forall l, Forall (fun f => relocates known f = true -> movable f = true) l ->
    forallb (relocates known) l = true -> forallb movable l = true) as Hlist.
  { intros l Hl Hf. rewrite Forall_forallb in *. rewrite Forall_forall in *. auto. }
  destruct f; cbn [relocates children movable] in *; try done; rewrite ?andb_true_iff in Hr;
    try (by apply Forall_cons in IH as [IH _]; destruct Hr; auto); try (by apply Forall_cons in IH as [IH _]; auto).
  - destruct Hr as [[Hd ?]%good_plain [Hs ?]%good_plain]. rewrite Hd, Hs. by apply bool_decide_eq_true.
  - by destruct (good_plain _ Hr).
  - by destruct (good_plain _ Hr).
  - destruct Hr as [[Hr _] _]. auto.
  - auto.
Qed.

(** For filters that are routes the relation is the route. *)
Lemma relocates_edges known f c p q :
  relocates known f = true -> edges f c p q <-> p ≠ [] /\ go (route_of f) c p = Some q.
Proof.
  revert c p q. induction f as [f IH] using filter_ind. intros c p q Hr.
  destruct f; cbn [relocates children] in Hr, IH; try done; cbn [edges route_of];
    try (unfold here, nowhere; simpl; naive_solver).
  - apply Forall_cons in IH as [IH _]. by apply IH.
  - apply andb_true_iff in Hr as [Hd Hs]. simpl. rewrite rename_path_Some. split; [|naive_solver].
    intros (r & -> & ->). split; [|by exists r]. destruct (good_plain _ Hs) as [H1 H2].
    intros [? _]%app_nil. by apply (plain_nonempty _ H1 H2).
  - simpl. rewrite into_dir_Some. naive_solver.
  - simpl. rewrite out_of_dir_Some. split; [|naive_solver]. intros [Hq ->]. split; [|done]. by intros [_ ?]%app_nil.
  - rewrite some_stay_Some, andb_true_iff, negb_true_iff. unfold here. naive_solver.
  - apply andb_true_iff in Hr as [[Hr Ha]%andb_true_iff Hb].
    assert (Forall good_route (route_of <$> filters)) as Hg.
    { apply Forall_fmap. rewrite Forall_forallb in Hr. eapply Forall_impl; [exact Hr|]. intros f Hf.
      apply (follows_route _ _ (relocates_follows known f Hf)). }
    rewrite (union_go _ _ _ _ Hg Ha). change (any_of (edges <$> filters)) with (edges (Op.Compose filters)).
    rewrite any_of_edges. setoid_rewrite list_elem_of_fmap. rewrite Forall_forallb in Hr.
    rewrite Forall_forall in Hr, IH. split.
    + intros (f & Hf & Hp). apply IH in Hp as [? ?]; [|done|auto]. split; [done|]. eauto.
    + intros [Hp (r & (f & -> & Hf) & Hq)]. exists f. split; [done|]. apply IH; auto.
  - change (one_after_other (edges <$> filters)) with (edges (Op.Chain filters)).
    revert p q. induction IH as [|f l Hf _ IHl]; intros p q; [simpl; unfold here; naive_solver|].
    cbn [forallb] in Hr. apply andb_true_iff in Hr as [Hrf Hr]. rewrite fmap_cons, chain_go, bind_Some.
    change (edges (Op.Chain (f :: l))) with (after (edges f) (edges (Op.Chain l))). unfold after. split.
    + intros (u & [Hp Hu]%Hf & [_ Hq]%IHl); [|done|done]. eauto.
    + intros [Hp (u & Hu & Hq)]. assert (edges f c p u) as He by (by apply Hf).
      exists u. split; [done|]. apply IHl; [done|]. split; [|done].
      apply (movable_below f (relocates_movable known f Hrf) c p u He).
  - apply andb_true_iff in Hr as [Hr _]. apply Forall_cons in IH as [IH _]. rewrite some_stay_Some, negb_true_iff.
    unfold left_out, here, moves. rewrite bool_decide_eq_false. split.
    + intros [[-> Hp] Hn]. split; [done|]. split; [done|]. intros [r Hg]. apply Hn. exists r. by apply IH.
    + intros (Hp & -> & Hn). split; [done|]. intros [r [_ Hg]%IH]; [|done]. apply Hn. by exists r.
  - apply andb_true_iff in Hr as [Hr _]. apply Forall_cons in IH as [IH _]. rewrite some_stay_Some.
    unfold leaving, here, moves. rewrite bool_decide_eq_true. split.
    + intros [[-> Hp] [r [_ Hg]%IH]]; [|done]. split; [done|]. split; [done|]. by exists r.
    + intros (Hp & -> & [r Hg]). split; [done|]. exists r. by apply IH.
Qed.

(** * The laws *)

(** C11: The rewriting of the optimizer ends and keeps where files go.  From memo tables that are
    right and hold nothing but what steps can return, as new tables are and as [iterate] leaves
    them, [iterate] returns one filter for every filter and every large enough budget.  If the
    filter only moves files ([movable]: there is no subtraction in it), so does the returned one,
    and it can take the file at a path to a path exactly if the given filter can; if the branches
    of the filter do not overlap either ([relocates]), that is exactly where the filter takes the
    file.  Where branches overlap, [edges] does not say which of them wins. *)
Theorem iterate_keeps_routes f s :
  tables_ok s -> settled s -> exists g s',
    ample (fun n => iterate n f s = (Ok g, s')) /\ tables_ok s' /\ settled s' /\
    (movable f = true -> movable g = true /\ forall c p q, edges g c p q <-> edges f c p q) /\
    (forall known, relocates known f = true ->
      forall c p q, edges g c p q <-> p ≠ [] /\ go (route_of f) c p = Some q).
Proof.
  intros Hs Hd. destruct (iterate_loop_ends 1000 f s Hd) as (g & s' & [h0 E] & Hd' & _).
  exists g, s'. split; [by exists h0|]. specialize (E h0 (le_n _)). destruct (iterate_safe 1000 h0 f s Hs) as [Hs' Hg].
  rewrite E in Hs', Hg. split; [done|]. split; [done|]. split.
  - intros Hf. destruct (Hg Hf) as [Hm Eg]. split; [done|]. intros c p q. symmetry. apply Eg.
  - intros known Hr c p q. rewrite <- (relocates_edges known f) by done. symmetry.
    apply Hg. by eapply relocates_movable.
Qed.

Section Code.
Context `{ObjectHash} `{BisectEntry} `{EntryModes} `{RegexReplace} `{Readers} `{FilterText}.
Context `{!Collaborators} `{GlobKeys} {B : Type} `{CacheBackend B}.
Context (known : string -> bool).

Abbreviation world := (world B).

(** Filters that move files to the same places make the same tree of a plain tree. *)
Lemma same_edges_fwd f g t :
  relocates known f = true -> relocates known g = true -> edges f ≃ edges g -> value t -> plain t ->
  fwd f t = fwd g t.
Proof.
  intros Hf Hg E Vt Hpl. destruct (relocates_tree_filter known f Hf) as [Tf _], (relocates_tree_filter known g Hg) as [Tg _].
  pose proof (value_fwd known f t Tf Vt) as Vf. pose proof (value_fwd known g t Tg Vt) as Vg.
  apply same_files_eq; [apply Vf|apply Vg|by apply (plain_sem known)|by apply (plain_sem known)|apply Vf|apply Vg|].
  destruct (follows_go _ _ (relocates_follows known f Hf) t (proj1 Vt)) as [_ Lf].
  destruct (follows_go _ _ (relocates_follows known g Hg) t (proj1 Vt)) as [_ Lg].
  assert (forall y e q, leaf_at t y = Some e ->
    go (route_of f) (is_commit e.1) y = Some q <-> go (route_of g) (is_commit e.1) y = Some q) as Hgo.
  { intros y e q Hy. assert (y ≠ []) as Hn by (intros ->; by rewrite leaf_at_root in Hy by apply Vt).
    pose proof (relocates_edges known f (is_commit e.1) y q Hf). pose proof (relocates_edges known g (is_commit e.1) y q Hg).
    specialize (E (is_commit e.1) y q). tauto. }
  intros q. apply option_eq. intros e. rewrite Lf, Lg. split; intros (y & Hy & Hq); exists y; (split; [done|]); by apply (Hgo y e q Hy).
Qed.

(** C12: What is applied is what was asked for.  If [optimize] returns a filter for one that only
    moves files, and the returned filter has no overlapping branches, [apply] of it returns a
    tree whose files are the files of the tree, each where the unoptimized filter moves it, and
    no others; and if the unoptimized filter has no overlapping branches either and the subtrees
    of the tree have the usual mode, it is the very object that [apply] returns for that filter.
    That [optimize] returns is a hypothesis: nothing bounds its outer loop. *)
Theorem optimized_filter_moves f g t x (w : world) minimize k m s :
  patterns_known known -> tables_ok s -> movable f = true ->
  (optimize_impl minimize k m f s).1 = Ok g -> relocates known g = true ->
  w_ok known (kept_of w) w -> stored w t -> Rewrite.tree_id x = node_oid t ->
  exists h0, forall h n, h0 <= h -> size g <= n -> exists r w',
    apply_impl h n g x w = (Ok (Rewrite.with_tree (node_oid r) x), w') /\
    (forall q e, leaf_at r q = Some e <-> exists y, leaf_at t y = Some e /\ edges f (is_commit e.1) y q) /\
    (relocates known f = true -> plain t -> r = fwd f t).
Proof.
  intros Hk Hs Hf Eg Hg Hw [Vt Pt] Hx. destruct (relocates_tree_filter known g Hg) as [Tg _].
  destruct (optimize_safe minimize k m f s Hs) as [_ Hpass]. rewrite Eg in Hpass. destruct (Hpass Hf) as [_ E].
  destruct (apply_means known Hk _ g t (le_n _) Tg Vt) as [h0 Hh]. exists h0. intros h n Hh0 Hn.
  destruct (Hh h Hh0 n _ x Hn Hx Pt _ w Hw (odb_extends_refl _)) as (w' & Ea & _ & _ & Hp).
  exists (fwd g t), w'. split; [done|].
  assert (forall q e, leaf_at (fwd g t) q = Some e <-> exists y, leaf_at t y = Some e /\ edges f (is_commit e.1) y q) as Hleaf.
  { intros q e. destruct (follows_go _ _ (relocates_follows known g Hg) t (proj1 Vt)) as [_ Hl]. rewrite Hl.
    split; intros (y & Hy & Hq); exists y; (split; [done|]).
    - apply E, (relocates_edges known g); [done|]. split; [|done]. intros ->. by rewrite leaf_at_root in Hy by apply Vt.
    - by apply E, (relocates_edges known g) in Hq as [_ Hq]. }
  split; [exact Hleaf|]. intros Hrf Hpl. symmetry. by apply (same_edges_fwd f g).
Qed.
End Code.

(** * Examples *)

#[local] Existing Instances example_regex example_readers example_text example_collaborators no_backend.

Definition world_of (t : node) : world Empty_set :=
  World no_caches (fresh_tx (store_of (OBlob "1" :: tree_objects t))) [] [] [] ∅ ∅ no_records.

(** The tree that a filter makes of a tree, and what the optimized filter makes of it. *)
Definition applied (f : filter) (t : node) : res oid :=
  Rewrite.tree_id <$> (apply_impl 20 20 f (Rewrite.from_tree (node_oid t)) (world_of t)).1.
Definition optimized (f : filter) : res filter := (Step.optimize 20 20 f no_caches).1.

(** A file is lost.  The optimizer takes the common last filter out of a composition; the
    first of two overlapping branches then takes a file that the last filter drops, while the
    second branch kept it. *)
Example overlapping_branches_lose_files :
  let f := Op.Compose [Op.Chain [Op.Subdir [Normal "a"]; Op.Pattern "a/*"]; Op.Pattern "a/*"] in
  let t := Node [dir "a" [file "f" "1"]] in
  exists g, optimized f = Ok g /\ applied f t = Ok (node_oid t) /\ applied g t = Ok empty_id.
Proof. eexists. split; [vm_compute; reflexivity|]. split; vm_compute; reflexivity. Qed.

(** A file comes back.  A branch that is subtracted from a composition it belongs to is
    dropped from the composition, although another branch keeps files of it. *)
Example subtracted_branch_comes_back :
  let f := Op.Subtract (Op.Compose [Op.Pattern "a*"; Op.Pattern "ab*"]) (Op.Pattern "ab*") in
  let t := Node [file "abc" "1"] in
  exists g, optimized f = Ok g /\ applied f t = Ok empty_id /\ applied g t = Ok (node_oid t).
Proof. eexists. split; [vm_compute; reflexivity|]. split; vm_compute; reflexivity. Qed.

Definition optimized_workspace : filter :=
  Op.Chain [Op.Exclude (Op.File [Normal "l"] [Normal "l"]);
            Op.Compose [Op.Chain [Op.Subdir [Normal "a"]; Op.Prefix [Normal "core"]; Op.Prefix [Normal "lib"]];
                        Op.File [Normal "readme"] [Normal "x"]]].

Lemma iterate_keeps_routes_witness :
  exists g s', ample (fun n => iterate n workspace_filter no_caches = (Ok g, s')) /\
    edges g false ["a"; "p"] ["lib"; "core"; "p"].
Proof.
  destruct (iterate_keeps_routes workspace_filter no_caches no_caches_ok no_caches_settled)
    as (g & s' & E & _ & _ & _ & Hr).
  exists g, s'. split; [exact E|]. apply (Hr rust_files); [vm_compute; reflexivity|]. split; [done|]. vm_compute. reflexivity.
Defined.

Lemma optimized_filter_moves_witness :
  exists h r w',
    optimized workspace_filter = Ok optimized_workspace /\
    apply_impl h 20 optimized_workspace (Rewrite.from_tree (node_oid example_left)) example_world =
      (Ok (Rewrite.from_tree (node_oid r)), w') /\ r = fwd workspace_filter example_left.
Proof.
  destruct (optimized_filter_moves rust_files workspace_filter optimized_workspace example_left
    (Rewrite.from_tree (node_oid example_left)) example_world false 20 20 no_caches rust_files_known no_caches_ok)
    as [h0 Hh]; [vm_compute; reflexivity|vm_compute; reflexivity|vm_compute; reflexivity|exact example_world_ok
    |exact example_left_stored|reflexivity|].
  destruct (Hh h0 20) as (r & w' & E & _ & Hr); [lia|vm_compute; lia|].
  exists h0, r, w'. split; [vm_compute; reflexivity|]. split; [exact E|].
  apply Hr; [vm_compute; reflexivity|exact plain_example_left].
Defined.
