(* ===== verification/FlangLaws.v ===== *)
(** The promise of [spec] and [parse]: what is printed for a filter is parsed as the filter that
    the builders make of its operators, and for filters that move files as one that moves every
    file to the same place.  Examples show where the promise is broken. *)

From S2P Require Import Path OptState Invert Simplify Step Builders Objects Utf8 Glob Pattern Persist.
From S2P Require Import Pest Grammar FlangParse Flang FlangText FlangItems FlangRound.
From S2P Require Import Relocate OptRoutes Prelude Ops.

Open Scope nat_scope.

(** * Rebuilt filters *)

Lemma pass_chain l f c v :
  (forallb movable l = true -> keeps (Op.Chain l) c) -> (movable f = true -> keeps f v) ->
  forallb movable (l ++ [f]) = true -> keeps (Op.Chain (l ++ [f])) (Op.Chain [c; v]).
Proof.
  intros Hc Hv Hm. rewrite forallb_app in Hm. apply andb_true_iff in Hm as [Hl Hf]. cbn [forallb] in Hf.
  rewrite andb_true_r in Hf. destruct (Hc Hl) as [Mc Ec], (Hv Hf) as [Mv Ev]. split; [simpl; by rewrite Mc, Mv|].
  rewrite chain_app by (simpl; by rewrite Hf). rewrite Ec.
  change (edges (Op.Chain [c; v])) with (after (edges c) (edges (Op.Chain [v]))). apply after_proper; [done|].
  rewrite !chain_one by done. done.
Qed.

Lemma chained_safe h (ms : list (opt filter)) (fs : list filter) :
  Forall2 (fun m f => safe m (pass f)) ms fs -> safe (chained h ms) (pass (Op.Chain fs)).
Proof.
  intros Hms. unfold chained.
  assert (forall before c, (forallb movable before = true -> keeps (Op.Chain before) c) ->
    safe (foldM (fun c m => v ← m; Filter.chain h c v) c ms) (pass (Op.Chain (before ++ fs)))) as Hg.
  { induction Hms as [|m f ms fs Hm _ IH]; intros before c Hc; cbn [foldM].
    { rewrite app_nil_r. by apply safe_ret. }
    apply (safe_bind _ _ (fun c' => forallb movable (before ++ [f]) = true -> keeps (Op.Chain (before ++ [f])) c')).
    - eapply safe_bind; [exact Hm|]. intros v Hv. eapply safe_weaken; [apply optimize_safe|]. intros g Hg Hall.
      pose proof (pass_chain before f c v Hc Hv Hall) as Hk. eapply keeps_trans; [exact Hk|]. apply Hg, Hk.
    - intros c' Hc'. rewrite (cons_middle f before fs), app_assoc. by apply IH. }
  apply (Hg [] Filter.new). intros _. by split.
Qed.

Lemma safe_all {A B} (ms : list (opt B)) (l : list A) (R : A -> B -> Prop) :
  Forall2 (fun m a => safe m (R a)) ms l -> safe (mapM id ms) (fun bs => Forall2 R l bs).
Proof.
  induction 1 as [|m a ms l Hm _ IH]; cbn [mapM]; [apply safe_ret; constructor|].
  eapply safe_bind; [exact Hm|]. intros b Hb. eapply safe_bind; [exact IH|]. intros bs Hbs. apply safe_ret. by constructor.
Qed.

Lemma pass_one f g : (movable f = true -> keeps f g) -> movable f = true -> keeps f (Op.Compose [g]).
Proof.
  intros Hg Hf. destruct (Hg Hf) as [Mg E]. split; [simpl; by rewrite Mg|]. by rewrite compose_one.
Qed.

Lemma in_directory_eq l p : in_directory l = Some p -> l = [Op.Subdir p; Op.Prefix p].
Proof.
  unfold in_directory. destruct l as [|a [|b [|]]]; try done. unfold to_op.
  destruct a; try done. destruct b; try done. case_decide; [|done]. intros [= ->]. by subst.
Qed.

Section Laws.
Context `{JsonText}.
Context (experimental : bool).

(** The operators of a filter that moves files move files, one after the other to the same places. *)
Definition steps_of (h : nat) (f : filter) : Prop :=
  exists fs, Forall2 (fun m g => safe m (pass g)) (items h f) fs /\
    (movable f = true -> forallb movable fs = true /\ edges f ≃ edges (Op.Chain fs)).

Lemma rebuild_safe h f : steps_of h f -> safe (rebuild h f) (pass f).
Proof.
  intros (fs & Hm & He). eapply safe_weaken; [by apply chained_safe|]. intros g Hg Hf.
  destruct (He Hf) as [Hfs E]. destruct (Hg Hfs) as [Mg Eg]. split; [done|]. by rewrite E.
Qed.

Lemma steps_one h f (m : opt filter) : items h f = [m] -> safe m (pass f) -> steps_of h f.
Proof.
  intros E Hm. exists [f]. rewrite E. split; [constructor; [done|constructor]|]. intros Hf. split; [simpl; by rewrite Hf|]. by rewrite chain_one.
Qed.

Lemma steps_chain h l : Forall (steps_of h) l -> exists fs,
  Forall2 (fun m g => safe m (pass g)) (concat (items h <$> l)) fs /\
  (forallb movable l = true -> forallb movable fs = true /\ edges (Op.Chain l) ≃ edges (Op.Chain fs)).
Proof.
  induction 1 as [|f l (fs & Hf & Ef) _ (fs' & Hl & El)]; [by exists []|]. exists (fs ++ fs'). split; [by apply Forall2_app|].
  cbn [forallb]. intros [Mf Ml]%andb_true_iff. destruct (Ef Mf) as [H1 E1], (El Ml) as [H2 E2].
  split; [by rewrite forallb_app, H1|]. rewrite chain_app by done. rewrite <- E1, <- E2. done.
Qed.

Lemma rebuilt_steps h f : steps_of h f.
Proof.
  induction f as [f IH] using filter_ind.
  assert (forall o, safe (Filter.chain h Filter.new o) (pass o)) as Hnew.
  { intros o. eapply safe_weaken; [apply optimize_safe|]. intros g Hg Ho. eapply keeps_trans; [|apply Hg; simpl; by rewrite Ho].
    split; [simpl; by rewrite Ho|]. change (edges o ≃ after here (edges (Op.Chain [o]))). rewrite chain_one by done.
    symmetry. apply after_here_l. by apply movable_below. }
  assert (forall o, safe (leaf_item h o) (pass o)) as Hleaf.
  { intros o. destruct o; first [apply Hnew|apply safe_ret; intros; by apply keeps_same]. }
  assert (forall b, Forall (steps_of h) [b] -> safe (rebuild h b) (pass b)) as Hone
    by (intros b [Hb _]%Forall_cons; by apply rebuild_safe).
  destruct f; cbn [children] in IH; try (by eapply steps_one; [reflexivity|apply Hleaf]).
  - eapply steps_one; [reflexivity|]. eapply safe_bind; [by apply Hone|]. intros g Hg. by apply safe_ret.
  - eapply steps_one; [reflexivity|]. apply (safe_bind _ _ (fun _ => True)); [|intros arms _; by apply safe_ret].
    eapply safe_any, (safe_all _ filters (fun _ _ => True)), Forall2_fmap_l, Forall2_same_length_lookup_2.
    { done. }
    intros i x y Hx Hy. simplify_eq. rewrite Forall_fmap in IH. rewrite Forall_lookup in IH.
    eapply safe_bind; [apply rebuild_safe; by apply (IH i x)|]. intros g _. by apply safe_ret.
  - eapply steps_one; [reflexivity|]. eapply safe_bind; [by apply Hone|]. intros g _. eapply safe_weaken; [apply Hnew|done].
  - eapply steps_one; [reflexivity|]. eapply safe_bind; [by apply Hone|]. intros g _. eapply safe_weaken; [apply Hnew|done].
  - eapply steps_one; [reflexivity|]. eapply safe_bind; [by apply Hone|]. intros g _. by apply safe_ret.
  - eapply steps_one; [reflexivity|]. eapply safe_bind.
    + apply (safe_all _ filters (fun f g => movable f = true -> keeps f g)), Forall2_fmap_l, Forall2_same_length_lookup_2; [done|].
      intros i x y Hx Hy. simplify_eq. rewrite Forall_lookup in IH. apply rebuild_safe. by apply (IH i x).
    + intros gs Hgs. apply safe_ret. intros Hm. by apply compose_congr, keeps_all.
  - destruct filters as [|x l]; [by eapply steps_one; [reflexivity|]; apply safe_ret|].
    unfold steps_of. cbn [items]. destruct (in_directory (x :: l)) as [p|] eqn:Ed; [|by apply steps_chain].
    apply in_directory_eq in Ed. rewrite Ed. exists [Op.Chain [Op.Subdir p; Op.Prefix p]].
    split; [|intros Hm; split; [by rewrite <- Hm; simpl; rewrite andb_true_r|by rewrite chain_one]].
    constructor; [|constructor]. eapply safe_bind; [apply (Hnew (Op.Subdir p))|]. intros g Hg.
    eapply safe_weaken; [apply optimize_safe|]. intros k Hk Hm.
    assert (keeps (Op.Chain [Op.Subdir p; Op.Prefix p]) (Op.Chain [g; Op.Prefix p])) as Hg'.
    { apply (pass_chain [Op.Subdir p]); [|intros; by apply keeps_same|exact Hm]. intros Hs. simpl in Hs. rewrite andb_true_r in Hs.
      destruct (Hg Hs) as [Mg Eg]. split; [done|]. by rewrite chain_one. }
    eapply keeps_trans; [exact Hg'|]. apply Hk, Hg'.
  - eapply steps_one; [reflexivity|]. apply Forall_cons in IH as [IH1 [IH2 _]%Forall_cons].
    eapply safe_bind; [by apply rebuild_safe|]. intros a _. eapply safe_bind; [by apply rebuild_safe|]. intros b _. by apply safe_ret.
  - eapply steps_one; [reflexivity|]. eapply safe_bind; [by apply Hone|]. intros g Hg. apply safe_ret. by apply pass_exclude, pass_one.
  - eapply steps_one; [reflexivity|]. eapply safe_bind; [by apply Hone|]. intros g Hg. apply safe_ret. by apply pass_select, pass_one.
  - eapply steps_one; [reflexivity|]. eapply safe_bind; [by apply Hone|]. intros g _. by apply safe_ret.
Qed.

(** * Printing and parsing *)

(** The tables while filters are printed. *)
Definition printing_ok (s : caches) : Prop := tables_ok s /\ simplified_ok s.

Lemma simplified_keeps f : movable f = true -> keeps f (simplified f).
Proof.
  intros Hf. destruct (simplify_safe (size f) f no_caches no_caches_ok) as [_ Hk].
  destruct (simplify_computes simplified_ok (size f) f (le_n _) no_caches) as [E _]; [constructor|].
  rewrite E in Hk. by apply Hk.
Qed.

#[local] Instance printing_simplified : SimplifiedOk printing_ok.
Proof.
  split; [by intros c []|]. intros c f [Ht Hs]. split; [by apply told_SIMPLIFIED; [apply simplified_keeps|]|by apply table_holds_insert].
Qed.

(** C14: What is printed is parsed again.  From some budget on, and from every right state of the
    memo tables, [spec] returns a text for a filter whose simplified form can be printed (its
    strings have no single quotes, its files and patterns look like files and patterns, it has no
    squash by commit), and [parse] of this text does exactly what the builders do with the
    operators of the simplified filter, one after the other: the text is read without loss.  If
    the filter only moves files ([movable]), parsing does not fail, and a filter that it returns
    can take a file exactly where the given filter can ([edges], which does not say which of
    overlapping branches wins).  The builders optimize every filter that they make, and whether
    the outer loop of the optimizer ends is left open. *)
Theorem parse_spec_round_trip f :
  printable experimental (simplified f) = true ->
  ample (fun h => forall s, tables_ok s -> simplified_ok s -> exists t s',
    spec h f s = (Ok t, s') /\ agree (parse h experimental t) (rebuild h (simplified f)) /\
    (movable f = true ->
      (forall e, (parse h experimental t s').1 ≠ Err e) /\
      forall g, (parse h experimental t s').1 = Ok g ->
        movable g = true /\ forall c p q, edges g c p q <-> edges f c p q)).
Proof.
  intros Hp. eapply ample_and; [by apply (spec_text experimental printing_ok)|by apply (printed_parses experimental)|].
  intros h Hspec Hparse s Ht Hs. destruct (Hspec s (conj Ht Hs)) as [E [Ht' _]].
  destruct (spec h f s) as [r s'] eqn:Er. simpl in *. subst r. exists (text (simplified f)), s'.
  split; [done|]. split; [done|]. intros Hf. rewrite Hparse.
  destruct (rebuild_safe h (simplified f) (rebuilt_steps h _) s' Ht') as [_ Hg].
  destruct (simplified_keeps f Hf) as [Mf Ef]. split; [by intros e Ee; rewrite Ee in Hg|].
  intros g Eq. rewrite Eq in Hg. destruct (Hg Mf) as [Mg Eg]. split; [done|].
  intros c p q. by rewrite (Ef c p q), (Eg c p q).
Qed.
End Laws.

(** * JSON strings *)

Section Json.
Definition code (c : ascii) : nat := nat_of_ascii c.
Definition hex_digit_of (n : nat) : ascii := ascii_of_nat (if n <? 10 then 48 + n else 87 + n).
Definition backslash : ascii := ascii_of_nat 92.

(** How serde_json writes a character of a string. *)
Definition escape_char (c : ascii) : string :=
  let short d := String backslash (String d EmptyString) in
  match code c with
  | 34 => short LazyRef.dquote
  | 92 => short backslash
  | 8 => short "b"%char
  | 12 => short "f"%char
  | 10 => short "n"%char
  | 13 => short "r"%char
  | 9 => short "t"%char
  | n =>
      if n <? 32 then
        String backslash (String "u" (String "0" (String "0" (String (hex_digit_of (n / 16)) (String (hex_digit_of (n mod 16)) EmptyString)))))
      else String c EmptyString
  end.
Fixpoint escape_text (s : string) : string :=
  match s with EmptyString => EmptyString | String c s => escape_char c +:+ escape_text s end.
Definition json_write (s : string) : string := quotation (escape_text s).

Definition hex_value (c : ascii) : option nat :=
  let n := code c in
  if (48 <=? n) && (n <=? 57) then Some (n - 48)
  else if (97 <=? n) && (n <=? 102) then Some (n - 87)
  else if (65 <=? n) && (n <=? 70) then Some (n - 55) else None.

Definition with_char (c : ascii) (r : option (string * string)) : option (string * string) :=
  match r with Some (s, rest) => Some (String c s, rest) | None => None end.

(** The characters of a string up to its closing quote. Codes above 255 are not read. *)
Fixpoint read_chars (s : string) : option (string * string) :=
  match s with
  | EmptyString => None
  | String c s1 =>
      if decide (c = LazyRef.dquote) then Some (EmptyString, s1)
      else if decide (c = backslash) then
        match s1 with
        | EmptyString => None
        | String d s2 =>
            match code d with
            | 34 | 92 | 47 => with_char d (read_chars s2)
            | 98 => with_char (ascii_of_nat 8) (read_chars s2)
            | 102 => with_char (ascii_of_nat 12) (read_chars s2)
            | 110 => with_char (ascii_of_nat 10) (read_chars s2)
            | 114 => with_char (ascii_of_nat 13) (read_chars s2)
            | 116 => with_char (ascii_of_nat 9) (read_chars s2)
            | 117 =>
                match s2 with
                | String "0" (String "0" (String x (String y s3))) =>
                    match hex_value x, hex_value y with
                    | Some a, Some b => with_char (ascii_of_nat (16 * a + b)) (read_chars s3)
                    | _, _ => None
                    end
                | _ => None
                end
            | _ => None
            end
        end
      else if code c <? 32 then None else with_char c (read_chars s1)
  end.

Fixpoint skip_blanks (s : string) : string :=
  match s with String c s' => if char_in [32; 9; 10; 13] c then skip_blanks s' else s | EmptyString => EmptyString end.

Definition json_read (s : string) : option string :=
  match skip_blanks s with
  | String c s =>
      if decide (c = LazyRef.dquote) then
        match read_chars s with
        | Some (t, rest) => if decide (skip_blanks rest = EmptyString) then Some t else None
        | None => None
        end
      else None
  | EmptyString => None
  end.
End Json.

Lemma read_escaped c t : read_chars (escape_char c +:+ t) = with_char c (read_chars t).
Proof. destruct c as [[] [] [] [] [] [] [] []]; reflexivity. Qed.

Lemma read_escape s t : read_chars (escape_text s +:+ String LazyRef.dquote t) = Some (s, t).
Proof. induction s as [|c s IH]; [done|]. cbn [escape_text]. by rewrite <- append_assoc, read_escaped, IH. Qed.

Lemma escaped_body c t : bool_decide (LazyRef.squote = c) = false -> json_body (escape_char c +:+ t) = json_body t.
Proof. destruct c as [[] [] [] [] [] [] [] []]; try done; reflexivity. Qed.

Lemma escaped_clean c : bool_decide (LazyRef.squote = c) = false -> has_char LazyRef.squote (escape_char c) = false.
Proof. destruct c as [[] [] [] [] [] [] [] []]; try done; reflexivity. Qed.

(** Ids are forty hexadecimal digits. *)
#[local] Instance text_readers : Readers := {|
  json_string := json_read;
  oid_from_str s := if (String.length s =? 40) && all_char hex_char s then Some s else None;
  regex_new _ := true;
|}.

#[local] Instance text_json : JsonText.
Proof.
  refine {| json_quote := json_write |}.
  - intros s _ Hs. exists (escape_text s). split; [done|].
    induction s as [|c s IH]; [done|]. simpl in Hs. apply orb_false_iff in Hs as [Hc Hs]. destruct (IH Hs) as [H1 H2].
    cbn [escape_text]. split; [by rewrite escaped_body|]. by rewrite has_char_app, escaped_clean.
  - intros s _. change (match read_chars (escape_text s +:+ String LazyRef.dquote EmptyString) with
      | Some (t, rest) => if decide (skip_blanks rest = EmptyString) then Some t else None
      | None => None
      end = Some s). by rewrite read_escape.
  - intros c s x E. change (json_read (String c s) = Some x) in E. unfold json_read in E. cbn [skip_blanks] in E.
    destruct (char_in [32; 9; 10; 13] c) eqn:Ec; [by destruct c as [[] [] [] [] [] [] [] []]|].
    destruct (decide (c = LazyRef.dquote)) as [->|]; [done|done].
  - done.
Defined.

(** * Examples *)

Definition written (f : filter) : res string := (spec 60 f no_caches).1.
Definition read_back (s : string) : res filter := (parse 200 false s no_caches).1.

Definition project_filter : filter :=
  Op.Chain [Op.Exclude (Op.File [Normal "l"] [Normal "l"]);
            Op.Compose [Op.Chain [Op.Subdir [Normal "a b"]; Op.Prefix [Normal "lib"; Normal "core"]];
                        Op.File [Normal "readme"] [Normal "x"]; Op.Pattern "*.md"]].

Definition optimized_project : res filter := (Step.optimize 60 60 project_filter no_caches).1.

Lemma parse_spec_round_trip_witness :
  (exists h t s', spec h project_filter no_caches = (Ok t, s') /\
    agree (parse h false t) (rebuild h (simplified project_filter))) /\
  written project_filter = Ok (":exclude[::l]:[:/" +:+ quote "a b" +:+ ":prefix=lib/core,::readme=x,::*.md]") /\
  read_back (":exclude[::l]:[:/" +:+ quote "a b" +:+ ":prefix=lib/core,::readme=x,::*.md]") = optimized_project.
Proof.
  destruct (parse_spec_round_trip false project_filter) as [h0 Hh]; [vm_compute; reflexivity|].
  destruct (Hh h0 (le_n _) no_caches no_caches_ok) as (t & s' & E & Ha & _); [constructor|].
  split; [by exists h0, t, s'|split; vm_compute; reflexivity].
Defined.

(** Printed filters that are not parsed again, or as another filter, although [spec] is
    documented as [parse(spec(F)) == F]: the path of a directory that keeps its place and needs
    quotes is followed by a slash that the grammar does not allow there; strings with a single
    quote are not strings of the grammar; and a pattern without a star is read as a file. *)
Example spec_not_parsed :
  (exists t, written (Op.Chain [Op.Subdir [Normal "a b"]; Op.Prefix [Normal "a b"]]) = Ok t /\
    read_back t = Err "Invalid workspace") /\
  (exists t, written (Op.Message "it's" MESSAGE_MATCH_ALL_REGEX) = Ok t /\ read_back t = Err "Invalid workspace") /\
  (exists t, written (Op.Pattern "a?") = Ok t /\ read_back t = Ok (Op.File [Normal "a?"] [Normal "a?"])).
Proof.
  split; [|split]; eexists; (split; [vm_compute; reflexivity|vm_compute; reflexivity]).
Qed.
