(* ===== verification/RevWalkFacts.v ===== *)
(** The pruned walk of josh-gix-ext/src/revwalk.rs is a topological order of what is
    reachable: interned commits stand for their ids, the walk over indices simulates a walk
    over ids, and the walk over ids keeps the invariant of a depth-first search. *)

From S2P Require Import Prelude Path Ops Objects RevWalk.

Open Scope nat_scope.

(** * Interned commits stand for their ids *)

Section Names.
Context {F : Type} (blank : F) (find : oid -> option object).

Definition names (t : table F) (i : nat) (id : oid) : Prop :=
  node_oid <$> nodes t !! i = Some id.

(** The marks of a commit, those of a fresh node if it is not interned yet. *)
Definition mark_of (t : table F) (id : oid) : F :=
  default blank (i ← by_oid t !! id; marks <$> nodes t !! i).

Record table_ok (t : table F) : Prop := {
  by_oid_names : forall id i, by_oid t !! id = Some i <-> names t i id;
  parsed_parents : forall i nd, nodes t !! i = Some nd -> parsed nd = true ->
    exists ps, read_parent_oids find (node_oid nd) = Ok ps /\
      Forall2 (names t) (node_parents nd) ps;
}.

(** A table that knows more and marks the same. *)
Definition extends (t t' : table F) : Prop :=
  (forall i id, names t i id -> names t' i id) /\ forall id, mark_of t' id = mark_of t id.

Lemma extends_refl t : extends t t.
Proof. by split. Qed.

Lemma extends_trans t1 t2 t3 : extends t1 t2 -> extends t2 t3 -> extends t1 t3.
Proof.
  intros [H1 H2] [H3 H4]. split; [by auto|]. intros id. by rewrite H4.
Qed.

Lemma new_table_ok : table_ok new_table.
Proof.
  split; [|done]. intros id i. unfold names. simpl. by rewrite lookup_empty.
Qed.

Lemma mark_new id : mark_of new_table id = blank.
Proof. unfold mark_of. simpl. by rewrite lookup_empty. Qed.

Lemma names_node t i id : names t i id -> exists nd, nodes t !! i = Some nd /\ node_oid nd = id.
Proof. unfold names. destruct (nodes t !! i) as [nd|]; [|done]. intros [= <-]. by exists nd. Qed.

Lemma names_fun t i id id' : names t i id -> names t i id' -> id = id'.
Proof. unfold names. intros -> [= ->]. done. Qed.

Lemma names_inj t i j id : table_ok t -> names t i id -> names t j id -> i = j.
Proof. intros Ht Hi%(by_oid_names t Ht) Hj%(by_oid_names t Ht). congruence. Qed.

Lemma mark_of_node t i nd : table_ok t -> nodes t !! i = Some nd -> mark_of t (node_oid nd) = marks nd.
Proof.
  intros Ht Hi. assert (by_oid t !! node_oid nd = Some i) as Hb.
  { apply (by_oid_names t Ht). unfold names. by rewrite Hi. }
  unfold mark_of. rewrite Hb. simpl. by rewrite Hi.
Qed.

Lemma node_at_names t i id :
  table_ok t -> names t i id ->
  exists nd, node_at t i = Ok nd /\ nodes t !! i = Some nd /\ node_oid nd = id /\
    marks nd = mark_of t id.
Proof.
  intros Ht Hn. destruct (names_node _ _ _ Hn) as (nd & Hi & Ho). exists nd.
  unfold node_at. rewrite Hi. do 3 (split; [done|]). subst id. by rewrite (mark_of_node t i).
Qed.

(** ** Interning *)

Lemma names_snoc t nd i id :
  names (Table (nodes t ++ [nd]) (<[node_oid nd := length (nodes t)]> (by_oid t))) i id <->
  names t i id \/ i = length (nodes t) /\ id = node_oid nd.
Proof.
  unfold names. simpl. destruct (decide (i < length (nodes t))) as [Hl|Hl].
  - rewrite lookup_app_l by done. split; [by left|]. intros [?|[-> _]]; [done|lia].
  - rewrite (lookup_ge_None_2 (nodes t)) by lia. rewrite lookup_app_r by lia.
    destruct (decide (i = length (nodes t))) as [->|Hne].
    + rewrite Nat.sub_diag. simpl. split; [intros [= <-]; by right|]. intros [?|[_ ->]]; done.
    + rewrite lookup_ge_None_2 by (simpl; lia). split; [done|]. intros [?|[? _]]; done.
Qed.

Lemma intern_ok id t i t' :
  table_ok t -> intern blank id t = (i, t') -> table_ok t' /\ extends t t' /\ names t' i id.
Proof.
  intros Ht. unfold intern. destruct (by_oid t !! id) as [j|] eqn:E.
  { intros [= <- <-]. split; [done|]. split; [apply extends_refl|]. by apply (by_oid_names t Ht). }
  intros [= <- <-]. set (nd := Node id [] false blank).
  change id with (node_oid nd).
  assert (forall k d, names t k d -> k < length (nodes t)) as Hlt.
  { intros k d (x & Hx & _)%names_node. by eapply lookup_lt_Some. }
  split; [split|split; [split|]].
  - intros d k. rewrite names_snoc. simpl. rewrite lookup_insert_Some, (by_oid_names t Ht).
    split; [intros [[<- <-]|[? ?]]; tauto|].
    intros [Hn|[-> ->]]; [|by left]. right. split; [|done]. intros ->.
    apply (by_oid_names t Ht) in Hn. simpl in *. congruence.
  - intros k x Hx Hp. simpl in Hx. apply lookup_app_Some in Hx as [Hx|[Hk Hx]].
    + destruct (parsed_parents t Ht k x Hx Hp) as (ps & Hps & Hf). exists ps. split; [done|].
      eapply Forall2_impl; [exact Hf|]. intros a b Hab. apply names_snoc. by left.
    + apply list_lookup_singleton_Some in Hx as [_ <-]. done.
  - intros k d Hn. apply names_snoc. by left.
  - intros d. unfold mark_of. simpl. destruct (decide (id = d)) as [->|Hne].
    + rewrite lookup_insert_eq, E. simpl. rewrite lookup_app_r, Nat.sub_diag by lia. done.
    + rewrite lookup_insert_ne by done. destruct (by_oid t !! d) as [k|] eqn:Ek; [|done]. simpl.
      rewrite lookup_app_l; [done|]. apply (by_oid_names t Ht) in Ek. by eapply Hlt.
  - apply names_snoc. by right.
Qed.

Lemma intern_all_ok ids t idx t' :
  table_ok t -> intern_all blank ids t = (idx, t') ->
  table_ok t' /\ extends t t' /\ Forall2 (names t') idx ids.
Proof.
  revert t idx. induction ids as [|id ids IH]; intros t idx Ht; simpl.
  { intros [= <- <-]. split; [done|]. split; [apply extends_refl|constructor]. }
  destruct (intern blank id t) as [i t1] eqn:E1, (intern_all blank ids t1) as [rest t2] eqn:E2.
  intros [= <- <-]. destruct (intern_ok _ _ _ _ Ht E1) as (Ht1 & He1 & Hn1).
  destruct (IH _ _ Ht1 E2) as (Ht2 & He2 & Hn2). split; [done|].
  split; [by eapply extends_trans|]. constructor; [by apply He2|done].
Qed.

(** ** Changing a node *)

Lemma names_alter (g : node F -> node F) t j i id :
  (forall nd, node_oid (g nd) = node_oid nd) ->
  names (Table (alter g j (nodes t)) (by_oid t)) i id <-> names t i id.
Proof.
  intros Hg. unfold names. simpl. destruct (decide (i = j)) as [->|Hne].
  - rewrite list_lookup_alter_eq. destruct (nodes t !! j) as [nd|]; [|done]. simpl. by rewrite Hg.
  - by rewrite list_lookup_alter_ne.
Qed.

Lemma set_marks_ok f j id t :
  table_ok t -> names t j id ->
  table_ok (set_marks f j t) /\
  (forall i d, names (set_marks f j t) i d <-> names t i d) /\
  forall d, mark_of (set_marks f j t) d = if decide (d = id) then f (mark_of t d) else mark_of t d.
Proof.
  intros Ht Hj. assert (forall i d, names (set_marks f j t) i d <-> names t i d) as Hn.
  { intros i d. by apply names_alter. }
  split; [split|split; [done|]].
  - intros d i. rewrite Hn. apply (by_oid_names t Ht).
  - intros i nd Hi Hp. assert (exists nd', nodes t !! i = Some nd' /\ node_oid nd' = node_oid nd /\
      node_parents nd' = node_parents nd /\ parsed nd' = parsed nd) as (nd' & Hi' & Ho & Hps & Hpd).
    { simpl in Hi. destruct (decide (i = j)) as [->|Hne].
      - rewrite list_lookup_alter_eq in Hi. destruct (nodes t !! j) as [x|]; [|done].
        simplify_eq/=. by exists x.
      - rewrite list_lookup_alter_ne in Hi by done. by exists nd. }
    rewrite <- Hpd in Hp. destruct (parsed_parents t Ht i nd' Hi' Hp) as (ps & Hread & Hf).
    exists ps. rewrite <- Ho, <- Hps. split; [done|]. eapply Forall2_impl; [exact Hf|].
    intros a b. by rewrite Hn.
  - intros d. unfold mark_of. simpl. destruct (by_oid t !! d) as [i|] eqn:Ed.
    + simpl. apply (by_oid_names t Ht) in Ed. destruct (decide (d = id)) as [->|Hne].
      * rewrite (names_inj t i j id Ht Ed Hj), list_lookup_alter_eq.
        destruct (names_node _ _ _ Hj) as (x & -> & _). done.
      * rewrite list_lookup_alter_ne; [done|]. intros ->. apply Hne. by eapply names_fun.
    + simpl. rewrite decide_False; [done|]. intros ->. apply (by_oid_names t Ht) in Hj. congruence.
Qed.

Lemma parse_ok i id t ps :
  table_ok t -> names t i id -> read_parent_oids find id = Ok ps ->
  exists t' nd, parse blank find i t = Ok t' /\ table_ok t' /\ extends t t' /\
    node_at t' i = Ok nd /\ node_oid nd = id /\ marks nd = mark_of t id /\
    Forall2 (names t') (node_parents nd) ps.
Proof.
  intros Ht Hi Hps. destruct (node_at_names t i id Ht Hi) as (nd & Hat & Hnd & Ho & Hm).
  unfold parse. rewrite Hat. simpl. destruct (parsed nd) eqn:Ep.
  { exists t, nd. destruct (parsed_parents t Ht i nd Hnd Ep) as (ps' & Hps' & Hf).
    rewrite Ho, Hps in Hps'. simplify_eq. do 2 (split; [done|]). split; [apply extends_refl|].
    by do 3 (split; [done|]). }
  rewrite Ho, Hps. simpl. destruct (intern_all blank ps t) as [idx t1] eqn:E.
  destruct (intern_all_ok _ _ _ _ Ht E) as (Ht1 & He1 & Hf1).
  assert (forall k d, names (Table (alter (fun nd => Node (node_oid nd) idx true (marks nd)) i (nodes t1))
    (by_oid t1)) k d <-> names t1 k d) as Hn by (intros k d; by apply names_alter).
  apply He1 in Hi as Hi1. destruct (node_at_names t1 i id Ht1 Hi1) as (nd1 & _ & Hnd1 & Ho1 & Hm1).
  eexists _, (Node id idx true (marks nd1)). split; [done|]. split; [split|].
  - intros d k. rewrite Hn. apply (by_oid_names t1 Ht1).
  - intros k x Hx Hp. simpl in Hx. destruct (decide (k = i)) as [->|Hne].
    + rewrite list_lookup_alter_eq, Hnd1 in Hx. simplify_eq/=. exists ps. split; [congruence|].
      eapply Forall2_impl; [exact Hf1|]. intros a b. by rewrite Hn.
    + rewrite list_lookup_alter_ne in Hx by done.
      destruct (parsed_parents t1 Ht1 k x Hx Hp) as (qs & Hqs & Hfq). exists qs. split; [done|].
      eapply Forall2_impl; [exact Hfq|]. intros a b. by rewrite Hn.
  - split; [split|].
    + intros k d Hk. rewrite Hn. by apply He1.
    + intros d. rewrite <- (proj2 He1 d). unfold mark_of. simpl.
      destruct (by_oid t1 !! d) as [k|]; [|done]. simpl. destruct (decide (k = i)) as [->|Hne].
      * rewrite list_lookup_alter_eq, Hnd1. done.
      * by rewrite list_lookup_alter_ne.
    + unfold node_at. simpl. rewrite list_lookup_alter_eq, Hnd1. simpl. rewrite Ho1.
      do 2 (split; [done|]). split; [rewrite Hm1; apply (proj2 He1)|].
      eapply Forall2_impl; [exact Hf1|]. intros a b. by rewrite Hn.
Qed.

Lemma parse_err i id t e :
  table_ok t -> names t i id -> read_parent_oids find id = Err e -> parse blank find i t = Err e.
Proof.
  intros Ht Hi He. destruct (node_at_names t i id Ht Hi) as (nd & Hat & Hnd & Ho & Hm).
  unfold parse. rewrite Hat. simpl. destruct (parsed nd) eqn:Ep; [|by rewrite Ho, He].
  destruct (parsed_parents t Ht i nd Hnd Ep) as (ps & Hps & _). rewrite Ho in Hps. congruence.
Qed.

End Names.

Arguments table_ok {F} find t.
Arguments names {F} t i id.

(** * The walk over ids *)

Section Search.
Context (ps : oid -> res (list oid)) {W : Type} (prune : oid -> W -> bool * W)
  (visit : option (oid -> W -> res bool * W)).

(** A frame of the stack. *)
Inductive task := ToExplore (c : oid) | ToEmit (c : oid).

Fixpoint search (n : nat) (stack : list task) (post : list oid) (seen : gset oid) (w : W) :
    res (list oid) * W :=
  match n with
  | 0 => (OutOfFuel, w)
  | S n =>
      match stack with
      | [] => (Ok post, w)
      | ToEmit c :: stack => search n stack (post ++ [c]) seen w
      | ToExplore c :: stack =>
          if decide (c ∈ seen) then search n stack post seen w
          else
            let '(pruned, w) := prune c w in
            if (pruned : bool) then search n stack post ({[c]} ∪ seen) w
            else
            match RevWalk.run_visit visit c w with
            | (Ok true, w) => (Ok post, w)
            | (Ok false, w) =>
                match ps c with
                | Ok l => search n ((ToExplore <$> l) ++ ToEmit c :: stack) post ({[c]} ∪ seen) w
                | Err e => (Err e, w)
                | OutOfFuel => (OutOfFuel, w)
                end
            | (Err e, w) => (Err e, w)
            | (OutOfFuel, w) => (OutOfFuel, w)
            end
      end
  end.

End Search.

(** ** The walk over indices simulates it *)

Section Simulation.
Context (find : oid -> option object) {W : Type} (prune : oid -> W -> bool * W)
  (visit : option (oid -> W -> res bool * W)) (first : bool).

(** The parents the walk follows. *)
Definition followed (id : oid) : res (list oid) :=
  l ← read_parent_oids find id; Ok (if first then take 1 l else l).

Definition frame_names (t : table bool) (f : RevWalk.frame) (k : task) : Prop :=
  match f, k with
  | RevWalk.Explore i, ToExplore id | RevWalk.Emit i, ToEmit id => names t i id
  | _, _ => False
  end.

(** Visited are exactly the ids in the set. *)
Definition visited_are (t : table bool) (seen : gset oid) : Prop :=
  forall id, mark_of false t id = bool_decide (id ∈ seen).

Definition same_outcome (r : res (list nat * table bool) * W) (r' : res (list oid) * W) : Prop :=
  r.2 = r'.2 /\
  match r.1, r'.1 with
  | Ok (post, t), Ok post' => table_ok find t /\ Forall2 (names t) post post'
  | Err e, Err e' => e = e'
  | OutOfFuel, OutOfFuel => True
  | _, _ => False
  end.

Lemma Forall2_names_extends (t t' : table bool) (l : list nat) (l' : list oid) :
  (forall i id, names t i id -> names t' i id) -> Forall2 (names t) l l' -> Forall2 (names t') l l'.
Proof. intros He Hf. eapply Forall2_impl; [exact Hf|]. intros. by apply He. Qed.

Lemma frames_extends t t' l l' :
  (forall i id, names t i id -> names t' i id) ->
  Forall2 (frame_names t) l l' -> Forall2 (frame_names t') l l'.
Proof.
  intros He Hf. eapply Forall2_impl; [exact Hf|]. intros [i|i] [id|id]; simpl; auto.
Qed.

Lemma explore_frames t idx ids :
  Forall2 (names t) idx ids -> Forall2 (frame_names t) (RevWalk.Explore <$> idx) (ToExplore <$> ids).
Proof. induction 1; constructor; done. Qed.

Lemma dfs_simulates n stack stack' post post' t seen w :
  table_ok find t -> visited_are t seen ->
  Forall2 (frame_names t) stack stack' -> Forall2 (names t) post post' ->
  same_outcome (RevWalk.dfs find prune visit first n stack post t w)
    (search followed prune visit n stack' post' seen w).
Proof.
  revert stack stack' post post' t seen w.
  induction n as [|n IH]; intros stack stack' post post' t seen w Ht Hv Hs Hp; [done|].
  destruct Hs as [|f k stack stack' Hf Hs]; [by split|]. cbn [RevWalk.dfs search].
  destruct f as [i|i], k as [c|c]; simpl in Hf; try done.
  - destruct (node_at_names false find t i c Ht Hf) as (nd & -> & _ & Ho & Hm).
    rewrite Hm, Hv. destruct (decide (c ∈ seen)) as [Hc|Hc].
    { rewrite bool_decide_eq_true_2 by done. by apply IH. }
    rewrite bool_decide_eq_false_2 by done. rewrite Ho. cbv zeta.
    destruct (set_marks_ok false find (fun _ => true) i c t Ht Hf) as (Ht' & Hn' & Hm').
    assert (visited_are (set_marks (fun _ => true) i t) ({[c]} ∪ seen)) as Hv'.
    { intros id. rewrite Hm'. destruct (decide (id = c)) as [->|Hne].
      - symmetry. apply bool_decide_eq_true_2. set_solver.
      - rewrite Hv. apply bool_decide_ext. set_solver. }
    assert (forall j id, names t j id -> names (set_marks (fun _ => true) i t) j id) as Hnames.
    { intros j id. apply Hn'. }
    apply Hnames in Hf.
    eapply frames_extends in Hs; [|exact Hnames]. eapply Forall2_names_extends in Hp; [|exact Hnames].
    set (t1 := set_marks (fun _ => true) i t) in *. clearbody t1. rename Ht' into Ht1, Hv' into Hv1.
    destruct (prune c w) as [[] w1]; [by apply IH|].
    destruct (RevWalk.run_visit visit c w1) as [[[]|e|] w']; try done.
    unfold followed. destruct (read_parent_oids find c) as [l|e|] eqn:El.
    + destruct (parse_ok false find i c t1 l Ht1 Hf El) as (t2 & nd2 & -> & Ht2 & He2 & Hat2 & Ho2 & _ & Hf2).
      simpl. rewrite Hat2. simpl.
      apply IH; [done| | |by eapply Forall2_names_extends; [apply He2|]].
      { intros id. rewrite (proj2 He2). apply Hv1. }
      apply Forall2_app; [|constructor; [by apply He2|by eapply frames_extends; [apply He2|]]].
      apply explore_frames. destruct first; [by apply Forall2_take|done].
    + rewrite (parse_err false find i c t1 e) by done. done.
    + exfalso. unfold read_parent_oids in El. destruct (find c) as [[]|]; done.
  - apply IH; try done. apply Forall2_app; [done|]. by repeat constructor.
Qed.

End Simulation.

(** * What the walk visits *)

Section Walked.
Context (par : oid -> list oid) (prune : oid -> bool) (tips : list oid).

(** The commits reachable from the tips without passing a pruned one. *)
Inductive walked : oid -> Prop :=
| walked_tip c : c ∈ tips -> prune c = false -> walked c
| walked_parent c p : walked c -> p ∈ par c -> prune p = false -> walked p.

(** Commits to explore: tips, and parents of walked commits. *)
Definition frontier (c : oid) : Prop := c ∈ tips \/ exists d, walked d /\ c ∈ par d.

Lemma frontier_walked c : frontier c -> prune c = false -> walked c.
Proof. intros [Ht|(d & Hd & Hc)] Hp; [by apply walked_tip|by eapply walked_parent]. Qed.

Definition task_oid (k : task) : oid := match k with ToExplore c | ToEmit c => c end.

Context (V : gset oid) (rank : oid -> nat).

(** A finite, acyclic set of commits that the walk stays in. *)
Hypothesis HV : forall c p, c ∈ V -> p ∈ par c -> p ∈ V.
Hypothesis Hrank : forall c p, c ∈ V -> p ∈ par c -> rank p < rank c.
Hypothesis Htips : forall c, c ∈ tips -> c ∈ V.

Record walk_inv (stack : list task) (post : list oid) (seen : gset oid) : Prop := {
  post_nodup : NoDup post;
  seen_kept : forall c, (c ∈ post \/ ToEmit c ∈ stack) <-> (c ∈ seen /\ prune c = false);
  open_fresh : forall s1 c s2, stack = s1 ++ ToEmit c :: s2 ->
    (c ∉ post) /\ (ToEmit c ∉ s1) /\ (ToEmit c ∉ s2);
  above_smaller : forall s1 c s2, stack = s1 ++ ToEmit c :: s2 ->
    forall k, k ∈ s1 -> rank (task_oid k) < rank c;
  open_parents : forall s1 c s2, stack = s1 ++ ToEmit c :: s2 ->
    forall p, p ∈ par c -> prune p = false -> p ∈ post \/ exists k, k ∈ s1 /\ task_oid k = p;
  post_order : forall j v p, post !! j = Some v -> p ∈ par v -> prune p = false ->
    exists i, i < j /\ post !! i = Some p;
  task_frontier : forall k, k ∈ stack -> task_oid k ∈ V /\ frontier (task_oid k);
  kept_walked : forall c, c ∈ post \/ ToEmit c ∈ stack -> walked c;
  tips_kept : forall c, c ∈ tips -> prune c = false -> c ∈ post \/ exists k, k ∈ stack /\ task_oid k = c;
}.

Lemma explores_split (l : list oid) c st s1 d s2 :
  (ToExplore <$> l) ++ ToEmit c :: st = s1 ++ ToEmit d :: s2 ->
  (s1 = (ToExplore <$> l) /\ d = c /\ s2 = st) \/
  exists s1', s1 = (ToExplore <$> l) ++ ToEmit c :: s1' /\ st = s1' ++ ToEmit d :: s2.
Proof.
  revert s1. induction l as [|x l IH]; intros s1; simpl.
  - destruct s1 as [|k s1]; simpl; intros [= -> ->]; [by left|]. right. by exists s1.
  - destruct s1 as [|k s1]; simpl; [done|]. intros [= <- E]. apply IH in E as [(-> & -> & ->)|(s & -> & ->)].
    + by left.
    + right. by exists s.
Qed.

Lemma emit_explores (l : list oid) c : ToEmit c ∉ ToExplore <$> l.
Proof. intros (x & [=] & _)%list_elem_of_fmap. Qed.

Lemma inv_emit c st post seen :
  walk_inv (ToEmit c :: st) post seen -> walk_inv st (post ++ [c]) seen.
Proof.
  intros [I1 I2 I3 I4 I5 I6 I7 I8 I9].
  destruct (I3 [] c st eq_refl) as (Hc & _ & Hst). split.
  - apply NoDup_app. split; [done|]. split; [set_solver|apply NoDup_singleton].
  - intros x. rewrite <- I2. rewrite elem_of_app, list_elem_of_singleton, elem_of_cons.
    split; [intros [[?| ->]|?]; auto|]. intros [?|[E|?]]; [auto| |auto]. injection E as ->. auto.
  - intros s1 d s2 ->. destruct (I3 (ToEmit c :: s1) d s2 eq_refl) as (H1 & H2 & H3).
    rewrite not_elem_of_cons in H2. rewrite not_elem_of_app, list_elem_of_singleton.
    split; [|tauto]. split; [done|]. intros ->. tauto.
  - intros s1 d s2 -> k Hk. apply (I4 (ToEmit c :: s1) d s2 eq_refl). by right.
  - intros s1 d s2 -> p Hp Hpr. destruct (I5 (ToEmit c :: s1) d s2 eq_refl p Hp Hpr) as [?|(k & Hk & Ek)].
    { left. set_solver. }
    apply elem_of_cons in Hk as [->|Hk]; [left; simpl in Ek; set_solver|]. right. by exists k.
  - intros j v p Hj Hp Hpr. apply lookup_app_Some in Hj as [Hj|[Hlen Hj]].
    + destruct (I6 j v p Hj Hp Hpr) as (i & Hi & Ei). exists i. split; [done|]. by apply lookup_app_l_Some.
    + apply list_lookup_singleton_Some in Hj as [Hz <-].
      destruct (I5 [] c st eq_refl p Hp Hpr) as [Hpost|(k & Hk & _)]; [|by apply not_elem_of_nil in Hk].
      apply list_elem_of_lookup in Hpost as [i Hi]. exists i. apply lookup_lt_Some in Hi as Hlt.
      split; [lia|]. by apply lookup_app_l_Some.
  - intros k Hk. apply I7. by right.
  - intros x Hx. apply I8. rewrite elem_of_app, list_elem_of_singleton in Hx. rewrite elem_of_cons.
    destruct Hx as [[?| ->]|?]; auto.
  - intros x Hx Hpr. destruct (I9 x Hx Hpr) as [?|(k & Hk & Ek)]; [left; set_solver|].
    apply elem_of_cons in Hk as [->|Hk]; [left; simpl in Ek; set_solver|]. right. by exists k.
Qed.

(** A task that is not needed any more. *)
Lemma inv_skip c st post seen :
  walk_inv (ToExplore c :: st) post seen -> c ∈ seen ->
  walk_inv st post seen.
Proof.
  intros [I1 I2 I3 I4 I5 I6 I7 I8 I9] Hc.
  assert (prune c = false -> c ∈ post \/ ToEmit c ∈ st) as Hkept.
  { intros Hpr. destruct (proj2 (I2 c) (conj Hc Hpr)) as [?|[ [=]|?]%elem_of_cons]; auto. }
  split; auto.
  - intros x. rewrite <- I2, elem_of_cons. naive_solver.
  - intros s1 d s2 ->. destruct (I3 (ToExplore c :: s1) d s2 eq_refl) as (H1 & H2 & H3).
    rewrite not_elem_of_cons in H2. tauto.
  - intros s1 d s2 -> k Hk. apply (I4 (ToExplore c :: s1) d s2 eq_refl). by right.
  - intros s1 d s2 Est p Hp Hpr. destruct (I5 (ToExplore c :: s1) d s2) with p as [?|(k & Hk & Ek)];
      [by rewrite Est|done|done|by left|].
    apply elem_of_cons in Hk as [->|Hk]; [|right; by exists k]. simpl in Ek. subst p.
    destruct (Hkept Hpr) as [?|Hin]; [by left|]. right. exists (ToEmit c). split; [|done].
    assert (rank c < rank d) as Hlt.
    { apply (I4 (ToExplore c :: s1) d s2) with (k := ToExplore c); [by rewrite Est|left]. }
    rewrite Est, elem_of_app, elem_of_cons in Hin. destruct Hin as [?|[ [= ->]|Hin]]; [done|lia|].
    apply list_elem_of_split in Hin as (u & v & ->).
    assert (rank c < rank c) as Hbad; [|lia].
    apply (I4 (ToExplore c :: s1 ++ ToEmit d :: u) c v) with (k := ToExplore c); [|left].
    rewrite Est. simpl. by rewrite <- app_assoc.
  - intros k Hk. apply I7. by right.
  - intros x Hx. apply I8. rewrite elem_of_cons. tauto.
  - intros x Hx Hpr. destruct (I9 x Hx Hpr) as [?|(k & Hk & Ek)]; [by left|].
    apply elem_of_cons in Hk as [->|Hk]; [|right; by exists k]. simpl in Ek. subst x.
    destruct (Hkept Hpr) as [?|?]; [by left|]. right. by exists (ToEmit c).
Qed.

Lemma inv_prune c st post seen :
  walk_inv (ToExplore c :: st) post seen -> prune c = true ->
  walk_inv (ToExplore c :: st) post ({[c]} ∪ seen).
Proof.
  intros [I1 I2 I3 I4 I5 I6 I7 I8 I9] Hc. split; auto.
  intros x. rewrite I2. split; [set_solver|]. intros [[->%elem_of_singleton|?]%elem_of_union ?]; [congruence|done].
Qed.

Lemma inv_explore c st post seen :
  walk_inv (ToExplore c :: st) post seen -> c ∉ seen -> prune c = false ->
  walk_inv ((ToExplore <$> par c) ++ ToEmit c :: st) post ({[c]} ∪ seen).
Proof.
  intros [I1 I2 I3 I4 I5 I6 I7 I8 I9] Hc Hpr.
  destruct (I7 (ToExplore c)) as [HcV Hfr]; [left|]. simpl in HcV, Hfr.
  assert (walked c) as Hw by by apply frontier_walked.
  assert ((c ∉ post) /\ (ToEmit c ∉ st)) as [Hcp Hcs].
  { split; intros Hin; apply Hc; apply I2; [by left|right; by right]. }
  split; auto.
  - intros x. rewrite elem_of_app, elem_of_cons, elem_of_union, elem_of_singleton.
    assert (ToEmit x ∈ ToExplore <$> par c <-> False) as ->.
    { split; [apply emit_explores|done]. }
    specialize (I2 x). rewrite elem_of_cons in I2. naive_solver.
  - intros s1 d s2 E. apply explores_split in E as [(-> & -> & ->)|(s1' & -> & ->)].
    { split; [done|]. split; [apply emit_explores|done]. }
    destruct (I3 (ToExplore c :: s1') d s2 eq_refl) as (H1 & H2 & H3). split; [done|]. split; [|done].
    rewrite not_elem_of_cons in H2. rewrite not_elem_of_app, not_elem_of_cons.
    split; [apply emit_explores|]. split; [|tauto]. intros [= ->]. set_solver.
  - intros s1 d s2 E k Hk. apply explores_split in E as [(-> & -> & ->)|(s1' & -> & ->)].
    { apply list_elem_of_fmap in Hk as (p & -> & Hp). simpl. by apply Hrank. }
    assert (rank c < rank d) as Hlt.
    { apply (I4 (ToExplore c :: s1') d s2 eq_refl (ToExplore c)). left. }
    rewrite elem_of_app, elem_of_cons in Hk. destruct Hk as [Hk|[->|Hk]]; [|done|].
    + apply list_elem_of_fmap in Hk as (p & -> & Hp). simpl. pose proof (Hrank c p HcV Hp). lia.
    + apply (I4 (ToExplore c :: s1') d s2 eq_refl). by right.
  - intros s1 d s2 E p Hp Hpp. apply explores_split in E as [(-> & -> & ->)|(s1' & -> & ->)].
    { right. exists (ToExplore p). split; [|done]. apply list_elem_of_fmap. by exists p. }
    destruct (I5 (ToExplore c :: s1') d s2 eq_refl p Hp Hpp) as [?|(k & Hk & Ek)]; [by left|]. right.
    apply elem_of_cons in Hk as [->|Hk]; [exists (ToEmit c)|exists k]; (split; [|done]);
      rewrite elem_of_app, elem_of_cons; auto.
  - intros k Hk. rewrite elem_of_app, elem_of_cons in Hk. destruct Hk as [Hk|[->|Hk]].
    + apply list_elem_of_fmap in Hk as (p & -> & Hp). simpl. split; [by eapply HV|]. right. by exists c.
    + done.
    + apply I7. by right.
  - intros x [Hx|Hx]; [by apply I8; left|]. rewrite elem_of_app, elem_of_cons in Hx.
    destruct Hx as [Hx|[ [= ->]|Hx]]; [by apply emit_explores in Hx|done|]. apply I8. right. by right.
  - intros x Hx Hxp. destruct (I9 x Hx Hxp) as [?|(k & Hk & Ek)]; [by left|]. right.
    apply elem_of_cons in Hk as [->|Hk]; [exists (ToEmit c)|exists k]; (split; [|done]);
      rewrite elem_of_app, elem_of_cons; auto.
Qed.

Lemma inv_start : walk_inv (ToExplore <$> tips) [] ∅.
Proof.
  split.
  - constructor.
  - intros c. split; [intros [?%not_elem_of_nil|?%emit_explores]; done|set_solver].
  - intros s1 c s2 E. exfalso. apply (emit_explores tips c). rewrite E. set_solver.
  - intros s1 c s2 E. exfalso. apply (emit_explores tips c). rewrite E. set_solver.
  - intros s1 c s2 E. exfalso. apply (emit_explores tips c). rewrite E. set_solver.
  - intros j v p Hj. done.
  - intros k (c & -> & Hc)%list_elem_of_fmap. simpl. split; [by apply Htips|by left].
  - intros c [?%not_elem_of_nil|?%emit_explores]; done.
  - intros c Hc _. right. exists (ToExplore c). split; [|done]. apply list_elem_of_fmap. by exists c.
Qed.

(** What holds at the end. *)
Lemma inv_end post seen :
  walk_inv [] post seen ->
  NoDup post /\ (forall c, c ∈ post <-> walked c) /\
  forall j v p, post !! j = Some v -> p ∈ par v -> prune p = false ->
    exists i, i < j /\ post !! i = Some p.
Proof.
  intros [I1 I2 I3 I4 I5 I6 I7 I8 I9]. split; [done|]. split; [|done]. intros c. split.
  - intros Hc. apply I8. by left.
  - induction 1 as [c Hc Hp|c p Hc IH Hp Hpp].
    + destruct (I9 c Hc Hp) as [?|(k & Hk & _)]; [done|]. by apply not_elem_of_nil in Hk.
    + apply list_elem_of_lookup in IH as [j Hj]. destruct (I6 j c p Hj Hp Hpp) as (i & _ & Hi).
      by apply list_elem_of_lookup_2 in Hi.
Qed.

(** ** Termination *)

(** The frames still to come from commits that were not seen. *)
Definition unseen_work (seen : gset oid) : nat :=
  sum_list_with (fun c => S (length (par c))) (elements (V ∖ seen)).

Lemma unseen_work_step c seen :
  c ∈ V -> c ∉ seen -> unseen_work seen = S (length (par c)) + unseen_work ({[c]} ∪ seen).
Proof.
  intros Hc Hs. unfold unseen_work.
  replace (V ∖ seen) with ({[c]} ∪ (V ∖ ({[c]} ∪ seen))).
  - rewrite elements_disj_union by set_solver. rewrite elements_singleton. done.
  - apply leibniz_equiv. intros x. rewrite !elem_of_union, !elem_of_difference, elem_of_union, elem_of_singleton.
    destruct (decide (x = c)) as [->|Hne]; tauto.
Qed.

Lemma unseen_work_le c seen : c ∈ V -> unseen_work ({[c]} ∪ seen) <= unseen_work seen.
Proof.
  intros Hc. destruct (decide (c ∈ seen)) as [Hin|Hin].
  - by replace ({[c]} ∪ seen) with seen by set_solver.
  - rewrite (unseen_work_step c seen) by done. lia.
Qed.

(** A callback that answers what [prune] says, and keeps an invariant of its state. *)
Definition answers {W} (I : W -> Prop) (ask : oid -> W -> bool * W) : Prop :=
  forall c w, c ∈ V -> I w -> (ask c w).1 = prune c /\ I (ask c w).2.

(** The walk over ids ends, and what it yields has the invariant. *)
Lemma search_ends {W} (I : W -> Prop) (ask : oid -> W -> bool * W) (ps : oid -> res (list oid)) n
    stack post seen w :
  answers I ask -> (forall c, c ∈ V -> prune c = false -> ps c = Ok (par c)) ->
  walk_inv stack post seen -> length stack + unseen_work seen < n -> I w ->
  exists post' seen' w', search ps ask None n stack post seen w = (Ok post', w') /\
    walk_inv [] post' seen' /\ I w'.
Proof.
  intros Hask Hps. revert stack post seen w.
  induction n as [|n IH]; intros stack post seen w Hi Hn Hw; [lia|].
  destruct stack as [|[c|c] stack]; cbn [search].
  - by exists post, seen, w.
  - destruct (task_frontier _ _ _ Hi (ToExplore c)) as [HcV _]; [left|]. simpl in HcV.
    destruct (decide (c ∈ seen)) as [Hc|Hc].
    { apply IH; [by eapply inv_skip|simpl in Hn; lia|done]. }
    destruct (Hask c w HcV Hw) as [Ha Hw']. destruct (ask c w) as [b w']. simpl in Ha, Hw'. subst b.
    destruct (prune c) eqn:Hp.
    { apply IH; [|..|done].
      - eapply inv_skip; [by eapply inv_prune|set_solver].
      - pose proof (unseen_work_le c seen HcV). simpl in Hn. lia. }
    simpl. rewrite Hps by done. apply IH; [by apply inv_explore| |done].
    rewrite length_app, length_fmap. simpl in *. rewrite (unseen_work_step c seen) in Hn by done. lia.
  - apply IH; [by apply inv_emit|simpl in Hn; lia|done].
Qed.

(** ** Streaming visits *)

(** A visit that records the commit and stops at the first one that matches. *)
Definition recording (stop : oid -> bool) (c : oid) (log : list oid) : res bool * list oid :=
  (Ok (stop c), log ++ [c]).

(** Every recorded commit is a tip or the parent of one recorded before. *)
Definition log_ordered (log : list oid) : Prop :=
  forall i c, log !! i = Some c -> c ∈ tips \/ exists j d, j < i /\ log !! j = Some d /\ c ∈ par d.

Record log_inv (stop : oid -> bool) (stack : list task) (seen : gset oid) (log : list oid) : Prop := {
  log_nodup : NoDup log;
  log_seen : forall c, c ∈ log <-> c ∈ seen;
  log_order : log_ordered log;
  log_tasks : forall c, ToExplore c ∈ stack -> c ∈ tips \/ exists d, d ∈ log /\ c ∈ par d;
  log_walked : forall c, c ∈ log -> walked c;
  log_missed : forall c, c ∈ log -> stop c = false;
}.

(** How a recording ends: at a match, or with everything recorded. *)
Definition recorded (stop : oid -> bool) (log : list oid) : Prop :=
  NoDup log /\ log_ordered log /\ (forall c, c ∈ log -> walked c) /\
  ((exists l c, log = l ++ [c] /\ stop c = true /\ Forall (fun d => stop d = false) l) \/
   (Forall (fun d => stop d = false) log /\ forall c, walked c -> c ∈ log)).

Lemma log_ordered_snoc log c :
  log_ordered log -> (c ∈ tips \/ exists d, d ∈ log /\ c ∈ par d) -> log_ordered (log ++ [c]).
Proof.
  intros Ho Hc i x Hx. apply lookup_app_Some in Hx as [Hx|[Hi Hx]].
  - destruct (Ho i x Hx) as [?|(j & d & ? & ? & ?)]; [by left|]. right. exists j, d.
    split; [done|]. split; [by apply lookup_app_l_Some|done].
  - apply list_lookup_singleton_Some in Hx as [_ <-].
    destruct Hc as [?|(d & Hd & ?)]; [by left|]. right. apply list_elem_of_lookup in Hd as [j Hj].
    exists j, d. apply lookup_lt_Some in Hj as Hl. split; [lia|]. split; [by apply lookup_app_l_Some|done].
Qed.

Lemma log_step stop c st seen log :
  log_inv stop (ToExplore c :: st) seen log -> c ∉ seen -> walked c ->
  NoDup (log ++ [c]) /\ log_ordered (log ++ [c]) /\ (forall x, x ∈ log ++ [c] -> walked x).
Proof.
  intros [L1 L2 L3 L4 L5 L6] Hc Hw. split; [|split].
  - apply NoDup_app. split; [done|]. split; [|apply NoDup_singleton].
    intros x Hx ->%list_elem_of_singleton. apply Hc. by apply L2.
  - apply log_ordered_snoc; [done|]. apply L4. left.
  - intros x. rewrite elem_of_app, list_elem_of_singleton. intros [?| ->]; [by apply L5|done].
Qed.

(** A visit that stops where [stop] says, with an invariant of its state and of the commits
    visited so far. *)
Definition visits {W} (stop : oid -> bool) (I : list oid -> W -> Prop) (visit : oid -> W -> res bool * W) : Prop :=
  forall c log w, c ∈ V -> (c ∈ tips \/ exists d, d ∈ log /\ c ∈ par d) ->
    (forall d, d ∈ log -> stop d = false) -> I log w ->
    exists w', visit c w = (Ok (stop c), w') /\ I (log ++ [c]) w'.

Lemma search_records {W} (I : list oid -> W -> Prop) visit (ps : oid -> res (list oid)) stop n stack post seen log
    (w : W) :
  (forall c, c ∈ V -> ps c = Ok (par c)) -> (forall x, prune x = false) -> visits stop I visit ->
  walk_inv stack post seen -> log_inv stop stack seen log -> I log w ->
  length stack + unseen_work seen < n ->
  exists post' log' w', search ps (fun _ w => (false, w)) (Some visit) n stack post seen w = (Ok post', w') /\
    recorded stop log' /\ I log' w'.
Proof.
  intros Hps Hpr Hvis. revert stack post seen log w.
  induction n as [|n IH]; intros stack post seen log w Hi Hl Hw Hn; [lia|].
  destruct stack as [|[c|c] stack]; cbn [search].
  - exists post, log, w. split; [done|]. split; [|done]. destruct Hl as [L1 L2 L3 L4 L5 L6].
    do 3 (split; [done|]). right. split; [by apply Forall_forall|]. intros c Hc. apply L2.
    apply (inv_end _ _ Hi) in Hc. apply (seen_kept _ _ _ Hi). by left.
  - destruct (task_frontier _ _ _ Hi (ToExplore c)) as [HcV Hfr]; [left|]. simpl in HcV, Hfr.
    destruct (decide (c ∈ seen)) as [Hc|Hc].
    { apply (IH _ _ _ log); [by eapply inv_skip| |done|simpl in Hn; lia]. destruct Hl as [L1 L2 L3 L4 L5 L6].
      split; auto. intros x Hx. apply L4. by right. }
    assert (walked c) as Hwc by (by apply frontier_walked).
    destruct (log_step stop c stack seen log) as (N1 & N2 & N3); auto.
    destruct (Hvis c log w HcV (log_tasks _ _ _ _ Hl c ltac:(left)) (log_missed _ _ _ _ Hl) Hw) as (w' & Ev & Hw').
    cbn [RevWalk.run_visit]. rewrite Ev. destruct (stop c) eqn:Es.
    { exists post, (log ++ [c]), w'. split; [done|]. split; [|done]. do 3 (split; [done|]). left. exists log, c.
      do 2 (split; [done|]). apply Forall_forall. apply Hl. }
    rewrite Hps by done. apply (IH _ _ _ (log ++ [c])); [by apply inv_explore| |done|].
    + destruct Hl as [L1 L2 L3 L4 L5 L6]. split; auto.
      * intros x. rewrite elem_of_app, L2, list_elem_of_singleton, elem_of_union, elem_of_singleton. tauto.
      * intros x. rewrite elem_of_app, elem_of_cons. intros [Hx|[Hx|Hx]]; [|done|].
        -- apply list_elem_of_fmap in Hx as (p & [= <-] & Hp). right. exists c. split; [set_solver|done].
        -- destruct (L4 x) as [?|(d & ? & ?)]; [by right|by left|]. right. exists d. split; [set_solver|done].
      * intros x. rewrite elem_of_app, list_elem_of_singleton. intros [?| ->]; [by apply L6|done].
    + rewrite length_app, length_fmap. simpl in *. rewrite (unseen_work_step c seen) in Hn by done. lia.
  - apply (IH _ _ _ log); [by apply inv_emit| |done|simpl in Hn; lia]. destruct Hl as [L1 L2 L3 L4 L5 L6].
    split; auto. intros x Hx. apply L4. by right.
Qed.

End Walked.

(** * The topological walk *)

(** A finite history: the commits of [V] are stored, their parents are in [V] as well,
    and following parents decreases the rank. *)
Record history (find : oid -> option object) (V : gset oid) (rank : oid -> nat) : Prop := {
  stored_commit : forall c, c ∈ V -> exists k, find c = Some (OCommit k);
  parents_inside : forall c k p, c ∈ V -> find c = Some (OCommit k) -> p ∈ commit_parents k -> p ∈ V;
  parents_smaller : forall c k p, c ∈ V -> find c = Some (OCommit k) -> p ∈ commit_parents k ->
    rank p < rank c;
}.

(** The parents of a stored commit. *)
Definition parents_of (find : oid -> option object) (c : oid) : list oid :=
  match find c with Some (OCommit k) => commit_parents k | _ => [] end.

Definition followed_parents (find : oid -> option object) (first : bool) (c : oid) : list oid :=
  if first then take 1 (parents_of find c) else parents_of find c.

Lemma elem_of_take_1 {A} (x : A) l : x ∈ take 1 l -> x ∈ l.
Proof. destruct l as [|y l]; simpl; [done|]. rewrite take_0. set_solver. Qed.

Lemma followed_parent find first c p : p ∈ followed_parents find first c -> p ∈ parents_of find c.
Proof. unfold followed_parents. destruct first; [apply elem_of_take_1|done]. Qed.

Section Topo.
Context (find : oid -> option object) (V : gset oid) (rank : oid -> nat).
Hypothesis Hist : history find V rank.

Lemma history_parent c p : c ∈ V -> p ∈ parents_of find c -> p ∈ V /\ rank p < rank c.
Proof.
  intros Hc Hp. destruct (stored_commit _ _ _ Hist c Hc) as [k Hk]. unfold parents_of in Hp.
  rewrite Hk in Hp. split; [by eapply parents_inside|by eapply parents_smaller].
Qed.

Lemma followed_ok first c :
  c ∈ V -> followed find first c = Ok (followed_parents find first c).
Proof.
  intros Hc. destruct (stored_commit _ _ _ Hist c Hc) as [k Hk].
  unfold followed, read_parent_oids, followed_parents, parents_of. by rewrite Hk.
Qed.

(** Pushing the tips, as the callers of the walk do. *)
Fixpoint push_all (tips : list oid) (w : RevWalk.t) : res RevWalk.t :=
  match tips with [] => Ok w | c :: tips => w ← RevWalk.push find c w; push_all tips w end.

Lemma push_all_ok cs w ts :
  table_ok find (RevWalk.walk_table w) -> (forall id, mark_of false (RevWalk.walk_table w) id = false) ->
  Forall2 (names (RevWalk.walk_table w)) (RevWalk.tips w) ts -> Forall (fun c => c ∈ V) cs ->
  exists w', push_all cs w = Ok w' /\ table_ok find (RevWalk.walk_table w') /\
    (forall id, mark_of false (RevWalk.walk_table w') id = false) /\
    Forall2 (names (RevWalk.walk_table w')) (RevWalk.tips w') (ts ++ cs) /\
    RevWalk.first_parent w' = RevWalk.first_parent w.
Proof.
  revert w ts. induction cs as [|c cs IH]; intros w ts Ht Hm Hn Hc.
  { exists w. by rewrite app_nil_r. }
  apply Forall_cons in Hc as [Hc Hcs]. destruct (stored_commit _ _ _ Hist c Hc) as [k Hk].
  cbn [push_all]. unfold RevWalk.push, ensure_commit. rewrite Hk. simpl.
  destruct (intern false c (RevWalk.walk_table w)) as [i tb] eqn:E.
  destruct (intern_ok false find _ _ _ _ Ht E) as (Ht' & [He1 He2] & Hi).
  destruct (IH (RevWalk.Walk tb (RevWalk.tips w ++ [i]) (RevWalk.first_parent w)) (ts ++ [c]))
    as (w' & Ew & ?).
  - done.
  - intros id. simpl. by rewrite He2.
  - simpl. apply Forall2_app; [by eapply Forall2_names_extends|by repeat constructor].
  - done.
  - exists w'. simpl. rewrite Ew. by rewrite <- app_assoc in H.
Qed.

(** A walk from tips in the history. *)
Definition walk_from (tips : list oid) (first : bool) : res RevWalk.t :=
  push_all tips (if first then RevWalk.simplify_first_parent RevWalk.new else RevWalk.new).

Lemma walk_from_ok tips first :
  Forall (fun c => c ∈ V) tips ->
  exists w, walk_from tips first = Ok w /\ RevWalk.first_parent w = first /\
    table_ok find (RevWalk.walk_table w) /\ visited_are (RevWalk.walk_table w) ∅ /\
    Forall2 (frame_names (RevWalk.walk_table w)) (RevWalk.Explore <$> RevWalk.tips w)
      (ToExplore <$> tips).
Proof.
  intros Htips. unfold walk_from. set (w0 := if first then _ else _).
  destruct (push_all_ok tips w0 []) as (w & Ew & Ht & Hm & Hnames & Hfirst).
  { unfold w0. destruct first; apply new_table_ok. }
  { intros id. unfold w0. destruct first; apply mark_new. }
  { unfold w0. destruct first; constructor. }
  { done. }
  exists w. split; [done|]. split; [rewrite Hfirst; unfold w0; by destruct first|]. split; [done|].
  split; [intros id; by rewrite Hm|]. by apply explore_frames.
Qed.

Lemma followed_inside first c p :
  c ∈ V -> p ∈ followed_parents find first c -> p ∈ V.
Proof. intros Hc Hp%followed_parent. by eapply history_parent. Qed.

Lemma followed_smaller first c p :
  c ∈ V -> p ∈ followed_parents find first c -> rank p < rank c.
Proof. intros Hc Hp%followed_parent. by eapply history_parent. Qed.

Lemma collect_names (t : table bool) idx ids :
  table_ok find t -> Forall2 (names t) idx ids ->
  collect_res ((fun i => nd ← node_at t i; Ok (node_oid nd)) <$> idx) = Ok (A := list oid) ids.
Proof.
  intros Ht. induction 1 as [|i id idx ids Hi _ IH]; [done|]. rewrite fmap_cons. cbn [collect_res].
  destruct (node_at_names (F := bool) false find t i id Ht Hi) as (nd & -> & _ & Ho & _). simpl.
  rewrite IH, Ho. done.
Qed.

(** The order of a reversed postorder. *)
Lemma reverse_order post (par : oid -> list oid) (prune : oid -> bool) :
  NoDup post -> (forall c, c ∈ post -> prune c = false) ->
  (forall j v p, post !! j = Some v -> p ∈ par v -> prune p = false ->
    exists i, i < j /\ post !! i = Some p) ->
  forall i j c p, reverse post !! i = Some c -> reverse post !! j = Some p -> p ∈ par c -> i < j.
Proof.
  intros Hnd Hkept Hord i j c p Hi Hj Hp.
  apply lookup_lt_Some in Hi as Hil. apply lookup_lt_Some in Hj as Hjl. rewrite length_reverse in Hil, Hjl.
  rewrite reverse_lookup in Hi, Hj by done.
  destruct (Hord _ _ _ Hi Hp) as (k & Hk & Ek).
  { apply Hkept. by eapply list_elem_of_lookup_2. }
  pose proof (NoDup_lookup _ _ _ _ Hnd Ek Hj). lia.
Qed.

(** Enough turns for a walk. *)
Definition walk_fuel (first : bool) (tips : list oid) : nat :=
  S (length tips + sum_list_with (fun c => S (length (followed_parents find first c))) (elements V)).

(** The walk with a callback that answers consistently. *)
Lemma topo_walk {W} (I : W -> Prop) (ask : oid -> W -> bool * W) (tips : list oid)
    (prune : oid -> bool) (first : bool) (n : nat) (u : W) :
  answers prune V I ask -> I u ->
  Forall (fun c => c ∈ V) tips -> walk_fuel first tips <= n ->
  exists w l u', walk_from tips first = Ok w /\
    RevWalk.into_topo_vec find n ask w u = (Ok l, u') /\ I u' /\ NoDup l /\
    (forall c, c ∈ l <-> walked (followed_parents find first) prune tips c) /\
    forall i j c p, l !! i = Some c -> l !! j = Some p ->
      p ∈ followed_parents find first c -> i < j.
Proof.
  intros Hask Hu Htips Hn.
  destruct (walk_from_ok tips first Htips) as (w & Ew & Hfp & Ht & Hv & Hframes).
  exists w. rewrite Forall_forall in Htips.
  destruct (search_ends (followed_parents find first) prune tips V rank (followed_inside first)
    (followed_smaller first) Htips I ask (followed find first) n (ToExplore <$> tips) [] ∅ u Hask)
    as (post & seen & u' & Es & Hinv & Hu').
  { intros c Hc _. by apply followed_ok. }
  { by apply inv_start; [apply followed_inside|apply followed_smaller|]. }
  { rewrite length_fmap. unfold unseen_work. rewrite difference_empty_L. unfold walk_fuel in Hn. lia. }
  { done. }
  pose proof (dfs_simulates find ask None first n (RevWalk.Explore <$> RevWalk.tips w)
    (ToExplore <$> tips) [] [] (RevWalk.walk_table w) ∅ u Ht) as Hsim.
  destruct Hsim as [Hst Hsim]; [done|done|constructor|].
  rewrite Es in Hst, Hsim. simpl in Hst, Hsim.
  exists (reverse post), u'. split; [done|]. unfold RevWalk.into_topo_vec. rewrite Hfp.
  destruct (RevWalk.dfs _ _ _ _ _ _ _ _ _) as [[[idx tb]|e|] u1]; simpl in *; try done. subst u1.
  destruct Hsim as [Htb Hidx].
  rewrite (collect_names tb (reverse idx) (reverse post)) by (done || by apply Forall2_reverse).
  destruct (inv_end _ _ _ _ _ _ _ Hinv) as (Hnd & Hmem & Hord).
  split; [done|]. split; [done|]. split; [by rewrite reverse_Permutation|].
  split; [intros c; by rewrite elem_of_reverse|].
  apply (reverse_order post (followed_parents find first) prune); try done.
  intros c Hc. apply Hmem in Hc. by destruct Hc.
Qed.

(** C28: The pruned walk is a topological order of what is reachable.  From tips in a
    finite acyclic history [into_topo_vec] ends and yields, without repetition, exactly the
    commits reachable from the tips (along first parents only, if so configured) without
    passing a pruned commit, and every commit comes before its parents; the callback that
    prunes may keep state, as long as its answers do not depend on the order of questions. *)
Theorem into_topo_vec_correct {W} (I : W -> Prop) (ask : oid -> W -> bool * W) (tips : list oid)
    (prune : oid -> bool) (first : bool) (n : nat) (u : W) :
  answers prune V I ask -> I u ->
  Forall (fun c => c ∈ V) tips -> walk_fuel first tips <= n ->
  exists w l u', walk_from tips first = Ok w /\
    RevWalk.into_topo_vec find n ask w u = (Ok l, u') /\ I u' /\ NoDup l /\
    (forall c, c ∈ l <-> walked (followed_parents find first) prune tips c) /\
    forall i j c p, l !! i = Some c -> l !! j = Some p ->
      p ∈ followed_parents find first c -> i < j.
Proof. apply topo_walk. Qed.

(** The streaming walk with a visit that keeps state. *)
Lemma discover_walk {W} (I : list oid -> W -> Prop) visit (tips : list oid) (stop : oid -> bool) (first : bool)
    (n : nat) (u : W) :
  visits (followed_parents find first) tips V stop I visit -> I [] u ->
  Forall (fun c => c ∈ V) tips -> walk_fuel first tips <= n ->
  exists w log u', walk_from tips first = Ok w /\
    RevWalk.discover find n visit w u = (Ok tt, u') /\
    recorded (followed_parents find first) (fun _ => false) tips stop log /\ I log u'.
Proof.
  intros Hvis Hu Htips Hn. destruct (walk_from_ok tips first Htips) as (w & Ew & Hfp & Ht & Hv & Hframes).
  exists w. rewrite Forall_forall in Htips.
  destruct (search_records (followed_parents find first) (fun _ => false) tips V rank (followed_inside first)
    (followed_smaller first) Htips I visit
    (followed find first) stop n (ToExplore <$> tips) [] ∅ [] u) as (post & log & u' & Es & Hrec & Hu'); auto.
  { intros c Hc. by apply followed_ok. }
  { by apply inv_start; [apply followed_inside|apply followed_smaller|]. }
  { split; [constructor|set_solver|done| |set_solver|set_solver].
    intros c (x & [= ->] & Hx)%list_elem_of_fmap. by left. }
  { rewrite length_fmap. unfold unseen_work. rewrite difference_empty_L. unfold walk_fuel in Hn. lia. }
  destruct (dfs_simulates find (fun _ w => (false, w)) (Some visit) first n
    (RevWalk.Explore <$> RevWalk.tips w) (ToExplore <$> tips) [] [] (RevWalk.walk_table w) ∅ u Ht)
    as [Hlog Hsim]; [done|done|constructor|].
  rewrite Es in Hlog, Hsim. exists log, u'. split; [done|]. split; [|done].
  unfold RevWalk.discover. rewrite Hfp.
  destruct (RevWalk.dfs _ _ _ _ _ _ _ _ _) as [[[idx tb]|e|] u1]; simpl in *; try done. by subst u1.
Qed.

(** Streaming visits find a match if there is one.  From tips in a finite acyclic
    history [discover] visits reachable commits only, each at most once and, tips apart,
    after one of its children; it stops at the first visit that asks for it, and without
    such a visit it visits everything reachable. *)
Theorem discover_correct (tips : list oid) (stop : oid -> bool) (first : bool) (n : nat) :
  Forall (fun c => c ∈ V) tips -> walk_fuel first tips <= n ->
  exists w log, walk_from tips first = Ok w /\
    RevWalk.discover find n (recording stop) w [] = (Ok tt, log) /\
    recorded (followed_parents find first) (fun _ => false) tips stop log.
Proof.
  intros Htips Hn.
  destruct (discover_walk (fun log w => w = log) (recording stop) tips stop first n [])
    as (w & log & log' & Ew & Ed & Hrec & ->); try done; [|by exists w, log].
  intros c log w _ _ _ ->. by exists (log ++ [c]).
Qed.

End Topo.

(** * An example history *)

Definition bare_commit (parents : list oid) : object :=
  OCommit (Commit EmptyString parents EmptyString EmptyString None EmptyString []).

(** A merge [d] of [b] and [c], both on top of the root [a]. *)
Definition diamond : gmap oid object :=
  {["a" := bare_commit []; "b" := bare_commit ["a"]; "c" := bare_commit ["a"];
    "d" := bare_commit ["b"; "c"]]}.

Definition diamond_find (id : oid) : option object := diamond !! id.
Definition diamond_commits : gset oid := {["a"; "b"; "c"; "d"]}.

Definition diamond_rank (id : oid) : nat :=
  if decide (id = "d") then 2 else if decide (id = "a") then 0 else 1.

Lemma diamond_history : history diamond_find diamond_commits diamond_rank.
Proof.
  assert (forall c, c ∈ diamond_commits -> c = "a" \/ c = "b" \/ c = "c" \/ c = "d") as Hc.
  { unfold diamond_commits. set_solver. }
  split; intros c; [intros [->|[->|[->| ->]]]%Hc; by eexists|..];
    (intros k p [->|[->|[->| ->]]]%Hc Hk Hp; vm_compute in Hk; injection Hk as <-; simpl in Hp;
     repeat first [apply not_elem_of_nil in Hp; done|apply elem_of_cons in Hp as [->|Hp]]);
    vm_compute; (done || lia).
Qed.

(** A callback that counts how often it is asked, and prunes one commit. *)
Definition prune_b (c : oid) (asked : nat) : bool * nat := (String.eqb c "b", S asked).

Lemma into_topo_vec_correct_witness :
  exists w l u', walk_from diamond_find ["d"] false = Ok w /\
    RevWalk.into_topo_vec diamond_find 20 prune_b w 0 = (Ok l, u') /\ True /\ NoDup l /\
    (forall c, c ∈ l <-> walked (followed_parents diamond_find false) (fun c => String.eqb c "b") ["d"] c) /\
    forall i j c p, l !! i = Some c -> l !! j = Some p ->
      p ∈ followed_parents diamond_find false c -> i < j.
Proof.
  apply (into_topo_vec_correct diamond_find diamond_commits diamond_rank diamond_history
    (fun _ => True) prune_b ["d"] (fun c => String.eqb c "b") false 20).
  - done.
  - done.
  - repeat constructor; vm_compute; done.
  - vm_compute. lia.
Defined.

Lemma discover_correct_witness :
  exists w log, walk_from diamond_find ["d"] true = Ok w /\
    RevWalk.discover diamond_find 20 (recording (fun c => String.eqb c "b")) w [] = (Ok tt, log) /\
    recorded (followed_parents diamond_find true) (fun _ => false) ["d"] (fun c => String.eqb c "b") log.
Proof.
  apply (discover_correct diamond_find diamond_commits diamond_rank diamond_history
    ["d"] (fun c => String.eqb c "b") true 20).
  - repeat constructor; vm_compute; done.
  - vm_compute. lia.
Defined.
