(* ===== verification/RangeWalkFacts.v ===== *)
(** The range walk of josh-gix-ext/src/revwalk.rs yields exactly [base..tip]: the commits
    reachable from the tip and not from the base, children before parents, whether it
    follows a single chain or ranks the commits by their sequence numbers. *)

From S2P Require Import Prelude Path Ops Objects RevWalk RevWalkFacts.

Open Scope nat_scope.

Section Range.
Context {W : Type} (I : W -> Prop).
Context (find : oid -> option object) (sequence_number : oid -> M W Z) (sn : oid -> Z).
Context (V : gset oid).

(** The commits of [V] are stored with their ancestors, and have sequence numbers that
    decrease along parents. *)
Record numbered : Prop := {
  numbered_commit : forall c, c ∈ V -> exists k, find c = Some (OCommit k);
  numbered_inside : forall c p, c ∈ V -> p ∈ parents_of find c -> p ∈ V;
  numbered_seq : forall c, c ∈ V -> computes I (sequence_number c) (Ok (sn c));
  numbered_smaller : forall c p, c ∈ V -> p ∈ parents_of find c -> (sn p < sn c)%Z;
}.

(** [d] is [c] or an ancestor of it. *)
Definition ancestor (c d : oid) : Prop := rtc (fun x y => y ∈ parents_of find x) c d.

(** The commits of [base..tip]. *)
Definition in_range (tip base c : oid) : Prop := ancestor tip c /\ ~ ancestor base c.

(** A list of exactly these commits, children before parents. *)
Definition is_range (tip base : oid) (l : list oid) : Prop :=
  NoDup l /\ (forall c, c ∈ l <-> in_range tip base c) /\
  forall i j c p, l !! i = Some c -> l !! j = Some p -> p ∈ parents_of find c -> i < j.

Hypothesis Hnum : numbered.

Lemma ancestor_inside c d : c ∈ V -> ancestor c d -> d ∈ V.
Proof. induction 2 as [|x y z Hxy _ IH]; [done|]. apply IH. by eapply numbered_inside. Qed.

Lemma ancestor_seq c d : c ∈ V -> ancestor c d -> (sn d <= sn c)%Z.
Proof.
  intros Hc. induction 1 as [|x y z Hxy _ IH]; [done|].
  pose proof (numbered_smaller Hnum x y Hc Hxy).
  pose proof (IH (numbered_inside Hnum x y Hc Hxy)). lia.
Qed.

Lemma read_parents c : c ∈ V -> read_parent_oids find c = Ok (parents_of find c).
Proof.
  intros Hc. destruct (numbered_commit Hnum c Hc) as [k Hk].
  unfold read_parent_oids, parents_of. by rewrite Hk.
Qed.

(** Sequence numbers in order give the order of ancestry. *)
Lemma sorted_order (l : list oid) :
  (forall c, c ∈ l -> c ∈ V) ->
  (forall i j c d, l !! i = Some c -> l !! j = Some d -> i < j -> (sn d <= sn c)%Z) ->
  forall i j c p, l !! i = Some c -> l !! j = Some p -> p ∈ parents_of find c -> i < j.
Proof.
  intros HV Hs i j c p Hi Hj Hp. assert (c ∈ V) as Hc by (apply HV; by eapply list_elem_of_lookup_2).
  pose proof (numbered_smaller Hnum c p Hc Hp) as Hlt.
  destruct (decide (i < j)) as [|Hge]; [done|]. exfalso.
  destruct (decide (i = j)) as [->|Hne]; [simplify_eq; lia|].
  pose proof (Hs j i p c Hj Hi ltac:(lia)). lia.
Qed.

(** * The fast-forward walk *)

(** A chain of single parents from a commit down to the base. *)
Fixpoint chain_to (c : oid) (l : list oid) (base : oid) : Prop :=
  match l with
  | [] => c = base
  | x :: l => x = c /\ c ≠ base /\ exists p, parents_of find c = [p] /\ chain_to p l base
  end.

Lemma chain_base c l base : chain_to c l base -> ancestor c base.
Proof.
  revert c. induction l as [|x l IH]; intros c; simpl; [intros ->; apply rtc_refl|].
  intros (-> & _ & p & Hp & Hl). eapply rtc_l; [rewrite Hp; left|by apply IH].
Qed.

Lemma chain_elem c l base x :
  chain_to c l base -> x ∈ l -> ancestor c x /\ x ≠ base /\ ancestor x base.
Proof.
  revert c. induction l as [|y l IH]; intros c Hc; [set_solver|]. pose proof (chain_base _ _ _ Hc) as Hb.
  destruct Hc as (-> & Hne & p & Hp & Hl). rewrite elem_of_cons. intros [->|Hx].
  - split; [apply rtc_refl|done].
  - destruct (IH p Hl Hx) as (H1 & H2). split; [|done]. eapply rtc_l; [rewrite Hp; left|done].
Qed.

Lemma chain_seq c l base i j x y :
  c ∈ V -> chain_to c l base -> l !! i = Some x -> l !! j = Some y -> i < j -> (sn y < sn x)%Z.
Proof.
  revert c i j. induction l as [|z l IH]; intros c i j Hc; simpl; [done|].
  intros (-> & Hne & p & Hp & Hl) Hi Hj Hij. destruct j as [|j]; [lia|]. simpl in Hj.
  assert (p ∈ parents_of find c) as Hpc by (rewrite Hp; left).
  pose proof (numbered_inside Hnum c p Hc Hpc) as HpV.
  destruct i as [|i]; [|by eapply (IH p i j); [..|lia]]. simplify_eq/=.
  destruct (chain_elem p l base y Hl) as (Ha & _); [by eapply list_elem_of_lookup_2|].
  pose proof (ancestor_seq _ _ HpV Ha). pose proof (numbered_smaller Hnum x p Hc Hpc). lia.
Qed.

Lemma chain_complete c l base x :
  chain_to c l base -> ancestor c x -> ~ ancestor base x -> x ∈ l.
Proof.
  revert c. induction l as [|y l IH]; intros c; simpl; [by intros -> ? ?|].
  intros (-> & Hne & p & Hp & Hl) Hx Hb. apply rtc_inv in Hx as [->|(z & Hz & Hzx)]; [left|].
  right. rewrite Hp, list_elem_of_singleton in Hz. subst z. by apply (IH p).
Qed.

Lemma chain_is_range tip l base : tip ∈ V -> chain_to tip l base -> is_range tip base l.
Proof.
  intros Ht Hl. assert (forall c, c ∈ l -> c ∈ V) as HlV.
  { intros c Hc. destruct (chain_elem _ _ _ _ Hl Hc) as (H1 & _). by eapply ancestor_inside. }
  split; [|split].
  - apply NoDup_alt. intros i j c Hi Hj. destruct (Nat.lt_trichotomy i j) as [Hlt|[?|Hlt]]; [|done|].
    + pose proof (chain_seq _ _ _ _ _ _ _ Ht Hl Hi Hj Hlt). lia.
    + pose proof (chain_seq _ _ _ _ _ _ _ Ht Hl Hj Hi Hlt). lia.
  - intros c. split; [|intros [? ?]; by eapply chain_complete].
    intros Hc. destruct (chain_elem _ _ _ _ Hl Hc) as (H1 & H2 & H3). split; [done|]. intros Hbc.
    assert (base ∈ V) as HbV by (eapply ancestor_inside; [|exact H3]; by apply HlV).
    apply rtc_inv in H3 as [?|(y & Hy & Hyb)]; [done|].
    pose proof (numbered_smaller Hnum c y (HlV c Hc) Hy).
    pose proof (ancestor_seq y base (numbered_inside Hnum c y (HlV c Hc) Hy) Hyb).
    pose proof (ancestor_seq base c HbV Hbc). lia.
  - apply sorted_order; [done|]. intros i j c d Hi Hj Hij.
    pose proof (chain_seq _ _ _ _ _ _ _ Ht Hl Hi Hj Hij). lia.
Qed.

Lemma fast_forward_ok n i c j base out t :
  table_ok find t -> names t i c -> names t j base -> c ∈ V ->
  exists r t', RangeWalk.fast_forward_loop find n i j out t = Ok (r, t') /\
    table_ok find t' /\ extends RangeWalk.blank t t' /\
    (forall l, r = Some l -> exists l', l = out ++ l' /\ chain_to c l' base).
Proof.
  revert i c out t. induction n as [|n IH]; intros i c out t Ht Hi Hj Hc; cbn [RangeWalk.fast_forward_loop].
  { exists None, t. split; [done|]. split; [done|]. split; [apply extends_refl|done]. }
  destruct (decide (i = j)) as [->|Hne].
  { exists (Some out), t. split; [done|]. split; [done|]. split; [apply extends_refl|].
    intros l [= <-]. exists []. rewrite app_nil_r. split; [done|]. simpl. by eapply names_fun. }
  destruct (parse_ok RangeWalk.blank find i c t _ Ht Hi (read_parents c Hc))
    as (t1 & nd & -> & Ht1 & He1 & Hat & Ho & _ & Hps).
  simpl. rewrite Hat. simpl. destruct (node_parents nd) as [|q [|]] eqn:Eq.
  - exists None, t1. by do 3 (split; [done|]).
  - apply Forall2_cons_inv_l in Hps as (p & rest & Hp & Hrest & Ep).
    apply Forall2_nil_inv_l in Hrest as ->.
    destruct (IH q p (out ++ [node_oid nd]) t1) as (r & t2 & -> & Ht2 & He2 & Hr).
    + done.
    + done.
    + by apply He1.
    + eapply numbered_inside; [done|exact Hc|rewrite Ep; left].
    + exists r, t2. split; [done|]. split; [done|]. split; [by eapply extends_trans|].
      intros l Hl. destruct (Hr l Hl) as (l' & -> & Hch). exists (c :: l').
      rewrite <- app_assoc, Ho. split; [done|]. simpl. split; [done|].
      split; [|by exists p]. intros E. apply Hne. apply (names_inj find t i j c Ht Hi). by rewrite E.
  - exists None, t1. by do 3 (split; [done|]).
Qed.

(** * The ranked walk *)

Lemma pop_max_spec h :
  match RangeWalk.pop_max h with
  | None => h = []
  | Some (x, h') => Permutation h (x :: h') /\ forall y, y ∈ h' -> (y.1.1 <= x.1.1)%Z
  end.
Proof.
  induction h as [|x h IH]; simpl; [done|]. destruct (RangeWalk.pop_max h) as [[y h']|].
  - destruct IH as [Hp Hy]. destruct (RangeWalk.above y x) eqn:E.
    + split; [rewrite Hp; constructor|]. intros z [->|Hz]%elem_of_cons; [|by apply Hy].
      unfold RangeWalk.above in E. apply orb_true_iff in E as [E|[E _]%andb_true_iff];
        apply bool_decide_eq_true in E; lia.
    + split; [by rewrite Hp|]. unfold RangeWalk.above in E. apply orb_false_iff in E as [E _].
      apply bool_decide_eq_false in E. intros z [->|Hz%Hy]%elem_of_cons; lia.
  - subst h. split; [done|set_solver].
Qed.

Abbreviation ranked := (list (Z * nat * oid)).

Definition heap_oids (L : ranked) : list oid := snd <$> L.

Definition entry_names (t : table RangeWalk.flags) (x : Z * nat * nat) (y : Z * nat * oid) : Prop :=
  x.1 = y.1 /\ names t x.2 y.2.

(** The state of the walk by ids: the hidden, the enqueued and the pending visible commits,
    and the frontier. *)
Record view (s : RangeWalk.state) (H E Q : gset oid) (L : ranked) : Prop := {
  view_table : table_ok find (RangeWalk.tab s);
  view_marks : forall o, mark_of RangeWalk.blank (RangeWalk.tab s) o =
    RangeWalk.Flags (bool_decide (o ∈ H)) (bool_decide (o ∈ E)) (bool_decide (o ∈ Q));
  view_heap : Forall2 (entry_names (RangeWalk.tab s)) (RangeWalk.frontier s) L;
}.

Lemma entries_extend t t' h L :
  (forall i id, names t i id -> names t' i id) ->
  Forall2 (entry_names t) h L -> Forall2 (entry_names t') h L.
Proof. intros Hn Hf. eapply Forall2_impl; [exact Hf|]. intros x y [? ?]. split; auto. Qed.

(** Changing the marks of a commit. *)
Lemma view_set (f : RangeWalk.flags -> RangeWalk.flags) s H E Q L p o H' E' Q' :
  view s H E Q L -> names (RangeWalk.tab s) p o ->
  f (RangeWalk.Flags (bool_decide (o ∈ H)) (bool_decide (o ∈ E)) (bool_decide (o ∈ Q))) =
    RangeWalk.Flags (bool_decide (o ∈ H')) (bool_decide (o ∈ E')) (bool_decide (o ∈ Q')) ->
  (forall x, x ≠ o -> (x ∈ H' <-> x ∈ H) /\ (x ∈ E' <-> x ∈ E) /\ (x ∈ Q' <-> x ∈ Q)) ->
  view (RangeWalk.with_tab (set_marks f p) s) H' E' Q' L /\
  (forall i id, names (RangeWalk.tab s) i id ->
     names (RangeWalk.tab (RangeWalk.with_tab (set_marks f p) s)) i id).
Proof.
  intros [Vt Vm Vh] Hp Hf Hx.
  destruct (set_marks_ok RangeWalk.blank find f p o _ Vt Hp) as (Ht & Hn & Hm).
  assert (forall i id, names (RangeWalk.tab s) i id ->
    names (set_marks f p (RangeWalk.tab s)) i id) as Hn' by (intros i id; apply Hn).
  split; [split|exact Hn'].
  - done.
  - intros x. simpl. rewrite Hm, Vm. destruct (decide (x = o)) as [->|Hne]; [exact Hf|].
    destruct (Hx x Hne) as (H1 & H2 & H3). f_equal; by apply bool_decide_ext.
  - by eapply entries_extend.
Qed.

Lemma push_ok s H E Q L p o :
  view s H E Q L -> names (RangeWalk.tab s) p o -> o ∈ V ->
  exists s', computes I (RangeWalk.push sequence_number p s) (Ok s') /\
    view s' H E Q ((sn o, RangeWalk.seq s, o) :: L) /\
    RangeWalk.visible_pending s' = RangeWalk.visible_pending s /\
    RangeWalk.out s' = RangeWalk.out s /\ RangeWalk.tab s' = RangeWalk.tab s.
Proof.
  intros [Vt Vm Vh] Hp Ho. unfold RangeWalk.push.
  destruct (node_at_names RangeWalk.blank find _ _ _ Vt Hp) as (nd & -> & _ & Hoid & _).
  rewrite lift_ok_bind, Hoid. eexists. split.
  { eapply computes_bind_ok; [by apply (numbered_seq Hnum)|]. apply computes_ret. }
  split; [|done]. split; try done. simpl. constructor; [|done]. by split.
Qed.

Lemma node_flags s H E Q L p o :
  view s H E Q L -> names (RangeWalk.tab s) p o ->
  exists nd, node_at (RangeWalk.tab s) p = Ok nd /\ node_oid nd = o /\
    marks nd = RangeWalk.Flags (bool_decide (o ∈ H)) (bool_decide (o ∈ E)) (bool_decide (o ∈ Q)).
Proof.
  intros [Vt Vm Vh] Hp.
  destruct (node_at_names RangeWalk.blank find _ _ _ Vt Hp) as (nd & ? & _ & ? & Hm).
  exists nd. by rewrite Hm, Vm.
Qed.

(** The names a state knows are kept, and what else a spreading step keeps. *)
Definition keeps_names (s s' : RangeWalk.state) : Prop :=
  forall i id, names (RangeWalk.tab s) i id -> names (RangeWalk.tab s') i id.

Lemma view_pending f s H E Q L : view s H E Q L -> view (RangeWalk.with_pending f s) H E Q L.
Proof. by intros [Vt Vm Vh]. Qed.

(** A commit enters the frontier, visible unless hidden. *)
Lemma enqueue_visible_ok s H E Q L p o :
  view s H E Q L -> names (RangeWalk.tab s) p o -> o ∈ V -> o ∉ Q ->
  RangeWalk.visible_pending s = size Q ->
  exists s' k Q', computes I (RangeWalk.enqueue_visible sequence_number p s) (Ok s') /\
    view s' H ({[o]} ∪ E) Q' ((sn o, k, o) :: L) /\ keeps_names s s' /\
    Q' = (if decide (o ∈ H) then Q else {[o]} ∪ Q) /\
    RangeWalk.visible_pending s' = size Q' /\ RangeWalk.out s' = RangeWalk.out s.
Proof.
  intros Hv Hp Ho Hq Hs. unfold RangeWalk.enqueue_visible. cbv zeta.
  destruct (view_set RangeWalk.set_enqueued s H E Q L p o H ({[o]} ∪ E) Q Hv Hp) as [Hv1 Hn1].
  { unfold RangeWalk.set_enqueued. simpl. f_equal. symmetry. apply bool_decide_eq_true. set_solver. }
  { intros x Hx. set_solver. }
  apply Hn1 in Hp as Hp1.
  set (s1 := RangeWalk.with_tab (set_marks RangeWalk.set_enqueued p) s) in *.
  assert (RangeWalk.visible_pending s1 = size Q /\ RangeWalk.out s1 = RangeWalk.out s) as [Hs1 Ho1] by done.
  clearbody s1. destruct (node_flags _ _ _ _ _ _ _ Hv1 Hp1) as (nd & -> & _ & Hm).
  rewrite lift_ok_bind, Hm. cbn [RangeWalk.hidden]. case_bool_decide as Hh.
  - destruct (push_ok _ _ _ _ _ _ _ Hv1 Hp1 Ho) as (s2 & Ep2 & Hv2 & Hpend & Hout & Htab).
    exists s2, (RangeWalk.seq s1), Q. split; [done|]. split; [done|]. rewrite decide_True by done.
    split; [intros i id Hi; rewrite Htab; by apply Hn1|]. split; [done|]. split; congruence.
  - destruct (view_set (RangeWalk.set_queued true) s1 _ _ _ L p o H ({[o]} ∪ E) ({[o]} ∪ Q) Hv1 Hp1)
      as [Hv2 Hn2].
    { unfold RangeWalk.set_queued. simpl. f_equal. symmetry. apply bool_decide_eq_true. set_solver. }
    { intros x Hx. set_solver. }
    apply Hn2 in Hp1 as Hp2. apply (view_pending S) in Hv2.
    destruct (push_ok _ _ _ _ _ _ _ Hv2 Hp2 Ho) as (s3 & Ep3 & Hv3 & Hpend & Hout & Htab).
    eexists s3, _, ({[o]} ∪ Q). split; [done|]. split; [exact Hv3|]. rewrite decide_False by done.
    split; [intros i id Hi; rewrite Htab; by apply Hn2, Hn1|]. split; [done|].
    split; [rewrite Hpend; simpl; rewrite Hs1, size_union, size_singleton by set_solver; done|].
    by rewrite Hout.
Qed.

(** The first half of spreading: the mark itself. *)
Lemma hide_ok s H E Q L p o :
  view s H E Q L -> names (RangeWalk.tab s) p o -> (o ∈ H -> o ∉ Q) ->
  RangeWalk.visible_pending s = size Q ->
  exists nd, node_at (RangeWalk.tab s) p = Ok nd /\ RangeWalk.enqueued (marks nd) = bool_decide (o ∈ E) /\
  let s' :=
    if RangeWalk.hidden (marks nd) then s
    else
      let s := RangeWalk.with_tab (set_marks RangeWalk.set_hidden p) s in
      if RangeWalk.queued_visible (marks nd)
      then RangeWalk.with_pending Nat.pred (RangeWalk.with_tab (set_marks (RangeWalk.set_queued false) p) s)
      else s in
  view s' ({[o]} ∪ H) E (Q ∖ {[o]}) L /\ keeps_names s s' /\
  RangeWalk.visible_pending s' = size (Q ∖ {[o]}) /\ RangeWalk.out s' = RangeWalk.out s.
Proof.
  intros Hv Hp Hh Hs. destruct (node_flags _ _ _ _ _ _ _ Hv Hp) as (nd & Hat & _ & Hm).
  exists nd. split; [done|]. rewrite Hm. clear Hm. split; [done|]. cbn [RangeWalk.hidden RangeWalk.queued_visible].
  cbv zeta. case_bool_decide as Hin.
  { replace ({[o]} ∪ H) with H by set_solver. replace (Q ∖ {[o]}) with Q by (specialize (Hh Hin); set_solver).
    split; [done|]. split; [by intros i id|done]. }
  destruct (view_set RangeWalk.set_hidden s H E Q L p o ({[o]} ∪ H) E Q Hv Hp) as [Hv1 Hn1].
  { unfold RangeWalk.set_hidden. simpl. f_equal. symmetry. apply bool_decide_eq_true. set_solver. }
  { intros x Hx. set_solver. }
  case_bool_decide as Hq.
  - apply Hn1 in Hp as Hp1.
    destruct (view_set (RangeWalk.set_queued false) _ _ _ _ L p o ({[o]} ∪ H) E (Q ∖ {[o]}) Hv1 Hp1)
      as [Hv2 Hn2].
    { unfold RangeWalk.set_queued. simpl. f_equal. symmetry. apply bool_decide_eq_false. set_solver. }
    { intros x Hx. set_solver. }
    split; [by apply view_pending|]. split; [intros i id Hi; by apply Hn2, Hn1|].
    simpl. rewrite Hs. split; [|done]. rewrite size_difference by set_solver. rewrite size_singleton. lia.
  - replace (Q ∖ {[o]}) with Q by set_solver. done.
Qed.

Lemma spread_hidden_ok s H E Q L p o :
  view s H E Q L -> names (RangeWalk.tab s) p o -> o ∈ V -> (o ∈ H -> o ∉ Q) ->
  RangeWalk.visible_pending s = size Q ->
  exists s' k, computes I (RangeWalk.spread_hidden sequence_number s p) (Ok s') /\
    view s' ({[o]} ∪ H) ({[o]} ∪ E) (Q ∖ {[o]})
      (if decide (o ∈ E) then L else (sn o, k, o) :: L) /\ keeps_names s s' /\
    RangeWalk.visible_pending s' = size (Q ∖ {[o]}) /\ RangeWalk.out s' = RangeWalk.out s.
Proof.
  intros Hv Hp Ho Hh Hs. destruct (hide_ok s H E Q L p o Hv Hp Hh Hs) as (nd & Hat & He & Hv1 & Hn1 & Hs1 & Ho1).
  unfold RangeWalk.spread_hidden. rewrite Hat, lift_ok_bind. cbv zeta. rewrite He. clear He.
  set (s1 := if RangeWalk.hidden (marks nd) then s else _) in *. clearbody s1.
  case_bool_decide as HoE.
  { exists s1, 0. rewrite decide_True by done. replace ({[o]} ∪ E) with E by set_solver.
    split; [apply computes_ret|done]. }
  destruct (view_set RangeWalk.set_enqueued s1 _ E _ L p o ({[o]} ∪ H) ({[o]} ∪ E) (Q ∖ {[o]}) Hv1 (Hn1 _ _ Hp))
    as [Hv2 Hn2].
  { unfold RangeWalk.set_enqueued. simpl. f_equal. symmetry. apply bool_decide_eq_true. set_solver. }
  { intros x Hx. set_solver. }
  destruct (push_ok _ _ _ _ _ _ _ Hv2 (Hn2 _ _ (Hn1 _ _ Hp)) Ho) as (s3 & Ep3 & Hv3 & Hpend & Hout & Htab).
  eexists s3, _. rewrite decide_False by done. split; [done|]. split; [exact Hv3|].
  split; [intros i id Hi; rewrite Htab; by apply Hn2, Hn1|].
  split; [rewrite Hpend; exact Hs1|]. by rewrite Hout.
Qed.

Lemma spread_visible_ok s H E Q L p o :
  view s H E Q L -> names (RangeWalk.tab s) p o -> o ∈ V -> (o ∈ Q -> o ∈ E) ->
  RangeWalk.visible_pending s = size Q ->
  exists s' k Q', computes I (RangeWalk.spread_visible sequence_number s p) (Ok s') /\
    view s' H ({[o]} ∪ E) Q' (if decide (o ∈ E) then L else (sn o, k, o) :: L) /\ keeps_names s s' /\
    Q' = (if decide (o ∈ E \/ o ∈ H) then Q else {[o]} ∪ Q) /\
    RangeWalk.visible_pending s' = size Q' /\ RangeWalk.out s' = RangeWalk.out s.
Proof.
  intros Hv Hp Ho Hq Hs. unfold RangeWalk.spread_visible.
  destruct (node_flags _ _ _ _ _ _ _ Hv Hp) as (nd & -> & _ & Hm). rewrite lift_ok_bind, Hm. clear Hm.
  cbn [RangeWalk.enqueued]. case_bool_decide as HoE.
  { exists s, 0, Q. rewrite !decide_True by auto. replace ({[o]} ∪ E) with E by set_solver.
    split; [apply computes_ret|]. split; [done|]. split; [by intros i id|done]. }
  destruct (enqueue_visible_ok s H E Q L p o) as (s' & k & Q' & E' & Hv' & Hn' & HQ' & Hs' & Ho'); auto.
  exists s', k, Q'. rewrite (decide_False (P := o ∈ E)) by done. split; [done|]. split; [done|]. split; [done|].
  split; [|done]. rewrite HQ'. apply decide_ext. tauto.
Qed.

(** ** The invariant of the ranked walk *)

Section Ranked.
Context (tip base : oid).
Hypothesis Htip : tip ∈ V.
Hypothesis Hbase : base ∈ V.

(** [P] are the commits that left the frontier, and [X] gives the parents of each that
    were handled. *)
Record walk_ok (X : oid -> list oid) (P H E Q : gset oid) (L : ranked) (out : list oid) : Prop := {
  heap_nodup : NoDup (heap_oids L);
  heap_ranks : forall x, x ∈ L -> x.1.1 = sn x.2;
  enqueued_where : forall o, o ∈ E <-> o ∈ P \/ o ∈ heap_oids L;
  popped_once : forall o, o ∈ P -> o ∉ heap_oids L;
  queued_where : forall o, o ∈ Q <-> o ∈ heap_oids L /\ o ∉ H;
  hidden_reached : forall o, o ∈ H -> ancestor base o;
  enqueued_reached : forall o, o ∈ E -> o ∈ V /\ (ancestor tip o \/ ancestor base o);
  starts : base ∈ H /\ base ∈ E /\ tip ∈ E;
  heap_below : forall o d, o ∈ P -> d ∈ heap_oids L -> (sn d <= sn o)%Z;
  out_nodup : NoDup out;
  out_popped : forall o, o ∈ out <-> o ∈ P /\ ~ ancestor base o;
  out_sorted : forall i j c d, out !! i = Some c -> out !! j = Some d -> i < j -> (sn d <= sn c)%Z;
  parents_handled : forall o p, o ∈ P -> p ∈ X o -> p ∈ E /\ (ancestor base o -> p ∈ H);
}.

(** Which commits of the frontier are hidden when they have the greatest number. *)
Lemma greatest_hidden P H E Q L out c :
  walk_ok (parents_of find) P H E Q L out ->
  c ∈ heap_oids L -> (forall d, d ∈ heap_oids L -> (sn d <= sn c)%Z) ->
  c ∈ H <-> ancestor base c.
Proof.
  intros Hw Hc Hmax. split; [by apply (hidden_reached _ _ _ _ _ _ _ Hw)|]. intros Hbc.
  assert (forall x, ancestor base x -> ancestor x c -> x ∈ H /\ x ∈ E) as Hall.
  { intros x Hx. revert x Hx. apply (rtc_ind_r (fun x => ancestor x c -> x ∈ H /\ x ∈ E)).
    - intros _. by destruct (starts _ _ _ _ _ _ _ Hw) as (? & ? & _).
    - intros x y Hbx Hxy IH Hyc. destruct IH as [HxH HxE]; [by eapply rtc_l|].
      assert (x ∈ V) as HxV by (by eapply ancestor_inside).
      pose proof (numbered_smaller Hnum x y HxV Hxy).
      pose proof (ancestor_seq y c (numbered_inside Hnum x y HxV Hxy) Hyc).
      apply (enqueued_where _ _ _ _ _ _ _ Hw) in HxE as [HxP|HxL].
      + destruct (parents_handled _ _ _ _ _ _ _ Hw x y HxP Hxy) as [? Hy]. split; [by apply Hy|done].
      + pose proof (Hmax x HxL). lia. }
  apply Hall; [done|apply rtc_refl].
Qed.

(** A commit leaves the frontier. *)
Lemma pop_ok P H E Q L out c k L' :
  walk_ok (parents_of find) P H E Q L out -> Permutation L ((sn c, k, c) :: L') ->
  (forall y, y ∈ L' -> (y.1.1 <= sn c)%Z) ->
  (c ∈ H <-> ancestor base c) /\ (c ∉ P) /\ c ∈ V /\
  walk_ok (fun o => if decide (o = c) then [] else parents_of find o) ({[c]} ∪ P) H E
    (Q ∖ {[c]}) L' (if decide (c ∈ H) then out else out ++ [c]) /\
  forall d, d ∈ {[c]} ∪ P -> (sn c <= sn d)%Z.
Proof.
  intros Hw Hp Hmax.
  assert (Permutation (heap_oids L) (c :: heap_oids L')) as Hoids.
  { unfold heap_oids. rewrite Hp. done. }
  assert (c ∈ heap_oids L) as Hc by (rewrite Hoids; left).
  assert (forall d, d ∈ heap_oids L' -> (sn d <= sn c)%Z) as Hmax'.
  { intros d (y & -> & Hy)%list_elem_of_fmap. rewrite <- (heap_ranks _ _ _ _ _ _ _ Hw y); [by apply Hmax|].
    rewrite Hp. by right. }
  assert (c ∈ H <-> ancestor base c) as Hhid.
  { eapply greatest_hidden; [exact Hw|done|]. intros d. rewrite Hoids, elem_of_cons. intros [->|?]; [done|auto]. }
  destruct Hw as [W1 W2 W3 W4 W5 W6 W7 W8 W9 W10 W11 W12 W13].
  assert (c ∉ P) as HcP by (intros HcP; by apply (W4 c)).
  assert (c ∉ heap_oids L') as HcL' by (rewrite Hoids in W1; by apply NoDup_cons in W1 as [? _]).
  split; [done|]. split; [done|]. split; [apply W7, W3; by right|].
  assert (forall d, d ∈ {[c]} ∪ P -> (sn c <= sn d)%Z) as Hlow.
  { intros d [->%elem_of_singleton|Hd]%elem_of_union; [done|]. by apply (W9 d c). }
  split; [|done]. split; auto.
  - rewrite Hoids in W1. by apply NoDup_cons in W1 as [_ ?].
  - intros x Hx. apply W2. rewrite Hp. by right.
  - intros o. rewrite W3, Hoids, elem_of_cons, elem_of_union, elem_of_singleton. tauto.
  - intros o. rewrite elem_of_union, elem_of_singleton. intros [->|Ho]; [done|].
    intros HoL. apply (W4 o Ho). rewrite Hoids. by right.
  - intros o. rewrite elem_of_difference, W5, Hoids, elem_of_cons, elem_of_singleton.
    split; [tauto|]. intros [Ho HoH]. split; [tauto|]. by intros ->.
  - intros o d. rewrite elem_of_union, elem_of_singleton. intros [->|Ho] Hd; [by apply Hmax'|].
    apply W9; [done|]. rewrite Hoids. by right.
  - case_decide; [done|]. apply NoDup_app. split; [done|]. split; [|apply NoDup_singleton].
    intros x Hx ->%list_elem_of_singleton. by apply W11 in Hx as [? _].
  - intros o. rewrite elem_of_union, elem_of_singleton. destruct (decide (c ∈ H)) as [HcH|HcH].
    + rewrite W11. split; [tauto|]. intros [[->|?] ?]; [tauto|done].
    + rewrite elem_of_app, W11, list_elem_of_singleton. split; [|tauto].
      intros [?| ->]; [tauto|]. split; [by left|]. tauto.
  - intros i j x y Hi Hj Hij. case_decide; [by eapply W12|].
    apply lookup_app_Some in Hj as [Hj|[Hlen Hj]].
    + rewrite lookup_app_l in Hi by (apply lookup_lt_Some in Hj; lia). by eapply W12.
    + apply list_lookup_singleton_Some in Hj as [Hz <-]. rewrite lookup_app_l in Hi by lia.
      apply Hlow, elem_of_union_r, W11. by eapply list_elem_of_lookup_2.
  - intros o p. rewrite elem_of_union, elem_of_singleton. case_decide; [set_solver|].
    intros [?|Ho]; [done|]. by apply W13.
Qed.

(** A parent of a hidden commit. *)
Lemma spread_hidden_inv X P H E Q L out c p k :
  walk_ok X P H E Q L out -> c ∈ P -> ancestor base c -> p ∈ parents_of find c -> c ∈ V ->
  (forall d, d ∈ P -> (sn c <= sn d)%Z) ->
  walk_ok (fun o => if decide (o = c) then p :: X o else X o) P ({[p]} ∪ H) ({[p]} ∪ E) (Q ∖ {[p]})
    (if decide (p ∈ E) then L else (sn p, k, p) :: L) out.
Proof.
  intros [W1 W2 W3 W4 W5 W6 W7 W8 W9 W10 W11 W12 W13] Hc Hbc Hp HcV Hlow.
  assert (ancestor base p) as Hbp by (eapply rtc_r; [exact Hbc|done]).
  assert (forall o, o ∈ heap_oids (if decide (p ∈ E) then L else (sn p, k, p) :: L) <->
    o ∈ heap_oids L \/ o = p /\ p ∉ E) as HL.
  { intros o. case_decide; [tauto|]. unfold heap_oids. rewrite fmap_cons, elem_of_cons. simpl. tauto. }
  split; auto.
  - case_decide as HpE; [done|]. apply NoDup_cons. split; [|done]. intros Hin. apply HpE, W3. by right.
  - intros x. case_decide; [by apply W2|]. intros [->|Hx]%elem_of_cons; [done|by apply W2].
  - intros o. rewrite HL, elem_of_union, elem_of_singleton, W3.
    destruct (decide (p ∈ E)) as [HpE|HpE]; [|tauto]. rewrite W3 in HpE. naive_solver.
  - intros o Ho. rewrite HL. intros [?|[-> HpE]]; [by apply (W4 o)|]. apply HpE, W3. by left.
  - intros o. rewrite elem_of_difference, W5, HL, not_elem_of_union, !elem_of_singleton. naive_solver.
  - intros o. rewrite elem_of_union, elem_of_singleton. intros [->|?]; auto.
  - intros o. rewrite elem_of_union, elem_of_singleton. intros [->|?]; [|auto].
    split; [by eapply numbered_inside|by right].
  - set_solver.
  - intros o d Ho. rewrite HL. intros [?|[-> _]]; [by apply W9|].
    pose proof (Hlow o Ho). pose proof (numbered_smaller Hnum c p HcV Hp). lia.
  - intros o q Ho. destruct (decide (o = c)) as [Eo|Eo].
    + rewrite elem_of_cons. intros [->|Hq]; [set_solver|]. destruct (W13 o q Ho Hq). set_solver.
    + intros Hq. destruct (W13 o q Ho Hq). set_solver.
Qed.

(** A parent of a visible commit. *)
Lemma spread_visible_inv X P H E Q L out c p k :
  walk_ok X P H E Q L out -> c ∈ P -> ~ ancestor base c -> c ∈ E -> p ∈ parents_of find c -> c ∈ V ->
  (forall d, d ∈ P -> (sn c <= sn d)%Z) ->
  walk_ok (fun o => if decide (o = c) then p :: X o else X o) P H ({[p]} ∪ E)
    (if decide (p ∈ E \/ p ∈ H) then Q else {[p]} ∪ Q)
    (if decide (p ∈ E) then L else (sn p, k, p) :: L) out.
Proof.
  intros [W1 W2 W3 W4 W5 W6 W7 W8 W9 W10 W11 W12 W13] Hc Hbc HcE Hp HcV Hlow.
  assert (forall o, o ∈ heap_oids (if decide (p ∈ E) then L else (sn p, k, p) :: L) <->
    o ∈ heap_oids L \/ o = p /\ p ∉ E) as HL.
  { intros o. case_decide; [tauto|]. unfold heap_oids. rewrite fmap_cons, elem_of_cons. simpl. tauto. }
  split; auto.
  - case_decide as HpE; [done|]. apply NoDup_cons. split; [|done]. intros Hin. apply HpE, W3. by right.
  - intros x. case_decide; [by apply W2|]. intros [->|Hx]%elem_of_cons; [done|by apply W2].
  - intros o. rewrite HL, elem_of_union, elem_of_singleton, W3.
    destruct (decide (p ∈ E)) as [HpE|HpE]; [|tauto]. rewrite W3 in HpE. naive_solver.
  - intros o Ho. rewrite HL. intros [?|[-> HpE]]; [by apply (W4 o)|]. apply HpE, W3. by left.
  - intros o. rewrite HL. destruct (decide (p ∈ E \/ p ∈ H)) as [Hd|Hd].
    + rewrite W5. naive_solver.
    + rewrite elem_of_union, elem_of_singleton, W5. naive_solver.
  - intros o. rewrite elem_of_union, elem_of_singleton. intros [->|?]; [|auto].
    split; [by eapply numbered_inside|]. destruct (W7 c HcE) as [_ [?|?]]; [left|done]. by eapply rtc_r.
  - set_solver.
  - intros o d Ho. rewrite HL. intros [?|[-> _]]; [by apply W9|].
    pose proof (Hlow o Ho). pose proof (numbered_smaller Hnum c p HcV Hp). lia.
  - intros o q Ho. destruct (decide (o = c)) as [Eo|Eo].
    + subst o. rewrite elem_of_cons. intros [->|Hq]; [split; [set_solver|done]|].
      destruct (W13 c q Ho Hq). set_solver.
    + intros Hq. destruct (W13 o q Ho Hq). set_solver.
Qed.

Lemma walk_ok_less X X' P H E Q L out :
  walk_ok X P H E Q L out -> (forall o p, o ∈ P -> p ∈ X' o -> p ∈ X o) -> walk_ok X' P H E Q L out.
Proof. intros [W1 W2 W3 W4 W5 W6 W7 W8 W9 W10 W11 W12 W13] HX. split; auto. Qed.

(** The state, by ids and with the invariant. *)
Record walking (X : oid -> list oid) (P : gset oid) (s : RangeWalk.state) (H E Q : gset oid)
    (L : ranked) : Prop := {
  walking_view : view s H E Q L;
  walking_pending : RangeWalk.visible_pending s = size Q;
  walking_ok : walk_ok X P H E Q L (RangeWalk.out s);
}.

(** Handling the parents of the commit that left the frontier. *)
Lemma spread_all_ok c P (visible : bool) idx ids X s H E Q L :
  walking X P s H E Q L -> Forall2 (names (RangeWalk.tab s)) idx ids ->
  (forall p, p ∈ ids -> p ∈ parents_of find c) -> c ∈ P -> c ∈ V ->
  (if visible then ~ ancestor base c else ancestor base c) ->
  (forall d, d ∈ P -> (sn c <= sn d)%Z) ->
  exists s' H' E' Q' L' X',
    computes I (foldM (if visible then RangeWalk.spread_visible sequence_number
                       else RangeWalk.spread_hidden sequence_number) s idx) (Ok s') /\
    walking X' P s' H' E' Q' L' /\
    (forall o p, (o ≠ c /\ p ∈ X o) \/ (o = c /\ (p ∈ ids \/ p ∈ X c)) -> p ∈ X' o).
Proof.
  intros Hw Hn Hids Hc HcV Hvis Hlow. revert X s H E Q L Hw Hn.
  induction idx as [|i idx IH] in ids, Hids |- *; intros X s H E Q L Hw Hn.
  { apply Forall2_nil_inv_l in Hn as ->. exists s, H, E, Q, L, X. split; [apply computes_ret|]. split; [done|].
    intros o p [[_ ?]|[-> [?|?]]]; [done|set_solver|done]. }
  apply Forall2_cons_inv_l in Hn as (p & ids' & Hp & Hn & ->). destruct Hw as [Wv Wp Wo].
  assert (p ∈ parents_of find c) as Hpc by (apply Hids; left).
  assert (p ∈ V) as HpV by (by eapply numbered_inside).
  assert (exists s1 H1 E1 Q1 L1, computes I ((if visible then RangeWalk.spread_visible sequence_number
      else RangeWalk.spread_hidden sequence_number) s i) (Ok s1) /\ keeps_names s s1 /\
      walking (fun o => if decide (o = c) then p :: X o else X o) P s1 H1 E1 Q1 L1)
    as (s1 & H1 & E1 & Q1 & L1 & E1s & Hk & Hw1).
  { destruct visible.
    - destruct (spread_visible_ok s H E Q L i p) as (s1 & k & Q1 & ? & Hv1 & Hk & HQ & Hp1 & Ho1); auto.
      { intros HpQ. apply (enqueued_where _ _ _ _ _ _ _ Wo). right.
        by apply (queued_where _ _ _ _ _ _ _ Wo) in HpQ as [? _]. }
      eexists s1, _, _, _, _. split; [done|]. split; [done|]. split; [exact Hv1|done|]. rewrite Ho1, HQ.
      eapply spread_visible_inv; try done. apply (enqueued_where _ _ _ _ _ _ _ Wo). by left.
    - destruct (spread_hidden_ok s H E Q L i p) as (s1 & k & ? & Hv1 & Hk & Hp1 & Ho1); auto.
      { intros HpH HpQ. by apply (queued_where _ _ _ _ _ _ _ Wo) in HpQ as [_ ?]. }
      eexists s1, _, _, _, _. split; [done|]. split; [done|]. split; [exact Hv1|done|]. rewrite Ho1.
      by eapply spread_hidden_inv. }
  destruct (IH ids' ltac:(intros q Hq; apply Hids; by right) _ _ _ _ _ _ Hw1)
    as (s' & H' & E' & Q' & L' & X' & Ef & Hw' & HX').
  { eapply Forall2_impl; [exact Hn|]. intros. by apply Hk. }
  exists s', H', E', Q', L', X'. split; [by eapply computes_bind_ok|]. split; [done|].
  intros o q Hq. apply HX'. rewrite !(decide_True (P := c = c)) by done.
  destruct (decide (o = c)) as [->|Hne]; [|tauto]. right. split; [done|].
  rewrite !elem_of_cons in *. naive_solver.
Qed.

(** Parsing the parents of a commit keeps the view. *)
Lemma view_parse s H E Q L i c :
  view s H E Q L -> names (RangeWalk.tab s) i c -> c ∈ V ->
  exists t nd, parse RangeWalk.blank find i (RangeWalk.tab s) = Ok t /\ node_at t i = Ok nd /\
    Forall2 (names t) (node_parents nd) (parents_of find c) /\
    view (RangeWalk.with_tab (fun _ => t) s) H E Q L.
Proof.
  intros [Vt Vm Vh] Hi Hc.
  destruct (parse_ok RangeWalk.blank find i c _ _ Vt Hi (read_parents c Hc))
    as (t & nd & Hp & Ht & [He1 He2] & Hat & _ & _ & Hps).
  exists t, nd. split; [done|]. split; [done|]. split; [done|]. split; simpl.
  - done.
  - intros o. by rewrite He2.
  - by eapply entries_extend.
Qed.

Lemma spread_parents c P (visible : bool) s H E Q L i :
  walking (fun o => if decide (o = c) then [] else parents_of find o) P s H E Q L ->
  names (RangeWalk.tab s) i c -> c ∈ P -> c ∈ V ->
  (if visible then ~ ancestor base c else ancestor base c) ->
  (forall d, d ∈ P -> (sn c <= sn d)%Z) ->
  exists t nd s' H' E' Q' L', parse RangeWalk.blank find i (RangeWalk.tab s) = Ok t /\
    node_at t i = Ok nd /\
    computes I (foldM (if visible then RangeWalk.spread_visible sequence_number
                       else RangeWalk.spread_hidden sequence_number)
      (RangeWalk.with_tab (fun _ => t) s) (node_parents nd)) (Ok s') /\
    walking (parents_of find) P s' H' E' Q' L'.
Proof.
  intros [Wv Wp Wo] Hi Hc HcV Hvis Hlow.
  destruct (view_parse s H E Q L i c Wv Hi HcV) as (t & nd & Hp & Hat & Hps & Hv).
  destruct (spread_all_ok c P visible (node_parents nd) (parents_of find c)
    (fun o => if decide (o = c) then [] else parents_of find o)
    (RangeWalk.with_tab (fun _ => t) s) H E Q L) as (s' & H' & E' & Q' & L' & X' & Ef & [Wv' Wp' Wo'] & HX);
    try done.
  exists t, nd, s', H', E', Q', L'. do 3 (split; [done|]). split; [done|done|].
  eapply walk_ok_less; [exact Wo'|]. intros o p Ho Hpo. apply HX.
  destruct (decide (o = c)) as [->|Hne]; [right; split; [done|by left]|by left].
Qed.

(** One turn: the commit with the greatest number leaves the frontier. *)
Lemma turn_ok P s H E Q L x h :
  walking (parents_of find) P s H E Q L -> RangeWalk.pop_max (RangeWalk.frontier s) = Some (x, h) ->
  exists c s' H' E' Q' L', (c ∉ P) /\ c ∈ V /\
    computes I (RangeWalk.turn find sequence_number x.2
      (RangeWalk.State (RangeWalk.tab s) h (RangeWalk.seq s) (RangeWalk.visible_pending s) (RangeWalk.out s)))
      (Ok s') /\
    walking (parents_of find) ({[c]} ∪ P) s' H' E' Q' L'.
Proof.
  intros [[Vt Vm Vh] Wp Wo] Hpop. pose proof (pop_max_spec (RangeWalk.frontier s)) as Hs.
  rewrite Hpop in Hs. destruct Hs as [Hperm Hmax].
  destruct (Permutation_Forall2 Hperm Vh) as (L2 & HL2 & Hf2).
  apply Forall2_cons_inv_l in Hf2 as ([[r k] c] & L' & [Hx1 Hx2] & Hf' & ->). simpl in Hx1, Hx2.
  assert (r = sn c) as -> by (apply (heap_ranks _ _ _ _ _ _ _ Wo ((r, k), c)); rewrite HL2; left).
  destruct (pop_ok P H E Q L (RangeWalk.out s) c k L' Wo HL2) as (Hhid & HcP & HcV & Wo' & Hlow).
  { intros y Hy. rewrite Hx1 in Hmax. destruct (list_elem_of_lookup_1 _ _ Hy) as [j Hj].
    destruct (Forall2_lookup_r _ _ _ _ _ Hf' Hj) as (z & Hz & [<- _]).
    apply (Hmax z). by eapply list_elem_of_lookup_2. }
  exists c. set (s0 := RangeWalk.State _ h _ _ _).
  assert (view s0 H E Q L') as Hv0 by done.
  destruct (node_flags s0 H E Q L' x.2 c Hv0 Hx2) as (nd & Hat & Ho & Hm).
  unfold RangeWalk.turn. rewrite Hat, lift_ok_bind, Hm. cbn [RangeWalk.hidden].
  destruct (decide (c ∈ H)) as [HcH|HcH].
  - rewrite bool_decide_eq_true_2 by done.
    replace (Q ∖ {[c]}) with Q in Wo'.
    2:{ apply leibniz_equiv. intros o. rewrite elem_of_difference, elem_of_singleton. split; [|tauto].
        intros HoQ. split; [done|]. intros ->. by apply (queued_where _ _ _ _ _ _ _ Wo) in HoQ as [_ ?]. }
    destruct (spread_parents c ({[c]} ∪ P) false s0 H E Q L' x.2) as (t & nd' & s' & H' & E' & Q' & L2' & Hp & Hat' & Hfold & Hw');
      [by split|done|set_solver|done|by apply Hhid|done|].
    exists s', H', E', Q', L2'. split; [done|]. split; [done|]. split; [|done].
    rewrite Hp, lift_ok_bind, Hat', lift_ok_bind. exact Hfold.
  - rewrite bool_decide_eq_false_2 by done. rewrite Ho. cbv zeta.
    destruct (view_set (RangeWalk.set_queued false) s0 H E Q L' x.2 c H E (Q ∖ {[c]}) Hv0 Hx2) as [Hv1 Hn1].
    { unfold RangeWalk.set_queued. simpl. f_equal. symmetry. apply bool_decide_eq_false. set_solver. }
    { intros o Hoc. set_solver. }
    assert (c ∈ Q) as HcQ.
    { apply (queued_where _ _ _ _ _ _ _ Wo). split; [|done]. unfold heap_oids. rewrite HL2. left. }
    match goal with |- context [parse _ _ _ (RangeWalk.tab ?s1)] =>
      destruct (spread_parents c ({[c]} ∪ P) true s1 H E (Q ∖ {[c]}) L' x.2)
        as (t & nd' & s' & H' & E' & Q' & L2' & Hp & Hat' & Hfold & Hw') end.
    + split; [by destruct Hv1| |done]. simpl. rewrite Wp, size_difference by set_solver.
      rewrite size_singleton. lia.
    + by apply Hn1.
    + set_solver.
    + done.
    + by rewrite <- Hhid.
    + done.
    + exists s', H', E', Q', L2'. split; [done|]. split; [done|]. split; [|done].
      rewrite Hp, lift_ok_bind, Hat', lift_ok_bind. exact Hfold.
Qed.

(** Without visible commits in the frontier, what was yielded is the range. *)
Lemma done_is_range P H E Q L out :
  walk_ok (parents_of find) P H E Q L out -> Q = ∅ -> is_range tip base out.
Proof.
  intros [W1 W2 W3 W4 W5 W6 W7 W8 W9 W10 W11 W12 W13] HQ.
  assert (forall o, o ∈ E -> ~ ancestor base o -> o ∈ P) as Hpopped.
  { intros o [?|HoL]%W3 Hb; [done|]. exfalso. assert (o ∈ Q) as HoQ; [|set_solver].
    apply W5. split; [done|]. intros HoH. by apply Hb, W6. }
  assert (forall o, ancestor tip o -> ~ ancestor base o -> o ∈ P) as Hall.
  { apply (rtc_ind_r (fun o => ~ ancestor base o -> o ∈ P)).
    - intros Hb. apply Hpopped; [apply W8|done].
    - intros x y Htx Hxy IH Hb. apply Hpopped; [|done]. apply (W13 x y); [|done]. apply IH.
      intros Hbx. apply Hb. by eapply rtc_r. }
  split; [done|]. split.
  - intros o. rewrite W11. split; [|intros [? ?]; split; [by apply Hall|done]].
    intros [HoP Hb]. split; [|done]. destruct (W7 o) as [_ [?|?]]; [apply W3; by left|done|done].
  - apply sorted_order; [|done]. intros o [HoP _]%W11. apply W7, W3. by left.
Qed.

Lemma ranked_loop_ok n P s H E Q L :
  walking (parents_of find) P s H E Q L -> P ⊆ V -> size (V ∖ P) < n ->
  exists l, computes I (RangeWalk.ranked_loop find sequence_number n s) (Ok l) /\ is_range tip base l.
Proof.
  revert P s H E Q L. induction n as [|n IH]; intros P s H E Q L Hw HP Hn; [lia|].
  cbn [RangeWalk.ranked_loop]. destruct (decide (RangeWalk.visible_pending s = 0)) as [Hz|Hz].
  - exists (RangeWalk.out s). split; [apply computes_ret|]. eapply done_is_range; [apply Hw|].
    rewrite (walking_pending _ _ _ _ _ _ _ Hw) in Hz. by apply size_empty_inv, leibniz_equiv in Hz.
  - destruct (RangeWalk.pop_max (RangeWalk.frontier s)) as [[[[r k] i] h]|] eqn:Epop.
    + destruct (turn_ok P s H E Q L ((r, k), i) h Hw Epop) as (c & s' & H' & E' & Q' & L' & HcP & HcV & Et & Hw').
      simpl in Et. destruct (IH _ _ _ _ _ _ Hw') as (l & El & Hl); [set_solver| |].
      { assert (size (V ∖ ({[c]} ∪ P)) < size (V ∖ P)); [|lia]. apply subset_size. set_solver. }
      exists l. split; [by eapply computes_bind_ok|done].
    + exfalso. pose proof (pop_max_spec (RangeWalk.frontier s)) as Hs. rewrite Epop in Hs.
      destruct Hw as [[_ _ Vh] Wp Wo]. rewrite Hs in Vh. apply Forall2_nil_inv_l in Vh as ->.
      apply Hz. rewrite Wp. apply size_empty_iff. intros o. split; [|set_solver].
      intros HoQ. apply (queued_where _ _ _ _ _ _ _ Wo) in HoQ as [HoL _]. by apply not_elem_of_nil in HoL.
Qed.

Lemma ranked_walk_ok n i j t :
  table_ok find t -> names t i tip -> names t j base -> tip ≠ base ->
  (forall o, mark_of RangeWalk.blank t o = RangeWalk.Flags (bool_decide (o = base)) false false) ->
  size V < n ->
  exists l, computes I (RangeWalk.ranked_walk find sequence_number n i j t) (Ok l) /\ is_range tip base l.
Proof.
  intros Ht Hi Hj Hne Hm Hn. unfold RangeWalk.ranked_walk.
  assert (view (RangeWalk.State t [] 0 0 []) {[base]} ∅ ∅ []) as Hv0.
  { split; [done| |constructor]. intros o. simpl. rewrite Hm.
    f_equal; [apply bool_decide_ext; set_solver|symmetry; apply bool_decide_eq_false; set_solver..]. }
  destruct (enqueue_visible_ok _ _ _ _ _ i tip Hv0 Hi Htip) as (s1 & k1 & Q1 & Es1 & Hv1 & Hk1 & HQ1 & Hp1 & Ho1);
    [set_solver|done|].
  rewrite decide_False in HQ1 by set_solver. subst Q1.
  destruct (enqueue_visible_ok _ _ _ _ _ j base Hv1 (Hk1 _ _ Hj) Hbase)
    as (s2 & k2 & Q2 & Es2 & Hv2 & Hk2 & HQ2 & Hp2 & Ho2); [set_solver|done|].
  rewrite decide_True in HQ2 by set_solver. subst Q2.
  assert (exists l, computes I (RangeWalk.ranked_loop find sequence_number n s2) (Ok l) /\ is_range tip base l)
    as (l & El & Hl).
  2:{ exists l. split; [|done]. eapply computes_bind_ok; [exact Es1|]. by eapply computes_bind_ok. }
  eapply (ranked_loop_ok n ∅); [|set_solver|by rewrite difference_empty_L].
  split; [exact Hv2|done|]. rewrite Ho2, Ho1. split.
  - unfold heap_oids. simpl. apply NoDup_cons. split; [set_solver|apply NoDup_singleton].
  - intros x. rewrite !elem_of_cons, elem_of_nil. intros [->|[->|?]]; done.
  - intros o. unfold heap_oids. simpl. rewrite !elem_of_cons, elem_of_nil. set_solver.
  - set_solver.
  - intros o. unfold heap_oids. simpl. rewrite !elem_of_cons, elem_of_nil, elem_of_union, !elem_of_singleton.
    set_solver.
  - intros o ->%elem_of_singleton. apply rtc_refl.
  - intros o. rewrite !elem_of_union, !elem_of_singleton. intros [->|[->|?]]; [| |set_solver].
    + split; [done|right; apply rtc_refl].
    + split; [done|left; apply rtc_refl].
  - set_solver.
  - set_solver.
  - constructor.
  - set_solver.
  - done.
  - set_solver.
Qed.

End Ranked.

(** The walk of a range. *)
Lemma range_walk (tip base : oid) (n : nat) :
  tip ∈ V -> base ∈ V -> size V < n ->
  exists l, computes I (RangeWalk.into_topo_vec find sequence_number n tip base) (Ok l) /\
    is_range tip base l.
Proof.
  intros Ht Hb Hn. destruct (numbered_commit Hnum tip Ht) as [k1 Hk1], (numbered_commit Hnum base Hb) as [k2 Hk2].
  unfold RangeWalk.into_topo_vec, ensure_commit. rewrite Hk1, Hk2, !lift_ok_bind.
  destruct (decide (tip = base)) as [->|Hne].
  { exists []. split; [apply computes_ret|]. split; [constructor|]. split; [|done].
    intros c. split; [set_solver|]. by intros [? ?]. }
  destruct (intern RangeWalk.blank tip new_table) as [i t1] eqn:E1.
  destruct (intern_ok RangeWalk.blank find _ _ _ _ (new_table_ok find) E1) as (Ht1 & [He1 Hm1] & Hi1).
  destruct (intern RangeWalk.blank base t1) as [j t2] eqn:E2.
  destruct (intern_ok RangeWalk.blank find _ _ _ _ Ht1 E2) as (Ht2 & [He2 Hm2] & Hj2).
  destruct (set_marks_ok RangeWalk.blank find RangeWalk.set_hidden j base t2 Ht2 Hj2) as (Ht3 & Hn3 & Hm3).
  destruct (fast_forward_ok RangeWalk.FAST_FORWARD_PROBE_LIMIT i tip j base []
    (set_marks RangeWalk.set_hidden j t2)) as (r & t4 & Eff & Ht4 & [He4 Hm4] & Hr);
    [done|by apply Hn3, He2|by apply Hn3|done|].
  unfold RangeWalk.fast_forward_walk. rewrite Eff, lift_ok_bind. destruct r as [l|].
  { exists l. split; [apply computes_ret|]. destruct (Hr l eq_refl) as (l' & -> & Hl). simpl. by apply chain_is_range. }
  apply ranked_walk_ok; try done.
  - by apply He4, Hn3, He2.
  - by apply He4, Hn3.
  - intros o. rewrite Hm4, Hm3, Hm2, Hm1, mark_new. by case_decide as Ho; case_bool_decide.
Qed.

(** C27: The range walk yields exactly [base..tip].  For two commits of a history whose
    sequence numbers decrease along parents, [into_topo_vec] ends (within as many turns as
    there are commits) and yields, without repetition, exactly the commits reachable from
    the tip and not from the base, every commit before its parents, whether the walk
    follows a single chain or switches to the ranked frontier.  Asking for a sequence number
    may change a state, as long as an invariant of it guarantees the answers. *)
Theorem range_walk_correct (tip base : oid) (n : nat) :
  tip ∈ V -> base ∈ V -> size V < n ->
  exists l, computes I (RangeWalk.into_topo_vec find sequence_number n tip base) (Ok l) /\
    is_range tip base l.
Proof. apply range_walk. Qed.

End Range.

(** * The example history *)

Definition diamond_number (id : oid) : Z := Z.of_nat (diamond_rank id).

(** Numbers that are counted as they are asked for. *)
Definition asked_number (id : oid) : M nat Z := fun asked => (Ok (diamond_number id), S asked).

Lemma diamond_numbered :
  numbered (fun _ => True) diamond_find asked_number diamond_number diamond_commits.
Proof.
  split.
  - apply (stored_commit _ _ _ diamond_history).
  - intros c p Hc Hp. by apply (history_parent _ _ _ diamond_history c p).
  - done.
  - intros c p Hc Hp. unfold diamond_number.
    destruct (history_parent _ _ _ diamond_history c p Hc Hp). lia.
Qed.

Lemma range_walk_correct_witness :
  exists l, computes (fun _ => True) (RangeWalk.into_topo_vec diamond_find asked_number 5 "d" "b") (Ok l) /\
    is_range diamond_find "d" "b" l.
Proof.
  apply (range_walk_correct (fun _ => True) diamond_find asked_number diamond_number diamond_commits
    diamond_numbered "d" "b" 5).
  - vm_compute. done.
  - vm_compute. done.
  - vm_compute. lia.
Defined.
