(* ===== verification/SledCache.v ===== *)
(** The on-disk cache of josh-core/src/cache/sled.rs: the shared state of the database, opened
    for the first transaction and closed after the last, and the backend over it.

    A sled database is a directory of named trees, each a map from bytes to bytes; opening one
    takes a lock that another process may hold. *)

From S2P Require Import Prelude Path Objects Store Simplify Persist FlangParse Flang FlangText FlangRound HistoryHint CommitCache Ops.

Open Scope nat_scope.

(** [filter::spec]: the text of a filter, which is not the name of a sentinel.  [flang_spec] is
    the text that [spec] (Flang) prints. *)
Class FilterSpec := {
  filter_spec : filter -> string;
  filter_spec_slot f : filter_spec f ≠ "sequence_number" /\ filter_spec f ≠ "reachable_roots";
}.

Section Sled.
Context `{FilterSpec}.

Definition spec (f : cache_filter) : string :=
  match f with
  | Real f => filter_spec f
  | SequenceNumber => "sequence_number"
  | ReachableRoots => "reachable_roots"
  end.

(** [State]: the directory, the database if it is open, the handles of opened trees (a
    directory and a name) and the live transactions; then what is on disk, and whether another
    process holds the lock. *)
Record sled_state := Sled {
  sled_path : option string;
  sled_db : option string;
  sled_trees : list (cache_filter * (string * string));
  sled_active : nat;
  sled_disk : gmap (string * string) (gmap string string);
  sled_locked : bool;
}.

Abbreviation sm := (M sled_state).

Definition set_db (db : option string) (s : sled_state) : sled_state :=
  Sled (sled_path s) db (sled_trees s) (sled_active s) (sled_disk s) (sled_locked s).
Definition add_tree (f : cache_filter) (h : string * string) (s : sled_state) : sled_state :=
  Sled (sled_path s) (sled_db s) ((f, h) :: sled_trees s) (sled_active s) (sled_disk s) (sled_locked s).
Definition set_active (n : nat) (s : sled_state) : sled_state :=
  Sled (sled_path s) (sled_db s) (sled_trees s) n (sled_disk s) (sled_locked s).
Definition set_disk (d : gmap (string * string) (gmap string string)) (s : sled_state) : sled_state :=
  Sled (sled_path s) (sled_db s) (sled_trees s) (sled_active s) d (sled_locked s).

(** [ensure_open]. *)
Definition ensure_open : sm string := fun s =>
  match sled_db s with
  | Some d => (Ok d, s)
  | None =>
      match sled_path s with
      | None => (Err "sled cache path not configured", s)
      | Some d =>
          if sled_locked s then (Err "could not acquire lock", s)
          else (Ok d, set_db (Some d) s)
      end
  end.

Fixpoint find_tree (l : list (cache_filter * (string * string))) (f : cache_filter) :
    option (string * string) :=
  match l with
  | [] => None
  | (g, h) :: l => if decide (f = g) then Some h else find_tree l f
  end.

(** [State::tree]. *)
Definition tree (f : cache_filter) : sm (string * string) :=
  opened ← gets (fun s => find_tree (sled_trees s) f);
  match opened with
  | Some h => mret h
  | None =>
      d ← ensure_open;
      _ ← modify (add_tree f (d, spec f));
      mret (d, spec f)
  end.

(** [State::close]. *)
Definition close (s : sled_state) : sled_state :=
  Sled (sled_path s) None [] (sled_active s) (sled_disk s) (sled_locked s).

(** [SledCacheBackend::new] and [SledCacheBackend::pin]. *)
Definition new_backend (path : string) (s : sled_state) : sled_state :=
  Sled (Some path) (sled_db s) (sled_trees s) (sled_active s) (sled_disk s) (sled_locked s).
Definition pin : sm unit :=
  _ ← ensure_open; modify (fun s => set_active (S (sled_active s)) s).

(** [begin]: an error is logged. *)
Definition begin (s : sled_state) : sled_state :=
  match ensure_open s with
  | (Ok _, s) => set_active (S (sled_active s)) s
  | (_, s) => s
  end.

(** [end]. *)
Definition end_ (s : sled_state) : sled_state :=
  let s := set_active (sled_active s - 1) s in
  if decide (sled_active s = 0) then close s else s.

(** The closure runs, and a database opened for it is closed again. *)
Definition run_and_close {A} (opened_here : bool) (m : sm A) : sm (option A) := fun s =>
  let '(r, s) := m s in
  (Some <$> r, if opened_here && bool_decide (sled_active s = 0) then close s else s).

(** [with_maintenance_db]. *)
Definition with_maintenance_db {A} (f : string -> sm A) : sm (option A) :=
  path ← gets sled_path;
  match path with
  | None => mret None
  | Some _ =>
      opened_here ← gets (fun s => bool_decide (sled_db s = None));
      d ← ensure_open;
      run_and_close opened_here (f d)
  end.

(** Every tree of the database is emptied. *)
Definition clear_trees (d : string) : sm unit :=
  modify (fun s =>
    set_disk (map_imap (fun k m => Some (if decide (k.1 = d) then ∅ else m)) (sled_disk s)) s).

(** [sled_clear]. *)
Definition sled_clear : sm unit := _ ← with_maintenance_db clear_trees; mret tt.

(** The backend. *)
Definition sled_read (f : cache_filter) (from : oid) (_ : HistoryGraphHint) (_ : bool) :
    sm (option oid) :=
  h ← tree f;
  value ← gets (fun s => default ∅ (sled_disk s !! h) !! as_bytes from);
  match value with
  | Some v => id ← lift (from_bytes v); mret (Some id)
  | None => mret None
  end.

Definition sled_write (f : cache_filter) (from to : oid) (_ : HistoryGraphHint) (_ : bool) : sm unit :=
  h ← tree f;
  modify (fun s =>
    set_disk (<[h := <[as_bytes from := as_bytes to]> (default ∅ (sled_disk s !! h))]> (sled_disk s)) s).

#[export] Instance sled_backend : CacheBackend sled_state := {|
  backend_read := sled_read;
  backend_write := sled_write;
|}.

(** * The backend is lawful *)

(** The state while a transaction is live: the directory is configured and the database can be
    opened there, the handles are those of their filters, and the values are object ids. *)
Record sled_ok (s : sled_state) : Prop := {
  ok_path : exists d, sled_path s = Some d /\ (sled_db s = None \/ sled_db s = Some d) /\
    forall f h, (f, h) ∈ sled_trees s -> h = (d, spec f);
  ok_lock : sled_locked s = false;
  ok_values : forall h m k v, sled_disk s !! h = Some m -> m !! k = Some v -> String.length v = 20;
}.

Definition sled_view (s : sled_state) (f : cache_filter) (from : oid) (_ : HistoryGraphHint) (_ : bool) :
    option oid :=
  d ← sled_path s; m ← sled_disk s !! (d, spec f); hex <$> m !! as_bytes from.

Lemma find_tree_elem l f h : find_tree l f = Some h -> (f, h) ∈ l.
Proof.
  induction l as [|[g h'] l IH]; simpl; [done|]. case_decide; [intros [= ->]; subst; left|].
  intros E. right. by apply IH.
Qed.

(** Opening a tree finds the tree of the filter. *)
Lemma tree_ok s f :
  sled_ok s -> exists d s', sled_path s = Some d /\ tree f s = (Ok (d, spec f), s') /\ sled_ok s' /\
    sled_path s' = Some d /\ sled_disk s' = sled_disk s.
Proof.
  intros [(d & Hp & Hdb & Ht) Hl Hv]. exists d. unfold tree, mbind, M_bind, gets.
  destruct (find_tree (sled_trees s) f) as [h|] eqn:E.
  { apply find_tree_elem, Ht in E as ->. exists s. split; [done|]. split; [done|].
    split; [|done]. split; [by exists d|done..]. }
  unfold ensure_open. destruct (sled_db s) as [d'|] eqn:Ed.
  - destruct Hdb as [|[= ->]]; [done|]. eexists. split; [done|]. split; [done|].
    split; [|done]. split; [|done..]. exists d. simpl. split; [done|]. split; [by right|].
    intros g h [[= -> ->]|Hin]%elem_of_cons; [done|by apply Ht].
  - rewrite Hp, Hl. eexists. split; [done|]. split; [done|]. split; [|done].
    split; [|done..]. exists d. simpl. split; [done|]. split; [by right|].
    intros g h [[= -> ->]|Hin]%elem_of_cons; [done|by apply Ht].
Qed.

Lemma as_bytes_inj c d :
  is_oid c = true -> is_oid d = true -> as_bytes c = as_bytes d -> c = d.
Proof. intros [Ec _]%is_oid_bytes [Ed _]%is_oid_bytes E. by rewrite <- Ec, <- Ed, E. Qed.

Lemma sled_read_law s f c h k :
  sled_ok s -> exists s', sled_read f c h k s = (Ok (sled_view s f c h k), s') /\ sled_ok s' /\
    forall f' c' h' k', sled_view s' f' c' h' k' = sled_view s f' c' h' k'.
Proof.
  intros Hok. destruct (tree_ok s f Hok) as (d & s' & Hp & E & Hok' & Hp' & Hd).
  exists s'. unfold sled_read, mbind, M_bind, gets. rewrite E. unfold sled_view. rewrite Hp, Hp', Hd. simpl.
  split; [|done]. destruct (sled_disk s !! (d, spec f)) as [m|] eqn:Em; simpl.
  - destruct (m !! as_bytes c) as [v|] eqn:Ev; simpl; [|done].
    unfold lift, from_bytes. by rewrite decide_True by (by eapply (ok_values s Hok)).
  - done.
Qed.

Lemma sled_write_law s f c v h k :
  sled_ok s -> is_oid c = true -> is_oid v = true ->
  exists s', sled_write f c v h k s = (Ok tt, s') /\ sled_ok s' /\
    forall f' c' h' k', is_oid c' = true ->
      sled_view s' f' c' h' k' = sled_view s f' c' h' k' \/
      spec f' = spec f /\ c' = c /\ sled_view s' f' c' h' k' = Some v.
Proof.
  intros Hok Hc Hv. destruct (tree_ok s f Hok) as (d & s1 & Hp & E & [Hp1 Hl1 Hv1] & Hp' & Hd).
  eexists. unfold sled_write, mbind, M_bind, modify. rewrite E. split; [done|].
  destruct (is_oid_bytes v Hv) as [Ehex Elen]. split.
  - split; [done|done|]. intros h' m k' v'. simpl. rewrite lookup_insert_Some.
    intros [[<- <-]|[_ Hm]]; [|by apply (Hv1 h' m k')]. rewrite lookup_insert_Some.
    intros [[_ <-]|[_ Hm]]; [done|]. destruct (sled_disk s1 !! (d, spec f)) as [m|] eqn:Em; [|done].
    by apply (Hv1 _ _ _ _ Em Hm).
  - intros f' c' h' k' Hc'. unfold sled_view. simpl. rewrite Hp, Hp', Hd. simpl.
    destruct (decide (spec f' = spec f)) as [Ef|Ef].
    + rewrite Ef, lookup_insert_eq. simpl. destruct (decide (c' = c)) as [->|Hne].
      * right. rewrite lookup_insert_eq. simpl. by rewrite Ehex.
      * left. rewrite lookup_insert_ne by (intros Eb; by apply Hne, as_bytes_inj).
        by destruct (sled_disk s !! (d, spec f)).
    + left. by rewrite lookup_insert_ne by congruence.
Qed.

(** What was written is seen. *)
Lemma sled_write_shows s f c v h k s' h' k' :
  sled_ok s -> is_oid v = true -> sled_write f c v h k s = (Ok tt, s') ->
  sled_view s' f c h' k' = Some v.
Proof.
  intros Hok Hv. destruct (tree_ok s f Hok) as (d & s1 & Hp & E & _ & Hp' & Hd).
  unfold sled_write, mbind, M_bind, modify. rewrite E. intros [= <-]. unfold sled_view. simpl.
  rewrite Hp'. simpl. rewrite lookup_insert_eq. simpl. rewrite lookup_insert_eq. simpl.
  by destruct (is_oid_bytes v Hv) as [-> _].
Qed.

Lemma spec_slot f g : spec f = spec g -> is_slot f || is_slot g = true -> f = g.
Proof.
  destruct f as [f| |], g as [g| |]; simpl; try done; intros E _;
    [destruct (filter_spec_slot f)|destruct (filter_spec_slot f)
    |destruct (filter_spec_slot g)|destruct (filter_spec_slot g)]; congruence.
Qed.

#[export] Instance sled_lawful : LawfulBackend sled_state.
Proof.
  refine {| backend_ok := sled_ok; backend_view := sled_view;
            alias f g := spec f = spec g; alias_slot := spec_slot |}.
  - intros s f c h k Hok _. destruct (sled_read_law s f c h k Hok) as (s' & ? & ? & ?). by exists s'.
  - intros s f c v h k Hok Hc Hv. by apply sled_write_law.
Defined.

(** * The life of the database *)

(** Transactions start and end, and read and write while they are live; [n] counts the live
    ones. *)
Inductive sled_step : nat -> sled_state -> nat -> sled_state -> Prop :=
| step_begin n s : sled_step n s (S n) (begin s)
| step_end n s : sled_step (S n) s n (end_ s)
| step_read n s f c h k : sled_step (S n) s (S n) (sled_read f c h k s).2
| step_write n s f c v h k : is_oid c = true -> is_oid v = true ->
    sled_step (S n) s (S n) (sled_write f c v h k s).2.

Inductive sled_run (s0 : sled_state) : nat -> sled_state -> Prop :=
| run_start : sled_run s0 0 s0
| run_step n s n' s' : sled_run s0 n s -> sled_step n s n' s' -> sled_run s0 n' s'.

(** The database is open exactly while transactions are live, and the count is theirs. *)
Definition counted (n : nat) (s : sled_state) : Prop :=
  sled_ok s /\ sled_active s = n /\ (n = 0 <-> sled_db s = None) /\ (n = 0 -> sled_trees s = []).

Lemma tree_counted n s f :
  counted (S n) s -> exists h, tree f s = (Ok h, (tree f s).2) /\ counted (S n) (tree f s).2.
Proof.
  intros (Hok & Ha & Hdb & _). destruct (tree_ok s f Hok) as (d & s' & _ & E & Hok' & _).
  exists (d, spec f). rewrite E. simpl. split; [done|]. split; [done|].
  revert E. unfold tree, mbind, M_bind, gets.
  destruct (find_tree (sled_trees s) f); [by intros [= _ <-]|].
  unfold ensure_open. destruct (sled_db s) as [d'|] eqn:Ed; [|by pose proof (proj2 Hdb eq_refl)].
  intros [= _ <-]. simpl. by rewrite Ed.
Qed.

Lemma begin_counted n s : counted n s -> counted (S n) (begin s).
Proof.
  intros ([(d & Hp & Hdb & Ht) Hl Hv] & Ha & Hn & _). unfold begin, ensure_open.
  destruct (sled_db s) as [d'|] eqn:E.
  - split; [|simpl; by rewrite E, Ha]. split; [|done..]. exists d. simpl. by rewrite E.
  - rewrite Hp, Hl. split; [|simpl; by rewrite Ha]. split; [|done..]. exists d. simpl. auto.
Qed.

Lemma end_counted n s : counted (S n) s -> counted n (end_ s).
Proof.
  intros ([(d & Hp & Hdb & Ht) Hl Hv] & Ha & Hn & _). unfold end_. rewrite Ha. simpl.
  rewrite Nat.sub_0_r. case_decide as Hz.
  - subst n. split; [|done]. split; [|done..]. exists d. split; [done|]. split; [by left|].
    intros f h Hin. by apply not_elem_of_nil in Hin.
  - split; [split; [by exists d|done..]|]. simpl. split; [done|].
    split; [|done]. split; [done|]. intros E. by apply Hn in E.
Qed.

Lemma run_counted s0 n s : counted 0 s0 -> sled_run s0 n s -> counted n s.
Proof.
  intros H0. induction 1 as [|n s n' s' _ IH Hstep]; [done|].
  destruct Hstep as [n s|n s|n s f c h k|n s f c v h k Hc Hv].
  - by apply begin_counted.
  - by apply end_counted.
  - destruct (sled_read_law s f c h k (proj1 IH)) as (s' & E & Hok & _). rewrite E. simpl.
    split; [done|]. destruct (tree_counted n s f IH) as (h' & Et & (_ & Hc)).
    revert E. unfold sled_read, mbind, M_bind, gets. rewrite Et.
    destruct (_ !! as_bytes c) as [v|]; [|by intros [= _ <-]]. unfold lift.
    by destruct (from_bytes v); intros [= _ <-].
  - destruct (sled_write_law s f c v h k (proj1 IH) Hc Hv) as (s' & E & Hok & _). rewrite E. simpl.
    split; [done|]. destruct (tree_counted n s f IH) as (h' & Et & (_ & Hcount)).
    revert E. unfold sled_write, mbind, M_bind, modify. rewrite Et. intros [= <-]. done.
Qed.

(** ** What is kept *)

(** The database goes on without another result for a record: transactions begin and end, which
    opens and closes it, and read and write other records, or the same one again. *)
Inductive later_step (f : cache_filter) (c v : oid) : sled_state -> sled_state -> Prop :=
| later_begin s : later_step f c v s (begin s)
| later_end s : later_step f c v s (end_ s)
| later_read s f' c' h k : later_step f c v s (sled_read f' c' h k s).2
| later_write s f' c' v' h k : is_oid c' = true -> is_oid v' = true -> (spec f' = spec f -> c' = c -> v' = v) ->
    later_step f c v s (sled_write f' c' v' h k s).2.

Definition sled_later (f : cache_filter) (c v : oid) : sled_state -> sled_state -> Prop := rtc (later_step f c v).

Lemma begin_ok s : sled_ok s -> sled_ok (begin s).
Proof.
  intros [(d & Hp & Hdb & Ht) Hl Hv]. unfold begin, ensure_open. destruct (sled_db s) as [d'|] eqn:E.
  - split; [|done..]. exists d. simpl. by rewrite E.
  - rewrite Hp, Hl. split; [|done..]. exists d. simpl. auto.
Qed.

Lemma end_ok s : sled_ok s -> sled_ok (end_ s).
Proof.
  intros [(d & Hp & Hdb & Ht) Hl Hv]. unfold end_. case_decide; (split; [|done..]); exists d; [|done].
  split; [done|]. split; [by left|]. intros f h Hin. by apply not_elem_of_nil in Hin.
Qed.

Lemma begin_view s : sled_view (begin s) = sled_view s.
Proof.
  unfold begin, ensure_open. destruct (sled_db s); [done|]. destruct (sled_path s); [by destruct (sled_locked s)|done].
Qed.

Lemma end_view s : sled_view (end_ s) = sled_view s.
Proof. unfold end_. by case_decide. Qed.

Lemma later_step_keeps f c v s s' h k :
  is_oid c = true -> later_step f c v s s' -> sled_ok s -> sled_view s f c h k = Some v ->
  sled_ok s' /\ sled_view s' f c h k = Some v.
Proof.
  intros Hc Hs Hok Hv. destruct Hs as [s|s|s f' c' h' k'|s f' c' v' h' k' Hc' Hv' Hsame].
  - split; [by apply begin_ok|]. by rewrite begin_view.
  - split; [by apply end_ok|]. by rewrite end_view.
  - destruct (sled_read_law s f' c' h' k' Hok) as (s' & E & Hok' & Hview). rewrite E. split; [done|]. by rewrite Hview.
  - destruct (sled_write_law s f' c' v' h' k' Hok Hc' Hv') as (s' & E & Hok' & Hview). rewrite E. split; [done|].
    simpl. destruct (Hview f c h k Hc) as [-> |(Ef & Ec & ->)]; [done|]. f_equal. by apply Hsame.
Qed.

Lemma sled_later_keeps f c v s s' h k :
  is_oid c = true -> sled_later f c v s s' -> sled_ok s -> sled_view s f c h k = Some v ->
  sled_ok s' /\ sled_view s' f c h k = Some v.
Proof.
  intros Hc Hl. induction Hl as [|s s1 s' H1 _ IH]; [done|]. intros Hok Hv.
  destruct (later_step_keeps f c v s s1 h k Hc H1 Hok Hv). by apply IH.
Qed.

End Sled.

(** * The texts of filters *)

(** A text is empty or begins with a colon. *)
Definition colon_text (s : string) : Prop := s = EmptyString \/ exists t, s = String ":" t.

Lemma colon_join l : Forall colon_text l -> colon_text (join_with EmptyString l).
Proof.
  induction 1 as [|s l Hs _ IH]; [by left|]. destruct l as [|s' l]; [done|]. cbn [join_with] in *.
  destruct Hs as [->|[t ->]]; [done|]. right. by eexists.
Qed.

Section Texts.
Context `{Readers} `{JsonText}.

Lemma text_colon f : colon_text (text f).
Proof.
  induction f as [f IH] using filter_ind. destruct f; try (right; by eexists); cbn [text leaf_text];
    try (case_match; first [by left|right; by eexists]).
  destruct filters as [|x l] eqn:E; [right; by eexists|]. rewrite <- E in *.
  destruct (in_directory filters); [right; by eexists|]. by apply colon_join, Forall_fmap.
Qed.

(** What [spec] prints of a filter that has a text. *)
Definition flang_spec : FilterSpec.
Proof.
  refine {| filter_spec f := text (simplified f) |}. intros f.
  destruct (text_colon (simplified f)) as [->|[t ->]]; split; congruence.
Defined.
End Texts.

(** * A lock held elsewhere *)

(** A transaction that begins while another process holds the lock is not counted, but its end
    is: when it ends, the database is closed under the transaction that began later. *)
Definition locked_start : sled_state := Sled (Some "dir") None [] 0 ∅ true.

Definition unlock (s : sled_state) : sled_state :=
  Sled (sled_path s) (sled_db s) (sled_trees s) (sled_active s) (sled_disk s) false.

Lemma uncounted_begin_closes :
  let first := begin locked_start in
  let both := begin (unlock first) in
  sled_db both = Some "dir" /\ sled_db (end_ both) = None.
Proof. done. Qed.
