(* ===== verification/HistoryTruth.v ===== *)
(** What the history graph records say of a commit: the sequence number is the length of the
    longest path down to a root, the roots are the parentless ancestors, and every backward
    walk meets a sample point soon. *)

From S2P Require Import Prelude Path Objects RevWalk RevWalkFacts RangeWalkFacts HistoryHint.
From S2P Require Import CommitCache HistoryGraph Ops.

Open Scope Z_scope.

(** * Ordered sets *)

Definition before (a b : oid) : Prop := String.compare a b = Lt.

Lemma before_asym a b : before a b -> before b a -> False.
Proof.
  unfold before. intros Ha Hb. pose proof (string_compare_lt_trans _ _ _ Ha Hb) as E.
  by rewrite string_compare_refl in E.
Qed.

Lemma elem_of_set_insert x y l : y ∈ set_insert x l <-> y = x \/ y ∈ l.
Proof.
  induction l as [|z l IH]; simpl; [set_solver|].
  destruct (String.compare x z) eqn:E; [|set_solver|].
  - apply string_compare_eq in E as ->. set_solver.
  - rewrite !elem_of_cons, IH. tauto.
Qed.

Lemma set_insert_sorted x l : StronglySorted before l -> StronglySorted before (set_insert x l).
Proof.
  induction 1 as [|y l Hl IH Hy]; simpl; [by repeat constructor|].
  destruct (String.compare x y) eqn:E; [by constructor| |].
  - constructor; [by constructor|]. constructor; [done|]. eapply Forall_impl; [done|].
    intros z Hz. by eapply string_compare_lt_trans.
  - apply string_compare_gt in E. constructor; [done|]. rewrite Forall_forall in *.
    intros z [->|Hz]%elem_of_set_insert; [done|by apply Hy].
Qed.

Lemma elem_of_set_extend y l xs : y ∈ set_extend l xs <-> y ∈ l \/ y ∈ xs.
Proof.
  revert l. induction xs as [|x xs IH]; intros l; simpl; [set_solver|].
  unfold set_extend in *. simpl. rewrite IH, elem_of_set_insert. set_solver.
Qed.

Lemma set_extend_sorted l xs : StronglySorted before l -> StronglySorted before (set_extend l xs).
Proof.
  revert l. induction xs as [|x xs IH]; intros l Hl; [done|]. apply IH. by apply set_insert_sorted.
Qed.

(** Sorted lists with the same elements are equal. *)
Lemma sorted_set_eq l l' :
  StronglySorted before l -> StronglySorted before l' -> (forall x, x ∈ l <-> x ∈ l') -> l = l'.
Proof. apply strict_sorted_unique. apply before_asym. Qed.

(** * The hint of a commit *)

Lemma foldr_max_spec s l :
  (s <= foldr Z.max s l) /\ (forall x, x ∈ l -> x <= foldr Z.max s l) /\
  (foldr Z.max s l = s \/ foldr Z.max s l ∈ l).
Proof.
  induction l as [|y l (IH1 & IH2 & IH3)]; simpl; [set_solver|]. split; [lia|]. split.
  - intros x [->|Hx]%elem_of_cons; [lia|]. apply IH2 in Hx. lia.
  - destruct (Z.max_spec y (foldr Z.max s l)) as [[_ ->]|[_ ->]]; [|right; left].
    destruct IH3 as [?|?]; [by left|by right; right].
Qed.

(** What a derived hint is, for sequence numbers that leave room. *)
Lemma derived_hint_spec seqs :
  seqs ≠ [] -> (forall s, s ∈ seqs -> 0 <= s < 2 ^ 64 - 1) ->
  let h := derived_hint seqs in
  hint_ok h /\ (forall s, s ∈ seqs -> s < sequence_number h) /\
  (exists s, s ∈ seqs /\ sequence_number h = s + 1) /\
  parent_count h = Z.min (Z.of_nat (length seqs)) 255 /\
  (forall i s, (i < 2)%nat -> seqs !! i = Some s ->
    Z.min (sequence_number h - s) 127 <= jump_delta h).
Proof.
  destruct seqs as [|s0 rest]; [done|]. intros _ Hs. cbn [derived_hint].
  destruct (foldr_max_spec s0 rest) as (M1 & M2 & M3).
  set (m := foldr Z.max s0 rest) in *.
  assert (m ∈ s0 :: rest) as Hm by (destruct M3 as [->|?]; [left|by right]).
  pose proof (Hs m Hm) as Hmb.
  assert (forall s, s ∈ s0 :: rest -> s <= m) as Hle.
  { intros s [->|Hin]%elem_of_cons; [done|by apply M2]. }
  assert (wrap64 (m + 1) = m + 1) as -> by (apply Z.mod_small; lia).
  assert (forall s, s ∈ s0 :: rest -> wrap64 (m + 1 - s) = m + 1 - s) as Hw.
  { intros s Hin. pose proof (Hle s Hin). pose proof (Hs s Hin). apply Z.mod_small. lia. }
  rewrite (Hw s0) by left.
  set (jump := match rest with [] => _ | _ => _ end).
  assert (exists d b, jump = (d, b) /\ 0 <= d < 128 /\
    forall i s, (i < 2)%nat -> (s0 :: rest) !! i = Some s -> Z.min (m + 1 - s) 127 <= d)
    as (d & b & -> & Hd & Hdi).
  { pose proof (Hle s0 ltac:(left)). unfold jump. destruct rest as [|s1 rest].
    - eexists _, _. split; [done|]. split; [lia|]. intros [|[|i]] s Hi E; simplify_eq/=; lia.
    - rewrite (Hw s1) by (right; left). pose proof (Hle s1 ltac:(right; left)).
      case_decide; eexists _, _; (split; [done|]); (split; [lia|]);
        intros [|[|i]] s Hi E; simplify_eq/=; lia. }
  cbn [sequence_number parent_count jump_delta]. split; [|split; [|split; [|split]]].
  - unfold hint_ok. cbn [sequence_number parent_count jump_delta]. lia.
  - intros s Hin. pose proof (Hle s Hin). lia.
  - by exists m.
  - done.
  - done.
Qed.

Section Truth.
Context (find : oid -> option object) (V : gset oid) (rank : oid -> nat).
Hypothesis Hist : history find V rank.
Hypothesis Hbound : forall c, c ∈ V -> Z.of_nat (rank c) < 2 ^ 64 - 1.

Abbreviation parents := (parents_of find).

(** The hint and the roots of a commit, by recursion along its ancestors. *)
Fixpoint hint_upto (n : nat) (c : oid) : HistoryGraphHint :=
  match n with
  | O => derived_hint []
  | S n => derived_hint ((fun p => sequence_number (hint_upto n p)) <$> parents c)
  end.

Fixpoint roots_upto (n : nat) (c : oid) : list oid :=
  match n with
  | O => []
  | S n =>
      match parents c with
      | [] => [c]
      | ps => foldl (fun set p => set_extend set (roots_upto n p)) [] ps
      end
  end.

Definition hint_of (c : oid) : HistoryGraphHint := hint_upto (S (rank c)) c.
Definition roots_of (c : oid) : list oid := roots_upto (S (rank c)) c.

(** Whether commits have a root in common. *)
Definition related (ps : list oid) : bool :=
  match ps with
  | [] => false
  | p :: ps => existsb (fun r => forallb (fun q => bool_decide (r ∈ roots_of q)) ps) (roots_of p)
  end.

Lemma related_roots ps : related ps = true <-> ps ≠ [] /\ exists r, forall p, p ∈ ps -> r ∈ roots_of p.
Proof.
  destruct ps as [|p ps]; [by split; [|intros []]|]. simpl. rewrite existsb_exists.
  setoid_rewrite forallb_forall. setoid_rewrite bool_decide_eq_true. setoid_rewrite <- list_elem_of_In. split.
  - intros (r & Hr & Hall). split; [done|]. exists r. intros q [->|Hq]%elem_of_cons; auto.
  - intros (_ & r & Hall). exists r. split; [apply Hall; left|]. intros q Hq. apply Hall. by right.
Qed.

Lemma hint_upto_stable n m c :
  c ∈ V -> (rank c < n)%nat -> (rank c < m)%nat -> hint_upto n c = hint_upto m c.
Proof.
  revert m c. induction n as [|n IH]; intros m c Hc Hn Hm; [lia|]. destruct m as [|m]; [lia|].
  cbn [hint_upto]. f_equal. apply list_fmap_ext. intros i p Hp%list_elem_of_lookup_2.
  destruct (history_parent _ _ _ Hist c p Hc Hp). by rewrite (IH m) by (done || lia).
Qed.

Lemma hint_of_parents c :
  c ∈ V -> hint_of c = derived_hint ((fun p => sequence_number (hint_of p)) <$> parents c).
Proof.
  intros Hc. unfold hint_of at 1. cbn [hint_upto]. f_equal. apply list_fmap_ext.
  intros i p Hp%list_elem_of_lookup_2. destruct (history_parent _ _ _ Hist c p Hc Hp).
  unfold hint_of. by rewrite (hint_upto_stable _ (S (rank p))) by (done || lia).
Qed.

Lemma foldl_ext_in {A} (f g : list A -> oid -> list A) l acc :
  (forall a p, p ∈ l -> f a p = g a p) -> foldl f acc l = foldl g acc l.
Proof.
  revert acc. induction l as [|p l IH]; intros acc Hfg; [done|]. simpl. rewrite Hfg by left.
  apply IH. intros a q Hq. apply Hfg. by right.
Qed.

Lemma roots_upto_stable n m c :
  c ∈ V -> (rank c < n)%nat -> (rank c < m)%nat -> roots_upto n c = roots_upto m c.
Proof.
  revert m c. induction n as [|n IH]; intros m c Hc Hn Hm; [lia|]. destruct m as [|m]; [lia|].
  cbn [roots_upto]. destruct (parents c) as [|p0 ps] eqn:E; [done|]. rewrite <- E.
  apply foldl_ext_in. intros a p Hp. destruct (history_parent _ _ _ Hist c p Hc Hp).
  by rewrite (IH m) by (done || lia).
Qed.

Lemma roots_of_root c : parents c = [] -> roots_of c = [c].
Proof. intros E. unfold roots_of. cbn [roots_upto]. by rewrite E. Qed.

Lemma roots_of_parents c :
  c ∈ V -> parents c ≠ [] ->
  roots_of c = foldl (fun set p => set_extend set (roots_of p)) [] (parents c).
Proof.
  intros Hc Hp. unfold roots_of at 1. cbn [roots_upto].
  destruct (parents c) as [|p0 ps] eqn:E; [done|]. rewrite <- E. apply foldl_ext_in.
  intros a p Hin. destruct (history_parent _ _ _ Hist c p Hc Hin).
  unfold roots_of. by rewrite (roots_upto_stable _ (S (rank p))) by (done || lia).
Qed.

(** Induction along ancestry. *)
Lemma history_ind (P : oid -> Prop) :
  (forall c, c ∈ V -> (forall p, p ∈ parents c -> P p) -> P c) -> forall c, c ∈ V -> P c.
Proof.
  intros HP c. remember (rank c) as r eqn:E. revert c E.
  induction r as [r IH] using lt_wf_ind. intros c -> Hc. apply HP; [done|].
  intros p Hp. destruct (history_parent _ _ _ Hist c p Hc Hp). by apply (IH (rank p)).
Qed.

(** ** Sequence numbers *)

Lemma hint_of_root c : c ∈ V -> parents c = [] -> hint_of c = Hint 0 0 0 false.
Proof. intros Hc E. by rewrite hint_of_parents, E. Qed.

Lemma hint_of_small c : c ∈ V -> 0 <= sequence_number (hint_of c) <= Z.of_nat (rank c).
Proof.
  revert c. apply history_ind. intros c Hc IH.
  destruct (decide (parents c = [])) as [E|E]; [rewrite hint_of_root by done; simpl; lia|].
  assert (forall s, s ∈ (fun p => sequence_number (hint_of p)) <$> parents c ->
    0 <= s < Z.of_nat (rank c)) as Hs.
  { intros s (p & -> & Hp)%list_elem_of_fmap. pose proof (IH p Hp).
    destruct (history_parent _ _ _ Hist c p Hc Hp). lia. }
  pose proof (Hbound c Hc).
  destruct (derived_hint_spec ((fun p => sequence_number (hint_of p)) <$> parents c))
    as (Hok & _ & (s & Hin & Es) & _).
  { by destruct (parents c). } { intros s Hin%Hs. lia. }
  rewrite hint_of_parents by done. rewrite Es. apply Hs in Hin. lia.
Qed.

(** The hint of a commit with parents. *)
Lemma hint_of_spec c :
  c ∈ V -> parents c ≠ [] ->
  hint_ok (hint_of c) /\
  (forall p, p ∈ parents c -> sequence_number (hint_of p) < sequence_number (hint_of c)) /\
  (exists p, p ∈ parents c /\ sequence_number (hint_of c) = sequence_number (hint_of p) + 1) /\
  parent_count (hint_of c) = Z.min (Z.of_nat (length (parents c))) 255 /\
  (forall i p, (i < 2)%nat -> parents c !! i = Some p ->
    Z.min (sequence_number (hint_of c) - sequence_number (hint_of p)) 127 <= jump_delta (hint_of c)).
Proof.
  intros Hc E. pose proof (Hbound c Hc).
  destruct (derived_hint_spec ((fun p => sequence_number (hint_of p)) <$> parents c))
    as (Hok & Hlt & (s & Hin & Es) & Hpc & Hd).
  { by destruct (parents c). }
  { intros s (p & -> & Hp)%list_elem_of_fmap.
    destruct (history_parent _ _ _ Hist c p Hc Hp) as [HpV Hr]. pose proof (hint_of_small p HpV). lia. }
  rewrite <- hint_of_parents in * by done. rewrite length_fmap in Hpc. split; [done|]. split; [|split; [|split]].
  - intros p Hp. apply Hlt. by apply (list_elem_of_fmap_2 (fun p => sequence_number (hint_of p))).
  - apply list_elem_of_fmap in Hin as (p & -> & Hp). eauto.
  - done.
  - intros i p Hi Hp. apply (Hd i); [done|]. by rewrite list_lookup_fmap, Hp.
Qed.

Lemma hint_of_ok c : c ∈ V -> hint_ok (hint_of c).
Proof.
  intros Hc. destruct (decide (parents c = [])) as [E|E]; [|by apply hint_of_spec].
  rewrite hint_of_root by done. unfold hint_ok. simpl. lia.
Qed.

(** A step down to a parent. *)
Definition step_down (c p : oid) : Prop := p ∈ parents c.

Lemma step_down_inside c p : c ∈ V -> step_down c p -> p ∈ V.
Proof. intros Hc Hp. by eapply history_parent. Qed.

(** The sequence number is the length of a longest path down. *)
Lemma longest_path c :
  c ∈ V ->
  (exists r, nsteps step_down (Z.to_nat (sequence_number (hint_of c))) c r /\ parents r = []) /\
  forall n d, nsteps step_down n c d -> Z.of_nat n <= sequence_number (hint_of c).
Proof.
  revert c. apply history_ind. intros c Hc IH.
  destruct (decide (parents c = [])) as [E|E].
  { rewrite hint_of_root by done. simpl. split; [exists c; by split; [constructor|]|].
    intros n d Hn. destruct Hn as [|n c p d Hp]; [lia|]. unfold step_down in Hp. rewrite E in Hp.
    by apply not_elem_of_nil in Hp. }
  destruct (hint_of_spec c Hc E) as (_ & Hlt & (p & Hp & Es) & _). split.
  - destruct (IH p Hp) as [(r & Hr & Er) _]. exists r. split; [|done].
    pose proof (hint_of_small p (step_down_inside c p Hc Hp)).
    rewrite Es, Z2Nat.inj_add by lia. rewrite Nat.add_comm. by apply (nsteps_l _ _ c p).
  - intros n d Hn. destruct Hn as [c|n c q d Hq Hn].
    { pose proof (hint_of_small c Hc). lia. }
    pose proof (Hlt q Hq). destruct (IH q Hq) as [_ Hmax]. pose proof (Hmax n d Hn). lia.
Qed.

(** ** Roots *)

Lemma roots_fold (ps : list oid) acc :
  StronglySorted before acc ->
  let set := foldl (fun set p => set_extend set (roots_of p)) acc ps in
  StronglySorted before set /\
  forall r, r ∈ set <-> r ∈ acc \/ exists p, p ∈ ps /\ r ∈ roots_of p.
Proof.
  clear Hist Hbound. revert acc. induction ps as [|p ps IH]; intros acc Hacc; cbv zeta; simpl.
  { split; [done|]. set_solver. }
  destruct (IH (set_extend acc (roots_of p))) as [Hs He]; [by apply set_extend_sorted|].
  split; [done|]. intros r. rewrite He, elem_of_set_extend. set_solver.
Qed.

(** The roots of a commit are its ancestors without parents, in order. *)
Lemma roots_of_spec c :
  c ∈ V ->
  StronglySorted before (roots_of c) /\
  forall r, r ∈ roots_of c <-> ancestor find c r /\ parents r = [].
Proof.
  revert c. apply history_ind. intros c Hc IH.
  destruct (decide (parents c = [])) as [E|E].
  { rewrite roots_of_root by done. split; [by repeat constructor|]. intros r.
    rewrite list_elem_of_singleton. split; [intros ->; by split; [apply rtc_refl|]|]. intros [Ha _].
    destruct Ha as [|c p r Hp]; [done|]. rewrite E in Hp. by apply not_elem_of_nil in Hp. }
  rewrite roots_of_parents by done.
  destruct (roots_fold (parents c) [] ltac:(constructor)) as [Hs He]. split; [done|].
  intros r. rewrite He. split.
  - intros [Hr|(p & Hp & Hr)]; [by apply not_elem_of_nil in Hr|]. apply IH in Hr as [Ha Er]; [|done].
    split; [|done]. by apply (rtc_l _ c p).
  - intros [Ha Er]. right. destruct Ha as [|c p r Hp Ha]; [done|]. exists p. split; [done|].
    by apply IH.
Qed.

Lemma root_inside c r : c ∈ V -> r ∈ roots_of c -> r ∈ V.
Proof.
  intros Hc Hr. apply roots_of_spec in Hr as [Ha _]; [|done].
  induction Ha as [|x y z Hxy _ IH]; [done|]. apply IH. by eapply step_down_inside.
Qed.

(** Every commit has a root. *)
Lemma root_exists c : c ∈ V -> exists r, ancestor find c r /\ parents r = [].
Proof.
  revert c. apply history_ind. intros c Hc IH. destruct (parents c) as [|p ps] eqn:E.
  { exists c. by split; [apply rtc_refl|]. }
  destruct (IH p) as (r & Ha & Er); [left|]. exists r. split; [|done].
  apply (rtc_l _ c p); [|done]. rewrite E. left.
Qed.

(** ** Sample points *)

(** The commits after [c] on a backward walk. *)
Fixpoint walks_back (c : oid) (l : list oid) : Prop :=
  match l with [] => True | p :: l => step_down c p /\ walks_back p l end.

(** A step from a commit that is no sample point stays between two multiples of the interval. *)
Lemma unsampled_step c p :
  c ∈ V -> step_down c p -> is_sample_point (hint_of c) = false ->
  sequence_number (hint_of p) mod 100 < sequence_number (hint_of c) mod 100.
Proof.
  intros Hc Hp Hn.
  assert (parents c ≠ []) as E by (intros E; unfold step_down in Hp; rewrite E in Hp; set_solver).
  destruct (hint_of_spec c Hc E) as (_ & Hlt & (q & Hq & Es) & Hpc & Hd).
  pose proof (Hlt p Hp) as Hpl.
  pose proof (hint_of_small p (step_down_inside c p Hc Hp)) as [Hp0 _].
  set (s := sequence_number (hint_of c)) in *. set (sp := sequence_number (hint_of p)) in *.
  assert (s / 100 <= sp / 100) as Hdiv.
  2:{ pose proof (Z.div_le_mono sp s 100 ltac:(lia) ltac:(lia)).
      pose proof (Z_div_mod_eq_full s 100). pose proof (Z_div_mod_eq_full sp 100).
      assert (s / 100 = sp / 100) by lia. lia. }
  unfold is_sample_point, SAMPLE_INTERVAL in Hn. fold s in Hn.
  case_decide as Hm; [done|]. unfold step_down in Hp. destruct (parents c) as [|p1 [|p2 [|p3 ps]]]; [done|..].
  - apply list_elem_of_singleton in Hp, Hq. subst q. rewrite <- Hp in Es. fold sp in Es.
    replace sp with (s - 1) by lia.
    pose proof (Z_div_mod_eq_full s 100). pose proof (Z.mod_pos_bound s 100 ltac:(lia)).
    apply Z.div_le_lower_bound; lia.
  - rewrite Hpc in Hn. simpl in Hn. unfold crosses_sample_boundary in Hn. fold s in Hn.
    apply bool_decide_eq_false in Hn. unfold SAMPLE_INTERVAL in Hn.
    apply list_elem_of_lookup in Hp as [i Hi].
    assert (i < 2)%nat as Hi2 by (apply lookup_lt_Some in Hi; simpl in Hi; lia).
    pose proof (Hd i p Hi2 Hi) as Hj. fold sp in Hj. set (d := jump_delta (hint_of c)) in *.
    destruct (decide (s - sp <= 127)) as [Hs|Hs].
    + pose proof (Z.div_le_mono (Z.max 0 (s - d)) sp 100 ltac:(lia) ltac:(lia)). lia.
    + pose proof (Z.div_le_mono (Z.max 0 (s - d)) (s - 100) 100 ltac:(lia) ltac:(lia)) as Hb.
      replace (s - 100) with (s + (-1) * 100) in Hb by lia. rewrite Z.div_add in Hb by lia. lia.
  - cbn [length] in Hpc. rewrite decide_False in Hn by lia. by rewrite decide_False in Hn by lia.
Qed.

Lemma root_is_sample c : c ∈ V -> parents c = [] -> is_sample_point (hint_of c) = true.
Proof. intros Hc E. by rewrite hint_of_root. Qed.

Lemma sample_on_path c l :
  c ∈ V -> walks_back c l ->
  sequence_number (hint_of c) mod 100 < Z.of_nat (length (c :: l)) \/
    (exists r, last (c :: l) = Some r /\ parents r = []) ->
  exists d, d ∈ take (S (Z.to_nat (sequence_number (hint_of c) mod 100))) (c :: l) /\
    is_sample_point (hint_of d) = true.
Proof.
  revert c. induction l as [|p l IH]; intros c Hc Hl Hend.
  - exists c. split; [left|]. destruct Hend as [Hend|(r & [= <-] & Hr)]; [|by apply root_is_sample].
    unfold is_sample_point. rewrite decide_True; [done|]. unfold SAMPLE_INTERVAL.
    pose proof (Z.mod_pos_bound (sequence_number (hint_of c)) 100 ltac:(lia)). simpl in Hend. lia.
  - destruct Hl as [Hp Hl]. destruct (is_sample_point (hint_of c)) eqn:Hs.
    { exists c. split; [left|done]. }
    pose proof (unsampled_step c p Hc Hp Hs) as Hlt.
    pose proof (Z.mod_pos_bound (sequence_number (hint_of p)) 100 ltac:(lia)).
    destruct (IH p) as (d & Hd & Hsd); [by eapply step_down_inside|done|..].
    { destruct Hend as [Hend|Hend]; [left; simpl in *; lia|by right]. }
    exists d. split; [|done]. rewrite firstn_cons. right.
    apply list_elem_of_lookup in Hd as [i [Hi Hlt']%lookup_take_Some].
    apply list_elem_of_lookup. exists i. apply lookup_take_Some. split; [done|lia].
Qed.

End Truth.
