(* ===== verification/HistoryGraphFacts.v ===== *)
(** The history graph records are right: from every sound state of the caches the code returns
    the hint and the roots of a commit, and leaves the caches sound. *)

From S2P Require Import Prelude Path Objects Store RevWalk RevWalkFacts RangeWalkFacts HistoryHint.
From S2P Require Import CommitCache HistoryGraph HistoryTruth Ops.

Open Scope nat_scope.

Section Facts.
Context `{ObjectHash} {B : Type} `{LawfulBackend B}.
Context (find0 : oid -> option object) (V : gset oid) (rank : oid -> nat).

Abbreviation parents := (parents_of find0).
Abbreviation hint_of := (hint_of find0 rank).
Abbreviation roots_of := (roots_of find0 rank).
Abbreviation cm := (M (txn B)).

(** * What the records of the history are *)

Definition roots_blob (c : oid) : object := OBlob (roots_bytes (roots_of c)).
Definition roots_id (c : oid) : oid := compute_hash (roots_blob c).

(** A history whose objects have proper ids, few enough for sequence numbers of 64 bits. *)
Record graph_ok : Prop := {
  graph_history : history find0 V rank;
  graph_bound : forall c, c ∈ V -> (Z.of_nat (rank c) < 2 ^ 64 - 1)%Z;
  graph_ids : forall c, c ∈ V -> is_oid c = true;
  graph_roots_ids : forall c, c ∈ V -> is_oid (roots_id c) = true;
}.

Hypothesis Hgraph : graph_ok.

Definition slot_value (f : cache_filter) (c : oid) : oid :=
  match f with SequenceNumber => oid_from_hint (hint_of c) | _ => roots_id c end.

Definition roots_stored (o : odb) (c : oid) : Prop := try_find o (roots_id c) = Some (roots_blob c).

(** A commit of the history that the object database has. *)
Definition held (t : txn B) (c : oid) : Prop := c ∈ V /\ try_find (t_odb t) c = find0 c.

(** A sound state: with a commit its parents are stored, the backends work, and every record of
    the history under a sentinel is right, also one of a commit that is not stored.  A record of
    roots in the map of the transaction has its blob; one of a backend may have lost it. *)
Record sound (t : txn B) : Prop := {
  sound_odb : odb_ok (t_odb t);
  sound_closed : forall c p, held t c -> p ∈ parents c -> held t p;
  sound_stack : stack_ok (cache t);
  sound_map : forall f c v, c ∈ V -> is_slot f = true -> map_get (commit_map t) f c = Some v ->
    v = slot_value f c /\ (f = ReachableRoots -> roots_stored (t_odb t) c);
  sound_view : forall b f c h k v, b ∈ cache t -> c ∈ V -> is_slot f = true ->
    backend_view b f c h k = Some v -> v = slot_value f c;
}.

(** A record that the code can use: of the map, or of a backend and still stored. *)
Definition usable (o : odb) (f : cache_filter) (c : oid) : bool :=
  bool_decide (slot_value f c = zero_oid) || bool_decide (f = SequenceNumber) ||
  odb_contains o (slot_value f c).
Definition has (t : txn B) (f : cache_filter) (c : oid) : bool :=
  bool_decide (is_Some (map_get (commit_map t) f c)) ||
  (bool_decide (is_Some (stack_view (cache t) f c slot_hint false)) && usable (t_odb t) f c).

(** The records under real filters are not touched. *)
Definition keeps_real (t t' : txn B) : Prop :=
  length (cache t') = length (cache t) /\
  (forall f c, map_get (commit_map t') (Real f) c = map_get (commit_map t) (Real f) c) /\
  (forall f c h k, is_oid c = true ->
    stack_view (cache t') (Real f) c h k = stack_view (cache t) (Real f) c h k).

(** Later states have more objects, the same commits of the history, and more records of it. *)
Definition later (t t' : txn B) : Prop :=
  odb_extends (t_odb t) (t_odb t') /\
  (forall id, odb_contains (t_odb t) id = true -> odb_contains (t_odb t') id = true) /\
  (forall f c, c ∈ V -> is_slot f = true -> has t f c = true -> has t' f c = true) /\
  keeps_real t t'.

(** States that a lookup does not tell apart. *)
Definition same (t t' : txn B) : Prop :=
  t_odb t' = t_odb t /\ (forall f c, c ∈ V -> is_slot f = true -> has t' f c = has t f c) /\
  keeps_real t t'.

#[local] Instance keeps_real_preorder : PreOrder keeps_real.
Proof.
  split; [done|]. intros t1 t2 t3 (L1 & A1 & A2) (L2 & B1 & B2). split; [congruence|].
  split; intros; [by rewrite B1|by rewrite B2, A2].
Qed.

#[local] Instance later_preorder : PreOrder later.
Proof.
  split; [by intros t; split; [apply odb_extends_refl|]|].
  intros t1 t2 t3 (E1 & C1 & A1 & K1) (E2 & C2 & A2 & K2).
  split; [by eapply odb_extends_trans|]. split; [auto|]. split; [auto|]. by transitivity t2.
Qed.

#[local] Instance same_preorder : PreOrder same.
Proof.
  split; [done|]. intros t1 t2 t3 (E1 & A1 & K1) (E2 & A2 & K2). split; [congruence|].
  split; [intros f c Hc Hf; by rewrite A2, A1|by transitivity t2].
Qed.

Lemma same_later t t' : same t t' -> later t t'.
Proof.
  intros (E & A & K). split; [rewrite E; apply odb_extends_refl|]. split; [by rewrite E|].
  split; [|done]. intros f c Hc Hf. by rewrite A.
Qed.

(** The misses of [t'] are those of [t] and some under sentinels, for commits of [X]. *)
Definition adds (X : list oid) (t t' : txn B) : Prop :=
  nesting_level t' = nesting_level t /\ exists ms, missing t' = missing t ++ ms /\
    Forall (fun e => is_slot e.1.2 = true /\ e.2 ∈ X) ms.

(** The misses of [t'] are those of [t] and some that are known by now. *)
Definition known_misses (t t' : txn B) : Prop :=
  nesting_level t' = nesting_level t /\ exists ms, missing t' = missing t ++ ms /\
    Forall (fun e => is_slot e.1.2 = true /\ e.2 ∈ V /\ has t' e.1.2 e.2 = true) ms.

#[local] Instance adds_preorder X : PreOrder (adds X).
Proof.
  split; [intros t; split; [done|]; exists []; by rewrite app_nil_r|].
  intros t1 t2 t3 (N1 & ms1 & E1 & F1) (N2 & ms2 & E2 & F2). split; [congruence|].
  exists (ms1 ++ ms2). rewrite E2, E1, app_assoc. split; [done|]. by apply Forall_app.
Qed.

Lemma adds_nothing X t t' : nesting_level t' = nesting_level t -> missing t' = missing t -> adds X t t'.
Proof. intros N E. split; [done|]. exists []. by rewrite E, app_nil_r. Qed.

Lemma adds_weaken X Y t t' : X ⊆ Y -> adds X t t' -> adds Y t t'.
Proof.
  intros HXY (N & ms & E & F). split; [done|]. exists ms. split; [done|].
  eapply Forall_impl; [done|]. intros e [He Hx]. split; [done|]. by apply HXY.
Qed.

Lemma known_misses_trans t1 t2 t3 :
  later t2 t3 -> known_misses t1 t2 -> known_misses t2 t3 -> known_misses t1 t3.
Proof.
  intros (_ & _ & L & _) (N1 & ms1 & E1 & F1) (N2 & ms2 & E2 & F2). split; [congruence|].
  exists (ms1 ++ ms2). rewrite E2, E1, app_assoc. split; [done|]. apply Forall_app. split; [|done].
  eapply Forall_impl; [done|]. intros e (He & Hx & Hh). split; [done|]. split; [done|]. by apply L.
Qed.

(** * Runs *)

(** [m] returns [a] from [t], in a later sound state with [Q]; the misses are of [X]. *)
Definition gives_in {A} (X : list oid) (t : txn B) (m : cm A) (a : A) (Q : txn B -> Prop) : Prop :=
  exists t', m t = (Ok a, t') /\ sound t' /\ later t t' /\ adds X t t' /\ Q t'.

(** The same, and new misses are known at the end. *)
Definition gives {A} (t : txn B) (m : cm A) (a : A) (Q : txn B -> Prop) : Prop :=
  exists t', m t = (Ok a, t') /\ sound t' /\ later t t' /\ known_misses t t' /\ Q t'.

(** [m] returns [a] from [t] and changes nothing a lookup sees. *)
Definition reads {A} (X : list oid) (t : txn B) (m : cm A) (a : A) : Prop :=
  exists t', m t = (Ok a, t') /\ sound t' /\ same t t' /\ adds X t t'.

Lemma gives_in_bind {A C} X t (m : cm A) (k : A -> cm C) a c Q R :
  gives_in X t m a Q ->
  (forall t', sound t' -> later t t' -> Q t' -> gives_in X t' (k a) c R) -> gives_in X t (m ≫= k) c R.
Proof.
  intros (t1 & E1 & Hs1 & Hl1 & Ha1 & HQ) Hk.
  destruct (Hk t1 Hs1 Hl1 HQ) as (t2 & E2 & Hs2 & Hl2 & Ha2 & HR).
  exists t2. unfold mbind, M_bind. rewrite E1. split; [done|]. split; [done|].
  split; [by transitivity t1|]. split; [by transitivity t1|done].
Qed.

Lemma gives_in_ret {A} X t (a : A) (Q : txn B -> Prop) : sound t -> Q t -> gives_in X t (mret a) a Q.
Proof. intros Hs HQ. by exists t. Qed.

Lemma gives_in_weaken {A} X t (m : cm A) a (Q R : txn B -> Prop) :
  gives_in X t m a Q -> (forall t', later t t' -> Q t' -> R t') -> gives_in X t m a R.
Proof. intros (t' & E & Hs & Hl & Ha & HQ) HR. exists t'. eauto 10. Qed.

Lemma gives_bind {A C} t (m : cm A) (k : A -> cm C) a c Q R :
  gives t m a Q ->
  (forall t', sound t' -> later t t' -> Q t' -> gives t' (k a) c R) -> gives t (m ≫= k) c R.
Proof.
  intros (t1 & E1 & Hs1 & Hl1 & Ha1 & HQ) Hk.
  destruct (Hk t1 Hs1 Hl1 HQ) as (t2 & E2 & Hs2 & Hl2 & Ha2 & HR).
  exists t2. unfold mbind, M_bind. rewrite E1. split; [done|]. split; [done|].
  split; [by transitivity t1|]. split; [by apply (known_misses_trans t t1)|done].
Qed.

Lemma known_misses_refl t : known_misses t t.
Proof. split; [done|]. exists []. by rewrite app_nil_r. Qed.

Lemma gives_ret {A} t (a : A) (Q : txn B -> Prop) : sound t -> Q t -> gives t (mret a) a Q.
Proof. intros Hs HQ. exists t. split_and!; try done. apply known_misses_refl. Qed.

Lemma gives_weaken {A} t (m : cm A) a (Q R : txn B -> Prop) :
  gives t m a Q -> (forall t', later t t' -> Q t' -> R t') -> gives t m a R.
Proof. intros (t' & E & Hs & Hl & Ha & HQ) HR. exists t'. eauto 10. Qed.

(** The misses of [X] are known at the end. *)
Lemma gives_in_known {A} X t (m : cm A) a (Q : txn B -> Prop) :
  gives_in X t m a Q ->
  (forall t' x f, Q t' -> x ∈ X -> is_slot f = true -> x ∈ V /\ has t' f x = true) -> gives t m a Q.
Proof.
  intros (t' & E & Hs & Hl & (N & ms & Em & F) & HQ) HX. exists t'. split_and!; try done.
  split; [done|]. exists ms. split; [done|]. eapply Forall_impl; [done|].
  intros e [He Hx]. split; [done|]. by apply HX.
Qed.

Lemma reads_bind {A C} X t (m : cm A) (k : A -> cm C) a c :
  reads X t m a -> (forall t', sound t' -> same t t' -> reads X t' (k a) c) -> reads X t (m ≫= k) c.
Proof.
  intros (t1 & E1 & Hs1 & Hl1 & Ha1) Hk. destruct (Hk t1 Hs1 Hl1) as (t2 & E2 & Hs2 & Hl2 & Ha2).
  exists t2. unfold mbind, M_bind. rewrite E1. split; [done|]. split; [done|].
  split; [by transitivity t1|by transitivity t1].
Qed.

Lemma reads_ret {A} X t (a : A) : sound t -> reads X t (mret a) a.
Proof. intros Hs. by exists t. Qed.

Lemma reads_gives_in {A} X t (m : cm A) a : reads X t m a -> gives_in X t m a (same t).
Proof. intros (t' & E & Hs & Hsame & Ha). exists t'. split_and!; try done. by apply same_later. Qed.

Lemma reads_gives {A} t (m : cm A) a : reads [] t m a -> gives t m a (same t).
Proof.
  intros Hr. apply (gives_in_known []); [by apply reads_gives_in|]. intros t' x f _ Hx.
  by apply not_elem_of_nil in Hx.
Qed.

(** Reading the state. *)
Lemma gives_in_gets {A C} X t (g : txn B -> A) (k : A -> cm C) c R :
  gives_in X t (k (g t)) c R -> gives_in X t (gets g ≫= k) c R.
Proof. by intros (t' & E & ?); exists t'. Qed.

Lemma reads_gets {A C} X t (g : txn B -> A) (k : A -> cm C) c :
  reads X t (k (g t)) c -> reads X t (gets g ≫= k) c.
Proof. by intros (t' & E & ?); exists t'. Qed.

Lemma held_keeps t t' c : odb_keeps (t_odb t) (t_odb t') -> held t c -> held t' c.
Proof.
  intros He [Hc Ef]. split; [done|]. destruct (stored_commit _ _ _ (graph_history Hgraph) c Hc) as [k Hk].
  rewrite Hk in *. by apply He.
Qed.

Lemma held_extends t t' c : odb_extends (t_odb t) (t_odb t') -> held t' c <-> held t c.
Proof.
  intros [Hk Hb]. split; [|by apply held_keeps]. intros [Hc Ef]. split; [done|].
  destruct (stored_commit _ _ _ (graph_history Hgraph) c Hc) as [k Ek]. rewrite Ek in *. by apply Hb.
Qed.

Lemma held_later t t' c : later t t' -> held t c -> held t' c.
Proof. intros (He & _). by apply held_extends. Qed.

Lemma held_same t t' c : same t t' -> held t' c <-> held t c.
Proof. intros (E & _). unfold held. by rewrite E. Qed.

(** * Lookups *)

Lemma oid_ok f c : c ∈ V -> is_oid (slot_value f c) = true.
Proof.
  intros Hc. destruct f; simpl; try (by apply (graph_roots_ids Hgraph)). apply oid_from_hint_is_oid.
Qed.

Lemma sound_stack_view t f c h k v :
  sound t -> c ∈ V -> is_slot f = true -> stack_view (cache t) f c h k = Some v -> v = slot_value f c.
Proof. intros Hs Hc Hf (b & Hb & Hv)%stack_view_elem. by eapply sound_view. Qed.

(** A stack that learned a right record of the history has right records. *)
Lemma learned_sound f c v l l' :
  Forall2 (learned f c v) l l' -> (is_slot f = true -> v = slot_value f c) ->
  (forall b f c h k v, b ∈ l -> c ∈ V -> is_slot f = true ->
    backend_view b f c h k = Some v -> v = slot_value f c) ->
  forall b f c h k v, b ∈ l' -> c ∈ V -> is_slot f = true ->
    backend_view b f c h k = Some v -> v = slot_value f c.
Proof.
  intros Hl Hf Hv b f' c' h k v' Hb Hc' Hf' E.
  apply list_elem_of_lookup in Hb as [i Hi].
  destruct (Forall2_lookup_r _ _ _ _ _ Hl Hi) as (b0 & Hb0 & _ & Hview).
  destruct (Hview f' c' h k (graph_ids Hgraph c' Hc')) as [E'|(Ha & -> & E')].
  - rewrite E' in E. eapply Hv; [by eapply list_elem_of_lookup_2|done..].
  - rewrite E' in E. injection E as <-. apply alias_slot in Ha as ->; [by apply Hf|]. by rewrite Hf'.
Qed.

(** The views of a stack that learned a record of one key. *)
Lemma learned_view f c v l l' f' c' :
  Forall2 (learned f c v) l l' -> c' ∈ V -> is_slot f' = true ->
  (is_Some (stack_view l f' c' slot_hint false) -> is_Some (stack_view l' f' c' slot_hint false)) /\
  ((f', c') ≠ (f, c) -> stack_view l' f' c' slot_hint false = stack_view l f' c' slot_hint false).
Proof.
  intros Hl Hc' Hf'. induction Hl as [|b b' l l' [_ Hb] _ [IH1 IH2]]; [done|]. simpl.
  destruct (Hb f' c' slot_hint false (graph_ids Hgraph c' Hc')) as [->|(Ha & -> & ->)].
  - split.
    + destruct (backend_view b f' c' slot_hint false); [by eauto|done].
    + intros Hne. by rewrite IH2.
  - apply alias_slot in Ha as ->; [|by rewrite Hf']. split; [by eauto|done].
Qed.

(** Records under a sentinel do not show under real filters. *)
Lemma learned_real f c v l l' g c' h k :
  Forall2 (learned f c v) l l' -> is_slot f = true -> is_oid c' = true ->
  stack_view l' (Real g) c' h k = stack_view l (Real g) c' h k.
Proof.
  intros Hl Hf Hc'. induction Hl as [|b b' l l' [_ Hb] _ IH]; [done|]. simpl. rewrite IH.
  destruct (Hb (Real g) c' h k Hc') as [->|(Ha & _)]; [done|].
  apply alias_slot in Ha; [by subst|]. by rewrite Hf.
Qed.

Definition set_cache (l : list B) (t : txn B) : txn B :=
  Txn (t_odb t) (commit_map t) l (missing t) (misses t) (nesting_level t).

(** A right record of a known key changes nothing; one of an unknown key adds to the records. *)
Lemma cache_learned t f c l :
  sound t -> is_slot f = true -> Forall2 (learned f c (slot_value f c)) (cache t) l ->
  sound (set_cache l t) /\ later t (set_cache l t) /\
  (is_Some (stack_view (cache t) f c slot_hint false) -> same t (set_cache l t)).
Proof.
  intros [S1 S2 S3 S4 S5] Hf Hl.
  assert (keeps_real t (set_cache l t)) as Hreal.
  { split; [symmetry; by eapply Forall2_length|]. split; [done|]. intros g c' h k Hc'. by eapply learned_real. }
  split; [|split].
  - split; try done; simpl; [by eapply learned_all_ok|]. by eapply learned_sound.
  - split; [apply odb_extends_refl|]. split; [done|]. split; [|done].
    intros f' c' Hc' Hf'. unfold has. simpl.
    rewrite !orb_true_iff, !andb_true_iff, !bool_decide_eq_true. intros [?|[Hv ?]]; [by left|right].
    split; [|done]. by apply (learned_view f c _ _ _ _ _ Hl).
  - intros Hs. split; [done|]. split; [|done]. intros f' c' Hc' Hf'. unfold has. simpl. do 2 f_equal.
    destruct (learned_view f c _ _ _ f' c' Hl Hc' Hf') as [Hmono Heq].
    destruct (decide ((f', c') = (f, c))) as [E|E]; [|by rewrite Heq].
    injection E as -> ->. by rewrite !bool_decide_true by auto.
Qed.

(** Looking a record up returns it exactly if the code can use it. *)
Lemma lookup_reads X t f c :
  sound t -> c ∈ V -> is_slot f = true ->
  reads X t (lookup_record slot_hint f c) (if has t f c then Some (slot_value f c) else None).
Proof.
  intros Hs Hc Hf. unfold lookup_record. apply reads_gets. unfold has.
  destruct (map_get (commit_map t) f c) as [v|] eqn:Em.
  { rewrite bool_decide_true by done. destruct (sound_map t Hs f c v Hc Hf Em) as [-> _].
    by apply reads_ret. }
  rewrite bool_decide_false by (by intros [? [=]]). simpl.
  assert (forall v, stack_view (cache t) f c slot_hint false = Some v -> v = slot_value f c) as Hv.
  { intros v. by eapply sound_stack_view. }
  destruct (read_propagate_view f c slot_hint false (cache t) (sound_stack t Hs)
    (graph_ids Hgraph c Hc)) as (l & E & Hl).
  { intros v ->%Hv. by apply oid_ok. }
  assert (Forall2 (learned f c (slot_value f c)) (cache t) l) as Hl'.
  { destruct (stack_view _ _ _ _ _) as [v|]; [by rewrite <- (Hv v)|by apply unchanged_learned]. }
  destruct (cache_learned t f c l Hs Hf Hl') as (Hs' & (_ & _ & _ & Hreal) & Hsame).
  exists (set_cache l t). unfold mbind, M_bind, on_cache. rewrite E.
  destruct (stack_view (cache t) f c slot_hint false) as [v|] eqn:Ev.
  - rewrite (Hv v eq_refl). rewrite bool_decide_true by done. simpl. unfold usable.
    split; [|by split; [|split; [by eauto|by apply adds_nothing]]].
    repeat case_decide; rewrite ?bool_decide_true by done; try done.
  - rewrite bool_decide_false by (by intros [? [=]]). simpl. split; [done|]. split; [done|].
    split; [|by apply adds_nothing]. split; [done|]. split; [|done]. intros f' c' Hc' Hf'. unfold has. simpl.
    by rewrite (unchanged_view (cache t) l) by (done || by apply (graph_ids Hgraph)).
Qed.

Lemma slot_get_reads X t f c :
  sound t -> c ∈ V -> is_slot f = true -> has t f c = true \/ c ∈ X ->
  reads X t (slot_get f c) (if has t f c then Some (slot_value f c) else None).
Proof.
  intros Hs Hc Hf HX. eapply reads_bind; [by apply lookup_reads|]. intros t' Hs' _.
  destruct (has t f c); [by apply reads_ret|]. destruct HX as [|HX]; [done|].
  exists (add_miss f c t'). split; [done|]. destruct Hs' as [S1 S2 S3 S4 S5]. split; [done|].
  split; [done|]. split; [done|]. eexists. split; [done|]. by constructor.
Qed.

Lemma slot_known_reads X t f c :
  sound t -> c ∈ V -> is_slot f = true -> reads X t (slot_known f c) (has t f c).
Proof.
  intros Hs Hc Hf. eapply reads_bind; [by apply lookup_reads|]. intros t' Hs' _.
  destruct (has t f c); by apply reads_ret.
Qed.

(** Both records of a commit. *)
Definition has_both (t : txn B) (c : oid) : bool := has t SequenceNumber c && has t ReachableRoots c.

Lemma has_both_same t t' c : same t t' -> c ∈ V -> has_both t' c = has_both t c.
Proof. intros (_ & E & _) Hc. unfold has_both. by rewrite !E. Qed.

Lemma has_both_later t t' c : later t t' -> c ∈ V -> has_both t c = true -> has_both t' c = true.
Proof. intros (_ & _ & E & _) Hc. unfold has_both. rewrite !andb_true_iff. intros [??]. by auto. Qed.

Lemma try_read_reads X t c :
  sound t -> c ∈ V -> has_both t c = true \/ c ∈ X ->
  reads X t (try_read_cached_hint c) (if has_both t c then Some (hint_of c, roots_id c) else None).
Proof.
  intros Hs Hc HX. unfold try_read_cached_hint, has_both in *. rewrite andb_true_iff in HX.
  eapply reads_bind; [by apply slot_get_reads; [done..|tauto]|]. intros t1 Hs1 (_ & E1 & _).
  destruct (has t SequenceNumber c); [|by apply reads_ret].
  eapply reads_bind; [by apply slot_get_reads; [done..|rewrite E1 by done; tauto]|].
  intros t2 Hs2 _. rewrite E1 by done.
  destruct (has t ReachableRoots c); [|by apply reads_ret]. simpl.
  rewrite hint_round; [by apply reads_ret|].
  apply (hint_of_ok _ V); [apply (graph_history Hgraph)|apply (graph_bound Hgraph)|done].
Qed.

(** The roots of a commit with both records can be read. *)
Lemma has_roots_stored t c : sound t -> c ∈ V -> has_both t c = true -> roots_stored (t_odb t) c.
Proof.
  intros Hs Hc [_ Hr]%andb_true_iff. unfold has in Hr.
  destruct (map_get (commit_map t) ReachableRoots c) as [v|] eqn:Em.
  { destruct (sound_map t Hs ReachableRoots c v Hc eq_refl Em) as [_ Hst]. by apply Hst. }
  rewrite bool_decide_false in Hr by (by intros [? [=]]). apply andb_true_iff in Hr as [_ Hu].
  unfold usable in Hu. simpl in Hu. rewrite bool_decide_false in Hu by apply compute_hash_not_zero.
  apply odb_contains_find; [by apply sound_odb|done].
Qed.

Lemma read_roots_reads X t c :
  sound t -> c ∈ V -> roots_stored (t_odb t) c -> reads X t (read_roots_blob (roots_id c)) (roots_of c).
Proof.
  intros Hs Hc (src & E)%find_odb_read. unfold read_roots_blob. apply reads_gets. rewrite E.
  unfold roots_blob, lift. rewrite roots_round; [by exists t|]. apply Forall_forall.
  intros r Hr. apply (graph_ids Hgraph). by eapply root_inside; [apply (graph_history Hgraph)|..].
Qed.

(** * Writes *)

Definition set_odb (o : odb) (t : txn B) : txn B :=
  Txn o (commit_map t) (cache t) (missing t) (misses t) (nesting_level t).

Lemma write_roots_gives X t c :
  sound t -> c ∈ V ->
  gives_in X t (write_roots_blob (roots_of c)) (roots_id c) (fun t' => roots_stored (t_odb t') c).
Proof.
  intros Hs Hc. pose proof (odb_write_extends (t_odb t) (roots_blob c) (sound_odb t Hs) ltac:(done)) as Hext.
  destruct (odb_write (t_odb t) (roots_blob c)) as [id o] eqn:E. simpl in Hext.
  pose proof E as Hw. apply odb_write_spec in Hw as (-> & Hok & _ & Hf); [|by apply sound_odb].
  exists (set_odb o t). unfold write_roots_blob, on_odb. fold (roots_blob c). rewrite E.
  assert (forall id, odb_contains (t_odb t) id = true -> odb_contains o id = true) as Hcont.
  { intros x. injection E as <-. unfold odb_contains, write_with_id. case_decide; [done|]. simpl.
    rewrite !orb_true_iff, !bool_decide_eq_true. rewrite lookup_insert_is_Some'. tauto. }
  assert (forall d, held (set_odb o t) d <-> held t d) as Hheld by (intros d; by apply held_extends).
  split; [done|]. split; [|split; [split; [done|split; [done|split; [|done]]]|split; [by apply adds_nothing|done]]].
  - destruct Hs as [S1 S2 S3 S4 S5]. split; try done; simpl.
    + intros d p Hd%Hheld Hp. by apply Hheld, (S2 d).
    + intros f c' v Hc' Hf' Hv. destruct (S4 f c' v Hc' Hf' Hv) as [-> Hst]. split; [done|].
      intros Hr. by apply (extends_keeps _ _ Hext), Hst.
  - intros f c' Hc' Hf'. unfold has, usable. simpl.
    rewrite !orb_true_iff, !andb_true_iff, !orb_true_iff.
    pose proof (Hcont (slot_value f c')). tauto.
Qed.

(** Storing a right record. *)
Lemma slot_insert_gives X t f c :
  sound t -> c ∈ V -> is_slot f = true -> (f = ReachableRoots -> roots_stored (t_odb t) c) ->
  gives_in X t (slot_insert f c (slot_value f c) true) tt (fun t' => has t' f c = true).
Proof.
  intros Hs Hc Hf Hst. set (t1 := map_commit f c (slot_value f c) t).
  assert (sound t1) as Hs1.
  { destruct Hs as [S1 S2 S3 S4 S5]. split; try done. intros f' c' v Hc' Hf'. simpl.
    case_decide as E; [|by apply S4]. destruct E as [-> ->]. intros [= <-]. done. }
  assert (later t t1) as Hl1.
  { split; [apply odb_extends_refl|]. split; [done|]. split.
    - intros f' c' Hc' Hf'. unfold has. simpl.
      rewrite !orb_true_iff, !bool_decide_eq_true. case_decide; [by left; eauto|tauto].
    - split; [done|]. split; [|done]. intros g c'. simpl. rewrite decide_False; [done|]. by intros [<- _]. }
  destruct (write_all_learned f c (slot_value f c) slot_hint false (cache t1)) as (l & E & Hl).
  { by apply sound_stack. } { by apply (graph_ids Hgraph). } { by apply oid_ok. }
  destruct (cache_learned t1 f c l Hs1 Hf Hl) as (Hs2 & Hl2 & _).
  exists (set_cache l t1). unfold slot_insert, insert_record, mbind, M_bind, modify, on_cache.
  fold t1. change (true || is_sample_point slot_hint) with true. cbv beta iota. rewrite E. split; [done|]. split; [done|].
  split; [by transitivity t1|]. split; [by apply adds_nothing|]. unfold has. simpl. rewrite decide_True by done.
  by rewrite bool_decide_true.
Qed.

Lemma store_hint_gives X t c :
  sound t -> c ∈ V -> roots_stored (t_odb t) c ->
  gives_in X t (store_hint c (hint_of c, roots_id c)) tt (fun t' => has_both t' c = true).
Proof.
  intros Hs Hc Hst. eapply gives_in_bind; [by apply (slot_insert_gives X t SequenceNumber c)|].
  intros t1 Hs1 (He1 & _ & Hl1 & _) Hn1. eapply gives_in_weaken.
  { apply (slot_insert_gives X t1 ReachableRoots c); [done..|]. intros _. by apply (extends_keeps _ _ He1). }
  intros t2 (_ & _ & Hl2 & _) Hr2. unfold has_both. by rewrite Hr2, Hl2.
Qed.

(** * Deriving a record *)

Abbreviation parent_record := (fun p => (sequence_number (hint_of p), roots_id p)).

Lemma roots_ids_inj c d : c ∈ V -> d ∈ V -> roots_id c = roots_id d -> roots_of c = roots_of d.
Proof.
  intros Hc Hd E. apply compute_hash_inj in E. injection E as E.
  assert (forall x, x ∈ V -> parse_roots (roots_bytes (roots_of x)) = Ok (roots_of x)) as Hr.
  { intros x Hx. apply roots_round, Forall_forall. intros r Hr. apply (graph_ids Hgraph).
    by eapply root_inside; [apply (graph_history Hgraph)|..]. }
  pose proof (Hr c Hc) as E1. rewrite E, Hr in E1 by done. by injection E1 as ->.
Qed.

(** Parents with the same roots pass them on. *)
Lemma shared_roots c p :
  c ∈ V -> p ∈ parents c -> (forall q, q ∈ parents c -> roots_of q = roots_of p) ->
  roots_of c = roots_of p.
Proof.
  intros Hc Hp Hall.
  assert (p ∈ V) as HpV by (by eapply history_parent; [apply (graph_history Hgraph)|..]).
  assert (parents c ≠ []) as Hne by (intros E; rewrite E in Hp; by apply not_elem_of_nil in Hp).
  rewrite (roots_of_parents _ V) by (done || apply (graph_history Hgraph)).
  destruct (roots_fold find0 rank (parents c) [] ltac:(constructor)) as [Hs He].
  apply sorted_set_eq; [done| |].
  - by eapply roots_of_spec; [apply (graph_history Hgraph)|].
  - intros x. rewrite He. split.
    + intros [Hx|(q & Hq & Hx)]; [by apply not_elem_of_nil in Hx|]. by rewrite <- (Hall q).
    + intros Hx. right. by exists p.
Qed.

Lemma read_fold_reads X t ps acc :
  sound t -> (forall p, p ∈ ps -> p ∈ V /\ roots_stored (t_odb t) p) ->
  reads X t (foldM (fun set p => roots ← read_roots_blob p.2; mret (set_extend set roots)) acc
    (parent_record <$> ps)) (foldl (fun set p => set_extend set (roots_of p)) acc ps).
Proof.
  revert t acc. induction ps as [|p ps IH]; intros t acc Hs Hps; [by apply reads_ret|].
  rewrite fmap_cons. cbn [foldM foldl]. destruct (Hps p ltac:(left)) as [Hp Hst].
  eapply reads_bind.
  { eapply reads_bind; [by apply read_roots_reads|]. intros t1 Hs1 _. by apply reads_ret. }
  intros t1 Hs1 [Eo _]. apply IH; [done|]. intros q Hq. rewrite Eo. apply Hps. by right.
Qed.

Lemma derive_gives X t c :
  sound t -> c ∈ V -> (forall p, p ∈ parents c -> has_both t p = true) ->
  gives_in X t (derive_from_parents c (parent_record <$> parents c)) (hint_of c, roots_id c)
    (fun t' => roots_stored (t_odb t') c).
Proof.
  intros Hs Hc Hps.
  assert (forall p, p ∈ parents c -> p ∈ V /\ roots_stored (t_odb t) p) as Hin.
  { intros p Hp. destruct (history_parent _ _ _ (graph_history Hgraph) c p Hc Hp) as [HpV _].
    split; [done|]. by apply has_roots_stored, Hps. }
  pose proof (hint_of_parents _ _ _ (graph_history Hgraph) c Hc) as Eh.
  assert (fst <$> (parent_record <$> parents c) = (fun p => sequence_number (hint_of p)) <$> parents c)
    as Ef by (by rewrite <- list_fmap_compose).
  destruct (parents c) as [|p0 ps] eqn:E.
  - simpl. pose proof (roots_of_root find0 rank c E) as Er. rewrite <- Er.
    eapply gives_in_bind; [by apply write_roots_gives|]. intros t1 Hs1 _ Hst.
    rewrite Eh. by apply gives_in_ret.
  - rewrite <- E in *. assert (p0 ∈ parents c) as Hp0 by (rewrite E; left).
    unfold derive_from_parents. rewrite Ef, <- Eh. rewrite E at 1. rewrite fmap_cons.
    eapply gives_in_bind; [|intros t1 Hs1 _ Hst; by apply gives_in_ret; [|exact Hst]].
    case_match eqn:Hall.
    + rewrite forallb_forall in Hall.
      assert (roots_of c = roots_of p0) as Er.
      { apply shared_roots; [done..|]. intros q Hq. apply roots_ids_inj; [by apply Hin..|].
        specialize (Hall (parent_record q)). rewrite bool_decide_eq_true in Hall. apply Hall.
        by apply list_elem_of_In, (list_elem_of_fmap_2 parent_record). }
      assert (roots_id c = roots_id p0) as Ei by (unfold roots_id, roots_blob; by rewrite Er).
      rewrite Ei. apply gives_in_ret; [done|]. unfold roots_stored, roots_blob. rewrite Ei, Er. by apply Hin.
    + eapply gives_in_bind; [by apply reads_gives_in, read_fold_reads|]. intros t1 Hs1 _ _.
      rewrite <- (roots_of_parents _ V) by (done || (apply (graph_history Hgraph)) || by rewrite E).
      by apply write_roots_gives.
Qed.

(** * The walk *)

Lemma cached_parents_reads X t ps :
  sound t -> (forall p, p ∈ ps -> p ∈ V /\ (has_both t p = true \/ p ∈ X)) ->
  reads X t (cached_parents ps) (if forallb (has_both t) ps then Some (parent_record <$> ps) else None).
Proof.
  revert t. induction ps as [|p ps IH]; intros t Hs Hps; [by apply reads_ret|]. cbn [cached_parents forallb].
  assert (p ∈ V) as Hp by (apply Hps; left).
  assert (has_both t p = true \/ p ∈ X) as HpX by (apply Hps; left).
  eapply reads_bind; [by apply try_read_reads|]. intros t1 Hs1 Hsame.
  destruct (has_both t p); [|by apply reads_ret]. simpl.
  assert (forall q, q ∈ ps -> has_both t1 q = has_both t q) as Hb.
  { intros q Hq. apply has_both_same; [done|]. apply Hps. by right. }
  assert (forallb (has_both t1) ps = forallb (has_both t) ps) as <-.
  { clear -Hb. induction ps as [|q ps IHq]; [done|]. cbn [forallb].
    rewrite Hb by left. rewrite IHq; [done|]. intros x Hx. apply Hb. by right. }
  eapply reads_bind.
  { apply IH; [done|]. intros q Hq. rewrite Hb by done. apply Hps. by right. }
  intros t2 Hs2 _. destruct (forallb (has_both t1) ps); by apply reads_ret.
Qed.

Lemma both_known_answers X t :
  answers (has_both t) V (fun t' => sound t' /\ same t t' /\ adds X t t') both_known.
Proof.
  intros c t1 Hc (Hs1 & Hsame & Ha). unfold both_known, unwrap_or_false.
  destruct (slot_known_reads X t1 SequenceNumber c Hs1 Hc eq_refl) as (t2 & -> & Hs2 & Hsame2 & Ha2).
  rewrite <- (has_both_same t t1 c) by done. unfold has_both.
  destruct (has t1 SequenceNumber c); simpl.
  2: { split; [done|]. split; [done|]. split; by transitivity t1. }
  destruct (slot_known_reads X t2 ReachableRoots c Hs2 Hc eq_refl) as (t3 & -> & Hs3 & Hsame3 & Ha3).
  simpl. rewrite (proj1 (proj2 Hsame2)) by done. split; [done|]. split; [done|].
  split; transitivity t1; try done; by transitivity t2.
Qed.

(** The turns of a walk through the history. *)
Definition graph_fuel : nat := 2 + sum_list_with (fun c => S (length (parents c))) (elements V).

(** The part of the history that is stored. *)
Definition held_set (t : txn B) : gset oid := base.filter (fun c => try_find (t_odb t) c = find0 c) V.

Lemma elem_of_held t c : c ∈ held_set t <-> held t c.
Proof. unfold held_set, held. rewrite elem_of_filter. tauto. Qed.

Lemma held_set_inside t : held_set t ⊆ V.
Proof. intros c Hc%elem_of_held. apply Hc. Qed.

Lemma found_parents t c : held t c -> parents_of (try_find (t_odb t)) c = parents c.
Proof. intros [_ E]. unfold parents_of. by rewrite E. Qed.

Lemma held_history t : sound t -> history (try_find (t_odb t)) (held_set t) rank.
Proof.
  intros Hs. destruct (graph_history Hgraph) as [G1 G2 G3].
  split; [intros c [Hc E]%elem_of_held; rewrite E; by apply G1|..];
    intros c k p Hh%elem_of_held Hk Hp; destruct Hh as [Hc E]; rewrite E in Hk.
  - apply elem_of_held. apply (sound_closed t Hs c); [done|]. unfold parents_of. by rewrite Hk.
  - by apply (G3 c k p).
Qed.

Lemma found_fuel t c : sound t -> walk_fuel (try_find (t_odb t)) (held_set t) false [c] <= graph_fuel.
Proof.
  intros Hs. unfold walk_fuel, graph_fuel. simpl. do 2 apply le_n_S.
  pose proof (elements_submseteq _ _ (held_set_inside t)) as Hsub.
  apply Nat.le_trans with (sum_list_with (fun c => S (length (parents c))) (elements (held_set t))).
  - assert (forall d, d ∈ elements (held_set t) -> held t d) as HV
      by (intros d; by rewrite elem_of_elements, elem_of_held).
    clear Hsub. induction (elements (held_set t)) as [|d l IH]; [done|]. simpl.
    unfold followed_parents in *. rewrite found_parents by (apply HV; left).
    specialize (IH ltac:(intros x Hx; apply HV; by right)). lia.
  - induction Hsub; simpl; lia.
Qed.

(** The walk lists the commits without both records, children first, down to commits that
    have them. *)
Lemma unknown_commits_reads X t c n :
  sound t -> held t c -> graph_fuel <= n -> has_both t c = false ->
  exists l, reads X t (unknown_commits n c) l /\ c ∈ l /\ (forall d, d ∈ l -> held t d) /\
    forall i d p, l !! i = Some d -> p ∈ parents d ->
      has_both t p = true \/ exists j, i < j /\ l !! j = Some p.
Proof.
  intros Hs Hc Hn Hnew. pose proof (held_history t Hs) as Hfh.
  destruct (topo_walk _ _ _ Hfh (fun t' => sound t' /\ same t t' /\ adds X t t') both_known [c] (has_both t)
    false n t) as (w & l & t' & Ew & El & Hst & Hnd & Hmem & Hord).
  { intros d t1 Hd. apply both_known_answers. by apply (held_set_inside t). }
  { done. } { repeat constructor. by apply elem_of_held. } { etransitivity; [by apply found_fuel|done]. }
  assert (forall d, d ∈ l -> held t d) as HV.
  { intros d Hd%Hmem. apply elem_of_held. induction Hd as [x Hx _|x p _ IH Hp _].
    - apply list_elem_of_singleton in Hx as ->. by apply elem_of_held.
    - apply followed_parent in Hp. by destruct (history_parent _ _ _ Hfh x p IH Hp). }
  exists l. split; [|split; [|split]].
  - exists t'. unfold unknown_commits. unfold walk_from in Ew. simpl in Ew.
    destruct (RevWalk.push _ c RevWalk.new); simpl in Ew; try done. injection Ew as ->. done.
  - apply Hmem. constructor; [left|done].
  - done.
  - intros i d p Hi Hp. assert (d ∈ l) as Hd by (by eapply list_elem_of_lookup_2).
    assert (p ∈ followed_parents (try_find (t_odb t)) false d) as Hp'.
    { unfold followed_parents. rewrite found_parents; [done|by apply HV]. }
    destruct (has_both t p) eqn:Hb; [by left|right].
    assert (p ∈ l) as Hpl by (apply Hmem; eapply walked_parent; [by apply Hmem|done..]).
    apply list_elem_of_lookup in Hpl as [j Hj]. exists j. split; [by eapply Hord|done].
Qed.

(** * Computing the records *)

Lemma read_parents_reads X t c : sound t -> held t c -> reads X t (read_parent_ids c) (parents c).
Proof.
  intros Hs [Hc Ef]. destruct (stored_commit _ _ _ (graph_history Hgraph) c Hc) as [k Hk].
  rewrite Hk in Ef. destruct (find_odb_read _ _ _ Ef) as [src E].
  unfold read_parent_ids. apply reads_gets. rewrite E. unfold parents_of. rewrite Hk. by apply reads_ret.
Qed.

Lemma parent_hints_reads X t ps :
  sound t -> (forall p, p ∈ ps -> p ∈ V /\ has_both t p = true) ->
  reads X t (Prelude.mapM parent_hint ps) (parent_record <$> ps).
Proof.
  revert t. induction ps as [|p ps IH]; intros t Hs Hps; [by apply reads_ret|].
  destruct (Hps p ltac:(left)) as [Hp Hb]. rewrite fmap_cons. simpl. eapply reads_bind.
  { eapply reads_bind; [by apply try_read_reads; [..|left]|]. intros t1 Hs1 _. rewrite Hb. by apply reads_ret. }
  intros t1 Hs1 Hsame. eapply reads_bind; [|intros t2 Hs2 _; by apply reads_ret].
  apply IH; [done|]. intros q Hq. destruct (Hps q ltac:(by right)).
  by rewrite (has_both_same t t1).
Qed.

(** A commit whose parents have their records gets its own. *)
Lemma derive_and_store_gives X t c :
  sound t -> held t c -> (forall p, p ∈ parents c -> has_both t p = true) ->
  gives_in X t (derive_and_store c) tt (fun t' => has_both t' c = true).
Proof.
  intros Hs Hc Hps. assert (forall p, p ∈ parents c -> p ∈ V) as HV.
  { intros p Hp. by apply (sound_closed t Hs c p Hc Hp). }
  eapply gives_in_bind; [by apply reads_gives_in, read_parents_reads|]. intros t1 Hs1 _ Hsame1.
  eapply gives_in_bind.
  { apply reads_gives_in, parent_hints_reads; [done|]. intros p Hp. split; [by apply HV|].
    rewrite (has_both_same t t1) by auto. by apply Hps. }
  intros t2 Hs2 _ Hsame2. eapply gives_in_bind.
  { apply derive_gives; [done|apply Hc|]. intros p Hp. rewrite (has_both_same t t2); [by apply Hps| |by apply HV].
    by transitivity t1. }
  intros t3 Hs3 _ Hst. by apply store_hint_gives; [|apply Hc|].
Qed.

Lemma derive_all_gives X t l :
  sound t -> (forall d, d ∈ l -> held t d) ->
  (forall i d p, l !! i = Some d -> p ∈ parents d ->
    has_both t p = true \/ exists j, j < i /\ l !! j = Some p) ->
  gives_in X t (Prelude.mapM derive_and_store l) ((fun _ => tt) <$> l)
    (fun t' => forall d, d ∈ l -> has_both t' d = true).
Proof.
  revert t. induction l as [|c l IH]; intros t Hs HV Hord.
  { apply gives_in_ret; [done|]. intros d Hd. by apply not_elem_of_nil in Hd. }
  assert (held t c) as Hc by (apply HV; left). rewrite fmap_cons. simpl. eapply gives_in_bind.
  { apply derive_and_store_gives; [done..|]. intros p Hp.
    destruct (Hord 0 c p eq_refl Hp) as [?|(j & ? & _)]; [done|lia]. }
  intros t1 Hs1 Hl1 Hb1. eapply gives_in_bind.
  { apply IH; [done|intros d Hd; eapply held_later; [done|]; apply HV; by right|]. intros i d p Hi Hp.
    assert (p ∈ V) as HpV.
    { apply (sound_closed t Hs d); [|done]. apply HV. right. by eapply list_elem_of_lookup_2. }
    destruct (Hord (S i) d p Hi Hp) as [Hb|(j & Hj & Ej)]; [left; by eapply has_both_later|].
    destruct j as [|j]; [left; by injection Ej as <-|]. right. exists j. split; [lia|done]. }
  intros t2 Hs2 Hl2 Hb2. apply gives_in_ret; [done|]. intros d [->|Hd]%elem_of_cons; [|by apply Hb2].
  by eapply has_both_later; [..|apply Hc|].
Qed.

(** The commits of a walk, parents first, get their records. *)
Lemma derive_walk_gives X t l :
  sound t -> (forall d, d ∈ l -> held t d) ->
  (forall i d p, l !! i = Some d -> p ∈ parents d ->
    has_both t p = true \/ exists j, i < j /\ l !! j = Some p) ->
  gives_in X t (Prelude.mapM derive_and_store (reverse l)) ((fun _ => tt) <$> reverse l)
    (fun t' => forall d, d ∈ l -> has_both t' d = true).
Proof.
  intros Hs HV Hord. eapply gives_in_weaken.
  { apply derive_all_gives; [done|intros d; rewrite elem_of_reverse; apply HV|].
    intros i d p Hi Hp. apply lookup_lt_Some in Hi as Hlt. rewrite length_reverse in Hlt.
    pose proof Hi as Hi'. rewrite reverse_lookup in Hi' by done.
    destruct (Hord _ d p Hi' Hp) as [?|(j & Hj & Ej)]; [by left|right].
    apply lookup_lt_Some in Ej as Hjl. exists (length l - S j). split; [lia|].
    rewrite reverse_lookup by lia. by replace (length l - S (length l - S j)) with j by lia. }
  intros t' _ Hb d Hd. apply Hb. by rewrite elem_of_reverse.
Qed.

Lemma held_contains t c : held t c -> odb_contains (t_odb t) c = true.
Proof.
  intros [Hc Ef]. destruct (stored_commit _ _ _ (graph_history Hgraph) c Hc) as [k Hk].
  rewrite Hk in Ef. unfold odb_contains. unfold try_find, disk_read in Ef.
  destruct (mem (t_odb t) !! c); [done|]. destruct (disk (t_odb t) !! c); [done|]. by case_decide.
Qed.

(** A commit without its records gets them, and its parents have theirs. *)
Lemma ensure_gives_in t c n :
  sound t -> held t c -> graph_fuel <= n -> has_both t c = false ->
  gives_in (c :: parents c) t (ensure_hint_cached n c) (hint_of c, roots_id c)
    (fun t' => forall x, x ∈ c :: parents c -> has_both t' x = true).
Proof.
  intros Hs Hc Hn Hb. unfold ensure_hint_cached.
  eapply gives_in_bind; [by apply reads_gives_in, try_read_reads; [|apply Hc|right; left]|].
  intros t1 Hs1 Hl1 Hsame1. rewrite Hb. apply gives_in_gets.
  rewrite held_contains by (by apply (held_same t t1)). simpl negb. cbv iota.
  eapply gives_in_bind; [by apply reads_gives_in, read_parents_reads; [|apply (held_same t t1)]|].
  intros t2 Hs2 Hl2 Hsame2. assert (forall p, p ∈ parents c -> p ∈ V) as HV.
  { intros p Hp. by apply (sound_closed t Hs c p Hc Hp). }
  eapply gives_in_bind.
  { apply reads_gives_in, cached_parents_reads; [done|]. intros p Hp. split; [by apply HV|]. by right; right. }
  intros t3 Hs3 Hl3 Hsame3. assert (same t t3) as Hsame by (transitivity t1; [done|by transitivity t2]).
  assert (held t3 c) as Hc3 by (by apply (held_same t t3)).
  destruct (forallb (has_both t2) (parents c)) eqn:Hall.
  - rewrite forallb_forall in Hall. assert (forall p, p ∈ parents c -> has_both t3 p = true) as Hps.
    { intros p Hp. rewrite (has_both_same t2 t3) by auto. by apply Hall, list_elem_of_In. }
    eapply gives_in_bind; [by apply derive_gives; [|apply Hc|]|].
    intros t4 Hs4 Hl4 Hst. eapply gives_in_bind; [by apply store_hint_gives; [|apply Hc|]|].
    intros t5 Hs5 Hl5 Hb5. apply gives_in_ret; [done|]. intros x [->|Hx]%elem_of_cons; [done|].
    eapply has_both_later; [|by apply HV|by apply Hps]. by transitivity t4.
  - assert (has_both t3 c = false) as Hb3 by (by rewrite (has_both_same t t3); [|done|apply Hc]).
    destruct (unknown_commits_reads (c :: parents c) t3 c n Hs3 Hc3 Hn Hb3) as (l & Hl & Hcl & HlV & Hord).
    eapply gives_in_bind; [by apply reads_gives_in|]. intros t4 Hs4 _ Hsame4.
    eapply gives_in_bind.
    { apply derive_walk_gives; [done|intros d Hd; by apply (held_same t3 t4), HlV|]. intros i d p Hi Hp.
      destruct (Hord i d p Hi Hp) as [?|?]; [left|by right]. rewrite (has_both_same t3 t4); [done..|].
      apply (sound_closed t3 Hs3 d); [|done]. apply HlV. by eapply list_elem_of_lookup_2. }
    intros t5 Hs5 Hl5 Hb5. eapply gives_in_bind.
    { apply reads_gives_in, try_read_reads; [done|apply Hc|]. left. by apply Hb5. }
    intros t6 Hs6 _ Hsame6. rewrite Hb5 by done.
    apply gives_in_ret; [done|]. intros x Hx. assert (x ∈ V) as HxV.
    { apply elem_of_cons in Hx as [->|Hx]; [apply Hc|by apply HV]. }
    rewrite (has_both_same t5 t6) by done. apply elem_of_cons in Hx as [->|Hx]; [by apply Hb5|].
    apply list_elem_of_lookup in Hcl as [i Hi]. destruct (Hord i c x Hi Hx) as [Hx3|(j & _ & Hj)].
    + eapply has_both_later; [done|done|]. by rewrite (has_both_same t3 t4).
    + apply Hb5. by eapply list_elem_of_lookup_2.
Qed.

(** [ensure_hint_cached] returns the records of a commit and leaves them in the cache. *)
Lemma ensure_gives t c n :
  sound t -> held t c -> graph_fuel <= n ->
  gives t (ensure_hint_cached n c) (hint_of c, roots_id c) (fun t' => has_both t' c = true).
Proof.
  intros Hs Hc Hn. destruct (has_both t c) eqn:Hb.
  - unfold ensure_hint_cached.
    eapply gives_bind; [by apply reads_gives, try_read_reads; [|apply Hc|left]|].
    intros t1 Hs1 _ Hsame1. rewrite Hb. apply gives_ret; [done|]. by rewrite (has_both_same t t1); [|..|apply Hc].
  - eapply gives_weaken.
    + apply (gives_in_known (c :: parents c)); [by apply ensure_gives_in|]. intros t' x f Hall Hx Hf.
      split.
      * apply elem_of_cons in Hx as [->|Hx]; [apply Hc|]. by apply (sound_closed t Hs c x Hc Hx).
      * specialize (Hall x Hx). unfold has_both in Hall. apply andb_true_iff in Hall as [??]. by destruct f.
    + intros t' _ Hall. apply Hall. left.
Qed.

End Facts.
