(* ===== verification/RecordFacts.v ===== *)
(** Records of filtered commits: while all records of the filters of interest are right, looking
    one up returns the right one or nothing, notes a miss for the latter, and inserting the right
    one makes it known, whatever backends are behind the transaction. *)

From S2P Require Import Prelude Path Objects Store RevWalk RevWalkFacts HistoryHint CommitCache.
From S2P Require Import HistoryGraph HistoryTruth HistoryGraphFacts Ops.

Open Scope nat_scope.

Section Records.
Context `{ObjectHash} {B : Type} `{LawfulBackend B}.
Context (find0 : oid -> option object) (V : gset oid) (rank : oid -> nat).
Hypothesis Hgraph : graph_ok find0 V rank.

Abbreviation hint_of := (hint_of find0 rank).
Abbreviation sound := (sound (B := B) find0 V rank).
Abbreviation later := (later (B := B) find0 V rank).
Abbreviation held := (held (B := B) find0 V).
Abbreviation has := (has (B := B) find0 rank).
Abbreviation graph_fuel := (graph_fuel find0 V).

(** The records of interest, with their right values. *)
Context (right : filter -> oid -> option oid).

(** Commits of the history have their addresses as ids; records are about commits of the
    history, and the backends tell their filters apart. *)
Record right_ok : Prop := {
  right_named c x : c ∈ V -> find0 c = Some x -> c = compute_hash x;
  right_inside f c v : right f c = Some v -> c ∈ V /\ (v = zero_oid \/ v ∈ V);
  right_filter f c v : right f c = Some v -> f ≠ to_filter Op.Nop;
  right_alias f g c v w :
    alias (Real f) (Real g) -> right f c = Some v -> right g c = Some w -> f = g;
}.
Hypothesis Hright : right_ok.

(** A record that a lookup returns. *)
Definition recorded (t : txn B) (f : filter) (c : oid) : bool :=
  match right f c with
  | None => false
  | Some v =>
      bool_decide (is_Some (map_get (commit_map t) (Real f) c)) ||
      (bool_decide (is_Some (stack_view (cache t) (Real f) c (hint_of c) false)) &&
       (bool_decide (v = zero_oid) || odb_contains (t_odb t) v))
  end.

(** A noted miss: one of interest, or one under a sentinel that is known by now. *)
Definition miss_ok (t : txn B) (e : nat * cache_filter * oid) : Prop :=
  match e.1.2 with
  | Real f => is_Some (right f e.2) /\ held t e.2
  | g => e.2 ∈ V /\ has t g e.2 = true
  end.

(** A state with right records only.  What the map of the transaction has is stored. *)
Record tracked (t : txn B) : Prop := {
  tracked_sound : sound t;
  tracked_map f c v v' :
    right f c = Some v -> map_get (commit_map t) (Real f) c = Some v' ->
    v' = v /\ (v = zero_oid \/ held t v);
  tracked_view f c h k v v' :
    right f c = Some v -> stack_view (cache t) (Real f) c h k = Some v' -> v' = v;
  tracked_misses : Forall (miss_ok t) (missing t);
}.

(** States that grow: in objects, and in records. *)
Record grows (t t' : txn B) : Prop := {
  grows_odb : odb_keeps (t_odb t) (t_odb t');
  grows_held c : held t c -> held t' c;
  grows_slots f c : c ∈ V -> is_slot f = true -> has t f c = true -> has t' f c = true;
  grows_recorded f c : recorded t f c = true -> recorded t' f c = true;
}.

(** The same commits and records. *)
Record quiet (t t' : txn B) : Prop := {
  quiet_grows : grows t t';
  quiet_held c : held t' c -> held t c;
  quiet_recorded f c : recorded t' f c = recorded t f c;
}.

#[export] Instance grows_preorder : PreOrder grows.
Proof.
  split; [intros t; split; auto using odb_keeps_refl|].
  intros t1 t2 t3 [E1 D1 S1 R1] [E2 D2 S2 R2]. split; eauto using odb_keeps_trans.
Qed.

#[export] Instance quiet_preorder : PreOrder quiet.
Proof.
  split; [intros t; by split|]. intros t1 t2 t3 [G1 D1 R1] [G2 D2 R2].
  split; [by transitivity t2|auto|]. intros f c. by rewrite R2.
Qed.

Lemma miss_grows t t' e : grows t t' -> miss_ok t e -> miss_ok t' e.
Proof.
  intros [_ Hh Hs _]. destruct e as [[l f] c]. unfold miss_ok. simpl.
  destruct f; [intros [? ?]; eauto|intros [? ?]; auto..].
Qed.

Lemma misses_grow t t' : grows t t' -> Forall (miss_ok t) (missing t) -> Forall (miss_ok t') (missing t).
Proof. intros Hg Hm. eapply Forall_impl; [done|]. intros e. by apply miss_grows. Qed.

(** A commit of the history is stored exactly if its address is. *)
Lemma contains_held t c : sound t -> c ∈ V -> odb_contains (t_odb t) c = true <-> held t c.
Proof.
  intros Hs Hc. split; [|by apply (held_contains find0 V rank)].
  destruct (stored_commit _ _ _ (graph_history _ _ _ Hgraph) c Hc) as [k Hk].
  pose proof (right_named Hright c _ Hc Hk) as E. intros Hin. split; [done|]. rewrite Hk, E.
  apply odb_contains_find; [by apply (sound_odb _ _ _ t Hs)|]. by rewrite <- E.
Qed.

Lemma oid_right f c v : right f c = Some v -> is_oid c = true /\ is_oid v = true.
Proof.
  intros [Hc Hv]%(right_inside Hright). split; [by apply (graph_ids _ _ _ Hgraph)|].
  destruct Hv as [->|Hv]; [done|]. by apply (graph_ids _ _ _ Hgraph).
Qed.

Lemma recorded_value t f c v :
  tracked t -> right f c = Some v -> recorded t f c = true -> v = zero_oid \/ held t v.
Proof.
  intros [Hs Hm _ _] Hr. unfold recorded. rewrite Hr, orb_true_iff, andb_true_iff, orb_true_iff.
  rewrite !bool_decide_eq_true. intros [[v' Hv']|[_ [?|Hv]]]; [by eapply Hm|by left|].
  destruct (right_inside Hright f c v Hr) as [_ [?|HvV]]; [by left|right]. by apply contains_held.
Qed.

(** Computing hints keeps the records. *)
Lemma later_tracked t t' :
  tracked t -> sound t' -> later t t' -> known_misses find0 V rank t t' -> tracked t' /\ quiet t t'.
Proof.
  intros [Hs Hm Hv Hmiss] Hs' Hl (_ & ms & Em & Hms).
  destruct Hl as (He & Hc & Hslots & _ & Km & Kv).
  assert (forall c, held t' c <-> held t c) as Hheld by (intros c; by apply (held_extends find0 V rank Hgraph)).
  assert (forall f c, recorded t' f c = recorded t f c) as Hrec.
  { intros f c. unfold recorded. destruct (right f c) as [v|] eqn:Hr; [|done].
    destruct (oid_right f c v Hr) as [Ho _]. rewrite Km, Kv by done. do 2 f_equal.
    destruct (right_inside Hright f c v Hr) as [_ [->|HvV]]; [by rewrite bool_decide_true|].
    apply eq_true_iff_eq. rewrite !orb_true_iff, !contains_held by done. by rewrite Hheld. }
  assert (grows t t') as Hg.
  { split; [apply He|intros c; by rewrite Hheld|done|intros f c; by rewrite Hrec]. }
  split; [|split; [done|intros c; by rewrite Hheld|done]]. split; [done|..].
  - intros f c v v' Hr. rewrite Km. intros Hv'. destruct (Hm f c v v' Hr Hv') as [-> ?]. by rewrite Hheld.
  - intros f c h k v v' Hr. destruct (oid_right f c v Hr) as [Ho _]. rewrite Kv by done. by apply Hv.
  - rewrite Em. apply Forall_app. split; [by eapply misses_grow|]. eapply Forall_impl; [done|].
    intros [[l f] c] (Hf & HcV & Hk). unfold miss_ok. by destruct f.
Qed.

(** ** More objects *)

Lemma usable_keeps t o' f c :
  sound t -> is_slot f = true -> odb_keeps (t_odb t) o' ->
  usable find0 rank (t_odb t) f c = true -> usable find0 rank o' f c = true.
Proof.
  intros Hs Hf Hk. destruct f; [done|unfold usable; rewrite !orb_true_iff, !bool_decide_eq_true; tauto|].
  unfold usable. simpl. rewrite !orb_true_iff. intros [?|Hin]; [by left|right].
  apply odb_contains_find in Hin; [|by apply (sound_odb _ _ _ t Hs)].
  by eapply odb_find_contains; [by apply Hk|].
Qed.

(** A database with more objects, as long as with a commit its parents are stored. *)
Lemma keeps_tracked t o' :
  tracked t -> odb_ok o' -> odb_keeps (t_odb t) o' ->
  (forall c p, held (set_odb o' t) c -> p ∈ parents_of find0 c -> held (set_odb o' t) p) ->
  tracked (set_odb o' t) /\ grows t (set_odb o' t).
Proof.
  intros [Hs Hm Hv Hmiss] Ho Hk Hclosed. set (t' := set_odb o' t) in *.
  assert (forall c, held t c -> held t' c) as Hheld by (intros c; by apply (held_keeps find0 V rank)).
  assert (sound t') as Hs'.
  { destruct Hs as [S1 S2 S3 S4 S5]. split; try done. intros f c v Hc Hf Hf'.
    destruct (S4 f c v Hc Hf Hf') as [-> Hst]. split; [done|]. intros Hr. by apply Hk, Hst. }
  assert (grows t t') as Hg.
  { split; [done|done|..].
    - intros f c Hc Hf. unfold has. simpl. rewrite !orb_true_iff, !andb_true_iff.
      intros [?|[? ?]]; [by left|right]. split; [done|]. by apply (usable_keeps t).
    - intros f c. unfold recorded. destruct (right f c) as [v|] eqn:Hr; [|done].
      rewrite !orb_true_iff, !andb_true_iff, !orb_true_iff. intros [?|[? [?|Hin]]]; [by left|by right; auto|].
      destruct (right_inside Hright f c v Hr) as [_ [->|HvV]]; [right; split; [done|by left; apply bool_decide_eq_true]|].
      right. split; [done|right]. apply contains_held; [done|done|]. by apply Hheld, contains_held. }
  split; [|done]. split; [done| |done|by apply (misses_grow t)].
  intros f c v v' Hr Hv'. destruct (Hm f c v v' Hr Hv') as [-> [?|?]]; auto.
Qed.

(** Trees and blobs. *)
Lemma extends_tracked t o' :
  tracked t -> odb_ok o' -> odb_extends (t_odb t) o' ->
  tracked (set_odb o' t) /\ quiet t (set_odb o' t).
Proof.
  intros Ht Ho He. pose proof (tracked_sound t Ht) as Hs.
  assert (forall c, held (set_odb o' t) c <-> held t c) as Hheld.
  { intros c. by apply (held_extends find0 V rank). }
  destruct (keeps_tracked t o' Ht Ho (extends_keeps _ _ He)) as [Ht' Hg].
  { intros c p Hc%Hheld Hp. apply Hheld. by apply (sound_closed _ _ _ t Hs c). }
  split; [done|]. split; [done|intros c; apply Hheld|]. intros f c. unfold recorded.
  destruct (right f c) as [v|] eqn:Hr; [|done]. simpl. do 2 f_equal.
  destruct (right_inside Hright f c v Hr) as [_ [->|HvV]]; [by rewrite bool_decide_true|]. f_equal.
  apply eq_true_iff_eq.
  rewrite (contains_held t v Hs HvV), <- (Hheld v).
  apply (contains_held (set_odb o' t) v (tracked_sound _ Ht') HvV).
Qed.

(** A commit of the history whose parents are stored. *)
Lemma commit_tracked t k :
  let c := compute_hash (OCommit k) in
  tracked t -> c ∈ V -> find0 c = Some (OCommit k) -> (forall p, p ∈ commit_parents k -> held t p) ->
  let t' := set_odb (odb_write (t_odb t) (OCommit k)).2 t in
  tracked t' /\ grows t t' /\ held t' c /\ (forall d, held t' d -> d = c \/ held t d).
Proof.
  intros c Ht Hc Hk Hps t'. pose proof (tracked_sound t Ht) as Hs.
  pose proof (sound_odb _ _ _ t Hs) as Ho.
  destruct (odb_write (t_odb t) (OCommit k)) as [id o'] eqn:E. pose proof E as Hw.
  apply odb_write_spec in Hw as (-> & Ho' & Hkeep & Hf); [|done].
  pose proof (odb_write_find (t_odb t) (OCommit k)) as Hfind. rewrite E in Hfind. simpl in Hfind, t'.
  assert (held t' c) as Hct' by (split; [done|by rewrite Hk]).
  assert (forall d, held t' d -> d = c \/ held t d) as Hback.
  { intros d [Hd Ed]. simpl in Ed. rewrite Hfind in Ed by done. case_decide; [by left|right]. by split. }
  assert (forall d, held t d -> held t' d) as Hfwd by (intros d; by apply (held_keeps find0 V rank)).
  destruct (keeps_tracked t o' Ht Ho' Hkeep) as [Ht' Hg]; [|done].
  intros d p Hd Hp. apply Hfwd. destruct (Hback d Hd) as [->|Hd'].
  - apply Hps. unfold parents_of in Hp. by rewrite Hk in Hp.
  - by apply (sound_closed _ _ _ t Hs d).
Qed.

(** ** Learning a record *)

Lemma stack_learned f c v (l l' : list B) f' c' h k :
  Forall2 (learned f c v) l l' -> is_oid c' = true ->
  stack_view l' f' c' h k = stack_view l f' c' h k \/
  alias f' f /\ c' = c /\ stack_view l' f' c' h k = Some v.
Proof.
  intros Hl Hc'. induction Hl as [|b b' l l' [_ Hb] _ IH]; [by left|]. simpl.
  destruct (Hb f' c' h k Hc') as [->|(Ha & -> & ->)]; [|by right].
  destruct (backend_view b f' c' h k); [by left|done].
Qed.

Lemma learned_tracked t f c v l :
  tracked t -> right f c = Some v -> Forall2 (learned (Real f) c v) (cache t) l ->
  tracked (set_cache l t) /\ grows t (set_cache l t) /\
  (forall f' c', (f', c') ≠ (f, c) \/ is_Some (stack_view (cache t) (Real f) c (hint_of c) false) ->
    recorded (set_cache l t) f' c' = recorded t f' c').
Proof.
  intros [Hs Hm Hv Hmiss] Hr Hl.
  assert (sound (set_cache l t)) as Hs'.
  { destruct Hs as [S1 S2 S3 S4 S5]. split; [done|done|by eapply learned_all_ok|done|].
    eapply (learned_sound (B := B) find0 V rank Hgraph (Real f) c v); [exact Hl|done|exact S5]. }
  assert (forall f' c' v', right f' c' = Some v' ->
    stack_view l (Real f') c' (hint_of c') false = stack_view (cache t) (Real f') c' (hint_of c') false \/
    f' = f /\ c' = c /\ is_Some (stack_view l (Real f') c' (hint_of c') false)) as Hview.
  { intros f' c' v' Hr'. destruct (oid_right f' c' v' Hr') as [Ho _].
    destruct (stack_learned (Real f) c v (cache t) l (Real f') c' (hint_of c') false Hl Ho)
      as [?|(Ha & -> & ->)]; [by left|right]. split; [by eapply right_alias|]. by split. }
  assert (grows t (set_cache l t)) as Hg.
  { split; [apply odb_keeps_refl|done|..].
    - intros f' c' Hc' Hf'. unfold has. simpl. rewrite !orb_true_iff, !andb_true_iff, !bool_decide_eq_true.
      intros [?|[? ?]]; [by left|right]. split; [|done].
      destruct (stack_learned (Real f) c v (cache t) l f' c' slot_hint false Hl) as [->|(_ & _ & ->)];
        [by apply (graph_ids _ _ _ Hgraph)|done|done].
    - intros f' c'. unfold recorded. destruct (right f' c') as [v'|] eqn:Hr'; [|done]. simpl.
      rewrite !orb_true_iff, !andb_true_iff, !bool_decide_eq_true. intros [?|[? ?]]; [by left|right].
      split; [|done]. by destruct (Hview f' c' v' Hr') as [->|(_ & _ & ?)]. }
  split; [|split; [done|]].
  - split; [done|exact Hm| |exact (misses_grow t _ Hg Hmiss)].
    intros f' c' h k v1 v2 Hr' Hv2. destruct (oid_right f' c' v1 Hr') as [Ho _].
    destruct (stack_learned (Real f) c v (cache t) l (Real f') c' h k Hl Ho) as [E|(Ha & -> & E)].
    + simpl in Hv2. rewrite E in Hv2. by eapply Hv.
    + simpl in Hv2. rewrite E in Hv2. injection Hv2 as <-.
      pose proof (right_alias Hright f' f c v1 v Ha Hr' Hr) as ->. rewrite Hr in Hr'. by injection Hr'.
  - intros f' c' Hor. unfold recorded. destruct (right f' c') as [v'|] eqn:Hr'; [|done]. simpl.
    destruct (Hview f' c' v' Hr') as [->|(-> & -> & Hsome)]; [done|].
    destruct Hor as [?|Hold]; [done|]. by rewrite (bool_decide_true _ Hsome), (bool_decide_true _ Hold).
Qed.

(** ** Lookups *)

Lemma lookup_tracked t f c v :
  tracked t -> right f c = Some v ->
  exists t', lookup_record (hint_of c) (Real f) c t = (Ok (if recorded t f c then Some v else None), t') /\
    tracked t' /\ quiet t t' /\ missing t' = missing t.
Proof.
  intros Ht Hr. pose proof Ht as [Hs Hm Hv Hmiss]. unfold lookup_record, mbind, M_bind, gets, recorded.
  rewrite Hr. destruct (map_get (commit_map t) (Real f) c) as [v'|] eqn:Em.
  { exists t. rewrite bool_decide_true by done. destruct (Hm f c v v' Hr Em) as [-> _]. split; [done|].
    split; [done|]. split; [reflexivity|done]. }
  rewrite bool_decide_false by (by intros [? [=]]). simpl.
  destruct (oid_right f c v Hr) as [Hoc Hov].
  destruct (read_propagate_view (Real f) c (hint_of c) false (cache t)) as (l & E & Hl).
  { by apply (sound_stack _ _ _ t Hs). } { done. } { intros v' Hv'. by rewrite (Hv f c _ _ v v' Hr Hv'). }
  exists (set_cache l t). unfold on_cache. rewrite E.
  destruct (stack_view (cache t) (Real f) c (hint_of c) false) as [v'|] eqn:Es.
  - pose proof (Hv f c _ _ v v' Hr Es) as ->.
    destruct (learned_tracked t f c v l Ht Hr Hl) as (Ht' & Hg & Hrec).
    split; [|split; [done|split; [|done]]].
    + rewrite bool_decide_true by done. simpl. repeat case_decide; rewrite ?bool_decide_true by done; try done.
    + split; [done|done|]. intros f' c'. apply Hrec. right. by rewrite Es.
  - rewrite bool_decide_false by (by intros [? [=]]). split; [done|].
    apply (unchanged_learned (Real f) c v) in Hl as Hl'.
    destruct (learned_tracked t f c v l Ht Hr Hl') as (Ht' & Hg & _). split; [done|]. split; [|done].
    split; [done|done|]. intros f' c'. unfold recorded. destruct (right f' c') as [w|] eqn:Hr'; [|done].
    destruct (oid_right f' c' w Hr') as [Ho _]. simpl. by rewrite (unchanged_view (cache t) l).
Qed.

Lemma get2_tracked t f c v n :
  tracked t -> right f c = Some v -> held t c -> graph_fuel <= n ->
  exists t', get2 n (Real f) c t = (Ok (if recorded t f c then Some v else None), t') /\
    tracked t' /\ quiet t t' /\ missing t ⊆ missing t'.
Proof.
  intros Ht Hr Hc Hn.
  destruct (ensure_gives find0 V rank Hgraph t c n (tracked_sound t Ht) Hc Hn)
    as (t1 & E1 & Hs1 & Hl1 & Hk1 & _).
  destruct (later_tracked t t1 Ht Hs1 Hl1 Hk1) as [Ht1 Hq1].
  destruct (lookup_tracked t1 f c v Ht1 Hr) as (t2 & E2 & Ht2 & Hq2 & Em2).
  exists t2. split; [|split; [done|split; [by transitivity t1|]]].
  - unfold get2, record_hint, compute_history_hint, mbind, M_bind. cbn [cache_filter_is_nop].
    rewrite bool_decide_false by (by eapply right_filter).
    cbn [is_slot]. rewrite E1. cbn [mret M_ret fst]. rewrite E2.
    by rewrite (quiet_recorded _ _ Hq1).
  - rewrite Em2. destruct Hk1 as (_ & ms & -> & _). by apply list_subseteq_app_l.
Qed.

Lemma known_tracked t f c v n :
  tracked t -> right f c = Some v -> held t c -> graph_fuel <= n ->
  exists t', known n (Real f) c t = (Ok (recorded t f c), t') /\ tracked t' /\ quiet t t'.
Proof.
  intros Ht Hr Hc Hn. destruct (get2_tracked t f c v n Ht Hr Hc Hn) as (t' & E & Ht' & Hq & _).
  exists t'. split; [|done]. unfold known, mbind, M_bind. rewrite E.
  destruct (recorded t f c); [by rewrite bool_decide_true|].
  by rewrite bool_decide_false by (by intros [? [=]]).
Qed.

(** [get] notes a miss. *)
Lemma get_tracked t f c v n :
  tracked t -> right f c = Some v -> held t c -> graph_fuel <= n ->
  exists t', get n (Real f) c t = (Ok (if recorded t f c then Some v else None), t') /\
    tracked t' /\ quiet t t' /\
    (recorded t f c = false -> exists l, (l, Real f, c) ∈ missing t').
Proof.
  intros Ht Hr Hc Hn. destruct (get2_tracked t f c v n Ht Hr Hc Hn) as (t1 & E1 & Ht1 & Hq1 & _).
  unfold get, or_miss, mbind, M_bind. rewrite E1.
  destruct (recorded t f c) eqn:Hrec; [by exists t1|].
  exists (add_miss (Real f) c t1). split; [done|].
  assert (quiet t1 (add_miss (Real f) c t1)) as Hq2.
  { split; [split; try done; apply odb_keeps_refl|done|done]. }
  split; [|split; [by transitivity t1|]].
  - pose proof Ht1 as [[S1 S2 S3 S4 S5] Hm Hv Hmiss]. split; [by split|exact Hm|exact Hv|].
    simpl. apply Forall_app. split; [exact Hmiss|]. constructor; [|done]. split; [by eauto|].
    by apply (grows_held _ _ (quiet_grows _ _ Hq1)).
  - intros _. exists (nesting_level t1). simpl. apply elem_of_app. right. left.
Qed.

(** Inserting the right record. *)
Lemma insert_tracked t f c v store n :
  tracked t -> right f c = Some v -> held t c -> v = zero_oid \/ held t v -> graph_fuel <= n ->
  exists t', insert n (Real f) c v store t = (Ok tt, t') /\ tracked t' /\ grows t t' /\
    recorded t' f c = true /\ (forall c', held t' c' -> held t c').
Proof.
  intros Ht Hr Hc Hv Hn.
  destruct (ensure_gives find0 V rank Hgraph t c n (tracked_sound t Ht) Hc Hn)
    as (t1 & E1 & Hs1 & Hl1 & Hk1 & _).
  destruct (later_tracked t t1 Ht Hs1 Hl1 Hk1) as [Ht1 Hq1].
  set (t2 := map_commit (Real f) c v t1).
  assert (grows t1 t2) as Hg2.
  { split; [apply odb_keeps_refl|done|..].
    - intros f' c' Hc' Hf'. unfold has. simpl. rewrite decide_False; [done|]. by intros [-> _].
    - intros f' c'. unfold recorded. destruct (right f' c'); [|done]. simpl.
      case_decide; [|done]. intros _. by rewrite bool_decide_true. }
  assert (tracked t2) as Ht2.
  { pose proof Ht1 as [[S1 S2 S3 S4 S5] Hm1 Hv1 Hmiss1]. split; [split; try done|..].
    - intros g c' w Hc' Hg. simpl. rewrite decide_False; [by apply S4|]. by intros [-> _].
    - intros f' c' w w' Hr'. simpl. case_decide as E.
      + destruct E as [[= ->] ->]. intros [= <-]. rewrite Hr in Hr'. injection Hr' as ->.
        split; [done|]. destruct Hv as [?|?]; [by left|right]. by apply (grows_held _ _ (quiet_grows _ _ Hq1)).
      + intros Hw. by apply (Hm1 f' c' w w').
    - exact Hv1.
    - by apply (misses_grow t1). }
  assert (recorded t2 f c = true) as Hrec.
  { unfold recorded. rewrite Hr. simpl. rewrite decide_True by done. by rewrite bool_decide_true. }
  assert (grows t t2) as Hg by (transitivity t1; [apply Hq1|done]).
  unfold insert, record_hint, compute_history_hint, insert_record, mbind, M_bind, modify.
  cbn [is_slot]. rewrite E1. cbn [mret M_ret fst]. fold t2.
  assert (forall c', held t2 c' -> held t c') as Hback by (intros c'; apply (quiet_held _ _ Hq1)).
  destruct (store || is_sample_point (hint_of c)); [|by exists t2].
  destruct (oid_right f c v Hr) as [Hoc Hov].
  destruct (write_all_learned (Real f) c v (hint_of c) false (cache t2)) as (l & E & Hl); [|done|done|].
  { apply (sound_stack _ _ _ _ (tracked_sound t2 Ht2)). }
  destruct (learned_tracked t2 f c v l Ht2 Hr Hl) as (Ht3 & Hg3 & _).
  exists (set_cache l t2). unfold on_cache. rewrite E. split; [done|]. split; [done|].
  split; [by transitivity t2|]. split; [by apply (grows_recorded _ _ Hg3)|done].
Qed.

End Records.
