(* ===== verification/FilteredHistory.v ===== *)
(** The filtered history as a value: which commit a filter makes of a commit, given the history
    of the commit and the trees of its commits, without object database, caches and walks.  A
    commit is rewritten onto the filtered tree and the filtered parents, or it becomes one of its
    filtered parents because it changes nothing, or nothing at all. *)

From S2P Require Import Prelude Path Objects Store RevWalk RevWalkFacts RangeWalkFacts HistoryHint.
From S2P Require Import HistoryTruth OptState Invert Builders Utf8 Persist TreeOps TreePaths TreeWalk Node NodeFacts.
From S2P Require Import Glob Pattern Refine NodePut NodeKeys GraphMerge Apply Rewriting Denote ApplyFacts Ops.

Open Scope nat_scope.

(** A well-formed tree is determined by its address. *)
Lemma wf_oid_inj `{ObjectHash} a b :
  wf_node a -> wf_node b -> is_node a = is_node b -> node_oid a = node_oid b -> a = b.
Proof.
  revert b. induction a as [id|ca IH] using node_ind'; intros [id'|cb] Ha Hb Hk E; simpl in Hk; try done.
  { simpl in E. by subst. }
  simpl in E. apply compute_hash_inj in E. injection E as E. f_equal.
  assert (forall c, c ∈ ca -> wf_node (child_node c) /\ is_tree (child_mode c) = is_node (child_node c)) as Hca.
  { intros c Hc. split; [by apply (wf_child ca)|by apply (wf_child_kind ca)]. }
  assert (forall c, c ∈ cb -> wf_node (child_node c) /\ is_tree (child_mode c) = is_node (child_node c)) as Hcb.
  { intros c Hc. split; [by apply (wf_child cb)|by apply (wf_child_kind cb)]. }
  clear Ha Hb Hk. revert cb E Hcb. induction IH as [|c ca Hc _ IHl]; intros [|d cb] E Hcb; try done.
  rewrite !fmap_cons in E. injection E as E1 E2 E3 E4.
  destruct (Hca c ltac:(left)) as [Wc Kc], (Hcb d ltac:(left)) as [Wd Kd].
  destruct c as [[m s] nc], d as [[m' s'] nd]. unfold child_mode, child_name, child_node in *.
  simpl in *. subst m' s'. rewrite (Hc nd); [|done|done|congruence|done].
  f_equal. apply IHl; [intros x Hx; apply Hca; by right|done|]. intros x Hx. apply Hcb. by right.
Qed.

(** * Chains of filters, on trees *)

Section Chains.
Context `{ObjectHash} `{EntryModes} `{RegexReplace} `{FilterText} `{!Collaborators}.

Lemma fwd_nempty known f : tree_filter known f = true -> fwd f nempty = nempty.
Proof.
  intros Kf. apply (sem_keeps (fun t => t = nempty)) with (known := known); try done.
  - intros p t ->. unfold nsubdir. by destruct p as [|s [|]].
  - intros p t _ ->. apply nput_nempty.
  - intros d s t _ ->. unfold nfile. by destruct s as [|s [|]].
  - intros a b -> ->. apply nsubtract_same.
  - intros a b -> ->. apply nintersect_empty_l.
  - intros a b -> ->. apply noverlay_empty_l.
  - by intros keep a ->.
Qed.

Lemma sem_peel f : sem (peel_filter f) = sem f.
Proof. induction f; try done. Qed.

Lemma tree_filter_peel known f : tree_filter known (peel_filter f) = tree_filter known f.
Proof. induction f; try done. Qed.

Lemma sem_propagate f meta : sem (propagate_meta f meta) = sem f.
Proof. by rewrite <- (sem_peel (propagate_meta f meta)), peel_propagate, sem_peel. Qed.

Lemma through_app l l' t : through (l ++ l') t = through l' (through l t).
Proof. apply foldl_app. Qed.

(** A chain does what its steps do, one after the other. *)
Lemma expand_sem known f outer :
  tree_filter known f = true ->
  Forall (fun g => tree_filter known g = true) (expand f outer) /\
  forall t, through (sem <$> expand f outer) t = fwd f t.
Proof.
  remember (size f) as n eqn:En. revert f outer En. induction n as [n IH] using lt_wf_ind.
  intros f outer -> Kf. rewrite expand_eq. cbv zeta. set (meta := inherit _ _).
  assert (forall g, peel_filter f = g ->
    Forall (fun g => tree_filter known g = true) [propagate_meta g meta] /\
    forall t, through (sem <$> [propagate_meta g meta]) t = fwd f t) as Hone.
  { intros g <-. split.
    - constructor; [|done]. by rewrite <- tree_filter_peel, peel_propagate, !tree_filter_peel.
    - intros t. cbn. by rewrite sem_propagate, sem_peel. }
  destruct (peel_filter f) as [| | | | | | | | | | | | | | | | | | | | | | | | | | | | | | | | |l| | | | |] eqn:E;
    try (by apply Hone).
  assert (Forall (fun g => size g < size f /\ tree_filter known g = true) l) as Hl.
  { rewrite <- tree_filter_peel, E in Kf. simpl in Kf. rewrite Forall_forallb, Forall_forall in Kf.
    apply Forall_forall. intros g Hg. split; [|by apply Kf].
    pose proof (peel_size f) as Hs. rewrite E in Hs. pose proof (size_child g (Op.Chain l) Hg). lia. }
  assert (forall t, fwd f t = through (sem <$> l) t) as Ef.
  { intros t. unfold fwd. by rewrite <- sem_peel, E. }
  setoid_rewrite Ef. clear Ef E Kf Hone. induction Hl as [|g l [Hg Kg] _ IHl]; [by split|].
  cbn [flat_map]. destruct (IH _ Hg g meta eq_refl Kg) as [F1 E1]. destruct IHl as [F2 E2]. split.
  - by apply Forall_app.
  - intros t. by rewrite fmap_app, through_app, E1, E2.
Qed.

End Chains.

(** * The filtered history *)

(** What becomes of a commit: another id takes its place, or it is rewritten. *)
Inductive fate := Becomes (id : oid) | Rewritten (c : commit).

Section Filtered.
Context `{ObjectHash} `{BisectEntry} `{EntryModes} `{RegexReplace} `{Readers} `{FilterText}.
Context `{!Collaborators}.
Context (find0 : oid -> option object) (V : gset oid) (rank : oid -> nat) (tree_of : oid -> node).

Abbreviation parents := (parents_of find0).
Abbreviation related := (related find0 rank).

(** The tree id of a commit. *)
Definition tree_id_of (c : oid) : oid :=
  match find0 c with Some (OCommit k) => commit_tree k | _ => zero_oid end.

(** The parents of unrelated histories that have content, if there is one. *)
Definition with_content (ps : list oid) : list oid :=
  let content := base.filter (fun p => tree_id_of p ≠ empty_id) ps in
  if bool_decide (1 < length ps) && negb (related ps) && negb (bool_decide (content = []))
  then content else ps.

(** The parents left of the filtered ones: those that exist; of unrelated histories those with
    content; for a linear history the first. *)
Definition surviving (options : list (string * string)) (ps : list oid) : list oid :=
  let ps := with_content (base.filter (fun p => p ≠ zero_oid) ps) in
  if history_flag (btree_get "history" options) "linear" then take 1 ps else ps.

(** A commit on another tree and other parents. *)
Definition rewritten (options : list (string * string)) (k : commit) (tree : oid) (ps : list oid) : commit :=
  Commit tree ps (commit_author k) (commit_committer k) (commit_encoding k) (commit_message k)
    (gpgsig_headers (gpgsig_mode options) (commit_extra_headers k)).

Definition has_tree (tree p : oid) : bool := bool_decide (tree_id_of p = tree).

(** The change of the commit is filtered away: the filtered parents have the filtered tree, and
    not every parent had the tree of the commit. *)
Definition unaffected (k : commit) (tree : oid) (ps : list oid) : bool :=
  forallb (has_tree tree) ps && negb (forallb (has_tree (commit_tree k)) (commit_parents k)).

(** A merge that has become one onto the tree of the first filtered parent. *)
Definition trivial_onto (options : list (string * string)) (k : commit) (tree : oid) (ps : list oid) : bool :=
  match ps with
  | p :: _ :: _ =>
      negb (history_flag (btree_get "history" options) "keep-trivial-merges") && has_tree tree p &&
      negb (from_option (has_tree (commit_tree k)) false (head (commit_parents k)))
  | _ => false
  end.

(** What becomes of the commit [k] with the filtered tree, onto surviving parents. *)
Definition fate_onto (options : list (string * string)) (k : commit) (tree : oid) (ps : list oid) : fate :=
  match ps with
  | [] =>
      if bool_decide (tree = empty_id) && negb (bool_decide (commit_parents k = [] /\ commit_tree k = empty_id))
      then Becomes zero_oid
      else Rewritten (rewritten options k tree [])
  | p :: _ =>
      if unaffected k tree ps || trivial_onto options k tree ps then Becomes p
      else Rewritten (rewritten options k tree ps)
  end.

(** The same, for the filtered parents. *)
Definition fate_of (options : list (string * string)) (k : commit) (tree : oid) (ps : list oid) : fate :=
  fate_onto options k tree (surviving options ps).

Definition fate_id (x : fate) : oid :=
  match x with Becomes id => id | Rewritten k => compute_hash (OCommit k) end.

Section Filter.
Context (f : filter).

(** The filtered tree of a commit. *)
Definition filtered_tree (c : oid) : node := fwd f (tree_of c).

Fixpoint filtered_upto (n : nat) (c : oid) : oid :=
  match n with
  | 0 => zero_oid
  | S n =>
      match find0 c with
      | Some (OCommit k) =>
          fate_id (fate_of (Filter.into_meta f) k (node_oid (filtered_tree c))
            (filtered_upto n <$> commit_parents k))
      | _ => zero_oid
      end
  end.

(** The filtered commit of a commit. *)
Definition filtered (c : oid) : oid := filtered_upto (S (rank c)) c.

(** The commits that the filter is applied to: their parents are among them, and what they are
    rewritten to is in the history. *)
Record universe (D : gset oid) : Prop := {
  u_inside c : c ∈ D -> c ∈ V;
  u_parents c p : c ∈ D -> p ∈ parents c -> p ∈ D;
  u_written c k k' :
    c ∈ D -> find0 c = Some (OCommit k) ->
    fate_of (Filter.into_meta f) k (node_oid (filtered_tree c)) (filtered <$> commit_parents k) = Rewritten k' ->
    compute_hash (OCommit k') ∈ V /\ find0 (compute_hash (OCommit k')) = Some (OCommit k') /\
    tree_of (compute_hash (OCommit k')) = filtered_tree c;
}.

End Filter.

Section Facts.
Context (Hist : history find0 V rank).

Lemma filtered_upto_stable f n m c :
  c ∈ V -> rank c < n -> rank c < m -> filtered_upto f n c = filtered_upto f m c.
Proof.
  revert m c. induction n as [|n IH]; intros [|m] c Hc Hn Hm; try lia. simpl.
  destruct (stored_commit _ _ _ Hist c Hc) as [k Hk]. rewrite Hk. do 2 f_equal.
  apply list_fmap_ext. intros i p Hp%list_elem_of_lookup_2.
  pose proof (parents_inside _ _ _ Hist c k p Hc Hk Hp). pose proof (parents_smaller _ _ _ Hist c k p Hc Hk Hp).
  apply IH; [done|lia|lia].
Qed.

Lemma filtered_eq f c k :
  c ∈ V -> find0 c = Some (OCommit k) ->
  filtered f c =
    fate_id (fate_of (Filter.into_meta f) k (node_oid (filtered_tree f c)) (filtered f <$> commit_parents k)).
Proof.
  intros Hc Hk. unfold filtered at 1. cbn [filtered_upto]. rewrite Hk. do 2 f_equal.
  apply list_fmap_ext. intros i p Hp%list_elem_of_lookup_2.
  pose proof (parents_inside _ _ _ Hist c k p Hc Hk Hp). pose proof (parents_smaller _ _ _ Hist c k p Hc Hk Hp).
  apply filtered_upto_stable; [done|lia|lia].
Qed.

Lemma with_content_inside ps p : p ∈ with_content ps -> p ∈ ps.
Proof. unfold with_content. case_match; [by intros [_ ?]%list_elem_of_filter|done]. Qed.

Lemma surviving_inside options ps p : p ∈ surviving options ps -> p ∈ ps /\ p ≠ zero_oid.
Proof.
  unfold surviving. intros Hp.
  assert (p ∈ with_content (base.filter (fun p => p ≠ zero_oid) ps)) as Hin.
  { case_match; [|done]. apply list_elem_of_lookup in Hp as [i Hi].
    by apply lookup_take_Some in Hi as [Hp%list_elem_of_lookup_2 _]. }
  by apply with_content_inside, list_elem_of_filter in Hin as [? ?].
Qed.

(** A commit that becomes another one has its tree. *)
Lemma becomes_tree options k tree ps id :
  fate_of options k tree ps = Becomes id ->
  id = zero_oid /\ tree = empty_id \/ id ∈ ps /\ id ≠ zero_oid /\ tree_id_of id = tree.
Proof.
  unfold fate_of, fate_onto. destruct (surviving options ps) as [|p others] eqn:E.
  - destruct (bool_decide (tree = empty_id)) eqn:Ht; [|done]. simpl. apply bool_decide_eq_true in Ht.
    case_match; [|done]. intros [= <-]. by left.
  - assert (p ∈ ps /\ p ≠ zero_oid) as [Hp Hz] by (apply (surviving_inside options); rewrite E; left).
    case_match eqn:Hc; [|done]. intros [= <-]. right. split; [done|]. split; [done|].
    unfold unaffected, trivial_onto in Hc. cbn [forallb] in Hc.
    destruct (has_tree tree p) eqn:Hs; [by apply bool_decide_eq_true in Hs|].
    destruct others; simpl in Hc; [done|]. by rewrite andb_false_r in Hc.
Qed.

Lemma rewritten_shape options k tree ps k' :
  fate_of options k tree ps = Rewritten k' ->
  exists sel, k' = rewritten options k tree sel /\ forall p, p ∈ sel -> p ∈ ps /\ p ≠ zero_oid.
Proof.
  unfold fate_of, fate_onto. pose proof (surviving_inside options ps) as Hin.
  destruct (surviving options ps) as [|p others]; case_match; try done; intros [= <-];
    eexists; (split; [done|]); [intros q Hq; by apply not_elem_of_nil in Hq|done].
Qed.

(** ** Trees of filtered commits *)

(** The trees of the history. *)
Definition trees_ok : Prop := forall c, c ∈ V -> value (tree_of c) /\ tree_id_of c = node_oid (tree_of c).
Hypothesis Htrees : trees_ok.

Section Universe.
Context (known : string -> bool) (f : filter) (D : gset oid).
Hypothesis (Kf : tree_filter known f = true) (HD : universe f D).

Lemma commit_in c : c ∈ D -> exists k, find0 c = Some (OCommit k).
Proof. intros Hc. apply (stored_commit _ _ _ Hist). by apply (u_inside f D HD). Qed.

Lemma parent_in c k p : c ∈ D -> find0 c = Some (OCommit k) -> p ∈ commit_parents k -> p ∈ D /\ rank p < rank c.
Proof.
  intros Hc Hk Hp. pose proof (u_inside f D HD c Hc) as HcV. split.
  - apply (u_parents f D HD c); [done|]. unfold parents_of. by rewrite Hk.
  - by apply (parents_smaller _ _ _ Hist c k).
Qed.

(** The filtered commit has the filtered tree; there is none only if that is empty. *)
Lemma filtered_has_tree c :
  c ∈ D ->
  filtered f c = zero_oid /\ filtered_tree f c = nempty \/
  filtered f c ∈ V /\ tree_of (filtered f c) = filtered_tree f c.
Proof.
  remember (rank c) as n eqn:En. revert c En. induction n as [n IH] using lt_wf_ind. intros c -> Hc.
  destruct (commit_in c Hc) as [k Hk]. pose proof (u_inside f D HD c Hc) as HcV.
  assert (value (filtered_tree f c)) as [[Wt Nt] _].
  { apply (value_fwd known); [done|]. by apply Htrees. }
  rewrite (filtered_eq f c k HcV Hk).
  destruct (fate_of _ k _ _) as [id|k'] eqn:Ef; simpl.
  - apply becomes_tree in Ef as [[-> Ht]|(Hin & Hz & Ht)].
    + left. split; [done|]. apply wf_oid_inj; [done|apply wf_nempty|by rewrite Nt|done].
    + right. apply list_elem_of_fmap in Hin as (p & -> & Hp).
      destruct (parent_in c k p Hc Hk Hp) as [HpD Hlt].
      destruct (IH (rank p) Hlt p eq_refl HpD) as [[? _]|[HpV _]]; [done|]. split; [done|].
      destruct (Htrees _ HpV) as [[[Wp Np] _] Ep]. rewrite Ep in Ht.
      apply wf_oid_inj; [done|done|by rewrite Nt|done].
  - right. destruct (u_written f D HD c k k' Hc Hk Ef) as (HV & _ & Ht). done.
Qed.

End Universe.
End Facts.
End Filtered.
