(* ===== verification/HistoryLaws.v ===== *)
(** What the commit caches promise their clients: positions of commits in their history,
    whether histories are related, sample points on every walk, ranges ranked by sequence
    numbers, and records that survive the transaction. *)

From S2P Require Import Prelude Path Objects Store RevWalk RevWalkFacts RangeWalkFacts HistoryHint.
From S2P Require Import FlangLaws CommitCache SledCache HistoryGraph HistoryTruth HistoryGraphFacts Concrete Ops.

Open Scope nat_scope.

Section Laws.
Context `{ObjectHash} {B : Type} `{LawfulBackend B}.
Context (find : oid -> option object) (V : gset oid) (rank : oid -> nat).
Hypothesis Hgraph : graph_ok find V rank.

Abbreviation parents := (parents_of find).
Abbreviation hint_of := (hint_of find rank).
Abbreviation roots_of := (roots_of find rank).
Abbreviation related := (related find rank).
Abbreviation roots_id := (roots_id find rank).
Abbreviation sound := (sound (B := B) find V rank).
Abbreviation held := (held (B := B) find V).
Abbreviation gives := (gives (B := B) find V rank).
Abbreviation reads := (reads (B := B) find V rank).
Abbreviation has_both := (has_both (B := B) find rank).
Abbreviation graph_fuel := (graph_fuel find V).

Lemma graph_hist : history find V rank.
Proof. apply (graph_history _ _ _ Hgraph). Qed.

Lemma graph_small c : c ∈ V -> (Z.of_nat (rank c) < 2 ^ 64 - 1)%Z.
Proof. apply (graph_bound _ _ _ Hgraph). Qed.

(** * Positions *)

Lemma collect_info_gives t c n :
  sound t -> held t c -> graph_fuel <= n ->
  gives t (collect_history_graph_info n c) (Info (sequence_number (hint_of c)) (roots_of c))
    (fun _ => True).
Proof.
  intros Hs Hc Hn. eapply gives_bind; [by apply ensure_gives|]. intros t1 Hs1 _ Hb.
  eapply gives_bind.
  { apply reads_gives, read_roots_reads; [done|done|apply Hc|].
    by apply (has_roots_stored find V rank); [|apply Hc|]. }
  intros t2 Hs2 _ _. by apply gives_ret.
Qed.

(** The states that hold some commits of the history. *)
Definition sound_with (X : gset oid) (t : txn B) : Prop := sound t /\ forall c, c ∈ X -> held t c.

Lemma ensure_computes {A} (X : gset oid) (k : HistoryGraphHint * oid -> A) c n :
  c ∈ X -> graph_fuel <= n ->
  computes (sound_with X) (h ← ensure_hint_cached n c; mret (k h)) (Ok (k (hint_of c, roots_id c))).
Proof.
  intros Hc Hn t [Hs Hx]. specialize (Hx c Hc) as Hh.
  destruct (ensure_gives find V rank Hgraph t c n Hs Hh Hn) as (t' & E & Hs' & Hl & _).
  unfold mbind, M_bind. rewrite E. split; [done|]. split; [done|]. intros d Hd.
  eapply held_later; [done|exact Hl|]. by apply Hx.
Qed.

(** C23: The position of a commit is computed right from every sound state of the caches, and
    leaves them sound.  [collect_history_graph_info] ends; the sequence number is the length
    of the longest path from the commit down to a root; the roots are exactly the ancestors
    without parents, sorted and without repetition; and this whether the records are cached,
    lost, half cached (one of the two), or have to be derived along the whole history. *)
Theorem collect_history_graph_info_correct (t : txn B) (c : oid) (n : nat) :
  sound t -> held t c -> graph_fuel <= n ->
  exists seq roots t', collect_history_graph_info n c t = (Ok (Info seq roots), t') /\ sound t' /\
    (exists r, nsteps (step_down find) (Z.to_nat seq) c r /\ parents r = []) /\
    (forall m d, nsteps (step_down find) m c d -> (Z.of_nat m <= seq)%Z) /\
    StronglySorted before roots /\
    (forall r, r ∈ roots <-> ancestor find c r /\ parents r = []).
Proof.
  intros Hs Hc Hn. destruct (collect_info_gives t c n Hs Hc Hn) as (t' & E & Hs' & _).
  eexists _, _, t'. split; [exact E|]. split; [done|].
  destruct (longest_path find V rank graph_hist graph_small c (proj1 Hc)) as [Hex Hmax].
  destruct (roots_of_spec find V rank graph_hist c (proj1 Hc)) as [Hsort Hroots]. done.
Qed.

(** * Sample points *)

(** C26: Every backward walk meets a sample point soon.  Whatever parents a walk follows, among
    its first [SAMPLE_INTERVAL] commits (or among all of them, if it ends in a root earlier)
    is one whose hint, as computed from any sound state, is a sample point: the caches may
    keep only those and still end every walk. *)
Theorem sample_points_bound_walks (c : oid) (l : list oid) (n : nat) :
  c ∈ V -> walks_back find c l ->
  (SAMPLE_INTERVAL <= Z.of_nat (length (c :: l)))%Z \/ (exists r, last (c :: l) = Some r /\ parents r = []) ->
  graph_fuel <= n ->
  exists d h, d ∈ take (Z.to_nat SAMPLE_INTERVAL) (c :: l) /\
    computes (sound_with {[d]}) (compute_history_hint n d) (Ok h) /\ is_sample_point h = true.
Proof.
  intros Hc Hl Hend Hn.
  pose proof (Z.mod_pos_bound (sequence_number (hint_of c)) 100 ltac:(lia)) as Hm.
  destruct (sample_on_path find V rank graph_hist graph_small c l Hc Hl) as (d & Hd & Hsd).
  { destruct Hend as [Hend|?]; [left; unfold SAMPLE_INTERVAL in Hend; lia|by right]. }
  assert (d ∈ take (Z.to_nat SAMPLE_INTERVAL) (c :: l)) as Hd'.
  { apply list_elem_of_lookup in Hd as [i [Hi Hlt]%lookup_take_Some]. apply list_elem_of_lookup.
    exists i. apply lookup_take_Some. split; [done|]. unfold SAMPLE_INTERVAL. lia. }
  exists d, (hint_of d). split; [done|]. split; [|done].
  by apply (ensure_computes {[d]} fst d n); [apply elem_of_singleton|].
Qed.

(** * Related histories *)

Lemma parent_blobs_gives t ps n :
  sound t -> (forall p, p ∈ ps -> held t p) -> graph_fuel <= n ->
  gives t (Prelude.mapM (fun p => h ← ensure_hint_cached n p; mret h.2) ps) (roots_id <$> ps)
    (fun t' => forall p, p ∈ ps -> has_both t' p = true).
Proof.
  intros Hs HV Hn. revert t Hs HV. induction ps as [|p ps IH]; intros t Hs HV.
  { apply gives_ret; [done|]. intros p Hp. by apply not_elem_of_nil in Hp. }
  rewrite fmap_cons. cbn [Prelude.mapM]. eapply gives_bind.
  { eapply gives_bind; [apply ensure_gives; [done|done|apply HV; left|done]|].
    intros t1 Hs1 _ Hb. by apply gives_ret; [|exact Hb]. }
  intros t1 Hs1 Hl1 Hb1. eapply gives_bind.
  { apply IH; [done|]. intros q Hq. eapply held_later; [done|exact Hl1|]. apply HV. by right. }
  intros t2 Hs2 Hl2 Hb2. apply gives_ret; [done|]. intros q [->|Hq]%elem_of_cons; [|by apply Hb2].
  eapply has_both_later; [exact Hl2|apply HV; left|done].
Qed.

(** The result of the loop over the remaining parents. *)
Fixpoint shares (common ps : list oid) : bool :=
  match ps with
  | [] => negb (bool_decide (common = []))
  | p :: ps =>
      if decide (common = []) then false
      else shares (base.filter (fun r => r ∈ set_extend [] (roots_of p)) common) ps
  end.

Lemma shares_spec common ps :
  shares common ps = true <-> exists r, r ∈ common /\ forall p, p ∈ ps -> r ∈ roots_of p.
Proof.
  revert common. induction ps as [|p ps IH]; intros common; cbn [shares].
  { rewrite negb_true_iff, bool_decide_eq_false. split; [|intros (r & Hr & _) ->; set_solver].
    intros Hne. destruct common as [|r l]; [done|]. exists r. split; [left|set_solver]. }
  case_decide as Hc; [subst; set_solver|]. rewrite IH. split.
  - intros (r & [Hr Hin]%list_elem_of_filter & Hall). exists r. split; [done|].
    rewrite elem_of_set_extend in Hr. intros q [->|Hq]%elem_of_cons; [|by apply Hall].
    destruct Hr as [Hr|?]; [by apply not_elem_of_nil in Hr|done].
  - intros (r & Hr & Hall). exists r. split; [|intros q Hq; apply Hall; by right].
    apply list_elem_of_filter. split; [|done]. apply elem_of_set_extend. right. apply Hall. left.
Qed.

Lemma intersect_roots_reads t ps common :
  sound t -> (forall p, p ∈ ps -> p ∈ V /\ roots_stored find rank (t_odb t) p) ->
  reads [] t (intersect_roots common (roots_id <$> ps)) (shares common ps).
Proof.
  revert t common. induction ps as [|p ps IH]; intros t common Hs Hps; [by apply reads_ret|].
  rewrite fmap_cons. cbn [intersect_roots shares]. case_decide as Hc; [by apply reads_ret|].
  destruct (Hps p ltac:(left)) as [Hp Hst].
  eapply reads_bind; [by apply read_roots_reads|]. intros t1 Hs1 [Eo _].
  apply IH; [done|]. intros q Hq. rewrite Eo. apply Hps. by right.
Qed.

(** Commits have a common ancestor if they have a common root. *)
Lemma common_root ps :
  (forall p, p ∈ ps -> p ∈ V) -> ps ≠ [] ->
  (exists r, forall p, p ∈ ps -> r ∈ roots_of p) <-> exists a, forall p, p ∈ ps -> ancestor find p a.
Proof.
  intros HV Hne. split.
  - intros (r & Hr). exists r. intros p Hp.
    by apply (roots_of_spec find V rank graph_hist p (HV p Hp)), Hr.
  - intros (a & Ha). destruct ps as [|p0 ps]; [done|].
    assert (a ∈ V) as HaV.
    { pose proof (Ha p0 ltac:(left)) as Hp0. pose proof (HV p0 ltac:(left)) as HpV.
      clear - Hgraph Hp0 HpV. induction Hp0 as [|x y z Hxy _ IH]; [done|]. apply IH.
      by eapply (step_down_inside find V rank graph_hist). }
    destruct (root_exists find V rank graph_hist a HaV) as (r & Hr & Er). exists r. intros p Hp.
    apply (roots_of_spec find V rank graph_hist p (HV p Hp)). split; [|done].
    unfold ancestor in *. transitivity a; [by apply Ha|done].
Qed.

(** Commits with the same blob of roots share a root. *)
Lemma equal_ids_share p0 ps :
  (forall p, p ∈ p0 :: ps -> p ∈ V) ->
  forallb (fun b => bool_decide (b = roots_id p0)) (roots_id <$> ps) = true ->
  exists r, forall p, p ∈ p0 :: ps -> r ∈ roots_of p.
Proof.
  intros HV Hall. assert (p0 ∈ V) as HV0 by (apply HV; left).
  destruct (root_exists find V rank graph_hist p0 HV0) as (r & Hr & Er).
  exists r. intros p Hp. assert (roots_of p = roots_of p0) as ->.
  { apply elem_of_cons in Hp as [->|Hp]; [done|].
    apply (roots_ids_inj find V rank Hgraph); [apply HV; by right|done|].
    rewrite forallb_forall in Hall. specialize (Hall (roots_id p)).
    rewrite bool_decide_eq_true in Hall. apply Hall. by apply list_elem_of_In, list_elem_of_fmap_2. }
  by apply (roots_of_spec find V rank graph_hist p0 HV0).
Qed.

Lemma read_and_intersect t p0 ps :
  sound t -> (forall p, p ∈ p0 :: ps -> p ∈ V /\ roots_stored find rank (t_odb t) p) ->
  reads [] t (roots ← read_roots_blob (roots_id p0); intersect_roots (set_extend [] roots) (roots_id <$> ps))
    (shares (set_extend [] (roots_of p0)) ps).
Proof.
  intros Hs Hst. eapply reads_bind.
  { apply read_roots_reads; [done|done|apply Hst; left..]. }
  intros t' Hs' [Eo _]. apply intersect_roots_reads; [done|]. intros q Hq. rewrite Eo. apply Hst. by right.
Qed.

(** The answer for commits that are stored. *)
Lemma share_root_gives t ps n :
  sound t -> ps ≠ [] -> (zero_oid ∉ ps) -> (forall p, p ∈ ps -> held t p) -> graph_fuel <= n ->
  gives t (parents_share_root n ps) (related ps) (fun _ => True).
Proof.
  intros Hs Hne Hz Hheld Hn. unfold parents_share_root.
  destruct (bool_decide (ps = []) || existsb _ ps) eqn:E.
  { apply orb_true_iff in E as [E%bool_decide_eq_true|E]; [done|].
    apply existsb_exists in E as (x & Hx%list_elem_of_In & ->%bool_decide_eq_true). done. }
  assert (forall p, p ∈ ps -> p ∈ V) as HV by (intros p Hp; by apply Hheld).
  eapply gives_bind; [by apply parent_blobs_gives|]. intros t1 Hs1 _ Hb1.
  assert (forall p, p ∈ ps -> p ∈ V /\ roots_stored find rank (t_odb t1) p) as Hst.
  { intros p Hp. split; [by apply HV|]. apply (has_roots_stored find V rank); auto. }
  destruct ps as [|p0 ps]; [done|]. rewrite fmap_cons. cbn [forallb].
  rewrite bool_decide_true by done. cbn [andb]. case_match eqn:Hall.
  - replace (related (p0 :: ps)) with true; [by apply gives_ret|]. symmetry. apply related_roots.
    split; [done|]. by apply equal_ids_share.
  - replace (related (p0 :: ps)) with (shares (set_extend [] (roots_of p0)) ps).
    { eapply gives_weaken; [by apply reads_gives, read_and_intersect|done]. }
    apply eq_true_iff_eq. rewrite shares_spec, related_roots. setoid_rewrite elem_of_set_extend. split.
    + intros (r & [Hr|Hr] & Hall'); [by apply not_elem_of_nil in Hr|]. split; [done|].
      exists r. intros p [->|Hp]%elem_of_cons; auto.
    + intros (_ & r & Hr). exists r. split; [right; apply Hr; left|]. intros p Hp. apply Hr. by right.
Qed.

(** C36: Whether commits share history.  For commits of the history, or the zero id that stands
    for nothing, [parents_share_root] ends and says yes exactly if there is at least one
    commit, none is the zero id, and all of them have a common ancestor; equal root blobs are
    a shortcut that does not change the answer. *)
Theorem parents_share_root_correct (t : txn B) (ps : list oid) (n : nat) :
  sound t -> (forall p, p ∈ ps -> p = zero_oid \/ held t p) -> graph_fuel <= n ->
  exists b t', parents_share_root n ps t = (Ok b, t') /\ sound t' /\
    (b = true <-> ps ≠ [] /\ (zero_oid ∉ ps) /\ exists a, forall p, p ∈ ps -> ancestor find p a).
Proof.
  intros Hs Hps Hn. destruct (decide (ps = [] \/ zero_oid ∈ ps)) as [Hno|Hyes].
  - exists false, t. unfold parents_share_root. split; [|split; [done|naive_solver]].
    replace (bool_decide (ps = []) || _) with true; [done|]. symmetry. apply orb_true_iff.
    destruct Hno as [->|Hz]; [by left|right]. apply existsb_exists. exists zero_oid.
    split; [by apply list_elem_of_In|by apply bool_decide_eq_true].
  - assert (ps ≠ [] /\ (zero_oid ∉ ps)) as [Hne Hz] by tauto.
    assert (forall p, p ∈ ps -> held t p) as Hheld by (intros p Hp; destruct (Hps p Hp) as [->|?]; done).
    destruct (share_root_gives t ps n Hs Hne Hz Hheld Hn) as (t' & E & Hs' & _).
    exists (related ps), t'. split; [done|]. split; [done|].
    rewrite related_roots, common_root; [naive_solver|intros p Hp; by apply Hheld|done].
Qed.

(** * Ranges *)

(** C35: Ranges ranked by the history graph.  Walking [base..tip] with the sequence numbers
    that the caches compute on the way yields, from every sound state that stores the two
    commits, exactly the commits of the range, children before parents, and leaves the caches
    sound. *)
Theorem range_by_history (t : txn B) (tip base : oid) (n m : nat) :
  sound t -> held t tip -> held t base -> graph_fuel <= n -> base.size V < m ->
  exists l t', RangeWalk.into_topo_vec (try_find (t_odb t)) (compute_sequence_number n) m tip base t = (Ok l, t') /\
    sound t' /\ is_range (try_find (t_odb t)) tip base l.
Proof.
  intros Hs Ht Hb Hn Hm. pose proof (held_history find V rank Hgraph t Hs) as Hfh.
  destruct (range_walk (sound_with (held_set find V t)) (try_find (t_odb t)) (compute_sequence_number n)
    (fun c => sequence_number (hint_of c)) (held_set find V t)) with (tip := tip) (base := base) (n := m)
    as (l & Hl & Hr).
  - split.
    + apply (stored_commit _ _ _ Hfh).
    + intros c p Hc Hp. by apply (history_parent _ _ _ Hfh c p).
    + intros c Hc. by apply (ensure_computes _ (fun h => sequence_number h.1)).
    + intros c p Hc%elem_of_held Hp. rewrite (found_parents find V t c Hc) in Hp.
      apply (hint_of_spec find V rank graph_hist graph_small); [apply Hc| |done].
      intros E. rewrite E in Hp. by apply not_elem_of_nil in Hp.
  - by apply elem_of_held.
  - by apply elem_of_held.
  - eapply Nat.le_lt_trans; [apply subseteq_size, held_set_inside|done].
  - destruct (Hl t) as [E [Hs' _]]; [split; [done|]; intros c; by rewrite elem_of_held|].
    exists l, (RangeWalk.into_topo_vec (try_find (t_odb t)) (compute_sequence_number n) m tip base t).2.
    split; [|done]. rewrite <- E. by destruct (RangeWalk.into_topo_vec _ _ _ _ _ _).
Qed.

End Laws.

(** * Records that survive *)

Section Records.
Context `{ObjectHash} `{FilterSpec}.
Context (find : oid -> option object) (V : gset oid) (rank : oid -> nat).
Hypothesis Hgraph : graph_ok find V rank.

Abbreviation hint_of := (hint_of find rank).
Abbreviation sound := (sound (B := sled_state) find V rank).
Abbreviation graph_fuel := (graph_fuel find V).

Lemma record_hint_gives (t : txn sled_state) f c n :
  sound t -> held find V t c -> graph_fuel <= n ->
  gives find V rank t (record_hint n (Real f) c) (hint_of c) (fun _ => True).
Proof.
  intros Hs Hc Hn. unfold record_hint, compute_history_hint. simpl.
  eapply gives_bind; [by apply ensure_gives|]. intros t1 Hs1 _ _. by apply gives_ret.
Qed.

(** Learning a record under a real filter keeps a state sound. *)
Lemma real_learned_sound (t : txn sled_state) f c v l :
  sound t -> Forall2 (learned (Real f) c v) (cache t) l -> sound (set_cache l t).
Proof.
  intros [S1 S2 S3 S4 S5] Hl. split; [done|done|by eapply learned_all_ok|done|].
  eapply (learned_sound (B := sled_state) find V rank Hgraph (Real f) c v); [exact Hl|done|exact S5].
Qed.

(** A record that the map or the stack has is returned. *)
Lemma lookup_real (t : txn sled_state) h f c v :
  sound t -> c ∈ V -> is_oid v = true ->
  map_get (commit_map t) (Real f) c = Some v \/
  map_get (commit_map t) (Real f) c = None /\ stack_view (cache t) (Real f) c h false = Some v /\
    (v = zero_oid \/ odb_contains (t_odb t) v = true) ->
  exists t', lookup_record h (Real f) c t = (Ok (Some v), t') /\ sound t'.
Proof.
  intros Hs Hc Hv. unfold lookup_record, mbind, M_bind, gets. intros [->|(-> & Hst & Hin)]; [by exists t|].
  destruct (read_propagate_view (Real f) c h false (cache t)) as (l & E & Hl).
  { by apply (sound_stack _ _ _ t Hs). } { by apply (graph_ids _ _ _ Hgraph). }
  { intros w. rewrite Hst. by intros [= <-]. }
  rewrite Hst in E, Hl. exists (set_cache l t). unfold on_cache. rewrite E.
  split; [|by eapply real_learned_sound]. case_decide; [done|]. destruct Hin as [|Hin]; [done|].
  rewrite decide_False by done. simpl. by rewrite Hin.
Qed.

Lemma get_real (t : txn sled_state) f c v n :
  sound t -> held find V t c -> f ≠ to_filter Op.Nop -> is_oid v = true -> graph_fuel <= n ->
  map_get (commit_map t) (Real f) c = Some v \/
  map_get (commit_map t) (Real f) c = None /\ stack_view (cache t) (Real f) c (hint_of c) false = Some v /\
    (v = zero_oid \/ odb_contains (t_odb t) v = true) ->
  exists t', get n (Real f) c t = (Ok (Some v), t') /\ sound t'.
Proof.
  intros Hs Hc Hf Hv Hn Hin.
  destruct (record_hint_gives t f c n Hs Hc Hn) as (t1 & E1 & Hs1 & (_ & Hcont & _ & _ & Km & Kv) & _).
  destruct (lookup_real t1 (hint_of c) f c v Hs1 (proj1 Hc) Hv) as (t2 & E2 & Hs2).
  { rewrite Km, Kv by (by apply (graph_ids _ _ _ Hgraph), Hc). destruct Hin as [?|(? & ? & [?|?])]; auto 6. }
  exists t2. split; [|done]. unfold get, or_miss, get2, mbind, M_bind.
  cbn [cache_filter_is_nop]. rewrite bool_decide_false by done. by rewrite E1, E2.
Qed.

(** Writing to a stack of on-disk caches. *)
Lemma write_all_shows f c v h k (l l' : list sled_state) :
  stack_ok l -> l ≠ [] -> is_oid v = true -> CacheStack.write_all f c v h k l = (Ok tt, l') ->
  exists s l2, l' = s :: l2 /\ forall h' k', sled_view s f c h' k' = Some v.
Proof.
  intros Hl Hne Hv E. destruct l as [|s l]; [done|]. apply Forall_cons in Hl as [Hs _].
  simpl in E. destruct (sled_write f c v h k s) as [[[]|e|] s'] eqn:Es; try done.
  destruct (CacheStack.write_all f c v h k l) as [r l2]. injection E as -> <-. exists s', l2. split; [done|].
  intros h' k'. by apply (sled_write_shows s f c v h k s' h' k').
Qed.

Lemma insert_real (t : txn sled_state) f c v store n :
  sound t -> held find V t c -> is_oid v = true -> cache t ≠ [] -> graph_fuel <= n ->
  exists t', insert n (Real f) c v store t = (Ok tt, t') /\ sound t' /\
    map_get (commit_map t') (Real f) c = Some v /\
    (store || is_sample_point (hint_of c) = true ->
     exists s1 l1, cache t' = s1 :: l1 /\ forall h k, sled_view s1 (Real f) c h k = Some v) /\ held find V t' c.
Proof.
  intros Hs Hc Hv Hne Hn.
  destruct (record_hint_gives t f c n Hs Hc Hn) as (t1 & E1 & Hs1 & Hl1 & _).
  pose proof (held_later find V rank Hgraph t t1 c Hl1 Hc) as Hc1. destruct Hl1 as (_ & _ & _ & Hlen & _).
  set (t2 := map_commit (Real f) c v t1).
  assert (sound t2) as Hs2.
  { destruct Hs1 as [S1 S2 S3 S4 S5]. split; try done. intros g c' w Hc' Hg. simpl.
    rewrite decide_False; [by apply S4|]. by intros [-> _]. }
  unfold insert, insert_record, mbind, M_bind, modify. rewrite E1. fold t2.
  assert (map_get (commit_map t2) (Real f) c = Some v) as Hm by (simpl; by rewrite decide_True).
  destruct (store || is_sample_point (hint_of c)); [|by exists t2].
  destruct (write_all_learned (Real f) c v (hint_of c) false (cache t2)) as (l & E & Hl).
  { apply (sound_stack _ _ _ t2 Hs2). } { by apply (graph_ids _ _ _ Hgraph), Hc. } { done. }
  exists (set_cache l t2). unfold on_cache. rewrite E. split; [done|].
  split; [by eapply real_learned_sound|]. split; [done|]. split; [|done]. intros _.
  apply (write_all_shows (Real f) c v (hint_of c) false (cache t2)); [|intros En|done|done].
  - apply (sound_stack _ _ _ t2 Hs2).
  - apply Hne, length_zero_iff_nil. rewrite <- Hlen. simpl in En. by rewrite En.
Qed.

(** Another transaction over the same database, after it has been closed. *)
Definition next_transaction (t : txn sled_state) : txn sled_state :=
  Txn (t_odb t) [] ((fun s => begin (end_ s)) <$> cache t) [] 0 0.

Lemma next_transaction_sound t : sound t -> sound (next_transaction t).
Proof.
  intros [S1 S2 S3 S4 S5]. split; [done|done| |done|].
  - apply Forall_fmap. eapply Forall_impl; [exact S3|]. intros s Hs. by apply begin_ok, end_ok.
  - intros b f c h k v (s & -> & Hb)%list_elem_of_fmap Hc Hf Hv. apply (S5 s f c h k v Hb Hc Hf).
    revert Hv. change (backend_view (begin (end_ s))) with (sled_view (begin (end_ s))). by rewrite begin_view, end_view.
Qed.

(** C24: A record outlives its transaction.  Inserting the result of a filter for a commit
    succeeds from every sound state; the transaction gets it back; and if it was to be stored,
    or the commit is a sample point, every later transaction gets it back: whatever transactions
    have begun, ended, closed and opened the database again, read and written in between, as
    long as none wrote another result for this commit under a filter of the same text, and the
    result itself is in the object database of the later transaction. *)
Theorem insert_survives (t : txn sled_state) (f : filter) (c v : oid) (store : bool) (n : nat) :
  sound t -> held find V t c -> f ≠ to_filter Op.Nop -> is_oid v = true -> cache t ≠ [] -> graph_fuel <= n ->
  exists t1, insert n (Real f) c v store t = (Ok tt, t1) /\ sound t1 /\
    (exists t2, get n (Real f) c t1 = (Ok (Some v), t2) /\ sound t2) /\
    (store || is_sample_point (hint_of c) = true ->
     exists s1 l1, cache t1 = s1 :: l1 /\
     forall t' s' l', cache t' = s' :: l' -> sled_later (Real f) c v s1 s' ->
       sound t' -> held find V t' c -> commit_map t' = [] -> odb_contains (t_odb t') v = true ->
       exists t2, get n (Real f) c t' = (Ok (Some v), t2) /\ sound t2).
Proof.
  intros Hs Hc Hf Hv Hne Hn.
  destruct (insert_real t f c v store n Hs Hc Hv Hne Hn) as (t1 & E1 & Hs1 & Hm & Hst & Hc1).
  exists t1. split; [done|]. split; [done|]. split; [apply get_real; auto|]. intros Hstore.
  destruct (Hst Hstore) as (s1 & l1 & Ec1 & Hview). exists s1, l1. split; [done|].
  intros t' s' l' Ec' Hlater Hs' Hh' Hm' Hin. apply get_real; try done. right. rewrite Hm', Ec'.
  split; [done|]. split; [|by right]. pose proof (sound_stack _ _ _ t1 Hs1) as Hok. rewrite Ec1 in Hok.
  apply Forall_cons in Hok as [Hok _].
  destruct (sled_later_keeps (Real f) c v s1 s' (hint_of c) false) as [_ Hv']; try done.
  { by apply (graph_ids _ _ _ Hgraph), Hc. }
  cbn [stack_view backend_view]. change (backend_view s') with (sled_view s'). by rewrite Hv'.
Qed.

End Records.

(** * An example history *)

(** A merge [d] of [b] and [c], both on top of the root [a], with ids of twenty bytes. *)
Definition id_of (byte : ascii) : oid := hex (foldr String EmptyString (replicate 20 byte)).
Definition id_a : oid := id_of "010".
Definition id_b : oid := id_of "011".
Definition id_c : oid := id_of "012".
Definition id_d : oid := id_of "013".

Definition commit_a : object := bare_commit [].
Definition commit_b : object := OCommit (Commit "b" [id_a] "" "" None "" []).
Definition commit_c : object := OCommit (Commit "c" [id_a] "" "" None "" []).
Definition commit_d : object := bare_commit [id_b; id_c].
Definition roots_a : object := OBlob (roots_bytes [id_a]).

(** Addresses of twenty bytes for the objects of the example, and codes for all others. *)
Definition example_names : list (object * oid) :=
  [(commit_a, id_a); (commit_b, id_b); (commit_c, id_c); (commit_d, id_d); (roots_a, id_of "014")].

#[local] Instance example_object_hash : ObjectHash := named_hash example_names eq_refl.

#[local] Existing Instances text_readers text_json.
#[local] Instance example_spec : FilterSpec := flang_spec.

Definition example_store : odb := store_of [commit_a; commit_b; commit_c; commit_d].
Definition example_find (id : oid) : option object := try_find example_store id.
Definition example_commits : gset oid := {[id_a; id_b; id_c; id_d]}.
Definition example_rank (id : oid) : nat :=
  if decide (id = id_d) then 2 else if decide (id = id_a) then 0 else 1.

Lemma example_commit_cases c : c ∈ example_commits -> c = id_a \/ c = id_b \/ c = id_c \/ c = id_d.
Proof. unfold example_commits. set_solver. Qed.

Lemma example_history : history example_find example_commits example_rank.
Proof.
  split; intros c; [intros [->|[->|[->| ->]]]%example_commit_cases; by eexists|..];
    (intros k p [->|[->|[->| ->]]]%example_commit_cases Hk Hp; vm_compute in Hk; injection Hk as <-;
     simpl in Hp;
     repeat first [apply not_elem_of_nil in Hp; done|apply elem_of_cons in Hp as [->|Hp]]);
    vm_compute; (done || lia).
Qed.

Lemma example_graph : graph_ok example_find example_commits example_rank.
Proof.
  split; [apply example_history|..];
    intros c [->|[->|[->| ->]]]%example_commit_cases; vm_compute; done.
Qed.

(** A transaction with an empty on-disk cache. *)
Definition example_sled : sled_state := Sled (Some "cache") None [] 0 ∅ false.
Definition example_txn : txn sled_state := Txn example_store [] [example_sled] [] 0 0.

Lemma example_sound : sound example_find example_commits example_rank example_txn.
Proof.
  split.
  - apply store_of_ok.
  - intros c p [Hc _] Hp. split; [|done]. by eapply history_parent; [apply example_history|..].
  - apply Forall_singleton. split; [|done|done]. exists "cache". split; [done|]. split; [by left|].
    intros f h Hin. by apply not_elem_of_nil in Hin.
  - done.
  - intros b f c h k v ->%list_elem_of_singleton _ _ E. done.
Qed.

Lemma collect_history_graph_info_correct_witness :
  exists seq roots t', collect_history_graph_info 20 id_d example_txn = (Ok (Info seq roots), t') /\
    sound example_find example_commits example_rank t' /\
    (exists r, nsteps (step_down example_find) (Z.to_nat seq) id_d r /\ parents_of example_find r = []) /\
    (forall m d, nsteps (step_down example_find) m id_d d -> (Z.of_nat m <= seq)%Z) /\
    StronglySorted before roots /\
    (forall r, r ∈ roots <-> ancestor example_find id_d r /\ parents_of example_find r = []).
Proof.
  apply (collect_history_graph_info_correct example_find example_commits example_rank example_graph
    example_txn id_d 20).
  - apply example_sound.
  - by split.
  - vm_compute. lia.
Defined.

Lemma sample_points_bound_walks_witness :
  exists d h, d ∈ take (Z.to_nat SAMPLE_INTERVAL) [id_d; id_b; id_a] /\
    computes (sound_with (B := sled_state) example_find example_commits example_rank {[d]})
      (compute_history_hint 20 d) (Ok h) /\ is_sample_point h = true.
Proof.
  apply (sample_points_bound_walks (B := sled_state) example_find example_commits example_rank example_graph
    id_d [id_b; id_a] 20).
  - vm_compute. done.
  - split; [left|]. split; [left|done].
  - right. exists id_a. by vm_compute.
  - vm_compute. lia.
Defined.

Lemma parents_share_root_correct_witness :
  exists b t', parents_share_root 20 [id_b; id_c] example_txn = (Ok b, t') /\
    sound example_find example_commits example_rank t' /\
    (b = true <-> [id_b; id_c] ≠ [] /\ (zero_oid ∉ [id_b; id_c]) /\
      exists a, forall p, p ∈ [id_b; id_c] -> ancestor example_find p a).
Proof.
  apply (parents_share_root_correct example_find example_commits example_rank example_graph
    example_txn [id_b; id_c] 20).
  - apply example_sound.
  - intros p Hp. right. split; [|done]. unfold example_commits. set_solver.
  - vm_compute. lia.
Defined.

Lemma range_by_history_witness :
  exists l t', RangeWalk.into_topo_vec (try_find (t_odb example_txn)) (compute_sequence_number 20) 5
      id_d id_b example_txn = (Ok l, t') /\
    sound example_find example_commits example_rank t' /\ is_range (try_find (t_odb example_txn)) id_d id_b l.
Proof.
  apply (range_by_history example_find example_commits example_rank example_graph
    example_txn id_d id_b 20 5).
  - apply example_sound.
  - by split.
  - by split.
  - vm_compute. lia.
  - vm_compute. lia.
Defined.

(** The record is there after the transaction has ended and another one has begun. *)
Lemma insert_survives_witness :
  exists t1, insert 20 (Real (to_filter Op.Empty)) id_d id_a true example_txn = (Ok tt, t1) /\
    exists t2, get 20 (Real (to_filter Op.Empty)) id_d (next_transaction t1) = (Ok (Some id_a), t2).
Proof.
  destruct (insert_survives example_find example_commits example_rank example_graph example_txn
    (to_filter Op.Empty) id_d id_a true 20) as (t1 & E1 & Hs1 & _ & Hlater).
  - apply example_sound.
  - by split.
  - done.
  - vm_compute. done.
  - done.
  - vm_compute. lia.
  - destruct (Hlater eq_refl) as (s1 & l1 & Ec & Hget). exists t1. split; [exact E1|].
    destruct (Hget (next_transaction t1) (begin (end_ s1)) ((fun s => begin (end_ s)) <$> l1)) as (t2 & E2 & _).
    + unfold next_transaction. cbn [cache]. by rewrite Ec.
    + eapply rtc_l; [apply later_end|]. eapply rtc_l; [apply later_begin|]. apply rtc_refl.
    + apply next_transaction_sound, Hs1.
    + vm_compute in E1. injection E1 as <-. by split.
    + reflexivity.
    + vm_compute in E1. injection E1 as <-. reflexivity.
    + exists t2. exact E2.
Defined.
