(* ===== verification/CommitFacts.v ===== *)
(** Applying a filter to a commit computes the filtered commit: from every sound state of the
    object database, the memo tables and the caches of commits, the code of Rewriting and Commits
    returns the commit that FilteredHistory assigns, and leaves the state sound. *)

From S2P Require Import Prelude Path Objects Store RevWalk RevWalkFacts RangeWalkFacts HistoryHint.
From S2P Require Import CommitCache HistoryGraph HistoryTruth HistoryGraphFacts RecordFacts HistoryLaws.
From S2P Require Import OptState Invert Step Builders Utf8 Glob Pattern Persist TreeOps TreePaths TreeWalk.
From S2P Require Import Node NodeFacts Refine NodeKeys GraphMerge Apply Trailers Rewriting Commits Denote.
From S2P Require Import ApplyFacts FilteredHistory Ops.

Open Scope nat_scope.

(** * The setting *)

(** Filters whose effect on a commit is given by the effect on its tree. *)
Definition per_tree (f : filter) : bool :=
  match peel_filter f with
  | Op.Nop | Op.Subdir _ | Op.Prefix _ | Op.File _ _ | Op.Pattern _ | Op.Exclude _ | Op.Select _
  | Op.Subtract _ _ | Op.Compose _ | Op.Pin _ => true
  | _ => false
  end.

Definition linear_history (f : filter) : bool :=
  history_flag (btree_get "history" (Filter.into_meta f)) "linear".

Section CommitFacts.
Context `{ObjectHash} `{BisectEntry} `{EntryModes} `{RegexReplace} `{Readers} `{FilterText}.
Context `{!Collaborators} `{GlobKeys} `{Signatures} `{Gix} {B : Type} `{LawfulBackend B}.
Context (known : string -> bool).
Context (find0 : oid -> option object) (V : gset oid) (rank : oid -> nat) (tree_of : oid -> node).
(** The filters that are applied, and to which commits. *)
Context (stages : list filter) (dom : filter -> gset oid).

Abbreviation world := (world B).
Abbreviation wm := (M world).
Abbreviation filtered := (filtered find0 rank tree_of).
Abbreviation filtered_tree := (filtered_tree tree_of).
Abbreviation tree_id_of := (tree_id_of find0).
Abbreviation held := (held (B := B) find0 V).

Record stage_ok (f : filter) : Prop := {
  stage_filter : tree_filter known f = true;
  stage_per_tree : per_tree f = true;
  stage_not_linear : linear_history f = false;
  stage_not_nop : f ≠ to_filter Op.Nop;
  stage_id : is_ok (filter_id (S (size f)) f) = true;
  stage_universe : universe find0 V rank tree_of f (dom f);
}.

(** A history with the trees of its commits, all under their addresses, in which the filters
    have their results; the caches tell the filters apart. *)
Record repository_ok : Prop := {
  repo_graph : graph_ok find0 V rank;
  repo_named c x : c ∈ V -> find0 c = Some x -> c = compute_hash x;
  repo_trees : trees_ok find0 V tree_of;
  repo_patterns glob : known glob = true -> pattern_known glob;
  repo_stages f : f ∈ stages -> stage_ok f;
  repo_alias f g : f ∈ stages -> g ∈ stages -> alias (Real f) (Real g) -> f = g;
}.
Hypothesis Hrepo : repository_ok.

Definition right (f : filter) (c : oid) : option oid :=
  if decide (f ∈ stages /\ c ∈ dom f) then Some (filtered f c) else None.

Abbreviation tracked := (tracked (B := B) find0 V rank right).
Abbreviation grows := (grows (B := B) find0 V rank right).
Abbreviation quiet := (quiet (B := B) find0 V rank right).
Abbreviation recorded := (recorded (B := B) find0 rank right).
Abbreviation graph_fuel := (graph_fuel find0 V).

Lemma repo_history : history find0 V rank.
Proof. apply (graph_history _ _ _ (repo_graph Hrepo)). Qed.

Lemma right_eq f c : f ∈ stages -> c ∈ dom f -> right f c = Some (filtered f c).
Proof. intros Hf Hc. unfold right. by rewrite decide_True. Qed.

Lemma right_inv f c v : right f c = Some v -> f ∈ stages /\ c ∈ dom f /\ v = filtered f c.
Proof. unfold right. case_decide as Hd; [|done]. destruct Hd. by intros [= <-]. Qed.

Lemma dom_inside f c : f ∈ stages -> c ∈ dom f -> c ∈ V.
Proof. intros Hf. apply (u_inside _ _ _ _ _ _ (stage_universe f (repo_stages Hrepo f Hf))). Qed.

Lemma filtered_value f c :
  f ∈ stages -> c ∈ dom f ->
  filtered f c = zero_oid /\ filtered_tree f c = nempty \/
  filtered f c ∈ V /\ tree_of (filtered f c) = filtered_tree f c.
Proof.
  intros Hf Hc. destruct (repo_stages Hrepo f Hf) as [Kf _ _ _ _ Hu].
  by apply (filtered_has_tree find0 V rank tree_of repo_history (repo_trees Hrepo) known f (dom f)).
Qed.

Lemma rights : right_ok (B := B) find0 V right.
Proof.
  split.
  - apply (repo_named Hrepo).
  - intros f c v (Hf & Hc & ->)%right_inv. split; [by eapply dom_inside|].
    destruct (filtered_value f c Hf Hc) as [[? _]|[? _]]; auto.
  - intros f c v (Hf & _)%right_inv. by apply (repo_stages Hrepo).
  - intros f g c v w Ha (Hf & _)%right_inv (Hg & _)%right_inv. by apply (repo_alias Hrepo).
Qed.

(** * Sound states *)

Record w_sound (w : world) : Prop := {
  ws_ok : w_ok known (kept_of w) w;
  ws_tracked : tracked (txn_of w);
  ws_trees c : held (txn_of w) c -> present (w_odb w) (tree_of c);
  ws_last id tree :
    last_written_commit w = Some (id, tree) -> exists k, id = compute_hash (OCommit k) /\ tree = commit_tree k;
}.

Lemma ws_sound w : w_sound w -> sound find0 V rank (txn_of w).
Proof. intros [_ [Hs _ _ _] _ _]. exact Hs. Qed.

(** States that grow in objects and records; the table of optimized filters is kept. *)
Definition w_grows (w w' : world) : Prop :=
  grows (txn_of w) (txn_of w') /\ OPTIMIZED (w_caches w') = OPTIMIZED (w_caches w).

(** States with the same commits and records. *)
Definition w_quiet (w w' : world) : Prop :=
  quiet (txn_of w) (txn_of w') /\ OPTIMIZED (w_caches w') = OPTIMIZED (w_caches w).

#[export] Instance w_grows_preorder : PreOrder w_grows.
Proof.
  split; [by split|]. intros w1 w2 w3 [G1 O1] [G2 O2]. split; [by transitivity (txn_of w2)|congruence].
Qed.

#[export] Instance w_quiet_preorder : PreOrder w_quiet.
Proof.
  split; [by split|]. intros w1 w2 w3 [G1 O1] [G2 O2]. split; [by transitivity (txn_of w2)|congruence].
Qed.

Lemma w_quiet_grows w w' : w_quiet w w' -> w_grows w w'.
Proof. intros [Hq Ho]. split; [apply Hq|done]. Qed.

(** [m] returns [a] from [w], in a sound state that has grown, with [Q]. *)
Definition does {A} (w : world) (m : wm A) (a : A) (Q : world -> Prop) : Prop :=
  exists w', m w = (Ok a, w') /\ w_sound w' /\ w_grows w w' /\ Q w'.

(** The same, for a computation that adds no commit and no record. *)
Definition looks {A} (w : world) (m : wm A) (a : A) (Q : world -> Prop) : Prop :=
  exists w', m w = (Ok a, w') /\ w_sound w' /\ w_quiet w w' /\ Q w'.

Lemma does_bind {A C} w (m : wm A) (k : A -> wm C) a c Q R :
  does w m a Q -> (forall w', w_sound w' -> w_grows w w' -> Q w' -> does w' (k a) c R) ->
  does w (m ≫= k) c R.
Proof.
  intros (w1 & E1 & Hs1 & Hg1 & HQ) Hk. destruct (Hk w1 Hs1 Hg1 HQ) as (w2 & E2 & Hs2 & Hg2 & HR).
  exists w2. unfold mbind, M_bind. rewrite E1. split; [done|]. split; [done|]. split; [|done].
  by transitivity w1.
Qed.

Lemma looks_bind {A C} w (m : wm A) (k : A -> wm C) a c Q R :
  looks w m a Q -> (forall w', w_sound w' -> w_quiet w w' -> Q w' -> looks w' (k a) c R) ->
  looks w (m ≫= k) c R.
Proof.
  intros (w1 & E1 & Hs1 & Hg1 & HQ) Hk. destruct (Hk w1 Hs1 Hg1 HQ) as (w2 & E2 & Hs2 & Hg2 & HR).
  exists w2. unfold mbind, M_bind. rewrite E1. split; [done|]. split; [done|]. split; [|done].
  by transitivity w1.
Qed.

Lemma looks_run {A} w (m : wm A) a w1 :
  m w = (Ok a, w1) -> w_sound w1 -> w_quiet w w1 -> looks w m a (fun w' => w' = w1).
Proof. intros E Hs Hq. by exists w1. Qed.

Lemma looks_does {A} w (m : wm A) a Q : looks w m a Q -> does w m a (fun w' => w_quiet w w' /\ Q w').
Proof. intros (w' & E & Hs & Hq & HQ). exists w'. eauto 10 using w_quiet_grows. Qed.

(** A look at the state, and then a computation. *)
Lemma look_bind {A C} w (m : wm A) (k : A -> wm C) a c Q R :
  looks w m a Q -> (forall w', w_sound w' -> w_quiet w w' -> Q w' -> does w' (k a) c R) ->
  does w (m ≫= k) c R.
Proof. intros Hm Hk. eapply does_bind; [by apply looks_does|]. intros w' Hs _ [Hq HQ]. by apply Hk. Qed.

Lemma does_ret {A} w (a : A) (Q : world -> Prop) : w_sound w -> Q w -> does w (mret a) a Q.
Proof. intros Hs HQ. by exists w. Qed.

Lemma looks_ret {A} w (a : A) (Q : world -> Prop) : w_sound w -> Q w -> looks w (mret a) a Q.
Proof. intros Hs HQ. by exists w. Qed.

Lemma does_weaken {A} w (m : wm A) a (Q R : world -> Prop) :
  does w m a Q -> (forall w', w_sound w' -> w_grows w w' -> Q w' -> R w') -> does w m a R.
Proof. intros (w' & E & Hs & Hg & HQ) HR. exists w'. eauto 10. Qed.

Lemma looks_weaken {A} w (m : wm A) a (Q R : world -> Prop) :
  looks w m a Q -> (forall w', w_sound w' -> w_quiet w w' -> Q w' -> R w') -> looks w m a R.
Proof. intros (w' & E & Hs & Hg & HQ) HR. exists w'. eauto 10. Qed.

Lemma does_gets {A C} w (g : world -> A) (k : A -> wm C) c R :
  does w (k (g w)) c R -> does w (gets g ≫= k) c R.
Proof. by intros (w' & E & ?); exists w'. Qed.

Lemma looks_gets {A C} w (g : world -> A) (k : A -> wm C) c R :
  looks w (k (g w)) c R -> looks w (gets g ≫= k) c R.
Proof. by intros (w' & E & ?); exists w'. Qed.

Lemma held_grows w w' c : w_grows w w' -> held (txn_of w) c -> held (txn_of w') c.
Proof. intros [Hg _]. apply (grows_held _ _ _ _ _ _ Hg). Qed.

Lemma held_quiet w w' c : w_quiet w w' -> held (txn_of w') c <-> held (txn_of w) c.
Proof.
  intros [Hq _]. split; [apply (quiet_held _ _ _ _ _ _ Hq)|].
  apply (grows_held _ _ _ _ _ _ (quiet_grows _ _ _ _ _ _ Hq)).
Qed.

Lemma recorded_quiet w w' f c : w_quiet w w' -> recorded (txn_of w') f c = recorded (txn_of w) f c.
Proof. intros [Hq _]. apply (quiet_recorded _ _ _ _ _ _ Hq). Qed.

(** ** Parts of the state *)

Lemma txn_of_set t (w : world) : txn_of (set_txn t w) = t.
Proof. by destruct t. Qed.

Lemma w_ok_records w (t : txn B) :
  w_ok known (kept_of w) w -> odb_ok (t_odb t) -> odb_keeps (w_odb w) (t_odb t) ->
  w_ok known (kept_of (set_txn t w)) (set_txn t w).
Proof.
  intros [W1 W2 W3 W4 _] Ho Hk. split; [done|by apply tx_ok_with_odb|..|done]; by eapply entries_ok_keeps.
Qed.

(** A computation on the caches of commits that adds no commit. *)
Lemma set_txn_sound w t' :
  w_sound w -> tracked t' -> grows (txn_of w) t' -> (forall c, held t' c -> held (txn_of w) c) ->
  w_sound (set_txn t' w).
Proof.
  intros [Hok Ht Htr Hl] Ht' Hg Hback. pose proof (grows_odb _ _ _ _ _ _ Hg) as Hk. split.
  - apply w_ok_records; [done| |done].
    apply (sound_odb find0 V rank), (tracked_sound _ _ _ _ _ Ht').
  - by rewrite txn_of_set.
  - intros c. rewrite txn_of_set. intros Hc%Hback%Htr. by eapply present_keeps.
  - exact Hl.
Qed.

Lemma txn_does {A} w (m : M (txn B) A) a t' :
  w_sound w -> m (txn_of w) = (Ok a, t') -> tracked t' -> grows (txn_of w) t' ->
  (forall c, held t' c -> held (txn_of w) c) ->
  does w (on_txn m) a (fun w' => txn_of w' = t').
Proof.
  intros Hs E Ht' Hg Hback. exists (set_txn t' w). unfold on_txn. rewrite E. split; [done|].
  split; [by apply set_txn_sound|]. rewrite txn_of_set. split; [|done]. split; [by rewrite txn_of_set|done].
Qed.

Lemma txn_looks {A} w (m : M (txn B) A) a t' :
  w_sound w -> m (txn_of w) = (Ok a, t') -> tracked t' -> quiet (txn_of w) t' ->
  looks w (on_txn m) a (fun w' => txn_of w' = t').
Proof.
  intros Hs E Ht' Hq. exists (set_txn t' w). unfold on_txn. rewrite E. split; [done|].
  split; [apply set_txn_sound; [done..|apply Hq|apply (quiet_held _ _ _ _ _ _ Hq)]|].
  rewrite txn_of_set. split; [|done]. split; [by rewrite txn_of_set|done].
Qed.

(** Hints, for computations of the history graph. *)
Lemma gives_looks {A} w (m : M (txn B) A) a Q :
  w_sound w -> gives find0 V rank (txn_of w) m a Q ->
  looks w (on_txn m) a (fun w' => Q (txn_of w')).
Proof.
  intros Hs (t' & E & Hs' & Hl & Hk & HQ). pose proof (ws_tracked w Hs) as Ht.
  destruct (later_tracked find0 V rank (repo_graph Hrepo) right rights _ t' Ht Hs' Hl Hk) as [Ht' Hq].
  eapply looks_weaken; [by apply txn_looks|]. by intros w' _ _ ->.
Qed.

(** Applying filters to trees. *)
Lemma yields_looks {A} w (m : wm A) a Q :
  w_sound w -> wyields known (w_odb w) m a Q -> looks w m a (fun w' => Q (w_odb w')).
Proof.
  intros [Hok Ht Htr Hl] Hm. destruct (Hm _ w Hok (odb_extends_refl _)) as (w' & E & Hok' & He & HQ).
  exists w'. split; [done|]. pose proof (w_kept _ _ _ Hok') as Hkept. injection Hkept as Hr Hopt.
  assert (txn_of w' = set_odb (w_odb w') (txn_of w)) as Et by (unfold txn_of; by rewrite Hr).
  destruct (extends_tracked find0 V rank (repo_graph Hrepo) right rights (txn_of w) (w_odb w') Ht)
    as [Ht' Hq]; [by eapply w_ok_odb|done|]. rewrite <- Et in Ht', Hq.
  split; [|split; [by split|done]]. split.
  - rewrite (w_kept _ _ _ Hok'). done.
  - done.
  - intros c Hc%(quiet_held _ _ _ _ _ _ Hq)%Htr. by eapply present_extends.
  - unfold last_written_commit. rewrite Hr. apply Hl.
Qed.

(** ** Reading *)

Lemma set_tx_same (w : world) : set_tx (w_tx w) w = w.
Proof. by destruct w. Qed.

Lemma tx_reads {A} w (m : txm A) a :
  w_sound w -> m (w_tx w) = (Ok a, w_tx w) -> looks w (on_tx m) a (fun w' => w' = w).
Proof. intros Hs E. exists w. unfold on_tx. rewrite E, set_tx_same. by split. Qed.

Lemma held_commit w c : held (txn_of w) c -> exists k, find0 c = Some (OCommit k) /\
  try_find (w_odb w) c = Some (OCommit k) /\ tree_id_of c = commit_tree k.
Proof.
  intros [Hc E]. destruct (stored_commit _ _ _ repo_history c Hc) as [k Hk]. exists k.
  split; [done|]. split; [by rewrite <- Hk|]. unfold FilteredHistory.tree_id_of. by rewrite Hk.
Qed.

Lemma read_tree_id_eq w c : held (txn_of w) c -> read_tree_id c (w_tx w) = (Ok (tree_id_of c), w_tx w).
Proof.
  intros (k & _ & Hf & ->)%held_commit.
  destruct (find_odb_read _ _ _ Hf) as [src Hr]. unfold read_tree_id, mbind, M_bind, read_object.
  unfold w_odb in Hr. by rewrite Hr.
Qed.

Lemma tree_id_looks w c :
  w_sound w -> held (txn_of w) c -> looks w (on_tx (read_tree_id c)) (tree_id_of c) (fun w' => w' = w).
Proof. intros Hs Hc. apply tx_reads; [done|]. by apply read_tree_id_eq. Qed.

Lemma commit_looks w c k :
  w_sound w -> held (txn_of w) c -> find0 c = Some (OCommit k) ->
  looks w (on_tx (read_commit c)) k (fun w' => w' = w).
Proof.
  intros Hs Hc Hk. apply tx_reads; [done|]. destruct (held_commit w c Hc) as (k' & Hk' & Hf & _).
  rewrite Hk in Hk'. injection Hk' as <-. unfold read_commit. unfold w_odb in Hf. by rewrite Hf.
Qed.

Lemma held_tree w c :
  w_sound w -> held (txn_of w) c ->
  value (tree_of c) /\ tree_id_of c = node_oid (tree_of c) /\ present (w_odb w) (tree_of c).
Proof.
  intros Hs Hc. destruct (repo_trees Hrepo c (proj1 Hc)) as [Hv He]. split; [done|]. split; [done|].
  by apply (ws_trees w Hs).
Qed.

Lemma checked_looks w c k :
  w_sound w -> held (txn_of w) c -> find0 c = Some (OCommit k) ->
  looks w (read_checked c) k (fun w' => w' = w).
Proof.
  intros Hs Hc Hk. eapply looks_bind; [by apply commit_looks|]. intros w' _ _ ->. apply looks_gets.
  destruct (held_tree w c Hs Hc) as ([[_ Hn] _] & He & Hp). destruct (held_commit w c Hc) as (k' & Hk' & _ & Et).
  rewrite Hk in Hk'. injection Hk' as <-. rewrite <- Et, He. destruct (tree_of c) as [|cs]; [done|].
  apply present_find_node in Hp. unfold w_odb in Hp. unfold read_header. rewrite Hp.
  by apply looks_ret.
Qed.

(** The tree of a filtered parent, from the slot of the last written commit or the database. *)
Lemma parent_tree_looks w p :
  w_sound w -> held (txn_of w) p -> looks w (filtered_parent_tree_id p) (tree_id_of p) (fun w' => w' = w).
Proof.
  intros Hs Hp. unfold filtered_parent_tree_id. apply looks_gets.
  destruct (last_written_commit w) as [[last tree]|] eqn:El; [|by apply tree_id_looks].
  case_decide as Hd; [|by apply tree_id_looks]. subst last.
  destruct (ws_last w Hs p tree El) as (k & Ep & ->). destruct (held_commit w p Hp) as (k' & Hk' & _ & ->).
  pose proof (repo_named Hrepo p _ (proj1 Hp) Hk') as Ep'. rewrite Ep in Ep'.
  apply compute_hash_inj in Ep'. injection Ep' as <-. by apply looks_ret.
Qed.

(** ** Empty trees *)

Lemma allM_first {St A} (p : A -> M St bool) a l : allM p (a :: l) = b ← p a; if (b : bool) then allM p l else mret false.
Proof. done. Qed.

Lemma some_entry_yields o n (cs : list child) :
  wf_node (Node cs) -> cs ≠ [] -> present o (Node cs) ->
  (forall c o', c ∈ cs -> is_node (child_node c) = true -> odb_ok o' -> odb_extends o o' ->
    yields o' (is_empty_subtree n (node_oid (child_node c))) false (fun _ => True)) ->
  yields o (allM (fun e => if is_tree (mode e) then is_empty_subtree n (entry_oid e) else mret false)
    (child_entry_of <$> cs)) false (fun _ => True).
Proof.
  intros Hw Hne Hp Hrec. destruct cs as [|c cs]; [done|]. rewrite fmap_cons, allM_first.
  eapply (yields_bind o _ _ false _ (fun _ => True)); [|intros o' _ _ _; by apply yields_ret].
  pose proof (wf_child_kind _ c Hw ltac:(left)) as Hk.
  change (mode (child_entry_of c)) with (child_mode c).
  change (entry_oid (child_entry_of c)) with (node_oid (child_node c)). rewrite Hk.
  destruct (is_node (child_node c)) eqn:Hn; [|by apply yields_ret].
  apply yields_start. intros o' Hok He. apply Hrec; [left|done|done|done].
Qed.

Lemma empty_subtree_yields n o t :
  wf_node t -> is_node t = true -> t ≠ nempty -> height t <= n -> odb_ok o -> present o t ->
  yields o (is_empty_subtree n (node_oid t)) false (fun _ => True).
Proof.
  revert o t. induction n as [|n IH]; intros o t Hw Hn Hne Hh Hok Hp;
    destruct t as [|cs]; try done; [by simpl in Hh; lia|].
  cbn [is_empty_subtree]. rewrite decide_False by (by rewrite node_oid_empty).
  eapply yields_bind; [by apply attempt_runs, read_tree_bytes_yields|]. intros o1 Hok1 He1 _. simpl.
  apply some_entry_yields; [done|by intros ->|by eapply present_extends|].
  intros c o2 Hc Hcn Hok2 He2. apply IH; [by eapply wf_child|done|by eapply wf_child_not_empty| |done|].
  - pose proof (height_child cs c Hc). lia.
  - eapply present_children; [|done]. eapply present_extends; [done|]. by eapply present_extends.
Qed.

(** A well-formed tree is an empty root exactly if it is empty. *)
Lemma empty_root_yields h o t :
  wf_node t -> is_node t = true -> height t <= h -> present o t ->
  yields o (is_empty_root h (node_oid t)) (bool_decide (node_oid t = empty_id)) (fun _ => True).
Proof.
  intros Hw Hn Hh Hp. apply yields_start. intros o' Hok He. eapply present_extends in Hp; [|done].
  unfold is_empty_root. case_decide as Hd.
  { rewrite bool_decide_true by done. by apply yields_ret. }
  rewrite bool_decide_false by done. rewrite node_oid_empty in Hd by done. destruct t as [|cs]; [done|].
  eapply yields_bind; [by apply read_tree_bytes_yields|]. intros o1 Hok1 He1 _. simpl.
  apply some_entry_yields; [done|by intros ->|by eapply present_extends|].
  intros c o2 Hc Hcn Hok2 He2.
  apply empty_subtree_yields; [by eapply wf_child|done|by eapply wf_child_not_empty| |done|].
  - pose proof (height_child cs c Hc). lia.
  - eapply present_children; [|done]. eapply present_extends; [done|]. by eapply present_extends.
Qed.

(** * Writing filtered commits *)

(** A filtered commit is written. *)
Lemma write_commit_does w k :
  let id := compute_hash (OCommit k) in
  w_sound w -> id ∈ V -> find0 id = Some (OCommit k) ->
  (forall p, p ∈ commit_parents k -> held (txn_of w) p) -> present (w_odb w) (tree_of id) ->
  does w (on_tx (write_object (OCommit k))) id (fun w' => held (txn_of w') id).
Proof.
  intros id [Hok Ht Htr Hl] Hid Hk Hps Hp.
  destruct (commit_tracked find0 V rank (repo_graph Hrepo) right rights (txn_of w) k Ht Hid Hk Hps)
    as (Ht' & Hg & Hheld & Hback).
  change (t_odb (txn_of w)) with (tx_odb (w_tx w)) in Ht', Hg, Hheld, Hback.
  destruct (odb_write (tx_odb (w_tx w)) (OCommit k)) as [id' o'] eqn:E. cbn [snd] in Ht', Hg, Hheld, Hback.
  pose proof (w_ok_odb _ _ _ Hok) as Ho. pose proof E as E'.
  apply odb_write_spec in E' as (-> & Ho' & Hkeep & _); [|done].
  exists (set_tx (with_odb o' (w_tx w)) w). unfold on_tx, write_object. rewrite E. split; [done|].
  split; [|by split; [split|]].
  split; [|done| |done].
  - destruct Hok as [W1 W2 W3 W4 _]. split; [done|by apply tx_ok_with_odb|..|done]; by eapply entries_ok_keeps.
  - intros c Hc. destruct (Hback c Hc) as [->|Hc'%Htr]; by eapply present_keeps.
Qed.

Lemma last_written_does w id tree k :
  w_sound w -> id = compute_hash (OCommit k) -> tree = commit_tree k ->
  does w (modify (set_last_written_commit id tree)) tt
    (fun w' => forall c, held (txn_of w) c -> held (txn_of w') c).
Proof.
  intros [Hok Ht Htr Hl] Hid Htree. exists (set_last_written_commit id tree w). split; [done|].
  split; [|by split]. split; [|done|done|].
  - destruct Hok as [W1 W2 W3 W4 _]. by split.
  - intros id' tree' [= <- <-]. by exists k.
Qed.

(** ** Parents *)

Definition tags (ps : list oid) : list (oid * oid) := (fun p => (p, tree_id_of p)) <$> ps.

Lemma tags_fst ps : (tags ps).*1 = ps.
Proof. unfold tags. rewrite <- list_fmap_compose. by rewrite list_fmap_id. Qed.

Lemma length_tags ps : length (tags ps) = length ps.
Proof. apply length_fmap. Qed.

Lemma tags_looks w ps :
  w_sound w -> (forall p, p ∈ ps -> held (txn_of w) p) ->
  looks w (Prelude.mapM (fun id => t ← filtered_parent_tree_id id; mret (id, t)) ps) (tags ps)
    (fun w' => w' = w).
Proof.
  intros Hs. induction ps as [|p ps IH]; intros Hps; [by apply looks_ret|]. cbn [Prelude.mapM].
  eapply (looks_bind _ _ _ _ _ (fun w' => w' = w)).
  { eapply looks_bind; [apply parent_tree_looks; [done|apply Hps; left]|]. intros w1 _ _ ->. by apply looks_ret. }
  intros w1 _ _ ->. eapply looks_bind; [apply IH; intros q Hq; apply Hps; by right|].
  intros w1 _ _ ->. by apply looks_ret.
Qed.

Lemma filter_tags ps :
  base.filter (fun p : oid * oid => p.2 ≠ empty_id) (tags ps) =
  tags (base.filter (fun p => tree_id_of p ≠ empty_id) ps).
Proof.
  induction ps as [|p ps IH]; [done|]. unfold tags in *. rewrite fmap_cons, !filter_cons. simpl. rewrite IH.
  by case_decide.
Qed.

Lemma existsb_tags (q : oid -> bool) ps : existsb (fun p => q p.2) (tags ps) = existsb (fun p => q (tree_id_of p)) ps.
Proof. induction ps as [|p ps IH]; [done|]. unfold tags in *. rewrite fmap_cons. simpl. by rewrite IH. Qed.

Lemma content_some ps :
  existsb (fun p => bool_decide (tree_id_of p ≠ empty_id)) ps =
  negb (bool_decide (base.filter (fun p => tree_id_of p ≠ empty_id) ps = [])).
Proof.
  induction ps as [|p ps IH]; [done|]. rewrite filter_cons. cbn [existsb].
  destruct (decide (tree_id_of p ≠ empty_id)) as [Hp|Hp]; [by rewrite (bool_decide_true _ Hp)|].
  by rewrite (bool_decide_false _ Hp), IH.
Qed.

Lemma content_all ps :
  existsb (fun p => bool_decide (tree_id_of p = empty_id)) ps = false ->
  base.filter (fun p => tree_id_of p ≠ empty_id) ps = ps.
Proof.
  induction ps as [|p ps IH]; [done|]. rewrite filter_cons. simpl.
  intros [Hp%bool_decide_eq_false Hps]%orb_false_iff. rewrite decide_True by done. by rewrite IH.
Qed.

Abbreviation with_content := (with_content find0 rank).

Lemma prune_looks h w ps :
  w_sound w -> (zero_oid ∉ ps) -> (forall p, p ∈ ps -> held (txn_of w) p) -> graph_fuel <= h ->
  looks w (prune_initial_merge h (tags ps)) (tags (with_content ps)) (fun _ => True).
Proof.
  intros Hs Hz Hps Hh. unfold prune_initial_merge, FilteredHistory.with_content.
  pose proof (existsb_tags (fun t => bool_decide (t = empty_id)) ps) as E1. cbv beta in E1. rewrite E1. clear E1.
  destruct (existsb _ ps) eqn:Ee; [|rewrite content_all by done; case_match; by apply looks_ret].
  rewrite length_tags, tags_fst.
  pose proof (existsb_tags (fun t => bool_decide (t ≠ empty_id)) ps) as E1. cbv beta in E1. rewrite E1. clear E1.
  rewrite content_some, filter_tags.
  destruct (bool_decide (1 < length ps)) eqn:El; simpl; [|by apply looks_ret].
  assert (ps ≠ []) as Hne by (by intros ->).
  eapply (looks_bind _ _ _ (negb (related find0 rank ps)) _ (fun _ => True)).
  { eapply looks_bind; [apply gives_looks; [done|]; apply (share_root_gives find0 V rank (repo_graph Hrepo)); auto using ws_sound|].
    intros w1 Hs1 _ _. by apply looks_ret. }
  intros w1 Hs1 _ _. case_match; by apply looks_ret.
Qed.

Abbreviation has_tree := (has_tree find0).
Abbreviation unaffected := (unaffected find0).
Abbreviation trivial_onto := (trivial_onto find0).
Abbreviation surviving := (surviving find0 rank).
Abbreviation fate_of := (fate_of find0 rank).

Lemma all_have_tree_eq w tree ps :
  (forall p, p ∈ ps -> held (txn_of w) p) ->
  all_have_tree tree ps (w_tx w) = (Ok (forallb (has_tree tree) ps), w_tx w).
Proof.
  induction ps as [|p ps IH]; intros Hps; [done|]. unfold all_have_tree in *. cbn [allM forallb].
  unfold mbind, M_bind. rewrite read_tree_id_eq by (apply Hps; left). cbn [mret M_ret].
  change (bool_decide (tree_id_of p = tree)) with (has_tree tree p).
  destruct (has_tree tree p); [|done]. apply IH. intros q Hq. apply Hps. by right.
Qed.

Lemma affects_tags tree ps :
  existsb (fun p : oid * oid => bool_decide (tree ≠ p.2)) (tags ps) = negb (forallb (has_tree tree) ps).
Proof.
  induction ps as [|p ps IH]; [done|]. unfold tags in *. rewrite fmap_cons. cbn [existsb forallb snd].
  rewrite IH, negb_andb. f_equal. unfold FilteredHistory.has_tree. rewrite bool_decide_not.
  f_equal. apply bool_decide_ext. naive_solver.
Qed.

Lemma select_looks w k tree ps :
  w_sound w -> (forall p, p ∈ commit_parents k -> held (txn_of w) p) ->
  looks w (on_tx (select_parent_commits k tree (tags ps))) (if unaffected k tree ps then [] else ps)
    (fun w' => w' = w).
Proof.
  intros Hs Hps. apply tx_reads; [done|]. unfold select_parent_commits, mbind, M_bind.
  rewrite all_have_tree_eq by done. rewrite affects_tags, tags_fst. unfold FilteredHistory.unaffected.
  by destruct (forallb _ ps), (forallb _ (commit_parents k)).
Qed.

Lemma trivial_looks w options k tree ps :
  w_sound w -> (forall p, p ∈ commit_parents k -> held (txn_of w) p) ->
  looks w
    (on_tx (trivial_merge k tree (history_flag (btree_get "history" options) "keep-trivial-merges") (tags ps)))
    (if trivial_onto options k tree ps then head ps else None) (fun w' => w' = w).
Proof.
  intros Hs Hps. apply tx_reads; [done|]. destruct ps as [|p [|q ps]]; [done..|].
  unfold tags. rewrite !fmap_cons. unfold trivial_merge, FilteredHistory.trivial_onto.
  destruct (history_flag _ _); [done|]. unfold mbind, M_bind, was_trivial_merge.
  destruct (commit_parents k) as [|o os].
  { cbn [mret M_ret head from_option snd negb andb]. by rewrite !andb_true_r. }
  unfold mbind, M_bind. rewrite read_tree_id_eq by (apply Hps; left). done.
Qed.

(** ** The filtered commit *)

(** A rewrite that keeps the author, the committer and the message. *)
Definition tree_only (x : Rewrite.t) : Prop :=
  Rewrite.author x = None /\ Rewrite.committer x = None /\ Rewrite.message x = None.

Lemma rewrite_plain k sel x options :
  tree_only x ->
  rewrite_commit k sel x (gpgsig_mode options) = write_object (OCommit (rewritten options k (Rewrite.tree_id x) sel)).
Proof. destruct x as [tree c a m msg]. intros (Ha & Hm & Hmsg). simpl in *. by subst. Qed.

Lemma rewritten_does w options k sel x :
  let k' := rewritten options k (Rewrite.tree_id x) sel in
  let id := compute_hash (OCommit k') in
  w_sound w -> tree_only x -> id ∈ V -> find0 id = Some (OCommit k') ->
  (forall p, p ∈ sel -> held (txn_of w) p) -> present (w_odb w) (tree_of id) ->
  does w (write_filtered k sel x options) (id, true) (fun w' => held (txn_of w') id).
Proof.
  intros k' id Hs Hx Hid Hk Hsel Hp. unfold write_filtered. rewrite rewrite_plain by done.
  eapply does_bind; [by apply write_commit_does|]. intros w1 Hs1 _ Hh1.
  eapply does_bind; [by apply (last_written_does w1 id _ k')|]. intros w2 Hs2 _ Hh2.
  apply does_ret; [done|]. by apply Hh2.
Qed.

Definition fate_new (x : fate) : bool := match x with Rewritten _ => true | _ => false end.

(** What a fate asks for: a commit of the history with the filtered tree. *)
Definition fate_ok (x : fate) (t : node) : Prop :=
  forall k', x = Rewritten k' ->
    compute_hash (OCommit k') ∈ V /\ find0 (compute_hash (OCommit k')) = Some (OCommit k') /\
    tree_of (compute_hash (OCommit k')) = t.

(** A filtered commit that is not the zero id is stored. *)
Definition there (id : oid) (w : world) : Prop := id = zero_oid \/ held (txn_of w) id.

Abbreviation fate_onto := (fate_onto find0).

Lemma fate_write_does w w1 options k x sel t :
  let fate := Rewritten (rewritten options k (Rewrite.tree_id x) sel) in
  w_sound w1 -> w_quiet w w1 -> tree_only x -> fate_ok fate t -> present (w_odb w) t ->
  (forall p, p ∈ sel -> held (txn_of w) p) ->
  does w1 (write_filtered k sel x options) (fate_id fate, fate_new fate) (there (fate_id fate)).
Proof.
  intros fate Hs1 Hq Hx Hfate Ht Hsel. destruct (Hfate _ eq_refl) as (F1 & F2 & F3).
  eapply does_weaken; [apply rewritten_does|by right]; try done.
  - intros p Hp. rewrite (held_quiet w w1) by done. by apply Hsel.
  - rewrite F3. eapply present_keeps; [|done]. apply (grows_odb _ _ _ _ _ _ (proj1 (w_quiet_grows _ _ Hq))).
Qed.

Lemma empty_root_looks h w c k :
  w_sound w -> held (txn_of w) c -> find0 c = Some (OCommit k) -> height (tree_of c) <= h ->
  looks w (if decide (commit_parents k = []) then on_tx (is_empty_root h (commit_tree k)) else mret false)
    (bool_decide (commit_parents k = [] /\ commit_tree k = empty_id)) (fun _ => True).
Proof.
  intros Hs Hc Hk Hh. case_decide as Hd; [|rewrite bool_decide_false by tauto; by apply looks_ret].
  rewrite (bool_decide_ext _ (commit_tree k = empty_id)) by tauto.
  destruct (held_tree w c Hs Hc) as ([[Hw Hn] _] & E & Hp).
  unfold FilteredHistory.tree_id_of in E. rewrite Hk in E. rewrite E.
  apply (yields_looks w _ _ (fun _ => True)); [done|]. by apply on_tx_yields, empty_root_yields.
Qed.

(** From the surviving parents on. *)
Lemma settle_does h w options c k x ps t :
  let fate := fate_onto options k (Rewrite.tree_id x) ps in
  w_sound w -> held (txn_of w) c -> find0 c = Some (OCommit k) -> tree_only x ->
  (forall p, p ∈ ps -> held (txn_of w) p) -> fate_ok fate t -> present (w_odb w) t ->
  height (tree_of c) <= h ->
  does w (settle_commit h k x options (tags ps)) (fate_id fate, fate_new fate) (there (fate_id fate)).
Proof.
  intros fate Hs Hc Hk Hx Hps Hfate Ht Hh.
  assert (forall p, p ∈ commit_parents k -> held (txn_of w) p) as Hpar.
  { intros p Hp. apply (sound_closed _ _ _ _ (ws_sound w Hs) c p Hc). unfold parents_of. by rewrite Hk. }
  eapply look_bind; [by apply trivial_looks|]. intros w0 _ _ ->. unfold fate, FilteredHistory.fate_onto in *.
  destruct ps as [|p others].
  - eapply look_bind; [by apply select_looks|]. intros w0 _ _ ->. rewrite Tauto.if_same.
    rewrite (decide_True (P := ([] : list oid) = [])) by done.
    eapply look_bind; [by apply (empty_root_looks h w c k)|]. intros w1 Hs1 Hq1 _.
    destruct (bool_decide (commit_parents k = [] /\ _)) eqn:Er; cbn [negb] in *.
    { rewrite andb_false_r in *. by eapply fate_write_does. }
    rewrite andb_true_r in *. cbn [tags fmap list_fmap]. case_decide as Hd.
    + rewrite bool_decide_true by done. apply does_ret; [done|by left].
    + rewrite bool_decide_false in * by done. by eapply fate_write_does.
  - assert (held (txn_of w) p) as Hp by (apply Hps; left).
    destruct (trivial_onto options k _ (p :: others)).
    { rewrite orb_true_r. apply does_ret; [done|by right]. }
    rewrite orb_false_r in *. eapply look_bind; [by apply select_looks|]. intros w0 _ _ ->.
    destruct (unaffected k (Rewrite.tree_id x) (p :: others)) eqn:Eu.
    + rewrite (decide_True (P := ([] : list oid) = [])) by done.
      rewrite (decide_False (P := commit_parents k = [])).
      { eapply look_bind; [by apply (looks_ret w false (fun w' => w' = w))|]. intros w0 _ _ ->.
        apply does_ret; [done|by right]. }
      intros E. unfold FilteredHistory.unaffected in Eu. rewrite E in Eu. cbn [forallb] in Eu.
      by rewrite andb_false_r in Eu.
    + rewrite (decide_False (P := p :: others = [])) by done.
      eapply look_bind; [by apply (looks_ret w true (fun w' => w' = w))|]. intros w0 _ _ ->.
      by eapply fate_write_does.
Qed.

Lemma linear_tags options ps :
  (if history_flag (btree_get "history" options) "linear"
   then take 1 (tags (with_content (base.filter (fun p => p ≠ zero_oid) ps)))
   else tags (with_content (base.filter (fun p => p ≠ zero_oid) ps))) = tags (surviving options ps).
Proof. unfold FilteredHistory.surviving. case_match; [|done]. unfold tags. by rewrite fmap_take. Qed.

Lemma create2_does h w options c k x ids t :
  let fate := fate_of options k (Rewrite.tree_id x) ids in
  w_sound w -> held (txn_of w) c -> find0 c = Some (OCommit k) -> tree_only x ->
  (forall p, p ∈ ids -> there p w) -> fate_ok fate t -> present (w_odb w) t ->
  height (tree_of c) <= h -> graph_fuel <= h ->
  does w (create_filtered_commit2 h k ids x options) (fate_id fate, fate_new fate) (there (fate_id fate)).
Proof.
  intros fate Hs Hc Hk Hx Hids Hfate Ht Hh Hg. unfold create_filtered_commit2.
  set (ps := base.filter (fun id => id ≠ zero_oid) ids).
  assert (forall p, p ∈ ps -> held (txn_of w) p) as Hps.
  { intros p [Hz Hp]%list_elem_of_filter. by destruct (Hids p Hp). }
  eapply look_bind; [by apply tags_looks|]. intros w0 _ _ ->.
  eapply look_bind; [apply prune_looks; [done| |done|done]|].
  { intros [Hz _]%list_elem_of_filter. done. }
  intros w1 Hs1 Hq1 _. unfold ps. rewrite linear_tags.
  apply (settle_does h w1 options c k x _ t); try done.
  - by rewrite (held_quiet w w1).
  - intros p Hp. rewrite (held_quiet w w1) by done. apply surviving_inside in Hp as [Hp Hz].
    by destruct (Hids p Hp).
  - eapply present_keeps; [|done]. apply (grows_odb _ _ _ _ _ _ (proj1 (w_quiet_grows _ _ Hq1))).
Qed.

End CommitFacts.
