(* ===== verification/CommitRuns.v ===== *)
(** Filters run over histories: application to one commit, which asks for the records of the
    parents, the walk that writes the missing records parents first, and the loop that walks
    until the commit itself has its record. *)

From S2P Require Import Prelude Path Objects Store RevWalk RevWalkFacts RangeWalkFacts HistoryHint.
From S2P Require Import CommitCache HistoryGraph HistoryTruth HistoryGraphFacts RecordFacts HistoryLaws.
From S2P Require Import OptState Invert Step Builders Utf8 Glob Pattern Persist TreeOps TreePaths TreeWalk.
From S2P Require Import Node NodeFacts Refine NodeKeys GraphMerge Apply Trailers Rewriting Commits Denote.
From S2P Require Import ApplyFacts FilteredHistory CommitFacts Ops.

Open Scope nat_scope.

Section CommitRuns.
Context `{ObjectHash} `{BisectEntry} `{EntryModes} `{RegexReplace} `{Readers} `{FilterText}.
Context `{!Collaborators} `{GlobKeys} `{Signatures} `{Gix} {B : Type} `{LawfulBackend B}.
Context (known : string -> bool).
Context (find0 : oid -> option object) (V : gset oid) (rank : oid -> nat) (tree_of : oid -> node).
Context (stages : list filter) (dom : filter -> gset oid).
Hypothesis Hrepo : repository_ok known find0 V rank tree_of stages dom.

Abbreviation world := (world B).
Abbreviation wm := (M world).
Abbreviation filtered := (filtered find0 rank tree_of).
Abbreviation filtered_tree := (filtered_tree tree_of).
Abbreviation held := (held (B := B) find0 V).
Abbreviation right := (right find0 rank tree_of stages dom).
Abbreviation recorded := (recorded (B := B) find0 rank right).
Abbreviation w_sound := (w_sound known find0 V rank tree_of stages dom).
Abbreviation w_grows := (w_grows find0 V rank tree_of stages dom).
Abbreviation w_quiet := (w_quiet find0 V rank tree_of stages dom).
Abbreviation does := (does known find0 V rank tree_of stages dom).
Abbreviation looks := (looks known find0 V rank tree_of stages dom).
Abbreviation there := (there find0 V).
Abbreviation graph_fuel := (graph_fuel find0 V).
Abbreviation held_quiet := (held_quiet (B := B) find0 V rank tree_of stages dom).
Abbreviation held_grows := (held_grows (B := B) find0 V rank tree_of stages dom).
Abbreviation recorded_quiet := (recorded_quiet (B := B) find0 V rank tree_of stages dom).
Let Hrights : right_ok find0 V right := rights (B := B) known find0 V rank tree_of stages dom Hrepo.
Let Hgraph : graph_ok find0 V rank := repo_graph known find0 V rank tree_of stages dom Hrepo.

(** A budget for walks, trees and filters. *)
Record budget_ok (h : nat) : Prop := {
  budget_graph : graph_fuel <= h;
  budget_height c : c ∈ V -> height (tree_of c) <= h;
  budget_size f : f ∈ stages -> size f <= h;
  budget_apply f c : f ∈ stages -> c ∈ dom f -> applies known f (tree_of c) h;
}.

Section Budget.
Context (h : nat) (Hh : budget_ok h).

(** A missing record that has been noted. *)
Definition stuck (w : world) : Prop :=
  exists level f c, (level, Real f, c) ∈ missing (txn_of w) /\ recorded (txn_of w) f c = false.

(** * Records *)

Lemma get_looks w f c :
  w_sound w -> f ∈ stages -> c ∈ dom f -> held (txn_of w) c ->
  looks w (get h (Real f) c) (if recorded (txn_of w) f c then Some (filtered f c) else None)
    (fun w' => recorded (txn_of w) f c = false -> stuck w').
Proof.
  intros Hs Hf Hc Hd. pose proof (right_eq find0 rank tree_of stages dom f c Hf Hc) as Hr.
  destruct (get_tracked find0 V rank Hgraph right Hrights (txn_of w) f c _ h (ws_tracked _ _ _ _ _ _ _ w Hs)
    Hr Hd (budget_graph h Hh)) as (t' & E & Ht' & Hq & Hm).
  eapply looks_weaken; [by apply txn_looks|]. intros w' _ _ <- Hno. destruct (Hm Hno) as [l Hl].
  exists l, f, c. split; [done|]. by rewrite (quiet_recorded _ _ _ _ _ _ Hq).
Qed.

Lemma known_looks w f c :
  w_sound w -> f ∈ stages -> c ∈ dom f -> held (txn_of w) c ->
  looks w (Rewriting.known h (Real f) c) (recorded (txn_of w) f c) (fun _ => True).
Proof.
  intros Hs Hf Hc Hd. pose proof (right_eq find0 rank tree_of stages dom f c Hf Hc) as Hr.
  destruct (known_tracked find0 V rank Hgraph right Hrights (txn_of w) f c _ h (ws_tracked _ _ _ _ _ _ _ w Hs)
    Hr Hd (budget_graph h Hh)) as (t' & E & Ht' & Hq).
  eapply looks_weaken; [by apply txn_looks|]. done.
Qed.

Lemma insert_does w f c store :
  w_sound w -> f ∈ stages -> c ∈ dom f -> held (txn_of w) c -> there (filtered f c) w ->
  does w (insert h (Real f) c (filtered f c) store) tt (fun w' => recorded (txn_of w') f c = true).
Proof.
  intros Hs Hf Hc Hd Hv. pose proof (right_eq find0 rank tree_of stages dom f c Hf Hc) as Hr.
  destruct (insert_tracked find0 V rank Hgraph right Hrights (txn_of w) f c _ store h
    (ws_tracked _ _ _ _ _ _ _ w Hs) Hr Hd Hv (budget_graph h Hh)) as (t' & E & Ht' & Hg & Hrec & Hback).
  eapply does_weaken; [by apply txn_does|]. by intros w' _ _ ->.
Qed.

Lemma get_all_looks w f ps :
  w_sound w -> f ∈ stages -> (forall p, p ∈ ps -> p ∈ dom f /\ held (txn_of w) p) ->
  looks w (get_all h (Real f) ps)
    (if forallb (recorded (txn_of w) f) ps then Some (filtered f <$> ps) else None)
    (fun w' => forallb (recorded (txn_of w) f) ps = false -> stuck w').
Proof.
  intros Hs Hf. revert w Hs. induction ps as [|p ps IH]; intros w Hs Hps; [by apply looks_ret|].
  destruct (Hps p) as [Hp Hd]; [left|]. cbn [get_all forallb].
  eapply looks_bind; [by apply get_looks|]. intros w1 Hs1 Hq1 Hst.
  destruct (recorded (txn_of w) f p); [|by apply looks_ret; auto]. simpl andb.
  eapply looks_bind.
  { apply (IH w1 Hs1). intros q Hq. destruct (Hps q) as [? ?]; [by right|]. by rewrite (held_quiet w). }
  intros w2 Hs2 Hq2 Hst2.
  assert (forallb (recorded (txn_of w1) f) ps = forallb (recorded (txn_of w) f) ps) as E.
  { clear -Hq1. induction ps as [|q ps IH]; [done|]. simpl. by rewrite IH, (recorded_quiet w w1). }
  rewrite E in *. destruct (forallb (recorded (txn_of w) f) ps); by apply looks_ret.
Qed.

(** * One commit *)

Abbreviation parents := (parents_of find0).

Lemma stage_of f : f ∈ stages -> stage_ok known find0 V rank tree_of dom f.
Proof. apply (repo_stages _ _ _ _ _ _ _ Hrepo). Qed.

Lemma stage_parent f c p : f ∈ stages -> c ∈ dom f -> p ∈ parents c -> p ∈ dom f.
Proof. intros Hf. apply (u_parents _ _ _ _ _ _ (stage_universe _ _ _ _ _ _ _ (stage_of f Hf))). Qed.

Lemma parent_held w c p : w_sound w -> held (txn_of w) c -> p ∈ parents c -> held (txn_of w) p.
Proof. intros Hs. apply (sound_closed _ _ _ _ (ws_sound _ _ _ _ _ _ _ w Hs)). Qed.

(** The parents have their records: the record of the commit can be written. *)
Definition ready (w : world) (f : filter) (c : oid) : bool := forallb (recorded (txn_of w) f) (parents c).

Lemma ready_parents w f c : ready w f c = true <-> forall p, p ∈ parents c -> recorded (txn_of w) f p = true.
Proof.
  unfold ready. rewrite forallb_forall. split; intros Hp p Hin; apply Hp; by apply list_elem_of_In.
Qed.

Lemma create_does w f c k x :
  w_sound w -> f ∈ stages -> c ∈ dom f -> held (txn_of w) c -> find0 c = Some (OCommit k) -> tree_only x ->
  Rewrite.tree_id x = node_oid (filtered_tree f c) -> present (w_odb w) (filtered_tree f c) ->
  ready w f c = true ->
  does w (create_filtered_commit h c k (filtered f <$> commit_parents k) x (Real f)) (filtered f c)
    (fun w' => recorded (txn_of w') f c = true).
Proof.
  intros Hs Hf Hc Hd Hk Hx Htree Hp Hready. pose proof (stage_universe _ _ _ _ _ _ _ (stage_of f Hf)) as Hu.
  pose proof (u_inside _ _ _ _ _ _ Hu c Hc) as HcV.
  pose proof (repo_history known find0 V rank tree_of stages dom Hrepo) as Hist.
  pose proof (filtered_eq find0 V rank tree_of Hist f c k HcV Hk) as Ef. rewrite <- Htree in Ef.
  eapply does_bind.
  { eapply (create2_does known find0 V rank tree_of stages dom Hrepo h w _ c k x _ (filtered_tree f c));
      [done..| | |done|by apply (budget_height h Hh)|apply (budget_graph h Hh)].
    - intros q (p & -> & Hpk)%list_elem_of_fmap.
      assert (p ∈ parents c) as Hpc by (unfold parents_of; by rewrite Hk).
      eapply (recorded_value find0 V rank Hgraph right Hrights (txn_of w) f p).
      + apply (ws_tracked _ _ _ _ _ _ _ w Hs).
      + apply right_eq; [done|]. by eapply stage_parent.
      + by apply (ready_parents w f c).
    - intros k' Ek. rewrite Htree in Ek. by apply (u_written _ _ _ _ _ _ Hu c k k'). }
  intros w1 Hs1 Hg1 Hthere. change (meta_of (Real f)) with (Filter.into_meta f) in *. rewrite <- Ef in *.
  eapply does_bind; [apply insert_does; [done|done|done| |done]|].
  { by apply (held_grows w w1). }
  intros w2 Hs2 _ Hrec. by apply does_ret.
Qed.

(** The outcome of a try: the filtered commit, with its record, or a missing record. *)
Definition outcome (f : filter) (c : oid) (ok : bool) (w' : world) : Prop :=
  if ok then recorded (txn_of w') f c = true else stuck w'.

Lemma finish_does w f c k x :
  w_sound w -> f ∈ stages -> c ∈ dom f -> held (txn_of w) c -> find0 c = Some (OCommit k) -> tree_only x ->
  Rewrite.tree_id x = node_oid (filtered_tree f c) -> present (w_odb w) (filtered_tree f c) ->
  does w (finish h (Real f) c k x) (if ready w f c then Some (filtered f c) else None)
    (outcome f c (ready w f c)).
Proof.
  intros Hs Hf Hc Hd Hk Hx Htree Hp. assert (parents c = commit_parents k) as Epar by (unfold parents_of; by rewrite Hk).
  eapply look_bind; [apply get_all_looks; [done|done|]|].
  { intros p Hin. rewrite <- Epar in Hin. split; [by eapply stage_parent|by eapply parent_held]. }
  intros w1 Hs1 Hq1 Hst. rewrite <- Epar in Hst. fold (ready w f c) in Hst.
  rewrite <- Epar at 1. fold (ready w f c). destruct (ready w f c) eqn:Hr; [|by apply does_ret, Hst].
  eapply does_bind; [apply create_does; try done|].
  - by rewrite (held_quiet w w1).
  - eapply present_keeps; [|done]. apply (grows_odb _ _ _ _ _ _ (proj1 (w_quiet_grows _ _ _ _ _ _ _ _ Hq1))).
  - apply ready_parents. intros p Hin. rewrite (recorded_quiet w w1) by done. by apply (ready_parents w f c).
  - intros w2 Hs2 _ Hrec. by apply does_ret.
Qed.

Lemma uncached_per_tree rec f c :
  per_tree f = true ->
  apply_uncached h rec (Real f) c =
    (k ← read_checked c; x ← apply h f (Rewrite.from_commit_data c k); finish h (Real f) c k x).
Proof.
  unfold per_tree, apply_uncached. cbn [op_of apply_filter]. by destruct (peel_filter f).
Qed.

Lemma apply_per_tree n f c :
  per_tree f = true -> f ≠ to_filter Op.Nop ->
  apply_to_commit2 h (S n) (Real f) c =
    (cached ← get h (Real f) c;
     match cached with
     | Some r => mret (Some r)
     | None => apply_uncached h (apply_to_commit2 h n) (Real f) c
     end).
Proof.
  intros Hf Hn. cbn [apply_to_commit2]. rewrite decide_False by (intros [= E]; done).
  unfold per_tree in Hf. cbn [op_of]. by destruct (peel_filter f).
Qed.

(** Whether a try succeeds. *)
Definition able (w : world) (f : filter) (c : oid) : bool := recorded (txn_of w) f c || ready w f c.

Lemma apply_stage_does w n f c :
  w_sound w -> f ∈ stages -> c ∈ dom f -> held (txn_of w) c ->
  does w (apply_to_commit2 h (S n) (Real f) c) (if able w f c then Some (filtered f c) else None)
    (outcome f c (able w f c)).
Proof.
  intros Hs Hf Hc Hd. destruct (stage_of f Hf) as [Kf Pf _ Nf _ Hu].
  rewrite apply_per_tree by done. eapply look_bind; [by apply get_looks|]. intros w1 Hs1 Hq1 Hst. unfold able.
  destruct (recorded (txn_of w) f c) eqn:Hrec.
  { apply does_ret; [done|]. simpl. by rewrite (recorded_quiet w w1). }
  assert (held (txn_of w1) c) as Hd1 by (by rewrite (held_quiet w w1)).
  rewrite uncached_per_tree by done.
  destruct (held_commit known find0 V rank tree_of stages dom Hrepo w1 c Hd1) as (k & Hk & _ & Etree).
  eapply look_bind; [by apply checked_looks|]. intros w0 _ _ ->.
  destruct (held_tree known find0 V rank tree_of stages dom Hrepo w1 c Hs1 Hd1) as (Hv & Eo & Hp).
  eapply look_bind.
  { apply yields_looks; [done|done|]. apply (budget_apply h Hh f c Hf Hc).
    - by apply (budget_size h Hh).
    - simpl. by rewrite <- Etree.
    - done. }
  intros w2 Hs2 Hq2 Hp2. simpl orb. replace (ready w f c) with (ready w2 f c).
  - apply finish_does; try done. by rewrite (held_quiet w1 w2).
  - apply eq_true_iff_eq. rewrite !ready_parents.
    setoid_rewrite (recorded_quiet w1 w2); [|done]. by setoid_rewrite (recorded_quiet w w1).
Qed.

(** * The walk *)

Lemma budget_positive : exists n, h = S n.
Proof.
  pose proof (budget_graph h Hh) as Hg. unfold HistoryGraphFacts.graph_fuel in Hg.
  exists (pred h). lia.
Qed.

Lemma until_missing_does w f ids :
  w_sound w -> f ∈ stages -> (forall d, d ∈ ids -> d ∈ dom f /\ held (txn_of w) d) ->
  (forall i d p, ids !! i = Some d -> p ∈ parents d ->
    recorded (txn_of w) f p = true \/ exists j, j < i /\ ids !! j = Some p) ->
  does w (apply_until_missing h (Real f) ids) tt
    (fun w' => forall d, d ∈ ids -> recorded (txn_of w') f d = true).
Proof.
  intros Hs Hf. revert w Hs. induction ids as [|d ids IH]; intros w Hs Hids Hord.
  { apply does_ret; [done|]. intros d Hd. by apply not_elem_of_nil in Hd. }
  destruct (Hids d) as [Hd Hh1]; [left|]. destruct budget_positive as [n En].
  assert (able w f d = true) as Hable.
  { unfold able. replace (ready w f d) with true; [by rewrite orb_true_r|]. symmetry. apply ready_parents.
    intros p Hp. destruct (Hord 0 d p eq_refl Hp) as [?|(j & ? & _)]; [done|lia]. }
  pose proof (apply_stage_does w n f d Hs Hf Hd Hh1) as Happly. rewrite Hable, <- En in Happly.
  cbn [apply_until_missing]. eapply does_bind; [exact Happly|]. intros w1 Hs1 Hg1 Hrec. simpl in Hrec.
  assert (forall c, recorded (txn_of w) f c = true -> recorded (txn_of w1) f c = true) as Hmono
    by (intros c; apply (grows_recorded _ _ _ _ _ _ (proj1 Hg1))).
  eapply does_weaken; [apply (IH w1 Hs1)|].
  - intros c Hc. destruct (Hids c) as [? ?]; [by right|]. split; [done|]. by apply (held_grows w w1).
  - intros i c p Hi Hp. destruct (Hord (S i) c p Hi Hp) as [?|([|j] & Hj & Ep)]; [by left; auto| |].
    + injection Ep as <-. by left.
    + right. exists j. split; [lia|done].
  - intros w2 _ Hg2 Hall c [->|Hc]%elem_of_cons; [|by apply Hall].
    by apply (grows_recorded _ _ _ _ _ _ (proj1 Hg2)).
Qed.

Lemma known_answers w f :
  f ∈ stages -> 
  answers (recorded (txn_of w) f) (held_set find0 V (txn_of w) ∩ dom f)
    (fun w' => w_sound w' /\ w_quiet w w') (known_or_false h (Real f)).
Proof.
  intros Hf c w1 [Hc%elem_of_held Hd]%elem_of_intersection [Hs1 Hq1].
  assert (held (txn_of w1) c) as Hc1 by (by rewrite (held_quiet w w1)).
  destruct (known_looks w1 f c Hs1 Hf Hd Hc1) as (w2 & E & Hs2 & Hq2 & _).
  unfold known_or_false. rewrite E. simpl. rewrite (recorded_quiet w w1) by done. split; [done|].
  split; [done|]. by transitivity w1.
Qed.

Lemma walked_history w f :
  w_sound w -> f ∈ stages ->
  history (try_find (w_odb w)) (held_set find0 V (txn_of w) ∩ dom f) rank.
Proof.
  intros Hs Hf. destruct (held_history find0 V rank Hgraph (txn_of w) (ws_sound _ _ _ _ _ _ _ w Hs)) as [G1 G2 G3].
  split.
  - intros c [Hc _]%elem_of_intersection. by apply G1.
  - intros c k p [Hc Hd]%elem_of_intersection Hk Hp. apply elem_of_intersection.
    split; [by apply (G2 c k)|]. apply elem_of_held in Hc as [Hc E].
    change (w_odb w) with (t_odb (txn_of w)) in Hk. rewrite E in Hk. eapply stage_parent; [done|done|]. unfold parents_of. by rewrite Hk.
  - intros c k p [Hc _]%elem_of_intersection. by apply G3.
Qed.

Lemma sum_submseteq {A} (g : A -> nat) l l' : l ⊆+ l' -> sum_list_with g l <= sum_list_with g l'.
Proof. induction 1; simpl; lia. Qed.

Lemma walk_fuel_inside find U W tips : U ⊆ W -> walk_fuel find U false tips <= walk_fuel find W false tips.
Proof.
  intros Hsub%elements_submseteq. unfold walk_fuel. apply le_n_S, Nat.add_le_mono_l.
  by apply sum_submseteq.
Qed.

(** The walk lists the commits without a record, children first, down to commits that have one. *)
Lemma unknown_history_looks w f c :
  w_sound w -> f ∈ stages -> c ∈ dom f -> held (txn_of w) c -> recorded (txn_of w) f c = false ->
  exists l, looks w (unknown_history h (Real f) c) l (fun _ => True) /\ c ∈ l /\
    (forall d, d ∈ l -> d ∈ dom f /\ held (txn_of w) d) /\
    forall i d p, l !! i = Some d -> p ∈ parents d ->
      recorded (txn_of w) f p = true \/ exists j, i < j /\ l !! j = Some p.
Proof.
  intros Hs Hf Hc Hd Hnew. pose proof (walked_history w f Hs Hf) as Hist.
  set (U := held_set find0 V (txn_of w) ∩ dom f) in *.
  assert (c ∈ U) as HcU by (apply elem_of_intersection; by rewrite elem_of_held).
  destruct (topo_walk _ _ _ Hist (fun w' => w_sound w' /\ w_quiet w w') (known_or_false h (Real f)) [c]
    (recorded (txn_of w) f) false h w) as (walk & l & w' & Ew & El & [Hs' Hq'] & _ & Hmem & Hord).
  { by apply known_answers. } { split; [done|reflexivity]. } { by repeat constructor. }
  { etransitivity; [apply (walk_fuel_inside _ _ (held_set find0 V (txn_of w))), intersection_subseteq_l|].
    etransitivity; [|apply (budget_graph h Hh)].
    apply (found_fuel find0 V rank (txn_of w) c), (ws_sound _ _ _ _ _ _ _ w Hs). }
  assert (forall d, d ∈ l -> d ∈ U) as HU.
  { intros d Hin%Hmem. induction Hin as [x Hx _|x p _ IH Hp _]; [by apply list_elem_of_singleton in Hx as ->|].
    apply followed_parent in Hp. by destruct (history_parent _ _ _ Hist x p IH Hp). }
  assert (forall d, d ∈ U -> d ∈ dom f /\ held (txn_of w) d) as HU'.
  { intros d [Hin ?]%elem_of_intersection. by rewrite elem_of_held in Hin. }
  exists l. split; [|split; [|split]].
  - exists w'. split; [|done]. unfold unknown_history. cbn [meta_of].
    change (history_flag _ "linear") with (linear_history f). rewrite (stage_not_linear _ _ _ _ _ _ _ (stage_of f Hf)).
    unfold walk_from in Ew. simpl in Ew. unfold w_odb in *.
    destruct (RevWalk.push _ c RevWalk.new); simpl in Ew; try done. by injection Ew as ->.
  - apply Hmem. by constructor; [left|].
  - auto.
  - intros i d p Hi Hp. destruct (recorded (txn_of w) f p) eqn:Hrec; [by left|right].
    assert (d ∈ l) as Hin by (by eapply list_elem_of_lookup_2).
    assert (p ∈ followed_parents (try_find (w_odb w)) false d) as Hp'.
    { unfold followed_parents. unfold w_odb.
      by rewrite (found_parents find0 V (txn_of w) d) by (by apply HU', HU). }
    assert (p ∈ l) as [j Hj]%list_elem_of_lookup.
    { apply Hmem. apply Hmem in Hin. by apply (walked_parent _ _ _ d p). }
    exists j. split; [by apply (Hord i j d p)|done].
Qed.

Lemma reverse_lookup_some {A} (l : list A) i x :
  reverse l !! i = Some x -> i < length l /\ l !! (length l - S i) = Some x.
Proof. intros Hi. pose proof (lookup_lt_Some _ _ _ Hi) as Hl. rewrite length_reverse in Hl.
  split; [done|]. by rewrite reverse_lookup in Hi. Qed.

(** [walk2] writes the record of its commit. *)
Lemma walk2_does w f c :
  w_sound w -> f ∈ stages -> c ∈ dom f -> held (txn_of w) c ->
  does w (walk2 h (Real f) c) tt (fun w' => recorded (txn_of w') f c = true).
Proof.
  intros Hs Hf Hc Hd. unfold walk2. eapply look_bind; [by apply known_looks|]. intros w1 Hs1 Hq1 _.
  assert (held (txn_of w1) c) as Hd1 by (by rewrite (held_quiet w w1)).
  rewrite <- (recorded_quiet w w1) by done. destruct (recorded (txn_of w1) f c) eqn:Hrec; [by apply does_ret|].
  destruct (unknown_history_looks w1 f c Hs1 Hf Hc Hd1 Hrec) as (l & Hl & Hcl & Hin & Hord).
  eapply look_bind; [exact Hl|]. intros w2 Hs2 Hq2 _. eapply does_weaken; [apply until_missing_does|]; try done.
  - intros d Hdl. rewrite elem_of_reverse in Hdl. destruct (Hin d Hdl). split; [done|]. by rewrite (held_quiet w1 w2).
  - intros i d p [Hi Hi']%reverse_lookup_some Hp. rewrite (recorded_quiet w1 w2) by done.
    destruct (Hord _ d p Hi' Hp) as [?|(j & Hj & Ep)]; [by left|right].
    pose proof (lookup_lt_Some _ _ _ Ep) as Hjl. exists (length l - S j). split; [lia|].
    rewrite reverse_lookup by lia. rewrite <- Ep. f_equal. lia.
  - intros w3 _ _ Hall. apply Hall. by apply elem_of_reverse.
Qed.

(** * Missing records *)

Definition with_missing (l : list (nat * cache_filter * oid)) (level : nat) (t : txn B) : txn B :=
  Txn (t_odb t) (commit_map t) (cache t) l (misses t) level.

Lemma same_txn (w : world) l level :
  set_txn (with_missing l level (txn_of w)) w = set_nesting level (set_missing l w).
Proof. by destruct w as [? [] ? ? ? ? ? []]. Qed.

(** Neither the list of missing records nor the nesting level are part of the records. *)
Lemma missing_looks w l level (g : world -> world) :
  w_sound w -> g w = set_nesting level (set_missing l w) ->
  Forall (miss_ok find0 V rank right (txn_of w)) l ->
  looks w (modify g) tt (fun w' => missing (txn_of w') = l).
Proof.
  intros Hs Eg Hl. rewrite <- same_txn in Eg. set (t' := with_missing l level (txn_of w)) in *.
  pose proof (ws_tracked _ _ _ _ _ _ _ w Hs) as [[S1 S2 S3 S4 S5] T2 T3 T4].
  assert (grows find0 V rank right (txn_of w) t') as Hg by (split; try done; apply odb_keeps_refl).
  assert (tracked find0 V rank right t') as Ht'.
  { split; [by split|exact T2|exact T3|]. eapply Forall_impl; [exact Hl|]. intros e. by apply miss_grows. }
  assert (quiet find0 V rank right (txn_of w) t') as Hq by (by split).
  assert (txn_of (set_txn t' w) = t') as E by apply txn_of_set.
  exists (g w). split; [done|]. rewrite Eg. split; [by apply (set_txn_sound known find0 V rank tree_of stages dom)|].
  split; [|by rewrite E]. split; [by rewrite E|done].
Qed.

Lemma slot_known_looks w g c :
  w_sound w -> is_slot g = true -> c ∈ V -> has find0 rank (txn_of w) g c = true ->
  looks w (Rewriting.known h g c) true (fun _ => True).
Proof.
  intros Hs Hg Hc Hhas. apply (gives_looks known find0 V rank tree_of stages dom Hrepo w _ true (fun _ => True) Hs).
  assert (HistoryGraph.known (B := B) h g c =
    (r ← lookup_record slot_hint g c; mret (bool_decide (is_Some r)))) as -> by (by destruct g).
  eapply gives_bind.
  { apply reads_gives, (lookup_reads find0 V rank Hgraph); [apply (ws_sound _ _ _ _ _ _ _ w Hs)|done|done]. }
  intros t' Hs' _ _. rewrite Hhas. by apply gives_ret.
Qed.

(** A missing record to be written. *)
Definition wanted (w : world) (e : nat * cache_filter * oid) : Prop :=
  exists f, e.1.2 = Real f /\ f ∈ stages /\ e.2 ∈ dom f /\ held (txn_of w) e.2 /\
    recorded (txn_of w) f e.2 = false.

Definition miss_entry (m : nat * oid * cache_filter * oid) : nat * cache_filter * oid :=
  (miss_level m, miss_filter m, miss_input m).

Lemma wanted_quiet w w' e : w_quiet w w' -> wanted w' e -> wanted w e.
Proof.
  intros Hq (f & ? & ? & ? & ? & ?). exists f. rewrite <- (held_quiet w w'), <- (recorded_quiet w w') by done.
  by split_and!.
Qed.

Lemma miss_quiet w w' e :
  w_quiet w w' -> miss_ok find0 V rank right (txn_of w) e -> miss_ok find0 V rank right (txn_of w') e.
Proof. intros [Hq _]. apply miss_grows. by apply Hq. Qed.

Lemma retain_looks w l :
  w_sound w -> Forall (miss_ok find0 V rank right (txn_of w)) l ->
  exists r, looks w (retain_unknown h l) r (fun _ => True) /\
    (forall m, m ∈ r -> wanted w (miss_entry m)) /\
    (forall level f c, (level, Real f, c) ∈ l -> recorded (txn_of w) f c = false -> r ≠ []).
Proof.
  intros Hs. revert w Hs. induction l as [|[[level g] c] l IH]; intros w Hs Hl.
  { exists []. split; [by apply looks_ret|]. split; intros; [by apply not_elem_of_nil in H11|].
    by apply not_elem_of_nil in H11. }
  apply Forall_cons in Hl as [He Hl].
  assert (exists b key, looks w (Rewriting.known h g c) b (fun _ => True) /\ cache_filter_id g = Ok key /\
    (b = false -> wanted w (level, g, c)) /\
    (b = true -> forall f, g = Real f -> recorded (txn_of w) f c = true)) as (b & key & Hk & Ekey & Hno & Hyes).
  { destruct g as [f| |]; unfold miss_ok in He; simpl in He.
    - destruct He as [[v (Hf & Hc & _)%right_inv] Hd]. exists (recorded (txn_of w) f c).
      pose proof (stage_id _ _ _ _ _ _ _ (stage_of f Hf)) as Hid. cbn [cache_filter_id].
      destruct (filter_id _ f) as [key| |]; try done. exists key. split; [by apply known_looks|].
      split; [done|]. split; [|intros Hr f' [= <-]; done]. intros Hr. exists f. by split_and!.
    - destruct He. exists true. eexists. split; [by apply slot_known_looks|]. by split.
    - destruct He. exists true. eexists. split; [by apply slot_known_looks|]. by split. }
  destruct Hk as (w1 & E1 & Hs1 & Hq1 & _).
  destruct (IH w1 Hs1) as (r & Hr & Hwanted & Hne).
  { eapply Forall_impl; [exact Hl|]. intros e. by apply miss_quiet. }
  destruct Hr as (w2 & E2 & Hs2 & Hq2 & _).
  exists (if b then r else (level, key, g, c) :: r). split; [|split].
  - exists w2. cbn [retain_unknown]. unfold mbind, M_bind. rewrite E1, Ekey. cbn [lift]. rewrite E2.
    split; [done|]. split; [done|]. split; [by transitivity w1|done].
  - assert (forall m, m ∈ r -> wanted w (miss_entry m)) as Hr.
    { intros m Hm. by apply (wanted_quiet w w1), Hwanted. }
    destruct b; [done|]. intros m [->|Hm]%elem_of_cons; [by apply Hno|by apply Hr].
  - intros level' f d [[= -> <- ->]|Hin]%elem_of_cons Hrec.
    + destruct b; [|done]. by rewrite (Hyes eq_refl f eq_refl) in Hrec.
    + rewrite <- (recorded_quiet w w1) in Hrec by done. specialize (Hne level' f d Hin Hrec). by destruct b.
Qed.

(** ** Sorting *)

Lemma sort_misses_in cmp l m : m ∈ sort_misses cmp l <-> m ∈ l.
Proof.
  assert (forall acc, m ∈ foldl (insert_sorted cmp) acc l <-> m ∈ acc \/ m ∈ l) as Hacc.
  { induction l as [|a l IH]; intros acc; simpl; [set_solver|]. rewrite IH, insert_sorted_perm. set_solver. }
  unfold sort_misses. rewrite Hacc. set_solver.
Qed.

Lemma dedup_misses_in l m : m ∈ dedup_misses l -> m ∈ l.
Proof.
  revert m. induction l as [|a l IH]; intros m; [done|]. cbn [dedup_misses].
  destruct (dedup_misses l) as [|b l']; [set_solver|]. case_decide; set_solver.
Qed.

Lemma dedup_misses_some l : l ≠ [] -> dedup_misses l ≠ [].
Proof. destruct l as [|a l]; [done|]. intros _. cbn [dedup_misses]. by repeat case_match. Qed.

Lemma get_missing_looks w :
  w_sound w -> stuck w ->
  exists l, looks w (get_missing h) l (fun _ => True) /\ l ≠ [] /\ (forall e, e ∈ l -> wanted w e).
Proof.
  intros Hs (level & f & c & Hin & Hrec).
  pose proof (tracked_misses _ _ _ _ _ (ws_tracked _ _ _ _ _ _ _ w Hs)) as Hm.
  destruct (retain_looks w _ Hs Hm) as (r & (w1 & E1 & Hs1 & Hq1 & _) & Hwanted & Hne).
  specialize (Hne level f c Hin Hrec).
  set (kept := sort_misses by_level (dedup_misses (sort_misses by_filter r))).
  assert (forall m, m ∈ kept -> m ∈ r) as Hkept.
  { intros m Hm'%sort_misses_in%dedup_misses_in%sort_misses_in. done. }
  assert (forall e, e ∈ miss_entry <$> kept -> wanted w e) as Hw.
  { intros e (m & -> & Hm')%list_elem_of_fmap. by apply Hwanted, Hkept. }
  exists (miss_entry <$> kept). split; [|split; [|done]].
  - unfold get_missing. apply looks_gets. eapply looks_bind; [by apply looks_run|]. intros w0 _ _ ->. eapply looks_bind.
    { apply (missing_looks w1 (miss_entry <$> kept) (nesting_level (txn_of w1))); [done| |].
      - by destruct w1 as [? [] ? ? ? ? ? []].
      - apply Forall_forall. intros e (f' & Ef & Hf & Hc & Hd & _)%Hw.
        unfold miss_ok. rewrite Ef. rewrite (right_eq find0 rank tree_of stages dom f' e.2 Hf Hc).
        split; [done|]. by rewrite (held_quiet w w1). }
    intros w2 Hs2 _ _. by apply looks_ret.
  - intros E%fmap_nil_inv. assert (sort_misses by_filter r ≠ []) as Hne1.
    { intros E1'. destruct r as [|m r]; [done|]. assert (m ∈ sort_misses by_filter (m :: r)) as Hin'
        by (apply sort_misses_in; left). rewrite E1' in Hin'. by apply not_elem_of_nil in Hin'. }
    apply dedup_misses_some in Hne1. destruct (dedup_misses _) as [|m l]; [done|].
    assert (m ∈ kept) as Hin' by (unfold kept; apply sort_misses_in; left).
    rewrite E in Hin'. by apply not_elem_of_nil in Hin'.
Qed.

(** ** Walking for missing records *)

Lemma nesting_looks w level : w_sound w -> looks w (modify (set_nesting level)) tt (fun _ => True).
Proof.
  intros Hs. eapply looks_weaken; [|done]. apply (missing_looks w (missing (txn_of w)) level); [done| |].
  - by destruct w as [? [] ? ? ? ? ? []].
  - apply (tracked_misses _ _ _ _ _ (ws_tracked _ _ _ _ _ _ _ w Hs)).
Qed.

(** What a missing record asks for. *)
Definition walkable (w : world) (e : nat * cache_filter * oid) : Prop :=
  exists f, e.1.2 = Real f /\ f ∈ stages /\ e.2 ∈ dom f /\ held (txn_of w) e.2.

Lemma walk_missing_does w max l :
  w_sound w -> (forall e, e ∈ l -> walkable w e) ->
  does w (walk_missing h max l) tt (fun w' =>
    forall f c l', l = (max, Real f, c) :: l' -> recorded (txn_of w') f c = true).
Proof.
  intros Hs. revert w Hs. induction l as [|[[level g] c] l IH]; intros w Hs Hl; [by apply does_ret|].
  cbn [walk_missing]. case_decide as Hd; [apply does_ret; [done|]; by intros f d l' [= ? _ _ _]|].
  destruct (Hl (level, g, c)) as (f & Eg & Hf & Hc & Hh1); [left|]. simpl in Eg, Hc, Hh1. subst g.
  eapply look_bind; [by apply nesting_looks|]. intros w1 Hs1 Hq1 _.
  eapply does_bind; [apply walk2_does; [done|done|done|]|]; [by rewrite (held_quiet w w1)|].
  intros w2 Hs2 Hg2 Hrec. eapply does_weaken; [apply (IH w2 Hs2)|].
  - intros e He. destruct (Hl e) as (f' & ? & ? & ? & ?); [by right|]. exists f'. split_and!; try done.
    apply (held_grows w1 w2); [done|]. by rewrite (held_quiet w w1).
  - intros w3 _ Hg3 _ f' d l' [= _ <- <- _]. by apply (grows_recorded _ _ _ _ _ _ (proj1 Hg3)).
Qed.

(** * The loop *)

Definition pairs : list (filter * oid) := f ← stages; c ← elements (dom f); [(f, c)].

Lemma elem_of_pairs f c : f ∈ stages -> c ∈ dom f -> (f, c) ∈ pairs.
Proof.
  intros Hf Hc. unfold pairs. apply list_elem_of_bind. exists f. split; [|done].
  apply list_elem_of_bind. exists c. split; [left|by apply elem_of_elements].
Qed.

(** The records that are still to be written. *)
Definition unwritten_in (l : list (filter * oid)) (w : world) : nat :=
  length (base.filter (fun p : filter * oid => recorded (txn_of w) p.1 p.2 = false) l).
Definition unwritten : world -> nat := unwritten_in pairs.

Lemma unwritten_grows l w w' : w_grows w w' -> unwritten_in l w' <= unwritten_in l w.
Proof.
  intros [Hg _]. unfold unwritten_in. induction l as [|p l IH]; [done|]. rewrite !filter_cons.
  repeat case_decide; simpl; try lia. destruct (recorded (txn_of w) p.1 p.2) eqn:E; [|done].
  by rewrite (grows_recorded _ _ _ _ _ _ Hg _ _ E) in *.
Qed.

Lemma unwritten_less w w' f c :
  w_grows w w' -> f ∈ stages -> c ∈ dom f -> recorded (txn_of w) f c = false -> recorded (txn_of w') f c = true ->
  unwritten w' < unwritten w.
Proof.
  intros Hg Hf Hc Hno Hyes. pose proof (elem_of_pairs f c Hf Hc) as Hin. unfold unwritten.
  apply list_elem_of_split in Hin as (l1 & l2 & ->).
  pose proof (unwritten_grows l1 w w' Hg). pose proof (unwritten_grows l2 w w' Hg).
  unfold unwritten_in in *. rewrite !filter_app, !length_app, !filter_cons.
  rewrite (decide_True (P := recorded (txn_of w) (f, c).1 (f, c).2 = false)) by done.
  rewrite (decide_False (P := recorded (txn_of w') (f, c).1 (f, c).2 = false)) by (simpl; by rewrite Hyes).
  simpl. lia.
Qed.

(** A try returns the target, or notes a missing record. *)
Definition tries (w : world) (m : wm (option oid)) (target : oid) : Prop :=
  exists r, does w m r (fun w' => match r with Some v => v = target /\ there v w' | None => stuck w' end).

(** Walking for the missing records writes one. *)
Lemma turn_does {A} w (k : wm A) a Q :
  w_sound w -> stuck w ->
  (forall w', w_sound w' -> w_grows w w' -> unwritten w' < unwritten w -> does w' k a Q) ->
  does w
    (missing ← get_missing h;
     let max_level := match last missing with Some (l, _, _) => l | None => 0 end in
     _ ← walk_missing h max_level (reverse missing); k) a Q.
Proof.
  intros Hs Hst Hk. destruct (get_missing_looks w Hs Hst) as (l & Hl & Hne & Hw).
  eapply look_bind; [exact Hl|]. intros w1 Hs1 Hq1 _. cbv zeta.
  destruct (last l) as [[[level g] c]|] eqn:El; [|by apply last_None in El].
  apply last_Some in El as [l' ->].
  destruct (Hw (level, g, c)) as (f & Eg & Hf & Hc & Hd & Hrec); [apply elem_of_app; right; left|].
  simpl in Eg, Hc, Hd, Hrec. subst g. eapply does_bind; [apply walk_missing_does; [done|]|].
  { intros e He. rewrite elem_of_reverse in He. destruct (Hw e He) as (f' & ? & ? & ? & ? & _). exists f'.
    split_and!; try done. by rewrite (held_quiet w w1). }
  intros w2 Hs2 Hg2 Hdone. rewrite reverse_snoc in Hdone. specialize (Hdone f c _ eq_refl).
  assert (w_grows w w2) as Hg by (transitivity w1; [by apply w_quiet_grows|done]).
  apply Hk; [done|done|]. by eapply unwritten_less.
Qed.

Lemma loop_does f c target :
  (forall w, w_sound w -> held (txn_of w) c -> tries w (apply_to_commit2 h h (Real f) c) target) ->
  forall n w, w_sound w -> held (txn_of w) c -> unwritten w < n ->
  does w (apply_loop h n f c) target (there target).
Proof.
  intros Htry n. induction n as [|n IH]; intros w Hs Hd Hn; [lia|]. cbn [apply_loop].
  destruct (Htry w Hs Hd) as (r & Hr). eapply does_bind; [exact Hr|]. intros w1 Hs1 Hg1 Hout.
  destruct r as [v|]; [destruct Hout as [-> ?]; by apply does_ret|].
  apply turn_does; [done|done|]. intros w2 Hs2 Hg2 Hlt. apply IH; [done| |].
  - by apply (held_grows w1 w2), (held_grows w w1).
  - pose proof (unwritten_grows pairs w w1 Hg1). unfold unwritten in *. lia.
Qed.

(** * Chains *)

(** The effect of one step of a chain on a commit. *)
Definition step_effect (f : filter) (c : oid) : oid :=
  if decide (c = zero_oid) then zero_oid
  else if decide (f = to_filter Op.Nop) then c
  else if decide (peel_filter f = Op.Empty) then zero_oid
  else filtered f c.

Definition chain_effect (l : list filter) (c : oid) : oid := foldl (fun c f => step_effect f c) c l.

(** The steps of a filter. *)
Definition is_chain (f : filter) : bool := match peel_filter f with Op.Chain _ => true | _ => false end.
Definition steps_of (f : filter) : list filter := if is_chain f then flatten_chain f else [f].

(** The history flows through the steps: each is applied where it is defined. *)
Fixpoint flows (l : list filter) (c : oid) : Prop :=
  match l with
  | [] => True
  | f :: l =>
      (c = zero_oid \/ f = to_filter Op.Nop \/ peel_filter f = Op.Empty \/ f ∈ stages /\ c ∈ dom f) /\
      flows l (step_effect f c)
  end.

Lemma step_tries w n f c :
  w_sound w -> held (txn_of w) c -> c ≠ zero_oid ->
  f = to_filter Op.Nop \/ peel_filter f = Op.Empty \/ f ∈ stages /\ c ∈ dom f ->
  tries w (apply_to_commit2 h (S n) (Real f) c) (step_effect f c).
Proof.
  intros Hs Hd Hz Hor. unfold step_effect. rewrite decide_False by done.
  destruct (decide (f = to_filter Op.Nop)) as [->|Hn].
  { exists (Some c). apply does_ret; [done|]. split; [done|by right]. }
  destruct (decide (peel_filter f = Op.Empty)) as [He|He].
  { exists (Some zero_oid). cbn [apply_to_commit2]. rewrite decide_False by (intros [= E]; done).
    cbn [op_of]. rewrite He. apply does_ret; [done|]. split; [done|by left]. }
  destruct Hor as [?|[?|[Hf Hc]]]; [done..|].
  exists (if able w f c then Some (filtered f c) else None).
  eapply does_weaken; [by apply apply_stage_does|]. intros w' Hs' _ Hout.
  destruct (able w f c); [|done]. split; [done|]. 
  apply (recorded_value find0 V rank Hgraph right Hrights (txn_of w') f c); [|by apply right_eq|done].
  apply (ws_tracked _ _ _ _ _ _ _ w' Hs').
Qed.

Lemma chain_tries n l : forall w c,
  w_sound w -> there c w -> flows l c ->
  tries w (apply_chain (apply_to_commit2 h (S n)) l c) (chain_effect l c).
Proof.
  induction l as [|f l IH]; intros w c Hs Hc Hfl.
  { exists (Some c). by apply does_ret. }
  destruct Hfl as [Hf Hfl]. cbn [apply_chain chain_effect foldl].
  fold (chain_effect l (step_effect f c)). destruct (decide (c = zero_oid)) as [->|Hz].
  { exists (Some zero_oid). apply does_ret; [done|]. split; [|by left].
    assert (step_effect f zero_oid = zero_oid) as -> by done. clear.
    induction l as [|g l IH]; [done|]. unfold chain_effect in *. cbn [foldl]. by rewrite <- IH at 1. }
  destruct Hc as [?|Hd]; [done|]. destruct Hf as [?|Hf]; [done|].
  destruct (step_tries w n f c Hs Hd Hz Hf) as (r & w1 & E1 & Hs1 & Hg1 & Hout).
  destruct r as [v|].
  - destruct Hout as [-> Hv]. destruct (IH w1 _ Hs1 Hv Hfl) as (r & w2 & E2 & Hs2 & Hg2 & Hout2).
    exists r, w2. unfold mbind, M_bind. rewrite E1, E2. split; [done|]. split; [done|]. split; [|done].
    by transitivity w1.
  - exists None, w1. unfold mbind, M_bind. by rewrite E1.
Qed.

Lemma apply_chain_eq n f c :
  is_chain f = true ->
  apply_to_commit2 h (S n) (Real f) c = apply_chain (apply_to_commit2 h n) (flatten_chain f) c.
Proof.
  intros Hf. cbn [apply_to_commit2]. rewrite decide_False by (by intros [= ->]).
  unfold is_chain in Hf. cbn [op_of]. by destruct (peel_filter f).
Qed.

(** A filter, step by step. *)
Lemma steps_tries w f c :
  w_sound w -> held (txn_of w) c -> c ≠ zero_oid -> flows (steps_of f) c ->
  tries w (apply_to_commit2 h h (Real f) c) (chain_effect (steps_of f) c).
Proof.
  intros Hs Hd Hz Hfl. pose proof (budget_graph h Hh) as Hb. unfold HistoryGraphFacts.graph_fuel in Hb.
  assert (exists n, h = S (S n)) as [n En] by (exists (pred (pred h)); lia).
  unfold steps_of in *. destruct (is_chain f) eqn:Ec.
  - rewrite En at 2. rewrite apply_chain_eq by done. apply chain_tries; [done|by right|done].
  - rewrite En at 2. destruct Hfl as [[?|Hf] _]; [done|]. by apply step_tries.
Qed.

End Budget.
End CommitRuns.
