(* ===== verification/ExampleRepo.v ===== *)
(** An example repository: a history with a commit that the filter drops, its filtered history, a
    commit pushed on top of that, and what the push is rebuilt to.  The assumptions about
    repositories hold for it. *)

From S2P Require Import Prelude Path Objects Store RevWalk RevWalkFacts RangeWalkFacts HistoryHint.
From S2P Require Import CommitCache SledCache HistoryGraph HistoryTruth HistoryGraphFacts RecordFacts HistoryLaws.
From S2P Require Import OptState Invert Step Builders Utf8 Glob Pattern Persist TreeOps TreePaths TreeWalk.
From S2P Require Import Node NodeFacts Refine NodeKeys GraphMerge Apply Trailers Rewriting Commits Push Denote.
From S2P Require Import ApplyFacts Lens FilteredHistory CommitFacts CommitRuns Concrete Ops.

Open Scope nat_scope.

(** * Objects *)

(** The commits of the history change the directory [a], and then a file outside of it. *)
Definition tree_0 : node := Node [dir "a" [file "p" "1"]; file "x" "4"].
Definition tree_1 : node := Node [dir "a" [file "p" "2"]; file "x" "4"].
Definition tree_2 : node := Node [dir "a" [file "p" "2"]; file "x" "7"].
Definition filtered_0 : node := Node [file "p" "1"].
Definition filtered_1 : node := Node [file "p" "2"].
(** A push that adds a file, and the trees it is rebuilt to on the last two commits. *)
Definition pushed : node := Node [file "p" "2"; file "q" "5"].
Definition rebuilt_1 : node := Node [dir "a" [file "p" "2"; file "q" "5"]; file "x" "4"].
Definition rebuilt_2 : node := Node [dir "a" [file "p" "2"; file "q" "5"]; file "x" "7"].

Definition id_0 : oid := id_of "020".
Definition id_1 : oid := id_of "021".
Definition id_2 : oid := id_of "022".
Definition fid_0 : oid := id_of "023".
Definition fid_1 : oid := id_of "024".
Definition pid : oid := id_of "025".
Definition rid_1 : oid := id_of "026".
Definition rid_2 : oid := id_of "027".

Definition a_commit (tree : node) (parents : list oid) (message : string) : object :=
  OCommit (Commit (node_oid tree) parents "author" "committer" None message [("gpgsig", "sig")]).

Definition repo_names : list (object * oid) :=
  [(a_commit tree_0 [] "zero", id_0); (a_commit tree_1 [id_0] "one", id_1); (a_commit tree_2 [id_1] "two", id_2);
   (a_commit filtered_0 [] "zero", fid_0); (a_commit filtered_1 [fid_0] "one", fid_1);
   (a_commit pushed [fid_1] "push", pid);
   (a_commit rebuilt_1 [id_1] "push", rid_1); (a_commit rebuilt_2 [id_2] "push", rid_2);
   (OBlob (roots_bytes [id_0]), id_of "028"); (OBlob (roots_bytes [fid_0]), id_of "029")].

#[export] Instance repo_hash : ObjectHash | 0 := named_hash repo_names eq_refl.

#[export] Existing Instances example_regex example_readers example_text example_collaborators example_spec.
#[export] Instance example_signatures : Signatures :=
  {| signature_time _ := Ok "0"; signature_write n e t := Ok (n +:+ e +:+ t) |}.

#[export] Instance no_gix : Gix := {|
  gix_merge_base _ _ _ := Err "merge";
  gix_octopus _ _ _ := Err "merge";
  gix_merge_tree _ _ _ _ := Err "merge";
  gix_merge_commit _ _ _ _ := Err "merge";
|}.
#[export] Instance element_order : HashOrder := {| hash_order := elements; hash_order_perm s := reflexivity _ |}.

Definition repo_trees_of (c : oid) : node :=
  default nempty (snd <$> List.find (fun p => bool_decide (p.1 = c))
    [(id_0, tree_0); (id_1, tree_1); (id_2, tree_2); (fid_0, filtered_0); (fid_1, filtered_1); (pid, pushed);
     (rid_1, rebuilt_1); (rid_2, rebuilt_2)]).

Definition repo_ids : list oid := [id_0; id_1; id_2; fid_0; fid_1; pid; rid_1; rid_2].
Definition repo_commits : gset oid := list_to_set repo_ids.
Definition repo_rank (c : oid) : nat :=
  if decide (c ∈ [id_0; fid_0]) then 0 else if decide (c ∈ [id_1; fid_1]) then 1
  else if decide (c = rid_2) then 3 else 2.

Definition repo_blobs : list object := OBlob <$> ["1"; "2"; "4"; "5"; "7"].
Definition commits_of (ids : list oid) : list object :=
  omap (fun c => fst <$> List.find (fun p => bool_decide (p.2 = c)) repo_names) ids.
Definition trees_of (ids : list oid) : list object := ids ≫= fun c => tree_objects (repo_trees_of c).

(** Everything, and what is there before the push is rebuilt. *)
Definition all_objects : odb := store_of (repo_blobs ++ trees_of repo_ids ++ commits_of repo_ids).
Definition fetched : list oid := [id_0; id_1; id_2; fid_0; fid_1; pid].
Definition some_objects : odb := store_of (repo_blobs ++ trees_of fetched ++ commits_of fetched).

Definition repo_find (id : oid) : option object := try_find all_objects id.

(** * The filter *)

Definition repo_filter : filter := Op.Subdir [Normal "a"].
Definition repo_dom (f : filter) : gset oid := list_to_set [id_0; id_1; id_2; rid_1; rid_2].
Definition no_globs (glob : string) : bool := false.

(** ** Checks for concrete histories *)

Section Checks.
Context `{ObjectHash} `{BisectEntry} `{EntryModes} `{RegexReplace} `{Readers} `{FilterText} `{!Collaborators}.
Context (find : oid -> option object) (ids : list oid) (rank : oid -> nat).

Definition check_history : bool :=
  forallb (fun c =>
    match find c with
    | Some (OCommit k) => forallb (fun p => bool_decide (p ∈ ids) && bool_decide (rank p < rank c)) (commit_parents k)
    | _ => false
    end) ids.

Lemma check_history_ok : check_history = true -> history find (list_to_set ids) rank.
Proof.
  unfold check_history. rewrite Forall_forallb, Forall_forall. intros Hall.
  assert (forall c k p, c ∈ (list_to_set ids : gset oid) -> find c = Some (OCommit k) -> p ∈ commit_parents k ->
    p ∈ (list_to_set ids : gset oid) /\ rank p < rank c) as Hp.
  { intros c k p Hc%elem_of_list_to_set Hk Hp. specialize (Hall c Hc). rewrite Hk, Forall_forallb, Forall_forall in Hall.
    specialize (Hall p Hp). rewrite andb_true_iff, !bool_decide_eq_true in Hall.
    split; [apply elem_of_list_to_set|]; tauto. }
  split; [|by intros; eapply Hp..]. intros c Hc%elem_of_list_to_set. specialize (Hall c Hc).
  destruct (find c) as [[| |k|]|]; try done. by exists k.
Qed.

Definition check_named : bool :=
  forallb (fun c => match find c with Some x => bool_decide (c = compute_hash x) | None => true end) ids.

Lemma check_named_ok :
  check_named = true -> forall c x, c ∈ (list_to_set ids : gset oid) -> find c = Some x -> c = compute_hash x.
Proof.
  unfold check_named. rewrite Forall_forallb, Forall_forall. intros Hall c x Hc%elem_of_list_to_set Hx.
  specialize (Hall c Hc). rewrite Hx in Hall. by apply bool_decide_eq_true in Hall.
Qed.

Context (tree_of : oid -> node).

(** The commits [D] with what they are rewritten to. *)
Definition check_universe (f : filter) (D : list oid) : bool :=
  forallb (fun c =>
    bool_decide (c ∈ ids) &&
    match find c with
    | Some (OCommit k) =>
        forallb (fun p => bool_decide (p ∈ D)) (commit_parents k) &&
        match fate_of find rank (Filter.into_meta f) k (node_oid (filtered_tree tree_of f c))
                (filtered find rank tree_of f <$> commit_parents k) with
        | Rewritten k' =>
            let id := compute_hash (OCommit k') in
            bool_decide (id ∈ ids) && bool_decide (find id = Some (OCommit k')) &&
            bool_decide (tree_of id = filtered_tree tree_of f c)
        | Becomes _ => true
        end
    | _ => true
    end) D.

Lemma check_universe_ok f D :
  check_universe f D = true -> universe find (list_to_set ids) rank tree_of f (list_to_set D).
Proof.
  unfold check_universe. rewrite Forall_forallb, Forall_forall. intros Hall.
  assert (forall c, c ∈ D -> c ∈ ids) as Hin.
  { intros c Hc. specialize (Hall c Hc). apply andb_true_iff in Hall as [Hall _]. by apply bool_decide_eq_true in Hall. }
  split.
  - intros c Hc%elem_of_list_to_set. by apply elem_of_list_to_set, Hin.
  - intros c p Hc%elem_of_list_to_set Hp. unfold parents_of in Hp. specialize (Hall c Hc).
    apply andb_true_iff in Hall as [_ Hall]. destruct (find c) as [[| |k|]|]; try (by apply not_elem_of_nil in Hp).
    apply andb_true_iff in Hall as [Hall _]. rewrite Forall_forallb, Forall_forall in Hall.
    apply elem_of_list_to_set. specialize (Hall p Hp). by apply bool_decide_eq_true in Hall.
  - intros c k k' Hc%elem_of_list_to_set Hk Hf. specialize (Hall c Hc).
    apply andb_true_iff in Hall as [_ Hall]. rewrite Hk in Hall. apply andb_true_iff in Hall as [_ Hall].
    rewrite Hf in Hall. rewrite !andb_true_iff, !bool_decide_eq_true in Hall. rewrite elem_of_list_to_set. tauto.
Qed.

End Checks.

(** ** The example passes them *)

Lemma repo_graph_ok : graph_ok repo_find repo_commits repo_rank.
Proof.
  split; [apply check_history_ok; vm_compute; reflexivity|..];
    intros c Hc%elem_of_list_to_set; revert c Hc; apply Forall_forall;
    repeat (apply Forall_cons; split; [vm_compute; done|]); by apply Forall_nil.
Qed.

(** Well-formedness of a concrete tree. *)
Ltac value_tree :=
  split; [split; [|reflexivity]; simpl; repeat (split || constructor || done || set_solver)|];
  repeat (split; [split; reflexivity|]); vm_compute; tauto.

Lemma repo_trees_ok : trees_ok repo_find repo_commits repo_trees_of.
Proof.
  intros c Hc%elem_of_list_to_set. split.
  - revert c Hc. apply Forall_forall. unfold repo_ids.
    repeat (apply Forall_cons; split; [|]); [..|by apply Forall_nil].
    + change (value tree_0). value_tree.
    + change (value tree_1). value_tree.
    + change (value tree_2). value_tree.
    + change (value filtered_0). value_tree.
    + change (value filtered_1). value_tree.
    + change (value pushed). value_tree.
    + change (value rebuilt_1). value_tree.
    + change (value rebuilt_2). value_tree.
  - revert c Hc. apply Forall_forall. unfold repo_ids.
    repeat (apply Forall_cons; split; [vm_compute; reflexivity|]). by apply Forall_nil.
Qed.

Lemma repo_stage_ok : stage_ok no_globs repo_find repo_commits repo_rank repo_trees_of repo_dom repo_filter.
Proof.
  split; [reflexivity|reflexivity|reflexivity|done|vm_compute; reflexivity|].
  apply check_universe_ok. vm_compute. reflexivity.
Qed.

Lemma repo_ok :
  repository_ok (B := sled_state) no_globs repo_find repo_commits repo_rank repo_trees_of [repo_filter] repo_dom.
Proof.
  split.
  - apply repo_graph_ok.
  - apply check_named_ok. vm_compute. reflexivity.
  - apply repo_trees_ok.
  - done.
  - intros f ->%list_elem_of_singleton. apply repo_stage_ok.
  - by intros f g ->%list_elem_of_singleton ->%list_elem_of_singleton.
Qed.

(** * A state *)

(** The optimizer has seen the filter; the caches of commits are empty. *)
Definition repo_world : world sled_state :=
  World (insert_OPTIMIZED repo_filter repo_filter no_caches) (fresh_tx some_objects) [] [] [] ∅ ∅
    (Records [] [example_sled] [] 0 0 None ∅ ∅).

Lemma repo_held c : held repo_find repo_commits (txn_of repo_world) c <-> c ∈ fetched.
Proof.
  assert (forallb (fun c => Bool.eqb (bool_decide (try_find some_objects c = repo_find c)) (bool_decide (c ∈ fetched)))
    repo_ids = true) as Hall by (vm_compute; reflexivity).
  rewrite Forall_forallb, Forall_forall in Hall.
  assert (fetched ⊆ repo_ids) as Hin by (apply (bool_decide_unpack _); vm_compute; exact I).
  unfold held, repo_commits. rewrite elem_of_list_to_set. split.
  - intros [Hc E]. specialize (Hall c Hc). apply eqb_prop in Hall. rewrite bool_decide_true in Hall by done.
    symmetry in Hall. by apply bool_decide_eq_true in Hall.
  - intros Hc. split; [by apply Hin|]. specialize (Hall c (Hin c Hc)). apply eqb_prop in Hall.
    rewrite (bool_decide_true (c ∈ fetched)) in Hall by done. by apply bool_decide_eq_true in Hall.
Qed.

Lemma repo_present c : c ∈ fetched -> present some_objects (repo_trees_of c).
Proof.
  revert c. apply Forall_forall. unfold fetched. repeat (apply Forall_cons; split; [|]); [..|by apply Forall_nil].
  - change (present some_objects tree_0). present_tree.
  - change (present some_objects tree_1). present_tree.
  - change (present some_objects tree_2). present_tree.
  - change (present some_objects filtered_0). present_tree.
  - change (present some_objects filtered_1). present_tree.
  - change (present some_objects pushed). present_tree.
Qed.

Lemma repo_sound :
  w_sound no_globs repo_find repo_commits repo_rank repo_trees_of [repo_filter] repo_dom repo_world.
Proof.
  split.
  - split; [constructor|apply fresh_tx_ok, store_of_ok|constructor|constructor|done].
  - split; [split| | |by constructor].
    + apply store_of_ok.
    + intros c p Hc Hp. rewrite !repo_held in *.
      assert (forallb (fun c => forallb (fun p => bool_decide (p ∈ fetched)) (parents_of repo_find c)) fetched = true) as Hall
        by (vm_compute; reflexivity).
      rewrite Forall_forallb, Forall_forall in Hall. specialize (Hall c Hc).
      rewrite Forall_forallb, Forall_forall in Hall. specialize (Hall p Hp). by apply bool_decide_eq_true in Hall.
    + apply Forall_singleton. split; [|done|done]. exists "cache". split; [done|]. split; [by left|].
      intros f h Hin. by apply not_elem_of_nil in Hin.
    + done.
    + intros b f c h k v ->%list_elem_of_singleton _ _ E. done.
    + done.
    + intros f c h k v v' _ E. done.
  - intros c Hc%repo_held. by apply repo_present.
  - done.
Qed.
