(* ===== verification/CommitLaws.v ===== *)
(** What filtering a history promises: the commit that [apply_to_commit] returns has the filtered
    tree, whatever the caches hold; its history consists of the filtered commits of the original
    history; and a commit is rewritten onto its filtered parents with everything but its tree
    kept, or dropped for one of them. *)

From S2P Require Import Prelude Path Objects Store RevWalk RevWalkFacts RangeWalkFacts HistoryHint.
From S2P Require Import CommitCache HistoryGraph HistoryTruth HistoryGraphFacts RecordFacts HistoryLaws.
From S2P Require Import OptState Invert Step Builders Utf8 Glob Pattern Persist TreeOps TreePaths TreeWalk.
From S2P Require Import Node NodeFacts Refine NodeKeys GraphMerge Apply Trailers Rewriting Commits Denote.
From S2P Require Import ApplyFacts Relocate OptRoutes Lens OptLaws FilteredHistory CommitFacts CommitRuns SledCache Concrete ExampleRepo Ops.

Open Scope nat_scope.

Section CommitLaws.
Context `{ObjectHash} `{BisectEntry} `{EntryModes} `{RegexReplace} `{Readers} `{FilterText}.
Context `{!Collaborators} `{GlobKeys} `{Signatures} `{Gix} {B : Type} `{LawfulBackend B}.
Context (known : string -> bool).
Context (find0 : oid -> option object) (V : gset oid) (rank : oid -> nat) (tree_of : oid -> node).
Context (stages : list filter) (dom : filter -> gset oid).
Hypothesis Hrepo : repository_ok known find0 V rank tree_of stages dom.

Abbreviation world := (world B).
Abbreviation wm := (M world).
Abbreviation filtered := (filtered find0 rank tree_of).
Abbreviation filtered_tree := (filtered_tree tree_of).
Abbreviation held := (held (B := B) find0 V).
Abbreviation right := (right find0 rank tree_of stages dom).
Abbreviation recorded := (recorded (B := B) find0 rank right).
Abbreviation w_sound := (w_sound known find0 V rank tree_of stages dom).
Abbreviation w_grows := (w_grows find0 V rank tree_of stages dom).
Abbreviation w_quiet := (w_quiet find0 V rank tree_of stages dom).
Abbreviation does := (does known find0 V rank tree_of stages dom).
Abbreviation looks := (looks known find0 V rank tree_of stages dom).
Abbreviation there := (there find0 V).
Abbreviation graph_fuel := (graph_fuel find0 V).
Abbreviation held_quiet := (held_quiet (B := B) find0 V rank tree_of stages dom).
Abbreviation held_grows := (held_grows (B := B) find0 V rank tree_of stages dom).
Abbreviation recorded_quiet := (recorded_quiet (B := B) find0 V rank tree_of stages dom).
Let Hrights : right_ok find0 V right := rights (B := B) known find0 V rank tree_of stages dom Hrepo.
Let Hgraph : graph_ok find0 V rank := repo_graph known find0 V rank tree_of stages dom Hrepo.

Abbreviation budget_ok := (budget_ok known find0 V tree_of stages dom).
Abbreviation step_effect := (step_effect find0 rank tree_of).
Abbreviation chain_effect := (chain_effect find0 rank tree_of).
Abbreviation flows := (flows find0 rank tree_of stages dom).
Abbreviation parents := (parents_of find0).

(** * Budgets *)

(** A budget is large enough from some point on. *)
Lemma budget_ample : ample (fun h => budget_ok h /\ length (pairs stages dom) < h).
Proof.
  pose proof Hrepo as [_ _ Htrees Hpat Hstages _].
  eapply ample_and; [apply (ample_ge (graph_fuel + S (length (pairs stages dom))))| |].
  { eapply ample_and; [|apply (ample_all stages (fun f h => size f <= h /\
      forall c, c ∈ elements (dom f) -> applies known f (tree_of c) h))|].
    - apply (ample_all (elements V) (fun c h => height (tree_of c) <= h)). intros c _. apply ample_ge.
    - intros f Hf. eapply ample_and; [apply (ample_ge (size f))| |intros h; apply conj].
      apply (ample_all (elements (dom f)) (fun c h => applies known f (tree_of c) h)).
      intros c Hc%elem_of_elements. apply (apply_means known Hpat (size f)); [done|by apply Hstages|].
      apply Htrees. by apply (u_inside _ _ _ _ _ _ (stage_universe _ _ _ _ _ _ _ (Hstages f Hf))).
    - intros h. apply conj. }
  intros h Hg [Ht Hf]. cbv beta in Hg. split; [|lia]. split; [lia|..].
  - intros c Hc. apply Ht. by apply elem_of_elements.
  - intros f Hin. by apply Hf.
  - intros f c Hin Hc. apply Hf; [done|]. by apply elem_of_elements.
Qed.

(** * Trees *)

(** The tree of a commit; without a commit it is empty. *)
Definition tree_at (c : oid) : node := if decide (c = zero_oid) then nempty else tree_of c.

Lemma inside_not_zero c : c ∈ V -> c ≠ zero_oid.
Proof.
  intros Hc. destruct (stored_commit _ _ _ (repo_history known find0 V rank tree_of stages dom Hrepo) c Hc) as [k Hk].
  rewrite (repo_named _ _ _ _ _ _ _ Hrepo c _ Hc Hk). apply compute_hash_not_zero.
Qed.

Definition inside (c : oid) : Prop := c = zero_oid \/ c ∈ V.

Lemma step_tree f c :
  inside c -> tree_filter known f = true ->
  c = zero_oid \/ f = to_filter Op.Nop \/ peel_filter f = Op.Empty \/ f ∈ stages /\ c ∈ dom f ->
  inside (step_effect f c) /\ tree_at (step_effect f c) = fwd f (tree_at c).
Proof.
  intros Hc Kf Hor. unfold CommitRuns.step_effect, tree_at.
  destruct (decide (c = zero_oid)) as [->|Hz].
  { split; [by left|]. by rewrite decide_True, (fwd_nempty known) by done. }
  destruct (decide (f = to_filter Op.Nop)) as [->|Hn]; [by rewrite decide_False|].
  destruct (decide (peel_filter f = Op.Empty)) as [He|He].
  { split; [by left|]. rewrite decide_True by done. unfold fwd. by rewrite <- sem_peel, He. }
  destruct Hor as [?|[?|[?|[Hf Hd]]]]; [done..|].
  destruct (filtered_value known find0 V rank tree_of stages dom Hrepo f c Hf Hd) as [[-> Ht]|[HV Ht]].
  - split; [by left|]. by rewrite decide_True.
  - split; [by right|]. rewrite decide_False by (by apply inside_not_zero). done.
Qed.

Lemma chain_tree l c :
  inside c -> Forall (fun f => tree_filter known f = true) l -> flows l c ->
  inside (chain_effect l c) /\ tree_at (chain_effect l c) = through (sem <$> l) (tree_at c).
Proof.
  intros Hc Hl. revert c Hc. induction Hl as [|f l Kf _ IH]; intros c Hc Hfl; [done|].
  destruct Hfl as [Hf Hfl]. destruct (step_tree f c Hc Kf Hf) as [Hin Ht].
  destruct (IH _ Hin Hfl) as [Hin' Ht']. split; [done|]. etransitivity; [exact Ht'|]. by rewrite Ht.
Qed.

Lemma steps_tree f c :
  c ∈ V -> tree_filter known f = true -> flows (steps_of f) c ->
  inside (chain_effect (steps_of f) c) /\ tree_at (chain_effect (steps_of f) c) = fwd f (tree_of c).
Proof.
  intros Hc Kf Hfl. assert (tree_at c = tree_of c) as Et.
  { unfold tree_at. by rewrite decide_False by (by apply inside_not_zero). }
  rewrite <- Et. destruct (chain_tree (steps_of f) c) as [Hin Ht]; [by right| |done|].
  - unfold steps_of. destruct (is_chain f); [|by constructor]. by apply expand_sem.
  - split; [done|]. rewrite Ht. unfold steps_of. destruct (is_chain f); [|done].
    destruct (expand_sem known f [] Kf) as [_ E]. apply E.
Qed.

(** * Histories *)

Abbreviation ancestor := (ancestor find0).

(** The commit [a] is one that the commit [d] has been rewritten to. *)
Definition rewrite_of (d a : oid) : Prop :=
  exists kd ka, find0 d = Some (OCommit kd) /\ find0 a = Some (OCommit ka) /\
    commit_author ka = commit_author kd /\ commit_committer ka = commit_committer kd /\
    commit_message ka = commit_message kd.

Lemma rewrite_of_refl c : c ∈ V -> rewrite_of c c.
Proof.
  intros Hc. destruct (stored_commit _ _ _ (repo_history known find0 V rank tree_of stages dom Hrepo) c Hc) as [k Hk].
  by exists k, k.
Qed.

Lemma rewrite_of_trans a b c : rewrite_of a b -> rewrite_of b c -> rewrite_of a c.
Proof.
  intros (ka & kb & Ea & Eb & ? & ? & ?) (kb' & kc & Eb' & Ec & ? & ? & ?). rewrite Eb in Eb'.
  injection Eb' as <-. exists ka, kc. split_and!; congruence.
Qed.

Lemma ancestor_in c a : c ∈ V -> ancestor c a -> a ∈ V.
Proof.
  intros Hc Ha. induction Ha as [|x y z Hy _ IH]; [done|]. apply IH.
  by destruct (history_parent _ _ _ (repo_history known find0 V rank tree_of stages dom Hrepo) x y Hc Hy).
Qed.

(** The filtered history has filtered commits only. *)
Lemma filtered_ancestors f c a :
  f ∈ stages -> c ∈ dom f -> filtered f c ≠ zero_oid -> ancestor (filtered f c) a ->
  exists d, ancestor c d /\ d ∈ dom f /\ a = filtered f d /\ rewrite_of d a.
Proof.
  intros Hf. pose proof (stage_universe _ _ _ _ _ _ _ (stage_of known find0 V rank tree_of stages dom Hrepo f Hf)) as Hu.
  pose proof (repo_history known find0 V rank tree_of stages dom Hrepo) as Hist.
  remember (rank c) as n eqn:En. revert c En. induction n as [n IH] using lt_wf_ind. intros c -> Hc Hz Ha.
  pose proof (u_inside _ _ _ _ _ _ Hu c Hc) as HcV.
  destruct (stored_commit _ _ _ Hist c HcV) as [k Hk]. pose proof (filtered_eq find0 V rank tree_of Hist f c k HcV Hk) as Ef.
  assert (forall p, p ∈ commit_parents k -> filtered f p ≠ zero_oid -> ancestor (filtered f p) a ->
    exists d, ancestor c d /\ d ∈ dom f /\ a = filtered f d /\ rewrite_of d a) as Hparent.
  { intros p Hp Hpz Hpa. assert (p ∈ parents c) as Hpc by (unfold parents_of; by rewrite Hk).
    destruct (IH (rank p) (parents_smaller _ _ _ Hist c k p HcV Hk Hp) p eq_refl) as (d & Hd & ?); [|done|done|].
    - by apply (u_parents _ _ _ _ _ _ Hu c).
    - exists d. split; [|done]. by eapply rtc_l. }
  destruct (fate_of _ _ _ k _ _) as [id|k'] eqn:Efate; simpl in Ef.
  - apply becomes_tree in Efate as [[-> _]|(Hin & _ & _)]; [done|].
    apply list_elem_of_fmap in Hin as (p & -> & Hp). rewrite Ef in Hz, Ha. by apply (Hparent p).
  - destruct (u_written _ _ _ _ _ _ Hu c k k' Hc Hk Efate) as (HV & Hfind & _).
    apply rewritten_shape in Efate as (sel & Ek & Hsel). rewrite Ef in Ha.
    apply rtc_inv in Ha as [<-|(p' & Hp' & Ha)].
    + exists c. split; [apply rtc_refl|]. split; [done|]. split; [done|]. exists k, k'. subst k'. done.
    + unfold parents_of in Hp'. rewrite Hfind in Hp'. subst k'. apply Hsel in Hp' as [Hin Hpz].
      apply list_elem_of_fmap in Hin as (p & -> & Hp). by apply (Hparent p).
Qed.

Lemma chain_zero l : chain_effect l zero_oid = zero_oid.
Proof. induction l as [|f l IH]; [done|]. exact IH. Qed.

Lemma chain_ancestors l c a :
  c ∈ V -> Forall (fun f => tree_filter known f = true) l -> flows l c -> chain_effect l c ≠ zero_oid ->
  ancestor (chain_effect l c) a ->
  exists d, ancestor c d /\ flows l d /\ a = chain_effect l d /\ rewrite_of d a.
Proof.
  intros Hc Hl. revert c Hc. induction Hl as [|f l Kf _ IH]; intros c Hc Hfl Hz Ha.
  { exists a. split; [done|]. split; [done|]. split; [done|].
    by apply rewrite_of_refl, (ancestor_in c). }
  destruct Hfl as [Hf Hfl]. change (chain_effect (f :: l) c) with (chain_effect l (step_effect f c)) in Hz, Ha.
  destruct (step_tree f c) as [[E|Hin] _]; [by right|done|done| |].
  { by rewrite E, chain_zero in Hz. }
  destruct (IH _ Hin Hfl Hz Ha) as (b & Hb & Hbf & Eb & Hrb).
  assert (exists d, ancestor c d /\ step_effect f d = b /\ rewrite_of d b /\
    (d = zero_oid \/ f = to_filter Op.Nop \/ peel_filter f = Op.Empty \/ f ∈ stages /\ d ∈ dom f))
    as (d & Hd & Ed & Hrd & Hfd).
  { pose proof (inside_not_zero _ Hin) as Hnz. unfold CommitRuns.step_effect in Hb, Hnz |- *.
    rewrite (decide_False (P := c = zero_oid)) in Hb, Hnz by (by apply inside_not_zero).
    destruct (decide (f = to_filter Op.Nop)) as [->|Hn].
    - assert (b ∈ V) as HbV by (by apply (ancestor_in c)). exists b. split; [done|]. rewrite decide_False by (by apply inside_not_zero). split; [done|].
      split; [by apply rewrite_of_refl|tauto].
    - destruct (decide (peel_filter f = Op.Empty)); [done|].
      destruct Hf as [?|[?|[?|[Hf Hcd]]]]; [by apply inside_not_zero in Hc|done..|].
      destruct (filtered_ancestors f c b Hf Hcd Hnz Hb) as (d & Hd & Hdd & -> & Hr). exists d.
      split; [done|]. rewrite decide_False; [split; [done|]; split; [done|tauto]|].
      apply inside_not_zero. by apply (dom_inside known find0 V rank tree_of stages dom Hrepo f). }
  exists d. split; [done|]. split; [by split; [|rewrite Ed]|]. split; [by subst b|]. by eapply rewrite_of_trans.
Qed.

(** * Application to a commit *)

Lemma caches_sound w c : w_sound w -> inverted_ok c -> w_sound (set_caches c w).
Proof. intros [[W1 W2 W3 W4 W5] Ht Htr Hl] Hc. by split. Qed.

Lemma apply_to_commit_runs h f g c w caches :
  budget_ok h -> length (pairs stages dom) < h ->
  Step.optimize h h f (w_caches w) = (Ok g, caches) -> inverted_ok caches ->
  w_sound w -> held (txn_of w) c -> flows (steps_of g) c ->
  exists w', apply_to_commit h f c w = (Ok (chain_effect (steps_of g) c), w') /\ w_sound w' /\
    grows find0 V rank right (txn_of w) (txn_of w') /\ there (chain_effect (steps_of g) c) w'.
Proof.
  intros Hh Hn Eo Hc Hs Hd Hfl. pose proof (caches_sound w caches Hs Hc) as Hs1.
  assert (c ≠ zero_oid) as Hz by (apply inside_not_zero, Hd).
  destruct (loop_does known find0 V rank tree_of stages dom Hrepo h Hh g c (chain_effect (steps_of g) c))
    with (n := h) (w := set_caches caches w) as (w' & E & Hs' & [Hg _] & Ht); [|done|done| |].
  - intros w1 Hsw Hdw. by apply (steps_tries known find0 V rank tree_of stages dom Hrepo h Hh).
  - eapply Nat.le_lt_trans; [apply length_filter|done].
  - exists w'. split; [|done]. unfold apply_to_commit, optimize, on_caches, mbind, M_bind. by rewrite Eo, E.
Qed.

(** What a state has at the place of a commit with a tree: the commit and its tree, or nothing
    if the tree is empty. *)
Definition stores (w : world) (r : oid) (t : node) : Prop :=
  r = zero_oid /\ t = nempty \/
  exists k, try_find (w_odb w) r = Some (OCommit k) /\ commit_tree k = node_oid t /\ present (w_odb w) t.

Lemma there_stores w r t : w_sound w -> there r w -> inside r -> tree_at r = t -> stores w r t.
Proof.
  intros Hs Hr Hin <-. unfold tree_at. destruct Hr as [->|Hr]; [left; by rewrite decide_True|right].
  rewrite decide_False by (apply inside_not_zero, Hr).
  destruct (held_commit known find0 V rank tree_of stages dom Hrepo w r Hr) as (k & _ & Hk & Et).
  destruct (held_tree known find0 V rank tree_of stages dom Hrepo w r Hs Hr) as (_ & E & Hp).
  exists k. by rewrite <- Et.
Qed.

(** The stored history of a commit is its history. *)
Lemma found_ancestors w c d :
  w_sound w -> held (txn_of w) c ->
  RangeWalkFacts.ancestor (try_find (w_odb w)) c d <-> ancestor c d /\ held (txn_of w) d.
Proof.
  intros Hs Hc. split.
  - intros Ha. induction Ha as [|x y z Hy _ IH]; [split; [apply rtc_refl|done]|].
    change (w_odb w) with (t_odb (txn_of w)) in Hy. rewrite (found_parents find0 V (txn_of w)) in Hy by done.
    destruct (IH (parent_held known find0 V rank tree_of stages dom w x y Hs Hc Hy)) as [? ?].
    split; [by eapply rtc_l|done].
  - intros [Ha _]. induction Ha as [|x y z Hy _ IH]; [apply rtc_refl|]. eapply rtc_l.
    + change (w_odb w) with (t_odb (txn_of w)). by rewrite (found_parents find0 V (txn_of w)).
    + apply IH. by apply (parent_held known find0 V rank tree_of stages dom w x y).
Qed.

Lemma ancestor_held w c d : w_sound w -> held (txn_of w) c -> ancestor c d -> held (txn_of w) d.
Proof.
  intros Hs Hc Ha. induction Ha as [|x y z Hy _ IH]; [done|]. apply IH.
  by apply (parent_held known find0 V rank tree_of stages dom w x y).
Qed.

(** Filters that the optimizer keeps, as its table says. *)
Definition optimal (f : filter) (w : world) : Prop := table_get (OPTIMIZED (w_caches w)) f = Some f.

Lemma optimal_optimize f w h : optimal f w -> Step.optimize h h f (w_caches w) = (Ok f, w_caches w).
Proof. unfold optimal, Step.optimize, optimize_impl, mbind, M_bind, gets. by intros ->. Qed.

Lemma sound_inverted w : w_sound w -> inverted_ok (w_caches w).
Proof. by intros [[? ? ? ? ?] _ _ _]. Qed.

(** C6: Filtering a commit.  For every filter of trees ([tree_filter]) that is recorded as its own
    optimum, and every commit whose way through the steps of the filter lies in the described
    histories ([flows]), from every state of the object database, of the memo tables and of the
    caches of commits that is sound, [apply_to_commit] returns the filtered commit: one whose
    tree is exactly the filtered tree of the commit, stored with all that it needs, or the zero
    id, which happens only if the filtered tree is empty.  Which commit that is depends on the
    history alone and not on what is cached; the loop over missing records ends, and the state
    it leaves is sound again. *)
Theorem apply_to_commit_filters f c w :
  w_sound w -> held (txn_of w) c -> tree_filter known f = true -> flows (steps_of f) c -> optimal f w ->
  ample (fun h => exists w',
    apply_to_commit h f c w = (Ok (chain_effect (steps_of f) c), w') /\ w_sound w' /\
    stores w' (chain_effect (steps_of f) c) (fwd f (tree_of c))).
Proof.
  intros Hs Hd Kf Hfl Ho. eapply ample_impl; [apply budget_ample|]. intros h [Hh Hn].
  destruct (apply_to_commit_runs h f f c w (w_caches w) Hh Hn (optimal_optimize f w h Ho) (sound_inverted w Hs) Hs Hd Hfl)
    as (w' & E & Hs' & _ & Ht).
  exists w'. split; [done|]. split; [done|]. destruct (steps_tree f c) as [Hin Et]; [apply Hd|done|done|].
  by apply there_stores.
Qed.

(** C13: Filtering a commit through the optimizer.  If the optimizer turns a filter that moves
    files into another one that moves files, without overlapping branches in either, then
    [apply_to_commit] of the filter as it was written returns a commit whose tree is the tree
    that the filter as it was written makes of the tree of the commit, if the subtrees of that
    have the usual mode: the optimizer cannot be told from the result. *)
Theorem apply_to_commit_optimizes f g c w caches :
  w_sound w -> tables_ok (w_caches w) -> held (txn_of w) c -> plain (tree_of c) ->
  relocates known f = true -> relocates known g = true -> flows (steps_of g) c ->
  ample (fun h => Step.optimize h h f (w_caches w) = (Ok g, caches)) ->
  ample (fun h => exists w',
    apply_to_commit h f c w = (Ok (chain_effect (steps_of g) c), w') /\ w_sound w' /\
    stores w' (chain_effect (steps_of g) c) (fwd f (tree_of c))).
Proof.
  intros Hs Htab Hd Hpl Hf Hg Hfl Ho. eapply ample_and; [apply budget_ample|exact Ho|]. intros h [Hh Hn] Eo.
  destruct (optimize_safe false h h f _ Htab) as [Htab' Hpass]. unfold Step.optimize in Eo. rewrite Eo in Htab', Hpass.
  destruct (Hpass (relocates_movable known f Hf)) as [_ Ee].
  destruct (apply_to_commit_runs h f g c w caches Hh Hn Eo) as (w' & E & Hs' & _ & Ht); [|done..|].
  { apply Htab'. }
  exists w'. split; [done|]. split; [done|]. destruct (relocates_tree_filter known g Hg) as [Kg _].
  rewrite (same_edges_fwd known f g); [|done..| |done].
  - destruct (steps_tree g c) as [Hin Et]; [apply Hd|done|done|]. by apply there_stores.
  - apply (repo_trees _ _ _ _ _ _ _ Hrepo), Hd.
Qed.

(** C7: The filtered history.  For a filter of trees that is recorded as its own optimum, every
    commit in the history of the commit that [apply_to_commit] returns, as stored in the state it
    leaves, is what a commit in the history of the original commit has been rewritten to: it has
    the tree that the filter makes of the tree of that commit, its author, committer and
    message. *)
Theorem filtered_history f c w :
  w_sound w -> held (txn_of w) c -> tree_filter known f = true -> flows (steps_of f) c -> optimal f w ->
  ample (fun h => exists r w', apply_to_commit h f c w = (Ok r, w') /\
      forall a, r ≠ zero_oid -> RangeWalkFacts.ancestor (try_find (w_odb w')) r a ->
      exists d kd ka,
        RangeWalkFacts.ancestor (try_find (w_odb w)) c d /\
        try_find (w_odb w) d = Some (OCommit kd) /\ try_find (w_odb w') a = Some (OCommit ka) /\
        commit_tree ka = node_oid (fwd f (tree_of d)) /\ commit_author ka = commit_author kd /\
        commit_committer ka = commit_committer kd /\ commit_message ka = commit_message kd).
Proof.
  intros Hs Hd Kf Hfl Ho. eapply ample_impl; [apply budget_ample|]. intros h [Hh Hn].
  destruct (apply_to_commit_runs h f f c w (w_caches w) Hh Hn (optimal_optimize f w h Ho) (sound_inverted w Hs) Hs Hd Hfl)
    as (w' & E & Hs' & _ & Ht).
  exists (chain_effect (steps_of f) c), w'. split; [done|]. intros a Hz Ha. destruct Ht as [?|Hr]; [done|].
  apply found_ancestors in Ha as [Ha Hah]; [|done|done].
  assert (Forall (fun f => tree_filter known f = true) (steps_of f)) as Hl.
  { unfold steps_of. destruct (is_chain f); [|by constructor]. by apply expand_sem. }
  destruct (chain_ancestors (steps_of f) c a (proj1 Hd) Hl Hfl Hz Ha) as (d & Had & Hfd & Ea & kd & ka & Ed & Eka & ? & ? & ?).
  pose proof (ancestor_held w c d Hs Hd Had) as Hdh. exists d, kd, ka.
  split; [by apply found_ancestors|]. split; [by rewrite <- Ed; apply Hdh|]. split; [by rewrite <- Eka; apply Hah|].
  split; [|by split_and!]. destruct (steps_tree f d (proj1 Hdh) Kf Hfd) as [_ Et].
  destruct (held_tree known find0 V rank tree_of stages dom Hrepo w' a Hs' Hah) as (_ & Eo' & _).
  unfold tree_id_of in Eo'. rewrite Eka in Eo'. rewrite Eo', <- Et, <- Ea. unfold tree_at.
  by rewrite decide_False by (apply inside_not_zero, Hah).
Qed.

(** C8: Commits are dropped only without loss.  [create_filtered_commit2], for a commit with a
    filtered tree and filtered parents, either writes a commit with that tree, parents among the
    filtered ones, and the author, committer, encoding and message of the original, or it returns
    a filtered parent that already has that tree, or the zero id, the latter only for the empty
    tree. *)
Theorem create_filtered_commit2_lossless w options c k x ids t :
  w_sound w -> held (txn_of w) c -> find0 c = Some (OCommit k) -> tree_only x ->
  Rewrite.tree_id x = node_oid t -> present (w_odb w) t -> (forall p, p ∈ ids -> there p w) ->
  fate_ok find0 V tree_of (fate_of find0 rank options k (Rewrite.tree_id x) ids) t ->
  ample (fun h => exists r is_new w',
    create_filtered_commit2 h k ids x options w = (Ok (r, is_new), w') /\ w_sound w' /\
    if (is_new : bool) then exists k',
      try_find (w_odb w') r = Some (OCommit k') /\ commit_tree k' = node_oid t /\
      (forall p, p ∈ commit_parents k' -> p ∈ ids /\ p ≠ zero_oid) /\
      commit_author k' = commit_author k /\ commit_committer k' = commit_committer k /\
      commit_encoding k' = commit_encoding k /\ commit_message k' = commit_message k
    else r = zero_oid /\ node_oid t = empty_id \/
      r ∈ ids /\ exists k', try_find (w_odb w') r = Some (OCommit k') /\ commit_tree k' = node_oid t).
Proof.
  intros Hs Hc Hk Hx Htree Hp Hids Hfate. eapply ample_impl; [apply budget_ample|]. intros h [Hh _].
  destruct (create2_does known find0 V rank tree_of stages dom Hrepo h w options c k x ids t)
    as (w' & E & Hs' & Hg & Hthere); try done.
  { apply (budget_height _ _ _ _ _ _ _ Hh), Hc. } { apply (budget_graph _ _ _ _ _ _ _ Hh). }
  rewrite Htree in *. destruct (fate_of find0 rank options k (node_oid t) ids) as [id|k'] eqn:Ef; cbn [fate_id fate_new] in *.
  - exists id, false, w'. split; [done|]. split; [done|].
    apply becomes_tree in Ef as [?|(Hin & Hz & Et)]; [by left|right]. split; [done|].
    destruct Hthere as [?|Hd]; [done|].
    destruct (held_commit known find0 V rank tree_of stages dom Hrepo w' id Hd) as (k' & _ & Hf & Ek).
    exists k'. split; [done|congruence].
  - eexists _, true, w'. split; [exact E|]. split; [done|]. exists k'.
    destruct (Hfate k' eq_refl) as (HV & Hfind & _).
    apply rewritten_shape in Ef as (sel & -> & Hsel). split_and!; try done.
    destruct Hthere as [Hz|[_ Hd]]; [by apply (inside_not_zero _ HV) in Hz|]. by rewrite <- Hfind.
Qed.

End CommitLaws.

(** * The theorems apply *)

Lemma repo_flows : CommitRuns.flows repo_find repo_rank repo_trees_of [repo_filter] repo_dom (steps_of repo_filter) id_2.
Proof. split; [|done]. do 3 right. split; [left|]. by apply elem_of_list_to_set; right; right; left. Qed.

Lemma repo_held_2 : held repo_find repo_commits (txn_of repo_world) id_2.
Proof. apply repo_held. right; right; left. Qed.

Lemma repo_optimal : optimal repo_filter repo_world.
Proof. reflexivity. Qed.

Lemma repo_effect :
  CommitRuns.chain_effect repo_find repo_rank repo_trees_of (steps_of repo_filter) id_2 = fid_1.
Proof. vm_compute. reflexivity. Qed.

(** The last commit does not change the directory: it is filtered to the commit before it. *)
Lemma apply_to_commit_filters_witness :
  exists h w', apply_to_commit h repo_filter id_2 repo_world = (Ok fid_1, w') /\
    stores w' fid_1 (fwd repo_filter tree_2).
Proof.
  destruct (apply_to_commit_filters no_globs repo_find repo_commits repo_rank repo_trees_of [repo_filter] repo_dom
    repo_ok repo_filter id_2 repo_world) as [h0 Hh].
  - exact repo_sound.
  - exact repo_held_2.
  - reflexivity.
  - exact repo_flows.
  - exact repo_optimal.
  - destruct (Hh h0 (le_n _)) as (w' & E & _ & Hst).
    rewrite repo_effect in E, Hst. exists h0, w'. split; [exact E|exact Hst].
Defined.

(** The same commit, for a filter that the optimizer shortens to the one of the repository. *)
Definition written_filter : filter := Op.Chain [Op.Nop; repo_filter; Op.Nop].

Lemma written_optimized :
  ample (fun h => Step.optimize h h written_filter (w_caches repo_world) =
    Step.optimize 20 20 written_filter (w_caches repo_world)).
Proof.
  exists 20. intros h Hh. replace h with (20 + (h - 20)) by lia. generalize (h - 20). clear h Hh. intros k.
  vm_compute. reflexivity.
Qed.

Lemma apply_to_commit_optimizes_witness :
  exists h w', apply_to_commit h written_filter id_2 repo_world = (Ok fid_1, w') /\
    stores w' fid_1 (fwd written_filter tree_2).
Proof.
  destruct (apply_to_commit_optimizes no_globs repo_find repo_commits repo_rank repo_trees_of [repo_filter] repo_dom
    repo_ok written_filter repo_filter id_2 repo_world (Step.optimize 20 20 written_filter (w_caches repo_world)).2) as [h0 Hh].
  - exact repo_sound.
  - apply told_OPTIMIZED; [intros _; apply keeps_same; reflexivity|exact no_caches_ok].
  - exact repo_held_2.
  - vm_compute. repeat (split; [done|]). tauto.
  - reflexivity.
  - reflexivity.
  - exact repo_flows.
  - exact written_optimized.
  - destruct (Hh h0 (le_n _)) as (w' & E & _ & Hst).
    rewrite repo_effect in E, Hst. exists h0, w'. split; [exact E|exact Hst].
Defined.

Lemma filtered_history_witness :
  exists h r w', apply_to_commit h repo_filter id_2 repo_world = (Ok r, w') /\
    forall a, r ≠ zero_oid -> RangeWalkFacts.ancestor (try_find (w_odb w')) r a ->
    exists d ka, RangeWalkFacts.ancestor (try_find (w_odb repo_world)) id_2 d /\
      try_find (w_odb w') a = Some (OCommit ka) /\ commit_tree ka = node_oid (fwd repo_filter (repo_trees_of d)).
Proof.
  destruct (filtered_history no_globs repo_find repo_commits repo_rank repo_trees_of [repo_filter] repo_dom
    repo_ok repo_filter id_2 repo_world) as [h0 Hh].
  - exact repo_sound.
  - exact repo_held_2.
  - reflexivity.
  - exact repo_flows.
  - exact repo_optimal.
  - destruct (Hh h0 (le_n _)) as (r & w' & E & Hall).
    exists h0, r, w'. split; [exact E|]. intros a Hz Ha.
    destruct (Hall a Hz Ha) as (d & kd & ka & Hd & _ & Hka & Ht & _). exists d, ka. split; [exact Hd|].
    split; [exact Hka|exact Ht].
Defined.

(** The commit of the last example, with its filtered parent. *)
Definition commit_2 : commit :=
  Commit (node_oid tree_2) [id_1] "author" "committer" None "two" [("gpgsig", "sig")].

Lemma create_filtered_commit2_lossless_witness :
  exists h r is_new w',
    create_filtered_commit2 h commit_2 [fid_1] (Rewrite.from_tree (node_oid filtered_1)) [] repo_world =
      (Ok (r, is_new), w') /\
    if (is_new : bool) then True else r = zero_oid \/ r ∈ [fid_1].
Proof.
  destruct (create_filtered_commit2_lossless no_globs repo_find repo_commits repo_rank repo_trees_of [repo_filter]
    repo_dom repo_ok repo_world [] id_2 commit_2 (Rewrite.from_tree (node_oid filtered_1)) [fid_1] filtered_1) as [h0 Hh].
  - exact repo_sound.
  - exact repo_held_2.
  - vm_compute. reflexivity.
  - split; [reflexivity|split; reflexivity].
  - reflexivity.
  - apply (repo_present fid_1). do 4 right. left.
  - intros p ->%list_elem_of_singleton. right. apply repo_held. do 4 right. left.
  - intros k' E. vm_compute in E. discriminate E.
  - destruct (Hh h0 (le_n _)) as (r & is_new & w' & E & _ & Hr). exists h0, r, is_new, w'. split; [exact E|].
    destruct is_new; [exact I|]. destruct Hr as [[Hz _]|[Hin _]]; [left; exact Hz|right; exact Hin].
Defined.
