(* ===== verification/PushFacts.v ===== *)
(** Pushing: the search for the original of a filtered commit, and [unapply_filter], which
    rebuilds pushed commits on top of the originals so that filtering gives them back. *)

From S2P Require Import Prelude Path Objects Store RevWalk RevWalkFacts RangeWalkFacts HistoryHint.
From S2P Require Import CommitCache HistoryGraph HistoryTruth HistoryGraphFacts RecordFacts HistoryLaws.
From S2P Require Import OptState Invert Step Builders Utf8 Glob Pattern Persist TreeOps TreePaths TreeWalk.
From S2P Require Import Node NodeFacts Refine NodeKeys GraphMerge Apply Trailers Rewriting Commits Denote.
From S2P Require Import ApplyFacts FilteredHistory CommitFacts CommitRuns CommitLaws Relocate Lens Push Ops.

Open Scope nat_scope.

Section PushFacts.
Context `{ObjectHash} `{BisectEntry} `{EntryModes} `{RegexReplace} `{Readers} `{FilterText}.
Context `{!Collaborators} `{GlobKeys} `{Signatures} `{Gix} `{HashOrder} {B : Type} `{LawfulBackend B}.
Context (known : string -> bool).
Context (find0 : oid -> option object) (V : gset oid) (rank : oid -> nat) (tree_of : oid -> node).
Context (stages : list filter) (dom : filter -> gset oid).
Hypothesis Hrepo : repository_ok known find0 V rank tree_of stages dom.

Abbreviation world := (world B).
Abbreviation wm := (M world).
Abbreviation filtered := (filtered find0 rank tree_of).
Abbreviation filtered_tree := (filtered_tree tree_of).
Abbreviation held := (held (B := B) find0 V).
Abbreviation right := (right find0 rank tree_of stages dom).
Abbreviation recorded := (recorded (B := B) find0 rank right).
Abbreviation w_sound := (w_sound known find0 V rank tree_of stages dom).
Abbreviation w_grows := (w_grows find0 V rank tree_of stages dom).
Abbreviation w_quiet := (w_quiet find0 V rank tree_of stages dom).
Abbreviation does := (does known find0 V rank tree_of stages dom).
Abbreviation looks := (looks known find0 V rank tree_of stages dom).
Abbreviation there := (there find0 V).
Abbreviation graph_fuel := (graph_fuel find0 V).
Abbreviation held_quiet := (held_quiet (B := B) find0 V rank tree_of stages dom).
Abbreviation held_grows := (held_grows (B := B) find0 V rank tree_of stages dom).
Abbreviation recorded_quiet := (recorded_quiet (B := B) find0 V rank tree_of stages dom).
Let Hrights : right_ok find0 V right := rights (B := B) known find0 V rank tree_of stages dom Hrepo.
Let Hgraph : graph_ok find0 V rank := repo_graph known find0 V rank tree_of stages dom Hrepo.

Abbreviation budget_ok := (budget_ok known find0 V tree_of stages dom).
Abbreviation step_effect := (step_effect find0 rank tree_of).
Abbreviation chain_effect := (chain_effect find0 rank tree_of).
Abbreviation flows := (flows find0 rank tree_of stages dom).
Abbreviation parents := (parents_of find0).


(** * Rebuilt commits *)

(** A pushed commit on another tree and on top of the original of its parent. *)
Definition rebuilt (k : commit) (original : oid) (t : node) : commit :=
  Commit (node_oid t) [original] (commit_author k) (commit_committer k) (commit_encoding k) (commit_message k)
    (commit_extra_headers k).

Lemma rebuilt_filtered f original prev q k r :
  let t := nunapply f (tree_of q) (tree_of original) in
  f ∈ stages -> relocates known f = true -> gpgsig_mode (Filter.into_meta f) = Preserve ->
  original ∈ V -> filtered f original = prev -> prev ∈ V -> tree_of prev = filtered_tree f original ->
  q ∈ V -> find0 q = Some (OCommit k) -> commit_parents k = [prev] ->
  plain (tree_of q) -> plain (tree_of original) -> reachable f (tree_of q) = true ->
  r ∈ V -> find0 r = Some (OCommit (rebuilt k original t)) -> tree_of r = t ->
  filtered f r = q.
Proof.
  intros t Hf Hr Hg Ho Eo Hp Etp Hq Hk Hkp Plq Plo Hre HrV Hkr Etr.
  pose proof (repo_history known find0 V rank tree_of stages dom Hrepo) as Hist.
  pose proof (repo_trees _ _ _ _ _ _ _ Hrepo) as Htrees.
  destruct (Htrees q Hq) as [Vq Eq], (Htrees original Ho) as [Vo Eto], (Htrees prev Hp) as [Vp Ep].
  assert (filtered_tree f r = tree_of q) as Eft.
  { unfold FilteredHistory.filtered_tree. rewrite Etr. by apply (put_get known). }
  rewrite (filtered_eq find0 V rank tree_of Hist f r _ HrV Hkr), Eft.
  cbn [rebuilt commit_parents fmap list_fmap]. rewrite Eo.
  assert (prev ≠ zero_oid) as Hz by (by apply (inside_not_zero known find0 V rank tree_of stages dom Hrepo)).
  assert (surviving find0 rank (Filter.into_meta f) [prev] = [prev]) as Es.
  { unfold surviving. rewrite filter_cons, decide_True, filter_nil by done. unfold with_content.
    rewrite bool_decide_false by (simpl; lia). simpl. by case_match. }
  unfold fate_of. rewrite Es. unfold fate_onto, trivial_onto. rewrite orb_false_r.
  assert (unaffected find0 (rebuilt k original t) (node_oid (tree_of q)) [prev] = false) as ->.
  { unfold unaffected. cbn [forallb rebuilt commit_parents commit_tree]. unfold has_tree.
    destruct (bool_decide (tree_id_of find0 prev = _)) eqn:E; [|done]. apply bool_decide_eq_true in E.
    assert (tree_of prev = tree_of q) as Et.
    { rewrite Ep in E. apply wf_oid_inj; [apply Vp|apply Vq| |done]. by rewrite (proj2 (proj1 Vp)), (proj2 (proj1 Vq)). }
    assert (t = tree_of original) as ->.
    { unfold t. rewrite <- Et, Etp. by apply (get_put known). }
    rewrite bool_decide_true by done. done. }
  cbn [fate_id]. assert (rewritten (Filter.into_meta f) (rebuilt k original t) (node_oid (tree_of q)) [prev] = k) as ->.
  { unfold rewritten. rewrite Hg, <- Eq. unfold tree_id_of. rewrite Hk, <- Hkp. by destruct k. }
  symmetry. by apply (repo_named _ _ _ _ _ _ _ Hrepo).
Qed.

(** * Applying the filter *)

Lemma optimal_grows f w w' : w_grows w w' -> optimal f w -> optimal f w'.
Proof. intros [_ Ho]. unfold optimal. by rewrite Ho. Qed.

Lemma stage_steps f c :
  f ∈ stages -> c ∈ dom f -> flows (steps_of f) c /\ chain_effect (steps_of f) c = filtered f c.
Proof.
  intros Hf Hc. destruct (stage_of known find0 V rank tree_of stages dom Hrepo f Hf) as [_ Pf _ Nf _ _].
  assert (is_chain f = false /\ peel_filter f ≠ Op.Empty) as [Ec Ee].
  { unfold per_tree in Pf. unfold is_chain. by destruct (peel_filter f). }
  unfold steps_of. rewrite Ec. split; [split; [|done]; tauto|].
  unfold CommitRuns.chain_effect, CommitRuns.step_effect. cbn [foldl].
  rewrite decide_False by (eapply (inside_not_zero known), (dom_inside known); done).
  by rewrite decide_False, decide_False.
Qed.

(** What the walks and the loops need. *)
Record push_budget (h : nat) : Prop := {
  push_ok : budget_ok h;
  push_pairs : length (pairs stages dom) < h;
  push_size : base.size V < h;
  push_unapply f c d : f ∈ stages -> relocates known f = true -> c ∈ V -> d ∈ V ->
    forall n m o commits, size f <= n -> present o (tree_of c) -> present o (tree_of d) ->
    wyields known o (unapply h (apply_impl h n) (S m) f (node_oid (tree_of c)) (node_oid (tree_of d)) commits)
      (node_oid (nunapply f (tree_of c) (tree_of d))) (fun o' => present o' (nunapply f (tree_of c) (tree_of d)));
}.

(** * Lines of commits *)

(** Commits each on top of the one before it. *)
Fixpoint line (prev : oid) (qs : list oid) : Prop :=
  match qs with
  | [] => True
  | q :: qs => parents q = [prev] /\ q ∈ V /\ line q qs
  end.

Lemma line_rank qs : forall prev q, line prev qs -> q ∈ qs -> rank prev < rank q.
Proof.
  induction qs as [|x qs IH]; intros prev q Hl Hq; [by apply not_elem_of_nil in Hq|].
  destruct Hl as (Hx & HxV & Hl).
  assert (rank prev < rank x) as Hlt.
  { destruct (history_parent _ _ _ (repo_history known find0 V rank tree_of stages dom Hrepo) x prev HxV); [|done].
    rewrite Hx. left. }
  apply elem_of_cons in Hq as [->|Hq]; [done|]. specialize (IH x q Hl Hq). lia.
Qed.

Lemma line_ancestor qs c : forall prev,
  line prev qs ->
  RangeWalkFacts.ancestor find0 (default prev (last qs)) c <-> c ∈ qs \/ RangeWalkFacts.ancestor find0 prev c.
Proof.
  induction qs as [|q qs IH]; intros prev Hl; [simpl; set_solver|]. destruct Hl as (Hq & HqV & Hl).
  assert (default prev (last (q :: qs)) = default q (last qs)) as -> by (rewrite last_cons; by destruct (last qs)).
  rewrite (IH q Hl), elem_of_cons. split.
  - intros [?|Ha]; [tauto|]. apply rtc_inv in Ha as [->|(y & Hy & Ha)]; [tauto|].
    rewrite Hq in Hy. apply list_elem_of_singleton in Hy as ->. tauto.
  - intros [[->|?]|Ha]; [right; apply rtc_refl|tauto|right]. eapply rtc_l; [|exact Ha]. rewrite Hq. left.
Qed.

Lemma line_parent qs : forall prev q x, line prev (q :: qs) -> x ∈ qs -> exists y, y ∈ q :: qs /\ y ∈ parents x.
Proof.
  induction qs as [|a qs IH]; intros prev q x (_ & HqV & Hl) Hx; [by apply not_elem_of_nil in Hx|].
  apply elem_of_cons in Hx as [->|Hx].
  - exists q. split; [left|]. destruct Hl as (-> & _). left.
  - destruct (IH q a x Hl Hx) as (y & Hy & Hp). exists y. split; [by right|done].
Qed.

(** A line has one order with parents first. *)
Lemma line_order qs : forall prev l,
  line prev qs -> NoDup l -> (forall c, c ∈ l <-> c ∈ qs) ->
  (forall i j c p, l !! i = Some p -> l !! j = Some c -> p ∈ parents c -> i < j) -> l = qs.
Proof.
  induction qs as [|q qs IH]; intros prev l Hl Hnd Hin Hord.
  { destruct l as [|x l]; [done|]. exfalso. apply (not_elem_of_nil x), Hin. left. }
  destruct l as [|x l]; [exfalso; apply (not_elem_of_nil q), Hin; left|].
  assert (x = q) as ->.
  { assert (x ∈ q :: qs) as [->|Hx]%elem_of_cons by (apply Hin; left); [done|].
    destruct (line_parent qs prev q x Hl Hx) as (y & Hy%Hin & Hp).
    apply list_elem_of_lookup in Hy as [i Hi]. specialize (Hord i 0 x y Hi eq_refl Hp). lia. }
  destruct Hl as (_ & _ & Hl). apply NoDup_cons in Hnd as [Hq Hnd]. f_equal.
  apply (IH q); [done|done| |].
  - intros c. specialize (Hin c). rewrite !elem_of_cons in Hin. split; intros Hc.
    + destruct (proj1 Hin (or_intror Hc)) as [->|?]; [done|done].
    + destruct (proj2 Hin (or_intror Hc)) as [->|?]; [|done]. pose proof (line_rank qs q q Hl Hc). lia.
  - intros i j c p Hi Hj Hp. specialize (Hord (S i) (S j) c p Hi Hj Hp). lia.
Qed.

Section Budget.
Context (h : nat) (Hh : push_budget h).

Lemma apply_to_commit_does w f c :
  w_sound w -> f ∈ stages -> c ∈ dom f -> held (txn_of w) c -> optimal f w ->
  does w (apply_to_commit h f c) (filtered f c) (there (filtered f c)).
Proof.
  intros Hs Hf Hc Hd Ho. destruct (stage_steps f c Hf Hc) as [Hfl Ee].
  assert (c ≠ zero_oid) as Hz by (by apply (inside_not_zero known find0 V rank tree_of stages dom Hrepo), Hd).
  unfold apply_to_commit.
  assert (optimize h f w = (Ok f, w)) as Eo.
  { unfold optimize, on_caches. rewrite (optimal_optimize f w h Ho). by destruct w. }
  destruct (loop_does known find0 V rank tree_of stages dom Hrepo h (push_ok h Hh) f c (filtered f c))
    with (n := h) (w := w) as (w' & E & Hs' & Hg & Ht); [|done|done| |].
  - intros w1 Hs1 Hd1. rewrite <- Ee. by apply (steps_tries known find0 V rank tree_of stages dom Hrepo h (push_ok h Hh)).
  - eapply Nat.le_lt_trans; [apply length_filter|apply (push_pairs h Hh)].
  - exists w'. unfold mbind, M_bind. by rewrite Eo, E.
Qed.

(** * The search for originals *)

(** ** The walk over the history *)

Lemma parent_ids_looks w c :
  w_sound w -> held (txn_of w) c -> looks w (on_tx (Apply.read_parent_ids c)) (parents c) (fun w' => w' = w).
Proof.
  intros Hs Hc. apply tx_reads; [done|].
  destruct (held_commit known find0 V rank tree_of stages dom Hrepo w c Hc) as (k & Hk & Hf & _).
  destruct (find_odb_read _ _ _ Hf) as [src Hr]. unfold Apply.read_parent_ids, mbind, M_bind, read_object.
  unfold w_odb in Hr. rewrite Hr. unfold parents_of. by rewrite Hk.
Qed.

(** A commit that is filtered to the one that is looked for. *)
Definition matches (f : filter) (q c : oid) : bool := bool_decide (q = filtered f c).

Lemma hash_order_singleton (id : oid) : hash_order {[id]} = [id].
Proof. apply Permutation_singleton_r. by rewrite hash_order_perm, elements_singleton. Qed.

Lemma hash_order_empty : hash_order ∅ = [].
Proof. apply Permutation_nil_r. by rewrite hash_order_perm, elements_empty. Qed.

Lemma push_turns : exists n, h = S (S n).
Proof.
  pose proof (budget_graph _ _ _ _ _ _ _ (push_ok h Hh)) as Hb. unfold HistoryGraphFacts.graph_fuel in Hb.
  exists (pred (pred h)). lia.
Qed.

(** The only pending commit is processed. *)
Lemma process_does w f q id (unlocked : gset oid) :
  w_sound w -> f ∈ stages -> id ∈ dom f -> held (txn_of w) id -> optimal f w -> id ∈ unlocked ->
  does w (process_pending h h f q (Search ({[id]} ∪ ∅) unlocked None))
    (matches f q id,
     if matches f q id then Search ∅ unlocked (Some id)
     else Search ∅ (list_to_set (parents id) ∪ unlocked) None) (fun _ => True).
Proof.
  intros Hs Hf Hc Hd Ho Hun. destruct push_turns as [n En]. rewrite En at 2. rewrite union_empty_r_L.
  cbn [process_pending pending]. rewrite hash_order_singleton. cbn [List.find pending Push.unlocked].
  rewrite bool_decide_true by done.
  assert (({[id]} : gset oid) ∖ {[id]} = ∅) as -> by set_solver.
  eapply does_bind; [by apply apply_to_commit_does|]. intros w1 Hs1 Hg1 _. unfold matches. case_decide as Em.
  { rewrite bool_decide_true by done. by apply does_ret. }
  rewrite bool_decide_false by done. assert (held (txn_of w1) id) as Hd1 by (by apply (held_grows w w1)).
  eapply look_bind; [by apply parent_ids_looks|]. intros w2 _ _ ->. cbn [pending Push.unlocked Push.found].
  rewrite hash_order_empty. cbn [List.find]. by apply does_ret.
Qed.

(** What the walk keeps: every commit visited so far has been processed. *)
Record search_ok (f : filter) (w0 : world) (tip q : oid) (log : list oid) (x : world * search) : Prop := {
  so_sound : w_sound x.1;
  so_grows : w_grows w0 x.1;
  so_pending : pending x.2 = ∅;
  so_held c : c ∈ log -> held (txn_of w0) c;
  so_tip : tip ∈ unlocked x.2;
  so_unlocked c p : c ∈ log -> matches f q c = false -> p ∈ parents c -> p ∈ unlocked x.2;
  so_none : (forall c, c ∈ log -> matches f q c = false) -> found x.2 = None;
  so_some l c : log = l ++ [c] -> matches f q c = true -> found x.2 = Some c;
}.

Lemma visit_original_visits f w tip q :
  w_sound w -> f ∈ stages -> optimal f w ->
  visits (followed_parents (try_find (w_odb w)) false) [tip] (held_set find0 V (txn_of w) ∩ dom f)
    (matches f q) (search_ok f w tip q) (visit_original h f q).
Proof.
  intros Hs Hf Ho c log [w1 s1] Hc Hfrom Hmiss [O1 O2 O3 Oh O4 O5 O6 O7]. simpl in *.
  apply elem_of_intersection in Hc as [Hc Hcd]. rewrite elem_of_held in Hc.
  destruct s1 as [pen unl fnd]. simpl in *. subst pen. rewrite O6 in * by done.
  assert (c ∈ unl) as Hun.
  { destruct Hfrom as [->%list_elem_of_singleton|(d & Hd & Hcp)]; [done|].
    apply (O5 d c Hd (Hmiss d Hd)). unfold followed_parents in Hcp.
    by rewrite (found_parents find0 V (txn_of w) d) in Hcp by (by apply Oh). }
  destruct (process_does w1 f q c unl) as (w2 & E & Hs2 & Hg2 & _); [done|done|done| | |done|].
  { by apply (held_grows w w1). } { by apply (optimal_grows f w w1). }
  exists (w2, if matches f q c then Search ∅ unl (Some c) else Search ∅ (list_to_set (parents c) ∪ unl) None).
  split.
  { unfold visit_original. cbn [pending Push.unlocked Push.found]. rewrite decide_True by done. rewrite E. done. }
  assert (forall l d, log ++ [c] = l ++ [d] -> d = c) as Elast by (intros l d [_ ?]%app_inj_tail; done).
  assert (forall d, d ∈ log ++ [c] -> d ∈ log \/ d = c) as Hin
    by (intros d; rewrite elem_of_app, list_elem_of_singleton; tauto).
  split; cbn [fst snd].
  - done.
  - by transitivity w1.
  - by destruct (matches f q c).
  - intros d [Hd| ->]%Hin; [by apply Oh|done].
  - destruct (matches f q c); cbn [Push.unlocked]; [done|set_solver].
  - intros d p [Hd| ->]%Hin Hm Hp.
    + pose proof (O5 d p Hd Hm Hp). destruct (matches f q c); cbn [Push.unlocked]; [done|set_solver].
    + rewrite Hm. cbn [Push.unlocked]. apply elem_of_union. left. by apply elem_of_list_to_set.
  - intros Hall. rewrite Hall by (apply elem_of_app; right; left). done.
  - intros l d El Hm. pose proof (Elast l d El) as ->. by rewrite Hm.
Qed.

Lemma walked_ancestor find tip c :
  walked (followed_parents find false) (fun _ => false) [tip] c <-> RangeWalkFacts.ancestor find tip c.
Proof.
  split.
  - induction 1 as [x ->%list_elem_of_singleton _|x p _ IH Hp _]; [apply rtc_refl|by eapply rtc_r].
  - revert c. apply rtc_ind_r; [by constructor; [left|]|]. intros x y _ Hy IH. by eapply walked_parent.
Qed.

(** [discover_original] finds a commit of the history that is filtered to [q], if there is one. *)
Lemma discover_original_does w f tip q :
  w_sound w -> f ∈ stages -> tip ∈ dom f -> held (txn_of w) tip -> optimal f w ->
  exists r, does w (discover_original h f tip q) r (fun _ => True) /\
    match r with
    | Some c => RangeWalkFacts.ancestor find0 tip c /\ filtered f c = q
    | None => forall c, RangeWalkFacts.ancestor find0 tip c -> filtered f c ≠ q
    end.
Proof.
  intros Hs Hf Hc Hd Ho. pose proof (walked_history known find0 V rank tree_of stages dom Hrepo w f Hs Hf) as Hist.
  set (U := held_set find0 V (txn_of w) ∩ dom f) in *.
  assert (tip ∈ U) as HcU by (apply elem_of_intersection; by rewrite elem_of_held).
  destruct (discover_walk _ _ _ Hist (search_ok f w tip q) (visit_original h f q) [tip] (matches f q) false h
    (w, Search ∅ {[tip]} None)) as (walk & log & [w' s'] & Ew & Ed & Hrec & Hok).
  { by apply visit_original_visits. }
  { split; cbn [fst snd pending Push.unlocked Push.found]; try done.
    - by intros c Hn%not_elem_of_nil.
    - by apply elem_of_singleton.
    - by intros c p Hn%not_elem_of_nil.
    - by intros [|? ?]. }
  { by repeat constructor. }
  { etransitivity; [apply (walk_fuel_inside _ _ (held_set find0 V (txn_of w))), intersection_subseteq_l|].
    etransitivity; [|apply (budget_graph _ _ _ _ _ _ _ (push_ok h Hh))].
    apply (found_fuel find0 V rank (txn_of w) tip), (ws_sound _ _ _ _ _ _ _ w Hs). }
  exists (found s'). split.
  - exists w'. split; [|split; [apply (so_sound _ _ _ _ _ _ Hok)|split; [apply (so_grows _ _ _ _ _ _ Hok)|done]]].
    unfold discover_original. unfold walk_from in Ew. simpl in Ew. unfold w_odb in *.
    destruct (RevWalk.push _ tip RevWalk.new); simpl in Ew; try done. injection Ew as ->. by rewrite Ed.
  - assert (forall c, walked (followed_parents (try_find (w_odb w)) false) (fun _ => false) [tip] c <->
      RangeWalkFacts.ancestor find0 tip c) as Hanc.
    { intros c. rewrite walked_ancestor, (found_ancestors known find0 V rank tree_of stages dom w tip c) by done.
      split; [by intros []|]. intros Ha. split; [done|].
      by apply (ancestor_held known find0 V rank tree_of stages dom w tip). }
    destruct Hrec as (_ & _ & Hwalk & [(l & c & -> & Hm & _)|[Hno Hall]]).
    + pose proof (so_some _ _ _ _ _ _ Hok l c eq_refl Hm) as Efound. cbn [snd] in Efound. rewrite Efound. apply bool_decide_eq_true in Hm.
      split; [|done]. apply Hanc, Hwalk. apply elem_of_app. right. left.
    + rewrite Forall_forall in Hno. pose proof (so_none _ _ _ _ _ _ Hok Hno) as Efound. cbn [snd] in Efound.
      rewrite Efound. intros c Ha%Hanc%Hall%Hno.
      apply bool_decide_eq_false in Ha. congruence.
Qed.

(** ** With the map of originals *)

Abbreviation originals := (gmap oid oid).
Abbreviation pm := (M (world * originals)).

(** Everything in the map is an original of its key. *)
Definition originals_ok (f : filter) (w : world) (o : originals) : Prop :=
  forall q c, o !! q = Some c -> c ∈ dom f /\ held (txn_of w) c /\ filtered f c = q.

Lemma originals_grow f w w' o : w_grows w w' -> originals_ok f w o -> originals_ok f w' o.
Proof. intros Hg Ho q c Hc. destruct (Ho q c Hc) as (? & ? & ?). split_and!; try done. by apply (held_grows w w'). Qed.

Lemma originals_insert f w o c :
  originals_ok f w o -> c ∈ dom f -> held (txn_of w) c -> originals_ok f w (<[filtered f c := c]> o).
Proof.
  intros Ho Hc Hd q d. rewrite lookup_insert_Some. intros [[<- <-]|[_ Hq]]; [done|by apply Ho].
Qed.

(** [m] returns [a], in a sound state that has grown, with [Q]. *)
Definition pdoes {A} (w : world) (o : originals) (m : pm A) (a : A) (Q : world -> originals -> Prop) : Prop :=
  exists w' o', m (w, o) = (Ok a, (w', o')) /\ w_sound w' /\ w_grows w w' /\ Q w' o'.

Lemma pdoes_bind {A C} w o (m : pm A) (k : A -> pm C) a c Q R :
  pdoes w o m a Q -> (forall w' o', w_sound w' -> w_grows w w' -> Q w' o' -> pdoes w' o' (k a) c R) ->
  pdoes w o (m ≫= k) c R.
Proof.
  intros (w1 & o1 & E1 & Hs1 & Hg1 & HQ) Hk. destruct (Hk w1 o1 Hs1 Hg1 HQ) as (w2 & o2 & E2 & Hs2 & Hg2 & HR).
  exists w2, o2. unfold mbind, M_bind. rewrite E1. split; [done|]. split; [done|]. split; [|done].
  by transitivity w1.
Qed.

Lemma pdoes_ret {A} w o (a : A) (Q : world -> originals -> Prop) : w_sound w -> Q w o -> pdoes w o (mret a) a Q.
Proof. intros Hs HQ. by exists w, o. Qed.

Lemma pdoes_weaken {A} w o (m : pm A) a (Q R : world -> originals -> Prop) :
  pdoes w o m a Q -> (forall w' o', w_sound w' -> w_grows w w' -> Q w' o' -> R w' o') -> pdoes w o m a R.
Proof. intros (w' & o' & E & Hs & Hg & HQ) HR. exists w', o'. eauto 10. Qed.

Lemma in_world_does {A} w o (m : wm A) a Q :
  does w m a Q -> pdoes w o (in_world m) a (fun w' o' => o' = o /\ Q w').
Proof. intros (w' & E & Hs & Hg & HQ). exists w', o. unfold in_world. by rewrite E. Qed.

Lemma in_world_looks {A} w o (m : wm A) a Q :
  looks w m a Q -> pdoes w o (in_world m) a (fun w' o' => o' = o /\ w_quiet w w' /\ Q w').
Proof. intros Hm. by apply in_world_does, looks_does. Qed.

Lemma original_of_does w o q : w_sound w -> pdoes w o (original_of q) (o !! q) (fun w' o' => w' = w /\ o' = o).
Proof. intros Hs. by exists w, o. Qed.

Lemma set_original_does w o q c :
  w_sound w -> pdoes w o (set_original q c) tt (fun w' o' => w' = w /\ o' = <[q := c]> o).
Proof. intros Hs. by exists w, (<[q := c]> o). Qed.

(** An original of [q] in the history of [tip]. *)
Definition original_in (f : filter) (tip q c : oid) : Prop :=
  RangeWalkFacts.ancestor find0 tip c /\ filtered f c = q.

Lemma held_not_zero (w : world) c : held (txn_of w) c -> c ≠ zero_oid.
Proof. intros Hc. by apply (inside_not_zero known find0 V rank tree_of stages dom Hrepo), Hc. Qed.

Lemma dom_ancestor f c d : f ∈ stages -> c ∈ dom f -> RangeWalkFacts.ancestor find0 c d -> d ∈ dom f.
Proof.
  intros Hf Hc Ha. induction Ha as [|x y z Hy _ IH]; [done|]. apply IH.
  by apply (stage_parent known find0 V rank tree_of stages dom Hrepo f x).
Qed.

(** The map afterwards: only entries of the filtered tip and of [q] may be new. *)
Definition learns (f : filter) (tip q : oid) (o : originals) (w' : world) (o' : originals) : Prop :=
  originals_ok f w' o' /\ forall x, x ≠ filtered f tip -> x ≠ q -> o' !! x = o !! x.

Lemma find_unapply_base_does w o f tip q :
  w_sound w -> f ∈ stages -> tip ∈ dom f -> held (txn_of w) tip -> optimal f w -> originals_ok f w o ->
  exists r, pdoes w o (find_unapply_base h f tip q) r (learns f tip q o) /\
    (r ≠ zero_oid -> r ∈ dom f /\ held (txn_of w) r /\ filtered f r = q) /\
    (r = zero_oid -> forall c, ~ original_in f tip q c) /\ (forall c, o !! q = Some c -> r = c) /\
    (o !! q = None -> r ≠ zero_oid -> original_in f tip q r).
Proof.
  intros Hs Hf Hc Hd Ho Hor. unfold find_unapply_base.
  destruct (o !! q) as [r|] eqn:Eq.
  { destruct (Hor q r Eq) as (Hr & Hrd & Er). exists r. split; [|split; [done|split; [|split; [congruence|done]]]].
    - eapply pdoes_bind; [by apply original_of_does|]. intros w1 o1 _ _ [-> ->]. rewrite Eq. by apply pdoes_ret.
    - intros ->. by apply held_not_zero in Hrd. }
  pose proof (held_not_zero w tip Hd) as Hz.
  destruct (apply_to_commit_does w f tip Hs Hf Hc Hd Ho) as (w1 & E1 & Hs1 & Hg1 & _).
  assert (held (txn_of w1) tip) as Hd1 by (by apply (held_grows w w1)).
  destruct (discover_original_does w1 f tip q Hs1 Hf Hc Hd1 (optimal_grows f w w1 Hg1 Ho)) as (r & Hdisc & Hr).
  set (o1 := if decide (filtered f tip = zero_oid) then o else <[filtered f tip := tip]> o).
  assert (learns f tip q o w1 o1) as [Ho1 Hl1].
  { unfold o1. case_decide; [split; [by eapply originals_grow|done]|]. split.
    - by apply originals_insert; [eapply originals_grow|..].
    - intros x Hx _. by rewrite lookup_insert_ne. }
  assert (forall c, r = Some c -> c ∈ dom f /\ held (txn_of w) c /\ filtered f c = q) as Hsome.
  { intros c ->. destruct Hr as [Ha Ec]. split; [by apply (dom_ancestor f tip)|]. split; [|done].
    by apply (ancestor_held known find0 V rank tree_of stages dom w tip). }
  exists (default zero_oid r). split; [|split; [|split; [|split; [done|]]]].
  - eapply pdoes_bind; [by apply original_of_does|]. intros w0 o0 _ _ [-> ->]. rewrite Eq, decide_False by done.
    eapply pdoes_bind; [apply (in_world_does w o _ _ (fun w' => w' = w1)); by exists w1|].
    intros w0 o0 _ _ [-> ->].
    eapply (pdoes_bind _ _ _ _ tt _ (fun w' o' => w' = w1 /\ o' = o1)).
    { unfold o1. case_decide; [by apply pdoes_ret|by apply set_original_does]. }
    intros w0 o0 _ _ [-> ->]. eapply pdoes_bind; [by apply in_world_does|].
    intros w2 o2 Hs2 Hg2 [-> _]. destruct r as [c|]; simpl.
    2:{ apply pdoes_ret; [done|]. split; [by eapply originals_grow|done]. }
    destruct (Hsome c eq_refl) as (Hcd & Hch & <-).
    eapply pdoes_bind; [by apply set_original_does|]. intros w0 o0 _ _ [-> ->]. apply pdoes_ret; [done|]. split.
    + apply originals_insert; [by eapply originals_grow|done|]. by apply (held_grows w1 w2), (held_grows w w1).
    + intros x Hx Hxq. rewrite lookup_insert_ne by done. by apply Hl1.
  - destruct r as [c|]; [|done]. intros _. by apply Hsome.
  - destruct r as [c|]; simpl.
    + intros ->. destruct (Hsome _ eq_refl) as (_ & Hch & _). by apply held_not_zero in Hch.
    + intros _ c [Ha Ec]. by apply (Hr c).
  - intros _. by destruct r as [c|].
Qed.

(** ** The commit that introduced a filtered one *)

(** The commits that a walk reaches, along first parents only if it is linear. *)
Definition reached (linear : bool) (tip c : oid) : Prop :=
  rtc (fun x y => y ∈ followed_parents find0 linear x) tip c.

Lemma reached_ancestor linear tip c : reached linear tip c -> RangeWalkFacts.ancestor find0 tip c.
Proof. intros Hr. induction Hr as [|x y z Hy%followed_parent _ IH]; [apply rtc_refl|by eapply rtc_l]. Qed.

Lemma linear_fuel find (U : gset oid) linear tips : walk_fuel find U linear tips <= walk_fuel find U false tips.
Proof.
  unfold walk_fuel. apply le_n_S, Nat.add_le_mono_l. destruct linear; [|done].
  induction (elements U) as [|c l IH]; simpl; [done|]. unfold followed_parents in *. rewrite length_take. lia.
Qed.

Lemma walked_reached w linear tip c :
  w_sound w -> held (txn_of w) tip ->
  walked (followed_parents (try_find (w_odb w)) linear) (fun _ => false) [tip] c <-> reached linear tip c.
Proof.
  intros Hs Hd. assert (forall x, held (txn_of w) x ->
    followed_parents (try_find (w_odb w)) linear x = followed_parents find0 linear x) as Hfound.
  { intros x Hx. unfold followed_parents. change (w_odb w) with (t_odb (txn_of w)). by rewrite (found_parents find0 V (txn_of w)). }
  assert (forall x, reached linear tip x -> held (txn_of w) x) as Hheld.
  { intros x Hx%reached_ancestor. by apply (ancestor_held known find0 V rank tree_of stages dom w tip). }
  split.
  - induction 1 as [x ->%list_elem_of_singleton _|x p _ IH Hp _]; [apply rtc_refl|].
    rewrite Hfound in Hp by (by apply Hheld). by eapply rtc_r.
  - revert c. apply rtc_ind_r; [by constructor; [left|]|]. intros x y Hx Hy IH.
    eapply walked_parent; [exact IH|by rewrite Hfound by (by apply Hheld)|done].
Qed.

Lemma whole_history_looks w linear tip :
  w_sound w -> held (txn_of w) tip ->
  exists l, looks w (whole_history h linear tip) l (fun w' => w' = w) /\ forall c, c ∈ l <-> reached linear tip c.
Proof.
  intros Hs Hd. pose proof (held_history find0 V rank Hgraph (txn_of w) (ws_sound _ _ _ _ _ _ _ w Hs)) as Hist.
  destruct (topo_walk _ _ _ Hist (fun _ : unit => True) (fun _ u => (false, u)) [tip] (fun _ => false) linear h tt)
    as (walk & l & [] & Ew & El & _ & _ & Hmem & _).
  { done. } { done. } { repeat constructor. by apply elem_of_held. }
  { etransitivity; [apply linear_fuel|]. etransitivity; [|apply (budget_graph _ _ _ _ _ _ _ (push_ok h Hh))].
    apply (found_fuel find0 V rank (txn_of w) tip), (ws_sound _ _ _ _ _ _ _ w Hs). }
  exists l. split.
  - unfold whole_history. apply looks_gets. exists w. split; [|split; [done|split; [reflexivity|done]]].
    unfold walk_from in Ew. simpl in Ew. cbn [t_odb txn_of] in *.
    destruct (RevWalk.push _ tip _); simpl in Ew; try done. injection Ew as ->.
    unfold lift. cbn [mbind res_bind]. by rewrite El.
  - intros c. rewrite Hmem. by apply walked_reached.
Qed.

(** A commit that its only parent is filtered like. *)
Definition passes (f : filter) (q c : oid) : bool :=
  match parents c with [p] => bool_decide (filtered f p = q) | _ => false end.

Lemma does_step {A C} w w1 (m : wm A) (k : A -> wm C) a c Q :
  m w = (Ok a, w1) -> w_grows w w1 -> does w1 (k a) c Q -> does w (m ≫= k) c Q.
Proof.
  intros E Hg (w2 & E2 & Hs2 & Hg2 & HQ). exists w2. unfold mbind, M_bind. rewrite E.
  split; [done|]. split; [done|]. split; [by transitivity w1|done].
Qed.

Lemma first_original_does f q ids : forall w,
  w_sound w -> f ∈ stages -> optimal f w -> (forall c, c ∈ ids -> c ∈ dom f /\ held (txn_of w) c) ->
  exists r, does w (first_original h f q ids) r (fun _ => True) /\
    (r ≠ zero_oid -> r ∈ ids /\ filtered f r = q /\ passes f q r = false) /\
    (r = zero_oid -> forall c, c ∈ ids -> filtered f c = q -> passes f q c = true).
Proof.
  induction ids as [|c ids IH]; intros w Hs Hf Ho Hids.
  { exists zero_oid. split; [by apply does_ret|]. split; [done|]. by intros _ c Hn%not_elem_of_nil. }
  destruct (Hids c) as [Hc Hd]; [left|].
  assert (forall w', w_sound w' -> w_grows w w' -> (filtered f c = q -> passes f q c = true) ->
    exists r, does w' (first_original h f q ids) r (fun _ => True) /\
    (r ≠ zero_oid -> r ∈ c :: ids /\ filtered f r = q /\ passes f q r = false) /\
    (r = zero_oid -> forall d, d ∈ c :: ids -> filtered f d = q -> passes f q d = true)) as Hrest.
  { intros w' Hs' Hg' Hskip. destruct (IH w') as (r & Hr & Hsome & Hnone); [done|done|by apply (optimal_grows f w w')| |].
    - intros d Hin. destruct (Hids d) as [? ?]; [by right|]. split; [done|]. by apply (held_grows w w').
    - exists r. split; [done|]. split; [intros Hz; destruct (Hsome Hz); split; [by right|done]|].
      intros Hz d [->|Hin]%elem_of_cons; [done|by apply Hnone]. }
  destruct (apply_to_commit_does w f c Hs Hf Hc Hd Ho) as (w1 & E1 & Hs1 & Hg1 & _).
  assert (held (txn_of w1) c) as Hd1 by (by apply (held_grows w w1)). cbn [first_original].
  destruct (decide (q = filtered f c)) as [Eq|Hne].
  2:{ destruct (Hrest w1 Hs1 Hg1) as (r & Hr & Hrest'); [congruence|]. exists r. split; [|done].
      eapply does_step; [done|done|]. by rewrite decide_False. }
  assert (passes f q c = false -> (c ≠ zero_oid -> c ∈ c :: ids /\ filtered f c = q /\ passes f q c = false) /\
    (c = zero_oid -> forall d, d ∈ c :: ids -> filtered f d = q -> passes f q d = true)) as Hhere.
  { intros Hp. split; [intros _; split; [left|done]|]. intros ->. by apply held_not_zero in Hd. }
  assert (forall r (k : list oid -> wm oid), does w1 (k (parents c)) r (fun _ => True) ->
    does w1 (if decide (q = filtered f c) then ps ← on_tx (Apply.read_parent_ids c); k ps
             else first_original h f q ids) r (fun _ => True)) as Hread.
  { intros r k Hk. rewrite decide_True by done.
    eapply look_bind; [by apply parent_ids_looks|]. by intros w0 _ _ ->. }
  assert (passes f q c = match parents c with [p] => bool_decide (filtered f p = q) | _ => false end) as Epass by done.
  destruct (parents c) as [|p [|p2 ps]] eqn:Epar.
  - exists c. split; [|by apply Hhere]. eapply does_step; [done|done|]. by apply Hread, does_ret.
  - assert (p ∈ parents c) as Hp by (rewrite Epar; left).
    destruct (apply_to_commit_does w1 f p Hs1 Hf) as (w2 & E2 & Hs2 & Hg2 & _).
    { by apply (stage_parent known find0 V rank tree_of stages dom Hrepo f c). }
    { by apply (parent_held known find0 V rank tree_of stages dom w1 c). }
    { by apply (optimal_grows f w w1). }
    assert (w_grows w w2) as Hg12 by (by transitivity w1).
    destruct (decide (filtered f p = q)) as [Ep|Hn].
    + destruct (Hrest w2 Hs2 Hg12) as (r & Hr & Hrest'); [by rewrite Epass, bool_decide_true|]. exists r.
      split; [|done]. eapply does_step; [done|done|]. apply Hread. eapply does_step; [done|done|].
      by rewrite decide_True.
    + exists c. split; [|apply Hhere; by rewrite Epass, bool_decide_false]. eapply does_step; [done|done|]. apply Hread.
      eapply does_step; [done|done|]. rewrite decide_False by done. by apply does_ret.
  - exists c. split; [|by apply Hhere]. eapply does_step; [done|done|]. by apply Hread, does_ret.
Qed.

(** * Pushed commits *)

(** The tree and the commit that a pushed commit is rebuilt to on top of an original. *)
Definition rebuilt_tree (f : filter) (base q : oid) : node := nunapply f (tree_of q) (tree_of base).
Definition rebuilt_id (f : filter) (base : oid) (k : commit) (q : oid) : oid :=
  compute_hash (OCommit (rebuilt k base (rebuilt_tree f base q))).

(** A pushed commit that can be rebuilt: its files are ones that a filtered tree can have, and
    the history has what it is rebuilt to. *)
Record rebuilds (f : filter) (base prev q : oid) (k : commit) : Prop := {
  rb_commit : find0 q = Some (OCommit k);
  rb_inside : q ∈ V;
  rb_parent : commit_parents k = [prev];
  rb_plain : plain (tree_of q);
  rb_plain_base : plain (tree_of base);
  rb_reach : reachable f (tree_of q) = true;
  rb_dom : rebuilt_id f base k q ∈ dom f;
  rb_find : find0 (rebuilt_id f base k q) = Some (OCommit (rebuilt k base (rebuilt_tree f base q)));
  rb_tree : tree_of (rebuilt_id f base k q) = rebuilt_tree f base q;
}.

Section Rebuild.
Context (f : filter) (target base prev q : oid) (k : commit).
Hypothesis (Hf : f ∈ stages) (Hr : relocates known f = true) (Hb : rebuilds f base prev q k).
Hypothesis (Hgpg : gpgsig_mode (Filter.into_meta f) = Preserve).

Lemma rebuilt_back :
  base ∈ dom f -> filtered f base = prev -> prev ∈ V -> filtered f (rebuilt_id f base k q) = q.
Proof.
  intros Hbd Hbp Hp. destruct Hb as [B1 B2 B3 B4 B5 B6 B7 B8 B9].
  pose proof (dom_inside known find0 V rank tree_of stages dom Hrepo f) as Hdi.
  assert (tree_of prev = filtered_tree f base) as Etp.
  { destruct (filtered_value known find0 V rank tree_of stages dom Hrepo f base Hf Hbd) as [[E _]|[_ E]].
    - rewrite Hbp in E. by apply (inside_not_zero known find0 V rank tree_of stages dom Hrepo) in Hp.
    - by rewrite <- Hbp. }
  apply (rebuilt_filtered f base prev q k); try done; by apply Hdi.
Qed.

Lemma unapplied_tree_looks w kb commits :
  w_sound w -> held (txn_of w) q -> held (txn_of w) base -> find0 base = Some (OCommit kb) -> commits = [(base, kb)] ->
  looks w (unapplied_tree h f target q (commit_tree k) commits) (node_oid (rebuilt_tree f base q))
    (fun w' => present (w_odb w') (rebuilt_tree f base q)).
Proof.
  intros Hs Hq Hd Hkb ->. destruct Hb as [B1 B2 B3 B4 B5 B6 B7 B8 B9].
  destruct (held_tree known find0 V rank tree_of stages dom Hrepo w q Hs Hq) as (_ & Eq & Pq).
  destruct (held_tree known find0 V rank tree_of stages dom Hrepo w base Hs Hd) as (_ & Ebase & Pb).
  unfold tree_id_of in Eq, Ebase. rewrite B1 in Eq. rewrite Hkb in Ebase.
  destruct push_turns as [n En]. unfold unapplied_tree. cbn [Prelude.mapM].
  eapply (looks_bind _ _ _ _ _ _ _ _ _ _ [node_oid (rebuilt_tree f base q)] _
    (fun w' => present (w_odb w') (rebuilt_tree f base q))).
  { eapply looks_bind.
    - unfold unapply_commit. cbn [snd fst]. rewrite Eq, Ebase. apply yields_looks; [done|done|].
      rewrite En at 3. apply (push_unapply h Hh f q base Hf Hr B2 (proj1 Hd)); [|done|done].
      apply (budget_size _ _ _ _ _ _ _ (push_ok h Hh) f Hf).
    - intros w1 Hs1 _ P1. by apply looks_ret. }
  intros w1 Hs1 _ P1. assert (unique_trees [node_oid (rebuilt_tree f base q)] = 1) as ->.
  { unfold unique_trees. cbn [list_to_set]. by rewrite union_empty_r_L, size_singleton. }
  by apply looks_ret.
Qed.

(** The rebuilt commit is returned, and not its parent: if it has the tree of the original, the
    pushed commit did not change its own parent's tree. *)
Lemma changes_tree_looks w kb :
  w_sound w -> held (txn_of w) q -> base ∈ dom f -> filtered f base = prev -> find0 base = Some (OCommit kb) ->
  node_oid (rebuilt_tree f base q) = commit_tree kb ->
  looks w (changes_tree k) false (fun _ => True).
Proof.
  intros Hs Hq Hbd Hbp Hkb Hd.
  destruct Hb as [B1 B2 B3 B4 B5 B6 B7 B8 B9].
  assert (prev ∈ parents q) as Hpq by (unfold parents_of; rewrite B1, B3; left).
  pose proof (parent_held known find0 V rank tree_of stages dom w q prev Hs Hq Hpq) as Hp.
  pose proof (dom_inside known find0 V rank tree_of stages dom Hrepo f base Hf Hbd) as HbV.
  pose proof (repo_trees _ _ _ _ _ _ _ Hrepo) as Htrees.
  destruct (Htrees q B2) as [Vq Eq], (Htrees base HbV) as [Vb Eb], (Htrees prev (proj1 Hp)) as [Vp Ep].
  unfold tree_id_of in Eq, Eb. rewrite B1 in Eq. rewrite Hkb in Eb.
  destruct (relocates_tree_filter known f Hr) as [Kf _].
  assert (rebuilt_tree f base q = tree_of base) as Et.
  { rewrite Eb in Hd. pose proof (value_unapply known f _ _ Kf Vq Vb) as Vu.
    unfold rebuilt_tree in *. apply wf_oid_inj; [apply Vu|apply Vb| |done].
    by rewrite (proj2 (proj1 Vu)), (proj2 (proj1 Vb)). }
  assert (commit_tree k = tree_id_of find0 prev) as Esame.
  { rewrite Eq, Ep. f_equal.
    destruct (filtered_value known find0 V rank tree_of stages dom Hrepo f base Hf Hbd) as [[E _]|[_ E]].
    - rewrite Hbp in E. by apply held_not_zero in Hp.
    - rewrite Hbp in E. rewrite E. unfold FilteredHistory.filtered_tree. rewrite <- Et.
      symmetry. by apply (put_get known). }
  exists w. split; [|split; [done|split; [reflexivity|done]]].
  unfold changes_tree. rewrite B3. unfold attempt, on_tx, mbind, M_bind.
  rewrite (read_tree_id_eq known find0 V rank tree_of stages dom Hrepo w prev Hp), set_tx_same.
  rewrite Esame. cbn [mret M_ret]. by rewrite bool_decide_true.
Qed.

Lemma learns_grow o w w' o' : w_grows w w' -> learns f target prev o w o' -> learns f target prev o w' o'.
Proof. intros Hg [Ho Hl]. split; [by eapply originals_grow|done]. Qed.

Lemma original_parents_does w o kb :
  w_sound w -> held (txn_of w) base -> find0 base = Some (OCommit kb) ->
  pdoes w o (find_unapply_base h f target prev) base (learns f target prev o) ->
  pdoes w o (original_parents h f target [prev]) [(base, kb)] (learns f target prev o).
Proof.
  intros Hs Hd Hkb Hbase. cbn [original_parents]. eapply pdoes_bind; [exact Hbase|]. intros w1 o1 Hs1 Hg1 Hl1.
  rewrite decide_False by (by apply (held_not_zero w)).
  eapply pdoes_bind; [apply in_world_looks, commit_looks; [done|done|by apply (held_grows w w1)|done]|].
  intros w2 o2 Hs2 _ (-> & _ & ->). by apply pdoes_ret.
Qed.

Lemma unapply_one_does w o mode rep :
  w_sound w -> held (txn_of w) q -> base ∈ dom f -> held (txn_of w) base -> filtered f base = prev ->
  pdoes w o (find_unapply_base h f target prev) base (learns f target prev o) ->
  pdoes w o (unapply_one h f target mode rep q k) (rebuilt_id f base k q)
    (fun w' o' => learns f target prev o w' o' /\ held (txn_of w') (rebuilt_id f base k q)).
Proof.
  intros Hs Hq Hbd Hd Hbp Hbase. pose proof Hb as [B1 B2 B3 B4 B5 B6 B7 B8 B9].
  destruct (held_commit known find0 V rank tree_of stages dom Hrepo w base Hd) as (kb & Hkb & _ & _).
  unfold unapply_one. rewrite B3.
  eapply pdoes_bind; [by apply in_world_does, (does_ret known find0 V rank tree_of stages dom w [prev] (fun w' => w' = w))|].
  intros w0 o0 _ _ [-> ->]. eapply pdoes_bind; [by apply (original_parents_does w o kb)|].
  intros w1 o1 Hs1 Hg1 Hl1.
  eapply pdoes_bind; [by apply in_world_does,
    (does_ret known find0 V rank tree_of stages dom w1 [(base, kb)] (fun w' => w' = w1))|].
  intros w0 o0 _ _ [-> ->]. assert (held (txn_of w1) base) as Hd1 by (by apply (held_grows w w1)).
  assert (held (txn_of w1) q) as Hq1 by (by apply (held_grows w w1)).
  eapply pdoes_bind; [by eapply in_world_looks, (unapplied_tree_looks w1 kb)|].
  intros w2 o2 Hs2 Hg2 (-> & _ & P2). cbn [fst fmap list_fmap].
  assert (held (txn_of w2) base) as Hd2 by (by apply (held_grows w1 w2)).
  assert (held (txn_of w2) q) as Hq2 by (by apply (held_grows w1 w2)).
  eapply pdoes_bind.
  { apply in_world_does. apply (write_commit_does known find0 V rank tree_of stages dom Hrepo w2
      (rebuilt k base (rebuilt_tree f base q))); try done.
    - by apply (dom_inside known find0 V rank tree_of stages dom Hrepo f).
    - by intros p ->%list_elem_of_singleton.
    - unfold rebuilt_id in B9. by rewrite B9. }
  intros w3 o3 Hs3 Hg3 [-> Hnew]. assert (held (txn_of w3) q) as Hq3 by (by apply (held_grows w2 w3)).
  assert (learns f target prev o w3 o1) as Hl3.
  { eapply learns_grow; [|exact Hl1]. by transitivity w2. }
  case_decide as Ht; [|by apply pdoes_ret].
  eapply pdoes_bind; [by eapply in_world_looks, changes_tree_looks|]. intros w4 o4 Hs4 Hg4 (-> & Hq4 & _).
  apply pdoes_ret; [done|]. split; [by eapply learns_grow|]. by apply (held_grows w3 w4).
Qed.

End Rebuild.

(** ** A line of pushed commits *)

(** Pushed commits, each on top of the one before it, rebuilt one after the other; [r] is the
    last commit that is rebuilt. *)
Fixpoint pushes (f : filter) (base prev : oid) (qs : list oid) (r : oid) : Prop :=
  match qs with
  | [] => r = base
  | q :: qs => exists k, rebuilds f base prev q k /\ pushes f (rebuilt_id f base k q) q qs r
  end.

Lemma rebuilds_prev f base prev q k : rebuilds f base prev q k -> prev ∈ parents q /\ prev ∈ V.
Proof.
  intros [B1 B2 B3 _ _ _ _ _ _]. assert (prev ∈ parents q) as Hp by (unfold parents_of; rewrite B1, B3; left).
  split; [done|]. by destruct (history_parent _ _ _ (repo_history known find0 V rank tree_of stages dom Hrepo) q prev B2 Hp).
Qed.

Section Line.
Context (f : filter) (target : oid) (mode : OrphansMode) (rep : option oid).
Hypothesis (Hf : f ∈ stages) (Hr : relocates known f = true) (Htarget : target ∈ dom f).
Hypothesis (Hgpg : gpgsig_mode (Filter.into_meta f) = Preserve).

(** Filtering the last rebuilt commit gives the last pushed one. *)
Lemma pushes_back qs : forall base prev r,
  pushes f base prev qs r -> base ∈ dom f -> filtered f base = prev ->
  r ∈ dom f /\ filtered f r = default prev (last qs).
Proof.
  induction qs as [|q qs IH]; intros base prev r Hp Hb Hbp; [by simpl in Hp; subst|].
  destruct Hp as (k & Hk & Hp). destruct (rebuilds_prev _ _ _ _ _ Hk) as [_ HpV].
  destruct (IH _ _ _ Hp) as [Hrd E]; [apply (rb_dom _ _ _ _ _ Hk)|by apply (rebuilt_back f base prev)|].
  split; [done|]. rewrite E, last_cons. by destruct (last qs).
Qed.

Lemma unapply_step_does w o base prev q qs k r ret :
  w_sound w -> held (txn_of w) target -> optimal f w -> originals_ok f w o ->
  held (txn_of w) q -> o !! q = None -> rebuilds f base prev q k ->
  base ∈ dom f -> held (txn_of w) base -> filtered f base = prev ->
  pdoes w o (find_unapply_base h f target prev) base (learns f target prev o) ->
  (forall w' o', w_sound w' -> w_grows w w' -> learns f target prev o w' o' ->
    held (txn_of w') (rebuilt_id f base k q) ->
    pdoes w' (<[q := rebuilt_id f base k q]> o') (unapply_all h f target mode rep qs (rebuilt_id f base k q)) r
      (fun w' _ => held (txn_of w') r)) ->
  pdoes w o (unapply_all h f target mode rep (q :: qs) ret) r (fun w' _ => held (txn_of w') r).
Proof.
  intros Hs Ht Ho Hor Hq Hnone Hk Hbd Hd Hbp Hbase Hrest. cbn [unapply_all].
  eapply pdoes_bind; [apply in_world_looks, commit_looks; [done..|apply (rb_commit _ _ _ _ _ Hk)]|].
  intros w1 o1 _ _ (-> & _ & ->). eapply pdoes_bind; [by apply original_of_does|].
  intros w0 o0 _ _ [-> ->]. rewrite Hnone. eapply pdoes_bind; [by apply (unapply_one_does f target base prev)|].
  intros w2 o2 Hs2 Hg2 [Hl2 Hnew]. eapply pdoes_bind; [by apply set_original_does|].
  intros w3 o3 _ _ [-> ->]. by apply Hrest.
Qed.

Lemma unapply_all_does qs : forall w o base prev r,
  w_sound w -> held (txn_of w) target -> optimal f w -> originals_ok f w o ->
  o !! prev = Some base -> pushes f base prev qs r -> NoDup qs ->
  (forall q, q ∈ qs -> held (txn_of w) q /\ o !! q = None /\ q ≠ filtered f target) ->
  pdoes w o (unapply_all h f target mode rep qs base) r (fun w' _ => held (txn_of w') r).
Proof.
  induction qs as [|q qs IH]; intros w o base prev r Hs Ht Ho Hor Hbase Hp Hnd Hqs.
  { simpl in Hp. subst r. apply pdoes_ret; [done|]. by apply (Hor prev). }
  destruct Hp as (k & Hk & Hp). destruct (Hor prev base Hbase) as (Hbd & Hd & Hbp).
  destruct (Hqs q) as (Hq & Hnone & _); [left|]. apply NoDup_cons in Hnd as [Hnin Hnd].
  destruct (find_unapply_base_does w o f target prev Hs Hf Htarget Ht Ho Hor) as (b & Hfind & _ & _ & Hsame & _).
  pose proof (Hsame base Hbase) as ->. apply (unapply_step_does w o base prev q qs k r); try done.
  intros w' o' Hs' Hg' [Hor' Hl'] Hnew. destruct (rebuilds_prev _ _ _ _ _ Hk) as [_ HpV].
  pose proof (rebuilt_back f base prev q k Hf Hr Hk Hgpg Hbd Hbp HpV) as Eback.
  apply (IH w' _ _ q); try done.
  - by apply (held_grows w w').
  - by apply (optimal_grows f w w').
  - rewrite <- Eback at 1. apply originals_insert; [done|apply (rb_dom _ _ _ _ _ Hk)|done].
  - apply lookup_insert_eq.
  - intros x Hx. destruct (Hqs x) as (Hxh & Hxn & Hxt); [by right|]. split; [by apply (held_grows w w')|].
    split; [|done]. rewrite lookup_insert_ne by (by intros ->). rewrite Hl'; [done|done|].
    intros ->. by rewrite Hbase in Hxn.
Qed.

End Line.

(** ** The pushed commits *)

Lemma pushes_line f qs : forall base prev r, pushes f base prev qs r -> line prev qs.
Proof.
  induction qs as [|q qs IH]; [done|]. intros base prev r (k & [B1 B2 B3 _ _ _ _ _ _] & Hp).
  split; [unfold parents_of; by rewrite B1|]. split; [done|]. by eapply IH.
Qed.

Lemma line_range w prev qs l :
  w_sound w -> held (txn_of w) (default prev (last qs)) -> held (txn_of w) prev -> line prev qs ->
  is_range (try_find (w_odb w)) (default prev (last qs)) prev l -> l = reverse qs.
Proof.
  intros Hs Hd Hp Hl (Hnd & Hin & Hord). rewrite <- (reverse_involutive l). f_equal.
  assert (forall c, c ∈ l <-> c ∈ qs) as Hmem.
  { intros c. rewrite Hin. unfold RangeWalkFacts.in_range.
    rewrite (found_ancestors known find0 V rank tree_of stages dom w _ c Hs Hd).
    rewrite (found_ancestors known find0 V rank tree_of stages dom w _ c Hs Hp), (line_ancestor qs c prev Hl).
    split.
    - intros [[[?|Ha] Hc] Hno]; [done|]. by destruct Hno.
    - intros Hc. split.
      + split; [by left|]. apply (ancestor_held known find0 V rank tree_of stages dom w (default prev (last qs))); [done|done|].
        apply line_ancestor; [done|by left].
      + intros [Ha _]. assert (rank c <= rank prev); [|pose proof (line_rank qs prev c Hl Hc); lia].
        clear -Ha Hp Hrepo. destruct Hp as [Hp _]. induction Ha as [|x y z Hy _ IH]; [done|].
        destruct (history_parent _ _ _ (repo_history known find0 V rank tree_of stages dom Hrepo) x y Hp Hy).
        specialize (IH ltac:(done)). lia. }
  apply (line_order qs prev); [done|by rewrite reverse_Permutation|intros c; by rewrite elem_of_reverse|].
  intros i j c p Hi Hj Hpc. apply reverse_lookup_some in Hi as [Hi Ei], Hj as [Hj Ej].
  assert (held (txn_of w) c) as Hc.
  { apply (ancestor_held known find0 V rank tree_of stages dom w (default prev (last qs))); [done|done|].
    apply line_ancestor; [done|]. left. apply Hmem. by eapply list_elem_of_lookup_2. }
  specialize (Hord _ _ c p Ej Ei). change (w_odb w) with (t_odb (txn_of w)) in Hord. rewrite (found_parents find0 V (txn_of w) c Hc) in Hord.
  specialize (Hord Hpc). lia.
Qed.

(** The walk over the pushed range. *)
Lemma range_looks w tip base :
  w_sound w -> held (txn_of w) tip -> held (txn_of w) base ->
  exists l, looks w (on_txn (RangeWalk.into_topo_vec (try_find (w_odb w)) (compute_sequence_number h) h tip base)) l
      (fun _ => True) /\ is_range (try_find (w_odb w)) tip base l.
Proof.
  intros Hs Ht Hb. set (t := txn_of w).
  pose proof (held_history find0 V rank Hgraph t (ws_sound _ _ _ _ _ _ _ w Hs)) as Hist.
  pose proof (budget_graph _ _ _ _ _ _ _ (push_ok h Hh)) as Hfuel.
  destruct (range_walk (fun t' => tracked find0 V rank right t' /\ quiet find0 V rank right t t')
    (try_find (t_odb t)) (compute_sequence_number h) (fun c => sequence_number (hint_of find0 rank c))
    (held_set find0 V t)) with (tip := tip) (base := base) (n := h) as (l & Hl & Hr).
  - split.
    + apply (stored_commit _ _ _ Hist).
    + intros c p Hc Hp. by apply (history_parent _ _ _ Hist c p).
    + intros c Hc%elem_of_held t1 [Ht1 Hq1].
      assert (HistoryGraphFacts.held find0 V t1 c) as Hc1 by (by apply (grows_held _ _ _ _ _ _ (quiet_grows _ _ _ _ _ _ Hq1))).
      destruct (ensure_gives find0 V rank Hgraph t1 c h (tracked_sound _ _ _ _ _ Ht1) Hc1 Hfuel)
        as (t2 & E2 & Hs2 & Hl2 & Hk2 & _).
      destruct (later_tracked find0 V rank Hgraph right Hrights t1 t2 Ht1 Hs2 Hl2 Hk2) as [Ht2 Hq2].
      unfold compute_sequence_number, mbind, M_bind. rewrite E2. split; [done|]. split; [done|]. by transitivity t1.
    + intros c p Hc%elem_of_held Hp. rewrite (found_parents find0 V t c Hc) in Hp.
      apply (hint_of_spec find0 V rank (graph_history _ _ _ Hgraph) (graph_bound _ _ _ Hgraph)); [apply Hc| |done].
      intros E. rewrite E in Hp. by apply not_elem_of_nil in Hp.
  - by apply elem_of_held.
  - by apply elem_of_held.
  - eapply Nat.le_lt_trans; [apply subseteq_size, held_set_inside|apply (push_size h Hh)].
  - exists l. split; [|done]. destruct (Hl t) as [E [Ht' Hq']]; [split; [apply (ws_tracked _ _ _ _ _ _ _ w Hs)|reflexivity]|].
    eapply looks_weaken; [|done]. eapply (txn_looks known find0 V rank tree_of stages dom w _ l _ Hs); [|exact Ht'|exact Hq'].
    fold t. rewrite <- E. by destruct (RangeWalk.into_topo_vec _ _ _ _ _ t).
Qed.

Lemma pushed_commits_looks w prev qs :
  w_sound w -> held (txn_of w) (default prev (last qs)) -> held (txn_of w) prev -> line prev qs ->
  looks w (pushed_commits h (default prev (last qs)) prev) (reverse qs) (fun _ => True).
Proof.
  intros Hs Hd Hp Hl. destruct (range_looks w _ prev Hs Hd Hp) as (l & Hlook & Hr).
  rewrite (line_range w prev qs l Hs Hd Hp Hl Hr) in Hlook.
  unfold pushed_commits. apply looks_gets.
  destruct (held_commit known find0 V rank tree_of stages dom Hrepo w prev Hp) as (k & _ & Hf & _).
  unfold read_header. unfold w_odb in Hf. rewrite Hf. exact Hlook.
Qed.

End Budget.
End PushFacts.
