(* ===== verification/PushLaws.v ===== *)
(** What pushing promises: the original of a filtered commit is found if the history of the target
    has one, and rebuilding pushed commits on it is undone by filtering. *)

From S2P Require Import Prelude Path Objects Store RevWalk RevWalkFacts RangeWalkFacts HistoryHint.
From S2P Require Import CommitCache HistoryGraph HistoryTruth HistoryGraphFacts RecordFacts HistoryLaws.
From S2P Require Import OptState Invert Step Builders Utf8 Glob Pattern Persist TreeOps TreePaths TreeWalk.
From S2P Require Import Node NodeFacts Refine NodeKeys GraphMerge Apply Trailers Rewriting Commits Denote.
From S2P Require Import ApplyFacts FilteredHistory CommitFacts CommitRuns CommitLaws Relocate Lens Push PushFacts SledCache Concrete ExampleRepo Ops.

Open Scope nat_scope.

Section PushLaws.
Context `{ObjectHash} `{BisectEntry} `{EntryModes} `{RegexReplace} `{Readers} `{FilterText}.
Context `{!Collaborators} `{GlobKeys} `{Signatures} `{Gix} `{HashOrder} {B : Type} `{LawfulBackend B}.
Context (known : string -> bool).
Context (find0 : oid -> option object) (V : gset oid) (rank : oid -> nat) (tree_of : oid -> node).
Context (stages : list filter) (dom : filter -> gset oid).
Hypothesis Hrepo : repository_ok known find0 V rank tree_of stages dom.

Abbreviation world := (world B).
Abbreviation wm := (M world).
Abbreviation filtered := (filtered find0 rank tree_of).
Abbreviation filtered_tree := (filtered_tree tree_of).
Abbreviation held := (held (B := B) find0 V).
Abbreviation right := (right find0 rank tree_of stages dom).
Abbreviation recorded := (recorded (B := B) find0 rank right).
Abbreviation w_sound := (w_sound known find0 V rank tree_of stages dom).
Abbreviation w_grows := (w_grows find0 V rank tree_of stages dom).
Abbreviation w_quiet := (w_quiet find0 V rank tree_of stages dom).
Abbreviation does := (does known find0 V rank tree_of stages dom).
Abbreviation looks := (looks known find0 V rank tree_of stages dom).
Abbreviation there := (there find0 V).
Abbreviation graph_fuel := (graph_fuel find0 V).
Abbreviation held_quiet := (held_quiet (B := B) find0 V rank tree_of stages dom).
Abbreviation held_grows := (held_grows (B := B) find0 V rank tree_of stages dom).
Abbreviation recorded_quiet := (recorded_quiet (B := B) find0 V rank tree_of stages dom).
Let Hrights : right_ok find0 V right := rights (B := B) known find0 V rank tree_of stages dom Hrepo.
Let Hgraph : graph_ok find0 V rank := repo_graph known find0 V rank tree_of stages dom Hrepo.

Abbreviation budget_ok := (budget_ok known find0 V tree_of stages dom).
Abbreviation step_effect := (step_effect find0 rank tree_of).
Abbreviation chain_effect := (chain_effect find0 rank tree_of).
Abbreviation flows := (flows find0 rank tree_of stages dom).
Abbreviation parents := (parents_of find0).


Abbreviation push_budget := (push_budget known find0 V tree_of stages dom).
Abbreviation optimal := (optimal (B := B)).
Abbreviation originals_ok := (originals_ok (B := B) find0 V rank tree_of dom).
Abbreviation original_in := (original_in find0 rank tree_of).
Abbreviation reached := (reached find0).
Abbreviation pushes := (pushes find0 V tree_of dom).

Lemma push_budget_ample : ample push_budget.
Proof.
  pose proof Hrepo as [_ _ Htrees Hpat Hstages _].
  eapply ample_and; [apply (budget_ample known find0 V rank tree_of stages dom Hrepo)| |].
  { eapply ample_and; [apply (ample_ge (S (base.size V)))| |intros h; apply conj].
    apply (ample_all stages (fun f h => forall c, c ∈ elements V -> forall d, d ∈ elements V ->
      relocates known f = true ->
      forall n m o commits, size f <= n -> present o (tree_of c) -> present o (tree_of d) ->
      wyields (B := B) known o
        (unapply h (apply_impl h n) (S m) f (node_oid (tree_of c)) (node_oid (tree_of d)) commits)
        (node_oid (nunapply f (tree_of c) (tree_of d))) (fun o' => present o' (nunapply f (tree_of c) (tree_of d))))).
    intros f Hf. apply (ample_all (elements V) (fun c h => _)). intros c Hc%elem_of_elements.
    apply (ample_all (elements V) (fun d h => _)). intros d Hd%elem_of_elements.
    destruct (relocates known f) eqn:Hr; [|by apply ample_always].
    destruct (relocates_tree_filter known f Hr) as [Kf Hi].
    eapply ample_impl; [apply (unapply_means known Hpat f (tree_of c) (tree_of d) Kf Hi)|by intros h ? _];
      by apply Htrees. }
  intros h [Hb Hp] [Hs Hu]. split; [done|done|done|]. intros f c d Hf Hr Hc Hd.
  apply (Hu f Hf c); [by apply elem_of_elements|by apply elem_of_elements|done].
Qed.

(** C18: Originals.  For a filtered commit [q] and a target branch, from every sound state and
    every sound map of originals, [find_unapply_base] returns a commit that filtering takes to
    [q]; it returns the zero id only if no commit in the history of the target is filtered to
    [q].  The search ends, and the map it leaves is sound. *)
Theorem find_unapply_base_correct f target q w o :
  w_sound w -> f ∈ stages -> target ∈ dom f -> held (txn_of w) target -> optimal f w -> originals_ok f w o ->
  ample (fun h => exists r w' o',
    find_unapply_base h f target q (w, o) = (Ok r, (w', o')) /\ w_sound w' /\ originals_ok f w' o' /\
    (r ≠ zero_oid -> exists w'', apply_to_commit h f r w' = (Ok q, w'') /\ w_sound w'') /\
    (r = zero_oid -> forall c, RangeWalkFacts.ancestor (try_find (w_odb w)) target c ->
       exists w'', apply_to_commit h f c w' = (Ok (filtered f c), w'') /\ filtered f c ≠ q)).
Proof.
  intros Hs Hf Ht Hd Ho Hor. eapply ample_impl; [apply push_budget_ample|]. intros h Hh.
  destruct (find_unapply_base_does known find0 V rank tree_of stages dom Hrepo h Hh w o f target q Hs Hf Ht Hd Ho Hor)
    as (r & (w' & o' & E & Hs' & Hg & Hor' & _) & Hsome & Hnone & _ & _).
  assert (forall c, c ∈ dom f -> held (txn_of w) c -> exists w'', apply_to_commit h f c w' = (Ok (filtered f c), w'') /\
    w_sound w'') as Happ.
  { intros c Hc Hch. destruct (apply_to_commit_does known find0 V rank tree_of stages dom Hrepo h Hh w' f c Hs' Hf Hc)
      as (w'' & E'' & Hs'' & _); [by apply (held_grows w w')|by apply (optimal_grows find0 V rank tree_of stages dom f w w')|].
    by exists w''. }
  exists r, w', o'. split_and!; try done.
  - intros Hz. destruct (Hsome Hz) as (Hr & Hrh & <-). by apply Happ.
  - intros Hz c Ha. apply (found_ancestors known find0 V rank tree_of stages dom w target c Hs Hd) in Ha as [Ha Hc].
    assert (c ∈ dom f) as Hcd by (by apply (dom_ancestor known find0 V rank tree_of stages dom Hrepo f target)).
    destruct (Happ c Hcd Hc) as (w'' & ? & _). exists w''. split; [done|]. intros Ec. by apply (Hnone Hz c).
Qed.

(** C19: The commit that introduced a filtered one.  For a filter other than the one that does
    nothing, [find_original] returns a commit of the history of the target, or of its line of
    first parents if the search is linear, that is filtered to [q] and that is not just passed
    through: no only parent of it is filtered to [q] as well.  It returns the zero id only if
    nothing in that history is filtered to [q].  The filter is one step recorded as its own
    optimum, and the search ends from every sound state. *)
Theorem find_original_correct f target q linear w :
  w_sound w -> f ∈ stages -> target ∈ dom f -> held (txn_of w) target -> optimal f w ->
  ample (fun h => exists r w', find_original h f target q linear w = (Ok r, w') /\ w_sound w' /\
    (r ≠ zero_oid -> reached linear target r /\ filtered f r = q /\ forall p, parents r = [p] -> filtered f p ≠ q) /\
    (r = zero_oid -> forall c, reached linear target c -> filtered f c ≠ q)).
Proof.
  intros Hs Hf Ht Hd Ho. eapply ample_impl; [apply push_budget_ample|]. intros h Hh.
  destruct (whole_history_looks known find0 V rank tree_of stages dom Hrepo h Hh w linear target Hs Hd) as (l & Hl & Hmem).
  destruct (first_original_does known find0 V rank tree_of stages dom Hrepo h Hh f q l w Hs Hf Ho)
    as (r & (w' & E & Hs' & _) & Hsome & Hnone).
  { intros c Hc%Hmem%reached_ancestor. split; [by apply (dom_ancestor known find0 V rank tree_of stages dom Hrepo f target)|].
    by apply (ancestor_held known find0 V rank tree_of stages dom w target). }
  exists r, w'. split; [|split; [done|split]].
  - unfold find_original. rewrite decide_False by (by apply (held_not_zero known find0 V rank tree_of stages dom Hrepo w)).
    destruct (stage_of known find0 V rank tree_of stages dom Hrepo f Hf) as [_ _ _ Nf _ _].
    unfold Filter.is_nop. rewrite bool_decide_false by done. unfold mbind, M_bind.
    destruct Hl as (w0 & E0 & _ & _ & ->). by rewrite E0.
  - intros Hz. destruct (Hsome Hz) as (Hr%Hmem & Er & Hp). split; [done|]. split; [done|]. intros p Ep Hpq.
    unfold passes in Hp. rewrite Ep, bool_decide_true in Hp by done. done.
  - intros Hz c Ha Ec. specialize (Hnone Hz).
    remember (rank c) as n eqn:En. revert c En Ha Ec. induction n as [n IH] using lt_wf_ind. intros c -> Ha Ec.
    pose proof (Hnone c (proj2 (Hmem c) Ha) Ec) as Hp. unfold passes in Hp.
    destruct (parents c) as [|p [|]] eqn:Ep; try done. apply bool_decide_eq_true in Hp.
    assert (c ∈ V) as HcV by (apply (ancestor_in known find0 V rank tree_of stages dom Hrepo target); [apply Hd|by eapply reached_ancestor]).
    assert (p ∈ parents c) as Hpc by (rewrite Ep; left).
    destruct (history_parent _ _ _ (graph_history _ _ _ Hgraph) c p HcV Hpc) as [_ Hlt].
    apply (IH (rank p) Hlt p eq_refl); [|done]. eapply rtc_r; [exact Ha|]. unfold followed_parents.
    rewrite Ep. destruct linear; left.
Qed.

Lemma line_nodup qs : forall prev, line find0 V prev qs -> NoDup qs.
Proof.
  induction qs as [|q qs IH]; intros prev Hl; [constructor|]. destruct Hl as (_ & _ & Hl). constructor; [|by eapply IH].
  intros Hq. pose proof (line_rank known find0 V rank tree_of stages dom Hrepo qs q q Hl Hq). lia.
Qed.

Lemma line_held w prev qs q :
  w_sound w -> line find0 V prev qs -> held (txn_of w) (default prev (last qs)) -> q ∈ qs -> held (txn_of w) q.
Proof.
  intros Hs Hl Hd Hq. apply (ancestor_held known find0 V rank tree_of stages dom w (default prev (last qs))); [done|done|].
  apply (proj2 (line_ancestor known find0 V rank tree_of stages dom Hrepo qs q prev Hl)). by left.
Qed.

(** The first pushed commit is rebuilt on an original that is searched for, the others on the
    commit before them. *)
Lemma unapply_line_does h f target old q qs w mode rep :
  push_budget h -> w_sound w -> f ∈ stages -> relocates known f = true ->
  gpgsig_mode (Filter.into_meta f) = Preserve -> target ∈ dom f -> held (txn_of w) target -> optimal f w ->
  (forall x, x ∈ q :: qs -> held (txn_of w) x) -> (filtered f target ∉ q :: qs) ->
  (exists base, original_in f target old base) ->
  (forall base, original_in f target old base -> exists r, pushes f base old (q :: qs) r) ->
  exists base r, pdoes known find0 V rank tree_of stages dom w ∅
      (unapply_all h f target mode rep (q :: qs) target) r (fun w' _ => held (txn_of w') r) /\
    original_in f target old base /\ pushes f base old (q :: qs) r.
Proof.
  intros Hh Hs Hf Hr Hgpg Ht Hd Ho Hqs Hnt [b0 Hb0] Hpush.
  destruct (find_unapply_base_does known find0 V rank tree_of stages dom Hrepo h Hh w ∅ f target old Hs Hf Ht Hd Ho)
    as (base & Hfind & Hsome & Hnone & _ & Horig); [by intros x c Hx; rewrite lookup_empty in Hx|].
  assert (base ≠ zero_oid) as Hz by (intros E; by apply (Hnone E b0)).
  destruct (Hsome Hz) as (Hbd & Hbh & Hbo). specialize (Horig (lookup_empty _) Hz).
  destruct (Hpush base Horig) as (r & Hp). exists base, r. split; [|done].
  pose proof (pushes_line find0 V tree_of dom f _ base old r Hp) as Hl. pose proof (line_nodup _ _ Hl) as Hnd.
  destruct Hp as (k & Hk & Hp). apply NoDup_cons in Hnd as [Hq Hnd].
  apply (unapply_step_does known find0 V rank tree_of stages dom Hrepo h Hh f target mode rep Hf Hr w ∅ base old q qs k);
    try done; [apply Hqs; left|].
  intros w' o' Hs' Hg' [Hor' Hl'] Hnew.
  destruct (rebuilds_prev known find0 V rank tree_of stages dom Hrepo _ _ _ _ _ Hk) as [_ HoV].
  pose proof (rebuilt_back known find0 V rank tree_of stages dom Hrepo f base old q k Hf Hr Hk Hgpg Hbd Hbo HoV) as Eback.
  apply (unapply_all_does known find0 V rank tree_of stages dom Hrepo h Hh f target mode rep Hf Hr Ht Hgpg qs w' _ _ q); try done.
  - by apply (held_grows w w').
  - by apply (optimal_grows find0 V rank tree_of stages dom f w w').
  - rewrite <- Eback at 1. apply originals_insert; [done|apply (rb_dom _ _ _ _ _ _ _ _ _ Hk)|done].
  - apply lookup_insert_eq.
  - intros x Hx. split; [apply (held_grows w w'); [done|]; apply Hqs; by right|]. split; [|set_solver].
    rewrite lookup_insert_ne by (by intros ->). rewrite Hl'; [apply lookup_empty|set_solver|].
    intros ->. assert (old ∈ q :: qs) as Hin by (by right).
    pose proof (line_rank known find0 V rank tree_of stages dom Hrepo _ _ _ Hl Hin). lia.
Qed.

Lemma unapply_filter_does h f target old qs w mode rep :
  push_budget h -> w_sound w -> f ∈ stages -> relocates known f = true ->
  gpgsig_mode (Filter.into_meta f) = Preserve -> target ∈ dom f -> held (txn_of w) target -> optimal f w ->
  qs ≠ [] -> held (txn_of w) (default old (last qs)) -> held (txn_of w) old -> (filtered f target ∉ qs) ->
  (exists base, original_in f target old base) ->
  (forall base, original_in f target old base -> exists r, pushes f base old qs r) ->
  exists base r w', unapply_filter h f target old (default old (last qs)) mode rep w = (Ok r, w') /\
    w_sound w' /\ w_grows w w' /\ held (txn_of w') r /\ original_in f target old base /\ pushes f base old qs r.
Proof.
  intros Hh Hs Hf Hr Hgpg Ht Hd Ho Hne Hnew Hold Hnt [b0 Hb0] Hpush. destruct (Hpush b0 Hb0) as (r0 & Hp0).
  pose proof (pushes_line find0 V tree_of dom f qs b0 old r0 Hp0) as Hl. clear r0 Hp0.
  destruct (pushed_commits_looks known find0 V rank tree_of stages dom Hrepo h Hh w old qs Hs Hnew Hold Hl)
    as (w1 & E1 & Hs1 & Hq1 & _). pose proof (w_quiet_grows _ _ _ _ _ _ _ _ Hq1) as Hg1.
  destruct qs as [|q qs]; [done|].
  destruct (unapply_line_does h f target old q qs w1 mode rep) as (base & r & (w2 & o2 & E2 & Hs2 & Hg2 & Hrh) & Hrest);
    try done; [by apply (held_grows w w1)|by apply (optimal_grows find0 V rank tree_of stages dom f w w1)| |by exists b0|].
  { intros x Hx. apply (held_grows w w1); [done|]. by apply (line_held w old (q :: qs)). }
  exists base, r, w2. split; [|split; [done|split; [by transitivity w1|done]]].
  assert (default old (last (q :: qs)) ≠ old) as Hno.
  { rewrite last_cons. intros E. assert (old ∈ q :: qs) as Hin.
    - destruct (last qs) as [x|] eqn:El; simpl in E; subst; [|left]. right. apply last_Some in El as [l ->]. set_solver.
    - pose proof (line_rank known find0 V rank tree_of stages dom Hrepo _ _ _ Hl Hin). lia. }
  unfold unapply_filter, branch_base.
  rewrite (decide_False (P := old = zero_oid)) by (by apply (held_not_zero known find0 V rank tree_of stages dom Hrepo w)).
  unfold mbind at 1, M_bind at 1, mret at 1, M_ret at 1. rewrite decide_False by done.
  unfold mbind, M_bind, in_world. rewrite E1, reverse_involutive, E2. done.
Qed.

(** C5: A push is undone by a fetch.  The filter is one step that moves files without overlapping
    branches ([relocates]), recorded as its own optimum, and keeps signatures.  The pushed
    commits form a line onto a filtered commit that has an original in the history of the
    target; the filter can produce all their files ([pushes]), and the filtered target is none of
    them.  Then [unapply_filter] rebuilds them on top of such an original, each with the filter
    reversed on its tree and everything else of it kept; and filtering the commit that it returns
    gives back the very commit that was pushed.  This holds from every sound state; both
    terminate. *)
Theorem push_round_trip f target old new qs w mode rep :
  w_sound w -> f ∈ stages -> relocates known f = true -> gpgsig_mode (Filter.into_meta f) = Preserve ->
  target ∈ dom f -> held (txn_of w) target -> optimal f w ->
  last qs = Some new -> held (txn_of w) new -> held (txn_of w) old -> (filtered f target ∉ qs) ->
  (exists base, original_in f target old base) ->
  (forall base, original_in f target old base -> exists r, pushes f base old qs r) ->
  ample (fun h => exists base r w1 w2,
    original_in f target old base /\ pushes f base old qs r /\
    unapply_filter h f target old new mode rep w = (Ok r, w1) /\
    apply_to_commit h f r w1 = (Ok new, w2) /\ w_sound w2).
Proof.
  intros Hs Hf Hr Hgpg Ht Hd Ho Hlast Hnew Hold Hnt Hex Hpush.
  eapply ample_impl; [apply push_budget_ample|]. intros h Hh.
  assert (default old (last qs) = new) as En by (by rewrite Hlast).
  destruct (unapply_filter_does h f target old qs w mode rep) as (base & r & w1 & E1 & Hs1 & Hg1 & Hrh & Horig & Hp);
    try done; [by intros ->|by rewrite En|]. rewrite En in E1.
  assert (base ∈ dom f) as Hbd.
  { destruct Horig as [Ha _]. by apply (dom_ancestor known find0 V rank tree_of stages dom Hrepo f target). }
  destruct (pushes_back known find0 V rank tree_of stages dom Hrepo f Hf Hr Hgpg qs base old r Hp Hbd) as [Hrd Er];
    [apply Horig|]. rewrite En in Er.
  destruct (apply_to_commit_does known find0 V rank tree_of stages dom Hrepo h Hh w1 f r Hs1 Hf Hrd Hrh)
    as (w2 & E2 & Hs2 & _); [by apply (optimal_grows find0 V rank tree_of stages dom f w w1)|].
  rewrite Er in E2. exists base, r, w1, w2. by split_and!.
Qed.

End PushLaws.

(** * The theorems apply *)

Lemma repo_target : id_2 ∈ repo_dom repo_filter.
Proof. apply elem_of_list_to_set. right; right; left. Qed.

Lemma repo_fetched c : bool_decide (c ∈ fetched) = true -> HistoryGraphFacts.held repo_find repo_commits (txn_of repo_world) c.
Proof. intros Hc%bool_decide_eq_true. by apply repo_held. Qed.

Lemma find_unapply_base_correct_witness :
  exists h r w' o', find_unapply_base h repo_filter id_2 fid_1 (repo_world, ∅) = (Ok r, (w', o')) /\
    (r ≠ zero_oid -> exists w'', apply_to_commit h repo_filter r w' = (Ok fid_1, w'')).
Proof.
  destruct (find_unapply_base_correct no_globs repo_find repo_commits repo_rank repo_trees_of [repo_filter] repo_dom
    repo_ok repo_filter id_2 fid_1 repo_world ∅) as [h0 Hh].
  - exact repo_sound.
  - left.
  - exact repo_target.
  - apply repo_fetched. vm_compute. reflexivity.
  - exact repo_optimal.
  - intros q c E. rewrite lookup_empty in E. discriminate E.
  - destruct (Hh h0 (le_n _)) as (r & w' & o' & E & _ & _ & Hsome & _). exists h0, r, w', o'. split; [exact E|].
    intros Hz. destruct (Hsome Hz) as (w'' & E'' & _). exists w''. exact E''.
Defined.

Lemma find_original_correct_witness :
  exists h r w', find_original h repo_filter id_2 fid_1 true repo_world = (Ok r, w') /\
    (r = zero_oid -> forall c, PushFacts.reached repo_find true id_2 c ->
       filtered repo_find repo_rank repo_trees_of repo_filter c ≠ fid_1).
Proof.
  destruct (find_original_correct no_globs repo_find repo_commits repo_rank repo_trees_of [repo_filter] repo_dom
    repo_ok repo_filter id_2 fid_1 true repo_world) as [h0 Hh].
  - exact repo_sound.
  - left.
  - exact repo_target.
  - apply repo_fetched. vm_compute. reflexivity.
  - exact repo_optimal.
  - destruct (Hh h0 (le_n _)) as (r & w' & E & _ & _ & Hnone). exists h0, r, w'. split; [exact E|exact Hnone].
Defined.

(** The originals of the filtered tip, and what the push is rebuilt to on them. *)
Lemma repo_originals base :
  PushFacts.original_in repo_find repo_rank repo_trees_of repo_filter id_2 fid_1 base -> base = id_1 \/ base = id_2.
Proof.
  intros [Ha E]. assert (base ∈ repo_dom repo_filter) as Hb.
  { apply (dom_ancestor no_globs repo_find repo_commits repo_rank repo_trees_of [repo_filter] repo_dom repo_ok
      repo_filter id_2); [left|exact repo_target|exact Ha]. }
  apply elem_of_list_to_set in Hb. clear Ha.
  assert (forallb (fun c => implb (bool_decide (filtered repo_find repo_rank repo_trees_of repo_filter c = fid_1))
    (bool_decide (c = id_1) || bool_decide (c = id_2))) [id_0; id_1; id_2; rid_1; rid_2] = true) as Hall
    by (vm_compute; reflexivity).
  rewrite Forall_forallb, Forall_forall in Hall. specialize (Hall base Hb).
  rewrite bool_decide_true in Hall by done. by apply orb_true_iff in Hall as [Eb%bool_decide_eq_true|Eb%bool_decide_eq_true]; auto.
Qed.

Definition push_commit : commit :=
  Commit (node_oid pushed) [fid_1] "author" "committer" None "push" [("gpgsig", "sig")].

Ltac plain_tree := vm_compute; repeat (split; [done|]); tauto.

Lemma repo_pushes base :
  PushFacts.original_in repo_find repo_rank repo_trees_of repo_filter id_2 fid_1 base ->
  exists r, PushFacts.pushes repo_find repo_commits repo_trees_of repo_dom repo_filter base fid_1 [pid] r.
Proof.
  intros [->| ->]%repo_originals; eexists; exists push_commit; (split; [|reflexivity]); split;
    try (vm_compute; reflexivity); try plain_tree; apply elem_of_list_to_set; vm_compute; set_solver.
Qed.

(** The same repository after the push has been rebuilt. *)
Definition rebuilt_world : world sled_state :=
  World (insert_OPTIMIZED repo_filter repo_filter no_caches) (fresh_tx all_objects) [] [] [] ∅ ∅
    (Records [] [example_sled] [] 0 0 None ∅ ∅).

(** A push that ends in the filtered target is cut short.  The branch that is pushed to is at
    [fid_0], the target at [rid_2], which is filtered to [pid]; pushing [pid], two commits after
    [fid_0], returns [id_1], the original of the commit before it: the loop leaves out a commit
    whose original is known already and keeps the result of the one before.  Filtering [id_1]
    gives [fid_1], not the commit that was pushed. *)
Example push_of_filtered_target_cut_short :
  (unapply_filter 14 repo_filter rid_2 fid_0 pid FailOrphans None rebuilt_world).1 = Ok id_1 /\
  (apply_to_commit 14 repo_filter rid_2 rebuilt_world).1 = Ok pid /\
  (apply_to_commit 14 repo_filter id_1 rebuilt_world).1 = Ok fid_1 /\ fid_1 ≠ pid.
Proof. split_and!; [vm_compute; reflexivity..|]. intros E. vm_compute in E. discriminate E. Qed.

Lemma push_round_trip_witness :
  exists h r w1 w2, unapply_filter h repo_filter id_2 fid_1 pid FailOrphans None repo_world = (Ok r, w1) /\
    apply_to_commit h repo_filter r w1 = (Ok pid, w2).
Proof.
  destruct (push_round_trip no_globs repo_find repo_commits repo_rank repo_trees_of [repo_filter] repo_dom
    repo_ok repo_filter id_2 fid_1 pid [pid] repo_world FailOrphans None) as [h0 Hh].
  - exact repo_sound.
  - left.
  - reflexivity.
  - reflexivity.
  - exact repo_target.
  - apply repo_fetched. vm_compute. reflexivity.
  - exact repo_optimal.
  - reflexivity.
  - apply repo_fetched. vm_compute. reflexivity.
  - apply repo_fetched. vm_compute. reflexivity.
  - intros E%list_elem_of_singleton. vm_compute in E. discriminate E.
  - exists id_2. split; [apply rtc_refl|vm_compute; reflexivity].
  - exact repo_pushes.
  - destruct (Hh h0 (le_n _)) as (base & r & w1 & w2 & _ & _ & E1 & E2 & _). exists h0, r, w1, w2.
    split; [exact E1|exact E2].
Defined.
