(* ===== verification/MemOdb.v ===== *)
(** The in-memory object stores of josh-memodb (mem_odb.rs), the background thread that
    packs them (flusher.rs) and the packs it writes (pack.rs), as one system whose threads
    take atomic steps in any order: the sections under the store's lock, the swap of the
    flag, the sends and receives of the channel, and the writing of a pack.

    A store keeps serving reads while it is packed and evicts only what is durable, so the
    background thread is invisible to readers; a drain is acknowledged only when what was
    buffered is on disk. *)

From stdpp Require Export fin_maps fin_map_dom gmap sorting.
From S2P Require Import Prelude Path Ops Objects.

Open Scope nat_scope.

(** A buffered object: its kind and its bytes. *)
Abbreviation buffered := (kind * string)%type.

#[export] Instance kind_eq_dec : EqDecision kind.
Proof. solve_decision. Defined.

Definition data_len (x : buffered) : Z := Z.of_nat (String.length x.2).

(** * One store *)

(** [Inner] and [MemOdb]; the runtime alternates are probed by the writers
    (Store.v, [write_with_id]). *)
Record store := Store {
  objects : gmap oid buffered;
  buffered_size : Z;
  limit : option Z;
  objects_dir : string;
  chunk_in_flight : bool;
}.

(** [MemOdb::new]. *)
Definition new_store (limit : option Z) (dir : string) : store := Store ∅ 0 limit dir false.

Definition exceeds (limit : option Z) (size : Z) : bool :=
  match limit with Some l => bool_decide (l < size)%Z | None => false end.

(** [MemOdb::insert]: whether the store has now exceeded its limit. *)
Definition insert (id : oid) (x : buffered) (st : store) : bool * store :=
  match objects st !! id with
  | Some _ =>
      (false, Store (<[id := x]> (objects st)) (buffered_size st) (limit st) (objects_dir st)
                (chunk_in_flight st))
  | None =>
      let size := (buffered_size st + data_len x)%Z in
      (exceeds (limit st) size,
       Store (<[id := x]> (objects st)) size (limit st) (objects_dir st) (chunk_in_flight st))
  end.

(** [MemOdb::get], [MemOdb::header] and [MemOdb::contains]. *)
Definition get (id : oid) (st : store) : option buffered := objects st !! id.
Definition header (id : oid) (st : store) : option (kind * Z) :=
  (fun x => (x.1, data_len x)) <$> objects st !! id.
Definition contains (id : oid) (st : store) : bool := bool_decide (is_Some (objects st !! id)).

Definition set_flag (b : bool) (st : store) : store :=
  Store (objects st) (buffered_size st) (limit st) (objects_dir st) b.

Abbreviation snapshot := (list (oid * buffered)).

(** The order of the map's iteration: by id. *)
Definition oid_le (x y : oid * buffered) : Prop := String.leb x.1 y.1 = true.

#[export] Instance oid_le_dec x y : Decision (oid_le x y).
Proof. unfold oid_le. apply _. Defined.

(** The first half of [pack_to_disk]: what is buffered, in the order of the ids. *)
Definition take_snapshot (st : store) : snapshot := merge_sort oid_le (map_to_list (objects st)).

(** [usize::saturating_sub]. *)
Definition saturating_sub (a b : Z) : Z := Z.max 0 (a - b).

(** The second half of [pack_to_disk]: evicting what the snapshot holds. *)
Definition evict_one (st : store) (x : oid * buffered) : store :=
  match objects st !! x.1 with
  | Some data =>
      Store (delete x.1 (objects st)) (saturating_sub (buffered_size st) (data_len data)) (limit st)
        (objects_dir st) (chunk_in_flight st)
  | None => st
  end.

Definition evict (s : snapshot) (st : store) : store := foldl evict_one st s.

(** * Packs *)

(** What becomes of writing a pack: the object directory does not open, the pack lands, or
    an error is reported before or after it has landed. *)
Inductive io := Unopened (e : string) | Landed | Failed (e : string) (landed : bool).

Definition u32_max : Z := 4294967295.

Abbreviation disk := (gmap oid buffered).

Definition pack_error (e : string) : res unit := Err ("mem-odb pack write failed: " ++ e).

(** [write_snapshot]. *)
Definition write_snapshot (o : io) (d : disk) (s : snapshot) : res unit * disk :=
  let to_pack := base.filter (fun x => d !! x.1 = None) s in
  let packed := list_to_map to_pack ∪ d in
  match o with
  | Unopened e => (pack_error e, d)
  | _ =>
      if decide (to_pack = []) then (Ok tt, d)
      else if decide (u32_max < Z.of_nat (length to_pack))%Z then
        (pack_error "more objects in one flush than a pack header can count", d)
      else match o with
           | Failed e landed => (pack_error e, if landed then packed else d)
           | _ => (Ok tt, packed)
           end
  end.

(** * The system *)

(** [Job]: a drain has an acknowledgement channel, named by a number. *)
Inductive job := Chunk (s : nat) | Drain (s : nat) (ack : nat).

Definition job_store (j : job) : nat := match j with Chunk s => s | Drain s _ => s end.

#[export] Instance job_eq_dec : EqDecision job.
Proof. solve_decision. Defined.

(** The background thread: where it is in the loop of [Flusher::spawn]. *)
Inductive worker :=
| Idle
| Took (j : job)
| Packing (j : job) (s : snapshot)
| Packed (j : job) (s : snapshot)
| Finished (j : job) (r : res unit).

(** A thread inside [MemOdb::enqueue_chunk]: before the swap, and before the send. *)
Inductive caller := BeforeSwap (s : nat) | BeforeSend (s : nat).

Record sys := Sys {
  stores : gmap nat store;
  disks : gmap string disk;
  queue : list job;
  flusher : worker;
  acks : gmap nat (res unit);
  callers : list caller;
}.

Definition disk_of (y : sys) (dir : string) : disk := default ∅ (disks y !! dir).

(** The steps of the threads; [Open] creates a store and [Land] is another process that
    adds an object to a directory. *)
Inductive action :=
| Open (s : nat) (limit : option Z) (dir : string)
| Land (dir : string) (id : oid) (x : buffered)
| Write (s : nat) (id : oid) (x : buffered)
| PackInBackground (s : nat)
| Swap (i : nat)
| Send (i : nat)
| SendDrain (s : nat) (ack : nat)
| Recv
| Snapshot
| WritePack (o : io)
| Evict
| Finish.

Definition with_store (s : nat) (st : store) (y : sys) : sys :=
  Sys (<[s := st]> (stores y)) (disks y) (queue y) (flusher y) (acks y) (callers y).
Definition with_flusher (w : worker) (y : sys) : sys :=
  Sys (stores y) (disks y) (queue y) w (acks y) (callers y).
Definition with_queue (q : list job) (y : sys) : sys :=
  Sys (stores y) (disks y) q (flusher y) (acks y) (callers y).
Definition with_callers (c : list caller) (y : sys) : sys :=
  Sys (stores y) (disks y) (queue y) (flusher y) (acks y) c.
Definition with_disk (dir : string) (d : disk) (y : sys) : sys :=
  Sys (stores y) (<[dir := d]> (disks y)) (queue y) (flusher y) (acks y) (callers y).
Definition with_ack (k : nat) (r : res unit) (y : sys) : sys :=
  Sys (stores y) (disks y) (queue y) (flusher y) (<[k := r]> (acks y)) (callers y).

Definition ack_of (j : job) : option nat := match j with Drain _ k => Some k | Chunk _ => None end.

(** The job the background thread works on. *)
Definition working (w : worker) : option job :=
  match w with
  | Idle => None
  | Took j | Packing j _ | Packed j _ | Finished j _ => Some j
  end.

(** The jobs that are not finished, the oldest first. *)
Definition jobs (y : sys) : list job :=
  match working (flusher y) with Some j => j :: queue y | None => queue y end.

(** An acknowledgement number that was not used. *)
Definition fresh_ack (k : nat) (y : sys) : Prop :=
  acks y !! k = None /\ Forall (fun j => ack_of j ≠ Some k) (jobs y).

#[export] Instance fresh_ack_dec k y : Decision (fresh_ack k y).
Proof. apply _. Defined.

(** One step; [None] if the thread is not there. *)
Definition exec (a : action) (y : sys) : option sys :=
  match a with
  | Open s limit dir =>
      match stores y !! s with
      | Some _ => None
      | None => Some (with_store s (new_store limit dir) y)
      end
  | Land dir id x => Some (with_disk dir (<[id := x]> (disk_of y dir)) y)
  | Write s id x =>
      st ← stores y !! s;
      let '(over, st) := insert id x st in
      let y := with_store s st y in
      Some (if (over : bool) then with_callers (callers y ++ [BeforeSwap s]) y else y)
  | PackInBackground s =>
      st ← stores y !! s;
      Some (with_callers (callers y ++ [BeforeSwap s]) y)
  | Swap i =>
      c ← callers y !! i;
      match c with
      | BeforeSwap s =>
          st ← stores y !! s;
          if chunk_in_flight st then Some (with_callers (delete i (callers y)) y)
          else Some (with_callers (<[i := BeforeSend s]> (callers y)) (with_store s (set_flag true st) y))
      | BeforeSend _ => None
      end
  | Send i =>
      c ← callers y !! i;
      match c with
      | BeforeSend s => Some (with_callers (delete i (callers y)) (with_queue (queue y ++ [Chunk s]) y))
      | BeforeSwap _ => None
      end
  | SendDrain s k =>
      st ← stores y !! s;
      if decide (fresh_ack k y) then Some (with_queue (queue y ++ [Drain s k]) y) else None
  | Recv =>
      match flusher y, queue y with
      | Idle, j :: q => Some (with_flusher (Took j) (with_queue q y))
      | _, _ => None
      end
  | Snapshot =>
      match flusher y with
      | Took j =>
          st ← stores y !! job_store j;
          match take_snapshot st with
          | [] => Some (with_flusher (Finished j (Ok tt)) y)
          | s => Some (with_flusher (Packing j s) y)
          end
      | _ => None
      end
  | WritePack o =>
      match flusher y with
      | Packing j s =>
          st ← stores y !! job_store j;
          let '(r, d) := write_snapshot o (disk_of y (objects_dir st)) s in
          Some (with_flusher (match r with Ok _ => Packed j s | r => Finished j r end)
                  (with_disk (objects_dir st) d y))
      | _ => None
      end
  | Evict =>
      match flusher y with
      | Packed j s =>
          st ← stores y !! job_store j;
          Some (with_flusher (Finished j (Ok tt)) (with_store (job_store j) (evict s st) y))
      | _ => None
      end
  | Finish =>
      match flusher y with
      | Finished (Chunk s) _ =>
          st ← stores y !! s;
          Some (with_flusher Idle (with_store s (set_flag false st) y))
      | Finished (Drain s k) r => Some (with_flusher Idle (with_ack k r y))
      | _ => None
      end
  end.

(** Before any thread has started. *)
Definition boot : sys := Sys ∅ ∅ [] Idle ∅ [].

(** A sequence of steps. *)
Fixpoint run (l : list action) (y : sys) : option sys :=
  match l with [] => Some y | a :: l => y ← exec a y; run l y end.

(** What a reader finds: the buffer first, then the disk ([Odb::read] of odb.rs). *)
Definition read (y : sys) (s : nat) (id : oid) : option buffered :=
  st ← stores y !! s;
  match objects st !! id with
  | Some x => Some x
  | None => disk_of y (objects_dir st) !! id
  end.

(** Whether a step is one of the background thread. *)
Definition of_worker (a : action) : bool :=
  match a with Recv | Snapshot | WritePack _ | Evict | Finish => true | _ => false end.
