(* ===== verification/MemOdbFacts.v ===== *)
(** What the stores, the background thread and the packs of MemOdb.v promise together, in
    every interleaving of their steps: no object is lost, a drain is durable and is always
    answered, the sizes and the flags are exact. *)

From S2P Require Import Prelude Path Ops Objects MemOdb.

Open Scope nat_scope.

(** * Sizes *)

(** The bytes of a map's objects. *)
Definition total (m : gmap oid buffered) : Z := map_fold (fun _ x n => (data_len x + n)%Z) 0%Z m.

Lemma data_len_nonneg x : (0 <= data_len x)%Z.
Proof. unfold data_len. lia. Qed.

Lemma total_insert m id x : m !! id = None -> total (<[id := x]> m) = (data_len x + total m)%Z.
Proof. intros. unfold total. rewrite map_fold_insert_L; [done| |done]. intros; lia. Qed.

Lemma total_delete m id x : m !! id = Some x -> total m = (data_len x + total (delete id m))%Z.
Proof. intros. unfold total. rewrite (map_fold_delete_L _ _ id x); [done| |done]. intros; lia. Qed.

Lemma total_nonneg m : (0 <= total m)%Z.
Proof.
  induction m as [|id x m Hm IH] using map_ind; [done|].
  rewrite total_insert by done. pose proof (data_len_nonneg x). lia.
Qed.

(** * Evicting *)

Lemma evict_objects s st :
  objects (evict s st) = base.filter (fun p => p.1 ∉ s.*1) (objects st).
Proof.
  revert st. induction s as [|x s IH]; intros st; simpl.
  { symmetry. apply map_filter_id. intros. apply not_elem_of_nil. }
  rewrite IH. unfold evict_one. apply map_eq. intros id.
  destruct (objects st !! x.1) as [y|] eqn:E; simpl; apply option_eq; intros z;
    rewrite !map_lookup_filter_Some; simpl; rewrite not_elem_of_cons.
  - rewrite lookup_delete_Some. naive_solver.
  - naive_solver congruence.
Qed.

Lemma evict_frame s st :
  objects_dir (evict s st) = objects_dir st /\ limit (evict s st) = limit st /\
  chunk_in_flight (evict s st) = chunk_in_flight st.
Proof.
  revert st. induction s as [|x s IH]; intros st; [done|].
  simpl. destruct (IH (evict_one st x)) as (-> & -> & ->).
  unfold evict_one. by destruct (objects st !! x.1).
Qed.

(** The size of a store is exact. *)
Definition sized (st : store) : Prop := buffered_size st = total (objects st).

Lemma evict_sized s st : sized st -> sized (evict s st).
Proof.
  revert st. induction s as [|x s IH]; intros st Hst; [done|].
  apply IH. unfold evict_one, sized in *. destruct (objects st !! x.1) as [y|] eqn:E; simpl; [|done].
  rewrite Hst, (total_delete _ _ _ E). pose proof (total_nonneg (delete x.1 (objects st))).
  unfold saturating_sub. lia.
Qed.

Lemma insert_sized id x st :
  (forall y, objects st !! id = Some y -> y = x) -> sized st -> sized (insert id x st).2.
Proof.
  unfold insert, sized. intros Hx Hst. destruct (objects st !! id) as [y|] eqn:E; simpl.
  - rewrite Hst, insert_id; [done|]. by rewrite E, (Hx y).
  - rewrite total_insert by done. lia.
Qed.

Lemma insert_objects id x st : objects (insert id x st).2 = <[id := x]> (objects st).
Proof. unfold insert. by destruct (objects st !! id). Qed.

Lemma insert_frame id x st :
  objects_dir (insert id x st).2 = objects_dir st /\ limit (insert id x st).2 = limit st /\
  chunk_in_flight (insert id x st).2 = chunk_in_flight st.
Proof. unfold insert. by destruct (objects st !! id). Qed.

(** * Snapshots and packs *)

Lemma take_snapshot_elem st id x : (id, x) ∈ take_snapshot st <-> objects st !! id = Some x.
Proof. unfold take_snapshot. by rewrite merge_sort_Permutation, elem_of_map_to_list. Qed.

Lemma take_snapshot_nil st : take_snapshot st = [] -> objects st = ∅.
Proof.
  intros Hs. apply map_empty. intros id. apply eq_None_not_Some. intros [x Hx].
  apply take_snapshot_elem in Hx. rewrite Hs in Hx. by apply elem_of_nil in Hx.
Qed.

(** A pack holds what the directory lacks: nothing that is there changes, and what is
    written was in the snapshot. *)
Lemma write_snapshot_grows o d s : d ⊆ (write_snapshot o d s).2.
Proof.
  unfold write_snapshot. set (to_pack := base.filter _ s).
  assert (Hd : d ⊆ list_to_map to_pack ∪ d).
  { apply map_union_subseteq_r. apply map_disjoint_list_to_map_l, Forall_forall.
    intros x Hx. by apply list_elem_of_filter in Hx as [? _]. }
  destruct o as [e| |e []]; simpl; repeat case_decide; simpl; done.
Qed.

Lemma write_snapshot_from o d s id x :
  (write_snapshot o d s).2 !! id = Some x -> d !! id = Some x \/ (id, x) ∈ s.
Proof.
  unfold write_snapshot. set (to_pack := base.filter _ s).
  assert (Hs : (list_to_map to_pack ∪ d) !! id = Some x -> d !! id = Some x \/ (id, x) ∈ s).
  { intros [Hx|[_ Hx]]%lookup_union_Some_raw; [|by left].
    apply elem_of_list_to_map_2, list_elem_of_filter in Hx as [_ Hx]. by right. }
  destruct o as [e| |e []]; simpl; repeat case_decide; simpl; auto.
Qed.

Lemma write_snapshot_lands o d s d' :
  write_snapshot o d s = (Ok tt, d') -> Forall (fun x => is_Some (d' !! x.1)) s.
Proof.
  unfold write_snapshot. set (to_pack := base.filter _ s). intros Hw. apply Forall_forall.
  intros [id x] Hx. simpl.
  destruct (decide (d !! id = None)) as [Hid|Hid].
  - assert (Hp : (id, x) ∈ to_pack) by (apply list_elem_of_filter; auto).
    destruct (decide (to_pack = [])) as [Hn|_]; [rewrite Hn in Hp; by apply elem_of_nil in Hp|].
    destruct o as [e| |e l]; simplify_eq; case_decide; simplify_eq.
    apply lookup_union_is_Some. left. apply elem_of_dom. rewrite dom_list_to_map_L.
    apply elem_of_list_to_set, list_elem_of_fmap. by exists (id, x).
  - apply not_eq_None_Some in Hid as [y Hy]. exists y.
    eapply lookup_weaken; [done|]. pose proof (write_snapshot_grows o d s) as Hg.
    unfold write_snapshot in Hg. fold to_pack in Hg. by rewrite Hw in Hg.
Qed.

(** * The steps as a relation *)

Inductive step : action -> sys -> sys -> Prop :=
| step_open y s l dir :
    stores y !! s = None -> step (Open s l dir) y (with_store s (new_store l dir) y)
| step_land y dir id x :
    step (Land dir id x) y (with_disk dir (<[id := x]> (disk_of y dir)) y)
| step_write y s id x st cs :
    stores y !! s = Some st ->
    cs = (if (insert id x st).1 then callers y ++ [BeforeSwap s] else callers y) ->
    step (Write s id x) y (with_callers cs (with_store s (insert id x st).2 y))
| step_background y s st :
    stores y !! s = Some st ->
    step (PackInBackground s) y (with_callers (callers y ++ [BeforeSwap s]) y)
| step_swap_taken y i s st :
    callers y !! i = Some (BeforeSwap s) -> stores y !! s = Some st ->
    chunk_in_flight st = true ->
    step (Swap i) y (with_callers (delete i (callers y)) y)
| step_swap y i s st :
    callers y !! i = Some (BeforeSwap s) -> stores y !! s = Some st ->
    chunk_in_flight st = false ->
    step (Swap i) y
      (with_callers (<[i := BeforeSend s]> (callers y)) (with_store s (set_flag true st) y))
| step_send y i s :
    callers y !! i = Some (BeforeSend s) ->
    step (Send i) y (with_callers (delete i (callers y)) (with_queue (queue y ++ [Chunk s]) y))
| step_drain y s k st :
    stores y !! s = Some st -> fresh_ack k y ->
    step (SendDrain s k) y (with_queue (queue y ++ [Drain s k]) y)
| step_recv y j q :
    flusher y = Idle -> queue y = j :: q ->
    step Recv y (with_flusher (Took j) (with_queue q y))
| step_nothing y j st :
    flusher y = Took j -> stores y !! job_store j = Some st -> take_snapshot st = [] ->
    step Snapshot y (with_flusher (Finished j (Ok tt)) y)
| step_snapshot y j st :
    flusher y = Took j -> stores y !! job_store j = Some st -> take_snapshot st ≠ [] ->
    step Snapshot y (with_flusher (Packing j (take_snapshot st)) y)
| step_pack y o j s st d :
    flusher y = Packing j s -> stores y !! job_store j = Some st ->
    write_snapshot o (disk_of y (objects_dir st)) s = (Ok tt, d) ->
    step (WritePack o) y (with_flusher (Packed j s) (with_disk (objects_dir st) d y))
| step_pack_error y o j s st r d :
    flusher y = Packing j s -> stores y !! job_store j = Some st ->
    write_snapshot o (disk_of y (objects_dir st)) s = (r, d) -> r ≠ Ok tt ->
    step (WritePack o) y (with_flusher (Finished j r) (with_disk (objects_dir st) d y))
| step_evict y j s st :
    flusher y = Packed j s -> stores y !! job_store j = Some st ->
    step Evict y (with_flusher (Finished j (Ok tt)) (with_store (job_store j) (evict s st) y))
| step_clear y s st r :
    flusher y = Finished (Chunk s) r -> stores y !! s = Some st ->
    step Finish y (with_flusher Idle (with_store s (set_flag false st) y))
| step_ack y s k r :
    flusher y = Finished (Drain s k) r ->
    step Finish y (with_flusher Idle (with_ack k r y)).

Lemma exec_step a y y' : exec a y = Some y' -> step a y y'.
Proof.
  destruct a; simpl; intros E.
  - destruct (stores y !! s) eqn:?; simplify_eq. by constructor.
  - simplify_eq. constructor.
  - destruct (stores y !! s) as [st|] eqn:Hs; simplify_eq; simpl in E.
    destruct (insert id x st) as [over st'] eqn:Hi. simplify_eq.
    replace st' with (insert id x st).2 by by rewrite Hi.
    pose proof (step_write y s id x st _ Hs eq_refl) as Hw. rewrite Hi in *. simpl in *.
    by destruct over.
  - destruct (stores y !! s) eqn:?; simpl in E; simplify_eq. by eapply step_background.
  - destruct (callers y !! i) as [[s|s]|] eqn:?; simplify_eq; simpl in E; simplify_eq.
    destruct (stores y !! s) as [st|] eqn:?; simplify_eq; simpl in E.
    destruct (chunk_in_flight st) eqn:?; simplify_eq;
      [by eapply step_swap_taken|by eapply step_swap].
  - destruct (callers y !! i) as [[s|s]|] eqn:?; simplify_eq; simpl in E; simplify_eq.
    by constructor.
  - destruct (stores y !! s) eqn:?; simplify_eq; simpl in E. case_decide; simplify_eq.
    by eapply step_drain.
  - destruct (flusher y) eqn:?, (queue y) eqn:?; simplify_eq. by constructor.
  - destruct (flusher y) as [|j|j ?|j ?|j ?] eqn:?; simplify_eq.
    destruct (stores y !! job_store j) as [st|] eqn:?; simplify_eq; simpl in E.
    destruct (take_snapshot st) eqn:Hs; simplify_eq; [by eapply step_nothing|].
    rewrite <- Hs. apply step_snapshot; congruence.
  - destruct (flusher y) as [|j|j s|j ?|j ?] eqn:?; simplify_eq.
    destruct (stores y !! job_store j) as [st|] eqn:?; simplify_eq; simpl in E.
    destruct (write_snapshot _ _ _) as [r d] eqn:?. simplify_eq.
    destruct r as [[]| |]; [by eapply step_pack|by eapply step_pack_error..].
  - destruct (flusher y) as [|j|j ?|j s|j ?] eqn:?; simplify_eq.
    destruct (stores y !! job_store j) as [st|] eqn:?; simplify_eq; simpl in E. simplify_eq.
    by constructor.
  - destruct (flusher y) as [|j|j ?|j ?|[s|s k] r] eqn:?; simplify_eq.
    + destruct (stores y !! s) as [st|] eqn:?; simplify_eq; simpl in E. simplify_eq.
      by eapply step_clear.
    + by eapply step_ack.
Qed.

Lemma disk_of_with_disk dir d y dir' :
  disk_of (with_disk dir d y) dir' = if decide (dir = dir') then d else disk_of y dir'.
Proof.
  unfold disk_of, with_disk; simpl. case_decide; subst; [by rewrite lookup_insert_eq|].
  by rewrite lookup_insert_ne.
Qed.

(** Stores are never dropped and never change their directory. *)
Lemma step_store a y y' s st :
  step a y y' -> stores y !! s = Some st ->
  exists st', stores y' !! s = Some st' /\ objects_dir st' = objects_dir st /\
    limit st' = limit st.
Proof.
  intros Hstep Hs. pose proof insert_frame as Hi. pose proof evict_frame as He.
  assert (Hput : forall s' st0 st1, stores y !! s' = Some st0 ->
    objects_dir st1 = objects_dir st0 -> limit st1 = limit st0 ->
    exists st', <[s' := st1]> (stores y) !! s = Some st' /\ objects_dir st' = objects_dir st /\
      limit st' = limit st).
  { intros s' st0 st1 H0 Hd Hl. destruct (decide (s' = s)) as [->|Hne].
    - rewrite lookup_insert_eq. exists st1. by simplify_eq.
    - rewrite lookup_insert_ne by done. by exists st. }
  destruct Hstep; simpl; try (by exists st);
    try (eapply Hput; [eassumption|first [apply Hi|apply He|done]..]).
  destruct (decide (s0 = s)) as [->|]; [congruence|]. rewrite lookup_insert_ne by done. eauto.
Qed.

Lemma step_store_back a y y' s st' :
  step a y y' -> stores y' !! s = Some st' ->
  (exists st, stores y !! s = Some st /\ objects_dir st' = objects_dir st) \/
  (stores y !! s = None /\ exists l dir, a = Open s l dir /\ st' = new_store l dir).
Proof.
  intros Hstep Hs'. destruct (stores y !! s) as [st|] eqn:Hs.
  - left. destruct (step_store _ _ _ _ _ Hstep Hs) as (st1 & H1 & H2 & _). exists st. by simplify_eq.
  - right. split; [done|].
    destruct Hstep; simpl in *; simplify_eq;
      try (match goal with H : <[?t := _]> (stores y) !! s = Some _ |- _ =>
        destruct (decide (t = s)) as [Ht|]; [try congruence|by rewrite lookup_insert_ne, ?Hs in H] end).
    rewrite Ht, lookup_insert_eq in Hs'. simplify_eq. eauto.
Qed.

(** * The jobs *)

(** What a step sends. *)
Definition sent (a : action) (y : sys) : list job :=
  match a with
  | Send i => match callers y !! i with Some (BeforeSend s) => [Chunk s] | _ => [] end
  | SendDrain s k => [Drain s k]
  | _ => []
  end.

(** The unfinished jobs are a queue: steps append to it, and [Finish] takes its head. *)
Lemma step_jobs a y y' :
  step a y y' ->
  match a with
  | Finish => exists j, working (flusher y) = Some j /\ jobs y = j :: jobs y'
  | _ => jobs y' = jobs y ++ sent a y
  end.
Proof.
  destruct 1; unfold jobs; simpl; rewrite ?app_nil_r; try done;
    repeat match goal with
    | H : flusher _ = _ |- _ => rewrite H; clear H
    | H : queue _ = _ |- _ => rewrite H; clear H
    | H : callers _ !! _ = _ |- _ => rewrite H; clear H
    end; simpl; eauto; by destruct (working (flusher y)).
Qed.

Definition caller_store (c : caller) : nat := match c with BeforeSwap s | BeforeSend s => s end.

(** Jobs and callers name stores that exist. *)
Record open_ok (y : sys) : Prop := {
  jobs_open : Forall (fun j => is_Some (stores y !! job_store j)) (jobs y);
  callers_open : Forall (fun c => is_Some (stores y !! caller_store c)) (callers y);
}.

Lemma step_open_store a y y' s : step a y y' -> is_Some (stores y !! s) -> is_Some (stores y' !! s).
Proof. intros Hstep [st Hst]. destruct (step_store _ _ _ _ _ Hstep Hst) as (st' & ? & _). eauto. Qed.

Lemma step_jobs_open a y y' :
  open_ok y -> step a y y' -> Forall (fun j => is_Some (stores y' !! job_store j)) (jobs y').
Proof.
  intros [Hj Hc] Hstep.
  assert (Hold : Forall (fun j => is_Some (stores y' !! job_store j)) (jobs y)).
  { eapply Forall_impl; [done|]. intros j. by apply (step_open_store a y y'). }
  pose proof (step_jobs _ _ _ Hstep) as Hjobs.
  destruct Hstep; rewrite ?app_nil_r in Hjobs; try (by rewrite Hjobs);
    try (destruct Hjobs as (j & _ & Hjobs); rewrite Hjobs in Hold; by inversion Hold);
    rewrite Hjobs; apply Forall_app; (split; [done|]).
  - simpl. rewrite H. apply Forall_singleton. simpl. rewrite Forall_forall in Hc.
    by apply list_elem_of_lookup_2, Hc in H.
  - apply Forall_singleton. simpl. eauto.
Qed.

Lemma step_callers_open a y y' :
  open_ok y -> step a y y' -> Forall (fun c => is_Some (stores y' !! caller_store c)) (callers y').
Proof.
  intros [Hj Hc] Hstep.
  assert (Hold : Forall (fun c => is_Some (stores y' !! caller_store c)) (callers y)).
  { eapply Forall_impl; [done|]. intros c. by apply (step_open_store a y y'). }
  assert (Hnew : forall s st, stores y !! s = Some st -> is_Some (stores y' !! s)).
  { intros s st Hs. apply (step_open_store a y y'); eauto. }
  destruct Hstep; try done; simpl callers.
  - subst cs. destruct (insert id x st).1; [|done]. apply Forall_app. split; [done|].
    apply Forall_singleton. by eapply Hnew.
  - apply Forall_app. split; [done|]. apply Forall_singleton. by eapply Hnew.
  - by apply Forall_delete.
  - apply Forall_insert; [done|]. by eapply Hnew.
  - by apply Forall_delete.
Qed.

Lemma step_open_ok a y y' : open_ok y -> step a y y' -> open_ok y'.
Proof. intros. split; [by eapply step_jobs_open|by eapply step_callers_open]. Qed.

(** * Content addressing *)

Section addressed.
Context (hash : buffered -> oid) `{!Inj (=) (=) hash}.

(** Every object is stored under its hash. *)
Definition sound (m : gmap oid buffered) : Prop := map_Forall (fun id x => id = hash x) m.

(** The writers compute the hashes. *)
Definition honest (a : action) : Prop :=
  match a with Write _ id x | Land _ id x => id = hash x | _ => True end.

Lemma sound_agree m m' id x x' :
  sound m -> sound m' -> m !! id = Some x -> m' !! id = Some x' -> x = x'.
Proof. intros Hm Hm' Hx Hx'. apply (inj hash). apply Hm in Hx. apply Hm' in Hx'. congruence. Qed.

Lemma sound_insert m id x : sound m -> id = hash x -> sound (<[id := x]> m).
Proof. intros. by apply map_Forall_insert_2. Qed.

(** * The invariant *)

(** Adding the object again changes nothing. *)
Lemma sound_insert_subseteq m id x : sound m -> id = hash x -> m ⊆ <[id := x]> m.
Proof.
  intros Hm ->. destruct (m !! hash x) as [x'|] eqn:E; [|by apply insert_subseteq].
  rewrite insert_id; [done|]. rewrite E. f_equal. apply (inj hash). symmetry. by apply Hm in E.
Qed.

Definition snapshot_of (w : worker) : snapshot :=
  match w with Packing _ s | Packed _ s => s | _ => [] end.

Record contents_ok (y : sys) : Prop := {
  stores_sound : forall s st, stores y !! s = Some st -> sound (objects st);
  disks_sound : forall dir, sound (disk_of y dir);
  snapshot_sound : Forall (fun x => x.1 = hash x.2) (snapshot_of (flusher y));
  packed_durable : forall j s st, flusher y = Packed j s -> stores y !! job_store j = Some st ->
    Forall (fun x => is_Some (disk_of y (objects_dir st) !! x.1)) s;
}.

Lemma step_disk a y y' dir :
  contents_ok y -> honest a -> step a y y' -> disk_of y dir ⊆ disk_of y' dir.
Proof.
  intros Hok Ha Hstep.
  destruct Hstep; try done;
    try change (disk_of (with_flusher ?w ?z) dir) with (disk_of z dir);
    rewrite disk_of_with_disk; case_decide; subst; try done.
  - apply sound_insert_subseteq; [|done]. by apply disks_sound.
  - match goal with H : write_snapshot ?o ?d ?s = _ |- _ =>
      pose proof (write_snapshot_grows o d s) as Hg; by rewrite H in Hg end.
  - match goal with H : write_snapshot ?o ?d ?s = _ |- _ =>
      pose proof (write_snapshot_grows o d s) as Hg; by rewrite H in Hg end.
Qed.

Lemma step_stores_sound a y y' s st :
  contents_ok y -> honest a -> step a y y' -> stores y' !! s = Some st -> sound (objects st).
Proof.
  intros Hok Ha Hstep. pose proof (stores_sound _ Hok) as Hs.
  assert (Hput : forall s' st1, sound (objects st1) -> <[s' := st1]> (stores y) !! s = Some st ->
    sound (objects st)).
  { intros s' st1 H1 [[_ <-]|[_ ?]]%lookup_insert_Some; eauto. }
  destruct Hstep; simpl; eauto; apply Hput; try (by apply Hs in H); try (by apply Hs in H0).
  - apply map_Forall_empty.
  - rewrite insert_objects. apply sound_insert; eauto.
  - rewrite evict_objects. intros id x [Hx _]%map_lookup_filter_Some. by eapply Hs.
Qed.

Lemma write_snapshot_sound o d s :
  sound d -> Forall (fun x => x.1 = hash x.2) s -> sound (write_snapshot o d s).2.
Proof.
  intros Hd Hs id x [Hx|Hx]%write_snapshot_from; [by apply Hd|].
  rewrite Forall_forall in Hs. by apply Hs in Hx.
Qed.

Lemma step_disks_sound a y y' dir :
  contents_ok y -> honest a -> step a y y' -> sound (disk_of y' dir).
Proof.
  intros Hok Ha Hstep. pose proof (disks_sound _ Hok) as Hd.
  pose proof (snapshot_sound _ Hok) as Hs.
  destruct Hstep; try apply Hd;
    try change (disk_of (with_flusher ?w ?z) dir) with (disk_of z dir);
    rewrite disk_of_with_disk; case_decide; subst; try apply Hd.
  - by apply sound_insert.
  - match goal with H : flusher y = _, H' : write_snapshot ?o ?d ?s = _ |- _ =>
      rewrite H in Hs; pose proof (write_snapshot_sound o d s (Hd _) Hs) as Hw; by rewrite H' in Hw end.
  - match goal with H : flusher y = _, H' : write_snapshot ?o ?d ?s = _ |- _ =>
      rewrite H in Hs; pose proof (write_snapshot_sound o d s (Hd _) Hs) as Hw; by rewrite H' in Hw end.
Qed.

Lemma step_flusher a y y' : step a y y' -> of_worker a = false -> flusher y' = flusher y.
Proof. by destruct 1. Qed.

Lemma step_snapshot_sound a y y' :
  contents_ok y -> step a y y' -> Forall (fun x => x.1 = hash x.2) (snapshot_of (flusher y')).
Proof.
  intros Hok Hstep. pose proof (snapshot_sound _ Hok) as Hs.
  destruct Hstep; simpl in *; try done; try constructor.
  - apply Forall_forall. intros [id x] Hx%take_snapshot_elem. by eapply (stores_sound _ Hok).
  - by rewrite H in Hs.
Qed.

Lemma step_packed_durable a y y' j s st :
  open_ok y -> contents_ok y -> honest a -> step a y y' ->
  flusher y' = Packed j s -> stores y' !! job_store j = Some st ->
  Forall (fun x => is_Some (disk_of y' (objects_dir st) !! x.1)) s.
Proof.
  intros Hopen Hok Ha Hstep Hw Hst. destruct (of_worker a) eqn:Hwork.
  - destruct Hstep; simpl in *; simplify_eq.
    change (disk_of (with_flusher ?w ?z) ?dir) with (disk_of z dir).
    rewrite disk_of_with_disk, decide_True by done. by eapply write_snapshot_lands.
  - rewrite (step_flusher _ _ _ Hstep Hwork) in Hw.
    destruct (step_store_back _ _ _ _ _ Hstep Hst) as [(st0 & Hst0 & Hdir)|(Hnone & l & dir & -> & ->)].
    + rewrite Hdir. eapply Forall_impl; [by eapply packed_durable|]. intros x [z Hz]. exists z.
      eapply lookup_weaken; [done|]. by eapply step_disk.
    + destruct Hopen as [Hj _]. unfold jobs in Hj. rewrite Hw in Hj. simpl in Hj.
      apply Forall_cons in Hj as [[? ?] _]. congruence.
Qed.

Lemma step_contents_ok a y y' :
  open_ok y -> contents_ok y -> honest a -> step a y y' -> contents_ok y'.
Proof.
  intros Hopen Hok Ha Hstep. split.
  - intros s st. by eapply step_stores_sound.
  - intros dir. by eapply step_disks_sound.
  - by eapply step_snapshot_sound.
  - intros j s st. by eapply step_packed_durable.
Qed.

Definition sizes_ok (y : sys) : Prop := map_Forall (fun _ st => sized st) (stores y).

Lemma step_sizes_ok a y y' :
  contents_ok y -> honest a -> sizes_ok y -> step a y y' -> sizes_ok y'.
Proof.
  intros Hok Ha Hy Hstep.
  assert (Hput : forall s st, sized st -> map_Forall (fun _ st => sized st) (<[s := st]> (stores y))).
  { intros. by apply map_Forall_insert_2. }
  destruct Hstep; try done; apply Hput; try (by eapply Hy in H); try (by eapply Hy in H0).
  - done.
  - apply insert_sized; [|by eapply Hy]. intros z Hz. apply (inj hash).
    apply (stores_sound _ Hok _ _ H) in Hz. simpl in Ha. congruence.
  - apply evict_sized. by eapply Hy.
Qed.

End addressed.

(** * Chunks and flags *)

Definition is_same `{EqDecision A} (x y : A) : nat := if decide (x = y) then 1 else 0.

#[local] Arguments is_same {A _} x y : simpl never.

Fixpoint count `{EqDecision A} (x : A) (l : list A) : nat :=
  match l with [] => 0 | z :: l => is_same z x + count x l end.

Section count.
Context {A : Type} `{EqDecision A}.
Implicit Types (x z : A) (l : list A).

Lemma count_app x l l' : count x (l ++ l') = count x l + count x l'.
Proof. induction l; simpl; lia. Qed.

Lemma count_delete x l i z : l !! i = Some z -> is_same z x + count x (delete i l) = count x l.
Proof.
  revert i. induction l as [|w l IH]; intros [|i] Hz; simpl in Hz; simplify_eq; simpl; [done|].
  specialize (IH i Hz). lia.
Qed.

Lemma count_insert x l i z z' :
  l !! i = Some z -> is_same z x + count x (<[i := z']> l) = is_same z' x + count x l.
Proof.
  revert i. induction l as [|w l IH]; intros [|i] Hz; simpl in Hz; simplify_eq; simpl; [lia|].
  specialize (IH i Hz). lia.
Qed.

Lemma count_zero x l : x ∉ l -> count x l = 0.
Proof.
  induction l as [|z l IH]; [done|]. intros [Hne Hl]%not_elem_of_cons. simpl.
  rewrite IH by done. unfold is_same. by rewrite decide_False.
Qed.
End count.

#[export] Instance caller_eq_dec : EqDecision caller.
Proof. solve_decision. Defined.

(** The chunks of a store that are queued, running, or about to be sent. *)
Definition chunks (y : sys) (s : nat) : nat :=
  count (Chunk s) (jobs y) + count (BeforeSend s) (callers y).

Definition flags_ok (y : sys) : Prop :=
  forall s st, stores y !! s = Some st -> chunks y s = if chunk_in_flight st then 1 else 0.

Lemma is_same_refl `{EqDecision A} (x : A) : is_same x x = 1.
Proof. unfold is_same. by rewrite decide_True. Qed.
Lemma is_same_ne `{EqDecision A} (x y : A) : x ≠ y -> is_same x y = 0.
Proof. intros. unfold is_same. by rewrite decide_False. Qed.
Lemma is_same_chunk s s' : is_same (Chunk s) (Chunk s') = is_same s s'.
Proof. unfold is_same. repeat case_decide; congruence. Qed.
Lemma is_same_send s s' : is_same (BeforeSend s) (BeforeSend s') = is_same s s'.
Proof. unfold is_same. repeat case_decide; congruence. Qed.

(** A step changes the number of chunks of a store only when it swaps its flag or
    finishes its chunk. *)
Lemma step_chunks a y y' s :
  step a y y' ->
  match a with
  | Finish => chunks y s = chunks y' s + match working (flusher y) with Some (Chunk t) => is_same t s | _ => 0 end
  | Swap i => chunks y' s =
      chunks y s + match callers y !! i with
                   | Some (BeforeSwap t) =>
                       match stores y !! t with
                       | Some st => if chunk_in_flight st then 0 else is_same t s
                       | None => 0
                       end
                   | _ => 0
                   end
  | _ => chunks y' s = chunks y s
  end.
Proof.
  intros Hstep. pose proof (step_jobs _ _ _ Hstep) as Hj. unfold chunks.
  destruct Hstep; simpl callers; try (rewrite Hj, count_app; simpl; lia).
  - rewrite Hj, count_app. subst cs. destruct (insert id x st).1; [|simpl; lia].
    rewrite count_app. simpl. lia.
  - rewrite Hj, !count_app. simpl. lia.
  - rewrite Hj, count_app, H, H0, H1. pose proof (count_delete (BeforeSend s) _ _ _ H) as Hd.
    rewrite is_same_ne in Hd by done. simpl. lia.
  - rewrite Hj, count_app, H, H0, H1. pose proof (count_insert (BeforeSend s) _ _ _ (BeforeSend s0) H) as Hd.
    rewrite is_same_ne, is_same_send in Hd by done. simpl. lia.
  - rewrite Hj, count_app. simpl sent. rewrite H. pose proof (count_delete (BeforeSend s) _ _ _ H) as Hd.
    rewrite is_same_send in Hd. simpl. rewrite is_same_chunk. lia.
  - destruct Hj as (j & Hw & Hj). rewrite Hj, H. rewrite H in Hw. simpl in Hw. simplify_eq. simpl.
    rewrite is_same_chunk. lia.
  - destruct Hj as (j & Hw & Hj). rewrite Hj, H. rewrite H in Hw. simpl in Hw. simplify_eq. simpl. lia.
Qed.

Lemma chunks_closed y s : open_ok y -> stores y !! s = None -> chunks y s = 0.
Proof.
  intros [Hj Hc] Hs. unfold chunks. rewrite !count_zero; [done| |].
  - intros Hin. rewrite Forall_forall in Hc. apply Hc in Hin as [? ?]. simpl in *. congruence.
  - intros Hin. rewrite Forall_forall in Hj. apply Hj in Hin as [? ?]. simpl in *. congruence.
Qed.

Lemma step_flags_ok a y y' : open_ok y -> flags_ok y -> step a y y' -> flags_ok y'.
Proof.
  intros Hopen Hy Hstep s st' Hst'. pose proof (step_chunks _ _ _ s Hstep) as Hc.
  assert (Hput : forall t st st1, stores y !! t = Some st -> <[t := st1]> (stores y) !! s = Some st' ->
    chunk_in_flight st1 = chunk_in_flight st -> chunks y s = if chunk_in_flight st' then 1 else 0).
  { intros t st st1 Ht [[-> <-]|[_ ?]]%lookup_insert_Some Hf; [rewrite Hf|]; by apply Hy. }
  destruct Hstep; simpl stores in Hst'; try (rewrite Hc; by apply Hy);
    try (rewrite Hc; eapply Hput; [done..|]; first [apply insert_frame|apply evict_frame]).
  - rewrite Hc. apply lookup_insert_Some in Hst' as [[-> <-]|[_ ?]]; [|by apply Hy].
    by apply chunks_closed.
  - rewrite Hc, H, H0, H1, (Hy _ _ Hst'). lia.
  - rewrite Hc, H, H0, H1. apply lookup_insert_Some in Hst' as [[-> <-]|[Hne ?]].
    + rewrite is_same_refl, (Hy _ _ H0), H1. done.
    + rewrite is_same_ne, (Hy s st') by done. lia.
  - rewrite H in Hc. simpl in Hc. apply lookup_insert_Some in Hst' as [[-> <-]|[Hne ?]].
    + rewrite is_same_refl, (Hy _ _ H0) in Hc. simpl. destruct (chunk_in_flight st); lia.
    + rewrite is_same_ne, (Hy s st') in Hc by done. lia.
  - rewrite H in Hc. simpl in Hc. rewrite <- (Hy _ _ Hst'). lia.
Qed.

(** * Runs *)

Section runs.
Context (hash : buffered -> oid) `{!Inj (=) (=) hash}.

Record inv (y : sys) : Prop := {
  inv_open : open_ok y;
  inv_contents : contents_ok hash y;
  inv_sizes : sizes_ok y;
  inv_flags : flags_ok y;
}.

Lemma step_inv a y y' : inv y -> honest hash a -> step a y y' -> inv y'.
Proof.
  intros [Ho Hc Hs Hf] Ha Hstep. split.
  - by eapply step_open_ok.
  - by eapply step_contents_ok.
  - by eapply step_sizes_ok.
  - by eapply step_flags_ok.
Qed.

Lemma boot_inv : inv boot.
Proof.
  split.
  - split; constructor.
  - by split.
  - apply map_Forall_empty.
  - by intros s st.
Qed.

(** Induction along a run. *)
Lemma run_ind (P : sys -> Prop) l y y' :
  inv y -> P y -> (forall a y y', inv y -> honest hash a -> step a y y' -> P y -> P y') ->
  Forall (honest hash) l -> run l y = Some y' -> inv y' /\ P y'.
Proof.
  intros Hy HP Hstep. revert y Hy HP. induction l as [|a l IH]; intros y Hy HP Hl Hrun; simpl in Hrun.
  { by simplify_eq. }
  apply Forall_cons in Hl as [Ha Hl]. destruct (exec a y) as [y1|] eqn:He; [|done]. simpl in Hrun.
  apply exec_step in He. apply (IH y1); eauto using step_inv.
Qed.

Lemma run_inv l y y' : inv y -> Forall (honest hash) l -> run l y = Some y' -> inv y'.
Proof. intros Hy Hl Hr. by apply (run_ind (fun _ => True) l y y'). Qed.

(** * Reads *)

Lemma read_sound y s id x : inv y -> read y s id = Some x -> id = hash x.
Proof.
  intros Hy. unfold read. destruct (stores y !! s) as [st|] eqn:Hs; [|done]. simpl.
  destruct (objects st !! id) eqn:Hid; intros Hx; simplify_eq.
  - by eapply (stores_sound _ _ (inv_contents _ Hy)).
  - by eapply (disks_sound _ _ (inv_contents _ Hy)).
Qed.

Lemma read_present y s st id :
  stores y !! s = Some st ->
  is_Some (read y s id) <-> is_Some (objects st !! id) \/ is_Some (disk_of y (objects_dir st) !! id).
Proof.
  intros Hs. unfold read. rewrite Hs. simpl. destruct (objects st !! id); [|naive_solver].
  split; eauto.
Qed.

(** An object leaves a buffer only for the disk. *)
Lemma step_buffered a y y' s st st' id :
  inv y -> step a y y' -> stores y !! s = Some st -> stores y' !! s = Some st' ->
  is_Some (objects st !! id) ->
  is_Some (objects st' !! id) \/ is_Some (disk_of y (objects_dir st) !! id).
Proof.
  intros Hy Hstep Hs Hs' Hid.
  destruct Hstep; simpl stores in Hs'; try (left; congruence);
    apply lookup_insert_Some in Hs' as [[<- <-]|[_ ?]]; simplify_eq; try (left; done); try (left; congruence).
  - left. rewrite insert_objects. destruct (decide (id0 = id)) as [->|].
    + rewrite lookup_insert_eq. eauto.
    + by rewrite lookup_insert_ne.
  - destruct (decide (id ∈ s0.*1)) as [Hin|Hout].
    + right. pose proof (packed_durable _ _ (inv_contents _ Hy) _ _ _ H H0) as Hd.
      apply list_elem_of_fmap in Hin as (x & -> & Hx). rewrite Forall_forall in Hd. by apply Hd.
    + left. rewrite evict_objects. destruct Hid as [x Hx]. exists x. by apply map_lookup_filter_Some.
Qed.

Lemma step_read a y y' s id x :
  inv y -> honest hash a -> step a y y' -> read y s id = Some x -> read y' s id = Some x.
Proof.
  intros Hy Ha Hstep Hx. assert (Hy' := step_inv _ _ _ Hy Ha Hstep).
  assert (Hp : is_Some (read y' s id)).
  { destruct (stores y !! s) as [st|] eqn:Hs; [|unfold read in Hx; by rewrite Hs in Hx].
    destruct (step_store _ _ _ _ _ Hstep Hs) as (st' & Hs' & Hd & _).
    apply (read_present y' s st' id Hs'). rewrite Hd.
    assert (Hdisk : is_Some (disk_of y (objects_dir st) !! id) ->
      is_Some (disk_of y' (objects_dir st) !! id)).
    { intros [z Hz]. exists z. eapply lookup_weaken; [done|]. eapply step_disk; eauto using inv_contents. }
    assert (Hr : is_Some (read y s id)) by eauto. apply (read_present y s st id Hs) in Hr as [Hr|Hr]; [|auto].
    destruct (step_buffered _ _ _ _ _ _ _ Hy Hstep Hs Hs' Hr); auto. }
  destruct Hp as [x' Hx']. rewrite Hx'. f_equal. apply (inj hash).
  rewrite <- (read_sound _ _ _ _ Hy Hx). by rewrite <- (read_sound _ _ _ _ Hy' Hx').
Qed.

Lemma write_read s id x y y' : step (Write s id x) y y' -> read y' s id = Some x.
Proof.
  inversion 1; subst. unfold read. simpl. rewrite lookup_insert_eq. simpl.
  by rewrite insert_objects, lookup_insert_eq.
Qed.
End runs.
