(* ===== verification/MemOdbRuns.v ===== *)
(** The guarantees of the memory object database over whole runs: what readers find is what
    was written, whatever the background thread does; a drain that reports success has made
    everything buffered durable; and every drain is answered. *)

From S2P Require Import Prelude Path Ops Objects MemOdb MemOdbFacts.

Open Scope nat_scope.

(** * The store a reader sees *)

(** An object of a directory: on disk, or in the buffer of one of its stores. *)
Definition visible (y : sys) (dir : string) (id : oid) (x : buffered) : Prop :=
  disk_of y dir !! id = Some x \/
  exists s st, stores y !! s = Some st /\ objects_dir st = dir /\ objects st !! id = Some x.

(** What a step adds to a directory. *)
Definition adds (a : action) (y : sys) (dir : string) (id : oid) (x : buffered) : Prop :=
  match a with
  | Write s id' x' => (objects_dir <$> stores y !! s) = Some dir /\ id' = id /\ x' = x
  | Land dir' id' x' => dir' = dir /\ id' = id /\ x' = x
  | _ => False
  end.

Section visible.
Context (hash : buffered -> oid) `{!Inj (=) (=) hash}.

Lemma step_visible_mono a y y' dir id x :
  inv hash y -> honest hash a -> step a y y' -> visible y dir id x -> visible y' dir id x.
Proof.
  intros Hy Ha Hstep. assert (Hy' := step_inv _ _ _ _ Hy Ha Hstep).
  destruct (inv_contents _ _ Hy) as [Hss _ _ _]. destruct (inv_contents _ _ Hy') as [Hss' Hds' _ _].
  assert (Hd : disk_of y dir ⊆ disk_of y' dir) by (eapply step_disk; eauto using inv_contents).
  intros [Hx|(s & st & Hs & <- & Hx)]; [left; by eapply lookup_weaken|].
  destruct (step_store _ _ _ _ _ Hstep Hs) as (st' & Hs' & Hdir & _).
  destruct (step_buffered _ _ _ _ _ _ _ id Hy Hstep Hs Hs') as [[z Hz]|[z Hz]]; [eauto|right|left].
  - exists s, st'. rewrite Hz. repeat split; [done..|]. f_equal.
    by eapply (sound_agree hash _ _ _ _ _ (Hss' _ _ Hs') (Hss _ _ Hs)).
  - assert (Hz' := lookup_weaken _ _ _ _ Hz Hd). rewrite Hz'. f_equal.
    by eapply (sound_agree hash _ _ _ _ _ (Hds' _) (Hss _ _ Hs)).
Qed.

Lemma step_adds a y y' dir id x : honest hash a -> step a y y' -> adds a y dir id x -> visible y' dir id x.
Proof.
  intros Ha Hstep. destruct Hstep; try done; simpl.
  - intros (-> & -> & ->). left. rewrite disk_of_with_disk, decide_True by done. apply lookup_insert_eq.
  - rewrite H. intros (Hdir & -> & ->). simpl in Hdir. simplify_eq. right.
    exists s, (insert id x st).2. simpl. rewrite lookup_insert_eq, insert_objects, lookup_insert_eq.
    by destruct (insert_frame id x st) as (-> & _).
Qed.

(** What the background thread packs is visible already. *)
Definition snapshot_visible (y : sys) : Prop :=
  forall j s st, flusher y = Packing j s -> stores y !! job_store j = Some st ->
    Forall (fun x => visible y (objects_dir st) x.1 x.2) s.

Lemma step_snapshot_visible a y y' :
  inv hash y -> honest hash a -> step a y y' -> snapshot_visible y -> snapshot_visible y'.
Proof.
  intros Hy Ha Hstep Hsv j s st Hw Hst. destruct (of_worker a) eqn:Hwork.
  - destruct Hstep; simpl in *; simplify_eq. apply Forall_forall. intros [id x] Hx%take_snapshot_elem.
    right. simpl. eauto.
  - rewrite (step_flusher _ _ _ Hstep Hwork) in Hw.
    destruct (step_store_back _ _ _ _ _ Hstep Hst) as [(st0 & Hst0 & ->)|(Hnone & _)].
    + eapply Forall_impl; [by eapply Hsv|]. intros x. by apply (step_visible_mono a y y').
    + destruct (inv_open _ _ Hy) as [Hj _]. unfold jobs in Hj. rewrite Hw in Hj.
      apply Forall_cons in Hj as [[? ?] _]. congruence.
Qed.

Lemma step_visible_disk a y y' dir id x :
  snapshot_visible y -> step a y y' -> disk_of y' dir !! id = Some x ->
  visible y dir id x \/ adds a y dir id x.
Proof.
  intros Hsv Hstep.
  assert (Hpack : forall j s st o r d, flusher y = Packing j s -> stores y !! job_store j = Some st ->
    write_snapshot o (disk_of y (objects_dir st)) s = (r, d) ->
    disk_of (with_disk (objects_dir st) d y) dir !! id = Some x -> visible y dir id x).
  { intros j s st o r d Hw Hst Hp. rewrite disk_of_with_disk. case_decide; subst; [|by left].
    replace d with (write_snapshot o (disk_of y (objects_dir st)) s).2 by by rewrite Hp.
    intros [Hx|Hx]%write_snapshot_from; [by left|].
    specialize (Hsv _ _ _ Hw Hst). rewrite Forall_forall in Hsv. by apply Hsv in Hx. }
  destruct Hstep; try (intros Hx; left; by left); try (intros Hx; left; by eapply Hpack).
  rewrite disk_of_with_disk. case_decide; subst; [|intros; left; by left].
  intros [[-> ->]|[_ Hx]]%lookup_insert_Some; [by right|left; by left].
Qed.

Lemma step_visible_stores a y y' dir id x s st :
  step a y y' -> stores y' !! s = Some st -> objects_dir st = dir -> objects st !! id = Some x ->
  visible y dir id x \/ adds a y dir id x.
Proof.
  intros Hstep Hst <-. revert Hst.
  assert (Hput : forall t st0 st1, <[t := st1]> (stores y) !! s = Some st -> objects st !! id = Some x ->
    stores y !! t = Some st0 -> objects_dir st1 = objects_dir st0 -> objects st1 ⊆ objects st0 ->
    visible y (objects_dir st) id x).
  { intros t st0 st1 [[-> ->]|[_ Hs]]%lookup_insert_Some Hx Ht Hd Ho; right; [|eauto].
    exists s, st0. rewrite Hd. eauto using lookup_weaken. }
  destruct Hstep; simpl stores; intros Hst Hx; try (left; right; by eauto); 
    try (left; eapply (Hput _ _ _ Hst Hx); [eassumption|done|done]).
  - apply lookup_insert_Some in Hst as [[-> <-]|[_ Hs]]; [done|]. left; right; eauto.
  - apply lookup_insert_Some in Hst as [[-> <-]|[_ Hs]]; [|left; right; eauto].
    rewrite insert_objects in Hx. destruct (insert_frame id0 x0 st0) as (-> & _).
    apply lookup_insert_Some in Hx as [[-> ->]|[_ Hx]]; [right; simpl; by rewrite H|].
    left; right; eauto.
  - left. apply (Hput _ _ _ Hst Hx H0); [apply evict_frame|].
    rewrite evict_objects. apply map_filter_subseteq.
Qed.

Lemma step_visible a y y' dir id x :
  inv hash y -> snapshot_visible y -> honest hash a -> step a y y' ->
  visible y' dir id x <-> visible y dir id x \/ adds a y dir id x.
Proof.
  intros Hy Hsv Ha Hstep. split.
  - intros [Hx|(s & st & Hs & Hd & Hx)]; [by eapply step_visible_disk|by eapply step_visible_stores].
  - intros [Hx|Hx]; [by eapply step_visible_mono|by eapply step_adds].
Qed.
End visible.

(** * Runs *)

Lemma run_app l1 l2 y : run (l1 ++ l2) y = run l1 y ≫= run l2.
Proof. revert y. induction l1 as [|a l1 IH]; intros y; [done|]. simpl. destruct (exec a y); simpl; auto. Qed.

Lemma run_snoc l a y y' :
  run (l ++ [a]) y = Some y' -> exists y1, run l y = Some y1 /\ step a y1 y'.
Proof.
  rewrite run_app. destruct (run l y) as [y1|]; [|done]. simpl. intros Hr. exists y1. split; [done|].
  apply exec_step. by destruct (exec a y1).
Qed.

Section runs.
Context (hash : buffered -> oid) `{!Inj (=) (=) hash}.

Lemma run_boot l y :
  Forall (honest hash) l -> run l boot = Some y -> inv hash y /\ snapshot_visible y.
Proof.
  apply (run_ind hash snapshot_visible l boot y); [apply boot_inv|done|].
  intros a y1 y2 Hy Ha Hstep. by eapply step_snapshot_visible.
Qed.

(** C20: in every interleaving of the writers, the background packing and other processes,
    the objects of a directory, on disk or buffered, are exactly the ones that were written
    to it: packing and evicting neither lose nor invent an object. *)
Theorem visible_is_written l y :
  Forall (honest hash) l -> run l boot = Some y ->
  forall dir id x,
    visible y dir id x <->
    exists l1 a l2 y1, l = l1 ++ a :: l2 /\ run l1 boot = Some y1 /\ adds a y1 dir id x.
Proof.
  intros Hl Hrun dir id x. revert y Hl Hrun.
  induction l as [|a l IH] using rev_ind; intros y Hl Hrun.
  { simpl in Hrun. simplify_eq. split; [intros [?|(s & st & ? & _)]; done|].
    intros ([|c l1] & b & l2 & y1 & ? & _); done. }
  apply run_snoc in Hrun as (y1 & Hrun & Hstep). apply Forall_app in Hl as [Hl [Ha _]%Forall_cons].
  destruct (run_boot _ _ Hl Hrun) as [Hy1 Hsv]. rewrite (step_visible hash a y1 y dir id x Hy1 Hsv Ha Hstep).
  rewrite (IH _ Hl Hrun). split.
  - intros [(l1 & b & l2 & z & -> & Hz & Hb)|Hadd].
    + exists l1, b, (l2 ++ [a]), z. by rewrite <- app_assoc.
    + by exists l, a, [], y1.
  - intros (l1 & b & l2 & z & Heq & Hz & Hb). destruct l2 as [|c l2 _] using rev_ind.
    + apply app_inj_tail in Heq as [-> ->]. right. by simplify_eq.
    + left. exists l1, b, l2, z. rewrite app_comm_cons, app_assoc in Heq.
      by apply app_inj_tail in Heq as [-> _].
Qed.

(** C37: No object is lost. What a reader of a store finds once it finds for ever, whatever the
    threads do in between; a reader that looks at the buffer first and at the disk only later
    finds it too; and a writer reads its own object back under its hash. *)
Theorem reads_are_stable l1 l2 y1 y2 s id x :
  Forall (honest hash) (l1 ++ l2) -> run l1 boot = Some y1 -> run l2 y1 = Some y2 ->
  (read y1 s id = Some x ->
    read y2 s id = Some x /\ id = hash x /\
    (forall st, stores y1 !! s = Some st -> objects st !! id = None ->
      disk_of y2 (objects_dir st) !! id = Some x)) /\
  (Write s id x ∈ l2 -> read y2 s id = Some x).
Proof.
  intros [Hl1 Hl2]%Forall_app Hr1 Hr2. destruct (run_boot _ _ Hl1 Hr1) as [Hy1 _].
  assert (Hkeep : forall l z z', inv hash z -> Forall (honest hash) l -> run l z = Some z' ->
    read z s id = Some x -> read z' s id = Some x).
  { intros l z z' Hz Hl Hr Hx. apply (run_ind hash (fun z => read z s id = Some x) l z z'); try done.
    intros. by eapply step_read. }
  assert (Hdisk : forall dir, disk_of y1 dir ⊆ disk_of y2 dir).
  { intros dir. apply (run_ind hash (fun z => disk_of y1 dir ⊆ disk_of z dir) l2 y1 y2); try done.
    intros a z z' Hz Ha Hstep Hd. etrans; [done|]. eapply step_disk; eauto using inv_contents. }
  split.
  - intros Hx. split; [by eapply Hkeep|]. split; [by eapply read_sound|]. intros st Hst Hnone.
    eapply lookup_weaken; [|apply Hdisk]. unfold read in Hx. rewrite Hst in Hx. simpl in Hx.
    by rewrite Hnone in Hx.
  - intros (la & lb & ->)%list_elem_of_split. rewrite run_app in Hr2.
    apply Forall_app in Hl2 as [Hla [Ha Hlb]%Forall_cons].
    destruct (run la y1) as [z1|] eqn:Hz1; [|done]. simpl in Hr2.
    assert (Hi1 := run_inv hash la y1 z1 Hy1 Hla Hz1).
    change (exec (Write s id x) z1 ≫= run lb = Some y2) in Hr2.
    destruct (exec (Write s id x) z1) as [z2|] eqn:Hz2; [|done]. apply exec_step in Hz2.
    apply (Hkeep lb z2 y2); [by eapply step_inv|done|done|by eapply write_read].
Qed.
End runs.

(** * Drains *)

Section drain.
Context (hash : buffered -> oid) `{!Inj (=) (=) hash}.

(** A drain that has not been answered with success, for an object that is not on disk: it
    is what the background thread packs. *)
Definition unpacked (k : nat) (id : oid) (w : worker) : Prop :=
  match w with
  | Packing j s => ack_of j = Some k -> id ∈ s.*1
  | Packed j _ => ack_of j ≠ Some k
  | Finished j r => ack_of j = Some k -> r ≠ Ok tt
  | Idle | Took _ => True
  end.

Record pending (s k : nat) (id : oid) (y : sys) : Prop := {
  pending_store : forall j, j ∈ jobs y -> ack_of j = Some k -> j = Drain s k;
  pending_used : (exists j, j ∈ jobs y /\ ack_of j = Some k) \/ is_Some (acks y !! k);
  pending_ack : acks y !! k ≠ Some (Ok tt);
  pending_unpacked : unpacked k id (flusher y);
}.

(** What holds of a drained object until the drain is answered. *)
Record draining (s k : nat) (dir : string) (id : oid) (y : sys) : Prop := {
  draining_dir : (objects_dir <$> stores y !! s) = Some dir;
  draining_read : is_Some (read y s id);
  draining_pending : is_Some (disk_of y dir !! id) \/ pending s k id y;
}.

Lemma jobs_working y j : working (flusher y) = Some j -> j ∈ jobs y.
Proof. unfold jobs. intros ->. apply list_elem_of_here. Qed.

(** An acknowledgement in use is not used again. *)
Lemma sent_fresh a y y' k j :
  (exists j, j ∈ jobs y /\ ack_of j = Some k) \/ is_Some (acks y !! k) ->
  step a y y' -> j ∈ sent a y -> ack_of j ≠ Some k.
Proof.
  intros Hk Hstep Hj Hack. destruct Hstep; simpl in Hj; try (by apply elem_of_nil in Hj).
  - rewrite H in Hj. apply list_elem_of_singleton in Hj as ->. done.
  - apply list_elem_of_singleton in Hj as ->. simpl in Hack. simplify_eq. destruct H0 as [Hn Hf].
    destruct Hk as [(j & Hj & Hk)|[r Hr]]; [|congruence]. rewrite Forall_forall in Hf. by eapply Hf.
Qed.

Lemma step_jobs_elem a y y' j : step a y y' -> j ∈ jobs y' -> j ∈ jobs y \/ j ∈ sent a y.
Proof.
  intros Hstep Hj. pose proof (step_jobs _ _ _ Hstep) as Hjobs.
  destruct a; try (rewrite Hjobs in Hj; by apply elem_of_app in Hj).
  destruct Hjobs as (j' & _ & ->). left. by apply list_elem_of_further.
Qed.

Lemma step_used a y y' k :
  step a y y' ->
  (exists j, j ∈ jobs y /\ ack_of j = Some k) \/ is_Some (acks y !! k) ->
  (exists j, j ∈ jobs y' /\ ack_of j = Some k) \/ is_Some (acks y' !! k).
Proof.
  intros Hstep Hk. pose proof (step_jobs _ _ _ Hstep) as Hjobs.
  assert (Hacks : is_Some (acks y !! k) -> is_Some (acks y' !! k)).
  { destruct Hstep; try done. simpl. rewrite lookup_insert_is_Some'. auto. }
  destruct Hk as [(j & Hj & Hk)|Hk]; [|auto].
  destruct a; try (left; exists j; rewrite Hjobs; split; [apply elem_of_app; by left|done]).
  destruct Hjobs as (j' & Hw & Hjobs). rewrite Hjobs in Hj.
  apply elem_of_cons in Hj as [->|Hj]; [|left; eauto]. right.
  inversion Hstep; subst; rewrite H in Hw; simpl in Hw; simplify_eq; simpl in Hk; simplify_eq.
  simpl. rewrite lookup_insert_eq. eauto.
Qed.

Lemma step_ack_pending a y y' s k id :
  pending s k id y -> step a y y' -> acks y' !! k ≠ Some (Ok tt).
Proof.
  intros [_ _ Hack Hun] Hstep. destruct Hstep; try done. simpl.
  intros [[-> ->]|[_ Hk]]%lookup_insert_Some; [|done]. rewrite H in Hun. by apply Hun.
Qed.

Lemma step_unpacked a y y' s k dir id :
  (objects_dir <$> stores y !! s) = Some dir -> is_Some (read y s id) ->
  pending s k id y -> step a y y' ->
  is_Some (disk_of y' dir !! id) \/ unpacked k id (flusher y').
Proof.
  intros Hdir Hread [Hstore _ _ Hun] Hstep. destruct (stores y !! s) as [st|] eqn:Hs; [|done].
  simpl in Hdir. simplify_eq. apply (read_present y s st id Hs) in Hread.
  assert (Hhead : forall j, working (flusher y) = Some j -> ack_of j = Some k -> j = Drain s k).
  { intros j Hj. apply Hstore. by apply jobs_working. }
  destruct Hstep; simpl in *; auto.
  - destruct (decide (ack_of j = Some k)) as [Hk|]; [|right; done].
    assert (j = Drain s k) as -> by (apply Hhead; [by rewrite H|done]). simpl in H0. simplify_eq. left.
    apply take_snapshot_nil in H1. rewrite H1, lookup_empty in Hread. by destruct Hread as [[? ?]|].
  - destruct (decide (ack_of j = Some k)) as [Hk|]; [|right; done].
    assert (j = Drain s k) as -> by (apply Hhead; [by rewrite H|done]). simpl in H0. simplify_eq.
    destruct Hread as [[x Hx]|]; [right|by left]. intros _. apply take_snapshot_elem in Hx.
    apply list_elem_of_fmap. by exists (id, x).
  - destruct (decide (ack_of j = Some k)) as [Hk|]; [|right; done]. left.
    assert (j = Drain s k) as -> by (apply Hhead; [by rewrite H|done]). simpl in H0. simplify_eq.
    change (disk_of (with_flusher ?w ?z) ?dir) with (disk_of z dir).
    rewrite disk_of_with_disk, decide_True by done. rewrite H in Hun.
    apply write_snapshot_lands in H1. rewrite Forall_forall in H1.
    specialize (Hun Hk). apply list_elem_of_fmap in Hun as (z & -> & Hz). by apply H1.
  - right. rewrite H in Hun. intros Hk. by destruct Hun.
Qed.

Lemma step_draining a y y' s k dir id :
  inv hash y -> honest hash a -> step a y y' -> draining s k dir id y -> draining s k dir id y'.
Proof.
  intros Hy Ha Hstep [Hdir Hread Hpend].
  assert (Hdir' : (objects_dir <$> stores y' !! s) = Some dir).
  { destruct (stores y !! s) as [st|] eqn:Hs; [|done]. simpl in Hdir. simplify_eq.
    destruct (step_store _ _ _ _ _ Hstep Hs) as (st' & -> & <- & _). done. }
  split; [done| |].
  - destruct Hread as [x Hx]. exists x. by eapply (step_read hash).
  - destruct Hpend as [[x Hx]|Hpend].
    { left. exists x. eapply lookup_weaken; [done|]. eapply (step_disk hash); eauto using inv_contents. }
    destruct (step_unpacked _ _ _ _ _ _ _ Hdir Hread Hpend Hstep) as [Hd|Hun]; [by left|right].
    split; [| |by eapply step_ack_pending|done].
    + intros j Hj Hk. apply (step_jobs_elem _ _ _ _ Hstep) in Hj as [Hj|Hj].
      * by eapply pending_store.
      * exfalso. eapply sent_fresh; [by eapply pending_used|done..].
    + eapply step_used; [done|]. by eapply pending_used.
Qed.

Lemma drain_starts s k st id x y y' :
  stores y !! s = Some st -> objects st !! id = Some x -> step (SendDrain s k) y y' ->
  draining s k (objects_dir st) id y'.
Proof.
  intros Hs Hx Hstep. inversion Hstep as [| | | | | | |? ? ? st' Hst' [Hn Hf]| | | | | | | | ]; subst.
  pose proof (step_jobs _ _ _ Hstep) as Hjobs. simpl in Hjobs.
  assert (Hj : forall j, j ∈ jobs y -> ack_of j ≠ Some k) by by rewrite Forall_forall in Hf.
  split.
  - simpl. by rewrite Hs.
  - apply (read_present _ s st); [done|]. left. eauto.
  - right. split; simpl.
    + intros j. rewrite Hjobs, elem_of_app, list_elem_of_singleton. intros [Hin|Hin] Hk; [|done].
      by destruct (Hj j).
    + left. exists (Drain s k). rewrite Hjobs, elem_of_app, list_elem_of_singleton. auto.
    + by rewrite Hn.
    + assert (Hw : forall j, working (flusher y) = Some j -> ack_of j ≠ Some k).
      { intros j Hin. apply Hj. by apply jobs_working. }
      destruct (flusher y); simpl in *; try done; intros Hk; by destruct (Hw _ eq_refl).
Qed.

(** C21: a drain that is answered with success has made durable every object that was
    buffered in its store when it was sent, whatever happens between: the object is on disk
    under the store's directory. *)
Theorem drain_is_durable l1 l2 s k y1 y2 y3 :
  Forall (honest hash) (l1 ++ l2) -> run l1 boot = Some y1 ->
  exec (SendDrain s k) y1 = Some y2 -> run l2 y2 = Some y3 -> acks y3 !! k = Some (Ok tt) ->
  forall st id x, stores y1 !! s = Some st -> objects st !! id = Some x ->
    disk_of y3 (objects_dir st) !! id = Some x.
Proof.
  intros [Hl1 Hl2]%Forall_app Hr1 Hsend Hr2 Hack st id x Hs Hx. apply exec_step in Hsend.
  destruct (run_boot hash _ _ Hl1 Hr1) as [Hy1 _].
  assert (Hy2 : inv hash y2) by (by apply (step_inv hash (SendDrain s k) y1)).
  destruct (run_ind hash (draining s k (objects_dir st) id) l2 y2 y3) as [Hy3 [_ _ Hd]]; [done|..|done|done|].
  { by eapply drain_starts. }
  { intros a z z' Hz Ha Hstep. by apply (step_draining a). }
  destruct Hd as [[z Hz]|Hp]; [|by destruct (pending_ack _ _ _ _ Hp)].
  rewrite Hz. f_equal. apply (inj hash).
  rewrite <- (disks_sound _ _ (inv_contents _ _ Hy3) _ _ _ Hz).
  apply (stores_sound _ _ (inv_contents _ _ Hy1) _ _ Hs _ _ Hx).
Qed.

(** the accounting of a store is exact in every reachable state: its size is the number
    of buffered bytes, its limit check never under- or overcounts, and its flag is set
    exactly while one chunk of it is queued, being packed, or about to be sent; there are
    never two. *)
Theorem accounting_is_exact l y s st :
  Forall (honest hash) l -> run l boot = Some y -> stores y !! s = Some st ->
  buffered_size st = total (objects st) /\
  chunks y s = (if chunk_in_flight st then 1 else 0) /\
  (forall id x, (insert id x st).1 = true <->
    objects st !! id = None /\ exists n, limit st = Some n /\ (n < total (<[id := x]> (objects st)))%Z).
Proof.
  intros Hl Hr Hs. destruct (run_boot hash _ _ Hl Hr) as [Hy _].
  assert (Hsize : sized st) by (by eapply (inv_sizes _ _ Hy)). split_and!; [done|by apply (inv_flags _ _ Hy)|].
  intros id x. unfold insert, exceeds. destruct (objects st !! id) eqn:Hid; simpl; [naive_solver|].
  rewrite total_insert, <- Hsize by done. destruct (limit st) as [n|]; [|naive_solver].
  rewrite bool_decide_eq_true. split; [intros; split; [done|]; exists n; split; [done|lia]|].
  intros (_ & m & ? & ?). simplify_eq. lia.
Qed.
End drain.

(** * Every drain is answered *)

(** The steps the background thread has left on its job. *)
Definition remaining (w : worker) : nat :=
  match w with Idle => 0 | Took _ => 4 | Packing _ _ => 3 | Packed _ _ => 2 | Finished _ _ => 1 end.

(** The number of jobs up to the one that answers [k]. *)
Fixpoint upto (k : nat) (q : list job) : option nat :=
  match q with
  | [] => None
  | j :: q => if decide (ack_of j = Some k) then Some 1 else S <$> upto k q
  end.

(** The number of steps of the background thread until [k] is answered, at most. *)
Definition rank (k : nat) (y : sys) : option nat :=
  if decide ((working (flusher y) ≫= ack_of) = Some k) then Some (remaining (flusher y))
  else (fun n => remaining (flusher y) + 5 * n) <$> upto k (queue y).

Lemma upto_app k q q' n : upto k q = Some n -> upto k (q ++ q') = Some n.
Proof.
  revert n. induction q as [|j q IH]; intros n; [done|]. simpl. case_decide; [done|].
  destruct (upto k q) as [m|]; [|done]. intros. by rewrite (IH m).
Qed.

Lemma upto_snoc k q s : exists n, upto k (q ++ [Drain s k]) = Some n /\ n <= S (length q).
Proof.
  induction q as [|j q (n & Hn & Hle)]; simpl.
  - rewrite decide_True by done. by exists 1.
  - case_decide; [exists 1; split; [done|lia]|]. rewrite Hn. exists (S n). split; [done|lia].
Qed.

(** Other threads do not change the rank, and a step of the background thread decreases it
    until the answer is sent. *)
Lemma step_rank a y y' k n :
  step a y y' -> rank k y = Some n ->
  if of_worker a then is_Some (acks y' !! k) \/ exists m, rank k y' = Some m /\ m < n
  else rank k y' = Some n.
Proof.
  intros Hstep. unfold rank.
  destruct Hstep; simpl; try done; try rewrite H; try rewrite H0; simpl;
    repeat case_decide; simplify_eq; intros Hn; simplify_option_eq; eauto with lia;
    try (by erewrite upto_app by done);
    try (destruct (upto k _) as [m|] eqn:Hm; simplify_eq; right; eexists; split; [done|lia]).
  left. rewrite lookup_insert_eq. eauto.
Qed.

Lemma step_acks a y y' k : step a y y' -> is_Some (acks y !! k) -> is_Some (acks y' !! k).
Proof. destruct 1; try done. simpl. rewrite lookup_insert_is_Some'. auto. Qed.

Definition worker_steps (l : list action) : nat := length (List.filter of_worker l).

Lemma run_answers l y y' k n :
  run l y = Some y' -> is_Some (acks y !! k) \/ (rank k y = Some n /\ n <= worker_steps l) ->
  is_Some (acks y' !! k) \/ rank k y' = Some 0.
Proof.
  revert y n. induction l as [|a l IH]; intros y n Hr Hk; simpl in Hr.
  { simplify_eq. destruct Hk as [|[Hn Hle]]; [by left|right]. unfold worker_steps in Hle. simpl in Hle.
    rewrite Hn. f_equal. lia. }
  destruct (exec a y) as [y1|] eqn:He; [|done]. apply exec_step in He. simpl in Hr.
  destruct Hk as [Hk|[Hn Hle]]; [apply (IH y1 0 Hr); left; by eapply step_acks|].
  pose proof (step_rank _ _ _ _ _ He Hn) as Hs.
  unfold worker_steps in Hle. simpl in Hle. destruct (of_worker a).
  - simpl in Hle.
    destruct Hs as [Hs|(m & Hm & Hlt)]; [by apply (IH y1 0 Hr); left|].
    apply (IH y1 m Hr). right. split; [done|]. unfold worker_steps. lia.
  - apply (IH y1 n Hr). by right.
Qed.

Lemma rank_pos k y n : rank k y = Some n -> 0 < n.
Proof.
  unfold rank. case_decide as Hw.
  - intros. simplify_eq. destruct (flusher y); simpl in *; [done|lia..].
  - destruct (upto k (queue y)) as [m|] eqn:Hm; [|done]. simpl. intros. simplify_eq.
    assert (0 < m); [|lia]. destruct (queue y); [done|]. simpl in Hm. case_decide; simplify_eq; [lia|].
    destruct (upto k l); simplify_eq. simpl in Hm. simplify_eq. lia.
Qed.

(** The next step of the background thread, if the pack it writes comes out as [o]. *)
Definition next (o : io) (w : worker) : action :=
  match w with
  | Idle => Recv | Took _ => Snapshot | Packing _ _ => WritePack o | Packed _ _ => Evict
  | Finished _ _ => Finish
  end.

Lemma next_enabled o y : open_ok y -> jobs y ≠ [] -> is_Some (exec (next o (flusher y)) y).
Proof.
  intros [Hj _] Hne. unfold jobs in *.
  destruct (flusher y) as [|j|j s|j s|j r] eqn:Hw; simpl in *; rewrite Hw;
    try (apply Forall_cons in Hj as [[st Hst] _]; rewrite Hst; simpl).
  - destruct (queue y); [done|eauto].
  - destruct (take_snapshot st); eauto.
  - destruct (write_snapshot _ _ _). eauto.
  - eauto.
  - apply Forall_cons in Hj as [[st Hst] _]. destruct j; simpl in *; [rewrite Hst|]; eauto.
Qed.

Lemma drain_rank s k y y' :
  step (SendDrain s k) y y' -> exists n, rank k y' = Some n /\ n <= 5 * S (length (jobs y)).
Proof.
  inversion 1 as [| | | | | | |? ? ? st Hst [Hn Hf]| | | | | | | | ]; subst.
  destruct (upto_snoc k (queue y) s) as (n & Hup & Hle). unfold rank, jobs in *. simpl. rewrite Hup.
  rewrite decide_False.
  - eexists. split; [done|]. destruct (flusher y); simpl; lia.
  - destruct (working (flusher y)) as [j|]; [|done]. by apply Forall_cons in Hf as [? _].
Qed.

Lemma unanswered_works hash `{!Inj (=) (=) hash} l y y' k :
  inv hash y -> Forall (honest hash) l -> run l y = Some y' ->
  (exists j, j ∈ jobs y /\ ack_of j = Some k) -> acks y' !! k = None ->
  inv hash y' /\ jobs y' ≠ [].
Proof.
  intros Hy Hl Hr Hk Hn.
  destruct (run_ind hash
    (fun z => (exists j, j ∈ jobs z /\ ack_of j = Some k) \/ is_Some (acks z !! k)) l y y')
    as [Hy' Hu]; [done|by left| |done|done|].
  { intros a z z' _ _ Hstep. by apply (step_used a). }
  split; [done|]. destruct Hu as [(j & Hj & _)|[? ?]]; [|congruence].
  intros He. rewrite He in Hj. by apply elem_of_nil in Hj.
Qed.

(** C30: a drain is always answered. The background thread is never stuck while a job is
    unfinished, whatever becomes of the packs it writes, and after five of its steps for the
    drain and each job before it, in any interleaving with the other threads, the answer has
    been sent. *)
Theorem drain_is_answered hash `{!Inj (=) (=) hash} l1 l2 s k y1 y2 y3 :
  Forall (honest hash) (l1 ++ l2) -> run l1 boot = Some y1 ->
  exec (SendDrain s k) y1 = Some y2 -> run l2 y2 = Some y3 ->
  (5 * S (length (jobs y1)) <= worker_steps l2 -> is_Some (acks y3 !! k)) /\
  (acks y3 !! k = None -> forall o, is_Some (exec (next o (flusher y3)) y3)).
Proof.
  intros [Hl1 Hl2]%Forall_app Hr1 Hsend Hr2. apply exec_step in Hsend.
  destruct (run_boot hash _ _ Hl1 Hr1) as [Hy1 _].
  assert (Hy2 : inv hash y2) by (by apply (step_inv hash (SendDrain s k) y1)).
  split.
  - intros Hle. destruct (drain_rank _ _ _ _ Hsend) as (n & Hn & Hle').
    destruct (run_answers l2 y2 y3 k n Hr2) as [|Hz]; [right; split; [done|lia]|done|].
    apply rank_pos in Hz. lia.
  - intros Hn o. destruct (unanswered_works hash l2 y2 y3 k Hy2 Hl2 Hr2) as [Hy3 Hj]; [|done|].
    + exists (Drain s k). rewrite (step_jobs _ _ _ Hsend). split; [|done].
      apply elem_of_app. right. apply list_elem_of_here.
    + apply next_enabled; [by apply (inv_open hash)|done].
Qed.

(** * Examples *)

(** A hash for examples: the kind and the bytes themselves. *)
Definition plain_hash (x : buffered) : oid :=
  ((match x.1 with Blob => "b" | Tree => "t" | CommitKind => "c" | Tag => "g" end) ++ x.2)%string.

#[export] Instance plain_hash_inj : Inj (=) (=) plain_hash.
Proof. intros [[] d] [[] d'] Heq; unfold plain_hash in Heq; simpl in Heq; congruence. Qed.

(** Two blobs overflow a store of three bytes: the second write starts a chunk, a third blob
    arrives while it is packed, and a drain is queued behind it. The pack of the chunk fails;
    the drain packs everything. *)
Definition busy : list action :=
  [Open 0 (Some 3%Z) "objects"; Write 0 "bone" (Blob, "one"); Write 0 "btwo" (Blob, "two");
   Swap 0; Send 0; Recv; Snapshot; Write 0 "bthree" (Blob, "three")].
Definition settle : list action :=
  [WritePack (Failed "disk full" false); Swap 0; Finish; Recv; Snapshot; WritePack Landed; Evict; Finish;
   PackInBackground 0; Swap 0; Send 0; Recv; Snapshot; Finish].

Definition state_of (l : list action) : sys := default boot (run l boot).
Definition busy_state : sys := Eval vm_compute in state_of busy.
Definition drained_state : sys := Eval vm_compute in state_of (busy ++ [SendDrain 0 7]).
Definition settled_state : sys := Eval vm_compute in state_of (busy ++ [SendDrain 0 7] ++ settle).

Lemma busy_honest : Forall (honest plain_hash) (busy ++ settle).
Proof. repeat constructor. Qed.
Lemma busy_run : run busy boot = Some busy_state.
Proof. vm_compute. reflexivity. Qed.
Lemma drain_run : exec (SendDrain 0 7) busy_state = Some drained_state.
Proof. vm_compute. reflexivity. Qed.
Lemma settle_run : run settle drained_state = Some settled_state.
Proof. vm_compute. reflexivity. Qed.
Lemma settled_ack : acks settled_state !! 7 = Some (Ok tt).
Proof. vm_compute. reflexivity. Qed.

Lemma busy_prefix_honest : Forall (honest plain_hash) busy.
Proof. repeat constructor. Qed.

Lemma visible_is_written_witness : visible busy_state "objects" "bthree" (Blob, "three").
Proof.
  apply (visible_is_written plain_hash busy busy_state busy_prefix_honest busy_run).
  exists (take 7 busy), (Write 0 "bthree" (Blob, "three")), [], (state_of (take 7 busy)).
  split; [reflexivity|]. split; [vm_compute; reflexivity|]. split; [vm_compute; reflexivity|done].
Defined.

Lemma settle_honest : Forall (honest plain_hash) ((busy ++ [SendDrain 0 7]) ++ settle).
Proof. repeat constructor. Qed.
Lemma busy_drain_run : run (busy ++ [SendDrain 0 7]) boot = Some drained_state.
Proof. vm_compute. reflexivity. Qed.

Lemma reads_are_stable_witness :
  read drained_state 0 "btwo" = Some (Blob, "two") /\ read settled_state 0 "btwo" = Some (Blob, "two").
Proof.
  assert (Hr : read drained_state 0 "btwo" = Some (Blob, "two")) by (vm_compute; reflexivity).
  split; [exact Hr|].
  exact (proj1 (proj1 (reads_are_stable plain_hash (busy ++ [SendDrain 0 7]) settle drained_state
    settled_state 0 "btwo" (Blob, "two") settle_honest busy_drain_run settle_run) Hr)).
Defined.

Lemma drain_is_durable_witness : disk_of settled_state "objects" !! "bthree" = Some (Blob, "three").
Proof.
  refine (drain_is_durable plain_hash busy settle 0 7 busy_state drained_state settled_state
    busy_honest busy_run drain_run settle_run settled_ack (default (new_store None "") (stores busy_state !! 0))
    "bthree" (Blob, "three") _ _); vm_compute; reflexivity.
Defined.

Lemma accounting_is_exact_witness :
  exists st, stores busy_state !! 0 = Some st /\ buffered_size st = 11%Z /\ chunks busy_state 0 = 1.
Proof.
  exists (default (new_store None "") (stores busy_state !! 0)).
  assert (Hs : stores busy_state !! 0 = Some (default (new_store None "") (stores busy_state !! 0)))
    by (vm_compute; reflexivity).
  destruct (accounting_is_exact plain_hash busy busy_state 0 _ busy_prefix_honest busy_run Hs)
    as (H1 & H2 & _).
  split; [exact Hs|]. split; [rewrite H1; vm_compute; reflexivity|rewrite H2; vm_compute; reflexivity].
Defined.

Lemma drain_is_answered_witness : is_Some (acks settled_state !! 7).
Proof.
  apply (drain_is_answered plain_hash busy settle 0 7 busy_state drained_state settled_state
    busy_honest busy_run drain_run settle_run).
  apply Nat.leb_le. vm_compute. reflexivity.
Defined.
