(* ===== verification/SearchTrees.v ===== *)
(** Trigrams and trees.  The trigrams of a text are an ordered set and a nested map of their bytes,
    and a part of a text has no other trigrams than the text.

    The trees of a search index are sets of paths.  All leaves of such a tree are the empty blob, so
    the tree is the set of its paths, and no two trees have the same set: what an operation of
    SearchIndex builds is determined by the paths it should have. *)

From S2P Require Import Utf8 Path Objects Store Node NodeFacts Refine SearchIndex Prelude Ops.

Open Scope nat_scope.

(** * Names of bytes *)

Definition hex_value (c : ascii) : N :=
  let n := N_of_ascii c in if (n <? 58)%N then n - 48 else n - 87.

Definition unhex (s : string) : ascii :=
  match s with
  | String a (String b EmptyString) => ascii_of_N (hex_value a * 16 + hex_value b)
  | _ => zero
  end.

Lemma unhex_hex c : unhex (hex_name c) = c.
Proof. by destruct c as [[] [] [] [] [] [] [] []]. Qed.

#[export] Instance hex_name_inj : Inj (=) (=) hex_name.
Proof. intros a b E. by rewrite <- (unhex_hex a), E, unhex_hex. Qed.

Lemma hex_name_valid c : valid_name (hex_name c) = true.
Proof. by destruct c as [[] [] [] [] [] [] [] []]. Qed.

(** * Ordered sets and maps *)

(** What [Ord] promises. *)
Class LawfulOrd {K} (cmp : K -> K -> comparison) : Prop := {
  cmp_eq a b : cmp a b = Eq <-> a = b;
  cmp_gt a b : cmp a b = Gt <-> cmp b a = Lt;
  cmp_trans a b c : cmp a b = Lt -> cmp b c = Lt -> cmp a c = Lt;
}.

#[export] Instance string_ord : LawfulOrd String.compare.
Proof. split; [apply string_compare_eq|apply string_compare_gt|apply string_compare_lt_trans]. Qed.

#[export] Instance ascii_ord : LawfulOrd Ascii.compare.
Proof.
  split; [apply ascii_compare_eq|..]; unfold Ascii.compare; intros.
  - rewrite N.compare_antisym. by destruct (N.compare _ _).
  - rewrite !N.compare_lt_iff in *. lia.
Qed.

#[export] Instance trigram_bytes_inj : Inj (=) (=) trigram_bytes.
Proof. intros [[a b] c] [[a' b'] c'] [= -> -> ->]. done. Qed.

#[export] Instance trigram_ord : LawfulOrd trigram_cmp.
Proof.
  unfold trigram_cmp. split; intros; [|apply cmp_gt|by eapply cmp_trans].
  rewrite cmp_eq. split; [apply trigram_bytes_inj|by intros ->].
Qed.

Section Ord.
Context {K V : Type} (cmp : K -> K -> comparison) `{!LawfulOrd cmp}.

Lemma cmp_irrefl a b : cmp a b = Lt -> a ≠ b.
Proof. intros E Eq. by rewrite (proj2 (cmp_eq a b) Eq) in E. Qed.

Lemma elem_of_ord_insert_keys k (v : V) m x : x ∈ (ord_insert cmp k v m).*1 <-> x = k \/ x ∈ m.*1.
Proof.
  induction m as [|[k' v'] m IH]; simpl; [set_solver|].
  destruct (cmp k k') eqn:E; simpl; [apply cmp_eq in E; subst; set_solver|set_solver|].
  rewrite elem_of_cons, IH. set_solver.
Qed.

Lemma ord_sorted_cons k (v : V) m :
  ord_sorted cmp ((k, v) :: m) <-> (forall k', k' ∈ m.*1 -> cmp k k' = Lt) /\ ord_sorted cmp m.
Proof.
  split.
  - inversion 1 as [|? ? Hm Hk]; subst. split; [|done].
    intros k' ([k2 v2] & -> & Hin)%list_elem_of_fmap. rewrite Forall_forall in Hk. by apply (Hk _ Hin).
  - intros [Hk Hm]. constructor; [done|]. apply Forall_forall. intros [k2 v2] Hin.
    apply Hk. apply list_elem_of_fmap. by exists (k2, v2).
Qed.

Lemma ord_insert_sorted_any k (v : V) m : ord_sorted cmp m -> ord_sorted cmp (ord_insert cmp k v m).
Proof.
  induction m as [|[k' v'] m IH]; [by repeat constructor|]. intros [Hk Hm]%ord_sorted_cons. simpl.
  destruct (cmp k k') eqn:E.
  - apply cmp_eq in E. subst. by apply ord_sorted_cons.
  - apply ord_sorted_cons. split; [|by apply ord_sorted_cons].
    intros k2 [->|Hk2]%elem_of_cons; [done|]. eapply cmp_trans; [exact E|]. by apply Hk.
  - apply ord_sorted_cons. split; [|by apply IH].
    intros k2 [->|Hk2]%elem_of_ord_insert_keys; [by apply cmp_gt|by apply Hk].
Qed.

Context (d : V) (f : V -> V).

Lemma ord_update_keys k (m : list (K * V)) x : x ∈ (ord_update cmp d f k m).*1 <-> x = k \/ x ∈ m.*1.
Proof.
  induction m as [|[k' v'] m IH]; simpl; [set_solver|].
  destruct (cmp k k') eqn:E; simpl; [apply cmp_eq in E; subst; set_solver|set_solver|].
  rewrite elem_of_cons, IH. set_solver.
Qed.

Lemma ord_update_sorted k (m : list (K * V)) : ord_sorted cmp m -> ord_sorted cmp (ord_update cmp d f k m).
Proof.
  induction m as [|[k' v'] m IH]; [by repeat constructor|]. intros [Hk Hm]%ord_sorted_cons. simpl.
  destruct (cmp k k') eqn:E.
  - by apply ord_sorted_cons.
  - apply ord_sorted_cons. split; [|by apply ord_sorted_cons].
    intros k2 [->|Hk2]%elem_of_cons; [done|]. eapply cmp_trans; [exact E|]. by apply Hk.
  - apply ord_sorted_cons. split; [|by apply IH].
    intros k2 [->|Hk2]%ord_update_keys; [by apply cmp_gt|by apply Hk].
Qed.

(** What is bound after an update: the value of another key as before, that of [k] changed. *)
Lemma elem_of_ord_update k (m : list (K * V)) k' v' :
  ord_sorted cmp m ->
  ((k', v') ∈ ord_update cmp d f k m) <->
    (k' ≠ k /\ (k', v') ∈ m) \/
    (k' = k /\ ((exists v, (k, v) ∈ m /\ v' = f v) \/ ((k ∉ m.*1) /\ v' = f d))).
Proof.
  induction m as [|[k2 v2] m IH]; intros Hs.
  { simpl. rewrite list_elem_of_singleton. split; [intros [= -> ->]; right; split; [done|]; right; split; [set_solver|done]|].
    intros [[_ []%not_elem_of_nil]|[-> [(v & []%not_elem_of_nil & _)|[_ ->]]]]; done. }
  apply ord_sorted_cons in Hs as [Hk Hm]. simpl.
  assert (forall v, (k2, v) ∈ m -> False) as Hk2.
  { intros v Hin. apply (cmp_irrefl k2 k2); [|done]. apply Hk, list_elem_of_fmap. by exists (k2, v). }
  destruct (cmp k k2) eqn:E; rewrite elem_of_cons.
  - apply cmp_eq in E as <-. split.
    + intros [[= -> ->]|Hin]; [right; split; [done|]; left; exists v2; split; [left|done]|].
      left. split; [intros ->; by eapply Hk2|by right].
    + intros [[Hne [[= -> _]|Hin]%elem_of_cons]|[-> [(v & [[= ->]|Hin]%elem_of_cons & ->)|[Hn _]]]];
        [done|by right|by left|by apply Hk2 in Hin|]. set_solver.
  - assert (k ∉ ((k2, v2) :: m).*1) as Hn.
    { intros [Ek|Hin]%elem_of_cons; [by apply cmp_irrefl in E|].
      apply Hk in Hin. by apply (cmp_irrefl k k); [eapply cmp_trans|]. }
    assert (forall v, (k, v) ∈ (k2, v2) :: m -> False) as Hn'.
    { intros v Hin. apply Hn, list_elem_of_fmap. by exists (k, v). }
    split; [intros [[= -> ->]|Hin]; [by right; split; [|right]|]|].
    + left. split; [|done]. intros ->. by eapply Hn'.
    + intros [[_ Hin]|[-> [(v & Hin & _)|[_ ->]]]]; [by right|by apply Hn' in Hin|by left].
  - rewrite IH by done. assert (k ≠ k2) as Hne by (apply cmp_gt, cmp_irrefl in E; congruence).
    rewrite not_elem_of_cons. split.
    + intros [[= -> ->]|[[Hne' Hin]|[-> [(v & Hin & ->)|[Hn ->]]]]].
      * left. split; [done|left].
      * left. split; [done|by right].
      * right. split; [done|]. left. exists v. split; [by right|done].
      * right. split; [done|]. by right.
    + intros [[Hne' [[= -> ->]|Hin]%elem_of_cons]|[-> [(v & [[= -> ->]|Hin]%elem_of_cons & ->)|[[_ Hn] ->]]]];
        [by left|right; by left|done|right; right|right; right].
      * split; [done|]. left. by exists v.
      * split; [done|]. by right.
Qed.

End Ord.

(** * Sorting *)

Lemma dedup_cons {A} `{EqDecision A} (a b : A) l :
  dedup (a :: b :: l) = if decide (a = b) then dedup (b :: l) else a :: dedup (b :: l).
Proof. done. Qed.

Lemma elem_of_vec_dedup {A} `{EqDecision A} (l : list A) x : x ∈ dedup l <-> x ∈ l.
Proof.
  induction l as [|a [|b l] IH]; [done|done|]. rewrite dedup_cons. case_decide as E.
  - rewrite IH. subst. set_solver.
  - rewrite (elem_of_cons _ x a), IH. set_solver.
Qed.

Section Sort.
Context {A : Type} `{EqDecision A} (cmp : A -> A -> comparison) `{!LawfulOrd cmp}.

Definition sort_by (l : list A) : list A := foldl (insert_sorted cmp) [] l.

Definition not_after (a b : A) : Prop := cmp a b ≠ Gt.

#[local] Instance not_after_trans : Transitive not_after.
Proof.
  unfold not_after. intros a b c Hab Hbc. destruct (cmp a b) eqn:E; [|clear Hab|done].
  - apply cmp_eq in E. by subst.
  - destruct (cmp b c) eqn:E'; [apply cmp_eq in E'; subst; congruence| |done].
    by rewrite (cmp_trans a b c).
Qed.

Lemma sort_by_perm l : sort_by l ≡ₚ l.
Proof.
  assert (forall out, foldl (insert_sorted cmp) out l ≡ₚ out ++ l) as Hg; [|apply Hg].
  induction l as [|x l IH]; intros out; simpl; [by rewrite app_nil_r|].
  rewrite IH, insert_sorted_perm. by rewrite <- Permutation_middle.
Qed.

Lemma sorted_by_snoc (l : list A) x :
  StronglySorted not_after (l ++ [x]) <->
  StronglySorted not_after l /\ Forall (fun y => not_after y x) l.
Proof.
  induction l as [|a l IH]; simpl; [split; [intros _; split; constructor|by repeat constructor]|].
  split.
  - inversion 1 as [|? ? Hs Hf]; subst. apply IH in Hs as [Hs Hl].
    apply Forall_app in Hf as [Hf Hx]. apply Forall_cons in Hx as [Hx _]. split; by constructor.
  - intros [Hs Hf]. inversion Hs as [|? ? Hs' Hf']; subst.
    apply Forall_cons in Hf as [Ha Hf]. constructor; [by apply IH|].
    apply Forall_app. split; [done|]. by repeat constructor.
Qed.

Lemma insert_sorted_sorted (l : list A) e :
  StronglySorted not_after l -> StronglySorted not_after (insert_sorted cmp l e).
Proof.
  induction l as [|x l IH] using rev_ind; intros Hs; [by repeat constructor|].
  rewrite insert_sorted_snoc. apply sorted_by_snoc in Hs as [Hs Hf].
  assert (not_after x e -> StronglySorted not_after (l ++ [x; e])) as Hxe.
  { intros Hx. change [x; e] with ([x] ++ [e]). rewrite app_assoc. apply sorted_by_snoc.
    split; [by apply sorted_by_snoc|]. apply Forall_app. split; [|by repeat constructor].
    eapply Forall_impl; [exact Hf|]. intros y Hy. by trans x. }
  destruct (cmp x e) eqn:E; [apply Hxe; unfold not_after; congruence..|].
  apply sorted_by_snoc. split; [by apply IH|]. rewrite insert_sorted_perm. constructor; [|done].
  apply cmp_gt in E. unfold not_after. congruence.
Qed.

Lemma sort_by_sorted l : StronglySorted not_after (sort_by l).
Proof.
  unfold sort_by. assert (forall out, StronglySorted not_after out ->
    StronglySorted not_after (foldl (insert_sorted cmp) out l)) as Hg; [|apply Hg; constructor].
  induction l as [|x l IH]; intros out Ho; [done|]. simpl. by apply IH, insert_sorted_sorted.
Qed.

(** Of a sorted list no element stays twice. *)
Lemma dedup_nodup (l : list A) : StronglySorted not_after l -> NoDup (dedup l).
Proof.
  induction l as [|a [|b l] IH]; intros Hs; [constructor|apply NoDup_singleton|].
  inversion Hs as [|? ? Hs' Hf]; subst. rewrite dedup_cons. case_decide as E; [by apply IH|].
  apply NoDup_cons. split; [|by apply IH]. rewrite elem_of_vec_dedup. intros Hin.
  inversion Hs' as [|? ? _ Hb]; subst. apply elem_of_cons in Hin as [|Hin]; [done|].
  rewrite Forall_cons, Forall_forall in *. destruct Hf as [Hab _]. specialize (Hb a Hin).
  unfold not_after in *. destruct (cmp a b) eqn:Ec; [by apply cmp_eq in Ec| |done].
  by apply cmp_gt in Ec.
Qed.

End Sort.

(** * The set of trigrams *)

Lemma elem_of_distinct_trigrams t s :
  t ∈ distinct_trigrams s <->
  (t ∈ windows (map_bytes fold_byte s)) /\ valid_utf8 (trigram_bytes t) = true.
Proof.
  unfold distinct_trigrams. set (l := windows _). clearbody l.
  assert ((t ∈ l) /\ valid_utf8 (trigram_bytes t) = true <->
    t ∈ List.filter (fun w => valid_utf8 (trigram_bytes w)) l) as ->.
  { split; [intros Ht; apply list_elem_of_In, filter_In|intros Ht%list_elem_of_In%filter_In];
      by rewrite list_elem_of_In in *. }
  generalize (List.filter (fun w => valid_utf8 (trigram_bytes w)) l). clear l. intros l.
  assert (forall acc, t ∈ (foldl (fun m t => ord_insert trigram_cmp t tt m) acc l).*1 <->
    t ∈ acc.*1 \/ t ∈ l) as Hg.
  { induction l as [|x l IH]; intros acc; simpl; [set_solver|].
    rewrite IH, (elem_of_ord_insert_keys trigram_cmp). set_solver. }
  rewrite Hg. set_solver.
Qed.

Lemma distinct_trigrams_nodup s : NoDup (distinct_trigrams s).
Proof.
  unfold distinct_trigrams. generalize (List.filter (fun w => valid_utf8 (trigram_bytes w))
    (windows (map_bytes fold_byte s))). intros l.
  apply (ord_sorted_nodup trigram_cmp); [intros a; by apply cmp_eq|].
  assert (forall acc, ord_sorted trigram_cmp acc ->
    ord_sorted trigram_cmp (foldl (fun m t => ord_insert trigram_cmp t tt m) acc l)) as Hg.
  { induction l as [|x l IH]; intros acc Ha; simpl; [done|]. by apply IH, (ord_insert_sorted_any trigram_cmp). }
  apply Hg. constructor.
Qed.

(** ** The bytes of the trigrams *)

Abbreviation ascii_sorted := (ord_sorted Ascii.compare).

(** The third bytes after two bytes, and the map from the second bytes. *)
Definition thirds (l : list trigram) (b1 b2 : ascii) (w : list ascii) : Prop :=
  NoDup w /\ forall b3, b3 ∈ w <-> (b1, b2, b3) ∈ l.

Definition seconds (l : list trigram) (b1 : ascii) (v : list (ascii * list ascii)) : Prop :=
  ascii_sorted v /\
  (forall b2 w, (b2, w) ∈ v -> thirds l b1 b2 w /\ w ≠ []) /\
  (forall b2 b3, (b1, b2, b3) ∈ l -> b2 ∈ v.*1).

Lemma thirds_snoc l b1 b2 b3 w :
  thirds l b1 b2 w -> (b1, b2, b3) ∉ l -> thirds (l ++ [(b1, b2, b3)]) b1 b2 (w ++ [b3]).
Proof.
  intros [Hn Hw] Hl. split.
  - apply NoDup_app. split; [done|]. split; [|apply NoDup_singleton].
    intros x Hx ->%list_elem_of_singleton. by apply Hl, Hw.
  - intros x. rewrite !elem_of_app, !list_elem_of_singleton, Hw. naive_solver.
Qed.

Lemma thirds_other l b1 b2 t w : thirds l b1 b2 w -> t.1 ≠ (b1, b2) -> thirds (l ++ [t]) b1 b2 w.
Proof.
  intros [Hn Hw] Ht. split; [done|]. intros x. rewrite Hw, elem_of_app, list_elem_of_singleton.
  destruct t as [[? ?] ?]. naive_solver.
Qed.

Lemma seconds_snoc l b1 b2 b3 v :
  seconds l b1 v -> (b1, b2, b3) ∉ l ->
  seconds (l ++ [(b1, b2, b3)]) b1 (ord_update Ascii.compare [] (fun l => l ++ [b3]) b2 v).
Proof.
  intros (Hs & Hv & Ht) Hl. split; [|split].
  - by apply (ord_update_sorted Ascii.compare).
  - intros b w [[Hne Hin]|[-> Hin]]%(elem_of_ord_update Ascii.compare); [..|done].
    + destruct (Hv _ _ Hin) as [Hw ?]. split; [|done]. apply thirds_other; [done|]. simpl. congruence.
    + destruct Hin as [(w' & Hin & ->)|[Hn ->]]; [|split; [|by destruct b3]].
      * split; [|by destruct w']. apply thirds_snoc; [by apply Hv|done].
      * apply (thirds_snoc l b1 b2 b3 []); [|done]. split; [constructor|]. intros x.
        split; [by intros ?%not_elem_of_nil|]. intros Hx%Ht. done.
  - intros b x [Hx|[= <- <-]%list_elem_of_singleton]%elem_of_app;
      (rewrite (ord_update_keys Ascii.compare)); [right; by eapply Ht|by left].
Qed.

Lemma seconds_other l b1 t v : seconds l b1 v -> t.1.1 ≠ b1 -> seconds (l ++ [t]) b1 v.
Proof.
  intros (Hs & Hv & Ht) Hne. split; [done|]. split.
  - intros b2 w Hin. destruct (Hv _ _ Hin). split; [|done]. apply thirds_other; [done|].
    intros E. by rewrite E in Hne.
  - intros b x [Hx|Hx%list_elem_of_singleton]%elem_of_app; [by eapply Ht|by subst t].
Qed.

Lemma ord_update_not_nil {K V} cmp d f (k : K) (m : list (K * V)) : ord_update cmp d f k m ≠ [].
Proof. destruct m as [|[k' v] m]; simpl; [done|]. by destruct (cmp k k'). Qed.

(** The nested map holds the trigrams. *)
Lemma spine_map_spec l :
  NoDup l ->
  ascii_sorted (spine_map l) /\
  (forall b1 v, (b1, v) ∈ spine_map l -> seconds l b1 v /\ v ≠ []) /\
  (forall t, t ∈ l -> t.1.1 ∈ (spine_map l).*1).
Proof.
  induction l as [|t l IH] using rev_ind; intros Hn.
  { split; [constructor|]. split; [by intros ? ? ?%not_elem_of_nil|by intros ? ?%not_elem_of_nil]. }
  apply NoDup_app in Hn as (Hn & Ht & _). destruct (IH Hn) as (Hs & Hv & Hk).
  assert (t ∉ l) as Htl by (intros Hin; apply (Ht t Hin); left).
  destruct t as [[b1 b2] b3]. unfold spine_map in *. rewrite foldl_snoc. simpl.
  set (m := foldl _ [] l) in *. split; [|split].
  - by apply (ord_update_sorted Ascii.compare).
  - intros b v [[Hne Hin]|[-> Hin]]%(elem_of_ord_update Ascii.compare); [..|done].
    + destruct (Hv _ _ Hin). split; [|done]. apply seconds_other; [done|]. simpl. congruence.
    + destruct Hin as [(v' & Hin & ->)|[Hb ->]]; (split; [|apply ord_update_not_nil]).
      * apply seconds_snoc; [by apply Hv|done].
      * apply seconds_snoc; [|done]. split; [constructor|]. split; [by intros ? ? ?%not_elem_of_nil|].
        intros b2' b3' Hin%Hk. done.
  - intros t [Hx|Hx%list_elem_of_singleton]%elem_of_app;
      (rewrite (ord_update_keys Ascii.compare)); [right; by apply Hk|subst t; by left].
Qed.

(** * Parts of a text *)

(** A text occurs in another one. *)
Definition infix (p s : string) : Prop := exists a b, s = a +:+ (p +:+ b).

Lemma map_bytes_app f s t : map_bytes f (s +:+ t) = map_bytes f s +:+ map_bytes f t.
Proof. induction s as [|c s IH]; [done|]. cbn. by f_equal. Qed.

Lemma windows_app_l p b t : t ∈ windows p -> t ∈ windows (p +:+ b).
Proof.
  induction p as [|x p IH]; [by intros ?%not_elem_of_nil|].
  destruct p as [|y p]; [by intros ?%not_elem_of_nil|].
  destruct p as [|z p]; [by intros ?%not_elem_of_nil|].
  cbn [windows String.append] in *. rewrite !elem_of_cons. intros [->|Ht]; [by left|right]. by apply IH.
Qed.

Lemma windows_app_r a p t : t ∈ windows p -> t ∈ windows (a +:+ p).
Proof.
  induction a as [|x a IH]; [done|]. intros Ht%IH. cbn [String.append windows].
  destruct (a +:+ p) as [|y [|z r]]; [by apply not_elem_of_nil in Ht..|]. by right.
Qed.

(** A part of a text has only trigrams of the text. *)
Lemma infix_trigrams p s t : infix p s -> t ∈ distinct_trigrams p -> t ∈ distinct_trigrams s.
Proof.
  intros (a & b & ->). rewrite !elem_of_distinct_trigrams, !map_bytes_app. intros [Hw ?].
  split; [|done]. by apply windows_app_r, windows_app_l.
Qed.

Lemma infix_trans p q s : infix p q -> infix q s -> infix p s.
Proof.
  intros (a & b & ->) (c & d & ->). exists (c +:+ a), (b +:+ d). by rewrite !append_assoc.
Qed.

(** * Trees as sets of paths *)

Section Trees.
Context `{ObjectHash}.

(** Whether a tree has a leaf at a path. *)
Fixpoint has (n : node) (p : list string) : bool :=
  match p, n with
  | [], Leaf _ => true
  | s :: p, Node cs => match nfind s cs with Some c => has (child_node c) p | None => false end
  | _, _ => false
  end.

Definition marker_mode (n : node) : entry_mode := if is_node n then tree_mode else blob_mode.

(** All leaves are the empty blob, and all modes the usual ones. *)
Fixpoint marker (n : node) : bool :=
  match n with
  | Leaf id => bool_decide (id = empty_blob)
  | Node cs => forallb (fun c => bool_decide (c.1.1 = marker_mode c.2) && marker c.2) cs
  end.

(** A well-formed tree of an index. *)
Definition marks (n : node) : Prop := wf_node n /\ marker n = true.

Lemma marker_child cs c :
  marker (Node cs) = true -> c ∈ cs ->
  child_mode c = marker_mode (child_node c) /\ marker (child_node c) = true.
Proof.
  intros Hm Hc. cbn [marker] in Hm. apply Forall_forallb in Hm.
  eapply Forall_forall in Hm; [|done]. apply andb_true_iff in Hm as [Hm ?].
  by apply bool_decide_eq_true in Hm.
Qed.

Lemma marks_child cs c : marks (Node cs) -> c ∈ cs -> marks (child_node c).
Proof.
  intros [Hw Hm] Hc. split; [by eapply wf_child|]. by eapply marker_child in Hm as [_ ?].
Qed.

Lemma marks_find cs s c : marks (Node cs) -> nfind s cs = Some c -> marks (child_node c).
Proof. intros Hm [Hc _]%nfind_Some. by eapply marks_child. Qed.

Lemma marks_leaf : marks (Leaf empty_blob).
Proof. split; [done|]. by apply bool_decide_eq_true. Qed.

Lemma marks_nempty : marks nempty.
Proof. split; [apply wf_nempty|done]. Qed.

Lemma has_cons cs s p :
  has (Node cs) (s :: p) = true <-> exists c, nfind s cs = Some c /\ has (child_node c) p = true.
Proof.
  cbn [has]. destruct (nfind s cs) as [c|]; [|naive_solver]. split; [eauto|].
  by intros (? & [= <-] & ?).
Qed.

Lemma has_child cs c p :
  wf_node (Node cs) -> c ∈ cs -> has (Node cs) (child_name c :: p) = has (child_node c) p.
Proof.
  intros Hw Hc. cbn [has]. by rewrite nfind_elem by (done || by apply wf_nodup).
Qed.

(** A tree that is not empty has a path. *)
Lemma has_some n : marks n -> n ≠ nempty -> exists p, has n p = true.
Proof.
  induction n as [id|cs IH] using node_ind'; intros Hm Hn; [by exists []|].
  destruct cs as [|c cs]; [done|]. rewrite Forall_cons in IH. destruct IH as [IH _].
  destruct IH as [p Hp].
  - eapply marks_child; [done|]. left.
  - eapply wf_child_not_empty; [apply Hm|]. left.
  - exists (child_name c :: p). rewrite has_child; [done|apply Hm|left].
Qed.

Lemma has_root n : has n [] = negb (is_node n).
Proof. by destruct n. Qed.

(** Of trees with the same paths, each child of one has a counterpart in the other. *)
Lemma has_ext_child ca cb c :
  marks (Node ca) -> marks (Node cb) -> (forall p, has (Node ca) p = has (Node cb) p) -> c ∈ ca ->
  exists d, d ∈ cb /\ d.1 = c.1 /\ forall p, has (child_node c) p = has (child_node d) p.
Proof.
  intros Ha Hb He Hc.
  destruct (has_some (child_node c)) as [p Hp];
    [by apply (marks_child ca)|by apply (wf_child_not_empty ca); [apply Ha|]|].
  rewrite <- (has_child ca), He in Hp; [|apply Ha|done].
  apply has_cons in Hp as (d & Hd & Hp). exists d. apply nfind_Some in Hd as [Hd En].
  assert (forall p, has (child_node c) p = has (child_node d) p) as Hcd.
  { intros q. rewrite <- (has_child ca), He, <- En, has_child; [done|apply Hb|done|apply Ha|done]. }
  split; [done|]. split; [|done].
  destruct (marker_child ca c) as [Em _]; [apply Ha|done|].
  destruct (marker_child cb d) as [Em' _]; [apply Hb|done|].
  assert (is_node (child_node c) = is_node (child_node d)) as Ek.
  { specialize (Hcd []). rewrite !has_root in Hcd. by destruct (is_node _), (is_node _). }
  destruct c as [[m s] x], d as [[m' s'] y]. unfold child_mode, child_name, child_node in *.
  cbn in *. subst. unfold marker_mode. by rewrite Ek.
Qed.

(** Trees with the same paths are equal. *)
Lemma has_ext a b : marks a -> marks b -> (forall p, has a p = has b p) -> a = b.
Proof.
  revert b. induction a as [id|ca IH] using node_ind'; intros b Ha Hb He.
  - destruct b as [id'|cb]; [|by specialize (He []); rewrite !has_root in He].
    destruct Ha as [_ Ha], Hb as [_ Hb]. cbn in Ha, Hb.
    apply bool_decide_eq_true in Ha, Hb. congruence.
  - destruct b as [id'|cb]; [by specialize (He []); rewrite !has_root in He|]. f_equal.
    rewrite Forall_forall in IH.
    assert (forall c, c ∈ ca -> c ∈ cb) as Hab.
    { intros c Hc. destruct (has_ext_child ca cb c Ha Hb He Hc) as (d & Hd & E & Hcd).
      assert (child_node c = child_node d) as En.
      { apply IH; [done|by apply (marks_child ca)|by apply (marks_child cb)|done]. }
      destruct c as [k x], d as [k' y]. cbn in *. unfold child_node in En. cbn in En. by subst. }
    destruct Ha as [Ha Hma], Hb as [Hb Hmb].
    pose proof Ha as (_ & Hna & Hsa)%wf_node_alt. pose proof Hb as (_ & Hnb & Hsb)%wf_node_alt.
    apply sorted_unique; [done|done|]. intros c. split; [apply Hab|]. intros Hc.
    destruct (has_ext_child cb ca c (conj Hb Hmb) (conj Ha Hma) (fun p => eq_sym (He p)) Hc)
      as (d & Hd & E & _).
    assert (d = c) as <-; [|done].
    apply Hab in Hd as Hd'. apply nfind_elem in Hd'; [|done]. apply nfind_elem in Hc; [|done].
    unfold child_name in *. rewrite E, Hc in Hd'. by injection Hd'.
Qed.

(** The address determines the tree. *)
Lemma marks_oid_inj a b : marks a -> marks b -> node_oid a = node_oid b -> a = b.
Proof.
  revert b. induction a as [id|ca IH] using node_ind'; intros b Ha Hb E.
  - destruct Ha as [_ Ha]. cbn in Ha. apply bool_decide_eq_true in Ha. subst id.
    destruct b as [id'|cb]; [by cbn in E; subst|]. by apply compute_hash_inj in E.
  - destruct b as [id'|cb].
    { destruct Hb as [_ Hb]. cbn in Hb. apply bool_decide_eq_true in Hb. subst id'.
      by apply compute_hash_inj in E. }
    rewrite !node_oid_Node in E. apply compute_hash_inj in E. injection E as E. f_equal.
    assert (forall c, c ∈ ca -> marks (child_node c)) as Hca by (intros c; by apply marks_child).
    assert (forall c, c ∈ cb -> marks (child_node c)) as Hcb by (intros c; by apply marks_child).
    clear Ha Hb. revert cb E Hcb. induction IH as [|c ca Hc _ IHl]; intros [|d cb] E Hcb; try done.
    rewrite !fmap_cons in E. unfold child_entry_of at 1 3 in E. injection E as E1 E2 E3 E4.
    destruct c as [[m s] nc], d as [[m' s'] nd]. unfold child_mode, child_name, child_node in *.
    cbn in *. subst m' s'. rewrite (Hc nd); [..|exact E3].
    + f_equal. apply IHl; [intros x Hx; apply Hca; by right|done|].
      intros x Hx. apply Hcb. by right.
    + apply (Hca (m, s, nc)). left.
    + apply (Hcb (m, s, nd)). left.
Qed.

Lemma marks_empty n : marks n -> node_oid n = empty_id <-> n = nempty.
Proof.
  intros Hn. split; [|by intros ->]. intros E. apply marks_oid_inj; [done|apply marks_nempty|done].
Qed.

(** ** Building a tree from its children *)

Definition sort_children (cs : list child) : list child := foldl (fun out d => ninsert d out) [] cs.

Definition built (cs : list child) : node := Node (sort_children cs).

Lemma sort_children_perm cs : sort_children cs ≡ₚ cs.
Proof.
  assert (forall out, foldl (fun out d => ninsert d out) out cs ≡ₚ out ++ cs) as Hg; [|apply Hg].
  induction cs as [|c cs IH]; intros out; simpl; [by rewrite app_nil_r|].
  rewrite IH, ninsert_perm. by rewrite <- Permutation_middle.
Qed.

Lemma sort_children_sorted cs :
  all_valid cs -> NoDup (names cs) -> StronglySorted key_lt (sort_children cs).
Proof.
  intros Hv Hn. unfold sort_children. assert (forall out, all_valid out -> NoDup (names out ++ names cs) ->
    StronglySorted key_lt out -> StronglySorted key_lt (foldl (fun out d => ninsert d out) out cs)) as Hg.
  { clear Hn. induction Hv as [|c cs Hc _ IH]; intros out Ho Hn Hs; simpl; [done|].
    simpl in Hn. rewrite <- Permutation_middle in Hn. apply NoDup_cons in Hn as [Hc' Hn].
    apply IH.
    - rewrite ninsert_perm. by constructor.
    - rewrite ninsert_perm. simpl. by apply NoDup_cons.
    - apply ninsert_sorted; [done|done| |done]. set_solver. }
  apply Hg; [constructor|done|constructor].
Qed.

Lemma nfind_perm s cs cs' : cs ≡ₚ cs' -> NoDup (names cs) -> nfind s cs = nfind s cs'.
Proof.
  intros Hp Hn. destruct (nfind s cs') as [c|] eqn:E.
  - apply nfind_Some in E as [Hc <-]. apply nfind_elem; [done|]. by rewrite Hp.
  - apply nfind_None. apply nfind_None in E. by rewrite Hp.
Qed.

(** A child of a tree of an index. *)
Definition mark_child (c : child) : Prop :=
  valid_name (child_name c) = true /\ child_mode c = marker_mode (child_node c) /\
  marks (child_node c) /\ child_node c ≠ nempty.

Lemma marker_mode_tree n : is_tree (marker_mode n) = is_node n.
Proof. unfold marker_mode. by destruct (is_node n). Qed.

Lemma marks_mark_child cs c : marks (Node cs) -> c ∈ cs -> mark_child c.
Proof.
  intros Hm Hc. split; [by eapply wf_child_name; [apply Hm|]|].
  split; [by eapply marker_child; [apply Hm|]|].
  split; [by eapply marks_child|]. by eapply wf_child_not_empty; [apply Hm|].
Qed.

Lemma marks_built cs : Forall mark_child cs -> NoDup (names cs) -> marks (built cs).
Proof.
  intros Hc Hn. split.
  - apply wf_node_alt. split; [|split].
    + rewrite sort_children_perm. eapply Forall_impl; [exact Hc|].
      intros c (Hv & Hm & [Hw _] & He). split; [done|].
      rewrite Hm, marker_mode_tree. split; [done|]. split; [|done]. by apply child_ok_not_empty.
    + by rewrite sort_children_perm.
    + apply sort_children_sorted; [|done]. eapply Forall_impl; [exact Hc|]. by intros c (? & _).
  - cbn [marker built]. apply Forall_forallb. rewrite sort_children_perm.
    eapply Forall_impl; [exact Hc|]. intros c (_ & Hm & [_ ?] & _).
    apply andb_true_iff. split; [|done]. by apply bool_decide_eq_true.
Qed.

Lemma has_built cs s p :
  NoDup (names cs) ->
  has (built cs) (s :: p) = match nfind s cs with Some c => has (child_node c) p | None => false end.
Proof.
  intros Hn. cbn [has built]. rewrite (nfind_perm s _ cs); [done|apply sort_children_perm|].
  by rewrite sort_children_perm.
Qed.

Lemma built_empty cs : built cs = nempty <-> cs = [].
Proof.
  split; [|by intros ->]. intros [= E]. pose proof (sort_children_perm cs) as Hp.
  rewrite E in Hp. by apply Permutation_nil in Hp.
Qed.

(** * Trees in the object database *)

(** The tree objects are in the database; leaves need not be. *)
Inductive kept (o : odb) : node -> Prop :=
| kept_leaf id : kept o (Leaf id)
| kept_node cs :
    try_find o (node_oid (Node cs)) = Some (OTree (child_entry_of <$> cs)) ->
    Forall (fun c => kept o (child_node c)) cs -> kept o (Node cs).

Lemma kept_keeps o o' n : odb_keeps o o' -> kept o n -> kept o' n.
Proof.
  intros He. induction n as [id|cs IH] using node_ind'; intros Hk; [constructor|].
  inversion Hk as [|? Hf Hc]; subst. constructor; [by apply He|].
  rewrite Forall_forall in *. intros c Hin. by apply IH, Hc.
Qed.

Lemma kept_find o cs : kept o (Node cs) ->
  try_find o (node_oid (Node cs)) = Some (OTree (child_entry_of <$> cs)).
Proof. by inversion 1. Qed.

Lemma kept_child o cs c : kept o (Node cs) -> c ∈ cs -> kept o (child_node c).
Proof. inversion 1 as [|? ? Hf]; subst. intros Hc. by eapply Forall_forall in Hf. Qed.

Lemma sort_entries_children cs :
  sort_entries (child_entry_of <$> cs) = child_entry_of <$> sort_children cs.
Proof. apply (entries_foldl_ninsert cs []). Qed.

End Trees.
