(* ===== verification/SearchSpec.v ===== *)
(** What a search should find and what an index should hold: source trees with their contents, the
    files of a tree, the granularity at which the index records them, and the sets of paths that
    make up the index of a file and of a directory. *)

From S2P Require Import Utf8 Path Objects Store Node NodeFacts Refine SearchIndex SearchTrees Prelude Ops.

Open Scope nat_scope.

(** * Source trees *)

(** Files with their contents; a submodule is known by its address. *)
Inductive source :=
| File (data : string)
| Submodule (id : oid)
| Dir (children : list (entry_mode * string * source)).

Abbreviation source_child := (entry_mode * string * source)%type.

Lemma source_ind' (P : source -> Prop) :
  (forall data, P (File data)) -> (forall id, P (Submodule id)) ->
  (forall cs, Forall (fun c : source_child => P c.2) cs -> P (Dir cs)) ->
  forall n, P n.
Proof.
  intros Hf Hs Hd. fix go 1. intros [data|id|cs]; [apply Hf|apply Hs|]. apply Hd.
  induction cs as [|c cs IH]; constructor; [apply go|apply IH].
Qed.

Definition is_dir (n : source) : bool := match n with Dir _ => true | _ => false end.
Definition is_submodule (n : source) : bool := match n with Submodule _ => true | _ => false end.

Fixpoint depth (n : source) : nat :=
  match n with
  | Dir cs => S (list_max ((fun c => depth c.2) <$> cs))
  | _ => 0
  end.

(** Names as git writes them, in UTF-8, without repetition in a directory, and modes that agree with
    what is there. *)
Definition wf_name (s : string) : bool :=
  valid_name s && valid_utf8 s && negb (bool_decide (s = ".")).

Fixpoint wf_source (n : source) : bool :=
  match n with
  | Dir cs =>
      bool_decide (NoDup ((fun c : source_child => c.1.2) <$> cs)) &&
      forallb (fun c =>
        wf_name c.1.2 && Bool.eqb (is_tree c.1.1) (is_dir c.2) &&
        Bool.eqb (is_commit c.1.1) (is_submodule c.2) && wf_source c.2) cs
  | _ => true
  end.

(** The files with their paths, in the order of the tree. *)
Fixpoint files (n : source) : list (list string * string) :=
  match n with
  | File data => [([], data)]
  | Submodule _ => []
  | Dir cs => cs ≫= fun c => (fun f => (c.1.2 :: f.1, f.2)) <$> files c.2
  end.

Definition source_find (s : string) (cs : list source_child) : option source_child :=
  List.find (fun c => bool_decide (c.1.2 = s)) cs.

Section Spec.
Context `{ObjectHash} `{ObjectBytes}.

Fixpoint source_oid (n : source) : oid :=
  match n with
  | File data => compute_hash (OBlob data)
  | Submodule id => id
  | Dir cs => compute_hash (OTree ((fun c => Entry c.1.1 c.1.2 (source_oid c.2)) <$> cs))
  end.

Definition source_entry (c : source_child) : entry := Entry c.1.1 c.1.2 (source_oid c.2).

(** The objects of a source tree are in the database. *)
Fixpoint loaded (o : odb) (n : source) : bool :=
  match n with
  | File data => bool_decide (try_find o (compute_hash (OBlob data)) = Some (OBlob data))
  | Submodule _ => true
  | Dir cs =>
      bool_decide (try_find o (source_oid (Dir cs)) = Some (OTree (source_entry <$> cs))) &&
      forallb (fun c => loaded o c.2) cs
  end.

(** * Granularity *)

(** The number of files below a directory and their size, in [u64]. *)
Fixpoint stats (n : source) : Z * Z :=
  match n with
  | File data => (1%Z, header_size (OBlob data))
  | Submodule _ => (0, 0)%Z
  | Dir cs =>
      foldl (fun acc c =>
        if is_submodule c.2 then acc
        else (add_u64 acc.1 (stats c.2).1, add_u64 acc.2 (stats c.2).2)) (0, 0)%Z cs
  end.

Definition small (n : source) : bool := within_limits (stats n).

(** The path at which the index records a file: its own, or that of the first small directory on
    the way to it, below the root. *)
Fixpoint anchor (n : source) (p : list string) : list string :=
  match p with
  | [] => []
  | s :: p =>
      s :: match n with
           | Dir cs =>
               match source_find s cs with
               | Some c => if is_dir c.2 && small c.2 then [] else anchor c.2 p
               | None => []
               end
           | _ => []
           end
  end.

(** * What an index holds *)

(** The trigrams of a file. *)
Definition has_trigram (data : string) (t : trigram) : Prop :=
  t ∈ distinct_trigrams (searched_text data).

(** The paths below a trigram: the anchors of the files that have it. *)
Definition recorded (n : source) (t : trigram) (q : list string) : Prop :=
  exists f, f ∈ files n /\ has_trigram f.2 t /\ q = anchor n f.1.

(** A directory as one file. *)
Definition recorded_coarse (n : source) (t : trigram) (q : list string) : Prop :=
  q = [] /\ exists f, f ∈ files n /\ has_trigram f.2 t.

(** A file under its name. *)
Definition recorded_file (name data : string) (t : trigram) (q : list string) : Prop :=
  q = [name] /\ has_trigram data t.

(** Under a directory of a name. *)
Definition recorded_under (name : string) (S : trigram -> list string -> Prop) (t : trigram)
    (q : list string) : Prop :=
  exists q', q = name :: q' /\ S t q'.

(** The three levels above. *)
Definition spine (t : trigram) : list string := [hex_name t.1.1; hex_name t.1.2; hex_name t.2].

(** A tree is the index of a set of paths under trigrams. *)
Definition indexes (i : node) (S : trigram -> list string -> Prop) : Prop :=
  marks i /\ is_node i = true /\
  forall p, has i p = true <-> exists t q, p = spine t ++ q /\ S t q.

(** * Facts *)

Abbreviation source_names cs := ((fun c : source_child => c.1.2) <$> cs).

Lemma wf_source_Dir cs :
  wf_source (Dir cs) = true <->
  NoDup (source_names cs) /\
  Forall (fun c => wf_name c.1.2 = true /\ is_tree c.1.1 = is_dir c.2 /\
    is_commit c.1.1 = is_submodule c.2 /\ wf_source c.2 = true) cs.
Proof.
  cbn [wf_source]. rewrite andb_true_iff, bool_decide_eq_true, Forall_forallb.
  apply and_iff_compat_l. apply Forall_iff. intros c.
  rewrite !andb_true_iff, !eqb_true_iff. tauto.
Qed.

Lemma wf_source_child cs c :
  wf_source (Dir cs) = true -> c ∈ cs ->
  wf_name c.1.2 = true /\ is_tree c.1.1 = is_dir c.2 /\ is_commit c.1.1 = is_submodule c.2 /\
  wf_source c.2 = true.
Proof. intros [_ Hc]%wf_source_Dir Hin. by eapply Forall_forall in Hc. Qed.

Lemma wf_name_valid s : wf_name s = true -> valid_name s = true.
Proof. by intros [[? _]%andb_true_iff _]%andb_true_iff. Qed.

Lemma wf_name_utf8 s : wf_name s = true -> valid_utf8 s = true.
Proof. by intros [[_ ?]%andb_true_iff _]%andb_true_iff. Qed.

Lemma source_find_Some s cs c : source_find s cs = Some c -> c ∈ cs /\ c.1.2 = s.
Proof.
  intros [Hc Hs]%find_some. apply list_elem_of_In in Hc. by apply bool_decide_eq_true in Hs.
Qed.

Lemma source_find_elem cs c : NoDup (source_names cs) -> c ∈ cs -> source_find c.1.2 cs = Some c.
Proof.
  unfold source_find. induction cs as [|d cs IH]; [by intros _ ?%not_elem_of_nil|].
  intros [Hd Hn]%NoDup_cons [->|Hc]%elem_of_cons; simpl; [by rewrite bool_decide_true|].
  rewrite bool_decide_false; [by apply IH|]. intros E. apply Hd, list_elem_of_fmap. by exists c.
Qed.

Lemma source_oid_Dir cs : source_oid (Dir cs) = compute_hash (OTree (source_entry <$> cs)).
Proof. done. Qed.

(** The address determines a directory. *)
Lemma source_oid_inj a b :
  wf_source a = true -> wf_source b = true ->
  is_dir a = is_dir b -> is_submodule a = is_submodule b -> source_oid a = source_oid b -> a = b.
Proof.
  revert b. induction a as [d|id|ca IH] using source_ind'; intros [d'|id'|cb] Ha Hb; try done.
  - intros _ _ E. apply compute_hash_inj in E. by injection E as ->.
  - intros _ _ E. cbn in E. by subst.
  - intros _ _ E. rewrite !source_oid_Dir in E. apply compute_hash_inj in E. injection E as E. f_equal.
    apply wf_source_Dir in Ha as [_ Ha], Hb as [_ Hb].
    revert cb E Hb. induction IH as [|c ca Hc _ IHl]; intros [|d cb] E Hb; try done.
    rewrite !fmap_cons in E. unfold source_entry at 1 3 in E. injection E as E1 E2 E3 E4.
    apply Forall_cons in Ha as [(_ & Ht & Hs & Hw) Ha], Hb as [(_ & Ht' & Hs' & Hw') Hb].
    destruct c as [[m s] x], d as [[m' s'] y]. cbn in *. subst m' s'.
    assert (x = y) as -> by (apply Hc; congruence). f_equal. by apply IHl.
Qed.

Lemma loaded_Dir o cs :
  loaded o (Dir cs) = true <->
  try_find o (source_oid (Dir cs)) = Some (OTree (source_entry <$> cs)) /\
  Forall (fun c : source_child => loaded o c.2 = true) cs.
Proof. cbn [loaded]. by rewrite andb_true_iff, bool_decide_eq_true, Forall_forallb. Qed.

Lemma loaded_child o cs c : loaded o (Dir cs) = true -> c ∈ cs -> loaded o c.2 = true.
Proof. intros [_ Hc]%loaded_Dir Hin. by eapply Forall_forall in Hc. Qed.

Lemma loaded_keeps o o' n : odb_keeps o o' -> loaded o n = true -> loaded o' n = true.
Proof.
  intros Hk. induction n as [d|id|cs IH] using source_ind'; cbn [loaded].
  - rewrite !bool_decide_eq_true. apply Hk.
  - done.
  - intros [Hf Hc]%loaded_Dir. apply loaded_Dir. split; [by apply Hk|].
    rewrite Forall_forall in *. intros c Hin. by apply IH, Hc.
Qed.

Lemma depth_child cs (c : source_child) : c ∈ cs -> depth c.2 < depth (Dir cs).
Proof.
  intros Hc. cbn [depth]. apply Nat.lt_succ_r.
  induction Hc as [c cs|c d cs _ IH]; rewrite fmap_cons; cbn [list_max foldr]; unfold list_max in *; lia.
Qed.

(** ** Indexes *)

Lemma spine_inj t t' q q' : spine t ++ q = spine t' ++ q' -> t = t' /\ q = q'.
Proof.
  destruct t as [[a b] c], t' as [[a' b'] c']. unfold spine. cbn [fst snd app].
  generalize hex_name_inj. generalize hex_name. intros f Hf [= Ea Eb Ec ->].
  apply Hf in Ea as ->, Eb as ->, Ec as ->. done.
Qed.

Lemma indexes_has i S t q : indexes i S -> has i (spine t ++ q) = true <-> S t q.
Proof.
  intros (_ & _ & Hi). rewrite Hi. split; [|by exists t, q].
  by intros (t' & q' & [-> ->]%spine_inj & ?).
Qed.

Lemma indexes_ext i S S' : (forall t q, S t q <-> S' t q) -> indexes i S -> indexes i S'.
Proof.
  intros He (Hm & Hn & Hi). split; [done|]. split; [done|]. intros p. rewrite Hi.
  split; intros (t & q & -> & ?); exists t, q; (split; [done|]); by apply He.
Qed.

(** The index of a set of paths is unique. *)
Lemma indexes_unique i j S S' :
  indexes i S -> indexes j S' -> (forall t q, S t q <-> S' t q) -> i = j.
Proof.
  intros Hi Hj He. apply (indexes_ext j S' S) in Hj; [|by intros; symmetry].
  destruct Hi as (Hm & _ & Hi), Hj as (Hm' & _ & Hj). apply has_ext; [done|done|].
  intros p. apply Bool.eq_true_iff_eq. by rewrite Hi, Hj.
Qed.

Lemma indexes_empty S : (forall t q, ~ S t q) -> indexes nempty S.
Proof.
  intros Hs. split; [apply marks_nempty|]. split; [done|]. intros p. split; [by destruct p|].
  by intros (t & q & _ & ?%Hs).
Qed.

(** ** What is recorded *)

Lemma elem_of_files_Dir cs f :
  f ∈ files (Dir cs) <-> exists c g, (c ∈ cs) /\ (g ∈ files c.2) /\ f = (c.1.2 :: g.1, g.2).
Proof.
  cbn [files]. rewrite list_elem_of_bind. split.
  - intros (c & (g & -> & Hg)%list_elem_of_fmap & Hc). by exists c, g.
  - intros (c & g & Hc & Hg & ->). exists c. split; [|done]. apply list_elem_of_fmap. by exists g.
Qed.

(** What a child contributes to the index of its directory. *)
Definition recorded_child (c : source_child) : trigram -> list string -> Prop :=
  match c.2 with
  | File data => recorded_file c.1.2 data
  | Submodule _ => fun _ _ => False
  | Dir _ => recorded_under c.1.2 (if small c.2 then recorded_coarse c.2 else recorded c.2)
  end.

Lemma recorded_Dir cs t q :
  NoDup (source_names cs) ->
  recorded (Dir cs) t q <-> exists c, (c ∈ cs) /\ recorded_child c t q.
Proof.
  intros Hn. unfold recorded at 1. split.
  - intros (f & (c & g & Hc & Hg & ->)%elem_of_files_Dir & Ht & ->). exists c. split; [done|].
    cbn [fst snd] in *. cbn [anchor]. rewrite source_find_elem by done. unfold recorded_child.
    destruct c as [[m s] [d|id|cs']]; cbn [fst snd is_dir andb] in *.
    + apply list_elem_of_singleton in Hg as ->. done.
    + by apply not_elem_of_nil in Hg.
    + destruct (small (Dir cs')); eexists; (split; [done|]); [split; [done|]; by exists g|by exists g].
  - intros (c & Hc & Hr). unfold recorded_child in Hr.
    assert (forall g, g ∈ files c.2 -> (c.1.2 :: g.1, g.2) ∈ files (Dir cs)) as Hin.
    { intros g Hg. apply elem_of_files_Dir. by exists c, g. }
    pose proof (source_find_elem _ _ Hn Hc) as Hf.
    destruct c as [[m s] [d|id|cs']]; cbn [fst snd] in *.
    + destruct Hr as [-> Ht]. exists ([s], d). split; [apply (Hin ([], d)); left|]. split; [done|].
      cbn [anchor fst]. by rewrite Hf.
    + done.
    + destruct Hr as (q' & -> & Hr).
      assert (exists g, g ∈ files (Dir cs') /\ has_trigram g.2 t /\
        q' = if small (Dir cs') then [] else anchor (Dir cs') g.1) as (g & Hg & Ht & ->).
      { destruct (small (Dir cs')); [destruct Hr as (-> & g & ? & ?); by exists g|done]. }
      eexists. split; [by apply (Hin g)|]. split; [done|]. cbn [anchor fst]. rewrite Hf.
      cbn [snd is_dir andb]. by destruct (small (Dir cs')).
Qed.

Lemma recorded_coarse_Dir cs t q :
  recorded_coarse (Dir cs) t q <-> exists c : source_child, c ∈ cs /\ recorded_coarse c.2 t q.
Proof.
  unfold recorded_coarse. split.
  - intros (-> & f & (c & g & Hc & Hg & ->)%elem_of_files_Dir & Ht). exists c. split; [done|].
    split; [done|]. by exists g.
  - intros (c & Hc & -> & g & Hg & Ht). split; [done|]. exists (c.1.2 :: g.1, g.2).
    split; [|done]. apply elem_of_files_Dir. by exists c, g.
Qed.

End Spec.
