(* ===== verification/SearchBuild.v ===== *)
(** Building an index: the state of an indexer that is sound, and that each operation of [Run]
    returns the address of the tree that SearchSpec asks for, leaves the tree readable, and keeps
    the state sound. *)

From S2P Require Import Utf8 Path Objects Store Node NodeFacts Refine HistoryHint CommitCache SearchIndex SearchTrees SearchSpec Prelude Ops.

Open Scope nat_scope.

(** What a cache of indexes promises: it answers only what it knows, and it knows only what it was
    told.  [key_ok] are the addresses that it can keep. *)
Class LawfulIndexCache (C : Type) `{IndexCache C} := {
  cache_ok : C -> Prop;
  key_ok : oid -> Prop;
  knows : C -> oid -> oid -> Prop;
  get_index_law o k c r c' :
    cache_ok c -> key_ok k -> get_index o k c = (r, c') ->
    cache_ok c' /\ (forall v, r = Some v -> knows c k v) /\
    (forall k' v', knows c' k' v' -> knows c k' v');
  set_index_law k v c :
    cache_ok c -> key_ok k -> key_ok v ->
    cache_ok (set_index k v c) /\
    forall k' v', knows (set_index k v c) k' v' -> knows c k' v' \/ (k' = k /\ v' = v);
}.

(** Every subtree of a stored tree is stored. *)
Definition complete `{ObjectHash} (o : odb) : Prop :=
  forall id l e, try_find o id = Some (OTree l) -> e ∈ l -> is_tree (mode e) = true ->
  exists l', try_find o (entry_oid e) = Some (OTree l').

Section Build.
Context `{ObjectHash} `{ObjectBytes} {C : Type} `{LawfulIndexCache C}.

Abbreviation run := (Run C).
Abbreviation im := (M run).

(** * Sound states *)

(** What the run can read: the buffered trees in front of the object database. *)
Definition db (s : run) : odb :=
  Odb (pending (ix s) ∪ mem (src s)) (disk (src s)) (alternates (src s)).

(** An address is that of the index of a set of paths, and the index can be read. *)
Definition holds_index (o : odb) (v : oid) (S : trigram -> list string -> Prop) : Prop :=
  exists i, v = node_oid i /\ indexes i S /\ kept o i.

(** No leaf of one tree is above a leaf of another. *)
Definition compatible (ns : list node) : Prop :=
  forall a b p q, a ∈ ns -> b ∈ ns -> has a p = true -> has b (p ++ q) = true -> q = [].

(** A tree has the paths of all trees of a list. *)
Definition merges (i : node) (ns : list node) : Prop :=
  marks i /\ forall p, has i p = true <-> exists n, (n ∈ ns) /\ has n p = true.

(** The memo tables hold what the operations return. *)
Record memos_ok (o : odb) (i : Indexer) : Prop := {
  memo_blob data name v :
    blob_memo i !! (compute_hash (OBlob data), name) = Some v -> valid_name name = true ->
    holds_index o v (recorded_file name data);
  memo_blob_spine data v :
    blob_spine_memo i !! compute_hash (OBlob data) = Some v ->
    holds_index o v (recorded_coarse (File data));
  memo_coarse n v :
    wf_source n = true -> is_dir n = true -> coarse_memo i !! source_oid n = Some v ->
    holds_index o v (recorded_coarse n);
  memo_stats n v :
    wf_source n = true -> is_dir n = true -> stats_memo i !! source_oid n = Some v -> v = stats n;
  memo_wrap name j S v :
    indexes j S -> valid_name name = true -> wrap_memo i !! (node_oid j, name) = Some v ->
    holds_index o v (recorded_under name S);
  memo_overlay ns v :
    Forall marks ns -> compatible ns -> overlay_memo i !! (node_oid <$> ns) = Some v ->
    exists j, v = node_oid j /\ merges j ns /\ kept o j;
}.

(** An index of a source tree, for the pairs in the tables. *)
Definition index_of (o : odb) (n : source) (v : oid) : Prop := holds_index o v (recorded n).

Definition dir_source (n : source) (t : oid) : Prop :=
  wf_source n = true /\ is_dir n = true /\ source_oid n = t.

Record ok (s : run) : Prop := {
  ok_src : odb_ok (src s);
  ok_complete : complete (src s);
  ok_pending id x :
    pending (ix s) !! id = Some x ->
    exists l, x = OTree l /\ id = compute_hash x /\
      forall e, e ∈ l -> is_tree (mode e) = true ->
        exists l', try_find (db s) (entry_oid e) = Some (OTree l');
  ok_trees id l : trees (ix s) !! id = Some l -> try_find (db s) id = Some (OTree l);
  ok_memos : memos_ok (db s) (ix s);
  ok_tree n t v :
    dir_source n t -> tree_memo (ix s) !! t = Some v ->
    index_of (db s) n v /\ (index_of (src s) n v \/ (t, v) ∈ roots s);
  ok_roots t v : (t, v) ∈ roots s -> key_ok t /\ key_ok v /\ exists n, dir_source n t /\ index_of (db s) n v;
  ok_cache_ok : cache_ok (index_cache s);
  ok_cache n t v : dir_source n t -> knows (index_cache s) t v -> index_of (src s) n v;
}.

Lemma holds_index_keeps o o' v S : odb_keeps o o' -> holds_index o v S -> holds_index o' v S.
Proof. intros Hk (i & ? & ? & ?). exists i. eauto using kept_keeps. Qed.

Lemma memos_keeps o o' i : odb_keeps o o' -> memos_ok o i -> memos_ok o' i.
Proof.
  intros Hk []. split; eauto using holds_index_keeps.
  intros ns v Hm Hc Hv. destruct (memo_overlay0 ns v Hm Hc Hv) as (j & ? & ? & ?).
  exists j. eauto using kept_keeps.
Qed.

Lemma db_ok s : ok s -> odb_ok (db s).
Proof.
  intros Hs. destruct (ok_src s Hs) as (H1' & H2' & H3'). split; [|done]. intros id x. cbn.
  intros [Hp|[_ Hm]]%lookup_union_Some_raw; [|by apply H1'].
  by destruct (ok_pending s Hs _ _ Hp) as (l & -> & -> & _).
Qed.

(** What is found in front of the database. *)
Lemma db_find s id :
  try_find (db s) id =
    match pending (ix s) !! id with Some x => Some x | None => try_find (src s) id end.
Proof.
  unfold try_find, db, disk_read. cbn. rewrite lookup_union. by destruct (pending (ix s) !! id), (mem (src s) !! id).
Qed.

Lemma db_src s : ok s -> odb_keeps (src s) (db s).
Proof.
  intros Hs id x Hx. rewrite db_find. destruct (pending (ix s) !! id) as [y|] eqn:E; [|done].
  destruct (ok_pending s Hs _ _ E) as (l & -> & -> & _).
  apply try_find_hash in Hx; [|by apply Hs]. by apply compute_hash_inj in Hx as <-.
Qed.

Lemma find_empty o : odb_ok o -> try_find o empty_id = Some (OTree []).
Proof.
  intros Ho. by apply (present_find_node o []), present_nempty.
Qed.

Lemma kept_nempty o : odb_ok o -> kept o nempty.
Proof. intros Ho. constructor; [by apply find_empty|constructor]. Qed.

(** * Computations *)

(** A later state of the run: what could be read still can. *)
Record grows (s s' : run) : Prop := {
  grows_src : src s' = src s;
  grows_db : odb_keeps (db s) (db s');
  grows_roots p : p ∈ roots s -> p ∈ roots s';
}.

Lemma grows_refl s : grows s s.
Proof. split; [done|apply odb_keeps_refl|done]. Qed.

Lemma grows_trans s1 s2 s3 : grows s1 s2 -> grows s2 s3 -> grows s1 s3.
Proof.
  intros [E1 K1 R1] [E2 K2 R2]. split; [congruence|by eapply odb_keeps_trans|auto].
Qed.

(** From every sound state after [s0] the computation returns, in a sound state, with [Q]. *)
Definition builds {A} (s0 : run) (m : im A) (Q : A -> run -> Prop) : Prop :=
  forall s, ok s -> grows s0 s ->
  exists a s', m s = (Ok a, s') /\ ok s' /\ grows s s' /\ Q a s'.

Lemma builds_ret {A} s0 (a : A) (Q : A -> run -> Prop) :
  (forall s, ok s -> grows s0 s -> Q a s) -> builds s0 (mret a) Q.
Proof. intros HQ s Hs Hg. exists a, s. eauto using grows_refl. Qed.

Lemma builds_bind {A B} s0 (m : im A) (k : A -> im B) Q R :
  builds s0 m Q ->
  (forall a s, ok s -> grows s0 s -> Q a s -> builds s (k a) R) ->
  builds s0 (m ≫= k) R.
Proof.
  intros Hm Hk s Hs Hg. destruct (Hm s Hs Hg) as (a & s1 & E & Hs1 & Hg1 & HQ).
  destruct (Hk a s1 Hs1) with (s := s1) as (b & s2 & E2 & Hs2 & Hg2 & HR);
    [by eapply grows_trans|done|done|apply grows_refl|].
  exists b, s2. unfold mbind, M_bind. rewrite E. eauto using grows_trans.
Qed.

Lemma builds_weaken {A} s0 s1 (m : im A) Q : builds s0 m Q -> grows s0 s1 -> builds s1 m Q.
Proof. intros Hm Hg s Hs Hg'. apply Hm; [done|]. by eapply grows_trans. Qed.

Lemma builds_impl {A} s0 (m : im A) (Q R : A -> run -> Prop) :
  builds s0 m Q -> (forall a s, ok s -> grows s0 s -> Q a s -> R a s) -> builds s0 m R.
Proof.
  intros Hm Hi s Hs Hg. destruct (Hm s Hs Hg) as (a & s1 & E & Hs1 & Hg1 & HQ).
  exists a, s1. eauto 10 using grows_trans.
Qed.

Lemma builds_agree {A} s0 (m m' : im A) Q : agree m m' -> builds s0 m Q -> builds s0 m' Q.
Proof. intros Ha Hm s Hs Hg. rewrite <- Ha. by apply Hm. Qed.

Lemma builds_start {A} s0 (m : im A) Q :
  (forall s, ok s -> grows s0 s -> builds s m Q) -> builds s0 m Q.
Proof. intros Hm s Hs Hg. apply (Hm s Hs Hg s Hs), grows_refl. Qed.

Lemma builds_gets {A B} s0 (f : run -> A) (k : A -> im B) Q :
  (forall s, ok s -> grows s0 s -> builds s (k (f s)) Q) -> builds s0 (gets f ≫= k) Q.
Proof. intros Hk s Hs Hg. apply (Hk s Hs Hg s Hs), grows_refl. Qed.

(** [Q] stays true. *)
Definition lasting {A} (Q : A -> run -> Prop) : Prop :=
  forall a s s', grows s s' -> Q a s -> Q a s'.

Lemma builds_mapM {A B} s0 (f : A -> im B) (Q : A -> B -> run -> Prop) l :
  (forall x, lasting (Q x)) ->
  (forall x s, x ∈ l -> ok s -> grows s0 s -> builds s (f x) (Q x)) ->
  builds s0 (mapM f l) (fun r s => Forall2 (fun x b => Q x b s) l r).
Proof.
  intros Hl. revert s0. induction l as [|x l IH]; intros s0 Hf.
  - apply builds_ret. constructor.
  - cbn [mapM]. apply builds_start. intros s Hs Hg. eapply builds_bind; [apply Hf; [left|done..]|].
    intros b s1 Hs1 Hg1 HQ. eapply builds_bind.
    { apply IH. intros y s2 Hy Hs2 Hg2. apply Hf; [by right|done|]. eauto using grows_trans. }
    intros r s2 Hs2 Hg2 Hr. apply builds_ret. intros s3 Hs3 Hg3. constructor.
    + eapply Hl; [|exact HQ]. eauto using grows_trans.
    + eapply Forall2_impl; [exact Hr|]. intros y c Hc. by eapply Hl.
Qed.

(** A loop over the images of a list; [Q] speaks of the elements done so far. *)
Lemma builds_foldM {A X B} s0 (h : X -> A) (f : B -> A -> im B) (Q : list X -> B -> run -> Prop) l acc :
  (forall d, lasting (Q d)) -> Q [] acc s0 ->
  (forall d acc x s, x ∈ l -> ok s -> grows s0 s -> Q d acc s -> builds s (f acc (h x)) (Q (d ++ [x]))) ->
  builds s0 (foldM f acc (h <$> l)) (Q l).
Proof.
  intros Hl H0' Hf. assert (forall d r acc s, d ++ r = l -> ok s -> grows s0 s -> Q d acc s ->
    builds s (foldM f acc (h <$> r)) (Q l)) as Hg.
  { clear acc H0'. intros d r. revert d. induction r as [|x r IH]; intros d acc s E Hs Hg HQ.
    - rewrite app_nil_r in E. subst. apply builds_ret. intros s' _ Hg'. by eapply Hl.
    - rewrite fmap_cons. cbn [foldM]. eapply builds_bind.
      { apply (Hf d acc x s); [subst; set_solver|done|done|done]. }
      intros acc' s1 Hs1 Hg1 HQ'. apply (IH (d ++ [x])); [by rewrite <- app_assoc|done| |done].
      by eapply grows_trans. }
  apply builds_start. intros s Hs Hgs. apply (Hg [] l); [done|done|done|]. by eapply Hl.
Qed.

(** * Changes of the tables *)

Definition put (f : Indexer -> Indexer) (s : run) : run :=
  MkRun (src s) (index_cache s) (f (ix s)) (roots s).

Lemma builds_put {B} s0 (f : Indexer -> Indexer) (k : im B) Q :
  (forall s, ok s -> grows s0 s -> ok (put f s) /\ grows s (put f s) /\ builds (put f s) k Q) ->
  builds s0 (on_ix f ≫= fun _ => k) Q.
Proof.
  intros Hf s Hs Hg. destruct (Hf s Hs Hg) as (Hs' & Hg' & Hk).
  destruct (Hk (put f s) Hs' (grows_refl _)) as (a & s' & E & ? & Hg2 & ?).
  exists a, s'. split; [exact E|]. eauto using grows_trans.
Qed.

(** A change of the other memo tables. *)
Lemma put_memos s f :
  ok s ->
  pending (f (ix s)) = pending (ix s) -> trees (f (ix s)) = trees (ix s) ->
  tree_memo (f (ix s)) = tree_memo (ix s) -> memos_ok (db s) (f (ix s)) ->
  ok (put f s) /\ grows s (put f s).
Proof.
  intros Hs Ep Et Em Hm.
  assert (db (put f s) = db s) as Ed by (unfold db; cbn; by rewrite Ep).
  split; [|split; [done|rewrite Ed; apply odb_keeps_refl|done]].
  destruct Hs. split; rewrite ?Ed; cbn; rewrite ?Ep, ?Et, ?Em; try done.
Qed.

(** Recording a result in a memo table and returning it. *)
Lemma builds_record {A} s0 (f : Indexer -> Indexer) (v : A) Q :
  (forall i, pending (f i) = pending i) -> (forall i, trees (f i) = trees i) ->
  (forall i, tree_memo (f i) = tree_memo i) ->
  (forall s, ok s -> grows s0 s -> memos_ok (db s) (f (ix s)) /\ Q v s) -> lasting Q ->
  builds s0 (on_ix f ≫= fun _ => mret v) Q.
Proof.
  intros Ep Et Em Hm Hl. apply builds_put. intros s Hs Hg. destruct (Hm s Hs Hg) as [Hf HQ].
  destruct (put_memos s f) as [Hs' Hg']; [done..|]. split; [done|]. split; [done|].
  apply builds_ret. intros s' _ Hg2. eapply Hl; [|exact HQ]. by eapply grows_trans.
Qed.

(** * Reading and writing trees *)

Lemma read_tree_builds s0 id l :
  try_find (db s0) id = Some (OTree l) -> builds s0 (read_tree id) (fun r _ => r = l).
Proof.
  intros Hf. apply builds_gets. intros s Hs Hg.
  assert (try_find (db s) id = Some (OTree l)) as Hf' by (by apply (grows_db _ _ Hg)).
  destruct (trees (ix s) !! id) as [l'|] eqn:E.
  { apply (ok_trees s Hs) in E. apply builds_ret. congruence. }
  apply builds_gets. intros s1 Hs1 Hg1.
  assert (try_find (db s1) id = Some (OTree l)) as Hf1 by (by apply (grows_db _ _ Hg1)).
  eapply (builds_bind _ _ _ (fun r _ => r = l)).
  - rewrite db_find in Hf1. destruct (pending (ix s1) !! id) as [x|] eqn:Ep.
    + injection Hf1 as ->. rewrite from_bytes_tree. by apply builds_ret.
    + apply builds_gets. intros s2 Hs2 Hg2. rewrite (grows_src _ _ Hg2), Hf1, from_bytes_tree.
      by apply builds_ret.
  - intros r s2 Hs2 Hg2 ->. apply builds_put. intros s3 Hs3 Hg3.
    assert (try_find (db s3) id = Some (OTree l)) as Hf3
      by (by apply (grows_db _ _ Hg3), (grows_db _ _ Hg2)).
    split; [|split; [split; [done|apply odb_keeps_refl|done]|by apply builds_ret]].
    destruct Hs3. split; try done; [|by destruct ok_memos0].
    intros id' l'. cbn. rewrite lookup_insert_Some. intros [[<- <-]|[_ ?]]; [done|by apply ok_trees0].
Qed.

(** A new tree in front of the database. *)
Lemma put_tree s l :
  ok s -> (forall e, e ∈ l -> is_tree (mode e) = true ->
    exists l', try_find (db s) (entry_oid e) = Some (OTree l')) ->
  let id := compute_hash (OTree l) in
  let f i := set_trees (insert id l) (set_pending (insert id (OTree l)) i) in
  ok (put f s) /\ grows s (put f s) /\ try_find (db (put f s)) id = Some (OTree l).
Proof.
  intros Hs Hl id f.
  assert (try_find (db (put f s)) id = Some (OTree l)) as Hf.
  { rewrite db_find. cbn. by rewrite lookup_insert_eq. }
  assert (odb_keeps (db s) (db (put f s))) as Hk.
  { intros id' x Hx. destruct (decide (id' = id)) as [->|Hne].
    - apply try_find_hash in Hx; [|by apply db_ok]. apply compute_hash_inj in Hx. by rewrite Hf, Hx.
    - rewrite db_find in *. cbn. by rewrite lookup_insert_ne by done. }
  split; [|split; [split; done|done]]. destruct Hs. split; try done.
  - intros id' x. cbn. rewrite lookup_insert_Some. intros [[<- <-]|[Hne Hp]].
    + exists l. split; [done|]. split; [done|]. intros e He Ht. destruct (Hl e He Ht) as [l' Hl'].
      exists l'. by apply Hk.
    + destruct (ok_pending0 _ _ Hp) as (l' & -> & -> & Hc). exists l'. split; [done|]. split; [done|].
      intros e He Ht. destruct (Hc e He Ht) as [l2 Hl2]. exists l2. by apply Hk.
  - intros id' l'. cbn. rewrite lookup_insert_Some. intros [[<- <-]|[Hne Hp]]; [done|].
    by apply Hk, ok_trees0.
  - apply (memos_keeps _ _ _ Hk) in ok_memos0. by destruct ok_memos0.
  - intros n t v Hn Hv. destruct (ok_tree0 n t v Hn Hv) as [Hi ?]. split; [|done].
    by eapply holds_index_keeps.
  - intros t v Hr. destruct (ok_roots0 t v Hr) as (Ht & Hv & n & Hn & Hi). split; [done|]. split; [done|]. exists n. split; [done|].
    by eapply holds_index_keeps.
Qed.

Lemma kept_built s cs :
  ok s -> Forall (fun c => kept (db s) (child_node c)) cs ->
  try_find (db s) (node_oid (built cs)) = Some (OTree (child_entry_of <$> sort_children cs)) ->
  kept (db s) (built cs).
Proof. intros Hs Hc Hf. constructor; [done|]. by rewrite sort_children_perm. Qed.

(** [write_tree] returns the address of the tree of the entries, which can be read. *)
Lemma write_tree_builds s0 cs :
  Forall mark_child cs -> NoDup (names cs) -> Forall (fun c => kept (db s0) (child_node c)) cs ->
  builds s0 (write_tree (child_entry_of <$> cs))
    (fun v s => v = node_oid (built cs) /\ kept (db s) (built cs)).
Proof.
  intros Hc Hn Hk. unfold write_tree. destruct (decide (cs = [])) as [->|Hne].
  { apply builds_ret. intros s Hs _. split; [done|]. apply kept_nempty. by apply db_ok. }
  destruct (child_entry_of <$> cs) as [|e l] eqn:E; [by destruct cs|]. rewrite <- E. clear e l E.
  rewrite entries_no_nul by (eapply Forall_impl; [exact Hc|]; by intros c (? & _)).
  rewrite sort_entries_children. fold (node_oid (built cs)).
  change (compute_hash (OTree (child_entry_of <$> sort_children cs))) with (node_oid (built cs)).
  apply builds_gets. intros s Hs Hg.
  assert (Forall (fun c => kept (db s) (child_node c)) cs) as Hks.
  { eapply Forall_impl; [exact Hk|]. intros c ?. eapply kept_keeps; [apply Hg|done]. }
  case_bool_decide as Hb.
  - destruct Hb as [l Hl]. apply (ok_trees s Hs) in Hl. pose proof Hl as Eh.
    apply try_find_hash in Eh; [|by apply db_ok]. apply compute_hash_inj in Eh. injection Eh as <-.
    apply builds_ret. intros s' Hs' Hg'. split; [done|].
    eapply kept_keeps; [apply Hg'|]. by apply kept_built.
  - apply builds_put. intros s1 Hs1 Hg1.
    assert (Forall (fun c => kept (db s1) (child_node c)) cs) as Hks1.
    { eapply Forall_impl; [exact Hks|]. intros c ?. eapply kept_keeps; [apply Hg1|done]. }
    destruct (put_tree s1 (child_entry_of <$> sort_children cs)) as (Hs2 & Hg2 & Hf2); [done| |].
    { intros e (c & -> & Hin)%list_elem_of_fmap Ht. rewrite sort_children_perm in Hin.
      rewrite Forall_forall in Hks1, Hc. specialize (Hks1 c Hin). destruct (Hc c Hin) as (_ & Hm & _).
      unfold child_entry_of in *. cbn in *. rewrite Hm, marker_mode_tree in Ht.
      destruct (child_node c) as [|cs']; [done|]. eexists. by apply kept_find. }
    split; [done|]. split; [done|]. apply builds_ret. intros s3 Hs3 Hg3. split; [done|].
    eapply kept_keeps; [apply Hg3|]. apply kept_built; [done| |done].
    eapply Forall_impl; [exact Hks1|]. intros c ?. eapply kept_keeps; [apply Hg2|done].
Qed.

(** * Levels of an index *)

(** An address is that of the tree with a set of paths, which can be read. *)
Definition shows (R : list string -> Prop) (v : oid) (s : run) : Prop :=
  exists i, v = node_oid i /\ marks i /\ (forall p, has i p = true <-> R p) /\ kept (db s) i.

(** An entry is that of such a tree, or of the leaf, under a name. *)
Definition entry_shows (name : string) (R : list string -> Prop) (e : entry) (s : run) : Prop :=
  exists i, e = Entry (marker_mode i) name (node_oid i) /\ marks i /\
    (forall p, has i p = true <-> R p) /\ kept (db s) i.

Lemma lasting_shows R : lasting (shows R).
Proof. intros v s s' Hg (i & ? & ? & ? & ?). exists i. repeat (split; [done|]). by eapply kept_keeps; [apply Hg|]. Qed.

Lemma lasting_entry_shows name R : lasting (entry_shows name R).
Proof. intros v s s' Hg (i & ? & ? & ? & ?). exists i. repeat (split; [done|]). by eapply kept_keeps; [apply Hg|]. Qed.

Lemma shows_ext (R R' : list string -> Prop) v s :
  (forall p, R p <-> R' p) -> shows R v s -> shows R' v s.
Proof.
  intros He (i & ? & ? & Hi & ?). exists i. repeat (split; [done|]). split; [|done].
  intros p. by rewrite Hi.
Qed.

Lemma shows_tree_entry name R v s : ~ R [] -> shows R v s -> entry_shows name R (tree_entry name v) s.
Proof.
  intros Hn (i & -> & Hm & Hi & Hk). exists i. split; [|done]. unfold tree_entry, marker_mode.
  rewrite <- Hi, has_root in Hn. by destruct (is_node i).
Qed.

(** The paths under the names of a list. *)
Definition under {A} (name : A -> string) (R : A -> list string -> Prop) (l : list A)
    (p : list string) : Prop :=
  exists x q, (x ∈ l) /\ p = name x :: q /\ R x q.

Lemma write_level_builds {A} s0 (name : A -> string) (R : A -> list string -> Prop) l es :
  NoDup (name <$> l) ->
  (forall x, x ∈ l -> valid_name (name x) = true /\ exists p, R x p) ->
  Forall2 (fun x e => entry_shows (name x) (R x) e s0) l es ->
  builds s0 (write_tree es) (shows (under name R l)).
Proof.
  intros Hn Hl He.
  assert (exists cs, es = child_entry_of <$> cs /\ Forall mark_child cs /\
    Forall (fun c => kept (db s0) (child_node c)) cs /\
    Forall2 (fun x c => child_name c = name x /\ forall p, has (child_node c) p = true <-> R x p) l cs)
    as (cs & -> & Hc & Hk & Hf2).
  { clear Hn. induction He as [|x e l es Hx _ IH]; [by exists []|].
    destruct IH as (cs & -> & Hc & Hk & Hf2); [intros y Hy; apply Hl; by right|].
    destruct Hx as (i & -> & Hm & Hi & Hki). destruct (Hl x) as [Hv [p Hp]]; [left|].
    exists ((marker_mode i, name x, i) :: cs). split; [done|].
    split; [|split; [by constructor|by constructor]]. constructor; [|done].
    split; [done|]. split; [done|]. split; [done|]. unfold child_node. cbn. intros ->. apply Hi in Hp. by destruct p. }
  assert (names cs = name <$> l) as En.
  { clear -Hf2. induction Hf2 as [|x c l cs [Hx _] _ IH]; [done|]. rewrite !fmap_cons, IH. by f_equal. }
  assert (NoDup (names cs)) as Hnd by (by rewrite En).
  eapply builds_impl; [by apply write_tree_builds|]. intros v s Hs Hg [-> Hkb].
  exists (built cs). split; [done|]. split; [by apply marks_built|]. split; [|done].
  intros [|a p]; [split; [done|by intros (? & ? & _ & ? & _)]|]. rewrite has_built by done. split.
  - destruct (nfind a cs) as [c|] eqn:Ef; [|done]. apply nfind_Some in Ef as [Hin <-]. intros Hp.
    apply list_elem_of_lookup in Hin as [k Hk']. destruct (Forall2_lookup_r _ _ _ _ _ Hf2 Hk') as (x & Hx & Ex & Hh).
    exists x, p. split; [by eapply list_elem_of_lookup_2|]. split; [by rewrite Ex|by apply Hh].
  - intros (x & q & Hx & [= -> ->] & Hr). apply list_elem_of_lookup in Hx as [k Hx].
    destruct (Forall2_lookup_l _ _ _ _ _ Hf2 Hx) as (c & Hk' & Ex & Hh).
    apply list_elem_of_lookup_2 in Hk'. rewrite <- Ex, nfind_elem by done. by apply Hh.
Qed.

(** One level of an index: the entries for a list, and the tree of them. *)
Lemma level_builds {A} s0 (f : A -> im entry) (name : A -> string) (R : A -> list string -> Prop) l :
  NoDup (name <$> l) ->
  (forall x, x ∈ l -> valid_name (name x) = true /\ exists p, R x p) ->
  (forall x s, x ∈ l -> ok s -> grows s0 s -> builds s (f x) (entry_shows (name x) (R x))) ->
  builds s0 (mapM f l ≫= write_tree) (shows (under name R l)).
Proof.
  intros Hn Hl Hf. eapply builds_bind.
  - apply (builds_mapM s0 f (fun x => entry_shows (name x) (R x)));
      [intros x; apply lasting_entry_shows|exact Hf].
  - intros es s Hs Hg He. by apply write_level_builds.
Qed.

(** The entry of a level that is built below. *)
Lemma sublevel_builds s0 (m : im oid) name R :
  ~ R [] -> builds s0 m (shows R) ->
  builds s0 (m ≫= fun id => mret (tree_entry name id)) (entry_shows name R).
Proof.
  intros Hn Hm. eapply builds_bind; [exact Hm|]. intros v s Hs Hg Hv. apply builds_ret.
  intros s' _ Hg'. apply shows_tree_entry; [done|]. by eapply lasting_shows.
Qed.

(** A level with the entry above it. *)
Lemma inner_level_builds {A} s0 (f : A -> im entry) (name : A -> string) (R : A -> list string -> Prop) l s :
  NoDup (name <$> l) ->
  (forall x, x ∈ l -> valid_name (name x) = true /\ exists p, R x p) ->
  (forall x s, x ∈ l -> ok s -> grows s0 s -> builds s (f x) (entry_shows (name x) (R x))) ->
  builds s0 (es ← mapM f l; id ← write_tree es; mret (tree_entry s id)) (entry_shows s (under name R l)).
Proof.
  intros Hn Hl Hf. eapply builds_agree; [apply bind_assoc_agree|]. apply sublevel_builds.
  - by intros (? & ? & _ & ? & _).
  - by apply level_builds.
Qed.

(** The paths of an index. *)
Definition index_paths (S : trigram -> list string -> Prop) (p : list string) : Prop :=
  exists t q, p = spine t ++ q /\ S t q.

Lemma shows_holds S v s : shows (index_paths S) v s <-> holds_index (db s) v S.
Proof.
  split.
  - intros (i & -> & Hm & Hi & Hk). exists i. split; [done|]. split; [|done]. split; [done|].
    split; [|exact Hi]. destruct i as [id|cs]; [|done].
    destruct (proj1 (Hi [])) as (t & q & E & _); done.
  - intros (i & -> & (Hm & _ & Hi) & Hk). by exists i.
Qed.

(** * Files *)

Lemma under_not_root {A} (name : A -> string) R l : ~ under name R l [].
Proof. by intros (? & ? & _ & ? & _). Qed.

Lemma nodup_hex {A} (l : list (ascii * A)) : ascii_sorted l -> NoDup ((fun x => hex_name x.1) <$> l).
Proof.
  intros Hs. change (NoDup ((hex_name ∘ fst) <$> l)). rewrite list_fmap_compose.
  apply NoDup_fmap_2; [apply _|]. apply (ord_sorted_nodup Ascii.compare); [|done]. intros a. by apply cmp_eq.
Qed.

(** The tree that [content_spine] builds from the nested map. *)
Definition spine_paths (R : list string -> Prop) (l : list (ascii * list (ascii * list ascii))) :
    list string -> Prop :=
  under (fun x => hex_name x.1) (fun x =>
    under (fun y => hex_name y.1) (fun y => under hex_name (fun _ => R) y.2) x.2) l.

Lemma spine_paths_iff R l p :
  NoDup l ->
  spine_paths R (spine_map l) p <-> exists t q, p = spine t ++ q /\ (t ∈ l) /\ R q.
Proof.
  intros Hn. destruct (spine_map_spec l Hn) as (_ & Hv & Hk). split.
  - intros ([b1 v] & ? & Hx & -> & [b2 w] & ? & Hy & -> & b3 & q & Hz & -> & HR).
    exists (b1, b2, b3), q. split; [done|]. split; [|done].
    destruct (Hv _ _ Hx) as [(_ & Hw & _) _]. destruct (Hw _ _ Hy) as [[_ Ht] _]. by apply Ht.
  - intros ([[b1 b2] b3] & q & -> & Ht & HR).
    destruct (proj1 (list_elem_of_fmap _ _ _) (Hk _ Ht)) as ([b1' v] & E & Hx). cbn in E. subst b1'.
    destruct (Hv _ _ Hx) as [(_ & Hw & Hs) _].
    destruct (proj1 (list_elem_of_fmap _ _ _) (Hs _ _ Ht)) as ([b2' w] & E & Hy). cbn in E. subst b2'.
    destruct (Hw _ _ Hy) as [[_ Hz] _].
    exists (b1, v), (hex_name b2 :: hex_name b3 :: q). split; [done|]. split; [done|].
    exists (b2, w), (hex_name b3 :: q). split; [done|]. split; [done|].
    exists b3, q. split; [by apply Hz|done].
Qed.

Lemma content_spine_builds s0 content leaf :
  marks leaf -> leaf ≠ nempty -> kept (db s0) leaf ->
  builds s0 (content_spine content (marker_mode leaf) (node_oid leaf))
    (shows (index_paths (fun t q => (t ∈ distinct_trigrams content) /\ has leaf q = true))).
Proof.
  intros Hm Hne Hk. destruct (has_some leaf Hm Hne) as [p0 Hp0].
  set (R := fun q => has leaf q = true). pose proof (distinct_trigrams_nodup content) as Hn.
  destruct (spine_map_spec _ Hn) as (Hs & Hv & _).
  eapply (builds_impl _ _ (shows (spine_paths R (spine_map (distinct_trigrams content))))).
  2:{ intros v s _ _. apply shows_ext. intros p. rewrite spine_paths_iff by done. done. }
  unfold content_spine. destruct (spine_map (distinct_trigrams content)) as [|x m] eqn:Em.
  { apply builds_ret. intros s Hok _. exists nempty. split; [done|]. split; [apply marks_nempty|].
    split; [|by apply kept_nempty, db_ok]. intros p. split; [by destruct p|].
    by intros (? & ? & ?%not_elem_of_nil & _). }
  rewrite <- Em in *. clear x m Em. set (m := spine_map _) in *. clearbody m.
  apply level_builds.
  - by apply nodup_hex.
  - intros [b1 l2s] Hx. split; [apply hex_name_valid|]. destruct (Hv _ _ Hx) as [(_ & Hw & _) Hv0].
    destruct l2s as [|[b2 w] l2s]; [done|]. destruct (Hw b2 w) as [_ Hw0]; [left|].
    destruct w as [|b3 w]; [done|]. exists (hex_name b2 :: hex_name b3 :: p0).
    eexists (b2, _), _. split; [left|]. split; [done|]. exists b3, p0. split; [left|done].
  - intros [b1 l2s] s Hx Hok Hg. destruct (Hv _ _ Hx) as [(Hs2 & Hw & _) _].
    apply inner_level_builds; [by apply nodup_hex|..].
    + intros [b2 w] Hy. split; [apply hex_name_valid|]. destruct (Hw _ _ Hy) as [_ Hw0].
      destruct w as [|b3 w]; [done|]. exists (hex_name b3 :: p0), b3, p0. split; [left|done].
    + intros [b2 w] s1 Hy Hok1 Hg1. apply sublevel_builds; [apply under_not_root|].
      destruct (Hw _ _ Hy) as [[Hnw _] _]. apply write_level_builds.
      * by apply NoDup_fmap_2; [apply _|].
      * intros b3 _. split; [apply hex_name_valid|]. by exists p0.
      * apply Forall2_fmap_r, Forall_Forall2_diag, Forall_forall. intros b3 _.
        exists leaf. split; [done|]. split; [done|]. split; [done|].
        eapply kept_keeps; [apply (grows_trans _ _ _ Hg Hg1)|done].
Qed.

Lemma lasting_holds S : lasting (fun v s => holds_index (db s) v S).
Proof. intros v s s' Hg. apply holds_index_keeps, Hg. Qed.

Lemma memos_insert_blob o i data name v :
  memos_ok o i -> holds_index o v (recorded_file name data) ->
  memos_ok o (insert_blob_memo (compute_hash (OBlob data), name) v i).
Proof.
  intros [] Hv. split; try done. intros data' name' v'. cbn. rewrite lookup_insert_Some.
  intros [[[= E <-] <-]|[_ ?]]; [|by apply memo_blob0].
  apply compute_hash_inj in E. by injection E as <-.
Qed.

Lemma memos_insert_blob_spine o i data v :
  memos_ok o i -> holds_index o v (recorded_coarse (File data)) ->
  memos_ok o (insert_blob_spine_memo (compute_hash (OBlob data)) v i).
Proof.
  intros [] Hv. split; try done. intros data' v'. cbn. rewrite lookup_insert_Some.
  intros [[E <-]|[_ ?]]; [|by apply memo_blob_spine0].
  apply compute_hash_inj in E. by injection E as <-.
Qed.

(** [index_blob] indexes a file under its name. *)
Lemma index_blob_builds s0 data name :
  valid_name name = true ->
  builds s0 (index_blob (compute_hash (OBlob data)) name (searched_text data))
    (fun v s => holds_index (db s) v (recorded_file name data)).
Proof.
  intros Hv. apply builds_gets. intros s Hs Hg.
  destruct (blob_memo (ix s) !! _) as [v|] eqn:E.
  { apply builds_ret. intros s' _ Hg'. eapply lasting_holds; [exact Hg'|]. by apply (ok_memos s Hs). }
  set (c := (blob_mode, name, Leaf empty_blob) : child).
  assert (mark_child c) as Hc by (split; [done|]; split; [done|]; split; [apply marks_leaf|done]).
  eapply builds_bind.
  { apply (write_tree_builds s [c]); [by apply Forall_singleton|apply NoDup_singleton|apply Forall_singleton; constructor]. }
  intros mirror s1 Hs1 Hg1 [-> Hk1].
  eapply builds_bind.
  { apply (content_spine_builds s1 (searched_text data) (built [c])); [|by rewrite built_empty|done].
    apply marks_built; [by apply Forall_singleton|apply NoDup_singleton]. }
  intros v s2 Hs2 Hg2 Hv2%shows_holds.
  assert (holds_index (db s2) v (recorded_file name data)) as Hi.
  { destruct Hv2 as (i & -> & Hi & Hk). exists i. split; [done|]. split; [|done].
    eapply indexes_ext; [|exact Hi]. intros t q. unfold recorded_file, has_trigram.
    destruct q as [|a q]; [split; [by intros [_ ?]|by intros [? _]]|].
    rewrite has_built by apply NoDup_singleton. cbn. case_decide as Ea; [|split; [by intros [_ ?]|]].
    - destruct q; split; [by intros [? _]; cbn in Ea; subst|by intros [_ ?]|by intros [_ ?]|by intros [? _]].
    - intros [[= -> _] _]. done. }
  apply builds_record; [done..| |apply lasting_holds]. intros s3 Hs3 Hg3.
  assert (holds_index (db s3) v (recorded_file name data)) by (by eapply lasting_holds).
  split; [|done]. apply memos_insert_blob; [by apply ok_memos|done].
Qed.

(** [blob_spine] indexes a file without a name. *)
Lemma blob_spine_builds s0 data :
  builds s0 (blob_spine (compute_hash (OBlob data)) (searched_text data))
    (fun v s => holds_index (db s) v (recorded_coarse (File data))).
Proof.
  apply builds_gets. intros s Hs Hg. destruct (blob_spine_memo (ix s) !! _) as [v|] eqn:E.
  { apply builds_ret. intros s' _ Hg'. eapply lasting_holds; [exact Hg'|]. by apply (ok_memos s Hs). }
  eapply builds_bind.
  { apply (content_spine_builds s (searched_text data) (Leaf empty_blob)); [apply marks_leaf|done|constructor]. }
  intros v s2 Hs2 Hg2 Hv2%shows_holds.
  assert (holds_index (db s2) v (recorded_coarse (File data))) as Hi.
  { destruct Hv2 as (i & -> & Hi & Hk). exists i. split; [done|]. split; [|done].
    eapply indexes_ext; [|exact Hi]. intros t q. unfold recorded_coarse, has_trigram. split.
    - intros [Ht Hq]. destruct q; [|done]. split; [done|]. exists ([], data). split; [left|done].
    - intros (-> & f & ->%list_elem_of_singleton & Ht). done. }
  apply builds_record; [done..| |apply lasting_holds]. intros s3 Hs3 Hg3.
  assert (holds_index (db s3) v (recorded_coarse (File data))) by (by eapply lasting_holds).
  split; [|done]. apply memos_insert_blob_spine; [by apply ok_memos|done].
Qed.

(** * Directories *)

Lemma read_source_builds s0 cs :
  loaded (src s0) (Dir cs) = true ->
  builds s0 (read_tree (source_oid (Dir cs))) (fun r _ => r = source_entry <$> cs).
Proof.
  intros [Hl _]%loaded_Dir. apply builds_start. intros s Hs Hg. apply read_tree_builds.
  apply db_src; [done|]. by rewrite (grows_src _ _ Hg).
Qed.

Lemma loaded_grows s s' n : grows s s' -> loaded (src s) n = true -> loaded (src s') n = true.
Proof. intros Hg. by rewrite (grows_src _ _ Hg). Qed.

Lemma memos_insert_stats o i n :
  memos_ok o i -> wf_source n = true -> is_dir n = true ->
  memos_ok o (insert_stats_memo (source_oid n) (stats n) i).
Proof.
  intros [] Hw Hd. split; try done. intros n' v Hw' Hd'. cbn. rewrite lookup_insert_Some.
  intros [[E <-]|[_ ?]]; [|by apply memo_stats0]. f_equal.
  apply source_oid_inj; [done|done|congruence| |done]. by destruct n, n'.
Qed.

Lemma subtree_stats_builds k s0 n :
  wf_source n = true -> is_dir n = true -> loaded (src s0) n = true -> depth n <= k ->
  builds s0 (subtree_stats k (source_oid n)) (fun v _ => v = stats n).
Proof.
  revert s0 n. induction k as [|k IH]; intros s0 n Hw Hd Hl Hk.
  { destruct n; cbn in Hd, Hk; [done..|lia]. }
  destruct n as [| |cs]; [done..|]. cbn [subtree_stats]. apply builds_gets. intros s Hs Hg.
  destruct (stats_memo (ix s) !! source_oid (Dir cs)) as [v|] eqn:E.
  { apply builds_ret. intros _ _ _. by apply (ok_memos s Hs). }
  eapply builds_bind; [apply read_source_builds; by eapply loaded_grows|].
  intros tree s1 Hs1 Hg1 ->.
  assert (loaded (src s1) (Dir cs) = true) as Hl1 by (eauto using loaded_grows).
  eapply builds_bind.
  { apply (builds_foldM _ _ _ (fun d acc _ => acc = foldl (fun acc c =>
      if is_submodule c.2 then acc
      else (add_u64 acc.1 (stats c.2).1, add_u64 acc.2 (stats c.2).2)) (0, 0)%Z d)); [by intros ? ? ? ? _|done|].
    intros d [fs bs] c s2 Hc Hs2 Hg2 Hacc. rewrite foldl_snoc, <- Hacc. cbn [fst snd].
    destruct (wf_source_child _ _ Hw Hc) as (_ & Et & Ec & Hwc).
    assert (loaded (src s2) c.2 = true) as Hlc by (eapply loaded_grows; [done|]; by eapply loaded_child).
    pose proof (depth_child cs c Hc) as Hdc.
    destruct c as [[m nm] n]. cbn [source_entry mode entry_oid fst snd] in *. rewrite Et, Ec.
    destruct n as [data|id|cs']; cbn [is_dir is_submodule].
    - apply builds_gets. intros s3 Hs3 Hg3. rewrite (grows_src _ _ Hg3).
      apply bool_decide_eq_true in Hlc. cbn [source_oid]. rewrite Hlc. by apply builds_ret.
    - by apply builds_ret.
    - eapply builds_bind; [apply (IH s2 (Dir cs')); [done|done|done|lia]|].
      intros [f b] s3 _ _ E3. apply builds_ret. intros _ _ _. by rewrite <- E3. }
  intros st s2 Hs2 Hg2 ->.
  change (foldl _ (0, 0)%Z cs) with (stats (Dir cs)).
  apply builds_record; [done..| |by intros ? ? ? _ ?]. intros s3 Hs3 Hg3. split; [|done].
  apply memos_insert_stats; [by apply ok_memos|done|done].
Qed.

Lemma is_small_builds k s0 n :
  wf_source n = true -> is_dir n = true -> loaded (src s0) n = true -> depth n <= k ->
  builds s0 (is_small k (source_oid n)) (fun v _ => v = small n).
Proof.
  intros. eapply builds_bind; [by apply subtree_stats_builds|]. intros v s _ _ ->. by apply builds_ret.
Qed.

(** ** Under the name of a directory *)

Definition children_of (n : node) : list child := match n with Node cs => cs | Leaf _ => [] end.

(** The three levels of an index are directories. *)
Lemma index_levels j S :
  indexes j S ->
  exists c1s, j = Node c1s /\ forall c1, c1 ∈ c1s ->
  exists c2s, child_node c1 = Node c2s /\ forall c2, c2 ∈ c2s ->
  exists c3s, child_node c2 = Node c3s.
Proof.
  intros (Hm & Hn & Hi). destruct j as [|c1s]; [done|]. exists c1s. split; [done|]. intros c1 Hc1.
  assert (marks (child_node c1)) as Hm1 by (by eapply marks_child).
  destruct (child_node c1) as [id|c2s] eqn:E1.
  { destruct (proj1 (Hi [child_name c1])) as (t & q & E & _); [|done].
    rewrite has_child, E1; [done|apply Hm|done]. }
  exists c2s. split; [done|]. intros c2 Hc2.
  destruct (child_node c2) as [id|c3s] eqn:E2; [|by exists c3s].
  destruct (proj1 (Hi [child_name c1; child_name c2])) as (t & q & E & _); [|done].
  rewrite has_child, E1, has_child, E2; [done|apply Hm1|done|apply Hm|done].
Qed.

Lemma mapM_fmap {A X B} (h : X -> A) (f : A -> im B) l : agree (mapM (f ∘ h) l) (mapM f (h <$> l)).
Proof.
  induction l as [|x l IH]; intros s; [done|]. rewrite fmap_cons. cbn [mapM].
  apply agree_bind; [apply agree_refl|]. intros b. apply agree_bind; [exact IH|]. intros r. apply agree_refl.
Qed.

(** A level that follows the children of a tree of an index. *)
Lemma children_level {s} (cs : list child) (R : child -> list string -> Prop) :
  marks (Node cs) -> (forall c, c ∈ cs -> exists p, R c p) -> kept (db s) (Node cs) ->
  NoDup (child_name <$> cs) /\
  (forall c, c ∈ cs -> valid_name (child_name c) = true /\ exists p, R c p) /\
  try_find (db s) (node_oid (Node cs)) = Some (OTree (child_entry_of <$> cs)).
Proof.
  intros Hm Hr Hk. split; [apply wf_nodup; apply Hm|]. split; [|by apply kept_find].
  intros c Hc. split; [|by apply Hr]. eapply wf_child_name; [apply Hm|done].
Qed.

(** The paths of an index under a name, level by level. *)
Definition wrapped3 (name : string) (leaf : child) (p : list string) : Prop :=
  exists q, p = name :: q /\ has (child_node leaf) q = true.
Definition wrapped2 (name : string) (c2 : child) : list string -> Prop :=
  under child_name (wrapped3 name) (children_of (child_node c2)).
Definition wrapped1 (name : string) (c1 : child) : list string -> Prop :=
  under child_name (wrapped2 name) (children_of (child_node c1)).
Definition wrapped (name : string) (j : node) : list string -> Prop :=
  under child_name (wrapped1 name) (children_of j).

Lemma wrapped_iff name j S :
  indexes j S -> forall p, wrapped name j p <-> index_paths (recorded_under name S) p.
Proof.
  intros Hj p. destruct (index_levels j S Hj) as (c1s & -> & Hl).
  assert (marks (Node c1s)) as Hm by apply Hj.
  assert (forall a b c q, has (Node c1s) (a :: b :: c :: q) = true <->
    exists c1 c2 c3, (c1 ∈ c1s) /\ (c2 ∈ children_of (child_node c1)) /\
      (c3 ∈ children_of (child_node c2)) /\ a = child_name c1 /\ b = child_name c2 /\
      c = child_name c3 /\ has (child_node c3) q = true) as Hh.
  { intros a b c q. split.
    - intros (c1 & [Hc1 <-]%nfind_Some & H1')%has_cons.
      destruct (Hl c1 Hc1) as (c2s & E1 & Hl2). rewrite E1 in H1'.
      apply has_cons in H1' as (c2 & [Hc2 <-]%nfind_Some & H2').
      destruct (Hl2 c2 Hc2) as (c3s & E2). rewrite E2 in H2'.
      apply has_cons in H2' as (c3 & [Hc3 <-]%nfind_Some & H3').
      exists c1, c2, c3. by rewrite E1, E2.
    - intros (c1 & c2 & c3 & Hc1 & Hc2 & Hc3 & -> & -> & -> & Hq).
      assert (marks (child_node c1)) as Hm1 by (by eapply marks_child).
      destruct (child_node c1) as [|c2s] eqn:E1; [by apply not_elem_of_nil in Hc2|].
      assert (marks (child_node c2)) as Hm2 by (by apply (marks_child c2s)).
      destruct (child_node c2) as [|c3s] eqn:E2; [by apply not_elem_of_nil in Hc3|].
      by rewrite has_child, E1, has_child, E2, has_child by (done || apply Hm || apply Hm1 || apply Hm2). }
  split.
  - intros (c1 & ? & Hc1 & -> & c2 & ? & Hc2 & -> & c3 & ? & Hc3 & -> & q & -> & Hq).
    assert (has (Node c1s) (child_name c1 :: child_name c2 :: child_name c3 :: q) = true) as Hp.
    { apply Hh. by exists c1, c2, c3. }
    apply Hj in Hp as (t & q' & E & Hs). exists t, (name :: q'). unfold spine in *.
    injection E as -> -> -> ->. split; [done|]. by exists q'.
  - intros (t & ? & -> & q & -> & Hs). apply (indexes_has _ _ _ _ Hj), Hh in Hs.
    destruct Hs as (c1 & c2 & c3 & Hc1 & Hc2 & Hc3 & E1 & E2 & E3 & Hq).
    unfold spine. cbn [app]. rewrite E1, E2, E3.
    exists c1, (child_name c2 :: child_name c3 :: name :: q). split; [done|]. split; [done|].
    exists c2, (child_name c3 :: name :: q). split; [done|]. split; [done|].
    exists c3, (name :: q). split; [done|]. split; [done|]. by exists q.
Qed.

(** The levels of [wrap], the computations over entries as over children. *)
Lemma wrap_level_builds s0 name (f : entry -> im entry) cs (R : child -> list string -> Prop) :
  marks (Node cs) -> (forall c, c ∈ cs -> exists p, R c p) -> kept (db s0) (Node cs) ->
  (forall c s, c ∈ cs -> ok s -> grows s0 s -> builds s (f (child_entry_of c)) (entry_shows (child_name c) (R c))) ->
  builds s0 (l ← read_tree (node_oid (Node cs)); es ← mapM f l; id ← write_tree es; mret (tree_entry name id))
    (entry_shows name (under child_name R cs)).
Proof.
  intros Hm Hr Hk Hf. destruct (children_level cs R Hm Hr Hk) as (Hn & Hl & Ht).
  eapply builds_bind; [by apply read_tree_builds|]. intros l s Hs Hg ->.
  eapply builds_agree; [apply agree_bind; [apply mapM_fmap|intros; apply agree_refl]|].
  apply inner_level_builds; [done|done|]. intros c s' Hc Hs' Hg'. apply Hf; [done|done|].
  by eapply grows_trans.
Qed.

Lemma some_path cs c : marks (Node cs) -> c ∈ cs -> exists p, has (child_node c) p = true.
Proof.
  intros Hm Hc. apply has_some; [by eapply marks_child|]. eapply wf_child_not_empty; [apply Hm|done].
Qed.

Lemma under_some cs (R : child -> list string -> Prop) :
  cs ≠ [] -> (forall c, c ∈ cs -> exists p, R c p) -> exists p, under child_name R cs p.
Proof.
  intros Hne Hr. destruct cs as [|c cs]; [done|]. destruct (Hr c) as [p Hp]; [left|].
  exists (child_name c :: p), c, p. split; [left|done].
Qed.

Lemma kept_child_grows s s' cs c :
  kept (db s) (Node cs) -> c ∈ cs -> grows s s' -> kept (db s') (child_node c).
Proof. intros Hk Hc Hg. eapply kept_keeps; [apply Hg|]. by eapply kept_child. Qed.

(** The mirror of one leaf. *)
Lemma wrap_leaf_builds s0 name cs leaf :
  valid_name name = true -> marks (Node cs) -> leaf ∈ cs -> kept (db s0) (child_node leaf) ->
  builds s0 (id ← write_tree [Entry (mode (child_entry_of leaf)) name (entry_oid (child_entry_of leaf))];
           mret (tree_entry (filename (child_entry_of leaf)) id))
    (entry_shows (child_name leaf) (wrapped3 name leaf)).
Proof.
  intros Hv Hm Hc Hk. destruct (marks_mark_child _ _ Hm Hc) as (_ & Em & Hmc & Hne).
  apply sublevel_builds; [by intros (? & ? & _)|].
  eapply builds_impl.
  - apply (write_level_builds s0 (fun _ : unit => name) (fun _ q => has (child_node leaf) q = true) [()]).
    + apply NoDup_singleton.
    + intros ? _. split; [done|]. by apply has_some.
    + repeat constructor. exists (child_node leaf). cbn. rewrite Em. by repeat (split; [done|]).
  - intros v s _ _. apply shows_ext. intros p. split.
    + intros (x & q & _ & -> & ?). by exists q.
    + intros (q & -> & ?). exists (), q. split; [left|done].
Qed.

(** The levels of an index again, with the paths of the wrapped index below. *)
Lemma wrapped_levels name j S :
  indexes j S ->
  exists c1s, j = Node c1s /\ forall c1, c1 ∈ c1s -> (exists p, wrapped1 name c1 p) /\
  exists c2s, child_node c1 = Node c2s /\ marks (Node c2s) /\ forall c2, c2 ∈ c2s ->
    (exists p, wrapped2 name c2 p) /\
  exists c3s, child_node c2 = Node c3s /\ marks (Node c3s) /\ forall c3, c3 ∈ c3s ->
    exists p, wrapped3 name c3 p.
Proof.
  intros Hj. destruct (index_levels j S Hj) as (c1s & -> & Hl). exists c1s. split; [done|].
  assert (forall cs c cs', marks (Node cs) -> c ∈ cs -> child_node c = Node cs' ->
    marks (Node cs') /\ cs' ≠ []) as Hsub.
  { intros cs c cs' Hm Hc E. destruct (marks_mark_child _ _ Hm Hc) as (_ & _ & ? & ?).
    rewrite E in *. split; [done|congruence]. }
  intros c1 Hc1. destruct (Hl c1 Hc1) as (c2s & E1 & Hl2).
  destruct (Hsub c1s c1 c2s) as [Hm1 Hn1]; [apply Hj|done|done|].
  assert (forall c2, c2 ∈ c2s -> (exists p, wrapped2 name c2 p) /\
    exists c3s, child_node c2 = Node c3s /\ marks (Node c3s) /\ forall c3, c3 ∈ c3s ->
    exists p, wrapped3 name c3 p) as H2'.
  { intros c2 Hc2. destruct (Hl2 c2 Hc2) as (c3s & E2).
    destruct (Hsub c2s c2 c3s) as [Hm2 Hn2]; [done|done|done|].
    assert (forall c3, c3 ∈ c3s -> exists p, wrapped3 name c3 p) as H3'.
    { intros c3 Hc3. destruct (some_path _ _ Hm2 Hc3) as [q Hq]. by exists (name :: q), q. }
    split; [|by exists c3s]. unfold wrapped2. rewrite E2. by apply under_some. }
  split; [|by exists c2s]. unfold wrapped1. rewrite E1. apply under_some; [done|].
  intros c2 Hc2. by apply H2'.
Qed.

Lemma memos_insert_wrap o i name j S v :
  memos_ok o i -> indexes j S -> holds_index o v (recorded_under name S) ->
  memos_ok o (insert_wrap_memo (node_oid j, name) v i).
Proof.
  intros [] Hj Hv. split; try done. intros name' j' S' v' Hj' Hn'. cbn. rewrite lookup_insert_Some.
  intros [[[= E <-] <-]|[_ ?]]; [|by eapply memo_wrap0].
  apply marks_oid_inj in E; [subst j'|apply Hj|apply Hj'].
  destruct Hv as (w & -> & Hw & Hk). exists w. split; [done|]. split; [|done].
  eapply indexes_ext; [|exact Hw]. intros t q. unfold recorded_under.
  split; intros (q' & -> & Hs); exists q'; (split; [done|]);
    [by apply (indexes_has _ _ _ _ Hj'), (indexes_has _ _ _ _ Hj)|
     by apply (indexes_has _ _ _ _ Hj), (indexes_has _ _ _ _ Hj')].
Qed.

(** [wrap] puts an index under a name. *)
Lemma wrap_builds s0 name j S :
  indexes j S -> kept (db s0) j -> valid_name name = true ->
  builds s0 (wrap name (node_oid j)) (fun v s => holds_index (db s) v (recorded_under name S)).
Proof.
  intros Hj Hk Hv. unfold wrap. case_decide as He.
  { apply marks_empty in He as ->; [|apply Hj]. apply builds_ret. intros s Hs Hg. exists nempty.
    split; [done|]. split; [|by eapply kept_keeps; [apply Hg|]]. apply indexes_empty.
    intros t q (q' & -> & Hs'). by apply (indexes_has _ _ _ _ Hj) in Hs'. }
  apply builds_gets. intros s Hs Hg. destruct (wrap_memo (ix s) !! _) as [v|] eqn:E.
  { apply builds_ret. intros s' _ Hg'. eapply lasting_holds; [exact Hg'|].
    by eapply (memo_wrap _ _ (ok_memos s Hs)). }
  destruct (wrapped_levels name j S Hj) as (c1s & -> & Hl). assert (marks (Node c1s)) as Hm by apply Hj.
  assert (kept (db s) (Node c1s)) as Hks by (eapply kept_keeps; [apply Hg|done]).
  eapply builds_bind; [apply read_tree_builds; by apply kept_find|]. intros l s1 Hs1 Hg1 ->.
  eapply builds_agree; [apply bind_assoc_agree|].
  eapply (builds_bind _ _ _ (shows (wrapped name (Node c1s)))).
  - eapply builds_agree; [apply agree_bind; [apply mapM_fmap|intros; apply agree_refl]|].
    apply (level_builds s1 _ child_name); [apply wf_nodup; apply Hm|..].
    { intros c1 Hc1. split; [eapply wf_child_name; [apply Hm|done]|]. by apply Hl. }
    intros c1 s2 Hc1 Hs2 Hg2. destruct (Hl c1 Hc1) as (_ & c2s & E1 & Hm1 & Hl2).
    assert (kept (db s2) (child_node c1)) as Hk1
      by (eapply kept_child_grows; [exact Hks|done|]; by eapply grows_trans).
    unfold compose, wrapped1. cbn [child_entry_of entry_oid filename]. rewrite E1 in *.
    apply wrap_level_builds; [done|intros c2 Hc2; by apply Hl2|done|].
    intros c2 s3 Hc2 Hs3 Hg3. destruct (Hl2 c2 Hc2) as (_ & c3s & E2 & Hm2 & Hl3).
    assert (kept (db s3) (child_node c2)) as Hk2 by (by eapply kept_child_grows).
    unfold wrapped2. cbn [child_entry_of entry_oid filename]. rewrite E2 in *.
    apply wrap_level_builds; [done|done|done|].
    intros c3 s4 Hc3 Hs4 Hg4. eapply wrap_leaf_builds; [done|exact Hm2|done|].
    by eapply kept_child_grows.
  - intros v s2 Hs2 Hg2 Hw.
    assert (holds_index (db s2) v (recorded_under name S)) as Hi.
    { apply shows_holds. eapply shows_ext; [|exact Hw]. by apply wrapped_iff. }
    apply builds_record; [done..| |apply lasting_holds]. intros s3 Hs3 Hg3.
    assert (holds_index (db s3) v (recorded_under name S)) by (by eapply lasting_holds).
    split; [|done]. eapply memos_insert_wrap; [by apply ok_memos|done|done].
Qed.

End Build.

(** * The cache of a transaction *)

Section Lawful.
Context {B : Type} `{LawfulBackend B}.

(** An index that the map or a backend has. *)
Definition known_index (c : TrigramIndexCache B) (k v : oid) : Prop :=
  is_oid k = true /\
  (index_map c !! k = Some v \/
   exists b, (b ∈ index_stack c) /\ backend_view b index_filter k (hint c) true = Some v).

Definition index_cache_ok (c : TrigramIndexCache B) : Prop :=
  stack_ok (index_stack c) /\ forall k v, known_index c k v -> is_oid v = true.

(** A stack that learned a record knows nothing else that is new. *)
Lemma learned_known m l l' h k v k' v' :
  Forall2 (learned index_filter k v) l l' -> known_index (MkIndexCache m l' h) k' v' ->
  known_index (MkIndexCache m l h) k' v' \/ (k' = k /\ v' = v).
Proof.
  intros Hl [Hk [Hm|(b' & Hb & Ev)]]; [left; split; [done|by left]|]. cbn in *.
  apply list_elem_of_lookup in Hb as [i Hi]. destruct (Forall2_lookup_r _ _ _ _ _ Hl Hi) as (b & Hb & _ & Hview).
  destruct (Hview index_filter k' h true Hk) as [E|(_ & -> & E)]; [left|right; split; [done|congruence]].
  split; [done|]. right. exists b. split; [by eapply list_elem_of_lookup_2|]. cbn. congruence.
Qed.

Lemma unchanged_known m l l' h k v :
  Forall2 unchanged l l' -> known_index (MkIndexCache m l' h) k v -> known_index (MkIndexCache m l h) k v.
Proof.
  intros Hl [Hk [Hm|(b' & Hb & Ev)]]; [split; [done|by left]|]. cbn in *. split; [done|]. right. cbn.
  apply list_elem_of_lookup in Hb as [i Hi]. destruct (Forall2_lookup_r _ _ _ _ _ Hl Hi) as (b & Hb & _ & Hview).
  exists b. split; [by eapply list_elem_of_lookup_2|]. by rewrite <- Hview.
Qed.

Lemma get_trigram_index_law o k c r c' :
  index_cache_ok c -> is_oid k = true -> get_trigram_index o k c = (r, c') ->
  index_cache_ok c' /\ (forall v, r = Some v -> known_index c k v) /\
  (forall k' v', known_index c' k' v' -> known_index c k' v').
Proof.
  intros [Hs Hv] Hk. unfold get_trigram_index. destruct (index_map c !! k) as [w|] eqn:Em.
  { intros [= <- <-]. split; [done|]. split; [intros v [= <-]; split; [done|by left]|done]. }
  destruct c as [m l h]. cbn in *.
  assert (forall v, stack_view l index_filter k h true = Some v -> known_index (MkIndexCache m l h) k v) as Hknown.
  { intros v (b & Hb & Ev)%stack_view_elem. split; [done|]. right. by exists b. }
  destruct (read_propagate_view index_filter k h true l) as (l' & -> & Hl); [done|done|intros v ?; by eapply Hv, Hknown|].
  intros [= <- <-]. assert (stack_ok l' /\ forall k' v', known_index (MkIndexCache m l' h) k' v' ->
    known_index (MkIndexCache m l h) k' v') as [Hs' Hsub].
  { destruct (stack_view l index_filter k h true) as [v|].
    - split; [by eapply learned_all_ok|]. intros k' v' Hk'.
      destruct (learned_known _ _ _ _ _ _ _ _ Hl Hk') as [?|[-> ->]]; [done|by apply Hknown].
    - split; [eapply learned_all_ok, (unchanged_learned index_filter k k _ _ Hl)|]. intros k' v'. by apply unchanged_known. }
  split; [split; [done|]; intros k' v' Hk'; by eapply Hv, Hsub|]. split; [|done].
  intros v. destruct (stack_view l index_filter k h true) as [w|]; [|done].
  destruct (odb_contains o w); [|done]. intros [= <-]. by apply Hknown.
Qed.

Lemma insert_trigram_index_law k v c :
  index_cache_ok c -> is_oid k = true -> is_oid v = true ->
  index_cache_ok (insert_trigram_index k v c) /\
  forall k' v', known_index (insert_trigram_index k v c) k' v' -> known_index c k' v' \/ (k' = k /\ v' = v).
Proof.
  destruct c as [m l h]. intros [Hs Hv] Hk Hvo. unfold insert_trigram_index. cbn in *.
  destruct (write_all_learned index_filter k v h true l) as (l' & -> & Hl); [done..|]. cbn [snd].
  set (m' := match m !! k with Some _ => m | None => _ end).
  assert (forall k' v', known_index (MkIndexCache m' l' h) k' v' ->
    known_index (MkIndexCache m l h) k' v' \/ (k' = k /\ v' = v)) as Hsub.
  { intros k' v' [Hk' [Hm|Hb]]; cbn in *.
    - unfold m' in Hm. destruct (m !! k) eqn:E; [left; split; [done|by left]|].
      destruct (decide (k' = k)) as [->|]; [rewrite lookup_insert_eq in Hm; injection Hm as <-; by right|].
      rewrite lookup_insert_ne in Hm by done. left. split; [done|by left].
    - apply (learned_known m l l' h); [done|]. split; [done|by right]. }
  split; [|done]. split; [by eapply learned_all_ok|]. cbn. intros k' v' Hk'.
  destruct (Hsub k' v' Hk') as [?|[_ ->]]; [by eapply Hv|done].
Qed.

(** The cache of a transaction keeps what an indexing run asks for. *)
#[export] Instance trigram_index_lawful : LawfulIndexCache (TrigramIndexCache B) := {|
  cache_ok := index_cache_ok;
  key_ok k := is_oid k = true;
  knows := known_index;
  get_index_law := get_trigram_index_law;
  set_index_law := insert_trigram_index_law;
|}.

End Lawful.
