(* ===== verification/SearchRun.v ===== *)
(** The indexes of directories: [overlay_many] returns the tree with the paths of all its inputs,
    and [coarse_index] and [index_tree_oid] return the indexes of SearchSpec.

    A call of [trigram_index]: the index of a directory, and the flush that stores it.  The index that
    is returned can be read from the object database alone, and the caches know only such indexes. *)

From S2P Require Import Utf8 Path Objects Store Node NodeFacts Refine SearchIndex SearchTrees SearchSpec SearchBuild Prelude Ops.

Open Scope nat_scope.

Section Dirs.
Context `{ObjectHash} `{ObjectBytes} {C : Type} `{LawfulIndexCache C}.

Abbreviation run := (Run C).
Abbreviation im := (M run).

(** * The inputs of an overlay *)

Lemma elem_of_overlay_key ids id : id ∈ overlay_key ids <-> (id ∈ ids) /\ id ≠ empty_id.
Proof.
  unfold overlay_key. rewrite elem_of_vec_dedup. unfold sort_oids.
  fold (sort_by String.compare (List.filter (fun id => negb (bool_decide (id = empty_id))) ids)).
  rewrite sort_by_perm, !list_elem_of_In, filter_In, negb_true_iff, bool_decide_eq_false. done.
Qed.

Lemma overlay_key_nodup ids : NoDup (overlay_key ids).
Proof. apply (dedup_nodup String.compare), (sort_by_sorted String.compare). Qed.

(** The inputs that count, as trees. *)
Lemma overlay_key_nodes ns :
  Forall marks ns ->
  exists ms, overlay_key (node_oid <$> ns) = node_oid <$> ms /\ NoDup ms /\
    forall m, m ∈ ms <-> (m ∈ ns) /\ m ≠ nempty.
Proof.
  intros Hm. rewrite Forall_forall in Hm.
  assert (forall ids, (forall id, id ∈ ids -> exists n, (n ∈ ns) /\ id = node_oid n) ->
    exists ms, ids = node_oid <$> ms /\ Forall (fun m => m ∈ ns) ms) as Hids.
  { clear. induction ids as [|id ids IH]; intros Hid; [by exists []|].
    destruct IH as (ms & -> & Hms); [intros i Hi; apply Hid; by right|].
    destruct (Hid id) as (n & Hn & ->); [left|]. exists (n :: ms). split; [done|by constructor]. }
  destruct (Hids (overlay_key (node_oid <$> ns))) as (ms & E & Hms).
  { intros id [(n & -> & Hn)%list_elem_of_fmap _]%elem_of_overlay_key. by exists n. }
  exists ms. split; [done|]. rewrite Forall_forall in Hms. split.
  - pose proof (overlay_key_nodup (node_oid <$> ns)) as Hnd. rewrite E in Hnd. by apply NoDup_fmap_1 in Hnd.
  - assert (forall m, m ∈ ms <-> node_oid m ∈ overlay_key (node_oid <$> ns) /\ m ∈ ns) as Hin.
    { intros m. rewrite E. split.
      - intros Hi. split; [|by apply Hms]. by apply list_elem_of_fmap_2.
      - intros [(m' & Em & Hi)%list_elem_of_fmap Hn]. apply marks_oid_inj in Em; [by subst|by apply Hm|].
        by apply Hm, Hms. }
    intros m. rewrite Hin, elem_of_overlay_key. split.
    + intros [[_ He] Hn]. split; [done|]. by rewrite <- marks_empty by (by apply Hm).
    + intros [Hn He]. split; [|done]. split; [by apply list_elem_of_fmap_2|].
      by rewrite marks_empty by (by apply Hm).
Qed.

(** ** Compatible trees *)

Lemma compatible_subset ns ms :
  (forall m, m ∈ ms -> m ∈ ns) -> compatible ns -> compatible ms.
Proof. intros Hs Hc a b p q Ha Hb. apply Hc; by apply Hs. Qed.

(** Two different trees, or more, are directories. *)
Lemma compatible_nodes m1 m2 ms :
  Forall marks (m1 :: m2 :: ms) -> compatible (m1 :: m2 :: ms) -> NoDup (m1 :: m2 :: ms) ->
  (forall m, m ∈ m1 :: m2 :: ms -> m ≠ nempty) ->
  forall m, m ∈ m1 :: m2 :: ms -> exists cs, m = Node cs.
Proof.
  intros Hm Hc Hn He m Hin. destruct m as [id|cs]; [|by exists cs]. exfalso. rewrite Forall_forall in Hm.
  assert (forall b, b ∈ m1 :: m2 :: ms -> b = Leaf id) as Hall.
  { intros b Hb. destruct (has_some b) as [q Hq]; [by apply Hm|by apply He|].
    assert (q = []) as -> by (by apply (Hc (Leaf id) b [] q)).
    rewrite has_root in Hq. destruct b as [id'|]; [|done]. apply Hm in Hin as [_ Hi], Hb as [_ Hi'].
    cbn in Hi, Hi'. apply bool_decide_eq_true in Hi, Hi'. by subst. }
  apply NoDup_cons in Hn as [Hn _]. apply Hn. rewrite (Hall m1), (Hall m2); [left|set_solver..].
Qed.

(** Children of one name are all directories, or all the leaf. *)
Lemma compatible_children ms s :
  Forall marks ms -> compatible ms -> forall a b ca cb c d,
  a ∈ ms -> b ∈ ms -> a = Node ca -> b = Node cb -> c ∈ ca -> d ∈ cb ->
  child_name c = s -> child_name d = s ->
  child_mode c = child_mode d /\ is_node (child_node c) = is_node (child_node d) /\
  (is_node (child_node c) = false -> child_node c = child_node d).
Proof.
  intros Hm Hc a b ca cb c d Ha Hb -> -> Hca Hdb Es Es'. rewrite Forall_forall in Hm.
  pose proof (Hm _ Ha) as Hma. pose proof (Hm _ Hb) as Hmb.
  destruct (marks_mark_child _ _ Hma Hca) as (_ & Em & Hmc & Hec).
  destruct (marks_mark_child _ _ Hmb Hdb) as (_ & Em' & Hmd & Hed).
  assert (forall ca cb c d, Node ca ∈ ms -> Node cb ∈ ms -> c ∈ ca -> d ∈ cb ->
    child_name c = child_name d -> is_node (child_node c) = false -> is_node (child_node d) = false) as Hk.
  { clear - Hm Hc. intros ca cb c d Ha Hb Hca Hdb E Hl.
    destruct (has_some (child_node d)) as [q Hq];
      [eapply marks_child; [by apply Hm|done]|eapply wf_child_not_empty; [by apply Hm|done]|].
    assert (q = []) as ->.
    { apply (Hc _ _ [child_name c] q Ha Hb); [|cbn [app]; rewrite E];
        (rewrite has_child; [|by apply Hm|done]); [by rewrite has_root, Hl|done]. }
    rewrite has_root in Hq. by destruct (is_node (child_node d)). }
  assert (is_node (child_node c) = is_node (child_node d)) as Ek.
  { destruct (is_node (child_node c)) eqn:E1, (is_node (child_node d)) eqn:E2; try done.
    - rewrite (Hk cb ca d c) in E1; congruence || done.
    - rewrite (Hk ca cb c d) in E2; congruence || done. }
  split; [|split; [done|]].
  - rewrite Em, Em'. unfold marker_mode. by rewrite Ek.
  - intros El. rewrite El in Ek. destruct (child_node c) as [i|], (child_node d) as [i'|]; try done.
    destruct Hmc as [_ Hi], Hmd as [_ Hi']. cbn in Hi, Hi'. apply bool_decide_eq_true in Hi, Hi'. by subst.
Qed.

(** * Groups *)

Abbreviation groups := (list (string * (entry_mode * list oid))).

(** The children of a name. *)
Definition of_name (s : string) (l : list child) : list child := base.filter (fun c => child_name c = s) l.

(** A group for each name of a list, in the order of the list. *)
Definition grouped (l : list child) (g : groups) : Prop :=
  ord_sorted String.compare g /\
  forall s, btree_get s g =
    match of_name s l with
    | [] => None
    | c :: _ => Some (child_mode c, (fun c => node_oid (child_node c)) <$> of_name s l)
    end.

(** Children of one name do not conflict. *)
Definition consistent (l : list child) : Prop :=
  forall c d, c ∈ l -> d ∈ l -> child_name c = child_name d ->
  child_mode c = child_mode d /\ is_tree (child_mode c) = is_node (child_node c) /\
  (is_node (child_node c) = false -> child_node c = child_node d).

Lemma of_name_snoc s l c : of_name s (l ++ [c]) = of_name s l ++ (if decide (child_name c = s) then [c] else []).
Proof. unfold of_name. rewrite filter_app. cbn. by case_decide. Qed.

Lemma elem_of_of_name s l c : c ∈ of_name s l <-> (c ∈ l) /\ child_name c = s.
Proof. unfold of_name. rewrite list_elem_of_filter. tauto. Qed.

Lemma grouped_insert l g c v :
  grouped l g ->
  match of_name (child_name c) (l ++ [c]) with
  | [] => False
  | d :: _ => v = (child_mode d, (fun c => node_oid (child_node c)) <$> of_name (child_name c) (l ++ [c]))
  end ->
  grouped (l ++ [c]) (btree_insert (child_name c) v g).
Proof.
  intros [Hs Hg] Hv. split; [rewrite btree_insert_ord; by apply (ord_insert_sorted_any String.compare)|].
  intros s. rewrite btree_get_insert. case_decide as E.
  - subst s. destruct (of_name (child_name c) (l ++ [c])); [done|by rewrite Hv].
  - rewrite Hg, of_name_snoc, decide_False by congruence. by rewrite app_nil_r.
Qed.

Lemma add_to_group_builds s0 l g c rest :
  consistent (l ++ c :: rest) -> grouped l g ->
  builds s0 (add_to_group g (child_entry_of c)) (fun g' _ => grouped (l ++ [c]) g').
Proof.
  intros Hc Hg. unfold add_to_group. cbn [child_entry_of filename mode entry_oid].
  rewrite (proj2 Hg). pose proof (grouped_insert l g c) as Hi.
  rewrite of_name_snoc, decide_True in Hi by done.
  destruct (of_name (child_name c) l) as [|d ds] eqn:En.
  { apply builds_ret. intros _ _ _. by apply Hi. }
  assert ((d ∈ l) /\ child_name d = child_name c) as [Hd Ed] by (apply elem_of_of_name; rewrite En; left).
  destruct (Hc d c) as (Em & Ek & El); [set_solver|set_solver|done|].
  assert (is_tree (child_mode d) && is_tree (child_mode c)
    || bool_decide (child_mode d = child_mode c) &&
       bool_decide (head ((fun c => node_oid (child_node c)) <$> d :: ds) = Some (node_oid (child_node c)))
    = true) as ->.
  { rewrite <- Em, Ek, bool_decide_true by done. destruct (is_node (child_node d)); [done|].
    rewrite bool_decide_true; [done|]. cbn. by rewrite El. }
  apply builds_ret. intros _ _ _. apply Hi; [done|]. by rewrite fmap_app.
Qed.

(** The loop over the entries of one input. *)
Lemma group_entries_builds s0 l a t g :
  consistent (a ++ l ++ t) -> grouped a g ->
  builds s0 (foldM add_to_group g (child_entry_of <$> l)) (fun g' _ => grouped (a ++ l) g').
Proof.
  revert s0 a g. induction l as [|c l IH]; intros s0 a g Hc Hg.
  { rewrite app_nil_r. by apply builds_ret. }
  rewrite fmap_cons. cbn [foldM]. eapply builds_bind; [by apply (add_to_group_builds _ a g c (l ++ t))|].
  intros g' s1 _ _ Hg'. replace (a ++ c :: l) with ((a ++ [c]) ++ l) by (by rewrite <- app_assoc).
  apply IH; [|done]. by rewrite <- app_assoc.
Qed.

(** The loop over all inputs. *)
Lemma groups_builds s0 ms :
  consistent (ms ≫= children_of) ->
  builds s0 (foldM (foldM add_to_group) [] ((fun m => child_entry_of <$> children_of m) <$> ms))
    (fun g _ => grouped (ms ≫= children_of) g).
Proof.
  intros Hc. eapply builds_impl.
  - apply (builds_foldM s0 _ _ (fun (d : list node) g _ =>
      (forall m, m ∈ d -> m ∈ ms) /\ grouped (d ≫= children_of) g)).
    + by intros ? ? ? ? _.
    + split; [by intros ? ?%not_elem_of_nil|]. split; [constructor|done].
    + intros d g m s Hm Hs Hg [Hd Hgd]. rewrite bind_app, bind_singleton.
      assert (forall x, x ∈ d ++ [m] -> x ∈ ms) as Hsub by set_solver.
      eapply builds_impl; [apply (group_entries_builds s (children_of m) (d ≫= children_of) [] g); [|done]|done].
      rewrite app_nil_r. intros c e Hc1 Hc2. rewrite <- (bind_singleton children_of m), <- bind_app in Hc1, Hc2.
      apply list_elem_of_bind in Hc1 as (x & ? & ?), Hc2 as (y & ? & ?).
      apply Hc; apply list_elem_of_bind; [exists x|exists y]; auto.
  - by intros g s _ _ [_ Hg].
Qed.

Lemma btree_get_elem {V} k (v : V) m : NoDup (m.*1) -> (k, v) ∈ m -> btree_get k m = Some v.
Proof.
  induction m as [|[k' v'] m IH]; [by intros _ ?%not_elem_of_nil|]. cbn.
  intros [Hk Hn]%NoDup_cons [[= -> ->]|Hin]%elem_of_cons; [by rewrite decide_True|].
  rewrite decide_False; [by apply IH|]. intros ->. apply Hk, list_elem_of_fmap. by exists (k', v).
Qed.

Lemma elem_btree_get {V} k (v : V) m : btree_get k m = Some v -> (k, v) ∈ m.
Proof.
  induction m as [|[k' v'] m IH]; [done|]. cbn. case_decide; [intros [= ->]; subst; left|].
  intros ?%IH. by right.
Qed.

(** * Overlays *)

(** The paths of a list of trees. *)
Definition union_paths (ns : list node) (p : list string) : Prop :=
  exists n, (n ∈ ns) /\ has n p = true.

Lemma has_nempty p : has nempty p = false.
Proof. by destruct p. Qed.

Lemma union_paths_key ns ms p :
  (forall m, m ∈ ms <-> (m ∈ ns) /\ m ≠ nempty) -> union_paths ms p <-> union_paths ns p.
Proof.
  intros Hin. split; intros (n & Hn & Hp); exists n; (split; [|done]); [by apply Hin in Hn as [? _]|].
  apply Hin. split; [done|]. intros ->. by rewrite has_nempty in Hp.
Qed.

Lemma read_trees_builds s0 ms :
  (forall m, m ∈ ms -> exists cs, m = Node cs) -> Forall (kept (db s0)) ms ->
  builds s0 (mapM read_tree (node_oid <$> ms))
    (fun r _ => r = (fun m => child_entry_of <$> children_of m) <$> ms).
Proof.
  intros Hn Hk. eapply builds_agree; [apply mapM_fmap|]. eapply builds_impl.
  - apply (builds_mapM _ _ (fun m r _ => r = child_entry_of <$> children_of m)); [by intros ? ? ? ? _|].
    intros m s Hm Hs Hg. destruct (Hn m Hm) as [cs ->]. apply read_tree_builds.
    rewrite Forall_forall in Hk. eapply kept_find, kept_keeps; [apply Hg|by apply Hk].
  - intros r s _ _ Hr. clear -Hr. induction Hr as [|m l ms r -> _ IH]; [done|]. by rewrite fmap_cons, <- IH.
Qed.

(** The children of compatible trees do not conflict. *)
Lemma children_consistent ms :
  Forall marks ms -> compatible ms -> consistent (ms ≫= children_of).
Proof.
  intros Hm Hc c d (a & Hca & Ha)%list_elem_of_bind (b & Hdb & Hb)%list_elem_of_bind E.
  destruct a as [|ca]; [by apply not_elem_of_nil in Hca|].
  destruct b as [|cb]; [by apply not_elem_of_nil in Hdb|].
  destruct (compatible_children ms (child_name d) Hm Hc (Node ca) (Node cb) ca cb c d) as (Em & Ek & El);
    [done..|]. split; [done|]. split; [|done].
  rewrite Forall_forall in Hm. destruct (marks_mark_child ca c (Hm _ Ha) Hca) as (_ & -> & _).
  apply marker_mode_tree.
Qed.

(** A child of a compatible list of trees. *)
Lemma child_of_marks ms c :
  Forall marks ms -> c ∈ ms ≫= children_of ->
  mark_child c /\ forall o, Forall (kept o) ms -> kept o (child_node c).
Proof.
  intros Hm (a & Hca & Ha)%list_elem_of_bind. destruct a as [|ca]; [by apply not_elem_of_nil in Hca|].
  rewrite Forall_forall in Hm. split; [by eapply marks_mark_child; [apply Hm|]|].
  intros o Hk. rewrite Forall_forall in Hk. eapply kept_child; [by apply Hk|done].
Qed.

(** The children of one name are compatible. *)
Lemma of_name_compatible ms s :
  Forall marks ms -> compatible ms -> compatible (child_node <$> of_name s (ms ≫= children_of)).
Proof.
  intros Hm Hc a b p q (c & -> & Hca)%list_elem_of_fmap (d & -> & Hdb)%list_elem_of_fmap Hp Hq.
  apply elem_of_of_name in Hca as [Hca Es], Hdb as [Hdb Es'].
  apply list_elem_of_bind in Hca as (m & Hcm & Hm1), Hdb as (m' & Hdm & Hm2).
  destruct m as [|ca]; [by apply not_elem_of_nil in Hcm|].
  destruct m' as [|cb]; [by apply not_elem_of_nil in Hdm|]. rewrite Forall_forall in Hm.
  apply (Hc (Node ca) (Node cb) (s :: p) q); [done|done|..].
  - rewrite <- Es, has_child; [done|by apply Hm|done].
  - cbn [app]. rewrite <- Es', has_child; [done|by apply Hm|done].
Qed.

Lemma memos_insert_overlay o i ns j :
  memos_ok o i -> Forall marks ns -> merges j ns -> kept o j ->
  memos_ok o (insert_overlay_memo (node_oid <$> ns) (node_oid j) i).
Proof.
  intros [? ? ? ? ? Hov] Hm Hj Hk. split; try done. intros ns' v Hm' Hc'. cbn. rewrite lookup_insert_Some.
  intros [[E <-]|[_ ?]]; [|by apply Hov].
  assert (ns' = ns) as ->; [|by exists j]. clear -Hm Hm' E. revert ns' Hm' E.
  induction Hm as [|n ns Hn _ IH]; intros [|n' ns'] Hm' E; try done. rewrite !fmap_cons in E.
  injection E as E1 E2. apply Forall_cons in Hm' as [Hn' Hm'].
  f_equal; [by apply marks_oid_inj|by apply IH].
Qed.

(** The paths of a group. *)
Definition group_paths (l : list child) (x : string * (entry_mode * list oid)) : list string -> Prop :=
  union_paths (child_node <$> of_name x.1 l).

Lemma group_paths_union ms g :
  Forall marks ms -> (forall m, m ∈ ms -> exists cs, m = Node cs) -> grouped (ms ≫= children_of) g ->
  forall p, under fst (group_paths (ms ≫= children_of)) g p <-> union_paths ms p.
Proof.
  intros Hm Hnodes [_ Hg] p. set (l := ms ≫= children_of) in *. rewrite Forall_forall in Hm. split.
  - intros (x & q & Hin & -> & n & (c & -> & [Hcl Ec]%elem_of_of_name)%list_elem_of_fmap & Hq).
    apply list_elem_of_bind in Hcl as (m & Hcm & Hmm). exists m. split; [done|].
    destruct m as [|ca]; [by apply not_elem_of_nil in Hcm|].
    rewrite <- Ec, has_child; [done|by apply Hm|done].
  - intros (m & Hmm & Hp). destruct (Hnodes m Hmm) as [ca ->]. destruct p as [|a q]; [done|].
    apply has_cons in Hp as (c & [Hca <-]%nfind_Some & Hq).
    assert (c ∈ l) as Hcl by (apply list_elem_of_bind; by exists (Node ca)).
    assert (c ∈ of_name (child_name c) l) as Hcn by (by apply elem_of_of_name).
    pose proof (Hg (child_name c)) as Hgc.
    destruct (of_name (child_name c) l) as [|d ds] eqn:E; [by apply not_elem_of_nil in Hcn|].
    apply elem_btree_get in Hgc. eexists _, q. split; [exact Hgc|]. split; [done|].
    exists (child_node c). split; [|done]. cbn [fst]. rewrite E. by apply list_elem_of_fmap_2.
Qed.

(** A merged group is a directory where its members are. *)
Lemma merged_kind l c i :
  consistent l -> c ∈ l ->
  (forall p, has i p = true <-> union_paths (child_node <$> of_name (child_name c) l) p) ->
  is_node i = is_node (child_node c).
Proof.
  intros Hcons Hcl Hi. assert (has i [] = has (child_node c) []) as Hr.
  { apply Bool.eq_true_iff_eq. rewrite Hi. split.
    - intros (n & (d & -> & [Hd Ed]%elem_of_of_name)%list_elem_of_fmap & Hp). rewrite has_root in *.
      destruct (Hcons d c Hd Hcl Ed) as (_ & _ & El).
      destruct (is_node (child_node d)) eqn:En; [done|]. by rewrite <- El, En.
    - intros Hp. exists (child_node c). split; [|done]. apply list_elem_of_fmap_2. by apply elem_of_of_name. }
  rewrite !has_root in Hr. by destruct (is_node i), (is_node (child_node c)).
Qed.

Lemma group_elem l g x :
  grouped l g -> x ∈ g -> exists c, (c ∈ l) /\ child_name c = x.1 /\ of_name x.1 l ≠ [] /\
    x.2 = (child_mode c, node_oid <$> (child_node <$> of_name x.1 l)).
Proof.
  intros [Hs Hg] Hin. destruct x as [k v]. apply btree_get_elem in Hin.
  2:{ apply (ord_sorted_nodup String.compare); [|done]. intros a. by apply cmp_eq. }
  rewrite Hg in Hin. cbn [fst snd]. destruct (of_name k l) as [|c cs] eqn:E; [done|].
  injection Hin as <-. exists c. assert (c ∈ of_name k l) as Hc by (rewrite E; left).
  apply elem_of_of_name in Hc as [? ?]. repeat (split; [done|]). f_equal. by rewrite <- list_fmap_compose.
Qed.

(** The tree of the groups, when the groups are merged by [rec]. *)
Lemma merge_groups_builds (rec : list oid -> im oid) s0 ms g :
  Forall marks ms -> compatible ms -> Forall (kept (db s0)) ms -> grouped (ms ≫= children_of) g ->
  (forall s ns, ok s -> grows s0 s -> ns ≠ [] ->
    (forall n, n ∈ ns -> exists c, (c ∈ ms ≫= children_of) /\ n = child_node c) ->
    Forall marks ns -> compatible ns -> Forall (kept (db s)) ns ->
    builds s (rec (node_oid <$> ns)) (shows (union_paths ns))) ->
  (forall m, m ∈ ms -> exists cs, m = Node cs) ->
  builds s0 (mapM (fun '(name, (m, oids)) => id ← rec oids; mret (Entry m name id)) g ≫= write_tree)
    (shows (union_paths ms)).
Proof.
  intros Hm Hc Hk Hg Hrec Hnodes.
  eapply (builds_impl _ _ (shows (under fst (group_paths (ms ≫= children_of)) g)));
    [|intros v s _ _; by apply shows_ext, group_paths_union].
  pose proof (children_consistent ms Hm Hc) as Hcons.
  pose proof (fun c => child_of_marks ms c Hm) as Hch. set (l := ms ≫= children_of) in *.
  apply level_builds.
  - apply (ord_sorted_nodup String.compare); [intros a; by apply cmp_eq|apply Hg].
  - intros x Hin. destruct (group_elem l g x Hg Hin) as (c & Hcl & Ec & _).
    destruct (Hch c Hcl) as [(Hv & _ & Hmc & Hne) _]. rewrite <- Ec. split; [done|].
    destruct (has_some _ Hmc Hne) as [p Hp]. exists p, (child_node c). split; [|done].
    apply list_elem_of_fmap_2. by apply elem_of_of_name.
  - intros [k [m oids]] s Hin Hok Hgr. destruct (group_elem l g _ Hg Hin) as (c & Hcl & Ec & Hne & Eo).
    cbn [fst snd] in *. injection Eo as -> ->. eapply builds_bind.
    { apply Hrec; [done|done|by intros ?%fmap_nil_inv|..|by apply of_name_compatible|].
      - intros n (d & -> & [Hd _]%elem_of_of_name)%list_elem_of_fmap. by exists d.
      - apply Forall_fmap, Forall_forall. intros d [Hd _]%elem_of_of_name. by destruct (Hch d Hd) as [(_ & _ & ? & _) _].
      - apply Forall_fmap, Forall_forall. intros d [Hd _]%elem_of_of_name. eapply (proj2 (Hch d Hd)).
        eapply Forall_impl; [exact Hk|]. intros n. apply kept_keeps, Hgr. }
    intros v s1 Hs1 Hg1 (i & -> & Hmi & Hi & Hki). apply builds_ret. intros s2 _ Hg2. exists i.
    split; [|split; [done|split; [done|by eapply kept_keeps; [apply Hg2|]]]].
    f_equal. destruct (Hch c Hcl) as [(_ & -> & _) _]. unfold marker_mode.
    by rewrite (merged_kind l c i); [|done|done|rewrite Ec].
Qed.

(** [overlay_many] returns the tree with the paths of all inputs. *)
Lemma overlay_many_builds k s0 ns :
  Forall marks ns -> compatible ns -> Forall (kept (db s0)) ns ->
  Forall (fun n => height n <= k) ns -> 0 < k ->
  builds s0 (overlay_many k (node_oid <$> ns)) (shows (union_paths ns)).
Proof.
  revert s0 ns. induction k as [|k IH]; intros s0 ns Hm Hc Hk Hh H0'; [lia|].
  destruct (overlay_key_nodes ns Hm) as (ms & E & Hnd & Hin). cbn [overlay_many]. rewrite E.
  rewrite Forall_forall in Hm, Hk, Hh.
  assert (forall m, m ∈ ms -> m ∈ ns) as Hsub by (intros m Hi; by apply Hin in Hi as [? _]).
  assert (Forall marks ms) as Hmm by (apply Forall_forall; auto).
  assert (compatible ms) as Hcm by (by eapply compatible_subset).
  eapply (builds_impl _ _ (shows (union_paths ms)));
    [|intros v s _ _; apply shows_ext; intros p; by apply union_paths_key].
  destruct ms as [|m1 [|m2 ms']].
  { apply builds_ret. intros s Hs _. exists nempty. split; [done|]. split; [apply marks_nempty|].
    split; [|by apply kept_nempty, db_ok]. intros p. rewrite has_nempty.
    split; [done|by intros (? & ?%not_elem_of_nil & _)]. }
  { apply builds_ret. intros s Hs Hg. exists m1. split; [done|]. split; [apply Hm, Hsub; left|].
    split; [|eapply kept_keeps; [apply Hg|]; apply Hk, Hsub; left]. intros p.
    split; [intros Hp; exists m1; split; [left|done]|]. intros (n & Hn & ?). apply list_elem_of_singleton in Hn. by subst. }
  assert (forall m, m ∈ m1 :: m2 :: ms' -> exists cs, m = Node cs) as Hnodes.
  { apply compatible_nodes; [done|done|done|]. intros m Hi. by apply Hin in Hi as [_ ?]. }
  set (ms := m1 :: m2 :: ms') in *.
  change (node_oid <$> ms) with (node_oid m1 :: node_oid m2 :: (node_oid <$> ms')). cbv iota beta.
  change (node_oid m1 :: node_oid m2 :: (node_oid <$> ms')) with (node_oid <$> ms). clearbody ms.
  assert (forall s, grows s0 s -> Forall (kept (db s)) ms) as Hks.
  { intros s Hg. apply Forall_forall. intros m Hi. eapply kept_keeps; [apply Hg|]. by apply Hk, Hsub. }
  apply builds_gets. intros s Hs Hg. destruct (overlay_memo (ix s) !! (node_oid <$> ms)) as [v|] eqn:Ev.
  { destruct (memo_overlay _ _ (ok_memos s Hs) ms v Hmm Hcm Ev) as (j & -> & [Hj Hp] & Hkj).
    apply builds_ret. intros s' _ Hg'. exists j. split; [done|]. split; [done|]. split; [done|].
    eapply kept_keeps; [apply Hg'|done]. }
  eapply builds_bind; [apply read_trees_builds; [done|by apply Hks]|]. intros ts s1 Hs1 Hg1 ->.
  eapply builds_bind; [by apply groups_builds, children_consistent|]. intros g s2 Hs2 Hg2 Hgr.
  eapply builds_agree; [apply bind_assoc_agree|].
  eapply (builds_bind _ _ _ (shows (union_paths ms))).
  - apply (merge_groups_builds (overlay_many k)); [done|done|apply Hks; eauto using grows_trans|done| |done].
    intros s3 ns' Hs3 Hg3 Hne Hch Hm' Hc' Hk'. apply IH; [done|done|done|..].
    + apply Forall_forall. intros n Hn. destruct (Hch n Hn) as (c & (m & Hci & Hmi)%list_elem_of_bind & ->).
      destruct (Hnodes m Hmi) as [cs ->]. pose proof (height_child cs c Hci). specialize (Hh _ (Hsub _ Hmi)). lia.
    + destruct ns' as [|n ns']; [done|]. destruct (Hch n) as (c & (m & Hci & Hmi)%list_elem_of_bind & ->); [left|].
      destruct (Hnodes m Hmi) as [cs ->]. pose proof (height_child cs c Hci). specialize (Hh _ (Hsub _ Hmi)).
      pose proof (height_pos (child_node c)). lia.
  - intros v s3 Hs3 Hg3 Hv. apply builds_record; [done..| |apply lasting_shows]. intros s4 Hs4 Hg4.
    assert (shows (union_paths ms) v s4) as (j & -> & Hj & Hp & Hkj) by (by eapply lasting_shows).
    split; [|by exists j]. apply memos_insert_overlay; [by apply ok_memos|done|done|done].
Qed.

(** * Directories *)

Lemma height_bound i b : marks i -> (forall p, has i p = true -> length p <= b) -> height i <= S b.
Proof.
  revert b. induction i as [id|cs IH] using node_ind'; intros b Hm Hb; [cbn; lia|].
  cbn [height]. apply le_n_S, list_max_le, Forall_fmap, Forall_forall. intros c Hc.
  rewrite Forall_forall in IH. destruct (some_path cs c Hm Hc) as [p Hp].
  assert (forall q, has (child_node c) q = true -> S (length q) <= b) as Hq.
  { intros q Hq. apply (Hb (child_name c :: q)). rewrite has_child; [done|apply Hm|done]. }
  pose proof (Hq p Hp). destruct b as [|b]; [lia|]. apply (IH c Hc); [by eapply marks_child|].
  intros q ?%Hq. lia.
Qed.

Lemma files_depth n f : f ∈ files n -> length f.1 <= depth n.
Proof.
  revert f. induction n as [d|id|cs IH] using source_ind'; intros f Hf.
  - by apply list_elem_of_singleton in Hf as ->.
  - by apply not_elem_of_nil in Hf.
  - apply elem_of_files_Dir in Hf as (c & g & Hc & Hg & ->). rewrite Forall_forall in IH.
    pose proof (depth_child cs c Hc). specialize (IH c Hc g Hg). cbn [fst length]. lia.
Qed.

Lemma anchor_length n p : length (anchor n p) <= length p.
Proof.
  revert n. induction p as [|s p IH]; intros n; [done|]. cbn [anchor length]. apply le_n_S.
  destruct n as [| |cs]; [cbn; lia..|]. destruct (source_find s cs) as [c|]; [|cbn; lia].
  destruct (is_dir c.2 && small c.2); [cbn; lia|apply IH].
Qed.

(** The trees of a list of children, where some have none. *)
Definition collected (rec : source_child -> trigram -> list string -> Prop) (d : list source_child)
    (acc : list oid) (s : run) : Prop :=
  exists ns, acc = node_oid <$> ns /\ Forall (kept (db s)) ns /\
    (forall i, i ∈ ns -> exists c, (c ∈ d) /\ indexes i (rec c)) /\
    (forall c, c ∈ d -> (exists i, (i ∈ ns) /\ indexes i (rec c)) \/ forall t q, ~ rec c t q).

Lemma collected_nil rec s : collected rec [] [] s.
Proof.
  exists []. split; [done|]. split; [done|]. split; by intros ? ?%not_elem_of_nil.
Qed.

Lemma lasting_collected rec d : lasting (collected rec d).
Proof.
  intros acc s s' Hg (ns & -> & Hk & ? & ?). exists ns. split; [done|]. split; [|done].
  eapply Forall_impl; [exact Hk|]. intros i. apply kept_keeps, Hg.
Qed.

Lemma collected_push rec d acc c v s :
  collected rec d acc s -> holds_index (db s) v (rec c) -> collected rec (d ++ [c]) (acc ++ [v]) s.
Proof.
  intros (ns & -> & Hk & Hi & Hc) (i & -> & Hx & Hki). exists (ns ++ [i]). split; [by rewrite fmap_app|].
  split; [apply Forall_app; split; [done|by apply Forall_singleton]|]. split.
  - intros j [Hj|Ej%list_elem_of_singleton]%elem_of_app; [|subst j; exists c; split; [set_solver|done]].
    destruct (Hi j Hj) as (e & He & ?). exists e. split; [set_solver|done].
  - intros e [He|Ee%list_elem_of_singleton]%elem_of_app; [|left; exists i; subst; split; [set_solver|done]].
    destruct (Hc e He) as [(j & Hj & ?)|?]; [|by right]. left. exists j. split; [set_solver|done].
Qed.

(** A step of a loop that appends the index of a child. *)
Lemma push_collected rec d acc c s0 (m : im oid) :
  collected rec d acc s0 -> builds s0 m (fun v s => holds_index (db s) v (rec c)) ->
  builds s0 (id ← m; mret (acc ++ [id])) (collected rec (d ++ [c])).
Proof.
  intros Hacc Hm. eapply builds_bind; [exact Hm|]. intros v s1 Hs1 Hg1 Hv. apply builds_ret.
  intros s2 _ Hg2. apply collected_push; [|by eapply lasting_holds].
  eapply lasting_collected; [|exact Hacc]. by eapply grows_trans.
Qed.

Lemma collected_skip rec d acc c s :
  collected rec d acc s -> (forall t q, ~ rec c t q) -> collected rec (d ++ [c]) acc s.
Proof.
  intros (ns & -> & Hk & Hi & Hc) Hn. exists ns. split; [done|]. split; [done|]. split.
  - intros j Hj. destruct (Hi j Hj) as (e & He & ?). exists e. split; [set_solver|done].
  - intros e [He|Ee%list_elem_of_singleton]%elem_of_app; [by apply Hc|right; by subst].
Qed.

(** The overlay of the indexes of the children. *)
Lemma overlay_collected h rec cs acc s0 :
  collected rec cs acc s0 -> 0 < h ->
  (forall c t q, c ∈ cs -> rec c t q -> 4 + length q <= h) ->
  (forall c c' t q q', c ∈ cs -> c' ∈ cs -> rec c t q -> rec c' t (q ++ q') -> q' = []) ->
  builds s0 (overlay_many h acc)
    (fun v s => holds_index (db s) v (fun t q => exists c, (c ∈ cs) /\ rec c t q)).
Proof.
  intros (ns & -> & Hk & Hi & Hc) H0' Hh Hcomp. eapply builds_impl.
  - apply overlay_many_builds; [|  |done| |done].
    + apply Forall_forall. intros i Hin. by destruct (Hi i Hin) as (c & _ & ? & _).
    + intros a b p q Ha Hb Hp Hq. destruct (Hi a Ha) as (c & Hca & Hxa). destruct (Hi b Hb) as (e & Hcb & Hxb).
      apply Hxa in Hp as (t & q1 & -> & Hr). rewrite <- app_assoc in Hq.
      apply (indexes_has _ _ _ _ Hxb) in Hq. by eapply (Hcomp c e).
    + apply Forall_forall. intros i Hin. destruct (Hi i Hin) as (c & Hcc & Hx).
      destruct h as [|h]; [lia|]. apply height_bound; [apply Hx|].
      intros p (t & q & -> & Hr)%Hx. specialize (Hh c t q Hcc Hr). rewrite length_app. cbn. lia.
  - intros v s Hs Hg Hv. apply shows_holds. eapply shows_ext; [|exact Hv]. intros p. split.
    + intros (i & Hin & Hp). destruct (Hi i Hin) as (c & Hcc & _ & _ & Hx). destruct (proj1 (Hx p) Hp) as (t & q & -> & Hr).
      exists t, q. split; [done|]. by exists c.
    + intros (t & q & -> & c & Hcc & Hr). destruct (Hc c Hcc) as [(i & Hin & Hx)|Hn]; [|by apply Hn in Hr].
      exists i. split; [done|]. by apply (indexes_has _ _ _ _ Hx).
Qed.

Lemma memos_insert_coarse o i n v :
  memos_ok o i -> wf_source n = true -> is_dir n = true -> holds_index o v (recorded_coarse n) ->
  memos_ok o (insert_coarse_memo (source_oid n) v i).
Proof.
  intros [? ? Hco ? ? ?] Hw Hd Hv. split; try done. intros n' v' Hw' Hd'. cbn. rewrite lookup_insert_Some.
  intros [[E <-]|[_ ?]]; [|by apply Hco].
  assert (n = n') as <-; [|done]. apply source_oid_inj; [done|done|congruence| |done]. by destruct n, n'.
Qed.

Lemma read_blob_loaded (s0 s : run) data :
  grows s0 s -> loaded (src s0) (File data) = true ->
  read_blob_text (src s) (compute_hash (OBlob data)) = searched_text data.
Proof.
  intros Hg Hl. apply bool_decide_eq_true in Hl. unfold read_blob_text.
  by rewrite (grows_src _ _ Hg), Hl.
Qed.

(** [coarse_index] indexes a directory as one file. *)
Lemma coarse_index_builds h k (s0 : run) n :
  wf_source n = true -> is_dir n = true -> loaded (src s0) n = true -> depth n <= k -> 4 <= h ->
  builds s0 (coarse_index h k (source_oid n)) (fun v s => holds_index (db s) v (recorded_coarse n)).
Proof.
  revert s0 n. induction k as [|k IH]; intros s0 n Hw Hd Hl Hk Hh.
  { destruct n; cbn in Hd, Hk; [done..|lia]. }
  destruct n as [| |cs]; [done..|]. cbn [coarse_index]. apply builds_gets. intros s Hs Hg.
  destruct (coarse_memo (ix s) !! source_oid (Dir cs)) as [v|] eqn:E.
  { apply builds_ret. intros s' _ Hg'. eapply lasting_holds; [exact Hg'|]. by apply (ok_memos s Hs). }
  eapply builds_bind; [apply read_source_builds; by eapply loaded_grows|].
  intros tree s1 Hs1 Hg1 ->.
  assert (loaded (src s1) (Dir cs) = true) as Hl1 by (eauto using loaded_grows).
  eapply builds_bind.
  { apply (builds_foldM s1 _ _ (collected (fun c => recorded_coarse c.2)));
      [intros d; apply lasting_collected|apply collected_nil|].
    intros d acc c s2 Hc Hs2 Hg2 Hacc.
    destruct (wf_source_child _ _ Hw Hc) as (_ & Et & Ec & Hwc).
    assert (loaded (src s2) c.2 = true) as Hlc by (eapply loaded_grows; [done|]; by eapply loaded_child).
    pose proof (depth_child cs c Hc) as Hdc.
    pose proof (fun m => push_collected (fun c => recorded_coarse c.2) d acc c s2 m Hacc) as Hpush.
    destruct c as [[m nm] n]. cbn [source_entry mode entry_oid fst snd] in *. rewrite Et, Ec.
    destruct n as [data|id|cs']; cbn [is_dir is_submodule].
    - apply builds_gets. intros s3 Hs3 Hg3. cbn [source_oid].
      rewrite (read_blob_loaded s2 s3 data) by done. eapply builds_weaken; [|exact Hg3].
      apply Hpush, blob_spine_builds.
    - apply builds_ret. intros s3 _ Hg3. apply collected_skip; [by eapply lasting_collected|].
      by intros t q (_ & f & ?%not_elem_of_nil & _).
    - apply Hpush, (IH s2 (Dir cs')); [done|done|done|lia|done]. }
  intros spines s2 Hs2 Hg2 Hsp. eapply builds_bind.
  { apply (overlay_collected h (fun c => recorded_coarse c.2) cs); [done|lia|by intros c t q _ [-> _]|].
    intros c c' t q q' _ _ [-> _] [E' _]. exact E'. }
  intros v s3 Hs3 Hg3 Hv.
  assert (holds_index (db s3) v (recorded_coarse (Dir cs))) as Hi.
  { destruct Hv as (i & -> & Hi & Hki). exists i. split; [done|]. split; [|done].
    eapply indexes_ext; [|exact Hi]. intros t q. by rewrite recorded_coarse_Dir. }
  apply builds_record; [done..| |apply lasting_holds]. intros s4 Hs4 Hg4.
  assert (holds_index (db s4) v (recorded_coarse (Dir cs))) by (by eapply lasting_holds).
  split; [|done]. apply memos_insert_coarse; [by apply ok_memos|done|done|done].
Qed.

End Dirs.

Section Runs.
Context `{ObjectHash} `{ObjectBytes} {C : Type} `{LawfulIndexCache C}.

Abbreviation run := (Run C).
Abbreviation im := (M run).

(** * The index of a directory *)

(** The addresses under which the cache keeps the indexes of a tree and of the directories in it. *)
Inductive keyed : source -> Prop :=
| keyed_file data : keyed (File data)
| keyed_submodule id : keyed (Submodule id)
| keyed_dir cs :
    key_ok (source_oid (Dir cs)) -> (forall i, indexes i (recorded (Dir cs)) -> key_ok (node_oid i)) ->
    (forall c, c ∈ cs -> keyed c.2) -> keyed (Dir cs).

Lemma keyed_all n : (forall id, key_ok id) -> keyed n.
Proof.
  intros Hk. induction n as [d|id|cs IH] using source_ind'; constructor; [done|done|].
  by rewrite Forall_forall in IH.
Qed.

(** An index that is stored, or that the flush is going to store. *)
Definition settled (n : source) (v : oid) (s : run) : Prop :=
  index_of (db s) n v /\ (index_of (src s) n v \/ (source_oid n, v) ∈ roots s).

Lemma lasting_settled n : lasting (settled n).
Proof.
  intros v s s' Hg [Hi Hr]. split; [by eapply holds_index_keeps; [apply Hg|]|].
  destruct Hr as [Hr|Hr]; [left; by rewrite (grows_src _ _ Hg)|right; by apply (grows_roots _ _ Hg)].
Qed.

Lemma dir_source_eq n n' : dir_source n (source_oid n) -> dir_source n' (source_oid n) -> n' = n.
Proof.
  intros (Hw & Hd & _) (Hw' & Hd' & E). apply source_oid_inj; [done|done|congruence| |done].
  by destruct n, n'.
Qed.

Lemma cached_index_builds {B} s0 n (k : option oid -> im B) Q :
  dir_source n (source_oid n) -> key_ok (source_oid n) ->
  (forall r s, ok s -> grows s0 s -> (forall v, r = Some v -> index_of (src s) n v) -> builds s (k r) Q) ->
  builds s0 (cached_index (source_oid n) ≫= k) Q.
Proof.
  intros Hn Hkey Hk s Hs Hg. unfold mbind, M_bind, cached_index.
  destruct (get_index (src s) (source_oid n) (index_cache s)) as [r c] eqn:E.
  destruct (get_index_law _ _ _ _ _ (ok_cache_ok s Hs) Hkey E) as (Hc & Hr & Hsub).
  set (s1 := MkRun (src s) c (ix s) (roots s)).
  assert (ok s1) as Hs1.
  { destruct Hs. split; try done. intros n' t v Hn' Hv. eapply ok_cache; [exact Hn'|]. by apply Hsub. }
  assert (grows s s1) as Hg1 by (split; [done|apply odb_keeps_refl|done]).
  destruct (Hk r s1 Hs1) with (s := s1) as (b & s2 & E2 & ? & Hg2 & ?);
    [by eapply grows_trans| |done|apply grows_refl|].
  { intros v Hv. eapply (ok_cache s Hs); [exact Hn|by apply Hr]. }
  exists b, s2. split; [done|]. eauto using grows_trans.
Qed.

(** Recording the index of a tree that is settled. *)
Lemma put_tree_memo s n v :
  ok s -> dir_source n (source_oid n) -> settled n v s ->
  ok (put (insert_tree_memo (source_oid n) v) s) /\ grows s (put (insert_tree_memo (source_oid n) v) s).
Proof.
  intros Hs Hn Hv. split; [|split; [done|apply odb_keeps_refl|done]].
  destruct Hs as [? ? ? ? Hm Ht ? ? ?]. split; try done; [by destruct Hm|].
  intros n' t v' Hn'. cbn. rewrite lookup_insert_Some. intros [[<- <-]|[_ ?]]; [|by apply Ht].
  by rewrite (dir_source_eq n n').
Qed.

(** A root and its memo entry. *)
Lemma put_root s n v :
  ok s -> dir_source n (source_oid n) -> index_of (db s) n v -> key_ok (source_oid n) -> key_ok v ->
  let s' := MkRun (src s) (index_cache s) (insert_tree_memo (source_oid n) v (ix s))
              (roots s ++ [(source_oid n, v)]) in
  ok s' /\ grows s s'.
Proof.
  intros Hs Hn Hv Hkn Hkv s'. split; [|split; [done|apply odb_keeps_refl|set_solver]].
  destruct Hs as [? ? ? ? Hm Ht Hr ? ?]. split; try done; [by destruct Hm|..].
  - intros n' t v' Hn'. cbn. rewrite lookup_insert_Some. intros [[<- <-]|[_ Hv']].
    + rewrite (dir_source_eq n n') by done. split; [done|]. right. set_solver.
    + destruct (Ht n' t v' Hn' Hv') as [? [?|?]]; (split; [done|]); [by left|right; set_solver].
  - intros t v' [Hin|[= -> ->]%list_elem_of_singleton]%elem_of_app; [by apply Hr|eauto].
Qed.

(** What the children contribute is compatible: they have different names. *)
Lemma recorded_child_name c t q : recorded_child c t q -> exists q', q = c.1.2 :: q'.
Proof.
  unfold recorded_child. destruct c as [[m s] [d|id|cs]]; cbn [fst snd].
  - intros [-> _]. by exists [].
  - done.
  - intros (q' & -> & _). by exists q'.
Qed.

(** No anchor is above another one. *)
Lemma recorded_prefix n t q q' :
  wf_source n = true -> recorded n t q -> recorded n t (q ++ q') -> q' = [].
Proof.
  revert q. induction n as [d|id|cs IH] using source_ind'; intros q Hw.
  - intros (f & ->%list_elem_of_singleton & _ & ->) (g & ->%list_elem_of_singleton & _ & E). exact E.
  - by intros (f & ?%not_elem_of_nil & _).
  - pose proof Hw as [Hn _]%wf_source_Dir. rewrite !recorded_Dir by done.
    intros (c & Hc & Hr) (e & He & Hr'). destruct (recorded_child_name _ _ _ Hr) as [q1 ->].
    destruct (recorded_child_name _ _ _ Hr') as [q2 E]. injection E as E _.
    assert (c = e) as <-.
    { apply source_find_elem in Hc, He; [|done|done]. rewrite E, He in Hc. by injection Hc. }
    destruct (wf_source_child _ _ Hw Hc) as (_ & _ & _ & Hwc). rewrite Forall_forall in IH.
    unfold recorded_child in *. destruct (c.2) as [d|id|cs'] eqn:Ec.
    + destruct Hr as [E1 _]. injection E1 as ->. destruct Hr' as [E' _]. by injection E'.
    + done.
    + destruct Hr as (q3 & [= ->] & Hr), Hr' as (q4 & [= <-] & Hr').
      destruct (small (Dir cs')); [destruct Hr as [-> _], Hr' as [E' _]; exact E'|].
      specialize (IH c Hc). rewrite Ec in IH. exact (IH q3 Hwc Hr Hr').
Qed.

Lemma recorded_child_compatible cs c c' t q q' :
  wf_source (Dir cs) = true -> c ∈ cs -> c' ∈ cs ->
  recorded_child c t q -> recorded_child c' t (q ++ q') -> q' = [].
Proof.
  intros Hw Hc Hc' Hr Hr'. pose proof Hw as [Hn _]%wf_source_Dir.
  apply (recorded_prefix (Dir cs) t q); [done|..]; apply recorded_Dir; [done|by exists c|done|by exists c'].
Qed.

Lemma recorded_length n t q : recorded n t q -> length q <= depth n.
Proof.
  intros (f & Hf & _ & ->). pose proof (files_depth n f Hf). pose proof (anchor_length n f.1). lia.
Qed.

(** A directory under its name: as one file where it is small. *)
Lemma index_child_builds (rec : oid -> im oid) h (s0 : run) m name n :
  wf_source n = true -> is_dir n = true -> loaded (src s0) n = true -> depth n <= h -> 4 <= h ->
  valid_name name = true ->
  (forall s, ok s -> grows s0 s -> builds s (rec (source_oid n)) (fun v s => index_of (db s) n v)) ->
  builds s0 (small ← is_small h (source_oid n);
             child ← (if (small : bool) then coarse_index h h (source_oid n) else rec (source_oid n));
             wrap name child)
    (fun v s => holds_index (db s) v (recorded_child (m, name, n))).
Proof.
  intros Hw Hd Hl Hdh Hh Hv Hrec. eapply builds_bind; [by apply is_small_builds|].
  intros b s1 Hs1 Hg1 ->.
  eapply (builds_bind _ _ _ (fun v s => holds_index (db s) v (if small n then recorded_coarse n else recorded n))).
  - destruct (small n); [|by apply Hrec]. apply coarse_index_builds; try done. by eapply loaded_grows.
  - intros v s2 Hs2 Hg2 (i & -> & Hi & Hk). destruct n as [| |cs]; [done..|].
    apply (wrap_builds s2 name i _ Hi Hk Hv).
Qed.

Lemma bind_assoc_agree3 {A B D E} (m : im A) (k1 : A -> im B) (k2 : B -> im D) (k3 : D -> im E) :
  agree ((m ≫= fun a => k1 a ≫= k2) ≫= k3) (m ≫= fun a => k1 a ≫= fun b => k2 b ≫= k3).
Proof.
  eapply agree_trans; [apply bind_assoc_agree|]. apply agree_bind; [apply agree_refl|].
  intros a. apply bind_assoc_agree.
Qed.

(** The loop over the entries of a directory. *)
Lemma index_children_builds (rec : oid -> im oid) h (s0 : run) cs :
  wf_source (Dir cs) = true -> loaded (src s0) (Dir cs) = true -> 4 + depth (Dir cs) <= h ->
  (forall c s, c ∈ cs -> is_dir c.2 = true -> ok s -> grows s0 s ->
    builds s (rec (source_oid c.2)) (fun v s => index_of (db s) c.2 v)) ->
  builds s0 (foldM (fun wrapped e =>
      if valid_utf8 (filename e) then
        if is_tree (mode e) then
          small ← is_small h (entry_oid e);
          child ← (if (small : bool) then coarse_index h h (entry_oid e) else rec (entry_oid e));
          id ← wrap (filename e) child;
          mret (wrapped ++ [id])
        else if is_commit (mode e) then mret wrapped
        else
          content ← gets (fun s => read_blob_text (src s) (entry_oid e));
          id ← index_blob (entry_oid e) (filename e) content;
          mret (wrapped ++ [id])
      else fail "invalid utf-8") [] (source_entry <$> cs))
    (collected recorded_child cs).
Proof.
  intros Hw Hl Hh Hrec. apply (builds_foldM s0 _ _ (collected recorded_child));
    [intros d; apply lasting_collected|apply collected_nil|].
  intros d acc c s Hc Hs Hg Hacc. destruct (wf_source_child _ _ Hw Hc) as (Hname & Et & Ec & Hwc).
  assert (loaded (src s) c.2 = true) as Hlc by (eapply loaded_grows; [done|]; by eapply loaded_child).
  pose proof (depth_child cs c Hc) as Hdc.
  pose proof (fun m => push_collected recorded_child d acc c s m Hacc) as Hpush.
  specialize (Hrec c). destruct c as [[m nm] n]. cbn [source_entry mode entry_oid filename fst snd] in *.
  rewrite (wf_name_utf8 nm Hname), Et, Ec. apply wf_name_valid in Hname.
  destruct n as [data|id|cs']; cbn [is_dir is_submodule].
  - apply builds_gets. intros s1 Hs1 Hg1. cbn [source_oid].
    rewrite (read_blob_loaded s s1 data) by done. eapply builds_weaken; [|exact Hg1].
    apply Hpush. by apply index_blob_builds.
  - apply builds_ret. intros s1 _ Hg1. apply collected_skip; [by eapply lasting_collected|by intros t q []].
  - eapply builds_agree; [apply bind_assoc_agree3|].
    apply Hpush, (index_child_builds rec); [done|done|done|lia|lia|done|].
    intros s1 Hs1 Hg1. apply Hrec; [done|done|done|by eapply grows_trans].
Qed.

(** [index_tree_oid] returns the index of a directory. *)
Lemma index_tree_builds h k (s0 : run) n :
  dir_source n (source_oid n) -> keyed n -> loaded (src s0) n = true -> depth n <= k -> 4 + depth n <= h ->
  builds s0 (index_tree_oid h k (source_oid n)) (settled n).
Proof.
  revert s0 n. induction k as [|k IH]; intros s0 n Hn Hky Hl Hk Hh.
  { destruct n as [| |cs], Hn as (_ & Hd & _); cbn in Hd, Hk; [done..|lia]. }
  destruct n as [| |cs]; [by destruct Hn as (_ & ? & _)..|]. pose proof Hn as (Hw & _ & _).
  inversion Hky as [| |? Hkn Hkx Hkc]; subst. pose proof Hw as [Hnd _]%wf_source_Dir.
  cbn [index_tree_oid]. eapply builds_bind; [by apply read_source_builds|]. intros tree s1 Hs1 Hg1 ->.
  apply builds_gets. intros s2 Hs2 Hg2.
  destruct (tree_memo (ix s2) !! source_oid (Dir cs)) as [v|] eqn:E.
  { apply builds_ret. intros s3 _ Hg3. eapply lasting_settled; [exact Hg3|]. by apply (ok_tree s2 Hs2). }
  apply cached_index_builds; [done|done|]. intros r s3 Hs3 Hg3 Hr. destruct r as [v|].
  { apply builds_put. intros s4 Hs4 Hg4.
    assert (settled (Dir cs) v s4) as Hst.
    { assert (index_of (src s4) (Dir cs) v) as Hi.
      { unfold index_of. rewrite (grows_src _ _ Hg4). by apply Hr. }
      split; [|by left]. by eapply holds_index_keeps; [apply db_src|]. }
    destruct (put_tree_memo s4 (Dir cs) v) as [Hs5 Hg5]; [done|done|done|]. split; [done|]. split; [done|].
    apply builds_ret. intros s5 _ Hg6. eapply lasting_settled; [|exact Hst]. by eapply grows_trans. }
  assert (grows s0 s3) as Hg03 by (eauto using grows_trans).
  eapply builds_bind.
  { apply (index_children_builds (index_tree_oid h k)); [done|by eapply loaded_grows|lia|].
    intros c s4 Hc Hdir Hs4 Hg4. destruct (wf_source_child _ _ Hw Hc) as (_ & _ & _ & Hwc).
    eapply (builds_impl _ _ (settled c.2)); [|by intros v s6 _ _ [? _]].
    pose proof (depth_child cs c Hc). apply IH; [done|by apply Hkc| |lia|lia].
    eapply loaded_grows; [exact (grows_trans _ _ _ Hg03 Hg4)|]. by eapply loaded_child. }
  intros wrapped s4 Hs4 Hg4 Hcol. eapply builds_bind.
  { apply (overlay_collected h recorded_child cs); [done|lia|..].
    - intros c t q Hc Hr'. assert (recorded (Dir cs) t q) as Hrec by (apply recorded_Dir; [done|by exists c]).
      apply recorded_length in Hrec. lia.
    - intros c c' t q q' Hc Hc'. by apply (recorded_child_compatible cs). }
  intros v s5 Hs5 Hg5 Hv.
  assert (index_of (db s5) (Dir cs) v) as Hi.
  { destruct Hv as (i & -> & Hi & Hki). exists i. split; [done|]. split; [|done].
    eapply indexes_ext; [|exact Hi]. intros t q. by rewrite recorded_Dir. }
  intros s6 Hs6 Hg6. destruct (put_root s6 (Dir cs) v) as [Hs7 Hg7];
    [done|done|by eapply holds_index_keeps; [apply Hg6|]|done|by destruct Hi as (i & -> & Hi & _); apply Hkx|].
  eexists v, _. split; [reflexivity|]. split; [done|]. split; [done|].
  split; [by eapply holds_index_keeps; [apply (grows_trans _ _ _ Hg6 Hg7)|]|]. right. cbn. set_solver.
Qed.

(** * The flush *)

(** A later database that has only trees of the indexer on top. *)
Definition with_src (o : odb) (s : run) : run := MkRun o (index_cache s) (ix s) (roots s).

Lemma with_src_same (s : run) : with_src (src s) s = s.
Proof. by destruct s. Qed.

(** The entries of the buffered trees that were not visited. *)
Definition object_len (x : object) : nat := match x with OTree l => length l | _ => 0 end.

Definition unvisited (p : gmap oid object) (visited : gset oid) : nat :=
  sum_list_with (fun kx => if decide (kx.1 ∈ visited) then 0 else object_len kx.2) (map_to_list p).

Lemma sum_list_with_ext {A} (f g : A -> nat) l :
  (forall x, x ∈ l -> f x = g x) -> sum_list_with f l = sum_list_with g l.
Proof.
  intros He. induction l as [|x l IH]; [done|]. cbn. rewrite IH by (intros; apply He; by right).
  by rewrite (He x) by left.
Qed.

Lemma unvisited_add p visited id :
  id ∉ visited ->
  unvisited p visited = object_len (default (OBlob EmptyString) (p !! id)) + unvisited p ({[id]} ∪ visited).
Proof.
  intros Hid. unfold unvisited. destruct (p !! id) as [x|] eqn:E; cbn [default].
  - assert (forall f, sum_list_with f (map_to_list p) = f (id, x) + sum_list_with f (map_to_list (delete id p))) as Hs.
    { intros f. rewrite <- (map_to_list_delete p id x E). done. }
    rewrite !Hs. cbn [fst snd]. rewrite (decide_False (P := id ∈ visited)) by done.
    rewrite (decide_True (P := id ∈ {[id]} ∪ visited)) by set_solver. cbn. f_equal.
    apply sum_list_with_ext. intros [k y] Hk%elem_of_map_to_list. cbn.
    assert (k ≠ id) by (intros ->; by rewrite lookup_delete_eq in Hk).
    destruct (decide (k ∈ visited)), (decide (k ∈ {[id]} ∪ visited)); set_solver.
  - cbn. apply sum_list_with_ext. intros [k y] Hk%elem_of_map_to_list. cbn.
    assert (k ≠ id) by (intros ->; by rewrite E in Hk).
    destruct (decide (k ∈ visited)), (decide (k ∈ {[id]} ∪ visited)); set_solver.
Qed.

Lemma write_missing_spec s o x :
  odb_ok o ->
  exists o', write_missing (compute_hash x) x (with_src o s) = (Ok tt, with_src o' s) /\
    odb_ok o' /\ odb_keeps o o' /\ try_find o' (compute_hash x) = Some x /\
    forall id y, try_find o' id = Some y -> try_find o id = Some y \/ (id = compute_hash x /\ y = x).
Proof.
  intros Ho. unfold write_missing, modify. cbn [src with_src].
  destruct (odb_contains o (compute_hash x)) eqn:E.
  - exists o. split; [done|]. split; [done|]. split; [apply odb_keeps_refl|].
    split; [by apply odb_contains_find|by left].
  - exists (odb_write o x).2. split; [done|].
    destruct (odb_write o x) as [id o'] eqn:Ew. pose proof (odb_write_find o x) as Hf. rewrite Ew in Hf.
    apply odb_write_spec in Ew as (-> & Ho' & Hk & Hx); [|done]. cbn in *.
    split; [done|]. split; [done|]. split; [done|]. intros id y Hy. rewrite Hf in Hy by done.
    case_decide; [right; by simplify_eq|by left].
Qed.

(** The state of the loop: what was visited has its entries visited or waiting, and is stored. *)
Record flushing (s : run) (o : odb) (stack : list oid) (visited : gset oid) (written : list oid) : Prop := {
  fl_ok : odb_ok o;
  fl_keeps : odb_keeps (src s) o;
  fl_new id x : try_find o id = Some x ->
    try_find (src s) id = Some x \/ id ∈ written \/ x = OTree [] \/ x = OBlob EmptyString;
  fl_written id : id ∈ written -> id ∈ visited /\
    exists x, pending (ix s) !! id = Some x /\ try_find o id = Some x;
  fl_visited id l : id ∈ visited -> pending (ix s) !! id = Some (OTree l) -> id ∈ written /\
    forall e, e ∈ l -> entry_oid e ∈ visited \/ entry_oid e ∈ stack;
  fl_roots p : p ∈ roots s -> p.2 ∈ visited \/ p.2 ∈ stack;
}.

Lemma flushing_skip s o id stack visited written :
  flushing s o (id :: stack) visited written -> id ∈ visited -> flushing s o stack visited written.
Proof.
  intros [? ? ? ? Hv Hr] Hid. split; try done.
  - intros i l Hi Hl. destruct (Hv i l Hi Hl) as [Hw He]. split; [done|]. intros e Hin.
    destruct (He e Hin) as [?|[->|?]%elem_of_cons]; auto.
  - intros p Hp. destruct (Hr p Hp) as [?|[->|?]%elem_of_cons]; auto.
Qed.

Lemma flushing_absent s o id stack visited written :
  flushing s o (id :: stack) visited written -> pending (ix s) !! id = None ->
  flushing s o stack ({[id]} ∪ visited) written.
Proof.
  intros [? ? ? Hw Hv Hr] Hid. split; try done.
  - intros i Hi. destruct (Hw i Hi) as [? ?]. split; [set_solver|done].
  - intros i l [->%elem_of_singleton|Hi]%elem_of_union Hl; [by rewrite Hid in Hl|].
    destruct (Hv i l Hi Hl) as [? He]. split; [done|]. intros e Hin.
    destruct (He e Hin) as [?|[->|?]%elem_of_cons]; set_solver.
  - intros p Hp. destruct (Hr p Hp) as [?|[->|?]%elem_of_cons]; set_solver.
Qed.

Lemma flushing_store s o o' id l stack visited written :
  flushing s o (id :: stack) visited written -> pending (ix s) !! id = Some (OTree l) ->
  odb_ok o' -> odb_keeps o o' -> try_find o' id = Some (OTree l) ->
  (forall i y, try_find o' i = Some y -> try_find o i = Some y \/ (i = id /\ y = OTree l)) ->
  flushing s o' (rev (entry_oid <$> l) ++ stack) ({[id]} ∪ visited) (written ++ [id]).
Proof.
  intros [? Hk Hn Hw Hv Hr] Hid Ho' Hk' Hf Hnew. split; try done.
  - by eapply odb_keeps_trans.
  - intros i y Hy. destruct (Hnew i y Hy) as [Hy'|[-> ->]]; [|set_solver].
    destruct (Hn i y Hy') as [?|[?|?]]; set_solver.
  - intros i [Hi|Hi%list_elem_of_singleton]%elem_of_app.
    + destruct (Hw i Hi) as (? & x & ? & ?). split; [set_solver|]. exists x. split; [done|]. by apply Hk'.
    + subst i. split; [set_solver|]. by eexists.
  - intros i l' [Hi%elem_of_singleton|Hi]%elem_of_union Hl.
    + subst i. rewrite Hid in Hl. injection Hl as <-. split; [set_solver|]. intros e He. right.
      apply elem_of_app. left. rewrite <- Permutation_rev. by apply list_elem_of_fmap_2.
    + destruct (Hv i l' Hi Hl) as [? He]. split; [set_solver|]. intros e Hin.
      destruct (He e Hin) as [?|[->|?]%elem_of_cons]; set_solver.
  - intros p Hp. destruct (Hr p Hp) as [?|[->|?]%elem_of_cons]; set_solver.
Qed.

Lemma flush_loop_spec n s o stack visited written :
  ok s -> flushing s o stack visited written ->
  length stack + unvisited (pending (ix s)) visited < n ->
  exists o' visited' written',
    flush_loop n stack visited written (with_src o s) = (Ok written', with_src o' s) /\
    flushing s o' [] visited' written'.
Proof.
  intros Hs. revert o stack visited written. induction n as [|n IH]; intros o stack visited written Hf Hn; [lia|].
  destruct stack as [|id stack]; [by exists o, visited, written|]. cbn [flush_loop].
  case_decide as Hv; [apply IH; [by eapply flushing_skip|cbn in Hn; lia]|].
  rewrite (unvisited_add _ _ id Hv) in Hn. unfold mbind at 1, M_bind at 1. cbn [gets ix with_src].
  destruct (pending (ix s) !! id) as [x|] eqn:E; cbn [default] in Hn.
  - destruct (ok_pending s Hs _ _ E) as (l & -> & -> & _). cbn [object_kind].
    destruct (write_missing_spec s o (OTree l)) as (o' & Ew & Ho' & Hk & Hx & Hnew); [apply Hf|].
    rewrite from_bytes_tree. unfold mbind, M_bind, lift, mret, M_ret. cbv beta iota zeta.
    rewrite Ew. apply IH; [by eapply flushing_store|].
    rewrite length_app, length_rev, length_fmap. cbn in Hn |- *. lia.
  - apply IH; [by apply flushing_absent|]. cbn in Hn. lia.
Qed.

(** ** What the flush leaves *)

(** In a complete database a tree is stored with everything below it. *)
Lemma stored_below s i l :
  ok s -> marks i -> kept (db s) i -> try_find (src s) (node_oid i) = Some (OTree l) -> kept (src s) i.
Proof.
  intros Hs. revert l. induction i as [id|cs IH] using node_ind'; intros l Hm Hk Hf; [constructor|].
  pose proof (kept_find _ _ Hk) as Hd. rewrite (db_src s Hs _ _ Hf) in Hd. injection Hd as ->.
  constructor; [done|]. rewrite Forall_forall in *. intros c Hc.
  destruct (marks_mark_child _ _ Hm Hc) as (_ & Em & Hmc & _).
  assert (kept (db s) (child_node c)) as Hkc by (by eapply kept_child).
  destruct (child_node c) as [id|cs'] eqn:Ec; [constructor|].
  destruct (ok_complete s Hs _ _ (child_entry_of c) Hf) as [l' Hl'].
  - by apply list_elem_of_fmap_2.
  - cbn. by rewrite Em.
  - unfold child_entry_of in Hl'. cbn [entry_oid] in Hl'. rewrite Ec in Hl'.
    specialize (IH c Hc). rewrite Ec in IH. by eapply IH.
Qed.

Section Flushed.
Context (s : run) (o : odb) (visited : gset oid) (written : list oid).
Context (Hs : ok s) (Hf : flushing s o [] visited written).

Lemma flushed_kept i : marks i -> kept (db s) i -> (is_node i = true -> node_oid i ∈ visited) -> kept o i.
Proof.
  induction i as [id|cs IH] using node_ind'; intros Hm Hk Hv; [constructor|].
  pose proof (kept_find _ _ Hk) as Hd. rewrite db_find in Hd.
  destruct (pending (ix s) !! node_oid (Node cs)) as [x|] eqn:Ep.
  - injection Hd as ->. destruct (fl_visited _ _ _ _ _ Hf _ _ (Hv eq_refl) Ep) as [Hw He].
    destruct (fl_written _ _ _ _ _ Hf _ Hw) as (_ & x & Hx & Ho). rewrite Ep in Hx. injection Hx as <-.
    constructor; [done|]. rewrite Forall_forall in *. intros c Hc.
    apply IH; [done|by eapply marks_child|by eapply kept_child|]. intros _.
    destruct (He (child_entry_of c)) as [?|?%not_elem_of_nil]; [by apply list_elem_of_fmap_2|done|done].
  - eapply kept_keeps; [apply Hf|]. by eapply stored_below.
Qed.

Lemma flushed_index n v : (source_oid n, v) ∈ roots s -> index_of (db s) n v -> index_of o n v.
Proof.
  intros Hr (i & -> & Hi & Hk). exists i. split; [done|]. split; [done|].
  apply flushed_kept; [apply Hi|done|]. intros _.
  by destruct (fl_roots _ _ _ _ _ Hf _ Hr) as [?|?%not_elem_of_nil].
Qed.

Lemma flushed_complete : complete o.
Proof.
  intros id l e Hl He Ht. destruct (fl_new _ _ _ _ _ Hf _ _ Hl) as [Hl'|[Hw|[[= ->]|[=]]]].
  - destruct (ok_complete s Hs _ _ _ Hl' He Ht) as [l' ?]. exists l'. by apply (fl_keeps _ _ _ _ _ Hf).
  - destruct (fl_written _ _ _ _ _ Hf _ Hw) as (Hv & x & Hx & Ho). rewrite Hl in Ho. injection Ho as <-.
    destruct (ok_pending s Hs _ _ Hx) as (l2 & [= <-] & _ & Hc). destruct (Hc e He Ht) as [l' Hl'].
    exists l'. rewrite db_find in Hl'.
    destruct (pending (ix s) !! entry_oid e) as [y|] eqn:Ey; [|by apply (fl_keeps _ _ _ _ _ Hf)].
    injection Hl' as ->. destruct (fl_visited _ _ _ _ _ Hf _ _ Hv Hx) as [_ Hvis].
    destruct (Hvis e He) as [Hve|?%not_elem_of_nil]; [|done].
    destruct (fl_visited _ _ _ _ _ Hf _ _ Hve Ey) as [Hwe _].
    destruct (fl_written _ _ _ _ _ Hf _ Hwe) as (_ & z & Hz & Hoz). congruence.
  - by apply not_elem_of_nil in He.
Qed.

(** The buffer without what was written. *)
Definition unwritten (p : gmap oid object) : gmap oid object := foldl (fun p id => delete id p) p written.

Lemma written_lookup id :
  unwritten (pending (ix s)) !! id = if decide (id ∈ written) then None else pending (ix s) !! id.
Proof.
  unfold unwritten. clear Hf. generalize (pending (ix s)). induction written as [|w l IH]; intros p; cbn [foldl].
  - rewrite decide_False; [done|apply not_elem_of_nil].
  - rewrite IH. destruct (decide (id ∈ l)) as [Hl|Hl]; [rewrite decide_True; [done|by right]|].
    destruct (decide (id = w)) as [->|Hne].
    + rewrite decide_True by left. apply lookup_delete_eq.
    + rewrite decide_False by set_solver. by rewrite lookup_delete_ne by done.
Qed.

(** The state after the flush, with a cache. *)
Definition flushed (c : C) : run := MkRun o c (set_pending unwritten (ix s)) [].

Lemma flushed_db c : odb_keeps (db s) (db (flushed c)).
Proof.
  intros id x. rewrite !db_find. cbn [ix src flushed pending set_pending]. rewrite written_lookup.
  case_decide as Hw; [|destruct (pending (ix s) !! id); [done|apply Hf]].
  destruct (fl_written _ _ _ _ _ Hf _ Hw) as (_ & y & Hy & Ho). rewrite Hy. by intros [= ->].
Qed.

Lemma flushed_ok c :
  cache_ok c -> (forall n t v, dir_source n t -> knows c t v -> index_of o n v) -> ok (flushed c).
Proof.
  intros Hc Hkn. pose proof (flushed_db c) as Hk. split; cbn [src roots index_cache].
  - apply Hf.
  - apply flushed_complete.
  - intros id x. cbn [ix flushed pending set_pending]. rewrite written_lookup. case_decide; [done|].
    intros Hp. destruct (ok_pending s Hs _ _ Hp) as (l & -> & -> & He). exists l. split; [done|]. split; [done|].
    intros e Hin Ht. destruct (He e Hin Ht) as [l' Hl']. exists l'. by apply Hk.
  - intros id l Hl. apply Hk. by apply (ok_trees s Hs).
  - pose proof (memos_keeps _ _ _ Hk (ok_memos s Hs)) as Hm. by destruct Hm.
  - intros n t v Hn Hv. destruct (ok_tree s Hs n t v Hn Hv) as [Hi Hr].
    split; [by eapply holds_index_keeps|]. left. destruct Hr as [Hr|Hr]; [by eapply holds_index_keeps; [apply Hf|]|].
    destruct Hn as (_ & _ & <-). by apply flushed_index.
  - by intros t v ?%not_elem_of_nil.
  - done.
  - exact Hkn.
Qed.

End Flushed.

Lemma set_indexes_knows l c :
  cache_ok c -> Forall (fun p => key_ok p.1 /\ key_ok p.2) l ->
  cache_ok (foldl (fun c p => set_index p.1 p.2 c) c l) /\
  forall k v, knows (foldl (fun c p => set_index p.1 p.2 c) c l) k v -> knows c k v \/ (k, v) ∈ l.
Proof.
  intros Hc Hl. revert c Hc. induction Hl as [|[t i] l [Ht Hi] _ IH]; intros c Hc; [by eauto|]. cbn [foldl fst snd].
  destruct (set_index_law t i c Hc Ht Hi) as [Hc' Hk]. destruct (IH _ Hc') as [? Hk'].
  split; [done|]. intros k v [Hv|Hv]%Hk'; [|right; by right].
  destruct (Hk k v Hv) as [?|[-> ->]]; [by left|right; left].
Qed.

(** The state between two calls. *)
Definition ready (s : run) : Prop := ok (MkRun (src s) (index_cache s) (ix s) []).

Lemma flushing_start s o :
  odb_ok o -> odb_keeps (src s) o ->
  (forall id x, try_find o id = Some x ->
    try_find (src s) id = Some x \/ x = OTree [] \/ x = OBlob EmptyString) ->
  flushing s o (rev (snd <$> roots s)) ∅ [].
Proof.
  intros Ho Hk Hn. split; try done.
  - intros id x Hx. destruct (Hn id x Hx) as [?|?]; auto.
  - by intros id ?%not_elem_of_nil.
  - intros p Hp. right. rewrite <- Permutation_rev. by apply list_elem_of_fmap_2.
Qed.

(** [flush] stores the indexes of the call and tells the cache. *)
Lemma flush_spec s n :
  ok s -> length (roots s) + unvisited (pending (ix s)) ∅ < n ->
  exists s', flush n s = (Ok tt, s') /\ ready s' /\ odb_keeps (src s) (src s') /\
    forall k v, dir_source k (source_oid k) -> (source_oid k, v) ∈ roots s -> index_of (src s') k v.
Proof.
  intros Hs Hn. unfold flush, mbind at 1, M_bind at 1. cbn [gets].
  destruct (roots s) as [|p0 ps] eqn:Er.
  { exists s. split; [done|]. split; [|split; [apply odb_keeps_refl|by intros k v _ ?%not_elem_of_nil]].
    destruct s. cbn in Er. by subst. }
  rewrite <- Er in *. clear p0 ps Er.
  destruct (write_missing_spec s (src s) (OBlob EmptyString)) as (o1 & E1 & Ho1 & Hk1 & _ & Hn1); [apply Hs|].
  destruct (write_missing_spec s o1 (OTree [])) as (o2 & E2 & Ho2 & Hk2 & _ & Hn2); [done|].
  destruct (flush_loop_spec n s o2 (rev (snd <$> roots s)) ∅ []) as (o & vis & wr & E3 & Hf); [done|..].
  { apply flushing_start; [done|by eapply odb_keeps_trans|]. intros id x Hx.
    destruct (Hn2 id x Hx) as [Hx'|[_ ->]]; [|auto]. destruct (Hn1 id x Hx') as [?|[_ ->]]; auto. }
  { by rewrite length_rev, length_fmap. }
  set (c := foldl (fun c p => set_index p.1 p.2 c) (index_cache s) (roots s)).
  exists (MkRun o c (set_pending (unwritten wr) (ix s)) (roots s)). split.
  { unfold mbind, M_bind. unfold empty_blob, empty_id in *.
    rewrite with_src_same in E1. by rewrite E1, E2, E3. }
  assert (forall k v, dir_source k (source_oid k) -> (source_oid k, v) ∈ roots s -> index_of o k v) as Hst.
  { intros k v Hk Hr. destruct (ok_roots s Hs _ _ Hr) as (_ & _ & k' & Hk' & Hi).
    rewrite (dir_source_eq k k') in Hi by done. by eapply flushed_index. }
  split; [|split; [apply Hf|exact Hst]].
  destruct (set_indexes_knows (roots s) (index_cache s)) as [Hc Hkn].
  { apply (ok_cache_ok s Hs). }
  { apply Forall_forall. intros [t v] Hr. by destruct (ok_roots s Hs _ _ Hr) as (? & ? & _). }
  apply (flushed_ok s o vis wr Hs Hf c Hc). intros k t v Hk [Hv|Hr]%Hkn.
  - eapply holds_index_keeps; [apply Hf|]. by eapply (ok_cache s Hs).
  - pose proof Hk as (_ & _ & <-). by apply Hst.
Qed.

(** A call of [trigram_index] on a source tree that is stored returns the index of the tree, which is
    stored afterwards, and leaves a state for the next call. *)
Lemma trigram_index_spec h s n :
  ready s -> dir_source n (source_oid n) -> keyed n -> loaded (src s) n = true -> 4 + depth n <= h ->
  ample (fun k => exists v s', trigram_index h k (source_oid n) s = (Ok v, s') /\
    ready s' /\ odb_keeps (src s) (src s') /\ index_of (src s') n v).
Proof.
  intros Hs Hn Hky Hl Hh. set (s0 := MkRun (src s) (index_cache s) (ix s) []).
  destruct (index_tree_builds h h s0 n Hn Hky Hl) with (s := s0) as (v & s1 & E1 & Hs1 & Hg1 & Hv);
    [lia|done|done|apply grows_refl|].
  exists (S (length (roots s1) + unvisited (pending (ix s1)) ∅)). intros k Hk.
  destruct (flush_spec s1 k Hs1) as (s2 & E2 & Hs2 & Hk2 & Hr2); [lia|].
  exists v, s2. split.
  { unfold trigram_index, modify, mbind, M_bind. fold s0. by rewrite E1, E2. }
  split; [done|]. split; [rewrite (grows_src _ _ Hg1) in Hk2; exact Hk2|].
  destruct Hv as [_ [Hv|Hv]]; [by eapply holds_index_keeps|by apply Hr2].
Qed.

End Runs.
