(* ===== verification/SearchFind.v ===== *)
(** A search with an index.  The walk over mirrors of a source tree emits each file of the tree whose
    anchor is in all mirrors, and each of them once.  The trees below the trigrams of the string are
    such mirrors, the candidates are a part of the files that has all files with these trigrams, and
    the matches are those of a scan of all files. *)

From S2P Require Import Utf8 Path Objects Store Node NodeFacts Refine Trailers TreePaths Apply SearchIndex Search SearchTrees SearchSpec SearchBuild SearchRun Prelude Ops.

Open Scope nat_scope.

Section Walk.
Context `{ObjectHash} `{ObjectBytes}.

Abbreviation file := (list string * string)%type.
Abbreviation source_names cs := ((fun c : source_child => c.1.2) <$> cs).

(** The text of a path below a directory. *)
Definition render (prefix : string) (f : file) : string := foldl join_path prefix f.1.

(** A file below a directory of a name. *)
Definition down (s : string) (f : file) : file := (s :: f.1, f.2).

Lemma files_Dir cs : files (Dir cs) = cs ≫= fun c => down c.1.2 <$> files c.2.
Proof. done. Qed.

Lemma render_down prefix s f : render prefix (down s f) = render (join_path prefix s) f.
Proof. done. Qed.

Lemma render_downs prefix s (l : list file) :
  render prefix <$> (down s <$> l) = render (join_path prefix s) <$> l.
Proof. by rewrite <- list_fmap_compose. Qed.

Lemma bind_concat {A B} (f : A -> list B) l : l ≫= f = concat (f <$> l).
Proof. induction l as [|x l IH]; [done|]. rewrite bind_cons, IH. done. Qed.

(** Files under different names are different. *)
Lemma nodup_concat_names {A} (name : A -> string) (P : A -> list file -> Prop) l fss :
  (forall x fs, P x fs -> NoDup fs /\ forall f, f ∈ fs -> exists p, f.1 = name x :: p) ->
  NoDup (name <$> l) -> Forall2 P l fss -> NoDup (concat fss).
Proof.
  intros HP Hn Hl. induction Hl as [|x fs l fss Hx Hl IH]; [constructor|]. cbn [concat].
  rewrite fmap_cons in Hn. apply NoDup_cons in Hn as [Hx' Hn]. destruct (HP x fs Hx) as [Hnd Hh].
  apply NoDup_app. split; [done|]. split; [|by apply IH]. intros f Hf Hf'. destruct (Hh f Hf) as [p E].
  apply Hx'. clear -HP Hl Hf' E. induction Hl as [|y gs l fss Hy _ IH]; [by apply not_elem_of_nil in Hf'|].
  cbn [concat] in Hf'. rewrite fmap_cons. apply elem_of_app in Hf' as [Hf'|Hf']; [|right; by apply IH].
  destruct (HP y gs Hy) as [_ Hh]. destruct (Hh f Hf') as [p' E']. rewrite E in E'. injection E' as -> _. left.
Qed.

Lemma files_nodup n : wf_source n = true -> NoDup (files n).
Proof.
  induction n as [d|id|cs IH] using source_ind'; intros Hw; [apply NoDup_singleton|constructor|].
  pose proof Hw as [Hn _]%wf_source_Dir. rewrite files_Dir, bind_concat.
  apply (nodup_concat_names (fun c => c.1.2) (fun (c : source_child) fs => c ∈ cs /\ fs = down c.1.2 <$> files c.2) cs
    ((fun c => down c.1.2 <$> files c.2) <$> cs)).
  - intros c fs [Hc ->]. rewrite Forall_forall in IH. destruct (wf_source_child _ _ Hw Hc) as (_ & _ & _ & Hwc).
    split; [|intros f (g & -> & _)%list_elem_of_fmap; by exists g.1].
    apply NoDup_fmap_2; [|by apply IH]. by intros [p d] [p' d'] [= -> ->].
  - done.
  - apply Forall2_fmap_r, Forall_Forall2_diag, Forall_forall. done.
Qed.

(** A loop over entries each of which appends a list. *)
Lemma walk_entries_lists {A X} prefix (h : X -> A) (f : A -> list string -> res (list string))
    (P : X -> list file -> Prop) l :
  (forall x, x ∈ l -> exists fs, P x fs /\ forall out, f (h x) out = Ok (out ++ (render prefix <$> fs))) ->
  exists fss, Forall2 P l fss /\
    forall out, walk_entries f (h <$> l) out = Ok (out ++ (render prefix <$> concat fss)).
Proof.
  induction l as [|x l IH]; intros Hf.
  { exists []. split; [constructor|]. intros out. cbn. by rewrite app_nil_r. }
  destruct (Hf x) as (fs & Hp & Ef); [left|]. destruct IH as (fss & Hps & Efs); [intros y Hy; apply Hf; by right|].
  exists (fs :: fss). split; [by constructor|]. intros out. rewrite fmap_cons. cbn [walk_entries concat].
  rewrite Ef. cbn. rewrite Efs, fmap_app, app_assoc. done.
Qed.

(** * All files of a directory *)

Lemma find_source_entry s cs : find_entry s (source_entry <$> cs) = source_entry <$> source_find s cs.
Proof.
  unfold source_find. induction cs as [|c cs IH]; [done|]. rewrite fmap_cons. cbn.
  destruct (decide (c.1.2 = s)); [by rewrite bool_decide_true|by rewrite bool_decide_false].
Qed.

Lemma collect_paths_spec k o n prefix out :
  wf_source n = true -> is_dir n = true -> loaded o n = true -> depth n <= k ->
  collect_paths k o (source_oid n) prefix out = Ok (out ++ (render prefix <$> files n)).
Proof.
  revert n prefix out. induction k as [|k IH]; intros n prefix out Hw Hd Hl Hk.
  { destruct n; cbn in Hd, Hk; [done..|lia]. }
  destruct n as [| |cs]; [done..|]. pose proof Hl as [Hf _]%loaded_Dir. cbn [collect_paths]. rewrite Hf.
  match goal with |- walk_entries ?f _ _ = _ =>
    destruct (walk_entries_lists prefix source_entry f
      (fun (c : source_child) fs => fs = down c.1.2 <$> files c.2) cs) as (fss & Hfs & E)
  end; [|rewrite E; f_equal; f_equal; f_equal].
  - intros c Hc. exists (down c.1.2 <$> files c.2). split; [reflexivity|]. intros out'.
    destruct (wf_source_child _ _ Hw Hc) as (Hname & Et & Ec & Hwc). rewrite render_downs.
    pose proof (depth_child cs c Hc). pose proof (loaded_child _ _ _ Hl Hc) as Hlc.
    destruct c as [[m nm] n]. cbn [source_entry mode entry_oid filename fst snd] in *.
    rewrite (wf_name_utf8 nm Hname), Et, Ec. cbv zeta.
    destruct n as [data|id|cs']; cbn [is_dir is_submodule].
    + done.
    + cbn. by rewrite app_nil_r.
    + apply IH; [done|done|done|lia].
  - rewrite files_Dir, bind_concat. f_equal. clear -Hfs. induction Hfs as [|c fs cs fss -> _ IH]; [done|].
    by rewrite fmap_cons, IH.
Qed.

Lemma emit_leaf_spec h o cs s c prefix out :
  wf_source (Dir cs) = true -> loaded o (Dir cs) = true -> depth (Dir cs) <= h -> source_find s cs = Some c ->
  emit_leaf h o (source_entry <$> cs) s (join_path prefix s) out =
    Ok (out ++ (render prefix <$> (down s <$> files c.2))).
Proof.
  intros Hw Hl Hh Hs. unfold emit_leaf. rewrite find_source_entry, Hs, render_downs. cbn [fmap option_fmap option_map].
  apply source_find_Some in Hs as [Hc <-]. destruct (wf_source_child _ _ Hw Hc) as (_ & Et & Ec & Hwc).
  pose proof (depth_child cs c Hc). pose proof (loaded_child _ _ _ Hl Hc) as Hlc.
  destruct c as [[m nm] n]. cbn [source_entry mode entry_oid fst snd] in *. rewrite Et, Ec.
  destruct n as [data|id|cs']; cbn [is_dir is_submodule].
  - done.
  - cbn. by rewrite app_nil_r.
  - apply collect_paths_spec; [done|done|done|lia].
Qed.

(** * Mirrors *)

(** A tree of anchors of a source tree. *)
Definition mirrors (n : source) (m : node) : Prop :=
  marks m /\ is_node m = true /\
  forall q, has m q = true -> exists f, (f ∈ files n) /\ q = anchor n f.1.

(** A file whose anchor is in all mirrors. *)
Definition found (n : source) (ms : list node) (f : file) : Prop :=
  (f ∈ files n) /\ forall m, m ∈ ms -> has m (anchor n f.1) = true.

Lemma anchor_child cs s c p :
  source_find s cs = Some c ->
  anchor (Dir cs) (s :: p) = s :: (if is_dir c.2 && small c.2 then [] else anchor c.2 p).
Proof. intros Hs. cbn [anchor]. by rewrite Hs. Qed.

Lemma elem_of_files_find cs f :
  NoDup (source_names cs) ->
  f ∈ files (Dir cs) <-> exists s c g, source_find s cs = Some c /\ (g ∈ files c.2) /\ f = down s g.
Proof.
  intros Hn. rewrite elem_of_files_Dir. split.
  - intros (c & g & Hc & Hg & ->). exists c.1.2, c, g. split; [by apply source_find_elem|done].
  - intros (s & c & g & [Hc <-]%source_find_Some & Hg & ->). by exists c, g.
Qed.

Lemma anchor_nil n f : f ∈ files n -> anchor n f.1 = [] <-> is_dir n = false.
Proof.
  intros Hf. destruct n as [d|id|cs].
  - by apply list_elem_of_singleton in Hf as ->.
  - by apply not_elem_of_nil in Hf.
  - apply elem_of_files_Dir in Hf as (c & g & _ & _ & ->). split; done.
Qed.

(** The source child that a child of a mirror follows. *)
Lemma mirror_child cs mc s m :
  wf_source (Dir cs) = true -> mirrors (Dir cs) (Node mc) -> nfind s mc = Some m ->
  exists c, source_find s cs = Some c /\
    is_node (child_node m) = is_dir c.2 && negb (small c.2) /\
    (is_node (child_node m) = true -> mirrors c.2 (child_node m)).
Proof.
  intros Hw (Hm & _ & Ha) Hf. pose proof Hw as [Hn _]%wf_source_Dir.
  assert (marks (child_node m)) as Hmm by (by eapply marks_find).
  assert (forall q, has (child_node m) q = true -> exists c g, source_find s cs = Some c /\
    (g ∈ files c.2) /\ q = if is_dir c.2 && small c.2 then [] else anchor c.2 g.1) as Hq.
  { intros q Hq. destruct (Ha (s :: q)) as (f & Hin & E); [apply has_cons; by exists m|].
    apply elem_of_files_find in Hin as (s' & c & g & Hs & Hg & ->); [|done].
    unfold down in E. cbn [fst] in E. rewrite (anchor_child _ _ _ _ Hs) in E. injection E as -> ->.
    by exists c, g. }
  destruct (has_some (child_node m)) as [q0 Hq0]; [done|apply nfind_Some in Hf as [? _]; by eapply wf_child_not_empty; [apply Hm|]|].
  destruct (Hq q0 Hq0) as (c & g & Hs & Hg & E0). exists c. split; [done|].
  assert (is_node (child_node m) = is_dir c.2 && negb (small c.2)) as Ek.
  { destruct (child_node m) as [id|cs'] eqn:Ec; cbn [is_node].
    - destruct q0; [|done]. destruct (is_dir c.2) eqn:Ed, (small c.2); try done. cbn in E0.
      symmetry in E0. apply anchor_nil in E0; [|done]. by rewrite Ed in E0.
    - destruct q0 as [|a q0]; [done|]. destruct (is_dir c.2) eqn:Ed, (small c.2); try done; cbn in E0;
        (rewrite (proj2 (anchor_nil c.2 g Hg) Ed) in E0; done). }
  split; [done|]. intros Hk. split; [done|]. split; [done|]. intros q (c' & g' & Hs' & Hg' & ->)%Hq.
  rewrite Hs in Hs'. injection Hs' as <-. exists g'. split; [done|]. rewrite Ek in Hk.
  by destruct (is_dir c.2), (small c.2).
Qed.

Lemma found_head cs ms f : found (Dir cs) ms f -> exists s p, f.1 = s :: p.
Proof. intros [(c & g & _ & _ & ->)%elem_of_files_Dir _]. by exists c.1.2, g.1. Qed.

(** Where the mirrors have a leaf, all files below are found. *)
Lemma found_leaf cs ms s c f :
  wf_source (Dir cs) = true -> source_find s cs = Some c -> is_dir c.2 && negb (small c.2) = false ->
  (forall m, m ∈ ms -> has m [s] = true) ->
  f ∈ down s <$> files c.2 <-> found (Dir cs) ms f /\ exists p, f.1 = s :: p.
Proof.
  intros Hw Hs Hk Hl. pose proof Hw as [Hn _]%wf_source_Dir. split.
  - intros (g & -> & Hg)%list_elem_of_fmap. split; [|by exists g.1].
    split; [apply elem_of_files_find; [done|]; by exists s, c, g|]. intros m Hm.
    unfold down. cbn [fst]. rewrite (anchor_child _ _ _ _ Hs).
    destruct (is_dir c.2 && small c.2) eqn:E; [by apply Hl|].
    rewrite (proj2 (anchor_nil c.2 g Hg)); [by apply Hl|]. by destruct (is_dir c.2), (small c.2).
  - intros [[Hf _] [p E]]. apply elem_of_files_find in Hf as (s' & c' & g & Hs' & Hg & ->); [|done].
    cbn in E. injection E as -> _. rewrite Hs in Hs'. injection Hs' as <-. by apply list_elem_of_fmap_2.
Qed.

(** Where they have directories, the files that are found below. *)
Lemma found_tree cs ms ms' s c f :
  wf_source (Dir cs) = true -> source_find s cs = Some c -> is_dir c.2 && negb (small c.2) = true ->
  Forall2 (fun m m' => forall q, has m (s :: q) = has m' q) ms ms' ->
  (exists g, f = down s g /\ found c.2 ms' g) <-> found (Dir cs) ms f /\ exists p, f.1 = s :: p.
Proof.
  intros Hw Hs Hk Hl. pose proof Hw as [Hn _]%wf_source_Dir.
  assert (is_dir c.2 && small c.2 = false) as Hk' by (by destruct (is_dir c.2), (small c.2)).
  assert (forall g : file, (forall m', m' ∈ ms' -> has m' (anchor c.2 g.1) = true) <->
    (forall m, m ∈ ms -> has m (anchor (Dir cs) (s :: g.1)) = true)) as Hiff.
  { intros g. rewrite (anchor_child _ _ _ _ Hs), Hk', <- !Forall_forall. clear -Hl.
    induction Hl as [|m m' ms ms' Hm _ IH]; [by rewrite !Forall_nil|]. by rewrite !Forall_cons, Hm, IH. }
  split.
  - intros (g & -> & Hg & Ha). split; [|by exists g.1]. split; [apply elem_of_files_find; [done|]; by exists s, c, g|].
    by apply Hiff.
  - intros [[Hf Ha] [p E]]. apply elem_of_files_find in Hf as (s' & c' & g & Hs' & Hg & ->); [|done].
    cbn in E. injection E as -> _. rewrite Hs in Hs'. injection Hs' as <-. exists g. split; [done|].
    split; [done|]. by apply Hiff.
Qed.

(** ** The walk over one directory *)

(** The files that are found, each once; and those below one name. *)
Definition walked (n : source) (ms : list node) (fs : list file) : Prop :=
  NoDup fs /\ forall f, f ∈ fs <-> found n ms f.

Definition part (n : source) (ms : list node) (s : string) (fs : list file) : Prop :=
  NoDup fs /\ forall f, f ∈ fs <-> found n ms f /\ exists p, f.1 = s :: p.

#[local] Instance down_inj s : Inj (=) (=) (down s).
Proof. by intros [p d] [p' d'] [= -> ->]. Qed.

Lemma part_leaf cs ms s c :
  wf_source (Dir cs) = true -> source_find s cs = Some c -> is_dir c.2 && negb (small c.2) = false ->
  (forall m, m ∈ ms -> has m [s] = true) -> part (Dir cs) ms s (down s <$> files c.2).
Proof.
  intros Hw Hs Hk Hl. split; [|intros f; by apply found_leaf].
  apply NoDup_fmap_2; [apply _|]. apply files_nodup. apply source_find_Some in Hs as [Hc _].
  by destruct (wf_source_child _ _ Hw Hc) as (_ & _ & _ & ?).
Qed.

Lemma part_tree cs ms ms' s c fs :
  wf_source (Dir cs) = true -> source_find s cs = Some c -> is_dir c.2 && negb (small c.2) = true ->
  Forall2 (fun m m' => forall q, has m (s :: q) = has m' q) ms ms' -> walked c.2 ms' fs ->
  part (Dir cs) ms s (down s <$> fs).
Proof.
  intros Hw Hs Hk Hl [Hn Hf]. split; [by apply NoDup_fmap_2; [apply _|]|]. intros f.
  rewrite <- (found_tree cs ms ms' s c f Hw Hs Hk Hl). rewrite list_elem_of_fmap.
  split; intros (g & -> & Hg); exists g; (split; [done|]); by apply Hf.
Qed.

(** A name that one mirror lacks has no part. *)
Lemma part_none cs ms s m :
  m ∈ ms -> (forall q, has m (s :: q) = false) -> part (Dir cs) ms s [].
Proof.
  intros Hm Hs. split; [constructor|]. intros f. split; [by intros ?%not_elem_of_nil|].
  intros [[Hf Ha] [p E]]. specialize (Ha m Hm). rewrite E in Ha. cbn [anchor] in Ha. by rewrite Hs in Ha.
Qed.

Lemma walked_concat cs ms tc fss :
  wf_source (Dir cs) = true -> Node tc ∈ ms -> marks (Node tc) ->
  Forall2 (fun e fs => part (Dir cs) ms (child_name e) fs) tc fss -> walked (Dir cs) ms (concat fss).
Proof.
  intros Hw Ht Hm Hf. split.
  - apply (nodup_concat_names child_name (fun e fs => part (Dir cs) ms (child_name e) fs) tc); [|apply wf_nodup, Hm|done].
    intros e fs [Hn Hfs]. split; [done|]. intros f Hin. by apply Hfs.
  - intros f. rewrite list_elem_of_In, in_concat. setoid_rewrite <- list_elem_of_In. split.
    + intros (fs & Hfs & Hin). apply list_elem_of_lookup in Hfs as [i Hi].
      destruct (Forall2_lookup_r _ _ _ _ _ Hf Hi) as (e & _ & _ & Hp). by apply (Hp f).
    + intros Hfd. destruct (found_head _ _ _ Hfd) as (s & p & E). destruct Hfd as [Hin Ha].
      pose proof (Ha _ Ht) as Hs. rewrite E in Hs. cbn [anchor] in Hs.
      apply has_cons in Hs as (e & [He Hn]%nfind_Some & _).
      apply list_elem_of_lookup in He as [i Hi]. destruct (Forall2_lookup_l _ _ _ _ _ Hf Hi) as (fs & Hfs & _ & Hp).
      exists fs. split; [by eapply list_elem_of_lookup_2|]. apply Hp. split; [done|]. exists p. by rewrite E, Hn.
Qed.

Lemma has_step s mc e q : nfind s mc = Some e -> has (Node mc) (s :: q) = has (child_node e) q.
Proof. intros E. cbn [has]. by rewrite E. Qed.

(** What the walk sees of a child of a mirror. *)
Lemma mirror_entry cs mc e :
  wf_source (Dir cs) = true -> mirrors (Dir cs) (Node mc) -> e ∈ mc ->
  nfind (child_name e) mc = Some e /\ valid_utf8 (child_name e) = true /\
  is_tree (child_mode e) = is_node (child_node e) /\ is_commit (child_mode e) = false.
Proof.
  intros Hw Hm He. pose proof Hm as (Hmk & _). split; [apply nfind_elem; [by apply wf_nodup, Hmk|done]|].
  destruct (mirror_child cs mc (child_name e) e) as (c & Hs & _); [done|done|apply nfind_elem; [by apply wf_nodup, Hmk|done]|].
  apply source_find_Some in Hs as [Hc <-]. destruct (wf_source_child _ _ Hw Hc) as (Hname & _).
  split; [by apply wf_name_utf8|]. destruct (marks_mark_child _ _ Hmk He) as (_ & -> & _).
  unfold marker_mode. by destruct (is_node (child_node e)).
Qed.

Lemma collect_mirror_spec k h o n m prefix :
  wf_source n = true -> is_dir n = true -> loaded o n = true -> kept o m -> mirrors n m ->
  depth n <= k -> depth n <= h ->
  exists fs, walked n [m] fs /\ forall out,
    collect_mirror_paths h k o (node_oid m) (source_oid n) prefix out = Ok (out ++ (render prefix <$> fs)).
Proof.
  revert n m prefix. induction k as [|k IH]; intros n m prefix Hw Hd Hl Hk Hm Hdk Hdh.
  { destruct n; cbn in Hd, Hdk; [done..|lia]. }
  destruct n as [| |cs]; [done..|]. destruct m as [id|mc]; [by destruct Hm as (_ & ? & _)|].
  pose proof Hl as [Hf _]%loaded_Dir. cbn [collect_mirror_paths]. unfold read_tree_entries.
  rewrite Hf, (kept_find _ _ Hk). cbn [mbind res_bind].
  match goal with |- context [walk_entries ?f _ _] =>
    destruct (walk_entries_lists prefix child_entry_of f
      (fun e fs => part (Dir cs) [Node mc] (child_name e) fs) mc) as (fss & Hfs & E)
  end; [|exists (concat fss); split; [|exact E]; eapply walked_concat; [done|left|apply Hm|done]].
  intros e He. destruct (mirror_entry cs mc e) as (Hf' & Hu & Ht & Hc); [done..|].
  destruct (mirror_child cs mc _ e Hw Hm Hf') as (c & Hs & Hkind & Hsub).
  unfold child_entry_of. cbn [mode entry_oid filename]. rewrite Hu, Ht, Hc.
  destruct (is_node (child_node e)) eqn:En.
  - rewrite find_source_entry, Hs. pose proof Hs as [Hin _]%source_find_Some.
    destruct (wf_source_child _ _ Hw Hin) as (_ & _ & _ & Hwc). pose proof (depth_child cs c Hin).
    symmetry in Hkind. pose proof Hkind as [Hdc _]%andb_true_iff.
    destruct (IH c.2 (child_node e) (join_path prefix (child_name e))) as (fs & Hw' & E);
      [done|done|by eapply loaded_child|by eapply kept_child|by apply Hsub|lia|lia|].
    exists (down (child_name e) <$> fs). split; [|intros out; rewrite render_downs; apply E].
    eapply part_tree; [done|done|done| |done]. apply Forall2_cons. split; [|constructor].
    intros q. by apply has_step.
  - exists (down (child_name e) <$> files c.2). split; [|intros out; by apply emit_leaf_spec].
    eapply part_leaf; [done|done|done|]. intros m' ->%list_elem_of_singleton. by rewrite (has_step _ _ _ _ Hf'), has_root, En.
Qed.

Abbreviation mirror_entries := (fun mc : list child => (child_entry_of <$> mc : list entry)).

(** The children of a name in all mirrors. *)
Definition children_at (s : string) (mcs : list (list child)) (ms : list node) : Prop :=
  Forall2 (fun mc m => exists x, nfind s mc = Some x /\ m = child_node x) mcs ms.

Lemma child_roots_spec cs mcs e c :
  wf_source (Dir cs) = true -> Forall (fun mc => mirrors (Dir cs) (Node mc)) mcs ->
  source_find (filename e) cs = Some c -> is_tree (mode e) = is_dir c.2 && negb (small c.2) ->
  match child_roots e (mirror_entries <$> mcs) with
  | Some roots => exists ms : list node, roots = (node_oid <$> ms : list oid) /\ children_at (filename e) mcs ms
  | None => exists mc, (mc ∈ mcs) /\ nfind (filename e) mc = None
  end.
Proof.
  intros Hw Hm Hs Hk. induction Hm as [|mc mcs Hm _ IH]; [exists []; split; [done|constructor]|].
  rewrite fmap_cons. cbn [child_roots]. rewrite find_entry_entries.
  destruct (nfind (filename e) mc) as [x|] eqn:Ex; cbn [fmap option_fmap option_map].
  2: { exists mc. split; [left|done]. }
  destruct (mirror_child cs mc _ x Hw Hm Ex) as (c' & Hs' & Hk' & _). rewrite Hs in Hs'. injection Hs' as <-.
  destruct (mirror_entry cs mc x) as (_ & _ & Ht & _); [done|done|by apply nfind_Some in Ex as [? _]|].
  cbn [mode child_entry_of]. rewrite Ht, Hk', Hk, eqb_reflx.
  destruct (child_roots e _) as [roots|]; cbn.
  - destruct IH as (ms & -> & Hms). exists (child_node x :: ms). split; [done|]. constructor; [by exists x|done].
  - destruct IH as (mc' & Hin & E). exists mc'. split; [by right|done].
Qed.

Lemma children_at_has s mcs ms :
  children_at s mcs ms -> Forall2 (fun m m' => forall q, has m (s :: q) = has m' q) (Node <$> mcs) ms.
Proof.
  intros Hc. apply Forall2_fmap_l. eapply Forall2_impl; [exact Hc|]. intros mc m (x & Hx & ->) q. by apply has_step.
Qed.

Lemma children_at_mirrors cs mcs ms s c :
  wf_source (Dir cs) = true -> Forall (fun mc => mirrors (Dir cs) (Node mc)) mcs ->
  source_find s cs = Some c -> is_dir c.2 && negb (small c.2) = true ->
  children_at s mcs ms -> Forall (mirrors c.2) ms.
Proof.
  intros Hw Hm Hs Hk Hc. induction Hc as [|mc m mcs ms (x & Hx & ->) _ IH]; [constructor|].
  apply Forall_cons in Hm as [Hm Hms]. constructor; [|by apply IH].
  destruct (mirror_child cs mc s x Hw Hm Hx) as (c' & Hs' & Hk' & Hsub). rewrite Hs in Hs'. injection Hs' as <-.
  apply Hsub. by rewrite Hk'.
Qed.

Lemma children_at_leaf cs mcs ms s c :
  wf_source (Dir cs) = true -> Forall (fun mc => mirrors (Dir cs) (Node mc)) mcs ->
  source_find s cs = Some c -> is_dir c.2 && negb (small c.2) = false ->
  children_at s mcs ms -> forall m, m ∈ Node <$> mcs -> has m [s] = true.
Proof.
  intros Hw Hm Hs Hk Hat m (mc & -> & Hmc)%list_elem_of_fmap. rewrite Forall_forall in Hm. specialize (Hm mc Hmc).
  apply list_elem_of_lookup in Hmc as [i Hi]. destruct (Forall2_lookup_l _ _ _ _ _ Hat Hi) as (m & _ & x & Hx & _).
  destruct (mirror_child cs mc _ x Hw Hm Hx) as (c' & Hs' & Hk' & _). rewrite Hs in Hs'. injection Hs' as <-.
  by rewrite (has_step _ _ _ _ Hx), has_root, Hk', Hk.
Qed.

Lemma children_at_kept o s mcs ms :
  Forall (fun mc => kept o (Node mc)) mcs -> children_at s mcs ms -> Forall (kept o) ms.
Proof.
  intros Hk Hc. induction Hc as [|mc m mcs ms (x & Hx & ->) _ IH]; [constructor|].
  apply Forall_cons in Hk as [Hk Hks]. constructor; [|by apply IH].
  apply nfind_Some in Hx as [Hx _]. by eapply kept_child.
Qed.

Lemma min_by_len_elem {A} (m : list A) l : min_by_len m l ∈ m :: l.
Proof.
  revert m. induction l as [|t l IH]; intros m; [left|]. cbn [min_by_len].
  destruct (length t <? length m); specialize (IH t) as IHt; specialize (IH m) as IHm; set_solver.
Qed.

Lemma mirrors_nodes cs ms : Forall (mirrors (Dir cs)) ms -> exists mcs, ms = Node <$> mcs.
Proof.
  intros Hm. induction Hm as [|m ms (_ & Hn & _) _ [mcs ->]]; [by exists []|].
  destruct m as [|mc]; [done|]. by exists (mc :: mcs).
Qed.

Lemma read_mirrors o mcs :
  Forall (fun mc => kept o (Node mc)) mcs ->
  collect_res (read_tree_entries o <$> (node_oid <$> (Node <$> mcs))) = Ok (mirror_entries <$> mcs).
Proof.
  intros Hk. apply collect_res_ok. induction Hk as [|mc mcs Hk _ IH]; [done|]. rewrite !fmap_cons, IH. f_equal.
  unfold read_tree_entries. by rewrite (kept_find _ _ Hk).
Qed.

(** Mirrors with one address are one mirror. *)
Lemma walked_same n m ms fs :
  Forall (mirrors n) (m :: ms) ->
  forallb (fun id => bool_decide (id = node_oid m)) (node_oid <$> (m :: ms)) = true ->
  walked n [m] fs -> walked n (m :: ms) fs.
Proof.
  intros Hm Ha [Hn Hf]. split; [done|]. intros f. rewrite Hf. unfold found.
  assert (forall x, x ∈ m :: ms -> x = m) as Hx; [|split; intros [Hin Hs]; (split; [done|]); intros x Hx'].
  - intros x Hx. rewrite forallb_forall in Ha. rewrite Forall_forall in Hm.
    apply marks_oid_inj; [by apply Hm|apply Hm; left|]. apply (bool_decide_eq_true (node_oid x = node_oid m)), Ha.
    by apply list_elem_of_In, list_elem_of_fmap_2.
  - rewrite (Hx _ Hx'). apply Hs. left.
  - apply list_elem_of_singleton in Hx' as ->. apply Hs. left.
Qed.

Lemma intersect_walk_spec k h o n m ms prefix :
  wf_source n = true -> is_dir n = true -> loaded o n = true ->
  Forall (kept o) (m :: ms) -> Forall (mirrors n) (m :: ms) -> depth n <= k -> depth n <= h ->
  exists fs, walked n (m :: ms) fs /\ forall out,
    intersect_walk h k o (node_oid <$> (m :: ms)) (source_oid n) prefix out = Ok (out ++ (render prefix <$> fs)).
Proof.
  revert n m ms prefix. induction k as [|k IH]; intros n m ms prefix Hw Hd Hl Hk Hm Hdk Hdh.
  { destruct n; cbn in Hd, Hdk; [done..|lia]. }
  destruct n as [| |cs]; [done..|]. cbn [intersect_walk]. rewrite fmap_cons, <- fmap_cons.
  destruct (forallb _ _) eqn:Ea.
  { pose proof Hk as [Hk1 _]%Forall_cons. pose proof Hm as [Hm1 _]%Forall_cons.
    destruct (collect_mirror_spec h h o (Dir cs) m prefix) as (fs & Hfs & E); [done..|].
    exists fs. split; [by apply walked_same|done]. }
  clear Ea. destruct (mirrors_nodes _ _ Hm) as [mcs E]. rewrite E in *.
  apply (proj1 (Forall_fmap Node _ _)) in Hk, Hm.
  rewrite (read_mirrors o mcs Hk). cbn [mbind res_bind].
  destruct mcs as [|mc mcs]; [done|]. rewrite (fmap_cons mirror_entries). cbv beta iota.
  unfold read_tree_entries at 1. pose proof Hl as [Hf _]%loaded_Dir. rewrite Hf. cbn [mbind res_bind].
  pose proof (min_by_len_elem (mirror_entries mc) (mirror_entries <$> mcs)) as Hmin.
  rewrite <- (fmap_cons mirror_entries) in Hmin. apply list_elem_of_fmap in Hmin as (tc & -> & Htc).
  rewrite <- (fmap_cons mirror_entries). revert Hk Hm Htc. generalize (mc :: mcs). clear E mc mcs m ms.
  intros mcs Hk Hm Htc. pose proof (proj1 (Forall_forall _ _) Hm tc Htc) as Hmt.
  match goal with |- context [walk_entries ?f _ _] =>
    destruct (walk_entries_lists prefix child_entry_of f
      (fun e fs => part (Dir cs) (Node <$> mcs) (child_name e) fs) tc) as (fss & Hfs & E)
  end.
  2: { exists (concat fss). split; [|exact E]. eapply walked_concat; [done| |apply Hmt|done].
       by apply list_elem_of_fmap_2. }
  intros e He. destruct (mirror_entry cs tc e) as (Hf' & Hu & Ht & Hc); [done..|].
  destruct (mirror_child cs tc _ e Hw Hmt Hf') as (c & Hs & Hkind & _).
  pose proof (child_roots_spec cs mcs (child_entry_of e) c Hw Hm Hs) as Hroots.
  cbn [child_entry_of mode entry_oid filename] in *. rewrite Hu, Ht, Hc. specialize (Hroots (eq_trans Ht Hkind)).
  destruct (child_roots _ _) as [roots|].
  2: { destruct Hroots as (mc & Hin & E). exists []. split; [|intros out; by rewrite app_nil_r].
       apply (part_none _ _ _ (Node mc)); [by apply list_elem_of_fmap_2|]. intros q. cbn [has]. by rewrite E. }
  destruct Hroots as (ms & -> & Hat). destruct (is_node (child_node e)) eqn:En.
  - rewrite find_source_entry, Hs. pose proof Hs as [Hin _]%source_find_Some.
    destruct (wf_source_child _ _ Hw Hin) as (_ & _ & _ & Hwc). pose proof (depth_child cs c Hin).
    symmetry in Hkind. pose proof Hkind as [Hdc _]%andb_true_iff.
    destruct ms as [|m ms]; [apply Forall2_nil_inv_r in Hat as ->; by apply not_elem_of_nil in Htc|].
    destruct (IH c.2 m ms (join_path prefix (child_name e))) as (fs & Hw' & E);
      [done|done|by eapply loaded_child|by eapply children_at_kept|by eapply children_at_mirrors|lia|lia|].
    exists (down (child_name e) <$> fs). split; [|intros out; rewrite render_downs; apply E].
    eapply part_tree; [done|done|done|by apply children_at_has|done].
  - exists (down (child_name e) <$> files c.2). split; [|intros out; by apply emit_leaf_spec].
    eapply part_leaf; [done|done|done|by eapply children_at_leaf].
Qed.

End Walk.

(** * Names and paths *)

Lemma hex_name_inner c : inner_component (Normal (hex_name c)).
Proof. by destruct c as [[] [] [] [] [] [] [] []]. Qed.

Lemma trigram_components t : components (trigram_path t) = Normal <$> spine t.
Proof.
  assert (trigram_path t = join_slash (as_os_str <$> (Normal <$> spine t))) as -> by reflexivity.
  apply components_join_slash. repeat constructor; apply hex_name_inner.
Qed.

(** The component that a name is read as. *)
Definition comp (s : string) : component := if decide (s = "..") then ParentDir else Normal s.

Lemma as_os_str_comp s : as_os_str (comp s) = s.
Proof. unfold comp. by case_decide; subst. Qed.

Lemma split_slash_plain s : string_exists ends_name s = false -> split_slash s = [s].
Proof.
  induction s as [|c s IH]; [done|]. cbn [string_exists split_slash]. intros [Hc Hs]%orb_false_iff.
  rewrite decide_False; [by rewrite IH|]. by intros ->.
Qed.

Lemma wf_name_inner s : wf_name s = true -> inner_component (comp s).
Proof.
  intros [[[Hv He]%andb_true_iff _]%andb_true_iff Hd]%andb_true_iff.
  apply negb_true_iff in Hv, He, Hd. apply bool_decide_eq_false in He, Hd. unfold comp. case_decide as E; [done|].
  split; [|by apply split_slash_plain]. unfold component_of_part. by rewrite !decide_False.
Qed.

Section Find.
Context `{ObjectHash} `{ObjectBytes}.

Abbreviation file := (list string * string)%type.

Lemma join_path_text s l : s ≠ EmptyString -> foldl join_path s l = join_slash (s :: l).
Proof.
  revert s. induction l as [|x l IH]; intros s Hs; [done|]. cbn [foldl]. destruct s as [|c s]; [done|].
  cbn [join_path]. rewrite IH by done. destruct l as [|y l]; [done|].
  cbn [join_slash]. by rewrite <- append_assoc.
Qed.

(** The names of the path of a file. *)
Lemma files_names n f : wf_source n = true -> f ∈ files n -> Forall (fun s => wf_name s = true) f.1.
Proof.
  revert f. induction n as [d|id|cs IH] using source_ind'; intros f Hw.
  - intros ->%list_elem_of_singleton. constructor.
  - by intros ?%not_elem_of_nil.
  - intros (c & g & Hc & Hg & ->)%elem_of_files_Dir. destruct (wf_source_child _ _ Hw Hc) as (Hn & _ & _ & Hwc).
    rewrite Forall_forall in IH. constructor; [done|]. by eapply IH.
Qed.

Lemma render_text f : Forall (fun s => wf_name s = true) f.1 -> render EmptyString f = join_slash f.1.
Proof.
  unfold render. destruct f as [[|s l] d]; [done|]. cbn [fst]. intros [Hs _]%Forall_cons. cbn [foldl join_path].
  apply join_path_text. by intros ->.
Qed.

Lemma render_components n f :
  wf_source n = true -> f ∈ files n -> components (render EmptyString f) = comp <$> f.1.
Proof.
  intros Hw Hf. pose proof (files_names n f Hw Hf) as Hn. rewrite render_text by done.
  rewrite <- (components_join_slash (comp <$> f.1)).
  - rewrite <- list_fmap_compose. f_equal. f_equal. rewrite <- (list_fmap_id f.1) at 1.
    apply list_fmap_ext. intros i s _. symmetry. apply as_os_str_comp.
  - apply Forall_fmap. eapply Forall_impl; [exact Hn|]. apply wf_name_inner.
Qed.

(** * Reading a file *)

Lemma path_entry_file o n f :
  wf_source n = true -> loaded o n = true -> f ∈ files n ->
  path_entry o (source_oid n) (comp <$> f.1) = Ok (Some (compute_hash (OBlob f.2))) /\
  try_find o (compute_hash (OBlob f.2)) = Some (OBlob f.2).
Proof.
  revert f. induction n as [d|id|cs IH] using source_ind'; intros f Hw Hl.
  - intros ->%list_elem_of_singleton. split; [done|]. cbn [loaded] in Hl. by apply bool_decide_eq_true in Hl.
  - by intros ?%not_elem_of_nil.
  - intros Hin. pose proof Hw as [Hn _]%wf_source_Dir.
    apply elem_of_files_Dir in Hin as (c & g & Hc & Hg & ->). rewrite Forall_forall in IH.
    destruct (wf_source_child _ _ Hw Hc) as (_ & Et & _ & Hwc).
    destruct (IH c Hc g) as [E Ef]; [done|by eapply loaded_child|done|]. split; [|done].
    cbn [fst snd]. rewrite fmap_cons. cbn [path_entry]. pose proof Hl as [-> _]%loaded_Dir.
    rewrite as_os_str_comp, find_source_entry, (source_find_elem cs c Hn Hc). cbn [fmap option_fmap option_map].
    cbn [source_entry mode entry_oid]. rewrite Et.
    destruct c as [[m nm] [d|id|cs']]; cbn [is_dir snd fst] in *.
    + apply list_elem_of_singleton in Hg as ->. done.
    + by apply not_elem_of_nil in Hg.
    + rewrite E. by apply elem_of_files_Dir in Hg as (c & g' & _ & _ & ->).
Qed.

Lemma get_blob_path_file o n f :
  wf_source n = true -> loaded o n = true -> f ∈ files n ->
  get_blob_path o (source_oid n) (components (render EmptyString f)) = searched_text f.2.
Proof.
  intros Hw Hl Hf. rewrite (render_components n) by done. destruct (path_entry_file o n f) as [E Ef]; [done..|].
  unfold get_blob_path, read_blob_text. by rewrite E, Ef.
Qed.

(** * The trees below the trigrams *)

Lemma path_entry_node o cs p :
  marks (Node cs) -> kept o (Node cs) ->
  path_entry o (node_oid (Node cs)) (Normal <$> p) = Ok (node_oid <$> nlookup (Node cs) p).
Proof.
  revert cs. induction p as [|s p IH]; intros cs Hm Hk; [done|]. rewrite fmap_cons. cbn [path_entry nlookup].
  rewrite (kept_find _ _ Hk). cbn [as_os_str]. rewrite find_entry_entries.
  destruct (nfind s cs) as [c|] eqn:E; [|done]. cbn [fmap option_fmap option_map mbind option_bind].
  pose proof E as [Hc _]%nfind_Some. destruct (marks_mark_child _ _ Hm Hc) as (_ & Em & Hmc & _).
  pose proof (kept_child _ _ _ Hk Hc) as Hkc.
  cbn [child_entry_of mode entry_oid]. rewrite Em, marker_mode_tree. destruct p as [|s' p]; [done|].
  destruct (child_node c) as [id|cs'] eqn:Ec; [done|]. cbn [is_node]. by rewrite <- IH.
Qed.

Lemma has_app i p q : has i (p ++ q) = match nlookup i p with Some m => has m q | None => false end.
Proof.
  revert i. induction p as [|s p IH]; intros i; [done|]. destruct i as [id|cs]; [done|]. cbn [app has nlookup].
  destruct (nfind s cs) as [c|]; [|done]. apply IH.
Qed.

Lemma nlookup_kept o i p m : marks i -> kept o i -> nlookup i p = Some m -> marks m /\ kept o m.
Proof.
  revert i. induction p as [|s p IH]; intros i Hm Hk; [by intros [= <-]|]. destruct i as [id|cs]; [done|].
  cbn [nlookup]. destruct (nfind s cs) as [c|] eqn:E; [|done]. apply nfind_Some in E as [Hc _].
  apply IH; [by eapply marks_child|by eapply kept_child].
Qed.

(** The tree below a trigram of an index. *)
Definition mirror_of (o : odb) (n : source) (t : trigram) (m : node) : Prop :=
  kept o m /\ mirrors n m /\ forall q, has m q = true <-> recorded n t q.

Lemma mirror_found o n i t :
  is_dir n = true -> indexes i (recorded n) -> kept o i ->
  match nlookup i (spine t) with
  | Some m => mirror_of o n t m
  | None => forall f, f ∈ files n -> ~ has_trigram f.2 t
  end.
Proof.
  intros Hd Hi Hk. pose proof Hi as (Hm & _).
  assert (forall q, recorded n t q <-> match nlookup i (spine t) with Some m => has m q = true | None => False end) as Hq.
  { intros q. rewrite <- (indexes_has _ _ _ _ Hi), has_app. by destruct (nlookup i (spine t)). }
  destruct (nlookup i (spine t)) as [m|] eqn:E.
  - destruct (nlookup_kept o i _ m Hm Hk E) as [Hmm Hkm]. split; [done|]. split; [|intros q; by rewrite Hq].
    split; [done|]. split.
    + destruct m as [id|]; [|done]. destruct (proj2 (Hq []) eq_refl) as (f & Hf & _ & Ha).
      symmetry in Ha. apply anchor_nil in Ha; [|done]. by rewrite Hd in Ha.
    + intros q (f & Hf & _ & ->)%Hq. by exists f.
  - intros f Hf Ht. apply (Hq (anchor n f.1)). by exists f.
Qed.

Lemma trigram_roots_spec o n i l :
  is_dir n = true -> indexes i (recorded n) -> kept o i ->
  match trigram_roots o (node_oid i) l with
  | Ok (Some roots) => exists ms : list node, roots = (node_oid <$> ms : list oid) /\ Forall2 (mirror_of o n) l ms
  | Ok None => exists t, t ∈ l /\ forall f, f ∈ files n -> ~ has_trigram f.2 t
  | _ => False
  end.
Proof.
  intros Hd Hi Hk. pose proof Hi as (Hm & Hn & _). destruct i as [|ics]; [done|].
  induction l as [|t l IH]; [exists []; split; [done|constructor]|]. cbn [trigram_roots].
  rewrite trigram_components, path_entry_node by done. cbn [mbind res_bind].
  pose proof (mirror_found o n _ t Hd Hi Hk) as Hf.
  destruct (nlookup (Node ics) (spine t)) as [m|]; cbn [fmap option_fmap option_map].
  2: { exists t. split; [left|done]. }
  destruct (trigram_roots o _ l) as [[roots|]| |]; cbn [mbind res_bind option_map]; [|..|done|done].
  - destruct IH as (ms & -> & Hms). exists (m :: ms). split; [done|by constructor].
  - destruct IH as (t' & Ht & Hno). exists t'. split; [by right|done].
Qed.

(** ** The trees that are intersected *)

Lemma cap_roots_spec o (roots : list oid) :
  (forall id, id ∈ roots -> exists l, read_tree_entries o id = Ok l) -> roots ≠ [] ->
  exists roots', cap_roots o roots = Ok roots' /\ roots' ≠ [] /\ forall id, id ∈ roots' -> id ∈ roots.
Proof.
  intros Hr Hne. unfold cap_roots. destruct (MAX_INTERSECT <? length roots) eqn:Ec; [|by exists roots].
  assert (exists sized, collect_res ((fun id => l ← read_tree_entries o id; Ok (length l, id)) <$> roots) = Ok sized /\
    sized.*2 = roots) as (sized & -> & Es).
  { clear Hne Ec. induction roots as [|id roots IH]; [by exists []|].
    destruct (Hr id) as [l El]; [left|]. destruct IH as (sized & E & <-); [intros id' Hid; apply Hr; by right|].
    exists ((length l, id) :: sized). apply collect_res_ok in E. split; [|done]. apply collect_res_ok.
    rewrite fmap_cons, El, E. done. }
  eexists. split; [done|]. fold (sort_by sized_cmp sized). split.
  - intros E. apply (f_equal length) in E. rewrite length_fmap, length_take, sort_by_perm in E.
    apply Nat.ltb_lt in Ec. rewrite <- Es, length_fmap in Ec. cbn [length] in E. unfold MAX_INTERSECT in *. lia.
  - intros id (p & -> & Hp)%list_elem_of_fmap. apply elem_of_take in Hp as (i & Hp & _).
    apply list_elem_of_lookup_2 in Hp. rewrite sort_by_perm in Hp. rewrite <- Es. by apply list_elem_of_fmap_2.
Qed.

Lemma preimages (ms : list node) (roots : list oid) :
  (forall id, id ∈ roots -> id ∈ (node_oid <$> ms : list oid)) ->
  exists ms' : list node, roots = node_oid <$> ms' /\ forall m, m ∈ ms' -> m ∈ ms.
Proof.
  induction roots as [|id roots IH]; intros Hr; [exists []; split; [done|by intros m ?%not_elem_of_nil]|].
  destruct IH as (ms' & -> & Hs); [intros x Hx; apply Hr; by right|].
  destruct (proj1 (list_elem_of_fmap _ _ _) (Hr id ltac:(left))) as (m & -> & Hm).
  exists (m :: ms'). split; [done|]. by intros x [->|Hx]%elem_of_cons; [|apply Hs].
Qed.

Lemma elem_of_sort_oids l id : id ∈ dedup (sort_oids l) <-> id ∈ l.
Proof. rewrite elem_of_vec_dedup. unfold sort_oids. fold (sort_by String.compare l). by rewrite sort_by_perm. Qed.

Lemma roots_chosen o n t0 l ms :
  Forall2 (mirror_of o n) (t0 :: l) ms ->
  exists m ms', cap_roots o (dedup (sort_oids (node_oid <$> ms))) = Ok (node_oid <$> (m :: ms')) /\
    forall x, x ∈ m :: ms' -> exists t, t ∈ t0 :: l /\ mirror_of o n t x.
Proof.
  intros Hms. assert (forall x, x ∈ ms -> exists t, t ∈ t0 :: l /\ mirror_of o n t x) as Hx.
  { intros x [i Hi]%list_elem_of_lookup. destruct (Forall2_lookup_r _ _ _ _ _ Hms Hi) as (t & Ht & Hm).
    exists t. split; [by eapply list_elem_of_lookup_2|done]. }
  destruct (cap_roots_spec o (dedup (sort_oids (node_oid <$> ms)))) as (roots & -> & Hne & Hsub).
  - intros id (m & -> & Hm)%elem_of_sort_oids%list_elem_of_fmap. destruct (Hx m Hm) as (t & _ & Hk & (_ & Hn & _) & _).
    destruct m as [|cs]; [done|]. exists (child_entry_of <$> cs). unfold read_tree_entries. by rewrite (kept_find _ _ Hk).
  - inversion Hms as [|? m ? ms' _ _]; subst. intros E.
    assert (node_oid m ∈ dedup (sort_oids (node_oid <$> m :: ms'))) as Hin by (apply elem_of_sort_oids; left).
    rewrite E in Hin. by apply not_elem_of_nil in Hin.
  - destruct (preimages ms roots) as (ms' & -> & Hsub').
    { intros id Hid. by apply elem_of_sort_oids, Hsub. }
    destruct ms' as [|m ms']; [done|]. exists m, ms'. split; [done|]. intros x Hin. by apply Hx, Hsub'.
Qed.

(** The candidates: files of the tree, each once, and all files that have the trigrams of the
    string. *)
Lemma candidates_spec h o n v q :
  wf_source n = true -> is_dir n = true -> loaded o n = true -> index_of o n v -> depth n <= h ->
  exists fs, search_candidates h o v (source_oid n) q = Ok (render EmptyString <$> fs) /\ NoDup fs /\
    (forall f, f ∈ fs -> f ∈ files n) /\
    forall f, f ∈ files n -> (forall t, t ∈ distinct_trigrams q -> has_trigram f.2 t) -> f ∈ fs.
Proof.
  intros Hw Hd Hl (i & -> & Hi & Hk) Hh. unfold search_candidates.
  destruct (distinct_trigrams q) as [|t0 l0] eqn:Eq.
  { exists (files n). rewrite collect_paths_spec by done. split; [done|]. split; [by apply files_nodup|]. done. }
  pose proof (trigram_roots_spec o n i (t0 :: l0) Hd Hi Hk) as Hr.
  destruct (trigram_roots _ _ _) as [[roots|]| |]; [|..|done|done]; cbn [mbind res_bind].
  2: { destruct Hr as (t & Ht & Hno). exists []. split; [done|]. split; [constructor|].
       split; [by intros f ?%not_elem_of_nil|]. intros f Hf Hall. by destruct (Hno f Hf (Hall t Ht)). }
  destruct Hr as (ms & -> & Hms).
  destruct (roots_chosen o n t0 l0 ms Hms) as (m & ms' & -> & Hx). cbn [mbind res_bind].
  destruct (intersect_walk_spec h h o n m ms' EmptyString) as (fs & [Hn Hf] & E); [done|done|done|..|done|done|].
  1, 2: apply Forall_forall; intros x Hin; by destruct (Hx x Hin) as (t & _ & ? & ? & _).
  exists fs. split; [by rewrite E|]. split; [done|]. split; [intros f Hin; by apply Hf|].
  intros f Hin Hall. apply Hf. split; [done|]. intros x Hx'. destruct (Hx x Hx') as (t & Ht & _ & _ & Hrec).
  apply Hrec. exists f. split; [done|]. split; [by apply Hall|done].
Qed.

(** * Matches *)

Lemma starts_with_app p s : starts_with p s = true <-> exists b, s = p +:+ b.
Proof.
  revert s. induction p as [|a p IH]; intros s; [split; [by exists s|done]|]. destruct s as [|b s]; cbn [starts_with].
  - split; [done|by intros [? ?]].
  - rewrite andb_true_iff, bool_decide_eq_true, IH. split.
    + intros [-> [r ->]]. by exists r.
    + intros [r [= -> ->]]. split; [done|by exists r].
Qed.

(** [str::contains] finds the texts that occur. *)
Lemma str_contains_infix p s : str_contains p s = true <-> infix p s.
Proof.
  induction s as [|c s IH]; cbn [str_contains].
  - rewrite orb_false_r, starts_with_app. split; [intros [b E]; by exists EmptyString, b|].
    intros ([|] & b & E); [by exists b|done].
  - rewrite orb_true_iff, starts_with_app, IH. split.
    + intros [[b E]|(a & b & ->)]; [by exists EmptyString, b|by exists (String c a), b].
    + intros ([|a a'] & b & E); [left; by exists b|]. injection E as -> ->. right. by exists a', b.
Qed.

(** The lines with the string are those that contain it, each with its number. *)
Lemma elem_of_matching_lines q k l i x :
  (i, x) ∈ matching_lines q k l <-> exists j, l !! j = Some x /\ i = k + j + 1 /\ infix q x.
Proof.
  revert k. induction l as [|y l IH]; intros k; cbn [matching_lines].
  { split; [by intros ?%not_elem_of_nil|by intros (j & ? & _)]. }
  rewrite elem_of_app, IH. split.
  - intros [Hy|(j & Hj & -> & Hi)]; [|exists (S j); split; [done|]; split; [lia|done]].
    destruct (str_contains q y) eqn:E; [|by apply not_elem_of_nil in Hy].
    apply list_elem_of_singleton in Hy as [= -> ->]. exists 0. split; [done|]. split; [lia|by apply str_contains_infix].
  - intros ([|j] & Hj & -> & Hi); cbn in Hj; [injection Hj as ->; left|right; exists j; split; [done|]; split; [lia|done]].
    apply str_contains_infix in Hi. rewrite Hi. apply list_elem_of_singleton. f_equal. lia.
Qed.

Lemma infix_cons p a s : infix p s -> infix p (String a s).
Proof. intros (x & b & ->). by exists (String a x), b. Qed.

Lemma split_on_shape c s :
  exists l rest b, split_on c s = l :: rest /\ s = l +:+ b /\ forall x, x ∈ rest -> infix x s.
Proof.
  induction s as [|a s (l & rest & b & E & Es & Hr)]; cbn [split_on].
  { exists EmptyString, [], EmptyString. split; [done|]. split; [done|]. by intros x ?%not_elem_of_nil. }
  rewrite E. case_decide.
  - exists EmptyString, (l :: rest), (String a s). split; [done|]. split; [done|]. intros x Hx. apply infix_cons.
    apply elem_of_cons in Hx as [->|Hx]; [|by apply Hr]. by exists EmptyString, b.
  - exists (String a l), rest, b. split; [done|]. split; [by rewrite Es|]. intros x Hx. by apply infix_cons, Hr.
Qed.

Lemma strip_return_prefix s : exists b, s = strip_return s +:+ b.
Proof.
  induction s as [|a s [b IH]]; [by exists EmptyString|]. destruct s as [|a' s]; cbn [strip_return].
  - case_decide; [by exists (String a EmptyString)|by exists EmptyString].
  - exists b. change (String a (String a' s) = String a (strip_return (String a' s) +:+ b)). by rewrite <- IH.
Qed.

Lemma ended_lines_infix l x : x ∈ ended_lines l -> exists y, y ∈ l /\ infix x y.
Proof.
  induction l as [|y l IH]; [by intros ?%not_elem_of_nil|]. destruct l as [|z l].
  - cbn [ended_lines]. case_decide; [by intros ?%not_elem_of_nil|]. intros ->%list_elem_of_singleton.
    exists y. split; [left|]. exists EmptyString, EmptyString. by rewrite append_nil_r.
  - change (ended_lines (y :: z :: l)) with (strip_return y :: ended_lines (z :: l)).
    intros [->|Hx]%elem_of_cons; [|destruct (IH Hx) as (w & Hw & Hi); exists w; split; [by right|done]].
    exists y. split; [left|]. destruct (strip_return_prefix y) as [b E]. by exists EmptyString, b.
Qed.

Lemma lines_infix s x : x ∈ lines s -> infix x s.
Proof.
  intros (y & Hy & Hi)%ended_lines_infix. destruct (split_on_shape newline s) as (l & rest & b & E & Es & Hr).
  rewrite E in Hy. eapply infix_trans; [exact Hi|].
  apply elem_of_cons in Hy as [->|Hy]; [|by apply Hr]. by exists EmptyString, b.
Qed.

(** What a search should give for a file, and for a tree: the lines of the text of the file. *)
Definition hit (q : string) (f : file) : option (string * list (nat * string)) :=
  match matching_lines q 0 (lines (searched_text f.2)) with
  | [] => None
  | l => Some (join_slash f.1, l)
  end.

Definition hits (q : string) (n : source) : list (string * list (nat * string)) := omap (hit q) (files n).

Lemma hit_trigrams q f r t : hit q f = Some r -> t ∈ distinct_trigrams q -> has_trigram f.2 t.
Proof.
  unfold hit. destruct (matching_lines _ _ _) as [|[i x] l] eqn:E; [done|]. intros _ Ht.
  assert ((i, x) ∈ matching_lines q 0 (lines (searched_text f.2))) as Hin by (rewrite E; left).
  apply elem_of_matching_lines in Hin as (j & Hj & _ & Hi). unfold has_trigram.
  apply (infix_trigrams q); [|done]. eapply infix_trans; [exact Hi|]. apply lines_infix. by eapply list_elem_of_lookup_2.
Qed.

Lemma search_matches_spec o n q fs :
  wf_source n = true -> loaded o n = true -> (forall f, f ∈ fs -> f ∈ files n) ->
  search_matches o (source_oid n) q (render EmptyString <$> fs) = omap (hit q) fs.
Proof.
  intros Hw Hl Hf. induction fs as [|f fs IH]; [done|]. rewrite fmap_cons. cbn [search_matches].
  rewrite (get_blob_path_file o n f), IH; [|intros g Hg; apply Hf; by right|done|done|apply Hf; left].
  rewrite (render_text f) by (eapply files_names; [done|apply Hf; left]). cbn.
  destruct (hit q f) eqn:E; unfold hit in E; by destruct (matching_lines _ _ _); simplify_eq.
Qed.

(** The matches in the candidates are the matches in the tree. *)
Lemma candidate_hits q n fs :
  wf_source n = true -> NoDup fs -> (forall f, f ∈ fs -> f ∈ files n) ->
  (forall f, f ∈ files n -> (forall t, t ∈ distinct_trigrams q -> has_trigram f.2 t) -> f ∈ fs) ->
  omap (hit q) fs ≡ₚ hits q n.
Proof.
  intros Hw Hn Hs Hall. pose proof (files_nodup n Hw) as Hnf.
  destruct (submseteq_Permutation fs (files n)) as [rest Hp]; [by apply NoDup_submseteq|].
  unfold hits. rewrite Hp, omap_app. replace (omap (hit q) rest) with (@nil (string * list (nat * string))); [by rewrite app_nil_r|].
  rewrite Hp in Hnf. apply NoDup_app in Hnf as (_ & Hd & _).
  assert (forall f, f ∈ rest -> hit q f = None) as Hr.
  { intros f Hf. destruct (hit q f) as [r|] eqn:E; [|done]. destruct (Hd f); [|done]. apply Hall.
    - rewrite Hp. apply elem_of_app. by right.
    - intros t. by eapply hit_trigrams. }
  clear -Hr. induction rest as [|f rest IH]; [done|]. cbn. rewrite (Hr f) by left. apply IH. intros g Hg. apply Hr. by right.
Qed.

(** * The scan of all files *)

(** The path of an entry that the scan keeps. *)
Definition scanned (x : string * entry) : option string :=
  let '(parent, e) := x in
  if negb (is_tree (mode e)) && negb (is_commit (mode e)) && valid_utf8 (filename e)
  then Some (join_path parent (filename e)) else None.

Lemma walk_preorder_files k o n prefix :
  wf_source n = true -> is_dir n = true -> loaded o n = true -> depth n <= k ->
  exists l, walk_tree_preorder k o (source_oid n) prefix = Ok l /\
    omap scanned l = render prefix <$> files n.
Proof.
  revert n prefix. induction k as [|k IH]; intros n prefix Hw Hd Hl Hk.
  { destruct n; cbn in Hd, Hk; [done..|lia]. }
  destruct n as [| |cs]; [done..|]. cbn [walk_tree_preorder]. pose proof Hl as [-> _]%loaded_Dir.
  set (walk := fun e : entry => _). assert (exists ls, walk <$> (source_entry <$> cs) = Ok <$> ls /\
    omap scanned (concat ls) = render prefix <$> files (Dir cs)) as (ls & E & Eo).
  2: { apply collect_res_ok in E. rewrite E. exists (concat ls). by split. }
  rewrite files_Dir. assert (forall c, c ∈ cs -> exists l, walk (source_entry c) = Ok l /\
    omap scanned l = render prefix <$> (down c.1.2 <$> files c.2)) as Hc.
  - intros c Hc. destruct (wf_source_child _ _ Hw Hc) as (Hn & Et & Ec & Hwc). apply wf_name_utf8 in Hn.
    pose proof (depth_child cs c Hc). pose proof (loaded_child _ _ _ Hl Hc) as Hlc.
    destruct c as [[m nm] n]. unfold walk. cbn [source_entry mode entry_oid filename fst snd] in *. rewrite Et.
    destruct n as [d|id|cs']; cbn [is_dir is_submodule] in *.
    + eexists. split; [done|]. cbn. by rewrite Et, Ec, Hn.
    + eexists. split; [done|]. cbn. by rewrite Et, Ec.
    + rewrite Hn. destruct (IH (Dir cs') (join_path prefix nm)) as (l & El & Eo); [done|done|done|lia|].
      unfold child_path. fold (join_path prefix nm). rewrite El. eexists. split; [done|]. rewrite render_downs. cbn. rewrite Et. exact Eo.
  - clear -Hc. induction cs as [|c cs IHc]; [by exists []|].
    destruct (Hc c) as (l & El & Eo); [left|]. destruct IHc as (ls & Els & Eos); [intros x Hx; apply Hc; by right|].
    exists (l :: ls). split; [by rewrite !fmap_cons, El, Els|]. cbn [concat].
    by rewrite omap_app, Eo, Eos, bind_cons, fmap_app.
Qed.

Lemma scan_files_spec h o n :
  wf_source n = true -> is_dir n = true -> loaded o n = true -> depth n <= h ->
  scan_files h o (source_oid n) = Ok (render EmptyString <$> files n).
Proof.
  intros Hw Hd Hl Hh. unfold scan_files. destruct (walk_preorder_files h o n EmptyString) as (l & -> & E); [done..|].
  cbn [mbind res_bind]. f_equal. exact E.
Qed.

End Find.
