(* ===== verification/SearchLaws.v ===== *)
(** What the search of josh-search gives: the matches of a scan of all files, whatever the caches
    hold, and the same index from every state; with runs on concrete trees. *)

From S2P Require Import Utf8 Path Objects Store Node NodeFacts Refine Trailers TreePaths Apply SearchIndex Search SearchTrees SearchSpec SearchBuild SearchRun SearchFind HistoryHint CommitCache Concrete Prelude Ops.

Open Scope nat_scope.

(** * Instances *)

#[local] Instance parsed_bytes : ObjectBytes := {|
  SearchIndex.from_bytes x := match x with OTree l => Ok l | _ => Err "not a tree" end;
  SearchIndex.from_bytes_tree l := eq_refl;
  SearchIndex.header_size x := match x with OBlob d => Z.of_nat (String.length d) | _ => 0%Z end;
|}.

#[local] Instance map_cache : IndexCache (gmap oid oid) := {|
  get_index _ k c := (c !! k, c);
  set_index k v c := <[k := v]> c;
|}.

#[local, program] Instance map_cache_lawful : LawfulIndexCache (gmap oid oid) := {|
  cache_ok _ := True;
  key_ok _ := True;
  knows c k v := c !! k = Some v;
|}.
Next Obligation. intros o k c r c' _ _ [= <- <-]. done. Qed.
Next Obligation.
  intros k v c _ _ _. split; [done|]. intros k' v'. cbn. rewrite lookup_insert_Some. intros [[-> ->]|[_ ?]]; auto.
Qed.

Section Laws.
Context `{ObjectHash} `{ObjectBytes} {C : Type} `{LawfulIndexCache C}.

(** A new indexer with a cache that knows nothing can start on any repository. *)
Lemma fresh_ready o c :
  odb_ok o -> complete o -> cache_ok c -> (forall k v, ~ knows c k v) ->
  ready (MkRun o c Indexer_default []).
Proof.
  intros Ho Hc Hok Hk. split; try done.
  - by intros t v ?%not_elem_of_nil.
  - intros n t v _ Hv. by destruct (Hk t v).
Qed.

(** C15: From every sound state between calls ([ready]: a new indexer, or one left by calls that
    succeeded, over a cache whose indexes are right and stored), [trigram_index] on the root of a
    stored tree succeeds, and a search with the index it returns succeeds for every string and
    reports exactly the lines that contain the string, of exactly the files that have one, each
    file once: small directories as one leaf, the cap on the trees that are intersected, the
    folding of bytes, and indexes from the memo tables and the cache neither lose nor add a
    match.  The state it leaves is sound again. *)
Theorem search_is_exact h (s : Run C) n :
  ready s -> wf_source n = true -> is_dir n = true -> keyed n -> loaded (src s) n = true ->
  4 + depth n <= h ->
  ample (fun k => exists index s', trigram_index h k (source_oid n) s = (Ok index, s') /\ ready s' /\
    forall q, exists candidates,
      search_candidates h (src s') index (source_oid n) q = Ok candidates /\
      search_matches (src s') (source_oid n) q candidates ≡ₚ hits q n).
Proof.
  intros Hs Hw Hd Hk Hl Hh. eapply ample_impl; [by apply (trigram_index_spec h s n)|]. cbn.
  intros k (v & s' & E & Hs' & Hks & Hi). exists v, s'. split; [done|]. split; [done|]. intros q.
  pose proof (loaded_keeps _ _ _ Hks Hl) as Hl'.
  destruct (candidates_spec h (src s') n v q) as (fs & -> & Hn & Hsub & Hall); [done|done|done|done|lia|].
  eexists. split; [done|]. rewrite (search_matches_spec _ n) by done. by apply candidate_hits.
Qed.

(** The search without an index, over a scan of all files, reports the same matches, in the
    order of the tree. *)
Lemma scan_search_hits h o n q :
  wf_source n = true -> is_dir n = true -> loaded o n = true -> depth n <= h ->
  exists candidates, scan_files h o (source_oid n) = Ok candidates /\
    search_matches o (source_oid n) q candidates = hits q n.
Proof.
  intros Hw Hd Hl Hh. eexists. split; [by apply scan_files_spec|]. by apply search_matches_spec.
Qed.

(** C25: The index of a tree does not depend on what was indexed before: from any two sound states
    between calls ([ready]: a new indexer, or one left by calls that succeeded, over a cache whose
    indexes are right and stored), [trigram_index] returns the same address. *)
Theorem index_is_canonical h (s1 s2 : Run C) n :
  ready s1 -> ready s2 -> wf_source n = true -> is_dir n = true -> keyed n ->
  loaded (src s1) n = true -> loaded (src s2) n = true -> 4 + depth n <= h ->
  ample (fun k => exists index,
    (trigram_index h k (source_oid n) s1).1 = Ok index /\ (trigram_index h k (source_oid n) s2).1 = Ok index).
Proof.
  intros Hs1 Hs2 Hw Hd Hk Hl1 Hl2 Hh.
  eapply ample_and; [by apply (trigram_index_spec h s1 n)|by apply (trigram_index_spec h s2 n)|]. cbn.
  intros k (v1 & s1' & -> & _ & _ & i & -> & Hi & _) (v2 & s2' & -> & _ & _ & j & -> & Hj & _).
  exists (node_oid i). split; [done|]. by rewrite (indexes_unique j i (recorded n) (recorded n)).
Qed.

End Laws.

(** * Runs *)

Definition blob (name data : string) : entry_mode * string * source := (blob_mode, name, File data).
Definition sub (name : string) (cs : list (entry_mode * string * source)) :
    entry_mode * string * source := (tree_mode, name, Dir cs).

Section Stored.
Context `{ObjectHash}.

(** The objects of a source tree. *)
Fixpoint source_objects (n : source) : list object :=
  match n with
  | File data => [OBlob data]
  | Submodule _ => []
  | Dir cs => OTree (source_entry <$> cs) :: concat ((fun c => source_objects c.2) <$> cs)
  end.

(** Whether every subtree of a tree of the list is in the list. *)
Definition closed (l : list object) : bool :=
  forallb (fun x =>
    match x with
    | OTree es => forallb (fun e => negb (is_tree (mode e)) ||
        existsb (fun y => match y with OTree _ => bool_decide (compute_hash y = entry_oid e) | _ => false end) l) es
    | _ => true
    end) l.

Lemma store_of_disk l id x : disk (store_of l) !! id = Some x -> x ∈ l /\ id = compute_hash x.
Proof.
  cbn. intros (y & [= -> ->] & Hy)%elem_of_list_to_map_2%list_elem_of_fmap. done.
Qed.

Lemma store_of_find l x : x ∈ l -> try_find (store_of l) (compute_hash x) = Some x.
Proof.
  intros Hx. assert (disk (store_of l) !! compute_hash x ≠ None) as Hd.
  { cbn. intros E%not_elem_of_list_to_map_2. apply E. apply list_elem_of_fmap.
    exists (compute_hash x, x). split; [done|]. apply list_elem_of_fmap. by exists x. }
  unfold try_find, disk_read. change (mem (store_of l)) with (∅ : gmap oid object). rewrite lookup_empty.
  destruct (disk (store_of l) !! compute_hash x) as [y|] eqn:E; [|done].
  apply store_of_disk in E as [_ E]. by apply compute_hash_inj in E as ->.
Qed.

Lemma store_of_complete l : closed l = true -> complete (store_of l).
Proof.
  intros Hc id es e Hf He Ht. assert (OTree es ∈ l) as Hin.
  { unfold try_find, disk_read in Hf. change (mem (store_of l)) with (∅ : gmap oid object) in Hf. rewrite lookup_empty in Hf.
    destruct (disk (store_of l) !! id) as [y|] eqn:E; [|by case_decide; simplify_eq; apply not_elem_of_nil in He].
    injection Hf as ->. by apply store_of_disk in E as [? _]. }
  unfold closed in Hc. rewrite forallb_forall in Hc. specialize (Hc (OTree es) (proj1 (list_elem_of_In _ _) Hin)). cbn in Hc.
  rewrite forallb_forall in Hc. specialize (Hc e (proj1 (list_elem_of_In _ _) He)). rewrite Ht in Hc. cbn in Hc.
  apply existsb_exists in Hc as (y & Hy%list_elem_of_In & Hb). destruct y as [|es'| |]; try done.
  apply bool_decide_eq_true in Hb. exists es'. rewrite <- Hb. by apply store_of_find.
Qed.

End Stored.

(** A repository with the objects of source trees, a new indexer and an empty cache. *)
Definition start (l : list source) : Run (gmap oid oid) :=
  MkRun (store_of (concat (source_objects <$> l))) ∅ Indexer_default [].

Lemma start_ready l : closed (concat (source_objects <$> l)) = true -> ready (start l).
Proof.
  intros Hc. apply fresh_ready; [apply store_of_ok|by apply store_of_complete|done|].
  intros k v Hk. by apply lookup_empty_Some in Hk.
Qed.

(** A file next to a small directory, which has a file without the trigrams of the other two. *)
Definition sample : source := Dir [blob "a.txt" "Fir"; sub "a" [blob "x" "a Fir"; blob "y" "zz"]].

Lemma search_is_exact_witness :
  ample (fun k => exists index s', trigram_index 7 k (source_oid sample) (start [sample]) = (Ok index, s') /\ ready s' /\
    forall q, exists candidates,
      search_candidates 7 (src s') index (source_oid sample) q = Ok candidates /\
      search_matches (src s') (source_oid sample) q candidates ≡ₚ hits q sample).
Proof.
  apply (search_is_exact 7 (start [sample]) sample);
    [apply start_ready|..|apply keyed_all; intros id; exact I| |]; vm_compute; try reflexivity. lia.
Defined.

Lemma index_is_canonical_witness :
  ample (fun k => exists index,
    (trigram_index 7 k (source_oid sample) (start [sample])).1 = Ok index /\
    (trigram_index 7 k (source_oid sample) (start [Dir [sub "b" [blob "z" "Fir"]]; sample])).1 = Ok index).
Proof.
  apply (index_is_canonical 7 (start [sample]) (start [Dir [sub "b" [blob "z" "Fir"]]; sample]) sample);
    [apply start_ready|apply start_ready|..|apply keyed_all; intros id; exact I| | |]; vm_compute; try reflexivity. lia.
Defined.

(** The search of a string in a tree, with the index and by a scan. *)
Definition indexed_search (n : source) (q : string) (s : Run (gmap oid oid)) :
    res (list (string * list (nat * string))) :=
  let '(r, s) := trigram_index 9 200 (source_oid n) s in
  index ← r;
  candidates ← search_candidates 9 (src s) index (source_oid n) q;
  Ok (search_matches (src s) (source_oid n) q candidates).

Definition scan_search (n : source) (q : string) (s : Run (gmap oid oid)) :
    res (list (string * list (nat * string))) :=
  candidates ← scan_files 9 (src s) (source_oid n);
  Ok (search_matches (src s) (source_oid n) q candidates).

(** The two searches agree up to the order of the files only: the leaf of the small directory
    [a] sorts in the index before [a.txt], as a file, and in the source tree after it. *)
Example search_order_differs :
  indexed_search sample "Fir" (start [sample]) = Ok [("a/x", [(1, "a Fir")]); ("a.txt", [(1, "Fir")])] /\
  scan_search sample "Fir" (start [sample]) = Ok [("a.txt", [(1, "Fir")]); ("a/x", [(1, "a Fir")])].
Proof. by vm_compute. Qed.

(** A directory that is not small, and a directory that holds it and a name that is not UTF-8. *)
Definition large : source :=
  Dir ((fun name => blob name "abc") <$>
    ["a"; "b"; "c"; "d"; "e"; "f"; "g"; "h"; "i"; "j"; "k"; "l"; "m"; "n"; "o"; "p"; "q"]).
Definition unreadable : source := Dir [(tree_mode, "d", large); blob (String "255" EmptyString) "x"].

(** An indexer that is kept after a failure gives an index that is not stored: the call on
    [unreadable] fails after it has noted the index of [large] in [tree_memo], and the next call
    on [large] answers from there, with nothing to flush.  The search then finds nothing and
    does not fail, where a new indexer finds every file. *)
Example failed_index_is_lost :
  let s := (trigram_index 9 200 (source_oid unreadable) (start [unreadable])).2 in
  (trigram_index 9 200 (source_oid unreadable) (start [unreadable])).1 = Err "invalid utf-8" /\
  indexed_search large "abc" s = Ok [] /\
  indexed_search large "abc" (start [unreadable]) = scan_search large "abc" s /\
  scan_search large "abc" s = Ok ((fun f => (join_slash f.1, [(1, "abc")])) <$> files large).
Proof. by vm_compute. Qed.

(** * The cache of a transaction *)

(** A tree without trigrams, with addresses of twenty bytes for it and its index. *)
Definition short : source := Dir [blob "a" "x"].
Definition short_names : list (object * oid) :=
  [(OTree [], "4b825dc642cb6eb9a060e54bf8d69288fbee4904");
   (OTree [Entry blob_mode "a" (object_code (OBlob "x"))], "15d6f44a86fcbf8d9a5a9bf6a8ae8ac6ee6a9c67")].

Section Transaction.
#[local] Instance short_hash : ObjectHash | 0 := named_hash short_names eq_refl.
Context {B : Type} `{LawfulBackend B}.

(** What the search asks of a cache holds of the cache of a transaction, over any stack of
    backends that have no index. *)
Example transaction_cache_fits (l : list B) h :
  stack_ok l -> (forall b k, b ∈ l -> backend_view b index_filter k h true = None) ->
  keyed (C := TrigramIndexCache B) short /\
  ready (MkRun (store_of (source_objects short)) (MkIndexCache ∅ l h) Indexer_default []).
Proof.
  intros Hl Hv. assert (forall k v, ~ known_index (MkIndexCache ∅ l h) k v) as Hk.
  { intros k v [_ [Hm|(b & Hb & Ev)]]; cbn [index_map index_stack hint] in *; [by apply lookup_empty_Some in Hm|]. by rewrite Hv in Ev. }
  split.
  - constructor.
    + reflexivity.
    + intros i Hi. cut (i = nempty); [intros ->; reflexivity|].
      eapply indexes_unique; [exact Hi|apply (indexes_empty (recorded short))|done].
      intros t q (f & Hf & Ht & _). apply list_elem_of_singleton in Hf as ->. by apply not_elem_of_nil in Ht.
    + intros c ->%list_elem_of_singleton. constructor.
  - apply fresh_ready; [apply store_of_ok|by apply store_of_complete| |exact Hk]. split; [done|].
    intros k v Hkv. by destruct (Hk k v).
Qed.

End Transaction.
